(* ===== verification/_CoqProject ===== *)
-Q . S2P
Prelude.v
RustStr.v
Json.v
Db.v
Session.v
Events.v
Pairing.v
Ledger.v
Schedule.v
Cron.v
Handle.v
Routing.v
Actor.v
Approval.v
Throttler.v
Inbound.v
Shell.v
Detect.v
Terminal.v
Files.v
Drain.v
Boots.v
Jobs.v
Delivery.v
Targets.v
Outgoing.v
Tables.v
Egress.v
Search.v
Context.v
Web.v
Attachments.v
Buttons.v
Paths.v
FileTool.v
Skills.v
Writes.v
Store.v
CronTool.v
Executor.v
Cutover.v
