(* ===== verification/Prelude.v ===== *)
(** * omo-gateway: a verification development

    The gateway connects Discord (and cron, the dashboard, voice) to an agent
    backend.  An inbound event is admitted by the adapter, claimed once in the
    delivery ledger, routed to a profile and to the one actor of its session,
    which runs agent turns and answers through a dispatcher; replies owed are
    kept as obligations until Discord has them; risky commands wait for the
    user's approval; cron jobs start turns of their own.  State lives in one
    SQLite database and in a few maps under locks.

    ** Files, in dependency order

    - [Prelude]: [Result] and [?], hints, general lemmas.
    - [RustStr]: strings as UTF-8 bytes, decimal, trimming, splitting.
    - [Json]: [serde_json::Value].
    - [Db]: tables, statements, transactions, faults, and two program logics:
      [keeps]/[triple] for any faults, [total]/[steady] without.
    - [Session] (src/models/session.rs): [SessionKey], its storage key and
      parser, [SessionState] with its stored form.
    - [Events] (src/models/events.rs): inbound events, outbound actions, prompts.
    - [Pairing] (src/discord/pairing.rs): pairing codes, lockouts, rate limits.
    - [Ledger] (src/ledger/service.rs, src/models/ledger.rs): inbound claims,
      obligations, the startup and the reconnect sweep, pruning, recovery.
    - [Schedule] (src/cron/scheduler.rs, pure part): next runs, backoff, repeats.
    - [Cron] (src/cron/scheduler.rs, store.rs, guard.rs): runs, leases, completion.
    - [Handle] (src/multiplexer/router.rs, gc.rs): mailboxes, eviction.
    - [Routing] (src/multiplexer/profile_routing.rs): routes to profiles.
    - [Actor] (src/multiplexer/actor.rs, part of src/storage/db.rs): the loop of
      a session's actor and the recovery of interrupted turns.
    - [Approval] (src/discord/approval.rs): grants, pending requests, buttons.
    - [Throttler] (src/discord/throttler.rs): message splitting, live edits.
    - [Inbound] (src/discord/adapter.rs, the inbound half; authorizations of
      src/discord/commands.rs): the filter, the debouncer, the backfill.
    - [Shell] (src/security/normalize.rs): the scanners of shell text (quotes,
      substitutions, heredocs, groups) and the variants a command is read as.
    - [Detect] (hardline.rs, dangerous.rs, tirith.rs, scan.rs and neutralize.rs
      of src/security/): the floor, the dangerous patterns, the outside
      scanner, prompt injection, text made safe to quote.
    - [Terminal] (src/tools/terminal.rs, src/tools/mod.rs): from a command to
      the decision to spawn it, and the registry's gate.
    - [Files]: a directory whose every call may fail.
    - [Drain] (src/drain_control.rs): the drain marker and its watcher.
    - [Boots] (src/multiplexer/restart_loop_guard.rs): the chain of boots.
    - [Jobs] (src/cron/store.rs, part of scheduler.rs): Hermes jobs as decoded,
      their checks and destinations.
    - [Delivery] (src/cron/scheduler.rs, src/mirror.rs): running a cron job,
      delivering and mirroring its output.
    - [Targets], [Outgoing], [Tables], [Egress] (src/discord/adapter.rs, the
      outbound half; src/discord/table_render/): channels Discord refused for
      good, the text of what is sent, tables as pictures, the dispatcher.
    - [Search], [Context] (src/tools/message_context.rs, the messenger policy and
      the message index): what an agent may read of Discord, and the reading.
    - [Web] (src/tools/web.rs), [Attachments] (src/discord/attachments.rs),
      [Buttons] (src/discord/buttons.rs).
    - [Paths]: paths and a file system with links, hard and symbolic; over it
      [FileTool] (src/tools/file.rs), [Skills] and [Writes] (src/tools/skills.rs,
      src/memory/store.rs, pending writes of src/storage/db.rs).
    - [Store] (rest of src/cron/store.rs): the old gateway's stores, notepads.
    - [CronTool] (src/tools/cron.rs): the tool over [Cron] and [Store].
    - [Executor] (src/cron/executor.rs): a job's scripts, monitor and turn.
    - [Cutover] (src/migrate/cron_cutover.rs, sys.rs): emptying the old stores.

    ** How state and operations correspond to the code

    A table is the list of its rows (a record per row, its fields the columns
    the code reads), a map under a lock is a [gmap] or an association list, an
    atomic is a field.  A function of the source is a function of the same
    name; a handler that runs SQL is a computation of [Db] with one step per
    statement, so an error leaves what the statements before it did, and a
    transaction undoes them.  The list of [faults] says which of the coming
    statements fail; it covers every cause, the abort of a trigger included
    (the deferred insertion of legacy guild sessions is one).  Concurrency is
    explicit: where tasks share state ([Handle], [Cron], [Ledger]'s sweeps,
    [Actor], [Approval], [Throttler], [Inbound]'s debouncer) each task has a
    program counter, a step is what it does under one lock, one atomic access
    or between two await points, and the theorems quantify over every sequence of steps ([Buttons]
    and [Targets] likewise).  A load of an atomic may return any older value
    ([Handle]): the code's orderings are Acquire, Release and AcqRel.

    A call of the operating system is a computation over the tree of [Paths] (or
    the flat directory of [Files]) that may fail by the same list of faults; a
    call of Discord, of a web server or of the agent is an entry of a log or
    trace, its answer an argument that may depend on everything before.

    Instants and durations are integers of nanoseconds; machine integers are
    [Z] or [N] with their bounds written where the code checks them.  Text is
    bytes, except in [Throttler], which counts characters and bytes.

    ** What the theorems show

    - Keys: printing and parsing storage keys are inverse, so sessions never
      share a row.
    - Pairing: unique codes, bounds, single use, lockout, rate limits.
    - Ledger: a message is claimed once whatever fails; the startup sweep
      recovers what dead processes left, where no other gateway runs on the
      database; sweeps are exclusive between processes; recovery
      dispatches each obligation at most once; the tables stay well formed.
    - Cron: at most one running run per job under interleaved statements, live
      leases respected, late completions harmless, what success and failure do
      on every branch, schedules strictly later, backoff bounded and monotone.
    - Handles: eviction loses no event unless a load of its barrier was of an
      older value, and then it can; retirement is exclusive.
    - Routing: a matched route fits, is a most specific one, and does not
      depend on which of the two entry points matched.
    - Actors: every command answered once, every delivery closed, interrupted
      turns resumed, the remote binding kept until a reset.
    - Approvals: no approval and no grant without a press of the request's own
      button, decisions final, no pending entry leaked, permanent grants
      durable before they are in force.
    - Splitting and live edits: splitting ends, loses nothing, keeps messages
      within limits and their code blocks balanced; a final update stays.
    - Inbound: only authorized messages are admitted, two bots never answer
      one message under one id, the debouncer loses and reorders nothing, a
      backfill never moves its cursor past an unanswered message, but for one
      whose delivery is in progress, and ends.
    - Commands: nothing is spawned that the floor, the blocklist and the scans
      did not let through or an approval did not cover; the text the scans
      read is the argument vector's own, word for word; the variants of a
      command are bounded in number and in work, whatever the text; the
      scanners cut at character boundaries only; globs match as a declarative
      specification says; a broken outside scanner blocks unless configured
      to fail open; quoted text cannot leave its line.
    - Draining and restarts: where the marker's metadata can be read a drain is
      missed only for a definite reason; the marker is written whole or not at
      all, the watcher publishes the last verdict; the breaker counts
      consecutive boots, however many there are.
    - Cron delivery: success is reported only when every destination has its
      message (with a dispatcher, as in production), an acknowledgement runs
      only then, failures are told at most once to each place, destinations are
      the first of the listed targets, and a mirrored message stays in a
      session of its destination.
    - Sending: chunks in order and within limits, dead targets left alone and
      remembered over restarts, prompts that fit, tables outside code replaced.
    - Reading Discord and the web: only what the session and the policy allow,
      policies within bounds, bodies decoded whatever their chunks.
    - Files, skills and attachments: the file tool stays inside its roots, by
      node and by text, through links and whatever fails; a skill changes
      nothing outside but a file that has a name inside too; each staged write
      is settled once; a download appears whole or not at all.
    - Buttons: a command runs only for an allowed user's click, one at a time
      for a message, and is the one the configuration gives the clicked id.
    - Old stores, the cron tool and the executor: jobs decode back, an import
      touches mirrors only and mirrors exactly what its file lists, the tool
      keeps the tables, a delay makes a one-shot told where it was asked for,
      scripts run confined and checked, each turn's prompt was scanned, a
      monitor asks on a change only, execution ends.
    - Cutover: whatever stops it, what a store held some file holds, and an
      emptied store's jobs are in the table, matching and marked.
    Each property names its claim id (C1, C2, ...) in its comment and, where it
    has hypotheses, is followed in the file's last section by a witness: a
    concrete state, evaluated, where the hypotheses hold.  The theorems of the
    witness sections without an id are the findings: short executions in which
    the code does something it does not mean to.

    ** Assumptions

    Code outside src/ is an argument: the class [Sqlite] (strftime and rowid
    order), [CronLibs] (chrono, chrono-tz, cron expressions), [PayloadGuard]
    (the prompt scanner's verdict), [EventLibs] (timestamps and the regular
    expression of events), [UuidLib], [Regex] (the engine of the crate regex:
    the patterns are the source's text), [FileSystem] (canonical paths, kinds
    of files), [DrainLibs] and [BootLogText] (JSON texts, date parsers), and the
    order of sessions by their last update.  The requester's and the scanner's
    answers are arguments; in [Cron] the scanner's verdict stays one, its scan
    being [Detect]'s.  A UUID is a number or text not used before;
    [kill(pid, 0)] and process start stamps are functions; the agent runner is
    an input of the actor (what it writes, how its turn ends).
    A call of Discord succeeds or fails as a whole; what it answers is a
    function of the calls before.  Hash tables and directories are iterated
    in an order given as an argument.  Further arguments: case maps of Unicode,
    the renderer of tables, the captures of regular expressions, FTS5's
    matching and ranking ([Fts]), the HTTP client and the parser of URLs, the
    transcriber, how a process ends (processes leave the modelled files
    alone), serde_json's and serde_yaml's parsers and printers, SQLite's JSON
    functions, what a turn leaves, and SHA-256, which [Cutover] takes for
    injective where it compares backups.

    ** Fuel and bounds

    [Approval]'s eviction loops take the size of the set as fuel and
    [Throttler]'s splitter the length of the text: each turn decreases it, and
    [grant_caches_bounded] and [splitting_terminates] show that they are
    enough; [backfill_never_skips] gives the pages a backfill may need.  The
    loops of [Shell] take the rest of the text as fuel, each turn reading at
    least one character; the worklist of variants takes the budget of 512 of
    the source, which [detection_variants_bounded] shows is enough.
    [Context]'s pages, [Web]'s decoder, [FileTool]'s search, [Skills]' scan and
    [Executor]'s search for a skill take, in turn, the pages asked for, the
    chunk, the nodes of the tree, its depth times the 40 links a resolution
    follows, and again its nodes; their theorems show that this is enough
    ([reading_bounded], [reading_independent_of_chunks],
    [search_tells_what_is_there], [skills_search_ends],
    [cron_execution_ends]).  [Cutover] draws names until one is free; running
    out of tries is one of the stops its theorems allow.  Every other recursion
    is structural.  Revision counters and sequence numbers are unbounded: their
    64-bit wrap-around is out of reach.

    ** Not modelled

    Time columns of [sessions] (recovery takes sessions in table order); the
    64-bit overflow of nanosecond instants; the pattern keys and redaction of
    approvals; the serialization of tool results; delays before retries; and
    the components that are mostly effects on
    the outside: the clients of the model provider and of the agent daemon in
    src/agent/, src/voice/, the configuration import of src/migrate/, the
    browser and protocol clients of src/tools/, the splitting of
    acknowledgement commands, the slash commands, the dashboard and its web
    page, start-up in src/main.rs and src/entry.rs. *)
From stdpp Require Import base list strings gmap.
From Stdlib Require Import ZArith Lia Sorted.

Declare Scope omon_scope.
Delimit Scope omon_scope with omon.

(** [Result<T, E>] *)
Inductive result (A E : Type) : Type :=
| Ok (a : A)
| Err (e : E).
Arguments Ok {A E} _.
Arguments Err {A E} _.

Definition rbind {A B E} (m : result A E) (k : A -> result B E) : result B E :=
  match m with Ok a => k a | Err e => Err e end.

(** The [?] operator: continue with the value, return the error. *)
Notation "x '<-?' m ';;' k" := (rbind m (fun x => k))
  (at level 100, m at next level, k at level 200, right associativity) : omon_scope.
Definition ok_or {A E} (o : option A) (e : E) : result A E :=
  match o with Some a => Ok a | None => Err e end.

Definition is_ok {A E} (r : result A E) : bool :=
  match r with Ok _ => true | Err _ => false end.

#[export] Instance result_eq_dec {A E} `{EqDecision A, EqDecision E} :
  EqDecision (result A E).
Proof.
  intros [a|e] [b|e'].
  - destruct (decide (a = b)); [left | right]; congruence.
  - by right.
  - by right.
  - destruct (decide (e = e')); [left | right]; congruence.
Defined.

Create HintDb omon.
Create Rewrite HintDb omon_rw.

(** Case analysis on every boolean test and option match of the goal. *)
Ltac case_all :=
  repeat (case_match; simplify_eq/=; try done).

Lemma rbind_ok {A B E} (m : result A E) (k : A -> result B E) b :
  rbind m k = Ok b <-> exists a, m = Ok a /\ k a = Ok b.
Proof. destruct m; simpl; naive_solver. Qed.

Lemma ok_or_ok {A E} (o : option A) (e : E) a :
  ok_or o e = Ok a <-> o = Some a.
Proof. destruct o; simpl; naive_solver. Qed.
#[export] Hint Rewrite @rbind_ok @ok_or_ok : omon_rw.

(** [sort_by]: stable. *)
Section Sort.
Context {A : Type} (le : A -> A -> bool).
Fixpoint insert_sorted (x : A) (l : list A) : list A :=
  match l with
  | [] => [x]
  | y :: rest => if le x y then x :: l else y :: insert_sorted x rest
  end.
Definition sort_by (l : list A) : list A := foldr insert_sorted [] l.
End Sort.

Lemma insert_sorted_head {A} (le : A -> A -> bool) x l :
  HdRel (fun a b => le a b = true) x l -> insert_sorted le x l = x :: l.
Proof. intros H. destruct l as [|y l]; [done|]. apply HdRel_inv in H. simpl. by rewrite H. Qed.

Lemma sort_by_sorted {A} (le : A -> A -> bool) l : Sorted (fun a b => le a b = true) l -> sort_by le l = l.
Proof.
  induction 1 as [|x l Hs IH Hh]; [done|]. unfold sort_by in *. simpl. rewrite IH. by apply insert_sorted_head.
Qed.

Lemma sort_by_perm {A} (le : A -> A -> bool) l : sort_by le l ≡ₚ l.
Proof.
  assert (Hi : forall x l, insert_sorted le x l ≡ₚ x :: l).
  { intros x k. induction k as [|y k IH]; simpl; [done|]. destruct (le x y); [done|]. rewrite IH. apply Permutation_swap. }
  unfold sort_by. induction l as [|x l IH]; simpl; [done|]. by rewrite Hi, IH.
Qed.
