(* ===== verification/RustStr.v ===== *)
(** * Rust strings

    A Rust [&str]/[String] is the [string] of its UTF-8 bytes: [len()] is
    [String.length], slices are byte slices, and a byte index is a character
    boundary exactly when it does not point at a continuation byte. *)
From stdpp Require Import base list strings.
From Stdlib Require Import ZArith NArith Lia DecimalString DecimalN.
From Stdlib Require Import Ascii String.
From S2P Require Import Prelude.
Open Scope string_scope.

#[global] Arguments String.append : simpl nomatch.

Definition len (s : string) : nat := String.length s.

Fixpoint take_str (n : nat) (s : string) : string :=
  match n, s with
  | S n', String c s' => String c (take_str n' s')
  | _, _ => ""
  end.

Fixpoint drop_str (n : nat) (s : string) : string :=
  match n, s with
  | S n', String _ s' => drop_str n' s'
  | _, _ => s
  end.

(** [str::strip_prefix] and [str::starts_with]. *)
Fixpoint strip_prefix (p s : string) : option string :=
  match p, s with
  | "", _ => Some s
  | String a p', String b s' => if Ascii.eqb a b then strip_prefix p' s' else None
  | String _ _, "" => None
  end.

Definition starts_with (p s : string) : bool :=
  match strip_prefix p s with Some _ => true | None => false end.

(** [str::find(c)] for an ASCII character: the byte index of its first use. *)
Fixpoint find_char (c : ascii) (s : string) : option nat :=
  match s with
  | "" => None
  | String d s' => if Ascii.eqb c d then Some 0 else S <$> find_char c s'
  end.

(** [str::is_char_boundary]. *)
Definition is_continuation (c : ascii) : bool :=
  let n := N_of_ascii c in (128 <=? n)%N && (n <? 192)%N.

Definition is_char_boundary (i : nat) (s : string) : bool :=
  match i with
  | 0 => true
  | _ => if (i =? len s)%nat then true
         else match String.get i s with
              | Some c => negb (is_continuation c)
              | None => false
              end
  end.

(** [[String]::join]. *)
Fixpoint join (sep : string) (l : list string) : string :=
  match l with
  | [] => ""
  | [x] => x
  | x :: rest => x ++ sep ++ join sep rest
  end.

(** [format!("{}", n)] for an unsigned integer. *)
Definition show_N (n : N) : string := NilZero.string_of_uint (N.to_uint n).

Definition show_Z (z : Z) : string := if (z <? 0)%Z then "-" ++ show_N (Z.to_N (- z)) else show_N (Z.to_N z).

Definition U64_BOUND : N := (2 ^ 64)%N.

(** [str::parse::<u64>] (and [usize] on a 64-bit target): an optional plus
    sign, then one or more digits, the value below 2^64. *)
Definition parse_u64 (s : string) : option N :=
  let digits := match s with String "+" r => r | _ => s end in
  match NilZero.uint_of_string digits with
  | Some u => let n := N.of_uint u in if (n <? U64_BOUND)%N then Some n else None
  | None => None
  end.

(** ** Lemmas *)

Lemma app_assoc_str (a b c : string) : (a ++ b) ++ c = a ++ (b ++ c).
Proof. induction a; simpl; congruence. Qed.

Lemma app_nil_r_str (a : string) : a ++ "" = a.
Proof. induction a; simpl; congruence. Qed.

Lemma len_app (a b : string) : len (a ++ b) = len a + len b.
Proof. induction a; unfold len in *; simpl; lia. Qed.

Lemma app_inv_tail_str (a b s : string) : a ++ s = b ++ s -> a = b.
Proof.
  revert b. induction a as [|c a IH]; intros [|d b] E; try done.
  - apply (f_equal len) in E. change ("" ++ s) with s in E. rewrite len_app in E. unfold len in E. simpl in E. lia.
  - apply (f_equal len) in E. change ("" ++ s) with s in E. rewrite len_app in E. unfold len in E. simpl in E. lia.
  - simpl in E. injection E as -> E. f_equal. by apply IH.
Qed.

Lemma take_str_app (a b : string) : take_str (len a) (a ++ b) = a.
Proof. induction a; simpl; [by destruct b | by f_equal]. Qed.

Lemma drop_str_app (a b : string) : drop_str (len a) (a ++ b) = b.
Proof. induction a; simpl; [by destruct b | done]. Qed.

Lemma strip_prefix_app (a b : string) : strip_prefix a (a ++ b) = Some b.
Proof. induction a; simpl; [by destruct b | by rewrite Ascii.eqb_refl]. Qed.

Lemma strip_prefix_Some (p s r : string) : strip_prefix p s = Some r -> s = p ++ r.
Proof.
  revert s; induction p as [|a p IH]; intros s H; destruct s as [|b s]; simplify_eq/=; try done.
  destruct (Ascii.eqb_spec a b); simplify_eq. by f_equal; apply IH.
Qed.

(** No byte of [s] is [c]. *)
Fixpoint free_of (c : ascii) (s : string) : bool :=
  match s with
  | "" => true
  | String d s' => negb (Ascii.eqb c d) && free_of c s'
  end.

Lemma free_of_app c a b : free_of c (a ++ b) = free_of c a && free_of c b.
Proof. induction a as [|x a IH]; [done|]. cbn. by rewrite IH, andb_assoc. Qed.

Lemma find_char_app (c : ascii) (a b : string) :
  free_of c a = true -> find_char c (a ++ String c b) = Some (len a).
Proof.
  induction a as [|d a IH]; simpl; [by rewrite Ascii.eqb_refl|].
  intros [? ?]%andb_true_iff. destruct (Ascii.eqb c d); [done|].
  by rewrite IH.
Qed.

Lemma uint_free_of (c : ascii) (d : Decimal.uint) :
  (N_of_ascii c < 48)%N \/ (57 < N_of_ascii c)%N ->
  free_of c (NilEmpty.string_of_uint d) = true.
Proof.
  intros H. induction d; simpl; try done; rewrite IHd, andb_true_r;
    apply negb_true_iff, Ascii.eqb_neq; intros ->; compute in H; destruct H; discriminate.
Qed.

Lemma string_of_uint_cases (d : Decimal.uint) :
  d <> Decimal.Nil -> NilZero.string_of_uint d = NilEmpty.string_of_uint d.
Proof. by destruct d. Qed.

Lemma to_uint_not_nil (n : N) : N.to_uint n <> Decimal.Nil.
Proof.
  intros H. destruct n as [|p]; [done|].
  pose proof (DecimalN.Unsigned.of_to (Npos p)) as E. rewrite H in E. done.
Qed.

Lemma show_N_free (c : ascii) (n : N) :
  (N_of_ascii c < 48)%N \/ (57 < N_of_ascii c)%N -> free_of c (show_N n) = true.
Proof.
  intros. unfold show_N. rewrite string_of_uint_cases by apply to_uint_not_nil.
  by apply uint_free_of.
Qed.

(** A printed number starts with a digit. *)
Lemma show_N_head (n : N) :
  exists c r, show_N n = String c r /\ (48 <= N_of_ascii c <= 57)%N.
Proof.
  unfold show_N. pose proof (to_uint_not_nil n).
  destruct (N.to_uint n); [done|..]; eexists _, _; (split; [reflexivity|compute; split; discriminate]).
Qed.

Lemma show_N_inj (a b : N) : show_N a = show_N b -> a = b.
Proof.
  unfold show_N. intros E. apply (f_equal NilZero.uint_of_string) in E.
  rewrite !NilZero.usu in E by apply to_uint_not_nil. injection E as E. by apply DecimalN.Unsigned.to_uint_inj.
Qed.

Lemma parse_show_N (n : N) : (n < U64_BOUND)%N -> parse_u64 (show_N n) = Some n.
Proof.
  intros Hn. unfold parse_u64. destruct (show_N_head n) as (c & r & E & Hc).
  assert (match show_N n with String "+" r => r | _ => show_N n end = show_N n) as ->.
  { rewrite E. destruct (Ascii.eqb_spec c "+"%char) as [->|Hne].
    - compute in Hc. destruct Hc as [Hc _]. by contradict Hc.
    - destruct c as [[] [] [] [] [] [] [] []]; try done; by contradict Hne. }
  unfold show_N. rewrite NilZero.usu by apply to_uint_not_nil.
  rewrite DecimalN.Unsigned.of_to. by apply N.ltb_lt in Hn as ->.
Qed.

Lemma find_char_lt (c : ascii) (s : string) i : find_char c s = Some i -> i < len s.
Proof.
  revert i; induction s as [|d s IH]; simpl; intros i H; [done|].
  unfold len in *; simpl.
  destruct (Ascii.eqb c d); [simplify_eq/=; lia|].
  destruct (find_char c s) as [j|]; simplify_eq/=. specialize (IH j eq_refl). lia.
Qed.

Lemma len_drop_str n (s : string) : len (drop_str n s) = len s - n.
Proof.
  revert n; induction s as [|c s IH]; intros [|n]; simpl; by try apply IH.
Qed.

Lemma len_take_str n (s : string) : len (take_str n s) = Nat.min n (len s).
Proof.
  revert n; induction s as [|c s IH]; intros [|n]; simpl; try done.
  unfold len in *; simpl. by rewrite IH.
Qed.

Lemma take_drop_str n (s : string) : take_str n s ++ drop_str n s = s.
Proof. revert n; induction s as [|c s IH]; intros [|n]; simpl; try done. by rewrite IH. Qed.

Lemma drop_drop_str i j (s : string) : drop_str j (drop_str i s) = drop_str (i + j) s.
Proof. revert i. induction s as [|c s IH]; intros [|i]; simpl; try done. by destruct j. Qed.

Lemma parse_u64_bound (s : string) n : parse_u64 s = Some n -> (n < U64_BOUND)%N.
Proof.
  unfold parse_u64. intros H. case_match; [|done].
  destruct (N.ltb_spec (N.of_uint u) U64_BOUND); by simplify_eq.
Qed.

(** [s.split_once(c)]. *)
Definition split_once (c : ascii) (s : string) : option (string * string) :=
  match find_char c s with Some i => Some (take_str i s, drop_str (S i) s) | None => None end.

(** [str::contains] for a string pattern. *)
Fixpoint contains (needle s : string) : bool :=
  starts_with needle s ||
  match s with String _ s' => contains needle s' | "" => false end.

Definition in_range (c : ascii) (lo hi : N) : bool :=
  let n := N_of_ascii c in (lo <=? n)%N && (n <=? hi)%N.

(** [str::to_ascii_lowercase]. *)
Definition ascii_lower (c : ascii) : ascii :=
  if in_range c 65 90 then ascii_of_N (N_of_ascii c + 32) else c.
Fixpoint to_ascii_lowercase (s : string) : string :=
  match s with "" => "" | String c s' => String (ascii_lower c) (to_ascii_lowercase s') end.

(** The characters of a string, each as its UTF-8 bytes. *)
Fixpoint chars (s : string) : list string :=
  match s with
  | "" => []
  | String c s' =>
      match chars s' with
      | (String d t) :: rest =>
          if is_continuation d then String c (String d t) :: rest
          else String c "" :: String d t :: rest
      | rest => String c "" :: rest
      end
  end.


(** [char::is_whitespace]: the code points with the White_Space property, as
    UTF-8 bytes. *)
Definition is_white (c : string) : bool :=
  match map N_of_ascii (list_ascii_of_string c) with
  | [b] => ((9 <=? b) && (b <=? 13))%N || (b =? 32)%N
  | [194; b]%N => (b =? 133)%N || (b =? 160)%N
  | [225; 154; b]%N => (b =? 128)%N
  | [226; 128; b]%N => ((128 <=? b) && (b <=? 138))%N || (b =? 168)%N || (b =? 169)%N || (b =? 175)%N
  | [226; 129; b]%N => (b =? 159)%N
  | [227; 128; b]%N => (b =? 128)%N
  | _ => false
  end.

Definition of_chars (l : list string) : string := String.concat "" l.

Fixpoint drop_while {A} (p : A -> bool) (l : list A) : list A :=
  match l with x :: rest => if p x then drop_while p rest else l | [] => [] end.

Definition trim (s : string) : string :=
  of_chars (rev (drop_while is_white (rev (drop_while is_white (chars s))))).

(** The maximal runs of characters outside [p]; empty runs are skipped. *)
Fixpoint words (p : string -> bool) (word : list string) (l : list string) : list string :=
  let flush := match word with [] => [] | _ => [of_chars (rev word)] end in
  match l with
  | [] => flush
  | c :: rest => if p c then (flush ++ words p [] rest)%list else words p (c :: word) rest
  end.

Definition split_whitespace (s : string) : list string := words is_white [] (chars s).

(** [s.split(c)] for an ASCII [c]. *)
Fixpoint split_char (c : ascii) (s : string) : list string :=
  match s with
  | "" => [""]
  | String d s' =>
      if Ascii.eqb d c then "" :: split_char c s'
      else match split_char c s' with x :: rest => String d x :: rest | [] => [String d ""] end
  end.

Definition strip_suffix_char (c : ascii) (s : string) : option string :=
  match rev (list_ascii_of_string s) with
  | d :: rest => if Ascii.eqb d c then Some (string_of_list_ascii (rev rest)) else None
  | [] => None
  end.

Definition LF : ascii := "010".
Definition CR : ascii := "013".

(** [s.lines()]: pieces ended by a line feed lose it and a carriage return
    before it; an unended last piece is kept as it is, unless empty. *)
Definition lines (s : string) : list string :=
  let pieces := split_char LF s in
  let ended := map (fun l => default l (strip_suffix_char CR l)) (removelast pieces) in
  match List.last pieces "" with "" => ended | l => (ended ++ [l])%list end.

Fixpoint trim_start_matches (c : ascii) (s : string) : string :=
  match s with String d s' => if Ascii.eqb d c then trim_start_matches c s' else s | "" => "" end.

Definition is_digit (c : ascii) : bool := in_range c 48 57.

Fixpoint all_bytes (p : ascii -> bool) (s : string) : bool :=
  match s with "" => true | String a s' => p a && all_bytes p s' end.

(** The index of the first byte outside [p]. *)
Fixpoint find_not (p : ascii -> bool) (s : string) : option nat :=
  match s with
  | "" => None
  | String c s' => if p c then option_map S (find_not p s') else Some 0
  end.

(** ** Trimming decimals *)

Lemma all_bytes_app p (a b : string) : all_bytes p (a ++ b) = all_bytes p a && all_bytes p b.
Proof. induction a as [|c a IH]; simpl; [done|]. by rewrite IH, andb_assoc. Qed.

Lemma uint_digits (d : Decimal.uint) : all_bytes is_digit (NilEmpty.string_of_uint d) = true.
Proof. induction d; simpl; done. Qed.

Lemma show_N_digits (n : N) : all_bytes is_digit (show_N n) = true.
Proof. unfold show_N. rewrite string_of_uint_cases by apply to_uint_not_nil. apply uint_digits. Qed.

Lemma digit_plain c : is_digit c = true -> is_continuation c = false /\ is_white (String c "") = false.
Proof.
  destruct c as [[] [] [] [] [] [] [] []]; intros Hc; first [discriminate Hc | split; reflexivity].
Qed.

(** A byte that is a character by itself, and no white space. *)
Definition graphic (c : ascii) : bool := negb (is_continuation c) && negb (is_white (String c "")).

Lemma all_bytes_mono (p q : ascii -> bool) s : (forall c, p c = true -> q c = true) -> all_bytes p s = true -> all_bytes q s = true.
Proof. intros Hq. induction s as [|c s IH]; simpl; [done|]. intros [Hc Hs]%andb_true_iff. by rewrite Hq, IH. Qed.

Lemma digit_graphic c : is_digit c = true -> graphic c = true.
Proof. intros [Hc Hw]%digit_plain. unfold graphic. by rewrite Hc, Hw. Qed.

Lemma chars_graphic s : all_bytes graphic s = true -> chars s = map (fun c => String c "") (list_ascii_of_string s).
Proof.
  induction s as [|c s IH]; simpl; [done|]. intros [Hc Hs]%andb_true_iff. rewrite IH by done.
  destruct s as [|d s]; [done|]. simpl in *. apply andb_true_iff in Hs as [[Hd _]%andb_true_iff _].
  apply negb_true_iff in Hd. by rewrite Hd.
Qed.

Lemma chars_digits s : all_bytes is_digit s = true -> chars s = map (fun c => String c "") (list_ascii_of_string s).
Proof. intros Hs. apply chars_graphic. eapply all_bytes_mono; [|exact Hs]. apply digit_graphic. Qed.

Lemma drop_while_none {A} (p : A -> bool) (l : list A) : (forall x, x ∈ l -> p x = false) -> drop_while p l = l.
Proof. destruct l as [|x l]; simpl; [done|]. intros Hp. rewrite Hp by constructor. done. Qed.

Lemma of_chars_singles l : of_chars (map (fun c => String c "") l) = string_of_list_ascii l.
Proof.
  unfold of_chars. induction l as [|c [|d l] IH]; [done|done|].
  change (String c (String.concat "" (map (fun c => String c "") (d :: l))) = string_of_list_ascii (c :: d :: l)).
  by rewrite IH.
Qed.

Lemma trim_graphic s : all_bytes graphic s = true -> trim s = s.
Proof.
  intros Hs. unfold trim. rewrite chars_graphic by done.
  assert (forall x, x ∈ map (fun c => String c "") (list_ascii_of_string s) -> is_white x = false) as Hw.
  { intros x Hx. apply list_elem_of_In, in_map_iff in Hx as (c & <- & Hc).
    revert Hs Hc. induction s as [|d s IH]; simpl; [done|].
    intros [[_ Hd]%andb_true_iff Hs]%andb_true_iff [->|Hc]; [by apply negb_true_iff|auto]. }
  rewrite (drop_while_none is_white (map _ _)) by exact Hw.
  rewrite (drop_while_none is_white) by (intros x Hx; apply Hw; by rewrite list_elem_of_In, <- in_rev, <- list_elem_of_In in Hx).
  rewrite rev_involutive, of_chars_singles. apply string_of_list_ascii_of_string.
Qed.

Lemma trim_digits s : all_bytes is_digit s = true -> trim s = s.
Proof. intros Hs. apply trim_graphic. eapply all_bytes_mono; [|exact Hs]. apply digit_graphic. Qed.

Lemma trim_show_N (n : N) : trim (show_N n) = show_N n.
Proof. apply trim_digits, show_N_digits. Qed.

(** ** Splitting at a byte *)

Lemma split_char_free c s : free_of c s = true -> split_char c s = [s].
Proof.
  induction s as [|d s IH]; simpl; [done|]. intros [Hd Hs]%andb_true_iff.
  rewrite Ascii.eqb_sym. destruct (Ascii.eqb c d); [done|]. by rewrite IH.
Qed.

Lemma split_char_app c a b : free_of c a = true -> split_char c (a ++ String c b) = a :: split_char c b.
Proof.
  induction a as [|d a IH]; simpl; [by rewrite Ascii.eqb_refl|]. intros [Hd Hs]%andb_true_iff.
  rewrite Ascii.eqb_sym. destruct (Ascii.eqb c d); [done|]. by rewrite IH.
Qed.

(** ** Characters of a string *)

(** One character: a byte that is no continuation and the continuations after it. *)
Definition char_shape (c : string) : bool :=
  match c with String b t => negb (is_continuation b) && all_bytes is_continuation t | "" => false end.

(** The text starts a character. *)
Definition starts_char (s : string) : bool :=
  match s with String c _ => negb (is_continuation c) | "" => true end.

Lemma chars_cons c s :
  chars (String c s) = if starts_char s then String c "" :: chars s
                       else match chars s with x :: rest => String c x :: rest | [] => [String c ""] end.
Proof.
  destruct s as [|d s]; [done|].
  assert (exists t rest, chars (String d s) = String d t :: rest) as (t & rest & E).
  { simpl. destruct (chars s) as [|[|e u] l]; [by exists "", []|by exists "", ("" :: l)|].
    destruct (is_continuation e); by eexists _, _. }
  change (chars (String c (String d s))) with
    (match chars (String d s) with
     | String d t :: rest => if is_continuation d then String c (String d t) :: rest else String c "" :: String d t :: rest
     | rest => String c "" :: rest end).
  rewrite E. simpl. by destruct (is_continuation d).
Qed.

Lemma chars_nonempty d s : exists t rest, chars (String d s) = String d t :: rest.
Proof. rewrite chars_cons. destruct (starts_char s); [by eexists _, _|]. destruct (chars s); by eexists _, _. Qed.

Lemma chars_char_app c s : char_shape c = true -> starts_char s = true -> chars (c ++ s) = c :: chars s.
Proof.
  destruct c as [|b t]; [done|]. cbn [char_shape]. intros [_ Ht]%andb_true_iff Hs. change (String b t ++ s) with (String b (t ++ s)).
  revert b. induction t as [|d t IH]; intros b; rewrite chars_cons.
  - cbn [String.append]. by rewrite Hs.
  - simpl in Ht. apply andb_true_iff in Ht as [Hd Ht]. cbn [String.append starts_char]. rewrite Hd. simpl negb. cbn iota.
    by rewrite (IH Ht d).
Qed.

Lemma of_chars_cons c l : of_chars (c :: l) = c ++ of_chars l.
Proof. unfold of_chars. destruct l as [|d l]; [by rewrite app_nil_r_str|done]. Qed.

Lemma of_chars_app l1 l2 : of_chars (l1 ++ l2)%list = of_chars l1 ++ of_chars l2.
Proof. induction l1 as [|c l1 IH]; [done|]. cbn [app]. by rewrite !of_chars_cons, IH, app_assoc_str. Qed.

Lemma starts_char_of_chars l : forallb char_shape l = true -> starts_char (of_chars l) = true.
Proof.
  destruct l as [|[|b t] l]; [done|done|]. simpl. rewrite !andb_true_iff. intros [[Hb _] _]. by destruct l.
Qed.

Lemma chars_of_chars l : forallb char_shape l = true -> chars (of_chars l) = l.
Proof.
  induction l as [|c l IH]; [done|]. cbn [forallb]. intros [Hc Hl]%andb_true_iff.
  rewrite of_chars_cons, chars_char_app, IH; auto using starts_char_of_chars.
Qed.

Lemma of_chars_chars s : of_chars (chars s) = s.
Proof.
  induction s as [|c s IH]; [done|]. rewrite chars_cons. destruct (starts_char s); [by rewrite of_chars_cons, IH|].
  destruct (chars s) as [|x rest]; [|rewrite of_chars_cons in *; by rewrite <- IH]. simpl in IH. by subst s.
Qed.

(** Every character but the first starts with no continuation byte. *)
Lemma chars_shape_from s :
  forallb (fun c => match c with String _ t => all_bytes is_continuation t | "" => false end) (chars s) = true /\
  forallb char_shape (tl (chars s)) = true.
Proof.
  induction s as [|c s [IH1 IH2]]; [done|]. rewrite chars_cons. destruct s as [|d s]; [done|].
  destruct (chars_nonempty d s) as (t & rest & E). rewrite E in *. simpl in *.
  apply andb_true_iff in IH1 as [Ht Hr]. destruct (is_continuation d) eqn:Ed; simpl.
  - by rewrite Ed, Ht, Hr.
  - by rewrite Ed, Ht, Hr, IH2.
Qed.

Lemma chars_shape s : starts_char s = true -> forallb char_shape (chars s) = true.
Proof.
  destruct s as [|c s]; [done|]. intros Hs. pose proof (chars_shape_from (String c s)) as [H1 H2].
  destruct (chars_nonempty c s) as (t & rest & E). rewrite E in *. simpl in *. by rewrite Hs, H2, andb_true_r, (proj1 (andb_prop _ _ H1)).
Qed.

(** [words] cuts a list of characters into nonempty pieces of it. *)
Lemma words_pieces p (P : string -> Prop) l : forall word,
  Forall P word -> Forall P l -> Forall (fun w => exists cs, w = of_chars cs /\ Forall P cs) (words p word l).
Proof.
  induction l as [|c l IH]; intros word Hw Hl; simpl.
  - destruct word as [|x word]; [constructor|]. constructor; [|constructor]. exists (rev (x :: word)). split; [done|].
    apply Forall_rev in Hw. exact Hw.
  - apply Forall_cons in Hl as [Hc Hl]. destruct (p c); [|by apply IH; [constructor|]]. apply Forall_app. split; [|by apply IH].
    destruct word as [|x word]; [constructor|]. constructor; [|constructor]. exists (rev (x :: word)). split; [done|].
    apply Forall_rev in Hw. exact Hw.
Qed.

Lemma join_pieces (P : string -> Prop) sep l :
  P sep -> Forall (fun w => exists cs, w = of_chars cs /\ Forall P cs) l ->
  exists cs, join sep l = of_chars cs /\ Forall P cs.
Proof.
  intros Hs. induction 1 as [|w l (cs & -> & Hcs) Hl IH]; [by exists []|]. destruct IH as (ds & E & Hds).
  destruct l as [|v l]; [by exists cs|]. exists (cs ++ sep :: ds)%list. split; [|by apply Forall_app; split; [|constructor]].
  change (join sep (of_chars cs :: v :: l)) with (of_chars cs ++ sep ++ join sep (v :: l)).
  by rewrite E, of_chars_app, of_chars_cons.
Qed.
