(* ===== verification/Json.v ===== *)
(** * JSON values

    [serde_json::Value]: the tagged union its documentation gives.  An object
    is the list of its members in key order ([BTreeMap]); integers keep the
    sign split of [serde_json::Number], floats are carried as their lexeme
    (nothing modelled here computes with them). *)
From stdpp Require Import base list strings.
From Stdlib Require Import ZArith NArith Lia Ascii String Sorted.
From S2P Require Import Prelude RustStr.

Inductive value : Type :=
| JNull
| JBool (b : bool)
| JPos (n : N)
| JNeg (z : Z)
| JFloat (lexeme : string)
| JString (s : string)
| JArray (l : list value)
| JObject (members : list (string * value)).

(** [BTreeMap::get] / [Value::get(key)]: [None] when the value is no object. *)
Fixpoint assoc_get (key : string) (m : list (string * value)) : option value :=
  match m with
  | [] => None
  | (k, v) :: rest => if String.eqb k key then Some v else assoc_get key rest
  end.

Definition get (key : string) (v : value) : option value :=
  match v with JObject m => assoc_get key m | _ => None end.

(** [BTreeMap::insert]: replace in place, or add at the key's position. *)
Fixpoint assoc_insert (key : string) (x : value) (m : list (string * value)) :
    list (string * value) :=
  match m with
  | [] => [(key, x)]
  | (k, v) :: rest =>
      if String.eqb k key then (key, x) :: rest
      else if String.ltb key k then (key, x) :: m
      else (k, v) :: assoc_insert key x rest
  end.

(** [as_object_mut] followed by [insert]; anything but an object is unchanged. *)
Definition obj_insert (key : string) (x : value) (v : value) : value :=
  match v with JObject m => JObject (assoc_insert key x m) | _ => v end.

Definition is_object (v : value) : bool :=
  match v with JObject _ => true | _ => false end.
Definition as_u64 (v : value) : option N :=
  match v with JPos n => Some n | _ => None end.
Definition as_str (v : value) : option string :=
  match v with JString s => Some s | _ => None end.
Definition as_bool (v : value) : option bool :=
  match v with JBool b => Some b | _ => None end.
Definition as_array (v : value) : option (list value) :=
  match v with JArray l => Some l | _ => None end.

(** ** Lemmas *)

Lemma assoc_get_insert (k : string) x m : assoc_get k (assoc_insert k x m) = Some x.
Proof.
  induction m as [|[k' v] m IH]; simpl; [by rewrite String.eqb_refl|].
  destruct (String.eqb k' k) eqn:E; simpl; [by rewrite String.eqb_refl|].
  destruct (String.ltb k k'); simpl; [by rewrite String.eqb_refl | by rewrite E].
Qed.

Lemma assoc_get_insert_ne (k k' : string) x m :
  k <> k' -> assoc_get k' (assoc_insert k x m) = assoc_get k' m.
Proof.
  intros Hne. assert (Hk : String.eqb k k' = false) by by apply String.eqb_neq.
  induction m as [|[j v] m IH]; simpl; [by rewrite Hk|].
  destruct (String.eqb_spec j k) as [->|Hj]; simpl; [by rewrite Hk|].
  destruct (String.ltb k j); simpl; [by rewrite Hk | by rewrite IH].
Qed.

Lemma get_obj_insert (k : string) x v :
  is_object v = true -> get k (obj_insert k x v) = Some x.
Proof. destruct v; simpl; try done. intros _. apply assoc_get_insert. Qed.

Lemma get_obj_insert_ne (k k' : string) x v :
  k <> k' -> get k' (obj_insert k x v) = get k' v.
Proof. destruct v; simpl; try done. apply assoc_get_insert_ne. Qed.

Lemma is_object_insert (k : string) x v : is_object (obj_insert k x v) = is_object v.
Proof. by destruct v. Qed.

#[export] Hint Rewrite @assoc_get_insert @is_object_insert : omon_rw.

(** ** Objects in key order

    The members of an object are sorted by key, so two objects with the same
    members are the same. *)
Definition key_before (a b : string * value) : Prop := String.ltb a.1 b.1 = true.
Notation in_order := (StronglySorted key_before).

Lemma ltb_lt (a b : string) : String.ltb a b = true <-> String.compare a b = Lt.
Proof. unfold String.ltb. by destruct (String.compare a b). Qed.

Lemma ltb_trans (a b c : string) : String.ltb a b = true -> String.ltb b c = true -> String.ltb a c = true.
Proof.
  rewrite !ltb_lt. revert b c. induction a as [|x a IH]; intros [|y b] [|z c]; simpl; try done.
  unfold Ascii.compare. destruct (N.compare_spec (N_of_ascii x) (N_of_ascii y)) as [E1|E1|E1], (N.compare_spec (N_of_ascii y) (N_of_ascii z)) as [E2|E2|E2];
    destruct (N.compare_spec (N_of_ascii x) (N_of_ascii z)) as [E3|E3|E3]; try done; try lia. apply IH.
Qed.

Lemma ltb_irrefl (a : string) : String.ltb a a = false.
Proof.
  apply not_true_iff_false. rewrite ltb_lt. intros E. pose proof (String.compare_antisym a a) as A. by rewrite E in A.
Qed.

Lemma ltb_total (a b : string) : a <> b -> String.ltb a b = false -> String.ltb b a = true.
Proof.
  intros Hne. unfold String.ltb. rewrite (String.compare_antisym b a). destruct (String.compare a b) eqn:E; try done.
  by apply String.compare_eq_iff in E.
Qed.

Lemma in_order_insert k x m : in_order m -> in_order (assoc_insert k x m).
Proof.
  induction 1 as [|[k' v] m Hm IH Hh]; simpl; [by repeat constructor|].
  destruct (String.eqb_spec k' k) as [->|Hne]; [by constructor|].
  destruct (String.ltb k k') eqn:E.
  - constructor; [by constructor|]. constructor; [done|]. eapply Forall_impl; [exact Hh|].
    intros p Hp. unfold key_before in *. simpl in *. by apply (ltb_trans _ k').
  - constructor; [done|]. apply ltb_total in E; [|done]. clear - Hh E. rewrite Forall_forall in *.
    induction m as [|[j w] m IHm]; simpl; [by intros y ->%list_elem_of_singleton|].
    destruct (String.eqb j k), (String.ltb k j); intros y [->|Hy]%elem_of_cons; try done; try (by apply Hh; left); try (by apply Hh; right); try (by apply Hh);
      try (apply IHm; [|done]; intros z Hz; apply Hh; by right).
Qed.

Lemma in_order_select p m : in_order m -> in_order (List.filter p m).
Proof.
  induction 1 as [|a m Hm IH Hh]; simpl; [constructor|]. destruct (p a); [|done]. constructor; [done|].
  rewrite Forall_forall in *. intros x Hx. apply Hh. apply list_elem_of_In in Hx. apply list_elem_of_In. by apply filter_In in Hx as [? _].
Qed.

Lemma assoc_get_after k (m : list (string * value)) : Forall (fun p => String.ltb k p.1 = true) m -> assoc_get k m = None.
Proof.
  induction 1 as [|[j v] m Hj _ IH]; simpl in *; [done|]. destruct (String.eqb_spec j k) as [E|]; [by rewrite E, ltb_irrefl in Hj|done].
Qed.

Lemma in_order_ext m m' : in_order m -> in_order m' -> (forall k, assoc_get k m = assoc_get k m') -> m = m'.
Proof.
  intros Hm. revert m'. induction Hm as [|[k v] m Hm IH Hh]; intros m' Hm' E.
  - destruct m' as [|[k v] m']; [done|]. specialize (E k). simpl in E. by rewrite String.eqb_refl in E.
  - destruct Hm' as [|[k' v'] m' Hm' Hh']; [specialize (E k); simpl in E; by rewrite String.eqb_refl in E|].
    assert (k = k') as <-.
    { destruct (String.ltb k k') eqn:L; [|destruct (String.eqb_spec k k') as [|Hne]; [done|]; apply ltb_total in L; [|done]].
      - specialize (E k). simpl in E. rewrite String.eqb_refl in E. destruct (String.eqb_spec k' k) as [->|]; [by rewrite ltb_irrefl in L|].
        rewrite assoc_get_after in E; [done|]. eapply Forall_impl; [exact Hh'|]. intros p Hp. by apply (ltb_trans _ k').
      - specialize (E k'). simpl in E. rewrite String.eqb_refl in E. destruct (String.eqb_spec k k') as [|]; [done|].
        rewrite assoc_get_after in E; [done|]. eapply Forall_impl; [exact Hh|]. intros p Hp. by apply (ltb_trans _ k). }
    assert (v = v') as <-. { specialize (E k). simpl in E. rewrite String.eqb_refl in E. by injection E. }
    f_equal. apply IH; [done|]. intros j. specialize (E j). simpl in E. destruct (String.eqb_spec k j) as [Ek|]; [|done].
    rewrite <- Ek. by rewrite !assoc_get_after.
Qed.

Lemma assoc_get_select (p : string -> bool) k (m : list (string * value)) :
  assoc_get k (List.filter (fun a => p a.1) m) = if p k then assoc_get k m else None.
Proof.
  induction m as [|[j v] m IH]; simpl; [by destruct (p k)|].
  destruct (String.eqb_spec j k) as [->|Hne]; [destruct (p k); simpl; by rewrite ?String.eqb_refl|].
  destruct (p j); simpl; [|done]. by destruct (String.eqb_spec j k).
Qed.

Lemma assoc_get_None k (m : list (string * value)) : assoc_get k m = None <-> k ∉ map fst m.
Proof.
  induction m as [|[j v] m IH]; simpl; [split; [intros _; apply not_elem_of_nil|done]|].
  rewrite not_elem_of_cons. destruct (String.eqb_spec j k) as [->|]; [naive_solver|]. rewrite IH. naive_solver.
Qed.

(** A map built by insertions. *)
Definition insert_all (l m : list (string * value)) : list (string * value) := fold_left (fun m p => assoc_insert p.1 p.2 m) l m.

Lemma in_order_insert_all l m : in_order m -> in_order (insert_all l m).
Proof. revert m. induction l as [|p l IH]; intros m Hm; [done|]. apply IH. by apply in_order_insert. Qed.

Lemma assoc_get_insert_all l m k :
  NoDup (map fst l) -> assoc_get k (insert_all l m) = match assoc_get k l with Some v => Some v | None => assoc_get k m end.
Proof.
  revert m. induction l as [|[j v] l IH]; intros m Hn; [done|]. apply NoDup_cons in Hn as [Hj Hn]. simpl.
  unfold insert_all in *. simpl. rewrite IH by done. destruct (String.eqb_spec j k) as [->|Hne].
  - apply assoc_get_None in Hj. simpl in Hj. by rewrite Hj, assoc_get_insert.
  - by rewrite assoc_get_insert_ne.
Qed.

Lemma in_order_NoDup m : in_order m -> NoDup (map fst m).
Proof.
  induction 1 as [|[k v] m Hm IH Hh]; simpl; [constructor|]. constructor; [|done].
  apply assoc_get_None, assoc_get_after. exact Hh.
Qed.
