(* ===== verification/Db.v ===== *)
(** * Statements, transactions and faults

    The stores of the gateway are SQLite tables reached through [sqlx].  A
    table is the list of its rows; an SQL statement of the source is a function
    on tables; a handler is a computation that runs statements one after the
    other, any of which may fail.  The outcome of each statement to come is the
    list [faults] of the world: [Some msg] makes the next statement return that
    database error and change nothing, [None] (or the end of the list) lets it
    run.  [transaction] is [pool.begin()] ... [tx.commit()]: an error inside,
    or of the commit, leaves the tables as they were. *)
From stdpp Require Import base list strings.
From Stdlib Require Import ZArith Lia Sorted.
From S2P Require Import Prelude.

(** [crate::OmonError], the nested serenity error as its text.  [Panicked] is
    not a value of the source: a panic unwinds through [?] as an error does and
    drops an open transaction. *)
Inductive OmonError : Type :=
| Database (m : string)
| Multiplexer (m : string)
| Discord (m : string)
| Llm (m : string)
| ToolExecution (m : string)
| Approval (m : string)
| Config (m : string)
| Panicked (m : string).

#[export] Instance OmonError_eq_dec : EqDecision OmonError.
Proof. solve_decision. Defined.

Section Monad.
Context {S : Type}.

Record world : Type := mkWorld { st : S; faults : list (option string) }.

Definition M (A : Type) : Type := world -> result A OmonError * world.

Definition ret {A} (a : A) : M A := fun w => (Ok a, w).
Definition fail {A} (e : OmonError) : M A := fun w => (Err e, w).
Definition bind {A B} (m : M A) (k : A -> M B) : M B := fun w =>
  match m w with
  | (Ok a, w') => k a w'
  | (Err e, w') => (Err e, w')
  end.

(** One statement, which may itself report an error (a violated constraint). *)
Definition exec {A} (f : S -> result A OmonError * S) : M A := fun w =>
  match faults w with
  | Some msg :: rest => (Err (Database msg), mkWorld (st w) rest)
  | rest => let '(r, s') := f (st w) in (r, mkWorld s' (tail rest))
  end.

Definition stmt {A} (f : S -> A * S) : M A :=
  exec (fun s => let '(a, s') := f s in (Ok a, s')).
Definition query {A} (f : S -> A) : M A := stmt (fun s => (f s, s)).

(** In-memory steps and the clock never fail. *)
Definition mem {A} (f : S -> A * S) : M A := fun w =>
  let '(a, s') := f (st w) in (Ok a, mkWorld s' (faults w)).

(** [let _ = ...], [if let Err(e) = ...], [match ...]: the error is a value. *)
Definition attempt {A} (m : M A) : M (result A OmonError) := fun w =>
  let '(r, w') := m w in (Ok r, w').

Definition lift {A} (r : result A OmonError) : M A := fun w => (r, w).

Definition transaction {A} (body : M A) : M A := fun w =>
  match exec (fun s => (Ok tt, s)) w with
  | (Err e, w') => (Err e, w')
  | (Ok _, w1) =>
      match body w1 with
      | (Err e, w2) => (Err e, mkWorld (st w1) (faults w2))
      | (Ok a, w2) =>
          match exec (fun s => (Ok tt, s)) w2 with
          | (Err e, w3) => (Err e, mkWorld (st w1) (faults w3))
          | (Ok _, w3) => (Ok a, w3)
          end
      end
  end.

(** Running one item after the other, keeping the state. *)
Fixpoint for_each {X} (f : X -> M unit) (l : list X) : M unit :=
  match l with
  | [] => ret tt
  | x :: rest => bind (f x) (fun _ => for_each f rest)
  end.

(** [run]: no statement fails. *)
Definition run {A} (m : M A) (s : S) : result A OmonError * S :=
  let '(r, w) := m (mkWorld s []) in (r, st w).
End Monad.
Arguments world S : clear implicits.
Arguments M S A : clear implicits.

(** A computation on one part of a larger state, over the same connection. *)
Definition zoom {S T A} (get : S -> T) (put : T -> S -> S) (m : M T A) : M S A := fun w =>
  let '(r, w') := m (mkWorld (get (st w)) (faults w)) in (r, mkWorld (put (st w') (st w)) (faults w')).

Declare Scope db_scope.
Delimit Scope db_scope with db.
Notation "x <- m ;; k" := (bind m (fun x => k))
  (at level 100, m at next level, k at level 200, right associativity) : db_scope.
Notation "m ;;; k" := (bind m (fun _ => k))
  (at level 100, k at level 200, right associativity) : db_scope.

(** ** Tables *)
Section Table.
Context {R : Type}.

Definition select (p : R -> bool) (t : list R) : list R := List.filter p t.
Definition count (p : R -> bool) (t : list R) : nat := length (select p t).
Definition delete_where (p : R -> bool) (t : list R) : list R :=
  List.filter (fun r => negb (p r)) t.
Definition update_where (p : R -> bool) (f : R -> R) (t : list R) : list R :=
  map (fun r => if p r then f r else r) t.

(** [ORDER BY key ASC]; rows with equal keys stay in table order. *)
Fixpoint insert_by (key : R -> Z) (r : R) (l : list R) : list R :=
  match l with
  | [] => [r]
  | x :: rest => if (key x <=? key r)%Z then x :: insert_by key r rest else r :: l
  end.
Definition order_by (key : R -> Z) (t : list R) : list R :=
  fold_left (fun acc r => insert_by key r acc) t [].
End Table.

(** ** Invariants of computations *)
Section Preserve.
Context {S : Type}.

(** [I] survives [m], whatever statements fail. *)
Definition preserves {A} (I : S -> Prop) (m : M S A) : Prop :=
  forall w, I (st w) -> I (st (snd (m w))).

Lemma preserves_ret {A} I (a : A) : preserves I (ret a).
Proof. by intros w. Qed.
Lemma preserves_fail {A} I e : preserves I (fail (A:=A) e).
Proof. by intros w. Qed.
Lemma preserves_lift {A} I (r : result A OmonError) : preserves I (lift r).
Proof. by intros w. Qed.

Lemma preserves_bind_lift {A B} I (r : result A OmonError) (k : A -> M S B) :
  (forall a, r = Ok a -> preserves I (k a)) -> preserves I (bind (lift r) k).
Proof. intros Hk w HI. unfold bind, lift. destruct r as [a|e]; [by apply Hk|done]. Qed.

Lemma preserves_bind {A B} I (m : M S A) (k : A -> M S B) :
  preserves I m -> (forall a, preserves I (k a)) -> preserves I (bind m k).
Proof.
  intros Hm Hk w HI. unfold bind. specialize (Hm w HI).
  destruct (m w) as [[a|e] w']; [by apply Hk | done].
Qed.

Lemma preserves_exec {A} (I : S -> Prop) (f : S -> result A OmonError * S) :
  (forall s, I s -> I (snd (f s))) -> preserves I (exec f).
Proof.
  intros Hf w HI. unfold exec. specialize (Hf _ HI).
  destruct (f (st w)) as [r s'] eqn:E.
  destruct (faults w) as [|[msg|] rest]; simpl; by rewrite ?E.
Qed.

Lemma preserves_stmt {A} (I : S -> Prop) (f : S -> A * S) :
  (forall s, I s -> I (snd (f s))) -> preserves I (stmt f).
Proof.
  intros Hf. apply preserves_exec. intros s HI. specialize (Hf s HI). by destruct (f s).
Qed.

Lemma preserves_query {A} (I : S -> Prop) (f : S -> A) : preserves I (query f).
Proof. by apply preserves_stmt. Qed.

Lemma preserves_mem {A} (I : S -> Prop) (f : S -> A * S) :
  (forall s, I s -> I (snd (f s))) -> preserves I (mem f).
Proof. intros Hf w HI. unfold mem. specialize (Hf _ HI). by destruct (f (st w)). Qed.

Lemma preserves_attempt {A} I (m : M S A) : preserves I m -> preserves I (attempt m).
Proof. intros Hm w HI. unfold attempt. specialize (Hm w HI). by destruct (m w). Qed.

Lemma preserves_for_each {X} I (f : X -> M S unit) l :
  (forall x, preserves I (f x)) -> preserves I (for_each f l).
Proof.
  intros Hf. induction l; simpl; [apply preserves_ret | by apply preserves_bind].
Qed.

Lemma exec_noop_st (w w' : world S) r :
  exec (fun s => (Ok tt, s)) w = (r, w') -> st w' = st w.
Proof. unfold exec. intros H. destruct (faults w) as [|[?|] ?]; by simplify_eq/=. Qed.

Lemma preserves_transaction {A} I (m : M S A) :
  preserves I m -> preserves I (transaction m).
Proof.
  intros Hm w HI. unfold transaction.
  destruct (exec _ w) as [[[]|e] w1] eqn:E1; apply exec_noop_st in E1; simpl; [|by rewrite E1].
  assert (H1 : I (st w1)) by by rewrite E1. specialize (Hm w1 H1).
  destruct (m w1) as [[a|e] w2]; [|done].
  destruct (exec _ w2) as [[[]|e] w3] eqn:E3; apply exec_noop_st in E3; simpl in *; [by rewrite E3 | done].
Qed.

(** A transaction that reports an error changed nothing. *)
Lemma transaction_atomic {A} (m : M S A) w e w' :
  transaction m w = (Err e, w') -> st w' = st w.
Proof.
  unfold transaction.
  destruct (exec _ w) as [[[]|e1] w1] eqn:E1; apply exec_noop_st in E1; [|by intros [= -> ->]].
  destruct (m w1) as [[a|e2] w2]; [|by intros [= -> <-]].
  destruct (exec _ w2) as [[[]|e3] w3] eqn:E3; apply exec_noop_st in E3; [done | by intros [= -> <-]].
Qed.
End Preserve.

Create HintDb preserve.
#[export] Hint Resolve preserves_ret preserves_fail preserves_lift preserves_bind preserves_query
  preserves_attempt preserves_for_each preserves_transaction : preserve.

(** ** Lemmas on tables *)

Lemma existsb_false_filter {A} (p : A -> bool) (l : list A) : existsb p l = false -> List.filter p l = [].
Proof. induction l as [|x l IH]; simpl; [done|]. by destruct (p x). Qed.

Section TableLemmas.
Context {R : Type}.
Implicit Types (p : R -> bool) (t l : list R) (r x : R) (key : R -> Z).

Lemma in_select p t r : r ∈ select p t <-> r ∈ t /\ p r = true.
Proof. unfold select. rewrite !list_elem_of_In, filter_In. done. Qed.

Lemma in_delete_where p t r : r ∈ delete_where p t <-> r ∈ t /\ p r = false.
Proof. unfold delete_where. rewrite !list_elem_of_In, filter_In, negb_true_iff. done. Qed.

Lemma in_update_where p f t r :
  r ∈ update_where p f t <-> exists r0, r0 ∈ t /\ r = (if p r0 then f r0 else r0).
Proof.
  unfold update_where. rewrite list_elem_of_fmap. split; intros (r0 & ? & ?); eauto.
Qed.

Lemma count_app p t1 t2 : count p (t1 ++ t2) = count p t1 + count p t2.
Proof. unfold count, select. by rewrite List.filter_app, length_app. Qed.

Lemma count_delete_le p q t : count p (delete_where q t) <= count p t.
Proof.
  unfold count, select, delete_where. induction t as [|r t IH]; simpl; [done|].
  destruct (q r), (p r) eqn:E; simpl; rewrite ?E; simpl; lia.
Qed.

Lemma count_zero p t : count p t = 0 <-> forall r, r ∈ t -> p r = false.
Proof.
  unfold count, select. induction t as [|r t IH]; simpl.
  - split; [|done]. intros _ r Hr. by apply not_elem_of_nil in Hr.
  - destruct (p r) eqn:E; simpl.
    + split; [done|]. intros H. specialize (H r (list_elem_of_here _ _)). congruence.
    + rewrite IH. split; intros H x; [|intros; by apply H, list_elem_of_further].
      intros [->|Hx]%elem_of_cons; eauto.
Qed.

Lemma count_all p t : (forall r, r ∈ t -> p r = true) -> count p t = length t.
Proof.
  unfold count, select. induction t as [|r t IH]; simpl; intros Hp; [done|].
  rewrite Hp by left. simpl. f_equal. apply IH. intros x Hx. apply Hp. by right.
Qed.

Lemma select_nil p t : select p t = [] <-> forall r, r ∈ t -> p r = false.
Proof.
  rewrite <- count_zero. unfold count. by destruct (select p t).
Qed.

Lemma delete_where_none p t : (forall r, r ∈ t -> p r = false) -> delete_where p t = t.
Proof.
  unfold delete_where. induction t as [|r t IH]; simpl; intros H; [done|].
  rewrite H by apply list_elem_of_here. simpl. f_equal. apply IH.
  intros x Hx. by apply H, list_elem_of_further.
Qed.

Lemma in_insert_by key r l x : x ∈ insert_by key r l <-> x = r \/ x ∈ l.
Proof.
  induction l as [|y l IH]; simpl.
  - rewrite list_elem_of_singleton. split; [by left|]. intros [->|H]; [done|by apply not_elem_of_nil in H].
  - destruct (key y <=? key r)%Z; rewrite !elem_of_cons, ?IH; naive_solver.
Qed.

Lemma in_order_by key t x : x ∈ order_by key t <-> x ∈ t.
Proof.
  unfold order_by. enough (forall acc : list R, x ∈ fold_left (fun acc r => insert_by key r acc) t acc <-> x ∈ acc \/ x ∈ t) as H.
  { rewrite H. split; [intros [?%not_elem_of_nil|?]; done | by right]. }
  induction t as [|r t IH]; intros acc; simpl.
  - split; [by left|]. intros [?|?%not_elem_of_nil]; done.
  - rewrite IH, in_insert_by, elem_of_cons. naive_solver.
Qed.

Lemma length_insert_by key r l : length (insert_by key r l) = S (length l).
Proof. induction l as [|y l IH]; simpl; [done|]. destruct (_ <=? _)%Z; simpl; lia. Qed.

Lemma length_order_by key t : length (order_by key t) = length t.
Proof.
  unfold order_by. enough (forall acc : list R, length (fold_left (fun acc r => insert_by key r acc) t acc) = length acc + length t) as H by by rewrite H.
  induction t as [|r t IH]; intros acc; simpl; [lia|]. rewrite IH, length_insert_by. lia.
Qed.
End TableLemmas.

Lemma NoDup_map_delete {R K} (key : R -> K) (p : R -> bool) (t : list R) :
  NoDup (map key t) -> NoDup (map key (delete_where p t)).
Proof.
  unfold delete_where. induction t as [|r t IH]; simpl; [done|].
  intros [Hr Ht]%NoDup_cons. destruct (p r); simpl; [by apply IH|].
  apply NoDup_cons. split; [|by apply IH]. intros (x & E & Hx)%list_elem_of_fmap.
  apply in_delete_where in Hx as [Hx _]. apply Hr, list_elem_of_fmap. eauto.
Qed.

Lemma map_update_where {R K} (key : R -> K) p f (t : list R) :
  (forall r, key (f r) = key r) -> map key (update_where p f t) = map key t.
Proof.
  intros Hk. unfold update_where. rewrite map_map. apply map_ext. intros r. by destruct (p r).
Qed.

Lemma existsb_false {R} (p : R -> bool) (t : list R) :
  existsb p t = false <-> forall r, r ∈ t -> p r = false.
Proof.
  induction t as [|x t IH]; simpl.
  - split; [|done]. intros _ r Hr. by apply not_elem_of_nil in Hr.
  - rewrite orb_false_iff, IH. split.
    + intros [? ?] r [->|?]%elem_of_cons; auto.
    + intros Hall. split; [apply Hall; left | intros r Hr; apply Hall; by right].
Qed.

Lemma head_select {R} (p : R -> bool) t r :
  head (select p t) = Some r -> r ∈ t /\ p r = true.
Proof.
  intros Hh. apply in_select. destruct (select p t); simplify_eq/=. left.
Qed.

Lemma insert_by_perm {R} (key : R -> Z) r l : insert_by key r l ≡ₚ r :: l.
Proof.
  induction l as [|y l IH]; simpl; [done|]. destruct (_ <=? _)%Z; [|done].
  rewrite IH. apply perm_swap.
Qed.

Lemma order_by_perm {R} (key : R -> Z) t : order_by key t ≡ₚ t.
Proof.
  unfold order_by. enough (forall acc : list R, fold_left (fun acc r => insert_by key r acc) t acc ≡ₚ acc ++ t)%list as H by by rewrite H.
  induction t as [|r t IH]; intros acc; simpl; [by rewrite app_nil_r|].
  rewrite IH, insert_by_perm. simpl. apply Permutation_middle.
Qed.

Lemma NoDup_map_order_by {R K} (f : R -> K) key t :
  NoDup (map f t) -> NoDup (map f (order_by key t)).
Proof.
  intros Hn. assert (map f (order_by key t) ≡ₚ map f t) as Hp by (apply Permutation_map, order_by_perm).
  by rewrite Hp.
Qed.

Lemma NoDup_map_select {R K} (f : R -> K) p (t : list R) :
  NoDup (map f t) -> NoDup (map f (select p t)).
Proof.
  intros Hn. apply (NoDup_map_delete f (fun r => negb (p r))) in Hn. unfold delete_where in Hn.
  erewrite List.filter_ext in Hn; [exact Hn|]. intros r. simpl. by rewrite negb_involutive.
Qed.

Lemma NoDup_key_eq {R K} (key : R -> K) (t : list R) r r' :
  NoDup (map key t) -> r ∈ t -> r' ∈ t -> key r = key r' -> r = r'.
Proof.
  induction t as [|x t IH]; simpl; intros Hn Hr Hr' E; [by apply not_elem_of_nil in Hr|].
  apply NoDup_cons in Hn as [Hx Ht].
  apply elem_of_cons in Hr as [->|Hr], Hr' as [->|Hr']; try done.
  - destruct Hx. rewrite E. apply list_elem_of_fmap. eauto.
  - destruct Hx. rewrite <- E. apply list_elem_of_fmap. eauto.
  - by apply IH.
Qed.

Lemma update_where_ext {R} (p q : R -> bool) (f g : R -> R) (t : list R) :
  (forall r, r ∈ t -> (if p r then f r else r) = (if q r then g r else r)) ->
  update_where p f t = update_where q g t.
Proof.
  intros Hpq. unfold update_where. apply map_ext_in. intros r Hr. apply Hpq. by apply list_elem_of_In.
Qed.

Lemma update_where_compose {R} (p q : R -> bool) (f g : R -> R) (t : list R) :
  update_where p f (update_where q g t)
  = map (fun r => let r' := if q r then g r else r in if p r' then f r' else r') t.
Proof. unfold update_where. by rewrite map_map. Qed.

Lemma count_snoc {A} (p : A -> bool) l x : count p (l ++ [x]) = count p l + Nat.b2n (p x).
Proof. rewrite count_app. f_equal. unfold count, select. simpl. by destruct (p x). Qed.

Lemma count_cons {A} (p : A -> bool) l x : count p (x :: l) = Nat.b2n (p x) + count p l.
Proof. unfold count, select. simpl. by destruct (p x). Qed.

Lemma count_insert {A} (p : A -> bool) l i x y :
  l !! i = Some x -> count p (<[i := y]> l) + Nat.b2n (p x) = count p l + Nat.b2n (p y).
Proof.
  revert i. induction l as [|z l IH]; intros [|i]; simpl; try done.
  - intros [= ->]. rewrite !count_cons. lia.
  - intros Hi. specialize (IH i Hi). rewrite !count_cons. lia.
Qed.

Lemma count_lookup {A} (p : A -> bool) l i x : l !! i = Some x -> Nat.b2n (p x) <= count p l.
Proof.
  revert i. induction l as [|y l IH]; intros [|i]; simpl; try done.
  - intros [= ->]. rewrite count_cons. lia.
  - intros Hi. rewrite count_cons. specialize (IH i Hi). lia.
Qed.

Lemma count_le {A} (p q : A -> bool) l : (forall x, p x = true -> q x = true) -> count p l <= count q l.
Proof.
  intros Hpq. induction l as [|x l IH]; [done|]. rewrite !count_cons.
  specialize (Hpq x). destruct (p x); [rewrite Hpq by done|]; simpl; lia.
Qed.

Lemma count_update_where {R} (p q : R -> bool) f (t : list R) :
  (forall r, q (f r) = q r) -> count q (update_where p f t) = count q t.
Proof.
  intros Hq. unfold count, select, update_where. induction t as [|r t IH]; simpl; [done|].
  assert (q (if p r then f r else r) = q r) as -> by (destruct (p r); [apply Hq | done]).
  destruct (q r); simpl; by rewrite IH.
Qed.

Lemma count_key {R K} `{EqDecision K} (key : R -> K) (p : R -> bool) (t : list R) r :
  NoDup (map key t) -> r ∈ t -> (forall x, x ∈ t -> p x = bool_decide (key x = key r)) -> count p t = 1.
Proof.
  induction t as [|x t IH]; simpl; intros Hn Hr Hp; [by apply not_elem_of_nil in Hr|].
  unfold count, select. simpl. rewrite Hp by left. apply NoDup_cons in Hn as [Hx Ht].
  apply elem_of_cons in Hr as [->|Hr].
  - rewrite bool_decide_true by done. simpl. f_equal. apply (proj2 (count_zero p t)).
    intros y Hy. rewrite Hp by by right. apply bool_decide_eq_false. intros E. apply Hx.
    rewrite <- E. apply list_elem_of_fmap. eauto.
  - rewrite bool_decide_false; [apply IH; [done..|]; intros y Hy; apply Hp; by right|].
    intros E. apply Hx. rewrite E. apply list_elem_of_fmap. eauto.
Qed.

Lemma insert_by_sorted {R} (key : R -> Z) r l :
  StronglySorted (fun a b => (key a <= key b)%Z) l -> StronglySorted (fun a b => (key a <= key b)%Z) (insert_by key r l).
Proof.
  induction 1 as [|x l Hl IH Hx]; simpl; [by repeat constructor|].
  destruct (Z.leb_spec (key x) (key r)).
  - constructor; [done|]. rewrite insert_by_perm. by constructor.
  - constructor; [by constructor|]. constructor; [lia|]. eapply Forall_impl; [exact Hx|]. simpl. lia.
Qed.

Lemma order_by_sorted {R} (key : R -> Z) t :
  StronglySorted (fun a b => (key a <= key b)%Z) (order_by key t).
Proof.
  unfold order_by. assert (Hnil : StronglySorted (fun a b => (key a <= key b)%Z) (@nil R)) by constructor.
  revert Hnil. generalize (@nil R). induction t as [|r t IH]; intros acc Hs; simpl; [done|].
  by apply IH, insert_by_sorted.
Qed.

(** Of a sorted list, what is taken is no later than what is left. *)
Lemma sorted_take_drop {R} (key : R -> Z) (l : list R) n a b :
  StronglySorted (fun a b => (key a <= key b)%Z) l -> a ∈ take n l -> b ∈ drop n l -> (key a <= key b)%Z.
Proof.
  intros Hs. revert n. induction Hs as [|x l Hl IH Hx]; intros [|n]; simpl;
    try (intros Ha; by apply not_elem_of_nil in Ha).
  intros [->|Ha]%elem_of_cons Hb; [|by eapply IH].
  rewrite Forall_forall in Hx. apply Hx. rewrite <- (take_drop n l). apply elem_of_app. by right.
Qed.

Lemma count_perm {R} p (t1 t2 : list R) : t1 ≡ₚ t2 -> count p t1 = count p t2.
Proof.
  unfold count, select. induction 1; simpl; try (repeat case_match; simpl; lia).
Qed.

Lemma count_delete {R} p q (t : list R) :
  count p (delete_where q t) = count (fun r => p r && negb (q r)) t.
Proof.
  unfold count, select, delete_where. induction t as [|r t IH]; simpl; [done|].
  destruct (q r), (p r) eqn:E; simpl; rewrite ?E; simpl; by rewrite IH.
Qed.

Lemma count_split {R} (p q : R -> bool) t :
  count p t = count (fun r => p r && q r) t + count (fun r => p r && negb (q r)) t.
Proof.
  unfold count, select. induction t as [|r t IH]; simpl; [done|].
  destruct (p r), (q r); simpl; lia.
Qed.

Lemma count_select {R} (p q : R -> bool) t : count q (select p t) = count (fun r => p r && q r) t.
Proof.
  unfold count, select. induction t as [|r t IH]; simpl; [done|].
  destruct (p r); simpl; [|done]. destruct (q r); simpl; by rewrite IH.
Qed.

Lemma count_after_update {R} (q p : R -> bool) f (t : list R) :
  count q (update_where p f t) = count (fun r => q (if p r then f r else r)) t.
Proof.
  unfold count, select, update_where. induction t as [|r t IH]; simpl; [done|].
  destruct (q _); simpl; by rewrite IH.
Qed.

Lemma count_or {R} (p q : R -> bool) (t : list R) :
  (forall r, r ∈ t -> p r = true -> q r = false) ->
  count (fun r => p r || q r) t = count p t + count q t.
Proof.
  unfold count, select. induction t as [|r t IH]; simpl; intros Hpq; [done|].
  assert (IH' := IH (fun x Hx => Hpq x (list_elem_of_further _ _ _ Hx))).
  specialize (Hpq r (list_elem_of_here _ _)). destruct (p r); simpl.
  - rewrite Hpq by done. rewrite IH'. done.
  - destruct (q r); simpl; rewrite IH'; lia.
Qed.

Lemma count_ext {R} (p q : R -> bool) t :
  (forall r, r ∈ t -> p r = q r) -> count p t = count q t.
Proof.
  unfold count, select. induction t as [|r t IH]; simpl; intros Hpq; [done|].
  rewrite (Hpq r) by left. destruct (q r); simpl; rewrite IH; auto; intros x Hx; apply Hpq; by right.
Qed.

Lemma length_delete {R} (q : R -> bool) t : length (delete_where q t) + count q t = length t.
Proof.
  unfold count, select, delete_where. induction t as [|r t IH]; simpl; [done|].
  destruct (q r); simpl; lia.
Qed.

Lemma select_delete {R} p q (t : list R) :
  (forall r, r ∈ t -> p r = true -> q r = false) -> select p (delete_where q t) = select p t.
Proof.
  unfold select, delete_where. induction t as [|r t IH]; simpl; intros Hpq; [done|].
  rewrite <- IH by (intros x Hx; apply Hpq; by right).
  destruct (p r) eqn:E; [rewrite (Hpq r) by (done || left); simpl; by rewrite E|].
  destruct (q r); simpl; by rewrite ?E.
Qed.

Lemma NoDup_snoc {A} (l : list A) x : NoDup l -> x ∉ l -> NoDup (l ++ [x])%list.
Proof.
  intros Hl Hx. apply NoDup_app. split; [done|]. split.
  - intros y Hy Hyx%list_elem_of_singleton. by subst.
  - apply NoDup_singleton.
Qed.

Lemma elem_of_list_at_most_one {R} (p : R -> bool) (t : list R) r r' :
  count p t <= 1 -> r ∈ t -> r' ∈ t -> p r = true -> p r' = true -> r = r'.
Proof.
  unfold count. intros Hc Hr Hr' Hp Hp'.
  assert (Hs : r ∈ select p t) by by apply in_select. assert (Hs' : r' ∈ select p t) by by apply in_select.
  destruct (select p t) as [|x [|y l]]; simpl in Hc; [by apply not_elem_of_nil in Hs| |lia].
  apply list_elem_of_singleton in Hs, Hs'. congruence.
Qed.

(** ** What the stores rely on from SQLite

    Instants are nanoseconds since the epoch.  [epoch_secs] is
    [strftime('%s', t)]: it is monotone and shifts with whole seconds.
    [constraint_error] is the text of a violated uniqueness constraint. *)
Definition NS : Z := 1000000000.
Definition seconds (k : Z) : Z := (k * NS)%Z.

Class Sqlite := {
  epoch_secs : Z -> Z;
  constraint_error : string -> string;
  epoch_secs_mono : forall a b, (a <= b)%Z -> (epoch_secs a <= epoch_secs b)%Z;
  epoch_secs_shift : forall t k, epoch_secs (t + seconds k) = (epoch_secs t + k)%Z
}.

(** The instance that truncates to whole seconds, for concrete evaluations. *)
Program Definition floor_sqlite : Sqlite := {|
  epoch_secs t := (t / NS)%Z;
  constraint_error column := String.append "UNIQUE constraint failed: " column
|}.
Next Obligation. intros. apply Z.div_le_mono; unfold NS; lia. Qed.
Next Obligation. intros. unfold seconds, NS. by rewrite Z.div_add. Qed.

(** ** A Hoare logic for store computations

    [triple P m Q E]: from a state satisfying [P], and whatever statements
    fail, [m] ends in [Q] of its result or, on an error, in [E]. *)
Section Triple.
Context {S : Type}.
Implicit Types (P E : S -> Prop).

Definition triple {A} P (m : M S A) (Q : A -> S -> Prop) E : Prop :=
  forall w, P (st w) ->
    match m w with
    | (Ok a, w') => Q a (st w')
    | (Err _, w') => E (st w')
    end.

Lemma triple_ret {A} P (a : A) Q E : (forall s, P s -> Q a s) -> triple P (ret a) Q E.
Proof. intros H w HP. by apply H. Qed.

Lemma triple_fail {A} P e (Q : A -> S -> Prop) E : (forall s, P s -> E s) -> triple P (fail e) Q E.
Proof. intros H w HP. by apply H. Qed.

Lemma triple_bind {A B} P (m : M S A) (k : A -> M S B) R Q E :
  triple P m R E -> (forall a, triple (R a) (k a) Q E) -> triple P (bind m k) Q E.
Proof.
  intros Hm Hk w HP. unfold bind. specialize (Hm w HP).
  destruct (m w) as [[a|e] w']; [by apply Hk | done].
Qed.

Lemma triple_bind_lift {A B} P (r : result A OmonError) (k : A -> M S B) Q E :
  (forall s, P s -> E s) -> (forall a, r = Ok a -> triple P (k a) Q E) -> triple P (bind (lift r) k) Q E.
Proof. intros HE Hk w HP. unfold bind, lift. destruct r as [a|e]; [by apply Hk|by apply HE]. Qed.

Lemma triple_exec {A} P (f : S -> result A OmonError * S) Q E :
  (forall s, P s -> E s) ->
  (forall s, P s -> match f s with (Ok a, s') => Q a s' | (Err _, s') => E s' end) ->
  triple P (exec f) Q E.
Proof.
  intros HE Hf w HP. unfold exec. specialize (HE _ HP). specialize (Hf _ HP).
  destruct (faults w) as [|[msg|] rest]; simpl; [|done|];
    destruct (f (st w)) as [[a|e] s']; done.
Qed.

Lemma triple_stmt {A} P (f : S -> A * S) Q E :
  (forall s, P s -> E s) -> (forall s, P s -> Q (fst (f s)) (snd (f s))) ->
  triple P (stmt f) Q E.
Proof.
  intros HE Hf. apply triple_exec; [done|]. intros s HP. specialize (Hf s HP). by destruct (f s).
Qed.

Lemma triple_query {A} P (f : S -> A) E :
  (forall s, P s -> E s) -> triple P (query f) (fun a s => a = f s /\ P s) E.
Proof. intros HE. by apply triple_stmt. Qed.

Lemma triple_mem {A} P (f : S -> A * S) Q E :
  (forall s, P s -> Q (fst (f s)) (snd (f s))) -> triple P (mem f) Q E.
Proof. intros Hf w HP. unfold mem. specialize (Hf _ HP). by destruct (f (st w)). Qed.

Lemma triple_attempt {A} P (m : M S A) Q E F :
  triple P m Q F ->
  triple P (attempt m) (fun r s => match r with Ok a => Q a s | Err _ => F s end) E.
Proof. intros Hm w HP. unfold attempt. specialize (Hm w HP). by destruct (m w) as [[?|?] ?]. Qed.

Lemma triple_weaken {A} P P' (m : M S A) Q Q' E E' :
  triple P m Q E -> (forall s, P' s -> P s) -> (forall a s, Q a s -> Q' a s) ->
  (forall s, E s -> E' s) -> triple P' m Q' E'.
Proof.
  intros Hm HP HQ HE w Hw. specialize (Hm w (HP _ Hw)). destruct (m w) as [[?|?] ?]; auto.
Qed.

(** A transaction rolls back, so on an error the precondition still holds. *)
Lemma triple_transaction {A} P (m : M S A) Q E :
  triple P m Q E -> triple P (transaction m) Q P.
Proof.
  intros Hm w HP. unfold transaction.
  destruct (exec _ w) as [[[]|e] w1] eqn:E1; apply exec_noop_st in E1; simpl; [|by rewrite E1].
  assert (H1 : P (st w1)) by by rewrite E1. specialize (Hm w1 H1).
  destruct (m w1) as [[a|e] w2]; [|done].
  destruct (exec _ w2) as [[[]|e] w3] eqn:E3; apply exec_noop_st in E3; simpl in *; [by rewrite E3 | done].
Qed.

Lemma triple_preserves {A} (I : S -> Prop) (m : M S A) :
  triple I m (fun _ => I) I <-> preserves I m.
Proof.
  split; intros H w HI; specialize (H w HI); destruct (m w) as [[?|?] ?]; done.
Qed.
End Triple.

Lemma triple_keep {S A} (P E : S -> Prop) (m : M S A) : preserves P m -> (forall s, P s -> E s) -> triple P m (fun _ => P) E.
Proof. intros H HE w Hw. specialize (H w Hw). destruct (m w) as [[?|?] ?]; [done|by apply HE]. Qed.

Lemma triple_both {S A} P (m : M S A) Q Q' E : triple P m Q E -> triple P m Q' E -> triple P m (fun a s => Q a s /\ Q' a s) E.
Proof. intros H H' w Hw. specialize (H w Hw). specialize (H' w Hw). by destruct (m w) as [[?|?] ?]. Qed.

Lemma triple_at {S A} P (m : M S A) Q E w a w' : triple P m Q E -> P (st w) -> m w = (Ok a, w') -> Q a (st w').
Proof. intros H HP Em. specialize (H w HP). by rewrite Em in H. Qed.

(** A computation that returned, taken apart. *)
Lemma bind_value_inv {S A B} (m : M S A) (k : A -> M S B) w b w' :
  bind m k w = (Ok b, w') -> exists a w1, m w = (Ok a, w1) /\ k a w1 = (Ok b, w').
Proof. unfold bind. destruct (m w) as [[a|e] w1]; [by exists a, w1|done]. Qed.

(** A computation on a part proves what it does of the part. *)
Lemma triple_zoom {S T A} (get : S -> T) (put : T -> S -> S) (m : M T A) P Q E :
  (forall s, P s -> exists PT, PT (get s) /\ triple PT m (fun a t => Q a (put t s)) (fun t => E (put t s))) -> triple P (zoom get put m) Q E.
Proof.
  intros H w HP. unfold zoom. destruct (H (st w) HP) as (PT & Ht & Hm). specialize (Hm (mkWorld (get (st w)) (faults w)) Ht).
  by destruct (m _) as [[?|?] ?].
Qed.

Lemma preserves_zoom {S T A} (get : S -> T) (put : T -> S -> S) (I : S -> Prop) (m : M T A) :
  (forall s, I s -> exists J, J (get s) /\ (forall t, J t -> I (put t s)) /\ preserves J m) -> preserves I (zoom get put m).
Proof.
  intros H w HI. unfold zoom. destruct (H (st w) HI) as (J & HJ & Hput & Hm). specialize (Hm (mkWorld (get (st w)) (faults w)) HJ).
  destruct (m _) as [r w']. by apply Hput.
Qed.

(** One step of a [triple] proof: the rule for the head of the computation. *)
Ltac triple_step :=
  lazymatch goal with
  | |- triple _ (bind (query _) _) _ _ => eapply triple_bind; [apply triple_query | intros ?; simpl]
  | |- triple _ (bind _ _) _ _ => eapply triple_bind
  | |- triple _ (ret _) _ _ => apply triple_ret
  | |- triple _ (fail _) _ _ => apply triple_fail
  | |- triple _ (stmt _) _ _ => apply triple_stmt
  | |- triple _ (exec _) _ _ => apply triple_exec
  | |- triple _ (mem _) _ _ => apply triple_mem
  | |- triple _ (transaction _) _ _ => eapply triple_transaction
  end.

(** ** Evaluation when no statement fails *)
Section Clean.
Context {S : Type}.
Notation clean s := (mkWorld (S:=S) s []).

Lemma bind_query {A B} (f : S -> A) (k : A -> M S B) s :
  bind (query f) k (clean s) = k (f s) (clean s).
Proof. done. Qed.
Lemma bind_stmt {A B} (f : S -> A * S) (k : A -> M S B) s :
  bind (stmt f) k (clean s) = k (fst (f s)) (clean (snd (f s))).
Proof. unfold bind, stmt, exec. simpl. by destruct (f s). Qed.
Lemma bind_exec {A B} (f : S -> result A OmonError * S) (k : A -> M S B) s :
  bind (exec f) k (clean s) =
  match f s with (Ok a, s') => k a (clean s') | (Err e, s') => (Err e, clean s') end.
Proof. unfold bind, exec. simpl. by destruct (f s) as [[?|?] ?]. Qed.
Lemma bind_mem {A B} (f : S -> A * S) (k : A -> M S B) s :
  bind (mem f) k (clean s) = k (fst (f s)) (clean (snd (f s))).
Proof. unfold bind, mem. simpl. by destruct (f s). Qed.
Lemma bind_ret {A B} (a : A) (k : A -> M S B) w : bind (ret a) k w = k a w.
Proof. done. Qed.
Lemma bind_attempt_stmt {A B} (f : S -> A * S) (k : result A OmonError -> M S B) s :
  bind (attempt (stmt f)) k (clean s) = k (Ok (fst (f s))) (clean (snd (f s))).
Proof. unfold bind, attempt, stmt, exec. simpl. by destruct (f s). Qed.
Lemma bind_attempt_query {A B} (f : S -> A) (k : result A OmonError -> M S B) s :
  bind (attempt (query f)) k (clean s) = k (Ok (f s)) (clean s).
Proof. done. Qed.
Lemma bind_value {A B} (m : M S A) (k : A -> M S B) w a w' :
  m w = (Ok a, w') -> bind m k w = k a w'.
Proof. intros E. unfold bind. by rewrite E. Qed.
Lemma bind_error {A B} (m : M S A) (k : A -> M S B) w e w' :
  m w = (Err e, w') -> bind m k w = (Err e, w').
Proof. intros E. unfold bind. by rewrite E. Qed.
Lemma stmt_clean {A} (f : S -> A * S) s :
  stmt f (clean s) = (Ok (fst (f s)), clean (snd (f s))).
Proof. unfold stmt, exec. simpl. by destruct (f s). Qed.
Lemma query_clean {A} (f : S -> A) s : query f (clean s) = (Ok (f s), clean s).
Proof. done. Qed.
Lemma transaction_commit {A} (m : M S A) s a s' :
  m (clean s) = (Ok a, clean s') -> transaction m (clean s) = (Ok a, clean s').
Proof. intros E. unfold transaction, exec at 1. simpl. by rewrite E. Qed.
Lemma transaction_rollback {A} (m : M S A) s e s' :
  m (clean s) = (Err e, clean s') -> transaction m (clean s) = (Err e, clean s).
Proof. intros E. unfold transaction, exec at 1. simpl. by rewrite E. Qed.
Lemma run_intro {A} (m : M S A) s r s' : m (clean s) = (r, clean s') -> run m s = (r, s').
Proof. intros E. unfold run. by rewrite E. Qed.
End Clean.
Create Rewrite HintDb db_run.
#[export] Hint Rewrite @bind_query @bind_stmt @bind_exec @bind_mem @bind_ret @bind_attempt_stmt @bind_attempt_query
  @stmt_clean @query_clean : db_run.

(** Structural proof that a computation keeps [I]: only its statements and
    in-memory steps are left as goals. *)
Ltac preserve_steps :=
  repeat (cbv beta zeta;
    lazymatch goal with
    | |- preserves _ (bind _ _) => apply preserves_bind; [|intros ?]
    | |- preserves _ (ret _) => apply preserves_ret
    | |- preserves _ (fail _) => apply preserves_fail
    | |- preserves _ (lift _) => apply preserves_lift
    | |- preserves _ (query _) => apply preserves_query
    | |- preserves _ (attempt _) => apply preserves_attempt
    | |- preserves _ (transaction _) => apply preserves_transaction
    | |- preserves _ (for_each _ _) => apply preserves_for_each; intros ?
    | |- preserves _ (stmt _) => apply preserves_stmt
    | |- preserves _ (exec _) => apply preserves_exec
    | |- preserves _ (mem _) => apply preserves_mem
    | |- preserves _ (match ?x with _ => _ end) => destruct x eqn:?
    end).

(** ** Total correctness when no statement fails

    [total P m Q]: from a state satisfying [P], with no failure to come, [m]
    returns a value and ends in [Q]. *)
Section Total.
Context {S : Type}.
Implicit Types (P : S -> Prop).

Definition total {A} P (m : M S A) (Q : A -> S -> Prop) : Prop :=
  forall s, P s -> exists a s', m (mkWorld s []) = (Ok a, mkWorld s' []) /\ Q a s'.

Lemma total_ret {A} P (a : A) Q : (forall s, P s -> Q a s) -> total P (ret a) Q.
Proof. intros H s HP. exists a, s. split; [done | by apply H]. Qed.

Lemma total_bind {A B} P (m : M S A) (k : A -> M S B) R Q :
  total P m R -> (forall a, total (R a) (k a) Q) -> total P (bind m k) Q.
Proof.
  intros Hm Hk s HP. destruct (Hm s HP) as (a & s1 & E & HR).
  destruct (Hk a s1 HR) as (b & s2 & E2 & HQ). exists b, s2. unfold bind. by rewrite E.
Qed.

Lemma total_exec {A} P (f : S -> result A OmonError * S) Q :
  (forall s, P s -> exists a s', f s = (Ok a, s') /\ Q a s') -> total P (exec f) Q.
Proof.
  intros Hf s HP. destruct (Hf s HP) as (a & s' & E & HQ). exists a, s'.
  unfold exec. simpl. by rewrite E.
Qed.

Lemma total_stmt {A} P (f : S -> A * S) (Q : A -> S -> Prop) :
  (forall s, P s -> Q (fst (f s)) (snd (f s))) -> total P (stmt f) Q.
Proof.
  intros Hf. apply total_exec. intros s HP. specialize (Hf s HP). destruct (f s) as [a s'].
  by exists a, s'.
Qed.

Lemma total_query {A} P (f : S -> A) (Q : A -> S -> Prop) :
  (forall s, P s -> Q (f s) s) -> total P (query f) Q.
Proof. intros Hf. by apply total_stmt. Qed.

Lemma total_mem {A} P (f : S -> A * S) (Q : A -> S -> Prop) :
  (forall s, P s -> Q (fst (f s)) (snd (f s))) -> total P (mem f) Q.
Proof.
  intros Hf s HP. specialize (Hf s HP). destruct (f s) as [a s'] eqn:E.
  exists a, s'. unfold mem. simpl. by rewrite E.
Qed.

Lemma total_attempt {A} P (m : M S A) Q :
  total P m Q -> total P (attempt m) (fun r s => exists a, r = Ok a /\ Q a s).
Proof.
  intros Hm s HP. destruct (Hm s HP) as (a & s' & E & HQ). exists (Ok a), s'.
  unfold attempt. rewrite E. eauto.
Qed.

Lemma total_ignore {A} P (m : M S A) (R : S -> Prop) :
  total P m (fun _ => R) -> total P (attempt m) (fun _ => R).
Proof.
  intros Hm s HP. destruct (Hm s HP) as (a & s' & E & HQ). exists (Ok a), s'.
  unfold attempt. rewrite E. eauto.
Qed.

Lemma total_weaken {A} P P' (m : M S A) (Q Q' : A -> S -> Prop) :
  total P m Q -> (forall s, P' s -> P s) -> (forall a s, Q a s -> Q' a s) -> total P' m Q'.
Proof.
  intros Hm HP HQ s Hs. destruct (Hm s (HP _ Hs)) as (a & s' & E & Ha). eauto 6.
Qed.

Lemma total_for_each {X} (I : S -> Prop) (f : X -> M S unit) l :
  (forall x, x ∈ l -> total I (f x) (fun _ => I)) -> total I (for_each f l) (fun _ => I).
Proof.
  induction l as [|x l IH]; simpl; intros Hf; [by apply total_ret|].
  eapply total_bind; [apply Hf; left|]. intros ?; simpl. apply IH. intros y Hy. apply Hf. by right.
Qed.

Lemma total_run {A} P (m : M S A) Q s :
  total P m Q -> P s -> exists a s', run m s = (Ok a, s') /\ Q a s'.
Proof.
  intros Hm HP. destruct (Hm s HP) as (a & s' & E & HQ). exists a, s'.
  split; [by apply run_intro | exact HQ].
Qed.

(** A partial-correctness triple carries over to the fault-free run. *)
Lemma triple_run {A} P (m : M S A) Q E s a s' :
  triple P m Q E -> P s -> run m s = (Ok a, s') -> Q a s'.
Proof.
  intros Hm HP Hr. pose proof (Hm (mkWorld s []) HP) as H. clear Hm. unfold run in Hr.
  destruct (m (mkWorld s [])) as [[b|e] w]; by simplify_eq.
Qed.
End Total.

(** A fact of the precondition that does not depend on the state. *)
Lemma triple_pure {S A} (P : S -> Prop) (H0 : Prop) (m : M S A) Q E :
  (H0 -> triple P m Q E) -> triple (fun s => P s /\ H0) m Q E.
Proof. intros Hm w [HP H1]. by apply Hm. Qed.

Lemma triple_exists {S A X} (P : X -> S -> Prop) (m : M S A) Q E :
  (forall x, triple (P x) m Q E) -> triple (fun s => exists x, P x s) m Q E.
Proof. intros Hm w [x HP]. by apply (Hm x). Qed.

(** A loop that keeps [I], whatever fails. *)
Lemma triple_for_each {S X} (I E : S -> Prop) (f : X -> M S unit) l :
  (forall s, I s -> E s) ->
  (forall x, x ∈ l -> triple I (f x) (fun _ => I) E) -> triple I (for_each f l) (fun _ => I) E.
Proof.
  intros HE. induction l as [|x l IH]; simpl; intros Hf; [by apply triple_ret|].
  eapply triple_bind; [apply Hf; left|]. intros ?; simpl. apply IH. intros y Hy. apply Hf. by right.
Qed.

Lemma triple_ignore {S A} (I E : S -> Prop) (m : M S A) :
  preserves I m -> triple I (attempt m) (fun _ => I) E.
Proof.
  intros Hm w HI. unfold attempt. specialize (Hm w HI). by destruct (m w) as [[?|?] ?].
Qed.

(** ** Computations that never fail

    [tidy]: no failure appears that was not to come; [steady]: moreover a value
    is returned whatever fails, because every failing part is attempted. *)
Section Steady.
Context {S : Type}.

Definition tidy {A} (m : M S A) : Prop := forall w, faults w = [] -> faults (snd (m w)) = [].
Definition steady {A} (m : M S A) : Prop := tidy m /\ forall w, exists a, fst (m w) = Ok a.

Lemma tidy_ret {A} (a : A) : tidy (ret a).
Proof. by intros w. Qed.
Lemma tidy_fail {A} e : tidy (fail (A:=A) e).
Proof. by intros w. Qed.
Lemma tidy_bind {A B} (m : M S A) (k : A -> M S B) : tidy m -> (forall a, tidy (k a)) -> tidy (bind m k).
Proof.
  intros Hm Hk w Hw. unfold bind. specialize (Hm w Hw). destruct (m w) as [[a|e] w']; [by apply Hk | done].
Qed.
Lemma tidy_exec {A} (f : S -> result A OmonError * S) : tidy (exec f).
Proof. intros w Hw. unfold exec. rewrite Hw. by destruct (f (st w)). Qed.
Lemma tidy_stmt {A} (f : S -> A * S) : tidy (stmt f).
Proof. apply tidy_exec. Qed.
Lemma tidy_query {A} (f : S -> A) : tidy (query f).
Proof. apply tidy_exec. Qed.
Lemma tidy_mem {A} (f : S -> A * S) : tidy (mem f).
Proof. intros w Hw. unfold mem. by destruct (f (st w)). Qed.
Lemma tidy_attempt {A} (m : M S A) : tidy m -> tidy (attempt m).
Proof. intros Hm w Hw. unfold attempt. specialize (Hm w Hw). by destruct (m w). Qed.
Lemma tidy_for_each {X} (f : X -> M S unit) l : (forall x, tidy (f x)) -> tidy (for_each f l).
Proof. intros Hf. induction l; simpl; [apply tidy_ret | by apply tidy_bind]. Qed.

Lemma steady_ret {A} (a : A) : steady (ret a).
Proof. split; [apply tidy_ret | by eexists]. Qed.
Lemma steady_bind {A B} (m : M S A) (k : A -> M S B) : steady m -> (forall a, steady (k a)) -> steady (bind m k).
Proof.
  intros [Tm Hm] Hk. split; [apply tidy_bind; [done | intros a; apply Hk]|].
  intros w. unfold bind. destruct (Hm w) as [a E]. destruct (m w) as [r w']. simpl in E. subst r. apply Hk.
Qed.
Lemma steady_mem {A} (f : S -> A * S) : steady (mem f).
Proof. split; [apply tidy_mem|]. intros w. unfold mem. destruct (f (st w)). by eexists. Qed.
Lemma steady_attempt {A} (m : M S A) : tidy m -> steady (attempt m).
Proof.
  intros Hm. split; [by apply tidy_attempt|]. intros w. unfold attempt. destruct (m w). by eexists.
Qed.
Lemma steady_for_each {X} (f : X -> M S unit) l : (forall x, steady (f x)) -> steady (for_each f l).
Proof. intros Hf. induction l; simpl; [apply steady_ret | by apply steady_bind]. Qed.

Lemma steady_total {A} (P : S -> Prop) (m : M S A) : steady m -> preserves P m -> total P m (fun _ => P).
Proof.
  intros [Tm Hm] Hp s HP. specialize (Tm (mkWorld s []) eq_refl). specialize (Hm (mkWorld s [])) as [a E].
  specialize (Hp (mkWorld s []) HP). destruct (m _) as [r [s' fl]]. simpl in *. subst. eauto.
Qed.

(** A clean run of a steady computation, taken apart. *)
Lemma total_at {A} P (m : M S A) Q s a w :
  total P m Q -> P s -> m (mkWorld s []) = (Ok a, w) -> Q a (st w).
Proof. intros Hm HP E. destruct (Hm s HP) as (a' & s' & E' & HQ). rewrite E in E'. by simplify_eq. Qed.
End Steady.

(** Structural proofs of [tidy] and [steady]. *)
Ltac steady_steps :=
  repeat (cbv beta zeta;
    lazymatch goal with
    | |- tidy (bind _ _) => apply tidy_bind; [|intros ?]
    | |- tidy (ret _) => apply tidy_ret
    | |- tidy (fail _) => apply tidy_fail
    | |- tidy (query _) => apply tidy_query
    | |- tidy (stmt _) => apply tidy_stmt
    | |- tidy (exec _) => apply tidy_exec
    | |- tidy (mem _) => apply tidy_mem
    | |- tidy (attempt _) => apply tidy_attempt
    | |- tidy (for_each _ _) => apply tidy_for_each; intros ?
    | |- tidy (match ?x with _ => _ end) => destruct x eqn:?
    | |- steady (bind _ _) => apply steady_bind; [|intros ?]
    | |- steady (ret _) => apply steady_ret
    | |- steady (mem _) => apply steady_mem
    | |- steady (attempt _) => apply steady_attempt
    | |- steady (for_each _ _) => apply steady_for_each; intros ?
    | |- steady (match ?x with _ => _ end) => destruct x eqn:?
    end).
