(* ===== verification/Session.v ===== *)
(** * Session identity ([src/models/session.rs])

    [SessionKey], its canonical storage key and the strict parser, and the
    mutable [SessionState] / [SessionContext] the actor keeps per key. *)
From stdpp Require Import base list strings gmap.
From Stdlib Require Import ZArith NArith Lia Ascii String.
From S2P Require Import Prelude RustStr Json.
Open Scope string_scope.
Open Scope omon_scope.

Inductive SessionKeyParseError : Type :=
| EmptyInput
| MalformedComponent (offset : nat) (reason : string)
| ExpectedSeparator (offset : nat)
| TrailingData (offset : nat)
| MissingRequiredField (field : string).

Record SessionKey : Type := mkSessionKey {
  platform : string;
  guild_id : option string;
  channel_id : string;
  thread_id : option string;
  user_id : string;
  bot_id : option string
}.

#[export] Instance SessionKey_eq_dec : EqDecision SessionKey.
Proof. solve_decision. Defined.

#[export] Instance SessionKey_countable : Countable SessionKey.
Proof.
  refine (inj_countable'
    (fun k => (platform k, guild_id k, channel_id k, thread_id k, user_id k, bot_id k))
    (fun '(p, g, c, t, u, b) => mkSessionKey p g c t u b) _).
  by intros [].
Defined.

(** [SessionKey::new]. *)
Definition new (platform : string) (guild_id : option string) (channel_id : string)
    (thread_id : option string) (user_id : string) : SessionKey :=
  let user_id := if guild_id is Some _ then "" else user_id in
  mkSessionKey platform guild_id channel_id thread_id user_id None.

Definition with_bot_id (k : SessionKey) (bot : string) : SessionKey :=
  mkSessionKey (platform k) (guild_id k) (channel_id k) (thread_id k) (user_id k) (Some bot).

(** [component] of [storage_key]: length prefix, or a dash for an absent value. *)
Definition component (v : option string) : string :=
  match v with
  | Some v => show_N (N.of_nat (len v)) ++ ":" ++ v
  | None => "-"
  end.

Definition storage_key (k : SessionKey) : string :=
  let user_comp := if guild_id k is Some _ then Some "" else Some (user_id k) in
  let components :=
    [component (Some (platform k)); component (guild_id k);
     component (Some (channel_id k)); component (thread_id k); component user_comp] in
  let components :=
    match bot_id k with
    | Some b => (components ++ [component (Some b)])%list
    | None => components
    end in
  join "|" components.

(** The closure [parse_component] of [from_storage_key]: the value read, the
    remaining input and the offset after it. *)
Definition parse_component (rem : string) (offset : nat) :
    result (option string * (string * nat)) SessionKeyParseError :=
  match rem with
  | String "-" rest => Ok (None, (rest, offset + 1))
  | _ =>
      match find_char ":" rem with
      | None => Err (MalformedComponent offset "missing ':' length separator")
      | Some colon_idx =>
          let len_str := take_str colon_idx rem in
          match parse_u64 len_str with
          | None => Err (MalformedComponent offset ("invalid length prefix '" ++ len_str ++ "'"))
          | Some n =>
              let after_colon := drop_str (colon_idx + 1) rem in
              let prefix_len := colon_idx + 1 in
              if (N.of_nat (len after_colon) <? n)%N then
                Err (MalformedComponent offset
                  ("expected " ++ show_N n ++ " bytes, found " ++ show_N (N.of_nat (len after_colon))))
              else
                let n := N.to_nat n in
                if negb (is_char_boundary n after_colon) then
                  Err (MalformedComponent offset
                    "byte length does not align with UTF-8 character boundary")
                else
                  Ok (Some (take_str n after_colon),
                      (drop_str n after_colon, offset + (prefix_len + n)))
          end
      end
  end.

(** The repeated [if !rem.starts_with('|')] block. *)
Definition expect_separator (st : string * nat) :
    result (string * nat) SessionKeyParseError :=
  match st with
  | (String "|" rest, offset) => Ok (rest, offset + 1)
  | (_, offset) => Err (ExpectedSeparator offset)
  end.

Definition from_storage_key (raw : string) : result SessionKey SessionKeyParseError :=
  if String.eqb raw "" then Err EmptyInput else
  c0 <-? parse_component raw 0 ;;
  plat <-? ok_or (fst c0) (MissingRequiredField "platform") ;;
  s0 <-? expect_separator (snd c0) ;;
  c1 <-? parse_component (fst s0) (snd s0) ;;
  s1 <-? expect_separator (snd c1) ;;
  c2 <-? parse_component (fst s1) (snd s1) ;;
  chan <-? ok_or (fst c2) (MissingRequiredField "channel_id") ;;
  s2 <-? expect_separator (snd c2) ;;
  c3 <-? parse_component (fst s2) (snd s2) ;;
  s3 <-? expect_separator (snd c3) ;;
  c4 <-? parse_component (fst s3) (snd s3) ;;
  user <-? match fst c4 with
           | Some uid => Ok (if fst c1 is Some _ then "" else uid)
           | None => if fst c1 is Some _ then Ok "" else Err (MissingRequiredField "user_id")
           end ;;
  bot <-? match fst (snd c4) with
          | "" => Ok None
          | _ =>
              s4 <-? expect_separator (snd c4) ;;
              c5 <-? parse_component (fst s4) (snd s4) ;;
              match fst (snd c5) with
              | "" => Ok (fst c5)
              | _ => Err (TrailingData (snd (snd c5)))
              end
          end ;;
  Ok (mkSessionKey plat (fst c1) chan (fst c3) user bot).

(** [SessionState] and [SessionContext]; the clock reading of
    [SessionContext::new] is its argument. *)
Record SessionState : Type := mkSessionState {
  active_model : option string;
  system_prompt : option string;
  enabled_toolsets : option (list string);
  yolo : bool;
  suspended : bool;
  metadata : gmap string value
}.

Definition default_state : SessionState := mkSessionState None None None false false ∅.

Record SessionContext : Type := mkSessionContext {
  ctx_key : SessionKey;
  ctx_state : SessionState;
  created_at : Z;
  updated_at : Z
}.

Definition new_context (key : SessionKey) (now : Z) : SessionContext :=
  mkSessionContext key default_state now now.

(** serde's derived form of [SessionState], with its members in declaration
    order; a missing member takes its default, other members are ignored. *)
Definition opt_value (o : option string) : value :=
  match o with Some s => JString s | None => JNull end.

Definition state_value (st : SessionState) : value :=
  JObject
    [("active_model", opt_value (active_model st));
     ("system_prompt", opt_value (system_prompt st));
     ("enabled_toolsets", match enabled_toolsets st with Some l => JArray (map JString l) | None => JNull end);
     ("yolo", JBool (yolo st));
     ("suspended", JBool (suspended st));
     ("metadata", JObject (map_to_list (metadata st)))].

Definition opt_field (key : string) (v : value) : option (option string) :=
  match Json.get key v with
  | None | Some JNull => Some None
  | Some (JString s) => Some (Some s)
  | Some _ => None
  end.
Definition bool_field (key : string) (v : value) : option bool :=
  match Json.get key v with None => Some false | Some x => as_bool x end.

Definition state_of_value (v : value) : option SessionState :=
  if negb (is_object v) then None else
  model ← opt_field "active_model" v;
  prompt ← opt_field "system_prompt" v;
  toolsets ← (match Json.get "enabled_toolsets" v with
              | None | Some JNull => Some None
              | Some (JArray l) => Some <$> mapM as_str l
              | Some _ => None
              end);
  y ← bool_field "yolo" v;
  s ← bool_field "suspended" v;
  meta ← (match Json.get "metadata" v with
          | None => Some ∅
          | Some (JObject m) => Some (list_to_map m : gmap string value)
          | Some _ => None
          end);
  Some (mkSessionState model prompt toolsets y s meta).

Lemma mapM_as_str l : mapM as_str (map JString l) = Some l.
Proof. induction l as [|x l IH]; simpl; [done|]. by rewrite IH. Qed.

(** Reading back what was written gives the state. *)
Lemma state_of_state_value st : state_of_value (state_value st) = Some st.
Proof.
  destruct st as [m p t y s d]. unfold state_of_value. simpl.
  assert (Hopt : forall o, (match opt_value o with JNull => Some None | JString s => Some (Some s) | _ => None end) = Some o)
    by by intros [].
  unfold opt_field. simpl. rewrite !Hopt. simpl. destruct t as [l|]; simpl.
  - rewrite mapM_as_str. simpl. by rewrite list_to_map_to_list.
  - by rewrite list_to_map_to_list.
Qed.

(** ** Well-formed keys *)

(** What every constructor establishes: a guild lane carries no sender. *)
Definition guild_excludes_user (k : SessionKey) : Prop :=
  is_Some (guild_id k) -> user_id k = "".

Definition fits (s : string) : Prop := (N.of_nat (len s) < U64_BOUND)%N.
Definition fits_opt (o : option string) : Prop :=
  match o with Some s => fits s | None => True end.

(** A key whose component lengths are [usize] values and that has the guild
    shape: every key the program can hold. *)
Record key_ok (k : SessionKey) : Prop := {
  ok_guild : guild_excludes_user k;
  ok_platform : fits (platform k);
  ok_guild_len : fits_opt (guild_id k);
  ok_channel : fits (channel_id k);
  ok_thread : fits_opt (thread_id k);
  ok_user : fits (user_id k);
  ok_bot : fits_opt (bot_id k)
}.

(** The input after a component never starts inside a character. *)
Definition at_boundary (rest : string) : bool :=
  match rest with "" => true | String c _ => negb (is_continuation c) end.

(** ** Lemmas *)

Lemma get_app_len (a : string) c r : String.get (len a) (a ++ String c r) = Some c.
Proof. induction a; simpl; done. Qed.

Lemma boundary_app (a r : string) :
  at_boundary r = true -> is_char_boundary (len a) (a ++ r) = true.
Proof.
  intros Hr. unfold is_char_boundary. destruct (len a) eqn:E; [done|]. rewrite <- E.
  destruct r as [|c r].
  - by rewrite app_nil_r_str, Nat.eqb_refl.
  - destruct (len a =? _)%nat; [done|]. rewrite get_app_len. exact Hr.
Qed.

Lemma component_some_head (v r : string) :
  exists c t, component (Some v) ++ r = String c t /\ c <> "-"%char.
Proof.
  unfold component. destruct (show_N_head (N.of_nat (len v))) as (c & t & -> & Hc).
  eexists c, _. split; [reflexivity|]. intros ->. compute in Hc. by destruct Hc as [Hc _].
Qed.

Lemma parse_component_cons c t off :
  c <> "-"%char -> parse_component (String c t) off =
  match find_char ":" (String c t) with
  | None => Err (MalformedComponent off "missing ':' length separator")
  | Some i =>
      match parse_u64 (take_str i (String c t)) with
      | None => Err (MalformedComponent off ("invalid length prefix '" ++ take_str i (String c t) ++ "'"))
      | Some n =>
          if (N.of_nat (len (drop_str (i + 1) (String c t))) <? n)%N then
            Err (MalformedComponent off ("expected " ++ show_N n ++ " bytes, found "
                   ++ show_N (N.of_nat (len (drop_str (i + 1) (String c t))))))
          else if negb (is_char_boundary (N.to_nat n) (drop_str (i + 1) (String c t))) then
            Err (MalformedComponent off "byte length does not align with UTF-8 character boundary")
          else Ok (Some (take_str (N.to_nat n) (drop_str (i + 1) (String c t))),
                   (drop_str (N.to_nat n) (drop_str (i + 1) (String c t)),
                    off + (i + 1 + N.to_nat n)))
      end
  end.
Proof.
  intros Hne. unfold parse_component.
  destruct c as [[] [] [] [] [] [] [] []]; try reflexivity; by contradict Hne.
Qed.

Lemma drop_str_S_app (a r : string) c : drop_str (len a + 1) (a ++ String c r) = r.
Proof. induction a; simpl; [by destruct r | done]. Qed.

Lemma component_some_app (v r : string) :
  component (Some v) ++ r = show_N (N.of_nat (len v)) ++ String ":" (v ++ r).
Proof. unfold component. by rewrite !app_assoc_str. Qed.

(** Parsing inverts printing, component by component. *)
Lemma parse_component_app (o : option string) (rest : string) off :
  fits_opt o -> at_boundary rest = true ->
  parse_component (component o ++ rest) off =
    Ok (o, (rest, off + len (component o))).
Proof.
  intros Hf Hr. destruct o as [v|]; [|done].
  destruct (component_some_head v rest) as (c & t & E & Hc).
  rewrite E, parse_component_cons, <- E by done. clear c t E Hc.
  rewrite component_some_app.
  rewrite find_char_app by (apply show_N_free; compute; by right).
  rewrite take_str_app, drop_str_S_app, parse_show_N by done.
  rewrite len_app. destruct (N.ltb_spec (N.of_nat (len v + len rest)) (N.of_nat (len v))); [lia|].
  rewrite Nat2N.id, boundary_app by done. simpl.
  rewrite take_str_app, drop_str_app. repeat f_equal.
  unfold component. rewrite len_app. simpl. unfold len. simpl. lia.
Qed.

Lemma expect_separator_bar r off : expect_separator ("|" ++ r, off) = Ok (r, off + 1).
Proof. done. Qed.
#[export] Hint Rewrite @expect_separator_bar : omon_rw.

Lemma storage_key_unfold k :
  storage_key k =
    component (Some (platform k)) ++ "|" ++ component (guild_id k) ++ "|" ++
    component (Some (channel_id k)) ++ "|" ++ component (thread_id k) ++ "|" ++
    component (Some (if guild_id k is Some _ then "" else user_id k)) ++
    (match bot_id k with Some b => "|" ++ component (Some b) | None => "" end).
Proof.
  unfold storage_key. destruct (bot_id k), (guild_id k); simpl;
    rewrite ?app_nil_r_str; reflexivity.
Qed.

Lemma storage_key_nonempty k : String.eqb (storage_key k) "" = false.
Proof.
  apply String.eqb_neq. rewrite storage_key_unfold.
  match goal with |- context [component (Some (platform k)) ++ ?r] =>
    destruct (component_some_head (platform k) r) as (c & t & -> & _) end. done.
Qed.

(** ** The storage key is a faithful encoding *)

Lemma parse_print_key k : key_ok k -> from_storage_key (storage_key k) = Ok k.
Proof.
  intros [Hg Hp Hgl Hc Ht Hu Hb].
  unfold from_storage_key. rewrite storage_key_nonempty, storage_key_unfold.
  assert (Hu' : fits (if guild_id k is Some _ then "" else user_id k)).
  { destruct (guild_id k); [done | exact Hu]. }
  rewrite parse_component_app by done. cbn [rbind ok_or fst snd].
  rewrite expect_separator_bar. cbn [rbind fst snd].
  rewrite parse_component_app by done. cbn [rbind ok_or fst snd].
  rewrite expect_separator_bar. cbn [rbind fst snd].
  rewrite parse_component_app by done. cbn [rbind ok_or fst snd].
  rewrite expect_separator_bar. cbn [rbind fst snd].
  rewrite parse_component_app by done. cbn [rbind ok_or fst snd].
  rewrite expect_separator_bar. cbn [rbind fst snd].
  rewrite parse_component_app by (done || by destruct (bot_id k)). cbn [rbind ok_or fst snd].
  destruct (bot_id k) as [b|] eqn:Eb.
  - change ("|" ++ ?x) with (String "|" x). cbn [fst snd rbind expect_separator].
    rewrite <- (app_nil_r_str (component (Some b))), parse_component_app by done.
    cbn [rbind fst snd]. f_equal. destruct k, guild_id0; simpl in *; subst; f_equal; symmetry; by apply Hg.
  - cbn [rbind fst snd]. f_equal. destruct k, guild_id0; simpl in *; subst; f_equal; symmetry; by apply Hg.
Qed.

(** C2: parsing a key's storage key gives back exactly the key, every
    dimension included, whatever bytes the components hold. *)
Theorem storage_key_roundtrip k : key_ok k -> from_storage_key (storage_key k) = Ok k.
Proof. apply parse_print_key. Qed.

(** What one component read consumes: the offset advances with the input. *)
Lemma parse_component_ok rem off o rem' off' :
  parse_component rem off = Ok (o, (rem', off')) ->
  off' + len rem' = off + len rem /\ fits_opt o.
Proof.
  destruct rem as [|c t]; [done|].
  destruct (decide (c = "-"%char)) as [->|Hc].
  - intros [= <- <- <-]. unfold len; simpl. lia.
  - rewrite parse_component_cons by done. intros H.
    destruct (find_char ":" (String c t)) as [i|] eqn:Ei; [|done].
    destruct (parse_u64 _) as [n|] eqn:En; [|done].
    destruct (N.ltb_spec (N.of_nat (len (drop_str (i + 1) (String c t)))) n) as [|Hle]; [done|].
    destruct (is_char_boundary _ _); [|done]. injection H as <- <- <-.
    apply find_char_lt in Ei. apply parse_u64_bound in En.
    rewrite len_drop_str in Hle. unfold fits_opt, fits. rewrite len_take_str, !len_drop_str. lia.
Qed.

Definition error_offset (e : SessionKeyParseError) : nat :=
  match e with
  | MalformedComponent o _ | ExpectedSeparator o | TrailingData o => o
  | EmptyInput | MissingRequiredField _ => 0
  end.

Lemma parse_component_err rem off e :
  parse_component rem off = Err e -> error_offset e = off.
Proof.
  destruct rem as [|c t]; [by intros [= <-]|].
  destruct (decide (c = "-"%char)) as [->|Hc]; [done|].
  rewrite parse_component_cons by done. intros H. by case_all.
Qed.

Lemma expect_separator_ok rem off r off' :
  expect_separator (rem, off) = Ok (r, off') -> rem = "|" ++ r /\ off' = off + 1.
Proof.
  unfold expect_separator. destruct rem as [|[[] [] [] [] [] [] [] []] t]; try done.
  by intros [= <- <-].
Qed.

Lemma expect_separator_err rem off e :
  expect_separator (rem, off) = Err e -> e = ExpectedSeparator off.
Proof.
  unfold expect_separator. destruct rem as [|[[] [] [] [] [] [] [] []] t]; try done;
    by intros [= <-].
Qed.

(** One step of the parser's position invariant: the offset plus the length
    of the remaining input is the length of the whole input. *)
Ltac parse_step :=
  match goal with
  | H : rbind ?m _ = _ |- _ => let E := fresh "E" in destruct m as [[? [? ?]]|?] eqn:E; simpl in H
  | H : rbind ?m _ = _ |- _ => let E := fresh "E" in destruct m as [[? ?]|?] eqn:E; simpl in H
  | H : rbind ?m _ = _ |- _ => let E := fresh "E" in destruct m as [?|?] eqn:E; simpl in H
  | H : parse_component _ _ = Ok _ |- _ => apply parse_component_ok in H as [??]
  | H : parse_component _ _ = Err _ |- _ => apply parse_component_err in H
  | H : expect_separator _ = Ok _ |- _ => apply expect_separator_ok in H as [-> ->]
  | H : expect_separator _ = Err _ |- _ => apply expect_separator_err in H as ->
  | H : ok_or ?o _ = Ok _ |- _ => apply ok_or_ok in H
  | H : ok_or ?o _ = Err _ |- _ => destruct o; simpl in H; [done|]; injection H as <-
  | H : Err _ = Err _ |- _ => injection H as ?
  | H : Ok _ = Ok _ |- _ => injection H as ?
  | H : Ok _ = Err _ |- _ => discriminate H
  | H : Err _ = Ok _ |- _ => discriminate H
  end.

Lemma len_bar (r : string) : len ("|" ++ r) = S (len r).
Proof. done. Qed.

(** Every error offset the parser reports lies inside the input. *)
Theorem parse_error_offset_in_bounds raw e :
  from_storage_key raw = Err e -> error_offset e <= len raw.
Proof.
  unfold from_storage_key. case_match; intros Hr.
  { injection Hr as <-. simpl; lia. }
  repeat parse_step; rewrite ?len_bar in *; subst; simpl; try lia;
    repeat (case_match; repeat parse_step); rewrite ?len_bar in *; subst; simpl in *;
    unfold len in *; simpl in *; try lia.
Qed.

(** Whatever the parser accepts is a well-formed key (a guild key carries
    no sender, every length is a [usize]), so printing it again and parsing
    that canonical form gives the same key. *)
Theorem parsed_key_canonical raw k :
  from_storage_key raw = Ok k ->
  key_ok k /\ from_storage_key (storage_key k) = Ok k.
Proof.
  intros Hr. enough (key_ok k) by (split; [done | by apply parse_print_key]).
  unfold from_storage_key in Hr. case_match; [done|].
  repeat parse_step;
    repeat (case_match; repeat parse_step); subst; simpl in *;
    split; simpl; try done; unfold guild_excludes_user, is_Some; naive_solver.
Qed.

Lemma storage_key_inj k1 k2 :
  key_ok k1 -> key_ok k2 -> storage_key k1 = storage_key k2 -> k1 = k2.
Proof. intros H1 H2 E. apply parse_print_key in H1, H2. congruence. Qed.

(** Distinct well-formed keys never share a storage key. *)
Theorem storage_key_injective k1 k2 :
  key_ok k1 -> key_ok k2 -> storage_key k1 = storage_key k2 -> k1 = k2.
Proof. apply storage_key_inj. Qed.

(** The parser is documented as the strict inverse of [storage_key]; it also
    accepts non-canonical spellings: a signed or zero-padded length, a sender
    on a guild key, a dash in the bot position. *)
Theorem parser_accepts_noncanonical :
  exists raw k, from_storage_key raw = Ok k /\ storage_key k <> raw /\
    from_storage_key (storage_key k) = Ok k.
Proof.
  exists "+7:discord|2:g1|01:c|-|3:bob|-", (mkSessionKey "discord" (Some "g1") "c" None "" None).
  split; [vm_compute; reflexivity|]. split; [by vm_compute | vm_compute; reflexivity].
Qed.

(** [SessionKey::new] followed by [with_bot_id] builds well-formed keys. *)
Lemma new_key_ok p g c t u b :
  fits p -> fits_opt g -> fits c -> fits_opt t -> fits u -> fits b ->
  key_ok (new p g c t u) /\ key_ok (with_bot_id (new p g c t u) b).
Proof.
  intros. unfold new, with_bot_id, guild_excludes_user.
  split; split; simpl; try done; destruct g; try done; intros [? ?]; done.
Qed.

(** Two senders in one guild channel (or thread) get the same session
    lane, and in a direct message distinct senders get distinct lanes. *)
Theorem lane_sharing p c t u1 u2 :
  (forall g, storage_key (new p (Some g) c t u1) = storage_key (new p (Some g) c t u2)) /\
  (fits p -> fits c -> fits_opt t -> fits u1 -> fits u2 ->
   storage_key (new p None c t u1) = storage_key (new p None c t u2) -> u1 = u2).
Proof.
  split; [done|]. intros ????? E.
  apply storage_key_inj in E; [by injection E | ..];
    split; simpl; try done; by intros [? ?].
Qed.

(** A concrete key is well-formed by evaluation. *)
Ltac solve_key_ok :=
  split; [by intros [? ?] | (exact I || (vm_compute; reflexivity)) ..].

Lemma storage_key_roundtrip_witness :
  from_storage_key (storage_key (with_bot_id (new "complex:plat" (Some "guild:1|2") "chan|3:4" (Some "thr") "") "bot:app|42")) =
  Ok (with_bot_id (new "complex:plat" (Some "guild:1|2") "chan|3:4" (Some "thr") "") "bot:app|42").
Proof. apply storage_key_roundtrip; solve_key_ok. Defined.

Lemma storage_key_injective_witness :
  new "discord" (Some "g") "c" None "alice" = new "discord" (Some "g") "c" None "bob".
Proof. apply storage_key_injective; [solve_key_ok | solve_key_ok | vm_compute; reflexivity]. Defined.

Lemma parsed_key_canonical_witness :
  key_ok (mkSessionKey "discord" (Some "g1") "c" None "" (Some "42")) /\
  from_storage_key (storage_key (mkSessionKey "discord" (Some "g1") "c" None "" (Some "42"))) =
    Ok (mkSessionKey "discord" (Some "g1") "c" None "" (Some "42")).
Proof. apply (parsed_key_canonical "+7:discord|2:g1|1:c|-|3:bob|2:42"). vm_compute. reflexivity. Defined.

Lemma parse_error_offset_in_bounds_witness :
  error_offset (TrailingData 26) <= len "7:discord|-|1:c|-|1:d|2:42|x".
Proof. apply parse_error_offset_in_bounds. vm_compute. reflexivity. Defined.

Lemma lane_sharing_witness :
  storage_key (new "discord" (Some "g") "c" None "alice") =
    storage_key (new "discord" (Some "g") "c" None "bob") /\ "u" = "u".
Proof.
  destruct (lane_sharing "discord" "c" None "alice" "bob") as [H _]. split; [apply H|].
  apply (lane_sharing "discord" "c" None "u" "u"); vm_compute; reflexivity.
Defined.
