(* ===== verification/Events.v ===== *)
(** * Inbound events and outbound actions ([src/models/events.rs])

    The messages between the adapters, the sessions and the dispatcher, and the
    prompt text an event is rendered to.  The regular expression of leading
    timestamps and chrono's date format belong to libraries: the class
    [EventLibs].  A [Uuid] is its text, a [PathBuf] the text it displays. *)
From stdpp Require Import base list strings.
From Stdlib Require Import ZArith NArith Lia Ascii String.
From S2P Require Import Prelude RustStr Session.
Open Scope string_scope.

Record MessageAttachment : Type := mkAttachment {
  at_id : string;
  filename : string;
  url : string;
  content_type : option string;
  size_bytes : option N;
  local_path : option string;
  text_content : option string
}.

Record InboundEvent : Type := mkEvent {
  ev_id : string;
  ev_session : SessionKey;
  ev_platform_message_id : string;
  ev_delivery_id : option string;
  ev_content : string;
  ev_attachments : list MessageAttachment;
  ev_received_at : Z
}.

Record StreamChunk : Type := mkChunk {
  stream_id : N;
  sequence : N;
  chunk_content : string;
  is_final : bool;
  reply_to : option string
}.

Inductive OutboundAction : Type :=
| SendMessage (session : SessionKey) (content : string) (reply : option string)
| EditMessage (session : SessionKey) (message content : string)
| DeleteMessage (session : SessionKey) (message : string)
| UploadFile (session : SessionKey) (path : string)
| Stream (session : SessionKey) (chunk : StreamChunk)
| Typing (session : SessionKey) (active : bool)
| React (session : SessionKey) (message emoji : string) (remove_others : bool)
| ApprovalRequest (session : SessionKey) (request_id command reason : string)
| ExpireApproval (request_id : string).

#[export] Instance MessageAttachment_eq_dec : EqDecision MessageAttachment.
Proof. solve_decision. Defined.
#[export] Instance InboundEvent_eq_dec : EqDecision InboundEvent.
Proof. solve_decision. Defined.
#[export] Instance StreamChunk_eq_dec : EqDecision StreamChunk.
Proof. solve_decision. Defined.
#[export] Instance OutboundAction_eq_dec : EqDecision OutboundAction.
Proof. solve_decision. Defined.

Definition PROCESSING_SUCCESS_EMOJI : string := "✅".
Definition PROCESSING_FAILURE_EMOJI : string := "❌".

(** [InboundEvent::parent_chat_id], a function of the event's session. *)
Definition parent_chat_id (k : SessionKey) : option string :=
  match thread_id k with Some _ => Some (channel_id k) | None => None end.

(** The libraries: [TIMESTAMP_PREFIX_RE.find], as start and end of the match;
    [dt.format("%a %Y-%m-%d %H:%M:%S UTC")]; and the environment variable
    [DISCORD_MESSAGE_TIMESTAMPS]. *)
Class EventLibs : Type := {
  timestamp_prefix : string -> option (nat * nat);
  format_date : Z -> string;
  env_timestamps : option string
}.

Section Render.
Context `{EventLibs}.

Definition format_message_timestamp (dt : Z) : string := "[" ++ format_date dt ++ "]".

Definition strip_leading_message_timestamps (s : string) : string :=
  match timestamp_prefix s with
  | Some (0, e) => drop_str e s
  | _ => s
  end.

Definition message_timestamps_enabled : bool :=
  match env_timestamps with
  | Some v => negb (existsb (String.eqb (to_ascii_lowercase (trim v))) ["0"; "false"; "no"; "off"])
  | None => true
  end.

Definition ends_with (suffix s : string) : bool :=
  (len suffix <=? len s)%nat && String.eqb (drop_str (len s - len suffix) s) suffix.

Definition is_voice (a : MessageAttachment) : bool :=
  contains "voice-message" (filename a) || contains "voice_message" (filename a)
  || contains "voice-note" (filename a) || contains "voice_note" (filename a)
  || ends_with ".voice.ogg" (filename a) || ends_with ".voice.opus" (filename a)
  || match content_type a with
     | Some ct =>
         let lower := to_ascii_lowercase ct in
         contains "voice" lower || starts_with "audio/ogg; codecs=opus" lower
         || starts_with "audio/opus; voice=true" lower
     | None => false
     end.

Definition format_inlined_text (name content : string) : string :=
  String LF (String LF ("[Content of " ++ name ++ "]:" ++ String LF (String LF content))).

Definition render_attachment (a : MessageAttachment) : string :=
  "[" ++ (if is_voice a then "Voice message" else "Attachment") ++ ": " ++ filename a ++ " ("
  ++ default "unknown" (content_type a) ++ ", "
  ++ match size_bytes a with Some n => show_N n | None => "unknown" end ++ " bytes) - " ++ url a
  ++ match local_path a with Some p => " | local path: " ++ p | None => "" end ++ "]"
  ++ match text_content a with Some t => format_inlined_text (filename a) t | None => "" end.

Definition render_user_prompt (event : InboundEvent) : string :=
  let clean_content := strip_leading_message_timestamps (ev_content event) in
  let prompt_body :=
    if message_timestamps_enabled then
      if String.eqb clean_content "" then ""
      else format_message_timestamp (ev_received_at event) ++ " " ++ clean_content
    else clean_content in
  match ev_attachments event with
  | [] => prompt_body
  | l =>
      let attachments := join (String LF "") (map render_attachment l) in
      if String.eqb (trim prompt_body) "" then attachments
      else prompt_body ++ String LF (String LF attachments)
  end.
End Render.
