(* ===== verification/Pairing.v ===== *)
(** * Pairing codes ([src/discord/pairing.rs])

    The pairing tables of the gateway database, the in-memory cache of paired
    users, and every operation of [PairingStore].  Random bytes (the UUID of
    [generate_raw_code]) and the clock are arguments, as in the [_at] and
    [_tx] variants of the source. *)
From stdpp Require Import base list strings gmap.
From Stdlib Require Import ZArith NArith Lia Ascii String.
From S2P Require Import Prelude RustStr Db.
Open Scope string_scope.
Open Scope db_scope.
Local Notation length := Datatypes.length.

Definition PAIRING_ALPHABET : string := "ABCDEFGHJKLMNPQRSTUVWXYZ23456789".
Definition CODE_LENGTH : nat := 8.
Definition CODE_TTL_SECONDS : Z := 3600.
Definition RATE_LIMIT_SECONDS : Z := 600.
Definition LOCKOUT_DURATION_SECONDS : Z := 900.
Definition MAX_FAILED_ATTEMPTS : Z := 5.
Definition MAX_PENDING_CODES : nat := 100.

Inductive PairingOutcome : Type :=
| Success (user : N)
| InvalidCode
| Expired
| LockedOut.

Record PairingCodeRow : Type := mkCode {
  code : string;
  code_user : string;
  code_created : Z;
  code_expires : Z;
  attempts : Z
}.

(** The tables [pairing_codes], [paired_users], the one row of
    [pairing_platform_lockout] (its key is the constant platform),
    [pairing_notifications], and [paired_cache]. *)
Record PairingState : Type := mkPairing {
  pairing_codes : list PairingCodeRow;
  paired_users : list (string * Z);
  lockout : option (Z * Z);
  notifications : list (string * Z);
  paired_cache : gset N
}.

Definition set_codes (f : list PairingCodeRow -> list PairingCodeRow) (s : PairingState) :=
  mkPairing (f (pairing_codes s)) (paired_users s) (lockout s) (notifications s) (paired_cache s).
Definition set_lockout (l : option (Z * Z)) (s : PairingState) :=
  mkPairing (pairing_codes s) (paired_users s) l (notifications s) (paired_cache s).
Definition set_notifications (f : list (string * Z) -> list (string * Z)) (s : PairingState) :=
  mkPairing (pairing_codes s) (paired_users s) (lockout s) (f (notifications s)) (paired_cache s).
Definition set_paired (f : list (string * Z) -> list (string * Z)) (s : PairingState) :=
  mkPairing (pairing_codes s) (f (paired_users s)) (lockout s) (notifications s) (paired_cache s).
Definition set_cache (f : gset N -> gset N) (s : PairingState) :=
  mkPairing (pairing_codes s) (paired_users s) (lockout s) (notifications s) (f (paired_cache s)).

(** ** Code text *)

Definition is_ascii_alphanumeric (c : ascii) : bool :=
  in_range c 48 57 || in_range c 65 90 || in_range c 97 122.
Definition to_ascii_uppercase (c : ascii) : ascii :=
  if in_range c 97 122 then ascii_of_N (N_of_ascii c - 32) else c.

Section Pairing.
(** [upper_alnum] is the Unicode part of [is_alphanumeric] and [to_uppercase]:
    the uppercase expansion of a non-ASCII alphanumeric character, empty for
    any other non-ASCII character. *)
Context (upper_alnum : string -> string).
Context `{Sqlite}.

Definition normalize_char (c : string) : string :=
  match c with
  | String a "" =>
      if (N_of_ascii a <? 128)%N
      then if is_ascii_alphanumeric a then String (to_ascii_uppercase a) "" else ""
      else upper_alnum c
  | _ => upper_alnum c
  end.

Definition normalize_code (raw : string) : string :=
  String.concat "" (map normalize_char (chars raw)).

Definition format_code (raw : string) : string :=
  let normalized := normalize_code raw in
  if (len normalized =? 8)%nat
  then take_str 4 normalized ++ "-" ++ drop_str 4 normalized
  else normalized.

Definition code_char (byte : N) : string :=
  match String.get (N.to_nat byte mod len PAIRING_ALPHABET) PAIRING_ALPHABET with
  | Some c => String c ""
  | None => ""
  end.

Definition generate_raw_code (bytes : list N) : string :=
  String.concat "" (map code_char (take CODE_LENGTH bytes)).

(** ** Lockout *)

Definition is_platform_locked_at (s : PairingState) (now : Z) : bool :=
  match lockout s with
  | Some (locked_until, failed_attempts) =>
      (MAX_FAILED_ATTEMPTS <=? failed_attempts)%Z && (now <? locked_until)%Z
  | None => false
  end.

(** The conditional upsert of [record_failed_attempt_tx]. *)
Definition failed_attempt_row (row : option (Z * Z)) (now : Z) : Z * Z :=
  let deadline := (now + seconds LOCKOUT_DURATION_SECONDS)%Z in
  match row with
  | None => (now, 1)%Z
  | Some (locked_until, failed_attempts) =>
      if (epoch_secs locked_until <=? epoch_secs now)%Z
         && (MAX_FAILED_ATTEMPTS <=? failed_attempts)%Z
      then (now, 1)%Z
      else ((if (MAX_FAILED_ATTEMPTS <=? failed_attempts + 1)%Z then deadline else locked_until),
            failed_attempts + 1)%Z
  end.

Definition record_failed_attempt_tx (now : Z) : M PairingState unit :=
  stmt (fun s => (tt, set_lockout (Some (failed_attempt_row (lockout s) now)) s)).

Definition record_failed_attempt_at (now : Z) : M PairingState unit :=
  transaction (record_failed_attempt_tx now).

Definition expired_at (now : Z) (r : PairingCodeRow) : bool := (code_expires r <=? now)%Z.
Definition of_user (u : string) (r : PairingCodeRow) : bool := String.eqb (code_user r) u.
Definition has_code (c : string) (r : PairingCodeRow) : bool := String.eqb (code r) c.

Definition cleanup_expired_codes_tx (now : Z) : M PairingState nat :=
  stmt (fun s => (count (expired_at now) (pairing_codes s),
                  set_codes (delete_where (expired_at now)) s)).

Definition cleanup_expired_codes_at (now : Z) : M PairingState nat :=
  transaction (cleanup_expired_codes_tx now).

(** ** Requesting a code *)

(** [ORDER BY created_at DESC LIMIT 1]. *)
Definition latest_of_user (u : string) (t : list PairingCodeRow) : option PairingCodeRow :=
  head (order_by (fun r => - code_created r)%Z (select (of_user u) t)).

(** [DELETE ... WHERE code IN (SELECT code ... ORDER BY created_at ASC LIMIT n)]. *)
Definition evict_oldest (now : Z) (n : nat) (t : list PairingCodeRow) : list PairingCodeRow :=
  let victims :=
    map code (take n (order_by code_created (select (fun r => negb (expired_at now r)) t))) in
  delete_where (fun r => existsb (String.eqb (code r)) victims) t.

(** [INSERT INTO pairing_codes]: the code is the primary key. *)
Definition insert_code (row : PairingCodeRow) (s : PairingState) :
    result unit OmonError * PairingState :=
  if existsb (has_code (code row)) (pairing_codes s)
  then (Err (Database (constraint_error "pairing_codes.code")), s)
  else (Ok tt, set_codes (fun t => (t ++ [row])%list) s).

(** The [map_err] on an insert rewrites a statement failure. *)
Definition map_db_err {A} (prefix : string) (m : M PairingState A) : M PairingState A :=
  fun w => match m w with
           | (Err (Database e), w') => (Err (Database (prefix ++ e)), w')
           | other => other
           end.

(** Steps 2b and 3 of [request_pairing_code_tx]: drop the user's previous
    code, make room, store and return a fresh code. *)
Definition issue_pairing_code_tx (user_id_str : string) (now : Z) (uuid : list N) :
    M PairingState string :=
  stmt (fun s => (tt, set_codes (delete_where (of_user user_id_str)) s)) ;;;
  active_count <- query (fun s => count (fun r => negb (expired_at now r)) (pairing_codes s)) ;;
  (if (MAX_PENDING_CODES <=? active_count)%nat
   then stmt (fun s => (tt, set_codes (evict_oldest now (active_count - MAX_PENDING_CODES + 1)) s))
   else ret tt) ;;;
  let raw_code := generate_raw_code uuid in
  let expires_at := (now + seconds CODE_TTL_SECONDS)%Z in
  map_db_err "failed to store pairing code: "
    (exec (insert_code (mkCode raw_code user_id_str now expires_at 0))) ;;;
  ret (format_code raw_code).

Definition request_pairing_code_tx (user : N) (now : Z) (uuid : list N) :
    M PairingState string :=
  locked <- query (fun s => is_platform_locked_at s now) ;;
  if locked : bool then fail (Approval "Pairing is locked out due to too many failed attempts")
  else
    let user_id_str := show_N user in
    cleanup_expired_codes_tx now ;;;
    existing <- query (fun s => latest_of_user user_id_str (pairing_codes s)) ;;
    match existing with
    | Some row =>
        if (MAX_FAILED_ATTEMPTS <=? attempts row)%Z then
          stmt (fun s => (tt, set_codes (delete_where (of_user user_id_str)) s)) ;;;
          issue_pairing_code_tx user_id_str now uuid
        else if (now <? code_expires row)%Z then ret (format_code (code row))
        else issue_pairing_code_tx user_id_str now uuid
    | None => issue_pairing_code_tx user_id_str now uuid
    end.

Definition request_pairing_code_at (user : N) (now : Z) (uuid : list N) : M PairingState string :=
  transaction (request_pairing_code_tx user now uuid).

(** ** Notifications *)

Definition notified (u : string) (s : PairingState) : option Z :=
  snd <$> head (select (fun r => String.eqb (fst r) u) (notifications s)).

Definition put_notification (u : string) (at_ : Z) (t : list (string * Z)) : list (string * Z) :=
  if existsb (fun r => String.eqb (fst r) u) t
  then update_where (fun r => String.eqb (fst r) u) (fun r => (fst r, at_)) t
  else (t ++ [(u, at_)])%list.

(** The claiming upsert: rows affected. *)
Definition claim_notification (u : string) (now : Z) (s : PairingState) : nat * PairingState :=
  match notified u s with
  | Some last =>
      if (RATE_LIMIT_SECONDS <=? epoch_secs now - epoch_secs last)%Z
      then (1, set_notifications (put_notification u now) s)
      else (0, s)
  | None => (1, set_notifications (put_notification u now) s)
  end.

Definition check_and_record_notification_at (user : N) (now : Z) (uuid : list N) :
    M PairingState (option string) :=
  transaction (
    locked <- query (fun s => is_platform_locked_at s now) ;;
    if locked : bool then ret None
    else
      let user_id_str := show_N user in
      paired <- query (fun s => existsb (fun r => String.eqb (fst r) user_id_str) (paired_users s)) ;;
      if paired : bool then ret None
      else
        claimed <- stmt (claim_notification user_id_str now) ;;
        if (claimed =? 0)%nat then ret None
        else
          code <- request_pairing_code_tx user now uuid ;;
          stmt (fun s => (tt, set_notifications
            (delete_where (fun r => (RATE_LIMIT_SECONDS <? epoch_secs now - epoch_secs (snd r))%Z)) s)) ;;;
          ret (Some code)).

Definition record_confirmed_delivery_at (user : N) (delivered_at : Z) : M PairingState unit :=
  stmt (fun s => (tt, set_notifications (put_notification (show_N user) delivered_at) s)).

(** ** Approval *)

Definition approve_code_tx (normalized : string) (now : Z) : M PairingState PairingOutcome :=
  locked <- query (fun s => is_platform_locked_at s now) ;;
  if locked : bool then ret LockedOut
  else
    record <- query (fun s => head (select (has_code normalized) (pairing_codes s))) ;;
    match record with
    | None =>
        record_failed_attempt_tx now ;;;
        stmt (fun s => (tt, set_codes
          (update_where (fun r => (attempts r <? MAX_FAILED_ATTEMPTS)%Z)
             (fun r => mkCode (code r) (code_user r) (code_created r) (code_expires r) (attempts r + 1))) s)) ;;;
        ret InvalidCode
    | Some row =>
        if (MAX_FAILED_ATTEMPTS <=? attempts row)%Z then ret LockedOut
        else if (code_expires row <? now)%Z then
          stmt (fun s => (tt, set_codes (delete_where (has_code (code row))) s)) ;;;
          ret Expired
        else
          match parse_u64 (code_user row) with
          | None => ret InvalidCode
          | Some user_id =>
              deleted <- stmt (fun s => (count (has_code (code row)) (pairing_codes s),
                                         set_codes (delete_where (has_code (code row))) s)) ;;
              if (deleted =? 0)%nat then ret InvalidCode
              else
                map_db_err "failed to record paired user: "
                  (stmt (fun s => (tt,
                    if existsb (fun r => String.eqb (fst r) (code_user row)) (paired_users s) then s
                    else set_paired (fun t => (t ++ [(code_user row, now)])%list) s))) ;;;
                stmt (fun s => (tt, set_lockout (Some (now, 0)%Z) s)) ;;;
                ret (Success user_id)
          end
    end.

Definition approve_code_at (input_code : string) (now : Z) : M PairingState PairingOutcome :=
  let normalized := normalize_code input_code in
  if String.eqb normalized "" then ret InvalidCode
  else
    outcome <- transaction (approve_code_tx normalized now) ;;
    match outcome with
    | Success user_id =>
        mem (fun s => (tt, set_cache (fun c => {[user_id]} ∪ c) s)) ;;;
        attempt (stmt (fun s => (tt, set_notifications
          (delete_where (fun r => String.eqb (fst r) (show_N user_id))) s))) ;;;
        ret (Success user_id)
    | other => ret other
    end.

(** ** Cache *)

Definition init_cache : M PairingState unit :=
  rows <- query (fun s => map fst (paired_users s)) ;;
  mem (fun s => (tt, set_cache (fun _ => list_to_set (omap parse_u64 rows)) s)).

Definition is_user_paired (s : PairingState) (user : N) : bool :=
  bool_decide (user ∈ paired_cache s).


(** ** Invariant: the pending-code table and the cache *)

(** One pending code per user, no code twice, at most [MAX_PENDING_CODES] of
    them, and the cache names only users of [paired_users]. *)
Record pairing_ok (s : PairingState) : Prop := {
  codes_unique : NoDup (map code (pairing_codes s));
  users_unique : NoDup (map code_user (pairing_codes s));
  codes_bounded : length (pairing_codes s) <= MAX_PENDING_CODES;
  cache_sound : forall u, u ∈ paired_cache s ->
    exists str, parse_u64 str = Some u /\ str ∈ map fst (paired_users s)
}.

Lemma delete_ok p s : pairing_ok s -> pairing_ok (set_codes (delete_where p) s).
Proof.
  intros [H1 H2 H3 H4]. split; simpl; try by apply NoDup_map_delete.
  - etrans; [|exact H3]. unfold delete_where. clear. induction (pairing_codes s); simpl; [done|].
    destruct (p a); simpl; lia.
  - done.
Qed.

Lemma update_ok p f s :
  (forall r, code (f r) = code r) -> (forall r, code_user (f r) = code_user r) ->
  pairing_ok s -> pairing_ok (set_codes (update_where p f) s).
Proof.
  intros Hc Hu [H1 H2 H3 H4]. split; simpl; rewrite ?map_update_where; try done.
  unfold update_where. by rewrite length_map.
Qed.

(** Every pending row is unexpired, and none belongs to [u]. *)
Definition fresh_without (now : Z) (u : string) (s : PairingState) : Prop :=
  (forall r, r ∈ pairing_codes s -> expired_at now r = false) /\
  (forall r, r ∈ pairing_codes s -> of_user u r = false).

Lemma evict_shrinks now n t :
  0 < n -> select (fun r => negb (expired_at now r)) t <> [] ->
  length (evict_oldest now n t) < length t.
Proof.
  intros Hn Hne. unfold evict_oldest.
  set (sorted := order_by code_created _).
  assert (Hs : length sorted <> 0).
  { unfold sorted. rewrite length_order_by. by destruct (select _ t). }
  destruct sorted as [|v sorted'] eqn:Es; [done|].
  assert (Hv : v ∈ t).
  { assert (v ∈ order_by code_created (select (fun r => negb (expired_at now r)) t)) as Hin
      by (fold sorted; rewrite Es; left).
    apply in_order_by, in_select in Hin. by destruct Hin. }
  destruct n as [|n]; [lia|]. simpl.
  clear -Hv. induction t as [|r t IH]; [by apply not_elem_of_nil in Hv|].
  unfold delete_where in *. simpl.
  destruct (String.eqb_spec (code r) (code v)) as [Heq|Hneq]; simpl.
  - clear. enough (forall l : list PairingCodeRow, length (List.filter (fun r => negb (String.eqb (code r) (code v) ||
      existsb (String.eqb (code r)) (map code (take n sorted')))) l) <= length l) as Hl by (specialize (Hl t); lia).
    intros l; induction l as [|x l IH]; simpl; [lia|]. destruct (negb _); simpl; lia.
  - apply elem_of_cons in Hv as [->|Hv]; [done|]. specialize (IH Hv).
    destruct (negb _); simpl; lia.
Qed.

Lemma insert_ok row s s' :
  pairing_ok s -> (forall r, r ∈ pairing_codes s -> of_user (code_user row) r = false) ->
  length (pairing_codes s) < MAX_PENDING_CODES ->
  insert_code row s = (Ok tt, s') -> pairing_ok s' /\ row ∈ pairing_codes s'.
Proof.
  intros [H1 H2 H3 H4] Hu Hl. unfold insert_code.
  destruct (existsb _ _) eqn:E; [done|]. intros [= <-].
  rewrite existsb_false in E. split.
  - split; simpl; rewrite ?map_app, ?length_app; simpl; [| |lia|done].
    + apply NoDup_app. split; [done|]. split; [|apply NoDup_singleton].
      intros x (r & -> & Hr)%list_elem_of_fmap Hx%list_elem_of_singleton.
      specialize (E _ Hr). unfold has_code in E. rewrite Hx, String.eqb_refl in E. done.
    + apply NoDup_app. split; [done|]. split; [|apply NoDup_singleton].
      intros x (r & -> & Hr)%list_elem_of_fmap Hx%list_elem_of_singleton.
      specialize (Hu _ Hr). unfold of_user in Hu. rewrite Hx, String.eqb_refl in Hu. done.
  - simpl. apply elem_of_app. right. apply list_elem_of_singleton. done.
Qed.

Lemma triple_map_db_err {A} prefix P (m : M PairingState A) Q E :
  triple P m Q E -> triple P (map_db_err prefix m) Q E.
Proof.
  intros Hm w HP. unfold map_db_err. specialize (Hm w HP).
  destruct (m w) as [[a|[]] w']; done.
Qed.

Definition all_fresh (now : Z) (s : PairingState) : Prop :=
  forall r, r ∈ pairing_codes s -> expired_at now r = false.

Lemma issue_ok u now uuid :
  triple (fun s => pairing_ok s /\ all_fresh now s)
    (issue_pairing_code_tx u now uuid) (fun _ => pairing_ok) pairing_ok.
Proof.
  unfold issue_pairing_code_tx.
  eapply triple_bind with (R := fun _ s => pairing_ok s /\ fresh_without now u s).
  { apply triple_stmt; [by intros s [? _]|]. intros s [HI Hx]. simpl.
    split; [by apply delete_ok|]. split; simpl; intros r [Hr Hp]%in_delete_where; auto. }
  intros _. eapply triple_bind; [by apply triple_query; intros s [? _]|]. intros n.
  eapply triple_bind with (R := fun _ s => pairing_ok s /\ fresh_without now u s /\
    length (pairing_codes s) < MAX_PENDING_CODES).
  - destruct (Nat.leb_spec MAX_PENDING_CODES n) as [Hle|Hlt].
    + apply triple_stmt; [by intros s (_ & ? & _)|]. intros s (-> & HI & Hf1 & Hf2). simpl.
      split; [by apply delete_ok|]. split; [split; simpl; intros r [Hr Hp]%in_delete_where; auto|].
      simpl. eapply Nat.lt_le_trans; [apply evict_shrinks; [lia|] | apply HI].
      unfold count in Hle. intros E. rewrite E in Hle. simpl in Hle. unfold MAX_PENDING_CODES in Hle. lia.
    + apply triple_ret. intros s (-> & HI & Hf1 & Hf2). do 2 (split; [done|]).
      rewrite count_all in Hlt; [done|]. intros r Hr. by rewrite Hf1.
  - intros _. eapply triple_bind with (R := fun _ => pairing_ok); [|intros _; by apply triple_ret].
    apply triple_map_db_err, triple_exec; [by intros s [? _]|]. intros s (HI & [Hf1 Hf2] & Hl).
    destruct (insert_code _ s) as [[[]|e] s'] eqn:E.
    + by eapply insert_ok in E as [? _].
    + unfold insert_code in E. destruct (existsb _ _); by simplify_eq.
Qed.

Lemma request_tx_ok user now uuid :
  triple pairing_ok (request_pairing_code_tx user now uuid) (fun _ => pairing_ok) pairing_ok.
Proof.
  unfold request_pairing_code_tx, cleanup_expired_codes_tx.
  eapply triple_bind; [by apply triple_query|]. intros locked.
  destruct locked; [apply triple_fail; by intros s [_ ?]|].
  eapply triple_bind with (R := fun _ s => pairing_ok s /\ all_fresh now s).
  { apply triple_stmt; [by intros s [_ ?]|]. intros s [_ HI]. split; [by apply delete_ok|].
    intros r Hr. simpl in Hr. apply in_delete_where in Hr. apply Hr. }
  intros _. eapply triple_bind; [by apply triple_query; intros s [? _]|]. intros existing.
  assert (Hissue : triple (fun s => existing = latest_of_user (show_N user) (pairing_codes s) /\
      pairing_ok s /\ all_fresh now s)
    (issue_pairing_code_tx (show_N user) now uuid) (fun _ => pairing_ok) pairing_ok)
    by (eapply triple_weaken; [apply issue_ok|..]; naive_solver).
  destruct existing as [row|]; [|done].
  destruct (MAX_FAILED_ATTEMPTS <=? attempts row)%Z.
  - eapply triple_bind; [|intros ?; apply issue_ok].
    apply triple_stmt; [naive_solver|]. intros s (_ & HI & Hx). split; [by apply delete_ok|].
    intros r [Hr _]%in_delete_where. by apply Hx.
  - destruct (now <? code_expires row)%Z; [apply triple_ret; naive_solver | done].
Qed.

Lemma pairing_ok_lockout l s : pairing_ok s -> pairing_ok (set_lockout l s).
Proof. by intros [? ? ? ?]; split. Qed.
Lemma pairing_ok_notifications f s : pairing_ok s -> pairing_ok (set_notifications f s).
Proof. by intros [? ? ? ?]; split. Qed.
Lemma pairing_ok_paired row s : pairing_ok s -> pairing_ok (set_paired (fun t => (t ++ [row])%list) s).
Proof.
  intros [? ? ? Hc]; split; try done. intros u Hu. destruct (Hc u Hu) as (str & ? & ?).
  exists str. split; [done|]. simpl. rewrite map_app. apply elem_of_app. by left.
Qed.

(** What a successful approval leaves behind before the commit. *)
Definition paired_as (u : N) (s : PairingState) : Prop :=
  exists str, parse_u64 str = Some u /\ str ∈ map fst (paired_users s).

Lemma existsb_fst (u : string) (t : list (string * Z)) :
  existsb (fun r => String.eqb (fst r) u) t = true -> u ∈ map fst t.
Proof.
  intros (r & Hr & E)%existsb_exists. apply String.eqb_eq in E. subst.
  apply list_elem_of_fmap. exists r. split; [done | by apply list_elem_of_In].
Qed.

Lemma approve_tx_ok normalized now :
  triple pairing_ok (approve_code_tx normalized now)
    (fun o s => pairing_ok s /\ match o with Success u => paired_as u s | _ => True end) pairing_ok.
Proof.
  unfold approve_code_tx, record_failed_attempt_tx.
  eapply triple_bind; [by apply triple_query|]. intros locked.
  destruct locked; [apply triple_ret; naive_solver|].
  eapply triple_bind; [apply triple_query; naive_solver|]. intros record.
  destruct record as [row|]; simpl.
  2:{ eapply triple_bind with (R := fun _ => pairing_ok).
      { apply triple_stmt; [naive_solver|]. intros s (_ & _ & ?). by apply pairing_ok_lockout. }
      intros _. eapply triple_bind with (R := fun _ => pairing_ok); [|intros _; by apply triple_ret].
      apply triple_stmt; [done|]. intros s ?. by apply update_ok. }
  case_match; [apply triple_ret; naive_solver|].
  case_match.
  { eapply triple_bind with (R := fun _ => pairing_ok); [|intros _; by apply triple_ret].
    apply triple_stmt; [naive_solver|]. intros s (_ & _ & ?). by apply delete_ok. }
  destruct (parse_u64 (code_user row)) as [u|] eqn:Eu; [|apply triple_ret; naive_solver].
  eapply triple_bind with (R := fun _ => pairing_ok).
  { apply triple_stmt; [naive_solver|]. intros s (_ & _ & ?). by apply delete_ok. }
  intros n. case_match; [by apply triple_ret|].
  eapply triple_bind with (R := fun _ s => pairing_ok s /\ paired_as u s).
  { apply triple_map_db_err, triple_stmt; [done|]. intros s HI. simpl.
    destruct (existsb _ _) eqn:Ex.
    - split; [done|]. exists (code_user row). split; [done | by apply existsb_fst].
    - split; [by apply pairing_ok_paired|]. exists (code_user row). split; [done|]. simpl.
      rewrite map_app. apply elem_of_app. right. by apply list_elem_of_singleton. }
  intros _. eapply triple_bind with (R := fun _ s => pairing_ok s /\ paired_as u s);
    [|intros _; by apply triple_ret].
  apply triple_stmt; [naive_solver|]. intros s [? ?]. split; [by apply pairing_ok_lockout | done].
Qed.

Lemma approve_ok input now :
  triple pairing_ok (approve_code_at input now) (fun _ => pairing_ok) pairing_ok.
Proof.
  unfold approve_code_at. case_match; [by apply triple_ret|].
  eapply triple_bind; [eapply triple_transaction, approve_tx_ok|].
  intros [u| | |]; try (apply triple_ret; naive_solver).
  eapply triple_bind with (R := fun _ => pairing_ok).
  { apply triple_mem. intros s [[H1 H2 H3 H4] Hp]. split; simpl; try done.
    intros u' [->%elem_of_singleton|?]%elem_of_union; auto. }
  intros _. eapply triple_bind; [|intros ?; apply triple_ret; exact (fun _ H => H)].
  eapply triple_weaken; [eapply triple_attempt, triple_stmt with (Q := fun _ => pairing_ok) (E := pairing_ok)|..];
    try done.
  - intros s ?. by apply pairing_ok_notifications.
  - by intros [] s.
Qed.

Lemma notify_ok user now uuid :
  triple pairing_ok (check_and_record_notification_at user now uuid) (fun _ => pairing_ok) pairing_ok.
Proof.
  unfold check_and_record_notification_at. eapply triple_transaction with (E := pairing_ok).
  eapply triple_bind; [by apply triple_query|]. intros locked.
  destruct locked; [apply triple_ret; naive_solver|].
  eapply triple_bind; [apply triple_query; naive_solver|]. intros paired.
  destruct paired; [apply triple_ret; naive_solver|].
  eapply triple_bind with (R := fun _ => pairing_ok).
  { apply triple_stmt; [naive_solver|]. intros s (_ & _ & ?). unfold claim_notification.
    case_all; by apply pairing_ok_notifications. }
  intros n. case_match; [by apply triple_ret|].
  eapply triple_bind; [apply request_tx_ok|]. intros c.
  eapply triple_bind with (R := fun _ => pairing_ok); [|intros _; by apply triple_ret].
  apply triple_stmt; [done|]. intros s ?. by apply pairing_ok_notifications.
Qed.

Lemma init_cache_ok : triple pairing_ok init_cache (fun _ => pairing_ok) pairing_ok.
Proof.
  unfold init_cache. eapply triple_bind; [by apply triple_query|]. intros rows.
  apply triple_mem. intros s [-> [H1 H2 H3 H4]]. split; simpl; try done.
  intros u Hu. apply elem_of_list_to_set, list_elem_of_omap in Hu as (str & ? & ?). eauto.
Qed.

(** ** Reachable stores *)

(** The public operations, each with its clock reading and random bytes. *)
Inductive operation : Type :=
| OpInitCache
| OpFailedAttempt (now : Z)
| OpCleanup (now : Z)
| OpRequest (user : N) (now : Z) (uuid : list N)
| OpNotify (user : N) (now : Z) (uuid : list N)
| OpConfirmDelivery (user : N) (at_ : Z)
| OpApprove (input : string) (now : Z).

Definition perform (op : operation) : M PairingState unit :=
  match op with
  | OpInitCache => init_cache
  | OpFailedAttempt now => record_failed_attempt_at now
  | OpCleanup now => cleanup_expired_codes_at now ;;; ret tt
  | OpRequest u now uuid => request_pairing_code_at u now uuid ;;; ret tt
  | OpNotify u now uuid => check_and_record_notification_at u now uuid ;;; ret tt
  | OpConfirmDelivery u at_ => record_confirmed_delivery_at u at_
  | OpApprove input now => approve_code_at input now ;;; ret tt
  end.

Definition initial_store : PairingState := mkPairing [] [] None [] ∅.

Inductive reachable : PairingState -> Prop :=
| reach_init : reachable initial_store
| reach_step s op fs : reachable s -> reachable (st (snd (perform op (mkWorld s fs)))).

Lemma perform_ok op : preserves pairing_ok (perform op).
Proof.
  assert (Hret : forall {A} (m : M PairingState A),
    triple pairing_ok m (fun _ => pairing_ok) pairing_ok -> preserves pairing_ok (m ;;; ret tt)).
  { intros A m Hm. apply (proj1 (triple_preserves _ _)). eapply triple_bind; [done|]. intros a. by apply triple_ret. }
  destruct op; simpl; first [apply Hret | apply (proj1 (triple_preserves _ _))].
  - apply init_cache_ok.
  - eapply triple_transaction with (E := pairing_ok), triple_stmt; [done|].
    intros s ?. by apply pairing_ok_lockout.
  - eapply triple_transaction with (E := pairing_ok), triple_stmt; [done|].
    intros s ?. by apply delete_ok.
  - eapply triple_transaction, request_tx_ok.
  - apply notify_ok.
  - apply triple_stmt; [done|]. intros s ?. by apply pairing_ok_notifications.
  - apply approve_ok.
Qed.

(** In every reachable store, whatever operations ran, with whatever
    clock readings, and whichever statements failed: no code and no user has
    two pending rows, at most 100 codes are pending, and every user in the
    in-memory cache is a row of [paired_users]. *)
Theorem pairing_store_invariant s : reachable s -> pairing_ok s.
Proof.
  induction 1 as [|s op fs _ IH]; [|by apply perform_ok].
  split; simpl; try apply NoDup_nil_2; [unfold MAX_PENDING_CODES; lia | by intros u ?%not_elem_of_empty].
Qed.

(** ** Approval *)

(** The rows that entitle [input] to pair user [u] at [now]. *)
Definition redeemable (s : PairingState) (input : string) (now : Z) (u : N) : Prop :=
  is_platform_locked_at s now = false /\
  exists row, row ∈ pairing_codes s /\ code row = normalize_code input /\
    (attempts row < MAX_FAILED_ATTEMPTS)%Z /\ (now <= code_expires row)%Z /\
    parse_u64 (code_user row) = Some u.

Lemma approve_tx_sound s0 input now :
  triple (fun s => s = s0) (approve_code_tx (normalize_code input) now)
    (fun o s => match o with
                | Success u => redeemable s0 input now u /\ paired_as u s /\
                               lockout s = Some (now, 0)%Z /\
                               (forall r, r ∈ pairing_codes s -> code r <> normalize_code input)
                | _ => True end) (fun _ => True).
Proof.
  unfold approve_code_tx, record_failed_attempt_tx.
  eapply triple_bind; [by apply triple_query|]. intros locked.
  destruct locked; [by apply triple_ret|].
  eapply triple_bind; [by apply triple_query|]. intros record.
  destruct record as [row|]; simpl.
  2:{ do 2 (eapply triple_bind with (R := fun _ _ => True); [by apply triple_stmt|]; intros _).
      by apply triple_ret. }
  case_match eqn:Ea; [by apply triple_ret|].
  case_match eqn:Ex.
  { eapply triple_bind with (R := fun _ _ => True); [by apply triple_stmt|]. intros _. by apply triple_ret. }
  destruct (parse_u64 (code_user row)) as [u|] eqn:Eu; [|by apply triple_ret].
  apply Z.leb_gt in Ea. apply Z.ltb_ge in Ex.
  eapply triple_bind with (R := fun _ s => redeemable s0 input now u /\
    (forall r, r ∈ pairing_codes s -> code r <> normalize_code input)).
  { apply triple_stmt; [done|]. intros s (Hrow & Hl & ->).
    symmetry in Hrow. apply head_select in Hrow as [Hin Hc%String.eqb_eq]. split.
    - split; [done|]. exists row. done.
    - simpl. intros r [_ Hr]%in_delete_where. unfold has_code in Hr. rewrite Hc in Hr.
      by apply String.eqb_neq in Hr. }
  intros n. case_match; [by apply triple_ret|].
  eapply triple_bind with (R := fun _ s => redeemable s0 input now u /\
    (forall r, r ∈ pairing_codes s -> code r <> normalize_code input) /\ paired_as u s).
  { apply triple_map_db_err, triple_stmt; [done|]. intros s [Hr Hg]. simpl.
    destruct (existsb _ _) eqn:Eb; (do 2 (split; [done|])); exists (code_user row); (split; [done|]).
    - by apply existsb_fst.
    - simpl. rewrite map_app. apply elem_of_app. right. by apply list_elem_of_singleton. }
  intros _. eapply triple_bind with (R := fun _ s => redeemable s0 input now u /\
    paired_as u s /\ lockout s = Some (now, 0)%Z /\
    (forall r, r ∈ pairing_codes s -> code r <> normalize_code input)); [|intros _; by apply triple_ret].
  apply triple_stmt; naive_solver.
Qed.

Lemma approve_sound s0 input now :
  triple (fun s => s = s0) (approve_code_at input now)
    (fun o s => match o with
                | Success u => redeemable s0 input now u /\ paired_as u s /\ is_user_paired s u = true /\
                               lockout s = Some (now, 0)%Z /\
                               (forall r, r ∈ pairing_codes s -> code r <> normalize_code input)
                | _ => True end) (fun _ => True).
Proof.
  unfold approve_code_at. case_match; [by apply triple_ret|].
  eapply triple_bind; [eapply triple_weaken;
    [eapply triple_transaction, approve_tx_sound | exact (fun _ H => H) | exact (fun _ _ H => H) | done]|].
  intros [u| | |]; try by apply triple_ret.
  set (Q := fun s => redeemable s0 input now u /\ paired_as u s /\ is_user_paired s u = true /\
              lockout s = Some (now, 0)%Z /\
              (forall r, r ∈ pairing_codes s -> code r <> normalize_code input)).
  eapply triple_bind with (R := fun _ => Q).
  { apply triple_mem. intros s (? & ? & ? & ?). unfold Q. simpl. do 2 (split; [done|]). split; [|done].
    unfold is_user_paired. apply bool_decide_eq_true. simpl. set_solver. }
  intros _. eapply triple_bind with (R := fun _ => Q); [|intros _; by apply triple_ret].
  eapply triple_weaken; [eapply triple_attempt with (E := fun _ => True),
    triple_stmt with (Q := fun _ => Q) (E := Q)|..]; try done.
  by intros [] s.
Qed.

(** C3: a code pairs a user only when it is pending, unexpired, below the
    attempt limit, owned by that user, and the platform is not locked; the user
    is then a row of [paired_users] and in the cache, and the code cannot be
    redeemed again: from the store it leaves, no approval of the same code
    succeeds, at any time and whatever statements fail. *)
Theorem approval_sound_and_single_use input now u w w' :
  approve_code_at input now w = (Ok (Success u), w') ->
  redeemable (st w) input now u /\ paired_as u (st w') /\ is_user_paired (st w') u = true /\
  (forall input2 now2 u2 fs w2, normalize_code input2 = normalize_code input ->
     approve_code_at input2 now2 (mkWorld (st w') fs) <> (Ok (Success u2), w2)).
Proof.
  intros E. pose proof (approve_sound (st w) input now w eq_refl) as Hs. rewrite E in Hs.
  destruct Hs as (? & ? & ? & _ & Hgone). do 3 (split; [done|]).
  intros input2 now2 u2 fs w2 Heq E2.
  pose proof (approve_sound (st w') input2 now2 (mkWorld (st w') fs) eq_refl) as Hs. rewrite E2 in Hs.
  destruct Hs as ((_ & row & Hin & Hc & _) & _). apply (Hgone row Hin). congruence.
Qed.

(** ** Lockout *)

Lemma approve_miss s input now :
  normalize_code input <> "" -> is_platform_locked_at s now = false ->
  (forall r, r ∈ pairing_codes s -> code r <> normalize_code input) ->
  exists s', run (approve_code_at input now) s = (Ok InvalidCode, s') /\
    lockout s' = Some (failed_attempt_row (lockout s) now) /\
    map code (pairing_codes s') = map code (pairing_codes s).
Proof.
  intros Hne Hl Hmiss.
  assert (Hsel : select (has_code (normalize_code input)) (pairing_codes s) = []).
  { apply select_nil. intros r Hr. apply String.eqb_neq. by apply Hmiss. }
  eexists. split; [apply run_intro|].
  - unfold approve_code_at. apply String.eqb_neq in Hne as ->.
    erewrite (bind_value _ _ _ InvalidCode); [reflexivity|]. apply transaction_commit.
    unfold approve_code_tx, record_failed_attempt_tx. rewrite bind_query, Hl, bind_query, Hsel. simpl.
    rewrite !bind_stmt. reflexivity.
  - simpl. split; [done|]. by rewrite map_update_where.
Qed.

Lemma approve_locked s input now :
  normalize_code input <> "" -> is_platform_locked_at s now = true ->
  run (approve_code_at input now) s = (Ok LockedOut, s).
Proof.
  intros Hne Hl. apply run_intro. unfold approve_code_at. apply String.eqb_neq in Hne as ->.
  erewrite (bind_value _ _ _ LockedOut); [reflexivity|]. apply transaction_commit.
  unfold approve_code_tx. by rewrite bind_query, Hl.
Qed.

Definition guess_all (gs : list (string * Z)) (s : PairingState) : PairingState :=
  fold_left (fun s g => snd (run (approve_code_at (fst g) (snd g)) s)) gs s.

Lemma guess_all_cons g gs s s' r :
  run (approve_code_at (fst g) (snd g)) s = (r, s') -> guess_all (g :: gs) s = guess_all gs s'.
Proof. intros E. unfold guess_all. simpl. by rewrite E. Qed.

Definition wrong_guess (s : PairingState) (g : string * Z) : Prop :=
  normalize_code (fst g) <> "" /\
  forall r, r ∈ pairing_codes s -> code r <> normalize_code (fst g).

Lemma wrong_guess_map s s' g :
  map code (pairing_codes s') = map code (pairing_codes s) -> wrong_guess s g -> wrong_guess s' g.
Proof.
  intros E [Hne Hm]. split; [done|]. intros r Hr Hc.
  assert (In (code r) (map code (pairing_codes s))) as (r0 & E0 & Hr0)%in_map_iff
    by (rewrite <- E; apply in_map; by apply list_elem_of_In).
  apply list_elem_of_In in Hr0. apply (Hm r0 Hr0). congruence.
Qed.

Lemma guess_all_counts gs s until k :
  lockout s = Some (until, k) -> (0 <= k)%Z -> (k + Z.of_nat (length gs) <= MAX_FAILED_ATTEMPTS)%Z ->
  Forall (wrong_guess s) gs -> gs <> [] ->
  exists until', lockout (guess_all gs s) = Some (until', (k + Z.of_nat (length gs))%Z) /\
    ((k + Z.of_nat (length gs))%Z = MAX_FAILED_ATTEMPTS ->
     exists g, last gs = Some g /\ until' = (snd g + seconds LOCKOUT_DURATION_SECONDS)%Z).
Proof.
  revert s until k. induction gs as [|g gs IH]; intros s until k Hl Hk Hb Hf Hne; [done|].
  inversion Hf as [|? ? Hg Hgs]; subst. unfold MAX_FAILED_ATTEMPTS in *. simpl length in *.
  assert (Hu : is_platform_locked_at s (snd g) = false).
  { unfold is_platform_locked_at, MAX_FAILED_ATTEMPTS. rewrite Hl.
    destruct (Z.leb_spec 5 k); [lia | done]. }
  destruct (approve_miss s (fst g) (snd g)) as (s' & Hrun & Hl' & Hc'); try apply Hg; [done|].
  rewrite (guess_all_cons _ _ _ _ _ Hrun).
  assert (Hrow : exists until1, lockout s' = Some (until1, (k + 1)%Z) /\
     ((k + 1)%Z = 5%Z -> until1 = (snd g + seconds LOCKOUT_DURATION_SECONDS)%Z)).
  { rewrite Hl', Hl. unfold failed_attempt_row, MAX_FAILED_ATTEMPTS.
    destruct (Z.leb_spec 5 k); [lia|]. rewrite andb_false_r.
    eexists. split; [reflexivity|]. intros Hk1. destruct (Z.leb_spec 5 (k + 1)); [done | lia]. }
  destruct Hrow as (until1 & Hl1 & H5).
  destruct gs as [|g' gs].
  - simpl. exists until1. split; [by rewrite Hl1 |]. intros ?. exists g. split; [done | apply H5; lia].
  - destruct (IH s' until1 (k + 1)%Z Hl1) as (until' & HL & Hlast); try done; [lia|lia| |].
    + eapply Forall_impl; [exact Hgs|]. intros x. by apply wrong_guess_map.
    + exists until'. rewrite HL.
      split; [f_equal; f_equal; simpl length; lia|]. intros Heq. apply Hlast. simpl length in *. lia.
Qed.

(** Five wrong guesses lock the platform: from a store with no failed
    attempts, after any five wrong codes entered at any times, every approval
    (of a right code too) before fifteen minutes past the last guess answers
    [LockedOut] and changes nothing. *)
Theorem five_wrong_guesses_lock gs s input now :
  lockout s = None -> length gs = 5 -> Forall (wrong_guess s) gs ->
  (forall g, last gs = Some g -> (now < snd g + seconds LOCKOUT_DURATION_SECONDS)%Z) ->
  normalize_code input <> "" ->
  run (approve_code_at input now) (guess_all gs s) = (Ok LockedOut, guess_all gs s).
Proof.
  intros Hl Hlen Hf Hnow Hin. destruct gs as [|g gs]; [done|].
  inversion Hf as [|? ? Hg Hgs]; subst.
  destruct (approve_miss s (fst g) (snd g)) as (s' & Hrun & Hl' & Hc'); try apply Hg.
  { unfold is_platform_locked_at. by rewrite Hl. }
  rewrite Hl in Hl'. simpl in Hl'.
  destruct (guess_all_counts gs s' (snd g) 1) as (until' & HL & Hlast).
  - exact Hl'.
  - lia.
  - simpl in Hlen. unfold MAX_FAILED_ATTEMPTS. lia.
  - eapply Forall_impl; [exact Hgs|]. intros x. by apply wrong_guess_map.
  - by destruct gs.
  - simpl in Hlen. injection Hlen as Hlen. rewrite Hlen in *.
    destruct (Hlast eq_refl) as (g' & Hg' & ->).
    apply approve_locked; [done|]. unfold is_platform_locked_at.
    rewrite (guess_all_cons _ _ _ _ _ Hrun), HL.
    apply andb_true_iff. split; [done|]. apply Z.ltb_lt, Hnow. by destruct gs.
Qed.

(** ** Notifications *)

Lemma preserves_map_db_err {A} I prefix (m : M PairingState A) :
  preserves I m -> preserves I (map_db_err prefix m).
Proof.
  intros Hm w HI. unfold map_db_err. specialize (Hm w HI). by destruct (m w) as [[?|[]] ?].
Qed.

Lemma request_keeps_notifications n user now uuid :
  preserves (fun s => notifications s = n) (request_pairing_code_tx user now uuid).
Proof.
  unfold request_pairing_code_tx, issue_pairing_code_tx, cleanup_expired_codes_tx.
  preserve_steps; try apply preserves_map_db_err; preserve_steps; try done;
    intros s <-; unfold insert_code; by case_match.
Qed.

(** Every row of [u] carries the instant [t], and there is one. *)
Definition last_notified (u : string) (t : Z) (s : PairingState) : Prop :=
  (u, t) ∈ notifications s /\ forall r, r ∈ notifications s -> fst r = u -> snd r = t.

Lemma last_notified_eq u t s : last_notified u t s -> notified u s = Some t.
Proof.
  intros [Hin Hall]. unfold notified.
  destruct (select _ (notifications s)) as [|r l] eqn:E.
  - rewrite select_nil in E. specialize (E _ Hin). simpl in E. by rewrite String.eqb_refl in E.
  - assert (Hr : r ∈ select (fun r => String.eqb (fst r) u) (notifications s)) by (rewrite E; left).
    apply in_select in Hr as [Hr Hu%String.eqb_eq]. simpl. f_equal. by apply Hall.
Qed.

Lemma put_notification_last u now s :
  last_notified u now (set_notifications (put_notification u now) s).
Proof.
  unfold last_notified, put_notification. simpl. destruct (existsb _ _) eqn:E.
  - apply existsb_exists in E as ([u' t] & Hin & Hu%String.eqb_eq). simpl in Hu. subst.
    apply list_elem_of_In in Hin. split.
    + apply in_update_where. exists (u, t). split; [done|]. simpl. by rewrite String.eqb_refl.
    + intros r (r0 & Hr0 & ->)%in_update_where Hf. destruct (String.eqb_spec (fst r0) u); done.
  - rewrite existsb_false in E. split.
    + apply elem_of_app. right. by apply list_elem_of_singleton.
    + intros r [Hr| ->%list_elem_of_singleton]%elem_of_app Hf; [|done].
      specialize (E _ Hr). simpl in E. rewrite Hf, String.eqb_refl in E. done.
Qed.

Lemma notify_spec s0 user now uuid :
  triple (fun s => s = s0) (check_and_record_notification_at user now uuid)
    (fun r s => match r with
       | Some _ => last_notified (show_N user) now s /\
           forall last, notified (show_N user) s0 = Some last ->
             (RATE_LIMIT_SECONDS <= epoch_secs now - epoch_secs last)%Z
       | None => s = s0 end)
    (fun s => s = s0).
Proof.
  unfold check_and_record_notification_at. eapply triple_transaction with (E := fun _ => True).
  eapply triple_bind; [by apply triple_query|]. intros locked.
  destruct locked; [apply triple_ret; naive_solver|].
  eapply triple_bind; [by apply triple_query|]. intros paired.
  destruct paired; [apply triple_ret; naive_solver|].
  set (spaced := forall last, notified (show_N user) s0 = Some last ->
         (RATE_LIMIT_SECONDS <= epoch_secs now - epoch_secs last)%Z).
  eapply triple_bind with (R := fun n s => if (n =? 0)%nat then s = s0
                                          else last_notified (show_N user) now s /\ spaced).
  { apply triple_stmt; [done|]. intros s (_ & _ & ->). unfold claim_notification, spaced.
    destruct (notified _ s0) as [last|].
    - destruct (Z.leb_spec RATE_LIMIT_SECONDS (epoch_secs now - epoch_secs last)); simpl; [|done].
      split; [apply put_notification_last|]. intros ? [= <-]. done.
    - simpl. split; [apply put_notification_last | done]. }
  intros n. destruct (n =? 0)%nat; [by apply triple_ret|].
  eapply triple_bind with (R := fun _ s => last_notified (show_N user) now s /\ spaced).
  - intros w [Hl Hs]. pose proof (request_keeps_notifications (notifications (st w)) user now uuid w eq_refl) as Hk.
    destruct (request_pairing_code_tx user now uuid w) as [[c|e] w']; [|done].
    simpl in Hk. split; [|done]. destruct Hl as [H1 H2]. split; rewrite Hk; done.
  - intros c. eapply triple_bind with (R := fun _ s => last_notified (show_N user) now s /\ spaced);
      [|intros _; by apply triple_ret].
    apply triple_stmt; [done|]. intros s [[H1 H2] Hs]. split; [|done]. split; simpl.
    + apply in_delete_where. split; [done|]. simpl. unfold RATE_LIMIT_SECONDS. lia.
    + intros r [Hr _]%in_delete_where. by apply H2.
Qed.

(** Notifications to one user are at least ten minutes apart: a call that
    yields a code found no reservation of that user younger than
    [RATE_LIMIT_SECONDS] and leaves one stamped [now]; a call that yields none,
    or fails at any statement, leaves every table as it was. *)
Theorem notification_rate_limited user now uuid w r w' :
  check_and_record_notification_at user now uuid w = (r, w') ->
  match r with
  | Ok (Some _) =>
      notified (show_N user) (st w') = Some now /\
      forall last, notified (show_N user) (st w) = Some last ->
        (RATE_LIMIT_SECONDS <= epoch_secs now - epoch_secs last)%Z
  | _ => st w' = st w
  end.
Proof.
  intros E. pose proof (notify_spec (st w) user now uuid w eq_refl) as Hs. rewrite E in Hs.
  destruct r as [[c|]|e]; try done. destruct Hs as [Hl ?]. by apply last_notified_eq in Hl.
Qed.

(** ** Codes *)

Definition is_code_char (a : ascii) : bool := in_range a 48 57 || in_range a 65 90.

Definition is_ascii (a : ascii) : bool := (N_of_ascii a <? 128)%N.

Lemma all_bytes_impl (p q : ascii -> bool) s :
  (forall a, p a = true -> q a = true) -> all_bytes p s = true -> all_bytes q s = true.
Proof.
  intros Hpq. induction s; simpl; [done|]. intros [? ?]%andb_true_iff. by rewrite Hpq, IHs.
Qed.

Lemma chars_ascii s :
  all_bytes is_ascii s = true -> chars s = map (fun a => String a "") (list_ascii_of_string s).
Proof.
  induction s as [|a s IH]; simpl; [done|]. intros [Ha Hs]%andb_true_iff. rewrite (IH Hs).
  destruct s as [|b s]; simpl; [done|]. simpl in Hs. apply andb_true_iff in Hs as [Hb _].
  assert (is_continuation b = false) as ->; [|done].
  unfold is_continuation, is_ascii in *. apply N.ltb_lt in Hb.
  destruct (N.leb_spec 128 (N_of_ascii b)); [lia | done].
Qed.

Lemma concat_cons (x : string) l : String.concat "" (x :: l) = x ++ String.concat "" l.
Proof. destruct l; simpl; [by rewrite app_nil_r_str | done]. Qed.

Fixpoint norm_ascii (s : string) : string :=
  match s with
  | "" => ""
  | String a s' =>
      (if is_ascii_alphanumeric a then String (to_ascii_uppercase a) "" else "") ++ norm_ascii s'
  end.

Lemma normalize_ascii s : all_bytes is_ascii s = true -> normalize_code s = norm_ascii s.
Proof.
  intros Hs. unfold normalize_code. rewrite chars_ascii by done.
  induction s as [|a s IH]; [done|]. simpl in Hs. apply andb_true_iff in Hs as [Ha Hs].
  cbn [list_ascii_of_string map norm_ascii]. rewrite concat_cons, IH by done. f_equal.
  simpl. unfold is_ascii in Ha. by rewrite Ha.
Qed.

Lemma norm_ascii_app (a b : string) : norm_ascii (a ++ b) = norm_ascii a ++ norm_ascii b.
Proof. induction a; simpl; [done|]. by rewrite IHa, app_assoc_str. Qed.

Lemma code_char_facts a :
  is_code_char a = true ->
  is_ascii a = true /\ is_ascii_alphanumeric a = true /\ to_ascii_uppercase a = a.
Proof.
  unfold is_code_char, is_ascii, is_ascii_alphanumeric, to_ascii_uppercase, in_range.
  intros [[?%N.leb_le ?%N.leb_le]%andb_true_iff|[?%N.leb_le ?%N.leb_le]%andb_true_iff]%orb_true_iff;
    (split; [apply N.ltb_lt; lia|]); split;
    repeat match goal with |- context [(?x <=? ?y)%N] => destruct (N.leb_spec x y); try lia end; done.
Qed.

Lemma code_chars_ascii s : all_bytes is_code_char s = true -> all_bytes is_ascii s = true.
Proof. apply all_bytes_impl. intros a Ha. apply code_char_facts in Ha. apply Ha. Qed.

Lemma norm_code_id s : all_bytes is_code_char s = true -> norm_ascii s = s.
Proof.
  induction s as [|a s IH]; simpl; [done|]. intros [Ha Hs]%andb_true_iff.
  destruct (code_char_facts _ Ha) as (_ & -> & ->). simpl. by rewrite IH.
Qed.

Lemma alphabet_get i : i < 32 ->
  exists c, String.get i PAIRING_ALPHABET = Some c /\ is_code_char c = true.
Proof.
  intros Hi. do 32 (destruct i as [|i]; [eexists; split; reflexivity|]). lia.
Qed.

Lemma code_char_ok b : exists c, code_char b = String c "" /\ is_code_char c = true.
Proof.
  unfold code_char. change (len PAIRING_ALPHABET) with 32.
  destruct (alphabet_get (N.to_nat b mod 32)) as (c & -> & ?); [apply Nat.mod_upper_bound; lia|]. eauto.
Qed.

Lemma generated_code_chars bytes :
  all_bytes is_code_char (generate_raw_code bytes) = true /\
  len (generate_raw_code bytes) = Nat.min CODE_LENGTH (length bytes).
Proof.
  unfold generate_raw_code. rewrite <- length_take. generalize (take CODE_LENGTH bytes). clear bytes.
  intros l. induction l as [|b l [IH1 IH2]]; [done|].
  cbn [map]. rewrite concat_cons. destruct (code_char_ok b) as (c & -> & Hc). simpl.
  rewrite Hc, IH1. split; [done|]. unfold len in *. simpl. by rewrite IH2.
Qed.

Lemma normalize_generated bytes :
  normalize_code (generate_raw_code bytes) = generate_raw_code bytes.
Proof.
  destruct (generated_code_chars bytes) as [Hc _].
  by rewrite normalize_ascii, norm_code_id by (done || by apply code_chars_ascii).
Qed.

(** The code a user is shown can be typed back: eight letters or digits of
    the alphabet, shown as two groups of four, and normalising what is shown
    (dashes and case included) gives the stored code. *)
Theorem shown_code_roundtrip uuid :
  length uuid = 16 ->
  let raw := generate_raw_code uuid in
  len raw = CODE_LENGTH /\ all_bytes is_code_char raw = true /\
  format_code raw = take_str 4 raw ++ "-" ++ drop_str 4 raw /\
  normalize_code (format_code raw) = raw.
Proof.
  intros Hl raw. destruct (generated_code_chars uuid) as [Hc Hlen].
  fold raw in Hc, Hlen. rewrite Hl in Hlen. change (Nat.min CODE_LENGTH 16) with CODE_LENGTH in Hlen.
  assert (Hf : format_code raw = take_str 4 raw ++ "-" ++ drop_str 4 raw).
  { unfold format_code. cbv zeta. unfold raw at 1 2 3. rewrite normalize_generated. fold raw. by rewrite Hlen. }
  do 3 (split; [done|]). rewrite Hf.
  assert (Hsplit : all_bytes is_code_char (take_str 4 raw) = true /\
                   all_bytes is_code_char (drop_str 4 raw) = true).
  { apply andb_true_iff. by rewrite <- all_bytes_app, take_drop_str. }
  destruct Hsplit as [H1 H2].
  rewrite normalize_ascii.
  - rewrite !norm_ascii_app, (norm_code_id (take_str 4 raw)), (norm_code_id (drop_str 4 raw)) by done.
    apply take_drop_str.
  - rewrite all_bytes_app. simpl.
    by rewrite !code_chars_ascii.
Qed.

End Pairing.

(** ** Witnesses: concrete stores, with the evaluating instance of SQLite. *)

Definition no_unicode : string -> string := fun _ => "".
Definition uuid16 : list N := [17; 200; 3; 44; 91; 250; 7; 128; 1; 2; 3; 4; 5; 6; 7; 8]%N.
#[local] Existing Instance floor_sqlite.

Definition demo_store : PairingState :=
  mkPairing [mkCode "ABCDEFGH" "42" 0 (seconds 3600) 0] [] None [] ∅.

Lemma pairing_store_invariant_witness :
  pairing_ok (st (snd (perform no_unicode (OpRequest 42 (seconds 10) uuid16) (mkWorld initial_store [None; None])))).
Proof. apply (pairing_store_invariant no_unicode), reach_step, reach_init. Defined.

Lemma approval_sound_and_single_use_witness :
  redeemable no_unicode demo_store "abcd-efgh" (seconds 60) 42.
Proof.
  eapply (approval_sound_and_single_use no_unicode "abcd-efgh" (seconds 60) 42 (mkWorld demo_store [])).
  vm_compute. reflexivity.
Defined.

Lemma five_wrong_guesses_lock_witness :
  let gs := [("A", seconds 1); ("B", seconds 2); ("C", seconds 3); ("D", seconds 4); ("E", seconds 5)] in
  run (approve_code_at no_unicode "ABCD-EFGH" (seconds 600)) (guess_all no_unicode gs demo_store)
  = (Ok LockedOut, guess_all no_unicode gs demo_store).
Proof.
  intros gs. apply (five_wrong_guesses_lock no_unicode gs demo_store).
  - reflexivity.
  - reflexivity.
  - repeat constructor; try (vm_compute; discriminate);
      intros r Hr%list_elem_of_singleton; subst; vm_compute; discriminate.
  - intros g [= <-]. vm_compute. reflexivity.
  - vm_compute. discriminate.
Defined.

Lemma notification_rate_limited_witness :
  st (snd (check_and_record_notification_at no_unicode 42 (seconds 500) uuid16
    (mkWorld (mkPairing [] [] None [("42", seconds 0)] ∅) []))) = mkPairing [] [] None [("42", seconds 0)] ∅.
Proof.
  apply (notification_rate_limited no_unicode 42%N (seconds 500) uuid16
    (mkWorld (mkPairing [] [] None [("42", seconds 0)] ∅) []) (Ok None)).
  vm_compute. reflexivity.
Defined.

Lemma shown_code_roundtrip_witness :
  normalize_code no_unicode (format_code no_unicode (generate_raw_code uuid16)) = generate_raw_code uuid16.
Proof. apply (shown_code_roundtrip no_unicode uuid16). reflexivity. Defined.
