(* ===== verification/Ledger.v ===== *)
(** * Delivery ledger and obligations ([src/ledger/service.rs])

    The claims on inbound messages ([delivery_ledger] and its constituents) and
    the outbox of replies owed ([delivery_obligations]) with its recovery.  The
    clock, the process id and start stamp, [kill(pid, 0)] and the UUIDs are
    arguments.  [event_id] always equals
    [message_id] in what this component writes, so one field stands for both. *)
From stdpp Require Import base list strings gmap.
From Stdlib Require Import ZArith NArith Lia Ascii String.
From S2P Require Import Prelude RustStr Json Db Session Events.
Open Scope string_scope.
Open Scope db_scope.
Local Notation length := Datatypes.length.

(** The marker put before a reply that may already have been delivered: the
    recycling sign, the text and two line feeds, as UTF-8 bytes. *)
Definition RECOVERED_REPLY_MARKER : string :=
  "♻️ Recovered reply — the gateway restarted during delivery, so this may be a duplicate:"
  ++ String "010" (String "010" "").

Inductive DeliveryStatus : Type := StPending | StInProgress | StDelivered | StFailed.

Definition status_name (s : DeliveryStatus) : string :=
  match s with
  | StPending => "pending"
  | StInProgress => "in_progress"
  | StDelivered => "delivered"
  | StFailed => "failed"
  end.

Inductive DeliveryObligationState : Type :=
| ObPending | ObAttempting | ObDelivered | ObFailed | ObAbandoned.

Definition as_str (s : DeliveryObligationState) : string :=
  match s with
  | ObPending => "pending"
  | ObAttempting => "attempting"
  | ObDelivered => "delivered"
  | ObFailed => "failed"
  | ObAbandoned => "abandoned"
  end.

(** A row of [delivery_obligations]. *)
Record DeliveryObligation : Type := mkObligation {
  ob_id : string;
  ob_session_key : string;
  ob_channel_id : string;
  ob_thread_id : option string;
  ob_content : string;
  ob_state : string;
  ob_attempts : Z;
  ob_created_at : Z;
  ob_updated_at : Z;
  ob_owner_pid : option Z;
  ob_last_error : option string;
  ob_owner_started_at : option string
}.

(** A row of [delivery_ledger]. *)
Record DeliveryRow : Type := mkDelivery {
  delivery_id : string;
  dl_session_key : string;
  message_id : string;
  status : string;
  platform_message_id : option string;
  dl_error : option string;
  dl_created_at : Z;
  dl_updated_at : Z;
  received_at : Z;
  completed_at : option Z;
  processing_latency_ms : option Z
}.

(** A row of [sessions]: its key, the columns of the session, its state as the
    JSON value its text denotes, and the restart marker; the time columns are
    left out. *)
Record SessionRow : Type := mkSessionRow {
  sr_key : string;
  sr_session : SessionKey;
  sr_state_json : value;
  sr_resume_pending : bool
}.

Record DeliveryLedgerEntry : Type := mkEntry {
  e_message_id : string;
  e_session_key : string;
  e_status : string;
  e_received_at : Z;
  e_completed_at : option Z;
  e_latency : option Z;
  e_platform_message_id : option string;
  e_error : option string
}.

(** The chunks among the dispatched actions, in order. *)
Definition chunks (l : list OutboundAction) : list StreamChunk :=
  omap (fun a => match a with Stream _ c => Some c | _ => None end) l.

Lemma chunks_snoc l session c : chunks (l ++ [Stream session c]) = (chunks l ++ [c])%list.
Proof. unfold chunks. by rewrite omap_app. Qed.

(** The tables, and the actions handed to the outbound dispatcher so far. *)
Record LedgerState : Type := mkLedger {
  sessions : list SessionRow;
  deliveries : list DeliveryRow;
  constituents : list (string * string);
  obligations : list DeliveryObligation;
  outbox : list OutboundAction
}.

Definition set_sessions f (s : LedgerState) :=
  mkLedger (f (sessions s)) (deliveries s) (constituents s) (obligations s) (outbox s).
Definition set_deliveries f (s : LedgerState) :=
  mkLedger (sessions s) (f (deliveries s)) (constituents s) (obligations s) (outbox s).
Definition set_constituents f (s : LedgerState) :=
  mkLedger (sessions s) (deliveries s) (f (constituents s)) (obligations s) (outbox s).
Definition set_obligations f (s : LedgerState) :=
  mkLedger (sessions s) (deliveries s) (constituents s) (f (obligations s)) (outbox s).
Definition set_outbox f (s : LedgerState) :=
  mkLedger (sessions s) (deliveries s) (constituents s) (obligations s) (f (outbox s)).

(** [OmonError]'s [Display]. *)
Definition error_text (e : OmonError) : string :=
  match e with
  | Database m => "database error: " ++ m
  | Multiplexer m => "multiplexer error: " ++ m
  | Discord m => "Discord error: " ++ m
  | Llm m => "LLM error: " ++ m
  | ToolExecution m => "tool execution error: " ++ m
  | Approval m => "approval refused: " ++ m
  | Config m => "configuration error: " ++ m
  | Panicked m => m
  end.

Definition opt_eqb (a b : option string) : bool :=
  match a, b with Some x, Some y => String.eqb x y | None, None => true | _, _ => false end.

(** [s.strip_prefix("discord:")]. *)
Definition strip_discord (s : string) : option string := strip_prefix "discord:" s.

Section Ledger.
Context `{Sqlite}.
(** [kill(pid, 0)] of a nonzero pid; the milliseconds between two instants as SQLite computes them. *)
Context (process_exists : Z -> bool) (julian_ms : Z -> Z -> Z).

Definition is_process_alive (pid : Z) : bool :=
  if (pid =? 0)%Z then false else process_exists pid.

(** ** Inbound claims *)

Definition ensure_session (session : SessionKey) : M LedgerState unit :=
  stmt (fun s =>
    (tt, if existsb (fun r => String.eqb (sr_key r) (storage_key session)) (sessions s) then s
         else set_sessions (fun t => (t ++ [mkSessionRow (storage_key session) session (state_value default_state) false])%list) s)).

Definition has_session (key : string) (s : LedgerState) : bool :=
  existsb (fun r => String.eqb (sr_key r) key) (sessions s).

Definition has_message (m : string) (r : DeliveryRow) : bool := String.eqb (message_id r) m.

(** The row an insert of this component writes. *)
Definition fresh_delivery (uuid key id platform_id : string) (now : Z) : DeliveryRow :=
  mkDelivery uuid key id "in_progress" (Some platform_id) None now now now None None.

(** The claiming upsert: the number of affected rows. *)
Definition claim_delivery (row : DeliveryRow) (s : LedgerState) :
    result nat OmonError * LedgerState :=
  if negb (has_session (dl_session_key row) s)
  then (Err (Database (constraint_error "delivery_ledger.session_key")), s)
  else if existsb (has_message (message_id row)) (deliveries s)
  then
    let failed r := has_message (message_id row) r && String.eqb (status r) "failed" in
    (Ok (count failed (deliveries s)),
     set_deliveries (update_where failed (fun r =>
       mkDelivery (delivery_id r) (dl_session_key r) (message_id r) "in_progress"
         (platform_message_id r) None (dl_created_at r) (dl_updated_at row) (received_at r)
         (completed_at r) (processing_latency_ms r))) s)
  else (Ok 1, set_deliveries (fun t => (t ++ [row])%list) s).

(** [ON CONFLICT(message_id) DO NOTHING]. *)
Definition insert_constituent_delivery (row : DeliveryRow) (s : LedgerState) :
    result unit OmonError * LedgerState :=
  if negb (has_session (dl_session_key row) s)
  then (Err (Database (constraint_error "delivery_ledger.session_key")), s)
  else if existsb (has_message (message_id row)) (deliveries s) then (Ok tt, s)
  else (Ok tt, set_deliveries (fun t => (t ++ [row])%list) s).

Definition record_incoming_as (event : InboundEvent) (delivery_id uuid : string) :
    M LedgerState bool :=
  ensure_session (ev_session event) ;;;
  affected <- exec (claim_delivery
    (fresh_delivery uuid (storage_key (ev_session event)) delivery_id
       (ev_platform_message_id event) (ev_received_at event))) ;;
  ret (affected =? 1)%nat.

Definition record_incoming (event : InboundEvent) (uuid : string) : M LedgerState bool :=
  record_incoming_as event (ev_platform_message_id event) uuid.

(** The four spellings under which [is_duplicate], [is_completed] and [get]
    look a message up. *)
Definition names_message (m : string) (r : DeliveryRow) : bool :=
  let alt := default "" (strip_discord m) in
  has_message m r || has_message alt r || has_message ("discord:" ++ m) r
  || opt_eqb (platform_message_id r) (Some m).

Definition is_duplicate (m : string) : M LedgerState bool :=
  query (fun s => existsb (names_message m) (deliveries s)).

Definition is_completed (m : string) : M LedgerState bool :=
  query (fun s => existsb (fun r => names_message m r && String.eqb (status r) "delivered") (deliveries s)).

(** [CREATE TABLE IF NOT EXISTS] and its index: two statements, no row. *)
Definition ensure_constituents_table : M LedgerState unit :=
  stmt (fun s => (tt, s)) ;;; stmt (fun s => (tt, s)).

Definition link_constituent (parent c : string) : M LedgerState unit :=
  stmt (fun s => (tt, set_constituents (fun t =>
    if existsb (fun r => String.eqb (snd r) c) t
    then update_where (fun r => String.eqb (snd r) c) (fun r => (parent, snd r)) t
    else (t ++ [(parent, c)])%list) s)).

(** The loop that refuses a batch one of whose messages is known. *)
Fixpoint any_duplicate (ids : list string) : M LedgerState bool :=
  match ids with
  | [] => ret false
  | c :: rest =>
      dup <- is_duplicate c ;;
      if dup : bool then ret true else any_duplicate rest
  end.

Definition record_constituent (event : InboundEvent) (delivery_id : string) (uuid : string -> string)
    (c : string) : M LedgerState unit :=
  if String.eqb c delivery_id then ret tt
  else
    attempt (exec (insert_constituent_delivery
      (fresh_delivery (uuid c) (storage_key (ev_session event)) c
         (default c (strip_discord c)) (ev_received_at event)))) ;;;
    attempt (link_constituent delivery_id c) ;;;
    ret tt.

Definition record_incoming_with_constituents (event : InboundEvent) (delivery_id : string)
    (constituent_ids : list string) (uuid : string -> string) : M LedgerState bool :=
  ensure_session (ev_session event) ;;;
  ensure_constituents_table ;;;
  dup <- is_duplicate delivery_id ;;
  if dup : bool then ret false
  else
    dups <- any_duplicate constituent_ids ;;
    if dups : bool then ret false
    else
      recorded <- record_incoming_as event delivery_id (uuid delivery_id) ;;
      if negb recorded then ret false
      else
        attempt (link_constituent delivery_id delivery_id) ;;;
        for_each (record_constituent event delivery_id uuid) constituent_ids ;;;
        ret true.

(** ** Completion *)

Definition finish (st : DeliveryStatus) (error : option string) (at_ : Z) (r : DeliveryRow) : DeliveryRow :=
  mkDelivery (delivery_id r) (dl_session_key r) (message_id r) (status_name st)
    (platform_message_id r) error (dl_created_at r) at_ (received_at r) (Some at_)
    (Some (Z.max 0 (julian_ms (received_at r) at_))).

Definition is_constituent_of (parent : string) (s : LedgerState) (r : DeliveryRow) : bool :=
  existsb (fun p => String.eqb (fst p) parent && String.eqb (snd p) (message_id r)) (constituents s).

Definition complete (m : string) (st : DeliveryStatus) (error : option string) (now : Z) :
    M LedgerState unit :=
  affected <- stmt (fun s => (count (has_message m) (deliveries s),
                              set_deliveries (update_where (has_message m) (finish st error now)) s)) ;;
  if (affected =? 0)%nat
  then fail (Database ("delivery message " ++ m ++ " does not exist"))
  else
    attempt ensure_constituents_table ;;;
    attempt (stmt (fun s => (tt, set_deliveries
      (update_where (is_constituent_of m s) (finish st error now)) s))) ;;;
    ret tt.

Definition mark_delivered (m : string) (now : Z) : M LedgerState unit :=
  complete m StDelivered None now.
Definition mark_failed (m error : string) (now : Z) : M LedgerState unit :=
  complete m StFailed (Some error) now.

(** [ORDER BY completed_at DESC, created_at DESC LIMIT 1]; NULL is least. *)
Definition later (a b : DeliveryRow) : bool :=
  match completed_at a, completed_at b with
  | Some x, Some y => (y <? x)%Z || ((x =? y)%Z && (dl_created_at b <? dl_created_at a)%Z)
  | Some _, None => true
  | None, Some _ => false
  | None, None => (dl_created_at b <? dl_created_at a)%Z
  end.
Definition latest_row (t : list DeliveryRow) : option DeliveryRow :=
  fold_left (fun acc r => match acc with Some b => if later r b then Some r else acc | None => Some r end) t None.

Definition entry_of (r : DeliveryRow) : DeliveryLedgerEntry :=
  mkEntry (message_id r) (dl_session_key r) (status r) (received_at r) (completed_at r)
    (processing_latency_ms r) (platform_message_id r) (dl_error r).

Definition get (m : string) : M LedgerState (option DeliveryLedgerEntry) :=
  query (fun s => entry_of <$> latest_row (select (names_message m) (deliveries s))).

(** ** Outbound obligations *)

Definition has_id (id : string) (r : DeliveryObligation) : bool := String.eqb (ob_id r) id.

(** The insert of [record_obligation] with its [ON CONFLICT(id) DO UPDATE]. *)
Definition upsert_obligation (row : DeliveryObligation) (s : LedgerState) :
    result unit OmonError * LedgerState :=
  if negb (has_session (ob_session_key row) s)
  then (Err (Database (constraint_error "delivery_obligations.session_key")), s)
  else if existsb (has_id (ob_id row)) (obligations s)
  then (Ok tt, set_obligations (update_where (has_id (ob_id row)) (fun r =>
         mkObligation (ob_id r) (ob_session_key r) (ob_channel_id r) (ob_thread_id r)
           (ob_content row) (ob_state r) (ob_attempts r) (ob_created_at r) (ob_updated_at row)
           (ob_owner_pid row) (ob_last_error r) (ob_owner_started_at row))) s)
  else (Ok tt, set_obligations (fun t => (t ++ [row])%list) s).

Definition record_obligation (pid : Z) (started id : string) (session : SessionKey)
    (content : string) (now : Z) : M LedgerState unit :=
  ensure_session session ;;;
  exec (upsert_obligation
    (mkObligation id (storage_key session) (channel_id session) (thread_id session) content
       "pending" 0 now now (Some pid) None (Some started))).

Definition set_ob_state (state : string) (now : Z) (error : option string) (r : DeliveryObligation) :=
  mkObligation (ob_id r) (ob_session_key r) (ob_channel_id r) (ob_thread_id r) (ob_content r)
    state (ob_attempts r) (ob_created_at r) now (ob_owner_pid r) error (ob_owner_started_at r).

Definition update_obligation_state (id state : string) (error : option string) (now : Z) :
    M LedgerState unit :=
  affected <- stmt (fun s => (count (has_id id) (obligations s),
                              set_obligations (update_where (has_id id) (set_ob_state state now error)) s)) ;;
  if (affected =? 0)%nat then fail (Database ("delivery obligation " ++ id ++ " not found"))
  else ret tt.

Definition mark_obligation_attempting (id : string) (now : Z) : M LedgerState unit :=
  update_obligation_state id "attempting" None now.
Definition mark_obligation_delivered (id : string) (now : Z) : M LedgerState unit :=
  update_obligation_state id "delivered" None now.
Definition mark_obligation_failed (id error : string) (now : Z) : M LedgerState unit :=
  update_obligation_state id "failed" (Some error) now.

Definition get_obligation (id : string) : M LedgerState (option DeliveryObligation) :=
  query (fun s => head (select (has_id id) (obligations s))).

(** *** Startup recovery: taking over undelivered rows *)

Definition is_undelivered (r : DeliveryObligation) : bool :=
  String.eqb (ob_state r) "pending" || String.eqb (ob_state r) "attempting"
  || String.eqb (ob_state r) "failed".

(** [pid as u32]. *)
Definition as_u32 (pid : Z) : Z := (pid mod 2 ^ 32)%Z.

(** The owner test at the head of the loop of [sweep_recoverable]. *)
Definition owned_by_this_instance (pid : Z) (started : string) (r : DeliveryObligation) : bool :=
  match ob_owner_pid r with
  | Some p =>
      (0 <? p)%Z && is_process_alive (as_u32 p) &&
      match ob_owner_started_at r with
      | Some st => String.eqb st started
      | None => (p =? pid)%Z
      end
  | None => false
  end.

(** [num_seconds] of a difference of instants. *)
Definition age_secs (now created : Z) : Z := Z.quot (now - created) NS.

Definition exhausted (max_attempts stale_after_secs now : Z) (r : DeliveryObligation) : bool :=
  (max_attempts <=? ob_attempts r)%Z || (stale_after_secs <? age_secs now (ob_created_at r))%Z.

Definition abandon_row (id : string) (now : Z) (s : LedgerState) : LedgerState :=
  set_obligations (update_where (has_id id) (fun r => set_ob_state "abandoned" now (ob_last_error r) r)) s.

(** [owner_pid IS NULL OR owner_pid = snapshot OR owner_pid = ours]; a
    comparison with NULL is not true. *)
Definition claimable (id : string) (snapshot : option Z) (pid : Z) (r : DeliveryObligation) : bool :=
  has_id id r &&
  match ob_owner_pid r with
  | None => true
  | Some p => match snapshot with Some o => (p =? o)%Z | None => false end || (p =? pid)%Z
  end.

Definition take_over (pid : Z) (started : string) (now : Z) (r : DeliveryObligation) :=
  mkObligation (ob_id r) (ob_session_key r) (ob_channel_id r) (ob_thread_id r) (ob_content r)
    (ob_state r) (ob_attempts r + 1) (ob_created_at r) now (Some pid) (ob_last_error r) (Some started).

Definition claim_obligation (id : string) (snapshot : option Z) (pid : Z) (started : string) (now : Z)
    (s : LedgerState) : nat * LedgerState :=
  (count (claimable id snapshot pid) (obligations s),
   set_obligations (update_where (claimable id snapshot pid) (take_over pid started now)) s).

(** The row returned for a claim is the snapshot, restamped. *)
Definition restamp (pid : Z) (started : string) (r : DeliveryObligation) :=
  mkObligation (ob_id r) (ob_session_key r) (ob_channel_id r) (ob_thread_id r) (ob_content r)
    (ob_state r) (ob_attempts r + 1) (ob_created_at r) (ob_updated_at r) (Some pid) (ob_last_error r) (Some started).

Fixpoint sweep_rows (pid : Z) (started : string) (max_attempts stale_after_secs now : Z)
    (rows : list DeliveryObligation) : M LedgerState (list DeliveryObligation) :=
  match rows with
  | [] => ret []
  | row :: rest =>
      let continue := sweep_rows pid started max_attempts stale_after_secs now rest in
      if owned_by_this_instance pid started row then continue
      else if exhausted max_attempts stale_after_secs now row then
        stmt (fun s => (tt, abandon_row (ob_id row) now s)) ;;; continue
      else
        affected <- stmt (claim_obligation (ob_id row) (ob_owner_pid row) pid started now) ;;
        claimed <- continue ;;
        ret (if (0 <? affected)%nat then restamp pid started row :: claimed else claimed)
  end.

Definition sweep_recoverable (pid : Z) (started : string) (max_attempts stale_after_secs now : Z) :
    M LedgerState (list DeliveryObligation) :=
  rows <- query (fun s => order_by ob_created_at (select is_undelivered (obligations s))) ;;
  sweep_rows pid started max_attempts stale_after_secs now rows.

(** *** Pruning *)

Definition is_terminal (r : DeliveryObligation) : bool :=
  String.eqb (ob_state r) "delivered" || String.eqb (ob_state r) "abandoned".

Definition expired_terminal (cutoff : Z) (r : DeliveryObligation) : bool :=
  is_terminal r && (ob_updated_at r <? cutoff)%Z.

(** [DELETE ... WHERE id IN (SELECT id ... ORDER BY updated_at ASC LIMIT excess)]. *)
Definition oldest_terminal (excess : nat) (t : list DeliveryObligation) : list string :=
  map ob_id (take excess (order_by ob_updated_at (select is_terminal t))).
Definition listed (ids : list string) (r : DeliveryObligation) : bool :=
  existsb (String.eqb (ob_id r)) ids.

Definition prune_terminal_obligations (retention_secs max_retained_rows now : Z) : M LedgerState nat :=
  let cutoff := (now - seconds retention_secs)%Z in
  pruned <- stmt (fun s => (count (expired_terminal cutoff) (obligations s),
                            set_obligations (delete_where (expired_terminal cutoff)) s)) ;;
  counted <- attempt (query (fun s => Z.of_nat (count is_terminal (obligations s)))) ;;
  let count_ := match counted with Ok n => n | Err _ => 0%Z end in
  if (max_retained_rows <? count_)%Z then
    let excess := Z.to_nat (count_ - max_retained_rows) in
    more <- stmt (fun s =>
      let ids := oldest_terminal excess (obligations s) in
      (count (listed ids) (obligations s), set_obligations (delete_where (listed ids)) s)) ;;
    ret (pruned + more)
  else ret pruned.

(** *** Replay after a reconnection *)

Definition is_retryable_transport (last_error : option string) : bool :=
  match last_error with
  | Some err =>
      let lower := to_ascii_lowercase err in
      (contains "connection refused" lower || contains "connect error" lower
       || contains "transport error" lower || contains "connection reset" lower
       || contains "broken pipe" lower)
      && negb (contains "403" lower) && negb (contains "forbidden" lower)
      && negb (contains "timeout" lower)
  | None => false
  end.

Definition matches_bot (bot : string) (r : DeliveryObligation) : bool :=
  match from_storage_key (ob_session_key r) with
  | Ok session => opt_eqb (bot_id session) (Some bot)
  | Err _ => false
  end.

Definition owned_failed (pid : Z) (started : string) (r : DeliveryObligation) : bool :=
  String.eqb (ob_state r) "failed"
  && match ob_owner_pid r with Some p => (p =? pid)%Z | None => false end
  && match ob_owner_started_at r with Some st => String.eqb st started | None => false end.

Definition retry_row (now : Z) (r : DeliveryObligation) :=
  mkObligation (ob_id r) (ob_session_key r) (ob_channel_id r) (ob_thread_id r) (ob_content r)
    "attempting" (ob_attempts r + 1) (ob_created_at r) now (ob_owner_pid r) (ob_last_error r) (ob_owner_started_at r).
Definition still_failed (id : string) (r : DeliveryObligation) : bool :=
  has_id id r && String.eqb (ob_state r) "failed".

(** The returned row keeps the [updated_at] it was read with. *)
Definition retried (r : DeliveryObligation) := retry_row (ob_updated_at r) r.

Definition replayable (bot : string) (max_attempts stale_after_secs now : Z) (r : DeliveryObligation) : bool :=
  matches_bot bot r && is_retryable_transport (ob_last_error r)
  && negb (exhausted max_attempts stale_after_secs now r).

Fixpoint replay_rows (bot : string) (max_attempts stale_after_secs now : Z)
    (rows : list DeliveryObligation) : M LedgerState (list DeliveryObligation) :=
  match rows with
  | [] => ret []
  | row :: rest =>
      let continue := replay_rows bot max_attempts stale_after_secs now rest in
      if negb (replayable bot max_attempts stale_after_secs now row) then continue
      else
        affected <- stmt (fun s => (count (still_failed (ob_id row)) (obligations s),
          set_obligations (update_where (still_failed (ob_id row)) (retry_row now)) s)) ;;
        claimed <- continue ;;
        ret (if (0 <? affected)%nat then retried row :: claimed else claimed)
  end.

Definition sweep_failed_for_runtime (pid : Z) (started bot : string)
    (max_attempts stale_after_secs now : Z) : M LedgerState (list DeliveryObligation) :=
  rows <- query (fun s => order_by ob_created_at (select (owned_failed pid started) (obligations s))) ;;
  replay_rows bot max_attempts stale_after_secs now rows.

(** ** Recovery at startup *)

(** The outbound dispatcher: its answer to an action, given those before it;
    [stream_uuid] draws the id of the stream of an obligation. *)
Section Recovery.
Context (answer : list OutboundAction -> OutboundAction -> result unit OmonError) (stream_uuid : string -> N).

Definition dispatch (a : OutboundAction) : M LedgerState (result unit OmonError) :=
  mem (fun s => (answer (outbox s) a, set_outbox (fun l => (l ++ [a])%list) s)).

(** The session of an obligation: its key parsed, or the stored session, or a
    synthetic one on the channel. *)
Definition recovered_session (o : DeliveryObligation) : M LedgerState SessionKey :=
  match from_storage_key (ob_session_key o) with
  | Ok key => ret key
  | Err _ =>
      stored <- attempt (query (fun s =>
        head (select (fun r => String.eqb (sr_key r) (ob_session_key o)) (sessions s)))) ;;
      ret (match stored with
           | Ok (Some row) =>
               match from_storage_key (sr_key row) with
               | Ok key => key
               | Err _ => let k := sr_session row in
                          new (platform k) (guild_id k) (channel_id k) (thread_id k) (user_id k)
               end
           | _ => new "discord" None (ob_channel_id o) (ob_thread_id o) "recovered-delivery"
           end)
  end.

Definition recovered_content (o : DeliveryObligation) : string :=
  if String.eqb (ob_state o) "pending" then ob_content o
  else RECOVERED_REPLY_MARKER ++ ob_content o.

Definition redeliver (now : Z) (o : DeliveryObligation) : M LedgerState nat :=
  session <- recovered_session o ;;
  let chunk := mkChunk (stream_uuid (ob_id o)) 0 (recovered_content o) true None in
  mark_obligation_attempting (ob_id o) now ;;;
  result <- dispatch (Stream session chunk) ;;
  match result with
  | Ok _ => mark_obligation_delivered (ob_id o) now ;;; ret 1
  | Err err => mark_obligation_failed (ob_id o) (error_text err) now ;;; ret 0
  end.

Fixpoint redeliver_all (now : Z) (l : list DeliveryObligation) : M LedgerState nat :=
  match l with
  | [] => ret 0
  | o :: rest => n <- redeliver now o ;; m <- redeliver_all now rest ;; ret (n + m)
  end.

Definition recover_pending_delivery_obligations (pid : Z) (started : string) (now : Z) : M LedgerState nat :=
  recoverable <- sweep_recoverable pid started 3 86400 now ;;
  redeliver_all now recoverable.
End Recovery.

(** ** Inbound claims are exclusive *)

(** The operations of the service that touch the tables, for traces. *)
Inductive ledger_op : Type :=
| OpRecord (e : InboundEvent) (id uuid : string)
| OpRecordMerged (e : InboundEvent) (id : string) (cs : list string) (uuid : string -> string)
| OpDelivered (m : string) (now : Z)
| OpFailed (m error : string) (now : Z)
| OpObligation (pid : Z) (started id : string) (k : SessionKey) (content : string) (now : Z)
| OpMark (id : string) (state : DeliveryObligationState) (error : option string) (now : Z)
| OpSweep (pid : Z) (started : string) (max_attempts stale now : Z)
| OpReplay (pid : Z) (started bot : string) (max_attempts stale now : Z)
| OpPrune (retention keep now : Z).

(** The claims made by an operation: did it take the delivery? *)
Definition perform (o : ledger_op) : M LedgerState bool :=
  match o with
  | OpRecord e id uuid => record_incoming_as e id uuid
  | OpRecordMerged e id cs uuid => record_incoming_with_constituents e id cs uuid
  | OpDelivered m now => mark_delivered m now ;;; ret false
  | OpFailed m error now => mark_failed m error now ;;; ret false
  | OpObligation pid started id k content now => record_obligation pid started id k content now ;;; ret false
  | OpMark id state error now => update_obligation_state id (as_str state) error now ;;; ret false
  | OpSweep pid started mx stale now => sweep_recoverable pid started mx stale now ;;; ret false
  | OpReplay pid started bot mx stale now => sweep_failed_for_runtime pid started bot mx stale now ;;; ret false
  | OpPrune retention keep now => prune_terminal_obligations retention keep now ;;; ret false
  end.

(** The messages a claiming operation would take. *)
Definition claims_of (o : ledger_op) : list string :=
  match o with
  | OpRecord _ id _ => [id]
  | OpRecordMerged _ id cs _ => id :: cs
  | _ => []
  end.

Fixpoint run_ops (ops : list ledger_op) (w : world LedgerState) :
    list (ledger_op * result bool OmonError) * world LedgerState :=
  match ops with
  | [] => ([], w)
  | o :: rest =>
      let '(r, w1) := perform o w in
      let '(rs, w2) := run_ops rest w1 in ((o, r) :: rs, w2)
  end.

(** A claim is held: the message has a row, and none of its rows has failed. *)
Definition held (id : string) (t : list DeliveryRow) : Prop :=
  (exists r, r ∈ t /\ message_id r = id) /\
  (forall r, r ∈ t -> message_id r = id -> status r <> "failed").

Lemma held_app id t row : status row <> "failed" -> held id t -> held id (t ++ [row])%list.
Proof.
  intros Hr [(r & Hin & Hid) Hall]. split.
  - exists r. split; [|done]. apply elem_of_app. by left.
  - intros x [Hx| ->%list_elem_of_singleton]%elem_of_app ?; [by apply Hall | done].
Qed.

Lemma held_new id t row :
  (forall r, r ∈ t -> message_id r <> id) -> message_id row = id -> status row <> "failed" ->
  held id (t ++ [row])%list.
Proof.
  intros Hno Hid Hs. split.
  - exists row. split; [|done]. apply elem_of_app. right. by apply list_elem_of_singleton.
  - intros x [Hx| ->%list_elem_of_singleton]%elem_of_app ?; [|done]. by destruct (Hno x Hx).
Qed.

Lemma held_update id p f t :
  (forall r, message_id (f r) = message_id r) ->
  (forall r, p r = true -> message_id r = id -> status (f r) <> "failed") ->
  held id t -> held id (update_where p f t).
Proof.
  intros Hid Hs [(r & Hin & Heq) Hall]. split.
  - exists (if p r then f r else r). split.
    + apply in_update_where. eauto.
    + destruct (p r); [by rewrite Hid | done].
  - intros x (r0 & Hr0 & ->)%in_update_where Hx. destruct (p r0) eqn:E.
    + apply Hs; [done|]. by rewrite <- Hid.
    + by apply Hall.
Qed.

Lemma has_message_spec m t :
  existsb (has_message m) t = true <-> exists r, r ∈ t /\ message_id r = m.
Proof.
  rewrite existsb_exists. unfold has_message. split; intros (r & Hr & Hm).
  - exists r. apply list_elem_of_In in Hr. apply String.eqb_eq in Hm. done.
  - exists r. split; [by apply list_elem_of_In | by apply String.eqb_eq].
Qed.

Lemma held_duplicate_row id t :
  (exists r, r ∈ t /\ message_id r = id) -> existsb (names_message id) t = true.
Proof.
  intros (r & Hr & Hid). apply existsb_exists. exists r. split; [by apply list_elem_of_In|].
  unfold names_message, has_message. by rewrite Hid, String.eqb_refl.
Qed.

Lemma held_duplicate id t : held id t -> existsb (names_message id) t = true.
Proof. intros [Hr _]. by apply held_duplicate_row. Qed.

(** The claiming upsert: one affected row means the claim is now held and was
    not held before; held claims of other messages stay. *)
Lemma claim_delivery_ok row s n s' :
  status row = "in_progress" -> claim_delivery row s = (Ok n, s') ->
  (forall id, held id (deliveries s) -> held id (deliveries s')) /\
  constituents s' = constituents s /\
  (n = 1 -> held (message_id row) (deliveries s') /\ ~ held (message_id row) (deliveries s)).
Proof.
  intros Hst. unfold claim_delivery. destruct (negb _); [done|].
  destruct (existsb _ _) eqn:Hex; intros [= <- <-]; simpl.
  - split; [|split; [done|]].
    + intros id. apply held_update; done.
    + intros Hc. apply has_message_spec in Hex as (r & Hr & Hid).
      set (failed := fun r => has_message (message_id row) r && String.eqb (status r) "failed").
      set (f := fun r => mkDelivery _ _ _ _ _ _ _ _ _ _ _).
      split; [split|].
      * exists (if failed r then f r else r). split; [apply in_update_where; eauto | by destruct (failed r)].
      * intros x (r0 & Hr0 & ->)%in_update_where Hx. destruct (failed r0) eqn:E; [done|].
        unfold failed, has_message in E. rewrite Hx, String.eqb_refl in E. simpl in E.
        by apply String.eqb_neq in E.
      * intros [_ Hall]. assert (Hz : count failed (deliveries s) = 0); [|unfold failed in Hz; lia].
        apply count_zero. intros x Hx. unfold failed, has_message.
        destruct (String.eqb_spec (message_id x) (message_id row)); [|done]. simpl.
        apply String.eqb_neq. by apply Hall.
  - split; [|split; [done|]].
    + intros id. apply held_app. by rewrite Hst.
    + intros _. assert (Hno : forall r, r ∈ deliveries s -> message_id r <> message_id row).
      { intros r Hr Heq. assert (existsb (has_message (message_id row)) (deliveries s) = true); [|congruence].
        apply has_message_spec. eauto. }
      split; [apply held_new; [done | done | by rewrite Hst] |]. intros [(r & Hr & Heq) _]. by apply (Hno r).
Qed.

(** What a trace keeps: the claim, and the parents that may close it. *)
Definition protected (id : string) (parents : list string) (s : LedgerState) : Prop :=
  held id (deliveries s) /\ forall p, (p, id) ∈ constituents s -> p ∈ parents.

Lemma ensure_session_protected id P session : preserves (protected id P) (ensure_session session).
Proof. unfold ensure_session. preserve_steps. intros s ?. simpl. by case_match. Qed.

Lemma link_protected id P parent c : c <> id -> preserves (protected id P) (link_constituent parent c).
Proof.
  intros Hc. unfold link_constituent. preserve_steps. intros s [Hh HP]. split; [done|]. simpl.
  intros p. destruct (existsb _ _).
  - intros ([q d] & Hr & Heq)%in_update_where. simpl in Heq.
    destruct (String.eqb_spec d c); simplify_eq; by apply HP.
  - intros [?|[= -> ->]%list_elem_of_singleton]%elem_of_app; [by apply HP | done].
Qed.

Lemma insert_constituent_protected id P row :
  status row = "in_progress" -> preserves (protected id P) (exec (insert_constituent_delivery row)).
Proof.
  intros Hs. preserve_steps. intros s [Hh HP]. unfold insert_constituent_delivery.
  destruct (negb _); [done|]. destruct (existsb _ _); [done|]. split; [|done]. simpl.
  apply held_app; [by rewrite Hs | done].
Qed.

Lemma record_protected id P e d uuid :
  triple (protected id P) (record_incoming_as e d uuid)
    (fun r s => protected id P s /\ (r = true -> d <> id)) (protected id P).
Proof.
  unfold record_incoming_as. eapply triple_bind.
  { apply triple_preserves, ensure_session_protected. }
  intros ?. eapply triple_bind with (R := fun n s => protected id P s /\ (n = 1 -> d <> id)).
  - apply triple_exec; [done|]. intros s [Hh HP].
    destruct (claim_delivery _ s) as [[n|err] s'] eqn:E.
    + apply claim_delivery_ok in E as (H1 & H2 & H3); [|done].
      split; [split; [by apply H1 | by rewrite H2]|]. intros Hn ->. by apply H3 in Hn as [_ []].
    + unfold claim_delivery in E. repeat case_match; simplify_eq; by split.
  - intros n. apply triple_ret. intros s [Hp Hn]. split; [done|]. intros ?%Nat.eqb_eq. by apply Hn.
Qed.

Lemma is_duplicate_protected id P m E :
  (forall s, protected id P s -> E s) ->
  triple (protected id P) (is_duplicate m)
    (fun r s => protected id P s /\ (r = false -> m <> id)) E.
Proof.
  intros HE. eapply triple_weaken; [apply (triple_query (protected id P)); exact HE | done | | done].
  intros r s [-> Hp]. split; [done|]. intros Hf ->. destruct Hp as [Hh _].
  apply held_duplicate in Hh. congruence.
Qed.

Lemma any_duplicate_protected id P ids :
  triple (protected id P) (any_duplicate ids)
    (fun r s => protected id P s /\ (r = false -> id ∉ ids)) (protected id P).
Proof.
  induction ids as [|c ids IH]; simpl.
  - apply triple_ret. intros s ?. split; [done|]. intros _. apply not_elem_of_nil.
  - eapply triple_bind; [by apply is_duplicate_protected|]. intros []; simpl.
    + by apply triple_ret; intros s [].
    + intros w [Hp Hc]. pose proof (IH w Hp) as Hw. destruct (any_duplicate ids w) as [[r|e] w']; [|done].
      destruct Hw as [Hw Hr]. split; [done|]. intros Hf. apply not_elem_of_cons.
      split; [intros ->; by apply Hc | by apply Hr].
Qed.

(** Knowledge that does not depend on the state can be set aside. *)
Lemma merged_protected id P e d cs uuid :
  triple (protected id P) (record_incoming_with_constituents e d cs uuid)
    (fun r s => protected id P s /\ (r = true -> id ∉ d :: cs)) (protected id P).
Proof.
  unfold record_incoming_with_constituents. eapply triple_bind.
  { apply triple_preserves, ensure_session_protected. }
  intros ?. eapply triple_bind.
  { apply triple_preserves. unfold ensure_constituents_table. by preserve_steps. }
  intros ?. eapply triple_bind; [by apply is_duplicate_protected|]. intros []; simpl.
  { by apply triple_ret; intros s []. }
  apply triple_pure. intros Hd. eapply triple_bind; [apply any_duplicate_protected|].
  intros []; simpl; [by apply triple_ret; intros s [] |].
  apply triple_pure. intros Hcs. eapply triple_bind; [apply record_protected|].
  intros []; simpl; [|by apply triple_ret; intros s [] ].
  apply triple_pure. intros _.
  assert (Hid : id ∉ d :: cs).
  { apply not_elem_of_cons. split; [intros ->; by apply Hd | by apply Hcs]. }
  eapply triple_bind.
  { apply triple_ignore, link_protected. intros ->. apply Hid. left. }
  intros ?. eapply triple_bind with (R := fun _ => protected id P); [|intros ?; apply triple_ret; by intros s ?].
  apply triple_for_each; [done|]. intros c Hc. unfold record_constituent.
  destruct (String.eqb c d); [by apply triple_ret|].
  eapply triple_bind; [by apply triple_ignore, insert_constituent_protected|]. intros ?.
  eapply triple_bind with (R := fun _ => protected id P); [|intros ?; by apply triple_ret].
  apply triple_ignore, link_protected. intros ->. apply Hid. by right.
Qed.

Lemma complete_protected id P m st error now :
  st <> StFailed \/ (m <> id /\ m ∉ P) ->
  preserves (protected id P) (complete m st error now).
Proof.
  intros Hst. assert (Hok : forall p t, held id t ->
    (forall r, r ∈ t -> p r = true -> message_id r = id -> m = id \/ m ∈ P) ->
    held id (update_where p (finish st error now) t)).
  { intros p t Hh Hp. destruct Hst as [Hst|[Hm HmP]].
    - apply held_update; [done| |done]. intros r _ _. by destruct st.
    - destruct Hh as [(r & Hr & Hid) Hall]. split.
      + exists (if p r then finish st error now r else r). split; [apply in_update_where; eauto | by destruct (p r)].
      + intros x (r0 & Hr0 & ->)%in_update_where Hx. destruct (p r0) eqn:Ep; [|by apply Hall].
        by destruct (Hp r0 Hr0 Ep Hx). }
  unfold complete, ensure_constituents_table. preserve_steps; try (intros s Hs; exact Hs).
  - intros s [Hh HP]. split; [|done]. simpl. apply Hok; [done|]. intros r _ Hm Hid. left.
    apply String.eqb_eq in Hm. congruence.
  - intros s [Hh HP]. split; [|done]. simpl. apply Hok; [done|]. intros r _ Hm Hid. right.
    unfold is_constituent_of in Hm. apply existsb_exists in Hm as ([p c] & Hpc & [Hp Hc]%andb_true_iff).
    apply String.eqb_eq in Hp, Hc. simpl in *. subst. apply HP. by apply list_elem_of_In.
Qed.

Lemma sweep_rows_keeps (I : LedgerState -> Prop) pid started mx stale now rows :
  (forall f s, I s -> I (set_obligations f s)) ->
  preserves I (sweep_rows pid started mx stale now rows).
Proof.
  intros HI. induction rows as [|row rows IH]; simpl; preserve_steps; try done;
    intros s Hs; by apply HI.
Qed.

Lemma replay_rows_keeps (I : LedgerState -> Prop) bot mx stale now rows :
  (forall f s, I s -> I (set_obligations f s)) ->
  preserves I (replay_rows bot mx stale now rows).
Proof.
  intros HI. induction rows as [|row rows IH]; simpl; preserve_steps; try done;
    intros s Hs; by apply HI.
Qed.

(** One operation: the claim stays, and nobody else gets it. *)
Lemma perform_protected id P o :
  (forall m error now, o = OpFailed m error now -> m <> id /\ m ∉ P) ->
  triple (protected id P) (perform o)
    (fun r s => protected id P s /\ (r = true -> id ∉ claims_of o)) (protected id P).
Proof.
  intros Ho. assert (Hstep : forall A (m : M LedgerState A), preserves (protected id P) m ->
    triple (protected id P) (m ;;; ret false)
      (fun r s => protected id P s /\ (r = true -> id ∉ claims_of o)) (protected id P)).
  { intros A m Hm. eapply triple_bind; [apply triple_preserves, Hm|]. intros a. by apply triple_ret. }
  assert (Hob : forall f s, protected id P s -> protected id P (set_obligations f s)) by done.
  destruct o; simpl; try apply Hstep.
  - eapply triple_weaken; [apply record_protected | done | | done].
    intros r s [? Hn]. split; [done|]. intros Hr ->%list_elem_of_singleton. by apply Hn.
  - apply merged_protected.
  - apply complete_protected. by left.
  - apply complete_protected. right. by eapply Ho.
  - unfold record_obligation. preserve_steps; [apply ensure_session_protected|].
    intros s ?. unfold upsert_obligation. by repeat case_match.
  - unfold update_obligation_state. by preserve_steps.
  - unfold sweep_recoverable. preserve_steps. by apply sweep_rows_keeps.
  - unfold sweep_failed_for_runtime. preserve_steps. by apply replay_rows_keeps.
  - unfold prune_terminal_obligations. by preserve_steps.
Qed.

Lemma run_ops_protected id P ops w rs w' :
  protected id P (st w) ->
  (forall m error now, OpFailed m error now ∈ ops -> m <> id /\ m ∉ P) ->
  run_ops ops w = (rs, w') ->
  protected id P (st w') /\ forall o, (o, Ok true) ∈ rs -> id ∉ claims_of o.
Proof.
  revert w rs. induction ops as [|o ops IH]; intros w rs Hw Hf; simpl.
  { intros [= <- <-]. split; [done|]. intros o Ho. by apply not_elem_of_nil in Ho. }
  assert (Ho : forall m error now, o = OpFailed m error now -> m <> id /\ m ∉ P).
  { intros m err nw ->. eapply Hf. left. }
  pose proof (perform_protected id P o Ho w Hw) as Hp.
  destruct (perform o w) as [r w1]. destruct (run_ops ops w1) as [rs' w2] eqn:E. intros [= <- <-].
  assert (Hw1 : protected id P (st w1)) by (destruct r; [apply Hp | done]).
  destruct (IH w1 rs' Hw1) as [H1 H2]; [|done|].
  { intros m err nw Hin. eapply Hf. right. exact Hin. }
  split; [done|]. intros o' [[= -> <-]|Ho']%elem_of_cons; [|by apply H2].
  destruct Hp as [_ Hp]. by apply Hp.
Qed.

(** C4: at-most-once processing.  Once a message is claimed, no later claim by
    any operation sequence, under any statement failures, takes it again (alone
    or inside a merged batch), unless the message itself or the merged
    delivery it belongs to is marked failed. *)
Theorem delivery_claim_exclusive e id uuid w w1 ops rs w2 :
  record_incoming_as e id uuid w = (Ok true, w1) ->
  (forall m error now, OpFailed m error now ∈ ops ->
     m <> id /\ (m, id) ∉ constituents (st w1)) ->
  run_ops ops w1 = (rs, w2) ->
  held id (deliveries (st w2)) /\ forall o, (o, Ok true) ∈ rs -> id ∉ claims_of o.
Proof.
  intros Hr Hf Hops.
  assert (Hh : held id (deliveries (st w1))).
  { assert (Ht : triple (fun _ => True) (record_incoming_as e id uuid)
        (fun r s => r = true -> held id (deliveries s)) (fun _ => True)).
    { unfold record_incoming_as. eapply triple_bind with (R := fun _ _ => True).
      { apply triple_preserves. by intros ? _. }
      intros ?. eapply triple_bind with (R := fun n s => n = 1 -> held id (deliveries s)).
      - apply triple_exec; [done|]. intros s _. destruct (claim_delivery _ s) as [[n|err] s'] eqn:E; [|done].
        apply claim_delivery_ok in E as (_ & _ & H3); [|done]. intros Hn. by apply H3.
      - intros n. apply triple_ret. intros s Hn ?%Nat.eqb_eq. by apply Hn. }
    specialize (Ht w I). rewrite Hr in Ht. by apply Ht. }
  destruct (run_ops_protected id (omap (fun '(p, c) => if String.eqb c id then Some p else None)
              (constituents (st w1))) ops w1 rs w2) as [[H1 _] H2]; [|..|done|done].
  - split; [done|]. intros p Hp. apply list_elem_of_omap. exists (p, id). by rewrite String.eqb_refl.
  - intros m err nw Hin. destruct (Hf m err nw Hin) as [Hm HmP]. split; [done|].
    intros ([p c] & Hpc & Heq)%list_elem_of_omap. destruct (String.eqb_spec c id); by simplify_eq.
Qed.

(** ** The startup sweep *)

(** What the sweep means for one undelivered row. *)
Definition swept (pid : Z) (started : string) (max_attempts stale now : Z) (r : DeliveryObligation) :=
  if owned_by_this_instance pid started r then r
  else if exhausted max_attempts stale now r then set_ob_state "abandoned" now (ob_last_error r) r
  else take_over pid started now r.

Definition takes (pid : Z) (started : string) (max_attempts stale now : Z) (r : DeliveryObligation) : bool :=
  negb (owned_by_this_instance pid started r) && negb (exhausted max_attempts stale now r).

Lemma listed_spec ids r : listed ids r = true <-> ob_id r ∈ ids.
Proof.
  unfold listed. rewrite existsb_exists. split.
  - intros (x & Hx & ->%String.eqb_eq). by apply list_elem_of_In.
  - intros Hin. exists (ob_id r). split; [by apply list_elem_of_In | apply String.eqb_refl].
Qed.

Lemma listed_cons id ids r : listed (id :: ids) r = has_id id r || listed ids r.
Proof. done. Qed.

Section Sweep.
Context (pid : Z) (started : string) (mx stale now : Z).
Notation swept := (swept pid started mx stale now).

Lemma swept_id r : ob_id (swept r) = ob_id r.
Proof. unfold swept. by repeat case_match. Qed.

(** Doing one row by a statement, then the rest, is doing them all. *)
Lemma sweep_step (T : list DeliveryObligation) row ids p g :
  NoDup (map ob_id T) -> row ∈ T -> ob_id row ∉ ids ->
  (forall r, r ∈ T -> p r = has_id (ob_id row) r) -> g row = swept row ->
  update_where (listed ids) swept (update_where p g T) = update_where (listed (ob_id row :: ids)) swept T.
Proof.
  intros Hn Hrow Hid Hp Hg. rewrite update_where_compose. unfold update_where.
  apply map_ext_in. intros r Hr%list_elem_of_In. rewrite listed_cons, (Hp r Hr). cbv zeta.
  destruct (has_id (ob_id row) r) eqn:E; simpl; [|done].
  apply String.eqb_eq in E. assert (r = row) as -> by by eapply NoDup_key_eq.
  rewrite Hg. destruct (listed ids (swept row)) eqn:El; [|done].
  apply listed_spec in El. by rewrite swept_id in El.
Qed.

Lemma in_update_other (T : list DeliveryObligation) row r p g :
  r ∈ T -> ob_id r <> ob_id row -> (forall x, p x = true -> ob_id x = ob_id row) ->
  r ∈ update_where p g T.
Proof.
  intros Hr Hne Hp. apply in_update_where. exists r. split; [done|].
  destruct (p r) eqn:E; [|done]. by apply Hp in E.
Qed.

Lemma claimable_own (T : list DeliveryObligation) row r :
  NoDup (map ob_id T) -> row ∈ T -> r ∈ T ->
  claimable (ob_id row) (ob_owner_pid row) pid r = has_id (ob_id row) r.
Proof.
  intros Hn Hrow Hr. unfold claimable. destruct (has_id (ob_id row) r) eqn:E; [|done]. simpl.
  apply String.eqb_eq in E. assert (r = row) as -> by by eapply NoDup_key_eq.
  destruct (ob_owner_pid row); [|done]. by rewrite Z.eqb_refl.
Qed.

(** A statement updating the row of [row] only. *)
Definition one_row (row : DeliveryObligation) (T : list DeliveryObligation) (p : DeliveryObligation -> bool) :=
  forall r, r ∈ T -> p r = has_id (ob_id row) r.

Lemma sweep_rows_spec rows w :
  NoDup (map ob_id (obligations (st w))) -> (forall r, r ∈ rows -> r ∈ obligations (st w)) ->
  NoDup (map ob_id rows) ->
  match sweep_rows pid started mx stale now rows w with
  | (Ok claimed, w') =>
      st w' = set_obligations (update_where (listed (map ob_id rows)) swept) (st w) /\
      claimed = map (restamp pid started) (select (takes pid started mx stale now) rows)
  | (Err _, w') => exists pre, pre `prefix_of` rows /\
      st w' = set_obligations (update_where (listed (map ob_id pre)) swept) (st w)
  end /\ (faults w = [] -> exists claimed w', sweep_rows pid started mx stale now rows w = (Ok claimed, w')).
Proof.
  assert (Hnil : forall s, s = set_obligations (update_where (listed (map ob_id [])) swept) s).
  { intros []. unfold set_obligations, update_where. simpl. by rewrite map_id. }
  revert w. induction rows as [|row rows IH]; intros w Hn Hin Hd.
  { simpl. split; [split; [apply Hnil | done] | eauto]. }
  apply NoDup_cons in Hd as [Hrow Hd].
  assert (Hrin : row ∈ obligations (st w)) by (apply Hin; left).
  assert (Hstep : forall p g w1, one_row row (obligations (st w)) p -> g row = swept row ->
    (forall r, ob_id (g r) = ob_id r) -> (forall r, p r = true -> ob_id r = ob_id row) ->
    st w1 = set_obligations (update_where p g) (st w) ->
    match sweep_rows pid started mx stale now rows w1 with
    | (Ok claimed, w') =>
        st w' = set_obligations (update_where (listed (map ob_id (row :: rows))) swept) (st w) /\
        claimed = map (restamp pid started) (select (takes pid started mx stale now) rows)
    | (Err _, w') => exists pre, pre `prefix_of` row :: rows /\
        st w' = set_obligations (update_where (listed (map ob_id pre)) swept) (st w)
    end /\ (faults w1 = [] -> exists claimed w', sweep_rows pid started mx stale now rows w1 = (Ok claimed, w'))).
  { intros p g w1 Hp Hg Hid Hpid Hw1. destruct (IH w1) as [Hspec Hok]; [..|done|].
    - rewrite Hw1. simpl. by rewrite map_update_where.
    - intros r Hr. rewrite Hw1. simpl. eapply in_update_other; [apply Hin; by right| |done].
      intros E. apply Hrow. rewrite <- E. apply list_elem_of_fmap. eauto.
    - split; [|done]. destruct (sweep_rows _ _ _ _ _ rows w1) as [[cl|e] w'].
      + destruct Hspec as [Hst ->]. split; [|done]. rewrite Hst, Hw1. unfold set_obligations. simpl.
        f_equal. by eapply sweep_step.
      + destruct Hspec as (pre & Hpre & Hst). exists (row :: pre). split; [by apply prefix_cons|].
        rewrite Hst, Hw1. unfold set_obligations. simpl. f_equal. eapply sweep_step; try done.
        intros Hi. apply Hrow. apply list_elem_of_fmap in Hi as (x & -> & Hx).
        apply list_elem_of_fmap. exists x. split; [done|]. destruct Hpre as [suf ->]. apply elem_of_app. by left. }
  assert (Hself : forall w1, st w1 = st w -> st w1 = set_obligations (update_where (has_id (ob_id row)) id) (st w)).
  { intros w1 ->. destruct (st w). unfold set_obligations, update_where. simpl. f_equal.
    symmetry. erewrite map_ext; [apply map_id|]. intros r. by case_match. }
  simpl. fold (restamp pid started). unfold takes at 1 2. destruct (owned_by_this_instance pid started row) eqn:Eo; simpl.
  - destruct (Hstep (has_id (ob_id row)) id w) as [Hs Hok]; [done| |done| |by apply Hself|].
    + unfold swept. by rewrite Eo.
    + intros r Hr. by apply String.eqb_eq.
    + done.
  - destruct (exhausted mx stale now row) eqn:Ee; simpl.
    + unfold bind, stmt, exec. destruct (faults w) as [|[msg|] rest] eqn:Ef; simpl.
      2: { split; [|done]. exists []. split; [apply prefix_nil | apply Hnil]. }
      all: destruct (Hstep (has_id (ob_id row)) (fun r => set_ob_state "abandoned" now (ob_last_error r) r)
             (mkWorld (abandon_row (ob_id row) now (st w)) (tail (faults w)))) as [Hs Hok];
        [done | unfold swept; by rewrite Eo, Ee | done | intros r Hr; by apply String.eqb_eq | done |];
        rewrite Ef in *; simpl in *; split; [done | try done].
    + assert (Hc : count (claimable (ob_id row) (ob_owner_pid row) pid) (obligations (st w)) = 1).
      { eapply (count_key ob_id); [done..|]. intros r Hr. rewrite (claimable_own (obligations (st w))) by done.
        unfold has_id. by destruct (String.eqb_spec (ob_id r) (ob_id row)), (bool_decide_reflect (ob_id r = ob_id row)). }
      destruct (Hstep (claimable (ob_id row) (ob_owner_pid row) pid) (take_over pid started now)
             (mkWorld (set_obligations (update_where (claimable (ob_id row) (ob_owner_pid row) pid)
                (take_over pid started now)) (st w)) (tail (faults w)))) as [Hs Hok];
        [intros r Hr; by apply (claimable_own (obligations (st w))) | unfold swept; by rewrite Eo, Ee | done
        | intros r Hr%andb_true_iff; destruct Hr as [Hr _]; by apply String.eqb_eq | done |].
      unfold bind, stmt, exec, ret. destruct (faults w) as [|[msg|] rest] eqn:Ef; simpl.
      2: { split; [|done]. exists []. split; [apply prefix_nil | apply Hnil]. }
      all: rewrite Hc; simpl; simpl in Hs, Hok;
        destruct (sweep_rows pid started mx stale now rows _) as [[cl|e] w'];
        (split; [first [done | by destruct Hs as [? ->]]
                | first [done | intros _; destruct (Hok eq_refl) as (? & ? & ?); by eauto]]).
Qed.

Lemma sweep_spec w :
  NoDup (map ob_id (obligations (st w))) ->
  let rows := order_by ob_created_at (select is_undelivered (obligations (st w))) in
  match sweep_recoverable pid started mx stale now w with
  | (Ok claimed, w') =>
      st w' = set_obligations (update_where is_undelivered swept) (st w) /\
      claimed = map (restamp pid started) (select (takes pid started mx stale now) rows)
  | (Err _, w') => exists pre, pre `prefix_of` rows /\
      st w' = set_obligations (update_where (listed (map ob_id pre)) swept) (st w)
  end /\
  (faults w = [] -> exists claimed w', sweep_recoverable pid started mx stale now w = (Ok claimed, w')).
Proof.
  intros Hn rows.
  assert (Hrows : NoDup (map ob_id rows)) by by apply NoDup_map_order_by, NoDup_map_select.
  assert (Hin : forall r, r ∈ rows <-> r ∈ obligations (st w) /\ is_undelivered r = true).
  { intros r. unfold rows. rewrite in_order_by. apply in_select. }
  assert (Hsame : update_where (listed (map ob_id rows)) swept (obligations (st w))
                  = update_where is_undelivered swept (obligations (st w))).
  { apply update_where_ext. intros r Hr. assert (listed (map ob_id rows) r = is_undelivered r) as ->; [|done].
    apply eq_true_iff_eq. rewrite listed_spec. split.
    - intros (x & Hx & Hxr)%list_elem_of_fmap. apply Hin in Hxr as [Hxr Hu].
      assert (r = x) as -> by (by apply (NoDup_key_eq ob_id (obligations (st w)))). done.
    - intros Hu. apply list_elem_of_fmap. exists r. by rewrite Hin. }
  assert (Hset : set_obligations (update_where (listed (map ob_id rows)) swept) (st w)
                 = set_obligations (update_where is_undelivered swept) (st w)).
  { unfold set_obligations. by rewrite Hsame. }
  unfold sweep_recoverable, bind, query, stmt, exec.
  destruct (faults w) as [|[msg|] rest] eqn:Ef; simpl.
  2: { split; [|done]. exists []. split; [apply prefix_nil|]. destruct (st w).
       unfold set_obligations, update_where. simpl. by rewrite map_id. }
  - destruct (sweep_rows_spec rows (mkWorld (st w) []) Hn) as [Hspec Hok]; [by intros r [? _]%Hin | done |].
    simpl in Hspec, Hok. rewrite Hset in Hspec. by split.
  - destruct (sweep_rows_spec rows (mkWorld (st w) rest) Hn) as [Hspec Hok]; [by intros r [? _]%Hin | done |].
    simpl in Hspec, Hok. rewrite Hset in Hspec. by split.
Qed.
(** *** What the sweep promises

    [dead]: the process a row belongs to has ended, or it belongs to none. *)
Section Dead.
Context (dead : DeliveryObligation -> bool).

Definition too_old (r : DeliveryObligation) : bool := (seconds (stale + 1) <=? now - ob_created_at r)%Z.

(** Its row, afterwards. *)
Definition after_sweep (r : DeliveryObligation) : DeliveryObligation :=
  if negb (dead r) then r
  else if (mx <=? ob_attempts r)%Z || too_old r then
    mkObligation (ob_id r) (ob_session_key r) (ob_channel_id r) (ob_thread_id r) (ob_content r)
      "abandoned" (ob_attempts r) (ob_created_at r) now (ob_owner_pid r) (ob_last_error r) (ob_owner_started_at r)
  else
    mkObligation (ob_id r) (ob_session_key r) (ob_channel_id r) (ob_thread_id r) (ob_content r)
      (ob_state r) (ob_attempts r + 1) (ob_created_at r) now (Some pid) (ob_last_error r) (Some started).

(** The rows returned: what is to be sent again, counted and owned. *)
Definition to_redeliver (rows : list DeliveryObligation) : list DeliveryObligation :=
  map (fun r => mkObligation (ob_id r) (ob_session_key r) (ob_channel_id r) (ob_thread_id r) (ob_content r)
                  (ob_state r) (ob_attempts r + 1) (ob_created_at r) (ob_updated_at r) (Some pid) (ob_last_error r) (Some started))
    (List.filter (fun r => dead r && negb ((mx <=? ob_attempts r)%Z || too_old r)) rows).

(** No other gateway runs on this database: a row that is not this process's is
    of a dead one; the start stamp of this process is on its own rows only. *)
Definition sole_gateway (rows : list DeliveryObligation) : Prop :=
  (0 < pid)%Z /\ is_process_alive (as_u32 pid) = true /\
  forall r, r ∈ rows -> is_undelivered r = true ->
    (dead r = false <-> ob_owner_pid r = Some pid /\ (ob_owner_started_at r = None \/ ob_owner_started_at r = Some started)) /\
    (ob_owner_started_at r = Some started -> ob_owner_pid r = Some pid).

Lemma sole_owned rows r :
  sole_gateway rows -> r ∈ rows -> is_undelivered r = true -> owned_by_this_instance pid started r = negb (dead r).
Proof.
  intros (Hp & Ha & Hr) Hin Hu. destruct (Hr r Hin Hu) as [Hd Hs]. unfold owned_by_this_instance.
  destruct (dead r) eqn:E; simpl.
  - apply not_true_iff_false. intros Ho. destruct (ob_owner_pid r) as [p|] eqn:Ep; [|done].
    apply andb_true_iff in Ho as [_ Ho]. enough (true = false) by done. apply Hd. destruct (ob_owner_started_at r) as [t|].
    + apply String.eqb_eq in Ho as ->. split; [by apply Hs|by right].
    + apply Z.eqb_eq in Ho as ->. split; [done|by left].
  - destruct (proj1 Hd eq_refl) as [-> [->| ->]]; apply andb_true_iff; (split; [apply andb_true_iff; split; [by apply Z.ltb_lt|done]|]).
    + apply Z.eqb_refl.
    + apply String.eqb_refl.
Qed.

Lemma exhausted_alt r : (0 <= stale)%Z -> exhausted mx stale now r = (mx <=? ob_attempts r)%Z || too_old r.
Proof.
  intros H0. unfold exhausted, too_old, age_secs. f_equal. apply eq_true_iff_eq. rewrite Z.ltb_lt, Z.leb_le.
  unfold seconds. assert (0 < NS)%Z by (unfold NS; lia). set (d := (now - ob_created_at r)%Z).
  destruct (Z.lt_ge_cases d 0).
  - pose proof (Z.quot_le_mono d 0 NS ltac:(lia) ltac:(lia)) as K. rewrite Z.quot_0_l in K by lia. split; intros; nia.
  - rewrite Z.quot_div_nonneg by lia. pose proof (Z.div_mod d NS ltac:(lia)). pose proof (Z.mod_pos_bound d NS ltac:(lia)). split; intros; nia.
Qed.

Lemma recovered_swept rows r :
  (0 <= stale)%Z -> sole_gateway rows -> r ∈ rows -> is_undelivered r = true -> swept r = after_sweep r.
Proof.
  intros H0 Hs Hin Hu. unfold Ledger.swept, after_sweep. rewrite (sole_owned rows r), exhausted_alt by done. by destruct (dead r).
Qed.

(** C5: The startup sweep recovers what dead gateways left, whatever statement
    fails.  Where no other gateway runs on the database, the undelivered rows of
    this process stay, an undelivered row of a dead process is abandoned when
    its attempts are used up or it is older than the limit, and every other one
    gets one more attempt and this process for its owner; those, oldest first,
    are what is returned.  A failing statement stops it after a prefix of the
    rows, and when none fails it returns. *)
Theorem sweep_recovers_from_the_dead w :
  (0 <= stale)%Z -> NoDup (map ob_id (obligations (st w))) -> sole_gateway (obligations (st w)) ->
  let rows := order_by ob_created_at (select is_undelivered (obligations (st w))) in
  match sweep_recoverable pid started mx stale now w with
  | (Ok claimed, w') =>
      st w' = set_obligations (update_where is_undelivered after_sweep) (st w) /\ claimed = to_redeliver rows
  | (Err _, w') => exists pre, pre `prefix_of` rows /\
      st w' = set_obligations (update_where (listed (map ob_id pre)) after_sweep) (st w)
  end /\
  (faults w = [] -> exists claimed w', sweep_recoverable pid started mx stale now w = (Ok claimed, w')).
Proof.
  intros H0 Hn Hs rows. pose proof (sweep_spec w Hn) as [K T]. fold rows in K. split; [|exact T].
  assert (Hrows : forall r, r ∈ rows -> r ∈ obligations (st w) /\ is_undelivered r = true).
  { intros r Hr. unfold rows in Hr. by rewrite in_order_by, in_select in Hr. }
  destruct (sweep_recoverable pid started mx stale now w) as [[claimed|e] w'].
  - destruct K as [-> ->]. split.
    + unfold set_obligations. f_equal. unfold update_where. apply map_ext_in. intros r Hr.
      destruct (is_undelivered r) eqn:Hu; [|done]. by apply (recovered_swept (obligations (st w))); [..|apply list_elem_of_In|].
    + unfold to_redeliver, select. assert (E : forall l, (forall r, r ∈ l -> r ∈ obligations (st w) /\ is_undelivered r = true) ->
        List.filter (takes pid started mx stale now) l = List.filter (fun r => dead r && negb ((mx <=? ob_attempts r)%Z || too_old r)) l).
      { intros l Hl. apply filter_ext_in. intros r Hr%list_elem_of_In. destruct (Hl r Hr). unfold takes.
        rewrite (sole_owned (obligations (st w)) r), exhausted_alt, negb_involutive by done. done. }
      by rewrite E.
  - destruct K as (pre & Hp & ->). exists pre. split; [done|]. unfold set_obligations. f_equal. unfold update_where. apply map_ext_in. intros r Hr.
    destruct (listed (map ob_id pre) r) eqn:El; [|done]. apply listed_spec, list_elem_of_fmap in El as (x & Hx & Hin).
    assert (x ∈ rows) as [Hxo Hu]%Hrows by (destruct Hp as [post ->]; apply elem_of_app; by left).
    assert (r = x) as -> by (apply (NoDup_key_eq ob_id (obligations (st w))); [done|by apply list_elem_of_In|done|done]).
    by apply (recovered_swept (obligations (st w))).
Qed.
End Dead.
End Sweep.

(** ** Claims of concurrent sweeps *)

(** The claiming statements of several processes, in the order the database
    runs them.  Each process read the rows before any of the statements ran,
    so all carry the same [snapshot] of the owner of a row. *)
Record claim_attempt : Type := mkAttempt { ca_id : string; ca_pid : Z; ca_started : string; ca_now : Z }.

Fixpoint contend (snapshot : string -> option Z) (l : list claim_attempt) (s : LedgerState) :
    list (string * Z) * LedgerState :=
  match l with
  | [] => ([], s)
  | a :: rest =>
      let '(n, s1) := claim_obligation (ca_id a) (snapshot (ca_id a)) (ca_pid a) (ca_started a) (ca_now a) s in
      let '(winners, s2) := contend snapshot rest s1 in
      ((if (0 <? n)%nat then [(ca_id a, ca_pid a)] else []) ++ winners, s2)%list
  end.

Definition owned_by (id : string) (p : Z) (s : LedgerState) : Prop :=
  forall r, r ∈ obligations s -> ob_id r = id -> ob_owner_pid r = Some p.

Lemma claim_keeps_owner id p snapshot a s :
  owned_by id p s -> snapshot <> Some p -> (ca_id a = id -> ca_pid a = p \/ snapshot <> Some p) ->
  owned_by id p (snd (claim_obligation (ca_id a) snapshot (ca_pid a) (ca_started a) (ca_now a) s)).
Proof.
  intros Ho Hs _ r. simpl. intros (r0 & Hr0 & ->)%in_update_where Hid.
  destruct (claimable _ _ _ r0) eqn:E; [|by apply Ho].
  simpl in *. unfold claimable in E. apply andb_true_iff in E as [_ E]. rewrite (Ho r0 Hr0 Hid) in E.
  f_equal. destruct snapshot as [o|]; simpl in E.
  - apply orb_true_iff in E as [E|E]; apply Z.eqb_eq in E; congruence.
  - by apply Z.eqb_eq in E.
Qed.

Lemma contend_owner id p snapshot l s :
  owned_by id p s -> snapshot id <> Some p ->
  (forall q, (id, q) ∈ fst (contend snapshot l s) -> q = p).
Proof.
  intros Ho Hs q. revert s Ho. induction l as [|a l IH]; intros s Ho; simpl.
  { intros H'. by apply not_elem_of_nil in H'. }
  destruct (contend snapshot l _) as [winners s2] eqn:E. simpl.
  intros [Hw|Hw]%elem_of_app.
  - destruct (Nat.ltb_spec 0 (count (claimable (ca_id a) (snapshot (ca_id a)) (ca_pid a)) (obligations s)));
      [|by apply not_elem_of_nil in Hw].
    apply list_elem_of_singleton in Hw as [= Hid ->].
    destruct (decide (ca_pid a = p)) as [|Hne]; [done|].
    enough (count (claimable (ca_id a) (snapshot (ca_id a)) (ca_pid a)) (obligations s) = 0) by lia.
    apply count_zero. intros r Hr. unfold claimable. destruct (has_id (ca_id a) r) eqn:Eid; [|done].
    apply String.eqb_eq in Eid. rewrite (Ho r Hr) by congruence. simpl.
    apply orb_false_iff. split; [|apply Z.eqb_neq; congruence].
    destruct (snapshot (ca_id a)) eqn:Esn; [|done]. apply Z.eqb_neq. congruence.
  - eapply (IH _); [|by rewrite E].
    intros r (r0 & Hr0 & ->)%in_update_where Hid. destruct (claimable _ _ _ r0) eqn:Ec; [|by apply Ho].
    simpl in *. unfold claimable in Ec. apply andb_true_iff in Ec as [Eid Ec].
    rewrite (Ho r0 Hr0 Hid) in Ec. apply String.eqb_eq in Eid. f_equal.
    apply orb_true_iff in Ec as [Ec|Ec]; [|by apply Z.eqb_eq in Ec].
    destruct (snapshot (ca_id a)) eqn:Esn; [|done]. apply Z.eqb_eq in Ec. congruence.
Qed.

(** Two gateway processes never both take over one obligation.  Whatever
    the interleaving of their claiming statements after reading the same rows,
    the winners of a row are all the same process, provided no claimant was
    already the recorded owner. *)
Theorem concurrent_sweeps_exclusive snapshot l s id p q :
  NoDup (map ob_id (obligations s)) ->
  (forall a, a ∈ l -> snapshot (ca_id a) <> Some (ca_pid a)) ->
  (id, p) ∈ fst (contend snapshot l s) -> (id, q) ∈ fst (contend snapshot l s) -> p = q.
Proof.
  revert s. induction l as [|a l IH]; intros s Hn Hl; simpl.
  { intros H'. by apply not_elem_of_nil in H'. }
  set (s1 := set_obligations _ s).
  assert (Hn1 : NoDup (map ob_id (obligations s1))) by (unfold s1; simpl; by rewrite map_update_where).
  assert (Hl' : forall x, x ∈ l -> snapshot (ca_id x) <> Some (ca_pid x)) by (intros x Hx; apply Hl; by right).
  assert (Hhead : 0 < count (claimable (ca_id a) (snapshot (ca_id a)) (ca_pid a)) (obligations s) ->
    forall q', (ca_id a, q') ∈ fst (contend snapshot l s1) -> q' = ca_pid a).
  { intros Hc. apply contend_owner; [|apply Hl; left].
    intros r (r0 & Hr0 & ->)%in_update_where Hid.
    destruct (claimable _ _ _ r0) eqn:Ec; [done|].
    assert (count (claimable (ca_id a) (snapshot (ca_id a)) (ca_pid a)) (obligations s) = 0); [|lia].
    apply count_zero. intros x Hx. destruct (claimable _ _ _ x) eqn:Ex; [|done].
    assert (Hxid := Ex). unfold claimable in Hxid. apply andb_true_iff in Hxid as [Hxid _].
    apply String.eqb_eq in Hxid. assert (x = r0) as ->; [|congruence].
    apply (NoDup_key_eq ob_id (obligations s)); congruence. }
  specialize (IH s1 Hn1 Hl'). destruct (contend snapshot l s1) as [winners s2] eqn:E. simpl in *.
  destruct (Nat.ltb_spec 0 (count (claimable (ca_id a) (snapshot (ca_id a)) (ca_pid a)) (obligations s)))
    as [Hc|Hc]; simpl; [|by apply IH].
  specialize (Hhead Hc).
  intros Hp Hq. apply elem_of_cons in Hp as [Hp|Hp], Hq as [Hq|Hq]; simplify_eq; [done| | |by apply IH].
  - symmetry. by apply Hhead.
  - by apply Hhead.
Qed.

(** ** Pruning *)

Lemma listed_terminal excess T :
  NoDup (map ob_id T) ->
  let ids := oldest_terminal excess T in
  (forall r, r ∈ T -> listed ids r = true -> is_terminal r = true) /\
  count (fun r => is_terminal r && listed ids r) T = Nat.min excess (count is_terminal T) /\
  (forall a b, a ∈ T -> listed ids a = true -> b ∈ T -> listed ids b = false -> is_terminal b = true ->
     (ob_updated_at a <= ob_updated_at b)%Z).
Proof.
  intros Hn ids. set (sorted := order_by ob_updated_at (select is_terminal T)).
  assert (Hids : ids = map ob_id (take excess sorted)) by done.
  assert (Hsorted : forall r, r ∈ sorted <-> r ∈ T /\ is_terminal r = true).
  { intros r. unfold sorted. rewrite in_order_by. apply in_select. }
  assert (Hlisted : forall r, r ∈ T -> listed ids r = true <-> r ∈ take excess sorted).
  { intros r Hr. rewrite listed_spec, Hids. split.
    - intros (x & Hx & Hxs)%list_elem_of_fmap. assert (x ∈ T) as HxT.
      { apply Hsorted. rewrite <- (take_drop excess sorted). apply elem_of_app. by left. }
      assert (r = x) as -> by (by apply (NoDup_key_eq ob_id T)). done.
    - intros Hx. apply list_elem_of_fmap. eauto. }
  assert (Hns : NoDup (map ob_id sorted)) by by apply NoDup_map_order_by, NoDup_map_select.
  split; [|split].
  - intros r Hr Hl. apply Hlisted in Hl; [|done]. apply Hsorted.
    rewrite <- (take_drop excess sorted). apply elem_of_app. by left.
  - assert (Hc : count (fun r => is_terminal r && listed ids r) T = count (listed ids) sorted).
    { unfold sorted. by rewrite (count_perm _ _ _ (order_by_perm _ _)), count_select. }
    rewrite Hc, <- (take_drop excess sorted), count_app.
    rewrite (count_all (listed ids) (take excess sorted)), length_take.
    + assert (count (listed ids) (drop excess sorted) = 0) as ->.
      { apply count_zero. intros r Hr. destruct (listed ids r) eqn:El; [|done].
        apply Hlisted in El; [|apply Hsorted; rewrite <- (take_drop excess sorted); apply elem_of_app; by right].
        rewrite <- (take_drop excess sorted), map_app in Hns. apply NoDup_app in Hns as (_ & Hd & _).
        destruct (Hd (ob_id r)); apply list_elem_of_fmap; eauto. }
      unfold sorted. rewrite length_order_by. unfold count. lia.
    + intros r Hr. apply Hlisted; [|done]. apply Hsorted. rewrite <- (take_drop excess sorted).
      apply elem_of_app. by left.
  - intros a b Ha Hla Hb Hlb Ht. apply Hlisted in Hla; [|done].
    apply (sorted_take_drop ob_updated_at sorted excess); [apply order_by_sorted | done |].
    assert (Hbs : b ∈ sorted) by by apply Hsorted.
    rewrite <- (take_drop excess sorted) in Hbs. apply elem_of_app in Hbs as [Hbs|]; [|done].
    apply Hlisted in Hbs; [congruence | done].
Qed.

(** Pruning never touches an obligation still owed, leaves at most the
    configured number of terminal rows, none older than the cutoff, never
    keeps an older terminal row in place of a younger one it removed, and
    reports how many rows it removed. *)
Theorem prune_bounds_terminal retention keep now s :
  NoDup (map ob_id (obligations s)) ->
  let cutoff := (now - seconds retention)%Z in
  exists n s', run (prune_terminal_obligations retention keep now) s = (Ok n, s') /\
    s' = set_obligations (fun _ => obligations s') s /\
    select (fun r => negb (is_terminal r)) (obligations s') = select (fun r => negb (is_terminal r)) (obligations s) /\
    (forall r, r ∈ obligations s' -> r ∈ obligations s /\ expired_terminal cutoff r = false) /\
    (Z.of_nat (count is_terminal (obligations s')) <= Z.max 0 keep)%Z /\
    (forall a b, a ∈ obligations s -> expired_terminal cutoff a = false -> a ∉ obligations s' ->
       b ∈ obligations s' -> is_terminal b = true -> (ob_updated_at a <= ob_updated_at b)%Z) /\
    n + length (obligations s') = length (obligations s).
Proof.
  intros Hn cutoff. unfold prune_terminal_obligations.
  set (T := obligations s). set (T1 := delete_where (expired_terminal cutoff) T).
  assert (Hn1 : NoDup (map ob_id T1)) by by apply NoDup_map_delete.
  assert (Hin1 : forall r, r ∈ T1 <-> r ∈ T /\ expired_terminal cutoff r = false) by (intros r; apply in_delete_where).
  assert (Hnt1 : select (fun r => negb (is_terminal r)) T1 = select (fun r => negb (is_terminal r)) T).
  { apply select_delete. intros r _ Hr. unfold expired_terminal. by destruct (is_terminal r). }
  pose proof (length_delete (expired_terminal cutoff) T) as Hlen1. fold T1 in Hlen1.
  destruct (Z.ltb_spec keep (Z.of_nat (count is_terminal T1))) as [Hk|Hk].
  - set (excess := Z.to_nat (Z.of_nat (count is_terminal T1) - keep)).
    set (ids := oldest_terminal excess T1). set (T2 := delete_where (listed ids) T1).
    exists (count (expired_terminal cutoff) T + count (listed ids) T1), (set_obligations (fun _ => T2) s).
    split.
    { apply run_intro. rewrite bind_stmt. cbv beta zeta. rewrite bind_attempt_query. cbn [fst snd]. fold cutoff.
      change (obligations (set_obligations (delete_where (expired_terminal cutoff)) s)) with T1.
      by rewrite (proj2 (Z.ltb_lt _ _) Hk), bind_stmt. }
    destruct (listed_terminal excess T1 Hn1) as (Hlt & Hcnt & Hold). fold ids in Hlt, Hcnt, Hold.
    pose proof (length_delete (listed ids) T1) as Hlen2. fold T2 in Hlen2.
    cbn [obligations set_obligations].
    split; [done|]. split; [|split; [|split; [|split]]].
    + rewrite <- Hnt1. apply select_delete. intros r Hr Ht. destruct (listed ids r) eqn:El; [|done].
      apply Hlt in El; [|done]. by rewrite El in Ht.
    + intros r [Hr _]%in_delete_where. by apply Hin1.
    + unfold T2. rewrite count_delete.
      pose proof (count_split is_terminal (listed ids) T1) as Hsp. lia.
    + intros a b Ha He Hno [Hb Hlb]%in_delete_where Ht. apply (Hold a b); try done.
      * by apply Hin1.
      * destruct (listed ids a) eqn:El; [done|]. destruct Hno. apply in_delete_where. split; [by apply Hin1 | done].
    + unfold T2 in *. lia.
  - exists (count (expired_terminal cutoff) T), (set_obligations (fun _ => T1) s). split.
    { apply run_intro. rewrite bind_stmt. cbv beta zeta. rewrite bind_attempt_query. cbn [fst snd]. fold cutoff.
      change (obligations (set_obligations (delete_where (expired_terminal cutoff)) s)) with T1.
      by rewrite (proj2 (Z.ltb_ge _ _) Hk). }
    cbn [obligations set_obligations].
    split; [done|]. split; [done|]. split; [intros r Hr; by apply Hin1|]. split; [lia|].
    split; [|lia]. intros a b Ha He Hno. destruct Hno. by apply Hin1.
Qed.

(** ** Replay after a reconnection *)

Section Replay.
Context (pid : Z) (started bot : string) (mx stale now : Z).

(** A row of the table [T] after the replay: as it was, or a failed row of this
    process and bot, retried. *)
Definition replayed_from (T : list DeliveryObligation) (r : DeliveryObligation) : Prop :=
  r ∈ T \/ exists r0, r0 ∈ T /\ owned_failed pid started r0 = true /\
    replayable bot mx stale now r0 = true /\ r = retry_row now r0.

(** The loop: rows still to do are as they were read. *)
Definition replaying (T rows : list DeliveryObligation) (s0 s : LedgerState) : Prop :=
  s = set_obligations (fun _ => obligations s) s0 /\
  map ob_id (obligations s) = map ob_id T /\
  (forall r, r ∈ rows -> r ∈ obligations s /\ r ∈ T /\ owned_failed pid started r = true) /\
  (forall r, r ∈ obligations s -> replayed_from T r).

Lemma replay_rows_spec T rows s0 :
  NoDup (map ob_id T) -> NoDup (map ob_id rows) ->
  triple (replaying T rows s0) (replay_rows bot mx stale now rows)
    (fun claimed s => replaying T [] s0 s /\
       claimed = map retried (select (replayable bot mx stale now) rows))
    (replaying T [] s0).
Proof.
  intros Hn. assert (Hweak : forall l s, replaying T l s0 s -> replaying T [] s0 s).
  { intros l s (Hs & H1 & _ & H3). do 2 (split; [done|]). split; [|done].
    intros r Hr. by apply not_elem_of_nil in Hr. }
  induction rows as [|row rows IH]; intros Hd; [by apply triple_ret|].
  apply NoDup_cons in Hd as [Hrow Hd]. specialize (IH Hd).
  assert (Htail : forall s, replaying T (row :: rows) s0 s -> replaying T rows s0 s).
  { intros s (Hs & H1 & H2 & H3). do 2 (split; [done|]). split; [|done].
    intros r Hr. apply H2. by right. }
  simpl. destruct (replayable bot mx stale now row) eqn:Er; simpl.
  2: { eapply triple_weaken; [exact IH | exact Htail | done | done]. }
  eapply triple_bind with (R := fun n s => n = 1 /\ replaying T rows s0 s).
  - apply triple_stmt; [intros s ?; by eapply Hweak|]. intros s Hs.
    pose proof (Htail s Hs) as Ht. destruct Hs as (Hs & H1 & H2 & H3). simpl.
    destruct (H2 row) as (Hin & HinT & Ho); [left|].
    assert (Hns : NoDup (map ob_id (obligations s))) by by rewrite H1.
    assert (Heq : forall r, r ∈ obligations s -> still_failed (ob_id row) r = bool_decide (ob_id r = ob_id row)).
    { intros r Hr. unfold still_failed, has_id. destruct (String.eqb_spec (ob_id r) (ob_id row)) as [E|E].
      - rewrite bool_decide_true by done. assert (r = row) as -> by (by apply (NoDup_key_eq ob_id (obligations s))).
        unfold owned_failed in Ho. by apply andb_true_iff in Ho as [[? _]%andb_true_iff _].
      - by rewrite bool_decide_false. }
    split; [by apply (count_key ob_id _ _ row)|].
    split; [by rewrite Hs|]. cbn [obligations set_obligations].
    split; [by rewrite map_update_where|]. split.
    + intros r Hr. destruct Ht as (_ & _ & H2' & _). destruct (H2' r Hr) as (? & ? & ?). split; [|done].
      eapply (in_update_other _ row); [done | |].
      * intros E. apply Hrow. rewrite <- E. apply list_elem_of_fmap. eauto.
      * intros x [Hx _]%andb_true_iff. by apply String.eqb_eq.
    + intros r (r0 & Hr0 & ->)%in_update_where. rewrite Heq by done.
      case_bool_decide; [|by apply H3].
      assert (r0 = row) as -> by (by apply (NoDup_key_eq ob_id (obligations s))). right. by exists row.
  - intros n. eapply triple_bind with (R := fun claimed s => n = 1 /\ replaying T [] s0 s /\
       claimed = map retried (select (replayable bot mx stale now) rows)).
    + intros w [-> Hw]. specialize (IH w Hw). destruct (replay_rows bot mx stale now rows w) as [[cl|e] w']; [|done].
      by destruct IH.
    + intros cl. apply triple_ret. intros s (-> & Hs & ->). by split.
Qed.

Lemma sweep_failed_spec s0 :
  NoDup (map ob_id (obligations s0)) ->
  triple (fun s => s = s0) (sweep_failed_for_runtime pid started bot mx stale now)
    (fun claimed s => replaying (obligations s0) [] s0 s /\
       claimed = map retried (select (replayable bot mx stale now)
         (order_by ob_created_at (select (owned_failed pid started) (obligations s0)))))
    (replaying (obligations s0) [] s0).
Proof.
  intros Hn. assert (Hinit : forall rows, (forall r, r ∈ rows -> r ∈ obligations s0 /\ owned_failed pid started r = true) ->
    replaying (obligations s0) rows s0 s0).
  { intros rows Hr. split; [by destruct s0|]. split; [done|]. split; [|intros r ?; by left].
    intros r Hi. destruct (Hr r Hi). done. }
  unfold sweep_failed_for_runtime. eapply triple_bind; [apply triple_query|].
  - intros s ->. apply Hinit. intros r Hr. by apply not_elem_of_nil in Hr.
  - intros rows. cbv beta. intros w [Hrows Hw]. rewrite Hw in Hrows.
    pose proof (replay_rows_spec (obligations s0) rows s0 Hn) as Hspec. rewrite <- Hrows. apply Hspec.
    + rewrite Hrows. by apply NoDup_map_order_by, NoDup_map_select.
    + rewrite Hw. apply Hinit. intros r. rewrite Hrows, in_order_by. apply in_select.
Qed.

(** The reconnect sweep resends only what is safe to resend.  It claims
    exactly the failed rows of this process and bot whose last error is a
    transient transport error (never a 403, a refusal of permission or a
    timeout) and that are neither exhausted nor stale; each gets one more
    attempt and returns to [attempting]; whatever statement fails, every other
    row, and every other table, is as it was. *)
Theorem replay_only_transient_failures w :
  NoDup (map ob_id (obligations (st w))) ->
  let T := obligations (st w) in
  let '(r, w') := sweep_failed_for_runtime pid started bot mx stale now w in
  st w' = set_obligations (fun _ => obligations (st w')) (st w) /\
  map ob_id (obligations (st w')) = map ob_id T /\
  (forall x, x ∈ obligations (st w') -> replayed_from T x) /\
  (forall claimed, r = Ok claimed ->
     claimed = map retried (select (replayable bot mx stale now)
       (order_by ob_created_at (select (owned_failed pid started) T))) /\
     forall x, x ∈ claimed -> ob_state x = "attempting" /\ (ob_attempts x <= mx)%Z /\
       exists err, ob_last_error x = Some err /\ contains "403" (to_ascii_lowercase err) = false
         /\ contains "timeout" (to_ascii_lowercase err) = false).
Proof.
  intros Hn T. pose proof (sweep_failed_spec (st w) Hn w eq_refl) as Hspec. fold T in Hspec.
  destruct (sweep_failed_for_runtime _ _ _ _ _ _ w) as [[cl|e] w'].
  - destruct Hspec as [(H1 & H2 & _ & H4) Hcl]. do 3 (split; [done|]). intros claimed [= <-].
    split; [done|]. subst cl. intros x (r & -> & [_ Hr]%in_select)%list_elem_of_fmap.
    unfold replayable, exhausted, is_retryable_transport in Hr.
    apply andb_true_iff in Hr as [[_ Hr]%andb_true_iff Hx]. apply negb_true_iff, orb_false_iff in Hx as [Hx _].
    split; [done|]. split; [simpl; lia|]. simpl. destruct (ob_last_error r) as [err|]; [|done].
    exists err. split; [done|]. apply andb_true_iff in Hr as [[[_ H403]%andb_true_iff _]%andb_true_iff Hto].
    by apply negb_true_iff in H403, Hto.
  - destruct Hspec as (H1 & H2 & _ & H4). by do 3 (split; [done|]).
Qed.
End Replay.

(** ** The invariant of the tables *)

(** Keys are unique, rows refer to stored sessions, states and statuses are
    those of the code, and no obligation was attempted more than [K] times. *)
Record ledger_ok (K : Z) (s : LedgerState) : Prop := {
  messages_unique : NoDup (map message_id (deliveries s));
  obligations_unique : NoDup (map ob_id (obligations s));
  constituents_unique : NoDup (map snd (constituents s));
  deliveries_ok : forall r, r ∈ deliveries s ->
    has_session (dl_session_key r) s = true /\ exists st, status r = status_name st;
  obligations_ok : forall r, r ∈ obligations s ->
    has_session (ob_session_key r) s = true /\ (exists st, ob_state r = as_str st) /\
    (0 <= ob_attempts r <= K)%Z
}.

Lemma has_session_mono key s row : has_session key s = true ->
  has_session key (set_sessions (fun t => (t ++ [row])%list) s) = true.
Proof.
  unfold has_session. simpl. intros Hs. rewrite existsb_app, Hs. done.
Qed.

Lemma session_ok K session : preserves (ledger_ok K) (ensure_session session).
Proof.
  unfold ensure_session. preserve_steps. intros s [H1 H2 H3 H4 H5]. simpl.
  case_match; [by split|]. split; try done; simpl.
  - intros r Hr. destruct (H4 r Hr). split; [by apply has_session_mono | done].
  - intros r Hr. destruct (H5 r Hr). split; [by apply has_session_mono | done].
Qed.

Lemma add_delivery_ok K row s :
  ledger_ok K s -> has_session (dl_session_key row) s = true -> status row = "in_progress" ->
  existsb (has_message (message_id row)) (deliveries s) = false ->
  ledger_ok K (set_deliveries (fun t => (t ++ [row])%list) s).
Proof.
  intros [H1 H2 H3 H4 H5] Hs Hst He. split; simpl; try done.
  - rewrite map_app. apply NoDup_snoc; [done|]. intros (r & E & Hr)%list_elem_of_fmap.
    rewrite existsb_false in He. specialize (He r Hr). unfold has_message in He.
    rewrite E, String.eqb_refl in He. done.
  - intros r [Hr| ->%list_elem_of_singleton]%elem_of_app; [by apply H4|]. split; [done|]. by exists StInProgress.
Qed.

Lemma update_delivery_ok K p f s :
  (forall r, message_id (f r) = message_id r) -> (forall r, dl_session_key (f r) = dl_session_key r) ->
  (forall r, exists st, status (f r) = status_name st) ->
  ledger_ok K s -> ledger_ok K (set_deliveries (update_where p f) s).
Proof.
  intros Hm Hk Hs [H1 H2 H3 H4 H5]. split; simpl; try done; [by rewrite map_update_where|].
  intros r (r0 & Hr0 & ->)%in_update_where. destruct (H4 r0 Hr0). destruct (p r0); [|done].
  rewrite Hk. done.
Qed.

Lemma link_ok K parent c : preserves (ledger_ok K) (link_constituent parent c).
Proof.
  unfold link_constituent. preserve_steps. intros s [H1 H2 H3 H4 H5]. split; try done. simpl.
  destruct (existsb _ _) eqn:E; [by rewrite map_update_where|]. rewrite map_app. apply NoDup_snoc; [done|].
  intros (r & Er & Hr)%list_elem_of_fmap. rewrite existsb_false in E. specialize (E r Hr).
  by rewrite <- Er, String.eqb_refl in E.
Qed.

Lemma update_obligation_ok K p f s :
  (forall r, ob_id (f r) = ob_id r) ->
  (forall r, r ∈ obligations s -> p r = true -> ob_session_key (f r) = ob_session_key r /\
     (exists st, ob_state (f r) = as_str st) /\ (0 <= ob_attempts (f r) <= K)%Z) ->
  ledger_ok K s -> ledger_ok K (set_obligations (update_where p f) s).
Proof.
  intros Hi Hf [H1 H2 H3 H4 H5]. split; simpl; try done; [by rewrite map_update_where|].
  intros r (r0 & Hr0 & ->)%in_update_where. destruct (H5 r0 Hr0) as (Hs & Hst & Ha).
  destruct (p r0) eqn:E; [|done]. destruct (Hf r0 Hr0 E) as (-> & ? & ?). done.
Qed.

Lemma swept_ok K pid started mx stale now p s :
  (mx <= K)%Z -> ledger_ok K s ->
  ledger_ok K (set_obligations (update_where p (swept pid started mx stale now)) s).
Proof.
  intros HK Hs. apply update_obligation_ok; [apply swept_id| |done].
  intros r Hr _. destruct (obligations_ok K s Hs r Hr) as (_ & Hst & Ha). unfold swept.
  destruct (owned_by_this_instance pid started r); [done|].
  destruct (exhausted mx stale now r) eqn:E; simpl.
  - split; [done|]. split; [by exists ObAbandoned | done].
  - split; [done|]. split; [done|]. unfold exhausted in E. apply orb_false_iff in E as [E _]. lia.
Qed.

Lemma complete_ok K m st error now : preserves (ledger_ok K) (complete m st error now).
Proof.
  unfold complete, ensure_constituents_table. preserve_steps; try done;
    intros s Hs; simpl; (apply update_delivery_ok; [done | done | intros r; by exists st | done]).
Qed.

Lemma record_ok K e id uuid : preserves (ledger_ok K) (record_incoming_as e id uuid).
Proof.
  unfold record_incoming_as. preserve_steps; [apply session_ok|]. intros s Hs. unfold claim_delivery.
  destruct (has_session _ s) eqn:Ek; simpl; [|done]. destruct (existsb _ _) eqn:Ex; simpl.
  - apply update_delivery_ok; [done | done | intros r; by exists StInProgress | done].
  - by apply add_delivery_ok.
Qed.

Lemma merged_ok K e id cs uuid : preserves (ledger_ok K) (record_incoming_with_constituents e id cs uuid).
Proof.
  unfold record_incoming_with_constituents, ensure_constituents_table, is_duplicate.
  assert (Hany : forall l, preserves (ledger_ok K) (any_duplicate l)).
  { induction l as [|c l IH]; simpl; preserve_steps; try done. by apply preserves_query. }
  preserve_steps; try done; try apply session_ok; try apply Hany; try apply record_ok; try apply link_ok.
  unfold record_constituent. preserve_steps; try apply link_ok.
  intros s Hs. unfold insert_constituent_delivery. destruct (has_session _ s) eqn:Ek; simpl; [|done].
  destruct (existsb _ _) eqn:Ex; simpl; [done|]. by apply add_delivery_ok.
Qed.

Lemma sweep_ok K pid started mx stale now :
  (mx <= K)%Z -> preserves (ledger_ok K) (sweep_recoverable pid started mx stale now).
Proof.
  intros HK w Hw. pose proof (sweep_spec pid started mx stale now w (obligations_unique K _ Hw)) as [Hs _].
  destruct (sweep_recoverable _ _ _ _ _ w) as [[cl|e] w']; simpl.
  - destruct Hs as [-> _]. by apply swept_ok.
  - destruct Hs as (pre & _ & ->). by apply swept_ok.
Qed.

Lemma replay_ok K pid started bot mx stale now :
  (mx <= K)%Z -> preserves (ledger_ok K) (sweep_failed_for_runtime pid started bot mx stale now).
Proof.
  intros HK w Hw. pose proof (sweep_failed_spec pid started bot mx stale now (st w) (obligations_unique K _ Hw) w eq_refl) as Hs.
  assert (Hr : replaying pid started bot mx stale now (obligations (st w)) [] (st w)
                 (st (snd (sweep_failed_for_runtime pid started bot mx stale now w)))).
  { destruct (sweep_failed_for_runtime _ _ _ _ _ _ w) as [[cl|e] w']; [apply Hs | done]. }
  revert Hr. generalize (st (snd (sweep_failed_for_runtime pid started bot mx stale now w))).
  intros s (-> & Hids & _ & Hgood). simpl in Hids. destruct Hw as [H1 H2 H3 H4 H5]. split; try done; simpl.
  - by rewrite Hids.
  - intros r Hr. destruct (Hgood r Hr) as [Hin|(r0 & Hin & _ & Hrep & ->)]; [by apply H5|].
    destruct (H5 r0 Hin) as (Hk & _ & Ha). split; [done|]. split; [by exists ObAttempting|]. simpl.
    unfold replayable, exhausted in Hrep. apply andb_true_iff in Hrep as [_ Hx].
    apply negb_true_iff, orb_false_iff in Hx as [Hx _]. lia.
Qed.

Lemma ledger_perform_ok K o :
  (0 <= K)%Z ->
  (forall pid started mx stale now, o = OpSweep pid started mx stale now -> (mx <= K)%Z) ->
  (forall pid started bot mx stale now, o = OpReplay pid started bot mx stale now -> (mx <= K)%Z) ->
  preserves (ledger_ok K) (perform o).
Proof.
  intros HK Hs Hr. destruct o; simpl; try (apply preserves_bind; [|intros ?; apply preserves_ret]).
  - apply record_ok.
  - apply merged_ok.
  - apply complete_ok.
  - apply complete_ok.
  - unfold record_obligation. preserve_steps; [apply session_ok|]. intros s Hok. unfold upsert_obligation.
    destruct (has_session _ s) eqn:Ek; simpl; [|done]. destruct (existsb _ _) eqn:Ex; simpl.
    + apply update_obligation_ok; [done| |done]. intros r Hin _.
      destruct (obligations_ok K s Hok r Hin) as (_ & ? & ?). done.
    + destruct Hok as [H1 H2 H3 H4 H5]. split; simpl; try done.
      * rewrite map_app. apply NoDup_snoc; [done|]. intros (r & E & Hin)%list_elem_of_fmap.
        rewrite existsb_false in Ex. specialize (Ex r Hin). unfold has_id in Ex. simpl in Ex, E.
        by rewrite <- E, String.eqb_refl in Ex.
      * intros r [Hin| ->%list_elem_of_singleton]%elem_of_app; [by apply H5|]. simpl.
        split; [done|]. split; [by exists ObPending | lia].
  - unfold update_obligation_state. preserve_steps; try done. intros s Hok. simpl.
    apply update_obligation_ok; [done| |done]. intros r Hin _.
    destruct (obligations_ok K s Hok r Hin) as (_ & ? & ?). split; [done|]. split; [by eexists | done].
  - eapply sweep_ok, Hs. done.
  - eapply replay_ok, Hr. done.
  - assert (Hdel : forall p s, ledger_ok K s -> ledger_ok K (set_obligations (delete_where p) s)).
    { intros p s [H1 H2 H3 H4 H5]. split; simpl; try done; [by apply NoDup_map_delete|].
      intros r [Hin _]%in_delete_where. by apply H5. }
    unfold prune_terminal_obligations. preserve_steps; intros s Hok; try done; by apply Hdel.
Qed.

(** The limits of an operation sequence. *)
Definition within (K : Z) (o : ledger_op) : Prop :=
  match o with OpSweep _ _ mx _ _ | OpReplay _ _ _ mx _ _ => (mx <= K)%Z | _ => True end.

(** The tables stay well-formed under every operation sequence and every
    statement failure: message ids, obligation ids and constituents are
    unique, every row refers to a stored session, states and statuses are
    those of the code, and no obligation is ever attempted more often than
    the largest [max_attempts] used. *)
Theorem ledger_store_invariant K ops w rs w' :
  (0 <= K)%Z -> ledger_ok K (st w) -> Forall (within K) ops -> run_ops ops w = (rs, w') ->
  ledger_ok K (st w').
Proof.
  intros HK Hw Hops. revert w rs Hw. induction Hops as [|o ops Ho Hops IH]; intros w rs Hw; simpl.
  { by intros [= <- <-]. }
  assert (Hp : ledger_ok K (st (snd (perform o w)))).
  { apply ledger_perform_ok; [done | by intros * -> | by intros * -> | done]. }
  destruct (perform o w) as [r w1]. simpl in Hp.
  destruct (run_ops ops w1) as [rs' w2] eqn:E. intros [= <- <-]. by eapply IH.
Qed.

(** ** Merged deliveries *)

(** [c] has a row and is closed together with [d]. *)
Definition covered (d c : string) (s : LedgerState) : Prop :=
  (exists r, r ∈ deliveries s /\ message_id r = c) /\ (c = d \/ (d, c) ∈ constituents s).

Definition merged_progress (e : InboundEvent) (d : string) (done : list string) (s : LedgerState) : Prop :=
  has_session (storage_key (ev_session e)) s = true /\ forall c, c ∈ done -> covered d c s.

Lemma covered_link d c x s :
  covered d c s -> covered d c (snd ((fun s => (tt, set_constituents (fun t =>
    if existsb (fun r => String.eqb (snd r) x) t
    then update_where (fun r => String.eqb (snd r) x) (fun r => (d, snd r)) t
    else (t ++ [(d, x)])%list) s)) s)).
Proof.
  intros [Hr Hc]. split; [done|]. destruct Hc as [|Hc]; [by left | right]. simpl.
  case_match; [|apply elem_of_app; by left]. apply in_update_where. exists (d, c). simpl.
  by case_match.
Qed.

Lemma link_covers e d x xs :
  total (fun s => merged_progress e d xs s /\ exists r, r ∈ deliveries s /\ message_id r = x)
    (link_constituent d x) (fun _ => merged_progress e d (x :: xs)).
Proof.
  apply total_stmt. intros s [[Hs Hd] Hx]. split; [done|]. intros c [->|Hc]%elem_of_cons.
  - split; [done|]. right. simpl. destruct (existsb _ _) eqn:E.
    + apply existsb_exists in E as ([p c] & Hin & Hc%String.eqb_eq). simpl in Hc. subst c.
      apply in_update_where. exists (p, x). simpl. rewrite String.eqb_refl.
      split; [by apply list_elem_of_In | done].
    + apply elem_of_app. right. by apply list_elem_of_singleton.
  - apply covered_link. by apply Hd.
Qed.

Lemma constituent_covers e d uuid c xs :
  d ∈ xs -> total (merged_progress e d xs) (record_constituent e d uuid c)
    (fun _ => merged_progress e d (c :: xs)).
Proof.
  intros Hdx. unfold record_constituent. destruct (String.eqb_spec c d) as [->|Hne].
  { apply total_ret. intros s [Hs Hd]. split; [done|]. intros x [->|Hx]%elem_of_cons; by apply Hd. }
  eapply total_bind with (R := fun _ s => merged_progress e d xs s /\ exists r, r ∈ deliveries s /\ message_id r = c).
  - apply total_ignore, total_exec. intros s [Hs Hd]. unfold insert_constituent_delivery. simpl.
    rewrite Hs. simpl. destruct (existsb _ _) eqn:E.
    + eexists _, _. split; [done|]. split; [done|]. by apply has_message_spec in E.
    + eexists _, _. split; [done|]. split; [split; [done|]|].
      * intros x Hx. destruct (Hd x Hx) as [(r & Hr & Hm) Hl]. split; [|done]. exists r.
        split; [|done]. apply elem_of_app. by left.
      * exists (fresh_delivery (uuid c) (storage_key (ev_session e)) c (default c (strip_discord c)) (ev_received_at e)).
        split; [|done]. apply elem_of_app. right. by apply list_elem_of_singleton.
  - intros ?. eapply total_bind with (R := fun _ => merged_progress e d (c :: xs)); [|intros ?; by apply total_ret].
    apply total_ignore, link_covers.
Qed.

Lemma constituents_cover e d uuid cs xs :
  d ∈ xs -> total (merged_progress e d xs) (for_each (record_constituent e d uuid) cs)
    (fun _ s => forall c, c ∈ cs \/ c ∈ xs -> covered d c s).
Proof.
  revert xs. induction cs as [|c cs IH]; intros xs Hd; simpl.
  - apply total_ret. intros s [_ Hc] x [Hx|Hx]; [by apply not_elem_of_nil in Hx | by apply Hc].
  - eapply total_bind; [by apply constituent_covers|]. intros ?.
    eapply total_weaken; [apply (IH (c :: xs)); by right | done |].
    intros ? s Hs x [[->|Hx]%elem_of_cons|Hx]; apply Hs; [right; left | by left | right; by right].
Qed.

Lemma ensure_session_total e :
  total (fun _ => True) (ensure_session (ev_session e))
    (fun _ s => has_session (storage_key (ev_session e)) s = true).
Proof.
  apply total_stmt. intros s _. simpl. destruct (existsb _ (sessions s)) eqn:E; [done|].
  unfold has_session. simpl. rewrite existsb_app, E. simpl. by rewrite String.eqb_refl.
Qed.

Lemma record_total e d uuid :
  total (fun _ => True) (record_incoming_as e d uuid)
    (fun r s => r = true -> merged_progress e d [d] s).
Proof.
  unfold record_incoming_as. eapply total_bind; [apply ensure_session_total|]. intros ?.
  eapply total_bind with (R := fun n s => n = 1 -> merged_progress e d [d] s).
  - apply total_exec. intros s Hs.
    destruct (claim_delivery _ s) as [[n|err] s'] eqn:E.
    + exists n, s'. split; [done|]. intros Hn.
      assert (Hs' : has_session (storage_key (ev_session e)) s' = true).
      { unfold claim_delivery in E. repeat case_match; by simplify_eq. }
      apply claim_delivery_ok in E as (_ & _ & H3); [|done]. destruct (H3 Hn) as [[Hr _] _].
      split; [done|]. intros c ->%list_elem_of_singleton. split; [done | by left].
    + unfold claim_delivery in E. simpl in E. rewrite Hs in E. simpl in E. by case_match.
  - intros n. apply total_ret. intros s Hn ?%Nat.eqb_eq. by apply Hn.
Qed.

Lemma any_duplicate_total cs P : total P (any_duplicate cs) (fun _ => P).
Proof.
  induction cs as [|c cs IH]; simpl; [by apply total_ret|].
  eapply total_bind with (R := fun _ => P); [by apply total_query|]. intros []; [by apply total_ret | done].
Qed.

Lemma merged_total e d cs uuid :
  total (fun _ => True) (record_incoming_with_constituents e d cs uuid)
    (fun r s => r = true -> forall c, c ∈ d :: cs -> covered d c s).
Proof.
  unfold record_incoming_with_constituents, ensure_constituents_table.
  eapply total_bind with (R := fun _ _ => True); [eapply total_weaken; [apply ensure_session_total | done..] |].
  intros ?. eapply total_bind with (R := fun _ _ => True).
  { eapply total_bind with (R := fun _ _ => True); [by apply total_stmt|]. intros ?. by apply total_stmt. }
  intros ?. eapply total_bind with (R := fun _ _ => True); [by apply total_query|].
  intros []; [by apply total_ret|]. eapply total_bind; [apply any_duplicate_total|].
  intros []; [by apply total_ret|]. eapply total_bind; [apply record_total|].
  intros []; simpl; [|by apply total_ret].
  eapply total_bind with (R := fun _ => merged_progress e d [d]).
  - eapply total_weaken; [apply total_ignore, (link_covers e d d [d]) | | ].
    + intros s Hp. specialize (Hp eq_refl). split; [done|]. destruct Hp as [_ Hp]. apply (Hp d). left.
    + intros ? s [Hs Hc]. split; [done|]. intros c Hx. apply Hc. by right.
  - intros ?. eapply total_bind; [apply constituents_cover; left|]. intros ?. apply total_ret.
    intros s Hs _ c [->|Hc]%elem_of_cons; apply Hs; [right; left | by left].
Qed.

Lemma complete_covers d st error now s :
  covered d d s ->
  exists s', run (complete d st error now) s = (Ok tt, s') /\ constituents s' = constituents s /\
    map message_id (deliveries s') = map message_id (deliveries s) /\
    forall r, r ∈ deliveries s' -> (message_id r = d \/ (d, message_id r) ∈ constituents s) ->
      status r = status_name st.
Proof.
  intros [(r & Hr & Hid) _].
  set (s1 := set_deliveries (update_where (has_message d) (finish st error now)) s).
  set (s2 := set_deliveries (update_where (is_constituent_of d s1) (finish st error now)) s1).
  exists s2. split; [|split; [done|split; [simpl; by rewrite !map_update_where|]]].
  - apply run_intro. unfold complete. rewrite bind_stmt. cbv beta. cbn [fst snd]. fold s1.
    destruct (Nat.eqb_spec (count (has_message d) (deliveries s)) 0) as [E|_]; [|done].
    rewrite count_zero in E. specialize (E r Hr). unfold has_message in E.
    by rewrite Hid, String.eqb_refl in E.
  - intros x (x1 & Hx1 & ->)%in_update_where Hc.
    destruct (is_constituent_of d s1 x1) eqn:E2; [done|].
    apply in_update_where in Hx1 as (x0 & _ & ->). destruct (has_message d x0) eqn:E1; [done|].
    exfalso. destruct Hc as [Hc|Hc].
    + unfold has_message in E1. by rewrite Hc, String.eqb_refl in E1.
    + unfold is_constituent_of in E2. rewrite existsb_false in E2. specialize (E2 _ Hc). simpl in E2.
      by rewrite !String.eqb_refl in E2.
Qed.

(** A merged delivery stands for all its messages: once a batch is claimed,
    each of its messages is known as a duplicate, and marking the batch
    delivered completes every one of them. *)
Theorem merged_claim_covers e d cs uuid now s s1 :
  run (record_incoming_with_constituents e d cs uuid) s = (Ok true, s1) ->
  (forall c, c ∈ d :: cs -> run (is_duplicate c) s1 = (Ok true, s1)) /\
  exists s2, run (mark_delivered d now) s1 = (Ok tt, s2) /\
    forall c, c ∈ d :: cs -> run (is_completed c) s2 = (Ok true, s2).
Proof.
  intros Hr. destruct (total_run _ _ _ s (merged_total e d cs uuid) I) as (b & s1' & Hr' & Hq).
  rewrite Hr in Hr'. injection Hr' as <- <-. specialize (Hq eq_refl).
  assert (Hex : forall c (t : list DeliveryRow) (q : DeliveryRow -> bool),
    (exists r, r ∈ t /\ message_id r = c /\ q r = true) -> existsb (fun r => names_message c r && q r) t = true).
  { intros c t q (r & Hin & Hm & Hqr). apply existsb_exists. exists r. split; [by apply list_elem_of_In|].
    rewrite Hqr. unfold names_message, has_message. by rewrite Hm, String.eqb_refl. }
  split.
  - intros c Hc. apply run_intro. unfold is_duplicate. rewrite query_clean. do 2 f_equal.
    destruct (Hq c Hc) as [(r & Hin & Hm) _]. apply held_duplicate_row. eauto.
  - destruct (complete_covers d StDelivered None now s1) as (s2 & Hrun & Hcon & Hids & Hst); [apply Hq; left|].
    exists s2. split; [done|]. intros c Hc. apply run_intro. unfold is_completed. rewrite query_clean. do 2 f_equal.
    apply Hex. destruct (Hq c Hc) as [(r & Hin & Hm) Hl].
    assert (c ∈ map message_id (deliveries s2)) as (r2 & E2 & Hr2)%list_elem_of_fmap.
    { rewrite Hids. apply list_elem_of_fmap. eauto. }
    exists r2. split; [done|]. split; [done|]. rewrite (Hst r2 Hr2); [done|].
    rewrite <- E2. destruct Hl; [by left | by right].
Qed.

Lemma run_keeps {A} (I : LedgerState -> Prop) (m : M LedgerState A) s a s' :
  preserves I m -> I s -> run m s = (Ok a, s') -> I s'.
Proof. intros Hm. apply (triple_run _ _ (fun _ => I) I). by apply triple_preserves. Qed.

Lemma merged_known e d cs uuid s :
  (exists r, r ∈ deliveries s /\ message_id r = d) ->
  exists s', run (record_incoming_with_constituents e d cs uuid) s = (Ok false, s') /\
    deliveries s' = deliveries s.
Proof.
  intros Hd. unfold record_incoming_with_constituents, ensure_constituents_table, ensure_session.
  eexists. split; [apply run_intro | shelve].
  rewrite bind_stmt. cbn [fst snd]. unfold is_duplicate.
  erewrite bind_value; [|reflexivity]. rewrite bind_query.
  rewrite held_duplicate_row; [done|]. simpl. by case_match.
  Unshelve. simpl. by case_match.
Qed.

(** A failed merged batch stays deduplicated.  A delivery that failed can
    be claimed again on its own, but once a batch claimed with constituents has
    failed, every later claim of it as a batch is refused. *)
Theorem failed_batch_not_reclaimed K e d cs uuid error now s s1 s2 :
  ledger_ok K s ->
  run (record_incoming_with_constituents e d cs uuid) s = (Ok true, s1) ->
  run (mark_failed d error now) s1 = (Ok tt, s2) ->
  (forall e' cs' uuid', exists s3,
     run (record_incoming_with_constituents e' d cs' uuid') s2 = (Ok false, s3) /\ deliveries s3 = deliveries s2) /\
  (forall e' uuid', exists s3, run (record_incoming_as e' d uuid') s2 = (Ok true, s3)).
Proof.
  intros Hs Hm Hf.
  destruct (total_run _ _ _ s (merged_total e d cs uuid) I) as (b & s1' & Hr' & Hq).
  rewrite Hm in Hr'. injection Hr' as <- <-. specialize (Hq eq_refl d).
  destruct (complete_covers d StFailed (Some error) now s1) as (s2' & Hrun & _ & Hids & Hst); [apply Hq; left|].
  unfold mark_failed in Hf. rewrite Hf in Hrun. injection Hrun as <-.
  assert (Hok2 : ledger_ok K s2).
  { eapply run_keeps; [apply complete_ok | | exact Hf]. eapply run_keeps; [apply merged_ok | exact Hs | exact Hm]. }
  assert (Hex : exists r, r ∈ deliveries s2 /\ message_id r = d /\ status r = "failed").
  { destruct Hq as [(r & Hin & Hmid) _]; [left|].
    assert (d ∈ map message_id (deliveries s2)) as (r2 & E2 & Hr2)%list_elem_of_fmap.
    { rewrite Hids. apply list_elem_of_fmap. eauto. }
    exists r2. split; [done|]. split; [done|]. rewrite (Hst r2 Hr2); [done | by left]. }
  destruct Hex as (r & Hr & Hid & Hfail). split.
  - intros e' cs' uuid'. apply merged_known. eauto.
  - intros e' uuid'. unfold record_incoming_as, ensure_session. eexists. apply run_intro.
    rewrite bind_stmt. cbn [fst snd]. set (s3 := if existsb _ _ then s2 else _).
    assert (Hs3 : deliveries s3 = deliveries s2 /\ has_session (storage_key (ev_session e')) s3 = true).
    { unfold s3, has_session. destruct (existsb _ (sessions s2)) eqn:E; [done|]. simpl. split; [done|].
      rewrite existsb_app, E. simpl. by rewrite String.eqb_refl. }
    destruct Hs3 as [Hd3 Hsess]. rewrite bind_exec. unfold claim_delivery. simpl. rewrite Hsess, Hd3. simpl.
    rewrite (proj2 (has_message_spec d (deliveries s2))) by eauto.
    rewrite (count_key message_id _ _ r); [done | apply Hok2 | done |].
    intros x Hx. unfold has_message. rewrite Hid. destruct (String.eqb_spec (message_id x) d) as [E|E]; simpl.
    + rewrite bool_decide_true by done. assert (x = r) as -> by (apply (NoDup_key_eq message_id (deliveries s2)); [apply Hok2|..]; congruence).
      by rewrite Hfail.
    + by rewrite bool_decide_false.
Qed.

(** ** Recovery at startup *)

Section RecoveryFacts.
Context (answer : list OutboundAction -> OutboundAction -> result unit OmonError) (stream_uuid : string -> N).

Definition chunk_of (o : DeliveryObligation) : StreamChunk :=
  mkChunk (stream_uuid (ob_id o)) 0 (recovered_content o) true None.

Definition settled (r : DeliveryObligation) : bool :=
  String.eqb (ob_state r) "delivered" || String.eqb (ob_state r) "failed".
Definition confirmed (ids : list string) (r : DeliveryObligation) : bool :=
  listed ids r && String.eqb (ob_state r) "delivered".

(** [pre] has been dispatched; [n] of it is confirmed. *)
Definition recovered (base : list StreamChunk) (ids : list string) (pre : list DeliveryObligation) (n : nat)
    (s : LedgerState) : Prop :=
  chunks (outbox s) = (base ++ map chunk_of pre)%list /\
  map ob_id (obligations s) = ids /\
  (forall r, r ∈ obligations s -> listed (map ob_id pre) r = true -> settled r = true) /\
  count (confirmed (map ob_id pre)) (obligations s) = n.

(** What holds if a statement fails while [o] is being redelivered. *)
Definition stopped (base : list StreamChunk) (rows : list DeliveryObligation) (s : LedgerState) : Prop :=
  exists pre, pre `prefix_of` rows /\ chunks (outbox s) = (base ++ map chunk_of pre)%list.

Lemma session_triple o P (E : LedgerState -> Prop) :
  (forall s, P s -> E s) -> triple P (recovered_session o) (fun _ => P) E.
Proof.
  intros HE w HP.
  assert (Hk : preserves P (recovered_session o)) by (unfold recovered_session; by preserve_steps).
  specialize (Hk w HP). destruct (recovered_session o w) as [[?|?] ?]; auto.
Qed.

(** Closing one row of the table, the others being settled. *)
Lemma mark_row base ids pre o n state error now s :
  NoDup ids -> ob_id o ∉ map ob_id pre -> ob_id o ∈ ids -> (state = "delivered" \/ state = "failed") ->
  chunks (outbox s) = (base ++ map chunk_of (pre ++ [o]))%list ->
  map ob_id (obligations s) = ids ->
  (forall r, r ∈ obligations s -> listed (map ob_id pre) r = true -> settled r = true) ->
  count (confirmed (map ob_id pre)) (obligations s) = n ->
  count (has_id (ob_id o)) (obligations s) <> 0 /\
  recovered base ids (pre ++ [o])%list (n + if String.eqb state "delivered" then 1 else 0)
    (set_obligations (update_where (has_id (ob_id o)) (set_ob_state state now error)) s).
Proof.
  intros Hn Hpre Hin Hst Hout Hids Hset Hc.
  assert (Hlist : forall r, listed (map ob_id (pre ++ [o])) r = listed (map ob_id pre) r || has_id (ob_id o) r).
  { intros r. unfold listed. rewrite map_app, existsb_app. simpl. by rewrite orb_false_r. }
  assert (Hex : exists r, r ∈ obligations s /\ ob_id r = ob_id o).
  { rewrite <- Hids in Hin. apply list_elem_of_fmap in Hin as (r & E & Hr). eauto. }
  destruct Hex as (r0 & Hr0 & Hid0). assert (Hns : NoDup (map ob_id (obligations s))) by by rewrite Hids.
  assert (H1 : count (has_id (ob_id o)) (obligations s) = 1).
  { apply (count_key ob_id _ _ r0); [done | done |]. intros x Hx. unfold has_id.
    rewrite Hid0. by destruct (String.eqb_spec (ob_id x) (ob_id o)), (bool_decide_reflect (ob_id x = ob_id o)). }
  split; [lia|]. split; [done|]. split; [simpl; by rewrite map_update_where|]. split.
  - intros r (x & Hx & ->)%in_update_where. rewrite Hlist. destruct (has_id (ob_id o) x) eqn:E.
    + intros _. unfold settled. simpl. by destruct Hst as [-> | ->].
    + rewrite E, orb_false_r. by apply Hset.
  - simpl. assert (Hoff : forall x, has_id (ob_id o) x = true -> listed (map ob_id pre) x = false).
    { intros x Hx%String.eqb_eq. destruct (listed (map ob_id pre) x) eqn:E; [|done].
      apply listed_spec in E. rewrite Hx in E. done. }
    rewrite count_after_update, <- Hc.
    rewrite (count_ext _ (fun r => confirmed (map ob_id pre) r || (has_id (ob_id o) r && String.eqb state "delivered"))).
    + rewrite count_or.
      * f_equal. destruct (String.eqb state "delivered").
        -- rewrite <- H1. apply count_ext. intros r _. by rewrite andb_true_r.
        -- apply count_zero. intros r _. by rewrite andb_false_r.
      * intros r _ [Hl _]%andb_true_iff. destruct (has_id (ob_id o) r) eqn:E; [|done].
        rewrite (Hoff r E) in Hl. done.
    + intros x _. unfold confirmed. rewrite Hlist. destruct (has_id (ob_id o) x) eqn:E; simpl.
      * assert (has_id (ob_id o) (set_ob_state state now error x) = true) as -> by done.
        by rewrite (Hoff x E), orb_true_r.
      * by rewrite E, !orb_false_r.
Qed.

Lemma attempting_keeps base ids pre o n now rows :
  ob_id o ∉ map ob_id pre -> pre `prefix_of` rows ->
  triple (recovered base ids pre n) (mark_obligation_attempting (ob_id o) now)
    (fun _ => recovered base ids pre n) (stopped base rows).
Proof.
  intros Hpre Hpr. assert (Hstop : forall s, recovered base ids pre n s -> stopped base rows s).
  { intros s (Hs & _). by exists pre. }
  assert (Hoff : forall x, has_id (ob_id o) x = true -> listed (map ob_id pre) x = false).
  { intros x Hx%String.eqb_eq. destruct (listed (map ob_id pre) x) eqn:E; [|done].
    apply listed_spec in E. rewrite Hx in E. done. }
  unfold mark_obligation_attempting, update_obligation_state.
  eapply triple_bind with (R := fun _ => recovered base ids pre n).
  - apply triple_stmt; [done|]. intros s (Hout & Hids & Hset & Hc). split; [done|].
    split; [simpl; by rewrite map_update_where|]. split.
    + intros r (x & Hx & ->)%in_update_where. destruct (has_id (ob_id o) x) eqn:E; [|by apply Hset].
      unfold listed in *. simpl. rewrite (Hoff x E). done.
    + simpl. rewrite count_after_update, <- Hc. apply count_ext. intros r _. unfold confirmed.
      destruct (has_id (ob_id o) r) eqn:E; [|done]. by rewrite (Hoff r E), andb_false_r.
  - intros k. destruct (k =? 0)%nat; [by apply triple_fail | by apply triple_ret].
Qed.

Lemma redeliver_triple base ids pre o n now rows :
  NoDup ids -> ob_id o ∉ map ob_id pre -> ob_id o ∈ ids -> (pre ++ [o])%list `prefix_of` rows ->
  triple (recovered base ids pre n) (redeliver answer stream_uuid now o)
    (fun k => recovered base ids (pre ++ [o])%list (n + k)) (stopped base rows).
Proof.
  intros Hn Hpre Hin Hpr.
  assert (Hpr0 : pre `prefix_of` rows) by (by eapply prefix_app_l).
  unfold redeliver. eapply triple_bind; [apply session_triple|].
  { intros s (Hs & _). by exists pre. }
  intros session. cbv zeta. eapply triple_bind; [by apply attempting_keeps|]. intros ?.
  eapply triple_bind with (R := fun _ s =>
    chunks (outbox s) = (base ++ map chunk_of (pre ++ [o]))%list /\ map ob_id (obligations s) = ids /\
    (forall r, r ∈ obligations s -> listed (map ob_id pre) r = true -> settled r = true) /\
    count (confirmed (map ob_id pre)) (obligations s) = n).
  { apply triple_mem. intros s (Hout & H1 & H2 & H3). simpl. split; [|done].
    rewrite chunks_snoc, Hout, map_app. simpl. by rewrite app_assoc. }
  assert (Hmark : forall state error k, state = "delivered" \/ state = "failed" ->
    k = (if String.eqb state "delivered" then 1 else 0) ->
    triple (fun s => chunks (outbox s) = (base ++ map chunk_of (pre ++ [o]))%list /\
        map ob_id (obligations s) = ids /\
        (forall r, r ∈ obligations s -> listed (map ob_id pre) r = true -> settled r = true) /\
        count (confirmed (map ob_id pre)) (obligations s) = n)
      (update_obligation_state (ob_id o) state error now ;;; ret k)
      (fun k => recovered base ids (pre ++ [o])%list (n + k)) (stopped base rows)).
  { intros state error k Hst ->.
    eapply triple_bind with (R := fun _ => recovered base ids (pre ++ [o])%list
        (n + if String.eqb state "delivered" then 1 else 0)); [|intros ?; by apply triple_ret].
    eapply triple_bind with (R := fun _ => recovered base ids (pre ++ [o])%list
        (n + if String.eqb state "delivered" then 1 else 0)).
    - apply triple_stmt; [intros s (Hs & _); by exists (pre ++ [o])%list|].
      intros s (H1 & H2 & H3 & H4). by apply mark_row.
    - intros c. destruct (c =? 0)%nat; [|by apply triple_ret]. apply triple_fail.
      intros s (Hs & _). by exists (pre ++ [o])%list. }
  intros [[]|err]; apply Hmark; auto.
Qed.

Lemma redeliver_all_triple base ids rows now l :
  forall pre n, NoDup ids -> rows = (pre ++ l)%list -> NoDup (map ob_id rows) -> (forall r, r ∈ l -> ob_id r ∈ ids) ->
  triple (recovered base ids pre n) (redeliver_all answer stream_uuid now l)
    (fun k => recovered base ids rows (n + k)) (stopped base rows).
Proof.
  induction l as [|o l IH]; intros pre n Hn Hrows Hd Hl; simpl.
  { apply triple_ret. rewrite app_nil_r in Hrows. subst. intros s. by rewrite Nat.add_0_r. }
  assert (Hrows' : rows = ((pre ++ [o]) ++ l)%list) by by rewrite <- app_assoc.
  eapply triple_bind.
  - apply redeliver_triple; [done | | apply Hl; left | rewrite Hrows'; by eexists].
    rewrite Hrows, map_app in Hd. apply NoDup_app in Hd as (_ & Hd & _). intros Ho. apply (Hd _ Ho). simpl. left.
  - intros k. eapply triple_bind; [apply IH; [done | exact Hrows' | done | intros r Hr; apply Hl; by right]|].
    intros m. apply triple_ret. intros s. by rewrite Nat.add_assoc.
Qed.

(** Recovery dispatches each obligation it took over at most once, oldest
    first, whatever statement fails; a reply that may already have been sent
    (its state was not [pending]) carries the recovery marker.  When recovery
    returns [n], every obligation taken over was dispatched exactly once and is
    now delivered or failed, and [n] of them are delivered. *)
Theorem recovery_dispatches_once pid started now w :
  NoDup (map ob_id (obligations (st w))) ->
  let claimed := map (restamp pid started) (select (takes pid started 3 86400 now)
                   (order_by ob_created_at (select is_undelivered (obligations (st w))))) in
  let '(r, w') := recover_pending_delivery_obligations answer stream_uuid pid started now w in
  (exists pre, pre `prefix_of` claimed /\
     chunks (outbox (st w')) = (chunks (outbox (st w)) ++ map chunk_of pre)%list) /\
  (forall n, r = Ok n ->
     chunks (outbox (st w')) = (chunks (outbox (st w)) ++ map chunk_of claimed)%list /\
     (forall x, x ∈ obligations (st w') -> listed (map ob_id claimed) x = true -> settled x = true) /\
     count (confirmed (map ob_id claimed)) (obligations (st w')) = n).
Proof.
  intros Hn claimed. unfold recover_pending_delivery_obligations, bind at 1.
  pose proof (sweep_spec pid started 3 86400 now w Hn) as [Hsweep _].
  destruct (sweep_recoverable pid started 3 86400 now w) as [[cl|e] w1].
  2: { destruct Hsweep as (pre & _ & Hst). split; [|done]. exists []. split; [apply prefix_nil|].
       rewrite Hst. simpl. by rewrite app_nil_r. }
  destruct Hsweep as [Hst Hcl]. fold claimed in Hcl. subst cl.
  assert (Hids : map ob_id (obligations (st w1)) = map ob_id (obligations (st w))).
  { rewrite Hst. simpl. apply map_update_where, swept_id. }
  assert (Hcids : map ob_id claimed = map ob_id (select (takes pid started 3 86400 now)
                   (order_by ob_created_at (select is_undelivered (obligations (st w)))))).
  { unfold claimed. by rewrite map_map. }
  assert (Hd : NoDup (map ob_id claimed)).
  { rewrite Hcids. by apply NoDup_map_select, NoDup_map_order_by, NoDup_map_select. }
  assert (Hin : forall r, r ∈ claimed -> ob_id r ∈ map ob_id (obligations (st w))).
  { intros r (x & -> & [Hx _]%in_select)%list_elem_of_fmap. rewrite in_order_by in Hx.
    apply in_select in Hx as [Hx _]. apply list_elem_of_fmap. by exists x. }
  pose proof (redeliver_all_triple (chunks (outbox (st w))) _ claimed now claimed [] 0 Hn eq_refl Hd Hin w1) as Ht.
  destruct (redeliver_all _ _ now claimed w1) as [[n|e] w'].
  - destruct Ht as (H1 & H2 & H3 & H4).
    + split; [rewrite Hst; simpl; by rewrite app_nil_r|]. split; [done|]. split; [done|].
      by apply count_zero.
    + split; [by exists claimed|]. by intros ? [= <-].
  - split; [|done]. apply Ht. split; [rewrite Hst; simpl; by rewrite app_nil_r|]. split; [done|]. split; [done|].
    by apply count_zero.
Qed.
End RecoveryFacts.
End Ledger.

(** ** Witnesses: concrete tables, with the evaluating instance of SQLite. *)
#[local] Existing Instance floor_sqlite.

Definition no_process : Z -> bool := fun _ => false.
Definition plain_ms : Z -> Z -> Z := fun a b => ((b - a) / 1000000)%Z.
Definition demo_session : SessionKey := mkSessionKey "discord" None "c1" None "u1" (Some "bot").
Definition demo_event : InboundEvent := mkEvent "e1" demo_session "m1" None "hello" [] (seconds 100).
Definition empty_ledger : LedgerState := mkLedger [] [] [] [] [].
Definition demo_obligation (id state : string) (error : option string) : DeliveryObligation :=
  mkObligation id (storage_key demo_session) "c1" None "hello" state 0 (seconds 100) (seconds 100)
    (Some 7)%Z error (Some "t0").
Definition demo_ledger : LedgerState :=
  mkLedger [mkSessionRow (storage_key demo_session) demo_session (state_value default_state) false] [] []
    [demo_obligation "o1" "pending" None; demo_obligation "o2" "failed" (Some "Connection reset by peer")] [].

Ltac no_dup := repeat (apply NoDup_cons; split; [rewrite ?elem_of_cons; set_solver|]); try apply NoDup_nil_2.

Lemma demo_unique : NoDup (map ob_id (obligations demo_ledger)).
Proof. simpl. no_dup. Qed.

Lemma delivery_claim_exclusive_witness :
  let w1 := snd (record_incoming_as demo_event "m1" "u1" (mkWorld empty_ledger [])) in
  let ops := [OpRecord demo_event "m1" "u2"; OpDelivered "m1" (seconds 101);
              OpRecordMerged demo_event "m2" ["m1"] (fun c => c)] in
  held "m1" (deliveries (st (snd (run_ops no_process plain_ms ops w1)))).
Proof.
  intros w1 ops. eapply (delivery_claim_exclusive no_process plain_ms demo_event "m1" "u1"
    (mkWorld empty_ledger []) w1 ops); [vm_compute; reflexivity| |apply surjective_pairing].
  unfold ops. intros m error now Hin. rewrite !elem_of_cons, elem_of_nil in Hin. naive_solver.
Defined.

Lemma sweep_recovers_from_the_dead_witness :
  let swept := sweep_recoverable (fun p => Z.eqb p 9) 9 "t1" 3 86400 (seconds 200) (mkWorld demo_ledger []) in
  swept.1 = Ok (to_redeliver 9 "t1" 3 86400 (seconds 200) (fun _ => true) (order_by ob_created_at (select is_undelivered (obligations demo_ledger)))) /\
  map ob_owner_pid (obligations (st swept.2)) = [Some 9%Z; Some 9%Z].
Proof.
  intros swept. split; [|vm_compute; reflexivity].
  assert (S : sole_gateway (fun p => Z.eqb p 9) 9 "t1" (fun _ => true) (obligations demo_ledger)).
  { split; [done|]. split; [done|]. intros r Hr _. assert (ob_owner_pid r = Some 7%Z /\ ob_owner_started_at r <> Some "t1") as [E1 E2] by (revert r Hr; apply Forall_forall; by repeat constructor).
    split; [split; [done|by rewrite E1; intros [[=] _]]|done]. }
  destruct (sweep_recovers_from_the_dead (fun p => Z.eqb p 9) 9 "t1" 3 86400 (seconds 200) (fun _ => true) (mkWorld demo_ledger []) ltac:(lia) demo_unique S) as [K (claimed & w' & E)]; [done|].
  unfold swept. rewrite E in K |- *. by rewrite (proj2 K).
Defined.

Definition demo_contest : list (string * Z) :=
  fst (contend (fun _ => Some 7%Z)
    [mkAttempt "o1" 9 "t1" 1; mkAttempt "o1" 8 "t2" 2; mkAttempt "o1" 9 "t1" 3]%Z demo_ledger).

Lemma concurrent_sweeps_exclusive_witness :
  length demo_contest = 2 /\ from_option snd 0%Z (head demo_contest) = from_option snd 0%Z (last demo_contest).
Proof.
  split; [reflexivity|].
  apply (concurrent_sweeps_exclusive (fun _ => Some 7%Z)
    [mkAttempt "o1" 9 "t1" 1; mkAttempt "o1" 8 "t2" 2; mkAttempt "o1" 9 "t1" 3]%Z
    demo_ledger "o1" _ _ demo_unique); [|vm_compute; left|vm_compute; right; left].
  intros a Ha. rewrite !elem_of_cons, elem_of_nil in Ha. naive_solver.
Defined.

Lemma prune_bounds_terminal_witness :
  exists n s', run (prune_terminal_obligations 0 0 (seconds 300)) demo_ledger = (Ok n, s').
Proof.
  destruct (prune_bounds_terminal 0 0 (seconds 300) demo_ledger demo_unique) as (n & s' & E & _). by exists n, s'.
Defined.

Lemma replay_only_transient_failures_witness :
  map ob_id (obligations (st (snd (sweep_failed_for_runtime 7 "t0" "bot" 3 86400 (seconds 200) (mkWorld demo_ledger [])))))
  = ["o1"; "o2"].
Proof.
  pose proof (replay_only_transient_failures 7 "t0" "bot" 3 86400 (seconds 200) (mkWorld demo_ledger []) demo_unique) as H.
  destruct (sweep_failed_for_runtime _ _ _ _ _ _ _) as [r w']. simpl in *. apply H.
Defined.

Lemma empty_ok : ledger_ok 3 empty_ledger.
Proof. split; try apply NoDup_nil_2; intros r Hr; by apply not_elem_of_nil in Hr. Qed.

Lemma ledger_store_invariant_witness :
  ledger_ok 3 (st (snd (run_ops no_process plain_ms
    [OpRecord demo_event "m1" "u1"; OpObligation 7 "t0" "o1" demo_session "hi" (seconds 5);
     OpSweep 9 "t1" 3 86400 (seconds 50)] (mkWorld empty_ledger [None; Some "disk full"])))).
Proof.
  eapply (ledger_store_invariant no_process plain_ms 3 _ (mkWorld empty_ledger [None; Some "disk full"])); [lia | exact empty_ok | | apply surjective_pairing].
  repeat constructor; simpl; lia.
Defined.

Definition demo_batch := record_incoming_with_constituents demo_event "m1" ["m1"; "m2"] (fun c => c).

Lemma merged_claim_covers_witness :
  exists s2, run (mark_delivered plain_ms "m1" (seconds 101)) (snd (run demo_batch empty_ledger)) = (Ok tt, s2)
    /\ run (is_completed "m2") s2 = (Ok true, s2).
Proof.
  destruct (merged_claim_covers plain_ms demo_event "m1" ["m1"; "m2"] (fun c => c) (seconds 101) empty_ledger
    (snd (run demo_batch empty_ledger))) as [_ (s2 & E & Hc)]; [vm_compute; reflexivity|].
  exists s2. split; [exact E|]. apply Hc. rewrite !elem_of_cons. tauto.
Defined.

Lemma failed_batch_not_reclaimed_witness :
  exists s3, run (record_incoming_as demo_event "m1" "u9")
    (snd (run (mark_failed plain_ms "m1" "boom" (seconds 101)) (snd (run demo_batch empty_ledger)))) = (Ok true, s3).
Proof.
  apply (failed_batch_not_reclaimed plain_ms 3 demo_event "m1" ["m1"; "m2"] (fun c => c) "boom" (seconds 101)
    empty_ledger (snd (run demo_batch empty_ledger))); [exact empty_ok | vm_compute; reflexivity | vm_compute; reflexivity].
Defined.

Definition accept_all : list OutboundAction -> OutboundAction -> result unit OmonError := fun _ _ => Ok tt.

Lemma recovery_dispatches_once_witness :
  let w' := snd (recover_pending_delivery_obligations no_process accept_all (fun _ => 0%N) 9 "t1" (seconds 200)
                   (mkWorld demo_ledger [])) in
  count (confirmed ["o1"; "o2"]) (obligations (st w')) = 2.
Proof.
  pose proof (recovery_dispatches_once no_process accept_all (fun _ => 0%N) 9 "t1" (seconds 200)
    (mkWorld demo_ledger []) demo_unique) as H. vm_compute in H.
  destruct H as [_ H]. apply (H 2). reflexivity.
Defined.
