(* ===== verification/Schedule.v ===== *)
(** * Schedules of cron jobs (the pure part of [src/cron/scheduler.rs])

    Interval and one-shot expressions, the next run, failure backoff, repeat
    limits, lease reclamation, the wake gate, silence tokens and the context of
    predecessor jobs.  Instants and durations are nanoseconds.  The [chrono],
    [chrono-tz], [cron] and [serde_json] libraries are the interface
    [CronLibs]; the Unicode tables of [to_uppercase] are an argument. *)
From stdpp Require Import base list strings.
From Stdlib Require Import ZArith NArith Lia Ascii String.
From S2P Require Import Prelude RustStr Json Db.
Open Scope string_scope.
Open Scope omon_scope.
Local Notation length := Datatypes.length.

(** What the scheduler uses of its libraries: [DateTime::parse_from_rfc3339]
    and [to_rfc3339], IANA names, cron expressions with their upcoming
    instants in a zone, and JSON texts.  A schedule yields later instants only. *)
Class CronLibs := {
  parse_rfc3339 : string -> result Z string;
  to_rfc3339 : Z -> string;
  Tz : Type;
  parse_tz : string -> option Tz;
  Sched : Type;
  parse_schedule : string -> result Sched string;
  upcoming : Sched -> option Tz -> Z -> option Z;
  upcoming_after : forall s tz t u, upcoming s tz t = Some u -> (t < u)%Z;
  parse_json : string -> result value string;
  print_json : value -> string
}.

Definition minutes (m : Z) : Z := seconds (m * 60).
Definition LEASE_DURATION : Z := minutes 30.
Definition STALE_LEASE_SAFETY_NET : Z := minutes 120.
Definition ONESHOT_GRACE_DURATION : Z := seconds 120.
Definition MIN_RETRY_INTERVAL : Z := seconds 10.
Definition MAX_RETRY_INTERVAL : Z := seconds 3600.
Definition MAX_CONTEXT_CHARS : nat := 8000.

(** The bounds of chrono: [DateTime::MAX_UTC], the end of year 262142, and
    [TimeDelta::MAX], [i64::MAX] milliseconds. *)
Definition MAX_UTC : Z := (8210266876799 * NS + (NS - 1))%Z.
Definition MAX_DELTA : Z := ((2 ^ 63 - 1) * 1000000)%Z.

(** [DateTime + TimeDelta] panics past the last instant. *)
Definition add_delta (t d : Z) : result Z OmonError :=
  if (t + d <=? MAX_UTC)%Z then Ok (t + d)%Z
  else Err (Panicked "`DateTime + TimeDelta` overflowed").

(** [TimeDelta::from_std]. *)
Definition from_std (d : Z) : result Z OmonError :=
  if (d <=? MAX_DELTA)%Z then Ok d else Err (Config "cron interval is too large").

(** ** Lease reclamation *)

Definition should_reclaim_with (owner_pid : option Z) (lease_expired : bool) (lease_age : Z)
    (is_alive : Z -> bool) : bool :=
  if negb lease_expired then false
  else if (STALE_LEASE_SAFETY_NET <=? lease_age)%Z then true
  else match owner_pid with
       | None => true
       | Some pid => (pid =? 0)%Z || negb (is_alive pid)
       end.

(** ** Repeat limits *)

Definition should_disable_after (completed : N) (times : option N) : bool :=
  match times with
  | Some limit => if (0 <? limit)%N then (limit <=? completed)%N else false
  | None => false
  end.

Definition times_of (v : value) : option N := get "times" v ≫= as_u64.
Definition completed_of (v : value) : N := default 0%N (get "completed" v ≫= as_u64).

Definition extract_repeat_info (payload : value) : option N * N :=
  match get "repeat" payload with
  | Some repeat => (times_of repeat, completed_of repeat)
  | None => (times_of payload, completed_of payload)
  end.

(** [+ 1] on a [u64], as the release profile computes it. *)
Definition u64_succ (n : N) : N := ((n + 1) mod U64_BOUND)%N.

(** The new payload and what is returned. *)
Definition increment_repeat_completed (payload : value) : value * (option N * N) :=
  let flat :=
    let times := times_of payload in
    let completed := u64_succ (completed_of payload) in
    let payload' :=
      if is_object payload then
        match times with
        | Some _ => obj_insert "completed" (JPos completed) payload
        | None => obj_insert "repeat" (JObject [("completed", JPos completed)]) payload
        end
      else payload in
    (payload', (times, completed)) in
  match get "repeat" payload with
  | Some repeat =>
      if is_object repeat then
        let times := times_of repeat in
        let completed := u64_succ (completed_of repeat) in
        (obj_insert "repeat" (obj_insert "completed" (JPos completed) repeat) payload, (times, completed))
      else flat
  | None => flat
  end.

(** ** Next run *)

Definition normalize_cron_expression (expression : string) : string :=
  if (length (split_whitespace expression) =? 5)%nat then "0 " ++ expression else expression.

Definition ms (n : N) : Z := (Z.of_N n * 1000000)%Z.
Definition secs (n : N) : Z := seconds (Z.of_N n).

(** [u64::saturating_mul]. *)
Definition saturating_mul (a b : N) : N := N.min (a * b) (U64_BOUND - 1).

Definition unit_duration (unit : string) (amount : N) : option Z :=
  if String.eqb unit "ms" then Some (ms amount)
  else if existsb (String.eqb unit) ["s"; "sec"; "secs"] then Some (secs amount)
  else if existsb (String.eqb unit) ["m"; "min"; "mins"] then Some (secs (saturating_mul amount 60))
  else if existsb (String.eqb unit) ["h"; "hr"; "hrs"] then Some (secs (saturating_mul amount 3600))
  else if existsb (String.eqb unit) ["d"; "day"; "days"] then Some (secs (saturating_mul amount 86400))
  else None.

Definition interval_text (expression : string) : option string :=
  match strip_prefix "interval:" expression with
  | Some v => Some (trim v)
  | None =>
      match strip_prefix "@every " expression with
      | Some v => Some (trim v)
      | None => option_map trim (strip_prefix "every " expression)
      end
  end.

Definition parse_interval (expression : string) : result (option Z) OmonError :=
  match interval_text expression with
  | None => Ok None
  | Some value =>
      let split := default (len value) (find_not is_digit value) in
      match parse_u64 (take_str split value) with
      | None => Err (Config ("invalid interval expression `" ++ expression ++ "`"))
      | Some amount =>
          if (amount =? 0)%N then Err (Config "cron interval must be greater than zero")
          else match unit_duration (trim (drop_str split value)) amount with
               | Some d => Ok (Some d)
               | None => Err (Config ("invalid interval unit in `" ++ expression ++ "`"))
               end
      end
  end.

Section Next.
Context `{CronLibs}.

(** The cron library's part of [next_run] and [next_run_tz]. *)
Definition next_scheduled (expression : string) (after : Z) (tz : option Tz) : result Z OmonError :=
  match parse_schedule (normalize_cron_expression expression) with
  | Err error => Err (Config ("invalid cron expression `" ++ expression ++ "`: " ++ error))
  | Ok schedule =>
      ok_or (upcoming schedule tz after) (Config ("cron expression `" ++ expression ++ "` has no next run"))
  end.

Definition next_run (expression : string) (after : Z) : result Z OmonError :=
  match strip_prefix "once:" expression with
  | Some timestamp =>
      match parse_rfc3339 timestamp with
      | Err error => Err (Config ("invalid one-shot timestamp `" ++ timestamp ++ "`: " ++ error))
      | Ok ts =>
          if (after <=? ts)%Z then Ok ts
          else if (after - ts <=? ONESHOT_GRACE_DURATION)%Z then Ok ts
          else Err (Config ("one-shot timestamp `" ++ timestamp
                            ++ "` is more than 120s in the past and cannot be scheduled"))
      end
  | None =>
      interval <-? parse_interval expression ;;
      match interval with
      | Some d => delta <-? from_std d ;; add_delta after delta
      | None => next_scheduled expression after None
      end
  end.

Definition next_run_tz (expression : string) (after : Z) (timezone : option string) :
    result Z OmonError :=
  match option_map trim timezone with
  | None | Some "" => next_run expression after
  | Some tz_name =>
      if starts_with "once:" expression then next_run expression after
      else
        interval <-? parse_interval expression ;;
        match interval with
        | Some _ => next_run expression after
        | None =>
            match parse_tz tz_name with
            | None => Err (Config ("invalid timezone `" ++ tz_name ++ "`"))
            | Some tz => next_scheduled expression after (Some tz)
            end
        end
  end.

(** ** Failure backoff *)

(** [1u64.checked_shl(exponent).unwrap_or(1024)], then clamped. *)
Definition failure_backoff_duration (consecutive_failures : N) : Z :=
  if (consecutive_failures =? 0)%N then 0%Z
  else
    let exponent := N.min (consecutive_failures - 1) 10 in
    let multiplier := if (exponent <? 64)%N then N.shiftl 1 exponent else 1024%N in
    secs (N.max 10 (N.min (saturating_mul 10 multiplier) 3600)).

Definition next_run_after_failure (expression : string) (now : Z) (consecutive_failures : N) :
    result (option Z) OmonError :=
  if starts_with "once:" expression then Ok None
  else
    scheduled_next <-? next_run expression now ;;
    backoff_next <-? add_delta now (failure_backoff_duration consecutive_failures) ;;
    Ok (Some (Z.max scheduled_next backoff_next)).
End Next.

(** ** Context of predecessor jobs *)

Definition is_valid_context_job_id (job_id : string) : bool :=
  negb (String.eqb job_id "") && negb (contains ".." job_id) && negb (contains "/" job_id)
  && negb (contains "\" job_id).

Definition parse_context_from_ids (context_from : option value) : list string :=
  match context_from with
  | None => []
  | Some (JString s) => if is_valid_context_job_id (trim s) then [trim s] else []
  | Some (JArray arr) => List.filter is_valid_context_job_id (map trim (omap as_str arr))
  | Some _ => []
  end.

Definition LF2 : string := String LF (String LF "").

Definition truncate_context_output (output : string) (max_chars : nat) : string :=
  if (max_chars <? length (chars output))%nat
  then of_chars (take max_chars (chars output)) ++ LF2 ++ "[... output truncated ...]"
  else output.

Definition format_context_from_block (job_id output : string) : string :=
  "## Output from job '" ++ job_id ++ "'" ++ String LF
  "The following is the most recent output from a preceding cron job. Use it as context for your analysis."
  ++ LF2 ++ "```" ++ String LF output ++ String LF "```".

(** ** Wake gate and silence *)

Section Text.
Context `{CronLibs}.
(** The uppercase expansion of a non-ASCII character. *)
Context (unicode_upper : string -> string).

Definition ascii_upper (c : ascii) : ascii :=
  if in_range c 97 122 then ascii_of_N (N_of_ascii c - 32) else c.
Definition upper_char (c : string) : string :=
  match c with
  | String a "" => if (N_of_ascii a <? 128)%N then String (ascii_upper a) "" else unicode_upper c
  | _ => unicode_upper c
  end.
Definition to_uppercase (s : string) : string := of_chars (map upper_char (chars s)).

Definition nonempty_lines (s : string) : list string :=
  List.filter (fun l => negb (String.eqb l "")) (map trim (lines s)).

(** A double quote, which Rocq's string literals do not carry. *)
Definition QUOTE : string := String "034" "".

Definition parse_wake_gate (stdout : string) : bool :=
  match last (nonempty_lines stdout) with
  | None => true
  | Some last_line =>
      let decided :=
        match parse_json last_line with
        | Ok v =>
            if is_object v then
              match get "wakeAgent" v with Some w => Some w | None => get "wake_agent" v end ≫= as_bool
            else None
        | Err _ => None
        end in
      match decided with
      | Some b => b
      | None =>
          let lower := to_ascii_lowercase last_line in
          negb (String.eqb lower "wakeagent: false" || String.eqb lower "wake_agent: false"
                || String.eqb lower ("{" ++ QUOTE ++ "wakeagent" ++ QUOTE ++ ": false}")
                || String.eqb lower ("{" ++ QUOTE ++ "wakeagent" ++ QUOTE ++ ":false}"))
      end
  end.

Definition CRON_SILENCE_TOKENS : list string := ["[SILENT]"; "SILENT"; "NO_REPLY"; "NO REPLY"].

Definition is_silence_token_line (line : string) : bool :=
  let upper := to_uppercase (join " " (split_whitespace line)) in
  existsb (fun token => String.eqb token upper) CRON_SILENCE_TOKENS.

Definition is_cron_silence_response (text : string) : bool :=
  let stripped := trim text in
  if String.eqb stripped "" then true
  else if is_silence_token_line stripped then true
  else
    let ls := nonempty_lines stripped in
    if match head ls with Some first => is_silence_token_line first | None => false end then true
    else if match last ls with Some last_ => is_silence_token_line last_ | None => false end then true
    else starts_with "[SILENT]" (to_uppercase stripped).
End Text.

(** ** Reclamation, backoff and next run *)

Lemma secs_le a b : (a <= b)%N -> (secs a <= secs b)%Z.
Proof. unfold secs, seconds, NS. lia. Qed.

(** The backoff in closed form: ten seconds, doubled per failure, at most an hour. *)
Lemma backoff_closed k : (0 < k)%N ->
  failure_backoff_duration k = secs (N.min (10 * 2 ^ (N.min (k - 1) 10)) 3600).
Proof.
  intros Hk. unfold failure_backoff_duration. destruct (N.eqb_spec k 0); [lia|].
  set (e := N.min (k - 1) 10). assert (He : (e <= 10)%N) by lia.
  cbv zeta. destruct (N.ltb_spec e 64); [|lia]. rewrite N.shiftl_mul_pow2, N.mul_1_l.
  assert (Hp : (1 <= 2 ^ e <= 2 ^ 10)%N).
  { split; [|by apply N.pow_le_mono_r]. pose proof (N.pow_nonzero 2 e). lia. }
  unfold saturating_mul, U64_BOUND. f_equal. change (2 ^ 10)%N with 1024%N in Hp.
  rewrite (N.min_l (10 * 2 ^ e)) by lia. lia.
Qed.

Lemma backoff_mono k k' : (0 < k <= k')%N ->
  (failure_backoff_duration k <= failure_backoff_duration k')%Z.
Proof.
  intros Hk. rewrite !backoff_closed by lia. apply secs_le.
  assert (2 ^ N.min (k - 1) 10 <= 2 ^ N.min (k' - 1) 10)%N by (apply N.pow_le_mono_r; lia). lia.
Qed.

Lemma backoff_range k : (0 < k)%N ->
  (MIN_RETRY_INTERVAL <= failure_backoff_duration k <= MAX_RETRY_INTERVAL)%Z.
Proof.
  intros Hk. rewrite backoff_closed by done. unfold MIN_RETRY_INTERVAL, MAX_RETRY_INTERVAL.
  assert (1 <= 2 ^ N.min (k - 1) 10)%N.
  { pose proof (N.pow_nonzero 2 (N.min (k - 1) 10)). lia. }
  split; [change (seconds 10) with (secs 10) | change (seconds 3600) with (secs 3600)]; apply secs_le; lia.
Qed.

Lemma add_delta_ok t d u : add_delta t d = Ok u -> u = (t + d)%Z /\ (u <= MAX_UTC)%Z.
Proof. unfold add_delta. case_match eqn:E; [|done]. intros [= <-]. lia. Qed.

Section NextFacts.
Context `{CronLibs}.

Lemma unit_positive unit amount d :
  (0 < amount)%N -> unit_duration unit amount = Some d -> (0 < d)%Z.
Proof.
  intros Ha. unfold unit_duration, ms, secs, seconds, NS, saturating_mul, U64_BOUND.
  repeat (case_match; [intros [= <-]; lia|]). done.
Qed.

Lemma interval_positive e d : parse_interval e = Ok (Some d) -> (0 < d)%Z.
Proof.
  unfold parse_interval. destruct (interval_text e); [|done].
  destruct (parse_u64 _); [|done]. destruct (N.eqb_spec n 0); [done|].
  destruct (unit_duration _ _) eqn:E; [|done]. intros [= <-]. eapply unit_positive; [|exact E]. lia.
Qed.

Lemma scheduled_later e tz t u : next_scheduled e t tz = Ok u -> (t < u)%Z.
Proof.
  unfold next_scheduled. destruct (parse_schedule _); [|done]. rewrite ok_or_ok. apply upcoming_after.
Qed.

Lemma recurring_later e t u :
  strip_prefix "once:" e = None -> next_run e t = Ok u -> (t < u)%Z.
Proof.
  unfold next_run. intros ->. rewrite rbind_ok. intros ([d|] & Hi & Hu); [|by eapply scheduled_later].
  apply rbind_ok in Hu as (delta & Hd & Hu). apply add_delta_ok in Hu as [-> _].
  apply interval_positive in Hi. unfold from_std in Hd. case_match; simplify_eq. lia.
Qed.

Lemma next_run_tz_spec e after tz u :
  next_run_tz e after tz = Ok u ->
  match strip_prefix "once:" e with
  | None => (after < u)%Z
  | Some timestamp => parse_rfc3339 timestamp = Ok u /\ (after - ONESHOT_GRACE_DURATION <= u)%Z
  end.
Proof.
  assert (Hrun : next_run e after = Ok u -> match strip_prefix "once:" e with
    | None => (after < u)%Z
    | Some timestamp => parse_rfc3339 timestamp = Ok u /\ (after - ONESHOT_GRACE_DURATION <= u)%Z end).
  { intros Hu. destruct (strip_prefix "once:" e) as [ts|] eqn:Eo; [|by eapply recurring_later].
    unfold next_run in Hu. rewrite Eo in Hu. destruct (parse_rfc3339 ts) as [t|]; [|done].
    unfold ONESHOT_GRACE_DURATION, seconds, NS in *.
    destruct (Z.leb_spec after t); [simplify_eq; split; [done | lia]|].
    destruct (Z.leb_spec (after - t) (120 * 1000000000)); simplify_eq. split; [done | lia]. }
  unfold next_run_tz. destruct (option_map trim tz) as [[|a s]|]; [by apply Hrun| |by apply Hrun].
  unfold starts_with. destruct (strip_prefix "once:" e) eqn:Eo; [by apply Hrun|].
  rewrite rbind_ok. intros ([d|] & _ & Hu); [by apply Hrun|].
  destruct (parse_tz _); [|done]. by eapply scheduled_later.
Qed.

Lemma backoff_next_after e now k t :
  next_run_after_failure e now k = Ok (Some t) -> (now + failure_backoff_duration k <= t)%Z.
Proof.
  unfold next_run_after_failure. destruct (starts_with "once:" e); [done|].
  intros (s & Hs & Hr)%rbind_ok. apply rbind_ok in Hr as (b & Hb & [= <-]).
  apply add_delta_ok in Hb as [-> _]. lia.
Qed.

(** What [next_run] returns, in any zone, is schedulable: a recurring
    expression yields an instant strictly after [after]; a one-shot yields its
    own timestamp, which is not more than the grace period in the past. *)
Theorem next_run_schedulable e after tz u :
  next_run_tz e after tz = Ok u ->
  match strip_prefix "once:" e with
  | None => (after < u)%Z
  | Some timestamp => parse_rfc3339 timestamp = Ok u /\ (after - ONESHOT_GRACE_DURATION <= u)%Z
  end.
Proof. apply next_run_tz_spec. Qed.

(** Retries back off.  After [k >= 1] consecutive failures a recurring job
    runs again no sooner than ten seconds doubled per failure and capped at an
    hour, nor sooner than its schedule says; the wait is between the two retry
    bounds and grows with [k]; a one-shot is not retried. *)
Theorem retry_backs_off e now k r :
  (0 < k)%N -> next_run_after_failure e now k = Ok r ->
  (MIN_RETRY_INTERVAL <= failure_backoff_duration k <= MAX_RETRY_INTERVAL)%Z /\
  (forall k', (k <= k')%N -> (failure_backoff_duration k <= failure_backoff_duration k')%Z) /\
  match r with
  | None => starts_with "once:" e = true
  | Some t => (now + failure_backoff_duration k <= t)%Z /\
              exists scheduled, next_run e now = Ok scheduled /\ (scheduled <= t)%Z
  end.
Proof.
  intros Hk Hr. split; [by apply backoff_range|]. split; [intros k' ?; apply backoff_mono; lia|].
  unfold next_run_after_failure in Hr. destruct (starts_with "once:" e); [by simplify_eq|].
  apply rbind_ok in Hr as (s & Hs & Hr). apply rbind_ok in Hr as (b & Hb & [= <-]).
  apply add_delta_ok in Hb as [-> _]. split; [lia|]. exists s. split; [done | lia].
Qed.

(** A long interval is accepted by the parser and by [from_std], and then
    overflows the calendar: the scheduler panics instead of refusing it. *)
Lemma long_interval_panics :
  next_run "every 100000000 days" 0 = Err (Panicked "`DateTime + TimeDelta` overflowed").
Proof. vm_compute. reflexivity. Qed.
End NextFacts.

(** ** Repeat counters *)

(** The [repeat] entry, if any, is an object. *)
Definition repeat_shaped (p : value) : Prop :=
  is_object p = true /\ forall r, get "repeat" p = Some r -> is_object r = true.

Lemma times_insert n p : is_object p = true -> times_of (obj_insert "completed" (JPos n) p) = times_of p.
Proof. intros Hp. unfold times_of. by rewrite get_obj_insert_ne by done. Qed.

Lemma completed_insert n p : is_object p = true -> completed_of (obj_insert "completed" (JPos n) p) = n.
Proof. intros Hp. unfold completed_of. by rewrite get_obj_insert by done. Qed.

Lemma increment_counts p t c :
  repeat_shaped p -> extract_repeat_info p = (t, c) -> (c + 1 < U64_BOUND)%N ->
  let '(p', info) := increment_repeat_completed p in
  info = (t, c + 1)%N /\ extract_repeat_info p' = (t, c + 1)%N /\ repeat_shaped p'.
Proof.
  intros [Hp Hr] He Hc. unfold extract_repeat_info, increment_repeat_completed in *.
  assert (Hs : forall n, (n + 1 < U64_BOUND)%N -> u64_succ n = (n + 1)%N) by (intros; by apply N.mod_small).
  destruct (get "repeat" p) as [r|] eqn:E.
  - specialize (Hr r eq_refl). rewrite Hr. injection He as <- <-. rewrite (Hs _ Hc). split; [done|].
    rewrite get_obj_insert by done. rewrite times_insert, completed_insert by done. split; [done|].
    split; [by rewrite is_object_insert|]. intros x. rewrite get_obj_insert by done. intros [= <-].
    by rewrite is_object_insert.
  - injection He as <- <-. rewrite Hp, (Hs _ Hc). destruct (times_of p) as [n|] eqn:Et; (split; [done|]).
    + rewrite get_obj_insert_ne, E by done. rewrite times_insert, completed_insert, Et by done.
      split; [done|]. split; [by rewrite is_object_insert|].
      intros x. rewrite get_obj_insert_ne by done. by rewrite E.
    + rewrite get_obj_insert by done. split; [done|]. split; [by rewrite is_object_insert|].
      intros x. rewrite get_obj_insert by done. by intros [= <-].
Qed.

(** A repeat limit is reached after exactly that many completions: the
    payload a completion writes reads back with one completion more and the
    same limit, so starting from [completed] the job is disabled by the run
    that reaches the limit and by none before it. *)
Theorem repeat_limit_exact p limit completed n :
  repeat_shaped p -> extract_repeat_info p = (Some limit, completed) ->
  (0 < limit)%N -> (completed + N.of_nat n < U64_BOUND)%N ->
  let p' := Nat.iter n (fun q => fst (increment_repeat_completed q)) p in
  extract_repeat_info p' = (Some limit, completed + N.of_nat n)%N /\
  should_disable_after (snd (extract_repeat_info p')) (fst (extract_repeat_info p')) =
    (limit <=? completed + N.of_nat n)%N.
Proof.
  intros Hp He Hl Hc p'. assert (Hn : repeat_shaped p' /\ extract_repeat_info p' = (Some limit, completed + N.of_nat n)%N).
  { unfold p'. clear p'. induction n as [|n IH]; simpl; [split; [done|]; by rewrite N.add_0_r|].
    destruct IH as [Hs Hx]; [lia|].
    pose proof (increment_counts _ _ _ Hs Hx) as Hi. destruct (increment_repeat_completed _) as [q info].
    destruct Hi as (_ & Hq & Hqs); [lia|]. split; [done|]. simpl. rewrite Hq. f_equal. lia. }
  destruct Hn as [_ Hx]. split; [done|]. rewrite Hx. simpl. by rewrite (proj2 (N.ltb_lt _ _) Hl).
Qed.

(** ** Witnesses *)

(** Timestamps are decimal nanoseconds, one schedule "* * * * *" of whole
    minutes, and JSON texts are not parsed. *)
Program Definition toy_libs : CronLibs := {|
  parse_rfc3339 s := match parse_u64 s with Some n => Ok (Z.of_N n) | None => Err "not a timestamp" end;
  to_rfc3339 t := show_N (Z.to_N t);
  Tz := unit;
  parse_tz name := if String.eqb name "UTC" then Some tt else None;
  Sched := unit;
  parse_schedule s := if String.eqb s "0 * * * * *" then Ok tt else Err "unsupported";
  upcoming _ _ t := Some ((t / minutes 1 + 1) * minutes 1)%Z;
  parse_json _ := Err "unsupported";
  print_json _ := ""
|}.
Next Obligation.
  intros [] tz t u [= <-]. unfold minutes, seconds, NS.
  pose proof (Z.mul_succ_div_gt t (1 * 60 * 1000000000)). lia.
Qed.

#[local] Existing Instance toy_libs.

Lemma next_run_schedulable_witness : (seconds 30 < minutes 1)%Z.
Proof.
  apply (next_run_schedulable "* * * * *" (seconds 30) (Some " UTC ") (minutes 1)). vm_compute. reflexivity.
Defined.

Lemma retry_backs_off_witness : (seconds 5 + failure_backoff_duration 3 <= seconds 45)%Z.
Proof.
  apply (retry_backs_off "every 10s" (seconds 5) 3 (Some (seconds 45))); [lia | vm_compute; reflexivity].
Defined.

Lemma repeat_limit_exact_witness :
  should_disable_after 3 (Some 3%N) = true.
Proof.
  apply (repeat_limit_exact (JObject [("repeat", JObject [("times", JPos 3); ("completed", JPos 1)])]) 3 1 2);
    [|reflexivity|lia|vm_compute; reflexivity].
  split; [reflexivity|]. intros r [= <-]. reflexivity.
Defined.
