(* ===== verification/Cron.v ===== *)
(** * Cron jobs and their runs ([src/cron/scheduler.rs], [store.rs], [guard.rs])

    The tables [cron_jobs], [cron_runs], [cron_outputs], [cron_incidents] and
    the cutover receipts, the leases that make a run exclusive, and the
    statements of every scheduler operation.  The clock, the process id and
    the UUIDs are arguments; the scan of prompts is the interface of the
    security component. *)
From stdpp Require Import base list strings relations.
From Stdlib Require Import ZArith NArith Lia Ascii String.
From S2P Require Import Prelude RustStr Json Db Schedule.
Open Scope string_scope.
Open Scope omon_scope.
Open Scope db_scope.
Local Notation length := Datatypes.length.

(** ** Authority ([store.rs]) *)

Inductive CronAuthority : Type := HermesMirror | CutoverPending | OmonOwned.

Definition authority_str (a : CronAuthority) : string :=
  match a with
  | HermesMirror => "hermes_mirror"
  | CutoverPending => "cutover_pending"
  | OmonOwned => "omon_owned"
  end.

Definition authority_from_str (s : string) : result CronAuthority OmonError :=
  if String.eqb s "hermes_mirror" then Ok HermesMirror
  else if String.eqb s "cutover_pending" then Ok CutoverPending
  else if String.eqb s "omon_owned" then Ok OmonOwned
  else Err (Config ("unknown cron authority: " ++ s)).

(** ** Rows *)

Record CronJob : Type := mkJob {
  job_id : string;
  job_session_key : option string;
  expression : string;
  payload_json : string;
  enabled : bool;
  next_run_at : option Z;
  job_created_at : Z;
  job_updated_at : Z;
  authority : string
}.

Record CronRun : Type := mkRun {
  run_id : string;
  run_job : string;
  claim_token : string;
  lease_expires_at : Z;
  started_at : Z;
  run_completed_at : option Z;
  run_status : string;
  attempt_no : Z;
  run_error : option string;
  owner_pid : option Z
}.

Record CronOutput : Type := mkOutput {
  out_profile : string;
  out_job : string;
  out_run : string;
  out_text : string;
  out_created_at : string
}.

Record CronIncident : Type := mkIncident {
  inc_job : string;
  error_signature : string;
  acknowledged : bool;
  inc_updated_at : string
}.

Record CronClaim : Type := mkClaim {
  cl_run_id : string;
  cl_token : string;
  cl_job : CronJob;
  advance_schedule : bool
}.

Record CronJobSpec : Type := mkSpec {
  spec_expression : string;
  spec_payload : value;
  spec_session_key : option string
}.

(** The tables, the statuses of the cutover receipts when their table exists,
    the session keys jobs may refer to, and the executions started. *)
Record CronState : Type := mkCron {
  jobs : list CronJob;
  runs : list CronRun;
  outputs : list CronOutput;
  incidents : list CronIncident;
  receipts : option (list string);
  session_keys : list string;
  executions : list CronClaim
}.

Definition set_jobs f (s : CronState) :=
  mkCron (f (jobs s)) (runs s) (outputs s) (incidents s) (receipts s) (session_keys s) (executions s).
Definition set_runs f (s : CronState) :=
  mkCron (jobs s) (f (runs s)) (outputs s) (incidents s) (receipts s) (session_keys s) (executions s).
Definition set_outputs f (s : CronState) :=
  mkCron (jobs s) (runs s) (f (outputs s)) (incidents s) (receipts s) (session_keys s) (executions s).
Definition set_incidents f (s : CronState) :=
  mkCron (jobs s) (runs s) (outputs s) (f (incidents s)) (receipts s) (session_keys s) (executions s).
Definition set_executions f (s : CronState) :=
  mkCron (jobs s) (runs s) (outputs s) (incidents s) (receipts s) (session_keys s) (f (executions s)).

Definition is_job (id : string) (r : CronJob) : bool := String.eqb (job_id r) id.
Definition of_job (id : string) (r : CronRun) : bool := String.eqb (run_job r) id.
Definition is_running (r : CronRun) : bool := String.eqb (run_status r) "running".
Definition running_of (id : string) (r : CronRun) : bool := of_job id r && is_running r.

(** [CronJob::authority]: an empty or unknown text reads as [OmonOwned]. *)
Definition job_authority (j : CronJob) : CronAuthority :=
  match authority_from_str (authority j) with Ok a => a | Err _ => OmonOwned end.

(** ** The guards of a payload *)

Definition GATEWAY_LIFECYCLE_PATTERNS : list string :=
  ["(?i)\b(?:hermes|omon)\s+(?:gateway\s+)?(?:restart|stop)\b";
   "(?i)\bomon(?:-gateway)?\s+restart\b";
   "(?i)\blaunchctl\s+(?:kickstart|unload|load|stop|restart)\b[^\n]*\b(?:omon|hermes)";
   "(?i)\bsystemctl\s+(?:-\S+\s+)*(?:restart|stop|start)\b[^\n]*\b(?:omon|hermes)";
   "(?i)\bp?kill(?:all)?\b[^\n]*\b(?:omon|hermes)\b[^\n]*\bgateway";
   "(?i)\bp?kill(?:all)?\b[^\n]*\bgateway\b[^\n]*\b(?:omon|hermes)";
   "(?i)\bp?kill(?:all)?\b[^\n]*\b(?:omon-gateway|hermes-gateway)\b"].

(** The regex library, and what the security component promises the scheduler:
    the threats of a prompt, none for a blank one. *)
Class PayloadGuard := {
  is_match : string -> string -> bool;
  scan_cron_prompt : string -> list string;
  scan_blank : forall p, trim p = "" -> scan_cron_prompt p = []
}.

Section Cron.
Context `{Sqlite} `{CronLibs} `{PayloadGuard}.
(** [kill(pid, 0)] of a nonzero pid, and the lowercase expansion of a text. *)
Context (process_exists : Z -> bool) (to_lowercase : string -> string).

Definition check_gateway_lifecycle (spec : string) : result unit string :=
  if String.eqb (trim spec) "" then Ok tt
  else match List.find (fun p => is_match p spec) GATEWAY_LIFECYCLE_PATTERNS with
       | Some p => Err ("gateway lifecycle guard: command/prompt matches forbidden self-restart pattern `"
                        ++ p ++ "`")
       | None => Ok tt
       end.

(** One text entry of a payload against the lifecycle guard. *)
Definition guard_entry (name : string) (payload : value) : result unit OmonError :=
  match get name payload ≫= as_str with
  | Some text =>
      match check_gateway_lifecycle text with
      | Ok _ => Ok tt
      | Err e => Err (Config ("gateway lifecycle violation in " ++ name ++ ": " ++ e))
      end
  | None => Ok tt
  end.

Definition validate_cron_payload_lifecycle (payload : value) : result unit OmonError :=
  _ <-? guard_entry "prompt" payload ;;
  _ <-? match get "prompt" payload ≫= as_str with
        | Some prompt =>
            match scan_cron_prompt prompt with
            | [] => Ok tt
            | threats => Err (Config ("cron prompt injection detected: " ++ join "; " threats))
            end
        | None => Ok tt
        end ;;
  _ <-? guard_entry "script" payload ;;
  _ <-? guard_entry "command" payload ;;
  guard_entry "ack_command" payload.

(** ** Registration and control *)

Definition get_job (id : string) : M CronState (option CronJob) :=
  query (fun s => head (select (is_job id) (jobs s))).

Definition session_exists (key : option string) (s : CronState) : bool :=
  match key with Some k => existsb (String.eqb k) (session_keys s) | None => true end.

Definition new_job (id : string) (spec : CronJobSpec) (next now : Z) : CronJob :=
  mkJob id (spec_session_key spec) (spec_expression spec) (print_json (spec_payload spec))
    true (Some next) now now "omon_owned".

(** The insert of [register_with_id], with its [ON CONFLICT(id) DO UPDATE]. *)
Definition upsert_job (row : CronJob) (s : CronState) : result unit OmonError * CronState :=
  if negb (session_exists (job_session_key row) s)
  then (Err (Database (constraint_error "cron_jobs.session_key")), s)
  else if existsb (is_job (job_id row)) (jobs s)
  then (Ok tt, set_jobs (update_where (is_job (job_id row)) (fun r =>
         mkJob (job_id r) (job_session_key row) (expression row) (payload_json row) (enabled r)
           (next_run_at row) (job_created_at r) (job_updated_at row) (authority r))) s)
  else (Ok tt, set_jobs (fun t => (t ++ [row])%list) s).

(** The insert of [register]: the id is the primary key. *)
Definition insert_job (row : CronJob) (s : CronState) : result unit OmonError * CronState :=
  if negb (session_exists (job_session_key row) s)
  then (Err (Database (constraint_error "cron_jobs.session_key")), s)
  else if existsb (is_job (job_id row)) (jobs s)
  then (Err (Database (constraint_error "cron_jobs.id")), s)
  else (Ok tt, set_jobs (fun t => (t ++ [row])%list) s).

Definition registered (id : string) : M CronState CronJob :=
  job <- get_job id ;; lift (ok_or job (Database "registered cron job disappeared")).

Definition register_with_id (id : string) (spec : CronJobSpec) (now : Z) : M CronState CronJob :=
  lift (validate_cron_payload_lifecycle (spec_payload spec)) ;;;
  next <- lift (next_run (spec_expression spec) now) ;;
  exec (upsert_job (new_job id spec next now)) ;;;
  registered id.

Definition register (uuid : string) (spec : CronJobSpec) (now : Z) : M CronState CronJob :=
  lift (validate_cron_payload_lifecycle (spec_payload spec)) ;;;
  next <- lift (next_run (spec_expression spec) now) ;;
  exec (insert_job (new_job uuid spec next now)) ;;;
  registered uuid.

Definition set_schedule (on : bool) (next : option Z) (now : Z) (r : CronJob) : CronJob :=
  mkJob (job_id r) (job_session_key r) (expression r) (payload_json r) on next (job_created_at r) now (authority r).

Definition pause (id : string) (now : Z) : M CronState bool :=
  affected <- stmt (fun s => (count (is_job id) (jobs s),
                              set_jobs (update_where (is_job id) (set_schedule false None now)) s)) ;;
  ret (negb (affected =? 0)%nat).

Definition resume (id : string) (now : Z) : M CronState bool :=
  job <- get_job id ;;
  match job with
  | None => ret false
  | Some job =>
      next <- lift (next_run (expression job) now) ;;
      stmt (fun s => (tt, set_jobs (update_where (is_job id) (set_schedule true (Some next) now)) s)) ;;;
      ret true
  end.

(** Deleting a job deletes its runs ([ON DELETE CASCADE]). *)
Definition delete (id : string) : M CronState bool :=
  affected <- stmt (fun s => (count (is_job id) (jobs s),
    if existsb (is_job id) (jobs s)
    then set_runs (delete_where (of_job id)) (set_jobs (delete_where (is_job id)) s) else s)) ;;
  ret (negb (affected =? 0)%nat).

(** [ORDER BY next_run_at, id]; NULL comes first. *)
Definition due_before (a b : CronJob) : bool :=
  match next_run_at a, next_run_at b with
  | None, Some _ => true
  | Some _, None => false
  | Some x, Some y => (x <? y)%Z || ((x =? y)%Z && String.leb (job_id a) (job_id b))
  | None, None => String.leb (job_id a) (job_id b)
  end.
Fixpoint insert_due (r : CronJob) (l : list CronJob) : list CronJob :=
  match l with [] => [r] | x :: rest => if due_before x r then x :: insert_due r rest else r :: l end.
Definition due_order (t : list CronJob) : list CronJob := fold_right insert_due [] t.

Definition list_active : M CronState (list CronJob) :=
  query (fun s => due_order (select enabled (jobs s))).

Definition set_authority (id : string) (a : CronAuthority) (now : Z) : M CronState bool :=
  affected <- stmt (fun s => (count (is_job id) (jobs s), set_jobs (update_where (is_job id) (fun r =>
    mkJob (job_id r) (job_session_key r) (expression r) (payload_json r) (enabled r) (next_run_at r)
      (job_created_at r) now (authority_str a))) s)) ;;
  ret (0 <? affected)%nat.

Definition get_authority (id : string) : M CronState (option CronAuthority) :=
  row <- query (fun s => authority <$> head (select (is_job id) (jobs s))) ;;
  match row with
  | None => ret None
  | Some a => parsed <- lift (authority_from_str a) ;; ret (Some parsed)
  end.

Definition acknowledge_incident (id : string) (signature : option string) (now : Z) : M CronState bool :=
  let p r := String.eqb (inc_job r) id
             && match signature with Some sg => String.eqb (error_signature r) sg | None => true end in
  affected <- stmt (fun s => (count p (incidents s), set_incidents (update_where p (fun r =>
    mkIncident (inc_job r) (error_signature r) true (to_rfc3339 now))) s)) ;;
  ret (0 <? affected)%nat.

(** ** Claiming a run *)

(** Two statements: does the table exist, and has it a pending row? *)
Definition has_pending_cutover_receipt : M CronState bool :=
  table_exists <- query (fun s => match receipts s with Some _ => true | None => false end) ;;
  if negb table_exists then ret false
  else query (fun s => match receipts s with Some l => existsb (String.eqb "pending") l | None => false end).

(** [owner_pid_i64.and_then(|p| if p > 0 { Some(p as u32) } else { None })]. *)
Definition candidate_pid (p : option Z) : option Z :=
  match p with Some p => if (0 <? p)%Z then Some (p mod 2 ^ 32)%Z else None | None => None end.

Definition is_process_alive (pid : Z) : bool :=
  if (pid =? 0)%Z then false else process_exists pid.

Definition should_reclaim (owner : option Z) (lease_expired : bool) (lease_age : Z) : bool :=
  should_reclaim_with owner lease_expired lease_age is_process_alive.

Definition expired_run (id : string) (now : Z) (r : CronRun) : bool :=
  running_of id r && (lease_expires_at r <=? now)%Z.

(** [COALESCE(error, 'lease expired before completion')]. *)
Definition reclaimed (now : Z) (r : CronRun) : CronRun :=
  mkRun (run_id r) (run_job r) (claim_token r) (lease_expires_at r) (started_at r) (Some now) "failed"
    (attempt_no r) (Some (default "lease expired before completion" (run_error r))) (owner_pid r).

Definition running_run (rid : string) (r : CronRun) : bool := String.eqb (run_id r) rid && is_running r.

Definition reclaim_run (now : Z) (r : CronRun) : M CronState unit :=
  if should_reclaim (candidate_pid (owner_pid r)) true (now - lease_expires_at r)
  then stmt (fun s => (tt, set_runs (update_where (running_run (run_id r)) (reclaimed now)) s))
  else ret tt.

Definition not_pending (j : CronJob) : bool := negb (String.eqb (authority j) "cutover_pending").

Definition missed_payload (now : Z) (payload : value) : value :=
  if is_object payload then
    obj_insert "last_delivery_error" JNull
      (obj_insert "last_error" (JString "missed: overdue unclaimed one-shot past grace")
        (obj_insert "last_run_at" (JString (to_rfc3339 now))
          (obj_insert "last_status" (JString "missed") payload)))
  else payload.

(** The compare-and-swap that retires a one-shot: the row is as observed and
    nobody is running it. *)
Definition unchanged_oneshot (id expr : string) (next : Z) (payload : string) (s : CronState) (r : CronJob) : bool :=
  is_job id r && enabled r && String.eqb (expression r) expr
  && match next_run_at r with Some t => (t =? next)%Z | None => false end
  && String.eqb (payload_json r) payload && negb (existsb (running_of id) (runs s)).

Definition retire (payload : string) (now : Z) (r : CronJob) : CronJob :=
  mkJob (job_id r) (job_session_key r) (expression r) payload false None (job_created_at r) now (authority r).

Definition retire_overdue_oneshot (id expr : string) (observed_next_run_at : Z)
    (observed_payload_json : string) (now : Z) : M CronState bool :=
  payload <- lift (match parse_json observed_payload_json with
                   | Ok v => Ok v
                   | Err e => Err (Config ("invalid cron payload: " ++ e)) end) ;;
  let updated := print_json (missed_payload now payload) in
  affected <- stmt (fun s =>
    let p := unchanged_oneshot id expr observed_next_run_at observed_payload_json s in
    (count p (jobs s), set_jobs (update_where p (retire updated now)) s)) ;;
  ret (0 <? affected)%nat.

(** [COALESCE((SELECT MAX(attempt) + 1 ...), 1)]. *)
Definition next_attempt (id : string) (t : list CronRun) : Z :=
  match map attempt_no (select (of_job id) t) with
  | [] => 1%Z
  | a :: rest => (fold_left Z.max rest a + 1)%Z
  end.

Definition claimable_job (id : string) (require_due : bool) (now : Z) (s : CronState) (r : CronJob) : bool :=
  is_job id r
  && (if require_due
      then enabled r && match next_run_at r with Some t => (t <=? now)%Z | None => false end else true)
  && not_pending r && negb (existsb (running_of id) (runs s)).

(** The inserting select of [claim_job]: the number of rows inserted. *)
Definition insert_run (id rid token : string) (require_due : bool) (pid now : Z) (s : CronState) :
    result nat OmonError * CronState :=
  if negb (existsb (claimable_job id require_due now s) (jobs s)) then (Ok 0, s)
  else if existsb (fun r => String.eqb (run_id r) rid || String.eqb (claim_token r) token) (runs s)
  then (Err (Database (constraint_error "cron_runs")), s)
  else (Ok 1, set_runs (fun t => (t ++ [mkRun rid id token (now + LEASE_DURATION) now None "running"
                                  (next_attempt id t) None (Some pid)])%list) s).

(** The last part of [claim_job]: the insert, and the job read back. *)
Definition insert_claim (id rid token : string) (require_due advance : bool) (pid now : Z) :
    M CronState (option CronClaim) :=
  inserted <- exec (insert_run id rid token require_due pid now) ;;
  if (inserted =? 0)%nat then ret None
  else
    job <- get_job id ;;
    job <- lift (ok_or job (Database ("claimed cron job " ++ id ++ " disappeared"))) ;;
    ret (Some (mkClaim rid token job advance)).

(** A one-shot whose time passed longer ago than the grace. *)
Definition overdue_oneshot (expr : string) (next now : Z) : bool :=
  starts_with "once:" expr && (ONESHOT_GRACE_DURATION <? now - next)%Z.

(** Reading a payload without failing: [unwrap_or_default]. *)
Definition payload_or_null (text : string) : value :=
  match parse_json text with Ok v => v | Err _ => JNull end.

Definition claim_job (id : string) (require_due advance : bool) (rid token : string) (pid now : Z) :
    M CronState (option CronClaim) :=
  pending <- has_pending_cutover_receipt ;;
  if pending : bool then ret None
  else
    candidate_runs <- query (fun s => select (expired_run id now) (runs s)) ;;
    for_each (reclaim_run now) candidate_runs ;;;
    job_row <- query (fun s => head (select (fun r => is_job id r && not_pending r) (jobs s))) ;;
    match job_row with
    | None => ret None
    | Some row =>
        let '(times, completed) := extract_repeat_info (payload_or_null (payload_json row)) in
        if should_disable_after completed times then ret None
        else if require_due then
          if negb (enabled row) then ret None
          else match next_run_at row with
               | None => ret None
               | Some next =>
                   if overdue_oneshot (expression row) next now then
                     retire_overdue_oneshot id (expression row) next (payload_json row) now ;;; ret None
                   else insert_claim id rid token require_due advance pid now
               end
        else insert_claim id rid token require_due advance pid now
    end.

Definition spawn_claim (c : CronClaim) : M CronState unit :=
  mem (fun s => (tt, set_executions (fun l => (l ++ [c])%list) s)).

(** [trigger]: a manual run, which does not consume the schedule. *)
Definition trigger (id rid token : string) (pid now : Z) : M CronState bool :=
  job <- get_job id ;;
  match job with
  | None => ret false
  | Some _ =>
      claim <- claim_job id false false rid token pid now ;;
      match claim with
      | None => ret false
      | Some claim => spawn_claim claim ;;; ret true
      end
  end.

Definition is_due (now : Z) (r : CronJob) : bool :=
  enabled r && match next_run_at r with Some t => (t <=? now)%Z | None => false end && not_pending r.

(** The loop of [run_due_jobs]; [ids] draws the run id and token of a claim
    and the clock of each claim is [now]. *)
Fixpoint claim_due (ids : string -> string * string) (pid now : Z) (l : list string) : M CronState nat :=
  match l with
  | [] => ret 0
  | id :: rest =>
      claim <- claim_job id true true (fst (ids id)) (snd (ids id)) pid now ;;
      match claim with
      | Some claim => spawn_claim claim ;;; n <- claim_due ids pid now rest ;; ret (S n)
      | None => claim_due ids pid now rest
      end
  end.

Definition run_due_jobs (ids : string -> string * string) (pid now : Z) : M CronState nat :=
  pending <- has_pending_cutover_receipt ;;
  if pending : bool then ret 0
  else
    due <- query (fun s => map job_id (due_order (select (is_due now) (jobs s)))) ;;
    claim_due ids pid now due.

(** ** Leases and completion *)

Definition refresh_lease (token : string) (now : Z) : M CronState unit :=
  stmt (fun s => (tt, set_runs (update_where (fun r => String.eqb (claim_token r) token && is_running r)
    (fun r => mkRun (run_id r) (run_job r) (claim_token r) (now + LEASE_DURATION) (started_at r)
       (run_completed_at r) (run_status r) (attempt_no r) (run_error r) (owner_pid r))) s)).

Definition claimed_run (c : CronClaim) (r : CronRun) : bool :=
  String.eqb (run_id r) (cl_run_id c) && String.eqb (claim_token r) (cl_token c) && is_running r.

Definition finish_run (status : string) (error : option string) (now : Z) (r : CronRun) : CronRun :=
  mkRun (run_id r) (run_job r) (claim_token r) now (started_at r) (Some now) status (attempt_no r) error (owner_pid r).

(** The update that closes the run of a claim: rows affected. *)
Definition close_run (c : CronClaim) (status : string) (error : option string) (now : Z) : M CronState nat :=
  stmt (fun s => (count (claimed_run c) (runs s),
                  set_runs (update_where (claimed_run c) (finish_run status error now)) s)).

(** A completion that lost its claim: a finished run is left as it is. *)
Definition already_final (c : CronClaim) : M CronState unit :=
  current <- query (fun s => run_status <$> head (select (fun r => String.eqb (run_id r) (cl_run_id c)) (runs s))) ;;
  match current with
  | Some status =>
      if existsb (String.eqb status) ["succeeded"; "failed"; "abandoned"] then ret tt
      else fail (Database ("cron claim " ++ cl_token c ++ " for run " ++ cl_run_id c
                           ++ " is no longer active (status: " ++ status ++ ")"))
  | None => fail (Database ("cron claim " ++ cl_token c ++ " for run " ++ cl_run_id c ++ " not found"))
  end.

(** The job of the claim, if it is as it was claimed. *)
Definition same_job (c : CronClaim) (r : CronJob) : bool :=
  is_job (job_id (cl_job c)) r && String.eqb (expression r) (expression (cl_job c))
  && String.eqb (payload_json r) (payload_json (cl_job c)).

Definition update_job (p : CronJob -> bool) (f : CronJob -> CronJob) : M CronState unit :=
  stmt (fun s => (tt, set_jobs (update_where p f) s)).

Definition disable_job (c : CronClaim) (payload : string) (now : Z) : M CronState unit :=
  update_job (same_job c) (retire payload now).

Definition reschedule (payload : string) (next now : Z) (r : CronJob) : CronJob :=
  mkJob (job_id r) (job_session_key r) (expression r) payload (enabled r) (Some next) (job_created_at r) now (authority r).
Definition reschedule_job (c : CronClaim) (payload : string) (next now : Z) : M CronState unit :=
  update_job (fun r => same_job c r && enabled r) (reschedule payload next now).

Definition repay (payload : string) (now : Z) (r : CronJob) : CronJob :=
  mkJob (job_id r) (job_session_key r) (expression r) payload (enabled r) (next_run_at r) (job_created_at r) now (authority r).

(** [serde_json::from_str(...).unwrap_or_else(|_| json!({}))]. *)
Definition payload_or_empty (text : string) : value :=
  match parse_json text with Ok v => v | Err _ => JObject [] end.

Definition success_payload (now : Z) (p : value) : value :=
  if is_object p then
    obj_insert "last_delivery_error" JNull (obj_insert "last_error" JNull
      (obj_insert "last_run_at" (JString (to_rfc3339 now))
        (obj_insert "last_status" (JString "succeeded") p)))
  else p.

(** [CronJob::profile]. *)
Definition profile (j : CronJob) : string :=
  let named := match parse_json (payload_json j) with
               | Ok v => match get "profile" v ≫= as_str with Some "" => None | other => other end
               | Err _ => None end in
  match named with
  | Some p => p
  | None =>
      match job_session_key j with
      | Some key =>
          match split_char ":" key with
          | platform :: p :: _ => if String.eqb platform "discord" then p else ""
          | _ => ""
          end
      | None => ""
      end
  end.

Definition put_output (row : CronOutput) (t : list CronOutput) : list CronOutput :=
  let same r := String.eqb (out_profile r) (out_profile row) && String.eqb (out_job r) (out_job row)
                && String.eqb (out_run r) (out_run row) in
  if existsb same t
  then update_where same (fun r => mkOutput (out_profile r) (out_job r) (out_run r) (out_text row) (out_created_at row)) t
  else (t ++ [row])%list.

Definition record_output (c : CronClaim) (output : option string) (now : Z) : M CronState unit :=
  match output with
  | Some out =>
      attempt (stmt (fun s => (tt, set_outputs (put_output
        (mkOutput (profile (cl_job c)) (job_id (cl_job c)) (cl_run_id c) out (to_rfc3339 now))) s))) ;;;
      ret tt
  | None => ret tt
  end.

Definition is_oneshot (c : CronClaim) : bool := starts_with "once:" (expression (cl_job c)).

(** The job's part of [complete_success]. *)
Definition advance_after_success (c : CronClaim) (now : Z) : M CronState unit :=
  let '(incremented, (times, completed_count)) := increment_repeat_completed (payload_or_empty (payload_json (cl_job c))) in
  let payload := success_payload now incremented in
  let updated := print_json payload in
  if advance_schedule c then
    if is_oneshot c || should_disable_after completed_count times then disable_job c updated now
    else
      let timezone := (get "schedule" payload ≫= get "timezone") ≫= as_str in
      next <- lift (next_run_tz (expression (cl_job c)) now timezone) ;;
      reschedule_job c updated next now
  else update_job (same_job c) (repay updated now).

(** Both completions: the run is closed and the job advanced in one
    transaction; when the claim is lost the transaction is rolled back (nothing
    was written) and the run's status decides. *)
Definition complete (c : CronClaim) (status : string) (error : option string)
    (advance : M CronState unit) (now : Z) : M CronState unit :=
  closed <- transaction (
    affected <- close_run c status error now ;;
    if (affected =? 0)%nat then ret false else advance ;;; ret true) ;;
  if closed : bool then ret tt else already_final c.

Definition complete_success (c : CronClaim) (output : option string) (now : Z) : M CronState unit :=
  complete c "succeeded" None (advance_after_success c now ;;; record_output c output now) now.

Definition failure_payload (now : Z) (err : string) (p : value) : value :=
  if is_object p then
    let p := obj_insert "last_error" (JString err)
               (obj_insert "last_run_at" (JString (to_rfc3339 now))
                 (obj_insert "last_status" (JString "failed") p)) in
    if contains "deliver" (to_lowercase err) || contains "discord" (to_lowercase err)
    then obj_insert "last_delivery_error" (JString err) p
    else obj_insert "last_delivery_error" JNull p
  else p.

(** [ORDER BY started_at DESC, run_id DESC LIMIT 50]. *)
Definition recent_before (a b : CronRun) : bool :=
  (started_at b <? started_at a)%Z || ((started_at b =? started_at a)%Z && String.leb (run_id b) (run_id a)).
Fixpoint insert_recent (r : CronRun) (l : list CronRun) : list CronRun :=
  match l with [] => [r] | x :: rest => if recent_before x r then x :: insert_recent r rest else r :: l end.
Definition recent_statuses (id : string) (t : list CronRun) : list string :=
  map run_status (take 50 (fold_right insert_recent [] (select (of_job id) t))).

Fixpoint take_while {A} (p : A -> bool) (l : list A) : list A :=
  match l with x :: rest => if p x then x :: take_while p rest else [] | [] => [] end.
Definition consecutive_failures (id : string) (t : list CronRun) : N :=
  N.of_nat (length (take_while (String.eqb "failed") (recent_statuses id t))).

(** The job's part of [complete_failure]. *)
Definition advance_after_failure (c : CronClaim) (err : string) (now : Z) : M CronState unit :=
  let '(payload, (times, completed_count)) :=
    increment_repeat_completed (failure_payload now err (payload_or_empty (payload_json (cl_job c)))) in
  let updated := print_json payload in
  if advance_schedule c then
    if is_oneshot c || should_disable_after completed_count times then disable_job c updated now
    else
      failures <- query (fun s => consecutive_failures (job_id (cl_job c)) (runs s)) ;;
      match next_run_after_failure (expression (cl_job c)) now failures with
      | Ok (Some next) => reschedule_job c updated next now
      | Ok None => disable_job c updated now
      | Err (Panicked m) => fail (Panicked m)
      | Err _ => disable_job c updated now
      end
  else update_job (same_job c) (repay updated now).

Definition complete_failure (c : CronClaim) (err : string) (now : Z) : M CronState unit :=
  complete c "failed" (Some err) (advance_after_failure c err now) now.

(** ** Retention ([prune_terminal_cron_runs]) *)

Definition terminal_before (cutoff : Z) (r : CronRun) : bool :=
  (String.eqb (run_status r) "succeeded" || String.eqb (run_status r) "failed")
  && (default (started_at r) (run_completed_at r) <? cutoff)%Z.

Definition prune_terminal_cron_runs (retention_days now : Z) : M CronState nat :=
  if (retention_days <? 0)%Z then fail (Config "cron run retention days must be non-negative")
  else
    let cutoff := (now - seconds (retention_days * 86400))%Z in
    stmt (fun s => (count (terminal_before cutoff) (runs s), set_runs (delete_where (terminal_before cutoff)) s)).

(** ** Statements as steps

    What one statement of any scheduler does to the tables.  Interleaving
    schedulers, crashed schedulers and failing statements all produce
    sequences of these steps. *)
Inductive cron_step (s : CronState) : CronState -> Prop :=
| step_claim id rid token require_due pid now n s' :
    insert_run id rid token require_due pid now s = (Ok n, s') -> cron_step s s'
| step_reclaim rid now : cron_step s (set_runs (update_where (running_run rid) (reclaimed now)) s)
| step_refresh token now :
    cron_step s (set_runs (update_where (fun r => String.eqb (claim_token r) token && is_running r)
      (fun r => mkRun (run_id r) (run_job r) (claim_token r) (now + LEASE_DURATION) (started_at r)
         (run_completed_at r) (run_status r) (attempt_no r) (run_error r) (owner_pid r))) s)
| step_close c status error now :
    status = "succeeded" \/ status = "failed" ->
    cron_step s (set_runs (update_where (claimed_run c) (finish_run status error now)) s)
| step_job_update p f :
    (forall r, job_id (f r) = job_id r) -> cron_step s (set_jobs (update_where p f) s)
| step_job_insert row :
    existsb (is_job (job_id row)) (jobs s) = false -> cron_step s (set_jobs (fun t => (t ++ [row])%list) s)
| step_delete id : cron_step s (set_runs (delete_where (of_job id)) (set_jobs (delete_where (is_job id)) s))
| step_prune cutoff : cron_step s (set_runs (delete_where (terminal_before cutoff)) s)
| step_outputs f : cron_step s (set_outputs f s)
| step_incidents f : cron_step s (set_incidents f s)
| step_executions f : cron_step s (set_executions f s).

Inductive cron_op : Type :=
| OpRegisterWithId (id : string) (spec : CronJobSpec) (now : Z)
| OpRegister (uuid : string) (spec : CronJobSpec) (now : Z)
| OpPause (id : string) (now : Z)
| OpResume (id : string) (now : Z)
| OpDelete (id : string)
| OpAuthority (id : string) (a : CronAuthority) (now : Z)
| OpAcknowledge (id : string) (signature : option string) (now : Z)
| OpTrigger (id rid token : string) (pid now : Z)
| OpRunDue (ids : string -> string * string) (pid now : Z)
| OpRefresh (token : string) (now : Z)
| OpSuccess (c : CronClaim) (output : option string) (now : Z)
| OpFailure (c : CronClaim) (err : string) (now : Z)
| OpPruneRuns (retention_days now : Z).

Definition cron_perform (o : cron_op) : M CronState unit :=
  match o with
  | OpRegisterWithId id spec now => register_with_id id spec now ;;; ret tt
  | OpRegister uuid spec now => register uuid spec now ;;; ret tt
  | OpPause id now => pause id now ;;; ret tt
  | OpResume id now => resume id now ;;; ret tt
  | OpDelete id => delete id ;;; ret tt
  | OpAuthority id a now => set_authority id a now ;;; ret tt
  | OpAcknowledge id signature now => acknowledge_incident id signature now ;;; ret tt
  | OpTrigger id rid token pid now => trigger id rid token pid now ;;; ret tt
  | OpRunDue ids pid now => run_due_jobs ids pid now ;;; ret tt
  | OpRefresh token now => refresh_lease token now
  | OpSuccess c output now => complete_success c output now
  | OpFailure c err now => complete_failure c err now
  | OpPruneRuns days now => prune_terminal_cron_runs days now ;;; ret tt
  end.

Section Steps.
Context (s0 : CronState).
Notation reached := (rtc cron_step s0).

Lemma reached_step s s' : reached s -> cron_step s s' -> reached s'.
Proof. intros Hs Hst. by eapply rtc_r. Qed.

Lemma pending_steps : preserves reached has_pending_cutover_receipt.
Proof. unfold has_pending_cutover_receipt. by preserve_steps. Qed.

Lemma update_job_steps p f :
  (forall r, job_id (f r) = job_id r) -> preserves reached (update_job p f).
Proof.
  intros Hf. unfold update_job. apply preserves_stmt. intros s Hs.
  by apply (reached_step s); [|apply step_job_update].
Qed.

Lemma retire_steps id e next payload now : preserves reached (retire_overdue_oneshot id e next payload now).
Proof.
  unfold retire_overdue_oneshot. preserve_steps. intros s Hs.
  by apply (reached_step s); [|apply step_job_update].
Qed.

Lemma insert_claim_steps id rid token due advance pid now :
  preserves reached (insert_claim id rid token due advance pid now).
Proof.
  unfold insert_claim, get_job. preserve_steps. intros s Hs.
  destruct (insert_run id rid token due pid now s) as [[n|e] s'] eqn:E; simpl.
  - eapply reached_step; [exact Hs|]. by eapply step_claim.
  - unfold insert_run in E. repeat case_match; by simplify_eq.
Qed.

Lemma claim_steps id due advance rid token pid now :
  preserves reached (claim_job id due advance rid token pid now).
Proof.
  unfold claim_job. preserve_steps; try apply pending_steps; try apply insert_claim_steps; try apply retire_steps.
  unfold reclaim_run. preserve_steps. intros s Hs. eapply reached_step; [exact Hs|]. apply step_reclaim.
Qed.

Lemma complete_steps c status error advance now :
  status = "succeeded" \/ status = "failed" -> preserves reached advance ->
  preserves reached (complete c status error advance now).
Proof.
  intros Hst Ha. unfold complete, close_run, already_final. preserve_steps; try done.
  intros s Hs. eapply reached_step; [exact Hs|]. by apply step_close.
Qed.

Lemma spawn_steps c : preserves reached (spawn_claim c).
Proof.
  unfold spawn_claim. preserve_steps. intros s Hs. eapply reached_step; [exact Hs|]. apply step_executions.
Qed.

Lemma claim_due_steps ids pid now l : preserves reached (claim_due ids pid now l).
Proof.
  induction l as [|id l IH]; simpl; preserve_steps; try done; [apply claim_steps | apply spawn_steps].
Qed.

Lemma perform_steps o : preserves reached (cron_perform o).
Proof.
  destruct o; simpl.
  - unfold register_with_id, registered, get_job. preserve_steps. intros s Hs. unfold upsert_job.
    destruct (negb _); [done|]. destruct (existsb _ _) eqn:E; (eapply reached_step; [exact Hs|]).
    + by apply step_job_update.
    + by apply step_job_insert.
  - unfold register, registered, get_job. preserve_steps. intros s Hs. unfold insert_job.
    destruct (negb _); [done|]. destruct (existsb _ _) eqn:E; [done|].
    eapply reached_step; [exact Hs|]. by apply step_job_insert.
  - unfold pause. preserve_steps. intros s Hs. eapply reached_step; [exact Hs|]. by apply step_job_update.
  - unfold resume, get_job. preserve_steps. intros s Hs. eapply reached_step; [exact Hs|]. by apply step_job_update.
  - unfold delete. preserve_steps. intros s Hs. simpl. destruct (existsb _ _); [|done].
    eapply reached_step; [exact Hs|]. apply step_delete.
  - unfold set_authority. preserve_steps. intros s Hs. eapply reached_step; [exact Hs|]. by apply step_job_update.
  - unfold acknowledge_incident. preserve_steps. intros s Hs. eapply reached_step; [exact Hs|]. apply step_incidents.
  - unfold trigger, get_job. preserve_steps; [apply claim_steps | apply spawn_steps].
  - unfold run_due_jobs. preserve_steps; [apply pending_steps | apply claim_due_steps].
  - unfold refresh_lease. preserve_steps. intros s Hs. eapply reached_step; [exact Hs|]. apply step_refresh.
  - apply complete_steps; [by left|]. unfold advance_after_success, record_output, disable_job, reschedule_job.
    preserve_steps; try (by apply update_job_steps).
    intros s1 Hs. eapply reached_step; [exact Hs|]. apply step_outputs.
  - apply complete_steps; [by right|]. unfold advance_after_failure, disable_job, reschedule_job.
    preserve_steps; by apply update_job_steps.
  - unfold prune_terminal_cron_runs. preserve_steps. intros s1 Hs. eapply reached_step; [exact Hs|]. apply step_prune.
Qed.
End Steps.

(** Every scheduler operation, whatever statements fail, changes the tables
    only by a sequence of the atomic steps above, so an invariant of the steps
    holds between any two statements of any number of schedulers. *)
Theorem cron_operations_are_steps o w : rtc cron_step (st w) (st (snd (cron_perform o w))).
Proof. apply perform_steps, rtc_refl. Qed.

(** ** The invariant: at most one running run per job *)

Record cron_ok (s : CronState) : Prop := {
  job_ids_unique : NoDup (map job_id (jobs s));
  run_ids_unique : NoDup (map run_id (runs s));
  tokens_unique : NoDup (map claim_token (runs s));
  attempts_unique : NoDup (map (fun r => (run_job r, attempt_no r)) (runs s));
  single_running : forall id, count (running_of id) (runs s) <= 1;
  runs_have_jobs : forall r, r ∈ runs s -> run_job r ∈ map job_id (jobs s);
  statuses_valid : forall r, r ∈ runs s ->
    run_status r = "running" \/ run_status r = "succeeded" \/ run_status r = "failed"
}.

Lemma fold_max_ge l a :
  (a <= fold_left Z.max l a)%Z /\ forall x, x ∈ l -> (x <= fold_left Z.max l a)%Z.
Proof.
  revert a. induction l as [|y l IH]; simpl; intros a.
  - split; [lia|]. intros x Hx. by apply not_elem_of_nil in Hx.
  - destruct (IH (Z.max a y)) as [H1' H2']. split; [lia|]. intros x [->|Hx]%elem_of_cons; [lia | by apply H2'].
Qed.

Lemma next_attempt_fresh id t r : r ∈ t -> run_job r = id -> (attempt_no r < next_attempt id t)%Z.
Proof.
  intros Hr Hid. unfold next_attempt.
  assert (Hin : attempt_no r ∈ map attempt_no (select (of_job id) t)).
  { apply list_elem_of_fmap. exists r. split; [done|]. apply in_select. split; [done|]. by apply String.eqb_eq. }
  destruct (map attempt_no (select (of_job id) t)) as [|a l]; [by apply not_elem_of_nil in Hin|].
  assert (attempt_no r <= fold_left Z.max l a)%Z; [|lia].
  destruct (fold_max_ge l a) as [Ha Hl]. apply elem_of_cons in Hin as [->|Hin]; [done | by apply Hl].
Qed.

Lemma count_shrink {R} (p q : R -> bool) f (t : list R) :
  (forall r, p r = true -> q (f r) = true -> q r = true) ->
  count q (update_where p f t) <= count q t.
Proof.
  intros Hq. rewrite count_after_update. unfold count, select. induction t as [|r t IH]; simpl; [done|].
  destruct (p r) eqn:Ep.
  - destruct (q (f r)) eqn:Eq; [rewrite (Hq r Ep Eq); simpl; lia|]. destruct (q r); simpl; lia.
  - destruct (q r); simpl; lia.
Qed.

(** Updates of runs that keep their identity and start no run. *)
Lemma update_runs_ok p f s :
  (forall r, run_id (f r) = run_id r /\ claim_token (f r) = claim_token r /\ run_job (f r) = run_job r
             /\ attempt_no (f r) = attempt_no r) ->
  (forall r, p r = true -> is_running (f r) = true -> is_running r = true) ->
  (forall r, r ∈ runs s -> p r = true ->
     run_status (f r) = run_status r \/ run_status (f r) = "succeeded" \/ run_status (f r) = "failed") ->
  cron_ok s -> cron_ok (set_runs (update_where p f) s).
Proof.
  intros Hf Hr Hst [H1' H2' H3' H4' H5' H6' H7']. split; simpl.
  - done.
  - by rewrite map_update_where; [|intros; apply Hf].
  - by rewrite map_update_where; [|intros; apply Hf].
  - rewrite map_update_where; [done|]. intros r. destruct (Hf r) as (_ & _ & -> & ->). done.
  - intros id. etrans; [|apply (H5' id)]. apply count_shrink. intros r Hp.
    unfold running_of, of_job. destruct (Hf r) as (_ & _ & -> & _).
    intros [-> Hrun]%andb_true_iff. simpl. by apply Hr.
  - intros r (r0 & Hr0 & ->)%in_update_where. destruct (Hf r0) as (_ & _ & Hj & _).
    destruct (p r0); rewrite ?Hj; by apply H6'.
  - intros r (r0 & Hr0 & ->)%in_update_where. destruct (p r0) eqn:E; [|by apply H7'].
    destruct (Hst r0 Hr0 E) as [->| [->| ->]]; [by apply H7' | tauto | tauto].
Qed.

Lemma jobs_ok t s :
  NoDup (map job_id t) -> (forall id, id ∈ map job_id (jobs s) -> id ∈ map job_id t) ->
  cron_ok s -> cron_ok (set_jobs (fun _ => t) s).
Proof.
  intros Hn Hin [H1' H2' H3' H4' H5' H6' H7']. split; simpl; try done. intros r Hr. by apply Hin, H6'.
Qed.

Lemma delete_runs_ok p s : cron_ok s -> cron_ok (set_runs (delete_where p) s).
Proof.
  intros [H1' H2' H3' H4' H5' H6' H7']. split; simpl; try done; try by apply NoDup_map_delete.
  - intros id. etrans; [apply count_delete_le | apply H5'].
  - intros r [Hr _]%in_delete_where. by apply H6'.
  - intros r [Hr _]%in_delete_where. by apply H7'.
Qed.

Lemma insert_run_ok id rid token due pid now s n s' :
  insert_run id rid token due pid now s = (Ok n, s') -> cron_ok s -> cron_ok s'.
Proof.
  unfold insert_run. destruct (existsb (claimable_job id due now s) (jobs s)) eqn:Ec; simpl; [|by intros [= _ <-]].
  destruct (existsb _ (runs s)) eqn:Ed; [done|]. intros [= _ <-] [H1' H2' H3' H4' H5' H6' H7'].
  apply existsb_exists in Ec as (j & Hj & Hc). apply list_elem_of_In in Hj.
  unfold claimable_job in Hc. rewrite !andb_true_iff, negb_true_iff in Hc. destruct Hc as [[[Hid _] _] Hno].
  apply String.eqb_eq in Hid. rewrite existsb_false in Hno. rewrite existsb_false in Ed.
  split; simpl; try done; rewrite ?map_app.
  - apply NoDup_snoc; [done|]. intros (r & E & Hr)%list_elem_of_fmap. specialize (Ed r Hr).
    apply orb_false_iff in Ed as [Ed _]. simpl in E. by rewrite <- E, String.eqb_refl in Ed.
  - apply NoDup_snoc; [done|]. intros (r & E & Hr)%list_elem_of_fmap. specialize (Ed r Hr).
    apply orb_false_iff in Ed as [_ Ed]. simpl in E. by rewrite <- E, String.eqb_refl in Ed.
  - apply NoDup_snoc; [done|]. intros (r & E & Hr)%list_elem_of_fmap. simpl in E. injection E as Ej Ea.
    pose proof (next_attempt_fresh id (runs s) r Hr (eq_sym Ej)). lia.
  - intros id'. rewrite count_app. destruct (String.eqb_spec id id') as [<-|Hne].
    + rewrite (proj2 (count_zero (running_of id) (runs s))) by done. unfold count, select. simpl.
      case_match; simpl; lia.
    + specialize (H5' id'). assert (count (running_of id') [mkRun rid id token (now + LEASE_DURATION) now None "running" (next_attempt id (runs s)) None (Some pid)] = 0) as ->; [|lia].
      apply count_zero. intros r ->%list_elem_of_singleton. unfold running_of, of_job. simpl.
      by rewrite (proj2 (String.eqb_neq _ _) Hne).
  - intros r [Hr| ->%list_elem_of_singleton]%elem_of_app; [by apply H6'|]. simpl. subst id.
    apply list_elem_of_fmap. eauto.
  - intros r [Hr| ->%list_elem_of_singleton]%elem_of_app; [by apply H7'|]. by left.
Qed.

Lemma delete_job_ok id s :
  cron_ok s -> cron_ok (set_runs (delete_where (of_job id)) (set_jobs (delete_where (is_job id)) s)).
Proof.
  intros Hok. pose proof (delete_runs_ok (of_job id) s Hok) as [H1' H2' H3' H4' H5' H6' H7'].
  split; simpl; try done; [by apply NoDup_map_delete, Hok|].
  intros r Hr. specialize (H6' r Hr). apply in_delete_where in Hr as [_ Hr].
  apply list_elem_of_fmap in H6' as (j & E & Hj). apply list_elem_of_fmap. exists j. split; [done|].
  apply in_delete_where. split; [done|]. unfold of_job in Hr. unfold is_job. by rewrite <- E.
Qed.

Lemma cron_step_ok s s' : cron_step s s' -> cron_ok s -> cron_ok s'.
Proof.
  intros Hst Hok. destruct Hst as [| | |c status error now Hs|p f Hf|row Hrow| | | | |].
  - by eapply insert_run_ok.
  - apply update_runs_ok; [done | | | done].
    + by intros r [_ ?]%andb_true_iff _.
    + intros r _ _. by right; right.
  - apply update_runs_ok; [done | done | by intros r _ _; left | done].
  - apply update_runs_ok; [done | | | done].
    + by intros r [_ ?]%andb_true_iff _.
    + intros r _ _. by right.
  - apply jobs_ok; [rewrite map_update_where by done; apply Hok | | done].
    intros id. by rewrite map_update_where.
  - apply (jobs_ok (jobs s ++ [row])); [ | | done].
    + rewrite map_app. apply NoDup_snoc; [apply Hok|]. intros (j & E & Hj)%list_elem_of_fmap.
      rewrite existsb_false in Hrow. specialize (Hrow j Hj). unfold is_job in Hrow.
      by rewrite E, String.eqb_refl in Hrow.
    + intros id Hid. rewrite map_app. apply elem_of_app. by left.
  - by apply delete_job_ok.
  - by apply delete_runs_ok.
  - by destruct Hok.
  - by destruct Hok.
  - by destruct Hok.
Qed.

(** C6: no job ever has two running runs, in any interleaving of the statements
    of any number of schedulers, crashed or not; run ids, claim tokens and
    attempt numbers are never shared, every run belongs to a job, and a run is
    running, succeeded or failed. *)
Theorem at_most_one_running s s' :
  rtc cron_step s s' -> cron_ok s ->
  cron_ok s' /\ forall id r r', r ∈ runs s' -> r' ∈ runs s' ->
    running_of id r = true -> running_of id r' = true -> r = r'.
Proof.
  intros Hr Hok. assert (Hok' : cron_ok s').
  { induction Hr as [|s s1 s2 Hst Hr IH]; [done|]. apply IH. by eapply cron_step_ok. }
  split; [done|]. intros id r r' Hin Hin' Hrun Hrun'. pose proof (single_running s' Hok' id) as Hc.
  apply (elem_of_list_at_most_one (running_of id) (runs s')); done.
Qed.

(** ** Live leases *)

(** A lease that nobody may take: unexpired, or expired for less than the
    safety net with its owner alive. *)
Definition live_lease (now : Z) (r : CronRun) : Prop :=
  is_running r = true /\
  ((now < lease_expires_at r)%Z \/
   ((now - lease_expires_at r < STALE_LEASE_SAFETY_NET)%Z /\
    exists pid, candidate_pid (owner_pid r) = Some pid /\ is_process_alive pid = true)).

Lemma live_not_reclaimed now r :
  live_lease now r -> (lease_expires_at r <= now)%Z ->
  should_reclaim (candidate_pid (owner_pid r)) true (now - lease_expires_at r) = false.
Proof.
  intros [_ [Hl|(Ha & pid & Hp & Hal)]] He; [lia|]. unfold should_reclaim, should_reclaim_with. simpl.
  destruct (Z.leb_spec STALE_LEASE_SAFETY_NET (now - lease_expires_at r)); [lia|]. rewrite Hp.
  unfold is_process_alive in *. destruct (pid =? 0)%Z; [done|]. by rewrite Hal.
Qed.

Lemma reclaim_keeps (I : CronState -> Prop) r now x :
  (forall p f s, I s -> (forall y, p y = true -> run_id y <> run_id r) -> I (set_runs (update_where p f) s)) ->
  (run_id x = run_id r -> should_reclaim (candidate_pid (owner_pid x)) true (now - lease_expires_at x) = false) ->
  preserves I (reclaim_run now x).
Proof.
  intros HI Hx. unfold reclaim_run.
  destruct (should_reclaim (candidate_pid (owner_pid x)) true (now - lease_expires_at x)) eqn:E; [|apply preserves_ret].
  preserve_steps. intros s Hs. apply HI; [done|]. intros y [Hy _]%andb_true_iff Heq.
  apply String.eqb_eq in Hy. assert (true = false) by (apply Hx; congruence). done.
Qed.

Lemma insert_claim_live id rid token due advance pid now r :
  is_running r = true ->
  triple (fun s => r ∈ runs s) (insert_claim id rid token due advance pid now)
    (fun res s => r ∈ runs s /\ (run_job r = id -> forall claim, res <> Some claim)) (fun s => r ∈ runs s).
Proof.
  intros Hrun. unfold insert_claim.
  eapply triple_bind with (R := fun n s => r ∈ runs s /\ (run_job r = id -> n = 0)).
  - apply triple_exec; [done|]. intros s Hs. unfold insert_run.
    destruct (existsb (claimable_job id due now s) (jobs s)) eqn:E; simpl; [|done].
    destruct (existsb _ (runs s)); [done|]. split; [apply elem_of_app; by left|]. intros Hid.
    apply existsb_exists in E as (j & _ & Hc). unfold claimable_job in Hc.
    apply andb_true_iff in Hc as [_ Hc]. apply negb_true_iff in Hc. rewrite existsb_false in Hc.
    specialize (Hc r Hs). unfold running_of, of_job in Hc. by rewrite Hid, String.eqb_refl, Hrun in Hc.
  - intros n. destruct (Nat.eqb_spec n 0) as [->|Hn0].
    + apply triple_ret. by intros s [Hs _].
    + eapply triple_bind with (R := fun _ s => r ∈ runs s /\ run_job r <> id).
      { apply triple_stmt; [by intros s [] |]. intros s [Hs Hz]. split; [done|]. intros Hid. by apply Hn0, Hz. }
      intros job. eapply triple_bind with (R := fun _ s => r ∈ runs s /\ run_job r <> id).
      { intros w0 Hw. destruct (ok_or job _); simpl; [done|]. by destruct Hw. }
      intros j. apply triple_ret. intros s [Hs Hne]. by split.
Qed.

Lemma reclaims_keep_live now r l :
  NoDup (map run_id l) -> r ∈ l -> live_lease now r ->
  forall id, preserves (fun s => r ∈ runs s) (for_each (reclaim_run now) (select (expired_run id now) l)).
Proof.
  intros Hn Hr Hlive id.
  apply (triple_preserves (fun s => r ∈ runs s)), (triple_for_each (fun s => r ∈ runs s) (fun s => r ∈ runs s)); [done|].
  intros x Hx. apply triple_preserves, (reclaim_keeps _ r).
  - intros p f s Hs Hp. apply in_update_where. exists r. split; [done|].
    destruct (p r) eqn:E; [|done]. by destruct (Hp r E).
  - intros Heq. apply in_select in Hx as [Hx He]. assert (x = r) as -> by (by apply (NoDup_key_eq run_id l)).
    apply live_not_reclaimed; [done|]. unfold expired_run in He. apply andb_true_iff in He as [_ He]. lia.
Qed.

(** A live lease is respected.  Whatever statements fail, a claim leaves
    untouched every running run whose lease has not expired, and every one
    whose owner process is alive and whose lease expired less than the safety
    net ago; and while a job has such a run it is not claimed. *)
Theorem claim_respects_live_lease id due advance rid token pid now w r :
  NoDup (map run_id (runs (st w))) -> r ∈ runs (st w) -> live_lease now r ->
  let '(res, w') := claim_job id due advance rid token pid now w in
  r ∈ runs (st w') /\ (run_job r = id -> forall claim, res <> Ok (Some claim)).
Proof.
  intros Hn Hr Hlive. set (I := fun s : CronState => r ∈ runs s).
  assert (Hnone := insert_claim_live id rid token due advance pid now r (proj1 Hlive)).
  assert (Ht : triple (fun s => s = st w) (claim_job id due advance rid token pid now)
            (fun res s => I s /\ (run_job r = id -> forall claim, res <> Some claim)) I).
  { unfold claim_job. eapply triple_bind with (R := fun _ s => s = st w).
    { eapply triple_weaken with (Q := fun _ s => s = st w) (E := fun s => s = st w);
        [apply triple_preserves; unfold has_pending_cutover_receipt; by preserve_steps | done | done | by intros s ->]. }
    intros []; [by apply triple_ret; intros s ->|].
    eapply triple_bind with (R := fun l s => s = st w /\ l = select (expired_run id now) (runs (st w))).
    { apply triple_stmt; [by intros s -> | by intros s ->]. }
    intros cands. eapply triple_bind with (R := fun _ => I).
    { intros w0 [E ->]. pose proof (reclaims_keep_live now r _ Hn Hr Hlive id w0) as Hf.
      rewrite E in Hf. specialize (Hf Hr). by destruct (for_each (reclaim_run now) _ w0) as [[?|?] ?]. }
    intros ?. eapply triple_bind with (R := fun _ => I); [by apply triple_stmt|].
    intros [row|]; [|by apply triple_ret].
    destruct (extract_repeat_info _) as [times completed].
    destruct (should_disable_after completed times); [by apply triple_ret|].
    destruct due; [|exact Hnone]. destruct (negb (enabled row)); [by apply triple_ret|].
    destruct (next_run_at row) as [next|]; [|by apply triple_ret].
    destruct (overdue_oneshot _ _ _); [|exact Hnone].
    eapply triple_bind with (R := fun _ => I); [|intros ?; by apply triple_ret].
    apply triple_preserves. unfold retire_overdue_oneshot. by preserve_steps. }
  specialize (Ht w eq_refl). destruct (claim_job id due advance rid token pid now w) as [[res|e] w']; [|done].
  destruct Ht as [Hs Hnc]. split; [done|]. intros Hid claim [= E]. by apply (Hnc Hid claim).
Qed.

(** ** Completions *)

(** The claim still holds its run. *)
Definition holds (c : CronClaim) (s : CronState) : Prop :=
  exists r, r ∈ runs s /\ run_id r = cl_run_id c /\ claim_token r = cl_token c /\ run_status r = "running".

Lemma holds_claimed c s : holds c s <-> exists r, r ∈ runs s /\ claimed_run c r = true.
Proof.
  unfold holds, claimed_run, is_running. setoid_rewrite andb_true_iff. setoid_rewrite andb_true_iff.
  setoid_rewrite String.eqb_eq. naive_solver.
Qed.

(** The run of a claim has come to its end. *)
Definition run_is_over (c : CronClaim) (s : CronState) : Prop :=
  exists r, r ∈ runs s /\ run_id r = cl_run_id c /\ run_status r ∈ ["succeeded"; "failed"; "abandoned"].

Lemma already_final_spec c s :
  triple (fun s' => s' = s) (already_final c) (fun _ s' => s' = s /\ run_is_over c s) (fun s' => s' = s).
Proof.
  unfold already_final. eapply triple_bind; [by apply triple_query|]. intros found w [-> E].
  destruct (head _) as [r|] eqn:Eh; simpl; [|done].
  destruct (_ || _) eqn:Ef; simpl; [|done]. split; [done|]. rewrite E in Eh.
  apply head_Some_elem_of in Eh. apply in_select in Eh as [Hr Hi].
  exists r. split; [done|]. split; [by apply String.eqb_eq|].
  rewrite !orb_true_iff, !String.eqb_eq in Ef. rewrite !elem_of_cons.
  destruct Ef as [E'|[E'|[E'|E']]]; [by left | by right; left | by right; right; left | discriminate E'].
Qed.

Lemma late_complete c status error advance now s :
  ~ holds c s ->
  triple (fun s' => s' = s) (complete c status error advance now)
         (fun _ s' => s' = s /\ run_is_over c s) (fun s' => s' = s).
Proof.
  intros Hno. unfold complete. eapply triple_bind with (R := fun (b : bool) s' => s' = s /\ b = false).
  - eapply triple_transaction with (E := fun _ => True).
    eapply triple_bind with (R := fun n s' => s' = s /\ n = 0).
    + unfold close_run. apply triple_stmt; [done|]. intros s' ->.
      assert (Hp : forall r, r ∈ runs s -> claimed_run c r = false).
      { intros r Hr. destruct (claimed_run c r) eqn:E; [|done]. destruct Hno. apply holds_claimed. by exists r. }
      split; [|by apply count_zero]. simpl. unfold set_runs. destruct s; simpl in *. f_equal.
      unfold update_where. rewrite <- (map_id runs0) at 2. apply map_ext_in. intros r Hr%list_elem_of_In.
      by rewrite Hp.
    + intros n w0 [E ->]. simpl. done.
  - intros b w0 [E ->]. exact (already_final_spec c s w0 E).
Qed.

(** C7: A late completion changes nothing.  Once a claim no longer holds its
    run (another scheduler reclaimed it, or it was completed before), neither
    completion touches any table, whatever statements fail: the run keeps its
    outcome and the job's schedule and counters are not advanced twice.  And
    the caller is told so: such a completion returns without an error only if
    the run has come to its end; when another claim is still running it, or
    the run is gone, it is an error. *)
Theorem late_completion_harmless c output err now w :
  ~ holds c (st w) ->
  let success := complete_success c output now w in
  let failure := complete_failure c err now w in
  st (snd success) = st w /\ st (snd failure) = st w
  /\ (fst success = Ok tt -> run_is_over c (st w)) /\ (fst failure = Ok tt -> run_is_over c (st w)).
Proof.
  intros Hno.
  pose proof (late_complete c "succeeded" None (advance_after_success c now ;;; record_output c output now) now _ Hno w eq_refl) as Hs.
  pose proof (late_complete c "failed" (Some err) (advance_after_failure c err now) now _ Hno w eq_refl) as Hf.
  unfold complete_success, complete_failure. clear process_exists.
  destruct (complete _ "succeeded" _ _ _ w) as [[[]|?] ?], (complete _ "failed" _ _ _ w) as [[[]|?] ?]; simpl in *;
    intuition (congruence || auto).
Qed.

(** What a failed run does to its job: the new row, given the failures so far. *)
Definition job_after_failure (c : CronClaim) (err : string) (now : Z) (failures : N) (j : CronJob) :
    result CronJob OmonError :=
  let '(payload, (times, completed_count)) :=
    increment_repeat_completed (failure_payload now err (payload_or_empty (payload_json (cl_job c)))) in
  let updated := print_json payload in
  if negb (advance_schedule c) then Ok (repay updated now j)
  else if is_oneshot c || should_disable_after completed_count times then Ok (retire updated now j)
  else match next_run_after_failure (expression (cl_job c)) now failures with
       | Ok (Some next) => Ok (if enabled j then reschedule updated next now j else j)
       | Err (Panicked m) => Err (Panicked m)
       | _ => Ok (retire updated now j)
       end.

Lemma update_one p f (s : CronState) :
  update_job p f (mkWorld s []) = (Ok tt, mkWorld (set_jobs (update_where p f) s) []).
Proof. done. Qed.

Lemma close_run_clean c status error now s :
  holds c s -> cron_ok s ->
  close_run c status error now (mkWorld s []) =
  (Ok 1, mkWorld (set_runs (update_where (claimed_run c) (finish_run status error now)) s) []).
Proof.
  intros (r & Hr & Hc)%holds_claimed Hok. unfold close_run. rewrite stmt_clean. do 2 f_equal.
  simpl. apply (count_key run_id _ _ r); [apply Hok | done |]. intros x Hx.
  unfold claimed_run in *. rewrite !andb_true_iff, !String.eqb_eq in Hc. destruct Hc as [[Hid Ht] Hrun].
  destruct (bool_decide_reflect (run_id x = run_id r)) as [E|E].
  - assert (x = r) as -> by (apply (NoDup_key_eq run_id (runs s)); [apply Hok|done..]).
    by rewrite Hid, Ht, Hrun, !String.eqb_refl.
  - rewrite <- Hid. by rewrite (proj2 (String.eqb_neq _ _) E).
Qed.

(** Without failing statements a held claim is closed and its job advanced, or,
    if advancing the job reports an error, nothing happens. *)
Lemma complete_clean c status error (advance : M CronState unit) now s r s2 :
  holds c s -> cron_ok s ->
  advance (mkWorld (set_runs (update_where (claimed_run c) (finish_run status error now)) s) []) = (r, mkWorld s2 []) ->
  run (complete c status error advance now) s = match r with Ok _ => (Ok tt, s2) | Err e => (Err e, s) end.
Proof.
  intros Hh Hok E.
  assert (Hb : forall k : nat -> M CronState bool, bind (close_run c status error now) k (mkWorld s [])
            = k 1 (mkWorld (set_runs (update_where (claimed_run c) (finish_run status error now)) s) []))
    by (intros k; by rewrite (bind_value _ _ _ _ _ (close_run_clean c _ _ now s Hh Hok))).
  destruct r as [[]|e]; apply run_intro; unfold complete.
  - rewrite (bind_value _ _ _ true (mkWorld s2 [])); [done|]. apply transaction_commit. rewrite Hb. simpl.
    by rewrite (bind_value _ _ _ _ _ E).
  - apply (bind_error _ _ _ _ (mkWorld s [])). apply (transaction_rollback _ _ _ s2). rewrite Hb. simpl.
    by rewrite (bind_error _ _ _ _ _ E).
Qed.

Lemma same_job_id c x : same_job c x = true -> is_job (job_id (cl_job c)) x = true.
Proof. unfold same_job. by intros [[? _]%andb_true_iff _]%andb_true_iff. Qed.

(** An update of the job of a claim changes that row at most. *)
Lemma update_claimed_job c s j p f :
  cron_ok s -> j ∈ jobs s -> same_job c j = true ->
  (forall x, p x = true -> same_job c x = true) ->
  (if p j then f j else j) ∈ update_where p f (jobs s) /\
  forall x, x ∈ update_where p f (jobs s) -> x = (if p j then f j else j) \/ x ∈ jobs s.
Proof.
  intros Hok Hj Hsame Hp. split; [apply in_update_where; eauto|].
  intros x (x0 & Hx0 & ->)%in_update_where. destruct (p x0) eqn:E; [|by right].
  assert (x0 = j) as ->; [|rewrite E; by left].
  apply (NoDup_key_eq job_id (jobs s)); [apply Hok | done..|].
  apply Hp, same_job_id, String.eqb_eq in E. apply same_job_id, String.eqb_eq in Hsame. congruence.
Qed.

(** A failed run closes and its job moves on, on every branch: a manual run
    only updates the payload; a one-shot, a job at its repeat limit and one
    whose next run cannot be computed are disabled; any other enabled job is
    rescheduled no sooner than the backoff for its consecutive failures.  If
    the computation panics nothing is written. *)
Theorem failed_run_moves_on c err now s j :
  cron_ok s -> holds c s -> j ∈ jobs s -> same_job c j = true ->
  let s1 := set_runs (update_where (claimed_run c) (finish_run "failed" (Some err) now)) s in
  let failures := consecutive_failures (job_id (cl_job c)) (runs s1) in
  match job_after_failure c err now failures j with
  | Err e => run (complete_failure c err now) s = (Err e, s)
  | Ok j' =>
      exists s', run (complete_failure c err now) s = (Ok tt, s') /\ runs s' = runs s1 /\ j' ∈ jobs s' /\
        (forall x, x ∈ jobs s' -> x = j' \/ x ∈ jobs s) /\
        (forall next, enabled j' = true -> next_run_at j' = Some next -> advance_schedule c = true ->
           (now + failure_backoff_duration failures <= next)%Z)
  end.
Proof.
  intros Hok Hh Hj Hsame s1 failures.
  assert (Hrun := fun r s2 => complete_clean c "failed" (Some err) (advance_after_failure c err now) now s r s2 Hh Hok).
  fold s1 (complete_failure c err now) in Hrun.
  assert (Hupd : forall p f j', (forall x, p x = true -> same_job c x = true) -> (if p j then f j else j) = j' ->
    advance_after_failure c err now (mkWorld s1 []) = (Ok tt, mkWorld (set_jobs (update_where p f) s1) []) ->
    (forall next, enabled j' = true -> next_run_at j' = Some next -> advance_schedule c = true ->
       (now + failure_backoff_duration failures <= next)%Z) ->
    exists s', run (complete_failure c err now) s = (Ok tt, s') /\ runs s' = runs s1 /\ j' ∈ jobs s' /\
      (forall x, x ∈ jobs s' -> x = j' \/ x ∈ jobs s) /\
      (forall next, enabled j' = true -> next_run_at j' = Some next -> advance_schedule c = true ->
         (now + failure_backoff_duration failures <= next)%Z)).
  { intros p f j' Hp <- E Hnext. exists (set_jobs (update_where p f) s1). split; [by apply (Hrun (Ok tt))|].
    split; [done|]. destruct (update_claimed_job c s j p f) as [Hin Hall]; [done..|by repeat split]. }
  unfold job_after_failure. unfold advance_after_failure in Hrun, Hupd.
  destruct (increment_repeat_completed _) as [payload [times completed]]. cbv zeta in *.
  set (updated := print_json payload) in *.
  destruct (advance_schedule c) eqn:Ea; simpl.
  2: { apply (Hupd (same_job c) (repay updated now) (repay updated now j)); [done | by rewrite Hsame | done | done]. }
  assert (Hretire := Hupd (same_job c) (retire updated now) (retire updated now j)).
  destruct (is_oneshot c || should_disable_after completed times).
  { apply Hretire; [done | by rewrite Hsame | done | done]. }
  rewrite bind_query in Hrun, Hupd, Hretire. cbv beta in Hrun, Hupd, Hretire.
  fold failures in Hrun, Hupd, Hretire.
  destruct (next_run_after_failure (expression (cl_job c)) now failures) as [[next|]|e] eqn:En.
  - apply (Hupd (fun r => same_job c r && enabled r) (reschedule updated next now)
      (if enabled j then reschedule updated next now j else j)).
    + by intros x [Hx _]%andb_true_iff.
    + by rewrite Hsame.
    + done.
    + destruct (enabled j) eqn:Een; [|by rewrite Een]. intros n _ [= <-] _. by eapply backoff_next_after.
  - apply Hretire; [done | by rewrite Hsame | done | done].
  - destruct e; try (apply Hretire; [done | by rewrite Hsame | done | done]).
    by apply (Hrun (Err (Panicked m)) s1).
Qed.

(** What a successful run does to its job. *)
Definition job_after_success (c : CronClaim) (now : Z) (j : CronJob) : result CronJob OmonError :=
  let '(incremented, (times, completed_count)) := increment_repeat_completed (payload_or_empty (payload_json (cl_job c))) in
  let payload := success_payload now incremented in
  if negb (advance_schedule c) then Ok (repay (print_json payload) now j)
  else if is_oneshot c || should_disable_after completed_count times then Ok (retire (print_json payload) now j)
  else
    match next_run_tz (expression (cl_job c)) now ((get "schedule" payload ≫= get "timezone") ≫= as_str) with
    | Ok next => Ok (if enabled j then reschedule (print_json payload) next now j else j)
    | Err e => Err e
    end.

Lemma record_output_clean c output now s :
  exists os, record_output c output now (mkWorld s []) = (Ok tt, mkWorld (set_outputs (fun _ => os) s) []) /\
    forall text, output = Some text -> exists o, o ∈ os /\ out_run o = cl_run_id c /\ out_text o = text.
Proof.
  destruct output as [text|]; [|exists (outputs s); by destruct s].
  eexists. split; [reflexivity|]. intros ? [= <-]. unfold put_output. simpl.
  destruct (existsb _ (outputs s)) eqn:E.
  - apply existsb_exists in E as (o & Ho & Hs). apply list_elem_of_In in Ho.
    eexists. split; [apply in_update_where; exists o; split; [done|]; by rewrite Hs|].
    split; [|done]. rewrite !andb_true_iff, !String.eqb_eq in Hs. apply Hs.
  - eexists. split; [apply elem_of_app; right; by apply list_elem_of_singleton|]. done.
Qed.

(** A successful run closes and its job moves on, on every branch: a manual
    run only updates the payload; a one-shot and a job reaching its repeat
    limit are disabled; any other enabled job is rescheduled strictly later,
    in the zone of its schedule; the output is stored under the run.  If the
    next run cannot be computed nothing is written and the run stays open. *)
Theorem successful_run_moves_on c output now s j :
  cron_ok s -> holds c s -> j ∈ jobs s -> same_job c j = true ->
  let s1 := set_runs (update_where (claimed_run c) (finish_run "succeeded" None now)) s in
  match job_after_success c now j with
  | Err e => run (complete_success c output now) s = (Err e, s)
  | Ok j' =>
      exists s', run (complete_success c output now) s = (Ok tt, s') /\ runs s' = runs s1 /\ j' ∈ jobs s' /\
        (forall x, x ∈ jobs s' -> x = j' \/ x ∈ jobs s) /\
        (forall text, output = Some text -> exists o, o ∈ outputs s' /\ out_run o = cl_run_id c /\ out_text o = text) /\
        (forall next, enabled j' = true -> next_run_at j' = Some next -> advance_schedule c = true ->
           (now < next)%Z)
  end.
Proof.
  intros Hok Hh Hj Hsame s1.
  assert (Hrun := fun r s2 => complete_clean c "succeeded" None (advance_after_success c now ;;; record_output c output now) now s r s2 Hh Hok).
  fold s1 (complete_success c output now) in Hrun.
  assert (Hupd : forall p f j', (forall x, p x = true -> same_job c x = true) -> (if p j then f j else j) = j' ->
    advance_after_success c now (mkWorld s1 []) = (Ok tt, mkWorld (set_jobs (update_where p f) s1) []) ->
    (forall next, enabled j' = true -> next_run_at j' = Some next -> advance_schedule c = true -> (now < next)%Z) ->
    exists s', run (complete_success c output now) s = (Ok tt, s') /\ runs s' = runs s1 /\ j' ∈ jobs s' /\
        (forall x, x ∈ jobs s' -> x = j' \/ x ∈ jobs s) /\
        (forall text, output = Some text -> exists o, o ∈ outputs s' /\ out_run o = cl_run_id c /\ out_text o = text) /\
        (forall next, enabled j' = true -> next_run_at j' = Some next -> advance_schedule c = true ->
           (now < next)%Z)).
  { intros p f j' Hp <- E Hnext.
    destruct (record_output_clean c output now (set_jobs (update_where p f) s1)) as (os & Ho & Htext).
    exists (set_outputs (fun _ => os) (set_jobs (update_where p f) s1)).
    split; [apply (Hrun (Ok tt)); by rewrite (bind_value _ _ _ _ _ E)|].
    split; [done|]. destruct (update_claimed_job c s j p f) as [Hin Hall]; [done..|by repeat split]. }
  unfold job_after_success. unfold advance_after_success in Hrun, Hupd.
  destruct (increment_repeat_completed _) as [incremented [times completed]]. cbv zeta in *.
  set (payload := success_payload now incremented) in *. set (updated := print_json payload) in *.
  destruct (advance_schedule c) eqn:Ea; simpl.
  2: { apply (Hupd (same_job c) (repay updated now) (repay updated now j)); [done | by rewrite Hsame | done | done]. }
  destruct (is_oneshot c || should_disable_after completed times) eqn:Eo.
  { apply (Hupd (same_job c) (retire updated now) (retire updated now j)); [done | by rewrite Hsame | done | done]. }
  destruct (next_run_tz _ now _) as [next|e] eqn:En; [|by apply (Hrun (Err e) s1)].
  apply (Hupd (fun r => same_job c r && enabled r) (reschedule updated next now)
      (if enabled j then reschedule updated next now j else j)).
  - by intros x [Hx _]%andb_true_iff.
  - by rewrite Hsame.
  - done.
  - destruct (enabled j) eqn:Een; [|by rewrite Een]. intros n _ [= <-] _.
    apply orb_false_iff in Eo as [Eo _]. apply next_run_tz_spec in En.
    unfold is_oneshot, starts_with in Eo. by destruct (strip_prefix "once:" _).
Qed.
End Cron.

(** ** Witnesses: concrete tables, with the toy libraries. *)
#[local] Existing Instance floor_sqlite.
#[local] Existing Instance toy_libs.

Definition open_guard : PayloadGuard :=
  {| is_match _ _ := false; scan_cron_prompt _ := []; scan_blank _ _ := eq_refl |}.
#[local] Existing Instance open_guard.

Definition all_alive : Z -> bool := fun _ => true.
Definition demo_job : CronJob :=
  mkJob "j1" None "every 10s" "{}" true (Some (seconds 50)) 0 0 "omon_owned".
Definition demo_run : CronRun :=
  mkRun "r1" "j1" "t1" (seconds 100) (seconds 50) None "running" 1 None (Some 7%Z).
Definition demo_claim : CronClaim := mkClaim "r1" "t1" demo_job true.
Definition demo_cron : CronState := mkCron [demo_job] [demo_run] [] [] None [] [].

Lemma demo_cron_ok : cron_ok demo_cron.
Proof.
  split; simpl; try (apply NoDup_singleton).
  - intros id. unfold count, select. simpl. case_match; simpl; lia.
  - intros r ->%list_elem_of_singleton. left.
  - intros r ->%list_elem_of_singleton. by left.
Qed.

Lemma demo_holds : holds demo_claim demo_cron.
Proof. exists demo_run. split; [left | done]. Qed.

Lemma at_most_one_running_witness :
  cron_ok (st (snd (cron_perform all_alive (fun s => s) (OpTrigger "j1" "r2" "t2" 8 (seconds 60)) (mkWorld demo_cron [])))).
Proof. apply (at_most_one_running demo_cron); [apply perform_steps, rtc_refl | exact demo_cron_ok]. Defined.

Lemma claim_respects_live_lease_witness :
  demo_run ∈ runs (st (snd (claim_job all_alive "j1" true true "r2" "t2" 8 (seconds 200) (mkWorld demo_cron [])))).
Proof.
  pose proof (claim_respects_live_lease all_alive "j1" true true "r2" "t2" 8 (seconds 200) (mkWorld demo_cron []) demo_run) as Hc.
  destruct (claim_job _ _ _ _ _ _ _ _ _) as [res w']. apply Hc.
  - apply demo_cron_ok.
  - left.
  - split; [reflexivity|]. right. split; [vm_compute; reflexivity|]. exists 7%Z. split; reflexivity.
Defined.

Lemma late_completion_harmless_witness :
  let late := mkClaim "r1" "t0" demo_job true in
  let (told, w) := complete_success late (Some "out") (seconds 70) (mkWorld demo_cron []) in
  st w = demo_cron /\ told <> Ok tt.
Proof.
  pose proof (late_completion_harmless (fun s => s) (mkClaim "r1" "t0" demo_job true) (Some "out") "boom"
                (seconds 70) (mkWorld demo_cron [])) as Hl.
  destruct Hl as (Hs & _ & Hok & _).
  { intros (r & ->%list_elem_of_singleton & _ & Ht & _). discriminate Ht. }
  cbv zeta. destruct (complete_success _ _ _ _) as [told w]. split; [exact Hs|]. intros E.
  destruct (Hok E) as (r & ->%list_elem_of_singleton & _ & Hf). simpl in Hf.
  by repeat (apply elem_of_cons in Hf as [Hf|Hf]); [..|apply not_elem_of_nil in Hf].
Defined.

Lemma failed_run_moves_on_witness :
  exists s', run (complete_failure (fun s => s) demo_claim "boom" (seconds 70)) demo_cron = (Ok tt, s').
Proof.
  pose proof (failed_run_moves_on (fun s => s) demo_claim "boom" (seconds 70) demo_cron demo_job demo_cron_ok demo_holds) as Hf.
  vm_compute in Hf. destruct Hf as (s' & E & _); [left | reflexivity |]. exists s'. exact E.
Defined.

Lemma successful_run_moves_on_witness :
  exists s', run (complete_success demo_claim (Some "done") (seconds 70)) demo_cron = (Ok tt, s').
Proof.
  pose proof (successful_run_moves_on demo_claim (Some "done") (seconds 70) demo_cron demo_job demo_cron_ok demo_holds) as Hf.
  vm_compute in Hf. destruct Hf as (s' & E & _); [left | reflexivity |]. exists s'. exact E.
Defined.
