(* ===== verification/Handle.v ===== *)
(** * Session handles and scale-to-zero ([src/multiplexer/router.rs], [gc.rs])

    The mailbox of a session actor, the atomics of [SessionHandle], every
    atomic step of [send_command], [try_retire], [wait_for_in_flight],
    [resume], [mark_finished] and [collect], and the part of the actor's loop
    that answers [EvictIfIdle].  Any number of senders and collectors run
    concurrently; each step is one atomic access.  A load of an atomic may return
    an older value, as the Acquire/Release orderings of the code allow: here any
    value at all.  A sender starts where [wait_started] has returned. *)
From stdpp Require Import base list strings gmap.
From Stdlib Require Import ZArith Lia.
From S2P Require Import Prelude RustStr Db Session.
Open Scope list_scope.
Local Notation length := Datatypes.length.

Definition SESSION_CHANNEL_CAPACITY : nat := 64.

Inductive SendOutcome : Type := OutSent | OutRetiring | OutClosed.

(** [ActorCommand]: an event (named by a number), a control command that takes
    the same path, an activity touch, and the eviction request. *)
Inductive ActorCommand : Type :=
| CEvent (e : nat)
| CControl
| CTouchActivity
| CEvictIfIdle.

(** The reply to an eviction request. *)
Inductive EvictReply : Type := RepliedTrue | RepliedFalse | RepliedError.

(** The actor: receiving, flushing before it stops, stopped after an eviction,
    or gone for another reason (failed load, closed channel). *)
Inductive ActorStatus : Type := Receiving | Flushing | Evicted | Gone.

(** [SessionHandle] with its channel.  [accepted] and [handled] are the events
    whose send succeeded and those the actor received, in order. *)
Record SessionHandle : Type := mkHandle {
  accepting : bool;
  finished : bool;
  in_flight : nat;
  mailbox : list ActorCommand;
  reply : option EvictReply;
  actor : ActorStatus;
  accepted : list nat;
  handled : list nat
}.

(** [SessionHandle::new]. *)
Definition new_handle : SessionHandle := mkHandle true false 0 [] None Receiving [] [].

Definition set_accepting b h := mkHandle b (finished h) (in_flight h) (mailbox h) (reply h) (actor h) (accepted h) (handled h).
Definition set_finished b h := mkHandle (accepting h) b (in_flight h) (mailbox h) (reply h) (actor h) (accepted h) (handled h).
Definition set_in_flight n h := mkHandle (accepting h) (finished h) n (mailbox h) (reply h) (actor h) (accepted h) (handled h).
Definition set_reply r h := mkHandle (accepting h) (finished h) (in_flight h) (mailbox h) r (actor h) (accepted h) (handled h).
Definition set_actor a h := mkHandle (accepting h) (finished h) (in_flight h) (mailbox h) (reply h) a (accepted h) (handled h).

(** The receiver is dropped: sends fail. *)
Definition closed (h : SessionHandle) : bool :=
  match actor h with Receiving | Flushing => false | Evicted | Gone => true end.

Definition event_of (c : ActorCommand) : list nat := match c with CEvent e => [e] | _ => [] end.
Definition events (l : list ActorCommand) : list nat := concat (map event_of l).

(** A successful send. *)
Definition enqueue (c : ActorCommand) (h : SessionHandle) : SessionHandle :=
  mkHandle (accepting h) (finished h) (in_flight h) (mailbox h ++ [c]) (reply h) (actor h)
    (accepted h ++ event_of c) (handled h).

(** ** [send_command] *)

Inductive sender_pc : Type :=
| SStart (c : ActorCommand)          (** before [finished.load] *)
| SOpen (c : ActorCommand)           (** before [accepting.load] *)
| SAccepting (c : ActorCommand)      (** before [in_flight.fetch_add] *)
| SCounted (c : ActorCommand)        (** before the second [accepting.load] *)
| SRechecked (c : ActorCommand)      (** before the second [finished.load] *)
| SSending (c : ActorCommand)        (** awaiting [sender.send] *)
| SSent (ok : bool)                  (** before [finish_send], the send done *)
| SRefused                           (** before [finish_send], refused *)
| SReport                            (** before the last [finished.load] *)
| SDone (o : SendOutcome).

(** One atomic step; [None] while a full mailbox makes the send wait. *)
Definition sender_step (h : SessionHandle) (pc : sender_pc) : option (SessionHandle * sender_pc) :=
  match pc with
  | SStart c => Some (h, if finished h then SDone OutClosed else SOpen c)
  | SOpen c => Some (h, if accepting h then SAccepting c else SDone OutRetiring)
  | SAccepting c => Some (set_in_flight (S (in_flight h)) h, SCounted c)
  | SCounted c => Some (h, if accepting h then SRechecked c else SRefused)
  | SRechecked c => Some (h, if finished h then SRefused else SSending c)
  | SSending c =>
      if closed h then Some (h, SSent false)
      else if (length (mailbox h) <? SESSION_CHANNEL_CAPACITY)%nat then Some (enqueue c h, SSent true)
      else None
  | SSent ok => Some (set_in_flight (pred (in_flight h)) h, SDone (if ok then OutSent else OutClosed))
  | SRefused => Some (set_in_flight (pred (in_flight h)) h, SReport)
  | SReport => Some (h, SDone (if finished h then OutClosed else OutRetiring))
  | SDone _ => None
  end.

(** The step of a load that returns [b], which may be an older value. *)
Definition sender_load (b : bool) (pc : sender_pc) : option sender_pc :=
  match pc with
  | SStart c => Some (if b then SDone OutClosed else SOpen c)
  | SOpen c => Some (if b then SAccepting c else SDone OutRetiring)
  | SCounted c => Some (if b then SRechecked c else SRefused)
  | SRechecked c => Some (if b then SRefused else SSending c)
  | SReport => Some (SDone (if b then OutClosed else OutRetiring))
  | _ => None
  end.

(** Between [fetch_add] and [finish_send]. *)
Definition counted (pc : sender_pc) : bool :=
  match pc with SCounted _ | SRechecked _ | SSending _ | SSent _ | SRefused => true | _ => false end.
(** Past the recheck of [accepting]: may still enqueue. *)
Definition admitted (pc : sender_pc) : bool :=
  match pc with SRechecked _ | SSending _ => true | _ => false end.

(** ** [collect], for one handle *)

Inductive collector_pc : Type :=
| GStart                  (** [try_retire]: before [finished.load] *)
| GRetire                 (** before the compare-and-exchange *)
| GWaiting                (** [wait_for_in_flight] *)
| GBarrier                (** before sending [EvictIfIdle] *)
| GAwait                  (** awaiting the reply *)
| GResume                 (** [resume]: before [finished.load] *)
| GStore                  (** before [accepting.store(true)] *)
| GFinish                 (** [mark_finished]: before [accepting.store(false)] *)
| GFinished               (** before [finished.store(true)] *)
| GDone.

Definition collector_step (h : SessionHandle) (pc : collector_pc) : option (SessionHandle * collector_pc) :=
  match pc with
  | GStart => Some (h, if finished h then GDone else GRetire)
  | GRetire => if accepting h then Some (set_accepting false h, GWaiting) else Some (h, GDone)
  | GWaiting => if (in_flight h =? 0)%nat then Some (h, GBarrier) else None
  | GBarrier =>
      if closed h then Some (h, GFinish)
      else if (length (mailbox h) <? SESSION_CHANNEL_CAPACITY)%nat
      then Some (enqueue CEvictIfIdle h, GAwait) else None
  | GAwait =>
      match reply h with
      | Some RepliedTrue => Some (set_reply None h, GFinish)
      | Some RepliedFalse | Some RepliedError => Some (set_reply None h, GResume)
      | None => if closed h then Some (h, GFinish) else None
      end
  | GResume => Some (h, if finished h then GDone else GStore)
  | GStore => Some (set_accepting true h, GDone)
  | GFinish => Some (set_accepting false h, GFinished)
  | GFinished => Some (set_finished true h, GDone)
  | GDone => None
  end.

(** The step of a load that returns [b]: of [finished], or whether [in_flight]
    is zero. *)
Definition collector_load (b : bool) (pc : collector_pc) : option collector_pc :=
  match pc with
  | GStart => Some (if b then GDone else GRetire)
  | GWaiting => if b then Some GBarrier else None
  | GResume => Some (if b then GDone else GStore)
  | _ => None
  end.

(** The two loads of the barrier: the sender's second load of [accepting],
    after it was counted, and the collector's of [in_flight], after it retired
    the handle. *)
Definition rechecks (pc : sender_pc) : bool := match pc with SCounted _ => true | _ => false end.
Definition drains (pc : collector_pc) : bool := match pc with GWaiting => true | _ => false end.

(** Holding the retirement: from the exchange to [resume]'s store or
    [mark_finished]. *)
Definition retiring (pc : collector_pc) : bool :=
  match pc with GWaiting | GBarrier | GAwait | GResume | GStore | GFinish => true | _ => false end.

(** ** The actor's loop, as far as the handle sees it *)

(** One received command; [idle] is the test of the idle timeout and of the
    deferred queue, [flushed] the outcome of [flush_if_dirty]. *)
Definition actor_recv (idle : bool) (h : SessionHandle) : option SessionHandle :=
  match actor h, mailbox h with
  | Receiving, c :: rest =>
      let h' := mkHandle (accepting h) (finished h) (in_flight h) rest (reply h) (actor h)
                  (accepted h) (handled h ++ event_of c) in
      match c with
      | CEvictIfIdle =>
          if idle && (length rest =? 0)%nat then Some (set_actor Flushing h')
          else Some (set_reply (Some RepliedFalse) h')
      | _ => Some h'
      end
  | _, _ => None
  end.

Definition actor_flush (flushed : bool) (h : SessionHandle) : option SessionHandle :=
  match actor h with
  | Flushing =>
      if flushed then Some (set_reply (Some RepliedTrue) (set_actor Evicted h))
      else Some (set_reply (Some RepliedError) (set_actor Receiving h))
  | _ => None
  end.

(** ** The system *)

Record system : Type := mkSystem {
  handle : SessionHandle;
  senders : list sender_pc;
  collectors : list collector_pc
}.

(** Besides the threads' own steps: an event or a control command is routed, a
    collection starts, activity is touched ([try_send], which neither waits
    nor counts), somebody runs one of the two stores of [mark_finished], and
    the actor ends for another reason.  A load may be of an older value, but for
    the two of the barrier. *)
Inductive system_step : system -> system -> Prop :=
| step_stale_sender h ss gs i pc b pc' :
    ss !! i = Some pc -> sender_load b pc = Some pc' -> rechecks pc = false ->
    system_step (mkSystem h ss gs) (mkSystem h (<[i := pc']> ss) gs)
| step_stale_collector h ss gs i pc b pc' :
    gs !! i = Some pc -> collector_load b pc = Some pc' -> drains pc = false ->
    system_step (mkSystem h ss gs) (mkSystem h ss (<[i := pc']> gs))
| step_route h ss gs c : c <> CEvictIfIdle -> c <> CTouchActivity ->
    system_step (mkSystem h ss gs) (mkSystem h (ss ++ [SStart c]) gs)
| step_collect h ss gs : system_step (mkSystem h ss gs) (mkSystem h ss (gs ++ [GStart]))
| step_sender h ss gs i pc h' pc' :
    ss !! i = Some pc -> sender_step h pc = Some (h', pc') ->
    system_step (mkSystem h ss gs) (mkSystem h' (<[i := pc']> ss) gs)
| step_collector h ss gs i pc h' pc' :
    gs !! i = Some pc -> collector_step h pc = Some (h', pc') ->
    system_step (mkSystem h ss gs) (mkSystem h' ss (<[i := pc']> gs))
| step_recv h ss gs idle h' :
    actor_recv idle h = Some h' -> system_step (mkSystem h ss gs) (mkSystem h' ss gs)
| step_flush h ss gs flushed h' :
    actor_flush flushed h = Some h' -> system_step (mkSystem h ss gs) (mkSystem h' ss gs)
| step_touch h ss gs :
    closed h = false -> length (mailbox h) < SESSION_CHANNEL_CAPACITY ->
    system_step (mkSystem h ss gs) (mkSystem (enqueue CTouchActivity h) ss gs)
| step_unaccept h ss gs : system_step (mkSystem h ss gs) (mkSystem (set_accepting false h) ss gs)
| step_finish h ss gs : system_step (mkSystem h ss gs) (mkSystem (set_finished true h) ss gs)
| step_gone h ss gs : closed h = false ->
    system_step (mkSystem h ss gs) (mkSystem (set_actor Gone h) ss gs).

(** A load of the barrier that is of an older value, as the orderings allow. *)
Inductive barrier_stale : system -> system -> Prop :=
| stale_recheck h ss gs i pc b pc' :
    ss !! i = Some pc -> sender_load b pc = Some pc' -> rechecks pc = true ->
    barrier_stale (mkSystem h ss gs) (mkSystem h (<[i := pc']> ss) gs)
| stale_drain h ss gs i pc b pc' :
    gs !! i = Some pc -> collector_load b pc = Some pc' -> drains pc = true ->
    barrier_stale (mkSystem h ss gs) (mkSystem h ss (<[i := pc']> gs)).

Definition initial : system := mkSystem new_handle [] [].
Definition reachable (s : system) : Prop := rtc system_step initial s.

(** A run of the gateway, in which so many barrier loads were of older values. *)
Inductive history : nat -> system -> Prop :=
| history_start : history 0 initial
| history_step n s s' : history n s -> system_step s s' -> history n s'
| history_stale n s s' : history n s -> barrier_stale s s' -> history (S n) s'.

(** ** The session table ([handle_for], [remove_handle])

    Handles are compared by identity: a number per handle. *)
Definition handle_for (fresh : nat) (key : SessionKey) (sessions : gmap SessionKey nat) :
    nat * gmap SessionKey nat :=
  match sessions !! key with
  | Some h => (h, sessions)
  | None => (fresh, <[key := fresh]> sessions)
  end.

Definition remove_handle (key : SessionKey) (h : nat) (sessions : gmap SessionKey nat) :
    bool * gmap SessionKey nat :=
  match sessions !! key with
  | Some current => if (current =? h)%nat then (true, delete key sessions) else (false, sessions)
  | None => (false, sessions)
  end.

(** ** The invariant *)

Definition sealed (pc : collector_pc) : bool :=
  match pc with GBarrier | GAwait | GResume | GStore | GFinish => true | _ => false end.
Definition awaiting (pc : collector_pc) : bool := match pc with GAwait => true | _ => false end.
Definition is_evict (c : ActorCommand) : bool := match c with CEvictIfIdle => true | _ => false end.

(** Eviction requests under way: queued, being flushed, or answered. *)
Definition outstanding (h : SessionHandle) : nat :=
  count is_evict (mailbox h)
  + (match actor h with Flushing => 1 | _ => 0 end)
  + (match reply h with Some _ => 1 | None => 0 end).

(** No event is queued behind an eviction request. *)
Fixpoint barrier (l : list ActorCommand) : Prop :=
  match l with
  | [] => True
  | CEvictIfIdle :: rest => events rest = [] /\ barrier rest
  | _ :: rest => barrier rest
  end.

Record system_ok (s : system) : Prop := {
  in_flight_exact : in_flight (handle s) = count counted (senders s);
  one_retirement : count retiring (collectors s) <= 1;
  retired_closed : 0 < count retiring (collectors s) -> accepting (handle s) = false;
  sealed_quiet : 0 < count sealed (collectors s) -> count admitted (senders s) = 0;
  requests_awaited : closed (handle s) = false -> outstanding (handle s) <= count awaiting (collectors s);
  queue_barrier : barrier (mailbox (handle s));
  queue_fifo : accepted (handle s) = handled (handle s) ++ events (mailbox (handle s));
  flushing_empty : actor (handle s) = Flushing -> events (mailbox (handle s)) = [];
  evicted_empty : actor (handle s) = Evicted -> events (mailbox (handle s)) = []
}.

Lemma events_app l l' : events (l ++ l') = events l ++ events l'.
Proof. unfold events. by rewrite map_app, concat_app. Qed.

Lemma events_snoc l c : events (l ++ [c]) = events l ++ event_of c.
Proof. rewrite events_app. unfold events. simpl. by rewrite app_nil_r. Qed.

(** Appending behind a request is safe for anything but an event; without a
    request it is always safe. *)
Lemma barrier_snoc l c :
  barrier l -> event_of c = [] \/ count is_evict l = 0 -> barrier (l ++ [c]).
Proof.
  induction l as [|d l IH]; simpl; intros Hb Hc; [by destruct c|].
  rewrite count_cons in Hc. destruct d; simpl in *; try (apply IH; [done|]; destruct Hc; [by left | right; lia]).
  destruct Hb as [He Hb]. destruct Hc as [Hc|Hc]; [|lia]. split.
  - by rewrite events_snoc, He, Hc.
  - apply IH; [done | by left].
Qed.

Lemma awaiting_sealed l : count awaiting l <= count sealed l.
Proof. apply count_le. by intros []. Qed.
Lemma sealed_retiring l : count sealed l <= count retiring l.
Proof. apply count_le. by intros []. Qed.
Lemma admitted_counted l : count admitted l <= count counted l.
Proof. apply count_le. by intros []. Qed.

(** All the counts of one replaced thread. *)
Ltac counts Hi y :=
  pose proof (count_insert counted _ _ _ y Hi);
  pose proof (count_insert admitted _ _ _ y Hi);
  pose proof (count_lookup counted _ _ _ Hi).
Ltac gcounts Hi y :=
  pose proof (count_insert retiring _ _ _ y Hi);
  pose proof (count_insert sealed _ _ _ y Hi);
  pose proof (count_insert awaiting _ _ _ y Hi);
  pose proof (count_lookup retiring _ _ _ Hi);
  pose proof (count_lookup sealed _ _ _ Hi).

(** A step of [send_command] that leaves the channel alone. *)
Ltac quiet_step Hquiet Hwhen := apply Hquiet; try done; simpl in *; try lia; apply Hwhen; lia.

Lemma sender_step_ok h ss gs i pc h' pc' :
  ss !! i = Some pc -> sender_step h pc = Some (h', pc') ->
  match pc with SStart c | SOpen c | SAccepting c | SCounted c | SRechecked c | SSending c =>
    c <> CEvictIfIdle | _ => True end ->
  system_ok (mkSystem h ss gs) -> system_ok (mkSystem h' (<[i := pc']> ss) gs).
Proof.
  intros Hi Hs Hc [H1 H2 H3 H4 H5 H6 H7 H8 H9]. simpl in *. counts Hi pc'.
  pose proof (sealed_retiring gs). pose proof (awaiting_sealed gs).
  assert (Hquiet : forall x y, in_flight x = count counted y -> accepting x = accepting h -> finished x = finished h ->
    mailbox x = mailbox h -> reply x = reply h -> actor x = actor h -> accepted x = accepted h -> handled x = handled h ->
    (0 < count sealed gs -> count admitted y = 0) -> system_ok (mkSystem x y gs)).
  { intros x y E1 E2 E3 E4 E5 E6 E7 E8 E9. split; simpl; rewrite ?E1, ?E2, ?E3, ?E4, ?E6, ?E7, ?E8; try done.
    unfold closed, outstanding. by rewrite E4, E5, E6. }
  assert (Hwhen : forall k, (0 < count sealed gs -> k <= count admitted ss) -> 0 < count sealed gs -> k = 0).
  { intros k Hk Hse. specialize (H4 Hse). specialize (Hk Hse). lia. }
  destruct pc as [c|c|c|c|c|c|ok| | |o]; simpl in Hs; [| | | | | |..]; try done.
  - injection Hs as <- <-. destruct (finished h) eqn:Ef; simpl in *; quiet_step Hquiet Hwhen.
  - injection Hs as <- <-. destruct (accepting h) eqn:Ea; simpl in *; quiet_step Hquiet Hwhen.
  - injection Hs as <- <-. simpl in *. quiet_step Hquiet Hwhen.
  - (* the recheck: nobody is admitted while retirement is held *)
    injection Hs as <- <-. destruct (accepting h) eqn:Ea; simpl in *; [|quiet_step Hquiet Hwhen].
    apply Hquiet; try done; [lia|]. intros Hse. by specialize (H3 ltac:(lia)).
  - injection Hs as <- <-. destruct (finished h) eqn:Ef; simpl in *; quiet_step Hquiet Hwhen.
  - (* the send *)
    destruct (closed h) eqn:Ecl.
    { injection Hs as <- <-. simpl in *. quiet_step Hquiet Hwhen. }
    destruct (length (mailbox h) <? SESSION_CHANNEL_CAPACITY)%nat; [|done]. injection Hs as <- <-.
    assert (Hz : count sealed gs = 0).
    { destruct (decide (0 < count sealed gs)) as [Hse|]; [|lia]. specialize (H4 Hse).
      assert (Hin : SSending c ∈ ss) by by eapply list_elem_of_lookup_2.
      rewrite count_zero in H4. by specialize (H4 _ Hin). }
    assert (Hout : outstanding h = 0) by (specialize (H5 eq_refl); lia). unfold outstanding in Hout.
    split; simpl in *; try done; try lia.
    + intros _. unfold outstanding. simpl. rewrite count_snoc. destruct c; simpl; try done; lia.
    + apply barrier_snoc; [done | right; lia].
    + by rewrite H7, events_snoc, app_assoc.
    + intros E. rewrite E in Hout. simpl in Hout. lia.
    + intros E. unfold closed in Ecl. by rewrite E in Ecl.
  - injection Hs as <- <-. simpl in *. destruct ok; simpl in *; quiet_step Hquiet Hwhen.
  - injection Hs as <- <-. simpl in *. quiet_step Hquiet Hwhen.
  - injection Hs as <- <-. destruct (finished h) eqn:Ef; simpl in *; quiet_step Hquiet Hwhen.
Qed.

(** A step of a collector that leaves the queue alone. *)
Ltac keep_queue Hsame H3 H4 H5 :=
  apply Hsame; simpl in *; try done; try lia;
  first [ intros ?; apply H3; lia | intros ?; apply H4; lia
        | let Hcl := fresh in intros Hcl; specialize (H5 Hcl); unfold outstanding in *; simpl in *;
          repeat match goal with E : reply _ = _ |- _ => rewrite E in * end; simpl in *; lia ].

Lemma collector_step_ok h ss gs i pc h' pc' :
  gs !! i = Some pc -> collector_step h pc = Some (h', pc') ->
  system_ok (mkSystem h ss gs) -> system_ok (mkSystem h' ss (<[i := pc']> gs)).
Proof.
  intros Hi Hs [H1 H2 H3 H4 H5 H6 H7 H8 H9]. simpl in *. gcounts Hi pc'.
  pose proof (admitted_counted ss). pose proof (sealed_retiring gs). pose proof (awaiting_sealed gs).
  pose proof (sealed_retiring (<[i := pc']> gs)). pose proof (awaiting_sealed (<[i := pc']> gs)).
  assert (Hsame : forall x y, in_flight x = in_flight h -> mailbox x = mailbox h -> actor x = actor h ->
    accepted x = accepted h -> handled x = handled h ->
    count retiring y <= 1 -> (0 < count retiring y -> accepting x = false) ->
    (0 < count sealed y -> count admitted ss = 0) ->
    (closed h = false -> outstanding x <= count awaiting y) -> system_ok (mkSystem x ss y)).
  { intros x y E1 E2 E3 E4 E5 G2 G3 G4 G5. split; simpl; rewrite ?E1, ?E2, ?E3, ?E4, ?E5; try done.
    unfold closed. by rewrite E3. }
  destruct pc; simpl in Hs; simpl in *; try done.
  - injection Hs as <- <-. destruct (finished h) eqn:Ef; simpl in *; keep_queue Hsame H3 H4 H5.
  - destruct (accepting h) eqn:Ea; injection Hs as <- <-; simpl in *.
    + assert (~ 0 < count retiring gs) by (intros Hp; by specialize (H3 Hp)). keep_queue Hsame H3 H4 H5.
    + keep_queue Hsame H3 H4 H5.
  - destruct (Nat.eqb_spec (in_flight h) 0) as [E0|]; [|done]. injection Hs as <- <-; simpl in *.
    keep_queue Hsame H3 H4 H5.
  - destruct (closed h) eqn:Ecl; [injection Hs as <- <-; simpl in *; keep_queue Hsame H3 H4 H5|].
    destruct (length (mailbox h) <? SESSION_CHANNEL_CAPACITY)%nat; [|done]. injection Hs as <- <-.
    assert (Hq : count admitted ss = 0) by (apply H4; lia). specialize (H5 eq_refl). simpl in *.
    assert (outstanding h = 0) as Hout by lia. unfold outstanding in Hout.
    split; simpl; try done; try lia.
    + intros _. apply H3. lia.
    + intros _. unfold outstanding. simpl. rewrite count_snoc. simpl. lia.
    + apply barrier_snoc; [done | by left].
    + by rewrite events_snoc, !app_nil_r.
    + rewrite events_snoc, app_nil_r. done.
    + rewrite events_snoc, app_nil_r. done.
  - destruct (reply h) as [[]|] eqn:Er; [| | |destruct (closed h) eqn:Ecl; [|done]];
      injection Hs as <- <-; simpl in *; keep_queue Hsame H3 H4 H5.
  - injection Hs as <- <-. destruct (finished h) eqn:Ef; simpl in *; keep_queue Hsame H3 H4 H5.
  - injection Hs as <- <-. simpl in *. keep_queue Hsame H3 H4 H5.
  - injection Hs as <- <-. simpl in *. keep_queue Hsame H3 H4 H5.
  - injection Hs as <- <-. simpl in *. keep_queue Hsame H3 H4 H5.
Qed.

(** No sender carries an eviction request: only [collect] sends one. *)
Definition carries (pc : sender_pc) : Prop :=
  match pc with
  | SStart c | SOpen c | SAccepting c | SCounted c | SRechecked c | SSending c => c <> CEvictIfIdle
  | _ => True
  end.

Lemma sender_carries h pc h' pc' : sender_step h pc = Some (h', pc') -> carries pc -> carries pc'.
Proof. destruct pc; simpl; intros E; repeat case_match; simplify_eq; done. Qed.

Lemma recv_ok h ss gs idle h' :
  actor_recv idle h = Some h' -> system_ok (mkSystem h ss gs) -> system_ok (mkSystem h' ss gs).
Proof.
  intros Hr [H1 H2 H3 H4 H5 H6 H7 H8 H9]. unfold actor_recv in Hr. simpl in *.
  destruct (actor h) eqn:Ea; try done. destruct (mailbox h) as [|c rest] eqn:Em; [done|].
  assert (Hcl : closed h = false) by (unfold closed; by rewrite Ea). specialize (H5 Hcl).
  unfold outstanding in H5. rewrite Em, Ea, count_cons in H5.
  assert (Hfifo : accepted h = (handled h ++ event_of c) ++ events rest).
  { rewrite H7. unfold events. simpl. by rewrite app_assoc. }
  assert (Hb : barrier rest) by (destruct c; simpl in H6; try done; apply H6).
  destruct c; simpl in *.
  - injection Hr as <-. split; simpl; rewrite ?Ea; try done; intros _; unfold outstanding; simpl; rewrite ?Ea; lia.
  - injection Hr as <-. split; simpl; rewrite ?Ea; try done; intros _; unfold outstanding; simpl; rewrite ?Ea; lia.
  - injection Hr as <-. split; simpl; rewrite ?Ea; try done; intros _; unfold outstanding; simpl; rewrite ?Ea; lia.
  - pose proof (awaiting_sealed gs). pose proof (sealed_retiring gs).
    destruct H6 as [He _]. destruct (idle && (length rest =? 0)%nat) eqn:Ei; injection Hr as <-.
    + split; simpl; try done; intros _; unfold outstanding; simpl; lia.
    + split; simpl; try done; rewrite ?Ea; try done; intros _; unfold outstanding; simpl; rewrite ?Ea;
        destruct (reply h); lia.
Qed.

Lemma flush_ok h ss gs flushed h' :
  actor_flush flushed h = Some h' -> system_ok (mkSystem h ss gs) -> system_ok (mkSystem h' ss gs).
Proof.
  intros Hr [H1 H2 H3 H4 H5 H6 H7 H8 H9]. unfold actor_flush in Hr. simpl in *.
  destruct (actor h) eqn:Ea; try done.
  assert (Hcl : closed h = false) by (unfold closed; by rewrite Ea). specialize (H5 Hcl).
  unfold outstanding in H5. rewrite Ea in H5. pose proof (awaiting_sealed gs). pose proof (sealed_retiring gs).
  destruct flushed; injection Hr as <-; split; simpl; try done.
  - intros _. by apply H8.
  - intros _. unfold outstanding. simpl. destruct (reply h); lia.
Qed.

(** A load of an older value, outside the barrier. *)
Lemma sender_load_ok h ss gs i pc b pc' :
  ss !! i = Some pc -> sender_load b pc = Some pc' -> rechecks pc = false ->
  system_ok (mkSystem h ss gs) -> system_ok (mkSystem h (<[i := pc']> ss) gs).
Proof.
  intros Hi Hl Hr [H1 H2 H3 H4 H5 H6 H7 H8 H9]. simpl in *. counts Hi pc'.
  assert (E : counted pc' = counted pc /\ (admitted pc' = true -> admitted pc = true)) by (destruct pc, b; simplify_eq/=; done).
  destruct E as [E1 E2]. split; simpl; try done.
  - rewrite E1 in *. destruct (counted pc); simpl in *; lia.
  - intros Hs. specialize (H4 Hs). destruct (admitted pc'), (admitted pc); simplify_eq/=; first [lia | by specialize (E2 eq_refl)].
Qed.

Lemma collector_load_ok h ss gs i pc b pc' :
  gs !! i = Some pc -> collector_load b pc = Some pc' -> drains pc = false ->
  system_ok (mkSystem h ss gs) -> system_ok (mkSystem h ss (<[i := pc']> gs)).
Proof.
  intros Hi Hl Hd [H1 H2 H3 H4 H5 H6 H7 H8 H9]. simpl in *. gcounts Hi pc'.
  assert (E : (retiring pc' = true -> retiring pc = true) /\ (sealed pc' = true -> sealed pc = true) /\ awaiting pc' = awaiting pc)
    by (destruct pc, b; simplify_eq/=; done).
  destruct E as (E1 & E2 & E3).
  assert (R : count retiring (<[i := pc']> gs) <= count retiring gs) by (destruct (retiring pc'), (retiring pc); simplify_eq/=; first [lia | by specialize (E1 eq_refl)]).
  assert (S : count sealed (<[i := pc']> gs) <= count sealed gs) by (destruct (sealed pc'), (sealed pc); simplify_eq/=; first [lia | by specialize (E2 eq_refl)]).
  assert (A : count awaiting (<[i := pc']> gs) = count awaiting gs) by (destruct (awaiting pc'), (awaiting pc); simplify_eq/=; lia).
  split; simpl; rewrite ?A; try done; try lia.
  intros ?. apply H3. lia.
Qed.

Lemma system_step_ok s s' :
  system_step s s' -> system_ok s -> Forall carries (senders s) ->
  system_ok s' /\ Forall carries (senders s').
Proof.
  intros Hst Hok Hc. destruct Hst; simpl in *.
  - split; [by eapply sender_load_ok; eauto|]. apply Forall_insert; [done|].
    pose proof (Forall_lookup_1 _ _ _ _ Hc H) as Hp. by destruct pc, b; simplify_eq/=.
  - split; [by eapply collector_load_ok; eauto|done].
  - split; [|apply Forall_app; split; [done | by repeat constructor]].
    destruct Hok as [H1' H2' H3' H4' H5' H6' H7' H8' H9']. split; simpl in *; rewrite ?count_snoc; simpl; rewrite ?Nat.add_0_r; done.
  - split; [|done]. destruct Hok as [H1' H2' H3' H4' H5' H6' H7' H8' H9'].
    split; simpl in *; rewrite ?count_snoc; simpl; rewrite ?Nat.add_0_r; done.
  - split; [|apply Forall_insert; [done|]; eapply sender_carries; [done|]; by eapply Forall_lookup_1].
    eapply sender_step_ok; try done. pose proof (Forall_lookup_1 _ _ _ _ Hc H) as Hp. by destruct pc.
  - split; [|done]. by eapply collector_step_ok.
  - split; [|done]. by eapply recv_ok.
  - split; [|done]. by eapply flush_ok.
  - split; [|done]. destruct Hok as [H1' H2' H3' H4' H5' H6' H7' H8' H9']. split; simpl in *; try done.
    + intros Hcl. specialize (H5' Hcl). unfold outstanding in *. simpl. rewrite count_snoc. simpl. lia.
    + apply barrier_snoc; [done | by left].
    + by rewrite events_snoc, !app_nil_r.
    + rewrite events_snoc, app_nil_r. done.
    + rewrite events_snoc, app_nil_r. done.
  - split; [|done]. by destruct Hok.
  - split; [|done]. by destruct Hok.
  - split; [|done]. by destruct Hok.
Qed.

Lemma reachable_ok s : reachable s -> system_ok s /\ Forall carries (senders s).
Proof.
  intros Hr. unfold reachable in Hr.
  assert (Hinit : system_ok initial /\ Forall carries (senders initial)).
  { split; [|constructor]. split; unfold count; simpl; try done; intros; lia. }
  revert Hinit. generalize initial, Hr. clear Hr. intros s0 Hr. induction Hr as [x|x y z Hst Hr IH]; [done|].
  intros [Hok Hc]. apply IH. by eapply system_step_ok.
Qed.

(** Whatever is loaded, the mailbox holds, in order, what was accepted and not
    yet received. *)
Definition fifo (h : SessionHandle) : Prop := accepted h = handled h ++ events (mailbox h).

Lemma enqueue_fifo c h : fifo h -> fifo (enqueue c h).
Proof. unfold fifo. simpl. intros ->. by rewrite events_snoc, app_assoc. Qed.

Lemma system_step_fifo s s' : system_step s s' -> fifo (handle s) -> fifo (handle s').
Proof.
  intros Hst Hf. destruct Hst as [| | | |h ss gs i pc h' pc' _ Hs|h ss gs i pc h' pc' _ Hs|h ss gs idle h' Hr|h ss gs flushed h' Hr|h ss gs _ _| | |];
    simpl in *; try exact Hf.
  - destruct pc; simpl in Hs; repeat case_match; simplify_eq; try exact Hf. by apply enqueue_fifo.
  - destruct pc; simpl in Hs; repeat case_match; simplify_eq; try exact Hf. by apply enqueue_fifo.
  - unfold actor_recv in Hr. destruct (actor h); try done. unfold fifo in *. destruct (mailbox h) as [|c rest]; [done|].
    assert (E : accepted h = (handled h ++ event_of c) ++ events rest) by (rewrite Hf; unfold events; simpl; by rewrite app_assoc).
    destruct c; repeat case_match; simplify_eq/=; by rewrite E.
  - unfold actor_flush in Hr. destruct (actor h), flushed; simplify_eq; exact Hf.
  - by apply enqueue_fifo.
Qed.

Lemma history_fifo n s : history n s -> fifo (handle s).
Proof. induction 1 as [|n s s' _ IH Hst|n s s' _ IH Hst]; [done|by eapply system_step_fifo|by destruct Hst]. Qed.

Lemma fresh_reachable n s : history n s -> n = 0 -> reachable s.
Proof. induction 1 as [|n s s' _ IH Hst|]; [constructor| |done]. intros E. eapply rtc_r; [by apply IH|done]. Qed.

(** C8: scale-to-zero loses no event, unless its barrier read an older value.
    In every run, whatever the interleaving and whatever older values the loads
    return, every event whose send succeeded was received by the actor or is in
    its mailbox, in the order of the sends.  When the actor has stopped for an
    eviction none of them is left in the mailbox, and while it is making up its
    mind no sender that passed the recheck can still enqueue, unless one of the
    two loads of the barrier, the sender's second of [accepting] or the
    collector's of [in_flight], returned an older value in this run.  The
    orderings of the code allow that, and then an event can be lost:
    [stale_loads_lose_an_event]. *)
Theorem eviction_loses_no_event n s :
  history n s ->
  accepted (handle s) = handled (handle s) ++ events (mailbox (handle s)) /\
  (actor (handle s) = Evicted -> 0 < n \/ handled (handle s) = accepted (handle s)) /\
  (actor (handle s) = Flushing -> 0 < n \/ handled (handle s) = accepted (handle s) /\ count admitted (senders s) = 0).
Proof.
  intros Hr. pose proof (history_fifo _ _ Hr) as H7. split; [exact H7|]. unfold fifo in H7.
  destruct n as [|n]; [|split; intros _; left; lia]. apply fresh_reachable in Hr; [|done].
  destruct (reachable_ok s Hr) as [[H1 H2 H3 H4 H5 H6 _ H8 H9] _]. split; intros Ha; right.
  - by rewrite H7, (H9 Ha), app_nil_r.
  - split; [by rewrite H7, (H8 Ha), app_nil_r|]. apply H4.
    assert (Hcl : closed (handle s) = false) by (unfold closed; by rewrite Ha). specialize (H5 Hcl).
    unfold outstanding in H5. rewrite Ha in H5. pose proof (awaiting_sealed (collectors s)). lia.
Qed.

(** Retirement is exclusive and refuses sends: at most one collector holds
    a handle, the handle accepts nothing while it is held, and [in_flight] is
    exactly the number of sends between [fetch_add] and [finish_send], so it
    never underflows and its zero is the barrier [wait_for_in_flight] needs. *)
Theorem retirement_exclusive s :
  reachable s ->
  count retiring (collectors s) <= 1 /\
  (0 < count retiring (collectors s) -> accepting (handle s) = false) /\
  in_flight (handle s) = count counted (senders s) /\
  (forall i pc, senders s !! i = Some pc -> counted pc = true -> 0 < in_flight (handle s)).
Proof.
  intros Hr. destruct (reachable_ok s Hr) as [[H1 H2 H3 H4 H5 H6 H7 H8 H9] _].
  split; [done|]. split; [done|]. split; [done|]. intros i pc Hi Hp.
  pose proof (count_lookup counted _ _ _ Hi). rewrite Hp in *. simpl in *. lia.
Qed.

(** ** The session table *)

(** A key has one live handle: routing to a known key returns its handle
    and changes nothing, a fresh handle is stored under its key only, and a
    stale handle never removes the one that replaced it. *)
Theorem session_table_consistent fresh key key' h h' sessions :
  let '(found, sessions') := handle_for fresh key sessions in
  sessions' !! key = Some found /\
  (key' <> key -> sessions' !! key' = sessions !! key') /\
  (forall old, sessions !! key = Some old -> found = old /\ sessions' = sessions) /\
  (sessions !! key = Some h' -> h <> h' -> remove_handle key h sessions = (false, sessions)) /\
  (sessions !! key = Some h -> remove_handle key h sessions = (true, delete key sessions)).
Proof.
  unfold handle_for, remove_handle. destruct (sessions !! key) as [x|] eqn:E.
  - split; [done|]. split; [done|]. split; [by intros old [= ->]|]. split.
    + intros [= ->] Hne. by rewrite (proj2 (Nat.eqb_neq _ _)).
    + intros [= ->]. by rewrite Nat.eqb_refl.
  - split; [by rewrite lookup_insert_eq|]. split; [intros Hk; by rewrite lookup_insert_ne|].
    by repeat split.
Qed.

(** ** Witnesses *)

(** One event is sent and received, then an idle collection evicts the actor. *)
Definition evicted_run : system :=
  mkSystem (mkHandle false false 0 [] (Some RepliedTrue) Evicted [7] [7]) [SDone OutSent] [GAwait].

Lemma evicted_run_reachable : reachable evicted_run.
Proof.
  unfold reachable, initial, new_handle. eapply rtc_l; [by apply (step_route _ _ _ (CEvent 7))|]. simpl.
  do 7 (eapply rtc_l; [eapply (step_sender _ _ _ 0); reflexivity|]; simpl).
  eapply rtc_l; [eapply (step_recv _ _ _ false); reflexivity|]. simpl.
  eapply rtc_l; [apply step_collect|]. simpl.
  do 4 (eapply rtc_l; [eapply (step_collector _ _ _ 0); reflexivity|]; simpl).
  eapply rtc_l; [eapply (step_recv _ _ _ true); reflexivity|]. simpl.
  eapply rtc_l; [eapply (step_flush _ _ _ true); reflexivity|]. apply rtc_refl.
Qed.

(** A sender is counted; a collector retires the handle and reads the count of
    before; the actor finds nothing queued behind the request and flushes; the
    sender rereads [accepting] as it was, and its event is queued, reported as
    sent, and never received. *)
Example stale_loads_lose_an_event :
  exists s, history 2 s /\ actor (handle s) = Evicted /\ senders s = [SDone OutSent] /\ accepted (handle s) = [7] /\ handled (handle s) = [].
Proof.
  assert (R : forall n s s', history n s -> rtc system_step s s' -> history n s').
  { intros n s s' Hr Hs. induction Hs; [done|]. apply IHHs. by eapply history_step. }
  eexists. split; [|].
  { eapply R.
    - eapply history_stale; [eapply R; [eapply history_stale; [eapply R; [apply history_start|]|]|]|].
      + unfold initial, new_handle. eapply rtc_l; [by apply (step_route _ _ _ (CEvent 7))|]. simpl.
        do 3 (eapply rtc_l; [eapply (step_sender _ _ _ 0); reflexivity|]; simpl).
        eapply rtc_l; [apply step_collect|]. simpl.
        do 2 (eapply rtc_l; [eapply (step_collector _ _ _ 0); reflexivity|]; simpl). apply rtc_refl.
      + by eapply (stale_drain _ _ _ 0 _ true).
      + simpl. eapply rtc_l; [eapply (step_collector _ _ _ 0); reflexivity|]. simpl.
        eapply rtc_l; [eapply (step_recv _ _ _ true); reflexivity|]. apply rtc_refl.
      + by eapply (stale_recheck _ _ _ 0 _ true).
    - simpl. do 2 (eapply rtc_l; [eapply (step_sender _ _ _ 0); reflexivity|]; simpl).
      eapply rtc_l; [eapply (step_flush _ _ _ true); reflexivity|]. simpl.
      eapply rtc_l; [eapply (step_sender _ _ _ 0); reflexivity|]. apply rtc_refl. }
  repeat split.
Qed.

Lemma evicted_run_history : history 0 evicted_run.
Proof.
  assert (R : forall s s', history 0 s -> rtc system_step s s' -> history 0 s').
  { intros s s' Hr Hs. induction Hs; [done|]. apply IHHs. by eapply history_step. }
  exact (R _ _ history_start evicted_run_reachable).
Qed.

Lemma eviction_loses_no_event_witness :
  actor (handle evicted_run) = Evicted /\ handled (handle evicted_run) = accepted (handle evicted_run).
Proof.
  split; [reflexivity|].
  destruct (proj1 (proj2 (eviction_loses_no_event 0 evicted_run evicted_run_history)) eq_refl) as [H|H]; [exfalso; lia|exact H].
Defined.

Lemma retirement_exclusive_witness : in_flight (handle evicted_run) = 0.
Proof. apply (retirement_exclusive evicted_run evicted_run_reachable). Defined.

Definition demo_key : SessionKey := mkSessionKey "discord"%string None "c"%string None "u"%string None.

Lemma session_table_consistent_witness :
  remove_handle demo_key 3 {[demo_key := 5]} = (false, {[demo_key := 5]}).
Proof.
  pose proof (session_table_consistent 9 demo_key demo_key 3 5 {[demo_key := 5]}) as Hs.
  destruct (handle_for 9 demo_key {[demo_key := 5]}) as [found sessions'].
  apply Hs; [apply lookup_singleton_eq | lia].
Defined.
