(* ===== verification/Routing.v ===== *)
(** * Profile routing ([src/multiplexer/profile_routing.rs])

    Routes from a Discord hierarchy to profiles, their order, the tiers of
    [match_route_with_parent], the user allow-lists, and the defaults a route
    gives a session.  The serde decoding of route lists is an argument. *)
From stdpp Require Import base list strings gmap.
From Stdlib Require Import ZArith NArith Lia Ascii String.
From S2P Require Import Prelude RustStr Json Db Session Events.
Open Scope string_scope.
Local Notation length := Datatypes.length.

Record ProfileRoute : Type := mkRoute {
  name : option string;
  guild : option N;
  channel : option N;
  thread : option N;
  route_enabled : bool;
  model : option string;
  route_prompt : option string;
  toolsets : option (list string);
  route_profile : option string;
  allowed_users : option (list N)
}.

#[export] Instance ProfileRoute_eq_dec : EqDecision ProfileRoute.
Proof. solve_decision. Defined.

(** [ProfileRoute::new]. *)
Definition new_route : ProfileRoute :=
  mkRoute None None None None true None None None None None.

Definition is_some {A} (o : option A) : bool := match o with Some _ => true | None => false end.
Definition is_none {A} (o : option A) : bool := negb (is_some o).
Definition opt_is (o : option N) (x : N) : bool := match o with Some y => (y =? x)%N | None => false end.
Definition opt_same (a b : option N) : bool :=
  match a, b with Some x, Some y => (x =? y)%N | None, None => true | _, _ => false end.

Definition specificity (r : ProfileRoute) : N :=
  ((if is_some (guild r) then 2 else 0) + (if is_some (channel r) then 4 else 0)
   + (if is_some (thread r) then 8 else 0))%N.

Definition matches (r : ProfileRoute) (guild_id : option N) (channel_id : N) (thread_id : option N) : bool :=
  route_enabled r
  && match thread r with Some t => opt_is thread_id t | None => true end
  && match channel r with Some c => (channel_id =? c)%N | None => true end
  && match guild r with Some g => opt_is guild_id g | None => true end.

(** [r.guild.is_none() || r.guild == guild_id]. *)
Definition guild_fits (r : ProfileRoute) (guild_id : option N) : bool :=
  is_none (guild r) || opt_same (guild r) guild_id.

(** [ProfileRouter::new]: a stable sort by descending specificity. *)
Definition new_router (routes : list ProfileRoute) : list ProfileRoute :=
  order_by (fun r => - Z.of_N (specificity r))%Z routes.

(** The tiers of [match_route_with_parent], in order. *)
Definition thread_tier (guild_id : option N) (channel_id tid : N) (parent : option N) (r : ProfileRoute) : bool :=
  opt_is (thread r) tid
  && (is_none (channel r) || opt_is (channel r) channel_id
      || match parent with Some pid => opt_is (channel r) pid | None => false end)
  && guild_fits r guild_id && route_enabled r.

(** A route that names exactly this channel, in any thread. *)
Definition channel_tier (guild_id : option N) (id : N) (r : ProfileRoute) : bool :=
  opt_is (channel r) id && is_none (thread r) && guild_fits r guild_id && route_enabled r.

Definition guild_tier (gid : N) (r : ProfileRoute) : bool :=
  opt_is (guild r) gid && is_none (channel r) && is_none (thread r) && route_enabled r.

Definition or_else {A} (a b : option A) : option A := match a with Some _ => a | None => b end.

Section Router.
Context (routes : list ProfileRoute).
Notation first p := (List.find p routes).

Definition match_route_with_parent (guild_id : option N) (channel_id : N) (thread_id parent : option N) :
    option ProfileRoute :=
  or_else
    (match thread_id with
     | Some tid => or_else (first (thread_tier guild_id channel_id tid parent)) (first (channel_tier guild_id tid))
     | None => None
     end)
  (or_else (first (fun r => matches r guild_id channel_id thread_id))
  (or_else (if is_some thread_id then first (channel_tier guild_id channel_id) else None)
  (or_else
    (match parent with
     | Some pid => if (pid =? channel_id)%N then None else first (channel_tier guild_id pid)
     | None => None
     end)
    (match guild_id with Some gid => first (guild_tier gid) | None => None end)))).

Definition match_route (guild_id : option N) (channel_id : N) (thread_id : option N) : option ProfileRoute :=
  match_route_with_parent guild_id channel_id thread_id None.

Definition parse_id (s : option string) : option N := s ≫= parse_u64.

Definition match_session (k : SessionKey) : option ProfileRoute :=
  match parse_u64 (channel_id k) with
  | Some c => match_route (parse_id (guild_id k)) c (parse_id (thread_id k))
  | None => None
  end.

Definition match_event (k : SessionKey) : option ProfileRoute :=
  match parse_u64 (channel_id k) with
  | Some c => match_route_with_parent (parse_id (guild_id k)) c (parse_id (thread_id k)) (parse_id (parent_chat_id k))
  | None => None
  end.

(** ** Allow-lists *)

Definition listed_user (user : N) (l : list N) : bool := existsb (N.eqb user) l.

(** The loop over the bot's routes: the first with an allow-list decides. *)
Fixpoint bot_allows (bot : string) (user : N) (l : list ProfileRoute) : option bool :=
  match l with
  | [] => None
  | r :: rest =>
      let named o := match o with Some x => String.eqb x bot | None => false end in
      match (if named (name r) || named (route_profile r) then allowed_users r else None) with
      | Some allowed => Some (listed_user user allowed)
      | None => bot_allows bot user rest
      end
  end.

Definition is_user_allowed_for_bot_or_route (bot : option string) (channel_id user : N) (global : list N) : bool :=
  match match_route None channel_id None ≫= allowed_users with
  | Some allowed => listed_user user allowed
  | None =>
      match match bot with Some b => bot_allows b user routes | None => None end with
      | Some decision => decision
      | None => match global with [] => true | _ => listed_user user global end
      end
  end.
End Router.

(** ** Session defaults *)

Definition apply_to_session (r : ProfileRoute) (s : SessionContext) : SessionContext :=
  let st := ctx_state s in
  let metadata1 :=
    match toolsets r with
    | Some t =>
        match metadata st !! "enabled_toolsets" with
        | Some _ => metadata st
        | None => <["enabled_toolsets" := JArray (map JString t)]> (metadata st)
        end
    | None => metadata st
    end in
  let metadata2 :=
    match route_profile r with Some p => <["profile" := JString p]> metadata1 | None => metadata1 end in
  mkSessionContext (ctx_key s)
    (mkSessionState (or_else (active_model st) (model r)) (or_else (system_prompt st) (route_prompt r))
       (or_else (enabled_toolsets st) (toolsets r)) (yolo st) (suspended st) metadata2)
    (created_at s) (updated_at s).

Definition router_apply_to_session (routes : list ProfileRoute) (s : SessionContext) : SessionContext :=
  match match_session routes (ctx_key s) with Some r => apply_to_session r s | None => s end.

(** ** Parsing *)

(** [deserialize_optional_u64] on a JSON value. *)
Definition optional_u64 (v : value) : result (option N) string :=
  match v with
  | JNull => Ok None
  | JPos n => Ok (Some n)
  | JNeg _ => Ok None
  | JString s =>
      if String.eqb (trim s) "" then Ok None
      else match parse_u64 (trim s) with Some n => Ok (Some n) | None => Err "invalid digit found in string" end
  | _ => Err "data did not match any variant"
  end.

Section Parse.
(** serde: a list of routes, and the entries of the channel-prompt mapping as
    (key, prompt, skills) in the map's order. *)
Context (decode_routes : string -> result (list ProfileRoute) string).
Context (decode_prompts : string -> result (list (string * (option string * option (list string)))) string).

Definition parse_profile_routes (json : string) : list ProfileRoute :=
  if String.eqb (trim json) "" then []
  else match decode_routes (trim json) with Ok routes => routes | Err _ => [] end.

Definition from_json (json : string) : list ProfileRoute := new_router (parse_profile_routes json).

Definition prompt_route (id : N) (prompt : option string) (skills : option (list string)) : ProfileRoute :=
  mkRoute (Some ("channel-prompt-" ++ show_N id)) None (Some id) None true None prompt skills None None.

Definition parse_channel_prompts (json : string) : list ProfileRoute :=
  if String.eqb (trim json) "" then []
  else match decode_prompts (trim json) with
       | Ok entries =>
           order_by (fun r => Z.of_N (default 0%N (channel r)))
             (omap (fun '(key, (prompt, skills)) =>
                (fun id => prompt_route id prompt skills) <$> parse_u64 (trim key)) entries)
       | Err _ => []
       end.
End Parse.

(** ** Matching *)

Lemma find_first p (l : list ProfileRoute) r : List.find p l = Some r -> r ∈ l /\ p r = true.
Proof. intros E. apply find_some in E as [? ?]. split; [by apply list_elem_of_In | done]. Qed.

Lemma find_missing p (l : list ProfileRoute) : List.find p l = None -> forall r, r ∈ l -> p r = false.
Proof. intros E r Hr. eapply find_none; [exact E|]. by apply list_elem_of_In. Qed.

Lemma router_perm routes r : r ∈ new_router routes <-> r ∈ routes.
Proof. apply in_order_by. Qed.

(** On a sorted list the first match is among the most specific. *)
Lemma find_most_specific p routes r r' :
  List.find p (new_router routes) = Some r -> r' ∈ routes -> p r' = true ->
  (specificity r' <= specificity r)%N.
Proof.
  intros E Hr' Hp. apply router_perm in Hr'. unfold new_router in *.
  pose proof (order_by_sorted (fun r => - Z.of_N (specificity r))%Z routes) as Hs.
  induction Hs as [|x l Hl IH Hx]; simpl in E; [done|].
  destruct (p x) eqn:Ex.
  - injection E as ->. apply elem_of_cons in Hr' as [->|Hr']; [lia|].
    rewrite Forall_forall in Hx. specialize (Hx r' Hr'). simpl in Hx. lia.
  - apply elem_of_cons in Hr' as [->|Hr']; [congruence | by apply IH].
Qed.

Lemma opt_is_spec o x : opt_is o x = true <-> o = Some x.
Proof. destruct o; simpl; [rewrite N.eqb_eq; naive_solver | done]. Qed.

Lemma guild_fits_spec r g : guild_fits r g = true <-> guild r = None \/ guild r = g.
Proof.
  unfold guild_fits, is_none. destruct (guild r) as [x|] eqn:E; simpl; [|naive_solver].
  destruct g as [y|]; simpl; [rewrite N.eqb_eq; naive_solver | naive_solver].
Qed.

(** What a route may constrain: each field it names is the event's, where the
    channel may be the channel, the thread itself, or the parent channel. *)
Definition fits_context (r : ProfileRoute) (g : option N) (c : N) (t parent : option N) : Prop :=
  route_enabled r = true /\
  (guild r = None \/ guild r = g) /\
  (thread r = None \/ thread r = t) /\
  (channel r = None \/ channel r = Some c \/ channel r = t \/ channel r = parent).

Lemma matches_fits r g c t parent : matches r g c t = true -> fits_context r g c t parent.
Proof.
  unfold matches, fits_context. rewrite !andb_true_iff. intros [[[He Ht] Hc] Hg]. split; [done|]. split; [|split].
  - destruct (guild r); [|by left]. right. by apply opt_is_spec in Hg.
  - destruct (thread r); [|by left]. right. by apply opt_is_spec in Ht.
  - destruct (channel r); [|by left]. right. left. apply N.eqb_eq in Hc. congruence.
Qed.

Lemma channel_tier_spec g id r : channel_tier g id r = true ->
  route_enabled r = true /\ (guild r = None \/ guild r = g) /\ thread r = None /\ channel r = Some id.
Proof.
  unfold channel_tier, is_none. rewrite !andb_true_iff, opt_is_spec, guild_fits_spec.
  intros [[[Hc Ht] Hg] He]. repeat split; try done. by destruct (thread r).
Qed.

Lemma match_fits routes g c t parent r :
  match_route_with_parent routes g c t parent = Some r -> r ∈ routes /\ fits_context r g c t parent.
Proof.
  unfold match_route_with_parent. intros E.
  assert (Hor : forall a b : option ProfileRoute, or_else a b = Some r -> a = Some r \/ b = Some r)
    by (intros [x|] b; simpl; [by left | by right]).
  assert (Hch : forall id, List.find (channel_tier g id) routes = Some r ->
    (Some id = Some c \/ Some id = t \/ Some id = parent) -> r ∈ routes /\ fits_context r g c t parent).
  { intros id Hf Hid. apply find_first in Hf as [Hin Hp]. apply channel_tier_spec in Hp as (? & ? & ? & Hc).
    split; [done|]. split; [done|]. split; [done|]. split; [by left|]. rewrite Hc. by right. }
  apply Hor in E as [E|E]; [destruct t as [tid|]; [apply Hor in E as [E|E]|done]|].
  - apply find_first in E as [Hin Hp]. split; [done|]. unfold thread_tier in Hp.
    rewrite !andb_true_iff, !orb_true_iff, !opt_is_spec, guild_fits_spec in Hp.
    destruct Hp as [[[Ht Hc] Hg] He]. split; [done|]. split; [done|]. split; [by right|].
    destruct Hc as [[Hc|Hc]|Hc]; [left; unfold is_none in Hc; by destruct (channel r) | by right; left |].
    destruct parent; [|done]. apply opt_is_spec in Hc. by do 3 right.
  - apply (Hch tid); [done | by right; left].
  - apply Hor in E as [E|E].
    { apply find_first in E as [Hin Hp]. split; [done | by apply matches_fits]. }
    apply Hor in E as [E|E]; [destruct (is_some t); [|done]; apply (Hch c); [done | by left]|].
    apply Hor in E as [E|E].
    { destruct parent as [pid|]; [|done]. destruct (pid =? c)%N; [done|]. apply (Hch pid); [done | by right; right]. }
    destruct g as [gid|]; [|done]. apply find_first in E as [Hin Hp]. split; [done|].
    unfold guild_tier in Hp. rewrite !andb_true_iff, opt_is_spec in Hp. destruct Hp as [[[Hg Hc] Ht] He].
    split; [done|]. split; [by right|]. split; left; [by destruct (thread r) | by destruct (channel r)].
Qed.

(** A matched route is one of the configured ones, enabled, and every
    constraint it states holds of the event: its guild, its thread, and a
    channel that is the event's channel, its thread, or its parent. *)
Theorem matched_route_fits routes g c t parent r :
  match_route_with_parent (new_router routes) g c t parent = Some r ->
  r ∈ routes /\ fits_context r g c t parent.
Proof. intros E. apply match_fits in E as [Hin Hf]. split; [by apply router_perm | done]. Qed.

(** C9: outside threads the most specific match wins, and a match is found
    whenever there is one: the result matches, no enabled matching route is
    more specific, and without a result no route matches. *)
Theorem most_specific_route_wins routes g c :
  match match_route (new_router routes) g c None with
  | Some r => r ∈ routes /\ matches r g c None = true /\
              forall r', r' ∈ routes -> matches r' g c None = true -> (specificity r' <= specificity r)%N
  | None => forall r', r' ∈ routes -> matches r' g c None = false
  end.
Proof.
  unfold match_route, match_route_with_parent. cbn [is_some or_else].
  destruct (List.find (fun r => matches r g c None) (new_router routes)) as [r|] eqn:E; simpl.
  - destruct (find_first _ _ _ E) as [Hin Hp]. apply (proj1 (router_perm _ _)) in Hin. split; [done|]. split; [done|].
    intros r' Hr' Hm. by eapply (find_most_specific (fun r => matches r g c None)).
  - assert (Hno : forall r', r' ∈ routes -> matches r' g c None = false).
    { intros r' Hr'. eapply (find_missing _ _ E). by apply router_perm. }
    destruct g as [gid|]; [|exact Hno].
    destruct (List.find (guild_tier gid) (new_router routes)) as [r|] eqn:Eg; [|exact Hno].
    apply find_first in Eg as [Hin Hg]. apply (proj1 (router_perm _ _)) in Hin. specialize (Hno r Hin).
    unfold guild_tier in Hg. rewrite !andb_true_iff, opt_is_spec in Hg. destruct Hg as [[[Hg Hc] Ht] He].
    exfalso. unfold is_none in Hc, Ht. unfold matches in Hno. rewrite Hg, He in Hno.
    destruct (channel r); [discriminate Hc|]. destruct (thread r); [discriminate Ht|].
    simpl in Hno. by rewrite N.eqb_refl in Hno.
Qed.

(** Inside a thread the event's parent is the session's channel itself, so the
    thread tier gains nothing and the parent tier never fires. *)
Lemma own_parent routes g c t : match_route_with_parent routes g c t (Some c) = match_route_with_parent routes g c t None.
Proof.
  unfold match_route_with_parent. rewrite N.eqb_refl.
  assert (Hfind : forall p q : ProfileRoute -> bool, (forall r, p r = q r) -> List.find p routes = List.find q routes).
  { intros p q Hpq. induction routes as [|r l IH]; [done|]. simpl. by rewrite Hpq, IH. }
  destruct t as [tid|]; [|done].
  rewrite (Hfind (thread_tier g c tid (Some c)) (thread_tier g c tid None)); [done|].
  intros r. unfold thread_tier. by destruct (opt_is (thread r) tid), (is_none (channel r)), (opt_is (channel r) c).
Qed.

(** An event is routed exactly as its session: [match_event], with its
    awareness of the parent channel, and [match_session] choose the same route,
    so the defaults applied to a session are those of the route its events match. *)
Theorem event_routes_as_session routes k : match_event routes k = match_session routes k.
Proof.
  unfold match_event, match_session, match_route, parent_chat_id.
  destruct (parse_u64 (channel_id k)) as [c|] eqn:E; [|done].
  destruct (thread_id k); simpl; [rewrite E; apply own_parent | done].
Qed.

(** A guild-wide route hides every route of the parent channel: the tier of
    direct matches, which accepts it, comes before the parent tier. *)
Lemma guild_route_hides_parent_route :
  let guild_wide := mkRoute (Some "guild") (Some 1%N) None None true None None None None None in
  let parent := mkRoute (Some "parent") (Some 1%N) (Some 50%N) None true None None None None None in
  match_route_with_parent (new_router [guild_wide; parent]) (Some 1%N) 60 None (Some 50%N) = Some guild_wide.
Proof. reflexivity. Qed.

(** The allow-list of a route bound to a guild is never consulted for a bare
    channel: the lookup passes no guild. *)
Lemma guild_route_allow_list_ignored :
  let route := mkRoute None (Some 1%N) (Some 2%N) None true None None None None (Some [7%N]) in
  is_user_allowed_for_bot_or_route (new_router [route]) None 2 8 [] = true.
Proof. reflexivity. Qed.

(** ** Defaults *)

(** A route only fills in: what a session already fixes (model, prompt,
    toolsets, switches, key and other metadata) is kept, what it leaves open
    takes the route's value, the profile is recorded, and applying the route
    again changes nothing. *)
Theorem route_fills_defaults r s :
  let s' := apply_to_session r s in
  ctx_key s' = ctx_key s /\
  active_model (ctx_state s') = or_else (active_model (ctx_state s)) (model r) /\
  system_prompt (ctx_state s') = or_else (system_prompt (ctx_state s)) (route_prompt r) /\
  enabled_toolsets (ctx_state s') = or_else (enabled_toolsets (ctx_state s)) (toolsets r) /\
  (forall k v, metadata (ctx_state s) !! k = Some v -> k <> "profile" ->
     metadata (ctx_state s') !! k = Some v) /\
  (forall p, route_profile r = Some p -> metadata (ctx_state s') !! "profile" = Some (JString p)) /\
  apply_to_session r s' = s'.
Proof.
  intros s'. split; [done|]. split; [done|]. split; [done|]. split; [done|]. split; [|split].
  - intros k v Hk Hne. simpl. destruct (toolsets r) as [t|]; [destruct (metadata (ctx_state s) !! "enabled_toolsets") eqn:E|];
      destruct (route_profile r); rewrite ?lookup_insert_ne by done; try done;
      by rewrite lookup_insert_ne by (intros <-; congruence).
  - intros p Hp. simpl. rewrite Hp. apply lookup_insert_eq.
  - unfold s', apply_to_session. simpl. f_equal.
    assert (Hor : forall A (a b : option A), or_else (or_else a b) b = or_else a b) by by intros A [] [].
    rewrite !Hor. f_equal.
    set (m1 := match toolsets r with Some t => _ | None => metadata (ctx_state s) end).
    assert (Hm1 : forall p, toolsets r <> None -> is_Some ((match p with Some p => <["profile" := JString p]> m1 | None => m1 end) !! "enabled_toolsets")).
    { intros p Ht. assert (Hm : is_Some (m1 !! "enabled_toolsets")).
      { unfold m1. destruct (toolsets r); [|done]. destruct (metadata _ !! "enabled_toolsets") eqn:E; [by rewrite E|].
        rewrite lookup_insert_eq. by eexists. }
      destruct p; [by rewrite lookup_insert_ne by done | done]. }
    destruct (toolsets r) as [t|] eqn:Et.
    + destruct (Hm1 (route_profile r)) as [x Hx]; [done|]. rewrite Hx.
      destruct (route_profile r); [by rewrite insert_insert_eq | done].
    + destruct (route_profile r); [by rewrite insert_insert_eq | done].
Qed.

(** ** Witness *)

Lemma matched_route_fits_witness :
  let r := mkRoute None None (Some 50%N) None true None None None None None in
  fits_context r (Some 1%N) 60 (Some 61%N) (Some 50%N).
Proof.
  intros r. apply (matched_route_fits [r] (Some 1%N) 60%N (Some 61%N) (Some 50%N)). reflexivity.
Defined.
