(* ===== verification/Actor.v ===== *)
(** * Session actors ([src/multiplexer/actor.rs])

    One actor per session: the loop that takes commands from its mailbox, runs
    one turn at a time, queues the events that arrive meanwhile, answers every
    reply channel, and writes the session row, the transcript and the delivery
    ledger; and the recovery of interrupted turns at startup
    ([src/storage/db.rs]).  The loop is cut at its await points: [actor_step]
    is what happens between two of them.  The agent runner is an input (what
    it writes, how it ends), a reply channel is a number, and the dispatcher
    records its actions. *)
From stdpp Require Import base list strings gmap.
From Stdlib Require Import ZArith NArith Lia Ascii String Sorted.
From S2P Require Import Prelude RustStr Json Db Session Events Ledger.
Open Scope string_scope.
Open Scope db_scope.
Local Notation length := Datatypes.length.

(** A row of [messages]. *)
Record MessageRow : Type := mkMessage {
  m_sequence : nat;
  m_id : string;
  m_session_key : string;
  m_role : string;
  m_content : string;
  m_metadata_json : string;
  m_created_at : Z;
  m_platform_message_id : option string
}.

(** [ActorCommand]; a number stands for the sending half of a oneshot channel. *)
Inductive Command : Type :=
| Event (event : InboundEvent)
| EventWithAck (event : InboundEvent) (ack : nat)
| Stop (reply : nat)
| EvictIfIdle (idle_timeout : Z) (reply : nat)
| TouchActivity
| SetModel (model : string) (reply : nat)
| Reset (reply : nat)
| GetContext (reply : nat).

(** What is sent on a channel: [Result<()>], [Result<bool>], a context. *)
Inductive Answer : Type :=
| AckResult (r : result unit OmonError)
| FlagResult (r : result bool OmonError)
| ContextReply (c : SessionContext).

Record SessionActor : Type := mkActor {
  context : SessionContext;
  last_active_at : Z;
  dirty : bool;
  binding_cleared : bool;
  pending_ack : option nat
}.

(** The database and the actor's memory: the local queue of [run] beside its
    fields.  [answers] and [actions] are what has left the actor. *)
Record ActorStore : Type := mkStore {
  ledger : LedgerState;
  messages : list MessageRow;
  next_sequence : nat;
  actor : SessionActor;
  pending_events : list Command;
  answers : list (nat * Answer);
  actions : list OutboundAction
}.

Definition set_ledger (l : LedgerState) (s : ActorStore) :=
  mkStore l (messages s) (next_sequence s) (actor s) (pending_events s) (answers s) (actions s).
Definition set_messages (t : list MessageRow) (n : nat) (s : ActorStore) :=
  mkStore (ledger s) t n (actor s) (pending_events s) (answers s) (actions s).
Definition set_actor (f : SessionActor -> SessionActor) (s : ActorStore) :=
  mkStore (ledger s) (messages s) (next_sequence s) (f (actor s)) (pending_events s) (answers s) (actions s).
Definition set_pending (q : list Command) (s : ActorStore) :=
  mkStore (ledger s) (messages s) (next_sequence s) (actor s) q (answers s) (actions s).
Definition set_answers (l : list (nat * Answer)) (s : ActorStore) :=
  mkStore (ledger s) (messages s) (next_sequence s) (actor s) (pending_events s) l (actions s).
Definition set_actions (l : list OutboundAction) (s : ActorStore) :=
  mkStore (ledger s) (messages s) (next_sequence s) (actor s) (pending_events s) (answers s) l.

Definition with_context (c : SessionContext) (a : SessionActor) :=
  mkActor c (last_active_at a) (dirty a) (binding_cleared a) (pending_ack a).
Definition with_dirty (d : bool) (a : SessionActor) :=
  mkActor (context a) (last_active_at a) d (binding_cleared a) (pending_ack a).
Definition with_cleared (b : bool) (a : SessionActor) :=
  mkActor (context a) (last_active_at a) (dirty a) b (pending_ack a).
Definition with_active (now : Z) (a : SessionActor) :=
  mkActor (context a) now (dirty a) (binding_cleared a) (pending_ack a).
Definition with_ack (o : option nat) (a : SessionActor) :=
  mkActor (context a) (last_active_at a) (dirty a) (binding_cleared a) o.

Definition with_state (st : SessionState) (c : SessionContext) :=
  mkSessionContext (ctx_key c) st (created_at c) (updated_at c).
Definition with_updated (now : Z) (c : SessionContext) :=
  mkSessionContext (ctx_key c) (ctx_state c) (created_at c) now.
Definition with_suspended (b : bool) (st : SessionState) :=
  mkSessionState (active_model st) (system_prompt st) (enabled_toolsets st) (yolo st) b (metadata st).
Definition with_model (m : string) (st : SessionState) :=
  mkSessionState (Some m) (system_prompt st) (enabled_toolsets st) (yolo st) (suspended st) (metadata st).
Definition with_metadata (m : gmap string value) (st : SessionState) :=
  mkSessionState (active_model st) (system_prompt st) (enabled_toolsets st) (yolo st) (suspended st) m.

(** ** The remote binding inside a stored state

    [json_extract(v, '$.metadata.omo_thread_id')]: JSON null is NULL and a
    boolean an integer. *)
Definition json_binding (v : value) : option value :=
  match Json.get "metadata" v with
  | Some m => match Json.get "omo_thread_id" m with
              | None | Some JNull => None
              | Some (JBool b) => Some (JPos (if b then 1 else 0))
              | Some x => Some x
              end
  | None => None
  end.

(** A member is replaced in place or added at the end. *)
Fixpoint member_set (key : string) (x : value) (m : list (string * value)) : list (string * value) :=
  match m with
  | [] => [(key, x)]
  | (k, v) :: rest => if String.eqb k key then (k, x) :: rest else (k, v) :: member_set key x rest
  end.

(** [json_set(v, '$.metadata.omo_thread_id', x)]. *)
Definition json_set_binding (x v : value) : value :=
  match v with
  | JObject m =>
      match assoc_get "metadata" m with
      | Some (JObject md) => JObject (member_set "metadata" (JObject (member_set "omo_thread_id" x md)) m)
      | Some _ => v
      | None => JObject (member_set "metadata" (JObject [("omo_thread_id", x)]) m)
      end
  | _ => v
  end.

(** What the running turn keeps: its event and the runner's copy of the context. *)
Record Turn : Type := mkTurn { t_event : InboundEvent; t_context : SessionContext }.

Inductive Phase : Type :=
| Idle               (** at the head of the loop *)
| Running (t : Turn) (** in the [select!] of a turn *)
| Gone.              (** [run] has returned *)

Inductive TurnOutcome : Type :=
| Completed (r : result unit OmonError)
| Stopped (reply : nat)
| Shutdown.

(** What a step reads from outside: the clock, whether the mailbox is empty,
    and what [runner.cancel] returns. *)
Record Env : Type := mkEnv {
  now : Z;
  mailbox_empty : bool;
  cancel_result : result unit OmonError
}.

Section Actor.
Context `{Sqlite} `{EventLibs} (julian_ms : Z -> Z -> Z).
(** Whether the actor was given a dispatcher; serde's text of a list of
    attachments. *)
Context (dispatcher : bool) (attachments_json : list MessageAttachment -> string).
Notation "'A' T" := (M ActorStore T) (at level 10).

(** An operation of the delivery ledger, on the same connection. *)
Definition on_ledger {T} (m : M LedgerState T) : A T := zoom ledger set_ledger m.

Definition on_actor (f : SessionActor -> SessionActor) : A unit := mem (fun s => (tt, set_actor f s)).
Definition the_actor : A SessionActor := mem (fun s => (actor s, s)).

Definition on_state (f : SessionState -> SessionState) : A unit :=
  on_actor (fun a => with_context (with_state (f (ctx_state (context a))) (context a)) a).

Definition send (reply : nat) (a : Answer) : A unit :=
  mem (fun s => (tt, set_answers (answers s ++ [(reply, a)])%list s)).

Definition act (a : OutboundAction) : A unit :=
  mem (fun s => (tt, if dispatcher then set_actions (actions s ++ [a])%list s else s)).

(** ** Its operations on the database *)

Definition ensure_session (c : SessionContext) : A unit :=
  on_ledger (stmt (fun s =>
    (tt, if has_session (storage_key (ctx_key c)) s then s
         else set_sessions (fun t => (t ++ [mkSessionRow (storage_key (ctx_key c)) (ctx_key c)
                                             (state_value (ctx_state c)) false])%list) s))).

Definition of_session (key : string) (r : SessionRow) : bool := String.eqb (sr_key r) key.

(** [state_json] after a flush of [new] over [old]. *)
Definition flushed (preserve : bool) (old new : value) : value :=
  match json_binding old, json_binding new with
  | Some b, None => if preserve then json_set_binding b new else new
  | _, _ => new
  end.

Definition flush : A unit :=
  a <- the_actor ;;
  ensure_session (context a) ;;;
  on_ledger (stmt (fun s => (tt, set_sessions (update_where (of_session (storage_key (ctx_key (context a))))
    (fun r => mkSessionRow (sr_key r) (sr_session r)
                (flushed (negb (binding_cleared a)) (sr_state_json r) (state_value (ctx_state (context a))))
                (sr_resume_pending r))) s))).

Definition flush_if_dirty : A unit :=
  a <- the_actor ;;
  if dirty a then
    flush ;;; on_actor (fun a => with_cleared false (with_dirty false a))
  else ret tt.

Definition set_resume (b : bool) (r : SessionRow) :=
  mkSessionRow (sr_key r) (sr_session r) (sr_state_json r) b.

(** [mark_session_resume_pending], [clear_session_resume_pending]. *)
Definition mark_session_resume_pending (key : string) : A unit :=
  on_ledger (stmt (fun s => (tt, set_sessions (update_where (of_session key) (set_resume true)) s))).
Definition clear_session_resume_pending (key : string) : A bool :=
  on_ledger (stmt (fun s =>
    let p r := of_session key r && sr_resume_pending r in
    (negb (count p (Ledger.sessions s) =? 0)%nat, set_sessions (update_where p (set_resume false)) s))).

Definition has_platform_message_id (key id : string) : A bool :=
  query (fun s => existsb (fun r => String.eqb (m_session_key r) key
                                    && opt_eqb (m_platform_message_id r) (Some id)) (messages s)).

(** [INSERT INTO messages ... ON CONFLICT(id) DO NOTHING]: [sequence] is an
    AUTOINCREMENT key. *)
Definition insert_message (id key role content metadata : string) (created : Z) (platform : option string)
    (s : ActorStore) : result unit OmonError * ActorStore :=
  if negb (has_session key (ledger s)) then (Err (Database (constraint_error "messages.session_key")), s)
  else if existsb (fun r => String.eqb (m_id r) id) (messages s) then (Ok tt, s)
  else (Ok tt, set_messages (messages s ++ [mkMessage (next_sequence s) id key role content metadata created platform])%list
                 (S (next_sequence s)) s).

Definition persist_inbound (event : InboundEvent) : A unit :=
  a <- the_actor ;;
  ensure_session (context a) ;;;
  exec (insert_message (ev_id event) (storage_key (ctx_key (context a))) "user"
    (strip_leading_message_timestamps (render_user_prompt event))
    (attachments_json (ev_attachments event)) (ev_received_at event)
    (if String.eqb (ev_platform_message_id event) "" then None else Some (ev_platform_message_id event))).

(** The rows after the event's own; none when it is not there. *)
Definition after_event (key event_id : string) (t : list MessageRow) (r : MessageRow) : bool :=
  String.eqb (m_session_key r) key
  && match head (select (fun x => String.eqb (m_id x) event_id && String.eqb (m_session_key x) key) t) with
     | Some x => (m_sequence x <? m_sequence r)%nat
     | None => false
     end.

Definition rollback_partial_history (event_id : string) : A unit :=
  a <- the_actor ;;
  stmt (fun s => (tt, set_messages
    (delete_where (after_event (storage_key (ctx_key (context a))) event_id (messages s)) (messages s))
    (next_sequence s) s)).

Definition complete_delivery (delivery : option string) (r : result unit OmonError) (now : Z) : A unit :=
  match delivery with
  | None => ret tt
  | Some d =>
      attempt (on_ledger (match r with
                          | Ok _ => mark_delivered julian_ms d now
                          | Err e => mark_failed julian_ms d (error_text e) now
                          end)) ;;; ret tt
  end.

(** ** Answers and actions *)

Definition resolve_pending_ack (outcome : result unit OmonError) : A unit :=
  a <- the_actor ;;
  match pending_ack a with
  | Some ack => on_actor (with_ack None) ;;; send ack (AckResult outcome)
  | None => ret tt
  end.

Definition typing (active : bool) : A unit :=
  a <- the_actor ;;
  if starts_with "cron:" (user_id (ctx_key (context a))) then ret tt
  else act (Typing (ctx_key (context a)) active).

Definition react (event : InboundEvent) (emoji : string) : A unit :=
  a <- the_actor ;;
  if String.eqb (ev_platform_message_id event) "" then ret tt
  else act (React (ctx_key (context a)) (ev_platform_message_id event) emoji true).

(** One queued event given up with a reason, and the whole queue. *)
Definition decline (reason : string) (now : Z) (c : Command) : A unit :=
  match c with
  | Event p => complete_delivery (ev_delivery_id p) (Err (Multiplexer reason)) now
  | EventWithAck p ack =>
      complete_delivery (ev_delivery_id p) (Err (Multiplexer reason)) now ;;;
      send ack (AckResult (Err (Multiplexer reason)))
  | _ => ret tt
  end.

Definition drain_pending (reason : string) (now : Z) : A unit :=
  q <- mem (fun s => (pending_events s, set_pending [] s)) ;;
  for_each (decline reason now) q.

Definition interrupt_turn (event : InboundEvent) (reason : string) (now : Z) : A unit :=
  attempt (rollback_partial_history (ev_id event)) ;;;
  match ev_delivery_id event with
  | Some d => attempt (on_ledger (mark_failed julian_ms d reason now)) ;;; ret tt
  | None => ret tt
  end.

(** ** Turns *)

Definition FULL : OmonError := Multiplexer "pending turn queue full".
Definition STOPPED : string := "stopped by user".
Definition SHUTTING_DOWN : string := "session actor shutting down".
Definition MAX_PENDING_EVENTS : nat := 64.

(** A turn begins, unless its message is in the transcript already or cannot
    be persisted. *)
Definition begin_turn (env : Env) (event : InboundEvent) : A Phase :=
  on_actor (fun a => with_active (now env) (with_dirty true
    (with_context (with_updated (now env) (with_state (with_suspended false (ctx_state (context a))) (context a))) a))) ;;;
  a <- the_actor ;;
  replayed <- (if String.eqb (ev_platform_message_id event) "" then ret false
               else r <- attempt (has_platform_message_id (storage_key (ctx_key (context a)))
                                    (ev_platform_message_id event)) ;;
                    ret (match r with Ok b => b | Err _ => false end)) ;;
  if replayed : bool then
    complete_delivery (ev_delivery_id event) (Ok tt) (now env) ;;;
    resolve_pending_ack (Ok tt) ;;;
    ret Idle
  else
    persisted <- attempt (persist_inbound event) ;;
    match persisted with
    | Err error =>
        let failure := Err (Database ("failed to persist inbound event: " ++ error_text error)) in
        on_actor (with_dirty false) ;;;
        complete_delivery (ev_delivery_id event) failure (now env) ;;;
        resolve_pending_ack failure ;;;
        ret Idle
    | Ok _ =>
        a <- the_actor ;;
        typing true ;;;
        ret (Running (mkTurn event (context a)))
    end.

(** A command received while a turn runs: [Some] outcome leaves the [select!]. *)
Definition receive (env : Env) (c : Command) : A (option TurnOutcome) :=
  match c with
  | Event next =>
      queue <- mem (fun s => (pending_events s, s)) ;;
      if (length queue <? MAX_PENDING_EVENTS)%nat
      then mem (fun s => (tt, set_pending (pending_events s ++ [c])%list s)) ;;; ret None
      else complete_delivery (ev_delivery_id next) (Err FULL) (now env) ;;; ret None
  | EventWithAck next ack =>
      queue <- mem (fun s => (pending_events s, s)) ;;
      if (length queue <? MAX_PENDING_EVENTS)%nat
      then mem (fun s => (tt, set_pending (pending_events s ++ [c])%list s)) ;;; ret None
      else complete_delivery (ev_delivery_id next) (Err FULL) (now env) ;;;
           send ack (AckResult (Err FULL)) ;;; ret None
  | Stop reply => drain_pending STOPPED (now env) ;;; ret (Some (Stopped reply))
  | EvictIfIdle _ reply => send reply (FlagResult (Ok false)) ;;; ret None
  | TouchActivity => on_actor (with_active (now env)) ;;; ret None
  | SetModel model reply =>
      on_state (with_model model) ;;; on_actor (with_dirty true) ;;;
      send reply (AckResult (Ok tt)) ;;; ret None
  | Reset reply =>
      on_actor (with_cleared true) ;;; on_state (fun _ => default_state) ;;; on_actor (with_dirty true) ;;;
      send reply (AckResult (Ok tt)) ;;; ret (Some Shutdown)
  | GetContext reply =>
      a <- the_actor ;; send reply (ContextReply (context a)) ;;; ret None
  end.

(** The runner's binding is kept whatever the outcome. *)
Definition keep_binding (turn_state : SessionState) (st : SessionState) : SessionState :=
  match metadata turn_state !! "omo_thread_id" with
  | Some x => with_metadata (<["omo_thread_id" := x]> (metadata st)) st
  | None => st
  end.

Definition finish_turn (env : Env) (t : Turn) (result : result unit OmonError) : A unit :=
  a <- the_actor ;;
  let key := storage_key (ctx_key (context a)) in
  result <- match result with
            | Ok _ =>
                on_actor (with_context (t_context t)) ;;;
                a <- the_actor ;;
                let key := storage_key (ctx_key (context a)) in
                done <- attempt flush_if_dirty ;;
                match done with
                | Err error =>
                    attempt (mark_session_resume_pending key) ;;;
                    ret (Err (Database ("failed to flush session actor on turn completion: " ++ error_text error)))
                | Ok _ => attempt (clear_session_resume_pending key) ;;; ret (Ok tt)
                end
            | Err e => on_actor (with_dirty false) ;;; ret (Err e)
            end ;;
  complete_delivery (ev_delivery_id (t_event t)) result (now env) ;;;
  resolve_pending_ack (match result with
                       | Ok _ => Ok tt
                       | Err e => Err (Multiplexer ("turn failed: " ++ error_text e))
                       end) ;;;
  react (t_event t) (if is_ok result then PROCESSING_SUCCESS_EMOJI else PROCESSING_FAILURE_EMOJI) ;;;
  a <- the_actor ;;
  match result with
  | Ok _ => ret tt
  | Err e => act (SendMessage (ctx_key (context a)) (error_text e) (Some (ev_platform_message_id (t_event t))))
  end ;;;
  typing false.

Definition stop_turn (env : Env) (t : Turn) (reply : nat) : A unit :=
  on_state (with_suspended true) ;;; on_actor (with_dirty true) ;;;
  interrupt_turn (t_event t) STOPPED (now env) ;;;
  typing false ;;;
  attempt flush_if_dirty ;;;
  react (t_event t) PROCESSING_FAILURE_EMOJI ;;;
  resolve_pending_ack (Err (Multiplexer STOPPED)) ;;;
  send reply (FlagResult (rbind (cancel_result env) (fun _ => Ok true))).

Definition shut_turn (env : Env) (t : Turn) : A unit :=
  interrupt_turn (t_event t) SHUTTING_DOWN (now env) ;;;
  typing false ;;;
  a <- the_actor ;;
  attempt (mark_session_resume_pending (storage_key (ctx_key (context a)))) ;;;
  resolve_pending_ack (Err (Multiplexer SHUTTING_DOWN)).

(** The end of a turn. *)
Definition end_turn (env : Env) (t : Turn) (outcome : TurnOutcome) : A Phase :=
  on_state (keep_binding (ctx_state (t_context t))) ;;;
  match outcome with
  | Completed result => finish_turn env t result
  | Stopped reply => stop_turn env t reply
  | Shutdown => shut_turn env t
  end ;;;
  on_actor (fun a => with_context (with_updated (now env) (context a)) a) ;;;
  ret Idle.

(** ** The loop *)

(** After the loop. *)
Definition after_loop : A Phase :=
  a <- the_actor ;;
  queue <- mem (fun s => (pending_events s, s)) ;;
  let key := storage_key (ctx_key (context a)) in
  match queue with
  | [] => ret tt
  | _ => attempt (mark_session_resume_pending key) ;;; ret tt
  end ;;;
  done <- attempt flush_if_dirty ;;
  match done with
  | Ok _ => ret Gone
  | Err _ => attempt (mark_session_resume_pending key) ;;; ret Gone
  end.

(** A command at the head of the loop. *)
Definition handle (env : Env) (c : Command) : A Phase :=
  match c with
  | Event event => begin_turn env event
  | EventWithAck event ack =>
      resolve_pending_ack (Err (Multiplexer "superseded by a newer acked turn")) ;;;
      on_actor (with_ack (Some ack)) ;;;
      begin_turn env event
  | Stop reply =>
      on_actor (with_active (now env)) ;;; on_state (with_suspended true) ;;; on_actor (with_dirty true) ;;;
      drain_pending STOPPED (now env) ;;;
      typing false ;;;
      attempt flush_if_dirty ;;;
      send reply (FlagResult (Ok false)) ;;;
      ret Idle
  | TouchActivity => on_actor (with_active (now env)) ;;; ret Idle
  | SetModel model reply =>
      on_actor (with_active (now env)) ;;; on_state (with_model model) ;;; on_actor (with_dirty true) ;;;
      done <- attempt flush_if_dirty ;;
      send reply (AckResult done) ;;;
      ret Idle
  | Reset reply =>
      on_actor (with_active (now env)) ;;; on_actor (with_cleared true) ;;;
      on_state (fun _ => default_state) ;;; on_actor (with_dirty true) ;;;
      done <- attempt flush_if_dirty ;;
      send reply (AckResult done) ;;;
      ret Idle
  | GetContext reply =>
      a <- the_actor ;; send reply (ContextReply (context a)) ;;; ret Idle
  | EvictIfIdle idle_timeout reply =>
      a <- the_actor ;;
      queue <- mem (fun s => (pending_events s, s)) ;;
      if (idle_timeout <? now env - last_active_at a)%Z && mailbox_empty env
         && match queue with [] => true | _ => false end
      then
        done <- attempt flush_if_dirty ;;
        send reply (FlagResult (rbind done (fun _ => Ok true))) ;;;
        if is_ok done then after_loop else ret Idle
      else send reply (FlagResult (Ok false)) ;;; ret Idle
  end.

(** What happens next: the queue is served before the mailbox; in a turn the
    mailbox, the runner's writes, and its result. *)
Inductive Input : Type :=
| IPop
| IReceive (c : Command)
| IClosed
| IProgress (turn_context : SessionContext) (id role content : string) (created : Z)
| IResult (r : result unit OmonError).

Definition actor_step (i : Input) (env : Env) (p : Phase) (s : ActorStore) : option (A Phase) :=
  match p, i with
  | Idle, IPop =>
      match pending_events s with
      | c :: rest => Some (mem (fun s => (tt, set_pending rest s)) ;;; handle env c)
      | [] => None
      end
  | Idle, IReceive c => match pending_events s with [] => Some (handle env c) | _ => None end
  | Idle, IClosed => match pending_events s with [] => Some after_loop | _ => None end
  | Running t, IReceive c =>
      Some (outcome <- receive env c ;;
            match outcome with Some o => end_turn env t o | None => ret (Running t) end)
  | Running t, IClosed => Some (drain_pending SHUTTING_DOWN (now env) ;;; end_turn env t Shutdown)
  | Running t, IProgress turn_context id role content created =>
      Some (attempt (exec (insert_message id (storage_key (ctx_key (context (actor s)))) role content "{}" created None)) ;;;
            ret (Running (mkTurn (t_event t) turn_context)))
  | Running t, IResult r => Some (end_turn env t (Completed r))
  | _, _ => None
  end.

Definition start_actor (l : LedgerState) (t : list MessageRow) (n : nat) (c : SessionContext) (at_ : Z) : ActorStore :=
  mkStore l t n (mkActor c at_ false false None) [] [] [].

(** The runs of an actor, the faults of each step among [F]. *)
Inductive reaches (F : list (option string) -> Prop) (s0 : ActorStore) :
    list Input -> ActorStore -> Phase -> Prop :=
| reaches_start : reaches F s0 [] s0 Idle
| reaches_step tr s p i env m fl p' w' :
    reaches F s0 tr s p -> F fl -> actor_step i env p s = Some m -> m (mkWorld s fl) = (Ok p', w') ->
    reaches F s0 (tr ++ [i])%list (st w') p'.

(** ** Recovery at startup ([recover_resume_pending_sessions])

    The UUID parser and a fresh UUID, serde's reading of attachments, the keys
    in [legacy_guild_session_conflicts], and the multiplexer's answer are
    arguments.  The rows come in table order: the source sorts them by
    [updated_at], a column left out. *)
Section Recovery.
Context (parse_uuid : string -> option string) (new_uuid : string)
  (parse_attachments : string -> option (list MessageAttachment)) (deferred : string -> bool)
  (route : InboundEvent -> result unit OmonError).

Definition row_key (r : SessionRow) : SessionKey :=
  let k := sr_session r in
  match from_storage_key (sr_key r) with
  | Ok key => key
  | Err _ => new (platform k) (guild_id k) (channel_id k) (thread_id k) (user_id k)
  end.

Definition fetch_resume_pending_session_keys : A (list SessionKey) :=
  on_ledger (query (fun s =>
    map row_key (select (fun r => sr_resume_pending r && negb (deferred (sr_key r))) (Ledger.sessions s)))).

Definition stored_state (key : string) (l : LedgerState) : option value :=
  sr_state_json <$> head (select (of_session key) (Ledger.sessions l)).

Definition is_session_suspended (key : string) : A bool :=
  on_ledger (query (fun s =>
    match stored_state key s with
    | Some v => suspended (default default_state (state_of_value v))
    | None => false
    end)).

(** [ORDER BY sequence DESC LIMIT 1]. *)
Definition last_message (key : string) (t : list MessageRow) : option MessageRow :=
  head (order_by (fun r => - Z.of_nat (m_sequence r))%Z (select (fun r => String.eqb (m_session_key r) key) t)).

Definition find_last_unfinished_user_turn (key : string) : A (option MessageRow) :=
  query (fun s => match last_message key (messages s) with
                  | Some r => if String.eqb (m_role r) "user" then Some r else None
                  | None => None
                  end).

(** [ORDER BY created_at DESC LIMIT 1]; an error counts as no row. *)
Definition latest_delivery (key : string) (platform_id : option string) : A (option string) :=
  r <- attempt (on_ledger (query (fun s =>
         message_id <$> head (order_by (fun r => - dl_created_at r)%Z
           (select (fun r => String.eqb (dl_session_key r) key
                             && match platform_id with
                                | Some p => opt_eqb (platform_message_id r) (Some p) || has_message p r
                                | None => true
                                end) (deliveries s)))))) ;;
  ret (match r with Ok o => o | Err _ => None end).

Definition resumed_event (key : SessionKey) (row : MessageRow) (delivery : option string) : InboundEvent :=
  mkEvent (default new_uuid (parse_uuid (m_id row))) key "" delivery (m_content row)
    (default [] (parse_attachments (m_metadata_json row))) (m_created_at row).

Inductive Recovery : Type := Skipped | Redispatched (event : InboundEvent) | MarkedDone.

(** The body of the loop, without the call of [route]. *)
Definition recover_session (session_key : SessionKey) (at_ : Z) : A Recovery :=
  let key := storage_key session_key in
  is_suspended <- is_session_suspended key ;;
  cleared <- clear_session_resume_pending key ;;
  if negb cleared then ret Skipped
  else if is_suspended : bool then ret Skipped
  else
    unfinished <- find_last_unfinished_user_turn key ;;
    match unfinished with
    | Some row =>
        delivery <- latest_delivery key (m_platform_message_id row) ;;
        ret (Redispatched (resumed_event session_key row delivery))
    | None =>
        delivery <- latest_delivery key None ;;
        match delivery with
        | Some d => attempt (on_ledger (mark_delivered julian_ms d at_)) ;;; ret MarkedDone
        | None => ret MarkedDone
        end
    end.

(** The events routed, in order, and [resumed_count]. *)
Fixpoint recover_sessions (keys : list SessionKey) (at_ : Z) : A (list InboundEvent * nat) :=
  match keys with
  | [] => ret ([], 0)
  | k :: rest =>
      r <- recover_session k at_ ;;
      others <- recover_sessions rest at_ ;;
      ret (match r with
           | Skipped => others
           | Redispatched e => (e :: fst others, (if is_ok (route e) then 1 else 0) + snd others)
           | MarkedDone => (fst others, 1 + snd others)
           end)
  end.

Definition recover_resume_pending_sessions (at_ : Z) : A (list InboundEvent * nat) :=
  keys <- fetch_resume_pending_session_keys ;; recover_sessions keys at_.
End Recovery.

(** ** Answers *)

Definition replies_of (c : Command) : list nat :=
  match c with
  | EventWithAck _ r | Stop r | EvictIfIdle _ r | SetModel _ r | Reset r | GetContext r => [r]
  | Event _ | TouchActivity => []
  end.
Definition is_event (c : Command) : Prop :=
  match c with Event _ | EventWithAck _ _ => True | _ => False end.
Definition received (i : Input) : list Command := match i with IReceive c => [c] | _ => [] end.

#[export] Instance is_event_dec c : Decision (is_event c).
Proof. destruct c; simpl; apply _. Defined.

(** What the answers depend on. *)
Definition view (s : ActorStore) : list (nat * Answer) * list Command * option nat :=
  (answers s, pending_events s, pending_ack (actor s)).
Definition at_view v (s : ActorStore) : Prop := view s = v.
Definition owed (s : ActorStore) : list nat :=
  (map fst (answers s) ++ List.concat (map replies_of (pending_events s)) ++ option_list (pending_ack (actor s)))%list.

Notation never := (fun _ : ActorStore => False).

Lemma on_ledger_view {T} v (m : M LedgerState T) : preserves (at_view v) (on_ledger m).
Proof. intros w Hw. unfold on_ledger, zoom. by destruct (m _). Qed.

Ltac quiet :=
  repeat (preserve_steps; try (apply on_ledger_view); try (intros ? ?; simpl; done)).

Lemma actor_view v : triple (at_view v) the_actor (fun a s => at_view v s /\ pending_ack a = snd v) never.
Proof. apply triple_mem. intros s Hs. simpl. split; [done|]. by rewrite <- Hs. Qed.

Lemma on_actor_view v f :
  (forall a, pending_ack (f a) = pending_ack a) -> triple (at_view v) (on_actor f) (fun _ => at_view v) never.
Proof. intros Hf. apply triple_mem. intros s Hs. unfold at_view, view in *. simpl. by rewrite Hf. Qed.

Lemma on_state_view v f : triple (at_view v) (on_state f) (fun _ => at_view v) never.
Proof. by apply on_actor_view. Qed.

Lemma send_view an q pa r a :
  triple (at_view (an, q, pa)) (send r a) (fun _ => at_view ((an ++ [(r, a)])%list, q, pa)) never.
Proof. apply triple_mem. intros s Hs. unfold at_view, view in *. simpl. by simplify_eq. Qed.

Lemma act_view v a : triple (at_view v) (act a) (fun _ => at_view v) never.
Proof. apply triple_mem. intros s Hs. simpl. by destruct dispatcher. Qed.

Lemma attempt_view {T} v (m : A T) : preserves (at_view v) m -> triple (at_view v) (attempt m) (fun _ => at_view v) never.
Proof. apply triple_ignore. Qed.

Lemma flush_view v : preserves (at_view v) flush_if_dirty.
Proof.
  unfold flush_if_dirty, flush, ensure_session, the_actor, on_actor. quiet.
Qed.

Lemma mark_view v key : preserves (at_view v) (mark_session_resume_pending key).
Proof. apply on_ledger_view. Qed.
Lemma clear_view v key : preserves (at_view v) (clear_session_resume_pending key).
Proof. apply on_ledger_view. Qed.

Lemma insert_view v id key role content metadata created platform :
  preserves (at_view v) (exec (insert_message id key role content metadata created platform)).
Proof. apply preserves_exec. intros s Hs. unfold insert_message. by repeat case_match. Qed.

Lemma persist_view v e : preserves (at_view v) (persist_inbound e).
Proof. unfold persist_inbound, ensure_session, the_actor. quiet. intros s Hs. unfold insert_message. by repeat case_match. Qed.

Lemma complete_view v d r now : triple (at_view v) (complete_delivery d r now) (fun _ => at_view v) never.
Proof.
  destruct d as [d|]; [|by apply triple_ret]. simpl. eapply triple_bind; [apply attempt_view, on_ledger_view|].
  intros ?. by apply triple_ret.
Qed.

Lemma typing_view v b : triple (at_view v) (typing b) (fun _ => at_view v) never.
Proof.
  eapply triple_bind; [apply actor_view|]. intros a. simpl.
  destruct (starts_with _ _); [by apply triple_ret; intros s [? _]|].
  eapply triple_weaken; [apply (act_view v) | by intros s [? _] | done | done].
Qed.

Lemma react_view v e emoji : triple (at_view v) (react e emoji) (fun _ => at_view v) never.
Proof.
  eapply triple_bind; [apply actor_view|]. intros a. simpl.
  destruct (String.eqb _ _); [by apply triple_ret; intros s [? _]|].
  eapply triple_weaken; [apply (act_view v) | by intros s [? _] | done | done].
Qed.

Definition acked (pa : option nat) (o : result unit OmonError) : list (nat * Answer) :=
  match pa with Some a => [(a, AckResult o)] | None => [] end.

Lemma resolve_view an q pa o :
  triple (at_view (an, q, pa)) (resolve_pending_ack o) (fun _ => at_view ((an ++ acked pa o)%list, q, None)) never.
Proof.
  unfold resolve_pending_ack. eapply triple_bind; [apply actor_view|]. intros a. simpl.
  apply triple_pure. intros ->. destruct pa as [k|]; simpl.
  - eapply triple_bind with (R := fun _ => at_view (an, q, None)); [|intros ?; apply send_view].
    apply triple_mem. intros s Hs. unfold at_view, view in *. simpl. by simplify_eq.
  - apply triple_ret. intros s Hs. by rewrite app_nil_r.
Qed.

Lemma decline_view an q pa reason now c :
  triple (at_view (an, q, pa)) (decline reason now c)
    (fun _ s => exists l, map fst l = (if decide (is_event c) then replies_of c else []) /\ at_view ((an ++ l)%list, q, pa) s) never.
Proof.
  destruct c; simpl; try (apply triple_ret; intros s Hs; exists []; split; [done|]; by rewrite app_nil_r).
  - eapply triple_weaken; [apply (complete_view (an, q, pa)) | done | | done].
    intros [] s Hs. exists []. split; [done|]. by rewrite app_nil_r.
  - eapply triple_bind; [apply complete_view|]. intros ?.
    eapply triple_weaken; [apply send_view | done | | done]. intros [] s Hs. eexists [_]. split; [|exact Hs]. done.
Qed.

Lemma drain_view an q pa reason now : Forall is_event q ->
  triple (at_view (an, q, pa)) (drain_pending reason now)
    (fun _ s => exists l, map fst l = List.concat (map replies_of q) /\ at_view ((an ++ l)%list, [], pa) s) never.
Proof.
  intros Hq. unfold drain_pending. eapply triple_bind with (R := fun q' s => at_view (an, [], pa) s /\ q' = q).
  { apply triple_mem. intros s Hs. unfold at_view, view in *. simpl. by simplify_eq. }
  intros q'. apply triple_pure. intros ->.
  revert an. induction Hq as [|c q Hc Hq IH]; intros an; simpl.
  - apply triple_ret. intros s Hs. exists []. split; [done|]. by rewrite app_nil_r.
  - eapply triple_bind; [apply decline_view|]. intros ?. rewrite decide_True by done.
    intros w (l & Hl & Hv). specialize (IH _ w Hv). destruct (for_each _ _ w) as [[[]|e] w']; [|done].
    destruct IH as (l' & Hl' & Hv'). exists (l ++ l')%list. split; [by rewrite map_app, Hl, Hl'|].
    by rewrite app_assoc.
Qed.

Definition queue_replies (q : list Command) : list nat := List.concat (map replies_of q).
Definition queue_ok (q : list Command) : Prop := Forall is_event q /\ length q <= MAX_PENDING_EVENTS.
Definition running (p : Phase) : bool := match p with Running _ => true | _ => false end.

Lemma begin_view an q pa env e :
  triple (at_view (an, q, pa)) (begin_turn env e)
    (fun p s => match p with
                | Idle => exists o, at_view ((an ++ acked pa o)%list, q, None) s
                | Running t => t_event t = e /\ at_view (an, q, pa) s
                | Gone => False
                end) never.
Proof.
  unfold begin_turn. eapply triple_bind; [by apply on_actor_view|]. intros ?.
  eapply triple_bind; [apply actor_view|]. intros ac. simpl. apply triple_pure. intros _.
  eapply triple_bind with (R := fun _ => at_view (an, q, pa)).
  { destruct (String.eqb _ _); [by apply triple_ret|]. eapply triple_bind; [apply attempt_view; unfold has_platform_message_id; by quiet|].
    intros ?. by apply triple_ret. }
  assert (Hend : forall o, triple (at_view (an, q, pa)) (resolve_pending_ack o ;;; ret Idle)
    (fun p s => match p with Idle => exists o, at_view ((an ++ acked pa o)%list, q, None) s
                | Running t => t_event t = e /\ at_view (an, q, pa) s | Gone => False end) never).
  { intros o. eapply triple_bind; [apply resolve_view|]. intros ?. apply triple_ret. eauto. }
  intros [].
  - eapply triple_bind; [apply complete_view|]. intros ?. apply Hend.
  - eapply triple_bind; [apply attempt_view, persist_view|]. intros [[]|error].
    + eapply triple_bind; [apply actor_view|]. intros ac2. simpl. apply triple_pure. intros _.
      eapply triple_bind; [apply typing_view|]. intros ?. by apply triple_ret.
    + cbv zeta. eapply triple_bind; [by apply on_actor_view|]. intros ?.
      eapply triple_bind; [apply complete_view|]. intros ?. apply Hend.
Qed.

Lemma interrupt_view v e reason now : triple (at_view v) (interrupt_turn e reason now) (fun _ => at_view v) never.
Proof.
  unfold interrupt_turn. eapply triple_bind.
  { apply attempt_view. unfold rollback_partial_history, the_actor. quiet. }
  intros ?. destruct (ev_delivery_id e); [|by apply triple_ret].
  eapply triple_bind; [apply attempt_view, on_ledger_view|]. intros ?. by apply triple_ret.
Qed.

Lemma shut_view an q pa env t :
  triple (at_view (an, q, pa)) (shut_turn env t)
    (fun _ => at_view ((an ++ acked pa (Err (Multiplexer SHUTTING_DOWN)))%list, q, None)) never.
Proof.
  unfold shut_turn. eapply triple_bind; [apply interrupt_view|]. intros ?.
  eapply triple_bind; [apply typing_view|]. intros ?.
  eapply triple_bind; [apply actor_view|]. intros ac. simpl. apply triple_pure. intros _.
  eapply triple_bind; [apply attempt_view, mark_view|]. intros ?. apply resolve_view.
Qed.

Lemma stop_view an q pa env t r :
  triple (at_view (an, q, pa)) (stop_turn env t r)
    (fun _ s => exists l, map fst l = (option_list pa ++ [r])%list /\ at_view ((an ++ l)%list, q, None) s) never.
Proof.
  unfold stop_turn. eapply triple_bind; [apply on_state_view|]. intros ?.
  eapply triple_bind; [by apply on_actor_view|]. intros ?.
  eapply triple_bind; [apply interrupt_view|]. intros ?.
  eapply triple_bind; [apply typing_view|]. intros ?.
  eapply triple_bind; [apply attempt_view, flush_view|]. intros ?.
  eapply triple_bind; [apply react_view|]. intros ?.
  eapply triple_bind; [apply resolve_view|]. intros ?.
  eapply triple_weaken; [apply send_view | done | | done]. intros [] s Hs.
  exists (acked pa (Err (Multiplexer STOPPED)) ++ [(r, FlagResult (rbind (cancel_result env) (fun _ => Ok true)))])%list.
  rewrite app_assoc. split; [by destruct pa | exact Hs].
Qed.

Lemma finish_view an q pa env t res :
  triple (at_view (an, q, pa)) (finish_turn env t res)
    (fun _ s => exists o, at_view ((an ++ acked pa o)%list, q, None) s) never.
Proof.
  unfold finish_turn. eapply triple_bind; [apply actor_view|]. intros ac. simpl. apply triple_pure. intros _.
  eapply triple_bind with (R := fun _ => at_view (an, q, pa)).
  { destruct res as [[]|e].
    - eapply triple_bind; [by apply on_actor_view|]. intros ?.
      eapply triple_bind; [apply actor_view|]. intros ac2. simpl. apply triple_pure. intros _.
      eapply triple_bind; [apply attempt_view, flush_view|]. intros [?|?].
      + eapply triple_bind; [apply attempt_view, clear_view|]. intros ?. by apply triple_ret.
      + eapply triple_bind; [apply attempt_view, mark_view|]. intros ?. by apply triple_ret.
    - eapply triple_bind; [by apply on_actor_view|]. intros ?. by apply triple_ret. }
  intros res'. eapply triple_bind; [apply complete_view|]. intros ?.
  match goal with |- context [resolve_pending_ack ?x] => set (o := x) end.
  eapply triple_bind; [apply resolve_view|]. intros ?.
  eapply triple_bind; [apply react_view|]. intros ?.
  eapply triple_bind; [apply actor_view|]. intros ac3. simpl. apply triple_pure. intros _.
  eapply triple_bind with (R := fun _ => at_view ((an ++ acked pa o)%list, q, None)).
  { destruct res'; [by apply triple_ret | apply act_view]. }
  intros ?. eapply triple_weaken; [apply typing_view | done | | done]. intros [] s Hs. by exists o.
Qed.

Lemma end_view an q pa env t o :
  triple (at_view (an, q, pa)) (end_turn env t o)
    (fun p s => p = Idle /\ exists l,
       map fst l = (option_list pa ++ match o with Stopped r => [r] | _ => [] end)%list
       /\ at_view ((an ++ l)%list, q, None) s) never.
Proof.
  unfold end_turn. eapply triple_bind; [apply on_state_view|]. intros ?.
  eapply triple_bind with (R := fun _ s => exists l,
    map fst l = (option_list pa ++ match o with Stopped r => [r] | _ => [] end)%list
    /\ at_view ((an ++ l)%list, q, None) s).
  { destruct o as [res|r|].
    - eapply triple_weaken; [apply finish_view | done | | done]. intros [] s [o Hs].
      exists (acked pa o). split; [by destruct pa | done].
    - apply stop_view.
    - eapply triple_weaken; [apply shut_view | done | | done]. intros [] s Hs.
      eexists. split; [|exact Hs]. by destruct pa. }
  intros ?. eapply triple_bind with (R := fun _ s => exists l,
    map fst l = (option_list pa ++ match o with Stopped r => [r] | _ => [] end)%list
    /\ at_view ((an ++ l)%list, q, None) s); [|intros ?; by apply triple_ret].
  intros w (l & Hl & Hs). pose proof (on_actor_view _ (fun a => with_context (with_updated (now env) (context a)) a) (fun _ => eq_refl) w Hs) as Hk.
  destruct (on_actor _ w) as [[[]|?] ?]; [|done]. by exists l.
Qed.

Lemma queue_replies_snoc q c : queue_replies (q ++ [c])%list = (queue_replies q ++ replies_of c)%list.
Proof. unfold queue_replies. rewrite map_app, concat_app. simpl. by rewrite app_nil_r. Qed.

Lemma queue_ok_snoc q c : queue_ok q -> is_event c -> (length q <? MAX_PENDING_EVENTS)%nat = true -> queue_ok (q ++ [c])%list.
Proof.
  intros [Hf Hl] Hc Hlt%Nat.ltb_lt. split; [by apply Forall_app; split; [|constructor] |]. rewrite length_app. simpl. lia.
Qed.

Definition stop_reply (o : option TurnOutcome) : list nat :=
  match o with Some (Stopped r) => [r] | _ => [] end.

Lemma queue_view an q pa :
  triple (at_view (an, q, pa)) (mem (fun s => (pending_events s, s)))
    (fun q' s => at_view (an, q, pa) s /\ q' = q) never.
Proof. apply triple_mem. intros s Hs. unfold at_view, view in *. simpl. by simplify_eq. Qed.

Lemma push_view an q pa c : triple (at_view (an, q, pa))
  (mem (fun s => (tt, set_pending (pending_events s ++ [c])%list s))) (fun _ => at_view (an, (q ++ [c])%list, pa)) never.
Proof. apply triple_mem. intros s Hs. unfold at_view, view in *. simpl. by simplify_eq. Qed.

Lemma receive_view an q pa env c : queue_ok q ->
  triple (at_view (an, q, pa)) (receive env c)
    (fun o s => exists l q', at_view ((an ++ l)%list, q', pa) s /\ queue_ok q' /\
       (map fst l ++ queue_replies q' ++ stop_reply o)%list ≡ₚ (queue_replies q ++ replies_of c)%list) never.
Proof.
  intros Hq.
  assert (Hreply : forall r a, triple (at_view (an, q, pa)) (send r a ;;; ret (@None TurnOutcome))
    (fun o s => exists l q', at_view ((an ++ l)%list, q', pa) s /\ queue_ok q' /\
       (map fst l ++ queue_replies q' ++ stop_reply o)%list ≡ₚ (queue_replies q ++ [r])%list) never).
  { intros r x. eapply triple_bind; [apply send_view|]. intros ?. apply triple_ret. intros s Hs.
    exists [(r, x)], q. split; [done|]. split; [done|]. simpl. rewrite app_nil_r. apply Permutation_cons_append. }
  destruct c as [e|e k|r|t r| |m r|r|r]; simpl.
  - eapply triple_bind; [apply queue_view|]. intros q'. apply triple_pure. intros ->. destruct (_ <? _)%nat eqn:El.
    + eapply triple_bind; [apply push_view|]. intros ?. apply triple_ret. intros s Hs. exists [], (q ++ [Event e])%list.
      rewrite app_nil_r. split; [done|]. split; [by apply queue_ok_snoc|]. simpl. by rewrite queue_replies_snoc, app_nil_r.
    + eapply triple_bind; [apply complete_view|]. intros ?. apply triple_ret. intros s Hs. exists [], q.
      rewrite app_nil_r. split; [done|]. split; [done|]. simpl. by rewrite !app_nil_r.
  - eapply triple_bind; [apply queue_view|]. intros q'. apply triple_pure. intros ->. destruct (_ <? _)%nat eqn:El.
    + eapply triple_bind; [apply push_view|]. intros ?. apply triple_ret. intros s Hs.
      exists [], (q ++ [EventWithAck e k])%list.
      rewrite app_nil_r. split; [done|]. split; [by apply queue_ok_snoc|]. simpl. by rewrite queue_replies_snoc, app_nil_r.
    + eapply triple_bind; [apply complete_view|]. intros ?. apply Hreply.
  - eapply triple_bind; [apply drain_view, Hq|]. intros ?. apply triple_ret. intros s (l & Hl & Hs).
    exists l, []. split; [done|]. split; [split; [done | simpl; lia]|]. simpl. by rewrite Hl.
  - apply Hreply.
  - eapply triple_bind; [by apply on_actor_view|]. intros ?. apply triple_ret. intros s Hs. exists [], q.
    rewrite app_nil_r. split; [done|]. split; [done|]. simpl. by rewrite !app_nil_r.
  - eapply triple_bind; [apply on_state_view|]. intros ?. eapply triple_bind; [by apply on_actor_view|]. intros ?.
    apply Hreply.
  - eapply triple_bind; [by apply on_actor_view|]. intros ?. eapply triple_bind; [apply on_state_view|]. intros ?.
    eapply triple_bind; [by apply on_actor_view|]. intros ?. eapply triple_bind; [apply send_view|]. intros ?.
    apply triple_ret. intros s Hs. exists [(r, AckResult (Ok tt))], q. split; [done|]. split; [done|]. simpl.
    rewrite app_nil_r. apply Permutation_cons_append.
  - eapply triple_bind; [apply actor_view|]. intros ac. simpl. apply triple_pure. intros _. apply Hreply.
Qed.

(** The state of the accounts: every channel received is answered or held. *)
Definition accounted (L : list nat) (p : Phase) (s : ActorStore) : Prop :=
  owed s ≡ₚ L /\ queue_ok (pending_events s) /\
  (running p = false -> pending_ack (actor s) = None) /\ (p = Gone -> pending_events s = []).

Lemma accounted_intro L p s an q pa :
  at_view (an, q, pa) s -> (map fst an ++ queue_replies q ++ option_list pa)%list ≡ₚ L -> queue_ok q ->
  (running p = false -> pa = None) -> (p = Gone -> q = []) -> accounted L p s.
Proof. intros Hv. unfold at_view, view in Hv. simplify_eq. done. Qed.

Lemma after_loop_view an pa : triple (at_view (an, [], pa)) after_loop (fun p s => p = Gone /\ at_view (an, [], pa) s) never.
Proof.
  unfold after_loop. eapply triple_bind; [apply actor_view|]. intros ac. simpl. apply triple_pure. intros _.
  eapply triple_bind; [apply queue_view|]. intros q'. apply triple_pure. intros ->. cbv zeta.
  eapply triple_bind with (R := fun _ => at_view (an, [], pa)); [by apply triple_ret|]. intros ?.
  eapply triple_bind; [apply attempt_view, flush_view|]. intros [?|?]; [by apply triple_ret|].
  eapply triple_bind; [apply attempt_view, mark_view|]. intros ?. by apply triple_ret.
Qed.

Lemma handle_begin an q pa env e : queue_ok q ->
  triple (at_view (an, q, pa)) (begin_turn env e)
    (accounted (map fst an ++ queue_replies q ++ option_list pa)%list) never.
Proof.
  intros Hq. eapply triple_weaken; [apply begin_view | done | | done].
  intros [|t|] s; [intros [o Hs] | intros [_ Hs] | done].
  - eapply accounted_intro; [exact Hs | | done..]. rewrite map_app, app_nil_r, <- app_assoc. f_equiv.
    destruct pa; simpl; [apply Permutation_cons_append | by rewrite app_nil_r].
  - by eapply accounted_intro.
Qed.

Lemma answered an q r (a : Answer) : queue_ok q ->
  triple (at_view (an, q, None)) (send r a ;;; ret Idle) (accounted (map fst an ++ queue_replies q ++ [r])%list) never.
Proof.
  intros Hq. eapply triple_bind; [apply send_view|]. intros ?. apply triple_ret. intros s Hs.
  eapply accounted_intro; [exact Hs | | done..]. rewrite map_app, app_nil_r, <- app_assoc. f_equiv. simpl.
  apply Permutation_cons_append.
Qed.

Lemma handle_view an q env c : queue_ok q ->
  triple (fun s => at_view (an, q, None) s) (handle env c)
    (accounted (map fst an ++ queue_replies q ++ replies_of c)%list) never.
Proof.
  intros Hq. destruct c as [e|e k|r|t r| |m r|r|r]; simpl.
  - by apply handle_begin.
  - eapply triple_bind; [apply resolve_view|]. intros ?. simpl. rewrite app_nil_r.
    eapply triple_bind with (R := fun _ => at_view (an, q, Some k)); [|intros ?; by apply handle_begin].
    apply triple_mem. intros s Hs. unfold at_view, view in *. simpl. by simplify_eq.
  - do 3 (eapply triple_bind; [first [apply on_state_view | by apply on_actor_view]|]; intros ?).
    eapply triple_bind; [apply drain_view, Hq|]. intros ?.
    assert (Hrest : forall l, map fst l = List.concat (map replies_of q) ->
      triple (at_view ((an ++ l)%list, [], None)) (typing false ;;; attempt flush_if_dirty ;;; send r (FlagResult (Ok false)) ;;; ret Idle)
        (accounted (map fst an ++ queue_replies q ++ [r])%list) never).
    { intros l Hl. eapply triple_bind; [apply typing_view|]. intros ?.
      eapply triple_bind; [apply attempt_view, flush_view|]. intros ?.
      eapply triple_weaken; [apply answered; split; [done | simpl; lia] | done | | done].
      intros p s Hs. rewrite map_app, Hl, <- app_assoc in Hs. exact Hs. }
    intros w (l & Hl & Hs). by apply (Hrest l Hl).
  - eapply triple_bind; [apply actor_view|]. intros ac. simpl. apply triple_pure. intros _.
    eapply triple_bind; [apply queue_view|]. intros q'. apply triple_pure. intros ->.
    destruct q as [|c q]; [|rewrite andb_false_r; by apply answered].
    destruct (_ && _)%bool; [|by apply answered].
    eapply triple_bind; [apply attempt_view, flush_view|]. intros d. eapply triple_bind; [apply send_view|]. intros ?.
    assert (Hacc : forall p s, at_view ((an ++ [(r, FlagResult (rbind d (fun _ => Ok true)))])%list, [], None) s ->
      accounted (map fst an ++ queue_replies [] ++ [r])%list p s).
    { intros p s Hs. eapply accounted_intro; [exact Hs | | done..]. by rewrite map_app, !app_nil_r. }
    destruct (is_ok d); [|by apply triple_ret; intros; apply Hacc].
    eapply triple_weaken; [apply after_loop_view | done | | done]. intros p s [_ Hs]. by apply Hacc.
  - eapply triple_bind; [by apply on_actor_view|]. intros ?. apply triple_ret. intros s Hs. by eapply accounted_intro.
  - do 3 (eapply triple_bind; [first [apply on_state_view | by apply on_actor_view]|]; intros ?).
    eapply triple_bind; [apply attempt_view, flush_view|]. intros ?. by apply answered.
  - do 4 (eapply triple_bind; [first [apply on_state_view | by apply on_actor_view]|]; intros ?).
    eapply triple_bind; [apply attempt_view, flush_view|]. intros ?. by apply answered.
  - eapply triple_bind; [apply actor_view|]. intros ac. simpl. apply triple_pure. intros _. by apply answered.
Qed.

Definition channels (tr : list Input) : list nat := List.concat (map replies_of (List.concat (map received tr))).

Lemma channels_snoc tr i : channels (tr ++ [i])%list = (channels tr ++ List.concat (map replies_of (received i)))%list.
Proof. unfold channels. rewrite map_app, concat_app, map_app, concat_app. simpl. by rewrite app_nil_r. Qed.

Lemma accounted_equiv L L' p s : L ≡ₚ L' -> accounted L p s -> accounted L' p s.
Proof. intros HL (H1 & H2). split; [by rewrite <- HL | done]. Qed.

Lemma end_accounted an q pa env t o L : queue_ok q ->
  (map fst an ++ queue_replies q ++ option_list pa ++ stop_reply (Some o))%list ≡ₚ L ->
  triple (at_view (an, q, pa)) (end_turn env t o) (accounted L) never.
Proof.
  intros Hq HL. eapply triple_weaken; [apply end_view | done | | done]. intros p s (-> & l & Hl & Hs).
  eapply accounted_intro; [exact Hs | | done..]. rewrite <- HL, map_app, Hl, app_nil_r, <- app_assoc. f_equiv.
  apply Permutation_app_comm.
Qed.

Lemma step_accounted L i env p s m : accounted L p s -> actor_step i env p s = Some m ->
  triple (fun s' => s' = s) m (accounted (L ++ List.concat (map replies_of (received i)))%list) never.
Proof.
  intros (HL & Hq & Hpa & _) Hm. unfold owed in HL.
  assert (Hv : at_view (answers s, pending_events s, pending_ack (actor s)) s) by done.
  revert HL Hq Hpa Hv. generalize (answers s) (pending_ack (actor s)). intros an pa HL Hq Hpa Hv.
  destruct p as [|t|]; [specialize (Hpa eq_refl); subst pa|clear Hpa|by destruct i].
  - assert (Hloop : forall c, pending_events s = [] -> triple (fun s' => s' = s) (handle env c) (accounted (L ++ replies_of c)%list) never).
    { intros c Hn. rewrite Hn in Hv. eapply triple_weaken; [apply (handle_view an [] env c); by split; [|simpl; lia] | by intros ? -> | | done].
      intros p' s'. apply accounted_equiv. rewrite <- HL, Hn. simpl. by rewrite app_nil_r. }
    destruct i as [|c| |? ? ? ? ?|r]; simpl in Hm; [| | |done..]; destruct (pending_events s) as [|c0 q] eqn:Eq;
      try discriminate Hm; injection Hm as <-; simpl.
    + rewrite app_nil_r. destruct Hq as [Hf Hl]. apply Forall_cons in Hf as [_ Hf]. simpl in Hl.
      eapply triple_bind with (R := fun _ => at_view (an, q, None)).
      { apply triple_mem. intros s' ->. unfold at_view, view in *. simpl in *. congruence. }
      intros ?. eapply triple_weaken; [apply handle_view; split; [done | lia] | done | | done].
      intros p' s'. apply accounted_equiv. rewrite <- HL. simpl. rewrite app_nil_r. f_equiv. fold (queue_replies q). apply Permutation_app_comm.
    + rewrite app_nil_r. by apply Hloop.
    + rewrite app_nil_r. eapply triple_weaken; [apply (after_loop_view an None) | by intros ? -> | | done].
      intros p' s' [-> Hs]. eapply accounted_intro; [exact Hs | by rewrite <- HL | done..].
  - destruct i as [|c| |turn_context id role content created|r]; simpl in Hm; [done| | | |]; injection Hm as <-; simpl.
    + rewrite app_nil_r. eapply triple_bind; [eapply triple_weaken; [apply (receive_view an _ pa env c Hq) | by intros ? -> | done | done]|].
      intros o w (l & q' & Hs & Hq' & Hp).
      assert (HL' : (map fst (an ++ l) ++ queue_replies q' ++ option_list pa ++ stop_reply o)%list ≡ₚ (L ++ replies_of c)%list).
      { rewrite <- HL, map_app, <- !app_assoc. f_equiv. rewrite (Permutation_app_comm (option_list pa) (replies_of c)).
        rewrite (app_assoc _ (replies_of c)), <- Hp, (Permutation_app_comm (option_list pa)). by rewrite <- !app_assoc. }
      destruct o as [o|]; [by apply (end_accounted (an ++ l)%list q' pa env t o) |].
      eapply accounted_intro; [exact Hs | | done..]. simpl in HL'. by rewrite app_nil_r in HL'.
    + rewrite app_nil_r. eapply triple_bind; [eapply triple_weaken; [apply (drain_view an (pending_events s) pa), Hq | by intros ? -> | done | done]|].
      intros u w (l & Hl & Hs). eapply (end_accounted (an ++ l)%list [] pa); [split; [done | simpl; lia] | | exact Hs].
      rewrite <- HL, map_app, Hl, app_nil_r. simpl. by rewrite <- app_assoc.
    + rewrite app_nil_r. eapply triple_bind; [eapply triple_weaken; [apply (attempt_view (an, pending_events s, pa)), insert_view | by intros ? -> | done | done]|].
      intros u. apply triple_ret. intros s' Hs. by eapply accounted_intro.
    + rewrite app_nil_r. eapply triple_weaken; [apply (end_accounted an (pending_events s) pa env t (Completed r) L Hq) | by intros ? -> | done | done].
      simpl. by rewrite app_nil_r.
Qed.

Lemma reaches_accounted F l t n c at_ tr s p :
  reaches F (start_actor l t n c at_) tr s p -> accounted (channels tr) p s.
Proof.
  induction 1 as [|tr s p i env m fl p' w' Hr IH HF Hm Hw]; [by split; [|split; [split; [|simpl; lia]|]]|].
  pose proof (step_accounted _ _ _ _ _ _ IH Hm (mkWorld s fl) eq_refl) as Hs. rewrite Hw in Hs.
  by rewrite channels_snoc.
Qed.

(** C10: every command is answered exactly once.  Whatever statements fail, no
    step of an actor fails; at any point each reply channel received is either
    answered, once, or held by one queued event or by the running turn, of
    which there are at most sixty-four and one; between turns nothing is held
    by a turn (so no acked turn is ever superseded); and when the actor is
    gone the answers are exactly those to the channels received. *)
Theorem every_command_answered_once F l t n c at_ tr s p :
  reaches F (start_actor l t n c at_) tr s p ->
  (map fst (answers s) ++ List.concat (map replies_of (pending_events s)) ++ option_list (pending_ack (actor s)))%list
    ≡ₚ channels tr /\
  length (pending_events s) <= MAX_PENDING_EVENTS /\
  (running p = false -> pending_ack (actor s) = None) /\
  (p = Gone -> map fst (answers s) ≡ₚ channels tr) /\
  (forall i env m fl, actor_step i env p s = Some m -> exists p' w', m (mkWorld s fl) = (Ok p', w')).
Proof.
  intros Hr. destruct (reaches_accounted _ _ _ _ _ _ _ _ _ Hr) as (HL & [Hq Hlen] & Hpa & Hgone).
  split; [done|]. split; [done|]. split; [done|]. split.
  - intros ->. unfold owed in HL. rewrite Hgone, Hpa in HL by done. simpl in HL. by rewrite app_nil_r in HL.
  - intros i env m fl Hm.
    pose proof (step_accounted _ _ _ _ _ _ (conj HL (conj (conj Hq Hlen) (conj Hpa Hgone))) Hm (mkWorld s fl) eq_refl) as Hs.
    destruct (m _) as [[p'|e] w']; [by exists p', w' | done].
Qed.

(** ** Deliveries *)

Hint Unfold on_actor the_actor on_state send act ensure_session flush flush_if_dirty mark_session_resume_pending
  clear_session_resume_pending has_platform_message_id persist_inbound rollback_partial_history complete_delivery
  resolve_pending_ack typing react drain_pending decline interrupt_turn begin_turn receive finish_turn stop_turn
  shut_turn end_turn after_loop handle : actor.

Lemma tidy_on_ledger {T} (m : M LedgerState T) : tidy m -> tidy (on_ledger m).
Proof. intros Hm w Hw. unfold on_ledger, zoom. specialize (Hm (mkWorld (ledger (st w)) (faults w)) Hw). by destruct (m _). Qed.

Lemma tidy_complete m x e now : tidy (Ledger.complete julian_ms m x e now).
Proof. unfold Ledger.complete, ensure_constituents_table. steady_steps. Qed.

Ltac steady_actor :=
  repeat (progress (autounfold with actor)); steady_steps;
  repeat (apply tidy_on_ledger; unfold mark_delivered, mark_failed; steady_steps; try (apply tidy_complete)).

Lemma steady_begin env e : steady (begin_turn env e).
Proof. steady_actor. Qed.
Lemma steady_end env t o : steady (end_turn env t o).
Proof. steady_actor. Qed.

(** Every row of the message is closed: delivered or failed. *)
Definition closed_in (d : string) (l : LedgerState) : Prop :=
  forall r, r ∈ deliveries l -> message_id r = d -> status r = "delivered" \/ status r = "failed".
Definition closed (d : string) (s : ActorStore) : Prop := closed_in d (ledger s).

Lemma finish_closes d (p : DeliveryRow -> bool) x e now l : x = StDelivered \/ x = StFailed ->
  closed_in d l -> closed_in d (set_deliveries (update_where p (finish julian_ms x e now)) l).
Proof.
  intros Hx Hc r Hr Hd. simpl in Hr. apply in_update_where in Hr as (r0 & Hr0 & ->). destruct (p r0).
  - destruct Hx as [-> | ->]; [by left | by right].
  - by apply Hc.
Qed.

Lemma complete_keeps d m x e now : x = StDelivered \/ x = StFailed ->
  preserves (closed_in d) (Ledger.complete julian_ms m x e now).
Proof.
  intros Hx. unfold Ledger.complete, ensure_constituents_table. preserve_steps;
    intros l Hl; simpl; first [by apply finish_closes | done].
Qed.

Lemma complete_closes m x e now l : x = StDelivered \/ x = StFailed ->
  closed_in m (st (snd (Ledger.complete julian_ms m x e now (mkWorld l [])))).
Proof.
  intros Hx. unfold Ledger.complete. rewrite bind_stmt. simpl.
  set (l1 := set_deliveries _ l).
  assert (H1 : closed_in m l1).
  { intros r Hr Hm. simpl in Hr. apply in_update_where in Hr as (r0 & _ & ->).
    destruct (has_message m r0) eqn:E.
    - destruct Hx as [-> | ->]; [by left | by right].
    - exfalso. unfold has_message in E. by rewrite Hm, String.eqb_refl in E. }
  destruct (_ =? 0)%nat; [done|].
  match goal with |- context [snd (?k _)] =>
    assert (Hk : preserves (closed_in m) k); [|exact (Hk (mkWorld l1 []) H1)] end.
  unfold ensure_constituents_table. preserve_steps; intros l' Hl; simpl; first [by apply finish_closes | done].
Qed.

Lemma preserves_on_ledger {T} (I : LedgerState -> Prop) (m : M LedgerState T) :
  preserves I m -> preserves (fun s => I (ledger s)) (on_ledger m).
Proof.
  intros Hm w Hw. unfold on_ledger, zoom. specialize (Hm (mkWorld (ledger (st w)) (faults w)) Hw). by destruct (m _).
Qed.

(** No operation of the actor reopens a delivery. *)
Ltac keeps_closed :=
  unfold closed; repeat (progress (autounfold with actor)); preserve_steps;
  try (intros ? ?; simpl; unfold insert_message; repeat case_match; done);
  try (apply (preserves_on_ledger (closed_in _)); unfold mark_delivered, mark_failed; preserve_steps;
       first [apply complete_keeps; by (left + right) | intros ? ?; simpl; by repeat case_match]).

Lemma begin_keeps d env e : preserves (closed d) (begin_turn env e).
Proof. keeps_closed. Qed.
Lemma end_keeps d env t o : preserves (closed d) (end_turn env t o).
Proof. keeps_closed. Qed.

Definition delivery_of (c : Command) : option string :=
  match c with Event e | EventWithAck e _ => ev_delivery_id e | _ => None end.
Definition closes (o : option string) (s : ActorStore) : Prop := forall d, o = Some d -> closed d s.
Notation anywhere := (fun _ : ActorStore => True).

Lemma preserves_closes {T} o (m : A T) : (forall d, preserves (closed d) m) -> preserves (closes o) m.
Proof. intros Hm w Hw d Hd. apply Hm. by apply Hw. Qed.

Lemma on_ledger_closes {T} (m : M LedgerState T) d :
  tidy m -> (forall l, closed_in d (st (snd (m (mkWorld l []))))) ->
  total anywhere (attempt (on_ledger m)) (fun _ => closed d).
Proof.
  intros Ht Hm s _. specialize (Hm (ledger s)). specialize (Ht (mkWorld (ledger s) []) eq_refl).
  unfold attempt, on_ledger, zoom. simpl. destruct (m _) as [r [l fl]]. simpl in *. subst fl.
  eexists _, _. split; [reflexivity | done].
Qed.

Lemma mark_failed_closes d reason now : total anywhere (attempt (on_ledger (mark_failed julian_ms d reason now))) (fun _ => closed d).
Proof. apply on_ledger_closes; [apply tidy_complete | intros l; apply complete_closes; by right]. Qed.

Lemma complete_delivery_closes o r now : total anywhere (complete_delivery o r now) (fun _ => closes o).
Proof.
  destruct o as [d|]; [|by apply total_ret]. simpl. eapply total_bind with (R := fun _ => closed d).
  - destruct r as [[]|e]; [|apply mark_failed_closes].
    apply on_ledger_closes; [apply tidy_complete | intros l; apply complete_closes; by left].
  - intros ?. apply total_ret. intros s Hs ? [= <-]. done.
Qed.

(** A part of a handler that says nothing, before and after the completion. *)
Ltac skip := eapply total_bind with (R := fun _ => anywhere);
  [apply steady_total; [steady_actor | done] | intros ?].
Ltac closed_since := apply steady_total; [steady_actor | apply preserves_closes; intros ?; keeps_closed].

Lemma begin_closes env e : total anywhere (begin_turn env e)
  (fun p s => match p with Running t => t_event t = e | _ => closes (ev_delivery_id e) s end).
Proof.
  unfold begin_turn. do 3 skip.
  assert (Hend : forall r o, total anywhere (complete_delivery (ev_delivery_id e) r (now env) ;;; resolve_pending_ack o ;;; ret Idle)
    (fun p s => match p with Running t => t_event t = e | _ => closes (ev_delivery_id e) s end)).
  { intros r o. eapply total_bind; [apply complete_delivery_closes|]. intros ?.
    eapply total_bind with (R := fun _ => closes (ev_delivery_id e)); [closed_since|]. intros ?. by apply total_ret. }
  destruct (_ : bool); [apply Hend|].
  eapply total_bind with (R := fun _ => anywhere); [apply steady_total; [steady_actor | done]|].
  intros [[]|err]; [do 2 skip; by apply total_ret | cbv zeta; skip; apply Hend].
Qed.

Lemma interrupt_closes e reason now : total anywhere (interrupt_turn e reason now) (fun _ => closes (ev_delivery_id e)).
Proof.
  unfold interrupt_turn. skip. destruct (ev_delivery_id e) as [d|]; [|by apply total_ret].
  eapply total_bind; [apply mark_failed_closes|]. intros ?. apply total_ret. intros s Hs ? [= <-]. done.
Qed.

Lemma end_closes env t o : total anywhere (end_turn env t o) (fun _ => closes (ev_delivery_id (t_event t))).
Proof.
  unfold end_turn. skip. eapply total_bind with (R := fun _ => closes (ev_delivery_id (t_event t))); [|intros ?; closed_since].
  destruct o as [res|r|].
  - unfold finish_turn. skip. eapply total_bind with (R := fun _ => anywhere); [apply steady_total; [steady_actor | done]|].
    intros res'. eapply total_bind; [apply complete_delivery_closes|]. intros ?. closed_since.
  - unfold stop_turn. do 2 skip. eapply total_bind; [apply interrupt_closes|]. intros ?. closed_since.
  - unfold shut_turn. eapply total_bind; [apply interrupt_closes|]. intros ?. closed_since.
Qed.

Lemma decline_closes c reason now : total anywhere (decline reason now c) (fun _ => closes (delivery_of c)).
Proof.
  destruct c as [e|e k| | | | | |]; simpl; try by apply total_ret.
  - apply complete_delivery_closes.
  - eapply total_bind; [apply complete_delivery_closes|]. intros ?. closed_since.
Qed.

Lemma drain_closes q reason now :
  total (fun s => pending_events s = q) (drain_pending reason now) (fun _ s => forall c, c ∈ q -> closes (delivery_of c) s).
Proof.
  unfold drain_pending. eapply total_bind with (R := fun q' _ => q' = q); [by apply total_mem|].
  intros q' s ->. revert s. induction q as [|c q IH]; intros s; simpl.
  - eexists _, _. split; [done|]. by intros c ?%elem_of_nil.
  - destruct (decline_closes c reason now s I) as (u & s1 & E1 & Hc). destruct (IH s1) as ([] & s2 & E2 & Hq).
    exists tt, s2. unfold bind. rewrite E1, E2. split; [done|]. intros c' [->|Hc']%elem_of_cons; [|by apply Hq].
    assert (Hk : preserves (closes (delivery_of c)) (for_each (decline reason now) q)).
    { apply preserves_closes. intros d. keeps_closed. }
    specialize (Hk (mkWorld s1 []) Hc). by rewrite E2 in Hk.
Qed.

(** The queue, which only [drain_pending] and the mailbox change. *)
Definition queue_is (q : list Command) (s : ActorStore) : Prop := pending_events s = q.

Lemma on_ledger_queue {T} q (m : M LedgerState T) : preserves (queue_is q) (on_ledger m).
Proof. intros w Hw. unfold on_ledger, zoom. by destruct (m _). Qed.

Ltac keeps_queue :=
  repeat (progress (autounfold with actor)); preserve_steps;
  try (apply on_ledger_queue); try (intros ? ?; simpl; unfold insert_message; repeat case_match; done).

Lemma begin_queue q env e : preserves (queue_is q) (begin_turn env e).
Proof. keeps_queue. Qed.
Lemma end_queue q env t o : preserves (queue_is q) (end_turn env t o).
Proof. keeps_queue. Qed.

(** A delivery that is closed, or whose event waits or runs. *)
Definition covered (d : string) (p : Phase) (s : ActorStore) : Prop :=
  closed d s \/ (exists c, c ∈ pending_events s /\ delivery_of c = Some d) \/
  (exists t, p = Running t /\ ev_delivery_id (t_event t) = Some d).
Definition covers (q : list Command) (p : Phase) (s : ActorStore) : Prop :=
  forall c d, c ∈ q -> delivery_of c = Some d -> covered d p s.

Lemma total_both {T} (P : ActorStore -> Prop) (I : ActorStore -> Prop) (m : A T) Q :
  total P m Q -> preserves I m -> total (fun s => P s /\ I s) m (fun a s => Q a s /\ I s).
Proof.
  intros Hm Hp s [HP HI]. destruct (Hm s HP) as (a & s' & E & HQ). exists a, s'. split; [done|]. split; [done|].
  specialize (Hp (mkWorld s []) HI). by rewrite E in Hp.
Qed.

Lemma begin_covers q env e c : delivery_of c = ev_delivery_id e ->
  total (queue_is q) (begin_turn env e) (fun p s => covers (q ++ [c])%list p s).
Proof.
  intros Hc. eapply total_weaken; [apply (total_both anywhere (queue_is q)); [apply begin_closes | apply begin_queue] | done |].
  intros p s [Hp Hq] c' d [Hc'| ->%list_elem_of_singleton]%elem_of_app Hd.
  - right. left. exists c'. by rewrite Hq.
  - rewrite Hc in Hd. destruct p as [|t|]; [left; by apply Hp | right; right; exists t; by rewrite Hp | left; by apply Hp].
Qed.

Lemma quiet_covers {T} q (m : A T) c (p : T -> Phase) : delivery_of c = None -> steady m -> preserves (queue_is q) m ->
  total (queue_is q) m (fun a s => covers (q ++ [c])%list (p a) s).
Proof.
  intros Hc Hm Hq. eapply total_weaken; [apply (steady_total (queue_is q)); done | done |].
  intros a s Hs c' d [Hc'| ->%list_elem_of_singleton]%elem_of_app Hd; [|congruence].
  right. left. exists c'. by rewrite Hs.
Qed.

Lemma drained_covers q c p s : delivery_of c = None -> (forall c, c ∈ q -> closes (delivery_of c) s) -> covers (q ++ [c])%list p s.
Proof.
  intros Hc Hq c' d [Hc'| ->%list_elem_of_singleton]%elem_of_app Hd; [left; by apply (Hq c') | congruence].
Qed.

Lemma handle_covers q env c : total (queue_is q) (handle env c) (fun p s => covers (q ++ [c])%list p s).
Proof.
  destruct c as [e|e k|r|t r| |m r|r|r].
  - by apply begin_covers.
  - simpl. eapply total_bind with (R := fun _ => queue_is q); [apply steady_total; [steady_actor | keeps_queue]|]. intros ?.
    eapply total_bind with (R := fun _ => queue_is q); [apply steady_total; [steady_actor | keeps_queue]|]. intros ?.
    by apply begin_covers.
  - simpl. do 3 (eapply total_bind with (R := fun _ => queue_is q); [apply steady_total; [steady_actor | keeps_queue]|]; intros ?).
    eapply total_bind; [apply drain_closes|]. intros ?.
    eapply total_weaken; [apply (steady_total (fun s => forall c, c ∈ q -> closes (delivery_of c) s)) | done | ].
    + steady_actor.
    + intros w Hw c Hc. apply (preserves_closes (delivery_of c)); [intros d; keeps_closed | by apply Hw].
    + intros p s Hs. by apply drained_covers.
  - apply (quiet_covers q _ _ id); [done | steady_actor | keeps_queue].
  - apply (quiet_covers q _ _ id); [done | steady_actor | keeps_queue].
  - apply (quiet_covers q _ _ id); [done | steady_actor | keeps_queue].
  - apply (quiet_covers q _ _ id); [done | steady_actor | keeps_queue].
  - apply (quiet_covers q _ _ id); [done | steady_actor | keeps_queue].
Qed.

(** What [receive] leaves before a turn ends or goes on. *)
Definition left_over (q : list Command) (s : ActorStore) : Prop :=
  forall c d, c ∈ q -> delivery_of c = Some d -> closed d s \/ c ∈ pending_events s.

Lemma receive_covers q env c : total (queue_is q) (receive env c) (fun _ s => left_over (q ++ [c])%list s).
Proof.
  assert (Hquiet : forall T (m : A T), delivery_of c = None -> steady m -> preserves (queue_is q) m ->
    total (queue_is q) m (fun _ s => left_over (q ++ [c])%list s)).
  { intros T m Hc Hm Hq. eapply total_weaken; [apply (steady_total (queue_is q)); done | done |].
    intros a s Hs c' d [Hc'| ->%list_elem_of_singleton]%elem_of_app Hd; [|congruence]. right. by rewrite Hs. }
  assert (Hevent : forall e (m : A (option TurnOutcome)), delivery_of c = ev_delivery_id e -> steady m ->
    (forall d, preserves (closed d) m) -> preserves (queue_is q) m ->
    total (queue_is q) (queue <- mem (fun s => (pending_events s, s)) ;;
      if (length queue <? MAX_PENDING_EVENTS)%nat
      then mem (fun s => (tt, set_pending (pending_events s ++ [c])%list s)) ;;; ret None
      else complete_delivery (ev_delivery_id e) (Err FULL) (now env) ;;; m)
     (fun _ s => left_over (q ++ [c])%list s)).
  { intros e m Hc Hm Hkm Hqm. eapply total_bind with (R := fun _ => queue_is q); [by apply total_mem|]. intros q'.
    destruct (_ <? _)%nat.
    - eapply total_bind with (R := fun _ => queue_is (q ++ [c])%list).
      { apply total_mem. intros s Hs. unfold queue_is in *. simpl. by rewrite Hs. }
      intros ?. apply total_ret. intros s Hs c' d Hc' _. right. by rewrite Hs.
    - eapply total_bind.
      { eapply total_weaken; [apply (total_both anywhere (queue_is q)); [apply complete_delivery_closes | keeps_queue] | done | done]. }
      intros ?. eapply total_weaken; [apply (steady_total (fun s => closes (ev_delivery_id e) s /\ queue_is q s)) | done | ].
      + done.
      + intros w [H1 H2]. split; [by apply preserves_closes | by apply Hqm].
      + intros res s [H1 H2] c' d [Hc'| ->%list_elem_of_singleton]%elem_of_app Hd; [right; by rewrite H2 |].
        left. apply H1. congruence. }
  destruct c as [e|e k|r|t r| |m r|r|r]; simpl.
  - apply (Hevent e (ret None)); [done | apply steady_ret | intros d; apply preserves_ret | apply preserves_ret].
  - apply (Hevent e (send k (AckResult (Err FULL)) ;;; ret None)); [done | steady_actor | intros d; keeps_closed | keeps_queue].
  - eapply total_bind; [apply drain_closes|]. intros ?. apply total_ret.
    intros s Hs c' d [Hc'| ->%list_elem_of_singleton]%elem_of_app Hd; [left; by apply (Hs c') | done].
  - apply Hquiet; [done | steady_actor | keeps_queue].
  - apply Hquiet; [done | steady_actor | keeps_queue].
  - apply Hquiet; [done | steady_actor | keeps_queue].
  - apply Hquiet; [done | steady_actor | keeps_queue].
  - apply Hquiet; [done | steady_actor | keeps_queue].
Qed.

Lemma end_left_over q env t o : preserves (left_over q) (end_turn env t o).
Proof.
  intros w Hw c d Hc Hd. destruct (Hw c d Hc Hd) as [H1|H1]; [left; by apply end_keeps|].
  right. by rewrite (end_queue _ env t o w eq_refl).
Qed.

Lemma end_covers q env t o : total (left_over q) (end_turn env t o)
  (fun _ s => left_over q s /\ closes (ev_delivery_id (t_event t)) s).
Proof.
  eapply total_weaken; [apply (total_both anywhere (left_over q)); [apply end_closes | apply end_left_over] | done |].
  by intros p s [? ?].
Qed.

Lemma step_closed d i env p s m : actor_step i env p s = Some m -> preserves (closed d) m.
Proof.
  intros Hm. destruct p, i; simpl in Hm; try discriminate; repeat case_match; try discriminate; injection Hm as <-; keeps_closed.
Qed.

Lemma left_over_covered q c d p s : left_over q s -> c ∈ q -> delivery_of c = Some d -> covered d p s.
Proof. intros Hl Hc Hd. destruct (Hl c d Hc Hd); [by left | right; left; by exists c]. Qed.

(** One clean step: what was covered stays covered, and so is what it receives. *)
Lemma step_covers d i env p s m p' w :
  actor_step i env p s = Some m -> m (mkWorld s []) = (Ok p', w) ->
  covered d p s \/ (exists c, c ∈ received i /\ delivery_of c = Some d) -> covered d p' (st w).
Proof.
  intros Hm Hw Hd.
  assert (Hkeep : closed d s -> covered d p' (st w)).
  { intros Hc. left. pose proof (step_closed d _ _ _ _ _ Hm (mkWorld s []) Hc) as Hk. by rewrite Hw in Hk. }
  destruct p as [|t|]; [| |by destruct i].
  - assert (Hq : closed d s \/ exists c, c ∈ (pending_events s ++ received i)%list /\ delivery_of c = Some d).
    { destruct Hd as [[Hc|[(c & Hc & Hd)|(t & Ht & _)]]|(c & Hc & Hd)]; [by left | | done |];
        right; exists c; rewrite elem_of_app; auto. }
    destruct Hq as [Hc|(c & Hc & Hd')]; [by apply Hkeep|].
    destruct i as [|c0| |? ? ? ? ?|r]; simpl in Hm; [| | |done..]; destruct (pending_events s) as [|c1 q] eqn:Eq;
      try discriminate Hm; injection Hm as <-; simpl in Hc; rewrite ?app_nil_r in Hc.
    + unfold bind, mem in Hw. simpl in Hw.
      apply (total_at _ _ _ _ _ _ (handle_covers q env c1)) in Hw; [|done]. apply (Hw c); [|done].
      apply elem_of_app. rewrite list_elem_of_singleton. apply elem_of_cons in Hc. tauto.
    + apply (total_at _ _ _ _ _ _ (handle_covers [] env c0)) in Hw; [|done]. by apply (Hw c).
    + by apply elem_of_nil in Hc.
  - assert (Hq : (exists c, c ∈ (pending_events s ++ received i)%list /\ delivery_of c = Some d)
                 \/ ev_delivery_id (t_event t) = Some d \/ closed d s).
    { destruct Hd as [[Hc|[(c & Hc & Hd)|(t' & [= <-] & Hd)]]|(c & Hc & Hd)]; [by right; right | | by right; left |];
        left; exists c; rewrite elem_of_app; auto. }
    destruct Hq as [(c & Hc & Hd')|[Ht|Hc]]; [| |by apply Hkeep].
    + destruct i as [|c0| |turn_context id role content created|r]; simpl in Hm; [done| | | |]; injection Hm as <-;
        simpl in Hc; rewrite ?app_nil_r in Hc.
      * destruct (receive_covers (pending_events s) env c0 s eq_refl) as (o & s1 & E & Hl).
        unfold bind in Hw. rewrite E in Hw. simpl in Hw. destruct o as [o|]; [|unfold ret in Hw; simplify_eq/=; by eapply left_over_covered].
        destruct (total_at _ _ _ _ _ _ (end_covers _ env t o) Hl Hw) as [Hl' _]. by eapply left_over_covered.
      * destruct (drain_closes (pending_events s) SHUTTING_DOWN (now env) s eq_refl) as ([] & s1 & E & Hl).
        unfold bind in Hw. rewrite E in Hw. simpl in Hw. left. specialize (Hl c Hc d Hd').
        pose proof (end_keeps d env t Shutdown (mkWorld s1 []) Hl) as Hk. by rewrite Hw in Hk.
      * right. left. exists c. split; [|done]. unfold bind, attempt, exec in Hw. simpl in Hw.
        unfold insert_message, ret in Hw. repeat case_match; by simplify_eq/=.
      * assert (Hs : left_over (pending_events s) s) by by right.
        destruct (total_at _ _ _ _ _ _ (end_covers (pending_events s) env t (Completed r)) Hs Hw) as [Hl _].
        by eapply left_over_covered.
    + destruct i as [|c0| |turn_context id role content created|r]; simpl in Hm; [done| | | |]; injection Hm as <-.
      * destruct (receive_covers (pending_events s) env c0 s eq_refl) as (o & s1 & E & _).
        unfold bind in Hw. rewrite E in Hw. simpl in Hw. destruct o as [o|]; [|unfold ret in Hw; simplify_eq/=; right; right; by exists t].
        apply (total_at _ _ _ _ _ _ (end_closes env t o)) in Hw; [|done]. left. by apply Hw.
      * destruct (drain_closes (pending_events s) SHUTTING_DOWN (now env) s eq_refl) as ([] & s1 & E & _).
        unfold bind in Hw. rewrite E in Hw. simpl in Hw. apply (total_at _ _ _ _ _ _ (end_closes env t Shutdown)) in Hw; [|done]. left. by apply Hw.
      * right. right. exists (mkTurn (t_event t) turn_context). split; [|done].
        unfold bind, attempt, exec in Hw. simpl in Hw. unfold insert_message, ret in Hw. repeat case_match; by simplify_eq/=.
      * apply (total_at _ _ _ _ _ _ (end_closes env t (Completed r))) in Hw; [|done]. left. by apply Hw.
Qed.

Definition delivery_ids (tr : list Input) : list string := omap delivery_of (List.concat (map received tr)).

Lemma reaches_covers s0 tr s p d :
  reaches (eq []) s0 tr s p -> d ∈ delivery_ids tr -> covered d p s.
Proof.
  induction 1 as [|tr s p i env m fl p' w' Hr IH HF Hm Hw]; [by intros ?%elem_of_nil|].
  intros Hd. subst fl. apply (step_covers d i env p s m p' w' Hm Hw).
  unfold delivery_ids in *. rewrite map_app, concat_app, omap_app, elem_of_app in Hd. destruct Hd as [Hd|Hd]; [by left; apply IH|].
  right. simpl in Hd. rewrite app_nil_r in Hd. by apply list_elem_of_omap in Hd.
Qed.

(** No delivery is left open.  When no statement fails, the claim of every
    event an actor received is closed (delivered or failed), unless the event
    still waits in the queue or runs; so an actor between turns with an empty
    queue, and one that is gone, has closed them all. *)
Theorem every_delivery_closed l t n c at_ tr s p d :
  reaches (eq []) (start_actor l t n c at_) tr s p -> d ∈ delivery_ids tr ->
  (closed d s \/ (exists c, c ∈ pending_events s /\ delivery_of c = Some d) \/
   (exists t, p = Running t /\ ev_delivery_id (t_event t) = Some d)) /\
  (p = Gone -> closed d s).
Proof.
  intros Hr Hd. pose proof (reaches_covers _ _ _ _ _ Hr Hd) as Hc. split; [exact Hc|]. intros ->.
  destruct (reaches_accounted _ _ _ _ _ _ _ _ _ Hr) as (_ & _ & _ & Hn). destruct Hc as [Hc|[(x & Hx & _)|(t' & Ht & _)]]; [done| |done].
  rewrite Hn in Hx by done. by apply elem_of_nil in Hx.
Qed.

(** ** Stored states *)

Lemma assoc_get_member_set k k' x m :
  assoc_get k' (member_set k x m) = if String.eqb k k' then Some x else assoc_get k' m.
Proof.
  induction m as [|[j v] m IH]; simpl.
  - by destruct (String.eqb k k').
  - destruct (String.eqb_spec j k) as [->|Hj]; simpl.
    + by destruct (String.eqb k k').
    + rewrite IH. destruct (String.eqb_spec k k') as [->|Hk]; [|done].
      destruct (String.eqb_spec j k') as [->|_]; [done|]. done.
Qed.

Lemma list_to_map_member_set k (x : value) m :
  NoDup m.*1 -> (list_to_map (member_set k x m) : gmap string value) = <[k := x]> (list_to_map m).
Proof.
  induction m as [|[j v] m IH]; simpl; intros Hn; [done|]. apply NoDup_cons in Hn as [Hj Hn].
  destruct (String.eqb_spec j k) as [->|Hne]; simpl; [by rewrite insert_insert_eq|].
  rewrite IH by done. by rewrite insert_insert_ne.
Qed.

(** Writing the binding into a stored state is writing it into the state. *)
Lemma state_of_json_set_binding x st :
  state_of_value (json_set_binding x (state_value st)) =
  Some (with_metadata (<["omo_thread_id" := x]> (metadata st)) st).
Proof.
  destruct st as [m p t y sp d]. unfold json_set_binding, state_value. simpl.
  pose proof (state_of_state_value (mkSessionState m p t y sp (list_to_map (member_set "omo_thread_id" x (map_to_list d))))) as E.
  unfold state_of_value, state_value in *. simpl in *.
  assert (Hopt : forall o, opt_field "active_model" (JObject [("active_model", opt_value o)]) = Some o) by by intros [].
  unfold opt_field in *. simpl in *.
  assert (Hv : forall o, (match opt_value o with JNull => Some None | JString s => Some (Some s) | _ => None end) = Some o)
    by by intros [].
  rewrite !Hv. simpl. assert (Hmap : (list_to_map (member_set "omo_thread_id" x (map_to_list d)) : gmap string value) = <["omo_thread_id" := x]> d).
  { rewrite list_to_map_member_set by apply NoDup_fst_map_to_list. by rewrite list_to_map_to_list. }
  destruct t as [l|]; simpl; [rewrite mapM_as_str; simpl|]; by rewrite Hmap.
Qed.

(** The binding a state carries, as SQLite reads it. *)
Definition extracted (o : option value) : option value :=
  match o with
  | None | Some JNull => None
  | Some (JBool b) => Some (JPos (if b then 1 else 0))
  | Some x => Some x
  end.

Lemma assoc_get_map_to_list k (d : gmap string value) : assoc_get k (map_to_list d) = d !! k.
Proof.
  rewrite <- (list_to_map_to_list d) at 2. induction (map_to_list d) as [|[j v] l IH]; simpl; [done|].
  destruct (String.eqb_spec j k) as [->|Hj]; [by rewrite lookup_insert_eq | by rewrite lookup_insert_ne].
Qed.

Lemma json_binding_state st : json_binding (state_value st) = extracted (metadata st !! "omo_thread_id").
Proof. unfold json_binding, state_value, Json.get. simpl. by rewrite assoc_get_map_to_list. Qed.

(** The state a flush stores. *)
Definition merged_state (preserve : bool) (old : value) (st : SessionState) : SessionState :=
  match json_binding old, extracted (metadata st !! "omo_thread_id") with
  | Some b, None => if preserve then with_metadata (<["omo_thread_id" := b]> (metadata st)) st else st
  | _, _ => st
  end.

Lemma flushed_state preserve old st :
  state_of_value (flushed preserve old (state_value st)) = Some (merged_state preserve old st).
Proof.
  unfold flushed, merged_state. rewrite json_binding_state.
  destruct (json_binding old); [|apply state_of_state_value].
  destruct (extracted _); [apply state_of_state_value|].
  destruct preserve; [apply state_of_json_set_binding | apply state_of_state_value].
Qed.

Lemma merged_suspended preserve old st : suspended (merged_state preserve old st) = suspended st.
Proof. unfold merged_state. by repeat case_match. Qed.

(** The clean flush: the row of the session holds the merged state. *)
Lemma flush_clean s :
  let key := storage_key (ctx_key (context (actor s))) in
  exists s', flush (mkWorld s []) = (Ok tt, mkWorld s' []) /\ actor s' = actor s /\ messages s' = messages s /\
    pending_events s' = pending_events s /\
    (has_session key (ledger s) = true -> Ledger.sessions (ledger s') =
       update_where (of_session key)
         (fun r => mkSessionRow (sr_key r) (sr_session r)
            (flushed (negb (binding_cleared (actor s))) (sr_state_json r) (state_value (ctx_state (context (actor s)))))
            (sr_resume_pending r)) (Ledger.sessions (ledger s))).
Proof.
  intros key. unfold flush, the_actor, ensure_session, on_ledger, zoom, stmt, exec, bind, mem. simpl. eexists.
  split; [reflexivity|]. simpl. split; [done|]. split; [done|]. split; [done|]. intros Hh. fold key. by rewrite Hh.
Qed.

(** The stored state of a session, read back. *)
Definition stored_as (key : string) (st : SessionState) (s : ActorStore) : Prop :=
  exists r, r ∈ Ledger.sessions (ledger s) /\ sr_key r = key /\ state_of_value (sr_state_json r) = Some st.

Lemma flush_stores s r :
  let key := storage_key (ctx_key (context (actor s))) in
  r ∈ Ledger.sessions (ledger s) -> sr_key r = key -> dirty (actor s) = true ->
  exists s', flush_if_dirty (mkWorld s []) = (Ok tt, mkWorld s' []) /\ dirty (actor s') = false /\
    stored_as key (merged_state (negb (binding_cleared (actor s))) (sr_state_json r) (ctx_state (context (actor s)))) s' /\
    map sr_key (Ledger.sessions (ledger s')) = map sr_key (Ledger.sessions (ledger s)).
Proof.
  intros key Hr Hk Hd. destruct (flush_clean s) as (s' & E & Ha & _ & _ & Hs). fold key in Hs.
  assert (Hh : has_session key (ledger s) = true).
  { unfold has_session. apply existsb_exists. exists r. split; [by apply list_elem_of_In | by apply String.eqb_eq]. }
  specialize (Hs Hh). exists (set_actor (fun a => with_cleared false (with_dirty false a)) s').
  split; [|split; [done|split]].
  - unfold flush_if_dirty, the_actor. rewrite bind_mem. simpl. rewrite Hd.
    by rewrite (bind_value _ _ _ _ _ E).
  - set (r' := mkSessionRow (sr_key r) (sr_session r)
      (flushed (negb (binding_cleared (actor s))) (sr_state_json r) (state_value (ctx_state (context (actor s)))))
      (sr_resume_pending r)).
    exists r'. split; [|split; [done | apply flushed_state]].
    simpl. rewrite Hs. apply in_update_where. exists r. split; [done|].
    assert (Ho : of_session key r = true) by by apply String.eqb_eq. by rewrite Ho.
  - simpl. rewrite Hs. apply map_update_where. by intros.
Qed.

(** A session keeps its remote conversation until it is reset.  Flushing a
    dirty actor stores its state, adding the binding of the stored row when
    the state has none and no reset happened since the last flush; the other
    fields and metadata are the state's own.  A reset between turns stores the
    default state, whatever was bound. *)
Theorem binding_kept_until_reset s r env reply :
  let key := storage_key (ctx_key (context (actor s))) in
  let state := ctx_state (context (actor s)) in
  r ∈ Ledger.sessions (ledger s) -> sr_key r = key ->
  (dirty (actor s) = true -> exists s' st, run flush_if_dirty s = (Ok tt, s') /\ stored_as key st s' /\
     (forall k, k <> "omo_thread_id" -> metadata st !! k = metadata state !! k) /\
     (active_model st = active_model state /\ system_prompt st = system_prompt state /\
      enabled_toolsets st = enabled_toolsets state /\ yolo st = yolo state /\ suspended st = suspended state) /\
     (forall b, json_binding (sr_state_json r) = Some b -> extracted (metadata state !! "omo_thread_id") = None ->
        binding_cleared (actor s) = false -> metadata st !! "omo_thread_id" = Some b) /\
     (json_binding (sr_state_json r) = None \/ is_Some (extracted (metadata state !! "omo_thread_id"))
      \/ binding_cleared (actor s) = true -> st = state)) /\
  (exists s', run (handle env (Reset reply)) s = (Ok Idle, s') /\ stored_as key default_state s').
Proof.
  intros key state Hr Hk. split.
  - intros Hd. destruct (flush_stores s r Hr Hk Hd) as (s' & E & _ & Hst & _). fold state in Hst.
    eexists s', _. split; [by apply run_intro|]. split; [exact Hst|]. clear. unfold merged_state.
    split; [|split; [|split]].
    + intros k Hne. repeat case_match; try done. simpl. by rewrite lookup_insert_ne.
    + by repeat case_match.
    + intros b -> -> ->. simpl. apply lookup_insert_eq.
    + intros [->|[[x ->]| ->]]; [done | by destruct (json_binding _) | by repeat case_match].
  - set (a1 := set_actor (fun a => with_dirty true (with_context (with_state default_state (context a)) (with_cleared true (with_active (now env) a)))) s).
    destruct (flush_stores a1 r Hr Hk eq_refl) as (s' & E & _ & Hst & _). simpl in Hst.
    exists (set_answers (answers s' ++ [(reply, AckResult (Ok tt))])%list s'). split.
    + apply run_intro. simpl. unfold on_state, on_actor. rewrite !bind_mem. simpl.
      rewrite (bind_value (attempt flush_if_dirty) _ _ (Ok tt) (mkWorld s' [])); [done|].
      unfold attempt. match goal with |- context [flush_if_dirty ?w] =>
        assert (E' : flush_if_dirty w = (Ok tt, mkWorld s' [])) by exact E end. by rewrite E'.
    + destruct Hst as (r' & H1 & H2 & H3). exists r'. split; [done|]. split; [done|]. rewrite H3. f_equal.
      unfold merged_state. by repeat case_match.
Qed.

(** ** Interrupted turns *)

(** A transcript as [AUTOINCREMENT] leaves it: unique ids, in sequence order. *)
Definition transcript_ok (t : list MessageRow) (n : nat) : Prop :=
  NoDup (map m_id t) /\ StronglySorted (fun a b => m_sequence a < m_sequence b) t /\
  forall r, r ∈ t -> m_sequence r < n.

Definition keyed (K : SessionKey) (s : ActorStore) : Prop :=
  ctx_key (context (actor s)) = K /\ transcript_ok (messages s) (next_sequence s).

Lemma sorted_filter {X} (R : X -> X -> Prop) p (l : list X) : StronglySorted R l -> StronglySorted R (List.filter p l).
Proof.
  induction 1 as [|x l Hl IH Hx]; simpl; [constructor|]. destruct (p x); [|done]. constructor; [done|].
  rewrite Forall_forall in *. intros y [Hy _]%list_elem_of_In%filter_In. apply Hx. by apply list_elem_of_In.
Qed.

Lemma transcript_delete p t n : transcript_ok t n -> transcript_ok (delete_where p t) n.
Proof.
  intros (H1 & H2 & H3). split; [by apply NoDup_map_delete|]. split; [by apply sorted_filter|].
  intros r [Hr _]%in_delete_where. by apply H3.
Qed.

Lemma sorted_snoc {X} (R : X -> X -> Prop) (l : list X) x : StronglySorted R l -> (forall y, y ∈ l -> R y x) -> StronglySorted R (l ++ [x])%list.
Proof.
  induction 1 as [|y l Hl IH Hy]; simpl; intros Hx; [by repeat constructor|]. constructor.
  - apply IH. intros z Hz. apply Hx. by right.
  - apply Forall_app. split; [done|]. constructor; [apply Hx; left | constructor].
Qed.

Lemma insert_transcript id key role content metadata created platform s :
  transcript_ok (messages s) (next_sequence s) ->
  let s' := snd (insert_message id key role content metadata created platform s) in
  transcript_ok (messages s') (next_sequence s').
Proof.
  intros (H1 & H2 & H3). unfold insert_message. destruct (has_session _ _); [|done]. simpl.
  destruct (existsb _ _) eqn:E; simpl; [done|]. split; [|split].
  - rewrite map_app. apply NoDup_snoc; [done|]. intros (r & Hid & Hr)%list_elem_of_fmap. simpl in Hid.
    rewrite existsb_false in E. specialize (E r Hr). apply String.eqb_neq in E. congruence.
  - apply sorted_snoc; [done|]. intros r Hr. by apply H3.
  - intros r [Hr| ->%list_elem_of_singleton]%elem_of_app; [specialize (H3 r Hr); lia | simpl; lia].
Qed.

Lemma insert_keyed K id key role content metadata created platform s :
  keyed K s -> keyed K (snd (insert_message id key role content metadata created platform s)).
Proof.
  intros [Hk Ht]. split; [|by apply insert_transcript]. unfold insert_message. by repeat case_match.
Qed.

Lemma on_ledger_keyed {T} K (m : M LedgerState T) : preserves (keyed K) (on_ledger m).
Proof. intros w Hw. unfold on_ledger, zoom. by destruct (m _). Qed.

Ltac keeps_keyed :=
  repeat (progress (autounfold with actor)); preserve_steps; try (apply on_ledger_keyed);
  try (intros ? ?; by apply insert_keyed);
  try (intros ? [? ?]; split; [done | by apply transcript_delete]);
  try (intros ? [? ?]; repeat case_match; by split).

Lemma begin_keyed K env e : preserves (keyed K) (begin_turn env e).
Proof. keeps_keyed. Qed.
Lemma receive_keyed K env c : preserves (keyed K) (receive env c).
Proof. keeps_keyed. Qed.
Lemma end_keyed K env t o : ctx_key (t_context t) = K -> preserves (keyed K) (end_turn env t o).
Proof. intros Hk. keeps_keyed. Qed.

(** A turn under way: its message is in the transcript, its session has a row,
    and the actor is to be flushed as not suspended. *)
Definition awake (s : ActorStore) : Prop := dirty (actor s) = true /\ suspended (ctx_state (context (actor s))) = false.
Definition recorded (K : SessionKey) (id : string) (s : ActorStore) : Prop :=
  has_session (storage_key K) (ledger s) = true /\ exists u, u ∈ messages s /\ m_id u = id.
Definition in_turn (K : SessionKey) (id : string) (s : ActorStore) : Prop := awake s /\ recorded K id s.

Definition turn_ok (K : SessionKey) (p : Phase) (s : ActorStore) : Prop :=
  match p with
  | Running t => ctx_key (t_context t) = K /\ in_turn K (ev_id (t_event t)) s
  | _ => True
  end.

Lemma has_session_snoc k l row : has_session k (set_sessions (fun t => (t ++ [row])%list) l) = has_session k l || String.eqb (sr_key row) k.
Proof. unfold has_session. simpl. rewrite existsb_app. simpl. by rewrite orb_false_r. Qed.

Lemma insert_ledger id key role content metadata created platform s :
  ledger (snd (insert_message id key role content metadata created platform s)) = ledger s.
Proof. unfold insert_message. by repeat case_match. Qed.

Lemma insert_recorded K id id' key role content metadata created platform s :
  recorded K id s -> recorded K id (snd (insert_message id' key role content metadata created platform s)).
Proof.
  intros [Hh (u & Hu & Hid)]. split; [by rewrite insert_ledger|]. exists u. split; [|done].
  unfold insert_message. repeat case_match; simpl; [done..|]. apply elem_of_app. by left.
Qed.

Lemma insert_awake id key role content metadata created platform s :
  awake s -> awake (snd (insert_message id key role content metadata created platform s)).
Proof. unfold insert_message. by repeat case_match. Qed.

Lemma insert_new id key role content metadata created platform s :
  match insert_message id key role content metadata created platform s with
  | (Ok _, s') => exists u, u ∈ messages s' /\ m_id u = id
  | (Err _, _) => True
  end.
Proof.
  unfold insert_message. destruct (has_session key (ledger s)); simpl; [|done].
  destruct (existsb _ _) eqn:E; simpl.
  - apply existsb_exists in E as (u & Hu & Hid). exists u. split; [by apply list_elem_of_In | by apply String.eqb_eq].
  - eexists. split; [apply elem_of_app; right; by apply list_elem_of_singleton | done].
Qed.

Lemma complete_sessions k m x e at_ : preserves (fun l => has_session k l = true) (Ledger.complete julian_ms m x e at_).
Proof. unfold Ledger.complete, ensure_constituents_table. preserve_steps; by intros l Hl. Qed.

Lemma on_ledger_recorded {T} K id (m : M LedgerState T) :
  preserves (fun l => has_session (storage_key K) l = true) m -> preserves (recorded K id) (on_ledger m).
Proof.
  intros Hm w [Hw Hu]. unfold on_ledger, zoom. specialize (Hm (mkWorld (ledger (st w)) (faults w)) Hw). by destruct (m _).
Qed.

Lemma on_ledger_awake {T} (m : M LedgerState T) : preserves awake (on_ledger m).
Proof. intros w Hw. unfold on_ledger, zoom. by destruct (m _). Qed.

Ltac keeps_recorded :=
  repeat (progress (autounfold with actor)); preserve_steps;
  try (intros ? ?; by apply insert_recorded);
  try (apply on_ledger_recorded; unfold mark_delivered, mark_failed; first [apply complete_sessions | preserve_steps]);
  try (intros ? ?; simpl; by repeat case_match).
Ltac keeps_awake :=
  repeat (progress (autounfold with actor)); preserve_steps; try (apply on_ledger_awake);
  try (intros ? ?; by apply insert_awake); try (intros ? [? ?]; by repeat case_match).

Lemma receive_in_turn K id env c : preserves (in_turn K id) (receive env c).
Proof.
  intros w [H1 H2]. split.
  - revert w H1 H2. intros w H1 _. revert w H1. change (preserves awake (receive env c)). keeps_awake.
  - revert w H1 H2. intros w _ H2. revert w H2. change (preserves (recorded K id) (receive env c)). keeps_recorded.
Qed.

Lemma triple_true {T} (P : ActorStore -> Prop) (m : A T) : triple P m (fun _ _ => True) (fun _ => True).
Proof. intros w _. by destruct (m w) as [[?|?] ?]. Qed.

Lemma on_ledger_stmt {T} (P E : ActorStore -> Prop) (f : LedgerState -> T * LedgerState) Q :
  (forall s, P s -> E s) -> (forall s, P s -> Q (fst (f (ledger s))) (set_ledger (snd (f (ledger s))) s)) ->
  triple P (on_ledger (stmt f)) Q E.
Proof.
  intros HE Hf w HP. specialize (HE _ HP). specialize (Hf _ HP). unfold on_ledger, zoom, stmt, exec. simpl.
  destruct (faults w) as [|[msg|] rest]; simpl; [| |]; destruct (f (ledger (st w))); simpl in *; try done;
    by destruct (st w).
Qed.

Lemma persist_records K e :
  triple (fun s => keyed K s /\ awake s) (persist_inbound e)
    (fun _ s => (keyed K s /\ awake s) /\ recorded K (ev_id e) s) (fun _ => True).
Proof.
  unfold persist_inbound. eapply triple_bind with (R := fun a s => (keyed K s /\ awake s) /\ ctx_key (context a) = K).
  { apply triple_mem. intros s Hs. split; [done|]. apply Hs. }
  intros ac. apply triple_pure. intros Hk.
  eapply triple_bind with (R := fun _ s => (keyed K s /\ awake s) /\ has_session (storage_key K) (ledger s) = true).
  - apply on_ledger_stmt; [done|]. intros s Hs. simpl. split; [by destruct Hs as [[? ?] [? ?]]|].
    destruct (has_session (storage_key (ctx_key (context ac))) (ledger s)) eqn:E; simpl; rewrite Hk in *; [done|].
    rewrite has_session_snoc. simpl. by rewrite String.eqb_refl, orb_true_r.
  - intros u. apply triple_exec; [done|]. intros s [Hs Hh].
    match goal with |- context [insert_message ?a ?b ?c ?d ?e ?f ?g s] =>
      pose proof (insert_new a b c d e f g s) as Hn; pose proof (insert_keyed K a b c d e f g s) as Hkey;
      pose proof (insert_awake a b c d e f g s) as Ha; pose proof (insert_ledger a b c d e f g s) as Hl end.
    destruct (insert_message _ _ _ _ _ _ _ s) as [[[]|err] s']; [|done]. simpl in *. destruct Hs.
    split; [by split; [apply Hkey | apply Ha] | by split; [rewrite Hl|]].
Qed.

Notation always := (fun _ : ActorStore => True).

Lemma begin_turn_ok K env e : triple (keyed K) (begin_turn env e) (turn_ok K) always.
Proof.
  unfold begin_turn. eapply triple_bind with (R := fun _ s => keyed K s /\ awake s).
  { apply triple_mem. intros s [Hk Ht]. split; by split. }
  intros ?. eapply triple_bind with (R := fun _ s => keyed K s /\ awake s); [by apply triple_mem|]. intros ac.
  eapply triple_bind with (R := fun _ s => keyed K s /\ awake s).
  { eapply triple_weaken; [apply (triple_preserves (fun s => keyed K s /\ awake s)) | done | done | done].
    intros w [H1 H2]. split; [revert w H1 H2; intros w H1 _; revert w H1 | revert w H1 H2; intros w _ H2; revert w H2];
      match goal with |- forall w, ?I (st w) -> ?I (st (snd (?m w))) => change (preserves I m) end; [keeps_keyed | keeps_awake]. }
  intros []; [eapply triple_bind; [apply triple_true|]; intros ?; eapply triple_bind; [apply triple_true|]; intros ?; by apply triple_ret|].
  eapply triple_bind; [apply triple_attempt, persist_records|]. intros [[]|error].
  - eapply triple_bind with (R := fun a s => in_turn K (ev_id e) s /\ ctx_key (context a) = K).
    { apply triple_mem. intros s [[[Hk _] Ha] Hr]. split; [by split | done]. }
    intros ac2. apply triple_pure. intros Hk.
    eapply triple_bind with (R := fun _ => in_turn K (ev_id e)); [|intros ?; by apply triple_ret].
    eapply triple_weaken; [apply (triple_preserves (in_turn K (ev_id e))) | done | done | done].
    intros w [H1 H2]. split; [revert w H1 H2; intros w H1 _; revert w H1 | revert w H1 H2; intros w _ H2; revert w H2];
      match goal with |- forall w, ?I (st w) -> ?I (st (snd (?m w))) => change (preserves I m) end; [keeps_awake | keeps_recorded].
  - cbv zeta. do 3 (eapply triple_bind; [apply triple_true|]; intros ?). by apply triple_ret.
Qed.

(** The runner writes only its own session into its copy of the context. *)
Definition runner_ok (K : SessionKey) (i : Input) : Prop :=
  match i with IProgress c _ _ _ _ => ctx_key c = K | _ => True end.

Lemma handle_turn_ok K env c : triple (keyed K) (handle env c) (turn_ok K) always.
Proof.
  destruct c as [e|e k|r|t r| |m r|r|r]; simpl.
  - apply begin_turn_ok.
  - eapply triple_bind with (R := fun _ => keyed K).
    { eapply triple_weaken; [apply (triple_preserves (keyed K)); keeps_keyed | done..]. }
    intros ?. eapply triple_bind with (R := fun _ => keyed K); [by apply triple_mem|]. intros ?. apply begin_turn_ok.
  - do 7 (eapply triple_bind; [apply triple_true|]; intros ?). by apply triple_ret.
  - do 2 (eapply triple_bind; [apply triple_true|]; intros ?).
    assert (Hend : forall P, triple P (send r (FlagResult (Ok false)) ;;; ret Idle) (turn_ok K) always).
    { intros P. eapply triple_bind; [apply triple_true|]. intros ?. by apply triple_ret. }
    destruct (_ && _)%bool; [|apply Hend]. do 2 (eapply triple_bind; [apply triple_true|]; intros ?).
    destruct (is_ok _); [|by apply triple_ret]. unfold after_loop.
    do 4 (eapply triple_bind; [apply triple_true|]; intros ?).
    match goal with |- context [match ?x with Ok _ => _ | Err _ => _ end] => destruct x end; [by apply triple_ret|].
    eapply triple_bind; [apply triple_true|]. intros ?. by apply triple_ret.
  - eapply triple_bind; [apply triple_true|]. intros ?. by apply triple_ret.
  - do 5 (eapply triple_bind; [apply triple_true|]; intros ?). by apply triple_ret.
  - do 6 (eapply triple_bind; [apply triple_true|]; intros ?). by apply triple_ret.
  - do 2 (eapply triple_bind; [apply triple_true|]; intros ?). by apply triple_ret.
Qed.

Lemma handle_keyed K env c : preserves (keyed K) (handle env c).
Proof. destruct c; keeps_keyed. Qed.

Lemma step_keyed K i env p s m : runner_ok K i -> turn_ok K p s -> actor_step i env p s = Some m -> keyed K s ->
  triple (fun s' => s' = s) m (fun p' s' => keyed K s' /\ turn_ok K p' s') always.
Proof.
  intros Hi Hp Hm Hs.
  assert (Hboth : forall m' : A Phase, preserves (keyed K) m' -> triple (keyed K) m' (turn_ok K) always ->
            triple (keyed K) m' (fun p' s' => keyed K s' /\ turn_ok K p' s') always).
  { intros m' Hk Ht w Hw. specialize (Hk w Hw). specialize (Ht w Hw). by destruct (m' w) as [[?|?] ?]. }
  assert (Hend : forall t o w, ctx_key (t_context t) = K -> keyed K (st w) ->
            match end_turn env t o w with (Ok p', w') => keyed K (st w') /\ turn_ok K p' (st w') | _ => True end).
  { intros t o w Hk Hw. pose proof (end_keyed K env t o Hk w Hw) as H1.
    destruct (view (st w)) as [[an q] pa] eqn:Ev. pose proof (end_view an q pa env t o w Ev) as H2.
    destruct (end_turn env t o w) as [[p'|?] w']; [|done]. destruct H2 as [-> _]. done. }
  intros w Hws. subst s. destruct p as [|t|]; [| |by destruct i].
  - destruct i as [|c| |? ? ? ? ?|r]; simpl in Hm; [| | |done..]; destruct (pending_events (st w)) as [|c0 q] eqn:Eq;
      try discriminate Hm; injection Hm as <-.
    + unfold bind, mem. simpl. destruct Hs as [H1 H2].
      apply (Hboth (handle env c0)); [apply handle_keyed | apply handle_turn_ok | by split].
    + apply Hboth; [apply handle_keyed | apply handle_turn_ok | done].
    + pose proof (after_loop_view (answers (st w)) (pending_ack (actor (st w))) w) as H2.
      unfold at_view, view in H2. rewrite Eq in H2. specialize (H2 eq_refl).
      assert (Hk : preserves (keyed K) after_loop) by keeps_keyed. specialize (Hk w Hs).
      destruct (after_loop w) as [[p'|?] w']; [|done]. by destruct H2 as [-> _].
  - destruct Hp as [Hk Ht].
    destruct i as [|c| |turn_context id role content created|r]; simpl in Hm; [done| | | |]; injection Hm as <-.
    + unfold bind. pose proof (receive_keyed K env c w Hs) as H1. pose proof (receive_in_turn K _ env c w Ht) as H2.
      destruct (receive env c w) as [[[o|]|?] w1]; simpl in *; [by apply Hend | done | done].
    + unfold bind. assert (H1 : preserves (keyed K) (drain_pending SHUTTING_DOWN (now env))) by keeps_keyed. specialize (H1 w Hs).
      destruct (drain_pending _ _ w) as [[[]|?] w1]; [by apply Hend | done].
    + unfold bind, attempt, exec. destruct (faults w) as [|[msg|] rest]; simpl; [| |];
        try (by split; [|split]);
        match goal with |- context [insert_message ?a ?b ?c ?d ?e ?f ?g (st w)] =>
          pose proof (insert_keyed K a b c d e f g (st w) Hs) as H1;
          pose proof (insert_awake a b c d e f g (st w) (proj1 Ht)) as H2;
          pose proof (insert_recorded K (ev_id (t_event t)) a b c d e f g (st w) (proj2 Ht)) as H3;
          destruct (insert_message a b c d e f g (st w)) as [? s'] end; simpl in *; (split; [exact H1|]; split; [exact Hi|]; split; [exact H2 | exact H3]).
    + by apply Hend.
Qed.

Lemma reaches_turn F l t n c at_ tr s p :
  reaches F (start_actor l t n c at_) tr s p -> transcript_ok t n -> Forall (runner_ok (ctx_key c)) tr ->
  keyed (ctx_key c) s /\ turn_ok (ctx_key c) p s.
Proof.
  intros Hr Ht. induction Hr as [|tr s p i env m fl p' w' Hr IH HF Hm Hw]; intros Hrun; [done|].
  apply Forall_app in Hrun as [Hrun Hi]. apply Forall_cons in Hi as [Hi _]. destruct (IH Hrun) as [Hk Hp].
  pose proof (step_keyed _ _ _ _ _ _ Hi Hp Hm Hk (mkWorld s fl) eq_refl) as Hs. by rewrite Hw in Hs.
Qed.

(** The shutdown of a running turn, state by state. *)
Definition closing (K : SessionKey) (T : list MessageRow) (q : list Command) (P : list SessionRow -> Prop) (s : ActorStore) : Prop :=
  ctx_key (context (actor s)) = K /\ awake s /\ has_session (storage_key K) (ledger s) = true /\
  messages s = T /\ pending_events s = q /\ P (Ledger.sessions (ledger s)).

Definition marked (key : string) (l : list SessionRow) : Prop :=
  forall r, r ∈ l -> sr_key r = key -> sr_resume_pending r = true.

Lemma complete_sessions_eq X m x e at_ : preserves (fun l => Ledger.sessions l = X) (Ledger.complete julian_ms m x e at_).
Proof. unfold Ledger.complete, ensure_constituents_table. preserve_steps; by intros l Hl. Qed.

Lemma on_ledger_closing {U} K T q P (m : M LedgerState U) :
  (forall X, preserves (fun l => Ledger.sessions l = X) m) -> preserves (closing K T q P) (on_ledger m).
Proof.
  intros Hm w (H1 & H2 & H3 & H4 & H5 & H6). unfold on_ledger, zoom.
  specialize (Hm _ (mkWorld (ledger (st w)) (faults w)) eq_refl). destruct (m _) as [r w']. simpl in *.
  unfold closing, has_session in *. simpl. rewrite Hm. done.
Qed.

Ltac keeps_closing :=
  repeat (progress (autounfold with actor)); preserve_steps;
  try (apply on_ledger_closing; intros ?; unfold mark_delivered, mark_failed; apply complete_sessions_eq);
  try (intros ? (? & [? ?] & ? & ? & ? & ?); unfold closing, awake; simpl; repeat case_match; by repeat split).

Lemma drain_closing K T q P reason at_ :
  total (closing K T q P) (drain_pending reason at_) (fun _ => closing K T [] P).
Proof.
  unfold drain_pending. eapply total_bind with (R := fun _ => closing K T [] P).
  - apply total_mem. by intros s (? & [? ?] & ? & ? & ? & ?).
  - intros ?. apply steady_total; [steady_actor | keeps_closing].
Qed.

Lemma rollback_closing K T q P id :
  total (closing K T q P) (attempt (rollback_partial_history id))
    (fun _ => closing K (delete_where (after_event (storage_key K) id T) T) q P).
Proof.
  apply total_ignore. unfold rollback_partial_history.
  eapply total_bind with (R := fun a s => closing K T q P s /\ ctx_key (context a) = K).
  { apply total_mem. intros s Hs. split; [done | apply Hs]. }
  intros ac s [(H1 & [H2 H2'] & H3 & H4 & H5 & H6) Hk]. eexists _, _. split; [reflexivity|].
  split; [done|]. split; [done|]. split; [done|]. split; [|by split]. simpl. by rewrite H4, Hk.
Qed.

Lemma mark_closing K T q P :
  total (closing K T q P) (attempt (mark_session_resume_pending (storage_key K)))
    (fun _ => closing K T q (marked (storage_key K))).
Proof.
  intros s (H1 & [H2 H2'] & H3 & H4 & H5 & H6). eexists _, _. split; [reflexivity|].
  split; [done|]. split; [done|]. split; [|split; [done|split; [done|]]]; simpl.
  - unfold has_session in *. simpl. apply existsb_exists in H3 as (r & Hr & Hk). apply existsb_exists.
    exists (if of_session (storage_key K) r then set_resume true r else r). split; [by apply (in_map (fun r => if of_session (storage_key K) r then set_resume true r else r))|].
    by destruct (of_session _ r).
  - intros r (r0 & Hr0 & ->)%in_update_where Hk. unfold of_session in *. destruct (String.eqb (sr_key r0) (storage_key K)) eqn:E; [done|].
    by apply String.eqb_neq in E.
Qed.

Lemma shutdown_closing K T env t :
  total (closing K T [] (fun _ => True)) (end_turn env t Shutdown)
    (fun p s => p = Idle /\ closing K (delete_where (after_event (storage_key K) (ev_id (t_event t)) T) T) []
                              (marked (storage_key K)) s).
Proof.
  set (T' := delete_where _ T). unfold end_turn.
  eapply total_bind with (R := fun _ => closing K T [] (fun _ => True)).
  { apply steady_total; [steady_actor|]. repeat (progress (autounfold with actor)). apply preserves_mem.
    intros s (H1 & [H2 H2'] & H3). unfold closing, awake. simpl. unfold keep_binding. by destruct (_ !! _). }
  intros ?. eapply total_bind with (R := fun _ => closing K T' [] (marked (storage_key K))).
  - unfold shut_turn, interrupt_turn. eapply total_bind with (R := fun _ => closing K T' [] (fun _ => True)).
    { eapply total_bind; [apply rollback_closing|]. intros ?. apply steady_total; [steady_actor | keeps_closing]. }
    intros ?. eapply total_bind with (R := fun _ => closing K T' [] (fun _ => True)); [apply steady_total; [steady_actor | keeps_closing]|].
    intros ?. eapply total_bind with (R := fun a s => closing K T' [] (fun _ => True) s /\ ctx_key (context a) = K).
    { apply total_mem. intros s Hs. split; [done | apply Hs]. }
    intros ac s [Hs Hk]. rewrite Hk. revert s Hs. change (total (closing K T' [] (fun _ => True))
      (attempt (mark_session_resume_pending (storage_key K)) ;;; resolve_pending_ack (Err (Multiplexer SHUTTING_DOWN)))
      (fun _ => closing K T' [] (marked (storage_key K)))).
    eapply total_bind; [apply mark_closing|]. intros ?. apply steady_total; [steady_actor | keeps_closing].
  - intros ?. eapply total_bind with (R := fun _ => closing K T' [] (marked (storage_key K))); [apply steady_total; [steady_actor | keeps_closing]|].
    intros ?. by apply total_ret.
Qed.

Lemma sorted_inj {X} (f : X -> nat) (l : list X) x y :
  StronglySorted (fun a b => f a < f b) l -> x ∈ l -> y ∈ l -> f x = f y -> x = y.
Proof.
  induction 1 as [|z l Hl IH Hz]; intros Hx Hy E; [by apply elem_of_nil in Hx|].
  rewrite Forall_forall in Hz. apply elem_of_cons in Hx as [->|Hx], Hy as [->|Hy]; [done | | | by apply IH].
  - specialize (Hz y Hy). lia.
  - specialize (Hz x Hx). lia.
Qed.

Lemma head_order_by {X} (key : X -> Z) (l : list X) x : x ∈ l ->
  exists y, head (order_by key l) = Some y /\ y ∈ l /\ (key y <= key x)%Z.
Proof.
  intros Hx. pose proof (order_by_sorted key l) as Hs. pose proof (proj2 (in_order_by key l x) Hx) as Hx'.
  destruct (order_by key l) as [|y rest] eqn:E; [by apply elem_of_nil in Hx'|]. exists y. split; [done|].
  split; [apply (in_order_by key); rewrite E; left|].
  apply elem_of_cons in Hx' as [->|Hx']; [done|]. inversion Hs as [|? ? ? Hf]. rewrite Forall_forall in Hf. by apply Hf.
Qed.

(** After the rollback the event's own message is the last of its session. *)
Lemma last_after_rollback key T n u :
  transcript_ok T n -> u ∈ T -> m_session_key u = key ->
  last_message key (delete_where (after_event key (m_id u) T) T) = Some u.
Proof.
  intros (Hid & Hsort & _) Hu Hkey. unfold last_message.
  assert (Hhead : head (select (fun x => String.eqb (m_id x) (m_id u) && String.eqb (m_session_key x) key) T) = Some u).
  { destruct (head _) as [x|] eqn:E.
    - apply head_select in E as [Hx [Hx1%String.eqb_eq _]%andb_true_iff]. f_equal. by apply (NoDup_key_eq m_id T).
    - assert (Hsel : u ∈ select (fun x => String.eqb (m_id x) (m_id u) && String.eqb (m_session_key x) key) T)
        by (apply in_select; split; [done|]; by rewrite Hkey, !String.eqb_refl).
      destruct (select _ T); [by apply elem_of_nil in Hsel | done]. }
  assert (Hmem : u ∈ select (fun r => String.eqb (m_session_key r) key) (delete_where (after_event key (m_id u) T) T)).
  { apply in_select. split; [|by apply String.eqb_eq]. apply in_delete_where. split; [done|]. unfold after_event.
    rewrite Hhead. rewrite (proj2 (Nat.ltb_ge _ _)) by lia. apply andb_false_r. }
  destruct (head_order_by (fun r => - Z.of_nat (m_sequence r))%Z _ u Hmem) as (y & -> & Hy & Hle). f_equal.
  apply in_select in Hy as [[Hy Ha]%in_delete_where Hk]. unfold after_event in Ha. rewrite Hhead, Hk in Ha. simpl in Ha.
  apply Nat.ltb_ge in Ha. apply (sorted_inj m_sequence T); [done..|]. lia.
Qed.

Definition resumable (key : string) (T : list MessageRow) (s : ActorStore) : Prop :=
  messages s = T /\ has_session key (ledger s) = true /\ marked key (Ledger.sessions (ledger s)) /\
  forall r, r ∈ Ledger.sessions (ledger s) -> sr_key r = key ->
    suspended (default default_state (state_of_value (sr_state_json r))) = false.

Lemma closed_resumable K T :
  total (closing K T [] (marked (storage_key K))) after_loop (fun p s => p = Gone /\ resumable (storage_key K) T s).
Proof.
  intros s (Hk & [Hd Hsu] & Hh & Hm & Hq & Hma). unfold after_loop, the_actor.
  rewrite bind_mem. simpl. rewrite bind_mem. simpl. rewrite Hq, bind_ret.
  destruct (flush_clean s) as (s' & E & Ha & Hm' & _ & Hs). rewrite Hk in Hs. specialize (Hs Hh).
  assert (Ef : flush_if_dirty (mkWorld s []) = (Ok tt, mkWorld (set_actor (fun a => with_cleared false (with_dirty false a)) s') [])).
  { unfold flush_if_dirty, the_actor. rewrite bind_mem. simpl. rewrite Hd. by rewrite (bind_value _ _ _ _ _ E). }
  unfold bind at 1, attempt. rewrite Ef. eexists _, _. split; [reflexivity|]. split; [done|].
  split; [by simpl; rewrite Hm', Hm|]. split; [|split]; simpl; rewrite ?Hs.
  - unfold has_session in *. rewrite Hs. apply existsb_exists in Hh as (r & Hr & Hrk). apply existsb_exists.
    eexists. split; [by apply in_map|]. simpl. by destruct (of_session _ r).
  - intros r (r0 & Hr0 & ->)%in_update_where Hrk. specialize (Hma r0 Hr0). destruct (of_session _ r0); by apply Hma.
  - intros r (r0 & Hr0 & ->)%in_update_where Hrk. destruct (of_session _ r0) eqn:Eo; simpl in *.
    + rewrite flushed_state. simpl. by rewrite merged_suspended.
    + unfold of_session in Eo. by rewrite Hrk, String.eqb_refl in Eo.
Qed.

Section Interrupted.
Context (parse_uuid : string -> option string) (new_uuid : string)
  (parse_attachments : string -> option (list MessageAttachment)) (deferred : string -> bool).
Notation resumed_event := (resumed_event parse_uuid new_uuid parse_attachments).
Notation recover_session := (recover_session parse_uuid new_uuid parse_attachments).
Notation fetch_resume_pending_session_keys := (fetch_resume_pending_session_keys deferred).

(** Recovery finds the turn of a resumable session. *)
Lemma recover_finds K T u at_ s :
  resumable (storage_key K) T s -> last_message (storage_key K) T = Some u -> m_role u = "user" ->
  exists delivery s', run (recover_session K at_) s = (Ok (Redispatched (resumed_event K u delivery)), s').
Proof.
  intros (Hm & Hh & Hma & Hsu) Hl Hrole.
  unfold has_session in Hh. apply existsb_exists in Hh as (r & Hr%list_elem_of_In & Hk).
  assert (Hsusp : (match stored_state (storage_key K) (ledger s) with
      | Some v => suspended (default default_state (state_of_value v)) | None => false end) = false).
  { unfold stored_state. destruct (head _) as [x|] eqn:E; simpl; [|done].
    apply head_select in E as [Hx Hxk%String.eqb_eq]. by apply Hsu. }
  assert (Hcl : negb (count (fun x => of_session (storage_key K) x && sr_resume_pending x) (Ledger.sessions (ledger s)) =? 0)%nat = true).
  { apply negb_true_iff, Nat.eqb_neq. intros Hc. rewrite count_zero in Hc. specialize (Hc r Hr). unfold of_session in Hc.
    rewrite Hk in Hc. by rewrite Hma in Hc by (done || by apply String.eqb_eq). }
  eexists _, _. apply run_intro. unfold recover_session, is_session_suspended, clear_session_resume_pending, on_ledger, zoom, bind.
  simpl. rewrite Hcl. simpl. rewrite Hsusp. unfold find_last_unfinished_user_turn, query, stmt, exec. simpl.
  rewrite Hm, Hl, Hrole. simpl. unfold latest_delivery, on_ledger, zoom, attempt, bind, query, stmt, exec. simpl. reflexivity.
Qed.

Lemma fetch_finds K T s :
  resumable (storage_key K) T s -> key_ok K -> deferred (storage_key K) = false ->
  exists keys, run fetch_resume_pending_session_keys s = (Ok keys, s) /\ K ∈ keys.
Proof.
  intros (_ & Hh & Hma & _) Hok Hd. unfold has_session in Hh. apply existsb_exists in Hh as (r & Hr%list_elem_of_In & Hk%String.eqb_eq).
  eexists. split; [apply run_intro; unfold fetch_resume_pending_session_keys, on_ledger, zoom, query, stmt, exec; simpl; by destruct s|].
  apply list_elem_of_fmap. exists r. split.
  - unfold row_key. by rewrite Hk, parse_print_key.
  - apply in_select. split; [done|]. rewrite Hk, Hd. by rewrite Hma.
Qed.

End Interrupted.
End Actor.

(** ** Witnesses *)

#[local] Instance plain_libs : EventLibs :=
  {| timestamp_prefix := fun _ => None; format_date := fun _ => "date"; env_timestamps := None |}.

#[local] Existing Instance floor_sqlite.

Definition demo_env : Env := mkEnv 5 true (Ok tt).
Definition demo_context : SessionContext :=
  mkSessionContext (mkSessionKey "discord" None "c1" None "u1" (Some "bot"))
    (with_metadata {["omo_thread_id" := JString "old"]} default_state) 0 0.
Definition demo_message (id m : string) : InboundEvent := Events.mkEvent id (ctx_key demo_context) m (Some m) "hi" [] 1.
Definition demo_db : LedgerState :=
  mkLedger [mkSessionRow (storage_key (ctx_key demo_context)) (ctx_key demo_context) (state_value default_state) false]
    [fresh_delivery "d1" (storage_key (ctx_key demo_context)) "m1" "m1" 0] [] [] [].
Definition demo_start : ActorStore := start_actor demo_db [] 0 demo_context 0.
Definition demo_json : list MessageAttachment -> string := fun _ => "[]".
Definition demo_step i p s := actor_step plain_ms true demo_json i demo_env p s.

(** A run of clean steps. *)
Fixpoint play (tr : list Input) (s : ActorStore) (p : Phase) : option (ActorStore * Phase) :=
  match tr with
  | [] => Some (s, p)
  | i :: rest =>
      match demo_step i p s with
      | Some m => match run m s with (Ok p', s') => play rest s' p' | _ => None end
      | None => None
      end
  end.

Lemma play_reaches tr tr0 s0 s p s' p' :
  reaches plain_ms true demo_json (eq []) s0 tr0 s p -> play tr s p = Some (s', p') ->
  reaches plain_ms true demo_json (eq []) s0 (tr0 ++ tr)%list s' p'.
Proof.
  revert tr0 s p. induction tr as [|i tr IH]; intros tr0 s p Hr Hp; simpl in Hp.
  - simplify_eq. by rewrite app_nil_r.
  - destruct (demo_step i p s) as [m|] eqn:Em; [|done]. unfold run in Hp.
    destruct (m (mkWorld s [])) as [[p1|?] w] eqn:Ew; [|done].
    replace (tr0 ++ i :: tr)%list with ((tr0 ++ [i]) ++ tr)%list by by rewrite <- app_assoc.
    eapply IH; [by econstructor | exact Hp].
Qed.

(** A reset while a turn runs answers [Ok], but the end of the turn restores
    the binding from the runner's copy. *)
Lemma reset_in_turn_keeps_binding :
  match play [IReceive (Event (demo_message "e1" "m1")); IReceive (Reset 7)] demo_start Idle with
  | Some (s, Idle) => metadata (ctx_state (context (actor s))) !! "omo_thread_id" = Some (JString "old")
                      /\ answers s = [(7, AckResult (Ok tt))]
  | _ => False
  end.
Proof. vm_compute. split; reflexivity. Qed.

(** A model set while a turn runs is answered [Ok] and lost when the turn succeeds. *)
Lemma model_set_in_turn_lost :
  match play [IReceive (Event (demo_message "e1" "m1")); IReceive (SetModel "gpt" 7); IResult (Ok tt)] demo_start Idle with
  | Some (s, Idle) => active_model (ctx_state (context (actor s))) = None /\ answers s = [(7, AckResult (Ok tt))]
  | _ => False
  end.
Proof. vm_compute. split; reflexivity. Qed.

Definition demo_trace : list Input :=
  [IReceive (EventWithAck (demo_message "e1" "m1") 1); IReceive (EventWithAck (demo_message "e2" "m2") 2);
   IReceive (GetContext 3); IReceive (Stop 4)].

Definition demo_end : ActorStore := default demo_start (fst <$> play demo_trace demo_start Idle).

Lemma demo_reaches : reaches plain_ms true demo_json (eq []) demo_start demo_trace demo_end Idle.
Proof. apply (play_reaches demo_trace [] demo_start demo_start Idle); [constructor | vm_compute; reflexivity]. Qed.

Lemma every_command_answered_once_witness : map fst (answers demo_end) ≡ₚ channels demo_trace.
Proof.
  destruct (every_command_answered_once plain_ms true demo_json (eq []) demo_db [] 0 demo_context 0 _ _ _ demo_reaches) as [Ho _].
  vm_compute in Ho. exact Ho.
Defined.

Lemma every_delivery_closed_witness : closed "m1" demo_end.
Proof.
  destruct (every_delivery_closed plain_ms true demo_json demo_db [] 0 demo_context 0 _ _ _ "m1" demo_reaches) as [Hc _];
    [vm_compute; left|].
  destruct Hc as [Hc|[(c & Hc & _)|(t & Ht & _)]]; [exact Hc | vm_compute in Hc; by apply elem_of_nil in Hc | done].
Defined.

Lemma binding_kept_until_reset_witness :
  exists s', run (handle plain_ms true demo_json demo_env (Reset 9)) demo_start = (Ok Idle, s') /\
    stored_as (storage_key (ctx_key demo_context)) default_state s'.
Proof.
  refine (proj2 (binding_kept_until_reset plain_ms true demo_json demo_start
    (mkSessionRow (storage_key (ctx_key demo_context)) (ctx_key demo_context) (state_value default_state) false) demo_env 9 _ eq_refl)).
  left.
Defined.

Definition demo_turn : Turn := mkTurn (demo_message "e1" "m1")
  (mkSessionContext (ctx_key demo_context) (ctx_state demo_context) 0 5).
Definition demo_running : ActorStore := default demo_start (fst <$> play [IReceive (Event (demo_message "e1" "m1"))] demo_start Idle).

