(* ===== verification/Approval.v ===== *)
(** * Command approvals ([src/discord/approval.rs])

    The guard that remembers grants and holds the pending requests, the buttons
    and their custom ids, and the requester of one approval with its delivery
    task.  A lock is held for one operation, so an operation of the guard is
    one step; requesters, their delivery tasks and the callers of the guard
    interleave between operations.  A UUID is a number not handed out before;
    the display redaction and the pattern key are fields of a request. *)
From stdpp Require Import base list strings gmap.
From Stdlib Require Import ZArith NArith Lia Ascii String.
From S2P Require Import Prelude RustStr Json Db Session.
Open Scope string_scope.
Local Notation length := Datatypes.length.

Inductive ApprovalDecision : Type :=
| Once
| SessionWide
| Always
| Deny (reason : option string).

Definition is_approved_decision (d : ApprovalDecision) : bool :=
  match d with Deny _ => false | _ => true end.

Inductive ApprovalError : Type :=
| Timeout
| Cancelled
| Persistence (m : string).

Inductive ApprovalScope : Type := ScopeOnce | ScopeSession | ScopeAlways.

#[export] Instance ApprovalDecision_eq_dec : EqDecision ApprovalDecision.
Proof. solve_decision. Defined.
#[export] Instance ApprovalError_eq_dec : EqDecision ApprovalError.
Proof. solve_decision. Defined.
#[export] Instance ApprovalScope_eq_dec : EqDecision ApprovalScope.
Proof. solve_decision. Defined.

(** [ApprovalScope::cap]. *)
Definition cap (s : ApprovalScope) (d : ApprovalDecision) : ApprovalDecision :=
  match s, d with
  | ScopeOnce, SessionWide | ScopeOnce, Always => Once
  | ScopeSession, Always => SessionWide
  | _, d => d
  end.

(** [PendingApprovalEntry], with the request id it is stored under. *)
Record Entry : Type := mkEntry { e_id : N; e_session : option SessionKey; e_created_at : Z }.

(** [SmartApprovalGuard], the rows of [approval_allowlist] and, by channel,
    what was sent ([sent]) and whose receiver is alive ([listening]). *)
Record Guard : Type := mkGuard {
  pending : list Entry;
  session_cache : gmap SessionKey (gset string);
  yolo_sessions : gset string;
  always_cache : gset string;
  has_pool : bool;
  allowlist : gset string;
  sent : gmap N ApprovalDecision;
  listening : gset N;
  next_id : N
}.

Definition set_pending (l : list Entry) (g : Guard) :=
  mkGuard l (session_cache g) (yolo_sessions g) (always_cache g) (has_pool g) (allowlist g) (sent g) (listening g) (next_id g).
Definition set_session_cache (m : gmap SessionKey (gset string)) (g : Guard) :=
  mkGuard (pending g) m (yolo_sessions g) (always_cache g) (has_pool g) (allowlist g) (sent g) (listening g) (next_id g).
Definition set_yolo_sessions (s : gset string) (g : Guard) :=
  mkGuard (pending g) (session_cache g) s (always_cache g) (has_pool g) (allowlist g) (sent g) (listening g) (next_id g).
Definition set_always (s : gset string) (g : Guard) :=
  mkGuard (pending g) (session_cache g) (yolo_sessions g) s (has_pool g) (allowlist g) (sent g) (listening g) (next_id g).
Definition set_allowlist (s : gset string) (g : Guard) :=
  mkGuard (pending g) (session_cache g) (yolo_sessions g) (always_cache g) (has_pool g) s (sent g) (listening g) (next_id g).
Definition set_sent (m : gmap N ApprovalDecision) (g : Guard) :=
  mkGuard (pending g) (session_cache g) (yolo_sessions g) (always_cache g) (has_pool g) (allowlist g) m (listening g) (next_id g).
Definition set_listening (s : gset N) (g : Guard) :=
  mkGuard (pending g) (session_cache g) (yolo_sessions g) (always_cache g) (has_pool g) (allowlist g) (sent g) s (next_id g).

(** ** Grants *)

Definition MAX_SESSIONS : nat := 512.
Definition MAX_PATTERNS_PER_SESSION : nat := 128.

Definition cached_for (g : Guard) (s : SessionKey) (key : string) : bool :=
  match session_cache g !! s with Some keys => bool_decide (key ∈ keys) | None => false end.

Definition is_yolo (g : Guard) (s : SessionKey) : bool := bool_decide (storage_key s ∈ yolo_sessions g).

(** The first entry of a hash set or map in its iteration order, which is
    unspecified: arguments. *)
Section Victims.
Context (victim : gset string -> option string) (session_victim : gmap SessionKey (gset string) -> option SessionKey).

(** The eviction loops; the fuel is the size, which each turn decreases. *)
Fixpoint shrink_patterns (fuel : nat) (keys : gset string) : gset string :=
  match fuel with
  | O => keys
  | S f =>
      if (MAX_PATTERNS_PER_SESSION <? size keys)%nat
      then match victim keys with Some v => shrink_patterns f (keys ∖ {[v]}) | None => keys end
      else keys
  end.

Fixpoint shrink_sessions (fuel : nat) (m : gmap SessionKey (gset string)) : gmap SessionKey (gset string) :=
  match fuel with
  | O => m
  | S f =>
      if (MAX_SESSIONS <? size m)%nat
      then match session_victim m with Some v => shrink_sessions f (delete v m) | None => m end
      else m
  end.

Definition approve_session (s : SessionKey) (key : string) (g : Guard) : Guard :=
  let keys := {[key]} ∪ default ∅ (session_cache g !! s) in
  let m := <[s := shrink_patterns (size keys) keys]> (session_cache g) in
  set_session_cache (shrink_sessions (size m) m) g.
End Victims.

(** [approve_always] up to the row, and the publication after it. *)
Definition persist_always (key : string) (fault : option string) (g : Guard) : result unit string * Guard :=
  if has_pool g then
    match fault with
    | Some m => (Err m, g)
    | None => (Ok tt, set_allowlist ({[key]} ∪ allowlist g) g)
    end
  else (Ok tt, g).
Definition publish_always (key : string) (g : Guard) : Guard := set_always ({[key]} ∪ always_cache g) g.

Definition load_persisted_allowlist (g : Guard) : Guard :=
  if has_pool g then set_always (allowlist g ∪ always_cache g) g else g.

(** The rows read before the first that does not decode. *)
Fixpoint load_yolo (rows : list (string * option SessionState)) (yolo : gset string) : gset string * bool :=
  match rows with
  | [] => (yolo, true)
  | (key, Some st) :: rest => load_yolo rest (if Session.yolo st then {[key]} ∪ yolo else yolo)
  | (_, None) :: _ => (yolo, false)
  end.
Definition load_persisted_yolo (rows : list (string * option SessionState)) (g : Guard) : Guard :=
  if has_pool g then set_yolo_sessions (fst (load_yolo rows (yolo_sessions g))) g else g.

Definition set_yolo (s : SessionKey) (enabled : bool) (g : Guard) : Guard :=
  set_yolo_sessions (if enabled then {[storage_key s]} ∪ yolo_sessions g else yolo_sessions g ∖ {[storage_key s]}) g.

(** ** Pending requests *)

Definition has_entry (id : N) (e : Entry) : bool := (e_id e =? id)%N.
Definition of_lane (s : SessionKey) (e : Entry) : bool := bool_decide (e_session e = Some s).

(** [clear_session] takes three locks in turn. *)
Inductive ClearPart : Type := PPending | PCache | PYolo.
Definition clear_part (s : SessionKey) (part : ClearPart) (g : Guard) : Guard :=
  match part with
  | PPending => set_pending (delete_where (of_lane s) (pending g)) g
  | PCache => set_session_cache (delete s (session_cache g)) g
  | PYolo => set_yolo_sessions (yolo_sessions g ∖ {[storage_key s]}) g
  end.
Definition clear_session (s : SessionKey) (g : Guard) : Guard :=
  fold_left (fun g part => clear_part s part g) [PPending; PCache; PYolo] g.

(** [request_with_session]: the new id. *)
Definition register (s : option SessionKey) (at_ : Z) (g : Guard) : N * Guard :=
  (next_id g,
   mkGuard (pending g ++ [mkEntry (next_id g) s at_])%list (session_cache g) (yolo_sessions g) (always_cache g)
     (has_pool g) (allowlist g) (sent g) ({[next_id g]} ∪ listening g) (next_id g + 1)).

(** [sender.send(decision).is_ok()]: the receiver is alive. *)
Definition deliver (id : N) (d : ApprovalDecision) (g : Guard) : bool * Guard :=
  if bool_decide (id ∈ listening g) then (true, set_sent (<[id := d]> (sent g)) g) else (false, g).

(** Removing the entry and sending on its channel. *)
Definition resolve (id : N) (d : ApprovalDecision) (g : Guard) : bool * Guard :=
  if existsb (has_entry id) (pending g)
  then deliver id d (set_pending (delete_where (has_entry id) (pending g)) g)
  else (false, g).

Definition resolve_session_deny (s : SessionKey) (reason : option string) (g : Guard) : bool * Guard :=
  match head (order_by e_created_at (select (of_lane s) (pending g))) with
  | Some e => resolve (e_id e) (Deny reason) g
  | None => (false, g)
  end.

Definition cancel (id : N) (g : Guard) : Guard := set_pending (delete_where (has_entry id) (pending g)) g.

(** ** Buttons *)

Class UuidLib : Type := {
  uuid_text : N -> string;
  parse_uuid : string -> option N
}.

Section Buttons.
Context `{UuidLib}.

Definition custom_id (id : N) (action : string) : string := "omon:approval:" ++ uuid_text id ++ ":" ++ action.

(** The custom ids of [approval_buttons], in order. *)
Definition approval_buttons (id : N) : list string := map (custom_id id) ["once"; "session"; "always"; "deny"].

Definition decision_of (action : string) : option ApprovalDecision :=
  if existsb (String.eqb action) ["once"; "approve"] then Some Once
  else if String.eqb action "session" then Some SessionWide
  else if String.eqb action "always" then Some Always
  else if existsb (String.eqb action) ["deny"; "reject"] then Some (Deny None)
  else None.

Definition parse_custom_id (s : string) : option (N * ApprovalDecision) :=
  match split_char ":" s with
  | "omon" :: "approval" :: id :: action :: rest =>
      request_id ← parse_uuid id;
      decision ← decision_of action;
      match rest with [] => Some (request_id, decision) | _ => None end
  | _ => None
  end.

Definition resolve_custom_id (s : string) (g : Guard) : bool * Guard :=
  match parse_custom_id s with Some (id, d) => resolve id d g | None => (false, g) end.
End Buttons.

(** ** A request: the steps of [request_with_scope] and of its delivery task *)

Record Request : Type := mkRequest {
  r_session : SessionKey;
  r_command : string;
  r_reason : string;
  r_key : string;
  r_scope : ApprovalScope;
  r_displays : bool
}.

(** Where the requester is.  [QExpired] is past its last look at the channel
    but still holds the receiver; [QLeaving] is a dropped caller that has
    dropped the receiver and not yet the lease. *)
Inductive pc : Type :=
| QYolo
| QAlways
| QSession
| QDispatcher
| QRegister
| QDelivering (id : N)
| QWaiting (id : N)
| QExpired (id : N)
| QDropLease (id : N) (res : result ApprovalDecision ApprovalError)
| QRecord (id : N) (d : ApprovalDecision)
| QPublish (id : N)
| QEnd (id : N) (res : result ApprovalDecision ApprovalError)
| QDone (res : result ApprovalDecision ApprovalError)
| QLeaving (id : N)
| QGone.

#[export] Instance pc_eq_dec : EqDecision pc.
Proof. solve_decision. Defined.

(** The delivery task: dispatching the prompt, awaiting the terminal signal
    with the dispatch's success, the expiry dispatched. *)
Inductive delivery : Type :=
| DNone
| DSending (id : N)
| DAwait (id : N) (success : bool)
| DDone (id : N).

Record Task : Type := mkTask { t_req : Request; t_pc : pc; t_delivery : delivery }.

Definition at_pc (p : pc) (x : Task) : Task := mkTask (t_req x) p (t_delivery x).
Definition prompt_of (x : Task) : option N :=
  match t_delivery x with DNone => None | DSending id | DAwait id _ | DDone id => Some id end.

Definition unlisten (id : N) (g : Guard) : Guard := set_listening (listening g ∖ {[id]}) g.

(** The terminal sender is dropped. *)
Definition terminal_dropped (p : pc) : bool :=
  match p with QEnd _ _ | QDone _ | QGone => true | _ => false end.

Section Requester.
Context (victim : gset string -> option string) (session_victim : gmap SessionKey (gset string) -> option SessionKey).

(** The requester's next step, [None] while it has to wait. *)
Definition own (disp : bool) (now : Z) (fault : option string) (x : Task) (g : Guard) : option (Task * Guard) :=
  let r := t_req x in
  let go p := Some (at_pc p x, g) in
  match t_pc x with
  | QYolo =>
      go (if is_yolo g (r_session r) then QDone (Ok Once)
          else match r_scope r with
               | ScopeOnce => QDispatcher
               | ScopeSession => QSession
               | ScopeAlways => QAlways
               end)
  | QAlways => go (if bool_decide (r_key r ∈ always_cache g) then QDone (Ok SessionWide) else QSession)
  | QSession => go (if cached_for g (r_session r) (r_key r) then QDone (Ok SessionWide) else QDispatcher)
  | QDispatcher => go (if disp && r_displays r then QRegister else QDone (Err Cancelled))
  | QRegister =>
      let '(id, g') := register (Some (r_session r)) now g in
      Some (mkTask r (QDelivering id) (DSending id), g')
  | QDelivering id =>
      match t_delivery x with
      | DAwait _ true => go (QWaiting id)
      | DAwait _ false => Some (at_pc (QDropLease id (Err Cancelled)) x, unlisten id g)
      | _ => None
      end
  | QWaiting id =>
      match sent g !! id with
      | Some d => Some (at_pc (QDropLease id (Ok d)) x, unlisten id g)
      | None =>
          if existsb (has_entry id) (pending g) then None
          else Some (at_pc (QDropLease id (Err Cancelled)) x, unlisten id g)
      end
  | QExpired id => Some (at_pc (QDropLease id (Err Timeout)) x, unlisten id g)
  | QDropLease id (Ok d) => Some (at_pc (QRecord id (cap (r_scope r) d)) x, cancel id g)
  | QDropLease id (Err e) => Some (at_pc (QEnd id (Err e)) x, cancel id g)
  | QRecord id SessionWide =>
      Some (at_pc (QEnd id (Ok SessionWide)) x,
            approve_session victim session_victim (r_session r) (r_key r) g)
  | QRecord id Always =>
      match persist_always (r_key r) fault g with
      | (Ok _, g') => Some (at_pc (QPublish id) x, g')
      | (Err m, g') => Some (at_pc (QDone (Err (Persistence m))) x, g')
      end
  | QRecord id d => go (QEnd id (Ok d))
  | QPublish id => Some (at_pc (QEnd id (Ok Always)) x, publish_always (r_key r) g)
  | QEnd _ res => match t_delivery x with DDone _ => go (QDone res) | _ => None end
  | QLeaving id => Some (at_pc QGone x, cancel id g)
  | QDone _ | QGone => None
  end.

(** The deadline of [wait], polled after the channel. *)
Definition expire (x : Task) (g : Guard) : option Task :=
  match t_pc x with
  | QWaiting id => match sent g !! id with Some _ => None | None => Some (at_pc (QExpired id) x) end
  | _ => None
  end.

(** Dropping the caller where the requester awaits. *)
Definition abandon (x : Task) (g : Guard) : option (Task * Guard) :=
  match t_pc x with
  | QYolo | QAlways | QSession | QDispatcher | QRecord _ _ | QPublish _ | QEnd _ _ => Some (at_pc QGone x, g)
  | QDelivering id | QWaiting id => Some (at_pc (QLeaving id) x, unlisten id g)
  | _ => None
  end.

Definition show (ok : bool) (x : Task) : option Task :=
  match t_delivery x with
  | DSending id => Some (mkTask (t_req x) (t_pc x) (DAwait id ok))
  | _ => None
  end.

Definition withdraw (x : Task) : option Task :=
  match t_delivery x with
  | DAwait id _ => if terminal_dropped (t_pc x) then Some (mkTask (t_req x) (t_pc x) (DDone id)) else None
  | _ => None
  end.
End Requester.

(** ** The system: the guard, its requesters and its other callers *)

Record Sys : Type := mkSys { guard : Guard; dispatcher : bool; tasks : list Task }.

Inductive Label : Type :=
| LCall (r : Request)
| LOwn (i : nat) (now : Z) (fault : option string)
| LExpire (i : nat)
| LAbandon (i : nat)
| LShow (i : nat) (ok : bool)
| LWithdraw (i : nat)
| LDispatcher
| LPress (custom : string)
| LDeny (s : SessionKey) (reason : option string)
| LCancel (id : N)
| LClear (s : SessionKey) (part : ClearPart)
| LYolo (s : SessionKey) (enabled : bool)
| LLoadYolo (rows : list (string * option SessionState))
| LLoadAllowlist.

Section System.
Context `{UuidLib}.
Context (victim : gset string -> option string) (session_victim : gmap SessionKey (gset string) -> option SessionKey).

Definition with_task (s : Sys) (i : nat) (f : Task -> option (Task * Guard)) : option Sys :=
  x ← tasks s !! i;
  '(x', g') ← f x;
  Some (mkSys g' (dispatcher s) (<[i := x']> (tasks s))).
Definition on_guard (s : Sys) (f : Guard -> Guard) : option Sys := Some (mkSys (f (guard s)) (dispatcher s) (tasks s)).

Definition step (l : Label) (s : Sys) : option Sys :=
  let keep (f : Task -> option Task) x := x' ← f x; Some (x', guard s) in
  match l with
  | LCall r => Some (mkSys (guard s) (dispatcher s) (tasks s ++ [mkTask r QYolo DNone])%list)
  | LOwn i now fault =>
      with_task s i (fun x => own victim session_victim (dispatcher s) now fault x (guard s))
  | LExpire i => with_task s i (keep (fun x => expire x (guard s)))
  | LAbandon i => with_task s i (fun x => abandon x (guard s))
  | LShow i ok => with_task s i (keep (show ok))
  | LWithdraw i => with_task s i (keep withdraw)
  | LDispatcher => Some (mkSys (guard s) true (tasks s))
  | LPress c => on_guard s (fun g => snd (resolve_custom_id c g))
  | LDeny k reason => on_guard s (fun g => snd (resolve_session_deny k reason g))
  | LCancel id => on_guard s (cancel id)
  | LClear k part => on_guard s (clear_part k part)
  | LYolo k enabled => on_guard s (set_yolo k enabled)
  | LLoadYolo rows => on_guard s (load_persisted_yolo rows)
  | LLoadAllowlist => on_guard s load_persisted_allowlist
  end.

Fixpoint run (tr : list Label) (s : Sys) : option Sys :=
  match tr with
  | [] => Some s
  | l :: rest => s' ← step l s; run rest s'
  end.
End System.

(** Inverting a step of one task, and one that leaves the guard alone. *)
Ltac task_step Hst x x' g' Hi Ho :=
  cbn [step] in Hst; unfold with_task in Hst; apply bind_Some in Hst as (x & Hi & Hst);
  apply bind_Some in Hst as ([x' g'] & Ho & [= <-]).
Ltac kept_step Hst x x' g' Hi Ho :=
  task_step Hst x x' g' Hi Ho; apply bind_Some in Ho as (? & Ho & [= -> <-]).

(** ** What a grant may rest on *)

Section Origins.
Context `{UuidLib}.

Definition pressed (tr : list Label) (id : N) (d : ApprovalDecision) : Prop :=
  exists c, LPress c ∈ tr /\ parse_custom_id c = Some (id, d).

(** How far a decision grants, how far a scope lets it, and a decision kept
    within a scope. *)
Definition grants (d : ApprovalDecision) : nat :=
  match d with Deny _ => 0 | Once => 1 | SessionWide => 2 | Always => 3 end.
Definition reach (sc : ApprovalScope) : nat :=
  match sc with ScopeOnce => 1 | ScopeSession => 2 | ScopeAlways => 3 end.
Definition capped (sc : ApprovalScope) (d' d : ApprovalDecision) : Prop := grants d = Nat.min (grants d') (reach sc).

(** A request of the system whose own prompt was answered with [d']. *)
Definition consent (s : Sys) (tr : list Label) (P : Request -> Prop) (d : ApprovalDecision) : Prop :=
  exists x id d', x ∈ tasks s /\ prompt_of x = Some id /\ P (t_req x) /\ pressed tr id d' /\
    capped (r_scope (t_req x)) d' d.

Definition always_origin (s0 s : Sys) (tr : list Label) (key : string) : Prop :=
  key ∈ always_cache (guard s0) \/ key ∈ allowlist (guard s0) \/
  consent s tr (fun r => r_key r = key) Always.

Definition session_origin (s0 s : Sys) (tr : list Label) (k : SessionKey) (key : string) : Prop :=
  cached_for (guard s0) k key = true \/
  consent s tr (fun r => r_key r = key /\ r_session r = k) SessionWide.

Definition yolo_origin (s0 : Sys) (tr : list Label) (key : string) : Prop :=
  key ∈ yolo_sessions (guard s0) \/
  (exists k, LYolo k true ∈ tr /\ storage_key k = key) \/
  (exists rows st, LLoadYolo rows ∈ tr /\ (key, Some st) ∈ rows /\ Session.yolo st = true).

(** Why a request may have been approved with [d]. *)
Definition justified (s0 s : Sys) (tr : list Label) (x : Task) (d : ApprovalDecision) : Prop :=
  (exists id d', prompt_of x = Some id /\ pressed tr id d' /\ capped (r_scope (t_req x)) d' d) \/
  (d = Once /\ yolo_origin s0 tr (storage_key (r_session (t_req x)))) \/
  (d = SessionWide /\
    (r_scope (t_req x) <> ScopeOnce /\ session_origin s0 s tr (r_session (t_req x)) (r_key (t_req x)) \/
     r_scope (t_req x) = ScopeAlways /\ always_origin s0 s tr (r_key (t_req x)))).

Definition fresh (s : Sys) : Prop :=
  tasks s = [] /\ pending (guard s) = [] /\ sent (guard s) = ∅ /\ listening (guard s) = ∅.

Definition pc_id (p : pc) : option N :=
  match p with
  | QDelivering id | QWaiting id | QExpired id | QDropLease id _ | QRecord id _ | QPublish id
  | QEnd id _ | QLeaving id => Some id
  | _ => None
  end.

Definition early (p : pc) : bool :=
  match p with QYolo | QAlways | QSession | QDispatcher | QRegister => true | _ => false end.

(** What the requester's place says. *)
Definition task_ok (s0 s : Sys) (tr : list Label) (x : Task) : Prop :=
  (forall id, pc_id (t_pc x) = Some id -> prompt_of x = Some id) /\
  (early (t_pc x) = true -> prompt_of x = None) /\
  match t_pc x with
  | QAlways => r_scope (t_req x) = ScopeAlways
  | QSession => r_scope (t_req x) <> ScopeOnce
  | QDropLease id (Ok d) => is_approved_decision d = true -> pressed tr id d
  | QRecord id d =>
      is_approved_decision d = true -> exists d', pressed tr id d' /\ d = cap (r_scope (t_req x)) d'
  | QPublish id =>
      (exists d', pressed tr id d' /\ Always = cap (r_scope (t_req x)) d') /\
      (has_pool (guard s) = true -> r_key (t_req x) ∈ allowlist (guard s))
  | QEnd _ (Ok d) | QDone (Ok d) => is_approved_decision d = true -> justified s0 s tr x d
  | _ => True
  end.

(** One state after another: nothing a later claim rests on is forgotten. *)
Definition extends (s s' : Sys) : Prop :=
  (has_pool (guard s') = has_pool (guard s)) /\ allowlist (guard s) ⊆ allowlist (guard s') /\
  forall x, x ∈ tasks s -> exists x', x' ∈ tasks s' /\ t_req x' = t_req x /\
    forall id, prompt_of x = Some id -> prompt_of x' = Some id.

Lemma pressed_mono tr tr' id d : pressed tr id d -> pressed (tr ++ tr') id d.
Proof. intros (c & Hc & Hp). exists c. split; [|done]. apply elem_of_app. by left. Qed.

Lemma consent_mono s s' tr tr' P d : extends s s' -> consent s tr P d -> consent s' (tr ++ tr') P d.
Proof.
  intros (_ & _ & Hx) (x & id & d' & Hin & Hid & HP & Hpr & Hd).
  destruct (Hx _ Hin) as (x' & Hin' & Hr & Hid').
  exists x', id, d'. rewrite Hr. auto 6 using pressed_mono.
Qed.

Lemma always_origin_mono s0 s s' tr tr' key :
  extends s s' -> always_origin s0 s tr key -> always_origin s0 s' (tr ++ tr') key.
Proof. intros He [?|[?|?]]; [by left | by right; left |]. right. right. by eapply consent_mono. Qed.

Lemma session_origin_mono s0 s s' tr tr' k key :
  extends s s' -> session_origin s0 s tr k key -> session_origin s0 s' (tr ++ tr') k key.
Proof. intros He [?|?]; [by left |]. right. by eapply consent_mono. Qed.

Lemma yolo_origin_mono s0 tr tr' key : yolo_origin s0 tr key -> yolo_origin s0 (tr ++ tr') key.
Proof.
  intros [?|[(k & ? & ?)|(rows & st & ? & ?)]]; [by left | right; left | right; right].
  - exists k. rewrite elem_of_app. auto.
  - exists rows, st. rewrite elem_of_app. auto.
Qed.

Lemma justified_mono s0 s s' tr tr' x d :
  extends s s' -> justified s0 s tr x d -> justified s0 s' (tr ++ tr') x d.
Proof.
  intros He [(id & d' & ? & ? & ?)|[[? ?]|[? [[? ?]|[? ?]]]]].
  - left. exists id, d'. auto using pressed_mono.
  - right. left. auto using yolo_origin_mono.
  - right. right. split; [done|]. left. eauto using session_origin_mono.
  - right. right. split; [done|]. right. eauto using always_origin_mono.
Qed.

Lemma task_ok_mono s0 s s' tr tr' x : extends s s' -> task_ok s0 s tr x -> task_ok s0 s' (tr ++ tr') x.
Proof.
  intros He (Hid & Hearly & Hp). split; [done|]. split; [done|]. destruct He as (Hpool & Hall & Hx) eqn:E. clear E.
  destruct (t_pc x) as [| | | | | | | |id [d|e]|id d|id|id [d|e]|[d|e]| |]; try done.
  - intros Hd. auto using pressed_mono.
  - intros Hd. destruct (Hp Hd) as (d' & ? & ?). exists d'. auto using pressed_mono.
  - destruct Hp as [(d' & ? & ?) Hk]. split; [exists d'; auto using pressed_mono|].
    rewrite Hpool. auto.
  - intros Hd. by eapply justified_mono, Hp.
  - intros Hd. by eapply justified_mono, Hp.
Qed.

(** The state and what its grants rest on. *)
Record sound (s0 : Sys) (tr : list Label) (s : Sys) : Prop := {
  sound_sent : forall id d, sent (guard s) !! id = Some d -> is_approved_decision d = true -> pressed tr id d;
  sound_always : forall key, key ∈ always_cache (guard s) -> always_origin s0 s tr key;
  sound_allowed : forall key, key ∈ allowlist (guard s) -> always_origin s0 s tr key;
  sound_session : forall k key, cached_for (guard s) k key = true -> session_origin s0 s tr k key;
  sound_yolo : forall key, key ∈ yolo_sessions (guard s) -> yolo_origin s0 tr key;
  sound_tasks : forall x, x ∈ tasks s -> task_ok s0 s tr x;
  sound_durable : has_pool (guard s) = true ->
    forall key, key ∈ always_cache (guard s) -> key ∈ always_cache (guard s0) \/ key ∈ allowlist (guard s)
}.
End Origins.

Section Soundness.
Context `{UuidLib}.
Context (victim : gset string -> option string) (session_victim : gmap SessionKey (gset string) -> option SessionKey).
Implicit Types (s : Sys) (tr : list Label).

Lemma run_app tr1 tr2 s :
  run victim session_victim (tr1 ++ tr2)%list s = run victim session_victim tr1 s ≫= run victim session_victim tr2.
Proof.
  revert s. induction tr1 as [|l tr1 IH]; intros s; [done|]. simpl.
  destruct (step victim session_victim l s); simpl; [apply IH | done].
Qed.

(** Induction on a run, the last step last. *)
Lemma run_ind (s0 : Sys) (P : list Label -> Sys -> Prop) :
  P [] s0 ->
  (forall tr l s s', P tr s -> step victim session_victim l s = Some s' -> P (tr ++ [l])%list s') ->
  forall tr s, run victim session_victim tr s0 = Some s -> P tr s.
Proof.
  intros H0 Hs. induction tr as [|l tr IH] using rev_ind; intros s Hr; [by simplify_eq/=|].
  rewrite run_app in Hr. apply bind_Some in Hr as (s1 & H1 & Hr). simpl in Hr.
  apply bind_Some in Hr as (s2 & H2 & [= ->]). eauto.
Qed.

Lemma shrink_patterns_subset fuel keys : shrink_patterns victim fuel keys ⊆ keys.
Proof.
  revert keys. induction fuel as [|f IH]; intros keys; simpl; [done|].
  case_match; [|done]. case_match; [|done]. etransitivity; [apply IH|]. set_solver.
Qed.

Lemma shrink_sessions_lookup fuel m k keys :
  shrink_sessions session_victim fuel m !! k = Some keys -> m !! k = Some keys.
Proof.
  revert m. induction fuel as [|f IH]; intros m; simpl; [done|].
  case_match; [|done]. case_match; [|done]. intros Hk. apply IH in Hk.
  by apply lookup_delete_Some in Hk as [_ Hk].
Qed.

Lemma approve_session_cached k key g k' key' :
  cached_for (approve_session victim session_victim k key g) k' key' = true ->
  cached_for g k' key' = true \/ (k' = k /\ key' = key).
Proof.
  unfold cached_for, approve_session. simpl. case_match eqn:E; [|done].
  apply shrink_sessions_lookup in E. rewrite bool_decide_eq_true. intros Hin.
  destruct (decide (k' = k)) as [->|Hk].
  - rewrite lookup_insert_eq in E. simplify_eq. apply shrink_patterns_subset in Hin.
    apply elem_of_union in Hin as [Hin|Hin]; [right; set_solver|].
    left. destruct (session_cache g !! k); simpl in Hin; [by apply bool_decide_eq_true | set_solver].
  - rewrite lookup_insert_ne in E by done. left. rewrite E. by apply bool_decide_eq_true.
Qed.

(** A step keeps soundness when whatever it adds has an origin. *)
Lemma sound_with (s0 : Sys) tr l s s' :
  sound s0 tr s -> extends s s' ->
  (forall id d, sent (guard s') !! id = Some d -> is_approved_decision d = true ->
     sent (guard s) !! id = Some d \/ pressed (tr ++ [l]) id d) ->
  (forall key, key ∈ always_cache (guard s') ->
     key ∈ always_cache (guard s) \/ always_origin s0 s' (tr ++ [l]) key) ->
  (forall key, key ∈ allowlist (guard s') ->
     key ∈ allowlist (guard s) \/ always_origin s0 s' (tr ++ [l]) key) ->
  (forall k key, cached_for (guard s') k key = true ->
     cached_for (guard s) k key = true \/ session_origin s0 s' (tr ++ [l]) k key) ->
  (forall key, key ∈ yolo_sessions (guard s') ->
     key ∈ yolo_sessions (guard s) \/ yolo_origin s0 (tr ++ [l]) key) ->
  (has_pool (guard s) = true -> forall key, key ∈ always_cache (guard s') ->
     key ∈ always_cache (guard s) \/ key ∈ allowlist (guard s')) ->
  (forall x, x ∈ tasks s' -> x ∈ tasks s \/ task_ok s0 s' (tr ++ [l]) x) ->
  sound s0 (tr ++ [l]) s'.
Proof.
  intros [H1 H2 H3 H4 H5 H6 H7] He A1 A2 A3 A4 A5 A7 A6. split.
  - intros id d Hs Hd. destruct (A1 _ _ Hs Hd) as [?|?]; [|done]. apply pressed_mono. auto.
  - intros key Hk. destruct (A2 _ Hk) as [?|?]; [|done]. eapply always_origin_mono; eauto.
  - intros key Hk. destruct (A3 _ Hk) as [?|?]; [|done]. eapply always_origin_mono; eauto.
  - intros k key Hk. destruct (A4 _ _ Hk) as [?|?]; [|done]. eapply session_origin_mono; eauto.
  - intros key Hk. destruct (A5 _ Hk) as [?|?]; [|done]. eapply yolo_origin_mono; eauto.
  - intros x Hx. destruct (A6 _ Hx) as [?|?]; [|done]. eapply task_ok_mono; eauto.
  - destruct He as (Hp & Ha & _). rewrite Hp. intros Hpool key Hk.
    destruct (A7 Hpool key Hk) as [Hk'|]; [|by right]. destruct (H7 Hpool key Hk'); [by left|right; set_solver].
Qed.

Lemma deliver_sent id d g id' d' :
  sent (snd (deliver id d g)) !! id' = Some d' ->
  sent g !! id' = Some d' \/ (id' = id /\ d' = d).
Proof. unfold deliver. case_bool_decide; simpl; [|by left]. rewrite lookup_insert_Some. naive_solver. Qed.

Lemma resolve_sent id d g id' d' :
  sent (snd (resolve id d g)) !! id' = Some d' ->
  sent g !! id' = Some d' \/ (id' = id /\ d' = d).
Proof. unfold resolve. case_match; [|by left]. intros Hs. by apply deliver_sent in Hs. Qed.

(** Resolving touches the pending entries and the channel only. *)
Lemma resolve_frame id d g :
  let g' := snd (resolve id d g) in
  has_pool g' = has_pool g /\ allowlist g' = allowlist g /\ always_cache g' = always_cache g /\
  session_cache g' = session_cache g /\ yolo_sessions g' = yolo_sessions g.
Proof. unfold resolve, deliver. case_match; [|done]. by case_bool_decide. Qed.

Lemma extends_guard s g' :
  has_pool g' = has_pool (guard s) -> allowlist (guard s) ⊆ allowlist g' ->
  extends s (mkSys g' (dispatcher s) (tasks s)).
Proof. intros Hp Ha. split; [done|]. split; [done|]. intros x Hx. by exists x. Qed.

Lemma extends_task s i x x' g' :
  tasks s !! i = Some x -> t_req x' = t_req x ->
  (forall id, prompt_of x = Some id -> prompt_of x' = Some id) ->
  has_pool g' = has_pool (guard s) -> allowlist (guard s) ⊆ allowlist g' ->
  extends s (mkSys g' (dispatcher s) (<[i := x']> (tasks s))).
Proof.
  intros Hi Hr Hid Hp Ha. split; [done|]. split; [done|]. intros y Hy.
  apply list_elem_of_lookup in Hy as [j Hj]. destruct (decide (i = j)) as [->|Hij].
  - rewrite Hi in Hj. simplify_eq. exists x'. split; [|done].
    apply list_elem_of_lookup. exists j. simpl. apply list_lookup_insert_eq. by eapply lookup_lt_Some.
  - exists y. split; [|done]. apply list_elem_of_lookup. exists j. simpl. by rewrite list_lookup_insert_ne.
Qed.

Lemma in_insert {A} (l : list A) i (x y : A) : y ∈ <[i := x]> l -> y ∈ l \/ y = x.
Proof.
  intros Hy. apply list_elem_of_lookup in Hy as [j Hj]. apply list_lookup_insert_Some in Hj.
  destruct Hj as [(_ & <- & _)|[_ Hj]]; [by right|]. left. by eapply list_elem_of_lookup_2.
Qed.
End Soundness.

Section Steps.
Context `{UuidLib}.
Context (victim : gset string -> option string) (session_victim : gmap SessionKey (gset string) -> option SessionKey).

(** A guard operation that adds no grant. *)
Lemma sound_guard (s0 : Sys) tr l s g' :
  sound s0 tr s ->
  has_pool g' = has_pool (guard s) -> allowlist g' = allowlist (guard s) ->
  always_cache g' = always_cache (guard s) ->
  (forall k key, cached_for g' k key = true -> cached_for (guard s) k key = true) ->
  (forall key, key ∈ yolo_sessions g' -> key ∈ yolo_sessions (guard s) \/ yolo_origin s0 (tr ++ [l]) key) ->
  (forall id d, sent g' !! id = Some d -> is_approved_decision d = true ->
     sent (guard s) !! id = Some d \/ pressed (tr ++ [l]) id d) ->
  sound s0 (tr ++ [l])%list (mkSys g' (dispatcher s) (tasks s)).
Proof.
  intros Hs Hp Ha Hc Hm Hy Hd. apply (sound_with s0 tr l s); simpl; auto.
  - apply extends_guard; [done|]. by rewrite Ha.
  - rewrite Hc. auto.
  - rewrite Ha. auto.
  - rewrite Hc. auto.
Qed.

Lemma sound_press (s0 : Sys) tr s c :
  sound s0 tr s ->
  sound s0 (tr ++ [LPress c])%list (mkSys (snd (resolve_custom_id c (guard s))) (dispatcher s) (tasks s)).
Proof.
  intros Hs. unfold resolve_custom_id. destruct (parse_custom_id c) as [[id d]|] eqn:E.
  - destruct (resolve_frame id d (guard s)) as (H1 & H2 & H3 & H4 & H5).
    apply sound_guard; auto.
    + intros k key. unfold cached_for. by rewrite H4.
    + rewrite H5. auto.
    + intros id' d' Hd _. destruct (resolve_sent _ _ _ _ _ Hd) as [?|[-> ->]]; [by left|].
      right. exists c. split; [|done]. set_solver.
  - apply sound_guard; auto.
Qed.

Lemma sound_deny (s0 : Sys) tr s k reason :
  sound s0 tr s ->
  sound s0 (tr ++ [LDeny k reason])%list
    (mkSys (snd (resolve_session_deny k reason (guard s))) (dispatcher s) (tasks s)).
Proof.
  intros Hs. unfold resolve_session_deny. destruct (head _) as [e|].
  - destruct (resolve_frame (e_id e) (Deny reason) (guard s)) as (H1 & H2 & H3 & H4 & H5).
    apply sound_guard; auto.
    + intros k' key. unfold cached_for. by rewrite H4.
    + rewrite H5. auto.
    + intros id' d' Hd Happ. destruct (resolve_sent _ _ _ _ _ Hd) as [?|[-> ->]]; [by left|done].
  - apply sound_guard; auto.
Qed.

Lemma load_yolo_origin rows yolo key :
  key ∈ fst (load_yolo rows yolo) ->
  key ∈ yolo \/ exists st, (key, Some st) ∈ rows /\ Session.yolo st = true.
Proof.
  revert yolo. induction rows as [|[k [st|]] rows IH]; intros yolo; simpl; [by left| |by left].
  intros Hk. destruct (IH _ Hk) as [Hy|(st' & ? & ?)].
  - destruct (Session.yolo st) eqn:E; [|by left]. apply elem_of_union in Hy as [Hy|]; [|by left].
    apply elem_of_singleton in Hy as ->. right. exists st. set_solver.
  - right. exists st'. set_solver.
Qed.

Lemma sound_environment (s0 : Sys) tr l s s' :
  sound s0 tr s ->
  match l with
  | LDispatcher | LPress _ | LDeny _ _ | LCancel _ | LClear _ _ | LYolo _ _ | LLoadYolo _
  | LLoadAllowlist => True
  | _ => False
  end ->
  step victim session_victim l s = Some s' -> sound s0 (tr ++ [l])%list s'.
Proof.
  intros Hs Hl Hst. destruct l; try done; simpl in Hst; unfold on_guard in Hst; simplify_eq.
  - apply (sound_guard s0 tr LDispatcher s (guard s)) in Hs; auto. destruct Hs. split; eauto.
  - by apply sound_press.
  - by apply sound_deny.
  - by apply sound_guard; auto.
  - destruct part; apply sound_guard; simpl; auto.
    + intros k key. unfold cached_for. simpl. case_match eqn:E; [|done].
      apply lookup_delete_Some in E as [_ ->]. done.
    + set_solver.
  - apply sound_guard; simpl; auto. intros key Hk. destruct enabled; [|set_solver].
    apply elem_of_union in Hk as [Hk|]; [|by left]. right. right. left. exists s1. set_solver.
  - unfold load_persisted_yolo. destruct (has_pool (guard s)); [|by apply sound_guard; auto].
    apply sound_guard; simpl; auto. intros key Hk.
    destruct (load_yolo_origin _ _ _ Hk) as [?|(st & ? & ?)]; [by left|].
    right. right. right. exists rows, st. set_solver.
  - unfold load_persisted_allowlist. destruct (has_pool (guard s)) eqn:Hp; [|by apply sound_guard; auto].
    assert (extends s (mkSys (set_always (allowlist (guard s) ∪ always_cache (guard s)) (guard s)) (dispatcher s) (tasks s))) as He
      by (by apply extends_guard).
    apply (sound_with s0 tr LLoadAllowlist s); simpl; auto.
    + intros key Hk. apply elem_of_union in Hk as [Hk|]; [|by left]. right.
      eapply always_origin_mono; [exact He|]. by apply sound_allowed.
    + intros _ key Hk. set_solver.
Qed.

(** A step of task [i] that adds no grant. *)
Lemma sound_task (s0 : Sys) tr l s i x x' g' :
  sound s0 tr s -> tasks s !! i = Some x -> t_req x' = t_req x ->
  (forall id, prompt_of x = Some id -> prompt_of x' = Some id) ->
  has_pool g' = has_pool (guard s) -> allowlist g' = allowlist (guard s) ->
  always_cache g' = always_cache (guard s) -> session_cache g' = session_cache (guard s) ->
  yolo_sessions g' = yolo_sessions (guard s) -> sent g' = sent (guard s) ->
  task_ok s0 (mkSys g' (dispatcher s) (<[i := x']> (tasks s))) (tr ++ [l])%list x' ->
  sound s0 (tr ++ [l])%list (mkSys g' (dispatcher s) (<[i := x']> (tasks s))).
Proof.
  intros Hs Hi Hr Hid H1 H2 H3 H4 H5 H6 Hok. apply (sound_with s0 tr l s); simpl; auto.
  - apply (extends_task s i x); auto. by rewrite H2.
  - rewrite H6. auto.
  - rewrite H3. auto.
  - rewrite H2. auto.
  - intros k key. unfold cached_for. rewrite H4. auto.
  - rewrite H5. auto.
  - rewrite H3. auto.
  - intros y Hy. destruct (in_insert _ _ _ _ Hy) as [?| ->]; auto.
Qed.
End Steps.

Section Consent.
Context `{UuidLib}.
Context (victim : gset string -> option string) (session_victim : gmap SessionKey (gset string) -> option SessionKey).

Lemma cap_approved sc d : is_approved_decision (cap sc d) = is_approved_decision d.
Proof. by destruct sc, d. Qed.

Lemma capped_cap sc d : capped sc d (cap sc d).
Proof. by destruct sc, d. Qed.

Lemma justified_own (s0 s : Sys) tr x d :
  (exists id d', prompt_of x = Some id /\ pressed tr id d' /\ d = cap (r_scope (t_req x)) d') -> justified s0 s tr x d.
Proof. intros (id & d' & ? & ? & ->). left. exists id, d'. auto using capped_cap. Qed.

Lemma consent_of (s : Sys) tr i x x' g' disp (P : Request -> Prop) d :
  tasks s !! i = Some x -> t_req x' = t_req x -> P (t_req x) ->
  (exists id d', prompt_of x' = Some id /\ pressed tr id d' /\ d = cap (r_scope (t_req x)) d') ->
  consent (mkSys g' disp (<[i := x']> (tasks s))) tr P d.
Proof.
  intros Hi Hr HP (id & d' & ? & ? & ->). exists x', id, d'. rewrite Hr.
  split; [|by auto using capped_cap].
  simpl. apply list_elem_of_lookup. exists i. apply list_lookup_insert_eq. by eapply lookup_lt_Some.
Qed.

Lemma lookup_req (s : Sys) i x : tasks s !! i = Some x -> x ∈ tasks s.
Proof. apply list_elem_of_lookup_2. Qed.

Lemma is_yolo_elem g k : is_yolo g k = true -> storage_key k ∈ yolo_sessions g.
Proof. apply bool_decide_eq_true_1. Qed.

Ltac same_grants Hs Hi :=
  apply (sound_task _ _ _ _ _ _ _ _ Hs Hi); try done.

Lemma sound_publish (s0 : Sys) tr l s i r id dl x' g' :
  sound s0 tr s -> tasks s !! i = Some (mkTask r (QPublish id) dl) ->
  Some (at_pc (QEnd id (Ok Always)) (mkTask r (QPublish id) dl), publish_always (r_key r) (guard s)) = Some (x', g') ->
  sound s0 (tr ++ [l])%list (mkSys g' (dispatcher s) (<[i := x']> (tasks s))).
Proof.
  intros Hs Hi [= <- <-].
  destruct (sound_tasks _ _ _ Hs _ (lookup_req _ _ _ Hi)) as (Hid & Hearly & (d' & Hpr & Hcap) & Hdur).
  simpl in Hid, Hdur, Hcap. assert (prompt_of (mkTask r (QPublish id) dl) = Some id) as Hp by auto.
  apply (sound_with s0 tr l s); simpl; auto.
  - by apply (extends_task s i (mkTask r (QPublish id) dl)).
  - intros key Hk. apply elem_of_union in Hk as [Hk|]; [|by left]. apply elem_of_singleton in Hk as ->.
    right. right. right. eapply consent_of; [exact Hi | done | done |]. exists id, d'. auto using pressed_mono.
  - intros Hpool key Hk. apply elem_of_union in Hk as [Hk|]; [|by left].
    apply elem_of_singleton in Hk as ->. right. auto.
  - intros y Hy. destruct (in_insert _ _ _ _ Hy) as [?| ->]; [by left|]. right.
    split; [exact Hid|]. split; [done|]. intros _. apply justified_own. exists id, d'. auto using pressed_mono.
Qed.

Lemma sound_record (s0 : Sys) tr l s i r id d dl now fault x' g' :
  sound s0 tr s -> tasks s !! i = Some (mkTask r (QRecord id d) dl) ->
  own victim session_victim (dispatcher s) now fault (mkTask r (QRecord id d) dl) (guard s) = Some (x', g') ->
  sound s0 (tr ++ [l])%list (mkSys g' (dispatcher s) (<[i := x']> (tasks s))).
Proof.
  intros Hs Hi Ho. unfold own in Ho. simpl in Ho.
  destruct (sound_tasks _ _ _ Hs _ (lookup_req _ _ _ Hi)) as (Hid & Hearly & Hok). simpl in Hid, Hok.
  assert (prompt_of (mkTask r (QRecord id d) dl) = Some id) as Hp by auto.
  assert (forall d0 x0, d0 = d -> is_approved_decision d = true -> t_req x0 = r -> prompt_of x0 = Some id ->
    exists id0 d', prompt_of x0 = Some id0 /\ pressed (tr ++ [l]) id0 d' /\ d0 = cap (r_scope r) d') as Hj.
  { intros d0 x0 -> Happ Hr Hx. destruct (Hok Happ) as (d' & ? & ?). exists id, d'. auto using pressed_mono. }
  destruct d as [| | |reason]; simplify_eq.
  - same_grants Hs Hi. split; [exact Hid|]. split; [done|]. intros _. apply justified_own. by apply Hj.
  - apply (sound_with s0 tr l s); simpl; auto.
    + by apply (extends_task s i (mkTask r (QRecord id SessionWide) dl)).
    + intros k key Hk. destruct (approve_session_cached _ _ _ _ _ _ _ Hk) as [?|[-> ->]]; [by left|].
      right. right. eapply consent_of; [exact Hi | done | done |]. by apply Hj.
    + intros y Hy. destruct (in_insert _ _ _ _ Hy) as [?| ->]; [by left|]. right.
      split; [exact Hid|]. split; [done|]. intros _. apply justified_own. by apply Hj.
  - unfold persist_always in Ho. destruct (has_pool (guard s)) eqn:Hpool.
    + destruct fault as [m|]; simplify_eq.
      * same_grants Hs Hi.
      * apply (sound_with s0 tr l s); simpl; auto.
        -- apply (extends_task s i (mkTask r (QRecord id Always) dl)); simpl; auto. set_solver.
        -- intros key Hk. apply elem_of_union in Hk as [Hk|]; [|by left]. apply elem_of_singleton in Hk as ->.
           right. right. right. eapply consent_of; [exact Hi | done | done |]. by apply Hj.
        -- intros y Hy. destruct (in_insert _ _ _ _ Hy) as [?| ->]; [by left|]. right.
           split; [exact Hid|]. split; [done|]. split; [|set_solver].
           destruct (Hok eq_refl) as (d' & ? & ?). exists d'. auto using pressed_mono.
    + simplify_eq. same_grants Hs Hi. split; [exact Hid|]. split; [done|]. split; [|simpl; congruence].
      destruct (Hok eq_refl) as (d' & ? & ?). exists d'. auto using pressed_mono.
  - same_grants Hs Hi.
Qed.

Lemma sound_own (s0 : Sys) tr s i now fault s' :
  sound s0 tr s -> step victim session_victim (LOwn i now fault) s = Some s' ->
  sound s0 (tr ++ [LOwn i now fault])%list s'.
Proof.
  intros Hs Hst. simpl in Hst. unfold with_task in Hst.
  task_step Hst x x' g' Hi Ho.
  pose proof (sound_tasks _ _ _ Hs _ (lookup_req _ _ _ Hi)) as (Hid & Hearly & Hok).
  destruct x as [r p dl]. unfold own in Ho. simpl in Hid, Hearly, Hok, Ho.
  set (l := LOwn i now fault) in *.
  destruct p as [| | | | |id|id|id|id [d|e]|id d|id|id res|res|id|]; simplify_eq.
  - (* QYolo *) same_grants Hs Hi. destruct (is_yolo (guard s) (r_session r)) eqn:Hy.
    + split; [done|]. split; [done|]. intros _. right. left. split; [done|]. simpl.
      apply yolo_origin_mono, (sound_yolo _ _ _ Hs). by apply is_yolo_elem.
    + split; [by destruct (r_scope r)|]. split; [by intros _; apply Hearly|].
      by destruct (r_scope r) eqn:E; simpl; rewrite ?E.
  - (* QAlways *) same_grants Hs Hi. case_bool_decide as Hk.
    + split; [done|]. split; [done|]. intros _. right. right. split; [done|]. right. split; [done|].
      eapply always_origin_mono; [|by apply (sound_always _ _ _ Hs)]. by apply (extends_task s i (mkTask r QAlways dl)).
    + split; [done|]. split; [done|]. simpl in Hok |- *. by rewrite Hok.
  - (* QSession *) same_grants Hs Hi. destruct (cached_for _ _ _) eqn:Hk; [|done].
    split; [done|]. split; [done|]. intros _. right. right. split; [done|]. left. split; [done|].
    eapply session_origin_mono; [|by apply (sound_session _ _ _ Hs)]. by apply (extends_task s i (mkTask r QSession dl)).
  - (* QDispatcher *) same_grants Hs Hi. by destruct (dispatcher s && r_displays r)%bool.
  - (* QRegister *) same_grants Hs Hi. intros id Hp. by rewrite Hearly in Hp.
  - (* QDelivering *) destruct dl as [| |? []|]; simplify_eq; same_grants Hs Hi.
  - (* QWaiting *) destruct (sent (guard s) !! id) as [d|] eqn:Hd.
    + simplify_eq. same_grants Hs Hi. split; [done|]. split; [done|]. intros Happ. simpl.
      apply pressed_mono. by apply (sound_sent _ _ _ Hs).
    + destruct (existsb _ _); simplify_eq. same_grants Hs Hi.
  - (* QExpired *) same_grants Hs Hi.
  - (* QDropLease Ok *) same_grants Hs Hi. split; [done|]. split; [done|]. simpl. rewrite cap_approved. intros Happ.
    exists d. auto using pressed_mono.
  - (* QDropLease Err *) same_grants Hs Hi.
  - (* QRecord *) exact (sound_record _ _ _ _ _ _ _ _ _ now fault _ _ Hs Hi Ho).
  - (* QPublish *) exact (sound_publish _ _ _ _ _ _ _ _ _ _ Hs Hi eq_refl).
  - (* QEnd *) destruct dl; simplify_eq. same_grants Hs Hi. destruct res as [d|]; [|done].
    split; [done|]. split; [done|]. intros Happ. simpl in Hok. eapply justified_mono; [|by apply Hok].
    by apply (extends_task s i (mkTask r (QEnd id (Ok d)) (DDone id0))).
  - (* QLeaving *) same_grants Hs Hi.
Qed.

Lemma sound_step (s0 : Sys) tr l s s' :
  sound s0 tr s -> step victim session_victim l s = Some s' -> sound s0 (tr ++ [l])%list s'.
Proof.
  intros Hs Hst. destruct l as [r|i now fault|i|i|i ok|i| |c|k reason|id|k part|k en|rows|];
    try (by eapply sound_environment; [exact Hs | | exact Hst]).
  - simplify_eq/=. apply (sound_with s0 tr (LCall r) s); simpl; auto.
    + split; [done|]. split; [done|]. intros x Hx. exists x. simpl. set_solver.
    + intros x Hx. apply elem_of_app in Hx as [?|Hx]; [by left|]. apply list_elem_of_singleton in Hx as ->. by right.
  - eapply sound_own; [exact Hs | exact Hst].
  - kept_step Hst x x' g' Hi Ho.
    destruct (sound_tasks _ _ _ Hs _ (lookup_req _ _ _ Hi)) as (Hid & Hearly & Hok).
    unfold expire in Ho. destruct x as [r p dl]. destruct p; simplify_eq/=. case_match; simplify_eq. same_grants Hs Hi.
  - task_step Hst x x' g' Hi Ho.
    destruct (sound_tasks _ _ _ Hs _ (lookup_req _ _ _ Hi)) as (Hid & Hearly & Hok).
    unfold abandon in Ho. destruct x as [r p dl]. destruct p; simplify_eq/=; same_grants Hs Hi.
  - kept_step Hst x x' g' Hi Ho.
    pose proof (sound_tasks _ _ _ Hs _ (lookup_req _ _ _ Hi)) as Hok.
    unfold show in Ho. destruct x as [r p dl]. destruct dl; simplify_eq/=. same_grants Hs Hi.
    eapply task_ok_mono; [|exact Hok]. by apply (extends_task s i (mkTask r p (DSending id))).
  - kept_step Hst x x' g' Hi Ho.
    pose proof (sound_tasks _ _ _ Hs _ (lookup_req _ _ _ Hi)) as Hok.
    unfold withdraw in Ho. destruct x as [r p dl]. destruct dl; simplify_eq/=. case_match; simplify_eq. same_grants Hs Hi.
    eapply task_ok_mono; [|exact Hok]. by apply (extends_task s i (mkTask r p (DAwait id success))).
Qed.

Lemma sound_run (s0 : Sys) tr s :
  fresh s0 -> run victim session_victim tr s0 = Some s -> sound s0 tr s.
Proof.
  intros (Ht & Hp & Hs & Hl). revert tr s. apply run_ind.
  - split; try done.
    + intros id d. by rewrite Hs.
    + by left.
    + intros key Hk. right. by left.
    + by left.
    + by left.
    + rewrite Ht. set_solver.
    + by left.
  - intros tr l s s'. apply sound_step.
Qed.
End Consent.

(** ** Leases, ids and channels *)

Section Leases.
Context `{UuidLib}.
Context (victim : gset string -> option string) (session_victim : gmap SessionKey (gset string) -> option SessionKey).

Definition holds_lease (p : pc) : bool :=
  match p with QDelivering _ | QWaiting _ | QExpired _ | QDropLease _ _ | QLeaving _ => true | _ => false end.

Definition is_pending (g : Guard) (id : N) : Prop := exists e, e ∈ pending g /\ e_id e = id.

(** What is sent, pending and prompted, by id. *)
Record leased (s : Sys) : Prop := {
  leased_fresh : forall x id, x ∈ tasks s -> prompt_of x = Some id -> (id < next_id (guard s))%N;
  leased_distinct : forall i j x y id, tasks s !! i = Some x -> tasks s !! j = Some y ->
    prompt_of x = Some id -> prompt_of y = Some id -> i = j;
  leased_pending : forall id, is_pending (guard s) id ->
    exists x, x ∈ tasks s /\ prompt_of x = Some id /\ holds_lease (t_pc x) = true;
  leased_sent : forall id, is_Some (sent (guard s) !! id) ->
    (id < next_id (guard s))%N /\ ~ is_pending (guard s) id
}.

Lemma is_pending_delete q g id : is_pending (set_pending (delete_where q (pending g)) g) id -> is_pending g id.
Proof. intros (e & He & Hid). simpl in He. apply in_delete_where in He as [He _]. by exists e. Qed.

Lemma has_entry_spec id g : existsb (has_entry id) (pending g) = true <-> is_pending g id.
Proof.
  rewrite existsb_exists. unfold is_pending, has_entry. split; intros (e & He & Hid); exists e.
  - by rewrite list_elem_of_In, <- N.eqb_eq.
  - by rewrite <- list_elem_of_In, N.eqb_eq.
Qed.

Lemma not_pending_deleted id g : ~ is_pending (set_pending (delete_where (has_entry id) (pending g)) g) id.
Proof.
  intros (e & He & Hid). simpl in He. apply in_delete_where in He as [_ He].
  unfold has_entry in He. by apply N.eqb_neq in He.
Qed.

(** Guard operations take entries away, and send on the channel of one taken. *)
Definition tightens (g g' : Guard) : Prop :=
  next_id g' = next_id g /\ (forall id, is_pending g' id -> is_pending g id) /\
  forall id, sent g' !! id = sent g !! id \/ (is_pending g id /\ ~ is_pending g' id).

Lemma resolve_tightens id d g : tightens g (snd (resolve id d g)).
Proof.
  unfold resolve. destruct (existsb _ _) eqn:E; [|by repeat split; auto].
  apply has_entry_spec in E. unfold deliver. case_bool_decide; simpl.
  - split; [done|]. split; [intros id'; apply is_pending_delete|]. intros id'. simpl.
    destruct (decide (id' = id)) as [->|Hn]; [|left; by rewrite lookup_insert_ne].
    right. split; [done|]. apply not_pending_deleted.
  - split; [done|]. split; [intros id'; apply is_pending_delete|]. by left.
Qed.

Lemma tightens_eq g g' :
  pending g' = pending g -> next_id g' = next_id g -> sent g' = sent g -> tightens g g'.
Proof. unfold tightens, is_pending. intros -> -> ->. split; [done|]. split; [done|]. by left. Qed.

Lemma delete_tightens q g : tightens g (set_pending (delete_where q (pending g)) g).
Proof. split; [done|]. split; [intros id; apply is_pending_delete|]. by left. Qed.

(** The guard's part of each step but registering tightens it. *)
Lemma environment_tightens l s s' :
  step victim session_victim l s = Some s' ->
  match l with
  | LDispatcher | LPress _ | LDeny _ _ | LCancel _ | LClear _ _ | LYolo _ _ | LLoadYolo _
  | LLoadAllowlist => True
  | _ => False
  end ->
  tightens (guard s) (guard s') /\ tasks s' = tasks s.
Proof.
  intros Hst Hl. destruct l; try done; simpl in Hst; unfold on_guard in Hst; simplify_eq; simpl; split; try done; try by apply tightens_eq.
  - unfold resolve_custom_id. destruct (parse_custom_id custom) as [[id d]|]; [apply resolve_tightens|by apply tightens_eq].
  - unfold resolve_session_deny. destruct (head _); [apply resolve_tightens|by apply tightens_eq].
  - apply delete_tightens.
  - destruct part; [apply delete_tightens|by apply tightens_eq|by apply tightens_eq].
  - unfold load_persisted_yolo. destruct (has_pool _); by apply tightens_eq.
  - unfold load_persisted_allowlist. destruct (has_pool _); by apply tightens_eq.
Qed.

Lemma leased_guard s s' :
  leased s -> tightens (guard s) (guard s') -> tasks s' = tasks s -> leased s'.
Proof.
  intros [H1 H2 H3 H4] (Hn & Hp & Hs) Ht. split; rewrite ?Ht, ?Hn; auto.
  intros id Hid. destruct (Hs id) as [E|[Hpe Hnp]].
  - rewrite E in Hid. destruct (H4 _ Hid). split; [done|]. naive_solver.
  - split; [|done]. destruct (H3 _ Hpe) as (x & ? & ? & _). eauto.
Qed.

(** A step of one task that keeps its prompt, and its lease while its entry stays. *)
Lemma leased_task s i x x' g' :
  leased s -> tasks s !! i = Some x -> prompt_of x' = prompt_of x -> tightens (guard s) g' ->
  (forall id, prompt_of x = Some id -> is_pending g' id -> holds_lease (t_pc x) = true -> holds_lease (t_pc x') = true) ->
  leased (mkSys g' (dispatcher s) (<[i := x']> (tasks s))).
Proof.
  intros Hl Hi Hpr Ht Hh. apply (leased_guard s (mkSys g' (dispatcher s) (tasks s))) in Hl; [|done|done].
  destruct Hl as [H1 H2 H3 H4]. simpl in *.
  assert (x ∈ tasks s) as Hx by by eapply list_elem_of_lookup_2.
  assert (x' ∈ <[i:=x']> (tasks s)) as Hx'.
  { apply list_elem_of_lookup. exists i. apply list_lookup_insert_eq. by eapply lookup_lt_Some. }
  split; simpl; auto.
  - intros y id Hy. destruct (in_insert _ _ _ _ Hy) as [?| ->]; [eauto|]. rewrite Hpr. eauto.
  - intros a b y z id Ha Hb Hy Hz.
    assert (exists y', tasks s !! a = Some y' /\ prompt_of y' = Some id) as (y' & Ha' & Hy').
    { apply list_lookup_insert_Some in Ha as [(<- & <- & _)|[_ ?]]; [exists x; by rewrite <- Hpr | by exists y]. }
    assert (exists z', tasks s !! b = Some z' /\ prompt_of z' = Some id) as (z' & Hb' & Hz').
    { apply list_lookup_insert_Some in Hb as [(<- & <- & _)|[_ ?]]; [exists x; by rewrite <- Hpr | by exists z]. }
    eauto.
  - intros id Hp. destruct (H3 _ Hp) as (y & Hy & Hyp & Hyl).
    apply list_elem_of_lookup in Hy as [j Hj]. destruct (decide (i = j)) as [->|Hij].
    + rewrite Hi in Hj. simplify_eq. exists x'. split; [done|]. rewrite Hpr. eauto.
    + exists y. split; [|done]. apply list_elem_of_lookup. exists j. by rewrite list_lookup_insert_ne.
Qed.

Lemma unlisten_tightens id g : tightens g (unlisten id g).
Proof. by apply tightens_eq. Qed.
Lemma approve_tightens k key g : tightens g (approve_session victim session_victim k key g).
Proof. by apply tightens_eq. Qed.
Lemma publish_tightens key g : tightens g (publish_always key g).
Proof. by apply tightens_eq. Qed.
Lemma persist_tightens key fault g : tightens g (snd (persist_always key fault g)).
Proof. unfold persist_always. destruct (has_pool g); [|by apply tightens_eq]. destruct fault; by apply tightens_eq. Qed.

Lemma leased_register s i r now dl :
  leased s -> tasks s !! i = Some (mkTask r QRegister dl) -> prompt_of (mkTask r QRegister dl) = None ->
  leased (mkSys (snd (register (Some (r_session r)) now (guard s))) (dispatcher s)
    (<[i := mkTask r (QDelivering (next_id (guard s))) (DSending (next_id (guard s)))]> (tasks s))).
Proof.
  intros [H1 H2 H3 H4] Hi Hn. set (id0 := next_id (guard s)).
  assert (forall a y id, <[i:=mkTask r (QDelivering id0) (DSending id0)]> (tasks s) !! a = Some y ->
    prompt_of y = Some id -> (a = i /\ id = id0) \/ (a <> i /\ tasks s !! a = Some y /\ (id < id0)%N)) as Hcase.
  { intros a y id Ha Hy. apply list_lookup_insert_Some in Ha as [(<- & <- & _)|[Hne Ha]].
    - left. simpl in Hy. injection Hy as <-. done.
    - right. split; [done|]. split; [done|]. eapply H1; [|done]. by eapply list_elem_of_lookup_2. }
  split; simpl.
  - intros y id Hy Hp. apply list_elem_of_lookup in Hy as [a Ha].
    destruct (Hcase _ _ _ Ha Hp) as [[_ ->]|(_ & _ & ?)]; unfold id0 in *; lia.
  - intros a b y z id Ha Hb Hy Hz.
    destruct (Hcase _ _ _ Ha Hy) as [[-> ->]|(_ & ? & ?)], (Hcase _ _ _ Hb Hz) as [[-> ?]|(_ & ? & ?)];
      try done; try lia. eauto.
  - intros id (e & He & <-). simpl in He. apply elem_of_app in He as [He|He].
    + destruct (H3 (e_id e)) as (y & Hy & Hp & Hl); [by exists e|]. exists y. split; [|done].
      apply list_elem_of_lookup in Hy as [j Hj]. apply list_elem_of_lookup. exists j.
      rewrite list_lookup_insert_ne; [done|]. intros ->. rewrite Hi in Hj. simplify_eq.
    + apply list_elem_of_singleton in He as ->. exists (mkTask r (QDelivering id0) (DSending id0)). split; [|done].
      apply list_elem_of_lookup. exists i. apply list_lookup_insert_eq. by eapply lookup_lt_Some.
  - intros id Hs. destruct (H4 _ Hs) as [Hlt Hnp]. split; [lia|]. intros (e & He & <-). simpl in He.
    apply elem_of_app in He as [He|He]; [apply Hnp; by exists e|].
    apply list_elem_of_singleton in He as ->. simpl in Hlt. lia.
Qed.

(** A requester's own step other than registering. *)
Lemma own_leased disp now fault x g x' g' :
  own victim session_victim disp now fault x g = Some (x', g') -> t_pc x <> QRegister ->
  prompt_of x' = prompt_of x /\ tightens g g' /\
  ((holds_lease (t_pc x) = true -> holds_lease (t_pc x') = true) \/
   exists id, pc_id (t_pc x) = Some id /\ ~ is_pending g' id).
Proof.
  destruct x as [r p dl]. unfold own. intros Ho Hne. simpl in Ho.
  destruct p as [| | | | |id|id|id|id [d|e]|id d|id|id res|res|id|]; simplify_eq; simpl.
  - split; [done|]. split; [by apply tightens_eq|]. by left.
  - split; [done|]. split; [by apply tightens_eq|]. by left.
  - split; [done|]. split; [by apply tightens_eq|]. by left.
  - split; [done|]. split; [by apply tightens_eq|]. by left.
  - destruct dl as [| |? []|]; simplify_eq; (split; [done|]; split; [by apply tightens_eq|]; by left).
  - destruct (sent g !! id); [|destruct (existsb _ _)]; simplify_eq;
      (split; [done|]; split; [by apply tightens_eq|]; by left).
  - split; [done|]. split; [by apply tightens_eq|]. by left.
  - split; [done|]. split; [apply delete_tightens|]. right. exists id. split; [done|]. apply not_pending_deleted.
  - split; [done|]. split; [apply delete_tightens|]. right. exists id. split; [done|]. apply not_pending_deleted.
  - pose proof (persist_tightens (r_key r) fault g) as Hp.
    destruct d; [|  |destruct (persist_always _ _ _) as [[] g1]|]; simplify_eq;
      (split; [done|]; split; [first [by apply tightens_eq | exact Hp]|]; by left).
  - split; [done|]. split; [by apply tightens_eq|]. by left.
  - destruct dl; simplify_eq. split; [done|]. split; [by apply tightens_eq|]. by left.
  - split; [done|]. split; [apply delete_tightens|]. right. exists id. split; [done|]. apply not_pending_deleted.
Qed.

Lemma leased_step (s0 : Sys) tr l s s' :
  sound s0 tr s -> leased s -> step victim session_victim l s = Some s' -> leased s'.
Proof.
  intros Hs Hl Hst. destruct l as [r|i now fault|i|i|i ok|i| |c|k reason|id|k part|k en|rows|];
    try (destruct (environment_tightens _ _ _ Hst I); by eapply leased_guard).
  - simplify_eq/=. destruct Hl as [H1 H2 H3 H4].
    assert (forall j y id, (tasks s ++ [mkTask r QYolo DNone])%list !! j = Some y -> prompt_of y = Some id -> tasks s !! j = Some y) as Hold.
    { intros j y id Hj Hy. apply lookup_snoc_Some in Hj as [[_ ?]|[_ <-]]; done. }
    split; simpl; eauto.
    + intros y id Hy. apply elem_of_app in Hy as [?|Hy]; [eauto|]. by apply list_elem_of_singleton in Hy as ->.
    + intros id Hp. destruct (H3 _ Hp) as (y & ? & ?). exists y. set_solver.
  - task_step Hst x x' g' Hi Ho.
    destruct (sound_tasks _ _ _ Hs _ (lookup_req _ _ _ Hi)) as (Hid & Hearly & _).
    destruct (decide (t_pc x = QRegister)) as [Hr|Hr].
    + destruct x as [r p dl]. simpl in Hr. subst p. simpl in Ho. injection Ho as <- <-.
      apply (leased_register s i r now dl); auto.
    + destruct (own_leased _ _ _ _ _ _ _ Ho Hr) as (Hp & Ht & Hh). apply (leased_task s i x); auto.
      intros id Hpx Hpend Hx. destruct Hh as [Hh|(id' & Hpc & Hnp)]; [auto|].
      rewrite (Hid _ Hpc) in Hpx. by simplify_eq.
  - kept_step Hst x x' g' Hi Ho.
    unfold expire in Ho. destruct x as [r p dl]. destruct p; simplify_eq/=. case_match; simplify_eq.
    apply (leased_task s i (mkTask r (QWaiting id) dl)); [done|done|done|by apply tightens_eq|done].
  - task_step Hst x x' g' Hi Ho.
    unfold abandon in Ho. destruct x as [r p dl]. destruct p; simplify_eq/=;
      (eapply leased_task; [done|exact Hi|done|by apply tightens_eq|done]).
  - kept_step Hst x x' g' Hi Ho.
    unfold show in Ho. destruct x as [r p dl]. destruct dl; simplify_eq/=.
    eapply leased_task; [done|exact Hi|done|by apply tightens_eq|done].
  - kept_step Hst x x' g' Hi Ho.
    unfold withdraw in Ho. destruct x as [r p dl]. destruct dl; simplify_eq/=. case_match; simplify_eq.
    eapply leased_task; [done|exact Hi|done|by apply tightens_eq|done].
Qed.
End Leases.

(** ** Properties *)

Section Properties.
Context `{UuidLib}.
Context (victim : gset string -> option string) (session_victim : gmap SessionKey (gset string) -> option SessionKey).

Lemma leased_run (s0 : Sys) tr s :
  fresh s0 -> run victim session_victim tr s0 = Some s -> sound s0 tr s /\ leased s.
Proof.
  intros Hf. revert tr s. apply run_ind.
  - split; [by apply (sound_run victim session_victim s0 [])|]. destruct Hf as (Ht & Hp & Hs & Hl).
    split; rewrite ?Ht; [set_solver..| |].
    + intros id (e & He & _). rewrite Hp in He. set_solver.
    + intros id [d Hd]. by rewrite Hs in Hd.
  - intros tr l s s' [Hs Hl] Hst. split; [by eapply sound_step | by eapply leased_step].
Qed.

(** C12: an approval comes from the user: a request answered with an approval
    was answered by a press of one of its own prompt's buttons, capped to its
    scope, and no other request has that prompt; or its session was in yolo
    mode; or, for a scope that may remember, an earlier press of a button of a
    request for the same key (for a session grant: of the same session)
    granted it.  Any interleaving of requesters, presses, denials, resets,
    expiries and dropped callers. *)
Theorem approval_needs_consent (s0 s : Sys) tr i x d :
  fresh s0 -> run victim session_victim tr s0 = Some s ->
  tasks s !! i = Some x -> t_pc x = QDone (Ok d) -> is_approved_decision d = true ->
  justified s0 s tr x d /\
  (forall id j y, prompt_of x = Some id -> tasks s !! j = Some y -> prompt_of y = Some id -> j = i).
Proof.
  intros Hf Hr Hi Hpc Happ. destruct (leased_run _ _ _ Hf Hr) as [Hs Hl]. split.
  - destruct (sound_tasks _ _ _ Hs _ (lookup_req _ _ _ Hi)) as (_ & _ & Hok).
    rewrite Hpc in Hok. auto.
  - intros id j y Hx Hj Hy. by eapply (leased_distinct _ Hl).
Qed.

(** Every remembered grant has its own consent: a pattern allowed for ever
    was pressed "always" on a request of scope Always for that very pattern
    (or was there before the start), a pattern allowed for a session on a
    request of that session; with a pool, no permanent grant is in force
    without its row, whatever statement fails. *)
Theorem grants_rest_on_presses (s0 s : Sys) tr :
  fresh s0 -> run victim session_victim tr s0 = Some s ->
  (forall key, key ∈ always_cache (guard s) -> always_origin s0 s tr key) /\
  (forall k key, cached_for (guard s) k key = true -> session_origin s0 s tr k key) /\
  (has_pool (guard s) = true -> forall key, key ∈ always_cache (guard s) ->
     key ∈ always_cache (guard s0) \/ key ∈ allowlist (guard s)).
Proof. intros Hf Hr. destruct (leased_run _ _ _ Hf Hr) as [[] _]. auto. Qed.

Lemma sent_stable l s s' id d :
  leased s -> step victim session_victim l s = Some s' ->
  sent (guard s) !! id = Some d -> sent (guard s') !! id = Some d.
Proof.
  intros Hl Hst Hd. destruct (leased_sent _ Hl id) as [_ Hnp]; [by eexists|].
  assert (forall g', tightens (guard s) g' -> sent g' !! id = Some d) as Hk.
  { intros g' (_ & _ & Hsent). destruct (Hsent id) as [->|[? _]]; done. }
  destruct l as [r|i now fault|i|i|i ok|i| |c|k reason|id'|k part|k en|rows|];
    try (destruct (environment_tightens victim session_victim _ _ _ Hst I); by apply Hk);
    simpl in Hst; unfold with_task in Hst; [by simplify_eq|..];
    apply bind_Some in Hst as (x & Hi & Hst); apply bind_Some in Hst as ([x' g'] & Ho & [= <-]).
  - destruct (decide (t_pc x = QRegister)) as [Hr|Hr].
    + destruct x as [r p dl]. simpl in Hr. subst p. simpl in Ho. by injection Ho as <- <-.
    + destruct (own_leased _ _ _ _ _ _ _ _ _ Ho Hr) as (_ & Ht & _). by apply Hk.
  - by apply bind_Some in Ho as (x1 & Ho & [= -> <-]).
  - unfold abandon in Ho. destruct (t_pc x); by simplify_eq.
  - by apply bind_Some in Ho as (x1 & Ho & [= -> <-]).
  - by apply bind_Some in Ho as (x1 & Ho & [= -> <-]).
Qed.

(** A decision is final: once a decision was sent for a request, no later
    press, denial or reset changes it, and every later press for it is told
    it came too late. *)
Theorem decision_is_final (s0 s1 s2 : Sys) tr1 tr2 id d :
  fresh s0 -> run victim session_victim tr1 s0 = Some s1 -> run victim session_victim tr2 s1 = Some s2 ->
  sent (guard s1) !! id = Some d ->
  sent (guard s2) !! id = Some d /\
  forall c d', parse_custom_id c = Some (id, d') -> fst (resolve_custom_id c (guard s2)) = false.
Proof.
  intros Hf H1. revert tr2 s2.
  assert (forall tr s, run victim session_victim tr s1 = Some s ->
    leased s /\ exists tr0, run victim session_victim tr0 s0 = Some s /\
      (sent (guard s1) !! id = Some d -> sent (guard s) !! id = Some d)) as Hall.
  { apply run_ind.
    - split; [by destruct (leased_run _ _ _ Hf H1)|]. by exists tr1.
    - intros tr l s s' [Hl (tr0 & Hr & Hd)] Hst.
      assert (run victim session_victim (tr0 ++ [l])%list s0 = Some s') as Hr'
        by (by rewrite run_app, Hr; simpl; rewrite Hst).
      split; [by destruct (leased_run _ _ _ Hf Hr')|]. exists (tr0 ++ [l])%list. split; [done|].
      intros H0. eapply sent_stable; eauto. }
  intros tr s Hr Hd. destruct (Hall _ _ Hr) as (Hl & _ & _ & Hk). split; [auto|].
  intros c d' Hc. unfold resolve_custom_id. rewrite Hc. unfold resolve.
  destruct (leased_sent _ Hl id) as [_ Hnp]; [eexists; auto|].
  destruct (existsb _ _) eqn:E; [|done]. by apply has_entry_spec in E.
Qed.

(** No pending approval leaks: every entry of the pending map belongs to
    exactly one requester, which still holds its lease; so when every
    requester has answered or was dropped, nothing is pending. *)
Theorem pending_has_an_owner (s0 s : Sys) tr :
  fresh s0 -> run victim session_victim tr s0 = Some s ->
  (forall e, e ∈ pending (guard s) -> exists i x, tasks s !! i = Some x /\
     prompt_of x = Some (e_id e) /\ holds_lease (t_pc x) = true /\
     forall j y, tasks s !! j = Some y -> prompt_of y = Some (e_id e) -> j = i) /\
  ((forall x, x ∈ tasks s -> t_pc x = QGone \/ exists res, t_pc x = QDone res) -> pending (guard s) = []).
Proof.
  intros Hf Hr. destruct (leased_run _ _ _ Hf Hr) as [_ Hl].
  assert (forall e, e ∈ pending (guard s) -> exists x, x ∈ tasks s /\ prompt_of x = Some (e_id e) /\
    holds_lease (t_pc x) = true) as Hown by (intros e He; apply (leased_pending _ Hl); by exists e).
  split.
  - intros e He. destruct (Hown e He) as (x & Hx & Hp & Hh). apply list_elem_of_lookup in Hx as [i Hi].
    exists i, x. do 3 (split; [done|]). intros j y Hj Hy. by eapply (leased_distinct _ Hl).
  - intros Hall. destruct (pending (guard s)) as [|e rest]; [done|].
    destruct (Hown e) as (x & Hx & _ & Hh); [set_solver|].
    destruct (Hall _ Hx) as [E|[res E]]; by rewrite E in Hh.
Qed.
End Properties.

Section Bounds.
Context `{UuidLib}.
Context (victim : gset string -> option string) (session_victim : gmap SessionKey (gset string) -> option SessionKey).

Definition cache_bounded (g : Guard) : Prop :=
  size (session_cache g) <= MAX_SESSIONS /\
  forall k keys, session_cache g !! k = Some keys -> size keys <= MAX_PATTERNS_PER_SESSION.

(** [next()] yields an entry of a set or map that has one. *)
Hypothesis victim_in : forall keys, 0 < size keys -> exists v, victim keys = Some v /\ v ∈ keys.
Hypothesis session_victim_in : forall m, 0 < size m -> exists k, session_victim m = Some k /\ is_Some (m !! k).

Lemma shrink_patterns_bound fuel keys :
  size keys <= fuel + MAX_PATTERNS_PER_SESSION -> size (shrink_patterns victim fuel keys) <= MAX_PATTERNS_PER_SESSION.
Proof.
  revert keys. induction fuel as [|f IH]; intros keys Hf; [done|]. cbn [shrink_patterns].
  destruct (Nat.ltb_spec MAX_PATTERNS_PER_SESSION (size keys)) as [Hlt|]; [|done].
  destruct (victim_in keys) as (v & -> & Hv); [lia|]. apply IH.
  rewrite size_difference by set_solver. rewrite size_singleton. lia.
Qed.

Lemma shrink_sessions_bound fuel m :
  size m <= fuel + MAX_SESSIONS -> size (shrink_sessions session_victim fuel m) <= MAX_SESSIONS.
Proof.
  revert m. induction fuel as [|f IH]; intros m Hf; [done|]. cbn [shrink_sessions].
  destruct (Nat.ltb_spec MAX_SESSIONS (size m)) as [Hlt|]; [|done].
  destruct (session_victim_in m) as (k & -> & Hk); [lia|]. apply IH.
  rewrite map_size_delete_Some by done. lia.
Qed.

Lemma approve_session_bounded k key g :
  cache_bounded g -> cache_bounded (approve_session victim session_victim k key g).
Proof.
  intros [_ Hp]. split; simpl.
  - apply shrink_sessions_bound, Nat.le_add_r.
  - intros k' keys Hk. apply shrink_sessions_lookup in Hk.
    apply lookup_insert_Some in Hk as [[_ <-]|[_ Hk]]; [|eauto].
    apply shrink_patterns_bound, Nat.le_add_r.
Qed.

Lemma cache_bounded_eq g g' : session_cache g' = session_cache g -> cache_bounded g -> cache_bounded g'.
Proof. unfold cache_bounded. by intros ->. Qed.

Lemma persist_cache key fault g : session_cache (snd (persist_always key fault g)) = session_cache g.
Proof. unfold persist_always. destruct (has_pool g); [|done]. by destruct fault. Qed.

Lemma own_bounded disp now fault x g x' g' :
  own victim session_victim disp now fault x g = Some (x', g') -> cache_bounded g -> cache_bounded g'.
Proof.
  destruct x as [r p dl]. unfold own. simpl. intros Ho Hb.
  destruct p as [| | | | |id|id|id|id [d|e]|id d|id|id res|res|id|]; simplify_eq; try done.
  - destruct dl as [| |? []|]; by simplify_eq.
  - destruct (sent g !! id); [|destruct (existsb _ _)]; by simplify_eq.
  - pose proof (persist_cache (r_key r) fault g) as Hp.
    destruct d; [by simplify_eq| |destruct (persist_always _ _ _) as [[] g1]|by simplify_eq];
      simplify_eq; [by apply approve_session_bounded|by eapply cache_bounded_eq..].
  - destruct dl; by simplify_eq.
Qed.

Lemma clear_bounded k part g : cache_bounded g -> cache_bounded (clear_part k part g).
Proof.
  destruct part; try done. intros [H1 H2]. split; simpl.
  - etransitivity; [|exact H1]. rewrite map_size_delete. destruct (session_cache g !! k); [apply Nat.le_pred_l|done].
  - intros k' keys Hk. apply lookup_delete_Some in Hk as [_ Hk]. eauto.
Qed.

(** The in-memory grants are bounded: never more than 512 sessions, nor
    more than 128 patterns for one of them, whatever the presses and whichever
    entries the hash tables evict; the eviction loops end within the size. *)
Theorem grant_caches_bounded (s0 s : Sys) tr :
  cache_bounded (guard s0) -> run victim session_victim tr s0 = Some s -> cache_bounded (guard s).
Proof.
  intros Hb. revert tr s. apply run_ind; [done|]. intros tr l s s' IH Hst.
  destruct l as [r|i now fault|i|i|i ok|i| |c|k reason|id|k part|k en|rows|]; simpl in Hst;
    unfold with_task, on_guard in Hst.
  - by simplify_eq.
  - task_step Hst x x' g' Hi Ho.
    by eapply own_bounded.
  - task_step Hst x x' g' Hi Ho.
    by apply bind_Some in Ho as (x1 & Ho & [= -> <-]).
  - task_step Hst x x' g' Hi Ho.
    unfold abandon in Ho. destruct (t_pc x); by simplify_eq.
  - task_step Hst x x' g' Hi Ho.
    by apply bind_Some in Ho as (x1 & Ho & [= -> <-]).
  - task_step Hst x x' g' Hi Ho.
    by apply bind_Some in Ho as (x1 & Ho & [= -> <-]).
  - by simplify_eq.
  - simplify_eq. unfold resolve_custom_id. destruct (parse_custom_id c) as [[id d]|]; [|done].
    eapply cache_bounded_eq; [|exact IH]. apply resolve_frame.
  - simplify_eq. unfold resolve_session_deny. destruct (head _); [|done].
    eapply cache_bounded_eq; [|exact IH]. apply resolve_frame.
  - by simplify_eq.
  - simplify_eq. by apply clear_bounded.
  - by simplify_eq.
  - simplify_eq. unfold load_persisted_yolo. simpl. by destruct (has_pool _).
  - simplify_eq. unfold load_persisted_allowlist. simpl. by destruct (has_pool _).
Qed.
End Bounds.

(** The four buttons of a prompt read back as the four decisions for that
    prompt, whatever a UUID looks like short of a colon. *)
Theorem buttons_read_back `{UuidLib} (id : N) :
  parse_uuid (uuid_text id) = Some id -> free_of ":" (uuid_text id) = true ->
  map parse_custom_id (approval_buttons id) =
    [Some (id, Once); Some (id, SessionWide); Some (id, Always); Some (id, Deny None)].
Proof.
  intros Hp Hf.
  assert (forall a, free_of ":" a = true -> parse_custom_id (custom_id id a) = (d ← decision_of a; Some (id, d))) as Hb.
  { intros a Ha. unfold custom_id, parse_custom_id.
    change ("omon:approval:" ++ uuid_text id ++ ":" ++ a) with ("omon" ++ String ":" ("approval" ++ String ":" (uuid_text id ++ String ":" a))).
    rewrite !split_char_app, split_char_free by done. by rewrite Hp. }
  unfold approval_buttons. simpl map. by rewrite !Hb.
Qed.

(** ** Witnesses and a race *)

Module Demo.

(** Ids as strings of marks. *)
Definition mark_text (n : N) : string := N.iter n (String "x") "".
Fixpoint parse_marks (s : string) : option N :=
  match s with
  | "" => Some 0%N
  | String c r => if Ascii.eqb c "x" then N.succ <$> parse_marks r else None
  end.
Instance marks : UuidLib := {| uuid_text := mark_text; parse_uuid := parse_marks |}.

Definition first_of (keys : gset string) : option string := head (elements keys).
Definition first_session (m : gmap SessionKey (gset string)) : option SessionKey := fst <$> head (map_to_list m).

Definition lane : SessionKey := new "discord" None "42" None "user".
Definition request : Request := mkRequest lane "rm -r build" "deletes files" "rm" ScopeAlways true.
Definition empty_guard : Guard := mkGuard [] ∅ ∅ ∅ true ∅ ∅ ∅ 1.
Definition start : Sys := mkSys empty_guard true [].

Definition ask : list Label :=
  [LCall request; LOwn 0 5 None; LOwn 0 5 None; LOwn 0 5 None; LOwn 0 5 None; LOwn 0 5 None; LShow 0 true; LOwn 0 5 None].
Definition finish : list Label := [LOwn 0 6 None; LOwn 0 6 None; LOwn 0 6 None; LOwn 0 6 None; LWithdraw 0; LOwn 0 7 None].
Definition always_run : list Label := (ask ++ [LPress "omon:approval:x:always"] ++ finish)%list.

Definition after (tr : list Label) : Sys := default start (run first_of first_session tr start).

Lemma start_fresh : fresh start.
Proof. done. Qed.

Lemma after_run tr : bool_decide (is_Some (run first_of first_session tr start)) = true ->
  run first_of first_session tr start = Some (after tr).
Proof. intros [s Hs]%bool_decide_eq_true. unfold after. by rewrite Hs. Qed.

Lemma first_of_in keys : 0 < size keys -> exists v, first_of keys = Some v /\ v ∈ keys.
Proof.
  intros Hs. unfold first_of. destruct (elements keys) as [|v l] eqn:E.
  - apply elements_empty_inv in E. rewrite (leibniz_equiv _ _ E), size_empty in Hs. lia.
  - exists v. split; [done|]. apply elem_of_elements. rewrite E. set_solver.
Qed.

Lemma first_session_in m : 0 < size m -> exists k, first_session m = Some k /\ is_Some (m !! k).
Proof.
  intros Hs. unfold first_session. destruct (map_to_list m) as [|[k v] l] eqn:E.
  - apply map_to_list_empty_iff in E. rewrite E, map_size_empty in Hs. lia.
  - exists k. split; [done|]. exists v. apply elem_of_map_to_list. rewrite E. set_solver.
Qed.

Lemma approval_needs_consent_witness :
  exists x, tasks (after always_run) !! 0 = Some x /\ t_pc x = QDone (Ok Always) /\
    justified start (after always_run) always_run x Always.
Proof.
  eexists. split; [vm_compute; reflexivity|]. split; [reflexivity|].
  refine (proj1 (approval_needs_consent first_of first_session start (after always_run) always_run 0 _ Always
    start_fresh (after_run always_run _) _ _ _)); vm_compute; reflexivity.
Defined.

Lemma grants_rest_on_presses_witness :
  always_origin start (after always_run) always_run "rm" /\ "rm" ∈ allowlist (guard (after always_run)).
Proof.
  assert (bool_decide ("rm" ∈ always_cache (guard (after always_run))) = true) as Hk by (vm_compute; reflexivity).
  apply bool_decide_eq_true in Hk.
  destruct (grants_rest_on_presses first_of first_session start (after always_run) always_run start_fresh) as (H1 & _ & H3).
  { apply after_run. vm_compute. reflexivity. }
  split; [by apply H1|]. destruct (H3 ltac:(vm_compute; reflexivity) _ Hk) as [Hs|]; [|done].
  simpl in Hs. by apply not_elem_of_empty in Hs.
Defined.

Lemma decision_is_final_witness :
  sent (guard (after always_run)) !! 1%N = Some Always /\
  fst (resolve_custom_id "omon:approval:x:deny" (guard (after always_run))) = false.
Proof.
  destruct (decision_is_final first_of first_session start (after (ask ++ [LPress "omon:approval:x:always"])%list)
    (after always_run) (ask ++ [LPress "omon:approval:x:always"])%list finish 1 Always start_fresh) as [H1 H2].
  - apply after_run. vm_compute. reflexivity.
  - vm_compute. reflexivity.
  - vm_compute. reflexivity.
  - split; [exact H1|]. apply (H2 _ (Deny None)). vm_compute. reflexivity.
Defined.

Lemma pending_has_an_owner_witness : pending (guard (after always_run)) = [].
Proof.
  destruct (pending_has_an_owner first_of first_session start (after always_run) always_run start_fresh) as [_ H].
  - apply after_run. vm_compute. reflexivity.
  - apply H. intros x Hx. right. exists (Ok Always). vm_compute in Hx. by apply list_elem_of_singleton in Hx as ->.
Defined.

Lemma grant_caches_bounded_witness :
  cache_bounded (guard start) /\ cache_bounded (guard (after always_run)).
Proof.
  assert (cache_bounded (guard start)) as Hb.
  { split; [apply Nat.le_0_l|]. intros k keys Hk. vm_compute in Hk. done. }
  split; [exact Hb|].
  apply (grant_caches_bounded first_of first_session first_of_in first_session_in start (after always_run) always_run Hb).
  apply after_run. vm_compute. reflexivity.
Defined.

Lemma buttons_read_back_witness :
  parse_uuid (uuid_text 7) = Some 7%N /\ free_of ":" (uuid_text 7) = true /\
  map parse_custom_id (approval_buttons 7) =
    [Some (7%N, Once); Some (7%N, SessionWide); Some (7%N, Always); Some (7%N, Deny None)].
Proof.
  split; [reflexivity|]. split; [reflexivity|]. apply (buttons_read_back 7); reflexivity.
Defined.

(** "Allow Session" pressed, the channel read, then the session reset in full,
    then the requester's record. *)
Definition reset_run : list Label :=
  (ask ++ [LPress "omon:approval:x:session"; LOwn 0 6 None] ++
   [LClear lane PPending; LClear lane PCache; LClear lane PYolo] ++
   [LOwn 0 7 None; LOwn 0 7 None])%list.

(** A reset does not take a session grant whose decision was read and not yet
    recorded: the grant is in force after [clear_session] has returned. *)
Theorem session_grant_survives_reset :
  run first_of first_session reset_run start = Some (after reset_run) /\
  cached_for (guard (after reset_run)) lane "rm" = true.
Proof. split; [apply after_run|]; vm_compute; reflexivity. Qed.
End Demo.
