(* ===== verification/Throttler.v ===== *)
(** * Message splitting and live edits ([src/discord/throttler.rs])

    Text is a list of Unicode scalar values, with the length each takes in
    UTF-8: the source counts characters for Discord's limit and bytes for
    boundaries.  The splitter loops until nothing remains: fuel, the number of
    characters, which each turn decreases.  Then the live editor: its state
    under the mutex, the revision counter, and the channel the transport
    writes to. *)
From stdpp Require Import base list strings gmap.
From Stdlib Require Import ZArith NArith Lia Ascii String.
From S2P Require Import Prelude RustStr.
Open Scope list_scope.
Open Scope nat_scope.
Local Notation length := Datatypes.length.
Local Notation concat := List.concat.

Notation str := (list N).

Definition chars (s : string) : str := N_of_ascii <$> list_ascii_of_string s.

Definition LINE_FEED : N := 10.

(** [char::len_utf8] and [str::len]. *)
Definition len_utf8 (c : N) : nat :=
  if (c <? 128)%N then 1 else if (c <? 2048)%N then 2 else if (c <? 65536)%N then 3 else 4.
Fixpoint byte_len (s : str) : nat := match s with [] => 0 | c :: r => len_utf8 c + byte_len r end.

(** [char::is_whitespace]: the White_Space property. *)
Definition is_whitespace (c : N) : bool :=
  ((9 <=? c) && (c <=? 13) || (c =? 32) || (c =? 133) || (c =? 160) || (c =? 5760) ||
   (8192 <=? c) && (c <=? 8202) || (c =? 8232) || (c =? 8233) || (c =? 8239) || (c =? 8287) || (c =? 12288))%N.

Fixpoint trim_start (s : str) : str :=
  match s with [] => [] | c :: r => if is_whitespace c then trim_start r else s end.
Definition trim_end (s : str) : str := rev (trim_start (rev s)).
Definition trim (s : str) : str := trim_end (trim_start s).

Fixpoint strip_chars (p s : str) : option str :=
  match p, s with
  | [], _ => Some s
  | a :: p', b :: s' => if (a =? b)%N then strip_chars p' s' else None
  | _ :: _, [] => None
  end.

(** [split_inclusive('\n')]. *)
Fixpoint lines_of (s : str) : list str :=
  match s with
  | [] => []
  | c :: r =>
      if (c =? LINE_FEED)%N then [c] :: lines_of r
      else match lines_of r with [] => [[c]] | l :: ls => (c :: l) :: ls end
  end.

(** The position of the last character that satisfies [p]. *)
Fixpoint last_index (p : N -> bool) (s : str) : option nat :=
  match s with
  | [] => None
  | c :: r => match last_index p r with Some i => Some (S i) | None => if p c then Some 0 else None end
  end.

(** ** Splitting *)

Definition take_chars (value : str) (count : nat) : str * str := (take count value, drop count value).

(** In characters; the half is of the bytes. *)
Definition past_half (candidate : str) (i : nat) : bool := byte_len candidate / 2 <? byte_len (take i candidate).
Definition boundary_at (p : N -> bool) (candidate : str) : option nat :=
  match last_index p candidate with
  | Some i => if past_half candidate i then Some (S i) else None
  | None => None
  end.
Definition preferred_boundary (candidate : str) : option nat :=
  match boundary_at (fun c => c =? LINE_FEED)%N candidate with
  | Some n => Some n
  | None => boundary_at is_whitespace candidate
  end.

Definition FENCE : str := chars "```".

Definition scan_line (open : option str) (line : str) : option str :=
  match strip_chars FENCE (trim_start line) with
  | Some after_fence => match open with Some _ => None | None => Some (trim after_fence) end
  | None => open
  end.
Definition scan_fences (text : str) (open : option str) : option str := fold_left scan_line (lines_of text) open.

Definition show_chars (n : nat) : str := chars (show_N (N.of_nat n)).

Definition page_header (total_chunks : option nat) (current_index : nat) : str :=
  match total_chunks with
  | Some total => chars "(" ++ show_chars current_index ++ chars "/" ++ show_chars total ++ chars ")" ++ [LINE_FEED]
  | None => []
  end.
Definition fence_open (reopen : option str) : str :=
  match reopen with Some language => FENCE ++ language ++ [LINE_FEED] | None => [] end.
Definition potential_closing_len : nat := 4.

Fixpoint raw_loop (fuel limit : nat) (total_chunks : option nat) (remaining : str) (reopen : option str)
    (current_index : nat) : option (list str) :=
  match remaining with
  | [] => Some []
  | _ =>
      match fuel with
      | O => None
      | S f =>
          let prefix := page_header total_chunks current_index ++ fence_open reopen in
          let budget := limit - (length prefix + potential_closing_len) in
          if budget =? 0 then
            let '(chunk, rest) := take_chars remaining limit in
            cons chunk <$> raw_loop f limit total_chunks rest None (S current_index)
          else
            let '(candidate, rest) := take_chars remaining budget in
            let split_at :=
              match rest with [] => length candidate | _ => default (length candidate) (preferred_boundary candidate) end in
            let piece := take split_at remaining in
            let fence := scan_fences piece reopen in
            let suffix := match rest, fence with _ :: _, Some _ => LINE_FEED :: FENCE | _, _ => [] end in
            cons (prefix ++ piece ++ suffix) <$>
              raw_loop f limit total_chunks (drop split_at remaining) fence (S current_index)
      end
  end.

(** [None]: the loop does not end. *)
Definition chunk_markdown_raw (content : str) (limit : nat) (total_chunks : option nat) : option (list str) :=
  raw_loop (length content) limit total_chunks content None 1.

Definition ZERO_WIDTH_SPACE : str := [8203%N].

Definition chunk_markdown_paginated (content : str) (limit : nat) (paginate : bool) : option (list str) :=
  if limit =? 0 then Some []
  else match content with
       | [] => Some [ZERO_WIDTH_SPACE]
       | _ =>
           unpaginated ← chunk_markdown_raw content limit None;
           if (length unpaginated <=? 1) || negb paginate then Some unpaginated
           else
             let total := length unpaginated in
             chunks ← chunk_markdown_raw content limit (Some total);
             if negb (length chunks =? total)
             then chunk_markdown_raw content limit (Some (length chunks))
             else Some chunks
       end.

Definition DISCORD_MESSAGE_LIMIT : nat := 2000.
Definition MAX_SPLIT_MESSAGES : nat := 8.
Definition TRUNCATION_NOTICE : str :=
  [LINE_FEED; LINE_FEED; 8230%N] ++ chars " [Response truncated: output exceeded Discord 8-message limit]".

(** [String::truncate] at the last character boundary within [n] bytes. *)
Fixpoint truncate_bytes (n : nat) (s : str) : str :=
  match s with
  | [] => []
  | c :: r => if len_utf8 c <=? n then c :: truncate_bytes (n - len_utf8 c) r else []
  end.

Definition truncated (last : str) : str :=
  let budget := DISCORD_MESSAGE_LIMIT - byte_len TRUNCATION_NOTICE in
  (if budget <? byte_len last then truncate_bytes budget last else last) ++ TRUNCATION_NOTICE.

(** [last_mut]. *)
Fixpoint map_last (f : str -> str) (l : list str) : list str :=
  match l with [] => [] | [x] => [f x] | x :: r => x :: map_last f r end.

Definition bound_split_messages (chunks : list str) (max_messages : nat) : list str :=
  if (length chunks <=? max_messages) || (max_messages =? 0) then chunks
  else map_last truncated (take max_messages chunks).

Definition truncate_live_preview (content : str) (limit : nat) : str :=
  if limit =? 0 then []
  else match content with
       | [] => ZERO_WIDTH_SPACE
       | _ =>
           if length content <=? limit then content
           else fst (take_chars content (limit - 2)) ++ [32%N; 8230%N]
       end.

(** ** The splitter's loop *)

Lemma last_index_lt p s i : last_index p s = Some i -> i < length s.
Proof.
  revert i. induction s as [|c s IH]; intros i; simpl; [done|].
  destruct (last_index p s) as [j|]; [intros [= <-]; specialize (IH j eq_refl); lia|].
  case_match; [|done]. intros [= <-]. lia.
Qed.

Lemma boundary_at_range p candidate n : boundary_at p candidate = Some n -> 0 < n <= length candidate.
Proof.
  unfold boundary_at. destruct (last_index p candidate) as [i|] eqn:E; [|done].
  apply last_index_lt in E. case_match; [|done]. intros [= <-]. lia.
Qed.

Lemma preferred_boundary_range candidate n : preferred_boundary candidate = Some n -> 0 < n <= length candidate.
Proof.
  unfold preferred_boundary. destruct (boundary_at _ candidate) as [m|] eqn:E;
    [intros [= <-]; by apply boundary_at_range in E|]. apply boundary_at_range.
Qed.

(** One framed message: where the piece is cut, and what is put around it. *)
Definition cut (budget : nat) (remaining : str) : nat :=
  let candidate := take budget remaining in
  match drop budget remaining with [] => length candidate | _ => default (length candidate) (preferred_boundary candidate) end.

Lemma cut_range budget remaining :
  0 < budget -> remaining <> [] -> 0 < cut budget remaining <= budget /\ cut budget remaining <= length remaining.
Proof.
  intros Hb Hr. unfold cut.
  assert (length (take budget remaining) = Nat.min budget (length remaining)) as Hl by apply length_take.
  assert (0 < length remaining) by (destruct remaining; simpl; [done|lia]).
  destruct (drop budget remaining) as [|c rest]; [lia|].
  destruct (preferred_boundary _) as [k|] eqn:E; simpl; [|lia].
  apply preferred_boundary_range in E. lia.
Qed.

(** Nothing remains after the cut exactly when nothing was past the budget. *)
Lemma cut_last budget remaining : drop budget remaining = [] -> drop (cut budget remaining) remaining = [].
Proof. unfold cut. intros E. rewrite E. rewrite length_take. apply drop_ge. apply (f_equal length) in E. rewrite length_drop in E. simpl in E. lia. Qed.

Definition frame (total : option nat) (i : nat) (reopen : option str) : str := page_header total i ++ fence_open reopen.
Definition room (limit : nat) (total : option nat) (i : nat) (reopen : option str) : nat :=
  limit - (length (frame total i reopen) + potential_closing_len).
Definition closing (limit : nat) (total : option nat) (remaining : str) (reopen fence : option str) (i : nat) : str :=
  match drop (room limit total i reopen) remaining, fence with _ :: _, Some _ => LINE_FEED :: FENCE | _, _ => [] end.

(** The loop's messages as a relation: the induction principle of the proofs. *)
Inductive splits (limit : nat) (total : option nat) : str -> option str -> nat -> list str -> Prop :=
| splits_done reopen i : splits limit total [] reopen i []
| splits_bare remaining reopen i rest :
    remaining <> [] -> room limit total i reopen = 0 ->
    splits limit total (drop limit remaining) None (S i) rest ->
    splits limit total remaining reopen i (take limit remaining :: rest)
| splits_framed remaining reopen i rest n fence :
    remaining <> [] -> 0 < room limit total i reopen ->
    n = cut (room limit total i reopen) remaining -> fence = scan_fences (take n remaining) reopen ->
    splits limit total (drop n remaining) fence (S i) rest ->
    splits limit total remaining reopen i
      ((frame total i reopen ++ take n remaining ++ closing limit total remaining reopen fence i) :: rest).

Lemma raw_loop_step fuel limit total remaining reopen i :
  remaining <> [] ->
  raw_loop (S fuel) limit total remaining reopen i =
    if room limit total i reopen =? 0 then
      cons (take limit remaining) <$> raw_loop fuel limit total (drop limit remaining) None (S i)
    else
      let n := cut (room limit total i reopen) remaining in
      let fence := scan_fences (take n remaining) reopen in
      cons (frame total i reopen ++ take n remaining ++ closing limit total remaining reopen fence i) <$>
        raw_loop fuel limit total (drop n remaining) fence (S i).
Proof. by destruct remaining. Qed.

Lemma raw_loop_nil fuel limit total reopen i : raw_loop fuel limit total [] reopen i = Some [].
Proof. by destruct fuel. Qed.

(** The loop ends, and with the relation's messages. *)
Lemma raw_loop_splits fuel limit total remaining reopen i :
  0 < limit -> length remaining <= fuel ->
  exists cs, raw_loop fuel limit total remaining reopen i = Some cs /\ splits limit total remaining reopen i cs.
Proof.
  intros Hlim. revert remaining reopen i.
  induction fuel as [|f IH]; intros remaining reopen i Hf; (destruct (decide (remaining = [])) as [->|Hne];
    [exists []; rewrite raw_loop_nil; by eauto using splits|]).
  { by destruct remaining; simpl in Hf; [|lia]. }
  rewrite raw_loop_step by done. destruct (Nat.eqb_spec (room limit total i reopen) 0) as [Hz|Hz].
  - assert (length (drop limit remaining) <= f) as Hl.
    { rewrite length_drop. destruct remaining; [done|]. simpl in *. lia. }
    destruct (IH _ None (S i) Hl) as (cs & -> & Hs). eexists. split; [reflexivity|]. by apply splits_bare.
  - pose proof (cut_range (room limit total i reopen) remaining ltac:(lia) Hne) as [? ?].
    set (n := cut _ _) in *.
    assert (length (drop n remaining) <= f) as Hl by (rewrite length_drop; lia).
    destruct (IH _ (scan_fences (take n remaining) reopen) (S i) Hl) as (cs & Hr & Hs). simpl. rewrite Hr. eexists. split; [reflexivity|].
    apply (splits_framed _ _ _ _ _ _ n); auto. lia.
Qed.

Lemma chunk_markdown_raw_splits content limit total :
  0 < limit -> exists cs, chunk_markdown_raw content limit total = Some cs /\ splits limit total content None 1 cs.
Proof. intros Hl. by apply raw_loop_splits. Qed.

Lemma closing_length limit total remaining reopen fence i : length (closing limit total remaining reopen fence i) <= potential_closing_len.
Proof. unfold closing. repeat case_match; simpl; unfold potential_closing_len; lia. Qed.

Lemma splits_within limit total remaining reopen i cs :
  0 < limit -> splits limit total remaining reopen i cs -> Forall (fun c => 0 < length c <= limit) cs.
Proof.
  intros Hl. induction 1 as [|remaining reopen i rest Hne Hz _ IH|remaining reopen i rest n fence Hne Hr Hn Hf _ IH];
    constructor; auto.
  - rewrite length_take. destruct remaining; [done|]. simpl. lia.
  - pose proof (cut_range _ remaining Hr Hne) as [? ?]. rewrite <- Hn in *.
    pose proof (closing_length limit total remaining reopen fence i). rewrite !length_app, length_take. unfold room in *. lia.
Qed.

(** ** Lines and fences *)

Lemma lines_app a b : lines_of (a ++ LINE_FEED :: b) = lines_of (a ++ [LINE_FEED]) ++ lines_of b.
Proof.
  induction a as [|c a IH]; simpl; [done|]. destruct (c =? LINE_FEED)%N; [by rewrite IH|].
  rewrite IH. destruct (lines_of (a ++ [LINE_FEED])) as [|l ls] eqn:E; [|done].
  exfalso. destruct a as [|d a]; simpl in E; [done|].
  destruct (d =? LINE_FEED)%N; [done|]. by destruct (lines_of (a ++ [LINE_FEED])).
Qed.

(** The text ends where a line ends. *)
Definition whole_lines (s : str) : Prop := s = [] \/ exists a, s = a ++ [LINE_FEED].

Lemma scan_fences_app a b open : whole_lines a -> scan_fences (a ++ b) open = scan_fences b (scan_fences a open).
Proof.
  intros [->|[a' ->]]; [done|]. unfold scan_fences. rewrite <- fold_left_app. f_equal.
  rewrite <- app_assoc. apply lines_app.
Qed.

Lemma lines_free l : LINE_FEED ∉ l -> l <> [] -> lines_of l = [l].
Proof.
  induction l as [|c l IH]; intros Hn Hne; [done|]. simpl.
  destruct (N.eqb_spec c LINE_FEED) as [->|]; [set_solver|].
  destruct l as [|d l]; [done|]. rewrite IH by set_solver. done.
Qed.

Lemma line_whole l : LINE_FEED ∉ l -> lines_of (l ++ [LINE_FEED]) = [l ++ [LINE_FEED]].
Proof.
  induction l as [|c l IH]; intros Hn; [done|]. simpl.
  destruct (N.eqb_spec c LINE_FEED) as [->|]; [set_solver|]. by rewrite IH by set_solver.
Qed.

(** Text is whole lines and then a line without its end. *)
Lemma last_line s : exists a l, s = a ++ l /\ whole_lines a /\ LINE_FEED ∉ l.
Proof.
  induction s as [|c s IH] using rev_ind; [exists [], []; split; [done|]; split; [by left|set_solver]|].
  destruct (N.eqb_spec c LINE_FEED) as [->|Hc].
  - exists (s ++ [LINE_FEED]), []. rewrite app_nil_r. split; [done|]. split; [right; by exists s|set_solver].
  - destruct IH as (a & l & -> & Ha & Hl). exists a, (l ++ [c]). rewrite app_assoc. split; [done|]. split; [done|set_solver].
Qed.

Lemma trim_start_snoc l c : is_whitespace c = true ->
  trim_start (l ++ [c]) = match trim_start l with [] => [] | r => r ++ [c] end.
Proof.
  intros Hc. induction l as [|d l IH]; simpl; [by rewrite Hc|]. by destruct (is_whitespace d).
Qed.

Lemma trim_end_snoc l c : is_whitespace c = true -> trim_end (l ++ [c]) = trim_end l.
Proof. intros Hc. unfold trim_end. rewrite rev_app_distr. simpl. by rewrite Hc. Qed.

Lemma trim_snoc l c : is_whitespace c = true -> trim (l ++ [c]) = trim l.
Proof.
  intros Hc. unfold trim. rewrite trim_start_snoc by done.
  destruct (trim_start l) eqn:E; [done|]. by apply trim_end_snoc.
Qed.

Lemma strip_fence_snoc l c : c <> 96%N ->
  strip_chars FENCE (l ++ [c]) = match strip_chars FENCE l with Some r => Some (r ++ [c]) | None => None end.
Proof.
  intros Hc. change FENCE with [96; 96; 96]%N.
  destruct l as [|x [|y [|z l]]]; cbn [app strip_chars]; repeat match goal with |- context [(96 =? ?b)%N] => destruct (N.eqb_spec 96 b) end;
    try done; congruence.
Qed.

(** The end of its line does not change what a line does. *)
Lemma scan_line_end open l : scan_line open (l ++ [LINE_FEED]) = scan_line open l.
Proof.
  unfold scan_line. rewrite trim_start_snoc by done. destruct (trim_start l) as [|c r] eqn:E; [done|].
  rewrite strip_fence_snoc by done. destruct (strip_chars FENCE (c :: r)); [|done]. by rewrite trim_snoc.
Qed.

(** Closing a message: the fence on a line of its own ends an open block. *)
Lemma scan_closed s open lang :
  scan_fences s open = Some lang -> scan_fences (s ++ LINE_FEED :: FENCE) open = None.
Proof.
  destruct (last_line s) as (a & l & -> & Ha & Hl). rewrite <- app_assoc, !scan_fences_app by done.
  generalize (scan_fences a open). intros o Hs.
  assert (scan_fences (l ++ [LINE_FEED]) o = Some lang) as Hs'.
  { unfold scan_fences in *. rewrite line_whole by done. simpl. rewrite scan_line_end.
    destruct l as [|c l]; [by simpl in *|]. by rewrite lines_free in Hs. }
  change (LINE_FEED :: FENCE) with ([LINE_FEED] ++ FENCE).
  rewrite app_assoc, scan_fences_app, Hs' by (right; by exists l). done.
Qed.

Lemma trim_start_suffix l : exists p, l = p ++ trim_start l.
Proof.
  induction l as [|c l [p IH]]; simpl; [by exists []|].
  destruct (is_whitespace c); [exists (c :: p); simpl; by f_equal | by exists []].
Qed.

Lemma trim_end_prefix l : exists p, l = trim_end l ++ p.
Proof.
  destruct (trim_start_suffix (rev l)) as [p Hp]. exists (rev p). unfold trim_end.
  rewrite <- rev_app_distr, <- Hp. by rewrite rev_involutive.
Qed.

(** A trimmed text does not start or end with white space. *)
Lemma trim_start_idem l : trim_start (trim_start l) = trim_start l.
Proof. induction l as [|c l IH]; simpl; [done|]. destruct (is_whitespace c) eqn:E; [done|]. simpl. by rewrite E. Qed.

Lemma trim_end_idem l : trim_end (trim_end l) = trim_end l.
Proof. unfold trim_end. by rewrite rev_involutive, trim_start_idem. Qed.

Lemma trim_start_end l : trim_start l = l -> trim_start (trim_end l) = trim_end l.
Proof.
  intros Hl. destruct (trim_end_prefix l) as [p Hp]. destruct (trim_end l) as [|c r]; [done|].
  rewrite Hp in Hl. simpl in *. destruct (is_whitespace c) eqn:E; [|done].
  destruct (trim_start_suffix (r ++ p)) as [q Hq]. apply (f_equal length) in Hq, Hl.
  rewrite length_app in *. simpl in *. rewrite length_app in *. lia.
Qed.

Lemma trim_idem l : trim (trim l) = trim l.
Proof. unfold trim. rewrite (trim_start_end (trim_start l)) by apply trim_start_idem. apply trim_end_idem. Qed.

Lemma trim_free c l : c ∉ l -> c ∉ trim l.
Proof.
  intros Hc. unfold trim. destruct (trim_start_suffix l) as [p Hp], (trim_end_prefix (trim_start l)) as [q Hq].
  rewrite Hp, Hq in Hc. set_solver.
Qed.

(** The language a scan leaves open: trimmed, and within one line. *)
Definition language_ok (o : option str) : Prop :=
  match o with Some l => trim l = l /\ LINE_FEED ∉ l | None => True end.

Lemma strip_chars_app p s r : strip_chars p s = Some r -> s = p ++ r.
Proof.
  revert s. induction p as [|a p IH]; intros s; simpl; [by intros [= ->]|].
  destruct s as [|b s]; [done|]. destruct (N.eqb_spec a b) as [->|]; [|done]. intros Hs. by rewrite (IH s).
Qed.

Definition one_line (l : str) : Prop := exists l', LINE_FEED ∉ l' /\ (l = l' \/ l = l' ++ [LINE_FEED]).

Lemma one_line_cons c l : c <> LINE_FEED -> one_line l -> one_line (c :: l).
Proof. intros Hc (l' & Hn & [->| ->]); exists (c :: l'); (split; [set_solver|auto]). Qed.

Lemma lines_one_line s l : l ∈ lines_of s -> one_line l.
Proof.
  revert l. induction s as [|c s IH]; intros l; simpl; [by intros ?%not_elem_of_nil|].
  destruct (N.eqb_spec c LINE_FEED) as [->|Hc].
  - intros [->|Hin]%elem_of_cons; [exists []; split; [set_solver|by right]|auto].
  - destruct (lines_of s) as [|l0 ls].
    + intros ->%list_elem_of_singleton. exists [c]. split; [set_solver|by left].
    + intros [->|Hin]%elem_of_cons; [apply one_line_cons; [done|]; apply IH|apply IH]; set_solver.
Qed.

Lemma scan_line_language o l : one_line l -> language_ok o -> language_ok (scan_line o l).
Proof.
  intros (l' & Hn & Hl) Ho. assert (scan_line o l = scan_line o l') as -> by (destruct Hl as [->| ->]; [done|apply scan_line_end]).
  unfold scan_line. destruct (strip_chars FENCE (trim_start l')) as [r|] eqn:E; [|done].
  destruct o; [done|]. split; [apply trim_idem|]. apply trim_free.
  apply strip_chars_app in E. destruct (trim_start_suffix l') as [p Hp]. rewrite Hp, E in Hn. set_solver.
Qed.

Lemma scan_fences_language s o : language_ok o -> language_ok (scan_fences s o).
Proof.
  unfold scan_fences. pose proof (lines_one_line s) as Hl. revert o.
  induction (lines_of s) as [|l ls IH]; intros o Ho; simpl; [done|].
  apply IH; [set_solver|]. apply scan_line_language; [set_solver|done].
Qed.

(** No run of more than [m] characters without a line end. *)
Definition narrow (m : nat) (s : str) : Prop := forall a b c, s = a ++ b ++ c -> LINE_FEED ∉ b -> length b <= m.

Lemma narrow_part m a b c : narrow m (a ++ b ++ c) -> narrow m b.
Proof. intros Hn x y z ->. apply (Hn (a ++ x) y (z ++ c)). by rewrite !app_assoc. Qed.
Lemma narrow_take m n s : narrow m s -> narrow m (take n s).
Proof. intros Hn. apply (narrow_part m [] _ (drop n s)). simpl. by rewrite take_drop. Qed.
Lemma narrow_drop m n s : narrow m s -> narrow m (drop n s).
Proof. intros Hn. apply (narrow_part m (take n s) _ []). by rewrite app_nil_r, take_drop. Qed.

Lemma lines_start b c : LINE_FEED ∉ b -> b <> [] -> exists l ls, lines_of (b ++ c) = (b ++ l) :: ls.
Proof.
  induction b as [|x b IH]; intros Hn Hne; [done|]. simpl.
  destruct (N.eqb_spec x LINE_FEED) as [->|]; [set_solver|]. destruct b as [|y b].
  - simpl. destruct (lines_of c) as [|l ls]; [by exists [], []|by exists l, ls].
  - destruct IH as (l & ls & E); [set_solver|done|]. rewrite E. by exists l, ls.
Qed.

Lemma lines_narrow m s : (forall l, l ∈ lines_of s -> length l <= m) -> narrow m s.
Proof.
  intros Hl a b c -> Hn. destruct b as [|x b]; [simpl; lia|].
  enough (exists l, l ∈ lines_of (a ++ (x :: b) ++ c) /\ length (x :: b) <= length l) as (l & Hin & Hle)
    by (specialize (Hl l Hin); lia).
  clear Hl. induction a as [|y a IH].
  - destruct (lines_start (x :: b) c) as (l & ls & E); [done|done|]. exists ((x :: b) ++ l).
    simpl in E |- *. rewrite E. split; [set_solver|]. simpl. rewrite length_app. lia.
  - destruct IH as (l & Hin & Hle). simpl. destruct (y =? LINE_FEED)%N; [exists l; split; [set_solver|done]|].
    simpl in Hin. destruct (lines_of _) as [|l0 ls]; [by apply not_elem_of_nil in Hin|].
    apply elem_of_cons in Hin as [->|Hin]; [exists (y :: l0); simpl in *; split; [set_solver|lia] | exists l; split; [set_solver|done]].
Qed.

Lemma concat_lines s : concat (lines_of s) = s.
Proof.
  induction s as [|c s IH]; simpl; [done|]. destruct (N.eqb_spec c LINE_FEED) as [->|]; simpl; [by rewrite IH|].
  destruct (lines_of s); simpl in *; by rewrite <- IH.
Qed.

Lemma concat_infix (s : str) (ls : list str) l : s = concat ls -> l ∈ ls -> exists a c, s = a ++ l ++ c.
Proof.
  intros -> Hin. apply list_elem_of_split in Hin as (l1 & l2 & ->). exists (concat l1), (concat l2).
  by rewrite concat_app.
Qed.

Definition language_within (m : nat) (o : option str) : Prop := match o with Some l => length l <= m | None => True end.

Lemma trim_length l : length (trim l) <= length l.
Proof.
  unfold trim. destruct (trim_start_suffix l) as [p Hp], (trim_end_prefix (trim_start l)) as [q Hq].
  apply (f_equal length) in Hp, Hq. rewrite length_app in Hp, Hq. lia.
Qed.

Lemma scan_line_within m o l : narrow m l -> one_line l -> language_within m o -> language_within m (scan_line o l).
Proof.
  intros Hm (l' & Hn & Hl) Ho. assert (scan_line o l = scan_line o l') as -> by (destruct Hl as [->| ->]; [done|apply scan_line_end]).
  assert (length l' <= m) as Hle.
  { destruct Hl as [->| ->]; [apply (Hm [] l' []) | apply (Hm [] l' [LINE_FEED])]; rewrite ?app_nil_r; done. }
  unfold scan_line. destruct (strip_chars FENCE (trim_start l')) as [r|] eqn:E; [|done].
  destruct o; [done|]. simpl. apply strip_chars_app in E. destruct (trim_start_suffix l') as [p Hp].
  apply (f_equal length) in E, Hp. rewrite length_app in E, Hp. pose proof (trim_length r). simpl in *. lia.
Qed.

Lemma scan_fences_within m s o : narrow m s -> language_within m o -> language_within m (scan_fences s o).
Proof.
  intros Hm. unfold scan_fences.
  assert (forall l, l ∈ lines_of s -> narrow m l /\ one_line l) as Hl.
  { intros l Hin. split; [|by eapply lines_one_line].
    destruct (concat_infix s (lines_of s) l) as (a & c & E); [by rewrite concat_lines|done|].
    rewrite E in Hm. by eapply narrow_part. }
  revert o. induction (lines_of s) as [|l ls IH]; intros o Ho; simpl; [done|].
  apply IH; [set_solver|]. apply scan_line_within; [apply Hl; set_solver..|done].
Qed.

(** ** Frames *)

Lemma chars_free c s : free_of c s = true -> N_of_ascii c ∉ chars s.
Proof.
  unfold chars. induction s as [|d s IH]; simpl; intros Hf; [set_solver|].
  apply andb_true_iff in Hf as [Hd Hs]. apply not_elem_of_cons. split; [|auto].
  intros E. apply (f_equal ascii_of_N) in E. rewrite !ascii_N_embedding in E. subst d. by rewrite Ascii.eqb_refl in Hd.
Qed.

Lemma show_chars_free n : LINE_FEED ∉ show_chars n.
Proof. apply (chars_free (ascii_of_nat 10)). apply show_N_free. left. done. Qed.

Lemma page_header_scan total i : whole_lines (page_header total i) /\ scan_fences (page_header total i) None = None.
Proof.
  destruct total as [t|]; [|split; [by left|done]].
  assert (LINE_FEED ∉ chars "(" ++ show_chars i ++ chars "/" ++ show_chars t ++ chars ")") as Hn.
  { rewrite !not_elem_of_app. repeat split; try apply show_chars_free; by apply (chars_free (ascii_of_nat 10)). }
  unfold page_header.
  replace (chars "(" ++ show_chars i ++ chars "/" ++ show_chars t ++ chars ")" ++ [LINE_FEED])
    with ((chars "(" ++ show_chars i ++ chars "/" ++ show_chars t ++ chars ")") ++ [LINE_FEED]) by (by rewrite <- !app_assoc).
  split; [right; by eexists|]. unfold scan_fences. by rewrite line_whole.
Qed.

Lemma fence_open_scan reopen : language_ok reopen -> whole_lines (fence_open reopen) /\ scan_fences (fence_open reopen) None = reopen.
Proof.
  destruct reopen as [l|]; [|split; [by left|done]]. intros [Ht Hn].
  assert (LINE_FEED ∉ FENCE ++ l) as Hf by (rewrite not_elem_of_app; split; [by apply (chars_free (ascii_of_nat 10))|done]).
  unfold fence_open. rewrite app_assoc. split; [right; by eexists|].
  unfold scan_fences. rewrite line_whole by done. cbn [fold_left]. rewrite scan_line_end. unfold scan_line. simpl. by rewrite Ht.
Qed.

Lemma frame_scan total i reopen : language_ok reopen -> whole_lines (frame total i reopen) /\ scan_fences (frame total i reopen) None = reopen.
Proof.
  intros Hr. destruct (page_header_scan total i) as [Hw Hs], (fence_open_scan reopen Hr) as [Hw' Hs'].
  unfold frame. split; [|by rewrite scan_fences_app, Hs].
  destruct Hw' as [->|[a ->]]; [by rewrite app_nil_r|]. right. exists (page_header total i ++ a). by rewrite app_assoc.
Qed.

(** A framed message that is not the last reads as balanced Markdown. *)
Lemma framed_balanced limit total remaining reopen i n :
  language_ok reopen -> drop (room limit total i reopen) remaining <> [] ->
  scan_fences (frame total i reopen ++ take n remaining ++
    closing limit total remaining reopen (scan_fences (take n remaining) reopen) i) None = None.
Proof.
  intros Hr Hd. destruct (frame_scan total i reopen Hr) as [Hw Hs]. rewrite scan_fences_app, Hs by done.
  unfold closing. destruct (drop _ _) as [|c r]; [done|].
  destruct (scan_fences (take n remaining) reopen) as [lang|] eqn:E; [by eapply scan_closed|]. by rewrite app_nil_r.
Qed.

Lemma splits_balanced limit total m remaining reopen i cs :
  (forall j, i <= j <= i + length remaining -> length (page_header total j) + m + 9 <= limit) ->
  narrow m remaining -> language_ok reopen -> language_within m reopen ->
  splits limit total remaining reopen i cs ->
  forall k c, S k < length cs -> cs !! k = Some c -> scan_fences c None = None.
Proof.
  intros Hh Hm Hr Hw Hs. induction Hs as [|remaining reopen i rest Hne Hz _ IH|remaining reopen i rest n fence Hne Hroom -> -> Hs IH];
    intros k c Hk Hc; [done| |].
  - exfalso. assert (0 < length remaining) by (destruct remaining; simpl; [done|lia]).
    specialize (Hh i ltac:(lia)). unfold room, frame in Hz. rewrite length_app in Hz. destruct reopen as [l|]; simpl in *;
      rewrite ?length_app in Hz; unfold potential_closing_len in Hz; simpl in *; lia.
  - pose proof (cut_range _ remaining Hroom Hne) as [? ?].
    destruct k as [|k]; simpl in Hc.
    + injection Hc as <-. apply framed_balanced; [done|]. intros E. apply cut_last in E. rewrite E in Hs. inversion Hs; subst; simpl in Hk; [lia|done..].
    + apply (IH) with (k := k); auto using narrow_drop, scan_fences_language, scan_fences_within, narrow_take.
      * intros j Hj. apply Hh. rewrite length_drop in Hj. lia.
      * simpl in Hk. lia.
Qed.

(** ** Properties of the splitter *)

Lemma splitting_fits content limit total : 0 < limit ->
  exists cs, chunk_markdown_raw content limit total = Some cs /\ Forall (fun c => 0 < length c <= limit) cs /\
    (content <> [] -> 0 < length cs).
Proof.
  intros Hl. destruct (chunk_markdown_raw_splits content limit total Hl) as (cs & Hr & Hs).
  exists cs. split; [done|]. split; [by eapply splits_within|]. intros Hne. inversion Hs; simpl; [done|lia..].
Qed.

(** Splitting ends, whatever the text and the pagination: the recursion
    of the loop is never cut short, and no message is empty or longer than the
    limit. *)
Theorem splitting_terminates (content : str) (limit : nat) (total : option nat) :
  0 < limit ->
  exists cs, chunk_markdown_raw content limit total = Some cs /\ Forall (fun c => 0 < length c <= limit) cs.
Proof.
  intros Hl. destruct (splitting_fits content limit total Hl) as (cs & ? & ? & _). by exists cs.
Qed.

Lemma splits_parts limit total remaining reopen i cs :
  0 < limit -> splits limit total remaining reopen i cs ->
  exists parts : list (str * str * str),
    cs = map (fun '(before, piece, after) => before ++ piece ++ after) parts /\
    concat (map (fun '(_, piece, _) => piece) parts) = remaining /\
    forall k before piece after, parts !! k = Some (before, piece, after) ->
      piece <> [] /\ (before = [] \/ exists o, before = page_header total (i + k) ++ fence_open o) /\
      (after = [] \/ after = LINE_FEED :: FENCE).
Proof.
  intros Hl. induction 1 as [|remaining reopen i rest Hne Hz _ IH|remaining reopen i rest n fence Hne Hr Hn Hf _ IH].
  - by exists [].
  - destruct IH as (parts & -> & Hc & Hp). exists (([], take limit remaining, []) :: parts). split; [|split].
    + simpl. by rewrite app_nil_r.
    + simpl. by rewrite Hc, take_drop.
    + intros [|k] before piece after Hk; simpl in Hk.
      * injection Hk as <- <- <-. split; [|split; by left].
        destruct remaining as [|x remaining]; [done|]. destruct limit; [lia|done].
      * destruct (Hp _ _ _ _ Hk) as (? & Hb & ?). by rewrite <- plus_n_Sm in *.
  - pose proof (cut_range _ remaining Hr Hne) as [? ?]. rewrite <- Hn in *.
    destruct IH as (parts & -> & Hc & Hp).
    exists ((frame total i reopen, take n remaining, closing limit total remaining reopen fence i) :: parts). split; [|split].
    + done.
    + simpl. by rewrite Hc, take_drop.
    + intros [|k] before piece after Hk; simpl in Hk.
      * injection Hk as <- <- <-. rewrite Nat.add_0_r. split.
        { destruct remaining as [|x remaining]; [done|]. destruct n; [lia|done]. }
        split; [right; by exists reopen|].
        unfold closing. destruct (drop (room limit total i reopen) remaining), fence; auto.
      * destruct (Hp _ _ _ _ Hk) as (? & Hb & ?). by rewrite <- plus_n_Sm in *.
Qed.

(** Splitting loses nothing: the messages are the pieces of the content,
    none empty and in order, each within a page header and a reopened fence
    before it (or nothing) and a closing fence after it (or nothing). *)
Theorem splitting_keeps_content (content : str) (limit : nat) (total : option nat) (cs : list str) :
  0 < limit -> chunk_markdown_raw content limit total = Some cs ->
  exists parts : list (str * str * str),
    cs = map (fun '(before, piece, after) => before ++ piece ++ after) parts /\
    concat (map (fun '(_, piece, _) => piece) parts) = content /\
    forall k before piece after, parts !! k = Some (before, piece, after) ->
      piece <> [] /\ (before = [] \/ exists o, before = page_header total (S k) ++ fence_open o) /\
      (after = [] \/ after = LINE_FEED :: FENCE).
Proof.
  intros Hl Hr. destruct (chunk_markdown_raw_splits content limit total Hl) as (cs' & Hr' & Hs).
  rewrite Hr in Hr'. simplify_eq. by apply (splits_parts limit total content None 1) in Hs.
Qed.

(** Fenced code stays valid in every message: when every line of the
    content leaves room for a header and a fence, each message but the last,
    read by itself, closes every code block it opens. *)
Theorem fences_balanced (content : str) (limit m : nat) (total : option nat) (cs : list str) :
  (forall l, l ∈ lines_of content -> length l <= m) ->
  (forall j, j <= S (length content) -> length (page_header total j) + m + 9 <= limit) ->
  chunk_markdown_raw content limit total = Some cs ->
  forall k c, S k < length cs -> cs !! k = Some c -> scan_fences c None = None.
Proof.
  intros Hm Hh Hr. assert (0 < limit) as Hl by (specialize (Hh 0 ltac:(lia)); lia).
  destruct (chunk_markdown_raw_splits content limit total Hl) as (cs' & Hr' & Hs).
  rewrite Hr in Hr'. simplify_eq. eapply (splits_balanced limit total m content None 1); [|by apply lines_narrow|done|done|exact Hs].
  intros j Hj. apply Hh. lia.
Qed.

(** The totals of two runs matter by their width only. *)
Lemma raw_loop_width fuel limit t t' remaining reopen i :
  length (show_chars t) = length (show_chars t') ->
  forall cs, raw_loop fuel limit (Some t) remaining reopen i = Some cs ->
  exists cs', raw_loop fuel limit (Some t') remaining reopen i = Some cs' /\ length cs' = length cs.
Proof.
  intros Hw. revert remaining reopen i. induction fuel as [|f IH]; intros remaining reopen i cs Hr;
    (destruct (decide (remaining = [])) as [->|Hne]; [exists cs; rewrite raw_loop_nil in *; by simplify_eq|]).
  { by destruct remaining. }
  rewrite raw_loop_step in * by done. cbv zeta in *.
  assert (room limit (Some t') i reopen = room limit (Some t) i reopen) as ->.
  { unfold room, frame, page_header. rewrite !length_app, Hw. lia. }
  destruct (_ =? 0); apply fmap_Some in Hr as (rest & Hr & ->); apply IH in Hr as (rest' & -> & Hlen); simpl;
    eexists; (split; [reflexivity|]); simpl; by rewrite Hlen.
Qed.

(** Page totals are exact when the two passes agree on their width: the
    messages say (k/N) for N the number of messages. *)
Theorem page_total_exact (content : str) (limit : nat) (u c : list str) :
  0 < limit -> chunk_markdown_raw content limit None = Some u -> 1 < length u ->
  chunk_markdown_raw content limit (Some (length u)) = Some c ->
  length (show_chars (length u)) = length (show_chars (length c)) ->
  exists cs, chunk_markdown_paginated content limit true = Some cs /\
    chunk_markdown_raw content limit (Some (length cs)) = Some cs.
Proof.
  intros Hl Hu Hlen Hc Hw. destruct (raw_loop_width _ _ _ _ _ _ _ Hw _ Hc) as (cs & Hcs & Hn).
  exists cs. unfold chunk_markdown_paginated. destruct (Nat.eqb_spec limit 0); [lia|].
  destruct content as [|x content]; [injection Hu as <-; simpl in Hlen; lia|].
  rewrite Hu. simpl. destruct (Nat.leb_spec (length u) 1); [lia|]. rewrite orb_false_l. simpl.
  rewrite Hc. simpl. destruct (Nat.eqb_spec (length c) (length u)) as [E|E]; simpl.
  - rewrite E in Hn, Hcs. fold (chunk_markdown_raw (x :: content) limit (Some (length u))) in Hcs.
    rewrite Hc in Hcs. simplify_eq. by rewrite E.
  - rewrite Hn. by split.
Qed.

Lemma byte_len_app a b : byte_len (a ++ b) = byte_len a + byte_len b.
Proof. induction a as [|c a IH]; simpl; [done|]. lia. Qed.

Lemma length_byte_len s : length s <= byte_len s.
Proof. induction s as [|c s IH]; simpl; [done|]. assert (1 <= len_utf8 c) by (unfold len_utf8; repeat case_match; lia). lia. Qed.

Lemma truncate_bytes_len n s : byte_len (truncate_bytes n s) <= n.
Proof.
  revert n. induction s as [|c s IH]; intros n; simpl; [lia|].
  destruct (Nat.leb_spec (len_utf8 c) n); simpl; [|lia]. specialize (IH (n - len_utf8 c)). lia.
Qed.

Lemma truncated_fits s : 0 < length (truncated s) <= DISCORD_MESSAGE_LIMIT.
Proof.
  unfold truncated. assert (byte_len TRUNCATION_NOTICE = 67) as Hn by (vm_compute; reflexivity).
  assert (length TRUNCATION_NOTICE = 65) as Hc by (vm_compute; reflexivity).
  rewrite length_app, Hc, Hn. split; [lia|]. change DISCORD_MESSAGE_LIMIT with 2000.
  destruct (Nat.ltb_spec (2000 - 67) (byte_len s)).
  - pose proof (length_byte_len (truncate_bytes (2000 - 67) s)). pose proof (truncate_bytes_len (2000 - 67) s). lia.
  - pose proof (length_byte_len s). lia.
Qed.

Lemma map_last_length f (l : list str) : length (map_last f l) = length l.
Proof. induction l as [|x [|y l] IH]; simpl in *; congruence. Qed.

Lemma map_last_Forall (P : str -> Prop) f l : (forall x, P (f x)) -> Forall P l -> Forall P (map_last f l).
Proof. intros Hf. induction 1 as [|x l Hx Hl IH]; [done|]. destruct l; simpl; constructor; auto. Qed.

Definition fits (c : str) : Prop := 0 < length c <= DISCORD_MESSAGE_LIMIT.

Lemma paginated_fits content paginate :
  exists cs, chunk_markdown_paginated content DISCORD_MESSAGE_LIMIT paginate = Some cs /\ 0 < length cs /\ Forall fits cs.
Proof.
  assert (0 < DISCORD_MESSAGE_LIMIT) as Hl by (vm_compute; lia).
  unfold chunk_markdown_paginated. change (DISCORD_MESSAGE_LIMIT =? 0) with false. cbv iota.
  destruct content as [|x content].
  { exists [ZERO_WIDTH_SPACE]. split; [done|]. split; [simpl; lia|]. constructor; [|constructor].
    unfold fits. cbn [length ZERO_WIDTH_SPACE]. unfold DISCORD_MESSAGE_LIMIT. lia. }
  assert (forall total, exists cs, chunk_markdown_raw (x :: content) DISCORD_MESSAGE_LIMIT total = Some cs /\ 0 < length cs /\ Forall fits cs) as Hraw.
  { intros total. destruct (splitting_fits (x :: content) DISCORD_MESSAGE_LIMIT total Hl) as (cs & Hr & Hf & Hn).
    exists cs. split; [done|]. split; [by apply Hn|done]. }
  destruct (Hraw None) as (u & -> & Hu & Hfu). simpl. destruct ((length u <=? 1) || negb paginate); [by exists u|].
  destruct (Hraw (Some (length u))) as (c & -> & Hc & Hfc). simpl. destruct (negb _); [apply Hraw | by exists c].
Qed.

(** What a final update posts always fits Discord: for every text, the
    splitter ends, and after bounding there is at least one message and at
    most eight, none empty, each of at most 2,000 characters. *)
Theorem final_messages_fit (content : str) (paginate : bool) :
  exists cs, chunk_markdown_paginated content DISCORD_MESSAGE_LIMIT paginate = Some cs /\
    let out := bound_split_messages cs MAX_SPLIT_MESSAGES in
    1 <= length out <= 8 /\ Forall (fun c => 0 < length c <= 2000) out.
Proof.
  destruct (paginated_fits content paginate) as (cs & Hcs & Hn & Hf). exists cs. split; [done|].
  unfold bound_split_messages, MAX_SPLIT_MESSAGES. simpl. rewrite orb_false_r.
  destruct (Nat.leb_spec (length cs) 8); [done|].
  rewrite map_last_length, length_take. split; [lia|].
  apply map_last_Forall; [apply truncated_fits|]. by apply Forall_take.
Qed.

(** ** Live edits *)

(** [LiveEditThrottler] and [LiveEditState], who holds the mutex, and the
    channel: the message under each id, and the next id Discord gives. *)
Record Editor : Type := mkEditor {
  revision : N;
  last_edit : option Z;
  message_ids : list N;
  holder : option nat;
  board : gmap N str;
  next_message : N
}.

Definition with_ids (l : list N) (e : Editor) := mkEditor (revision e) (last_edit e) l (holder e) (board e) (next_message e).
Definition with_last (t : option Z) (e : Editor) := mkEditor (revision e) t (message_ids e) (holder e) (board e) (next_message e).
Definition with_holder (h : option nat) (e : Editor) := mkEditor (revision e) (last_edit e) (message_ids e) h (board e) (next_message e).
Definition with_board (b : gmap N str) (e : Editor) := mkEditor (revision e) (last_edit e) (message_ids e) (holder e) b (next_message e).

(** One transport call after another, the first error returned; the list says
    which calls Discord answers with an error (none once it is used up). *)
Definition Call : Type := list bool * Editor -> bool * (list bool * Editor).
Definition call (f : Editor -> option Editor) : Call := fun '(oks, e) =>
  match (if hd true oks then f e else None) with
  | Some e' => (true, (tl oks, e'))
  | None => (false, (tl oks, e))
  end.
Definition and_then (m k : Call) : Call := fun s => let '(ok, s') := m s in if ok then k s' else (false, s').
Definition pure (f : Editor -> Editor) : Call := fun '(oks, e) => (true, (oks, f e)).

Definition start_typing : Call := call Some.
Definition edit_message (id : N) (content : str) : Call :=
  call (fun e => match board e !! id with Some _ => Some (with_board (<[id := content]> (board e)) e) | None => None end).
(** [send_message], and the new id pushed. *)
Definition send_message (content : str) : Call :=
  call (fun e => Some (mkEditor (revision e) (last_edit e) (message_ids e ++ [next_message e]) (holder e)
                         (<[next_message e := content]> (board e)) (next_message e + 1)%N)).
Definition delete_message (id : N) : Call :=
  call (fun e => match board e !! id with Some _ => Some (with_board (delete id (board e)) e) | None => None end).

Fixpoint post (index : nat) (chunks : list str) : Call := fun s =>
  match chunks with
  | [] => (true, s)
  | chunk :: rest =>
      and_then (match message_ids (snd s) !! index with
                | Some id => edit_message id chunk
                | None => send_message chunk
                end) (post (S index) rest) s
  end.

Fixpoint delete_all (ids : list N) : Call :=
  match ids with [] => pure id | i :: rest => and_then (delete_message i) (delete_all rest) end.

Definition delete_stale (keep : nat) : Call := fun '(oks, e) =>
  delete_all (drop keep (message_ids e)) (oks, with_ids (take keep (message_ids e)) e).

Definition edit_preview (preview : str) : Call := fun s =>
  match message_ids (snd s) with first_id :: _ => edit_message first_id preview s | [] => (true, s) end.

(** The rest of [update] under the mutex; for a final update, the messages. *)
Definition write_update (is_final : bool) (preview : str) (chunks : list str) (now : Z) : Call :=
  and_then start_typing
    (and_then (if is_final then and_then (post 0 chunks) (delete_stale (length chunks)) else edit_preview preview)
       (pure (with_last (Some now)))).

(** [update] up to the write: where it is, with the revision it drew. *)
Inductive at_ : Type :=
| UFetch
| UDebounce (r : N)
| UPeek (r : N)
| UCheck (r : N)
| ULock (r : N)
| UHeld (r : N)
| USleep (r : N)
| URelock (r : N)
| UHeld2 (r : N)
| UWrite (r : N)
| UDone (r : N) (ok : bool).

Record Update : Type := mkUpdate { u_final : bool; u_preview : str; u_chunks : list str; u_at : at_ }.
Definition move (a : at_) (u : Update) : Update := mkUpdate (u_final u) (u_preview u) (u_chunks u) a.

(** A caller's update of some content, finally or not. *)
Definition new_update (content : str) (is_final paginate : bool) : option Update :=
  cs ← chunk_markdown_paginated content DISCORD_MESSAGE_LIMIT paginate;
  Some (mkUpdate is_final (truncate_live_preview content DISCORD_MESSAGE_LIMIT)
          (bound_split_messages cs MAX_SPLIT_MESSAGES) UFetch).

Definition is_current (e : Editor) (r : N) : bool := (revision e =? r)%N.
Definition due (debounce now : Z) (e : Editor) : bool :=
  match last_edit e with Some t => (t + debounce <=? now)%Z | None => true end.

(** The next step of update [i] at [now], [None] while it waits for the mutex. *)
Definition ustep (debounce : Z) (i : nat) (now : Z) (oks : list bool) (u : Update) (e : Editor) : option (Update * Editor) :=
  let stay a := Some (move a u, e) in
  match u_at u with
  | UFetch =>
      let r := (revision e + 1)%N in
      Some (move (if u_final u then ULock r else UDebounce r) u,
            mkEditor r (last_edit e) (message_ids e) (holder e) (board e) (next_message e))
  | UDebounce r => stay (if is_current e r then UPeek r else UDone r true)
  | UPeek r =>
      match holder e with
      | None => stay (if due debounce now e then UCheck r else UDebounce r)
      | Some _ => None
      end
  | UCheck r => stay (if is_current e r then ULock r else UDone r true)
  | ULock r => match holder e with None => Some (move (UHeld r) u, with_holder (Some i) e) | Some _ => None end
  | UHeld r =>
      if u_final u then stay (UWrite r)
      else if negb (is_current e r) then Some (move (UDone r true) u, with_holder None e)
      else if due debounce now e then stay (UWrite r)
      else Some (move (USleep r) u, with_holder None e)
  | USleep r => stay (if is_current e r then URelock r else UDone r true)
  | URelock r => match holder e with None => Some (move (UHeld2 r) u, with_holder (Some i) e) | Some _ => None end
  | UHeld2 r => if is_current e r then stay (UWrite r) else Some (move (UDone r true) u, with_holder None e)
  | UWrite r =>
      let '(ok, (_, e')) := write_update (u_final u) (u_preview u) (u_chunks u) now (oks, e) in
      Some (move (UDone r ok) u, with_holder None e')
  | UDone _ _ => None
  end.

(** Updates are called, and step, in any order. *)
Inductive Act : Type :=
| ACall (u : Update)
| AStep (i : nat) (now : Z) (oks : list bool).

Definition act (debounce : Z) (a : Act) (s : Editor * list Update) : option (Editor * list Update) :=
  let '(e, us) := s in
  match a with
  | ACall u => Some (e, us ++ [move UFetch u])
  | AStep i now oks =>
      u ← us !! i;
      '(u', e') ← ustep debounce i now oks u e;
      Some (e', <[i := u']> us)
  end.

Fixpoint acts (debounce : Z) (l : list Act) (s : Editor * list Update) : option (Editor * list Update) :=
  match l with [] => Some s | a :: rest => s' ← act debounce a s; acts debounce rest s' end.

(** The channel shows [chunks] under the tracked ids, in order. *)
Definition shows (e : Editor) (chunks : list str) : Prop :=
  Forall2 (fun id c => board e !! id = Some c) (message_ids e) chunks.

Definition tracked (e : Editor) : Prop := NoDup (message_ids e) /\ Forall (fun id => (id < next_message e)%N) (message_ids e).

Lemma and_then_true m k s s' : and_then m k s = (true, s') <-> exists s1, m s = (true, s1) /\ k s1 = (true, s').
Proof. unfold and_then. destruct (m s) as [[] s1]; naive_solver. Qed.

Lemma call_true f oks e oks' e' : call f (oks, e) = (true, (oks', e')) -> f e = Some e'.
Proof. unfold call. destruct (hd true oks); [|done]. destruct (f e); by intros [= _ <-]. Qed.

(** The tracked ids stay tracked whatever fails. *)
Definition keeps (P : Editor -> Prop) (m : Call) : Prop := forall oks e, P e -> P (snd (snd (m (oks, e)))).

Lemma keeps_then P m k : keeps P m -> keeps P k -> keeps P (and_then m k).
Proof.
  intros Hm Hk oks e He. unfold and_then. specialize (Hm oks e He).
  destruct (m (oks, e)) as [[] [oks' e']]; [by apply Hk|done].
Qed.

Lemma keeps_call P f : (forall e e', P e -> f e = Some e' -> P e') -> keeps P (call f).
Proof. intros Hf oks e He. unfold call. destruct (hd true oks); [|done]. destruct (f e) eqn:E; [by eapply Hf|done]. Qed.

Lemma tracked_edit id c : keeps tracked (edit_message id c).
Proof. apply keeps_call. intros e e' Ht Hf. case_match; [|done]. by injection Hf as <-. Qed.

Lemma tracked_send c : keeps tracked (send_message c).
Proof.
  apply keeps_call. intros e e' [Hn Hf] [= <-]. split; simpl.
  - apply NoDup_app. split; [done|]. split; [|by apply NoDup_singleton].
    intros x Hx ->%list_elem_of_singleton. rewrite Forall_forall in Hf. specialize (Hf _ Hx). lia.
  - apply Forall_app. split; [|constructor; [lia|done]].
    eapply Forall_impl; [exact Hf|]. simpl. lia.
Qed.

Lemma keeps_post P chunks :
  (forall id c, keeps P (edit_message id c)) -> (forall c, keeps P (send_message c)) ->
  forall index, keeps P (post index chunks).
Proof.
  intros He Hs. induction chunks as [|c rest IH]; intros index; [by intros oks e|]. intros oks e HP. simpl.
  apply keeps_then; [|apply IH|done]. case_match; [apply He|apply Hs].
Qed.

Lemma keeps_delete_all P ids : (forall i, keeps P (delete_message i)) -> keeps P (delete_all ids).
Proof. intros Hd. induction ids as [|i rest IH]; [by intros oks e|]. by apply keeps_then. Qed.

Lemma tracked_post chunks index : keeps tracked (post index chunks).
Proof. apply keeps_post; [apply tracked_edit|apply tracked_send]. Qed.

Lemma tracked_delete_all ids : keeps tracked (delete_all ids).
Proof.
  apply keeps_delete_all. intros i. apply keeps_call. intros e e' Ht Hf. case_match; [|done]. by injection Hf as <-.
Qed.

Lemma tracked_take n e : tracked e -> tracked (with_ids (take n (message_ids e)) e).
Proof.
  intros [Hn Hf]. split; simpl; [|by apply Forall_take].
  rewrite <- (take_drop n) in Hn. by apply NoDup_app in Hn as [? _].
Qed.

Lemma tracked_write is_final preview chunks now : keeps tracked (write_update is_final preview chunks now).
Proof.
  apply keeps_then; [by apply keeps_call; intros e e' He [= <-]|]. apply keeps_then; [|by intros oks e].
  destruct is_final.
  - apply keeps_then; [apply tracked_post|]. intros oks e He. by apply tracked_delete_all, tracked_take.
  - intros oks e He. unfold edit_preview. simpl. case_match; [done|by apply tracked_edit].
Qed.

(** What a posting loop that met no error leaves. *)
Definition shown (e : Editor) (ids : list N) (cs : list str) : Prop := Forall2 (fun id c => board e !! id = Some c) ids cs.

Lemma shown_insert e ids cs id c : id ∉ ids -> shown e ids cs -> shown (with_board (<[id := c]> (board e)) e) ids cs.
Proof.
  intros Hn. induction 1 as [|x y ids cs Hx Hs IH]; constructor; [|apply IH; set_solver].
  simpl. rewrite lookup_insert_ne by set_solver. done.
Qed.

Definition untouched (e e' : Editor) : Prop :=
  forall j, (j < next_message e)%N -> j ∉ message_ids e -> board e' !! j = board e !! j.

Record posted (all : list str) (e e' : Editor) : Prop := {
  posted_shown : shown e' (take (length all) (message_ids e')) all;
  posted_len : length all <= length (message_ids e');
  posted_rest : drop (length all) (message_ids e') = drop (length all) (message_ids e);
  posted_next : (next_message e <= next_message e')%N;
  posted_ids : forall j, j ∈ message_ids e' -> j ∈ message_ids e \/ (next_message e <= j)%N;
  posted_old : untouched e e';
  posted_prefix : exists l, message_ids e' = message_ids e ++ l
}.

Lemma take_last_id (ids : list N) (index : nat) (id : N) : ids !! index = Some id -> take (S index) ids = take index ids ++ [id].
Proof. apply take_S_r. Qed.

Lemma post_posted chunks : forall oks e oks' e' done index,
  post index chunks (oks, e) = (true, (oks', e')) -> tracked e -> index = length done ->
  length done <= length (message_ids e) -> shown e (take index (message_ids e)) done -> posted (done ++ chunks) e e'.
Proof.
  induction chunks as [|c rest IH]; intros oks e oks' e' done0 index Hp Ht -> Hl Hs.
  - simpl in Hp. injection Hp as <- <-. rewrite app_nil_r. split; try done; [by left|]. exists []. by rewrite app_nil_r.
  - simpl in Hp. apply and_then_true in Hp as ([oks1 e1] & Hc & Hp).
    replace (done0 ++ c :: rest) with ((done0 ++ [c]) ++ rest) by (by rewrite <- app_assoc).
    assert (tracked e1) as Ht1.
    { assert (snd (snd (true, (oks1, e1))) = e1) as <- by done. rewrite <- Hc.
      case_match; [by apply tracked_edit | by apply tracked_send]. }
    destruct (message_ids e !! length done0) as [id|] eqn:Hid.
    + apply call_true in Hc. destruct (board e !! id); [|done]. injection Hc as <-.
      assert (id ∉ take (length done0) (message_ids e)) as Hni.
      { destruct Ht as [Hn _]. rewrite <- (take_drop_middle _ _ _ Hid) in Hn. apply NoDup_app in Hn as (_ & Hn & _).
        intros Hin. apply (Hn id Hin). set_solver. }
      destruct (IH _ _ _ _ (done0 ++ [c]) (S (length done0)) Hp Ht1) as [H1 H2 H3 H4 H5 H6 H7].
      * rewrite length_app. simpl. lia.
      * rewrite length_app. simpl. apply lookup_lt_Some in Hid. lia.
      * simpl. rewrite (take_last_id _ _ _ Hid). apply Forall2_app; [by apply shown_insert|].
        constructor; [|done]. simpl. by rewrite lookup_insert_eq.
      * split; auto. intros j Hj Hjn. rewrite (H6 j) by done. simpl. apply lookup_insert_ne.
        intros ->. by apply list_elem_of_lookup_2 in Hid.
    + apply call_true in Hc. injection Hc as <-.
      assert (length (message_ids e) = length done0) as Hlen by (apply lookup_ge_None in Hid; lia).
      assert (next_message e ∉ message_ids e) as Hnew.
      { destruct Ht as [_ Hf]. rewrite Forall_forall in Hf. intros Hin. specialize (Hf _ Hin). lia. }
      destruct (IH _ _ _ _ (done0 ++ [c]) (S (length done0)) Hp Ht1) as [H1 H2 H3 H4 H5 H6 H7].
      * rewrite length_app. simpl. lia.
      * simpl. rewrite !length_app. simpl. lia.
      * simpl. rewrite take_ge by (rewrite length_app; simpl; lia). apply Forall2_app; [|constructor; [|done]].
        -- rewrite take_ge in Hs by lia. by apply (shown_insert e).
        -- simpl. by rewrite lookup_insert_eq.
      * simpl in *. split; auto.
        -- rewrite H3. rewrite !drop_ge; [done|rewrite !length_app; simpl; lia|rewrite !length_app; simpl; lia].
        -- simpl in H4. lia.
        -- intros j Hj. destruct (H5 j Hj) as [Hin|]; [|right; lia]. simpl in Hin.
           apply elem_of_app in Hin as [?|Hin]; [by left|]. apply list_elem_of_singleton in Hin as ->. right. lia.
        -- intros j Hj Hjn. rewrite (H6 j); simpl; [apply lookup_insert_ne; lia|lia|].
           rewrite elem_of_app. intros [?|Hj']; [done|]. apply list_elem_of_singleton in Hj'. lia.
        -- destruct H7 as [l ->]. exists (next_message e :: l). by rewrite <- app_assoc.
Qed.

Lemma delete_all_board ids : forall oks e oks' e',
  delete_all ids (oks, e) = (true, (oks', e')) ->
  message_ids e' = message_ids e /\ next_message e' = next_message e /\
  (forall j, j ∈ ids -> board e' !! j = None) /\ (forall j, j ∉ ids -> board e' !! j = board e !! j).
Proof.
  induction ids as [|i rest IH]; intros oks e oks' e' Hd; simpl in Hd.
  - injection Hd as <- <-. split; [done|]. split; [done|]. split; [set_solver|done].
  - apply and_then_true in Hd as ([oks1 e1] & Hc & Hd). apply call_true in Hc.
    destruct (board e !! i); [|done]. injection Hc as <-.
    destruct (IH _ _ _ _ Hd) as (-> & -> & H1 & H2). split; [done|]. split; [done|]. split.
    + intros j [->|Hj]%elem_of_cons; [|auto]. destruct (decide (i ∈ rest)); [auto|].
      rewrite H2 by done. simpl. apply lookup_delete_eq.
    + intros j [Hji Hj]%not_elem_of_cons. rewrite H2 by done. simpl. by apply lookup_delete_ne.
Qed.

Lemma shown_agree e e' ids cs : (forall j, j ∈ ids -> board e' !! j = board e !! j) -> shown e ids cs -> shown e' ids cs.
Proof.
  intros Ha. induction 1 as [|x y ids cs Hx Hs IH]; constructor; [rewrite Ha by set_solver; done|].
  apply IH. intros j Hj. apply Ha. set_solver.
Qed.

Lemma write_final_shows preview chunks now oks e oks' e' :
  tracked e -> write_update true preview chunks now (oks, e) = (true, (oks', e')) ->
  shows e' chunks /\
  (forall j, j ∈ message_ids e -> j ∉ message_ids e' -> board e' !! j = None) /\
  (forall j, (j < next_message e)%N -> j ∉ message_ids e -> board e' !! j = board e !! j).
Proof.
  intros Ht Hw. unfold write_update in Hw. apply and_then_true in Hw as ([oks1 e1] & Hty & Hw).
  apply call_true in Hty. injection Hty as <-. apply and_then_true in Hw as ([oks2 e2] & Hw & Hlast).
  injection Hlast as _ <-. apply and_then_true in Hw as ([oks3 e3] & Hp & Hd).
  assert (tracked e3) as Ht3.
  { change e3 with (snd (snd (true, (oks3, e3)))). rewrite <- Hp. by apply tracked_post. }
  destruct (post_posted chunks _ _ _ _ [] 0 Hp Ht) as [H1 H2 H3 H4 H5 H6 [l H7]]; [done|simpl; lia|constructor|].
  simpl in H1, H2, H3. unfold delete_stale in Hd. apply delete_all_board in Hd as (Hids & _ & Hgone & Hkept). simpl in *.
  assert (forall j, j ∈ take (length chunks) (message_ids e3) -> j ∉ drop (length chunks) (message_ids e3)) as Hdis.
  { destruct Ht3 as [Hn _]. rewrite <- (take_drop (length chunks)) in Hn. by apply NoDup_app in Hn as (_ & Hn & _). }
  split; [|split].
  - unfold shows. simpl. rewrite Hids. fold (shown (with_last (Some now) e2) (take (length chunks) (message_ids e3)) chunks).
    eapply shown_agree; [|exact H1]. intros j Hj. simpl. apply Hkept. by apply Hdis.
  - intros j Hj Hn. simpl in *. rewrite Hids in Hn. apply Hgone. rewrite H3.
    rewrite <- (take_drop (length chunks) (message_ids e)) in Hj. apply elem_of_app in Hj as [Hj|Hj]; [|done].
    exfalso. apply Hn. rewrite H7, take_app. set_solver.
  - intros j Hj Hn. simpl. rewrite Hkept; [by apply H6|]. rewrite H3. intros Hin. apply Hn.
    rewrite <- (take_drop (length chunks) (message_ids e)). set_solver.
Qed.

Lemma write_frame is_final preview chunks now R h :
  keeps (fun e => revision e = R /\ holder e = h) (write_update is_final preview chunks now).
Proof.
  assert (forall f, (forall e e', f e = Some e' -> revision e' = revision e /\ holder e' = holder e) ->
    keeps (fun e => revision e = R /\ holder e = h) (call f)) as Hcall.
  { intros f Hf. apply keeps_call. intros e e' [<- <-] He. by apply Hf. }
  assert (forall id c, keeps (fun e => revision e = R /\ holder e = h) (edit_message id c)) as Hedit.
  { intros id c. apply Hcall. intros e e'. case_match; [|done]. by intros [= <-]. }
  apply keeps_then; [apply Hcall; by intros e e' [= <-]|]. apply keeps_then; [|by intros oks e].
  destruct is_final.
  - apply keeps_then.
    + apply keeps_post; [done|]. intros c. apply Hcall. by intros ? ? [= <-].
    + intros oks e He. apply (keeps_delete_all (fun e => revision e = R /\ holder e = h)); [|done].
      intros i. apply Hcall. intros e1 e1'. case_match; [|done]. by intros [= <-].
  - intros oks e He. unfold edit_preview. simpl. case_match; [done|by apply Hedit].
Qed.

(** ** Updates in any interleaving *)

Definition rev_of (a : at_) : option N :=
  match a with
  | UFetch => None
  | UDebounce r | UPeek r | UCheck r | ULock r | UHeld r | USleep r | URelock r | UHeld2 r | UWrite r | UDone r _ => Some r
  end.
Definition in_lock (a : at_) : bool := match a with UHeld _ | UHeld2 _ | UWrite _ => true | _ => false end.
Definition final_place (a : at_) : bool :=
  match a with UFetch | ULock _ | UHeld _ | UWrite _ | UDone _ _ => true | _ => false end.

(** [f] is the only final update. *)
Definition only_final (f : nat) (us : list Update) : Prop := forall i u, us !! i = Some u -> u_final u = true -> i = f.

Record live (f : nat) (e : Editor) (us : list Update) : Prop := {
  live_tracked : tracked e;
  live_holder : forall i u, us !! i = Some u -> in_lock (u_at u) = true -> holder e = Some i;
  live_holder_in : forall i, holder e = Some i -> exists u, us !! i = Some u /\ in_lock (u_at u) = true;
  live_rev : forall i u r, us !! i = Some u -> rev_of (u_at u) = Some r -> (r <= revision e)%N;
  live_distinct : forall i j u v r, us !! i = Some u -> us !! j = Some v ->
    rev_of (u_at u) = Some r -> rev_of (u_at v) = Some r -> i = j;
  live_final : forall i u, us !! i = Some u -> u_final u = true -> final_place (u_at u) = true;
  live_shown : forall u r, us !! f = Some u -> u_final u = true -> u_at u = UDone r true -> revision e = r ->
    shows e (u_chunks u) /\ forall i v r', us !! i = Some v -> u_at v <> UWrite r'
}.

(** A step that neither draws a revision nor writes. *)
Lemma live_move f e us i u a h :
  live f e us -> us !! i = Some u -> rev_of a = rev_of (u_at u) ->
  (h = holder e /\ in_lock a = in_lock (u_at u) \/ holder e = None /\ h = Some i /\ in_lock a = true \/
   in_lock (u_at u) = true /\ h = None /\ in_lock a = false) ->
  (u_final u = true -> final_place a = true) ->
  (forall r, a = UDone r true -> u_final u = false) ->
  (forall r, a = UWrite r -> u_final u = true \/ revision e = r) ->
  only_final f us ->
  live f (with_holder h e) (<[i := move a u]> us).
Proof.
  intros [H1 H2 H3 H4 H5 H6 H7] Hi Hrev Hh Hfin Hdone Hwrite Honly.
  assert (forall j v, <[i := move a u]> us !! j = Some v ->
    (j = i /\ v = move a u) \/ (j <> i /\ us !! j = Some v)) as Hcase.
  { intros j v Hj. apply list_lookup_insert_Some in Hj as [(<- & <- & _)|[Hne Hj]]; [by left|by right]. }
  assert (<[i := move a u]> us !! i = Some (move a u)) as Hself by (apply list_lookup_insert_eq; by eapply lookup_lt_Some).
  assert (forall j v, <[i := move a u]> us !! j = Some v -> exists v', us !! j = Some v' /\ rev_of (u_at v) = rev_of (u_at v')) as Hback.
  { intros j v Hj. destruct (Hcase _ _ Hj) as [[-> ->]|[_ ?]]; [exists u; by rewrite <- Hrev | by exists v]. }
  split; simpl.
  - done.
  - intros j v Hj Hl. destruct (Hcase _ _ Hj) as [[-> ->]|[Hne Hj']]; simpl in Hl.
    + destruct Hh as [[-> E]|[(_ & -> & _)|(_ & _ & E)]]; [|done|congruence]. apply (H2 _ _ Hi). by rewrite <- E.
    + pose proof (H2 _ _ Hj' Hl) as Hj2. destruct Hh as [[-> _]|[(E & _)|(E & _)]]; [done|congruence|].
      apply (H2 _ _ Hi) in E. congruence.
  - intros j Hj. destruct Hh as [[-> E]|[(E & -> & E')|(_ & -> & _)]]; [| |done].
    + destruct (H3 _ Hj) as (v & Hv & Hl). destruct (decide (j = i)) as [->|Hne].
      * exists (move a u). split; [done|]. simplify_eq. simpl. by rewrite E.
      * exists v. by rewrite list_lookup_insert_ne.
    + injection Hj as <-. by exists (move a u).
  - intros j v r Hj Hr. destruct (Hback _ _ Hj) as (v' & Hv' & E). rewrite E in Hr. eauto.
  - intros j k v w r Hj Hk Hr Hr'. destruct (Hback _ _ Hj) as (v' & ? & E), (Hback _ _ Hk) as (w' & ? & E').
    rewrite E in Hr. rewrite E' in Hr'. eauto.
  - intros j v Hj Hv. destruct (Hcase _ _ Hj) as [[-> ->]|[_ ?]]; [by apply Hfin|eauto].
  - intros v r Hf Hv Hd HR. destruct (Hcase _ _ Hf) as [[-> ->]|[Hne Hf']].
    { simpl in *. apply Hdone in Hd. congruence. }
    destruct (H7 _ _ Hf' Hv Hd HR) as [Hs Hn]. split; [done|]. intros j w r' Hj Hw.
    destruct (Hcase _ _ Hj) as [[-> ->]|[_ Hj']]; [|by apply (Hn _ _ r' Hj')]. simpl in Hw.
    destruct (Hwrite _ Hw) as [Hfu|HR'].
    + apply Hne. symmetry. by apply (Honly _ _ Hi).
    + apply Hne. eapply (H5 f i); [done|done|by rewrite Hd|]. rewrite <- Hrev, Hw. simpl. congruence.
Qed.

Lemma with_holder_id e : with_holder (holder e) e = e.
Proof. by destruct e. Qed.

Lemma is_current_spec e r : is_current e r = true <-> revision e = r.
Proof. apply N.eqb_eq. Qed.

(** Every step but drawing a revision and writing is a move. *)
Lemma ustep_moves debounce i now oks u e u' e' :
  ustep debounce i now oks u e = Some (u', e') ->
  (forall r, u_at u <> UWrite r) -> u_at u <> UFetch ->
  (in_lock (u_at u) = true -> holder e = Some i) ->
  (u_final u = true -> final_place (u_at u) = true) ->
  exists a h, u' = move a u /\ e' = with_holder h e /\ rev_of a = rev_of (u_at u) /\
    (h = holder e /\ in_lock a = in_lock (u_at u) \/ holder e = None /\ h = Some i /\ in_lock a = true \/
     in_lock (u_at u) = true /\ h = None /\ in_lock a = false) /\
    (u_final u = true -> final_place a = true) /\
    (forall r, a = UDone r true -> u_final u = false) /\
    (forall r, a = UWrite r -> u_final u = true \/ revision e = r).
Proof.
  unfold ustep. intros Hs Hw Hf Hl Hfin.
  destruct (u_at u) as [|r|r|r|r|r|r|r|r|r|r ok] eqn:Ha; simpl in *; try done; try (by destruct (Hw r)).
  - injection Hs as <- <-. eexists _, (holder e). rewrite with_holder_id. split; [done|]. destruct (u_final u); [by specialize (Hfin eq_refl)|].
    by destruct (is_current e r); repeat split; auto.
  - destruct (holder e) eqn:Hh; [done|]. injection Hs as <- <-. eexists _, (holder e). rewrite with_holder_id. split; [done|].
    destruct (u_final u); [by specialize (Hfin eq_refl)|]. rewrite Hh. by destruct (due debounce now e); repeat split; auto.
  - injection Hs as <- <-. eexists _, (holder e). rewrite with_holder_id. split; [done|]. destruct (u_final u); [by specialize (Hfin eq_refl)|].
    by destruct (is_current e r); repeat split; auto.
  - destruct (holder e) eqn:Hh; [done|]. injection Hs as <- <-. eexists _, (Some i). split; [done|]. split; [done|]. repeat split; auto; done.
  - destruct (u_final u) eqn:Hu.
    { injection Hs as <- <-. eexists _, (holder e). rewrite with_holder_id. split; [done|]. repeat split; auto; done. }
    destruct (is_current e r) eqn:Hc; simpl in Hs.
    + apply is_current_spec in Hc. destruct (due debounce now e); injection Hs as <- <-.
      * eexists _, (holder e). rewrite with_holder_id. split; [done|]. repeat split; auto; try done. intros r' [= <-]. by right.
      * eexists _, None. split; [done|]. repeat split; auto; done.
    + injection Hs as <- <-. eexists _, None. split; [done|]. repeat split; auto; done.
  - injection Hs as <- <-. eexists _, (holder e). rewrite with_holder_id. split; [done|]. destruct (u_final u); [by specialize (Hfin eq_refl)|].
    by destruct (is_current e r); repeat split; auto.
  - destruct (holder e) eqn:Hh; [done|]. injection Hs as <- <-. eexists _, (Some i). split; [done|].
    destruct (u_final u); [by specialize (Hfin eq_refl)|]. split; [done|]. repeat split; auto; done.
  - destruct (u_final u); [by specialize (Hfin eq_refl)|]. destruct (is_current e r) eqn:Hc; injection Hs as <- <-.
    + apply is_current_spec in Hc. eexists _, (holder e). rewrite with_holder_id. split; [done|]. repeat split; auto; try done. intros r' [= <-]. by right.
    + eexists _, None. split; [done|]. repeat split; auto; done.
Qed.

Lemma live_fetch f e us i u :
  live f e us -> us !! i = Some u -> u_at u = UFetch ->
  live f (mkEditor (revision e + 1) (last_edit e) (message_ids e) (holder e) (board e) (next_message e))
    (<[i := move (if u_final u then ULock (revision e + 1) else UDebounce (revision e + 1)) u]> us).
Proof.
  intros [H1 H2 H3 H4 H5 H6 H7] Hi Ha. set (a := if u_final u then _ else _).
  assert (rev_of a = Some (revision e + 1)%N /\ in_lock a = false /\ (u_final u = true -> final_place a = true) /\ forall r ok, a <> UDone r ok)
    as (Ha1 & Ha2 & Ha3 & Ha4) by (unfold a; by destruct (u_final u)).
  assert (forall j v, <[i := move a u]> us !! j = Some v ->
    (j = i /\ v = move a u) \/ (j <> i /\ us !! j = Some v)) as Hcase.
  { intros j v Hj. apply list_lookup_insert_Some in Hj as [(<- & <- & _)|[Hne Hj]]; [by left|by right]. }
  split; simpl.
  - done.
  - intros j v Hj Hl. destruct (Hcase _ _ Hj) as [[-> ->]|[_ ?]]; [simpl in Hl; congruence|eauto].
  - intros j Hj. destruct (H3 _ Hj) as (v & Hv & Hl). exists v. split; [|done].
    rewrite list_lookup_insert_ne; [done|]. intros ->. rewrite Hi in Hv. simplify_eq. by rewrite Ha in Hl.
  - intros j v r Hj Hr. destruct (Hcase _ _ Hj) as [[-> ->]|[_ Hj']]; simpl in Hr.
    + rewrite Ha1 in Hr. injection Hr as <-. lia.
    + pose proof (H4 _ _ _ Hj' Hr). lia.
  - intros j k v w r Hj Hk Hr Hr'.
    destruct (Hcase _ _ Hj) as [[-> ->]|[_ Hj']], (Hcase _ _ Hk) as [[-> ->]|[_ Hk']]; simpl in Hr, Hr'; try done.
    + rewrite Ha1 in Hr. injection Hr as <-. pose proof (H4 _ _ _ Hk' Hr'). lia.
    + rewrite Ha1 in Hr'. injection Hr' as <-. pose proof (H4 _ _ _ Hj' Hr). lia.
    + eauto.
  - intros j v Hj Hv. destruct (Hcase _ _ Hj) as [[-> ->]|[_ ?]]; [by apply Ha3|eauto].
  - intros v r Hf Hv Hd HR. exfalso. destruct (Hcase _ _ Hf) as [[-> ->]|[_ Hf']]; [by eapply Ha4|].
    pose proof (H4 _ _ r Hf') as Hle. rewrite Hd in Hle. specialize (Hle eq_refl). lia.
Qed.

Lemma live_write f e us i u r now oks ok oks' e' :
  live f e us -> us !! i = Some u -> u_at u = UWrite r -> only_final f us ->
  write_update (u_final u) (u_preview u) (u_chunks u) now (oks, e) = (ok, (oks', e')) ->
  live f (with_holder None e') (<[i := move (UDone r ok) u]> us).
Proof.
  intros Hl Hi Ha Honly Hw. destruct (write_frame (u_final u) (u_preview u) (u_chunks u) now (revision e) (holder e) oks e (conj eq_refl eq_refl)) as [Hr Hh].
  assert (tracked e') as Ht.
  { pose proof (tracked_write (u_final u) (u_preview u) (u_chunks u) now oks e (live_tracked _ _ _ Hl)) as Ht. by rewrite Hw in Ht. }
  rewrite Hw in Hr, Hh. simpl in Hr, Hh. destruct Hl as [H1 H2 H3 H4 H5 H6 H7].
  assert (holder e = Some i) as Hhold by (apply (H2 _ _ Hi); by rewrite Ha).
  assert (forall j v, <[i := move (UDone r ok) u]> us !! j = Some v ->
    (j = i /\ v = move (UDone r ok) u) \/ (j <> i /\ us !! j = Some v)) as Hcase.
  { intros j v Hj. apply list_lookup_insert_Some in Hj as [(<- & <- & _)|[Hne Hj]]; [by left|by right]. }
  assert (forall j v, <[i := move (UDone r ok) u]> us !! j = Some v ->
    in_lock (u_at v) = false /\ exists v', us !! j = Some v' /\ rev_of (u_at v) = rev_of (u_at v')) as Hback.
  { intros j v Hj. destruct (Hcase _ _ Hj) as [[-> ->]|[Hne Hj']].
    - split; [done|]. exists u. by rewrite Ha.
    - split; [|by exists v]. destruct (in_lock (u_at v)) eqn:E; [|done]. pose proof (H2 _ _ Hj' E). congruence. }
  split; simpl.
  - done.
  - intros j v Hj Hl. destruct (Hback _ _ Hj) as [? _]. congruence.
  - done.
  - intros j v r' Hj Hr'. destruct (Hback _ _ Hj) as (_ & v' & ? & E). rewrite E in Hr'. rewrite Hr. eauto.
  - intros j k v w r' Hj Hk Hr' Hr''. destruct (Hback _ _ Hj) as (_ & v' & ? & E), (Hback _ _ Hk) as (_ & w' & ? & E').
    rewrite E in Hr'. rewrite E' in Hr''. eauto.
  - intros j v Hj Hv. destruct (Hcase _ _ Hj) as [[-> ->]|[_ ?]]; [done|eauto].
  - intros v r' Hf Hv Hd HR. split.
    + destruct (Hcase _ _ Hf) as [[-> ->]|[Hne Hf']].
      * simpl in *. injection Hd as <- ->. rewrite Hv in Hw. by apply write_final_shows in Hw as [? _].
      * exfalso. rewrite Hr in HR. destruct (H7 _ _ Hf' Hv Hd HR) as [_ Hn]. by apply (Hn i u r).
    + intros j w r'' Hj Hw'. destruct (Hback _ _ Hj) as [E _]. by rewrite Hw' in E.
Qed.

Lemma only_final_back debounce a f e us e' us' :
  act debounce a (e, us) = Some (e', us') -> only_final f us' -> only_final f us.
Proof.
  intros Ha Ho i u Hi Hu. destruct a as [v|j now oks]; simpl in Ha.
  - injection Ha as <- <-. apply (Ho i u); [|done]. rewrite lookup_app_l; [done|]. by eapply lookup_lt_Some.
  - apply bind_Some in Ha as (w & Hj & Ha). apply bind_Some in Ha as ([w' e1] & Hs & Ha). injection Ha as <- <-.
    destruct (decide (i = j)) as [->|Hne].
    + rewrite Hi in Hj. simplify_eq. apply (Ho j w').
      * apply list_lookup_insert_eq. by eapply lookup_lt_Some.
      * unfold ustep in Hs. destruct (u_at w); repeat case_match; by simplify_eq/=.
    + apply (Ho i u); [|done]. by rewrite list_lookup_insert_ne.
Qed.

Lemma live_act debounce a f e us e' us' :
  act debounce a (e, us) = Some (e', us') -> only_final f us -> live f e us -> live f e' us'.
Proof.
  intros Ha Ho Hl. destruct a as [v|i now oks]; simpl in Ha.
  - injection Ha as <- <-. destruct Hl as [H1 H2 H3 H4 H5 H6 H7].
    assert (forall j w, (us ++ [move UFetch v]) !! j = Some w -> u_at w = UFetch \/ us !! j = Some w) as Hcase.
    { intros j w Hj. apply lookup_snoc_Some in Hj as [[_ ?]|[_ <-]]; [by right|by left]. }
    split; try done.
    + intros j w Hj Hw. destruct (Hcase _ _ Hj) as [E|?]; [by rewrite E in Hw|eauto].
    + intros j Hj. destruct (H3 _ Hj) as (w & Hw & ?). exists w. split; [|done]. apply lookup_app_l_Some. exact Hw.
    + intros j w r Hj Hw. destruct (Hcase _ _ Hj) as [E|?]; [by rewrite E in Hw|eauto].
    + intros j k w x r Hj Hk Hw Hx. destruct (Hcase _ _ Hj) as [E|?]; [by rewrite E in Hw|].
      destruct (Hcase _ _ Hk) as [E|?]; [by rewrite E in Hx|eauto].
    + intros j w Hj Hw. destruct (Hcase _ _ Hj) as [E|?]; [by rewrite E|eauto].
    + intros w r Hj Hw Hd HR. destruct (Hcase _ _ Hj) as [E|Hj']; [by rewrite E in Hd|].
      destruct (H7 _ _ Hj' Hw Hd HR) as [Hs Hn]. split; [done|]. intros k x r' Hk Hx.
      destruct (Hcase _ _ Hk) as [E|Hk']; [by rewrite E in Hx|by apply (Hn _ _ r' Hk')].
  - apply bind_Some in Ha as (u & Hi & Ha). apply bind_Some in Ha as ([u' e1] & Hs & Ha). injection Ha as <- <-.
    destruct (u_at u) as [|r|r|r|r|r|r|r|r|r|r ok] eqn:Hat.
    1: { unfold ustep in Hs. rewrite Hat in Hs. injection Hs as <- <-. by apply live_fetch. }
    9: { unfold ustep in Hs. rewrite Hat in Hs. destruct (write_update _ _ _ _ _) as [ok [oks' e2]] eqn:Hw.
         injection Hs as <- <-. by eapply live_write. }
    all: destruct (ustep_moves _ _ _ _ _ _ _ _ Hs) as (a & h & -> & -> & ? & ? & ? & ? & ?); rewrite ?Hat; [done|done| | |by apply live_move].
    all: first [intros Hin; apply (live_holder _ _ _ Hl i u Hi); by rewrite Hat
               |intros Hu; pose proof (live_final _ _ _ Hl i u Hi Hu) as Hp; by rewrite Hat in Hp].
Qed.

Lemma live_acts debounce l f e0 e us :
  tracked e0 -> holder e0 = None -> acts debounce l (e0, []) = Some (e, us) -> only_final f us -> live f e us.
Proof.
  intros Ht Hh. assert (live f e0 []) as H0.
  { split; try done. intros i Hi. congruence. }
  clear Ht Hh. revert H0. generalize (@nil Update) as us0. revert e0.
  induction l as [|a l IH]; intros e0 us0 H0 Hr Ho; simpl in Hr; [by simplify_eq|].
  apply bind_Some in Hr as ([e1 us1] & Ha & Hr). apply (IH e1 us1); [|done|done].
  eapply live_act; [exact Ha| |exact H0].
  eapply only_final_back; [exact Ha|]. clear - Hr Ho. revert e1 us1 Hr.
  induction l as [|a l IH]; intros e1 us1 Hr; simpl in Hr; [by simplify_eq|].
  apply bind_Some in Hr as ([e2 us2] & Ha & Hr). eapply only_final_back; [exact Ha|]. by apply (IH e2).
Qed.

(** The final answer stays on screen: once the one final update of a
    response has succeeded and no newer update was issued, the channel shows
    exactly its messages under the response's ids, whichever previews were
    asleep, waiting for the mutex or writing when it was issued and however
    they go on. *)
Theorem final_update_stays (debounce : Z) (l : list Act) (f : nat) (e0 e : Editor) (us : list Update) (u : Update) (r : N) :
  tracked e0 -> holder e0 = None -> acts debounce l (e0, []) = Some (e, us) ->
  only_final f us -> us !! f = Some u -> u_final u = true -> u_at u = UDone r true -> revision e = r ->
  shows e (u_chunks u) /\ NoDup (message_ids e).
Proof.
  intros Ht Hh Hr Ho Hf Hu Hd HR. pose proof (live_acts _ _ _ _ _ _ Ht Hh Hr Ho) as Hl.
  split; [|apply Hl]. by destruct (live_shown _ _ _ Hl u r Hf Hu Hd HR).
Qed.

(** A successful final write removes the messages it no longer needs and
    touches no message of anybody else. *)
Theorem final_write_exact (preview : str) (chunks : list str) (now : Z) (oks oks' : list bool) (e e' : Editor) :
  tracked e -> write_update true preview chunks now (oks, e) = (true, (oks', e')) ->
  shows e' chunks /\ tracked e' /\
  (forall j, j ∈ message_ids e -> j ∉ message_ids e' -> board e' !! j = None) /\
  (forall j, (j < next_message e)%N -> j ∉ message_ids e -> board e' !! j = board e !! j).
Proof.
  intros Ht Hw. destruct (write_final_shows _ _ _ _ _ _ _ Ht Hw) as (? & ? & ?). split; [done|]. split; [|done].
  pose proof (tracked_write true preview chunks now oks e Ht) as Ht'. by rewrite Hw in Ht'.
Qed.

(** ** Concrete runs *)

Module Samples.

(** Nine messages unpaginated; eleven with the header of nine, so thirteen
    with the header of eleven, which still says eleven. *)
Definition word (n : nat) : str := repeat 97%N (n - 1) ++ [32%N].
Definition long_text : str := word 998 ++ word 998 ++ concat (repeat (word 995) 16).

Theorem page_total_wrong :
  (length <$> chunk_markdown_paginated long_text DISCORD_MESSAGE_LIMIT true) = Some 13 /\
  (take 8 <$> (chunk_markdown_paginated long_text DISCORD_MESSAGE_LIMIT true ≫= head)) = Some (chars "(1/11)" ++ [LINE_FEED; 97%N]).
Proof. split; vm_compute; reflexivity. Qed.

Definition code : str :=
  chars "intro" ++ [LINE_FEED] ++ chars "```rust" ++ [LINE_FEED] ++ chars "let x = 42;" ++ [LINE_FEED] ++
  chars "let y = 43;" ++ [LINE_FEED] ++ chars "```" ++ [LINE_FEED] ++ chars "outro".

(** Three messages 1, 2, 3 on screen, of which the final text needs one; the
    first deletion fails. *)
Definition three : Editor := mkEditor 0 None [1; 2; 3]%N None {[1%N := chars "a"; 2%N := chars "b"; 3%N := chars "c"]} 4.

(** The ids to delete are forgotten before the first deletion: when it fails
    the stale messages stay on screen, and no later update deletes them. *)
Theorem failed_deletion_orphans :
  let '(ok, (_, e)) := write_update true [] [chars "z"] 0 ([true; true; false], three) in
  let '(ok', (_, e')) := write_update true [] [chars "z"] 1 ([], e) in
  ok = false /\ message_ids e = [1%N] /\ ok' = true /\ message_ids e' = [1%N] /\
  board e' !! 2%N = Some (chars "b") /\ board e' !! 3%N = Some (chars "c").
Proof. vm_compute. done. Qed.

Definition a_preview (s : string) : Update := mkUpdate false (chars s) [] UFetch.
Definition the_final : Update := mkUpdate true [] [chars "x"; chars "y"] UFetch.
Definition start : Editor := mkEditor 0 None [1%N] None {[1%N := chars "."]} 2.

(** A preview is about to write when the final update is issued; another is
    asleep. *)
Definition interleaved : list Act :=
  [ACall (a_preview "p"); AStep 0 0 []; AStep 0 0 []; AStep 0 0 []; AStep 0 0 []; AStep 0 0 []; AStep 0 0 [];
   ACall (a_preview "q"); AStep 1 1 [];
   ACall the_final; AStep 2 2 [];
   AStep 0 3 []; AStep 2 4 []; AStep 2 4 []; AStep 2 5 []; AStep 1 6 []].

Definition after : Editor * list Update := default (start, []) (acts 800 interleaved (start, [])).

Lemma final_update_stays_witness :
  exists e us u, acts 800 interleaved (start, []) = Some (e, us) /\ us !! 2 = Some u /\
    shows e (u_chunks u) /\ NoDup (message_ids e).
Proof.
  eexists _, _, _. split; [vm_compute; reflexivity|]. split; [reflexivity|].
  eapply (final_update_stays 800 interleaved 2 start _ _ _ 3).
  - split; [apply NoDup_singleton|]. constructor; [reflexivity|constructor].
  - reflexivity.
  - vm_compute. reflexivity.
  - intros i u Hi Hu. destruct i as [|[|[|i]]]; simpl in Hi; [injection Hi as <-; done|injection Hi as <-; done|reflexivity|done].
  - reflexivity.
  - reflexivity.
  - reflexivity.
  - reflexivity.
Defined.

Lemma final_write_exact_witness :
  exists oks' e', write_update true [] [chars "z"] 0 ([], three) = (true, (oks', e')) /\ shows e' [chars "z"].
Proof.
  eexists _, _. split; [vm_compute; reflexivity|].
  eapply (final_write_exact [] [chars "z"] 0 [] _ three).
  - split; [apply (bool_decide_unpack _); vm_compute; reflexivity|]. repeat constructor.
  - vm_compute. reflexivity.
Defined.

Lemma splitting_terminates_witness :
  0 < 30 /\ exists cs, chunk_markdown_raw code 30 (Some 3) = Some cs /\ Forall (fun c => 0 < length c <= 30) cs.
Proof. split; [lia|]. apply splitting_terminates. lia. Defined.

Lemma splitting_keeps_content_witness :
  exists cs, chunk_markdown_raw code 40 None = Some cs /\ exists parts : list (str * str * str),
    cs = map (fun '(before, piece, after) => before ++ piece ++ after) parts /\
    concat (map (fun '(_, piece, _) => piece) parts) = code.
Proof.
  eexists. split; [vm_compute; reflexivity|].
  edestruct (splitting_keeps_content code 40 None) as (parts & H1 & H2 & _); [lia|vm_compute; reflexivity|].
  exists parts. split; [exact H1|exact H2].
Defined.

Lemma fences_balanced_witness :
  exists cs c, chunk_markdown_raw code 30 None = Some cs /\ cs !! 0 = Some c /\ scan_fences c None = None.
Proof.
  eexists _, _. split; [vm_compute; reflexivity|]. split; [reflexivity|].
  eapply (fences_balanced code 30 12 None _).
  - intros l Hl. apply Nat.leb_le. revert l Hl. apply Forall_forall. repeat constructor.
  - intros j _. simpl. lia.
  - vm_compute. reflexivity.
  - instantiate (1 := 0). simpl. lia.
  - reflexivity.
Defined.

Lemma page_total_exact_witness :
  exists cs, chunk_markdown_paginated code 40 true = Some cs /\ chunk_markdown_raw code 40 (Some (length cs)) = Some cs.
Proof.
  eapply (page_total_exact code 40); [lia|vm_compute; reflexivity|simpl; lia|vm_compute; reflexivity|reflexivity].
Defined.
End Samples.
