(* ===== verification/Inbound.v ===== *)
(** * Inbound messages ([src/discord/adapter.rs], the inbound half)

    Which Discord messages become events and for whom (the filter of
    [message_to_inbound_with_config], with the authorizations of
    [commands.rs]), the debouncer that gathers the pieces of a split message,
    the claim of a flushed batch in the ledger, and the backfill of messages
    missed while offline with its cursors.  A message is what serenity
    decodes; UUIDs, the clock, the history Discord returns and the outcome of
    a turn are arguments. *)
From stdpp Require Import base list strings gmap.
From Stdlib Require Import ZArith NArith Lia Ascii String Sorted.
From S2P Require Import Prelude RustStr Json Db Session Events Ledger.
Open Scope string_scope.
Open Scope db_scope.
Local Notation length := Datatypes.length.

(** ** Messages *)

Record Attachment : Type := mkFile {
  file_id : N;
  file_name : string;
  file_url : string;
  file_type : option string;
  file_size : N
}.

Inductive MessageType : Type := Regular | InlineReply | OtherMessage.
Inductive ChannelType : Type := Text | Private | NewsThread | PublicThread | PrivateThread | OtherChannel.

#[export] Instance MessageType_eq_dec : EqDecision MessageType.
Proof. solve_decision. Defined.
#[export] Instance ChannelType_eq_dec : EqDecision ChannelType.
Proof. solve_decision. Defined.

(** The parts of a referenced message and of a forwarded snapshot that are used. *)
Record Referenced : Type := mkReferenced { ref_author : string; ref_content : string; ref_files : list Attachment }.
Record Snapshot : Type := mkSnapshot { snap_content : string; snap_files : list Attachment }.

Record Message : Type := mkMessage {
  m_id : N;
  m_channel : N;
  m_guild : option N;
  m_author : N;
  m_bot : bool;
  m_webhook : bool;
  m_kind : MessageType;
  m_content : string;
  m_mentions : list (N * bool);
  m_files : list Attachment;
  m_snapshots : list Snapshot;
  m_referenced : option Referenced;
  m_timestamp : option Z
}.

Inductive AllowBotsMode : Type := NoBots | Mentions | All.

Definition parse_allow_bots (s : option string) : AllowBotsMode :=
  match option_map (fun v => to_ascii_lowercase (RustStr.trim v)) s with
  | Some v =>
      if String.eqb v "all" then All
      else if String.eqb v "mentions" || String.eqb v "mention" then Mentions
      else NoBots
  | None => NoBots
  end.

(** [thread_sessions_per_user], which the filter does not read, is left out. *)
Record InboundFilterConfig : Type := mkFilter {
  free_response_channels : list N;
  allowed_users : list N;
  allowed_roles : list N;
  user_roles : list N;
  allow_all_users : bool;
  active_threads : list N;
  thread_owners : list (N * N);
  allowed_channels : list N;
  ignored_channels : list N;
  primary_bot_id : option N;
  thread_require_mention : bool;
  allow_bots : AllowBotsMode;
  paired_users : list N;
  parent_channel_id : option N
}.

Definition member (x : N) (l : list N) : bool := existsb (N.eqb x) l.

(** ** Authorization ([src/discord/commands.rs]) *)

Definition is_user_authorized (user_id : N) (roles users allowed : list N) (all : bool) : bool :=
  all || member user_id users || existsb (fun r => member r allowed) roles.

Definition is_channel_authorized (channel_id : N) (parent : option N) (allowed ignored : list N) (is_dm : bool) : bool :=
  let parent_in l := match parent with Some p => member p l | None => false end in
  if member channel_id ignored then false
  else if parent_in ignored then false
  else if negb is_dm && negb (match allowed with [] => true | _ => false end) then
    member channel_id allowed || parent_in allowed
  else true.

(** ** Text *)

(** [s.replace(p, "")] for a nonempty [p]. *)
Fixpoint remove_all (p s : string) (skip : nat) : string :=
  match s with
  | "" => ""
  | String c r =>
      match skip with
      | S k => remove_all p r k
      | O => if starts_with p s then remove_all p r (len p - 1) else String c (remove_all p r 0)
      end
  end.

Definition strip_bot_mention (content : string) (bot : N) : string :=
  RustStr.trim (remove_all ("<@!" ++ show_N bot ++ ">") (remove_all ("<@" ++ show_N bot ++ ">") content 0) 0).

Definition is_blank (s : string) : bool := String.eqb (RustStr.trim s) "".

Definition att_summary (files : list Attachment) : string :=
  match files with
  | [f] => "[Attachment: " ++ file_name f ++ "]"
  | _ => "[Attachments: " ++ join ", " (map file_name files) ++ "]"
  end.

(** Trimmed text followed by the summary of the attachments. *)
Definition with_summary (content : string) (files : list Attachment) : string :=
  let part := RustStr.trim content in
  match files with
  | [] => part
  | _ => if String.eqb part "" then att_summary files else part ++ " " ++ att_summary files
  end.

Definition to_attachment (f : Attachment) : MessageAttachment :=
  mkAttachment (show_N (file_id f)) (file_name f) (file_url f) (file_type f) (Some (file_size f)) None None.

Definition extract_forwarded_snapshots (snapshots : list Snapshot) : string * list MessageAttachment :=
  let parts := List.filter (fun p => negb (String.eqb p "")) (map (fun s => with_summary (snap_content s) (snap_files s)) snapshots) in
  let joined := join (String LF "") parts in
  (if String.eqb joined "" then "" else "[Forwarded]" ++ String LF joined,
   flat_map (fun s => map to_attachment (snap_files s)) snapshots).

Definition REFERENCED_CONTENT_CAP : nat := 500.

Definition two_lines (a b : string) : string := a ++ String LF (String LF b).

Definition compose_reply_context (referenced_author referenced_content body : string) : string :=
  let cs := RustStr.chars referenced_content in
  let truncated_content :=
    if (REFERENCED_CONTENT_CAP <? length cs)%nat then of_chars (take REFERENCED_CONTENT_CAP cs) ++ "..." else referenced_content in
  let clean_content := RustStr.trim truncated_content in
  let quote := "> [Replying to @" ++ referenced_author ++ "]" ++ (if String.eqb clean_content "" then "" else ": " ++ clean_content) in
  if String.eqb body "" then quote else two_lines quote body.

(** ** The filter *)

Definition is_thread (kind : ChannelType) : bool :=
  match kind with NewsThread | PublicThread | PrivateThread => true | _ => false end.
Definition in_thread (kind : option ChannelType) : bool := match kind with Some k => is_thread k | None => false end.

Definition mentioned_bots (m : Message) : list N := omap (fun '(id, bot) => if bot : bool then Some id else None) (m_mentions m).

(** [referenced_message]'s attachments, those already there left out. *)
Fixpoint union_files (files : list Attachment) (l : list MessageAttachment) : list MessageAttachment :=
  match files with
  | [] => l
  | f :: rest =>
      union_files rest
        (if existsb (fun a => String.eqb (at_id a) (show_N (file_id f))) l then l else l ++ [to_attachment f])%list
  end.

Definition is_dm (m : Message) (kind : option ChannelType) : bool :=
  match m_guild m with None => true | Some _ => bool_decide (kind = Some Private) end.

(** The guards before the mentions are looked at. *)
Definition eligible (m : Message) (bot : N) (kind : option ChannelType) (c : InboundFilterConfig) : bool :=
  negb (m_webhook m) &&
  negb (m_author m =? bot)%N &&
  (negb (m_bot m) || match allow_bots c with NoBots => false | Mentions => member bot (mentioned_bots m) | All => true end) &&
  match m_kind m with OtherMessage => false | _ => true end &&
  negb (bool_decide (m_guild m <> None) && bool_decide (kind = None)) &&
  is_channel_authorized (m_channel m) (parent_channel_id c) (allowed_channels c) (ignored_channels c) (is_dm m kind) &&
  (member (m_author m) (paired_users c) ||
   is_user_authorized (m_author m) (user_roles c) (allowed_users c) (allowed_roles c) (allow_all_users c)).

Definition thread_owner (m : Message) (kind : option ChannelType) (c : InboundFilterConfig) : option N :=
  if in_thread kind then snd <$> List.find (fun '(tid, _) => tid =? m_channel m)%N (thread_owners c) else None.

Definition parent_is_free (c : InboundFilterConfig) : bool :=
  match parent_channel_id c with Some p => member p (free_response_channels c) | None => false end.

(** Whether this bot is the one to answer. *)
Definition addressed (m : Message) (bot : N) (kind : option ChannelType) (c : InboundFilterConfig) : bool :=
  match mentioned_bots m with
  | _ :: _ => member bot (mentioned_bots m)
  | [] =>
      let owner := thread_owner m kind c in
      let is_free_channel := member (m_channel m) (free_response_channels c) || parent_is_free c in
      let is_active_thread :=
        in_thread kind && negb (thread_require_mention c) &&
        (parent_is_free c || bool_decide (owner <> None) || member (m_channel m) (active_threads c)) in
      (is_dm m kind || is_active_thread || is_free_channel) &&
      (is_dm m kind ||
       match in_thread kind, owner with
       | true, Some o => (o =? bot)%N
       | _, _ => bool_decide (primary_bot_id c = Some bot)
       end)
  end.

Definition inbound_text (m : Message) (bot : N) : string :=
  let forwarded_block := fst (extract_forwarded_snapshots (m_snapshots m)) in
  let raw := strip_bot_mention (m_content m) bot in
  if String.eqb forwarded_block "" then raw
  else if is_blank raw then forwarded_block else two_lines raw forwarded_block.

Definition inbound_files (m : Message) : list MessageAttachment :=
  union_files (match m_referenced m with Some p => ref_files p | None => [] end)
    (map to_attachment (m_files m) ++ snd (extract_forwarded_snapshots (m_snapshots m)))%list.

Definition inbound_session (m : Message) (bot : N) (kind : option ChannelType) (c : InboundFilterConfig) : SessionKey :=
  let dm := is_dm m kind in
  with_bot_id
    (new "discord" (if dm then None else show_N <$> m_guild m)
       (if in_thread kind then default (show_N (m_channel m)) (show_N <$> parent_channel_id c) else show_N (m_channel m))
       (if in_thread kind then Some (show_N (m_channel m)) else None)
       (if dm then show_N (m_author m) else ""))
    (show_N bot).

Definition inbound_delivery_id (m : Message) (bot : N) : string :=
  if (1 <? length (mentioned_bots m))%nat then "discord:" ++ show_N (m_id m) ++ ":" ++ show_N bot
  else "discord:" ++ show_N (m_id m).

Definition message_to_inbound_with_config (m : Message) (bot : N) (kind : option ChannelType) (c : InboundFilterConfig)
    (uuid : string) (now : Z) : option InboundEvent :=
  if negb (eligible m bot kind c && addressed m bot kind c) then None
  else
    let raw := inbound_text m bot in
    let files := inbound_files m in
    if is_blank raw && match files with [] => true | _ => false end then None
    else
      let content :=
        match m_referenced m with
        | Some p => compose_reply_context (ref_author p) (with_summary (ref_content p) (ref_files p)) raw
        | None => raw
        end in
      Some (mkEvent uuid (inbound_session m bot kind c) (show_N (m_id m)) (Some (inbound_delivery_id m bot)) content files
              (default now (m_timestamp m))).

Definition should_prompt_unauthorized_dm (dm bot paired all : bool) (users roles : list N) : bool :=
  if negb dm || bot || all || paired then false
  else match users, roles with [], [] => true | _, _ => false end.

(** ** Split messages *)

(** Keeping the first element for each key. *)
Fixpoint first_by {A} (key : A -> string) (seen : list string) (l : list A) : list A :=
  match l with
  | [] => []
  | x :: rest =>
      if existsb (String.eqb (key x)) seen then first_by key seen rest
      else x :: first_by key (key x :: seen) rest
  end.

(** The id under which [coalesce_inbound_events] tells events apart. *)
Definition event_identity (e : InboundEvent) : string :=
  if negb (String.eqb (ev_platform_message_id e) "") then ev_platform_message_id e
  else match ev_delivery_id e with Some d => d | None => ev_id e end.

Definition delivery_of (e : InboundEvent) : string :=
  default ("discord:" ++ ev_platform_message_id e) (ev_delivery_id e).

(** [uuid] is the id [InboundEvent::message] would draw; it is overwritten. *)
Definition coalesce_inbound_events (events : list InboundEvent) : option InboundEvent :=
  match first_by event_identity [] events with
  | [] => None
  | [e] => Some e
  | e1 :: rest =>
      let unique_events := e1 :: rest in
      let last_event := List.last rest e1 in
      Some (mkEvent (ev_id e1) (ev_session e1) (ev_platform_message_id last_event) (Some (delivery_of last_event))
              (join (String LF "") (List.filter (fun s => negb (is_blank s)) (map ev_content unique_events)))
              (first_by at_id [] (flat_map ev_attachments unique_events))
              (ev_received_at e1))
  end.

(** The ids a flush claims with the batch. *)
Definition constituent_ids (events : list InboundEvent) : list string :=
  first_by (fun s => s) [] (map delivery_of events).

Record Batch : Type := mkBatch { b_session : SessionKey; b_events : list InboundEvent; b_token : N }.

(** A call of [enqueue], a timer it spawned, and what has been taken out of
    the buffer: by a timer ([true]) or by [cancel]. *)
Inductive enqueuer : Type :=
| EToken (e : InboundEvent)
| EPush (e : InboundEvent) (token : N)
| ESpawn (session : SessionKey) (token : N)
| EReturned.

Record Debouncer : Type := mkDebouncer {
  next_token : N;
  buffer : list Batch;
  enqueuers : list enqueuer;
  timers : list (SessionKey * N);
  taken : list (bool * SessionKey * list InboundEvent);
  pushed : list InboundEvent
}.

Definition of_session (k : SessionKey) (b : Batch) : bool := bool_decide (b_session b = k).

(** [entry(session).or_insert_with(..)], the push and the new token. *)
Fixpoint push_event (e : InboundEvent) (token : N) (l : list Batch) : list Batch :=
  match l with
  | [] => [mkBatch (ev_session e) [e] token]
  | b :: rest =>
      if of_session (ev_session e) b then mkBatch (b_session b) (b_events b ++ [e]) token :: rest
      else b :: push_event e token rest
  end.

Definition get_batch (k : SessionKey) (l : list Batch) : option Batch := List.find (of_session k) l.

(** Removing a session's batch, [flushed] by its timer or cancelled. *)
Definition take_batch (flushed : bool) (k : SessionKey) (d : Debouncer) : Debouncer :=
  match get_batch k (buffer d) with
  | Some b =>
      mkDebouncer (next_token d) (delete_where (of_session k) (buffer d)) (enqueuers d) (timers d)
        (taken d ++ [(flushed, k, b_events b)]) (pushed d)
  | None => d
  end.

Definition with_timers (f : list (SessionKey * N) -> list (SessionKey * N)) (d : Debouncer) : Debouncer :=
  mkDebouncer (next_token d) (buffer d) (enqueuers d) (f (timers d)) (taken d) (pushed d).

(** What a timer does once it has slept. *)
Definition fire (t : SessionKey * N) (d : Debouncer) : Debouncer :=
  match get_batch (fst t) (buffer d) with
  | Some b => if (b_token b =? snd t)%N then take_batch true (fst t) d else d
  | None => d
  end.

Inductive Tick : Type :=
| TEnqueue (e : InboundEvent)
| TStep (i : nat)
| TFire (i : nat)
| TCancel (k : SessionKey).

Definition set_enqueuer (i : nat) (p : enqueuer) (d : Debouncer) : Debouncer :=
  mkDebouncer (next_token d) (buffer d) (<[i := p]> (enqueuers d)) (timers d) (taken d) (pushed d).

Definition tick (t : Tick) (d : Debouncer) : option Debouncer :=
  match t with
  | TEnqueue e => Some (mkDebouncer (next_token d) (buffer d) (enqueuers d ++ [EToken e]) (timers d) (taken d) (pushed d))
  | TStep i =>
      p ← enqueuers d !! i;
      match p with
      | EToken e =>
          Some (mkDebouncer (next_token d + 1) (buffer d) (<[i := EPush e (next_token d)]> (enqueuers d))
                  (timers d) (taken d) (pushed d))
      | EPush e token =>
          Some (mkDebouncer (next_token d) (push_event e token (buffer d))
                  (<[i := ESpawn (ev_session e) token]> (enqueuers d)) (timers d) (taken d) (pushed d ++ [e]))
      | ESpawn k token => Some (with_timers (fun l => l ++ [(k, token)]) (set_enqueuer i EReturned d))
      | EReturned => None
      end
  | TFire i =>
      t ← timers d !! i;
      Some (fire t (with_timers (list_delete i) d))
  | TCancel k => Some (take_batch false k d)
  end%list.

Fixpoint ticks (l : list Tick) (d : Debouncer) : option Debouncer :=
  match l with [] => Some d | t :: rest => d' ← tick t d; ticks rest d' end.

(** ** Claiming a flushed batch *)

(** [/stop] was handled; the delivery was known; the event went to its actor. *)
Inductive Routed : Type := Stopped (interrupted : bool) | Duplicate | Delivered (e : InboundEvent).

Section Routing.
Context `{Sqlite}.
(** The multiplexer's [stop] and [route], and the downloader. *)
Context (stop : SessionKey -> result bool OmonError) (route : InboundEvent -> result unit OmonError)
        (hydrate : MessageAttachment -> MessageAttachment) (julian_ms : Z -> Z -> Z).

Definition is_stop (e : InboundEvent) : bool :=
  String.eqb (to_ascii_lowercase (RustStr.trim (ev_content e))) "/stop".

Definition with_delivery (d : string) (e : InboundEvent) : InboundEvent :=
  mkEvent (ev_id e) (ev_session e) (ev_platform_message_id e) (Some d) (ev_content e)
    (map hydrate (ev_attachments e)) (ev_received_at e).

Definition route_claimed_event_with_constituents (event : InboundEvent) (ids : list string)
    (uuid : string -> string) (now : Z) : M LedgerState Routed :=
  if is_stop event then
    match stop (ev_session event) with Ok b => ret (Stopped b) | Err e => fail e end
  else
    let delivery_id := delivery_of event in
    recorded <- match ids with
                | [] => record_incoming_as event delivery_id (uuid delivery_id)
                | _ => record_incoming_with_constituents event delivery_id ids uuid
                end ;;
    if negb recorded then ret Duplicate
    else
      let routed := with_delivery delivery_id event in
      match route routed with
      | Ok _ => ret (Delivered routed)
      | Err error => mark_failed julian_ms delivery_id (error_text error) now ;;; fail error
      end.

(** The body of a timer that took a batch. *)
Definition flush_batch (events : list InboundEvent) (uuid : string -> string) (now : Z) : M LedgerState (option Routed) :=
  match coalesce_inbound_events events with
  | Some coalesced =>
      r <- route_claimed_event_with_constituents coalesced (constituent_ids events) uuid now ;; ret (Some r)
  | None => ret None
  end.
End Routing.

(** ** The filter admits only what it should *)

Lemma member_spec x l : member x l = true <-> x ∈ l.
Proof.
  unfold member. rewrite existsb_exists, list_elem_of_In. split.
  - intros (y & Hy & E). by apply N.eqb_eq in E as ->.
  - intros Hx. exists x. by rewrite N.eqb_refl.
Qed.

Lemma admitted_guards m bot kind c uuid now e :
  message_to_inbound_with_config m bot kind c uuid now = Some e ->
  eligible m bot kind c = true /\ addressed m bot kind c = true /\
  (is_blank (inbound_text m bot) = false \/ inbound_files m <> []) /\
  ev_session e = inbound_session m bot kind c /\ ev_delivery_id e = Some (inbound_delivery_id m bot) /\
  ev_platform_message_id e = show_N (m_id m) /\ ev_attachments e = inbound_files m.
Proof.
  unfold message_to_inbound_with_config.
  destruct (eligible m bot kind c && addressed m bot kind c)%bool eqn:E; [|done]. simpl.
  apply andb_true_iff in E as [-> ->].
  destruct (is_blank (inbound_text m bot) && match inbound_files m with [] => true | _ => false end)%bool eqn:Hb; [done|].
  intros [= <-]. split; [done|]. split; [done|]. split; [|done].
  apply andb_false_iff in Hb as [?|Hb]; [by left|right]. by destruct (inbound_files m).
Qed.

Lemma find_key {A} (k : N) (l : list (N * A)) x :
  List.find (fun '(tid, _) => tid =? k)%N l = Some x ->
  x.1 = k /\ exists before after, l = (before ++ x :: after)%list /\ forall o, (k, o) ∉ before.
Proof.
  induction l as [|[t o] l IH]; simpl; [done|]. destruct (N.eqb_spec t k) as [->|Ne].
  - intros [= <-]. split; [done|]. exists [], l. split; [done|]. by intros o' ?%not_elem_of_nil.
  - intros F. destruct (IH F) as [E (b & a & -> & Hb)]. split; [done|]. exists ((t, o) :: b), a. split; [done|].
    intros o' [[= <- _]|H']%elem_of_cons; [done|by apply (Hb o')].
Qed.

Lemma find_key_none {A} (k : N) (l : list (N * A)) o : List.find (fun '(tid, _) => tid =? k)%N l = None -> (k, o) ∉ l.
Proof. intros F Hin%list_elem_of_In. pose proof (List.find_none _ _ F _ Hin) as K. simpl in K. by rewrite N.eqb_refl in K. Qed.

(** Who a message without a mention is for. *)
Lemma addressed_spec m bot kind c :
  addressed m bot kind c = true ->
  bot ∈ mentioned_bots m \/
  mentioned_bots m = [] /\
     (m_guild m = None \/ kind = Some Private \/
      (m_channel m ∈ free_response_channels c \/
       (exists p, parent_channel_id c = Some p /\ p ∈ free_response_channels c) \/
       in_thread kind = true /\ thread_require_mention c = false /\
         ((exists o, (m_channel m, o) ∈ thread_owners c) \/ m_channel m ∈ active_threads c)) /\
      (in_thread kind = true /\
         (exists before after, thread_owners c = (before ++ (m_channel m, bot) :: after)%list /\ forall o, (m_channel m, o) ∉ before) \/
       primary_bot_id c = Some bot /\ (in_thread kind = true -> forall o, (m_channel m, o) ∉ thread_owners c))).
Proof.
  unfold addressed. destruct (mentioned_bots m) as [|b bs]; [|left; by apply member_spec]. intros [Ha Hp]%andb_true_iff. right. split; [done|].
  destruct (is_dm m kind) eqn:Hd.
  { unfold is_dm in Hd. destruct (m_guild m); [|by left]. apply bool_decide_eq_true in Hd. by right; left. }
  right. right. simpl in Ha, Hp.
  assert (Hfree : parent_is_free c = true -> exists p, parent_channel_id c = Some p /\ p ∈ free_response_channels c).
  { unfold parent_is_free. destruct (parent_channel_id c) as [p|]; [|done]. intros ?%member_spec. by exists p. }
  assert (Hown : forall o, thread_owner m kind c = Some o ->
    exists before after, thread_owners c = (before ++ (m_channel m, o) :: after)%list /\ forall o', (m_channel m, o') ∉ before).
  { unfold thread_owner. intros o. destruct (in_thread kind); [|done]. destruct (List.find _ _) as [[t o']|] eqn:F; [|done]. simpl. intros [= ->].
    apply find_key in F as [E K]. simpl in E. by subst. }
  split.
  - apply orb_true_iff in Ha as [Ht|Hf].
    + apply andb_true_iff in Ht as [Ht Hw]. apply andb_true_iff in Ht as [Hi Hn]. apply negb_true_iff in Hn.
      apply orb_true_iff in Hw as [Hw|Hw]; [|right; right; split_and!; [done..|right; by apply member_spec]].
      apply orb_true_iff in Hw as [Hw|Hw]; [right; left; by apply Hfree|]. right. right. split_and!; [done..|]. left. apply bool_decide_eq_true in Hw.
      destruct (thread_owner m kind c) as [o|]; [|done]. exists o. destruct (Hown o eq_refl) as (b & a & -> & _). apply elem_of_app. right. left.
    + apply orb_true_iff in Hf as [Hf|Hf]; [left; by apply member_spec|right; left; by apply Hfree].
  - destruct (in_thread kind) eqn:Hi; [|right; apply bool_decide_eq_true in Hp; by split]. destruct (thread_owner m kind c) as [o|] eqn:Ho.
    + apply N.eqb_eq in Hp as ->. left. split; [done|by apply Hown].
    + right. apply bool_decide_eq_true in Hp. split; [done|]. intros _ o. unfold thread_owner in Ho. rewrite Hi in Ho.
      apply find_key_none. by destruct (List.find _ _).
Qed.

(** C13: only authorized messages reach an agent: an admitted message comes
    from a paired or allowed author (by id, by role, or everybody), in no
    ignored channel and in an allowed one, from no webhook, not from this bot
    and from another bot only as configured, with its channel's metadata, and
    addressed to this bot: it mentions it; or it mentions no bot and is a direct
    message; or it mentions no bot, is in a free channel or in a thread that
    needs no mention and is owned or active, and this bot is the one to answer
    there, the owner of the thread or, where the channel has none, the primary
    bot. *)
Theorem admission_sound (m : Message) (bot : N) (kind : option ChannelType) (c : InboundFilterConfig)
    (uuid : string) (now : Z) (e : InboundEvent) :
  message_to_inbound_with_config m bot kind c uuid now = Some e ->
  (m_author m ∈ paired_users c \/ allow_all_users c = true \/ m_author m ∈ allowed_users c \/
     exists r, r ∈ user_roles c /\ r ∈ allowed_roles c) /\
  m_channel m ∉ ignored_channels c /\
  (forall p, parent_channel_id c = Some p -> p ∉ ignored_channels c) /\
  (m_guild m <> None -> kind <> Some Private -> allowed_channels c <> [] ->
     m_channel m ∈ allowed_channels c \/ exists p, parent_channel_id c = Some p /\ p ∈ allowed_channels c) /\
  m_webhook m = false /\ m_author m <> bot /\ (m_guild m <> None -> kind <> None) /\
  (m_bot m = true -> allow_bots c = All \/ allow_bots c = Mentions /\ bot ∈ mentioned_bots m) /\
  (bot ∈ mentioned_bots m \/
   mentioned_bots m = [] /\
     (m_guild m = None \/ kind = Some Private \/
      (m_channel m ∈ free_response_channels c \/
       (exists p, parent_channel_id c = Some p /\ p ∈ free_response_channels c) \/
       in_thread kind = true /\ thread_require_mention c = false /\
         ((exists o, (m_channel m, o) ∈ thread_owners c) \/ m_channel m ∈ active_threads c)) /\
      (in_thread kind = true /\
         (exists before after, thread_owners c = (before ++ (m_channel m, bot) :: after)%list /\ forall o, (m_channel m, o) ∉ before) \/
       primary_bot_id c = Some bot /\ (in_thread kind = true -> forall o, (m_channel m, o) ∉ thread_owners c)))).
Proof.
  intros Hm. apply admitted_guards in Hm as (He & Ha & _). unfold eligible in He. rewrite !andb_true_iff in He.
  destruct He as ((((((H1 & H2) & H3) & H4) & H5) & H6) & H7).
  apply orb_true_iff in H7. unfold is_user_authorized in H7. rewrite !orb_true_iff, existsb_exists, !member_spec in H7.
  unfold is_channel_authorized in H6.
  destruct (member (m_channel m) (ignored_channels c)) eqn:Hign; [done|].
  destruct (match parent_channel_id c with Some p => member p (ignored_channels c) | None => false end) eqn:Hpign; [done|].
  split; [|split; [|split; [|split; [|split; [|split; [|split; [|split]]]]]]].
  - destruct H7 as [?|[[?|?]|(r & Hr & Hr')]]; [by left|by right; left|by right; right; left|].
    right. right. right. exists r. rewrite list_elem_of_In. by apply member_spec in Hr'.
  - intros Hin. apply member_spec in Hin. congruence.
  - intros p Hp Hin. rewrite Hp in Hpign. apply member_spec in Hin. congruence.
  - intros Hg Hk Hal. unfold is_dm in H6. destruct (m_guild m); [|done].
    rewrite bool_decide_eq_false_2 in H6 by done. destruct (allowed_channels c) as [|a l]; [done|]. simpl in H6.
    apply orb_true_iff in H6 as [H6|H6]; [left; by apply member_spec|]. right.
    destruct (parent_channel_id c) as [p|]; [|done]. exists p. split; [done|]. by apply member_spec.
  - by apply negb_true_iff in H1.
  - apply negb_true_iff, N.eqb_neq in H2. done.
  - intros Hg Hk. rewrite Hk in H5. rewrite bool_decide_eq_true_2 in H5 by done. by rewrite bool_decide_eq_true_2 in H5.
  - intros Hb. rewrite Hb in H3. simpl in H3. destruct (allow_bots c); [done| |by left]. right. split; [done|]. by apply member_spec.
  - by apply addressed_spec.
Qed.

(** Two bots never answer one message by accident: when two bots of the
    same configuration both admit a guild message, it mentions both of them,
    and then their events have different delivery ids and different sessions,
    so neither claim shadows the other. *)
Theorem bots_do_not_collide (m : Message) (b1 b2 : N) (kind : option ChannelType) (c : InboundFilterConfig)
    (u1 u2 : string) (n1 n2 : Z) (e1 e2 : InboundEvent) :
  message_to_inbound_with_config m b1 kind c u1 n1 = Some e1 ->
  message_to_inbound_with_config m b2 kind c u2 n2 = Some e2 ->
  b1 <> b2 -> is_dm m kind = false ->
  b1 ∈ mentioned_bots m /\ b2 ∈ mentioned_bots m /\
  ev_delivery_id e1 <> ev_delivery_id e2 /\ ev_session e1 <> ev_session e2.
Proof.
  intros H1 H2 Hne Hd. apply admitted_guards in H1 as (_ & A1 & _ & S1 & D1 & _).
  apply admitted_guards in H2 as (_ & A2 & _ & S2 & D2 & _).
  assert (b1 ∈ mentioned_bots m /\ b2 ∈ mentioned_bots m) as [M1 M2].
  { unfold addressed in A1, A2. rewrite Hd in A1, A2. destruct (mentioned_bots m) as [|b bs] eqn:E.
    - exfalso. apply andb_true_iff in A1 as [_ A1], A2 as [_ A2]. simpl in A1, A2.
      destruct (in_thread kind), (thread_owner m kind c) as [o|];
        try (apply bool_decide_eq_true in A1; apply bool_decide_eq_true in A2; congruence).
      apply N.eqb_eq in A1, A2. congruence.
    - rewrite <- E in *. by rewrite !member_spec in *. }
  split; [done|]. split; [done|]. rewrite D1, D2, S1, S2.
  assert (1 <? length (mentioned_bots m) = true)%nat as Hl.
  { apply Nat.ltb_lt. destruct (mentioned_bots m) as [|x [|y l]]; [by apply not_elem_of_nil in M1| |simpl; lia].
    apply list_elem_of_singleton in M1, M2. congruence. }
  assert (forall a b, show_N a = show_N b -> a = b) as Hinj by apply show_N_inj.
  unfold inbound_delivery_id. rewrite Hl. split.
  - intros [= E]. apply Hne, Hinj. apply (inj (String.append (show_N (m_id m)))) in E. by injection E.
  - unfold inbound_session, with_bot_id. intros [= E]. by apply Hne, Hinj.
Qed.

(** ** The debouncer loses nothing *)

Definition buffered (k : SessionKey) (d : Debouncer) : list InboundEvent :=
  match get_batch k (buffer d) with Some b => b_events b | None => [] end.
Definition taken_of (k : SessionKey) (d : Debouncer) : list InboundEvent :=
  flat_map (fun t => if bool_decide (snd (fst t) = k) then snd t else []) (taken d).
Definition pushed_of (k : SessionKey) (d : Debouncer) : list InboundEvent :=
  List.filter (fun e => bool_decide (ev_session e = k)) (pushed d).

(** Somebody will take the batch: its timer, or the call about to spawn it. *)
Definition awaited (d : Debouncer) (b : Batch) : Prop :=
  (b_session b, b_token b) ∈ timers d \/ ESpawn (b_session b) (b_token b) ∈ enqueuers d.

Record debouncing (d : Debouncer) : Prop := {
  deb_sessions : NoDup (map b_session (buffer d));
  deb_kept : forall k, pushed_of k d = (taken_of k d ++ buffered k d)%list;
  deb_awaited : forall b, b ∈ buffer d -> awaited d b
}.

Lemma get_batch_in k l b : get_batch k l = Some b -> b ∈ l /\ b_session b = k.
Proof.
  unfold get_batch. intros Hf. apply find_some in Hf as [Hin Hk]. split; [by apply list_elem_of_In|].
  by apply bool_decide_eq_true in Hk.
Qed.

Lemma of_session_true k b : of_session k b = true <-> b_session b = k.
Proof. apply bool_decide_eq_true. Qed.
Lemma of_session_false k b : of_session k b = false <-> b_session b <> k.
Proof. apply bool_decide_eq_false. Qed.

Lemma get_batch_push k e t l :
  get_batch k (push_event e t l) =
    if bool_decide (k = ev_session e)
    then Some (mkBatch (ev_session e) (match get_batch (ev_session e) l with Some b => b_events b | None => [] end ++ [e])%list t)
    else get_batch k l.
Proof.
  unfold get_batch. induction l as [|b l IH]; simpl.
  - unfold of_session. simpl. case_bool_decide as H1; case_bool_decide as H2; congruence.
  - destruct (of_session (ev_session e) b) eqn:Hb; simpl.
    + apply of_session_true in Hb. unfold of_session. simpl. rewrite Hb.
      case_bool_decide as H1; case_bool_decide as H2; congruence.
    + apply of_session_false in Hb. destruct (of_session k b) eqn:Hk; [|apply IH].
      apply of_session_true in Hk. rewrite bool_decide_eq_false_2 by congruence. done.
Qed.

Lemma push_sessions e t l :
  map b_session (push_event e t l) = map b_session l \/
  map b_session (push_event e t l) = (map b_session l ++ [ev_session e])%list /\ ev_session e ∉ map b_session l.
Proof.
  induction l as [|b l IH]; simpl; [right; split; [done|set_solver]|].
  unfold of_session. case_bool_decide as Hb; simpl; [by left|].
  destruct IH as [->|[-> Hn]]; [by left|right]. split; [done|]. set_solver.
Qed.

Lemma in_push e t l b :
  NoDup (map b_session l) -> b ∈ push_event e t l ->
  (b ∈ l /\ b_session b <> ev_session e) \/ (b_session b = ev_session e /\ b_token b = t).
Proof.
  induction l as [|c l IH]; simpl; [intros _ ->%list_elem_of_singleton; by right|].
  intros [Hc Hn]%NoDup_cons. unfold of_session. case_bool_decide as He; intros [->|Hb]%elem_of_cons.
  - by right.
  - left. split; [set_solver|]. intros E. apply Hc. rewrite He, <- E. apply list_elem_of_fmap. by exists b.
  - left. set_solver.
  - destruct (IH Hn Hb) as [[? ?]|?]; [left; set_solver|by right].
Qed.

Lemma get_batch_delete k k' l :
  get_batch k' (delete_where (of_session k) l) = if bool_decide (k' = k) then None else get_batch k' l.
Proof.
  unfold get_batch, delete_where. induction l as [|b l IH]; simpl; [by case_bool_decide|].
  destruct (of_session k b) eqn:Hb; simpl.
  - rewrite IH. case_bool_decide; [done|]. apply of_session_true in Hb.
    destruct (of_session k' b) eqn:Hk; [|done]. apply of_session_true in Hk. congruence.
  - apply of_session_false in Hb. destruct (of_session k' b) eqn:Hk; [|by rewrite IH].
    apply of_session_true in Hk. rewrite bool_decide_eq_false_2 by congruence. done.
Qed.

Lemma debouncing_take f k d : debouncing d -> debouncing (take_batch f k d).
Proof.
  intros [H1 H2 H3]. unfold take_batch. destruct (get_batch k (buffer d)) as [b|] eqn:Hb; [|done]. split; simpl.
  - by apply NoDup_map_delete.
  - intros k'. unfold pushed_of, taken_of, buffered. simpl. rewrite flat_map_app, get_batch_delete. simpl.
    specialize (H2 k'). unfold pushed_of, taken_of, buffered in H2. rewrite H2.
    case_bool_decide as H4; case_bool_decide as H5; try congruence; [|by rewrite app_nil_r].
    subst k'. by rewrite Hb, !app_nil_r.
  - intros b' Hb'. apply in_delete_where in Hb' as [Hb' _]. by apply H3.
Qed.

Lemma get_batch_none k l b : get_batch k l = None -> b ∈ l -> b_session b <> k.
Proof.
  unfold get_batch. intros Hn Hb E. apply list_elem_of_In in Hb. pose proof (find_none _ _ Hn _ Hb) as Hf.
  unfold of_session in Hf. by rewrite bool_decide_eq_true_2 in Hf.
Qed.

Lemma same_session l b b' : NoDup (map b_session l) -> b ∈ l -> b' ∈ l -> b_session b = b_session b' -> b = b'.
Proof.
  induction l as [|c l IH]; simpl; [by intros _ ?%not_elem_of_nil|]. intros [Hc Hn]%NoDup_cons.
  assert (forall x, x ∈ l -> b_session x <> b_session c) as Hx.
  { intros x Hx E. apply Hc. rewrite <- E. apply list_elem_of_fmap. by exists x. }
  intros [->|Hb]%elem_of_cons [->|Hb']%elem_of_cons E; auto; exfalso; [by eapply Hx|by eapply (Hx b)].
Qed.

Lemma in_list_delete {A} (l : list A) i x y : l !! i = Some x -> y ∈ l -> y <> x -> y ∈ list_delete i l.
Proof. intros Hi Hy Hne. rewrite (delete_Permutation l i x Hi) in Hy. set_solver. Qed.

(** A timer that fires takes its batch, or leaves one awaited by another. *)
Lemma debouncing_fire d i t :
  debouncing d -> timers d !! i = Some t -> debouncing (fire t (with_timers (list_delete i) d)).
Proof.
  intros [H1 H2 H3] Hi. destruct t as [k tok]. unfold fire. simpl.
  assert (forall b, b ∈ buffer d -> (b_session b, b_token b) <> (k, tok) -> awaited (with_timers (list_delete i) d) b) as Hoth.
  { intros b Hb Hne. destruct (H3 b Hb) as [Ht|Hs]; [left; by eapply in_list_delete|by right]. }
  destruct (get_batch k (buffer d)) as [b|] eqn:Hb; [destruct (N.eqb_spec (b_token b) tok) as [Et|Et]|].
  - unfold take_batch. simpl. rewrite Hb. split; simpl.
    + by apply NoDup_map_delete.
    + intros k'. unfold pushed_of, taken_of, buffered. simpl. rewrite flat_map_app, get_batch_delete. simpl.
      specialize (H2 k'). unfold pushed_of, taken_of, buffered in H2. rewrite H2.
      case_bool_decide as H4; case_bool_decide as H5; try congruence; [|by rewrite app_nil_r].
      subst k'. by rewrite Hb, !app_nil_r.
    + intros b' Hb'. apply in_delete_where in Hb' as [Hb' Hs]. apply (Hoth b' Hb'). intros [= E _].
      unfold of_session in Hs. by rewrite bool_decide_eq_true_2 in Hs.
  - split; simpl; [done|done|]. intros b' Hb'. apply Hoth; [done|]. intros [= E E'].
    apply get_batch_in in Hb as [Hb Hk]. apply Et. by rewrite (same_session _ b b' H1 Hb Hb') by congruence.
  - split; simpl; [done|done|]. intros b' Hb'. apply Hoth; [done|]. intros [= E _]. by apply (get_batch_none _ _ _ Hb Hb').
Qed.

Lemma awaited_set d i p p' b :
  enqueuers d !! i = Some p -> (forall k t, p <> ESpawn k t) -> awaited d b -> awaited (set_enqueuer i p' d) b.
Proof.
  intros Hi Hp [Ht|Hs]; [by left|right]. simpl. apply list_elem_of_lookup in Hs as [j Hj].
  apply list_elem_of_lookup. exists j. rewrite list_lookup_insert_ne; [done|]. intros ->. rewrite Hi in Hj. injection Hj as ->. by eapply Hp.
Qed.

Lemma debouncing_tick t d d' : tick t d = Some d' -> debouncing d -> debouncing d'.
Proof.
  intros Ht Hd. destruct t as [e|i|i|k]; simpl in Ht.
  - injection Ht as <-. destruct Hd as [H1 H2 H3]. split; simpl; [done|done|].
    intros b Hb. destruct (H3 b Hb) as [?|?]; [by left|right]. simpl. set_solver.
  - apply bind_Some in Ht as (p & Hi & Ht). destruct p as [e|e tok|k tok|]; [| | |done]; injection Ht as <-.
    + destruct Hd as [H1 H2 H3]. split; simpl; [done|done|]. intros b Hb.
      by apply (awaited_set d i _ (EPush e (next_token d)) b Hi); [|apply H3].
    + destruct Hd as [H1 H2 H3]. split; simpl.
      * destruct (push_sessions e tok (buffer d)) as [->|[-> Hn]]; [done|]. apply NoDup_app. split; [done|].
        split; [set_solver|apply NoDup_singleton].
      * intros k. unfold pushed_of, taken_of, buffered. simpl. rewrite List.filter_app, get_batch_push. simpl.
        specialize (H2 k). unfold pushed_of, taken_of, buffered in H2. rewrite H2.
        case_bool_decide as H4; case_bool_decide as H5; try congruence; simpl; [|by rewrite app_nil_r].
        subst k. by rewrite app_assoc.
      * intros b Hb. apply in_push in Hb as [[Hb Hne]|[Hk Htok]]; [| |done].
        -- apply (awaited_set d i _ (ESpawn (ev_session e) tok) b Hi); [done|by apply H3].
        -- right. simpl. rewrite Hk, Htok. apply list_elem_of_lookup. exists i. apply list_lookup_insert_eq. by eapply lookup_lt_Some.
    + destruct Hd as [H1 H2 H3]. split; simpl; [done|done|]. intros b Hb. destruct (H3 b Hb) as [?|Hs].
      * left. simpl. set_solver.
      * apply list_elem_of_lookup in Hs as [j Hj]. destruct (decide (i = j)) as [->|Hne].
        -- left. rewrite Hi in Hj. injection Hj as -> ->. simpl. set_solver.
        -- right. simpl. apply list_elem_of_lookup. exists j. by rewrite list_lookup_insert_ne.
  - apply bind_Some in Ht as (t & Hi & Ht). injection Ht as <-. by apply debouncing_fire.
  - injection Ht as <-. by apply debouncing_take.
Qed.

Definition idle_debouncer : Debouncer := mkDebouncer 1 [] [] [] [] [].

Lemma ticks_debouncing l : forall d d', ticks l d = Some d' -> debouncing d -> debouncing d'.
Proof.
  induction l as [|t l IH]; intros d d' Ht Hd; simpl in Ht; [by simplify_eq|].
  apply bind_Some in Ht as (d1 & H1 & Ht). eapply IH; [exact Ht|]. by eapply debouncing_tick.
Qed.

(** C14: debouncing neither loses nor repeats nor reorders a message: at any
    time, the messages a session pushed are, in order, those of the batches
    taken for it and then those still buffered; every buffered batch has a
    timer to come, so once all calls have returned and all timers have fired
    every message was in exactly one flushed (or cancelled) batch. *)
Theorem debounce_loses_nothing (l : list Tick) (d : Debouncer) :
  ticks l idle_debouncer = Some d ->
  (forall k, pushed_of k d = (taken_of k d ++ buffered k d)%list) /\
  (forall b, b ∈ buffer d -> awaited d b) /\
  ((forall p, p ∈ enqueuers d -> p = EReturned) -> timers d = [] ->
     buffer d = [] /\ forall k, pushed_of k d = taken_of k d).
Proof.
  intros Hl. assert (debouncing d) as [H1 H2 H3].
  { eapply ticks_debouncing; [exact Hl|]. split; simpl; [by apply NoDup_nil|done|by intros b ?%not_elem_of_nil]. }
  split; [done|]. split; [done|]. intros Hr Ht.
  assert (buffer d = []) as E.
  { destruct (buffer d) as [|b rest]; [done|]. destruct (H3 b) as [Hin|Hin]; [set_solver| |].
    - rewrite Ht in Hin. by apply not_elem_of_nil in Hin.
    - apply Hr in Hin. done. }
  split; [done|]. intros k. rewrite H2. unfold buffered. rewrite E. by rewrite app_nil_r.
Qed.

(** ** Cursors and the backfill of missed messages *)

Record CursorRow : Type := mkCursor { cu_bot : string; cu_channel : string; cu_last : string }.

(** The database, with the identity columns of [messages]; what the history
    returned, the events handed to their actor with whether the turn completed,
    and the delivery ids refused as known, with whether a row of the ledger
    then said that they were answered. *)
Record Gateway : Type := mkGateway {
  gw_ledger : LedgerState;
  bot_cursors : list CursorRow;
  channel_cursors : list (string * string);
  transcript : list (string * string * string);
  fetched : list Message;
  handed : list (InboundEvent * bool);
  known : list (string * bool)
}.

Definition set_bot_cursors f (g : Gateway) := mkGateway (gw_ledger g) (f (bot_cursors g)) (channel_cursors g) (transcript g) (fetched g) (handed g) (known g).
Definition set_channel_cursors f (g : Gateway) := mkGateway (gw_ledger g) (bot_cursors g) (f (channel_cursors g)) (transcript g) (fetched g) (handed g) (known g).
Definition set_transcript f (g : Gateway) := mkGateway (gw_ledger g) (bot_cursors g) (channel_cursors g) (f (transcript g)) (fetched g) (handed g) (known g).
Definition set_fetched f (g : Gateway) := mkGateway (gw_ledger g) (bot_cursors g) (channel_cursors g) (transcript g) (f (fetched g)) (handed g) (known g).
Definition set_handed f (g : Gateway) := mkGateway (gw_ledger g) (bot_cursors g) (channel_cursors g) (transcript g) (fetched g) (f (handed g)) (known g).
Definition set_known f (g : Gateway) := mkGateway (gw_ledger g) (bot_cursors g) (channel_cursors g) (transcript g) (fetched g) (handed g) (f (known g)).

Definition in_ledger {T} (m : M LedgerState T) : M Gateway T :=
  zoom gw_ledger (fun l g => mkGateway l (bot_cursors g) (channel_cursors g) (transcript g) (fetched g) (handed g) (known g)) m.

Definition should_advance_cursor (current_cursor : option string) (candidate_id : string) : bool :=
  match parse_u64 (RustStr.trim candidate_id) with
  | None => false
  | Some candidate_num =>
      match current_cursor with
      | None => true
      | Some current =>
          if is_blank current then true
          else match parse_u64 (RustStr.trim current) with
               | Some current_num => (current_num <? candidate_num)%N
               | None => true
               end
      end
  end.

Definition cursor_of (bot channel : string) (r : CursorRow) : bool :=
  String.eqb (cu_bot r) bot && String.eqb (cu_channel r) channel.
Definition stored_cursor (bot channel : string) (g : Gateway) : option string :=
  cu_last <$> head (select (cursor_of bot channel) (bot_cursors g)).

(** [ON CONFLICT DO UPDATE SET last_message_id]. *)
Definition upsert_bot_cursor (bot channel id : string) : M Gateway unit :=
  stmt (fun g => (tt, set_bot_cursors (fun t =>
    if existsb (cursor_of bot channel) t
    then update_where (cursor_of bot channel) (fun r => mkCursor (cu_bot r) (cu_channel r) id) t
    else (t ++ [mkCursor bot channel id])%list) g)).
Definition upsert_channel_cursor (channel id : string) : M Gateway unit :=
  stmt (fun g => (tt, set_channel_cursors (fun t =>
    if existsb (fun r => String.eqb (fst r) channel) t
    then update_where (fun r => String.eqb (fst r) channel) (fun r => (fst r, id)) t
    else (t ++ [(channel, id)])%list) g)).

Definition legacy_cursor (channel : string) (g : Gateway) : option string :=
  snd <$> head (select (fun r => String.eqb (fst r) channel) (channel_cursors g)).

Definition update_channel_cursor (channel id : string) : M Gateway bool :=
  if is_blank channel || is_blank id then ret false
  else
    existing <- query (legacy_cursor channel) ;;
    if match existing with Some c => should_advance_cursor (Some c) id | None => true end
    then upsert_channel_cursor channel id ;;; ret true
    else ret false.

Definition update_bot_channel_cursor (bot channel id : string) : M Gateway bool :=
  if is_blank channel || is_blank id then ret false
  else match parse_u64 (RustStr.trim id) with
       | None => ret false
       | Some _ =>
           transaction (
             existing <- query (stored_cursor bot channel) ;;
             if match existing with Some c => should_advance_cursor (Some c) id | None => true end
             then
               upsert_bot_cursor bot channel id ;;;
               (if String.eqb bot "" then attempt (upsert_channel_cursor channel id) ;;; ret tt else ret tt) ;;;
               ret true
             else ret false)
       end.

Definition get_bot_channel_cursor (bot channel : string) : M Gateway (option string) :=
  row <- query (stored_cursor bot channel) ;;
  match row with
  | None => if String.eqb bot "" then query (legacy_cursor channel) else ret None
  | Some c => ret (Some c)
  end.

Section Backfill.
Context `{Sqlite} (julian_ms : Z -> Z -> Z) (hydrate : MessageAttachment -> MessageAttachment).
(** This bot; the history of a channel after an id; a channel's kind, parent
    and guild ([None]: not found, not supported, or an error); the roles of an
    author; the rest of the configuration; the outcome of a turn; the UUIDs
    of events and of ledger rows, and the clock. *)
Context (bot : N) (fetch : N -> option N -> result (list Message) OmonError)
        (get_channel : N -> option (ChannelType * option N * option N)) (roles_of : N -> Message -> list N)
        (config : list N -> option N -> InboundFilterConfig) (turn : InboundEvent -> result unit OmonError)
        (uuid : Message -> string) (row_id : string -> string) (now : Z).

Definition PAGE_LIMIT : nat := 50.

(** [DELETE FROM messages]: the event's own row. *)
Definition own_row (e : InboundEvent) (r : string * string * string) : bool :=
  String.eqb (fst (fst r)) (storage_key (ev_session e)) &&
  (String.eqb (snd (fst r)) (ev_id e) ||
   negb (String.eqb (snd r) "") && String.eqb (snd r) (ev_platform_message_id e)).

(** A row of the ledger says that the delivery was answered. *)
Definition answered (d : string) (l : LedgerState) : bool :=
  existsb (fun r => has_message d r && String.eqb (status r) "delivered") (deliveries l).

Definition route_claimed_event_awaiting_turn (event : InboundEvent) : M Gateway bool :=
  let delivery_id := delivery_of event in
  recorded <- in_ledger (record_incoming_as event delivery_id (row_id delivery_id)) ;;
  if negb recorded then mem (fun g => (tt, set_known (fun l => l ++ [(delivery_id, answered delivery_id (gw_ledger g))])%list g)) ;;; ret false
  else
    let routed := with_delivery hydrate delivery_id event in
    mem (fun g => (tt, set_handed (fun l => l ++ [(routed, is_ok (turn routed))])%list g)) ;;;
    match turn routed with
    | Ok _ => ret true
    | Err error =>
        in_ledger (mark_failed julian_ms delivery_id (error_text error) now) ;;;
        attempt (stmt (fun g => (tt, set_transcript (delete_where (own_row routed)) g))) ;;;
        fail error
    end.

(** The event of a message of the history; the outer [None] stops the scan. *)
Definition admit_missed (m : Message) : option (option InboundEvent) :=
  match get_channel (m_channel m) with
  | None => None
  | Some (kind, parent, guild) =>
      let roles := match guild with Some g => roles_of g m | None => [] end in
      Some (message_to_inbound_with_config m bot (Some kind) (config roles parent) (uuid m) now)
  end.

(** [None] stops the channel; else how many messages were routed. *)
Definition backfill_message (channel : N) (m : Message) : M Gateway (option nat) :=
  match admit_missed m with
  | None => ret None
  | Some None => ret (Some 0)
  | Some (Some event) =>
      r <- attempt (route_claimed_event_awaiting_turn event) ;;
      match r with
      | Ok routed =>
          attempt (update_bot_channel_cursor (show_N bot) (show_N channel) (show_N (m_id m))) ;;;
          ret (Some (if routed : bool then 1 else 0))
      | Err _ => ret None
      end
  end.

Fixpoint backfill_page (channel : N) (l : list Message) (cursor : option string) (count : nat) :
    M Gateway (option string * nat * bool) :=
  match l with
  | [] => ret (cursor, count, false)
  | m :: rest =>
      r <- backfill_message channel m ;;
      match r with
      | None => ret (cursor, count, true)
      | Some n => backfill_page channel rest (Some (show_N (m_id m))) (count + n)
      end
  end.

Definition by_id (l : list Message) : list Message := order_by (fun m => Z.of_N (m_id m)) l.

(** The pages of one channel; [None]: not done within the fuel. *)
Fixpoint backfill_channel (fuel : nat) (channel : N) (cursor : option string) (count : nat) : M Gateway (option nat) :=
  match fuel with
  | O => ret None
  | S f =>
      match fetch channel (cursor ≫= parse_u64) with
      | Err _ => ret (Some count)
      | Ok [] => ret (Some count)
      | Ok messages =>
          mem (fun g => (tt, set_fetched (fun l => l ++ messages)%list g)) ;;;
          r <- backfill_page channel (by_id messages) cursor count ;;
          let '(cursor', count', stopped) := r in
          if (stopped : bool) || (length messages <? PAGE_LIMIT)%nat then ret (Some count')
          else backfill_channel f channel cursor' count'
      end
  end.

(** One turn of the loop over the channels. *)
Definition backfill_one (fuel : nat) (channel : N) (count : nat) : M Gateway (option nat) :=
  c <- get_bot_channel_cursor (show_N bot) (show_N channel) ;;
  backfill_channel fuel channel (c ≫= (fun s => if is_blank s then None else Some s)) count.

Fixpoint insert_id (x : N) (l : list N) : list N :=
  match l with
  | [] => [x]
  | y :: rest => if (x <? y)%N then x :: l else if (x =? y)%N then l else y :: insert_id x rest
  end.

(** The channels to scan, in the order of the [BTreeSet]. *)
Definition channels_to_scan (active : list N) (owners : list (N * N)) (g : Gateway) : list N :=
  let c := config [] None in
  let stored := omap (fun r => if String.eqb (cu_bot r) (show_N bot) then parse_u64 (cu_channel r) else None) (bot_cursors g) in
  let owned := omap (fun '(tid, owner) => if (owner =? bot)%N then Some tid else None) owners in
  List.filter (fun x => negb (member x (ignored_channels c)))
    (fold_right insert_id [] (stored ++ allowed_channels c ++ free_response_channels c ++ active ++ owned)%list).

Fixpoint backfill_channels (fuel : nat) (l : list N) (count : nat) : M Gateway (option nat) :=
  match l with
  | [] => ret (Some count)
  | channel :: rest =>
      r <- backfill_one fuel channel count ;;
      match r with Some n => backfill_channels fuel rest n | None => ret None end
  end.

Definition run_missed_message_backfill_with_fetcher (fuel : nat) (active : list N) (owners : list (N * N)) : M Gateway (option nat) :=
  channels <- query (channels_to_scan active owners) ;;
  backfill_channels fuel channels 0.
End Backfill.

(** ** The cursor stops before a message that was not answered *)

Lemma bind_inv {S A B} (m : M S A) (k : A -> M S B) w r w' :
  bind m k w = (r, w') ->
  (exists a w1, m w = (Ok a, w1) /\ k a w1 = (r, w')) \/ (exists e, m w = (Err e, w') /\ r = Err e).
Proof. unfold bind. destruct (m w) as [[a|e] w1]; intros E; [left; by exists a, w1|right; exists e; by simplify_eq]. Qed.

(** *** Deliveries that no turn is working on *)

(** The ledger holds no row of the delivery, or one that is finished. *)
Definition at_rest (d : string) (l : LedgerState) : Prop :=
  let rows := map status (select (has_message d) (deliveries l)) in
  rows = [] \/ rows = ["delivered"] \/ rows = ["failed"].

Lemma map_select_update {R V} (g : R -> V) (q p : R -> bool) (f : R -> R) t :
  (forall r, q (f r) = q r) ->
  map g (select q (update_where p f t)) = map (fun r => g (if p r then f r else r)) (select q t).
Proof.
  intros Hq. unfold select, update_where. induction t as [|r t IH]; simpl; [done|].
  assert (q (if p r then f r else r) = q r) as -> by (by destruct (p r)).
  destruct (q r); simpl; by rewrite IH.
Qed.

Lemma at_rest_update d p f l :
  (forall r, message_id (f r) = message_id r) ->
  (forall r, has_message d r = true -> p r = true -> status (f r) = "delivered" \/ status (f r) = "failed") ->
  at_rest d l -> at_rest d (set_deliveries (update_where p f) l).
Proof.
  intros Hm Hf. unfold at_rest. cbn [deliveries set_deliveries].
  rewrite map_select_update by (intros r; unfold has_message; by rewrite Hm).
  destruct (select (has_message d) (deliveries l)) as [|r [|? ?]] eqn:E; simpl; [by left| |naive_solver].
  assert (has_message d r = true) as Hr by (apply (in_select (has_message d) (deliveries l) r); rewrite E; set_solver).
  specialize (Hf r Hr). destruct (p r); [|done]. intros _. destruct (Hf eq_refl) as [-> | ->]; auto.
Qed.

Lemma has_message_eq d d' r : has_message d r = true -> has_message d' r = true -> d = d'.
Proof. unfold has_message. intros <-%String.eqb_eq <-%String.eqb_eq. done. Qed.

Lemma record_keeps_rest `{Sqlite} d e d' uuid : d <> d' -> preserves (at_rest d) (record_incoming_as e d' uuid).
Proof.
  intros Hne. unfold record_incoming_as, ensure_session. preserve_steps.
  - intros l Hl. simpl. by destruct (existsb _ (sessions l)).
  - intros l Hl. unfold claim_delivery. destruct (negb _); [done|]. destruct (existsb _ _); simpl.
    + apply at_rest_update; [done| |done]. intros r Hr [Hr' _]%andb_true_iff. destruct Hne. by eapply has_message_eq.
    + unfold at_rest, select. cbn [deliveries set_deliveries]. rewrite List.filter_app, map_app. simpl.
      assert (has_message d (fresh_delivery uuid (storage_key (ev_session e)) d' (ev_platform_message_id e) (ev_received_at e)) = false) as ->.
      { unfold has_message. simpl. apply String.eqb_neq. congruence. }
      by rewrite app_nil_r.
Qed.

Lemma mark_failed_keeps_rest `{Sqlite} julian_ms d d' error now : preserves (at_rest d) (mark_failed julian_ms d' error now).
Proof.
  unfold mark_failed, complete, ensure_constituents_table.
  preserve_steps; try done; intros l Hl; simpl; (apply at_rest_update; [done|by right|done]).
Qed.

(** A delivery at rest is only refused because it was answered. *)
Lemma refused_at_rest `{Sqlite} d e uuid :
  triple (at_rest d) (record_incoming_as e d uuid) (fun r l => r = false -> answered d l = true) (fun _ => True).
Proof.
  unfold record_incoming_as. eapply (triple_bind _ _ _ (fun _ => at_rest d)).
  { apply triple_stmt; [done|]. intros l Hl. simpl. by destruct (existsb _ (sessions l)). }
  intros _. eapply (triple_bind _ _ _ (fun n l => (n =? 1)%nat = false -> answered d l = true)); [|intros n; by apply triple_ret].
  apply triple_exec; [done|]. intros l Hl. unfold claim_delivery. destruct (negb _); [done|].
  destruct (existsb _ (deliveries l)) eqn:Hx; [|done]. simpl. unfold at_rest in Hl.
  rewrite <- (count_select (has_message d) (fun r => String.eqb (status r) "failed")).
  destruct (select (has_message d) (deliveries l)) as [|r rows] eqn:E.
  { exfalso. rewrite select_nil in E. apply existsb_exists in Hx as (r & Hr & Hrd). rewrite E in Hrd; [done|by apply list_elem_of_In]. }
  assert (r ∈ deliveries l /\ has_message d r = true) as [Hr Hrd] by (apply in_select; rewrite E; set_solver).
  destruct rows as [|r2 rows]; [|by destruct Hl as [?|[?|?]]].
  assert (status r = "delivered" \/ status r = "failed") as [Hs|Hs] by (destruct Hl as [[=]|[[= ?]|[= ?]]]; auto); unfold count, select; simpl; rewrite Hs; simpl; [|done].
  intros _. unfold answered. cbn [deliveries set_deliveries]. apply existsb_exists. exists r. rewrite Hrd, Hs. split; [|done].
  apply list_elem_of_In, in_update_where. exists r. split; [done|]. by rewrite Hs, andb_false_r.
Qed.

Section BackfillFacts.
Context `{Sqlite} (julian_ms : Z -> Z -> Z) (hydrate : MessageAttachment -> MessageAttachment).
Context (bot : N) (fetch : N -> option N -> result (list Message) OmonError)
        (get_channel : N -> option (ChannelType * option N * option N)) (roles_of : N -> Message -> list N)
        (config : list N -> option N -> InboundFilterConfig) (turn : InboundEvent -> result unit OmonError)
        (uuid : Message -> string) (row_id : string -> string) (now : Z).

Notation admit_missed := (admit_missed bot get_channel roles_of config uuid now).
Notation route := (route_claimed_event_awaiting_turn julian_ms hydrate turn row_id now).
Notation message_step := (backfill_message julian_ms hydrate bot get_channel roles_of config turn uuid row_id now).
Notation page_step := (backfill_page julian_ms hydrate bot get_channel roles_of config turn uuid row_id now).
Notation channel_step := (backfill_channel julian_ms hydrate bot fetch get_channel roles_of config turn uuid row_id now).

(** The event was answered: its turn completed, or the ledger refused it as a
    delivery whose turn had completed before. *)
Definition settled (e : InboundEvent) (g : Gateway) : Prop :=
  (with_delivery hydrate (delivery_of e) e, true) ∈ handed g \/ (delivery_of e, true) ∈ known g.

Definition cursor_value (channel : N) (g : Gateway) : N :=
  match stored_cursor (show_N bot) (show_N channel) g with
  | Some c => default 0%N (parse_u64 (RustStr.trim c))
  | None => 0%N
  end.

(** Nothing settled is forgotten, and the fetched messages stay. *)
Definition grows (g g' : Gateway) : Prop :=
  handed g ⊆ handed g' /\ known g ⊆ known g' /\ fetched g' = fetched g.

Lemma grows_refl g : grows g g. Proof. done. Qed.
Lemma grows_trans g1 g2 g3 : grows g1 g2 -> grows g2 g3 -> grows g1 g3.
Proof. intros (? & ? & E) (? & ? & E'). split; [set_solver|]. split; [set_solver|]. by rewrite E'. Qed.
Lemma settled_grows e g g' : grows g g' -> settled e g -> settled e g'.
Proof. intros (Ha & Hb & _) [?|?]; [left|right]; set_solver. Qed.

Definition quiet (g g' : Gateway) : Prop := grows g g' /\ bot_cursors g' = bot_cursors g.

Lemma in_ledger_quiet {T} (m : M LedgerState T) w r w' : in_ledger m w = (r, w') -> quiet (st w) (st w').
Proof. unfold in_ledger, zoom. destruct (m _) as [r1 w1]. by intros [= <- <-]. Qed.

Lemma quiet_trans g1 g2 g3 : quiet g1 g2 -> quiet g2 g3 -> quiet g1 g3.
Proof. intros [? E] [? E']. split; [by eapply grows_trans|]. by rewrite E'. Qed.

Lemma stmt_quiet f w (r : result unit OmonError) w' :
  (forall g, quiet g (f g)) -> stmt (fun g => (tt, f g)) w = (r, w') -> quiet (st w) (st w').
Proof.
  intros Hf. unfold stmt, exec. destruct (faults w) as [|[m|] fs]; intros [= <- <-]; simpl; auto using grows_refl.
  by split.
Qed.

Lemma mem_eq {T} (f : Gateway -> T * Gateway) w : mem f w = (Ok (fst (f (st w))), mkWorld (snd (f (st w))) (faults w)).
Proof. unfold mem. by destruct (f (st w)). Qed.

Definition rest (d : string) (g : Gateway) : Prop := at_rest d (gw_ledger g).

Lemma in_ledger_rest {T} d (m : M LedgerState T) : preserves (at_rest d) m -> preserves (rest d) (in_ledger m).
Proof. intros Hm. apply preserves_zoom. intros g Hg. by exists (at_rest d). Qed.

Lemma route_rest d e : d <> delivery_of e -> preserves (rest d) (route e).
Proof.
  intros Hd. unfold route_claimed_event_awaiting_turn. apply preserves_bind; [by apply in_ledger_rest, record_keeps_rest|].
  intros recorded. destruct (negb recorded); [by preserve_steps|].
  apply preserves_bind; [by apply preserves_mem|]. intros _. case_match; [by preserve_steps|].
  preserve_steps; [apply in_ledger_rest, mark_failed_keeps_rest|done].
Qed.

Lemma refused_settled e w w1 :
  in_ledger (record_incoming_as e (delivery_of e) (row_id (delivery_of e))) w = (Ok false, w1) ->
  rest (delivery_of e) (st w) -> answered (delivery_of e) (gw_ledger (st w1)) = true.
Proof.
  intros H1 Hr. unfold in_ledger, zoom in H1. destruct (record_incoming_as _ _ _ _) as [r1 w2] eqn:E. injection H1 as -> <-.
  eapply triple_at in E; [|apply refused_at_rest|exact Hr]. by apply E.
Qed.

Lemma route_quiet e w r w' : route e w = (r, w') ->
  quiet (st w) (st w') /\ (is_ok r = true -> rest (delivery_of e) (st w) -> settled e (st w')).
Proof.
  unfold route_claimed_event_awaiting_turn. intros Hr.
  apply bind_inv in Hr as [(recorded & w1 & H1 & Hr)|(err & H1 & ->)]; [|apply in_ledger_quiet in H1; by split].
  destruct recorded; simpl in Hr.
  - apply in_ledger_quiet in H1. unfold bind at 1 in Hr. rewrite mem_eq in Hr. simpl in Hr. set (w2 := mkWorld _ _) in Hr.
    set (routed := with_delivery hydrate (delivery_of e) e) in *.
    assert (quiet (st w) (st w2)) as H2.
    { eapply quiet_trans; [exact H1|]. split; [|done]. split; [|done]. simpl. set_solver. }
    destruct (turn routed) as [[]|err] eqn:Ht; simpl in Hr.
    + injection Hr as <- <-. split; [done|]. intros _ _. left. simpl. set_solver.
    + assert (quiet (st w2) (st w') /\ is_ok r = false) as [H3 ->]; [|split; [by eapply quiet_trans|done]].
      apply bind_inv in Hr as [(u & w3 & H3 & Hr)|(err' & H3 & ->)]; apply in_ledger_quiet in H3; [|by split].
      unfold bind, attempt in Hr. destruct (stmt _ w3) as [r4 w4] eqn:H4. simpl in Hr. injection Hr as <- <-.
      split; [|done]. eapply quiet_trans; [exact H3|]. by eapply stmt_quiet; [|exact H4].
  - pose proof (refused_settled e w w1 H1) as Ha. apply in_ledger_quiet in H1.
    unfold bind in Hr. rewrite mem_eq in Hr. injection Hr as <- <-. split.
    + eapply quiet_trans; [exact H1|]. split; [|done]. split; [done|]. split; [simpl; set_solver|done].
    + intros _ Hrest. right. simpl. rewrite Ha by done. set_solver.
Qed.

Lemma cursor_value_cursors channel g g' : bot_cursors g' = bot_cursors g -> cursor_value channel g' = cursor_value channel g.
Proof. unfold cursor_value, stored_cursor. by intros ->. Qed.

Lemma head_upsert channel id g :
  stored_cursor (show_N bot) (show_N channel)
    (set_bot_cursors (fun t => if existsb (cursor_of (show_N bot) (show_N channel)) t
       then update_where (cursor_of (show_N bot) (show_N channel)) (fun r => mkCursor (cu_bot r) (cu_channel r) id) t
       else (t ++ [mkCursor (show_N bot) (show_N channel) id])%list) g) = Some id.
Proof.
  unfold stored_cursor. simpl. set (p := cursor_of _ _). destruct (existsb p (bot_cursors g)) eqn:E.
  - induction (bot_cursors g) as [|r t IH]; [done|]. unfold select, update_where in *. simpl in *.
    destruct (p r) eqn:Hp; simpl in *; [|by rewrite Hp; apply IH].
    assert (p (mkCursor (cu_bot r) (cu_channel r) id) = true) as -> by done. done.
  - assert (select p (bot_cursors g) = []) as Hn.
    { unfold select. apply existsb_false_filter. exact E. }
    unfold select in *. rewrite List.filter_app, Hn. simpl. unfold p, cursor_of. simpl. by rewrite !String.eqb_refl.
Qed.

(** Updating moves the cursor to the id, or leaves it. *)
Definition moved (channel id : N) (g g' : Gateway) : Prop :=
  cursor_value channel g' = cursor_value channel g \/
  (cursor_value channel g' = id /\ (cursor_value channel g <= id)%N).

Lemma should_advance_value channel id g :
  (id < U64_BOUND)%N ->
  match stored_cursor (show_N bot) (show_N channel) g with
  | Some c => should_advance_cursor (Some c) (show_N id) = true
  | None => True
  end -> (cursor_value channel g <= id)%N.
Proof.
  intros Hid. unfold cursor_value. destruct (stored_cursor _ _ g) as [c|]; [|lia].
  unfold should_advance_cursor. rewrite trim_show_N, parse_show_N by done.
  unfold is_blank. destruct (String.eqb_spec (RustStr.trim c) "") as [->|]; [simpl; lia|].
  destruct (parse_u64 (RustStr.trim c)); simpl; [|lia]. rewrite N.ltb_lt. lia.
Qed.

Lemma update_cursor_moves channel id g :
  (id < U64_BOUND)%N ->
  triple (eq g) (update_bot_channel_cursor (show_N bot) (show_N channel) (show_N id))
    (fun _ g' => grows g g' /\ moved channel id g g') (eq g).
Proof.
  intros Hid. unfold update_bot_channel_cursor.
  assert (triple (eq g) (ret false) (fun _ g' => grows g g' /\ moved channel id g g') (eq g)) as Hret.
  { apply triple_ret. intros g' <-. split; [done|by left]. }
  destruct (is_blank _ || is_blank _)%bool; [exact Hret|]. rewrite trim_show_N, parse_show_N by done.
  eapply (triple_transaction _ _ _ (fun _ => True)).
  eapply triple_bind; [apply triple_query; done|]. intros existing. simpl.
  destruct (match existing with Some c => should_advance_cursor (Some c) (show_N id) | None => true end) eqn:Ha.
  - set (post := fun g' => grows g g' /\ moved channel id g g').
    eapply (triple_bind _ _ _ (fun _ => post)); [|intros _; eapply (triple_bind _ _ _ (fun _ => post))].
    + unfold upsert_bot_cursor. apply triple_stmt; [done|]. intros g' [-> <-]. simpl. split; [done|]. right. split.
      * unfold cursor_value. rewrite head_upsert. by rewrite trim_show_N, parse_show_N.
      * apply should_advance_value; [done|]. destruct (stored_cursor _ _ g); [done|done].
    + destruct (String.eqb _ ""); [|by apply triple_ret].
      eapply (triple_bind _ _ _ (fun _ => post)); [|by intros _; apply triple_ret].
      eapply (triple_weaken _ _ _ _ _ (fun _ => True)); [eapply (triple_attempt post _ (fun _ => post) _ post)|done| |done].
      * unfold upsert_channel_cursor. apply triple_stmt; [done|]. intros g' Hg'. exact Hg'.
      * intros [?|?] g'; done.
    + intros _. by apply triple_ret.
  - apply triple_ret. intros g' [_ <-]. split; [done|by left].
Qed.

(** The event of a message that the filter admits. *)
Definition admitted (m : Message) (e : InboundEvent) : Prop := admit_missed m = Some (Some e).

Lemma update_cursor_rest d b c id : preserves (rest d) (update_bot_channel_cursor b c id).
Proof.
  unfold update_bot_channel_cursor, upsert_bot_cursor, upsert_channel_cursor.
  destruct (is_blank c || is_blank id)%bool; [apply preserves_ret|]. case_match; [|apply preserves_ret].
  apply preserves_transaction, preserves_bind; [apply preserves_query|]. intros existing.
  destruct (match existing with Some _ => _ | None => _ end); [|by preserve_steps].
  preserve_steps; try done; destruct (String.eqb b ""); by preserve_steps.
Qed.

Lemma message_rest d channel m :
  (forall e, admitted m e -> delivery_of e <> d) -> preserves (rest d) (message_step channel m).
Proof.
  intros Hd. unfold backfill_message. destruct (admit_missed m) as [[e|]|] eqn:Ha; [|apply preserves_ret..].
  apply preserves_bind; [apply preserves_attempt, route_rest; intros E; by eapply Hd|]. intros [b|err]; [|apply preserves_ret].
  preserve_steps. apply update_cursor_rest.
Qed.

Lemma message_effect channel m w r w' :
  (m_id m < U64_BOUND)%N -> message_step channel m w = (r, w') ->
  grows (st w) (st w') /\
  match r with
  | Ok None => cursor_value channel (st w') = cursor_value channel (st w)
  | Ok (Some _) => moved channel (m_id m) (st w) (st w') /\
      forall e, admitted m e -> rest (delivery_of e) (st w) -> settled e (st w')
  | Err _ => False
  end.
Proof.
  intros Hid. unfold backfill_message, admitted. destruct (admit_missed m) as [[e|]|] eqn:Ha.
  - intros Hr. unfold bind at 1, attempt at 1 in Hr. destruct (route e w) as [[b|err] w1] eqn:H1;
      apply route_quiet in H1 as [[Hg Hc] Hs].
    + unfold bind, attempt in Hr. destruct (update_bot_channel_cursor _ _ _ w1) as [r2 w2] eqn:H2.
      injection Hr as <- <-. pose proof (update_cursor_moves channel (m_id m) (st w1) Hid w1 eq_refl) as Hu. rewrite H2 in Hu.
      assert (grows (st w1) (st w2) /\ moved channel (m_id m) (st w1) (st w2)) as [Hg2 Hm].
      { destruct r2; [done|]. rewrite <- Hu. split; [done|by left]. }
      split; [by eapply grows_trans|]. split.
      * unfold moved in *. by rewrite <- (cursor_value_cursors channel (st w) (st w1) Hc).
      * intros e' [= <-] Hrest. eapply settled_grows; [exact Hg2|]. by apply Hs.
    + injection Hr as <- <-. split; [done|]. by apply cursor_value_cursors.
  - intros [= <- <-]. split; [done|]. split; [by left|]. done.
  - intros [= <- <-]. by split.
Qed.

(** The delivery ids of different messages differ. *)
Lemma delivery_id_message m m' : inbound_delivery_id m bot = inbound_delivery_id m' bot -> m_id m = m_id m'.
Proof.
  assert (forall n n' s, show_N n ++ ":" ++ s = show_N n' -> False) as Hno.
  { intros n n' s E. assert (free_of ":" (show_N n') = true) as Hf by (apply show_N_free; right; vm_compute; done).
    rewrite <- E, free_of_app in Hf. apply andb_true_iff in Hf as [_ Hf]. done. }
  unfold inbound_delivery_id. destruct (1 <? _)%nat, (1 <? _)%nat; intros E; injection E as E.
  - apply show_N_inj. by eapply app_inv_tail_str.
  - by destruct (Hno _ _ _ E).
  - by destruct (Hno _ _ _ (eq_sym E)).
  - by apply show_N_inj.
Qed.

Lemma admitted_delivery m e : admitted m e -> delivery_of e = inbound_delivery_id m bot.
Proof.
  unfold admitted, Inbound.admit_missed. destruct (get_channel (m_channel m)) as [[[kind parent] guild]|]; [|done].
  intros E. injection E as E. apply admitted_guards in E as (_ & _ & _ & _ & Hd & _). unfold delivery_of. by rewrite Hd.
Qed.

Lemma later_delivery m m' e e' : (m_id m < m_id m')%N -> admitted m e -> admitted m' e' -> delivery_of e <> delivery_of e'.
Proof. intros Hlt ->%admitted_delivery ->%admitted_delivery E%delivery_id_message. lia. Qed.

Definition last_cursor (l : list Message) (cursor : option string) : option string :=
  match last l with Some m => Some (show_N (m_id m)) | None => cursor end.

Lemma page_rest d channel l : forall cursor count,
  (forall m e, m ∈ l -> admitted m e -> delivery_of e <> d) -> preserves (rest d) (page_step channel l cursor count).
Proof.
  induction l as [|m l IH]; intros cursor count Hl; simpl; [apply preserves_ret|].
  apply preserves_bind; [apply message_rest; intros e; apply Hl; set_solver|].
  intros [n|]; [|apply preserves_ret]. apply IH. intros x e Hx. apply Hl. set_solver.
Qed.

(** What a page does to the cursor and the messages it passes. *)
Lemma page_effect channel l : forall cursor count w r w',
  StronglySorted (fun a b => (m_id a < m_id b)%N) l -> (forall m, m ∈ l -> (m_id m < U64_BOUND)%N) ->
  page_step channel l cursor count w = (r, w') ->
  exists cursor' count' stopped, r = Ok (cursor', count', stopped) /\ grows (st w) (st w') /\
    (cursor_value channel (st w') = cursor_value channel (st w) \/
     exists m, m ∈ l /\ cursor_value channel (st w') = m_id m /\ (cursor_value channel (st w) <= m_id m)%N) /\
    (stopped = false -> cursor' = last_cursor l cursor /\
       forall m e, m ∈ l -> admitted m e -> rest (delivery_of e) (st w) -> settled e (st w')) /\
    (forall m e, m ∈ l -> admitted m e -> rest (delivery_of e) (st w) ->
       (cursor_value channel (st w) < m_id m <= cursor_value channel (st w'))%N -> settled e (st w')).
Proof.
  induction l as [|m l IH]; intros cursor count w r w' Hs Hb Hp; simpl in Hp.
  - injection Hp as <- <-. exists cursor, count, false. split; [done|]. split; [done|]. split; [by left|].
    split; [split; [done|]|]; by intros m e ?%not_elem_of_nil.
  - apply StronglySorted_inv in Hs as [Hs Hm]. rewrite Forall_forall in Hm.
    assert (m_id m < U64_BOUND)%N as Hmb by (apply Hb; set_solver).
    unfold bind in Hp. destruct (message_step channel m w) as [[[n|]|err] w1] eqn:H1.
    + assert (forall x e, x ∈ l -> admitted x e -> rest (delivery_of e) (st w) -> rest (delivery_of e) (st w1)) as Hrest.
      { intros x e Hx He Hr. pose proof (message_rest (delivery_of e) channel m) as Hk. specialize (Hk (fun e' He' => later_delivery m x e' e (Hm x Hx) He' He) w Hr).
        by rewrite H1 in Hk. }
      apply (message_effect channel m w _ w1 Hmb) in H1 as [Hg1 (Hmv & Hset)].
      apply IH in Hp as (c' & n' & stopped & -> & Hg & Hv & Hns & Hle); [|done|by intros x Hx; apply Hb; set_solver].
      assert (forall e, admitted m e -> rest (delivery_of e) (st w) -> settled e (st w')) as Hsm
        by (intros e He Hr; eapply settled_grows; [exact Hg|]; by apply Hset).
      exists c', n', stopped. split; [done|]. split; [by eapply grows_trans|]. split; [|split].
      * destruct Hv as [->|(x & Hx & -> & Hxv)]; [destruct Hmv as [->|[-> ?]]; [by left|right; exists m; set_solver]|].
        right. exists x. split; [set_solver|]. split; [done|]. specialize (Hm x Hx). destruct Hmv as [E|[E ?]]; lia.
      * intros Hst. destruct (Hns Hst) as [-> Hall]. split.
        { unfold last_cursor. destruct l as [|y l]; [done|]. rewrite last_cons_cons.
          destruct (last (y :: l)) eqn:E; [done|]. by apply last_None in E. }
        intros x e [->|Hx]%elem_of_cons He Hr; [by apply Hsm|by eapply Hall, Hrest].
      * intros x e [->|Hx]%elem_of_cons He Hr Hlt; [by apply Hsm|]. apply (Hle x e Hx He); [by eapply Hrest|]. specialize (Hm x Hx).
        destruct Hmv as [E|[E ?]]; lia.
    + apply (message_effect channel m w _ w1 Hmb) in H1 as [Hg1 H1].
      injection Hp as <- <-. exists cursor, count, true. split; [done|]. split; [done|]. split; [by left|]. split; [done|].
      intros x e _ _ _ Hr. lia.
    + by apply (message_effect channel m w _ w1 Hmb) in H1 as [_ ?].
Qed.

(** What Discord documents of the history: with an id to start after, only
    later messages, each once; snowflakes are below 2^64. *)
Context (newest : N) (Hnewest : (newest < U64_BOUND)%N).
Hypothesis fetch_after : forall channel after l, fetch channel after = Ok l ->
  NoDup (map m_id l) /\ forall m, m ∈ l ->
    (m_id m <= newest)%N /\ match after with Some a => (a < m_id m)%N | None => True end.

Lemma by_id_sorted l : NoDup (map m_id l) -> StronglySorted (fun a b => (m_id a < m_id b)%N) (by_id l).
Proof.
  intros Hn. unfold by_id. pose proof (order_by_sorted (fun m => Z.of_N (m_id m)) l) as Hs.
  assert (NoDup (map m_id (order_by (fun m => Z.of_N (m_id m)) l))) as Hn' by (by apply NoDup_map_order_by).
  induction Hs as [|m l' Hs IH Hm]; [constructor|]. simpl in Hn'. apply NoDup_cons in Hn' as [Hnm Hn'].
  constructor; [by apply IH|]. rewrite Forall_forall in Hm |- *. intros x Hx.
  assert (m_id m <> m_id x) by (intros E; apply Hnm; rewrite E; apply list_elem_of_fmap; by exists x).
  specialize (Hm x Hx). simpl in Hm. lia.
Qed.

Lemma sorted_last (l : list Message) x :
  StronglySorted (fun a b => (m_id a < m_id b)%N) l -> x ∈ l -> exists y, last l = Some y /\ y ∈ l /\ (m_id x <= m_id y)%N.
Proof.
  revert x. induction l as [|m l IH]; intros x Hs Hx; [by apply not_elem_of_nil in Hx|]. apply StronglySorted_inv in Hs as [Hs Hm].
  destruct l as [|y l].
  - apply list_elem_of_singleton in Hx as ->. exists m. split; [done|]. split; [set_solver|lia].
  - rewrite last_cons_cons. assert (exists z, z ∈ y :: l /\ (m_id x <= m_id z)%N) as (z & Hz & Hxz).
    { apply elem_of_cons in Hx as [->|Hx]; [|by exists x]. exists y. split; [set_solver|]. rewrite Forall_forall in Hm.
      specialize (Hm y ltac:(set_solver)). lia. }
    destruct (IH z Hs Hz) as (w & ? & ? & ?). exists w. split; [done|]. split; [set_solver|lia].
Qed.

Definition start_after (cursor : option string) : N := match cursor ≫= parse_u64 with Some a => a | None => 0%N end.

(** How many pages may come after a cursor. *)
Definition pages_left (cursor : option string) : nat :=
  match cursor ≫= parse_u64 with Some a => S (N.to_nat (newest - a)) | None => S (S (N.to_nat newest)) end.

(** What the scan leaves of the messages it fetched. *)
Definition scan_leaves (channel : N) (cursor : option string) (g g' : Gateway) : Prop :=
  exists new, fetched g' = (fetched g ++ new)%list /\
    (forall m, m ∈ new -> match cursor ≫= parse_u64 with Some a => (a < m_id m)%N | None => True end) /\
    handed g ⊆ handed g' /\ known g ⊆ known g' /\
    forall m e, m ∈ new -> admitted m e -> rest (delivery_of e) g ->
      (cursor_value channel g < m_id m <= cursor_value channel g')%N -> settled e g'.

Lemma scan_leaves_nothing channel cursor g : scan_leaves channel cursor g g.
Proof.
  exists []. rewrite app_nil_r. split; [done|]. split; [by intros m ?%not_elem_of_nil|].
  split; [done|]. split; [done|]. by intros m e ?%not_elem_of_nil.
Qed.

Lemma channel_effect fuel channel : forall cursor count w r w',
  channel_step fuel channel cursor count w = (r, w') ->
  (pages_left cursor <= fuel -> r <> Ok None) /\ scan_leaves channel cursor (st w) (st w').
Proof.
  induction fuel as [|f IH]; intros cursor count w r w' Hr; simpl in Hr.
  - injection Hr as <- <-. split; [unfold pages_left; case_match; lia|]. apply scan_leaves_nothing.
  - assert (forall n, (Ok (Some n), w) = (r, w') -> (pages_left cursor <= S f -> r <> Ok None) /\ scan_leaves channel cursor (st w) (st w')) as Hstop.
    { intros n [= <- <-]. split; [done|]. apply scan_leaves_nothing. }
    destruct (fetch channel (cursor ≫= parse_u64)) as [[|m0 messages]|err] eqn:Hf; [by eapply Hstop| |by eapply Hstop].
    clear Hstop. destruct (fetch_after _ _ _ Hf) as [Hn Hid]. set (l := m0 :: messages) in *.
    unfold bind at 1 in Hr. rewrite mem_eq in Hr. cbn [fst snd st] in Hr. set (w0 := mkWorld _ _) in Hr.
    assert (forall m, m ∈ by_id l <-> m ∈ l) as Hin by (intros m; apply in_order_by).
    assert (forall m, m ∈ l -> (m_id m < U64_BOUND)%N) as Hbound by (intros m Hm; destruct (Hid m Hm); lia).
    unfold bind at 1 in Hr. destruct (page_step channel (by_id l) cursor count w0) as [r1 w1] eqn:Hp.
    assert (forall d, (forall m e, m ∈ l -> admitted m e -> delivery_of e <> d) -> rest d (st w) -> rest d (st w1)) as Hkeep.
    { intros d Hd Hr'. pose proof (page_rest d channel (by_id l) cursor count) as Hk.
      specialize (Hk (fun m e Hm => Hd m e (proj1 (Hin m) Hm)) w0 Hr'). by rewrite Hp in Hk. }
    apply page_effect in Hp as (c' & n' & stopped & -> & (Hh & Hk & Hfe) & Hv & Hns & Hle);
      [|by apply by_id_sorted|by intros m Hm; apply Hbound, Hin].
    rewrite (cursor_value_cursors channel (st w) (st w0) eq_refl) in Hv, Hle. cbn [st fetched set_fetched w0] in Hfe.
    destruct (stopped || (length l <? PAGE_LIMIT)%nat)%bool eqn:Hs.
    + injection Hr as <- <-. split; [done|]. exists l. split; [done|]. split; [by intros m Hm; apply Hid|].
      split; [done|]. split; [done|]. intros m e Hm He Hrest Hr. by apply (Hle m e); [apply Hin|..].
    + apply orb_false_iff in Hs as [-> _]. destruct (Hns eq_refl) as [-> Hall].
      destruct (sorted_last (by_id l) m0) as (y & Hy & Hyl & _); [by apply by_id_sorted|apply Hin; set_solver|].
      assert (last_cursor (by_id l) cursor ≫= parse_u64 = Some (m_id y)) as Hc.
      { unfold last_cursor. rewrite Hy. simpl. apply parse_show_N, Hbound, Hin, Hyl. }
      assert (forall m, m ∈ l -> (m_id m <= m_id y)%N) as Hmax.
      { intros m Hm. destruct (sorted_last (by_id l) m) as (y' & Hy' & _ & ?); [by apply by_id_sorted|by apply Hin|]. congruence. }
      apply IH in Hr as (Hfuel & new & Hnf & Hna & Hh' & Hk' & Hset). rewrite Hc in Hna. apply Hin, Hid in Hyl as [Hyn Hya]. split.
      * intros Hf'. apply Hfuel. unfold pages_left in *. rewrite Hc. destruct (cursor ≫= parse_u64) as [a|]; lia.
      * exists (l ++ new)%list. split; [by rewrite Hnf, Hfe, app_assoc|]. split.
        { intros m [Hm|Hm]%elem_of_app; [by apply Hid|]. specialize (Hna m Hm). destruct (cursor ≫= parse_u64) as [a|]; [lia|done]. }
        split; [cbn in *; set_solver|]. split; [cbn in *; set_solver|].
        intros m e [Hm|Hm]%elem_of_app He Hrest Hr'.
        { destruct (Hall m e) as [?|?]; [by apply Hin|done|done|left; by apply Hh'|right; by apply Hk']. }
        apply (Hset m e Hm He); specialize (Hna m Hm).
        { apply Hkeep; [|done]. intros x e' Hx He'. eapply later_delivery; [|done|done]. specialize (Hmax x Hx). simpl in Hna. lia. }
        destruct Hv as [E|(x & Hx & E & _)]; rewrite E; [done|]. apply Hin, Hmax in Hx. destruct Hr' as [_ ?]. split; [simpl in *; lia|done].
Qed.

Lemma query_st {A} (f : Gateway -> A) w (r : result A OmonError) w' : query f w = (r, w') -> st w' = st w.
Proof. unfold query, stmt, exec. destruct (faults w) as [|[m|] fs]; by intros [= _ <-]. Qed.

Lemma get_cursor_st channel w c w1 :
  get_bot_channel_cursor (show_N bot) (show_N channel) w = (c, w1) -> st w1 = st w.
Proof.
  unfold get_bot_channel_cursor. intros [(row & w2 & H1 & Hr)|(e & H1 & _)]%bind_inv; apply query_st in H1; [|done].
  rewrite <- H1. destruct row as [x|]; [by injection Hr as _ <-|].
  destruct (String.eqb _ ""); [by apply query_st in Hr|by injection Hr as _ <-].
Qed.

End BackfillFacts.

(** ** What the model shows beyond the contracts *)

(** A message of the history has no guild id (serenity documents that HTTP
    responses do not carry it), so the filter takes it for a direct message:
    the list of allowed channels and the mention are not asked for, and its
    session is the author's. *)
Theorem history_message_taken_for_dm (m : Message) (bot : N) (kind : ChannelType) (c : InboundFilterConfig) (uuid : string) (now : Z) :
  m_guild m = None -> m_webhook m = false -> m_bot m = false -> m_author m <> bot -> m_kind m = Regular ->
  member (m_channel m) (ignored_channels c) = false ->
  match parent_channel_id c with Some p => member p (ignored_channels c) | None => false end = false ->
  member (m_author m) (allowed_users c) = true -> mentioned_bots m = [] -> is_blank (inbound_text m bot) = false ->
  exists e, message_to_inbound_with_config m bot (Some kind) c uuid now = Some e /\
    guild_id (ev_session e) = None /\ user_id (ev_session e) = show_N (m_author m).
Proof.
  intros Hg Hw Hb Ha Hk Hi Hp Hu Hm Ht. unfold message_to_inbound_with_config, eligible, addressed, is_channel_authorized, is_user_authorized, is_dm.
  rewrite Hg, Hw, Hb, Hk, Hi, Hp, Hu, Hm, Ht. apply N.eqb_neq in Ha. rewrite Ha. simpl. rewrite !orb_true_r. simpl.
  eexists. split; [done|]. unfold inbound_session, is_dm. rewrite Hg. done.
Qed.

#[local] Existing Instance floor_sqlite.

Definition piece (id content : string) : InboundEvent :=
  mkEvent ("u" ++ id) demo_session id (Some ("discord:" ++ id)) content [] (seconds 100).

(** A batch with one message that the ledger knows is refused whole: the new
    message is neither handed to an actor nor recorded. *)
Theorem known_message_poisons_batch :
  let before := snd (run (record_incoming_as (piece "1" "hi") "discord:1" "r1") empty_ledger) in
  let '(r, after) := run (flush_batch (fun _ => Ok false) (fun _ => Ok tt) id plain_ms
                            [piece "1" "hi"; piece "2" "there"] id (seconds 101)) before in
  r = Ok (Some Duplicate) /\ deliveries after = deliveries before /\
  map message_id (deliveries after) = ["discord:1"].
Proof. by vm_compute. Qed.

(** ** Witnesses *)

Definition demo_message (id : N) (mentions : list (N * bool)) (text : string) : Message :=
  mkMessage id 5 (Some 9%N) 7 false false Regular text mentions [] [] None (Some (seconds 100)).
Definition demo_filter : InboundFilterConfig :=
  mkFilter [] [7%N] [] [] false [] [] [5%N] [6%N] (Some 100%N) false NoBots [] None.
Definition both_bots : Message := demo_message 1 [(100%N, true); (101%N, true)] "<@100> <@101> hi".

Lemma admission_sound_witness :
  both_bots.(m_channel) ∉ ignored_channels demo_filter /\ 100%N ∈ mentioned_bots both_bots.
Proof.
  assert (is_Some (message_to_inbound_with_config both_bots 100 (Some Text) demo_filter "u" 0)) as [e He] by (vm_compute; eauto).
  destruct (admission_sound both_bots 100 (Some Text) demo_filter "u" 0 e He) as (_ & H1 & _ & _ & _ & _ & _ & _ & [H2|[H2 _]]).
  - by split.
  - by vm_compute in H2.
Defined.

Lemma bots_do_not_collide_witness : exists e1 e2 : InboundEvent, ev_delivery_id e1 <> ev_delivery_id e2 /\ ev_session e1 <> ev_session e2.
Proof.
  assert (is_Some (message_to_inbound_with_config both_bots 100 (Some Text) demo_filter "u" 0)) as [e1 H1] by (vm_compute; eauto).
  assert (is_Some (message_to_inbound_with_config both_bots 101 (Some Text) demo_filter "u" 0)) as [e2 H2] by (vm_compute; eauto).
  exists e1, e2. by destruct (bots_do_not_collide both_bots 100 101 (Some Text) demo_filter _ _ _ _ e1 e2 H1 H2) as (_ & _ & H3 & H4).
Defined.

(** Two pieces, the first timer superseded by the second. *)
Definition demo_ticks : list Tick :=
  [TEnqueue (piece "1" "hi"); TEnqueue (piece "2" "there"); TStep 0; TStep 1; TStep 0; TStep 0; TStep 1; TFire 0; TStep 1; TFire 0].
Definition demo_batch : list InboundEvent := [piece "1" "hi"; piece "2" "there"].
Definition demo_debounced : Debouncer :=
  mkDebouncer 3 [] [EReturned; EReturned] [] [(true, demo_session, demo_batch)] demo_batch.

Lemma demo_ticked : ticks demo_ticks idle_debouncer = Some demo_debounced.
Proof. by vm_compute. Qed.

Lemma debounce_loses_nothing_witness : pushed_of demo_session demo_debounced = taken_of demo_session demo_debounced.
Proof.
  eapply (debounce_loses_nothing demo_ticks demo_debounced demo_ticked); [|reflexivity].
  intros p Hp. apply elem_of_cons in Hp as [->|Hp]; [reflexivity|]. by apply list_elem_of_singleton in Hp.
Defined.

(** Three messages in the history, newest first; the turn of the last fails. *)
Definition demo_log : list Message :=
  [demo_message 3 [(100%N, true)] "<@100> c"; demo_message 2 [] "aside"; demo_message 1 [(100%N, true)] "<@100> a"].
Definition demo_after (after : option N) : list Message :=
  delete_where (fun m => match after with Some a => (m_id m <=? a)%N | None => false end) demo_log.
Definition demo_history (channel : N) (after : option N) : result (list Message) OmonError := Ok (demo_after after).

Lemma demo_after_newer after :
  NoDup (map m_id (demo_after after)) /\
  forall m, m ∈ demo_after after -> (m_id m <= 3)%N /\ match after with Some a => (a < m_id m)%N | None => True end.
Proof.
  unfold demo_after. split; [apply NoDup_map_delete; simpl; no_dup|].
  intros m [Hm Ha]%in_delete_where. split.
  - assert (Forall (fun m => m_id m <= 3)%N demo_log) as Hf by (repeat constructor; vm_compute; done).
    rewrite Forall_forall in Hf. by apply Hf.
  - destruct after; [by apply N.leb_gt|done].
Qed.

Definition demo_turn (e : InboundEvent) : result unit OmonError :=
  if String.eqb (ev_platform_message_id e) "3" then Err (Multiplexer "boom") else Ok tt.
#[local] Notation demo_scan := (backfill_one plain_ms id 100 demo_history (fun _ => Some (Text, None, Some 9%N)) (fun _ _ => [])
  (fun _ _ => demo_filter) demo_turn (fun m => show_N (m_id m)) id 0).
Definition empty_gateway : Gateway := mkGateway empty_ledger [] [] [] [] [] [].

Lemma demo_scan_result :
  let w := snd (demo_scan 5 5 0 (mkWorld empty_gateway [])) in
  cursor_value 100 5 (st w) = 1%N /\ fetched (st w) = demo_log /\ (0 < 1 <= 1)%N /\ cursor_value 100 5 empty_gateway = 0%N.
Proof. by vm_compute. Qed.

Lemma demo_admitted : exists e,
  admitted 100 (fun _ => Some (Text, None, Some 9%N)) (fun _ _ => []) (fun _ _ => demo_filter)
    (fun m => show_N (m_id m)) 0 (demo_message 1 [(100%N, true)] "<@100> a") e /\ delivery_of e = "discord:1".
Proof. eexists. split; by vm_compute. Qed.


(** A delivery that is still in progress when the scan comes to its message
    (of a turn that runs, or of a process that died during it) is refused, and
    the cursor moves past the message although no turn of it completed. *)
Example running_duplicate_skipped :
  let busy := snd (run (record_incoming_as (piece "1" "hi") "discord:1" "r1") empty_ledger) in
  let '(r, w) := demo_scan 5 5 0 (mkWorld (mkGateway busy [] [] [] [] [] []) []) in
  r = Ok (Some 0) /\ cursor_value 100 5 (st w) = 1%N /\ known (st w) = [("discord:1", false)] /\
  map (fun h => ev_platform_message_id (fst h)) (handed (st w)) = ["3"] /\
  map status (select (has_message "discord:1") (deliveries (gw_ledger (st w)))) = ["in_progress"].
Proof. by vm_compute. Qed.
