(* ===== verification/Shell.v ===== *)
(** * Reading shell commands ([src/security/normalize.rs])

    How a command is read before it is judged: normalisation, the scanners of
    shell syntax (segments, command starts, words, tokens), the blanking of
    text that only [grep] and [echo] see, the payloads of interpreters and the
    bounded set of variants that the detectors look at.

    A [while] loop over a byte index is a recursion over the suffix from that
    index; [skip] counts the bytes that an [i += n] or [i = end] jumps over, so
    every scanner is structural.  All characters the scanners test are ASCII:
    scanning bytes or characters is the same.  The regular expressions are
    those of the source, as text; the engine is the class [Regex]. *)
From stdpp Require Import base list strings sets.
From Stdlib Require Import ZArith NArith Lia Ascii String Sorted.
From S2P Require Import Prelude RustStr.
Open Scope string_scope.
Open Scope omon_scope.
Local Notation length := Datatypes.length.

(** ** Regular expressions *)

Record Pattern : Type := mkPattern { pattern_text : string; case_insensitive : bool; dot_matches_new_line : bool }.

(** [Regex::is_match] and [Regex::replace_all] of the crate [regex]. *)
Class Regex := {
  is_match : Pattern -> string -> bool;
  replace_all : Pattern -> string -> string -> string
}.

Definition plain (text : string) : Pattern := mkPattern text false false.

Definition DQ : ascii := "034".
Definition SQ : ascii := "039".
Definition BS : ascii := "\".
Definition BT : ascii := "`".
Definition dq : string := String DQ "".

Definition ANSI_RE := plain "(?:\x1B[@-Z\\-_]|[\x80-\x9A\x9C-\x9F]|(?:\x1B\[|\x9B)[0-?]*[ -/]*[@-~])".
Definition LINE_CONTINUATION_RE := plain "\\\r?\n".
Definition BACKSLASH_ESCAPE_RE := plain "\\([^\n])".
Definition EMPTY_QUOTES_RE := plain ("''|" ++ dq ++ dq ++ dq).
Definition IFS_EXPANSION_RE := plain "\$\{IFS\b[^}]*\}|\$IFS\b".
Definition SIMPLE_SHELL_LITERAL_RE := plain "^[A-Za-z0-9_./:@%+=,-]+$".
Definition PARAM_REPLACEMENT_RE := plain "\$\{[^}/\\s]+/[^}/]*/(?P<replacement>[^}]*)\}".
Definition PARAM_DEFAULT_RE := plain "\$\{[^}:}\s]+:-(?P<default>[^}]*)\}".
Definition ENV_ASSIGNMENT_RE := plain "^[A-Za-z_][A-Za-z0-9_]*=.*".

Definition MAX_DETECTION_COMMAND_CHARS : N := 128000.
Definition MAX_SEPARATOR_FREE_COMMAND_CHARS : N := 4096.
Definition MAX_DETECTION_SEGMENTS : N := 25000.

(** ** Text *)

(** [s.len()], in binary. *)
Fixpoint nlen (s : string) : N := match s with "" => 0%N | String _ r => N.succ (nlen r) end.

Definition slice (a b : nat) (s : string) : string := take_str (b - a) (drop_str a s).

Definition is_ascii_whitespace (c : ascii) : bool :=
  match N_of_ascii c with 9 | 10 | 12 | 13 | 32 => true | _ => false end%N.

Definition one_of (l : string) (c : ascii) : bool := existsb (Ascii.eqb c) (list_ascii_of_string l).

(** [;], [&], [|] or a line feed. *)
Definition is_separator (c : ascii) : bool := one_of ";&|" c || Ascii.eqb c LF.

(** [u8 as char], as UTF-8. *)
Definition byte_as_char (c : ascii) : string :=
  let n := N_of_ascii c in
  if (n <? 128)%N then String c ""
  else String (ascii_of_N (192 + n / 64)) (String (ascii_of_N (128 + n mod 64)) "").

(** The scalar value of a character given as UTF-8 bytes. *)
Definition code_point (c : string) : N :=
  match map N_of_ascii (list_ascii_of_string c) with
  | [a] => a
  | [a; b] => (a mod 32) * 64 + b mod 64
  | [a; b; d] => (a mod 16) * 4096 + (b mod 64) * 64 + d mod 64
  | [a; b; d; e] => (a mod 8) * 262144 + (b mod 64) * 4096 + (d mod 64) * 64 + e mod 64
  | _ => 0
  end%N.

(** [s.replace(p, t)] for a nonempty [p]; [skip] is the rest of a match. *)
Fixpoint replace_str (p t s : string) (skip : nat) : string :=
  match s with
  | "" => ""
  | String c r =>
      match skip with
      | S k => replace_str p t r k
      | O => if starts_with p s then t ++ replace_str p t r (len p - 1) else String c (replace_str p t r 0)
      end
  end.

(** [s.find(p)]. *)
Fixpoint find_str (p s : string) : option nat :=
  if starts_with p s then Some 0
  else match s with "" => None | String _ r => option_map S (find_str p r) end.

Definition trim_end_matches (c : ascii) (s : string) : string :=
  string_of_list_ascii (rev (drop_while (Ascii.eqb c) (rev (list_ascii_of_string s)))).

Definition ends_with (c : ascii) (s : string) : bool :=
  match strip_suffix_char c s with Some _ => true | None => false end.

(** [Path::components], with [/] as the separator: the root and a leading [.]
    are components of their own, other [.] are dropped. *)
Definition components (path : string) : list string :=
  ((if starts_with "/" path then ["/"]
    else if String.eqb (hd "" (split_char "/" path)) "." then ["."] else []) ++
   List.filter (fun p => negb (String.eqb p "") && negb (String.eqb p ".")) (split_char "/" path))%list.

(** [Path::file_name]: the last component, unless it is [/], [.] or [..]. *)
Definition file_name (path : string) : option string :=
  match rev (components path) with
  | last :: _ => if existsb (String.eqb last) ["/"; "."; ".."] then None else Some last
  | [] => None
  end.

(** The name of an executable given by name or path. *)
Definition base_name_of (path : string) : string := default path (file_name path).

(** ** Limits *)

Fixpoint count_separators (s : string) : N :=
  match s with "" => 0%N | String c r => ((if is_separator c then 1 else 0) + count_separators r)%N end.

Definition command_parser_limit_exceeded (command : string) : bool :=
  if (MAX_DETECTION_COMMAND_CHARS <? nlen command)%N then true
  else if (MAX_SEPARATOR_FREE_COMMAND_CHARS <? nlen command)%N && (count_separators command =? 0)%N then true
  else (MAX_DETECTION_SEGMENTS <=? count_separators command)%N.

(** ** Normalisation *)

Definition halfwidth (c : string) : string :=
  let u := code_point c in
  if (u =? 12288)%N then " "
  else if ((65281 <=? u) && (u <=? 65374))%N then String (ascii_of_N (u - 65280 + 32)) ""
  else c.

Definition normalize_unicode_nfkc (input : string) : string := of_chars (map halfwidth (chars input)).

(** The values of [HOME] and [USERPROFILE]. *)
Record HomeEnv : Type := mkHomeEnv { env_home : option string; env_userprofile : option string }.

Definition home_candidates (env : HomeEnv) : list string :=
  let home := match env_home env with
              | Some h => let t := trim h in if String.eqb t "" || String.eqb t "/" then [] else [t]
              | None => []
              end in
  let profile := match env_userprofile env with
                 | Some h => let t := trim h in if String.eqb t "" then [] else [t]
                 | None => []
                 end in
  match home, profile with
  | [h], [p] => if (len h <? len p)%nat then [p; h] else [h; p]
  | _, _ => (home ++ profile)%list
  end.

Definition rewrite_home (command home : string) : string :=
  let home_trimmed := trim_end_matches "/" (replace_str "\" "/" home 0) in
  if String.eqb home_trimmed "" || String.eqb home_trimmed "/" then command
  else
    let rewrite c pat := if contains pat c then replace_str pat "~/" c 0 else c in
    rewrite (rewrite command (home_trimmed ++ "/")) (trim_end_matches BS home ++ "/").

Definition rewrite_home_prefixes (env : HomeEnv) (command : string) : string :=
  fold_left rewrite_home (home_candidates env) command.

Section Shell.
Context `{Regex} (env : HomeEnv).

Definition strip_ansi (input : string) : string := replace_all ANSI_RE "" input.

Definition normalize_command_for_detection (command : string) : string :=
  let no_nulls := replace_str (String "000" "") "" (strip_ansi command) 0 in
  let collapsed_lines := replace_all LINE_CONTINUATION_RE "" (normalize_unicode_nfkc no_nulls) in
  let rewritten_home := rewrite_home_prefixes env collapsed_lines in
  let stripped_escapes := replace_all BACKSLASH_ESCAPE_RE "$1" rewritten_home in
  let stripped_quotes := replace_all EMPTY_QUOTES_RE "" stripped_escapes in
  replace_all IFS_EXPANSION_RE " " stripped_quotes.
End Shell.

(** ** Segments and command starts *)

Definition is_char (q : option ascii) (c : ascii) : bool := match q with Some d => Ascii.eqb d c | None => false end.
Definition is_quote (c : ascii) : bool := Ascii.eqb c SQ || Ascii.eqb c DQ.

(** A nonempty segment. *)
Definition flush (cur : string) : list string := match cur with "" => [] | _ => [cur] end.

(** [cur] is the segment so far; [skip] jumps over the second of [&&], [||]. *)
Fixpoint segments_from (s cur : string) (quote : option ascii) (escaped skip : bool) : list string :=
  match s with
  | "" => flush cur
  | String ch r =>
      let keep := segments_from r (cur ++ String ch "") in
      if skip then segments_from r "" quote escaped false
      else if escaped then keep quote false false
      else if Ascii.eqb ch BS && negb (is_char quote SQ) then keep quote true false
      else match quote with
           | Some q => keep (if Ascii.eqb ch q then None else quote) false false
           | None =>
               if is_quote ch then keep (Some ch) false false
               else if is_separator ch then
                 (flush cur ++
                  segments_from r "" None false
                    ((Ascii.eqb ch "&" || Ascii.eqb ch "|") && starts_with (String ch "") r))%list
               else keep None false false
           end
  end.

Definition iter_top_level_shell_segments (command : string) : list string := segments_from command "" None false false.

(** The raw starts, in the order they are pushed. *)
Fixpoint starts_from (s : string) (skip : nat) (i : nat) (quote : option ascii) : list nat :=
  match s with
  | "" => []
  | String ch r =>
      let next := starts_from r 0 (S i) in
      let jump := starts_from r 1 (S i) in
      let more := negb (String.eqb r "") in
      let dollar_paren := starts_with "$(" s in
      match skip with
      | S k => starts_from r k (S i) quote
      | O =>
          if is_char quote SQ then next (if Ascii.eqb ch SQ then None else quote)
          else if is_char quote DQ then
            if Ascii.eqb ch BS && more then jump quote
            else if Ascii.eqb ch DQ then next None
            else if dollar_paren then (i + 2) :: jump quote
            else next quote
          else if is_quote ch then next (Some ch)
          else if Ascii.eqb ch BS && more then jump None
          else if dollar_paren then (i + 2) :: jump None
          else if one_of "({;" ch then (i + 1) :: next None
          else if one_of "&|" ch then
            if starts_with (String ch "") r then (i + 2) :: jump None else (i + 1) :: next None
          else if Ascii.eqb ch LF then (i + 1) :: next None
          else next None
      end
  end.

Fixpoint count_white (s : string) : nat :=
  match s with String c r => if is_ascii_whitespace c then S (count_white r) else 0 | "" => 0 end.

(** The position of the first byte from [start] that is no white space. *)
Definition skip_white (command : string) (start : nat) : nat := start + count_white (drop_str start command).

Fixpoint first_positions (command : string) (seen starts : list nat) : list nat :=
  match starts with
  | [] => []
  | start :: rest =>
      let pos := skip_white command start in
      if (pos <? len command)%nat && negb (existsb (Nat.eqb pos) seen)
      then pos :: first_positions command (pos :: seen) rest
      else first_positions command seen rest
  end.

Definition iter_shell_command_starts (command : string) : list nat :=
  first_positions command [] (0 :: starts_from command 0 0 None).

Fixpoint insert_nat (x : nat) (l : list nat) : list nat :=
  match l with [] => [x] | y :: r => if (x <=? y)%nat then x :: l else y :: insert_nat x r end.

Fixpoint mark_from (command : string) (prev : nat) (offsets : list nat) : string :=
  match offsets with
  | [] => drop_str prev command
  | offset :: rest =>
      if (prev <? offset)%nat && (offset <=? len command)%nat
      then slice prev offset command ++ String LF "" ++ mark_from command offset rest
      else mark_from command prev rest
  end.

Definition mark_command_starts (command : string) : string :=
  let offsets := List.filter (fun o => (0 <? o)%nat) (iter_shell_command_starts command) in
  mark_from command 0 (foldr insert_nat [] offsets).

(** ** Words *)

(** The index after the parenthesis that closes the [$(] two bytes back. *)
Fixpoint dollar_paren_from (s : string) (skip : nat) (i : nat) (depth : nat) (quote : option ascii) : option nat :=
  match s with
  | "" => None
  | String ch r =>
      let more := negb (String.eqb r "") in
      match skip with
      | S k => dollar_paren_from r k (S i) depth quote
      | O =>
          match quote with
          | Some q =>
              if Ascii.eqb ch BS && Ascii.eqb q DQ && more then dollar_paren_from r 1 (S i) depth quote
              else dollar_paren_from r 0 (S i) depth (if Ascii.eqb ch q then None else quote)
          | None =>
              if is_quote ch then dollar_paren_from r 0 (S i) depth (Some ch)
              else if Ascii.eqb ch BS && more then dollar_paren_from r 1 (S i) depth None
              else if starts_with "$(" s then dollar_paren_from r 1 (S i) (S depth) None
              else if Ascii.eqb ch ")" then
                match depth with
                | S (S d) => dollar_paren_from r 0 (S i) (S d) None
                | _ => Some (S i)
                end
              else dollar_paren_from r 0 (S i) depth None
          end
      end
  end.

Definition scan_dollar_paren_end (command : string) (start : nat) : option nat :=
  dollar_paren_from (drop_str (start + 2) command) 0 (start + 2) 1 None.

Fixpoint backtick_from (s : string) (skip : nat) (i : nat) : option nat :=
  match s with
  | "" => None
  | String ch r =>
      match skip with
      | S k => backtick_from r k (S i)
      | O =>
          if Ascii.eqb ch BS && negb (String.eqb r "") then backtick_from r 1 (S i)
          else if Ascii.eqb ch BT then Some (S i)
          else backtick_from r 0 (S i)
      end
  end.

Definition scan_backtick_end (command : string) (start : nat) : option nat :=
  backtick_from (drop_str (start + 1) command) 0 (start + 1).

(** The end of the word whose next byte is at [i]. *)
Fixpoint word_end_from (command s : string) (skip : nat) (i : nat) (quote : option ascii) : nat :=
  match s with
  | "" => i
  | String ch r =>
      let more := negb (String.eqb r "") in
      match skip with
      | S k => word_end_from command r k (S i) quote
      | O =>
          match quote with
          | Some q =>
              if Ascii.eqb ch BS && Ascii.eqb q DQ && more then word_end_from command r 1 (S i) quote
              else word_end_from command r 0 (S i) (if Ascii.eqb ch q then None else quote)
          | None =>
              if is_quote ch then word_end_from command r 0 (S i) (Some ch)
              else if Ascii.eqb ch BS && more then word_end_from command r 1 (S i) None
              else if starts_with "$(" s then
                match scan_dollar_paren_end command i with
                | Some e => word_end_from command r (e - S i) (S i) None
                | None => word_end_from command r 1 (S i) None
                end
              else if starts_with "${" s then
                match find_char "}" (drop_str (i + 2) command) with
                | Some k => word_end_from command r (i + 2 + k + 1 - S i) (S i) None
                | None => word_end_from command r 1 (S i) None
                end
              else if Ascii.eqb ch BT then
                match scan_backtick_end command i with
                | Some e => word_end_from command r (e - S i) (S i) None
                | None => word_end_from command r 0 (S i) None
                end
              else if is_ascii_whitespace ch || one_of ";&|" ch then i
              else word_end_from command r 0 (S i) None
          end
      end
  end.

(** The slice is valid UTF-8: [from_utf8_lossy] leaves it as it is. *)
Definition read_shell_word (command : string) (pos : nat) : nat * nat * string :=
  let start := skip_white command pos in
  let i := word_end_from command (drop_str start command) 0 start None in
  (start, i, slice start i command).

Section Words.
Context `{Regex}.

Fixpoint drop_flags_n (args : list string) : list string :=
  match args with a :: rest => if starts_with "-n" a then drop_flags_n rest else args | [] => [] end.

Definition literal_command_substitution_output (script : string) : option string :=
  match split_whitespace script with
  | [] => None
  | t :: rest =>
      let cmd := to_ascii_lowercase t in
      if String.eqb cmd "echo" then
        match drop_flags_n rest with
        | [a] => if is_match SIMPLE_SHELL_LITERAL_RE a then Some a else None
        | _ => None
        end
      else if String.eqb cmd "printf" then
        match rest with
        | [a] => if is_match SIMPLE_SHELL_LITERAL_RE a then Some a else None
        | [f; a] => if String.eqb f "%s" && is_match SIMPLE_SHELL_LITERAL_RE a then Some a else None
        | _ => None
        end
      else None
  end.

(** The substitution at [i], if it ends and prints a literal, with its end. *)
Definition substitution_at (word s : string) (i : nat) : option (string * nat) :=
  let try_ (e : option nat) (open : nat) :=
    match e with
    | Some e => (fun rep => (rep, e)) <$> literal_command_substitution_output (slice (i + open) (e - 1) word)
    | None => None
    end in
  match (if starts_with "$(" s then try_ (scan_dollar_paren_end word i) 2 else None) with
  | Some x => Some x
  | None => if starts_with "`" s then try_ (scan_backtick_end word i) 1 else None
  end.

Fixpoint substitute_from (word s : string) (skip : nat) (i : nat) : string :=
  match s with
  | "" => ""
  | String c r =>
      match skip with
      | S k => substitute_from word r k (S i)
      | O =>
          match substitution_at word s i with
          | Some (rep, e) => rep ++ substitute_from word r (e - S i) (S i)
          | None => String c (substitute_from word r 0 (S i))
          end
      end
  end.

Definition replace_simple_command_substitutions (word : string) : string := substitute_from word word 0 0.

Definition replace_simple_shell_expansions (word : string) : string :=
  let w := replace_simple_command_substitutions word in
  let w := replace_all PARAM_REPLACEMENT_RE "$replacement" w in
  replace_all PARAM_DEFAULT_RE "$default" w.

Fixpoint strip_from (s : string) (escaped : bool) (quote : option ascii) : string :=
  match s with
  | "" => ""
  | String ch r =>
      let more := negb (String.eqb r "") in
      if escaped then byte_as_char ch ++ strip_from r false quote
      else match quote with
           | Some q =>
               if Ascii.eqb ch BS && Ascii.eqb q DQ && more then strip_from r true quote
               else if Ascii.eqb ch q then strip_from r false None
               else byte_as_char ch ++ strip_from r false quote
           | None =>
               if is_quote ch then strip_from r false (Some ch)
               else if Ascii.eqb ch BS && more then strip_from r true None
               else byte_as_char ch ++ strip_from r false None
           end
  end.

Definition strip_shell_word_syntax (word : string) : string := strip_from word false None.

Definition deobfuscate_once (word : string) : string := strip_shell_word_syntax (replace_simple_shell_expansions word).

Definition deobfuscate_shell_word_for_detection (word : string) : string :=
  let first := deobfuscate_once word in
  if String.eqb first word then first else deobfuscate_once first.

Definition WRAPPERS : list string := ["sudo"; "env"; "exec"; "nohup"; "setsid"; "time"; "command"; "builtin"].
Definition SUDO_OPTS : list string :=
  ["-c"; "--close-from"; "-g"; "--group"; "-h"; "--host"; "-p"; "--prompt"; "-u"; "--user"].
Definition str_mem (x : string) (l : list string) : bool := existsb (String.eqb x) l.

(** At most [n] more words from [pos]. *)
Fixpoint words_from (command : string) (n : nat) (pos : nat) (skip_options skip_arg : bool) : list (nat * nat * string) :=
  match n with
  | O => []
  | S n =>
      let '(word_start, word_end, word) := read_shell_word command pos in
      if (word_start =? word_end)%nat then []
      else
        let deobfuscated := deobfuscate_shell_word_for_detection word in
        let lower_word := to_ascii_lowercase deobfuscated in
        if skip_arg then words_from command n word_end skip_options false
        else if skip_options && starts_with "-" lower_word then
          let opt_name := hd "" (split_char "=" lower_word) in
          words_from command n word_end skip_options
            (negb (contains "=" lower_word) && str_mem opt_name SUDO_OPTS)
        else
          (word_start, word_end, word) ::
          (if str_mem lower_word WRAPPERS then words_from command n word_end (str_mem lower_word ["sudo"; "env"]) false
           else if is_match ENV_ASSIGNMENT_RE deobfuscated then words_from command n word_end false false
           else [])
  end.

Definition iter_shell_command_word_spans (command : string) : list (nat * nat * string) :=
  flat_map (fun start => words_from command 12 start false false) (iter_shell_command_starts command).

(** ** Tokens *)

Record ShellToken : Type := mkToken { tok_value : string; tok_start : nat; tok_end : nat; inert_single_quoted : bool }.

Definition token_of (segment value : string) (start i : nat) : ShellToken :=
  let raw := slice start i segment in
  let sq := String SQ "" in
  mkToken value start i
    ((starts_with sq raw && ends_with SQ raw) || (contains ("=" ++ sq) raw && ends_with SQ raw)).

(** [cur] is the token being read: its start and its value so far. *)
Fixpoint tokens_from (segment s : string) (i : nat) (cur : option (nat * string)) (escaped : bool) (quote : option ascii) :
    option (list ShellToken) :=
  match s with
  | "" =>
      match cur, quote with
      | Some _, Some _ => None
      | Some (start, value), None => Some [token_of segment value start i]
      | None, _ => Some []
      end
  | String ch r =>
      let more := negb (String.eqb r "") in
      let '(start, value) := default (i, "") cur in
      let push q := tokens_from segment r (S i) (Some (start, value ++ byte_as_char ch)) false q in
      let keep e q := tokens_from segment r (S i) (Some (start, value)) e q in
      if escaped then push quote
      else match quote with
           | Some q =>
               if Ascii.eqb ch q then keep false None
               else if Ascii.eqb ch BS && Ascii.eqb q DQ && more then keep true quote
               else push quote
           | None =>
               if is_ascii_whitespace ch then
                 match cur with
                 | None => tokens_from segment r (S i) None false None
                 | Some _ => cons (token_of segment value start i) <$> tokens_from segment r (S i) None false None
                 end
               else if is_quote ch then keep false (Some ch)
               else if Ascii.eqb ch BS then if more then keep true None else None
               else push None
           end
  end.

Definition shell_tokens_with_spans (segment : string) (start : nat) : option (list ShellToken) :=
  tokens_from segment (drop_str start segment) start None false None.

(** ** Text that only [grep], [echo] and [printf] see *)

Definition GREP_OPTS_WITH_ARG : list string :=
  ["--after-context"; "--before-context"; "--binary-files"; "--context"; "--directories"; "--devices"; "--exclude";
   "--exclude-dir"; "--exclude-from"; "--include"; "--label"; "--max-count"; "--regexp"; "--file"].
Definition GREP_SHORT_OPTS_WITH_ARG : string := "ABCDdefm".

(** What the scan of the arguments found: [-e] or [-f], the indexes of
    patterns, the first operand. *)
Record GrepScan : Type := mkGrep { explicit_patterns : bool; pattern_indexes : list nat; operand_index : option nat }.

Definition add_pattern (b : bool) (i : nat) (g : GrepScan) : GrepScan :=
  if b then mkGrep (explicit_patterns g) (pattern_indexes g ++ [i])%list (operand_index g) else g.
Definition set_explicit (b : bool) (g : GrepScan) : GrepScan :=
  mkGrep (explicit_patterns g || b) (pattern_indexes g) (operand_index g).
Definition add_operand (i : nat) (g : GrepScan) : GrepScan :=
  mkGrep (explicit_patterns g) (pattern_indexes g) (match operand_index g with None => Some i | o => o end).

(** The letters of a cluster: whether [e] or [f] came up, and the option with
    an argument that ends the cluster, with whether letters follow it. *)
Fixpoint short_cluster (cs : string) : bool * option (ascii * bool) :=
  match cs with
  | "" => (false, None)
  | String c r =>
      let ef := Ascii.eqb c "e" || Ascii.eqb c "f" in
      if one_of GREP_SHORT_OPTS_WITH_ARG c then (ef, Some (c, negb (String.eqb r "")))
      else let '(seen, stop) := short_cluster r in (ef || seen, stop)
  end.

(** [None]: an option lacks its argument. *)
Fixpoint grep_args (args : list string) (i : nat) (options : bool) (g : GrepScan) : option GrepScan :=
  match args with
  | [] => Some g
  | token :: rest =>
      if options && String.eqb token "--" then grep_args rest (S i) false g
      else if options && starts_with "--" token then
        let '(option, equals_val) := match split_once "=" token with Some (o, v) => (o, Some v) | None => (token, None) end in
        let g := set_explicit (str_mem option ["--regexp"; "--file"]) g in
        let with_value := match equals_val with Some _ => true | None => false end in
        if str_mem option GREP_OPTS_WITH_ARG && negb with_value then
          match rest with
          | [] => None
          | _ :: rest' => grep_args rest' (i + 2) options (add_pattern (String.eqb option "--regexp") (i + 1) g)
          end
        else grep_args rest (S i) options (add_pattern (String.eqb option "--regexp" && with_value) i g)
      else if options && starts_with "-" token && negb (String.eqb token "-") then
        let '(ef, stop) := short_cluster (drop_str 1 token) in
        let g := set_explicit ef g in
        match stop with
        | None => grep_args rest (S i) options g
        | Some (c, true) => grep_args rest (S i) options (add_pattern (Ascii.eqb c "e") i g)
        | Some (c, false) =>
            match rest with
            | [] => None
            | _ :: rest' => grep_args rest' (i + 2) options (add_pattern (Ascii.eqb c "e") (i + 1) g)
            end
        end
      else grep_args rest (S i) options (add_operand i g)
  end.

Definition pattern_positions (g : GrepScan) : list nat :=
  (pattern_indexes g ++
   match explicit_patterns g, operand_index g with false, Some op => [op] | _, _ => [] end)%list.

(** The spans one command word adds; [None]: malformed. *)
Definition word_pattern_spans (segment : string) (segment_at : nat) (w : nat * nat * string) : option (list (nat * nat)) :=
  let '(start, _, word) := w in
  let base_name := base_name_of (to_ascii_lowercase (deobfuscate_shell_word_for_detection word)) in
  let is_grep := str_mem base_name ["grep"; "egrep"; "rg"] in
  let is_echo_or_printf := str_mem base_name ["echo"; "printf"] in
  if negb is_grep && negb is_echo_or_printf then Some []
  else if is_echo_or_printf && (contains "|" segment || contains ">" segment) then Some []
  else
    match shell_tokens_with_spans segment start with
    | None => None
    | Some [] => Some []
    | Some (_ :: args) =>
        let span tok := (segment_at + tok_start tok, segment_at + tok_end tok) in
        if is_echo_or_printf then Some (map span (List.filter (fun tok => negb (starts_with "-" (tok_value tok))) args))
        else
          g ← grep_args (map tok_value args) 0 true (mkGrep false [] None);
          Some (omap (fun idx => span <$> args !! idx) (pattern_positions g))
    end.

Fixpoint collect {A B} (f : A -> option (list B)) (l : list A) : option (list B) :=
  match l with
  | [] => Some []
  | x :: rest => ys ← f x; zs ← collect f rest; Some (ys ++ zs)%list
  end.

Fixpoint segments_spans (command : string) (segments : list string) (offset : nat) : option (list (nat * nat)) :=
  match segments with
  | [] => Some []
  | segment :: rest =>
      match find_str segment (drop_str offset command) with
      | None => segments_spans command rest (offset + len segment)
      | Some idx =>
          let segment_at := offset + idx in
          ys ← collect (word_pattern_spans segment segment_at) (iter_shell_command_word_spans segment);
          zs ← segments_spans command rest (segment_at + len segment);
          Some (ys ++ zs)%list
      end
  end.

Definition quoted_grep_pattern_spans (command : string) : list (nat * nat) * bool :=
  match segments_spans command (iter_top_level_shell_segments command) 0 with
  | Some spans => (spans, false)
  | None => ([], true)
  end.

Fixpoint spaces (n : nat) : string := match n with O => "" | S k => String " " (spaces k) end.

Fixpoint blank_from (command : string) (prev : nat) (spans : list (nat * nat)) : string :=
  match spans with
  | [] => drop_str prev command
  | (start, end_) :: rest =>
      if (prev <=? start)%nat && (start <=? len command)%nat && (end_ <=? len command)%nat
      then slice prev start command ++ spaces (end_ - start) ++ blank_from command end_ rest
      else blank_from command prev rest
  end.

Definition grep_safe_detection_variant (command : string) : string * bool :=
  let '(spans, malformed) := quoted_grep_pattern_spans command in
  if malformed || match spans with [] => true | _ => false end then (command, malformed)
  else (blank_from command 0 spans, false).

(** ** Payloads of interpreters *)

Inductive Family : Type := Python | Node | Perl | Ruby | Php | Powershell.

Definition interpreter_family (executable : string) : option Family :=
  let name := base_name_of (to_ascii_lowercase executable) in
  if starts_with "python" name || starts_with "py" name then Some Python
  else if starts_with "node" name then Some Node
  else if starts_with "perl" name then Some Perl
  else if starts_with "ruby" name then Some Ruby
  else if starts_with "php" name then Some Php
  else if starts_with "powershell" name || starts_with "pwsh" name then Some Powershell
  else None.

Definition Finding : Type := string * option string.
Definition EVAL_FLAG : string := "script execution via -e/-c flag".
Definition MALFORMED_PAYLOAD : string := "command parser limit or malformed executable payload".

(** [args[i..]] of a loop that stops at [--] or an operand. *)
Fixpoint python_payload (args : list string) : list Finding :=
  match args with
  | [] => []
  | a :: rest =>
      if String.eqb a "--" || negb (starts_with "-" a) then []
      else if starts_with "-c" a then [(EVAL_FLAG, if String.eqb a "-c" then head rest else Some (drop_str 2 a))]
      else python_payload rest
  end.

Fixpoint node_payload (args : list string) : list Finding :=
  match args with
  | [] => []
  | a :: rest =>
      if String.eqb a "--" || negb (starts_with "-" a) then []
      else match strip_prefix "--eval=" a, strip_prefix "--print=" a with
           | Some p, _ | None, Some p => [(EVAL_FLAG, Some p)]
           | None, None =>
               if str_mem a ["-e"; "--eval"; "-p"; "--print"] then [(EVAL_FLAG, head rest)] else node_payload rest
           end
  end.

Fixpoint perl_payload (args : list string) : list Finding :=
  match args with
  | [] => []
  | a :: rest =>
      if str_mem a ["-e"; "--eval"] || starts_with "-e" a
      then [(EVAL_FLAG, if str_mem a ["-e"; "--eval"] then head rest else Some (drop_str 2 a))]
      else perl_payload rest
  end.

Fixpoint flag_payload (is_flag : string -> bool) (args : list string) : list Finding :=
  match args with
  | [] => []
  | a :: rest => if is_flag a then [(EVAL_FLAG, head rest)] else flag_payload is_flag rest
  end.

Definition family_payload (fam : Family) (args : list string) : list Finding :=
  match fam with
  | Python => python_payload args
  | Node => node_payload args
  | Perl | Ruby => perl_payload args
  | Php => flag_payload (String.eqb "-r") args
  | Powershell => flag_payload (fun a => str_mem (to_ascii_lowercase a) ["-command"; "-c"]) args
  end.

Fixpoint rg_payload (args : list string) : list Finding :=
  match args with
  | [] => []
  | a :: rest =>
      if String.eqb a "--" then []
      else if String.eqb a "--pre" || starts_with "--pre=" a then [("ripgrep preprocessor execution", None)]
      else rg_payload rest
  end.

Fixpoint shell_payload (args : list string) : list Finding :=
  match args with
  | [] => []
  | a :: rest =>
      if String.eqb a "--" || negb (starts_with "-" a) then []
      else if negb (starts_with "--" a) && contains "c" a then [("shell command via -c/-lc flag", head rest)]
      else shell_payload rest
  end.

Definition word_findings (segment : string) (w : nat * nat * string) : list Finding :=
  let '(start, _, word) := w in
  let lower_exec := to_ascii_lowercase (deobfuscate_shell_word_for_detection word) in
  let base_name := base_name_of lower_exec in
  let family := interpreter_family base_name in
  match shell_tokens_with_spans segment start with
  | None =>
      if match family with Some _ => true | None => false end || str_mem base_name ["sort"; "rg"; "ag"; "man"]
      then [(MALFORMED_PAYLOAD, None)] else []
  | Some [] => []
  | Some (_ :: tokens) =>
      let args := map tok_value tokens in
      let tail :=
        ((if String.eqb base_name "rg" then rg_payload args else []) ++
         (if str_mem base_name ["bash"; "sh"; "zsh"; "ksh"] then shell_payload args else []))%list in
      match family with
      | Some fam =>
          if existsb (starts_with "<<") args then [("script execution via heredoc", None)]
          else (family_payload fam args ++ tail)%list
      | None => tail
      end
  end.

Definition execution_flag_findings (command : string) : list Finding :=
  flat_map (fun segment => flat_map (word_findings segment) (iter_shell_command_word_spans segment))
    (iter_top_level_shell_segments command).

(** ** The variants of a command *)

Definition MAX_DETECTION_VARIANTS : N := 512.
Definition MAX_DETECTION_VARIANT_BYTES : N := 4 * 1024 * 1024.

Record Variants : Type := mkVariants { variants : list string; seen : list string; retained_bytes : N }.

(** An [Err] is the [return variants] of an exhausted budget. *)
Definition push_variant (value : string) (v : Variants) : result Variants (list string) :=
  if (MAX_DETECTION_VARIANTS <=? N.of_nat (length (variants v)))%N ||
     (MAX_DETECTION_VARIANT_BYTES <? retained_bytes v + nlen value)%N
  then Err (variants v)
  else Ok (mkVariants (variants v ++ [value])%list (seen v) (retained_bytes v + nlen value)).

Definition see (value : string) (v : Variants) : Variants := mkVariants (variants v) (value :: seen v) (retained_bytes v).

(** [if seen.insert(value) { push_variant!(value) }] *)
Definition push_new (value : string) (v : Variants) : result Variants (list string) :=
  if str_mem value (seen v) then Ok v else push_variant value (see value v).

Definition push_payload (p : string) (v : Variants) : result Variants (list string) :=
  v <-? push_variant p (see p v) ;;
  let marked_payload := mark_command_starts p in
  if String.eqb marked_payload p then Ok v else push_new marked_payload v.

(** The findings of one variant; the new payloads join [pending]. *)
Fixpoint push_findings (findings : list Finding) (pending : list string) (v : Variants) :
    result (list string * Variants) (list string) :=
  match findings with
  | [] => Ok (pending, v)
  | (_, Some p) :: rest =>
      if str_mem p (seen v) then push_findings rest pending v
      else v <-? push_payload p v ;; push_findings rest (p :: pending) v
  | (_, None) :: rest => push_findings rest pending v
  end.

(** [pending] is the stack, its top first; [None]: out of fuel. *)
Fixpoint drain_pending (fuel : nat) (pending : list string) (v : Variants) : option (result Variants (list string)) :=
  match pending with
  | [] => Some (Ok v)
  | variant :: rest =>
      match fuel with
      | O => None
      | S f =>
          match push_findings (execution_flag_findings variant) rest v with
          | Ok (pending, v) => drain_pending f pending v
          | Err l => Some (Err l)
          end
      end
  end.

Fixpoint push_words (normalized : string) (words : list (nat * nat * string)) (v : Variants) :
    result Variants (list string) :=
  match words with
  | [] => Ok v
  | (word_start, word_end, word) :: rest =>
      let deobf := deobfuscate_shell_word_for_detection word in
      v <-? (if negb (String.eqb deobf "") && negb (String.eqb deobf word)
             then push_new (take_str word_start normalized ++ deobf ++ drop_str word_end normalized) v
             else Ok v) ;;
      push_words normalized rest v
  end.

Definition push_marked (grep_safe : string) (v : Variants) : result Variants (list string) :=
  let marked := mark_command_starts grep_safe in
  if String.eqb marked grep_safe then Ok v else push_new marked v.

(** The result of a computation that may have returned early. *)
Definition all_variants (r : result Variants (list string)) : list string :=
  match r with Ok v => variants v | Err l => l end.

Definition variants_within (fuel : nat) (env : HomeEnv) (command : string) : option (list string) :=
  let normalized := normalize_command_for_detection env command in
  let grep_safe := fst (grep_safe_detection_variant normalized) in
  match push_variant grep_safe (see grep_safe (mkVariants [] [] 0)) with
  | Err l => Some l
  | Ok v =>
      r ← drain_pending fuel [normalized] v;
      Some (all_variants (v <-? r ;; v <-? push_marked grep_safe v ;; push_words normalized (iter_shell_command_word_spans normalized) v))
  end.

(** The fuel is enough: [detection_variants_end]. *)
Definition command_detection_variants (env : HomeEnv) (command : string) : list string :=
  default [] (variants_within (N.to_nat MAX_DETECTION_VARIANTS) env command).
End Words.

(** ** Replacing one byte *)

Lemma replace_str_cons c t d s :
  replace_str (String c "") t (String d s) 0 =
    if Ascii.eqb c d then t ++ replace_str (String c "") t s 0 else String d (replace_str (String c "") t s 0).
Proof. cbn [replace_str]. unfold starts_with. cbn [strip_prefix]. by destruct (Ascii.eqb c d). Qed.

(** ** The variants are bounded and distinct *)

Definition total_bytes (l : list string) : N := foldr (fun s n => nlen s + n)%N 0%N l.

Lemma total_bytes_snoc l s : total_bytes (l ++ [s])%list = (total_bytes l + nlen s)%N.
Proof. induction l as [|x l IH]; simpl; [lia|]. rewrite IH. lia. Qed.

Lemma str_mem_spec x l : str_mem x l = true <-> x ∈ l.
Proof.
  unfold str_mem. rewrite existsb_exists, list_elem_of_In. split; [|intros ?; exists x; by rewrite String.eqb_refl].
  intros (y & Hy & E). by apply String.eqb_eq in E as ->.
Qed.

(** Within the budget; every variant was seen; no variant is listed twice. *)
Record within_budget (v : Variants) : Prop := {
  wb_count : (N.of_nat (length (variants v)) <= MAX_DETECTION_VARIANTS)%N;
  wb_bytes : (retained_bytes v <= MAX_DETECTION_VARIANT_BYTES)%N;
  wb_total : retained_bytes v = total_bytes (variants v);
  wb_seen : forall x, x ∈ variants v -> x ∈ seen v;
  wb_distinct : NoDup (variants v)
}.

(** The variants of a state or of an early return are within the budget. *)
Definition budgeted (r : result Variants (list string)) : Prop :=
  match r with Ok v => within_budget v | Err l => exists v, within_budget v /\ l = variants v end.

(** The variants of [v] come first, and at least [n] more follow them, unless
    the computation returned early. *)
Definition gained (n : nat) (v : Variants) (r : result Variants (list string)) : Prop :=
  variants v `prefix_of` all_variants r /\
  match r with Ok v' => n + length (variants v) <= length (variants v') | Err _ => True end.

Lemma gained_refl v : gained 0 v (Ok v).
Proof. by split. Qed.

Lemma push_variant_ok x v : within_budget v -> x ∉ variants v -> x ∈ seen v ->
  budgeted (push_variant x v) /\ gained 1 v (push_variant x v).
Proof.
  intros [H1 H2 H3 H4 H5] Hx Hs. unfold push_variant. destruct (_ || _)%bool eqn:E; simpl.
  - split; [by exists v|by split].
  - apply orb_false_iff in E as [E1%N.leb_gt E2%N.ltb_ge].
    split; [split; simpl|split; simpl; [by apply prefix_app_r|rewrite length_app; simpl; lia]].
    + rewrite length_app. simpl. lia.
    + lia.
    + rewrite total_bytes_snoc, H3. lia.
    + intros y [Hy| ->%list_elem_of_singleton]%elem_of_app; [by apply H4|done].
    + apply NoDup_app. split; [done|]. split; [set_solver|apply NoDup_singleton].
Qed.

Lemma see_within x v : within_budget v -> within_budget (see x v).
Proof. intros [H1 H2 H3 H4 H5]. split; simpl; auto. intros y Hy. right. by apply H4. Qed.

Lemma push_seen_new x v : within_budget v -> x ∉ seen v ->
  budgeted (push_variant x (see x v)) /\ gained 1 v (push_variant x (see x v)).
Proof.
  intros Hv Hx. pose proof (see_within x v Hv) as Hs. apply (push_variant_ok x (see x v) Hs).
  - simpl. intros Hin. by apply Hx, (wb_seen v Hv).
  - simpl. left.
Qed.

Lemma push_new_ok x v : within_budget v -> budgeted (push_new x v) /\ gained 0 v (push_new x v).
Proof.
  intros Hv. unfold push_new. destruct (str_mem x (seen v)) eqn:E; [by split; [|apply gained_refl]|].
  destruct (push_seen_new x v Hv) as [H1 [H2 H3]]; [by rewrite <- str_mem_spec, E|]. split; [done|]. split; [done|].
  destruct (push_variant x (see x v)); simpl in *; [lia|done].
Qed.

(** Continuing after a step that keeps to the budget. *)
Lemma rbind_budgeted n m v r k :
  budgeted r -> gained n v r ->
  (forall v', within_budget v' -> budgeted (k v') /\ gained m v' (k v')) ->
  budgeted (rbind r k) /\ gained (n + m) v (rbind r k).
Proof.
  intros Hr [Hp Hn] Hk. destruct r as [v'|l]; simpl in *; [|done]. destruct (Hk v' Hr) as [H1 [H2 H3]]. split; [done|].
  split; [by trans (variants v')|]. destruct (k v'); simpl in *; [lia|done].
Qed.

Lemma push_payload_ok p v : within_budget v -> p ∉ seen v -> budgeted (push_payload p v) /\ gained 1 v (push_payload p v).
Proof.
  intros Hv Hp. destruct (push_seen_new p v Hv Hp) as [H1 H2].
  apply (rbind_budgeted 1 0 v); [done|done|]. intros v' Hv'. cbv zeta.
  destruct (String.eqb (mark_command_starts p) p); [by split; [|apply gained_refl]|by apply push_new_ok].
Qed.

Section VariantFacts.
Context `{Regex}.

(** What a payload adds to [pending], the budget loses. *)
Lemma push_findings_ok findings : forall pending v, within_budget v ->
  match push_findings findings pending v with
  | Ok (pending', v') =>
      within_budget v' /\ variants v `prefix_of` variants v' /\
      length pending' + length (variants v) <= length pending + length (variants v')
  | Err l => budgeted (Err l) /\ variants v `prefix_of` l
  end.
Proof.
  induction findings as [|[d [p|]] rest IH]; intros pending v Hv; simpl; [by split| |by apply IH].
  destruct (str_mem p (seen v)) eqn:E; [by apply IH|].
  destruct (push_payload_ok p v Hv) as [H1 [H2 H3]]; [by rewrite <- str_mem_spec, E|].
  destruct (push_payload p v) as [v'|l]; simpl in *; [|done].
  specialize (IH (p :: pending) v' H1). destruct (push_findings rest (p :: pending) v') as [[pd v'']|l].
  - destruct IH as (? & ? & Hl). split; [done|]. split; [by trans (variants v')|]. simpl in Hl. lia.
  - destruct IH as [? ?]. split; [done|by trans (variants v')].
Qed.

Lemma drain_pending_ok fuel : forall pending v, within_budget v ->
  length pending + (N.to_nat MAX_DETECTION_VARIANTS - length (variants v)) <= fuel ->
  exists r, drain_pending fuel pending v = Some r /\ budgeted r /\ gained 0 v r.
Proof.
  induction fuel as [|f IH]; intros [|variant rest] v Hv Hf;
    try (exists (Ok v); split; [done|split; [done|apply gained_refl]]); [simpl in Hf; lia|].
  simpl. pose proof (push_findings_ok (execution_flag_findings variant) rest v Hv) as Hp.
  destruct (push_findings (execution_flag_findings variant) rest v) as [[pd v']|l]; [|destruct Hp; by exists (Err l)].
  destruct Hp as (Hv' & Hpre & Hl). pose proof (wb_count v' Hv').
  destruct (IH pd v' Hv') as (r & Hr & Hb & [Hg1 Hg2]); [simpl in Hf; lia|]. exists r. split; [done|]. split; [done|].
  split; [by trans (variants v')|]. apply prefix_length in Hpre. destruct r; [simpl in *; lia|done].
Qed.

Lemma push_words_ok normalized words : forall v, within_budget v ->
  budgeted (push_words normalized words v) /\ gained 0 v (push_words normalized words v).
Proof.
  induction words as [|[[a b] w] rest IH]; intros v Hv; simpl; [by split; [|apply gained_refl]|].
  apply (rbind_budgeted 0 0); [..|intros v' Hv'; by apply IH];
    (destruct (_ && _)%bool; [by apply push_new_ok|first [done|apply gained_refl]]).
Qed.

Lemma variants_within_ok env command :
  let grep_safe := fst (grep_safe_detection_variant (normalize_command_for_detection env command)) in
  exists v, variants_within (N.to_nat MAX_DETECTION_VARIANTS) env command = Some (variants v) /\ within_budget v /\
    head (variants v) = if (nlen grep_safe <=? MAX_DETECTION_VARIANT_BYTES)%N then Some grep_safe else None.
Proof.
  intros grep_safe. set (v0 := mkVariants [] [] 0).
  assert (within_budget v0) as H0 by (split; simpl; [lia|lia|done|done|constructor]).
  unfold variants_within. fold grep_safe. fold v0.
  destruct (push_seen_new grep_safe v0 H0) as [H1 H2]; [apply not_elem_of_nil|].
  assert (push_variant grep_safe (see grep_safe v0) =
    if (nlen grep_safe <=? MAX_DETECTION_VARIANT_BYTES)%N then Ok (mkVariants [grep_safe] [grep_safe] (nlen grep_safe)) else Err []) as E.
  { unfold push_variant. rewrite (N.leb_antisym _ (nlen grep_safe)). cbn [retained_bytes see v0]. rewrite N.add_0_l.
    by destruct (MAX_DETECTION_VARIANT_BYTES <? nlen grep_safe)%N. }
  rewrite E in H1, H2 |- *. destruct (nlen grep_safe <=? MAX_DETECTION_VARIANT_BYTES)%N; [|by exists v0].
  - set (v1 := mkVariants [grep_safe] [grep_safe] (nlen grep_safe)) in *. cbn [budgeted] in H1.
    destruct (drain_pending_ok (N.to_nat MAX_DETECTION_VARIANTS) [normalize_command_for_detection env command] v1 H1) as (r & -> & Hr & Hg);
      [unfold MAX_DETECTION_VARIANTS; simpl length; lia|]. cbn [mbind option_bind].
    set (k := fun v => rbind (push_marked grep_safe v) (push_words (normalize_command_for_detection env command)
                         (iter_shell_command_word_spans (normalize_command_for_detection env command)))).
    change (exists v, Some (all_variants (rbind r k)) = Some (variants v) /\ within_budget v /\
      head (variants v) = Some grep_safe).
    assert (forall v, within_budget v -> budgeted (k v) /\ gained 0 v (k v)) as Hk.
    { intros v Hv. apply (rbind_budgeted 0 0); [..|intros v' Hv'; by apply push_words_ok];
        (unfold push_marked; cbv zeta; destruct (String.eqb (mark_command_starts grep_safe) grep_safe); [first [done|apply gained_refl]|by apply push_new_ok]). }
    destruct (rbind_budgeted 0 0 v1 r k Hr Hg Hk) as [Hb [[more Hp] _]].
    destruct (rbind r k) as [v|l]; simpl in *.
    + exists v. split; [done|]. split; [done|]. by rewrite Hp.
    + destruct Hb as (v & Hv & ->). exists v. split; [done|]. split; [done|]. by rewrite Hp.
Qed.

(** C16: the analysis of a command is bounded, whatever the command: the fuel
    is enough, so the list of variants is computed; it holds at most 512
    distinct texts and at most 4 MiB in total, and starts with the normalised
    command as [grep] leaves it, unless that alone exceeds the budget. *)
Theorem detection_variants_bounded (env : HomeEnv) (command : string) :
  let l := command_detection_variants env command in
  let grep_safe := fst (grep_safe_detection_variant (normalize_command_for_detection env command)) in
  variants_within (N.to_nat MAX_DETECTION_VARIANTS) env command = Some l /\
  (N.of_nat (length l) <= 512)%N /\ (total_bytes l <= 4 * 1024 * 1024)%N /\ NoDup l /\
  head l = if (nlen grep_safe <=? 4 * 1024 * 1024)%N then Some grep_safe else None.
Proof.
  destruct (variants_within_ok env command) as (v & Hv & [H1 H2 H3 _ H5] & Hh). unfold command_detection_variants.
  rewrite Hv. simpl. rewrite <- H3. done.
Qed.
End VariantFacts.

(** ** The scanners cut at character boundaries *)

Definition ascii_at (i : nat) (s : string) : Prop := exists c, String.get i s = Some c /\ (N_of_ascii c < 128)%N.

(** The shape of valid UTF-8 that cutting relies on: no continuation byte
    comes first or follows an ASCII byte. *)
Definition utf8_shape (s : string) : Prop :=
  forall i c, String.get i s = Some c -> is_continuation c = true -> exists j, i = S j /\ ~ ascii_at j s.

(** A position that a scanner may cut at. *)
Definition after_ascii (i : nat) (s : string) : Prop := i = 0 \/ exists j, i = S j /\ ascii_at j s.
Definition before_ascii (i : nat) (s : string) : Prop := i = len s \/ ascii_at i s.

Lemma get_lt i s c : String.get i s = Some c -> i < len s.
Proof.
  revert i. induction s as [|d s IH]; intros i; [done|]. unfold len. destruct i as [|i]; simpl; [lia|].
  intros Hc. apply IH in Hc. unfold len in Hc. lia.
Qed.

Lemma get_none i s : String.get i s = None -> len s <= i.
Proof.
  revert i. induction s as [|c s IH]; intros i; unfold len; simpl; [lia|]. destruct i as [|i]; [done|].
  intros Hi. apply IH in Hi. unfold len in Hi. lia.
Qed.

Lemma get_drop i j s : String.get j (drop_str i s) = String.get (i + j) s.
Proof.
  revert i. induction s as [|c s IH]; intros [|i]; simpl; done.
Qed.

Lemma drop_cons i s c r : drop_str i s = String c r -> String.get i s = Some c /\ drop_str (S i) s = r /\ i < len s.
Proof.
  intros E. assert (String.get i s = Some c) as Hc.
  { rewrite <- (Nat.add_0_r i), <- get_drop, E. done. }
  split; [done|]. split; [|by eapply get_lt]. clear Hc. revert i E. induction s as [|d s IH]; intros [|i] E; simpl in *; try done.
  - by injection E.
  - by apply IH.
Qed.

Lemma drop_nil i s : drop_str i s = "" -> len s <= i.
Proof. intros E. pose proof (len_drop_str i s) as Hl. rewrite E in Hl. unfold len in *. simpl in Hl. lia. Qed.

Lemma cut_after i s : utf8_shape s -> after_ascii i s -> is_char_boundary i s = true.
Proof.
  intros Hs [->|(j & -> & c & Hc & Ha)]; [done|]. unfold is_char_boundary. pose proof (get_lt _ _ _ Hc).
  destruct (Nat.eqb_spec (S j) (len s)); [done|]. destruct (String.get (S j) s) as [d|] eqn:E.
  - destruct (is_continuation d) eqn:Ed; [|done]. destruct (Hs _ _ E Ed) as (j' & [= <-] & []). by exists c.
  - exfalso. by apply get_none in E; lia.
Qed.

Lemma ascii_not_continuation c : (N_of_ascii c < 128)%N -> is_continuation c = false.
Proof. intros Hc. unfold is_continuation. apply andb_false_iff. left. by apply N.leb_gt. Qed.

Lemma cut_before i s : before_ascii i s -> is_char_boundary i s = true.
Proof.
  intros [->|(c & Hc & Ha)]; unfold is_char_boundary; (destruct i as [|i] || destruct (len s) as [|n]); try done.
  - by rewrite Nat.eqb_refl.
  - destruct (S i =? len s)%nat; [done|]. rewrite Hc. by rewrite ascii_not_continuation.
Qed.

Lemma white_ascii c : is_ascii_whitespace c = true -> (N_of_ascii c < 128)%N.
Proof. destruct c as [[] [] [] [] [] [] [] []]; vm_compute; done. Qed.

Lemma one_of_ascii l c : all_bytes (fun d => (N_of_ascii d <? 128)%N) l = true -> one_of l c = true -> (N_of_ascii c < 128)%N.
Proof.
  intros Hl Hc. unfold one_of in Hc. apply existsb_exists in Hc as (d & Hd & E). apply Ascii.eqb_eq in E as ->.
  induction l as [|x l IH]; [done|]. simpl in *. apply andb_true_iff in Hl as [Hx Hl]. destruct Hd as [->|Hd]; [by apply N.ltb_lt|auto].
Qed.

Lemma count_white_le s : count_white s <= len s.
Proof. induction s as [|c s IH]; simpl; [done|]. unfold len in *. simpl. destruct (is_ascii_whitespace c); lia. Qed.

Lemma count_white_last s k : count_white s = S k -> exists c, String.get k s = Some c /\ is_ascii_whitespace c = true.
Proof.
  revert k. induction s as [|c s IH]; intros k; simpl; [done|]. destruct (is_ascii_whitespace c) eqn:Ec; [|done]. intros [= Ek].
  destruct k as [|k]; [by exists c|]. simpl. by apply IH.
Qed.

Lemma skip_white_after command pos :
  (pos = skip_white command pos \/ after_ascii (skip_white command pos) command) /\
  pos <= skip_white command pos /\ (pos <= len command -> skip_white command pos <= len command).
Proof.
  unfold skip_white. pose proof (count_white_le (drop_str pos command)) as Hc. rewrite len_drop_str in Hc.
  split; [|split; lia]. destruct (count_white (drop_str pos command)) as [|k] eqn:E; [left; lia|]. right. right.
  exists (pos + k). split; [lia|]. apply count_white_last in E as (c & Hg & Hw). rewrite get_drop in Hg. exists c.
  split; [done|by apply white_ascii].
Qed.

(** A word may end at a byte [c]. *)
Definition stops (c : ascii) : bool := is_ascii_whitespace c || one_of ";&|" c.

Lemma stops_ascii c : stops c = true -> (N_of_ascii c < 128)%N.
Proof. intros [Hw|Ho]%orb_true_iff; [by apply white_ascii|by apply (one_of_ascii ";&|")]. Qed.

(** From [i] to [e], the end of a word is the end of [s] or a stopping byte. *)
Definition word_stop (s : string) (i e : nat) : Prop :=
  i <= e <= i + len s /\ (e = i + len s \/ exists c, String.get (e - i) s = Some c /\ stops c = true).

Lemma word_stop_cons ch r i e : word_stop r (S i) e -> word_stop (String ch r) i e.
Proof.
  unfold word_stop, len. intros [He Hs]. simpl String.length. split; [lia|].
  destruct Hs as [->|Hs]; [left; lia|right]. by replace (e - i) with (S (e - S i)) by lia.
Qed.

Lemma word_stop_here ch r i : stops ch = true -> word_stop (String ch r) i i.
Proof. unfold word_stop, len. simpl. intros Hs. split; [lia|right]. exists ch. by rewrite Nat.sub_diag. Qed.

Lemma word_end_from_stops command s : forall skip i q, word_stop s i (word_end_from command s skip i q).
Proof.
  induction s as [|ch r IH]; intros skip i q; cbn [word_end_from].
  - unfold word_stop, len. simpl. split; [lia|left; lia].
  - repeat case_match; first [apply word_stop_cons, IH|by apply word_stop_here].
Qed.

Lemma word_end_at_stop command s i c r : s = String c r -> one_of ";&|" c = true -> word_end_from command s 0 i None = i.
Proof.
  intros -> Hc. simpl.
  assert (is_quote c = false /\ Ascii.eqb c BS = false /\ starts_with "$(" (String c r) = false /\
    starts_with "${" (String c r) = false /\ Ascii.eqb c BT = false) as (-> & -> & -> & -> & ->).
  { unfold one_of in Hc. simpl in Hc. rewrite !orb_true_iff in Hc.
    destruct Hc as [E|[E|[E|E]]]; [apply Ascii.eqb_eq in E as -> ..|done]; unfold starts_with; simpl; by repeat case_match. }
  simpl. by rewrite Hc, orb_true_r.
Qed.

(** Where a word may be read from: after ASCII, or where none is left. *)
Definition readable (pos : nat) (command : string) : Prop :=
  pos <= len command /\
  (after_ascii pos command \/ pos = len command \/ exists c, String.get pos command = Some c /\ stops c = true).

Lemma read_shell_word_bounds command pos start e w :
  readable pos command -> read_shell_word command pos = (start, e, w) -> start <> e ->
  start < e /\ e <= len command /\ w = slice start e command /\ after_ascii start command /\ before_ascii e command /\ readable e command.
Proof.
  unfold read_shell_word. intros [Hp Hr] [= <- <- <-] Hne.
  destruct (skip_white_after command pos) as (Ha & Hle & Hlen). specialize (Hlen Hp).
  set (start := skip_white command pos) in *. set (e := word_end_from _ _ _ _ _) in *.
  destruct (word_end_from_stops command (drop_str start command) 0 start None) as [He Hs]. fold e in He, Hs.
  rewrite len_drop_str in *. assert (e <= len command) by lia. assert (start < e) by lia.
  assert (before_ascii e command /\ (e = len command \/ exists c, String.get e command = Some c /\ stops c = true)) as [Hb Hst].
  { destruct Hs as [->|(c & Hc & Hs)]; [split; [left|left]; lia|]. rewrite get_drop in Hc. replace (start + (e - start)) with e in Hc by lia.
    split; right; exists c; (split; [done|]); [by apply stops_ascii|done]. }
  split; [done|]. split; [done|]. split; [done|]. split; [|split; [done|split; [done|by right]]].
  destruct Ha as [Eq|Ha]; [|done]. destruct Hr as [Hr|[Hr|(c & Hc & Hs')]]; [by rewrite <- Eq|lia|]. exfalso.
  destruct (drop_str start command) as [|d r] eqn:Ed; [apply drop_nil in Ed; lia|].
  apply drop_cons in Ed as (Hg & Hd & _). rewrite <- Eq, Hc in Hg. injection Hg as <-.
  unfold stops in Hs'. apply orb_true_iff in Hs' as [Hw|Ho].
  - assert (skip_white command pos <> pos) as Hx; [|by apply Hx; fold start; rewrite <- Eq].
    unfold skip_white. assert (exists r', drop_str pos command = String c r') as [r' ->].
    { exists r. rewrite Eq. destruct (drop_str start command) eqn:E2; [apply drop_nil in E2; lia|].
      apply drop_cons in E2 as (Hg2 & Hd2 & _). rewrite <- Eq, Hc in Hg2. injection Hg2 as <-. by rewrite <- Hd2, Hd. }
    simpl. rewrite Hw. lia.
  - apply Hne. subst e. symmetry. by eapply word_end_at_stop.
Qed.

Lemma starts_with_2 a b s : starts_with (String a (String b "")) s = true ->
  exists r, s = String a (String b r).
Proof.
  unfold starts_with. destruct (strip_prefix _ s) eqn:E; [|done]. intros _. apply strip_prefix_Some in E as ->. by eexists.
Qed.

(** Every raw start comes right after an ASCII byte. *)
Definition start_ok (s : string) (i x : nat) : Prop := exists j, x = S (i + j) /\ ascii_at j s.

Lemma start_ok_cons ch r i x : start_ok r (S i) x -> start_ok (String ch r) i x.
Proof. intros (j & -> & Ha). exists (S j). split; [lia|exact Ha]. Qed.

Lemma start_ok_1 ch r i l : (N_of_ascii ch < 128)%N ->
  Forall (start_ok (String ch r) i) l -> Forall (start_ok (String ch r) i) ((i + 1) :: l).
Proof. intros Hc Hl. constructor; [|done]. exists 0. split; [lia|by exists ch]. Qed.

Lemma start_ok_2 ch d r i l : (N_of_ascii d < 128)%N ->
  Forall (start_ok (String ch (String d r)) i) l -> Forall (start_ok (String ch (String d r)) i) ((i + 2) :: l).
Proof. intros Hc Hl. constructor; [|done]. exists 1. split; [lia|by exists d]. Qed.

Lemma starts_with_1 a s : starts_with (String a "") s = true -> exists r, s = String a r.
Proof.
  unfold starts_with. destruct (strip_prefix _ s) eqn:E; [|done]. intros _. apply strip_prefix_Some in E as ->. by eexists.
Qed.

Lemma starts_from_ok s : forall skip i q, Forall (start_ok s i) (starts_from s skip i q).
Proof.
  induction s as [|ch r IH]; intros skip i q; cbn [starts_from]; [constructor|].
  assert (forall skip q, Forall (start_ok (String ch r) i) (starts_from r skip (S i) q)) as Hk.
  { intros k q'. eapply Forall_impl; [apply IH|]. intros x. apply start_ok_cons. }
  assert (starts_with "$(" (String ch r) = true -> forall l, Forall (start_ok (String ch r) i) l ->
    Forall (start_ok (String ch r) i) ((i + 2) :: l)) as H2.
  { intros (r' & Er)%starts_with_2 l. injection Er as -> ->. by apply start_ok_2. }
  destruct skip; [|apply Hk]. destruct (is_char q SQ); [apply Hk|]. destruct (is_char q DQ).
  { repeat case_match; try apply Hk. by apply H2. }
  destruct (is_quote ch); [apply Hk|]. destruct (Ascii.eqb ch BS && negb (String.eqb r ""))%bool; [apply Hk|].
  destruct (starts_with "$(" (String ch r)) eqn:E2; [by apply H2|].
  destruct (one_of "({;" ch) eqn:E3; [apply start_ok_1; [by apply (one_of_ascii "({;")|apply Hk]|].
  destruct (one_of "&|" ch) eqn:E4.
  - assert (N_of_ascii ch < 128)%N as Hc by (by apply (one_of_ascii "&|")).
    destruct (starts_with (String ch "") r) eqn:E5; [|by apply start_ok_1].
    apply starts_with_1 in E5 as [r' ->]. by apply start_ok_2.
  - destruct (Ascii.eqb ch LF) eqn:E5; [|apply Hk]. apply Ascii.eqb_eq in E5 as ->. by apply start_ok_1.
Qed.

Lemma first_positions_in command starts : forall seen pos,
  pos ∈ first_positions command seen starts -> exists start, start ∈ starts /\ pos = skip_white command start /\ pos < len command.
Proof.
  induction starts as [|start rest IH]; intros seen pos; simpl; [by intros ?%not_elem_of_nil|].
  destruct (Nat.ltb_spec (skip_white command start) (len command)) as [Hl|Hl]; simpl.
  - destruct (existsb _ seen); simpl.
    + intros (s & Hs & ?)%IH. exists s. split; [by right|done].
    + intros [->|(s & Hs & ?)%IH]%elem_of_cons; [exists start; split; [by left|done]|exists s; split; [by right|done]].
  - intros (s & Hs & ?)%IH. exists s. split; [by right|done].
Qed.

Lemma command_start_ok command pos :
  pos ∈ iter_shell_command_starts command -> pos < len command /\ after_ascii pos command.
Proof.
  intros (start & Hs & -> & Hl)%first_positions_in. split; [done|].
  destruct (skip_white_after command start) as ([<-|Ha] & _ & _); [|done].
  apply elem_of_cons in Hs as [->|Hs]; [by left|]. right. pose proof (starts_from_ok command 0 0 None) as Hf.
  rewrite Forall_forall in Hf. destruct (Hf _ Hs) as (j & -> & Ha). by exists j.
Qed.

Section SpanFacts.
Context `{Regex}.

Definition span_ok (command : string) (w : nat * nat * string) : Prop :=
  let '(a, b, text) := w in
  a < b /\ b <= len command /\ text = slice a b command /\ after_ascii a command /\ before_ascii b command.

Lemma words_from_ok command n : forall pos options arg,
  readable pos command -> Forall (span_ok command) (words_from command n pos options arg).
Proof.
  induction n as [|n IH]; intros pos options arg Hp; cbn [words_from]; [constructor|].
  destruct (read_shell_word command pos) as [[a b] w] eqn:E.
  destruct (Nat.eqb_spec a b) as [|Hne]; [constructor|].
  destruct (read_shell_word_bounds _ _ _ _ _ Hp E Hne) as (Hab & Hb & Hw & Ha & Hbb & Hr).
  repeat case_match; try (by apply IH); (constructor; [done|]); first [by apply IH|constructor].
Qed.

Lemma word_spans_ok command w : w ∈ iter_shell_command_word_spans command -> span_ok command w.
Proof.
  unfold iter_shell_command_word_spans. rewrite list_elem_of_In. intros (pos & Hp & Hw)%in_flat_map.
  apply list_elem_of_In, command_start_ok in Hp as [Hl Ha].
  assert (readable pos command) as Hr by (split; [lia|by left]).
  pose proof (words_from_ok command 12 pos false false Hr) as Hf. rewrite Forall_forall in Hf.
  apply Hf. by apply list_elem_of_In.
Qed.

(** No input makes the scanners cut inside a character or outside the
    text (Rust would panic): in valid UTF-8 every command start is a character
    boundary before the end, and every word is the nonempty slice between two
    character boundaries. *)
Theorem scanners_cut_at_boundaries (command : string) :
  utf8_shape command ->
  (forall o, o ∈ iter_shell_command_starts command -> o < len command /\ is_char_boundary o command = true) /\
  (forall a b w, (a, b, w) ∈ iter_shell_command_word_spans command ->
     a < b /\ b <= len command /\ w = slice a b command /\ is_char_boundary a command = true /\ is_char_boundary b command = true).
Proof.
  intros Hu. split.
  - intros o [Hl Ha]%command_start_ok. split; [done|by apply cut_after].
  - intros a b w (Hab & Hb & Hw & Ha & Hbb)%word_spans_ok.
    split; [done|]. split; [done|]. split; [done|]. split; [by apply cut_after|by apply cut_before].
Qed.
End SpanFacts.

(** ** Marking and blanking change only what they should *)

(** A line feed before each of the given positions. *)
Fixpoint marked_from (offsets : list nat) (i : nat) (s : string) : string :=
  match s with
  | "" => ""
  | String c r =>
      (if existsb (Nat.eqb i) offsets then String LF "" else "") ++ String c (marked_from offsets (S i) r)
  end.

Lemma insert_nat_in x y l : y ∈ insert_nat x l <-> y = x \/ y ∈ l.
Proof.
  induction l as [|z l IH]; simpl; [set_solver|]. destruct (Nat.leb_spec x z); [set_solver|]. rewrite !elem_of_cons, IH. tauto.
Qed.

Lemma insert_nat_sorted x l : StronglySorted le l -> StronglySorted le (insert_nat x l).
Proof.
  induction 1 as [|z l Hs IH Hz]; simpl; [by repeat constructor|]. destruct (Nat.leb_spec x z).
  - constructor; [by constructor|]. constructor; [done|]. eapply Forall_impl; [exact Hz|]. simpl. lia.
  - constructor; [done|]. rewrite Forall_forall in Hz |- *. intros y [->|Hy]%insert_nat_in; [lia|by apply Hz].
Qed.

Lemma sort_nat_in y l : y ∈ foldr insert_nat [] l <-> y ∈ l.
Proof. induction l as [|x l IH]; simpl; [done|]. rewrite insert_nat_in, IH. set_solver. Qed.

Lemma sort_nat_sorted l : StronglySorted le (foldr insert_nat [] l).
Proof. induction l as [|x l IH]; simpl; [constructor|by apply insert_nat_sorted]. Qed.

Lemma existsb_nat_false i l : existsb (Nat.eqb i) l = false <-> i ∉ l.
Proof.
  rewrite <- not_true_iff_false, existsb_exists. split.
  - intros Hn Hi. apply Hn. exists i. split; [by apply list_elem_of_In|apply Nat.eqb_refl].
  - intros Hn (j & Hj & E). apply Nat.eqb_eq in E as ->. apply Hn. by apply list_elem_of_In.
Qed.

(** No position among the next [n] bytes. *)
Lemma marked_skip offsets n : forall i s, (forall x, x ∈ offsets -> x < i \/ i + n <= x) ->
  marked_from offsets i s = take_str n s ++ marked_from offsets (i + n) (drop_str n s).
Proof.
  induction n as [|n IH]; intros i s Hx; [by rewrite Nat.add_0_r; destruct s|].
  destruct s as [|c r]; simpl; [done|].
  assert (existsb (Nat.eqb i) offsets = false) as -> by (apply existsb_nat_false; intros Hi; apply Hx in Hi; lia).
  simpl. f_equal. rewrite IH; [by rewrite Nat.add_succ_r|]. intros x Hi. specialize (Hx x Hi). lia.
Qed.

Lemma marked_ext l1 l2 s : forall i, (forall x, i <= x -> x ∈ l1 <-> x ∈ l2) -> marked_from l1 i s = marked_from l2 i s.
Proof.
  induction s as [|c r IH]; intros i Hx; simpl; [done|]. f_equal; [|f_equal; apply IH; intros x ?; apply Hx; lia].
  destruct (existsb (Nat.eqb i) l2) eqn:E2.
  - destruct (existsb (Nat.eqb i) l1) eqn:E1; [done|]. apply existsb_nat_false in E1. exfalso. apply E1, Hx; [done|].
    apply existsb_exists in E2 as (y & Hy & E). apply Nat.eqb_eq in E as <-. by apply list_elem_of_In.
  - apply existsb_nat_false in E2. assert (existsb (Nat.eqb i) l1 = false) as ->; [|done].
    apply existsb_nat_false. by rewrite Hx.
Qed.

Lemma marked_none i s : marked_from [] i s = s.
Proof. revert i. induction s as [|c r IH]; intros i; simpl; [done|]. by rewrite IH. Qed.

Lemma mark_from_spec command offsets : forall prev,
  StronglySorted le offsets -> (forall x, x ∈ offsets -> x < len command) ->
  mark_from command prev offsets =
    marked_from (List.filter (fun o => (prev <? o)%nat) offsets) prev (drop_str prev command).
Proof.
  induction offsets as [|o rest IH]; intros prev Hs Hl; cbn [mark_from List.filter].
  - by rewrite marked_none.
  - apply StronglySorted_inv in Hs as [Hs Ho]. rewrite Forall_forall in Ho.
    assert (o < len command) as Hol by (apply Hl; left).
    assert (forall x, x ∈ rest -> x < len command) as Hrest by (intros x Hx; apply Hl; by right).
    destruct (Nat.ltb_spec prev o) as [Hp|Hp]; [|by apply IH].
    destruct (Nat.leb_spec o (len command)); [|lia]. simpl andb. cbn iota.
    set (l := o :: _). assert (forall x, x ∈ l -> o <= x) as Hmin.
    { intros x [->|Hx]%elem_of_cons; [done|]. apply Ho. by apply list_elem_of_In, filter_In in Hx as [Hx%list_elem_of_In _]. }
    rewrite (marked_skip l (o - prev)) by (intros x Hx%Hmin; lia).
    replace (prev + (o - prev)) with o by lia. unfold slice. f_equal.
    assert (drop_str (o - prev) (drop_str prev command) = drop_str o command) as ->.
    { rewrite drop_drop_str. by replace (prev + (o - prev)) with o by lia. }
    destruct (drop_str o command) as [|c r] eqn:Ed; [apply drop_nil in Ed; lia|]. rewrite (IH o Hs Hrest), Ed. cbn [marked_from].
    assert (existsb (Nat.eqb o) l = true) as -> by (simpl; by rewrite Nat.eqb_refl).
    assert (existsb (Nat.eqb o) (List.filter (fun x => (o <? x)%nat) rest) = false) as ->.
    { apply existsb_nat_false. intros Hi. apply list_elem_of_In, filter_In in Hi as [_ Hi]. apply Nat.ltb_lt in Hi. lia. }
    cbn [String.append]. f_equal. f_equal. apply marked_ext. intros x Hx. unfold l. rewrite elem_of_cons, !list_elem_of_In, !filter_In, !Nat.ltb_lt.
    split; [intros [? _]; right; split; [done|lia]|intros [->|[? _]]; [lia|split; [done|lia]]].
Qed.

(** Marking loses and reorders nothing: the marked command is the command
    with a line feed inserted before every command start but the first byte,
    and nowhere else. *)
Theorem mark_command_starts_spec (command : string) :
  mark_command_starts command =
    marked_from (List.filter (fun o => (0 <? o)%nat) (iter_shell_command_starts command)) 0 command.
Proof.
  unfold mark_command_starts. cbv zeta.
  set (l := List.filter (fun o => (0 <? o)%nat) (iter_shell_command_starts command)). rewrite mark_from_spec.
  - apply marked_ext. intros x _. rewrite list_elem_of_In, filter_In, <- list_elem_of_In, sort_nat_in.
    unfold l. rewrite !list_elem_of_In, filter_In. tauto.
  - apply sort_nat_sorted.
  - intros x Hx. rewrite sort_nat_in in Hx. unfold l in Hx. apply list_elem_of_In, filter_In in Hx as [Hx%list_elem_of_In _].
    by apply command_start_ok in Hx as [? _].
Qed.

(** The blanked text has the command's length, and each of its bytes is the
    command's or a space. *)
Definition blanks (s t : string) : Prop :=
  len t = len s /\ forall i, String.get i t = String.get i s \/ String.get i t = Some " "%char.

Lemma blanks_refl s : blanks s s.
Proof. split; [done|]. by left. Qed.

Lemma get_app i a b : String.get i (a ++ b) = if (i <? len a)%nat then String.get i a else String.get (i - len a) b.
Proof.
  revert i. induction a as [|c a IH]; intros i; unfold len in *; simpl; [by rewrite Nat.sub_0_r|].
  destruct i as [|i]; [done|]. simpl. apply IH.
Qed.

Lemma blanks_app a b c d : blanks a b -> blanks c d -> blanks (a ++ c) (b ++ d).
Proof.
  intros [Hl Hg] [Hl' Hg']. split; [by rewrite !len_app, Hl, Hl'|]. intros i. rewrite !get_app, Hl.
  destruct (i <? len a)%nat; auto.
Qed.

Lemma get_spaces n i : i < n -> String.get i (spaces n) = Some " "%char.
Proof. revert i. induction n as [|n IH]; intros [|i] Hi; simpl; [lia|lia|done|]. apply IH. lia. Qed.

Lemma len_spaces n : len (spaces n) = n.
Proof. induction n as [|n IH]; unfold len in *; simpl; lia. Qed.

Lemma blanks_spaces s : blanks s (spaces (len s)).
Proof.
  split; [apply len_spaces|]. intros i. destruct (Nat.lt_ge_cases i (len s)) as [Hi|Hi]; [right; by apply get_spaces|left].
  destruct (String.get i s) eqn:E; [apply get_lt in E; lia|].
  destruct (String.get i (spaces (len s))) eqn:E2; [apply get_lt in E2; rewrite len_spaces in E2; lia|done].
Qed.

Lemma blank_from_blanks command spans : forall prev,
  (forall a b, (a, b) ∈ spans -> a <= b) -> blanks (drop_str prev command) (blank_from command prev spans).
Proof.
  induction spans as [|[a b] rest IH]; intros prev Hab; cbn [blank_from]; [apply blanks_refl|].
  assert (forall x y, (x, y) ∈ rest -> x <= y) as Hrest by (intros x y Hx; apply Hab; by right).
  destruct (Nat.leb_spec prev a) as [H1|]; [|by apply IH]. destruct (Nat.leb_spec a (len command)) as [H2|]; [|by apply IH].
  destruct (Nat.leb_spec b (len command)) as [H3|]; [|by apply IH]. cbn.
  assert (a <= b) as H4 by (apply Hab; left).
  rewrite <- (take_drop_str (a - prev) (drop_str prev command)), drop_drop_str. replace (prev + (a - prev)) with a by lia.
  apply blanks_app; [apply blanks_refl|].
  rewrite <- (take_drop_str (b - a) (drop_str a command)), drop_drop_str. replace (a + (b - a)) with b by lia.
  apply blanks_app; [|by apply IH].
  assert (len (take_str (b - a) (drop_str a command)) = b - a) as Hl by (rewrite len_take_str, len_drop_str; lia).
  rewrite <- Hl at 2. apply blanks_spaces.
Qed.

Lemma tokens_from_ordered segment s : forall i cur escaped quote l,
  match cur with Some (start, _) => start <= i | None => True end ->
  tokens_from segment s i cur escaped quote = Some l -> Forall (fun t => tok_start t <= tok_end t) l.
Proof.
  induction s as [|ch r IH]; intros i cur escaped quote l Hc; cbn [tokens_from].
  - destruct cur as [[start v]|], quote; intros [= <-]; repeat constructor. done.
  - destruct (default (i, "") cur) as [start v] eqn:Ed.
    assert (start <= i) as Hs by (destruct cur as [[st v']|]; injection Ed as <- <-; [exact Hc|done]).
    destruct escaped; [intros Hl; eapply IH, Hl; simpl; lia|].
    destruct quote as [q|]; [repeat case_match; intros Hl; (eapply IH, Hl; simpl; lia)|].
    destruct (is_ascii_whitespace ch).
    + destruct cur as [[st v']|]; [|intros Hl; by eapply IH, Hl].
      intros (l' & Hl & ->)%fmap_Some. constructor; [exact Hs|]. by eapply IH, Hl.
    + repeat case_match; try done; intros Hl; (eapply IH, Hl; simpl; lia).
Qed.

Lemma collect_forall {A B} (P : B -> Prop) (f : A -> option (list B)) l r :
  (forall x y, f x = Some y -> Forall P y) -> collect f l = Some r -> Forall P r.
Proof.
  intros Hf. revert r. induction l as [|x l IH]; intros r; simpl; [by intros [= <-]|].
  intros (y & Hy & Hr)%bind_Some. apply bind_Some in Hr as (z & Hz & [= <-]). apply Forall_app. split; [by eapply Hf|by apply IH].
Qed.

Section BlankFacts.
Context `{Regex}.

Lemma word_pattern_spans_ordered segment at_ w l :
  word_pattern_spans segment at_ w = Some l -> Forall (fun '(a, b) => a <= b) l.
Proof.
  destruct w as [[start e] word]. unfold word_pattern_spans. repeat case_match; try done; [by intros [= <-]..| |].
  - intros [= <-]. apply tokens_from_ordered in H2; [|done]. apply Forall_cons in H2 as [_ H2].
    apply Forall_forall. intros [x y] Hx. apply list_elem_of_In, in_map_iff in Hx as (t & [= <- <-] & Ht).
    apply filter_In in Ht as [Ht _]. rewrite Forall_forall in H2. specialize (H2 t ltac:(by apply list_elem_of_In)). simpl in H2. lia.
  - intros (g & _ & [= <-])%bind_Some. apply tokens_from_ordered in H2; [|done]. apply Forall_cons in H2 as [_ H2].
    apply Forall_forall. intros [x y] (idx & _ & Hx)%list_elem_of_omap. apply fmap_Some in Hx as (t & Ht & [= -> ->]).
    apply list_elem_of_lookup_2 in Ht. rewrite Forall_forall in H2. specialize (H2 t Ht). simpl in H2. lia.
Qed.

Lemma segments_spans_ordered command segments : forall offset l,
  segments_spans command segments offset = Some l -> Forall (fun '(a, b) => a <= b) l.
Proof.
  induction segments as [|seg rest IH]; intros offset l; cbn [segments_spans]; [by intros [= <-]|].
  destruct (find_str _ _) as [idx|]; [|by apply IH].
  intros (y & Hy & Hr)%bind_Some. apply bind_Some in Hr as (z & Hz & [= <-]). apply Forall_app.
  split; [|by eapply IH]. eapply collect_forall, Hy. intros w x Hx. by eapply word_pattern_spans_ordered.
Qed.

(** The variant that hides what only [grep] and [echo] see keeps every
    position: it has the command's length, and each of its bytes is the
    command's byte or a space. *)
Theorem grep_safe_only_blanks (command : string) :
  let variant := fst (grep_safe_detection_variant command) in
  len variant = len command /\
  forall i, String.get i variant = String.get i command \/ String.get i variant = Some " "%char.
Proof.
  cbv zeta. unfold grep_safe_detection_variant, quoted_grep_pattern_spans.
  destruct (segments_spans command _ 0) as [l|] eqn:E; [|apply blanks_refl]. apply segments_spans_ordered in E. cbn [fst orb].
  destruct l as [|x l]; [apply blanks_refl|]. apply (blank_from_blanks command (x :: l) 0).
  rewrite Forall_forall in E. intros a b Hab. exact (E _ Hab).
Qed.
End BlankFacts.

(** ** What the scanners do not mean to do, and a witness *)

(** An engine that matches nothing. *)
#[local] Instance idle_engine : Regex := {| is_match _ _ := false; replace_all _ _ s := s |}.

(** A live command substitution is blanked like inert text: [inert_single_quoted]
    is computed for every token and never asked for. *)
Theorem substitution_blanked : grep_safe_detection_variant "echo $(rm -rf /)" = ("echo      -rf   ", false).
Proof. by vm_compute. Qed.

(** Bytes are read as characters: text beyond ASCII comes out garbled. *)
Theorem non_ascii_garbled : strip_shell_word_syntax "é" = "Ã©".
Proof. by vm_compute. Qed.

Definition accented : string := "é; rm x".

Lemma accented_shape : utf8_shape accented.
Proof.
  intros i c Hg Hc.
  do 8 (destruct i as [|i]; [simpl in Hg; injection Hg as <-; vm_compute in Hc;
    first [discriminate Hc|eexists; split; [reflexivity|intros (d & Hd & Ha); simpl in Hd; injection Hd as <-; by vm_compute in Ha]]|]).
  by destruct i.
Qed.

Lemma scanners_cut_at_boundaries_witness : Forall (fun o => is_char_boundary o accented = true) (iter_shell_command_starts accented).
Proof.
  apply Forall_forall. intros o Ho. by destruct (scanners_cut_at_boundaries accented accented_shape) as [Hs _]; destruct (Hs o Ho).
Defined.
