(* ===== verification/Detect.v ===== *)
(** * Judging commands and prompts ([src/security/])

    The unconditional block list and the user's deny globs (hardline.rs), the
    patterns that ask for approval (dangerous.rs), the external scanner's
    verdict (tirith.rs), the scan of cron prompts (scan.rs) and the
    neutralisation of untrusted text (neutralize.rs). *)
From stdpp Require Import base list strings sets.
From Stdlib Require Import ZArith NArith Lia Ascii String.
From S2P Require Import Prelude RustStr Json Shell.
Open Scope string_scope.
Local Notation length := Datatypes.length.

(** [RegexBuilder::new(..).case_insensitive(true).dot_matches_new_line(true)] *)
Definition rule (text : string) : Pattern := mkPattern text true true.

Definition SUDO_STDIN_RE := plain "(?i)(?:^|[;&|`\n]|&&|\|\||[$]\()\s*sudo\s+-S\b".

Definition build_hardline_rm_path (path_alt : string) : string :=
  let tail := "(?:\s|$|[)`;|&])" in
  "(?:['\x22](?:" ++ path_alt ++ ")['\x22]|(?:" ++ path_alt ++ ")" ++ tail ++ ")".

Definition HARDLINE_PATTERNS : list (Pattern * string) :=
  let cmdpos := "(?:^|[\n`]|[$]\()\s*(?:sudo\s+(?:-[^\s]+\s+)*)?(?:env\s+(?:\w+=\S*\s+)*)?(?:(?:exec|nohup|setsid|time)\s+)*\s*" in
  let rm_prefix := cmdpos ++ "rm\s+(-[^\s]*\s+)*" in
  let hardline_system_dirs := "/home|/home/\*|/root|/root/\*|/etc|/etc/\*|/usr|/usr/\*|/var|/var/\*|/bin|/bin/\*|/sbin|/sbin/\*|/boot|/boot/\*|/lib|/lib/\*|/System|/System/\*" in
  let root_rm_path := build_hardline_rm_path "/(?:/|[.]/|[.][.]/)*(?:[.]|[.][.])?\**|/ \*" in
  let sys_rm_path := build_hardline_rm_path hardline_system_dirs in
  let home_rm_path := build_hardline_rm_path "(?:~|\$\{?HOME\}?)(?:/?|/\*)?" in
  map (fun '(pat, description) => (rule pat, description))
  [(rm_prefix ++ root_rm_path, "recursive delete of root filesystem");
   (rm_prefix ++ sys_rm_path, "recursive delete of system directory");
   (rm_prefix ++ home_rm_path, "recursive delete of home directory");
   ("\bmkfs(\.[a-z0-9]+)?\b", "format filesystem (mkfs)");
   ("\bdd\b[^\n]*\bof=/dev/(sd|nvme|hd|mmcblk|vd|xvd|disk)[a-z0-9]*", "dd to raw block device");
   (">\s*/dev/(sd|nvme|hd|mmcblk|vd|xvd|disk)[a-z0-9]*\b", "redirect to raw block device");
   (":\(\)\s*\{\s*:\s*\|\s*:\s*&\s*\}\s*;\s*:", "fork bomb");
   ("\bkill\s+(-[^\s]+\s+)*-1\b", "kill all processes");
   ("\bkill\s+-9\s+-1\b", "kill all processes");
   (cmdpos ++ "(shutdown|reboot|halt|poweroff)\b", "system shutdown/reboot");
   (cmdpos ++ "init\s+[06]\b", "init 0/6 (shutdown/reboot)");
   (cmdpos ++ "systemctl\s+(poweroff|reboot|halt|kexec)\b", "systemctl poweroff/reboot");
   (cmdpos ++ "telinit\s+[06]\b", "telinit 0/6 (shutdown/reboot)")].

(** ** Globs *)

(** One row of the table: [diag], [up] and [left] are the neighbours
    [dp[i-1][j-1]], [dp[i-1][j..]] and [dp[i][j-1]]. *)
Fixpoint row_from (pc : string) (diag : bool) (up : list bool) (ts : list string) (left : bool) : list bool :=
  match ts, up with
  | t :: ts, u :: up =>
      let cell :=
        if String.eqb pc "*" then u || left
        else if String.eqb pc "?" || String.eqb pc t then diag
        else false in
      cell :: row_from pc u up ts cell
  | _, _ => []
  end.

Definition next_row (ts : list string) (prev : list bool) (pc : string) : list bool :=
  let first := String.eqb pc "*" && hd false prev in
  first :: row_from pc (hd false prev) (tl prev) ts first.

Definition wildcard_match (pattern text : string) : bool :=
  let p_chars := chars (to_ascii_lowercase pattern) in
  let t_chars := chars (to_ascii_lowercase text) in
  List.last (fold_left (next_row t_chars) p_chars (true :: map (fun _ => false) t_chars)) false.

(** What the process environment and the file system give: the home
    directories, whether [SUDO_PASSWORD] is set, the temporary directory. *)
Record ProcessEnv : Type := mkProcessEnv { homes : HomeEnv; sudo_password : bool; temp_dir : string }.

Section Detect.
Context `{Regex} (env : ProcessEnv).

(** ** The unconditional block list ([hardline.rs]) *)

Definition check_sudo_stdin_guard (command : string) : option string :=
  if sudo_password env then None
  else if is_match SUDO_STDIN_RE (normalize_command_for_detection (homes env) command)
  then Some "sudo password guessing via stdin (sudo -S)" else None.

(** The first rule that matches the text. *)
Definition first_match (rules : list (Pattern * string)) (text : string) : option string :=
  snd <$> List.find (fun '(p, _) => is_match p text) rules.

Fixpoint first_some {A B} (f : A -> option B) (l : list A) : option B :=
  match l with [] => None | x :: rest => match f x with Some y => Some y | None => first_some f rest end end.

Definition detect_hardline_command (command : string) : option string :=
  if command_parser_limit_exceeded command then Some "command parser limit exceeded"
  else
    let '(_, malformed_grep) := grep_safe_detection_variant (normalize_command_for_detection (homes env) command) in
    if malformed_grep then Some "command parser limit or malformed executable payload"
    else
      match first_some (fun variant => first_match HARDLINE_PATTERNS (to_ascii_lowercase variant))
              (command_detection_variants (homes env) command) with
      | Some description => Some description
      | None => check_sudo_stdin_guard command
      end.

Definition wrapper_stripped_forms (command : string) : list string :=
  fold_left (fun forms '(start, _, _) =>
    let candidate := trim (drop_str start command) in
    if (start =? 0)%nat || String.eqb candidate "" || str_mem candidate forms then forms
    else (forms ++ [candidate])%list)
  (iter_shell_command_word_spans command) [].

Definition match_user_deny_rule (command : string) (deny_patterns : list string) : option string :=
  match List.filter (fun p => negb (String.eqb p "")) (map trim deny_patterns) with
  | [] => None
  | globs =>
      let matching text := List.find (fun pattern => wildcard_match pattern text) globs in
      first_some (fun variant =>
        let candidate := trim variant in
        match matching candidate with
        | Some pattern => Some pattern
        | None => first_some (fun stripped => matching (trim stripped)) (wrapper_stripped_forms candidate)
        end)
      (command_detection_variants (homes env) command)
  end.

(** ** Commands that ask for approval ([dangerous.rs]) *)

Record DangerousFinding : Type := mkDangerous { pattern_key : string; description : string }.
Definition finding (text : string) : DangerousFinding := mkDangerous text text.

Definition PATTERNS : list (Pattern * string) :=
  map (fun '(pat, desc) => (rule pat, desc))
  [
   ("\brm\s+(-[^\s]*\s+)*/",
    "delete in root path");
   ("\brm\s+-[^\s]*r",
    "recursive delete");
   ("\brm\s+--recursive\b",
    "recursive delete (long flag)");
   ("\bcmd(?:\.exe)?\s+/(?:c|k)\s+.*\b(?:del|erase|rd|rmdir)\b",
    "Windows cmd destructive delete");
   ("\b(?:powershell|pwsh)(?:\.exe)?\b(?:\s+-\S+)*\s+(?:-(?:command|c)\s+)?['\x22]?(?:remove-item|rmdir|erase|del|rd|ri|rm)\b",
    "Windows PowerShell destructive delete");
   ("\b(?:powershell|pwsh)(?:\.exe)?\b.*\s-(?:encodedcommand|enc|e)\b",
    "PowerShell encoded command execution");
   ("\bchmod\s+(-[^\s]*\s+)*(777|666|o\+[rwx]*w|a\+[rwx]*w)\b",
    "world/other-writable permissions");
   ("\bchmod\s+--recursive\b.*(777|666|o\+[rwx]*w|a\+[rwx]*w)",
    "recursive world/other-writable (long flag)");
   ("\bchown\s+(-[^\s]*)?R\s+root",
    "recursive chown to root");
   ("\bchown\s+--recur[a-z]*\b.*root",
    "recursive chown to root (long flag)");
   ("\bmkfs(\.[a-z0-9]+)?\b",
    "format filesystem");
   ("\bdd\b[^\n]*\bof=/dev/(sd|nvme|hd|mmcblk|vd|xvd|disk)[a-z0-9]*",
    "dd to raw block device");
   ("\bdd\s+.*if=",
    "disk copy");
   (">\s*/dev/(sd|nvme|hd|mmcblk|vd|xvd|disk)[a-z0-9]*",
    "write to block device");
   ("\bDROP\s+(TABLE|DATABASE)\b",
    "SQL DROP");
   ("\bTRUNCATE\s+(TABLE)?\s*\w",
    "SQL TRUNCATE");
   ("\bsystemctl\s+(-[^\s]+\s+)*(stop|restart|disable|mask)\b",
    "stop/restart system service");
   ("\bkill\s+-9\s+-1\b",
    "kill all processes");
   ("\bpkill\s+-9\b",
    "force kill processes");
   ("\bkillall\s+(-[^\s]*\s+)*-(9|KILL|SIGKILL)\b",
    "force kill processes (killall -KILL)");
   ("\bkillall\s+(-[^\s]*\s+)*-s\s+(KILL|SIGKILL|9)\b",
    "force kill processes (killall -s KILL)");
   ("\bkillall\s+(-[^\s]*\s+)*-r\b",
    "kill processes by regex (killall -r)");
   (":\(\)\s*\{\s*:\s*\|\s*:\s*&\s*\}\s*;\s*:",
    "fork bomb");
   ("\b(curl|wget)\b.*\|\s*(?:[/\w]*/)?(?:ba)?sh(?:\s|$|-c)",
    "pipe remote content to shell");
   ("\b(bash|sh|zsh|ksh)\s+<\s*<?\s*\(\s*(curl|wget)\b",
    "execute remote script via process substitution");
   ("(?:\beval\b|\bsource\b|\.)\s*(?:\$\(\s*|`\s*)(?:curl|wget)\b",
    "execute remote content via command substitution");
   ("\b(base64|base32|base16)\s+(?:-[dD]|--decode)\b.*\|\s*\b(bash|sh|zsh|ksh|dash)\b",
    "pipe decoded content to shell (possible command obfuscation)");
   ("\bxxd\s+-r\b.*\|\s*\b(bash|sh|zsh|ksh|dash)\b",
    "pipe xxd-decoded content to shell (possible command obfuscation)");
   ("\becho\b[^|]*\|\s*\btr\b[^|]*\|\s*\b(bash|sh|zsh|ksh|dash)\b",
    "pipe tr-transformed output to shell (possible command obfuscation)");
   ("\bopenssl\b.*\b(?:base64|enc)\b[^|]*\s+-[dD]\b[^|]*\|\s*\b(bash|sh|zsh|ksh|dash)\b",
    "pipe openssl-decoded content to shell (possible command obfuscation)");
   ("\bxargs\s+.*\brm\b",
    "xargs with rm");
   ("\bfind\b.*-exec(?:dir)?\s+(/\S*/)?rm\b",
    "find -exec/-execdir rm");
   ("\bfind\b.*-delete\b",
    "find -delete");
   ("\bhermes\s+(?:-{1,2}\S+(?:\s+\S+)?\s+)*gateway\s+(stop|restart)\b",
    "stop/restart hermes gateway (kills running agents)");
   ("\bhermes\s+update\b",
    "hermes update (restarts gateway, kills running agents)");
   ("\bdocker\s+compose\s+(restart|stop|kill|down)\b",
    "docker compose restart/stop/kill/down (container lifecycle)");
   ("\bdocker\s+(restart|stop|kill)\b",
    "docker restart/stop/kill (container lifecycle)");
   ("gateway\s+run\b.*(&\s*$|&\s*;|\bdisown\b|\bsetsid\b)",
    "start gateway outside systemd (use 'systemctl --user restart hermes-gateway')");
   ("\bnohup\b.*gateway\s+run\b",
    "start gateway outside systemd (use 'systemctl --user restart hermes-gateway')");
   ("\b(pkill|killall)\b.*\b(hermes|gateway|cli\.py)\b",
    "kill hermes/gateway process (self-termination)");
   ("\bkill\b.*\$\(\s*(pgrep|pidof)\b",
    "kill process via pgrep/pidof expansion (self-termination)");
   ("\bkill\b.*`\s*(pgrep|pidof)\b",
    "kill process via backtick pgrep/pidof expansion (self-termination)");
   ("\blaunchctl\s+(stop|kickstart|bootout|unload|kill|disable|remove)\b.*\b(hermes|ai\.hermes)\b",
    "stop/restart hermes launchd service (kills running agents)");
   (">\s*(?:/etc/|/private/(?:etc|var|tmp|home)/)",
    "overwrite system config");
   ("\btee\b.*['\x22]?(?:/etc/|/private/(?:etc|var|tmp|home)/|/dev/sd|(?:~|\$home|\$\{home\})/\.ssh(?:/|$)|(?:~/\.hermes/|(?:\$home|\$\{home\})/\.hermes/|(?:\$hermes_home|\$\{hermes_home\})/)\.env\b|(?:~/\.hermes/|(?:\$home|\$\{home\})/\.hermes/|(?:\$hermes_home|\$\{hermes_home\})/)(?:config\.yaml|config\.yml)\b|(?:~|\$home|\$\{home\})/\.(?:bashrc|zshrc|profile|bash_profile|zprofile)\b|(?:~|\$home|\$\{home\})/\.(?:netrc|pgpass|npmrc|pypirc)\b)",
    "overwrite system file via tee");
   (">>?\s*['\x22]?(?:/etc/|/private/(?:etc|var|tmp|home)/|/dev/sd|(?:~|\$home|\$\{home\})/\.ssh(?:/|$)|(?:~/\.hermes/|(?:\$home|\$\{home\})/\.hermes/|(?:\$hermes_home|\$\{hermes_home\})/)\.env\b|(?:~/\.hermes/|(?:\$home|\$\{home\})/\.hermes/|(?:\$hermes_home|\$\{hermes_home\})/)(?:config\.yaml|config\.yml)\b|(?:~|\$home|\$\{home\})/\.(?:bashrc|zshrc|profile|bash_profile|zprofile)\b|(?:~|\$home|\$\{home\})/\.(?:netrc|pgpass|npmrc|pypirc)\b)",
    "overwrite system file via redirection");
   ("\btee\b.*['\x22]?(?:(?:(?:/|\.{1,2}/)?(?:[^\s/'\x22`]+/)*\.env(?:\.[^/\s'\x22`]+)*)|(?:(?:/|\.{1,2}/)?(?:[^\s/'\x22`]+/)*(?:config\.yaml|config\.yml)))['\x22]?(?:[\s;&|<>\x22']|$)",
    "overwrite project env/config via tee");
   (">>?\s*['\x22]?(?:(?:(?:/|\.{1,2}/)?(?:[^\s/'\x22`]+/)*\.env(?:\.[^/\s'\x22`]+)*)|(?:(?:/|\.{1,2}/)?(?:[^\s/'\x22`]+/)*(?:config\.yaml|config\.yml)))['\x22]?(?:[\s;&|<>\x22']|$)",
    "overwrite project env/config via redirection");
   ("\b(cp|mv|install)\b.*\s(?:/etc/|/private/(?:etc|var|tmp|home)/)",
    "copy/move file into system config path");
   ("\b(cp|mv|install)\b.*\s['\x22]?(?:(?:(?:/|\.{1,2}/)?(?:[^\s/'\x22`]+/)*\.env(?:\.[^/\s'\x22`]+)*)|(?:(?:/|\.{1,2}/)?(?:[^\s/'\x22`]+/)*(?:config\.yaml|config\.yml)))['\x22]?(?:\s*(?:&&|\|\||;).*)?$",
    "overwrite project env/config file");
   ("\b(cp|mv|install)\b.*\s['\x22]?(?:/etc/|/private/(?:etc|var|tmp|home)/|/dev/sd|(?:~|\$home|\$\{home\})/\.ssh(?:/|$)|(?:~/\.hermes/|(?:\$home|\$\{home\})/\.hermes/|(?:\$hermes_home|\$\{hermes_home\})/)\.env\b|(?:~/\.hermes/|(?:\$home|\$\{home\})/\.hermes/|(?:\$hermes_home|\$\{hermes_home\})/)(?:config\.yaml|config\.yml)\b|(?:~|\$home|\$\{home\})/\.(?:bashrc|zshrc|profile|bash_profile|zprofile)\b|(?:~|\$home|\$\{home\})/\.(?:netrc|pgpass|npmrc|pypirc)\b)[^\s'\x22]*['\x22]?(?:\s*(?:&&|\|\||;).*)?$",
    "copy/move file into sensitive credential/SSH/shell-rc path");
   ("\bsed\s+-[^\s]*i.*(?:(?:~|\$home|\$\{home\})/\.ssh(?:/|$)|(?:~|\$home|\$\{home\})/\.(?:bashrc|zshrc|profile|bash_profile|zprofile)\b|(?:~|\$home|\$\{home\})/\.(?:netrc|pgpass|npmrc|pypirc)\b)[^\s'\x22]*",
    "in-place edit of sensitive credential/SSH/shell-rc path");
   ("\bsed\s+--in-place\b.*(?:(?:~|\$home|\$\{home\})/\.ssh(?:/|$)|(?:~|\$home|\$\{home\})/\.(?:bashrc|zshrc|profile|bash_profile|zprofile)\b|(?:~|\$home|\$\{home\})/\.(?:netrc|pgpass|npmrc|pypirc)\b)[^\s'\x22]*",
    "in-place edit of sensitive credential/SSH/shell-rc path (long flag)");
   ("\b(?:perl|ruby)\b.*(?:^|\s)-[^\s]*i\b.*(?:(?:~|\$home|\$\{home\})/\.ssh(?:/|$)|(?:~|\$home|\$\{home\})/\.(?:bashrc|zshrc|profile|bash_profile|zprofile)\b|(?:~|\$home|\$\{home\})/\.(?:netrc|pgpass|npmrc|pypirc)\b)[^\s'\x22]*",
    "in-place edit of sensitive credential/SSH/shell-rc path (perl/ruby)");
   ("\bsed\s+-[^\s]*i.*\s(?:/etc/|/private/(?:etc|var|tmp|home)/)",
    "in-place edit of system config");
   ("\bsed\s+--in-place\b.*\s(?:/etc/|/private/(?:etc|var|tmp|home)/)",
    "in-place edit of system config (long flag)");
   ("\bsed\s+-[^\s]*i.*(?:(?:~/\.hermes/|(?:\$home|\$\{home\})/\.hermes/|(?:\$hermes_home|\$\{hermes_home\})/)(?:config\.yaml|config\.yml)\b|(?:~/\.hermes/|(?:\$home|\$\{home\})/\.hermes/|(?:\$hermes_home|\$\{hermes_home\})/)\.env\b)",
    "in-place edit of Hermes config/env");
   ("\bsed\s+--in-place\b.*(?:(?:~/\.hermes/|(?:\$home|\$\{home\})/\.hermes/|(?:\$hermes_home|\$\{hermes_home\})/)(?:config\.yaml|config\.yml)\b|(?:~/\.hermes/|(?:\$home|\$\{home\})/\.hermes/|(?:\$hermes_home|\$\{hermes_home\})/)\.env\b)",
    "in-place edit of Hermes config/env (long flag)");
   ("\b(?:perl|ruby)\b.*(?:^|\s)-[^\s]*i\b.*(?:(?:~/\.hermes/|(?:\$home|\$\{home\})/\.hermes/|(?:\$hermes_home|\$\{hermes_home\})/)(?:config\.yaml|config\.yml)\b|(?:~/\.hermes/|(?:\$home|\$\{home\})/\.hermes/|(?:\$hermes_home|\$\{hermes_home\})/)\.env\b)",
    "in-place edit of Hermes config/env (perl/ruby)");
   ("\b(bash|sh|zsh|ksh)\s+<<",
    "shell execution via heredoc");
   ("\bgit\s+reset\s+--h(?:a(?:r(?:d)?)?)?\b",
    "git reset --hard (destroys uncommitted changes)");
   ("\bgit\s+push\b.*--forc[a-z]*\b",
    "git force push (rewrites remote history)");
   ("\bgit\s+push\b.*-f\b",
    "git force push short flag (rewrites remote history)");
   ("\bgit\s+clean\s+-[^\s]*f",
    "git clean with force (deletes untracked files)");
   ("\bgit\s+branch\s+-D\b",
    "git branch force delete");
   ("\bgit\s+branch\b[^;|&\\n]*?(?:-d\b|--delete\b)[^;|&\\n]*?(?:-f\b|--force\b)",
    "git branch force delete (long flags)");
   ("\bgit\s+branch\b[^;|&\\n]*?(?:-f\b|--force\b)[^;|&\\n]*?(?:-d\b|--delete\b)",
    "git branch force delete (long flags, force-first)");
   ("\bchmod\s+\+x\b.*[;&|]+\s*\./",
    "chmod +x followed by immediate execution");
   ("\bsudo\b[^;|&\\n]*?\s+(?:-s\b|--st[a-z]*\b|-a\b|--a[a-z]*\b)",
    "sudo with privilege flag (stdin/askpass/shell/list)");
   ("\bsudo\b[^;|&\\n]*?\s+-[a-z]*[sa][a-z]*\b",
    "sudo with combined-flag privilege escalation")].

Definition SQL_DELETE_FROM_RE := plain "(?i)\bDELETE\s+FROM\b".
Definition SQL_WHERE_RE := plain "(?i)\bWHERE\b".

Definition check_sql_delete_without_where (command : string) : bool :=
  existsb (fun line => is_match SQL_DELETE_FROM_RE line && negb (is_match SQL_WHERE_RE line)) (lines command).

Definition is_prefix (a b : list string) : bool := bool_decide (take (length a) b = a).

Definition is_verification_artifact_cleanup (command : string) : bool :=
  match split_whitespace command with
  | [rm; f; target] =>
      if negb (String.eqb rm "rm") || negb (String.eqb f "-f") then false
      else
        match file_name target with
        | None => false
        | Some filename =>
            if negb (is_prefix (components (temp_dir env)) (components target)) &&
               negb (starts_with "/tmp/" target) && negb (starts_with "/var/folders/" target)
            then false
            else starts_with "hermes-verify-" filename || starts_with "hermes-ad-hoc-" filename
        end
  | _ => false
  end.

Definition detect_dangerous_command (command : string) : option DangerousFinding :=
  if command_parser_limit_exceeded command then Some (finding "command parser limit exceeded")
  else if is_verification_artifact_cleanup command then None
  else
    match first_some (fun variant =>
            if check_sql_delete_without_where variant then Some (finding "SQL DELETE without WHERE")
            else finding <$> first_match PATTERNS variant)
          (command_detection_variants (homes env) command) with
    | Some f => Some f
    | None =>
        match execution_flag_findings (normalize_command_for_detection (homes env) command) with
        | (desc, _) :: _ => Some (finding desc)
        | [] => None
        end
    end.

Definition is_dangerous (command : string) : bool := bool_decide (detect_dangerous_command command <> None).

Definition derive_pattern_key (command : string) : string :=
  match detect_dangerous_command command with
  | Some f => pattern_key f
  | None =>
      match take 3 (split_whitespace (normalize_command_for_detection (homes env) command)) with
      | [] => "command"
      | parts => join " " parts
      end
  end.

(** ** The external scanner ([tirith.rs]) *)

Inductive ScannerVerdict : Type := Allow | Warn (reason : string) | Block (reason : string) | DenyVerdict (reason : string).

Definition failed_response (err : string) (fail_open : bool) : ScannerVerdict :=
  if fail_open then Allow else DenyVerdict ("External security scanner unavailable: " ++ err).

Definition finding_summary (f : value) : option string :=
  title ← get "title" f ≫= as_str;
  let desc := default "" (get "description" f ≫= as_str) in
  Some (if String.eqb desc "" then title else title ++ ": " ++ desc).

Definition verdict_summary (json : value) : string :=
  match get "summary" json ≫= as_str with
  | Some s =>
      if negb (String.eqb (trim s) "") then s
      else match omap finding_summary (default [] (get "findings" json ≫= as_array)) with
           | [] => "semantic risk analysis flagged this command"
           | parts => join "; " parts
           end
  | None =>
      match omap finding_summary (default [] (get "findings" json ≫= as_array)) with
      | [] => "semantic risk analysis flagged this command"
      | parts => join "; " parts
      end
  end.

Definition evaluate_response (response_result : result value string) (fail_open : bool) : ScannerVerdict :=
  match response_result with
  | Ok json =>
      let action := to_ascii_lowercase (default "" (get "action" json ≫= as_str)) in
      if str_mem action ["warn"; "deny"; "block"; "reject"] then
        let summary := verdict_summary json in
        if String.eqb action "warn" then Warn summary else Block summary
      else if String.eqb action "allow" then Allow
      else failed_response "missing or unknown scanner action" fail_open
  | Err err => failed_response err fail_open
  end.

(** What the scanner answered: a network error, an HTTP status (with whether
    it is a success) and the body, if it is JSON. *)
Inductive ScanResponse : Type :=
| NetworkError (err : string)
| HttpResponse (success : bool) (status : string) (body : result value string).

Definition scan_command (response : ScanResponse) (fail_open : bool) : ScannerVerdict :=
  match response with
  | NetworkError err => evaluate_response (Err ("network error: " ++ err)) fail_open
  | HttpResponse false status _ => evaluate_response (Err ("HTTP status " ++ status)) fail_open
  | HttpResponse true _ (Ok json_body) => evaluate_response (Ok json_body) fail_open
  | HttpResponse true _ (Err err) =>
      evaluate_response (Err ("failed to decode scanner response JSON: " ++ err)) fail_open
  end.

(** ** Cron prompts ([scan.rs]) *)

Definition INVISIBLE_CODEPOINTS : list N :=
  [0x200B; 0x200C; 0x200E; 0x200F; 0x202A; 0x202B; 0x202C; 0x202D; 0x202E; 0x2060; 0x2061; 0x2062; 0x2063; 0x2064;
   0x2066; 0x2067; 0x2068; 0x2069; 0xFEFF; 0x00AD]%N.

Definition between (lo hi u : N) : bool := ((lo <=? u) && (u <=? hi))%N.

Definition is_emoji_cp (u : N) : bool :=
  between 0x1F000 0x1FFFF u || between 0x2600 0x27BF u || between 0x2300 0x23FF u ||
  between 0x1F1E6 0x1F1FF u || (u =? 0x20E3)%N.

(** The nearest character that is no variation selector is an emoji. *)
Definition nearest_emoji (l : list N) : bool :=
  match List.find (fun u => negb (u =? 0xFE0F)%N) l with Some u => is_emoji_cp u | None => false end.

(** [before] holds the characters before, the nearest first. *)
Fixpoint invisible_from (before l : list N) : bool :=
  match l with
  | [] => false
  | u :: after =>
      between 0xE0000 0xE007F u || existsb (N.eqb u) INVISIBLE_CODEPOINTS ||
      ((u =? 0x200D)%N && negb (nearest_emoji before && nearest_emoji after)) ||
      invisible_from (u :: before) after
  end.

Definition contains_invisible_chars (text : string) : bool := invisible_from [] (map code_point (chars text)).

Definition PROMPT_INJECTION_PATTERNS : list (Pattern * string) :=
  map (fun '(pat, desc) => (plain pat, desc))
  [
   ("(?i)\bignore\s+(?:\w+\s+)*(?:previous|all|above|prior)\s+(?:\w+\s+)*instructions\b",
    "prompt_injection: ignore previous instructions");
   ("(?i)\bdo\s+not\s+tell\s+the\s+user\b",
    "deception: do not tell the user");
   ("(?i)\bsystem\s+prompt\s+override\b",
    "override: system prompt override");
   ("(?i)\bdisregard\s+(?:your|all|any)\s+(?:instructions|rules|guidelines)\b",
    "disregard_rules: disregard instructions");
   ("(?i)\bcat\s+[^\n]*(\.env|credentials|\.netrc|\.pgpass)\b",
    "read_secrets: reading sensitive secret file");
   ("(?i)\bauthorized_keys\b",
    "ssh_backdoor: referencing authorized_keys");
   ("(?i)/etc/sudoers|\bvisudo\b",
    "sudoers_mod: referencing sudoers");
   (("(?i)curl\s+[^\n]*https?://[^\s" ++ dq ++ "'`]*\$\{?\w*(?:KEY|TOKEN|SECRET|PASSWORD|CREDENTIAL|API)\w*\}?"),
    "exfil_curl_url: leaking secret in url");
   (("(?i)wget\s+[^\n]*https?://[^\s" ++ dq ++ "'`]*\$\{?\w*(?:KEY|TOKEN|SECRET|PASSWORD|CREDENTIAL|API)\w*\}?"),
    "exfil_wget_url: leaking secret in url");
   ("(?i)curl\s+[^\n]*(?:--data(?:-raw|-binary|-urlencode)?|-d|--form|-F)\s+[^\n]*\$\{?\w*(?:KEY|TOKEN|SECRET|PASSWORD|CREDENTIAL|API)\w*\}?",
    "exfil_curl_data: leaking secret in POST payload");
   ("(?i)wget\s+[^\n]*--post-(?:data|file)=[^\n]*\$\{?\w*(?:KEY|TOKEN|SECRET|PASSWORD|CREDENTIAL|API)\w*\}?",
    "exfil_wget_post: leaking secret in POST payload");
   (("(?i)curl\s+[^\n]*(?:-H|--header)\s+[" ++ dq ++ "']Authorization:\s*(?:Bearer|token)\s+\$\{?\w*(?:KEY|TOKEN|SECRET|PASSWORD|CREDENTIAL|API)\w*\}?[" ++ dq ++ "']"),
    "exfil_curl_auth_header: leaking secret in authorization header")].

Definition is_blank_text (s : string) : bool := String.eqb (trim s) "".

Definition scan_assembled_cron_prompt (text : string) : list string :=
  if is_blank_text text then []
  else
    ((if contains_invisible_chars text then ["invisible_unicode: hidden or zero-width unicode characters detected"] else []) ++
     map snd (List.filter (fun '(p, _) => is_match p text) PROMPT_INJECTION_PATTERNS))%list.

Definition scan_cron_prompt (text : string) : list string :=
  if is_blank_text text then []
  else
    ((if contains_invisible_chars text then ["invisible_unicode: hidden or zero-width unicode characters detected"] else []) ++
     map snd (List.filter (fun '(p, _) => is_match p text) PROMPT_INJECTION_PATTERNS) ++
     match detect_hardline_command text with
     | Some hardline => [("hardline_command: " ++ hardline)%string]
     | None =>
         match detect_dangerous_command text with
         | Some dangerous => [("dangerous_command: " ++ pattern_key dangerous)%string]
         | None => []
         end
     end)%list.

(** ** Untrusted text in prompts ([neutralize.rs]) *)

Definition NEUTRALIZE_ANSI_RE := plain "\x1b\[[0-9;]*[a-zA-Z]|\x1b\].*?\x07|\x1b[PX^_].*?\x1b\\".
Definition SENTINEL_RE := plain "<\|.*?\|>|<\||\|>".

Definition is_invisible_or_control (u : N) : bool :=
  existsb (N.eqb u) [0x200B; 0x200C; 0x200D; 0x200E; 0x200F; 0xFEFF; 0x00AD]%N ||
  between 0x202A 0x202E u || between 0x2060 0x206F u.

Definition is_control (u : N) : bool := (u <? 32)%N || (u =? 0x7F)%N || between 0x80 0x9F u.

Definition clean_char (c : string) : list string :=
  if is_invisible_or_control (code_point c) then [] else if is_control (code_point c) then [" "] else [c].

Definition bound_chars (collapsed : string) (max_len : nat) : string :=
  let cs := chars collapsed in
  if (0 <? max_len)%nat && (max_len <? length cs)%nat then
    if (max_len <=? 3)%nat then of_chars (take max_len cs) else of_chars (take (max_len - 3) cs) ++ "..."
  else collapsed.

Definition neutralize_untrusted_inline_text (s : string) (max_len : nat) : string :=
  let without_ansi := replace_all NEUTRALIZE_ANSI_RE "" s in
  let without_sentinels := replace_all SENTINEL_RE " " without_ansi in
  let sanitized_tokens := replace_str "`" "'" without_sentinels 0 in
  let cleaned := of_chars (flat_map clean_char (chars sanitized_tokens)) in
  bound_chars (join " " (split_whitespace cleaned)) max_len.
End Detect.

(** ** Globs match what they should *)

(** [*] stands for any text, [?] for any character, any other character for itself. *)
Inductive glob : list string -> list string -> Prop :=
| glob_nil : glob [] []
| glob_star p t u : glob p u -> glob ("*" :: p) (t ++ u)
| glob_any p c t : glob p t -> glob ("?" :: p) (c :: t)
| glob_char p c t : c <> "*" -> glob p t -> glob (c :: p) (c :: t).

Lemma glob_app p q t : glob (p ++ q) t <-> exists t1 t2, t = (t1 ++ t2)%list /\ glob p t1 /\ glob q t2.
Proof.
  split.
  - remember (p ++ q)%list as pq eqn:E. intros Hg. revert p E.
    induction Hg as [|pq t u Hg IH|pq c t Hg IH|pq c t Hc Hg IH]; intros [|x p] E; simplify_eq/=;
      try (exists []; eexists; split; [done|split; [constructor|by econstructor]]);
      try (exists [], []; split; [done|split; constructor]).
    + destruct (IH p eq_refl) as (t1 & t2 & -> & H1 & H2). exists (t ++ t1)%list, t2. rewrite app_assoc. split; [done|]. split; [by apply glob_star|done].
    + destruct (IH p eq_refl) as (t1 & t2 & -> & H1 & H2). exists (c :: t1), t2. split; [done|]. split; [by apply glob_any|done].
    + destruct (IH p eq_refl) as (t1 & t2 & -> & H1 & H2). exists (x :: t1), t2. split; [done|]. split; [by apply glob_char|done].
  - intros (t1 & t2 & -> & H1 & H2). induction H1 as [|p t u Hg IH|p c t Hg IH|p c t Hc Hg IH]; simpl; [done| | |].
    + rewrite <- app_assoc. by apply glob_star.
    + by apply glob_any.
    + by apply glob_char.
Qed.

(** The last pattern character decides what the last character may be. *)
Lemma glob_snoc_nil p c : glob (p ++ [c]) [] <-> c = "*" /\ glob p [].
Proof.
  rewrite glob_app. split.
  - intros (t1 & t2 & E & H1 & H2). symmetry in E. apply app_eq_nil in E as [-> ->]. inversion H2; subst; split; [done|congruence].
  - intros [-> Hp]. exists [], []. split; [done|]. split; [done|]. apply (glob_star [] [] []). constructor.
Qed.

Lemma glob_snoc p c t x : glob (p ++ [c]) (t ++ [x]) <->
  if String.eqb c "*" then glob p (t ++ [x]) \/ glob (p ++ [c]) t
  else (String.eqb c "?" || String.eqb c x = true) /\ glob p t.
Proof.
  destruct (String.eqb_spec c "*") as [->|Hc].
  - split.
    + intros (t1 & t2 & E & H1 & H2)%glob_app. destruct t2 as [|y t2] using rev_ind; [rewrite app_nil_r in E; subst; by left|].
      right. rewrite app_assoc in E. apply app_inj_tail in E as [-> ->]. apply glob_app. exists t1, t2.
      split; [done|]. split; [done|]. rewrite <- (app_nil_r t2). apply glob_star. constructor.
    + intros [Hg|Hg]; apply glob_app.
      * exists (t ++ [x])%list, []. rewrite app_nil_r. split; [done|]. split; [done|]. apply (glob_star [] [] []). constructor.
      * apply glob_app in Hg as (t1 & t2 & -> & H1 & _). exists t1, (t2 ++ [x])%list. rewrite app_assoc.
        split; [done|]. split; [done|]. rewrite <- (app_nil_r (t2 ++ [x])). apply glob_star. constructor.
  - rewrite glob_app. split.
    + intros (t1 & t2 & E & H1 & H2). inversion H2 as [|? ? ? Hn|? y ? Hn|? y ? Hy Hn]; subst; try done; inversion Hn; subst;
        apply app_inj_tail in E as [-> ->]; (split; [|done]).
      * done.
      * by rewrite String.eqb_refl, orb_true_r.
    + intros [He Hg]. exists t, [x]. split; [done|]. split; [done|]. apply orb_true_iff in He as [E|E]; apply String.eqb_eq in E as ->.
      * apply glob_any. constructor.
      * by apply glob_char; [|constructor].
Qed.

(** The entries of a row, as a function of the length of text. *)
Fixpoint next_entry (pc : string) (f : nat -> bool) (ts : list string) (j : nat) : bool :=
  match j with
  | O => String.eqb pc "*" && f 0
  | S j =>
      if String.eqb pc "*" then f (S j) || next_entry pc f ts j
      else if String.eqb pc "?" || String.eqb pc (nth j ts "") then f j else false
  end.

Lemma row_from_spec pc f ts : forall n k, k + n = length ts ->
  row_from pc (f k) (map f (seq (S k) n)) (drop k ts) (next_entry pc f ts k) = map (next_entry pc f ts) (seq (S k) n).
Proof.
  induction n as [|n IH]; intros k Hk; simpl.
  - by destruct (drop k ts).
  - destruct (drop k ts) as [|t rest] eqn:Ed.
    { apply (f_equal length) in Ed. rewrite length_drop in Ed. simpl in Ed. lia. }
    assert (ts !! k = Some t /\ drop (S k) ts = rest) as [Ht Hr].
    { split.
      - rewrite <- (Nat.add_0_r k), <- lookup_drop, Ed. done.
      - rewrite <- Nat.add_1_r, <- drop_drop, Ed. done. }
    assert (nth k ts "" = t) as Hn by (by apply nth_lookup_Some).
    cbn [row_from]. rewrite Hn. f_equal. rewrite <- Hr, <- (IH (S k)) by lia. cbn [next_entry]. by rewrite Hn.
Qed.

Lemma next_row_spec pc f ts :
  next_row ts (map f (seq 0 (S (length ts)))) pc = map (next_entry pc f ts) (seq 0 (S (length ts))).
Proof. unfold next_row. simpl. f_equal. apply (row_from_spec pc f ts (length ts) 0). lia. Qed.

Lemma next_entry_spec p pc f ts : (forall j, j <= length ts -> f j = true <-> glob p (take j ts)) ->
  forall j, j <= length ts -> next_entry pc f ts j = true <-> glob (p ++ [pc]) (take j ts).
Proof.
  intros Hf. induction j as [|j IH]; intros Hj.
  - simpl. rewrite glob_snoc_nil, andb_true_iff, String.eqb_eq, Hf by lia. done.
  - assert (take (S j) ts = take j ts ++ [nth j ts ""])%list as E.
    { destruct (ts !! j) as [x|] eqn:Ex; [|apply lookup_ge_None in Ex; lia].
      rewrite (take_S_r ts j x Ex). by rewrite (nth_lookup_Some ts j "" x Ex). }
    cbn [next_entry]. rewrite E, glob_snoc, <- E. destruct (String.eqb pc "*").
    + by rewrite orb_true_iff, Hf, IH by lia.
    + destruct (_ || _)%bool; rewrite ?Hf by lia; naive_solver.
Qed.

Lemma rows_spec ps ts : forall p f,
  (forall j, j <= length ts -> f j = true <-> glob p (take j ts)) ->
  exists g, fold_left (next_row ts) ps (map f (seq 0 (S (length ts)))) = map g (seq 0 (S (length ts))) /\
    forall j, j <= length ts -> g j = true <-> glob (p ++ ps) (take j ts).
Proof.
  induction ps as [|pc ps IH]; intros p f Hf; cbn [fold_left].
  - exists f. by rewrite app_nil_r.
  - rewrite next_row_spec. destruct (IH (p ++ [pc])%list (next_entry pc f ts)) as (g & Hg & Hj).
    { by apply next_entry_spec. }
    exists g. split; [exact Hg|]. intros j Hl. rewrite Hj by done. by rewrite <- app_assoc.
Qed.

(** C17: the table computes what a glob means: the pattern matches the text,
    letter case aside, exactly when the text splits into one piece for every
    pattern character, any text for [*] and one character for any other. *)
Theorem wildcard_match_spec (pattern text : string) :
  wildcard_match pattern text = true <-> glob (chars (to_ascii_lowercase pattern)) (chars (to_ascii_lowercase text)).
Proof.
  unfold wildcard_match. set (ps := chars (to_ascii_lowercase pattern)). set (ts := chars (to_ascii_lowercase text)).
  set (f := fun j => match j with O => true | S _ => false end).
  assert (true :: map (fun _ => false) ts = map f (seq 0 (S (length ts)))) as ->.
  { cbn. f_equal. rewrite <- seq_shift, map_map. cbn. clear. induction ts as [|t ts IH] using rev_ind; [done|].
    by rewrite map_app, length_app, Nat.add_1_r, seq_S, map_app, IH. }
  destruct (rows_spec ps ts [] f) as (g & -> & Hg).
  { intros [|j] Hj; simpl; [split; [constructor|done]|].
    split; [done|]. intros Hn. inversion Hn as [E| | |]. destruct ts; simpl in *; [lia|done]. }
  rewrite seq_S, map_app. simpl. rewrite last_last, Hg by done. by rewrite firstn_all.
Qed.

(** ** The scanner and the neutralised text *)

(** The external scanner fails closed: when it is not configured to fail
    open, a command is allowed only by a successful response whose JSON body
    says so; no error, status or unknown action is taken for consent. *)
Theorem scanner_fails_closed (response : ScanResponse) :
  scan_command response false = Allow <->
  exists status json, response = HttpResponse true status (Ok json) /\
    to_ascii_lowercase (default "" (get "action" json ≫= as_str)) = "allow".
Proof.
  split.
  - destruct response as [err|[] status [json|err]]; simpl; try done. intros Ha. exists status, json. split; [done|].
    repeat case_match; try done. by apply String.eqb_eq.
  - intros (status & json & -> & E). simpl. by rewrite E.
Qed.

Lemma replace_str_free c t s : free_of c t = true -> free_of c (replace_str (String c "") t s 0) = true.
Proof.
  intros Ht. induction s as [|d s IH]; [done|]. rewrite replace_str_cons.
  destruct (Ascii.eqb c d) eqn:E; [rewrite free_of_app, Ht; apply IH|]. cbn. by rewrite E.
Qed.

Lemma chars_free_of c s : free_of c s = true -> Forall (fun x => free_of c x = true) (chars s).
Proof.
  induction s as [|d s IH]; [constructor|]. cbn [free_of]. intros [Hd Hs]%andb_true_iff. rewrite chars_cons. specialize (IH Hs).
  destruct (starts_char s); [constructor; [cbn; by rewrite Hd|done]|].
  destruct (chars s) as [|x rest]; [constructor; [cbn; by rewrite Hd|done]|].
  apply Forall_cons in IH as [Hx Hr]. constructor; [|done]. cbn. by rewrite Hd.
Qed.

Lemma starts_char_replace c t s :
  starts_char t = true -> t <> "" -> starts_char s = true -> starts_char (replace_str (String c "") t s 0) = true.
Proof.
  intros Ht Hn Hs. destruct s as [|d s]; [done|]. cbn [replace_str]. destruct (starts_with _ _); [|done].
  destruct t; [done|exact Ht].
Qed.

(** A character that may stand in a line of a prompt. *)
Definition inline_char (c : string) : Prop :=
  is_invisible_or_control (code_point c) = false /\ is_control (code_point c) = false /\ c <> "`".

Definition inline_shape (c : string) : Prop := char_shape c = true /\ inline_char c.

Lemma inline_space : inline_shape " ".
Proof. by vm_compute. Qed.

Lemma clean_char_inline c : char_shape c = true -> free_of "`" c = true -> Forall inline_shape (clean_char c).
Proof.
  intros Hc Hf. unfold clean_char. destruct (is_invisible_or_control _) eqn:E1; [constructor|].
  destruct (is_control _) eqn:E2; (constructor; [|constructor]); [apply inline_space|].
  split; [done|]. split; [done|]. split; [done|]. by intros ->.
Qed.

Lemma bound_chars_inline l max_len : Forall inline_shape l ->
  exists l', bound_chars (of_chars l) max_len = of_chars l' /\ Forall inline_shape l' /\ (0 < max_len -> length l' <= max_len).
Proof.
  intros Hl. unfold bound_chars. assert (chars (of_chars l) = l) as ->.
  { apply chars_of_chars, forallb_forall. rewrite Forall_forall in Hl. intros x Hx. apply Hl. by apply list_elem_of_In. }
  destruct (Nat.ltb_spec 0 max_len); [|exists l; split; [done|]; split; [done|lia]].
  destruct (Nat.ltb_spec max_len (length l)); [|exists l; split; [done|]; by split].
  destruct (Nat.leb_spec max_len 3); simpl.
  - exists (take max_len l). split; [done|]. split; [by apply Forall_take|]. rewrite length_take. lia.
  - exists (take (max_len - 3) l ++ ["."; "."; "."])%list. rewrite of_chars_app. split; [done|]. split.
    + apply Forall_app. split; [by apply Forall_take|]. by repeat constructor.
    + rewrite length_app, length_take. simpl. lia.
Qed.

(** Untrusted text is made harmless for a line of a prompt: the result
    has at most [max_len] characters and no control character (so no line
    break), no invisible or directional character and no backtick, whatever
    the input; the regular expressions only need to return text. *)
Theorem neutralized_inline `{Regex} (s : string) (max_len : nat) :
  starts_char (replace_all SENTINEL_RE " " (replace_all NEUTRALIZE_ANSI_RE "" s)) = true ->
  let out := neutralize_untrusted_inline_text s max_len in
  Forall inline_char (chars out) /\ (0 < max_len -> length (chars out) <= max_len).
Proof.
  intros Hs. unfold neutralize_untrusted_inline_text. cbv zeta. set (text := replace_all SENTINEL_RE _ _) in *.
  set (clean := replace_str "`" "'" text 0).
  assert (forallb char_shape (chars clean) = true) as Hsh by (by apply chars_shape, starts_char_replace).
  assert (Forall inline_shape (flat_map clean_char (chars clean))) as Hcl.
  { apply Forall_forall. intros c Hc. apply list_elem_of_In, in_flat_map in Hc as (d & Hd & Hc).
    assert (free_of "`" d = true) as Hf.
    { pose proof (chars_free_of "`" clean (replace_str_free "`" "'" text eq_refl)) as Hf. rewrite Forall_forall in Hf.
      apply Hf. by apply list_elem_of_In. }
    assert (char_shape d = true) as Hds by (rewrite forallb_forall in Hsh; by apply Hsh).
    pose proof (clean_char_inline d Hds Hf) as Hi. rewrite Forall_forall in Hi. apply Hi. by apply list_elem_of_In. }
  assert (forall l, Forall inline_shape l -> chars (of_chars l) = l) as Hcc.
  { intros l Hl. apply chars_of_chars, forallb_forall. rewrite Forall_forall in Hl. intros x Hx. apply Hl. by apply list_elem_of_In. }
  unfold split_whitespace. rewrite Hcc by done.
  destruct (join_pieces inline_shape " " (words is_white [] (flat_map clean_char (chars clean)))) as (l & -> & Hl);
    [apply inline_space|by apply words_pieces|].
  destruct (bound_chars_inline l max_len Hl) as (l' & -> & Hl' & Hlen). rewrite Hcc by done.
  split; [|exact Hlen]. eapply Forall_impl; [exact Hl'|]. by intros x [_ ?].
Qed.

(** ** What slips through, and a witness *)

(** An engine for the first rule of the block list alone. *)
#[local] Instance demo_engine : Regex := {|
  is_match p s := String.eqb (pattern_text p) (pattern_text (fst (hd (plain "", "") HARDLINE_PATTERNS))) && contains "rm -rf /" s;
  replace_all _ _ s := s
|}.

Definition demo_env : ProcessEnv := mkProcessEnv (mkHomeEnv None None) false "/tmp".
Definition demo_filler : string := of_chars (map (fun k => "sh -c a" ++ show_N (N.of_nat k) ++ ";") (seq 0 512)).
Definition demo_quoted : string := "r" ++ dq ++ dq ++ "m -rf /".

(** A command that the block list refuses passes behind enough payloads: the
    budget is used up before the variant that shows it, and an exhausted
    budget is not reported. *)
Theorem exhausted_budget_unseen :
  detect_hardline_command demo_env demo_quoted = Some "recursive delete of root filesystem" /\
  detect_hardline_command demo_env (demo_filler ++ demo_quoted) = None.
Proof. by vm_compute. Qed.

(** A live substitution in the arguments of [echo] is not looked at. *)
Theorem substitution_unseen :
  detect_hardline_command demo_env "ls $(rm -rf /)" = Some "recursive delete of root filesystem" /\
  detect_hardline_command demo_env "echo $(rm -rf /)" = None.
Proof. by vm_compute. Qed.

Lemma neutralized_inline_witness :
  length (chars (neutralize_untrusted_inline_text ("a`b" ++ String LF "c d e f") 6)) <= 6.
Proof. apply (neutralized_inline ("a`b" ++ String LF "c d e f") 6); [reflexivity|lia]. Defined.
