(* ===== verification/Terminal.v ===== *)
(** * Running commands ([src/tools/terminal.rs], [src/tools/mod.rs])

    What happens between a tool call and the process it spawns: the text the
    command is judged by, the gate (block list, deny globs, policy, scanner,
    approval), the working directory and the executable, the environment, and
    the truncation of what the process wrote.  The file system, the scanner's
    answer and the requester are arguments. *)
From stdpp Require Import base list strings sets.
From Stdlib Require Import ZArith NArith Lia Ascii String.
From S2P Require Import Prelude RustStr Json Db Session Approval Shell Detect.
Open Scope string_scope.
Open Scope omon_scope.
Local Notation length := Datatypes.length.

(** ** Policies and requesters *)

Inductive ApprovalPolicy : Type := Smart | AlwaysAsk | Never.

#[export] Instance ApprovalPolicy_eq_dec : EqDecision ApprovalPolicy.
Proof. solve_decision. Defined.

Definition parse_policy (v : option string) : ApprovalPolicy :=
  match option_map (fun s => to_ascii_lowercase (trim s)) v with
  | Some s => if String.eqb s "always" then AlwaysAsk else if str_mem s ["never"; "yolo"] then Never else Smart
  | None => Smart
  end.

(** What a requester answers during one call: [is_yolo] the first and the
    second time, and the decision on a command, a reason and a widest scope
    ([None]: the wait timed out). *)
Record Requester : Type := mkRequester {
  yolo_first : bool;
  yolo_again : bool;
  answer : string -> string -> ApprovalScope -> option (result ApprovalDecision string)
}.

Record TerminalTool : Type := mkTerminal {
  root : string;
  extra_roots : list string;
  max_output_bytes : nat;
  approval_policy : ApprovalPolicy;
  approval_requester : option Requester;
  deny_globs : list string;
  external_scanner : option bool
}.

(** [std::fs]: [canonicalize] with its error text. *)
Class FileSystem := {
  canonicalize : string -> result string string;
  is_dir : string -> bool;
  is_file : string -> bool
}.

Section Terminal.
Context `{Regex} `{FileSystem} (env : ProcessEnv).

(** ** Paths *)

Definition canonical (path : string) : result string OmonError :=
  match canonicalize path with Ok p => Ok p | Err e => Err (ToolExecution e) end.

Definition is_absolute (path : string) : bool := starts_with "/" path.

(** [Path::join]. *)
Definition join_path (base path : string) : string :=
  if is_absolute path then path
  else if String.eqb base "" || ends_with "/" base then base ++ path
  else base ++ "/" ++ path.

(** [Path::starts_with]. *)
Definition path_starts_with (path base : string) : bool := is_prefix (components base) (components path).

Definition with_authorized_roots (roots : list string) : list string :=
  omap (fun path => match canonicalize path with Ok c => if is_dir c then Some c else None | Err _ => None end) roots.

Definition is_authorized (t : TerminalTool) (canonical_path : string) : bool :=
  match canonical (root t) with Ok r => path_starts_with canonical_path r | Err _ => false end ||
  existsb (path_starts_with canonical_path) (extra_roots t).

Definition working_directory (t : TerminalTool) (requested : option string) : result string OmonError :=
  let requested := default "." requested in
  target <-? (if is_absolute requested then Ok requested
              else root <-? canonical (root t) ;; Ok (join_path root requested)) ;;
  path <-? canonical target ;;
  if negb (is_authorized t path) || negb (is_dir path)
  then Err (ToolExecution "working directory escapes tool root") else Ok path.

(** On Unix. *)
Inductive PathBufOrName : Type := PPath (path : string) | PName (name : string).

Definition executable (t : TerminalTool) (program cwd : string) : result PathBufOrName OmonError :=
  let has_path_syntax := (1 <? length (components program))%nat || is_absolute program || contains "/" program in
  if negb has_path_syntax then Ok (PName program)
  else
    let target := if is_absolute program then program else join_path cwd program in
    executable <-? canonical target ;;
    if negb (is_authorized t executable) || negb (is_file executable)
    then Err (ToolExecution "program path escapes tool root") else Ok (PPath executable).

(** ** The gate *)

(** The scanner's part: the widest scope and the reason it adds. *)
Definition scanner_outcome (t : TerminalTool) (response : ScanResponse) : result (ApprovalScope * option string) OmonError :=
  match external_scanner t with
  | None => Ok (ScopeAlways, None)
  | Some fail_open =>
      match scan_command response fail_open with
      | Allow => Ok (ScopeAlways, None)
      | Warn reason => Ok (ScopeSession, Some reason)
      | Block reason => Ok (ScopeOnce, Some reason)
      | DenyVerdict reason => Err (Db.Approval ("BLOCKED (external security scanner): " ++ reason))
      end
  end.

(** Whether the command is gated, and the reason shown. *)
Definition gate_reason (policy : ApprovalPolicy) (found : option DangerousFinding) (scanner_reason : option string) :
    option string :=
  let gated :=
    match policy with
    | Never => None
    | AlwaysAsk => Some (match found with Some f => description f | None => "approval policy: always" end)
    | Smart => description <$> found
    end in
  match scanner_reason with
  | None => gated
  | Some r =>
      let before := match gated with Some g => if String.eqb g "" then "" else g ++ "; " | None => "" end in
      Some (before ++ "External security scanner finding: " ++ r)
  end.

Definition decision_result (decision : ApprovalDecision) : result unit OmonError :=
  match decision with
  | Deny reason =>
      Err (Db.Approval
        (match reason with
         | Some r => if negb (String.eqb (trim r) "") then "command denied by user: " ++ trim r else "command was rejected by the user"
         | None => "command was rejected by the user"
         end))
  | _ => Ok tt
  end.

Definition interactive_approval (r : Requester) (command reason : string) (max_scope : ApprovalScope) : result unit OmonError :=
  if yolo_again r then Ok tt
  else
    match answer r command reason max_scope with
    | None => Err (Db.Approval "approval request timed out")
    | Some (Err error) => Err (Db.Approval error)
    | Some (Ok decision) => decision_result decision
    end.

Definition require_approval (t : TerminalTool) (response : ScanResponse) (session : option SessionKey) (command : string) :
    result unit OmonError :=
  match detect_hardline_command env command with
  | Some reason =>
      Err (Db.Approval ("BLOCKED (hardline): " ++ reason ++
        ". This command is on the unconditional blocklist and cannot be executed."))
  | None =>
      match match_user_deny_rule env command (deny_globs t) with
      | Some pattern =>
          Err (Db.Approval ("BLOCKED: this command matches the user-defined deny rule '" ++ pattern ++
            "' (APPROVALS_DENY). It cannot be executed via the agent — not even with /yolo or approval bypass. Do NOT retry or rephrase this command; the user has explicitly forbidden it."))
      | None =>
          let yolo := match session, approval_requester t with Some _, Some r => yolo_first r | _, _ => false end in
          if bool_decide (approval_policy t = Never) || yolo then Ok tt
          else
            outcome <-? scanner_outcome t response ;;
            let '(max_scope, scanner_reason) := outcome in
            match gate_reason (approval_policy t) (detect_dangerous_command env command) scanner_reason with
            | None => Ok tt
            | Some reason =>
                match session, approval_requester t with
                | None, _ => Err (Db.Approval "command requires interactive approval, but no session is available")
                | Some _, None => Err (Db.Approval "command requires interactive approval, but no approval guard is configured")
                | Some _, Some r => interactive_approval r command reason max_scope
                end
            end
      end
  end.

(** ** From the call to the process *)

Definition required_string (args : value) (key : string) : result string OmonError :=
  match get key args ≫= as_str with
  | Some v => if String.eqb v "" then Err (ToolExecution ("missing string argument: " ++ key)) else Ok v
  | None => Err (ToolExecution ("missing string argument: " ++ key))
  end.

Fixpoint string_args (l : list value) : result (list string) OmonError :=
  match l with
  | [] => Ok []
  | v :: rest =>
      match as_str v with
      | Some s => ss <-? string_args rest ;; Ok (s :: ss)
      | None => Err (ToolExecution "terminal args must be strings")
      end
  end.

Definition is_ascii_alphanumeric (c : ascii) : bool := in_range c 48 57 || in_range c 65 90 || in_range c 97 122.
Definition is_plain_byte (c : ascii) : bool := is_ascii_alphanumeric c || one_of "_./:@%+=,-" c.

(** [word.replace('\'', "'\"'\"'")]: a quote outside, in double quotes. *)
Definition SQ_OUTSIDE : string := String SQ (String DQ (String SQ (String DQ (String SQ "")))).

Definition quote_word (word : string) : string :=
  if negb (String.eqb word "") && all_bytes is_plain_byte word then word
  else String SQ (replace_str (String SQ "") SQ_OUTSIDE word 0 ++ String SQ "").

Definition command_text (argv : list string) : string := join " " (map quote_word argv).

Definition PROTECTED : list string :=
  ["PATH"; "LD_PRELOAD"; "LD_LIBRARY_PATH"; "LD_AUDIT"; "DYLD_INSERT_LIBRARIES"; "DYLD_LIBRARY_PATH"; "DYLD_FRAMEWORK_PATH"].
Definition is_protected_env_key (key : string) : bool :=
  existsb (fun p => String.eqb (to_ascii_lowercase key) (to_ascii_lowercase p)) PROTECTED.

Definition build_session_environment (session : SessionKey) : list (string * string) :=
  let storage := storage_key session in
  ([("OMON_SESSION_ID", storage); ("OMON_SESSION_KEY", storage); ("OMON_SESSION_PLATFORM", platform session);
    ("OMON_SESSION_CHANNEL", channel_id session); ("OMON_SESSION_CHANNEL_ID", channel_id session);
    ("OMON_SESSION_USER_ID", user_id session);
    ("HERMES_SESSION_ID", storage); ("HERMES_SESSION_KEY", storage); ("HERMES_SESSION_PLATFORM", platform session);
    ("HERMES_SESSION_CHAT_ID", channel_id session); ("HERMES_SESSION_USER_ID", user_id session)] ++
   match guild_id session with Some g => [("OMON_SESSION_GUILD_ID", g); ("HERMES_SESSION_GUILD_ID", g)] | None => [] end ++
   match thread_id session with Some t => [("OMON_SESSION_THREAD_ID", t); ("HERMES_SESSION_THREAD_ID", t)] | None => [] end)%list.

Fixpoint distinct (seen l : list string) : list string :=
  match l with
  | [] => []
  | x :: rest => if str_mem x seen then distinct seen rest else x :: distinct (x :: seen) rest
  end.

Definition build_augmented_path (extra current : option string) : string :=
  let extra_val := default "" extra in
  let current_val := default "" current in
  let sep := if contains ";" extra_val || contains ";" current_val then ";"%char else ":"%char in
  let items v := List.filter (fun s => negb (String.eqb s "")) (map trim (split_char sep v)) in
  join (String sep "") (distinct [] (items extra_val ++ items current_val)%list).

(** The [env] argument of the call. *)
Fixpoint caller_env (members : list (string * value)) : result (list (string * string)) OmonError :=
  match members with
  | [] => Ok []
  | (key, v) :: rest =>
      if is_protected_env_key key then Err (ToolExecution ("terminal env may not override " ++ key))
      else
        match as_str v with
        | None => Err (ToolExecution "terminal env values must be strings")
        | Some s => more <-? caller_env rest ;; Ok ((key, s) :: more)
        end
  end.

(** The process to spawn; [sp_env] in the order the variables are set. *)
Record Spawn : Type := mkSpawn {
  sp_executable : PathBufOrName;
  sp_args : list string;
  sp_cwd : string;
  sp_env : list (string * string)
}.

(** [execute_inner] up to the spawn; [augmented_path] from the environment. *)
Definition execute_inner (t : TerminalTool) (response : ScanResponse) (augmented_path : string) (args : value)
    (session : option SessionKey) : result Spawn OmonError :=
  program <-? required_string args "program" ;;
  process_args <-? string_args (default [] (get "args" args ≫= as_array)) ;;
  _ <-? require_approval t response session (command_text (program :: process_args)) ;;
  cwd <-? working_directory t (get "cwd" args ≫= as_str) ;;
  exe <-? executable t program cwd ;;
  from_caller <-? caller_env (match get "env" args with Some (JObject m) => m | _ => [] end) ;;
  Ok (mkSpawn exe process_args cwd
        ((if String.eqb augmented_path "" then [] else [("PATH", augmented_path)]) ++
         match session with Some s => build_session_environment s | None => [] end ++ from_caller)%list).
End Terminal.

(** ** Output *)

Section Output.
(** [String::from_utf8_lossy]. *)
Context (from_utf8_lossy : string -> string).

(** [limit]: what [read_capped] keeps plus one. *)
Definition read_capped (written : string) (limit : nat) : string := take_str (limit + 1) written.

Definition capture (bytes : string) (limit : nat) : string * bool :=
  if (len bytes <=? limit)%nat then (from_utf8_lossy bytes, false)
  else
    let head_len := limit * 2 / 5 in
    let tail_len := limit - head_len in
    let head_bytes := take_str (Nat.min head_len (len bytes)) bytes in
    let tail_bytes := drop_str (len bytes - tail_len) bytes in
    let omitted := len bytes - len head_bytes - len tail_bytes in
    (from_utf8_lossy head_bytes ++ String LF (String LF "") ++ "... [output truncated: " ++ show_N (N.of_nat omitted) ++
     " bytes omitted] ..." ++ String LF (String LF "") ++ from_utf8_lossy tail_bytes, true).
End Output.

(** ** The text a command is judged by reads back as its arguments *)

Definition is_ascii_byte (c : ascii) : bool := (N_of_ascii c <? 128)%N.

Lemma ascii_as_char c : is_ascii_byte c = true -> byte_as_char c = String c "".
Proof. unfold is_ascii_byte, byte_as_char. by intros ->. Qed.

Lemma plain_byte c : is_plain_byte c = true ->
  is_ascii_byte c = true /\ is_ascii_whitespace c = false /\ is_quote c = false /\ Ascii.eqb c BS = false.
Proof. destruct c as [[] [] [] [] [] [] [] []]; intros Hc; first [discriminate Hc|by vm_compute]. Qed.

Lemma append_snoc v c w : (v ++ String c "") ++ w = v ++ String c w.
Proof. by rewrite app_assoc_str. Qed.

(** Reading on from [i], whatever the positions, gives these values. *)
Definition reads (segment s : string) (cur : option string) (quote : option ascii) (values : list string) : Prop :=
  forall i start, exists toks,
    tokens_from segment s i ((fun v => (start, v)) <$> cur) false quote = Some toks /\ map tok_value toks = values.

Lemma reads_plain segment w rest v values :
  all_bytes is_plain_byte w = true -> reads segment rest (Some (v ++ w)) None values ->
  reads segment (w ++ rest) (Some v) None values.
Proof.
  revert v. induction w as [|c w IH]; intros v; [by rewrite app_nil_r_str|]. cbn [all_bytes]. intros [Hc Hw]%andb_true_iff Hr i start.
  apply plain_byte in Hc as (Ha & Hs & Hq & Hb). change (String c w ++ rest) with (String c (w ++ rest)).
  cbn [tokens_from fmap option_fmap option_map default]. rewrite Hs, Hq, Hb, ascii_as_char by done.
  apply (IH (v ++ String c "") Hw); by rewrite append_snoc.
Qed.

Lemma reads_quoted segment w rest v values :
  all_bytes is_ascii_byte w = true -> reads segment rest (Some (v ++ w)) None values ->
  reads segment (replace_str (String SQ "") SQ_OUTSIDE w 0 ++ String SQ rest) (Some v) (Some SQ) values.
Proof.
  revert v. induction w as [|c w IH]; intros v; cbn [all_bytes].
  - rewrite app_nil_r_str. intros _ Hr i start. apply Hr.
  - intros [Hc Hw]%andb_true_iff Hr. rewrite replace_str_cons.
    assert (reads segment (replace_str (String SQ "") SQ_OUTSIDE w 0 ++ String SQ rest) (Some (v ++ String c "")) (Some SQ) values) as Hk.
    { apply (IH _ Hw). by rewrite append_snoc. }
    destruct (Ascii.eqb_spec SQ c) as [<-|Hne]; intros i start.
    + exact (Hk (S (S (S (S (S i))))) start).
    + cbn [String.append tokens_from fmap option_fmap option_map default].
      rewrite (proj2 (Ascii.eqb_neq c SQ)) by congruence. rewrite andb_false_r. cbn [andb].
      rewrite ascii_as_char by done. apply Hk.
Qed.

Lemma reads_from_none segment c s values :
  is_ascii_whitespace c = false -> reads segment (String c s) (Some "") None values -> reads segment (String c s) None None values.
Proof.
  intros Hc Hr i start. destruct (Hr i i) as (toks & Ht & Hv). exists toks. split; [|done].
  cbn [tokens_from fmap option_fmap option_map default] in *. by rewrite Hc in *.
Qed.

Lemma reads_word segment w rest values :
  all_bytes is_ascii_byte w = true -> reads segment rest (Some w) None values -> reads segment (quote_word w ++ rest) None None values.
Proof.
  intros Hw Hr. unfold quote_word. destruct (negb (String.eqb w "") && all_bytes is_plain_byte w)%bool eqn:E.
  - apply andb_true_iff in E as [Hn Hp]. destruct w as [|c w]; [done|].
    apply reads_from_none; [cbn in Hp; apply andb_true_iff in Hp as [Hp _]; by apply plain_byte in Hp as (_ & ? & _)|].
    by apply (reads_plain segment (String c w)).
  - apply reads_from_none; [done|]. intros i start.
    destruct (reads_quoted segment w rest "" values Hw Hr (S i) start) as (toks & Ht & Hv). exists toks. split; [|done].
    rewrite <- Ht. cbn. by rewrite app_assoc_str.
Qed.

Lemma reads_words segment argv : Forall (fun w => all_bytes is_ascii_byte w = true) argv ->
  reads segment (join " " (map quote_word argv)) None None argv.
Proof.
  induction 1 as [|w argv Hw Hargv IH]; [intros i start; by exists []|]. destruct argv as [|x argv].
  - cbn [map join]. rewrite <- (app_nil_r_str (quote_word w)). apply reads_word; [done|].
    intros i start. eexists. split; [reflexivity|done].
  - change (join " " (map quote_word (w :: x :: argv))) with (quote_word w ++ String " " (join " " (map quote_word (x :: argv)))).
    apply reads_word; [done|]. intros i start. destruct (IH (S i) 0) as (toks & Ht & Hv).
    exists (token_of segment w start i :: toks). split; [|cbn; by rewrite Hv].
    cbn [fmap option_fmap option_map] in Ht |- *. cbn [tokens_from default]. simpl is_ascii_whitespace. cbn iota.
    rewrite Ht. done.
Qed.

(** What the detectors judge is what is run: the text of a program and its
    ASCII arguments, tokenised by the detectors' own tokeniser, is again that
    program and those arguments, whatever quotes and spaces they contain. *)
Theorem argv_roundtrip (argv : list string) :
  Forall (fun w => all_bytes is_ascii_byte w = true) argv ->
  exists tokens, shell_tokens_with_spans (command_text argv) 0 = Some tokens /\ map tok_value tokens = argv.
Proof. intros Hargv. apply (reads_words (command_text argv) argv Hargv 0 0). Qed.

(** ** Nothing runs that was not let through *)

Section GateFacts.
Context `{Regex} `{FileSystem} (env : ProcessEnv).

(** Why a command that no rule forbids may run. *)
Definition let_through (t : TerminalTool) (response : ScanResponse) (session : option SessionKey) (command : string) : Prop :=
  approval_policy t = Never \/
  (exists s r, session = Some s /\ approval_requester t = Some r /\ (yolo_first r = true \/ yolo_again r = true)) \/
  (exists s r reason scope d, session = Some s /\ approval_requester t = Some r /\
     answer r command reason scope = Some (Ok d) /\ is_approved_decision d = true) \/
  (approval_policy t = Smart /\ detect_dangerous_command env command = None /\
   (external_scanner t = None \/ exists fail_open, external_scanner t = Some fail_open /\ scan_command response fail_open = Allow)).

Lemma interactive_approval_ok r command reason scope :
  interactive_approval r command reason scope = Ok tt ->
  yolo_again r = true \/ exists d, answer r command reason scope = Some (Ok d) /\ is_approved_decision d = true.
Proof.
  unfold interactive_approval. destruct (yolo_again r); [by left|]. right. destruct (answer r command reason scope) as [[d|]|]; try done. exists d. split; [done|]. by destruct d.
Qed.

Lemma scanner_outcome_ok t response scope :
  scanner_outcome t response = Ok (scope, None) ->
  external_scanner t = None \/ exists fail_open, external_scanner t = Some fail_open /\ scan_command response fail_open = Allow.
Proof.
  unfold scanner_outcome. destruct (external_scanner t) as [fo|]; [|by left]. right. exists fo. split; [done|].
  by destruct (scan_command response fo).
Qed.

Lemma gate_open policy found scanner_reason :
  policy <> Never -> gate_reason policy found scanner_reason = None -> policy = Smart /\ found = None /\ scanner_reason = None.
Proof. intros Hp. unfold gate_reason. destruct scanner_reason; [done|]. by destruct policy, found. Qed.

Lemma require_approval_ok t response session command :
  require_approval env t response session command = Ok tt ->
  detect_hardline_command env command = None /\ match_user_deny_rule env command (deny_globs t) = None /\
  let_through t response session command.
Proof.
  unfold require_approval. destruct (detect_hardline_command env command); [done|].
  destruct (match_user_deny_rule env command _); [done|]. intros Hr. split; [done|]. split; [done|]. unfold let_through. cbv zeta in Hr.
  destruct (bool_decide (approval_policy t = Never) || _)%bool eqn:Ep.
  - apply orb_true_iff in Ep as [Ep|Ey]; [left; by apply bool_decide_eq_true in Ep|right; left].
    destruct session as [s|], (approval_requester t) as [r|]; try done. exists s, r. by auto.
  - apply orb_false_iff in Ep as [Ep%bool_decide_eq_false _]. apply rbind_ok in Hr as ([scope sr] & Hsc & Hr). cbn beta iota in Hr.
    destruct (gate_reason _ _ sr) as [reason|] eqn:Eg.
    + destruct session as [s|], (approval_requester t) as [r|]; try done. right.
      apply interactive_approval_ok in Hr as [Hy|(d & Ha & Hd)]; [left; exists s, r; by auto|right; left].
      by exists s, r, reason, scope, d.
    + apply (gate_open _ _ _ Ep) in Eg as (Hp & Hf & ->). right. right. right. split; [done|]. split; [done|].
      by eapply scanner_outcome_ok.
Qed.

Lemma caller_env_free members l : caller_env members = Ok l ->
  forall k v, (k, v) ∈ l -> is_protected_env_key k = false.
Proof.
  revert l. induction members as [|[key x] rest IH]; intros l; cbn [caller_env]; [by intros [= <-] k v ?%not_elem_of_nil|].
  destruct (is_protected_env_key key) eqn:Ek; [done|]. destruct (as_str x); [|done].
  intros (more & Hm & [= <-])%rbind_ok k v [[= -> ->]|Hin]%elem_of_cons; [done|]. by eapply IH.
Qed.

Lemma session_env_free s k v : (k, v) ∈ build_session_environment s -> is_protected_env_key k = false.
Proof.
  intros Hin. assert (Forall (fun kv => is_protected_env_key (fst kv) = false) (build_session_environment s)) as Hf.
  { unfold build_session_environment. cbv zeta. apply Forall_app. split; [|apply Forall_app; split].
    - repeat (constructor; [reflexivity|]). constructor.
    - destruct (guild_id s); repeat (constructor; [reflexivity|]); constructor.
    - destruct (thread_id s); repeat (constructor; [reflexivity|]); constructor. }
  rewrite Forall_forall in Hf. exact (Hf _ Hin).
Qed.

Lemma working_directory_ok t requested cwd :
  working_directory t requested = Ok cwd -> is_authorized t cwd = true /\ is_dir cwd = true.
Proof.
  unfold working_directory. intros (target & _ & (path & _ & Hp)%rbind_ok)%rbind_ok.
  destruct (is_authorized t path) eqn:Ea, (is_dir path) eqn:Ed; simpl in Hp; try done. injection Hp as <-. done.
Qed.

Lemma executable_ok t program cwd exe : executable t program cwd = Ok exe ->
  (exe = PName program /\ contains "/" program = false) \/
  (exists path, exe = PPath path /\ is_authorized t path = true /\ is_file path = true).
Proof.
  unfold executable. cbv zeta. destruct (negb _) eqn:En.
  - intros [= <-]. left. split; [done|]. apply negb_true_iff in En. by apply orb_false_iff in En as [_ ?].
  - intros (path & _ & Hp)%rbind_ok. right. exists path.
    destruct (is_authorized t path) eqn:Ea, (is_file path) eqn:Ed; simpl in Hp; try done. injection Hp as <-. done.
Qed.

(** C1: every process the terminal tool spawns was let through for exactly the
    command it runs: the text of its program and arguments is on no block list
    and matches no deny glob, whatever the policy; it runs because approvals
    are off, the session is in yolo mode, a person approved this very text, or
    it is not dangerous and the scanner has no objection; its directory and
    any executable given by path lie under an authorized root; and no variable
    that chooses what is loaded comes from the caller. *)
Theorem spawned_is_let_through (t : TerminalTool) (response : ScanResponse) (augmented_path : string) (args : value)
    (session : option SessionKey) (p : Spawn) :
  execute_inner env t response augmented_path args session = Ok p ->
  exists program, get "program" args = Some (JString program) /\
    let command := command_text (program :: sp_args p) in
    detect_hardline_command env command = None /\ match_user_deny_rule env command (deny_globs t) = None /\
    let_through t response session command /\
    is_authorized t (sp_cwd p) = true /\ is_dir (sp_cwd p) = true /\
    ((sp_executable p = PName program /\ contains "/" program = false) \/
     (exists path, sp_executable p = PPath path /\ is_authorized t path = true /\ is_file path = true)) /\
    (forall k v, (k, v) ∈ sp_env p -> is_protected_env_key k = true -> k = "PATH" /\ v = augmented_path).
Proof.
  unfold execute_inner. intros (program & Hp & Hr)%rbind_ok. apply rbind_ok in Hr as (process_args & _ & Hr).
  apply rbind_ok in Hr as ([] & Hgate & Hr). apply rbind_ok in Hr as (cwd & Hcwd & Hr).
  apply rbind_ok in Hr as (exe & Hexe & Hr). apply rbind_ok in Hr as (from_caller & Henv & Hr). injection Hr as <-. cbn [sp_args sp_cwd sp_executable sp_env].
  exists program. split.
  { unfold required_string in Hp. destruct (get "program" args) as [[]|]; simpl in Hp; try done.
    destruct (String.eqb s ""); [done|]. by injection Hp as ->. }
  apply require_approval_ok in Hgate as (H1 & H2 & H3). apply working_directory_ok in Hcwd as [H4 H5]. apply executable_ok in Hexe.
  split; [done|]. split; [done|]. split; [done|]. split; [done|]. split; [done|]. split; [done|].
  intros k v [Hin|[Hin|Hin]%elem_of_app]%elem_of_app Hk.
  - destruct (String.eqb augmented_path ""); [by apply not_elem_of_nil in Hin|]. by apply list_elem_of_singleton in Hin as [= -> ->].
  - destruct session; [|by apply not_elem_of_nil in Hin]. apply session_env_free in Hin. congruence.
  - apply (caller_env_free _ _ Henv) in Hin. congruence.
Qed.
End GateFacts.

(** ** Truncated output *)

(** Too much output is cut once: what is kept is a prefix and a suffix of the
    bytes, [limit] bytes together, and the count shown is what was left out. *)
Theorem capture_keeps_ends (lossy : string -> string) (bytes : string) (limit : nat) :
  limit < len bytes ->
  exists first middle last, bytes = first ++ middle ++ last /\ len first + len last = limit /\
    capture lossy bytes limit =
      (lossy first ++ String LF (String LF "") ++ "... [output truncated: " ++ show_N (N.of_nat (len middle)) ++
       " bytes omitted] ..." ++ String LF (String LF "") ++ lossy last, true).
Proof.
  intros Hl. set (h := limit * 2 / 5). set (tl := limit - h). assert (h <= limit) as Hh by (apply Nat.Div0.div_le_upper_bound; lia).
  exists (take_str h bytes), (take_str (len bytes - limit) (drop_str h bytes)), (drop_str (len bytes - tl) bytes).
  assert (len (take_str h bytes) = h) as L1 by (rewrite len_take_str; lia).
  assert (len (drop_str (len bytes - tl) bytes) = tl) as L2 by (rewrite len_drop_str; lia).
  split; [|split; [lia|]].
  - replace (len bytes - tl) with (h + (len bytes - limit)) by lia. by rewrite <- drop_drop_str, !take_drop_str.
  - unfold capture. destruct (Nat.leb_spec (len bytes) limit); [lia|]. cbv zeta. fold h. fold tl.
    rewrite Nat.min_l, L1, L2, len_take_str, len_drop_str by lia. do 4 f_equal. do 2 f_equal. lia.
Qed.

(** However much the process wrote, the message says that one byte is missing:
    the reader keeps only one byte past the limit. *)
Theorem omitted_count_is_one (lossy : string -> string) (written : string) (limit : nat) :
  limit < len written ->
  exists first last, len first + len last = limit /\
    capture lossy (read_capped written limit) limit =
      (lossy first ++ String LF (String LF "") ++ "... [output truncated: 1 bytes omitted] ..." ++
       String LF (String LF "") ++ lossy last, true).
Proof.
  intros Hl. assert (len (read_capped written limit) = limit + 1) as E by (unfold read_capped; rewrite len_take_str; lia).
  destruct (capture_keeps_ends lossy (read_capped written limit) limit) as (a & m & b & Hb & Hlen & ->); [lia|].
  exists a, b. split; [done|]. assert (len m = 1) as -> by (rewrite Hb, !len_app in E; lia). done.
Qed.

(** ** Tools that need consent ([ToolRegistry::execute_with_context]) *)

Section Registry.
(** SHA-256 in hexadecimal. *)
Context (sha256_hex : string -> string).

(** The requester of one call: [is_yolo], and the answer to a display target,
    a reason and a rule key. *)
Record ScopedRequester : Type := mkScoped {
  scoped_yolo : bool;
  scoped_answer : string -> string -> string -> option (result ApprovalDecision string)
}.

(** The low [n] bytes of a number, the highest first. *)
Fixpoint be_bytes (n : nat) (x : N) : string :=
  match n with O => "" | S k => be_bytes k (x / 256) ++ String (ascii_of_N (x mod 256)) "" end.

(** What the digest is fed: the length of the name in eight bytes, the name, the reason. *)
Definition rule_identity (name reason : string) : string := be_bytes 8 (nlen name) ++ name ++ reason.
Definition rule_key (name reason : string) : string := "tool-rule:v1:" ++ sha256_hex (rule_identity name reason).

Definition tool_decision (decision : ApprovalDecision) : result unit OmonError :=
  match decision with
  | Deny reason =>
      Err (Db.Approval
        (match reason with
         | Some r => if negb (String.eqb (trim r) "") then "Tool execution denied by user: " ++ r else "Tool execution denied by user"
         | None => "Tool execution denied by user"
         end))
  | _ => Ok tt
  end.

(** Before the tool [name] runs; [needs] is what [requires_approval] says, and
    [None] for [tool] that there is no such tool. *)
Definition registry_gate (known : bool) (name : string) (needs : option string) (session : option SessionKey)
    (requester : option ScopedRequester) : result unit OmonError :=
  if negb known then Err (ToolExecution ("unknown tool: " ++ name))
  else
    match needs with
    | None => Ok tt
    | Some reason =>
        let what := "Tool '" ++ name ++ "' requires interactive approval (" ++ reason ++ "), but no " in
        match session, requester with
        | None, _ => Err (Db.Approval (what ++ "session is available"))
        | Some _, None => Err (Db.Approval (what ++ "approval guard is configured"))
        | Some _, Some r =>
            if scoped_yolo r then Ok tt
            else
              match scoped_answer r ("<" ++ name ++ ">") reason (rule_key name reason) with
              | None => Err (Db.Approval "approval request timed out")
              | Some (Err error) => Err (Db.Approval error)
              | Some (Ok decision) => tool_decision decision
              end
        end
    end.

(** A tool that asks for consent runs only in yolo mode or with a decision for
    its own rule key. *)
Theorem registry_asks known name reason session requester :
  registry_gate known name (Some reason) session requester = Ok tt ->
  exists s r, session = Some s /\ requester = Some r /\
    (scoped_yolo r = true \/
     exists d, scoped_answer r ("<" ++ name ++ ">") reason (rule_key name reason) = Some (Ok d) /\ is_approved_decision d = true).
Proof.
  unfold registry_gate. destruct known; [|done]. destruct session as [s|], requester as [r|]; try done. intros Hr.
  exists s, r. split; [done|]. split; [done|]. destruct (scoped_yolo r); [by left|right].
  destruct (scoped_answer _ _ _ _) as [[d|]|]; try done. exists d. split; [done|]. by destruct d.
Qed.
End Registry.

Lemma len_be_bytes n : forall x, len (be_bytes n x) = n.
Proof. induction n as [|n IH]; intros x; [done|]. cbn [be_bytes]. rewrite len_app, IH. unfold len. simpl. lia. Qed.

Lemma app_inj_len a b c d : len a = len c -> a ++ b = c ++ d -> a = c /\ b = d.
Proof.
  revert c. induction a as [|x a IH]; intros [|y c]; unfold len in *; simpl; try lia; [done|]. intros Hl [= -> E].
  apply IH in E as [-> ->]; [done|lia].
Qed.

Lemma be_bytes_inj n : forall x y, (x < 256 ^ N.of_nat n)%N -> (y < 256 ^ N.of_nat n)%N -> be_bytes n x = be_bytes n y -> x = y.
Proof.
  induction n as [|n IH]; intros x y Hx Hy; [simpl in *; lia|]. cbn [be_bytes]. intros E.
  apply app_inj_len in E as [E1 E2]; [|by rewrite !len_be_bytes]. injection E2 as E2.
  rewrite Nat2N.inj_succ, N.pow_succ_r' in Hx, Hy.
  apply IH in E1; [|by apply N.Div0.div_lt_upper_bound..].
  apply (f_equal N_of_ascii) in E2. rewrite !N_ascii_embedding in E2 by (by apply N.mod_lt).
  rewrite (N.div_mod x 256), (N.div_mod y 256) by done. by rewrite E1, E2.
Qed.

Lemma nlen_len s : nlen s = N.of_nat (len s).
Proof. induction s as [|c s IH]; [done|]. cbn [nlen]. rewrite IH. unfold len. simpl String.length. lia. Qed.

(** Rules of different tools or reasons are never confused: names and
    reasons with the same digest input are the same, for names below 2^64
    bytes, however a name ends and its reason begins. *)
Theorem rule_identity_unambiguous (n1 r1 n2 r2 : string) :
  (nlen n1 < 2 ^ 64)%N -> (nlen n2 < 2 ^ 64)%N ->
  rule_identity n1 r1 = rule_identity n2 r2 -> n1 = n2 /\ r1 = r2.
Proof.
  intros H1 H2 E. unfold rule_identity in E. apply app_inj_len in E as [E1 E2]; [|by rewrite !len_be_bytes].
  apply be_bytes_inj in E1; [|exact H1|exact H2]. apply app_inj_len in E2; [done|]. rewrite !nlen_len in E1. lia.
Qed.

(** ** Witnesses *)

#[local] Instance demo_engine : Regex := {| is_match _ _ := false; replace_all _ _ s := s |}.
#[local] Instance demo_files : FileSystem := {| canonicalize p := Ok p; is_dir _ := true; is_file _ := true |}.
Definition demo_env : ProcessEnv := mkProcessEnv (mkHomeEnv None None) false "/tmp".
Definition demo_terminal : TerminalTool := mkTerminal "/w" [] 100 Smart None ["git push*"] None.
Definition demo_call : value := JObject [("args", JArray [JString "a b"; JString "it's"]); ("program", JString "ls")].
Definition demo_spawn : Spawn := mkSpawn (PName "ls") ["a b"; "it's"] "/w/." [].

Lemma demo_spawned : execute_inner demo_env demo_terminal (NetworkError "") "" demo_call None = Ok demo_spawn.
Proof. by vm_compute. Qed.

Lemma spawned_is_let_through_witness :
  exists program, match_user_deny_rule demo_env (command_text (program :: sp_args demo_spawn)) ["git push*"] = None /\
    is_authorized demo_terminal (sp_cwd demo_spawn) = true.
Proof.
  destruct (spawned_is_let_through demo_env demo_terminal (NetworkError "") "" demo_call None demo_spawn demo_spawned)
    as (program & _ & _ & H2 & _ & H4 & _). by exists program.
Defined.

Lemma argv_roundtrip_witness : exists tokens,
  shell_tokens_with_spans (command_text ["ls"; "a b"; "it's"; ""]) 0 = Some tokens /\ length tokens = 4.
Proof.
  destruct (argv_roundtrip ["ls"; "a b"; "it's"; ""]) as (tokens & Ht & Hv); [by repeat constructor|].
  exists tokens. split; [exact Ht|]. by rewrite <- (length_map tok_value tokens), Hv.
Defined.
