(* ===== verification/Files.v ===== *)
(** * Files

    A directory is a map from names to nodes.  Each call of [std::fs] may fail:
    the outcomes of the calls to come are the [faults] of the world of [Db], as
    for statements.  The errors are values, as the callers match on them. *)
From stdpp Require Import base list strings gmap.
From Stdlib Require Import ZArith NArith Lia Ascii String DecimalString DecimalN.
From S2P Require Import Prelude RustStr Db.
Open Scope string_scope.
Local Notation length := Datatypes.length.

(** Text that is not UTF-8 counts as a call that fails; what directories hold is
    not modelled. *)
Inductive Node : Type := File (content : string) | Directory.
Notation Dir := (gmap string Node).

(** One call of [std::fs]: it fails when the world says so, or by itself. *)
Definition io {A} (f : Dir -> result A string * Dir) : M Dir (result A string) := fun w =>
  match faults w with
  | Some msg :: rest => (Ok (Err msg), mkWorld (st w) rest)
  | rest => let '(r, d) := f (st w) in (Ok r, mkWorld d (tail rest))
  end.

(** [Path::exists]: an error of [metadata] reads as absence. *)
Definition exists_ (name : string) : M Dir bool :=
  (r <- io (fun d => (match d !! name with Some _ => Ok tt | None => Err "No such file or directory" end, d));;
   ret (is_ok r))%db.

Definition read_to_string (name : string) : M Dir (result string string) :=
  io (fun d => (match d !! name with
                | Some (File content) => Ok content
                | Some Directory => Err "Is a directory"
                | None => Err "No such file or directory"
                end, d)).

(** A write that fails leaves [partial] of what it was writing, if anything. *)
Definition write (name content : string) (partial : option string) : M Dir (result unit string) := fun w =>
  match faults w with
  | Some msg :: rest =>
      (Ok (Err msg), mkWorld (match partial with Some p => <[name := File p]> (st w) | None => st w end) rest)
  | rest =>
      match st w !! name with
      | Some Directory => (Ok (Err "Is a directory"), mkWorld (st w) (tail rest))
      | _ => (Ok (Ok tt), mkWorld (<[name := File content]> (st w)) (tail rest))
      end
  end.

Definition rename (from to : string) : M Dir (result unit string) :=
  io (fun d =>
    match d !! from, d !! to with
    | Some (File content), Some Directory => (Err "Is a directory", d)
    | Some (File content), _ => (Ok tt, <[to := File content]> (base.delete from d))
    | Some Directory, None => (Ok tt, <[to := Directory]> (base.delete from d))
    | Some Directory, Some _ => (Err "Not a directory", d)
    | None, _ => (Err "No such file or directory", d)
    end).

Definition remove_file (name : string) : M Dir (result unit string) :=
  io (fun d =>
    match d !! name with
    | Some (File _) => (Ok tt, base.delete name d)
    | Some Directory => (Err "Is a directory", d)
    | None => (Err "No such file or directory", d)
    end).

(** ** Lemmas *)

Lemma last_default {A} (x d : A) l : List.last (x :: l) d = List.last l x.
Proof. revert x d. induction l as [|y l IH]; intros x d; [done|]. change (List.last (y :: l) d = List.last (y :: l) x). by rewrite !IH. Qed.

(** The next call of [std::fs] is not made to fail. *)
Definition runs (fs : list (option string)) : bool := match fs with Some _ :: _ => false | _ => true end.

Lemma io_ok {A} (f : Dir -> result A string * Dir) w :
  runs (faults w) = true -> io f w = (Ok (f (st w)).1, mkWorld (f (st w)).2 (tail (faults w))).
Proof. unfold io. destruct w as [d [|[msg|] fs]]; simpl; [|done|]; by destruct (f d). Qed.

Lemma io_err {A} (f : Dir -> result A string * Dir) w :
  runs (faults w) = false -> exists msg, io f w = (Ok (Err msg), mkWorld (st w) (tail (faults w))).
Proof. unfold io. destruct w as [d [|[msg|] fs]]; simpl; [done| |done]; eauto. Qed.

Ltac io_fails :=
  match goal with |- context [io ?f ?w] => destruct (io_err f w) as [? ->]; [done|] end.

Lemma write_cases name content partial w :
  exists r w', write name content partial w = (Ok r, w') /\
  (forall n, n <> name -> st w' !! n = st w !! n) /\
  match r with Ok _ => st w' !! name = Some (File content) | Err _ => True end.
Proof.
  unfold write. destruct w as [d [|[msg|] fs]]; simpl.
  1, 3: destruct (d !! name) as [[|]|]; eexists _, _; (split; [done|]); simpl; (split; [intros n Hn; by rewrite ?lookup_insert_ne|]);
    by rewrite ?lookup_insert_eq.
  eexists _, _. split; [done|]. simpl. split; [|done]. intros n Hn. destruct partial; [|done]. by rewrite lookup_insert_ne.
Qed.

Lemma rename_cases from to content w : from <> to -> st w !! from = Some (File content) ->
  exists r w', rename from to w = (Ok r, w') /\
  match r with
  | Ok _ => st w' = <[to := File content]> (base.delete from (st w))
  | Err _ => st w' = st w
  end.
Proof.
  intros Hne Hf. unfold rename. destruct (runs (faults w)) eqn:E.
  - rewrite io_ok by done. simpl. rewrite Hf. destruct (st w !! to) as [[|]|]; by eexists _, _.
  - io_fails. by eexists _, _.
Qed.

(** ** Texts for witnesses: a value is printed as its code *)

Definition code_of {A} `{Countable A} (a : A) : string := show_N (Npos (encode a)).
Definition read_code {A} `{Countable A} (s : string) : option A :=
  match NilZero.uint_of_string s with
  | Some u => match N.of_uint u with Npos p => decode p | N0 => None end
  | None => None
  end.

Lemma read_code_of {A} `{Countable A} (a : A) : read_code (code_of a) = Some a.
Proof.
  unfold read_code, code_of, show_N. rewrite NilZero.usu by apply to_uint_not_nil.
  rewrite DecimalN.Unsigned.of_to. apply decode_encode.
Qed.

Lemma code_of_plain {A} `{Countable A} (a : A) : trim (code_of a) = code_of a /\ code_of a <> "".
Proof.
  unfold code_of. split; [apply trim_show_N|].
  destruct (show_N_head (Npos (encode a))) as (c & s & -> & _). done.
Qed.
