(* ===== verification/Drain.v ===== *)
(** * Drain requests ([src/drain_control.rs])

    An operator asks the gateway to drain by a marker file in its state
    directory ([Files]).  The watcher publishes each scan's verdict in a watch channel, which
    the router and the main loop read. *)
From stdpp Require Import base list strings gmap.
From Stdlib Require Import ZArith NArith Lia Ascii String DecimalString DecimalN.
From S2P Require Import Prelude RustStr Json Db Files.
Open Scope string_scope.
Local Notation length := Datatypes.length.

Definition DRAIN_REQUEST_FILENAME : string := ".drain_request.json".
(** 3600 seconds, in nanoseconds. *)
Definition DRAIN_REQUEST_MAX_AGE : Z := (3600 * 1000000000)%Z.

Record DrainRequest : Type := mkRequest {
  action : string;
  requested_at : option string;
  principal : option string;
  epoch : option string;
  suppress_notification : bool
}.

#[export] Instance DrainRequest_eq_dec : EqDecision DrainRequest.
Proof. solve_decision. Defined.

(** A JSON text as a derived [Deserialize] of a struct sees it: the members of
    an object in order, repeated ones included, or the elements of an array. *)
Inductive Text : Type :=
| Members (l : list (string * value))
| Elements (l : list value)
| Other.

(** What the component uses of [serde_json] and [chrono]: reading and printing
    JSON texts, the RFC 3339 form of an instant, the two forms without an
    offset and the bare date (instants and midnights as nanoseconds). *)
Class DrainLibs := {
  from_str : string -> option Text;
  to_string_pretty : list (string * value) -> string;
  rfc3339 : string -> option Z;
  to_rfc3339 : Z -> string;
  naive_date_time : string -> string -> option Z;
  naive_date : string -> option Z
}.

Definition default_action : string := "drain".

(** ** The derived [Deserialize] and [Serialize] *)

Definition string_of (v : value) : option string :=
  match v with JString s => Some s | _ => None end.
Definition option_string_of (v : value) : option (option string) :=
  match v with JNull => Some None | JString s => Some (Some s) | _ => None end.
Definition bool_of (v : value) : option bool :=
  match v with JBool b => Some b | _ => None end.

(** The one value of a field: an absent field takes its default, a repeated one
    is an error, as is a value of another type. *)
Definition field {A} (name : string) (decode : value -> option A) (absent : A) (l : list (string * value)) : option A :=
  match List.filter (fun m => String.eqb m.1 name) l with
  | [] => Some absent
  | [(_, v)] => decode v
  | _ => None
  end.

Definition element {A} (i : nat) (decode : value -> option A) (absent : A) (l : list value) : option A :=
  match nth_error l i with None => Some absent | Some v => decode v end.

Definition deserialize (t : Text) : option DrainRequest :=
  match t with
  | Members l =>
      a ← field "action" string_of default_action l;
      r ← field "requested_at" option_string_of None l;
      p ← field "principal" option_string_of None l;
      e ← field "epoch" option_string_of None l;
      s ← field "suppress_notification" bool_of false l;
      Some (mkRequest a r p e s)
  | Elements l =>
      a ← element 0 string_of default_action l;
      r ← element 1 option_string_of None l;
      p ← element 2 option_string_of None l;
      e ← element 3 option_string_of None l;
      s ← element 4 bool_of false l;
      if (length l <=? 5)%nat then Some (mkRequest a r p e s) else None
  | Other => None
  end.

Definition json_option (o : option string) : value := match o with Some s => JString s | None => JNull end.

Definition serialize (r : DrainRequest) : list (string * value) :=
  [("action", JString (action r)); ("requested_at", json_option (requested_at r));
   ("principal", json_option (principal r)); ("epoch", json_option (epoch r));
   ("suppress_notification", JBool (suppress_notification r))].

(** Documented behaviour: what is printed reads back, and a printed object is
    no white space. *)
Class DrainLaws (L : DrainLibs) : Prop := {
  from_to_str : forall r, from_str (trim (to_string_pretty (serialize r))) = Some (Members (serialize r));
  printed_object : forall r, trim (to_string_pretty (serialize r)) <> "";
  rfc3339_read_back : forall t, rfc3339 (to_rfc3339 t) = Some t
}.

Definition default_request `{DrainLibs} (now : Z) (process_epoch : string) : DrainRequest :=
  mkRequest default_action (Some (to_rfc3339 now)) (Some "drain-control") (Some process_epoch) false.

(** ** Epochs *)

(** [s.rsplit_once(c)], the part after it. *)
Fixpoint after_last (c : ascii) (s : string) : option string :=
  match s with
  | "" => None
  | String d s' =>
      match after_last c s' with
      | Some tail => Some tail
      | None => if Ascii.eqb d c then Some s' else None
      end
  end.

(** The identity of the boot, from the two files of /proc ([None]: unreadable). *)
Definition current_instantiation_epoch (boot_file stat_file : option string) : string :=
  let boot_id := match boot_file with Some content => trim content | None => "" end in
  let pid1_start :=
    match stat_file ≫= after_last ")" with
    | Some tail =>
        let fields := split_whitespace tail in
        if (20 <=? length fields)%nat then nth 19 fields "" else ""
    | None => ""
    end in
  if negb (String.eqb boot_id "") || negb (String.eqb pid1_start "") then boot_id ++ ":" ++ pid1_start else "".

Definition is_marker_epoch_stale (marker_epoch : option string) (current_epoch : string) : bool :=
  let current_trimmed := trim current_epoch in
  if String.eqb current_trimmed "" then false
  else match marker_epoch with
       | None => false
       | Some e => if String.eqb (trim e) "" then false else negb (String.eqb (trim e) current_trimmed)
       end.

(** ** Markers *)
Section Markers.
Context `{DrainLibs}.
(** The epoch of this process, and the wall clock as [Utc::now()] reads it
    outside the instant handed to a check. *)
Context (process_epoch : string) (clock : Z).

Definition parse_requested_at (raw : string) : option Z :=
  match rfc3339 raw with
  | Some date => Some date
  | None =>
      match naive_date_time "%Y-%m-%dT%H:%M:%S%.f" raw with
      | Some date => Some date
      | None =>
          match naive_date_time "%Y-%m-%d %H:%M:%S%.f" raw with
          | Some date => Some date
          | None => naive_date raw
          end
      end
  end.

Definition fallback (who : string) : DrainRequest := mkRequest "drain" None (Some who) None false.

Definition validate_marker_at (content current_epoch : string) (now : Z) : option DrainRequest :=
  let trimmed := trim content in
  if String.eqb trimmed "" then Some (default_request clock process_epoch)
  else
    match from_str trimmed ≫= deserialize with
    | Some req =>
        if negb (String.eqb (action req) "drain") then None
        else if is_marker_epoch_stale (epoch req) current_epoch then None
        else
          match requested_at req ≫= parse_requested_at with
          | Some at_ => if (DRAIN_REQUEST_MAX_AGE <? now - at_)%Z then None else Some req
          | None => Some req
          end
    | None => Some (fallback "malformed-marker")
    end.

(** [.map_err(|e| OmonError::Config(..))?] *)
Definition config_error {A} (context : string) (r : result A string) : M Dir A :=
  match r with Ok a => ret a | Err e => fail (Config (context ++ ": " ++ e)) end.

(** ** Operations *)

Definition temp_name (uuid : string) : string := ".drain_request." ++ uuid ++ ".tmp".

Definition write_drain_request (who : option string) (suppress : bool) (uuid : string)
    (partial : option string) : M Dir DrainRequest :=
  (let req := mkRequest "drain" (Some (to_rfc3339 clock)) who (Some process_epoch) suppress in
   let tmp_path := temp_name uuid in
   let payload := to_string_pretty (serialize req) in
   r <- write tmp_path payload partial;;
   config_error "failed to write drain request temp file" r;;;
   r <- rename tmp_path DRAIN_REQUEST_FILENAME;;
   config_error "failed to commit drain request marker" r;;;
   ret req)%db.

Definition clear_drain_request : M Dir bool :=
  (present <- exists_ DRAIN_REQUEST_FILENAME;;
   if present then
     r <- remove_file DRAIN_REQUEST_FILENAME;;
     config_error "failed to remove drain request marker" r;;;
     ret true
   else ret false)%db.

Definition check_drain_requested_at (current_epoch : string) (now : Z) : M Dir (option DrainRequest) :=
  (present <- exists_ DRAIN_REQUEST_FILENAME;;
   if negb present then ret None
   else
     r <- read_to_string DRAIN_REQUEST_FILENAME;;
     match r with
     | Ok content => ret (validate_marker_at content current_epoch now)
     | Err error => ret (Some (fallback "unreadable-marker"))
     end)%db.

(** ** The watcher *)

(** A [tokio::sync::watch] channel: its value and how often it was changed. *)
Record Watch : Type := mkWatch { drained : bool; version : nat }.
Definition watch_channel : Watch := mkWatch false 0.

Definition send_if_modified (value : bool) (w : Watch) : Watch :=
  if Bool.eqb (drained w) value then w else mkWatch value (S (version w)).

Definition scan_at (current_epoch : string) (now : Z) (w : Watch) : M Dir (bool * Watch) :=
  (request <- check_drain_requested_at current_epoch now;;
   match request with
   | Some req => ret (true, send_if_modified true w)
   | None => ret (false, send_if_modified false w)
   end)%db.

(** [spawn]: the verdicts of the scans at the ticks' instants, each finding the
    directory as other processes left it. *)
Fixpoint watch_scans (current_epoch : string) (ticks : list (Z * Dir * list (option string))) (w : Watch) : list bool * Watch :=
  match ticks with
  | [] => ([], w)
  | (now, dir, fs) :: rest =>
      match (scan_at current_epoch now w (mkWorld dir fs)).1 with
      | Ok (verdict, w') =>
          let '(verdicts, w'') := watch_scans current_epoch rest w' in (verdict :: verdicts, w'')
      | Err _ => ([], w)
      end
  end.
End Markers.

(** The gate of [SessionMultiplexer::route]. *)
Definition refuse_when_draining (drain_rx : option Watch) : result unit OmonError :=
  match drain_rx with
  | Some rx => if drained rx then Err (Config "gateway is draining; new turns are refused") else Ok tt
  | None => Ok tt
  end.

(** The arm of [main]'s [select!] that waits for a change: [seen] is the version
    the receiver has seen.  Once an arm has run the gateway stops. *)
Inductive DrainArm : Type := Waits | MarksInFlightAndStops | StopsOnly.
Definition drain_arm (seen : nat) (rx : Watch) : DrainArm :=
  if (seen =? version rx)%nat then Waits
  else if drained rx then MarksInFlightAndStops
  else StopsOnly.

(** ** What a marker means *)

(** A marker is disregarded only for a definite reason: another action, another
    boot, or a request more than an hour old. *)
Definition disregarded `{DrainLibs} (content current_epoch : string) (now : Z) : Prop :=
  trim content <> "" /\
  exists req, from_str (trim content) ≫= deserialize = Some req /\
  (action req <> "drain" \/
   (exists e, epoch req = Some e /\ trim e <> "" /\ trim current_epoch <> "" /\ trim e <> trim current_epoch) \/
   (exists t, requested_at req ≫= parse_requested_at = Some t /\ (DRAIN_REQUEST_MAX_AGE < now - t)%Z)).

Lemma stale_epoch_iff marker current :
  is_marker_epoch_stale marker current = true <->
  exists e, marker = Some e /\ trim e <> "" /\ trim current <> "" /\ trim e <> trim current.
Proof.
  unfold is_marker_epoch_stale.
  destruct (String.eqb_spec (trim current) ""); [naive_solver|].
  destruct marker as [e|]; [|naive_solver].
  destruct (String.eqb_spec (trim e) ""); [naive_solver|].
  rewrite negb_true_iff, String.eqb_neq. naive_solver.
Qed.

Lemma same_epoch_fresh e : is_marker_epoch_stale (Some e) e = false.
Proof.
  apply not_true_is_false. rewrite stale_epoch_iff. naive_solver.
Qed.

Section MarkerFacts.
Context `{DrainLibs} (process_epoch : string) (clock : Z).

Lemma validate_marker_none content current now :
  validate_marker_at process_epoch clock content current now = None <-> disregarded content current now.
Proof.
  unfold validate_marker_at, disregarded.
  destruct (String.eqb_spec (trim content) ""); [naive_solver|].
  destruct (from_str (trim content) ≫= deserialize) as [req|]; [|naive_solver].
  destruct (String.eqb_spec (action req) "drain"); simpl; [|naive_solver].
  destruct (is_marker_epoch_stale (epoch req) current) eqn:E.
  { apply stale_epoch_iff in E. naive_solver. }
  assert (Hn : ~ exists e, epoch req = Some e /\ trim e <> "" /\ trim current <> "" /\ trim e <> trim current)
    by by rewrite <- stale_epoch_iff, E.
  destruct (requested_at req ≫= parse_requested_at) as [t|] eqn:Et.
  - destruct (Z.ltb_spec DRAIN_REQUEST_MAX_AGE (now - t)); split; try done.
    + intros _. split; [done|]. exists req. naive_solver.
    + intros (_ & req' & [= <-] & [?|[?|(t' & Et' & ?)]]); [done|done|]. rewrite Et in Et'. simplify_eq. lia.
  - split; [done|]. intros (_ & req' & [= <-] & [?|[?|(t' & Et' & ?)]]); [done|done|]. by rewrite Et in Et'.
Qed.

(** The marker is seen, and its content is read. *)
Definition marker_seen (w : world Dir) : Prop :=
  is_Some (st w !! DRAIN_REQUEST_FILENAME) /\ runs (faults w) = true.
Definition marker_read (w : world Dir) (content : string) : Prop :=
  marker_seen w /\ st w !! DRAIN_REQUEST_FILENAME = Some (File content) /\ runs (tail (faults w)) = true.

Lemma exists_seen w :
  exists b, exists_ DRAIN_REQUEST_FILENAME w = (Ok b, mkWorld (st w) (tail (faults w))) /\ (b = true <-> marker_seen w).
Proof.
  unfold exists_, bind, marker_seen. destruct (runs (faults w)) eqn:E.
  - rewrite io_ok by done. simpl. destruct (st w !! DRAIN_REQUEST_FILENAME); simpl; eexists; split; try done; split; try done; naive_solver.
  - io_fails.
    exists false. split; [done|]. naive_solver.
Qed.

Lemma read_marker w : marker_seen w ->
  exists r, read_to_string DRAIN_REQUEST_FILENAME (mkWorld (st w) (tail (faults w))) = (Ok r, mkWorld (st w) (tail (tail (faults w)))) /\
  forall content, r = Ok content <-> marker_read w content.
Proof.
  intros Hs. unfold read_to_string, marker_read. destruct (runs (tail (faults w))) eqn:E.
  - rewrite io_ok by done. simpl. eexists. split; [done|]. intros content.
    destruct (st w !! DRAIN_REQUEST_FILENAME) as [[]|]; naive_solver.
  - io_fails. simpl. eexists. split; [done|]. naive_solver.
Qed.

(** Every check ends with a verdict and changes no file. *)
Lemma check_drain_spec current now w :
  exists r w', check_drain_requested_at process_epoch clock current now w = (Ok r, w') /\ st w' = st w /\
  (r = None <-> ~ marker_seen w \/ exists content, marker_read w content /\ disregarded content current now).
Proof.
  unfold check_drain_requested_at, bind. destruct (exists_seen w) as (b & -> & Hb).
  destruct b; simpl.
  - assert (Hs : marker_seen w) by by apply Hb. destruct (read_marker w Hs) as (r & -> & Hr).
    destruct r as [content|e]; simpl; eexists _, _; (split; [done|]); (split; [done|]).
    + rewrite validate_marker_none. assert (marker_read w content) by by apply Hr.
      split; [right; by exists content|]. intros [?|(c & Hc & Hd)]; [done|]. apply Hr in Hc. by simplify_eq.
    + split; [done|]. intros [?|(c & Hc & _)]; [done|]. apply Hr in Hc. done.
  - eexists _, _. split; [done|]. split; [done|]. split; [|done]. intros _. left. rewrite <- Hb. done.
Qed.

(** C18: unreadable is never mistaken for absent: where the metadata of the
    marker can be read, a check ends with a verdict whatever else fails,
    changes no file, and reports no drain exactly when there is no marker, or
    when its content was read and asks for another action, names another boot
    or is more than an hour old; a marker that cannot be read (permissions,
    another file type, text that is not UTF-8) drains, as do malformed and
    undated ones.  (Without the metadata the code takes the marker for absent:
    [unsearchable_directory_not_draining].) *)
Theorem drain_fails_closed current now w :
  runs (faults w) = true ->
  let '(r, w') := check_drain_requested_at process_epoch clock current now w in
  let marker := st w !! DRAIN_REQUEST_FILENAME in
  let readable content := marker = Some (File content) /\ runs (tail (faults w)) = true in
  st w' = st w /\
  (r = Ok None <-> marker = None \/ exists content, readable content /\ disregarded content current now) /\
  (is_Some marker -> (forall content, ~ readable content) -> r = Ok (Some (fallback "unreadable-marker"))) /\
  (r <> Ok None -> exists req, r = Ok (Some req)).
Proof.
  intros Hf. destruct (check_drain_spec current now w) as (r & w' & E & Hst & Hr). rewrite E. cbv zeta.
  assert (marker_seen w <-> is_Some (st w !! DRAIN_REQUEST_FILENAME)) as Hseen by (unfold marker_seen; naive_solver).
  split; [done|]. split; [|split].
  - transitivity (r = None); [naive_solver|]. rewrite Hr, Hseen, <- eq_None_not_Some. unfold marker_read. split; [naive_solver|]. intros [?|(c & [? ?] & ?)]; [by left|]. right. exists c. split; [|done]. by rewrite Hseen; eauto.
  - intros Hm Hno. apply Hseen in Hm. unfold check_drain_requested_at, bind in E.
    destruct (exists_seen w) as (b & Eb & Hb). rewrite Eb in E. rewrite (proj2 Hb Hm) in E. simpl in E.
    destruct (read_marker w Hm) as (c & Ec & Hc). rewrite Ec in E. destruct c as [content|e]; [|by injection E as <- _].
    destruct (Hno content). by destruct (proj1 (Hc content) eq_refl) as (_ & ? & ?).
  - destruct r; naive_solver.
Qed.

(** ** Writing and clearing *)

Lemma deserialize_serialize r : deserialize (Members (serialize r)) = Some r.
Proof. by destruct r as [a [?|] [?|] [?|] s]. Qed.

Lemma temp_name_ne uuid : temp_name uuid <> DRAIN_REQUEST_FILENAME.
Proof.
  unfold temp_name, DRAIN_REQUEST_FILENAME. simpl. intros [= E]. destruct uuid as [|c1 u]; [done|].
  apply (f_equal len) in E. simpl in E. rewrite len_app in E. simpl in E. lia.
Qed.

(** Whatever fails, other files stay; the marker is the new request or what it
    was. *)
Lemma write_effect who suppress uuid partial w :
  let '(r, w') := write_drain_request process_epoch clock who suppress uuid partial w in
  let req := mkRequest "drain" (Some (to_rfc3339 clock)) who (Some process_epoch) suppress in
  (forall name, name <> temp_name uuid -> name <> DRAIN_REQUEST_FILENAME -> st w' !! name = st w !! name) /\
  match r with
  | Ok made => made = req /\ st w' !! DRAIN_REQUEST_FILENAME = Some (File (to_string_pretty (serialize req))) /\ st w' !! temp_name uuid = None
  | Err _ => st w' !! DRAIN_REQUEST_FILENAME = st w !! DRAIN_REQUEST_FILENAME
  end.
Proof.
  pose proof (temp_name_ne uuid) as Hne. unfold write_drain_request, bind.
  destruct (write_cases (temp_name uuid) (to_string_pretty (serialize (mkRequest "drain" (Some (to_rfc3339 clock)) who (Some process_epoch) suppress))) partial w)
    as ([[]|e] & w1 & -> & Ho & Hw); simpl; [|by split; [intros; apply Ho|apply Ho]].
  destruct (rename_cases (temp_name uuid) DRAIN_REQUEST_FILENAME _ w1 Hne Hw) as ([[]|e] & w2 & -> & H2); simpl; rewrite H2.
  - split; [|split; [done|]; split].
    + intros n Hn Hm. rewrite lookup_insert_ne, lookup_delete_ne by done. by apply Ho.
    + by rewrite lookup_insert_eq.
    + rewrite lookup_insert_ne, lookup_delete_eq by done. done.
  - split; [by intros; apply Ho|by apply Ho].
Qed.

(** A drain request is written whole or not at all: when the write succeeds
    the marker is the request and every later check of the same boot within an
    hour finds it, as long as no file changes; when it fails the marker is what
    it was, whatever a broken write left in the temporary file.  No other file
    changes. *)
Theorem drain_request_atomic `{!DrainLaws _} who suppress uuid partial w :
  let '(r, w') := write_drain_request process_epoch clock who suppress uuid partial w in
  (forall name, name <> temp_name uuid -> name <> DRAIN_REQUEST_FILENAME -> st w' !! name = st w !! name) /\
  match r with
  | Ok req =>
      action req = "drain" /\ principal req = who /\ suppress_notification req = suppress /\
      forall clock' now fs, (now - clock <= DRAIN_REQUEST_MAX_AGE)%Z -> runs fs = true -> runs (tail fs) = true ->
        (check_drain_requested_at process_epoch clock' process_epoch now (mkWorld (st w') fs)).1 = Ok (Some req)
  | Err _ => st w' !! DRAIN_REQUEST_FILENAME = st w !! DRAIN_REQUEST_FILENAME
  end.
Proof.
  pose proof (write_effect who suppress uuid partial w) as He.
  destruct (write_drain_request process_epoch clock who suppress uuid partial w) as [[req|e] w'];
    destruct He as [Ho He]; (split; [done|]); [|done].
  destruct He as (-> & Hm & _). do 3 (split; [done|]). intros clock' now fs Hage H1 H2.
  unfold check_drain_requested_at, exists_, read_to_string, bind. rewrite io_ok by done. simpl. rewrite Hm. simpl.
  rewrite io_ok by done. simpl. rewrite Hm. simpl. f_equal.
  unfold validate_marker_at. rewrite (proj2 (String.eqb_neq _ _)) by apply printed_object.
  rewrite from_to_str. cbn [mbind option_bind]. rewrite deserialize_serialize. cbn [action epoch requested_at].
  rewrite same_epoch_fresh. simpl. unfold parse_requested_at. rewrite rfc3339_read_back.
  destruct (Z.ltb_spec DRAIN_REQUEST_MAX_AGE (now - clock)); [lia|done].
Qed.

Lemma clear_effect w :
  let '(r, w') := clear_drain_request w in
  (forall name, name <> DRAIN_REQUEST_FILENAME -> st w' !! name = st w !! name) /\
  match r with
  | Ok true => st w' !! DRAIN_REQUEST_FILENAME = None /\ is_Some (st w !! DRAIN_REQUEST_FILENAME)
  | Ok false => st w' = st w /\ ~ marker_seen w
  | Err _ => st w' = st w
  end.
Proof.
  unfold clear_drain_request, bind. destruct (exists_seen w) as (b & -> & Hb). destruct b; simpl.
  - assert (Hs : marker_seen w) by by apply Hb. unfold remove_file.
    destruct (runs (tail (faults w))) eqn:E.
    + rewrite io_ok by done. simpl. destruct Hs as [[n Hn] _]. rewrite Hn. destruct n; simpl; [|done].
      split; [|by rewrite lookup_delete_eq]. intros m Hm. by rewrite lookup_delete_ne.
    + by io_fails.
  - split; [done|]. split; [done|]. rewrite <- Hb. done.
Qed.

(** ** What the watcher publishes *)

(** How often a sequence of verdicts departs from the one before. *)
Fixpoint changes (b : bool) (l : list bool) : nat :=
  match l with [] => 0 | x :: rest => (if Bool.eqb b x then 0 else 1) + changes x rest end.

Lemma scan_spec current now w wd :
  exists r w', check_drain_requested_at process_epoch clock current now wd = (Ok r, w') /\
  scan_at process_epoch clock current now w wd =
    (Ok (bool_decide (is_Some r), send_if_modified (bool_decide (is_Some r)) w), w').
Proof.
  unfold scan_at, bind. destruct (check_drain_spec current now wd) as (r & w' & -> & _).
  exists r, w'. split; [done|]. by destruct r.
Qed.

Lemma send_if_modified_spec b w :
  drained (send_if_modified b w) = b /\
  version (send_if_modified b w) = version w + (if Bool.eqb (drained w) b then 0 else 1).
Proof.
  unfold send_if_modified. destruct w as [d v]. simpl. destruct (Bool.eqb d b) eqn:E; simpl.
  - apply eqb_prop in E. split; [done|lia].
  - split; [done|lia].
Qed.

(** The watcher's channel says what the last scan found.  Every scan of
    every sequence of ticks ends with the verdict of a check of the marker at
    that moment, whatever fails; the published value is the last verdict, it is
    signalled exactly as often as verdicts alternate, and a new turn is refused
    exactly when the last scan saw a drain. *)
Theorem watcher_publishes_verdicts current ticks w :
  let '(verdicts, w') := watch_scans process_epoch clock current ticks w in
  Forall2 (fun tick v => let '(now, dir, fs) := tick in
             v = false <-> (check_drain_requested_at process_epoch clock current now (mkWorld dir fs)).1 = Ok None) ticks verdicts /\
  drained w' = List.last verdicts (drained w) /\
  version w' = version w + changes (drained w) verdicts /\
  (refuse_when_draining (Some w') = Ok tt <-> List.last verdicts (drained w) = false).
Proof.
  enough (let '(verdicts, w') := watch_scans process_epoch clock current ticks w in
    Forall2 (fun tick v => let '(now, dir, fs) := tick in
             v = false <-> (check_drain_requested_at process_epoch clock current now (mkWorld dir fs)).1 = Ok None) ticks verdicts /\
    drained w' = List.last verdicts (drained w) /\ version w' = version w + changes (drained w) verdicts) as Hscan.
  { destruct (watch_scans _ _ _ _ _) as [verdicts w']. destruct Hscan as (? & Hd & ?). do 3 (split; [done|]).
    unfold refuse_when_draining. rewrite <- Hd. by destruct (drained w'). }
  revert w. induction ticks as [|[[now dir] fs] ticks IH]; intros w; simpl; [by split; [constructor|split; [done|lia]]|].
  destruct (scan_spec current now w (mkWorld dir fs)) as (r & w1 & Hc & ->). simpl.
  destruct (send_if_modified_spec (bool_decide (is_Some r)) w) as [Hd Hv].
  specialize (IH (send_if_modified (bool_decide (is_Some r)) w)).
  destruct (watch_scans _ _ _ _ _) as [verdicts w2]. destruct IH as (Hf & Hd2 & Hv2). split; [|split].
  - constructor; [|done]. rewrite Hc. simpl. by destruct r.
  - rewrite Hd2, Hd. symmetry. apply last_default.
  - rewrite Hv2, Hv, Hd. simpl. lia.
Qed.
End MarkerFacts.

(** ** Witnesses *)

#[export] Instance DrainRequest_countable : Countable DrainRequest.
Proof.
  refine (inj_countable' (fun r => (action r, requested_at r, principal r, epoch r, suppress_notification r))
    (fun '(a, t, p, e, s) => mkRequest a t p e s) _). by intros [].
Defined.

(** A library whose texts are codes of what they print. *)
#[export] Instance numbers : DrainLibs := {
  from_str s := if String.eqb s "" then None else option_map (fun r => Members (serialize r)) (read_code s);
  to_string_pretty l := match deserialize (Members l) with Some r => code_of r | None => "" end;
  rfc3339 := read_code;
  to_rfc3339 := code_of;
  naive_date_time _ _ := None;
  naive_date _ := None
}.

Lemma numbers_print r : trim (to_string_pretty (serialize r)) = code_of r.
Proof. unfold to_string_pretty, numbers. rewrite deserialize_serialize. apply code_of_plain. Qed.

#[export] Instance numbers_laws : DrainLaws numbers.
Proof.
  split.
  - intros r. rewrite numbers_print. unfold from_str, numbers.
    rewrite (proj2 (String.eqb_neq _ _)) by apply code_of_plain. by rewrite read_code_of.
  - intros r. rewrite numbers_print. apply code_of_plain.
  - intros t. apply read_code_of.
Qed.

Definition drained_dir : gmap string Node := {[ DRAIN_REQUEST_FILENAME := File "{malformed" ]}.

Lemma drain_request_atomic_witness :
  action (mkRequest "drain" (Some (to_rfc3339 0)) (Some "operator") (Some "boot:1") true) = "drain" /\
  let w := (write_drain_request "boot:1" 0 (Some "operator") true "u1" None (mkWorld ∅ [])).2 in
  exists req, (check_drain_requested_at "boot:1" 7 "boot:1" 7 (mkWorld (st w) [])).1 = Ok (Some req) /\ principal req = Some "operator".
Proof.
  split; [reflexivity|]. intros w.
  pose proof (drain_request_atomic "boot:1" 0 (Some "operator") true "u1" None (mkWorld ∅ [])) as H.
  destruct (write_drain_request _ _ _ _ _ _ _) as [[req|e] w'] eqn:E; [|by vm_compute in E].
  exists req. destruct H as (_ & _ & Hp & _ & Hc). split; [|done]. apply (Hc 7%Z 7%Z []); [by vm_compute|reflexivity|reflexivity].
Defined.

(** The marker is there and reading it fails; and a directory without one. *)
Lemma drain_fails_closed_witness :
  (check_drain_requested_at "boot:1" 0 "boot:1" 0 (mkWorld drained_dir [None; Some "permission denied"])).1
    = Ok (Some (fallback "unreadable-marker")) /\
  (check_drain_requested_at "boot:1" 0 "boot:1" 0 (mkWorld ∅ [None; Some "permission denied"])).1 = Ok None.
Proof.
  pose proof (drain_fails_closed "boot:1" 0 "boot:1" 0 (mkWorld drained_dir [None; Some "permission denied"]) eq_refl) as H1.
  pose proof (drain_fails_closed "boot:1" 0 "boot:1" 0 (mkWorld ∅ [None; Some "permission denied"]) eq_refl) as H2.
  destruct (check_drain_requested_at _ _ _ _ (mkWorld drained_dir _)) as [r1 w1], (check_drain_requested_at _ _ _ _ (mkWorld ∅ _)) as [r2 w2].
  split.
  - destruct H1 as (_ & _ & H & _). apply H; [by eexists|]. by intros content [_ ?].
  - destruct H2 as (_ & H & _). apply H. left. by vm_compute.
Defined.

(** A marker in a directory that cannot be searched reads as absent: the gateway
    does not drain. *)
Theorem unsearchable_directory_not_draining :
  (check_drain_requested_at "boot:1" 0 "boot:1" 0 (mkWorld drained_dir [Some "permission denied"])).1 = Ok None /\
  (check_drain_requested_at "boot:1" 0 "boot:1" 0 (mkWorld drained_dir [None; Some "permission denied"])).1 = Ok (Some (fallback "unreadable-marker")) /\
  (check_drain_requested_at "boot:1" 0 "boot:1" 0 (mkWorld drained_dir [])).1 = Ok (Some (fallback "malformed-marker")).
Proof. by vm_compute. Qed.

(** A drain withdrawn before the main loop runs stops the gateway without marking
    its turns. *)
Theorem withdrawn_drain_stops :
  let '(verdicts, rx) := watch_scans "boot:1" 0 "boot:1" [(0%Z, drained_dir, []); (3%Z, ∅, [])] watch_channel in
  verdicts = [true; false] /\ refuse_when_draining (Some rx) = Ok tt /\ drain_arm (version watch_channel) rx = StopsOnly.
Proof. by vm_compute. Qed.
