(* ===== verification/Boots.v ===== *)
(** * The restart-loop guard ([src/multiplexer/restart_loop_guard.rs])

    Boots that found interrupted sessions are logged in a file; when the chain of
    boots at most a gap apart reaches a limit, the sessions are not resumed.
    Instants are [f64]: IEEE 754 binary64 as Rocq's [SpecFloat] computes it. *)
From stdpp Require Import base list strings gmap.
From Stdlib Require Import ZArith NArith Lia Ascii String Sorted.
From Stdlib Require SpecFloat.
From S2P Require Import Prelude RustStr Db Files.
Open Scope string_scope.
Local Notation length := Datatypes.length.

(** ** Binary64 *)
Module F64.
Import SpecFloat.

Definition f64 : Type := spec_float.
Definition sub (a b : f64) : f64 := SFsub 53 1024 a b.
Definition div (a b : f64) : f64 := SFdiv 53 1024 a b.
(** [a < b]. *)
Definition lt (a b : f64) : bool := SFltb a b.
(** [n as f64] for an integer. *)
Definition of_Z (n : Z) : f64 := binary_normalize 53 1024 n 0 false.

(** [f64::total_cmp], as [a <= b]; a [f64] read from JSON or a clock is not NaN,
    which has no sign here. *)
Definition total_le (a b : f64) : bool :=
  match a, b with
  | _, S754_nan => true
  | S754_nan, _ => false
  | S754_zero s, S754_zero t => s || negb t
  | _, _ => SFleb a b
  end.
End F64.
Notation f64 := F64.f64.

Definition DEFAULT_MAX_RESTARTS : nat := 3.
Definition DEFAULT_WINDOW_SECONDS : N := 60.
Definition DEFAULT_MAX_GAP_SECONDS : N := 300.

(** What the guard uses of [serde_json]: the text of a [BootLog], printed with
    [to_string_pretty] (an error when a number is not finite) and read. *)
Class BootLogText := {
  print_log : list f64 -> option string;
  read_log : string -> option (list f64)
}.

Record RestartLoopGuard : Type := mkGuard { path : string; max_restarts : nat; window_seconds : N }.

Definition new (p : string) : RestartLoopGuard := mkGuard p DEFAULT_MAX_RESTARTS DEFAULT_WINDOW_SECONDS.
Definition with_config (p : string) (max_restarts : nat) (window_seconds : N) : RestartLoopGuard :=
  mkGuard p max_restarts window_seconds.

(** [Path::with_extension("tmp")] on the path of a file. *)
Fixpoint last_dot (i : nat) (s : string) : option nat :=
  match s with
  | "" => None
  | String c s' =>
      if Ascii.eqb c "/" then last_dot (S i) s'
      else match last_dot (S i) s' with
           | Some j => Some j
           | None => if Ascii.eqb c "." && negb (contains "/" s') then Some i else None
           end
  end.
Definition file_name_start (s : string) : nat :=
  match find_char "/" (string_of_list_ascii (rev (list_ascii_of_string s))) with
  | Some k => len s - k
  | None => 0
  end.
Definition with_extension_tmp (p : string) : string :=
  match last_dot 0 p with
  | Some i => if (i =? file_name_start p)%nat then p ++ ".tmp" else take_str i p ++ ".tmp"
  | None => p ++ ".tmp"
  end.

(** The gap in seconds, as a float. *)
Definition gap_of (g : RestartLoopGuard) : f64 :=
  F64.of_Z (Z.of_N (N.max (window_seconds g) DEFAULT_MAX_GAP_SECONDS)).

(** [rposition] and [drain(..start)], on the boots latest first: what is kept.
    A boot later than [now] is passed over; the first one further than [gap] from
    the boot after it, and all before it, go. *)
Fixpoint chain (gap now previous : f64) (boots : list f64) : list f64 :=
  match boots with
  | [] => []
  | boot :: earlier =>
      if F64.lt now boot then boot :: chain gap now previous earlier
      else if F64.lt gap (F64.sub previous boot) then []
      else boot :: chain gap now boot earlier
  end.

Definition kept_chain (g : RestartLoopGuard) (now : f64) (boots : list f64) : list f64 :=
  rev (chain (gap_of g) now now (rev (sort_by F64.total_le boots))).

Definition retain_last {A} (n : nat) (l : list A) : list A := drop (length l - n) l.

Definition retained (g : RestartLoopGuard) : nat := Nat.max 50 (max_restarts g).

Definition reached (g : RestartLoopGuard) (boots : list f64) : bool :=
  (0 <? max_restarts g)%nat && (max_restarts g <=? length boots)%nat.

Section Guard.
Context `{BootLogText} (g : RestartLoopGuard).

Definition load_boots : M Dir (list f64) :=
  (raw <- read_to_string (path g);;
   match raw with
   | Ok content => match read_log content with Some boots => ret boots | None => ret [] end
   | Err _ => ret []
   end)%db.

(** [create_dir_all] of the parent counts as one call; its result is not used. *)
Definition save_boots (boots : list f64) (partial : option string) : M Dir unit :=
  (_ <- io (fun d => (Ok tt, d));;
   match print_log boots with
   | Some raw =>
       let tmp_path := with_extension_tmp (path g) in
       r <- write tmp_path raw partial;;
       if is_ok r then (_ <- rename tmp_path (path g);; ret tt) else ret tt
   | None => ret tt
   end)%db.

Definition boot_chain_at (now : f64) : M Dir (list f64) :=
  (boots <- load_boots;; ret (kept_chain g now boots))%db.

Definition record_boot_at (now : f64) (partial : option string) : M Dir (list f64) :=
  (boots <- boot_chain_at now;;
   let boots := retain_last (retained g) (boots ++ [now])%list in
   save_boots boots partial;;; ret boots)%db.

Definition is_tripped_at (now : f64) : M Dir bool :=
  if (0 <? max_restarts g)%nat then (boots <- boot_chain_at now;; ret (max_restarts g <=? length boots)%nat)%db
  else ret false.

Definition check_and_record_at (now : f64) (partial : option string) : M Dir bool :=
  (boots <- record_boot_at now partial;; ret (reached g boots))%db.

(** [check_and_record]: the wall clock in milliseconds, divided by 1000. *)
Definition check_and_record (timestamp_millis : Z) (partial : option string) : M Dir bool :=
  check_and_record_at (F64.div (F64.of_Z timestamp_millis) (F64.of_Z 1000)) partial.

Definition clear : M Dir unit := (_ <- remove_file (path g);; ret tt)%db.
End Guard.

(** ** The chain *)

Definition past (now : f64) (boots : list f64) : list f64 := List.filter (fun b => negb (F64.lt now b)) boots.

(** Each boot is at most [gap] before the one after it, latest first. *)
Fixpoint linked (gap previous : f64) (boots : list f64) : Prop :=
  match boots with
  | [] => True
  | b :: earlier => F64.lt gap (F64.sub previous b) = false /\ linked gap b earlier
  end.

Lemma chain_longest gap now l : forall previous,
  exists dropped, l = (chain gap now previous l ++ dropped)%list /\
  linked gap previous (past now (chain gap now previous l)) /\
  (dropped = [] \/
   exists b earlier, dropped = b :: earlier /\ F64.lt now b = false /\
     F64.lt gap (F64.sub (List.last (past now (chain gap now previous l)) previous) b) = true).
Proof.
  induction l as [|b l IH]; intros previous; simpl; [exists []; by auto|].
  destruct (F64.lt now b) eqn:Ef; simpl; rewrite ?Ef; simpl.
  - destruct (IH previous) as (dropped & El & Hl & Hd). exists dropped. split; [by rewrite <- El|]. by rewrite ?Ef.
  - destruct (F64.lt gap (F64.sub previous b)) eqn:Eg; simpl; rewrite ?Ef; simpl.
    + exists (b :: l). split; [done|]. split; [done|]. right. by exists b, l.
    + destruct (IH b) as (dropped & El & Hl & Hd). exists dropped. split; [by rewrite <- El|]. rewrite ?Ef. split; [done|].
      destruct Hd as [->|(c & earlier & -> & Hc & Hg)]; [by left|]. right. exists c, earlier. split; [done|]. split; [done|].
      rewrite <- Hg. do 2 f_equal. apply (last_default b previous).
Qed.

Lemma chain_all gap now l : forall previous,
  Forall (fun b => F64.lt now b = false) l -> linked gap previous l -> chain gap now previous l = l.
Proof.
  induction l as [|b l IH]; intros previous Hp Hl; simpl; [done|].
  apply Forall_cons in Hp as [-> Hp]. destruct Hl as [-> Hl]. by rewrite IH.
Qed.

Lemma retain_last_suffix {A} n (l : list A) : exists k, l = (k ++ retain_last n l)%list /\ length (retain_last n l) = Nat.min n (length l).
Proof.
  unfold retain_last. exists (take (length l - n) l). split; [by rewrite take_drop|]. rewrite length_drop. lia.
Qed.

Section GuardFacts.
Context `{BootLogText} (g : RestartLoopGuard).

Lemma load_boots_spec w : exists l w', load_boots g w = (Ok l, w') /\ st w' = st w.
Proof.
  unfold load_boots, bind, read_to_string. destruct (runs (faults w)) eqn:E.
  - rewrite io_ok by done. simpl. destruct (st w !! path g) as [[c|]|]; simpl; [destruct (read_log c)|..]; by eexists _, _.
  - io_fails. by eexists _, _.
Qed.

(** The log as the next load finds it. *)
Definition loaded (w : world Dir) : list f64 := match load_boots g w with (Ok l, _) => l | (Err _, _) => [] end.

Lemma save_boots_spec boots partial w : exists w', save_boots g boots partial w = (Ok tt, w').
Proof.
  unfold save_boots, bind. destruct (runs (faults w)) eqn:E; [rewrite io_ok by done|io_fails]; simpl.
  all: destruct (print_log boots) as [raw|]; [|by eexists]; simpl.
  all: match goal with |- context [write ?n ?c ?p ?w1] => destruct (write_cases n c p w1) as ([[]|] & w2 & -> & _) end; simpl; [|by eexists].
  all: unfold rename; destruct (runs (faults w2)) eqn:E2; [rewrite io_ok by done|io_fails]; by eexists.
Qed.

Lemma record_boot_spec now partial w :
  exists w', record_boot_at g now partial w = (Ok (retain_last (retained g) (kept_chain g now (loaded w) ++ [now]))%list, w').
Proof.
  unfold record_boot_at, boot_chain_at, bind, loaded. destruct (load_boots_spec w) as (l & w1 & -> & _). simpl.
  destruct (save_boots_spec (retain_last (retained g) (kept_chain g now l ++ [now])%list) partial w1) as [w2 ->]. by exists w2.
Qed.

Lemma reached_retained boots : reached g (retain_last (retained g) boots) = reached g boots.
Proof.
  unfold reached. destruct (retain_last_suffix (retained g) boots) as (k & _ & Hl). rewrite Hl. f_equal.
  apply Bool.eq_iff_eq_true. rewrite !Nat.leb_le. unfold retained. lia.
Qed.

(** A check always ends with a verdict, which depends on the log alone. *)
Lemma check_and_record_spec now partial w :
  exists w', check_and_record_at g now partial w = (Ok (reached g (kept_chain g now (loaded w) ++ [now])%list), w').
Proof.
  unfold check_and_record_at, bind. destruct (record_boot_spec now partial w) as [w' ->]. exists w'. simpl.
  by rewrite reached_retained.
Qed.

(** What is kept of the log: of the past boots, the last ones that are linked to
    each other and to [now], and no fewer; boots later than [now] among them are
    kept too.  The guard trips when they and this boot reach the limit, and the
    log never outgrows the larger of 50 and the limit. *)
Theorem breaker_verdict now partial w :
  let kept := kept_chain g now (loaded w) in
  (exists dropped, rev (sort_by F64.total_le (loaded w)) = (rev kept ++ dropped)%list /\
    linked (gap_of g) now (past now (rev kept)) /\
    (dropped = [] \/
     exists b earlier, dropped = b :: earlier /\ F64.lt now b = false /\
       F64.lt (gap_of g) (F64.sub (List.last (past now (rev kept)) now) b) = true)) /\
  (check_and_record_at g now partial w).1 = Ok ((0 <? max_restarts g)%nat && (max_restarts g <=? S (length kept))%nat) /\
  exists boots, (record_boot_at g now partial w).1 = Ok boots /\ length boots <= Nat.max 50 (max_restarts g).
Proof.
  intros kept. split; [|split].
  - unfold kept, kept_chain. rewrite rev_involutive. apply chain_longest.
  - destruct (check_and_record_spec now partial w) as [w' ->]. simpl. unfold reached. by rewrite length_app, Nat.add_1_r.
  - destruct (record_boot_spec now partial w) as [w' ->]. eexists. split; [done|].
    destruct (retain_last_suffix (retained g) (kept_chain g now (loaded w) ++ [now])%list) as (k & _ & ->). unfold retained. lia.
Qed.

(** ** A sequence of boots *)

(** The verdicts of boots at these instants, no call failing. *)
Fixpoint boots_at (times : list f64) (d : Dir) : list (result bool OmonError) :=
  match times with
  | [] => []
  | now :: rest => let '(v, w) := check_and_record_at g now None (mkWorld d []) in v :: boots_at rest (st w)
  end.

(** The specification: the number of boots in a row at most a gap apart. *)
Fixpoint consecutive (last : option (f64 * nat)) (times : list f64) : list bool :=
  match times with
  | [] => []
  | now :: rest =>
      let n := match last with
               | Some (previous, k) => if F64.lt (gap_of g) (F64.sub now previous) then 1 else S k
               | None => 1
               end in
      ((0 <? max_restarts g)%nat && (max_restarts g <=? n)%nat) :: consecutive (Some (now, n)) rest
  end.

Definition in_order (a b : f64) : Prop := F64.total_le a b = true /\ F64.lt b a = false.
Definition near (a b : f64) : Prop := F64.lt (gap_of g) (F64.sub b a) = false.

(** The log holds the last boots of the current run. *)
Definition holds_run (last : option (f64 * nat)) (l : list f64) : Prop :=
  match last with
  | None => l = []
  | Some (t, n) => (exists l0, l = l0 ++ [t])%list /\ length l = Nat.min n (retained g) /\ Sorted near l
  end.

Definition usable (d : Dir) : Prop :=
  (forall n, n = path g \/ n = with_extension_tmp (path g) -> d !! n <> Some Directory) /\ path g <> with_extension_tmp (path g).

Lemma sorted_app_l {A} (R : A -> A -> Prop) l1 l2 : Sorted R (l1 ++ l2) -> Sorted R l1.
Proof.
  induction l1 as [|x l1 IH]; simpl; [by constructor|]. intros H1. apply Sorted_inv in H1 as [Hs Hh].
  constructor; [by apply IH|]. destruct l1; [constructor|]. apply HdRel_inv in Hh. by constructor.
Qed.

Lemma sorted_app_r {A} (R : A -> A -> Prop) l1 l2 : Sorted R (l1 ++ l2) -> Sorted R l2.
Proof. induction l1 as [|x l1 IH]; simpl; [done|]. intros H1. apply Sorted_inv in H1 as [Hs _]. by apply IH. Qed.

Lemma sorted_snoc2 {A} (R : A -> A -> Prop) l x y : Sorted R (l ++ [x]) -> R x y -> Sorted R (l ++ [x; y]).
Proof.
  induction l as [|z l IH]; simpl; intros Hs Hr; [repeat constructor; done|].
  apply Sorted_inv in Hs as [Hs Hh]. constructor; [by apply IH|].
  destruct l; apply HdRel_inv in Hh; by constructor.
Qed.

Lemma linked_rev l : forall t, Sorted near (l ++ [t]) -> linked (gap_of g) t (rev l).
Proof.
  induction l as [|u l IH] using rev_ind; intros t Hs; [done|]. rewrite rev_app_distr. simpl.
  rewrite <- app_assoc in Hs. simpl in Hs. split.
  - apply sorted_app_r, Sorted_inv in Hs as [_ Hh]. by apply HdRel_inv in Hh.
  - apply IH. apply (sorted_app_l _ _ [t]). by rewrite <- app_assoc.
Qed.

Lemma in_order_inv l1 l2 : StronglySorted in_order (l1 ++ l2) ->
  StronglySorted in_order l1 /\ StronglySorted in_order l2 /\ forall a b, a ∈ l1 -> b ∈ l2 -> in_order a b.
Proof.
  induction l1 as [|x l1 IH]; simpl; intros Hs.
  - split; [constructor|]. split; [done|]. by intros a b ?%not_elem_of_nil.
  - apply StronglySorted_inv in Hs as [Hs Hf]. destruct (IH Hs) as (H1 & H2 & Hc).
    apply Forall_app in Hf as [Hf1 Hf2]. split; [by constructor|]. split; [done|].
    intros a b [->|Ha]%elem_of_cons Hb; [|by apply Hc]. rewrite Forall_forall in Hf2. by apply Hf2.
Qed.

Lemma in_order_sorted l : StronglySorted in_order l -> Sorted (fun a b => F64.total_le a b = true) l.
Proof.
  induction 1 as [|x l _ IH Hf]; constructor; [done|]. destruct Hf as [|y l [? _] _]; by constructor.
Qed.

(** What a boot keeps of the run logged before it. *)
Lemma kept_of_run last l now : holds_run last l -> StronglySorted in_order (l ++ [now]) ->
  kept_chain g now l =
    match last with
    | Some (t, _) => if F64.lt (gap_of g) (F64.sub now t) then [] else l
    | None => []
    end.
Proof.
  unfold kept_chain. intros Hrun Hs. apply in_order_inv in Hs as (Hs & _ & Hlate).
  rewrite sort_by_sorted.
  2: by apply in_order_sorted.
  destruct last as [[t n]|]; [|by rewrite Hrun]. destruct Hrun as ([l0 ->] & _ & Hn).
  assert (Hall : Forall (fun b => F64.lt now b = false) (rev (l0 ++ [t]))).
  { apply Forall_forall. intros b Hb. apply (Hlate b now); [|by left]. by rewrite list_elem_of_In, in_rev, <- list_elem_of_In. }
  destruct (F64.lt (gap_of g) (F64.sub now t)) eqn:E.
  - rewrite rev_app_distr in *. simpl in *. apply Forall_cons in Hall as [-> _]. by rewrite E.
  - rewrite chain_all; [by rewrite rev_involutive|done|]. rewrite rev_app_distr. split; [done|]. by apply linked_rev.
Qed.

Context (printable : f64 -> Prop).
Hypothesis text_reads_back : forall l, Forall printable l -> exists raw, print_log l = Some raw /\ read_log raw = Some l.

Lemma save_then_load boots d : usable d -> Forall printable boots ->
  exists w', save_boots g boots None (mkWorld d []) = (Ok tt, w') /\ usable (st w') /\ loaded (mkWorld (st w') []) = boots.
Proof.
  intros [Hd Hne] Hp. destruct (text_reads_back _ Hp) as (raw & Hraw & Hread).
  unfold save_boots, bind. rewrite io_ok by done. simpl. rewrite Hraw. unfold write. simpl.
  assert (Ht : forall A (x y : A), match d !! with_extension_tmp (path g) with Some Directory => x | _ => y end = y).
  { intros A x y. specialize (Hd _ (or_intror eq_refl)). by destruct (d !! _) as [[]|]. }
  rewrite Ht. simpl. unfold rename. rewrite io_ok by done. simpl. rewrite lookup_insert_eq, lookup_insert_ne by done.
  assert (Hn : forall A (x y : A), match d !! path g with Some Directory => x | _ => y end = y).
  { intros A x y. specialize (Hd _ (or_introl eq_refl)). by destruct (d !! path g) as [[]|]. }
  rewrite Hn. simpl. eexists. split; [done|]. split.
  - split; [|done]. simpl. intros n [-> | ->]; [by rewrite lookup_insert_eq|]. by rewrite lookup_insert_ne, lookup_delete_eq.
  - unfold loaded, load_boots, bind, read_to_string. rewrite io_ok by done. simpl. rewrite lookup_insert_eq. simpl. by rewrite Hread.
Qed.

Lemma load_keeps w : (load_boots g w).2 = mkWorld (st w) (tail (faults w)).
Proof.
  unfold load_boots, bind, read_to_string. destruct (runs (faults w)) eqn:E.
  - rewrite io_ok by done. simpl. destruct (st w !! path g) as [[c|]|]; simpl; [by destruct (read_log c)|done..].
  - io_fails. done.
Qed.

(** One boot of the sequence: its verdict, and the run it leaves. *)
Lemma boot_step last l now rest d :
  usable d -> loaded (mkWorld d []) = l -> holds_run last l -> Forall printable (l ++ now :: rest) ->
  StronglySorted in_order (l ++ now :: rest) ->
  let n := match last with
           | Some (previous, k) => if F64.lt (gap_of g) (F64.sub now previous) then 1 else S k
           | None => 1
           end in
  exists w', check_and_record_at g now None (mkWorld d []) = (Ok ((0 <? max_restarts g)%nat && (max_restarts g <=? n)%nat), w') /\
  usable (st w') /\ exists l', loaded (mkWorld (st w') []) = l' /\ holds_run (Some (now, n)) l' /\
  Forall printable (l' ++ rest) /\ StronglySorted in_order (l' ++ rest).
Proof.
  intros Hu Hl Hrun Hp Hs n. subst l.
  assert (Hkept : kept_chain g now (loaded (mkWorld d [])) =
    match last with Some (t, _) => if F64.lt (gap_of g) (F64.sub now t) then [] else loaded (mkWorld d []) | None => [] end).
  { apply kept_of_run; [done|]. rewrite cons_middle, app_assoc in Hs. by apply in_order_inv in Hs as [? _]. }
  set (l := loaded (mkWorld d [])) in *. set (kept := kept_chain g now l) in *.
  (* what stays is a suffix of the log and this boot *)
  assert (Hsuf : (exists k, l ++ [now] = k ++ retain_last (retained g) (kept ++ [now]))%list).
  { destruct (retain_last_suffix (retained g) (kept ++ [now])%list) as (k & Hk & _).
    assert (exists k0, l = k0 ++ kept)%list as [k0 Hk0].
    { rewrite Hkept. destruct last as [[t m]|]; [destruct (F64.lt _ _)|]; [exists l|by exists []|exists l]; by rewrite app_nil_r. }
    exists (k0 ++ k)%list. rewrite Hk0 at 1. by rewrite <- !app_assoc, <- Hk. }
  destruct Hsuf as [k Hk].
  assert (Hrest : (l ++ now :: rest = k ++ retain_last (retained g) (kept ++ [now]) ++ rest)%list).
  { by rewrite cons_middle, app_assoc, Hk, <- app_assoc. }
  rewrite Hrest in Hp, Hs. apply Forall_app in Hp as [_ Hp]. apply in_order_inv in Hs as (_ & Hs & _).
  assert (Hpk : Forall printable (retain_last (retained g) (kept ++ [now]))).
  { by apply Forall_app in Hp as [? _]. }
  destruct (save_then_load _ d Hu Hpk) as (w2 & Hsave & Hu2 & Hload).
  assert (Hlen : length (kept ++ [now]) = S (Nat.min (n - 1) (retained g))).
  { rewrite length_app, Hkept. unfold n. destruct last as [[t m]|]; simpl; [|done]. destruct Hrun as (_ & Hlen & _).
    destruct (F64.lt _ _); simpl; [done|]. rewrite Hlen, Nat.sub_0_r. lia. }
  assert (Hn : 1 <= n) by by unfold n; destruct last as [[t m]|]; [destruct (F64.lt _ _)|]; lia.
  exists w2. split; [|split; [done|]].
  - unfold check_and_record_at, record_boot_at, boot_chain_at, bind.
    destruct (load_boots g (mkWorld d [])) as [[l1|e] w1] eqn:El; [|by destruct (load_boots_spec (mkWorld d [])) as (? & ? & ? & _); congruence].
    assert (w1 = mkWorld d []) as -> by by pose proof (load_keeps (mkWorld d [])) as Hw; rewrite El in Hw.
    assert (l1 = l) as -> by by unfold l, loaded; rewrite El. simpl. fold kept. rewrite Hsave. simpl.
    rewrite reached_retained. unfold reached, ret. rewrite Hlen. do 3 f_equal.
    apply Bool.eq_iff_eq_true. rewrite !Nat.leb_le. unfold retained. lia.
  - exists (retain_last (retained g) (kept ++ [now])%list). split; [done|]. split; [|done].
    destruct (retain_last_suffix (retained g) (kept ++ [now])%list) as (k1 & Hk1 & Hl1). split; [|split].
    + destruct (exists_last (l := retain_last (retained g) (kept ++ [now])%list)) as (r & x & Er).
      { intros E. rewrite E, Hlen in Hl1. unfold retained in Hl1. simpl in Hl1. lia. }
      exists r. rewrite Er, app_assoc in Hk1. apply app_inj_tail in Hk1 as [_ Ex]. by rewrite Er, Ex.
    + rewrite Hl1, Hlen. unfold retained. lia.
    + apply (sorted_app_r _ k1). rewrite <- Hk1, Hkept. destruct last as [[t m]|]; [|by repeat constructor].
      destruct (F64.lt _ _) eqn:E; [by repeat constructor|]. destruct Hrun as ([l0 Hl0] & _ & Hnear). fold l. rewrite Hl0 in *.
      rewrite <- app_assoc. by apply sorted_snoc2.
Qed.

Lemma boots_from last l times : forall d,
  usable d -> loaded (mkWorld d []) = l -> holds_run last l -> Forall printable (l ++ times) ->
  StronglySorted in_order (l ++ times) -> boots_at times d = map Ok (consecutive last times).
Proof.
  revert last l. induction times as [|now rest IH]; intros last l d Hu Hl Hrun Hp Hs; [done|]. simpl.
  destruct (boot_step last l now rest d Hu Hl Hrun Hp Hs) as (w & -> & Hu' & l' & Hl' & Hrun' & Hp' & Hs'). f_equal.
  by apply (IH _ l').
Qed.

(** The breaker counts the boots in a row.  From an empty log, boots in order
    of time and no call failing, the guard trips at a boot exactly when it and
    the boots right before it, each at most the gap (300 seconds, or the window
    when that is longer) after the last, number at least the limit, however long
    the sequence is and although the log keeps only its last boots; with a limit
    of zero it never trips. *)
Theorem breaker_counts_consecutive times d :
  usable d -> loaded (mkWorld d []) = [] -> Forall printable times -> StronglySorted in_order times ->
  boots_at times d = map Ok (consecutive None times).
Proof. intros Hu Hl Hp Hs. by apply (boots_from None []). Qed.
End GuardFacts.

(** ** Witnesses and findings *)

#[export] Instance spec_float_eq_dec : EqDecision SpecFloat.spec_float.
Proof. solve_decision. Defined.

#[export] Instance spec_float_countable : Countable SpecFloat.spec_float.
Proof.
  refine (inj_countable'
    (fun x : SpecFloat.spec_float => match x with
      | SpecFloat.S754_zero s => inl (inl s) | SpecFloat.S754_infinity s => inl (inr s)
      | SpecFloat.S754_nan => inr (inl ()) | SpecFloat.S754_finite s m e => inr (inr (s, m, e)) end)
    (fun y => match y with
      | inl (inl s) => SpecFloat.S754_zero s | inl (inr s) => SpecFloat.S754_infinity s
      | inr (inl _) => SpecFloat.S754_nan | inr (inr (s, m, e)) => SpecFloat.S754_finite s m e end) _).
  by intros [].
Defined.

#[export] Instance coded_log : BootLogText := {
  print_log l := Some (code_of (A := list SpecFloat.spec_float) l);
  read_log := read_code (A := list SpecFloat.spec_float)
}.

Definition guard : RestartLoopGuard := new "state/restart_loop.json".
Definition at_seconds (l : list Z) : list f64 := map F64.of_Z l.

Example guard_temp : with_extension_tmp (path guard) = "state/restart_loop.tmp".
Proof. reflexivity. Qed.

(** A decision procedure for the order of instants, to evaluate. *)
Fixpoint in_order_b (l : list f64) : bool :=
  match l with
  | [] => true
  | a :: rest => forallb (fun b => F64.total_le a b && negb (F64.lt b a)) rest && in_order_b rest
  end.
Lemma in_order_b_sound l : in_order_b l = true -> StronglySorted in_order l.
Proof.
  induction l as [|a l IH]; simpl; [by constructor|]. intros [Hf Hr]%andb_true_iff. constructor; [by apply IH|].
  apply Forall_forall. intros b Hb. rewrite forallb_forall in Hf. apply list_elem_of_In, Hf in Hb.
  apply andb_true_iff in Hb as [? ?%negb_true_iff]. by split.
Qed.

Lemma breaker_counts_consecutive_witness :
  boots_at guard (at_seconds [0; 150; 300; 600; 901; 1000]%Z) ∅ = map Ok [false; false; true; true; false; false].
Proof.
  rewrite (breaker_counts_consecutive guard (fun _ => True)).
  - by vm_compute.
  - intros l _. eexists. split; [reflexivity|apply read_code_of].
  - split; [|done]. intros n _. by rewrite lookup_empty.
  - reflexivity.
  - by apply Forall_true.
  - by apply in_order_b_sound.
Defined.

(** Boots logged before the clock was set back are later than [now]: they count,
    however far they are, and so a single interrupted boot trips the breaker. *)
Theorem future_boots_trip :
  let log := at_seconds [100000; 200000]%Z in
  kept_chain guard (F64.of_Z 0) log = log /\
  reached guard (kept_chain guard (F64.of_Z 0) log ++ [F64.of_Z 0])%list = true.
Proof. by vm_compute. Qed.
