(* ===== verification/Jobs.v ===== *)
(** * Hermes jobs and their destinations ([src/cron/store.rs], [scheduler.rs])

    The job of a cron payload as serde decodes it, its schedule expression, its
    checks, and the Discord channels its output goes to. *)
From stdpp Require Import base list strings option.
From Stdlib Require Import ZArith NArith Lia Ascii String.
From S2P Require Import Prelude RustStr Db Session Ledger Json Schedule Cron.
Open Scope string_scope.
Open Scope omon_scope.
Local Notation length := Datatypes.length.

(** ** The structures *)

Record HermesSchedule : Type := mkSchedule {
  kind : string;
  expr : option string;
  sch_minutes : option N;
  run_at : option string;
  display : option string;
  timezone : option string;
  sch_extra : list (string * value)
}.

Record HermesOrigin : Type := mkOrigin {
  og_platform : string;
  og_chat_id : string;
  og_thread_id : option string;
  og_user_id : option string;
  og_chat_name : option string;
  og_bot_id : option string;
  og_extra : list (string * value)
}.

Record HermesRepeat : Type := mkRepeat { times : option N; completed : N }.

Record HermesJob : Type := mkHermesJob {
  hj_id : string;
  hj_name : string;
  prompt : string;
  skills : list string;
  skill : option string;
  hj_model : option string;
  provider : option string;
  base_url : option string;
  script : option string;
  no_agent : bool;
  ack_command : option string;
  context_from : option value;
  schedule : HermesSchedule;
  schedule_display : string;
  repeat : HermesRepeat;
  hj_enabled : bool;
  hj_state : string;
  hj_created_at : option string;
  hj_next_run_at : option string;
  last_run_at : option string;
  last_status : option string;
  last_error : option string;
  last_delivery_error : option string;
  deliver : option (list string);
  failure_deliver : option (list string);
  origin : option HermesOrigin;
  hj_toolsets : option (list string);
  workdir : option string;
  attach_to_session : option bool;
  timeout_secs : option N;
  monitor_script : option string;
  monitor_url : option string;
  monitor_state : option string;
  hj_extra : list (string * value)
}.

(** ** [serde_json::from_value]

    A missing field takes its default; [None] is a decoding error. *)

Definition required {A} (name : string) (decode : value -> option A) (m : list (string * value)) : option A :=
  assoc_get name m ≫= decode.
Definition defaulted {A} (name : string) (decode : value -> option A) (absent : A) (m : list (string * value)) : option A :=
  match assoc_get name m with None => Some absent | Some v => decode v end.
Definition nullable {A} (decode : value -> option A) (v : value) : option (option A) :=
  match v with JNull => Some None | _ => Some <$> decode v end.
Definition list_of {A} (decode : value -> option A) (v : value) : option (list A) :=
  match v with JArray l => mapM decode l | _ => None end.
Definition optional_text (name : string) (m : list (string * value)) : option (option string) :=
  defaulted name (nullable as_str) None m.

(** [#[serde(flatten)]]: the members no field names. *)
Definition rest_of (names : list string) (m : list (string * value)) : list (string * value) :=
  List.filter (fun p => negb (existsb (String.eqb p.1) names)) m.

Definition decode_schedule (v : value) : option HermesSchedule :=
  match v with
  | JObject m =>
      k ← required "kind" as_str m;
      e ← optional_text "expr" m;
      n ← defaulted "minutes" (nullable as_u64) None m;
      r ← optional_text "run_at" m;
      d ← optional_text "display" m;
      t ← optional_text "timezone" m;
      Some (mkSchedule k e n r d t (rest_of ["kind"; "expr"; "minutes"; "run_at"; "display"; "timezone"] m))
  | _ => None
  end.

Definition decode_origin (v : value) : option HermesOrigin :=
  match v with
  | JObject m =>
      p ← required "platform" as_str m;
      c ← required "chat_id" as_str m;
      t ← optional_text "thread_id" m;
      u ← optional_text "user_id" m;
      n ← optional_text "chat_name" m;
      b ← optional_text "bot_id" m;
      Some (mkOrigin p c t u n b (rest_of ["platform"; "chat_id"; "thread_id"; "user_id"; "chat_name"; "bot_id"] m))
  | _ => None
  end.

Definition decode_repeat (v : value) : option HermesRepeat :=
  match v with
  | JObject m =>
      t ← defaulted "times" (nullable as_u64) None m;
      c ← defaulted "completed" as_u64 0%N m;
      Some (mkRepeat t c)
  | JArray [] => Some (mkRepeat None 0)
  | JArray [t] => t ← nullable as_u64 t; Some (mkRepeat t 0)
  | JArray [t; c] => t ← nullable as_u64 t; c ← as_u64 c; Some (mkRepeat t c)
  | _ => None
  end.

Definition comma_items (s : string) : list string :=
  List.filter (fun p => negb (String.eqb p "")) (map trim (split_char "," s)).

Definition deserialize_deliver (v : value) : option (option (list string)) :=
  match v with
  | JNull => Some None
  | JString s => Some (match comma_items s with [] => None | items => Some items end)
  | JArray l =>
      l ← mapM as_str l;
      Some (match List.concat (map comma_items l) with [] => None | items => Some items end)
  | _ => None
  end.

Definition TIMEOUT_NAMES : list string :=
  ["timeout_secs"; "timeout"; "timeout_seconds"; "script_timeout"; "script_timeout_seconds"].

(** A field with aliases: two of them present are a duplicate. *)
Definition aliased {A} (names : list string) (decode : value -> option A) (absent : A) (m : list (string * value)) : option A :=
  match List.filter (fun p => existsb (String.eqb p.1) names) m with
  | [] => Some absent
  | [(_, v)] => decode v
  | _ => None
  end.

Definition JOB_FIELDS : list string :=
  ["id"; "name"; "prompt"; "skills"; "skill"; "model"; "provider"; "base_url"; "script"; "no_agent"; "ack_command";
   "context_from"; "schedule"; "schedule_display"; "repeat"; "enabled"; "state"; "created_at"; "next_run_at"; "last_run_at";
   "last_status"; "last_error"; "last_delivery_error"; "deliver"; "failure_deliver"; "origin"; "enabled_toolsets"; "workdir";
   "attach_to_session"; "monitor_script"; "monitor_url"; "monitor_state"] ++ TIMEOUT_NAMES.

Definition decode_job (v : value) : option HermesJob :=
  match v with
  | JObject m =>
      f_id ← required "id" as_str m;
      f_name ← defaulted "name" as_str "" m;
      f_prompt ← defaulted "prompt" as_str "" m;
      f_skills ← defaulted "skills" (list_of as_str) [] m;
      f_skill ← optional_text "skill" m;
      f_model ← optional_text "model" m;
      f_provider ← optional_text "provider" m;
      f_base_url ← optional_text "base_url" m;
      f_script ← optional_text "script" m;
      f_no_agent ← defaulted "no_agent" as_bool false m;
      f_ack ← optional_text "ack_command" m;
      f_context ← defaulted "context_from" (nullable Some) None m;
      f_schedule ← required "schedule" decode_schedule m;
      f_display ← defaulted "schedule_display" as_str "" m;
      f_repeat ← defaulted "repeat" decode_repeat (mkRepeat None 0) m;
      f_enabled ← defaulted "enabled" as_bool true m;
      f_state ← defaulted "state" as_str "" m;
      f_created ← optional_text "created_at" m;
      f_next ← optional_text "next_run_at" m;
      f_last_run ← optional_text "last_run_at" m;
      f_last_status ← optional_text "last_status" m;
      f_last_error ← optional_text "last_error" m;
      f_last_delivery ← optional_text "last_delivery_error" m;
      f_deliver ← defaulted "deliver" deserialize_deliver None m;
      f_failure ← defaulted "failure_deliver" deserialize_deliver None m;
      f_origin ← defaulted "origin" (nullable decode_origin) None m;
      f_toolsets ← defaulted "enabled_toolsets" (nullable (list_of as_str)) None m;
      f_workdir ← optional_text "workdir" m;
      f_attach ← defaulted "attach_to_session" (nullable as_bool) None m;
      f_timeout ← aliased TIMEOUT_NAMES (nullable as_u64) None m;
      f_mscript ← optional_text "monitor_script" m;
      f_murl ← optional_text "monitor_url" m;
      f_mstate ← optional_text "monitor_state" m;
      Some (mkHermesJob f_id f_name f_prompt f_skills f_skill f_model f_provider f_base_url f_script f_no_agent f_ack
        f_context f_schedule f_display f_repeat f_enabled f_state f_created f_next f_last_run f_last_status f_last_error
        f_last_delivery f_deliver f_failure f_origin f_toolsets f_workdir f_attach f_timeout f_mscript f_murl f_mstate
        (rest_of JOB_FIELDS m))
  | _ => None
  end.

(** ** Reading a job *)

Definition text_of (v : value) : option string :=
  match as_str v with
  | Some s => if String.eqb (trim s) "" then None else Some (trim s)
  | None =>
      match v with
      | JPos n => Some (show_N n)
      | JNeg z => Some ("-" ++ show_N (Z.to_N (- z)))
      | _ => None
      end
  end.

(** [a.or_else(|| b)] over lookups of names, the first present one. *)
Fixpoint first_of (names : list string) (m : list (string * value)) : option value :=
  match names with
  | [] => None
  | n :: rest => match assoc_get n m with Some v => Some v | None => first_of rest m end
  end.

Definition configured_discord_home (j : HermesJob) : option (string * option string) :=
  let channel := first_of ["home_channel"; "discord_home_channel"; "_omon_discord_home_channel"; "home"; "channel_id"] (hj_extra j) ≫= text_of in
  let thread := first_of ["thread_id"; "discord_thread_id"; "_omon_discord_home_thread"] (hj_extra j) ≫= text_of in
  match channel with
  | Some ch => Some (ch, thread)
  | None =>
      match assoc_get "discord" (hj_extra j) with
      | Some (JObject d) =>
          let ch := first_of ["channel"; "home_channel"; "channel_id"] d ≫= text_of in
          let th := assoc_get "thread_id" d ≫= text_of in
          match ch with Some ch => Some (ch, th) | None => None end
      | _ => None
      end
  end.

Definition job_expression (j : HermesJob) : result string OmonError :=
  let incomplete := Err (Config ("Hermes job " ++ hj_id j ++ " has an incomplete schedule")) in
  let s := schedule j in
  if String.eqb (kind s) "cron" then
    match expr s with Some e => if String.eqb (trim e) "" then incomplete else Ok e | None => incomplete end
  else if String.eqb (kind s) "interval" then
    match sch_minutes s with Some n => Ok ("interval:" ++ show_N n ++ "m") | None => incomplete end
  else if String.eqb (kind s) "once" then
    match run_at s with Some r => Ok ("once:" ++ r) | None => incomplete end
  else Err (Config ("unsupported Hermes schedule kind `" ++ kind s ++ "` for job " ++ hj_id j)).

Definition hermes_profile (j : HermesJob) : string :=
  let of_origin :=
    match origin j with
    | Some o =>
        match og_bot_id o with
        | Some b => if String.eqb b "" then (if String.eqb (og_platform o) "" then "default" else og_platform o) else b
        | None => if String.eqb (og_platform o) "" then "default" else og_platform o
        end
    | None => "default"
    end in
  match assoc_get "profile" (hj_extra j) ≫= as_str with
  | Some p => if String.eqb p "" then of_origin else p
  | None => of_origin
  end.

(** ** Destinations *)

Definition eq_ignore_ascii_case (a b : string) : bool := String.eqb (to_ascii_lowercase a) (to_ascii_lowercase b).

(** [s.len() >= 8 && s[..8].eq_ignore_ascii_case("discord:")], the text after the
    eight bytes; slicing inside a character panics. *)
Definition discord_prefixed (s : string) : result (option string) OmonError :=
  if (8 <=? len s)%nat then
    if is_char_boundary 8 s then
      Ok (if eq_ignore_ascii_case (take_str 8 s) "discord:" then Some (drop_str 8 s) else None)
    else Err (Panicked "byte index 8 is not a char boundary")
  else Ok None.

(** The loop of [check_targets]. *)
Fixpoint explicit_among (targets : list string) : result bool OmonError :=
  match targets with
  | [] => Ok false
  | t :: rest =>
      p <-? discord_prefixed (trim t) ;;
      match p with
      | Some r => if String.eqb (trim r) "" then explicit_among rest else Ok true
      | None => explicit_among rest
      end
  end.

Definition has_explicit_discord_destination (j : HermesJob) : result bool OmonError :=
  b <-? explicit_among (default [] (deliver j)) ;;
  if b : bool then Ok true else explicit_among (default [] (failure_deliver j)).

(** The destinations found and the keys seen. *)
Definition Found : Type := (list HermesOrigin * list (string * option string))%type.

Definition is_seen (key : string * option string) (f : Found) : bool :=
  existsb (fun k => String.eqb k.1 key.1 && bool_decide (k.2 = key.2)) f.2.

Definition add (o : HermesOrigin) (f : Found) : Found :=
  let key := (og_chat_id o, og_thread_id o) in
  if is_seen key f then f else (f.1 ++ [o], f.2 ++ [key])%list.

Definition discord_to (bot : option string) (chat : string) (thread : option string) : HermesOrigin :=
  mkOrigin "discord" chat thread None None bot [].

Definition nonempty_thread (t : string) : option string := if String.eqb t "" then None else Some t.

(** [discord:...] with a rest. *)
Definition prefixed_target (rest : string) : string * option string :=
  match split_once ":" rest with
  | Some (c, t) => (trim_start_matches "#" (trim c), nonempty_thread (trim_start_matches "#" (trim t)))
  | None => (trim_start_matches "#" rest, None)
  end.

Definition usable_origin (o : HermesOrigin) : bool :=
  eq_ignore_ascii_case (og_platform o) "discord" && negb (String.eqb (og_chat_id o) "").

(** The job's origin, or its home channel. *)
Definition home_target (j : HermesJob) (bot : option string) : option HermesOrigin :=
  let configured := match configured_discord_home j with Some (ch, th) => Some (discord_to bot ch th) | None => None end in
  match origin j with
  | Some o => if usable_origin o then Some o else configured
  | None => configured
  end.

(** The destination a target names, if any: the body of the loop up to its
    [seen.insert]. *)
Definition target_of (j : HermesJob) (bot : option string) (part : string) : result (option HermesOrigin) OmonError :=
  let trimmed := trim part in
  if String.eqb trimmed "" || eq_ignore_ascii_case trimmed "local" then Ok None
  else
    p <-? discord_prefixed trimmed ;;
    match p with
    | Some tail =>
        let rest := trim tail in
        if String.eqb rest "" then Ok (home_target j bot)
        else
          let '(chat_id, thread_id) := prefixed_target rest in
          if String.eqb chat_id "" then Ok None else Ok (Some (discord_to bot chat_id thread_id))
    | None =>
        if eq_ignore_ascii_case trimmed "origin" || eq_ignore_ascii_case trimmed "all" || eq_ignore_ascii_case trimmed "discord"
        then Ok (home_target j bot)
        else
          match split_once ":" trimmed with
          | Some (before, after) =>
              let left_trimmed := trim_start_matches "#" (trim before) in
              let right_trimmed := trim_start_matches "#" (trim after) in
              if all_bytes is_digit left_trimmed && all_bytes is_digit right_trimmed
              then Ok (Some (discord_to bot left_trimmed (nonempty_thread right_trimmed)))
              else Ok None
          | None =>
              let chat_id := trim (trim_start_matches "#" trimmed) in
              if negb (String.eqb chat_id "") && all_bytes is_digit chat_id
              then Ok (Some (discord_to bot chat_id None)) else Ok None
          end
    end.

Definition add_found (t : option HermesOrigin) (f : Found) : Found := match t with Some o => add o f | None => f end.

Fixpoint add_targets (j : HermesJob) (bot : option string) (parts : list string) (f : Found) : result Found OmonError :=
  match parts with
  | [] => Ok f
  | part :: rest => t <-? target_of j bot part ;; add_targets j bot rest (add_found t f)
  end.

Definition targets_of (j : HermesJob) : list string := match deliver j with Some (t :: l) => t :: l | _ => ["origin"] end.

Definition destination_bot (j : HermesJob) : option string :=
  match origin j ≫= og_bot_id with
  | Some b => Some b
  | None => assoc_get "bot_id" (hj_extra j) ≫= as_str
  end.

Definition discord_destinations (j : HermesJob) : result (list HermesOrigin) OmonError :=
  f <-? add_targets j (destination_bot j) (targets_of j) ([], []) ;;
  Ok f.1.

Definition with_deliver (d : option (list string)) (j : HermesJob) : HermesJob :=
  mkHermesJob (hj_id j) (hj_name j) (prompt j) (skills j) (skill j) (hj_model j) (provider j) (base_url j) (script j) (no_agent j)
    (ack_command j) (context_from j) (schedule j) (schedule_display j) (repeat j) (hj_enabled j) (hj_state j) (hj_created_at j)
    (hj_next_run_at j) (last_run_at j) (last_status j) (last_error j) (last_delivery_error j) d (failure_deliver j) (origin j)
    (hj_toolsets j) (workdir j) (attach_to_session j) (timeout_secs j) (monitor_script j) (monitor_url j) (monitor_state j) (hj_extra j).

Definition failure_destinations (j : HermesJob) : result (list HermesOrigin) OmonError :=
  match failure_deliver j with
  | Some l => discord_destinations (with_deliver (Some l) j)
  | None => discord_destinations j
  end.

Definition discord_destination (j : HermesJob) : result (option HermesOrigin) OmonError :=
  l <-? discord_destinations j ;; Ok (head l).

(** ** Destinations of a payload ([scheduler.rs]) *)

Definition channel_text (v : value) : option string :=
  match as_u64 v with Some n => Some (show_N n) | None => as_str v end.

(** A payload's own target list, which knows fewer forms than a Hermes job's. *)
Definition part_of (payload : value) (part : string) : option HermesOrigin :=
  let part := trim part in
  if String.eqb part "" || String.eqb part "local" then None
  else if String.eqb part "origin" || String.eqb part "all" || String.eqb part "discord" then
    match get "origin" payload ≫= decode_origin with
    | Some o => if usable_origin o then Some o else None
    | None => None
    end
  else
    match strip_prefix "discord:" part with
    | Some channel =>
        let chat_id := trim (trim_start_matches "#" channel) in
        if String.eqb chat_id "" then None else Some (discord_to None chat_id None)
    | None =>
        match find_char ":" part with
        | Some _ => None
        | None =>
            let chat_id := trim (trim_start_matches "#" part) in
            if String.eqb chat_id "" then None else Some (discord_to None chat_id None)
        end
    end.

Definition channel_of (payload : value) : option HermesOrigin :=
  match get "channel_id" payload ≫= channel_text with
  | Some c => if String.eqb (trim c) "" then None else Some (discord_to None (trim c) None)
  | None => None
  end.

Definition deliver_text (payload : value) : option string :=
  match get "deliver" payload with
  | Some v =>
      match as_str v with
      | Some s => Some s
      | None => match as_array v with Some l => Some (join "," (omap as_str l)) | None => None end
      end
  | None => None
  end.

Definition delivery_destinations (payload : value) : result (list HermesOrigin) OmonError :=
  match get "schedule" payload with
  | Some _ =>
      match decode_job payload with
      | Some job => discord_destinations job
      | None => Err (Config "invalid Hermes cron payload") (* and the decoder's words *)
      end
  | None =>
      let f := add_found (channel_of payload) ([], []) in
      Ok (match deliver_text payload with
          | Some d => fold_left (fun f part => add_found (part_of payload part) f) (split_char "," d) f
          | None => f
          end).1
  end.

(** ** Checks before import *)

Record ValidatedHermesJob : Type := mkValidated {
  v_expression : string;
  effective_timezone : option string;
  computed_next : option Z
}.

Section Validate.
Context `{CronLibs} `{PayloadGuard}.
(** What a script under the job's home holds, when it can be read. *)
Context (read_script : string -> string -> option string).

Definition parse_timestamp (v : string) : result Z OmonError :=
  match parse_rfc3339 v with
  | Ok t => Ok t
  | Err e => Err (Config ("invalid Hermes timestamp `" ++ v ++ "`: " ++ e))
  end.

Definition lifecycle (context text : string) : result unit string :=
  match check_gateway_lifecycle text with Ok _ => Ok tt | Err e => Err (context ++ ": " ++ e) end.

Definition lifecycle_of (context : string) (o : option string) : result unit string :=
  match o with Some text => lifecycle context text | None => Ok tt end.

Definition script_body (j : HermesJob) : option string :=
  match script j, assoc_get "_omon_hermes_home" (hj_extra j) ≫= as_str with
  | Some s, Some home => read_script home s
  | _, _ => None
  end.

Definition validate (j : HermesJob) (default_timezone : option string) (now : Z) : result ValidatedHermesJob string :=
  if String.eqb (trim (hj_id j)) "" then Err "Hermes job has an empty id"
  else
    _ <-? lifecycle "gateway lifecycle violation" (prompt j) ;;
    _ <-? match scan_cron_prompt (prompt j) with
          | [] => Ok tt
          | threats => Err ("cron prompt injection detected: " ++ join "; " threats)
          end ;;
    _ <-? lifecycle_of "gateway lifecycle violation in script" (script j) ;;
    _ <-? lifecycle_of "gateway lifecycle violation in script body" (script_body j) ;;
    _ <-? match monitor_script j, monitor_url j with
          | Some _, Some _ => Err "conflicting monitor modes: both monitor_script and monitor_url are set"
          | _, _ => Ok tt
          end ;;
    _ <-? lifecycle_of "gateway lifecycle violation in monitor_script" (monitor_script j) ;;
    _ <-? lifecycle_of "gateway lifecycle violation in ack_command" (ack_command j) ;;
    expression <-? match job_expression j with Ok e => Ok e | Err e => Err (Ledger.error_text e) end ;;
    _ <-? match strip_prefix "once:" expression with
          | Some timestamp =>
              if is_ok (parse_timestamp timestamp) then Ok tt
              else Err ("malformed one-shot timestamp `" ++ timestamp ++ "` for job " ++ hj_id j)
          | None => Ok tt
          end ;;
    let tz := match timezone (schedule j) with Some z => Some z | None => default_timezone end in
    next <-? match next_run_tz expression now tz with
             | Ok next => Ok (Some next)
             | Err e =>
                 if starts_with "once:" expression then Ok None
                 else Err ("uncomputable schedule `" ++ expression ++ "` for job " ++ hj_id j ++ ": " ++ Ledger.error_text e)
             end ;;
    Ok (mkValidated expression tz next).
End Validate.

(** ** The destinations are the first of the targets *)

Definition place (o : HermesOrigin) : string * option string := (og_chat_id o, og_thread_id o).

Fixpoint resolve_targets (j : HermesJob) (bot : option string) (parts : list string) : result (list (option HermesOrigin)) OmonError :=
  match parts with
  | [] => Ok []
  | p :: rest => t <-? target_of j bot p ;; ts <-? resolve_targets j bot rest ;; Ok (t :: ts)
  end.

(** The targets a payload lists, in order, before repeated places are dropped. *)
Definition listed_targets (payload : value) : result (list (option HermesOrigin)) OmonError :=
  match get "schedule" payload with
  | Some _ =>
      match decode_job payload with
      | Some j =>
          resolve_targets j (destination_bot j) (targets_of j)
      | None => Err (Config "invalid Hermes cron payload")
      end
  | None => Ok (channel_of payload :: match deliver_text payload with Some d => map (part_of payload) (split_char "," d) | None => [] end)
  end.

(** What has been collected of the targets so far. *)
Definition collected (done : list HermesOrigin) (f : Found) : Prop :=
  f.2 = map place f.1 /\ NoDup (map place f.1) /\ f.1 `sublist_of` done /\ forall o, o ∈ done -> place o ∈ map place f.1.

Lemma is_seen_spec o f : is_seen (place o) f = true <-> place o ∈ f.2.
Proof.
  unfold is_seen. rewrite existsb_exists. split.
  - intros ((c & t) & Hin & [Hc%String.eqb_eq Ht%bool_decide_eq_true]%andb_true_iff). simpl in *. subst.
    by apply list_elem_of_In.
  - intros Hin. exists (place o). rewrite <- list_elem_of_In. split; [done|]. by rewrite String.eqb_refl, bool_decide_true.
Qed.

Lemma collected_add done f o : collected done f -> collected (done ++ [o]) (add o f).
Proof.
  intros (Hk & Hn & Hs & Hall). unfold add. fold (place o). destruct (is_seen (place o) f) eqn:E.
  - apply is_seen_spec in E. split; [done|]. split; [done|]. split; [by apply sublist_inserts_r|].
    intros o' [Ho'|Ho'%list_elem_of_singleton]%elem_of_app; [by apply Hall|]. subst. by rewrite <- Hk.
  - assert (Hnew : place o ∉ map place f.1). { rewrite <- Hk, <- is_seen_spec, E. done. }
    split; [|split; [|split]]; simpl; rewrite ?map_app; simpl.
    + by rewrite Hk.
    + by apply NoDup_snoc.
    + by apply sublist_app.
    + intros o' [Ho'|Ho'%list_elem_of_singleton]%elem_of_app; apply elem_of_app; [left; by apply Hall|subst; by right; left].
Qed.

Lemma collected_found done f t : collected done f -> collected (done ++ omap id [t]) (add_found t f).
Proof. destruct t as [o|]; simpl; [by apply collected_add|by rewrite app_nil_r]. Qed.

Lemma collected_targets j bot parts : forall done f f',
  collected done f -> add_targets j bot parts f = Ok f' ->
  exists ts, resolve_targets j bot parts = Ok ts /\ collected (done ++ omap id ts) f'.
Proof.
  induction parts as [|p parts IH]; intros done f f' Hc; simpl.
  - intros [= <-]. exists []. by rewrite app_nil_r.
  - destruct (target_of j bot p) as [t|e]; simpl; [|done]. intros Hf.
    destruct (IH _ _ _ (collected_found _ _ t Hc) Hf) as (ts & -> & Hts). exists (t :: ts). split; [done|].
    rewrite <- app_assoc in Hts. by destruct t.
Qed.

Lemma collected_fold payload parts : forall done f,
  collected done f -> collected (done ++ omap id (map (part_of payload) parts)) (fold_left (fun f part => add_found (part_of payload part) f) parts f).
Proof.
  induction parts as [|p parts IH]; intros done f Hc; simpl; [by rewrite app_nil_r|].
  specialize (IH _ _ (collected_found _ _ (part_of payload p) Hc)). rewrite <- app_assoc in IH.
  by destruct (part_of payload p).
Qed.

(** A job's output goes once to each place it names.  The destinations of a
    payload are its targets in order, less those whose channel and thread a
    target before them names: none is lost, none is repeated. *)
Theorem destinations_are_first_targets payload l :
  delivery_destinations payload = Ok l ->
  exists ts, listed_targets payload = Ok ts /\
  l `sublist_of` omap id ts /\ NoDup (map place l) /\ forall o, Some o ∈ ts -> place o ∈ map place l.
Proof.
  assert (Hempty : collected [] ([], [])).
  { split; [done|]. split; [constructor|]. split; [done|]. by intros o ?%not_elem_of_nil. }
  assert (Hdone : forall ts f, collected (omap id ts) f ->
    f.1 `sublist_of` omap id ts /\ NoDup (map place f.1) /\ forall o, Some o ∈ ts -> place o ∈ map place f.1).
  { intros ts f (_ & Hn & Hs & Hall). split; [done|]. split; [done|]. intros o Ho. apply Hall, list_elem_of_omap. by exists (Some o). }
  unfold delivery_destinations, listed_targets, discord_destinations. destruct (get "schedule" payload).
  - destruct (decode_job payload) as [j|]; [|done].
    destruct (add_targets j (destination_bot j) (targets_of j) ([], [])) as [f|e] eqn:Ef; simpl; [|done]. intros [= <-].
    destruct (collected_targets _ _ _ _ _ _ Hempty Ef) as (ts & -> & Hc). exists ts. split; [done|]. by apply Hdone.
  - intros [= <-]. eexists. split; [done|]. pose proof (collected_found _ _ (channel_of payload) Hempty) as Hc. apply Hdone.
    destruct (deliver_text payload) as [d|].
    + pose proof (collected_fold payload (split_char "," d) _ _ Hc) as Hf. by destruct (channel_of payload).
    + done.
Qed.

(** ** What validation lets through *)

Section ValidFacts.
Context `{CronLibs} `{PayloadGuard} (read_script : string -> string -> option string).

Definition harmless (o : option string) : Prop := forall text, o = Some text -> check_gateway_lifecycle text = Ok tt.

Lemma lifecycle_of_ok context o u : lifecycle_of context o = Ok u -> harmless o.
Proof. intros Hl text ->. simpl in Hl. unfold lifecycle in Hl. by destruct (check_gateway_lifecycle text) as [[]|]. Qed.

(** A validated job has an identity, asks nowhere for a restart of the gateway,
    carries no injected prompt, watches one thing at most, and its schedule gives
    a next run unless it is a one-shot job whose time has passed. *)
Theorem validated_jobs_are_safe j default_timezone now v :
  validate read_script j default_timezone now = Ok v ->
  trim (hj_id j) <> "" /\ scan_cron_prompt (prompt j) = [] /\
  harmless (Some (prompt j)) /\ harmless (script j) /\ harmless (script_body read_script j) /\
  harmless (monitor_script j) /\ harmless (ack_command j) /\ (monitor_script j = None \/ monitor_url j = None) /\
  job_expression j = Ok (v_expression v) /\
  match computed_next v with
  | Some next => next_run_tz (v_expression v) now (effective_timezone v) = Ok next
  | None => starts_with "once:" (v_expression v) = true
  end.
Proof.
  unfold validate. destruct (String.eqb_spec (trim (hj_id j)) ""); [done|].
  intros (u1 & H1 & (u2 & H2 & (u3 & H3 & (u4 & H4 & (u5 & H5 & (u6 & H6 & (u7 & H7 & (e & He & (u8 & _ & (next & Hn & [= <-])%rbind_ok)%rbind_ok)%rbind_ok)%rbind_ok)%rbind_ok)%rbind_ok)%rbind_ok)%rbind_ok)%rbind_ok)%rbind_ok.
  split; [done|]. split; [by destruct (scan_cron_prompt (prompt j))|].
  split; [by apply (lifecycle_of_ok "gateway lifecycle violation" (Some (prompt j)) u1)|].
  do 4 (split; [by eapply lifecycle_of_ok|]).
  split; [destruct (monitor_script j), (monitor_url j); by auto|]. simpl.
  destruct (job_expression j); [|done]. injection He as ->. split; [done|].
  destruct (next_run_tz e now _) as [t|]; [by injection Hn as <-|]. destruct (starts_with "once:" e) eqn:E; [|done]. by injection Hn as <-.
Qed.
End ValidFacts.

(** ** Witnesses and findings *)

Definition demo_hermes (targets : string) : value :=
  JObject [("deliver", JString targets); ("id", JString "j1"); ("schedule", JObject [("kind", JString "cron")])].

Lemma destinations_are_first_targets_witness :
  NoDup (map place [discord_to None "1" None; discord_to None "2" (Some "7"); discord_to None "2" None]).
Proof.
  destruct (destinations_are_first_targets (demo_hermes "discord:#1, 2:7, local, 1, #2, discord:2:7")
    [discord_to None "1" None; discord_to None "2" (Some "7"); discord_to None "2" None]) as (ts & _ & _ & Hn & _);
    [by vm_compute|exact Hn].
Defined.

(** A target whose eighth byte is inside a character panics the comparison with
    the prefix: a job delivered to a channel with such a name never runs. *)
Theorem non_ascii_target_panics :
  delivery_destinations (demo_hermes "공지사항") = Err (Panicked "byte index 8 is not a char boundary").
Proof. by vm_compute. Qed.

(** A thread without a channel is taken for a destination with no channel. *)
Theorem empty_channel_destination :
  delivery_destinations (demo_hermes ":7") = Ok [discord_to None "" (Some "7")].
Proof. by vm_compute. Qed.
