(* ===== verification/Delivery.v ===== *)
(** * Running a cron job and delivering its output

    [CronScheduler::execute_job] and [deliver] (src/cron/scheduler.rs), with the
    mirroring of what was delivered into a session's transcript (src/mirror.rs).
    What the job's agent or script returned is an argument, as are the answers of
    the outbound dispatcher and the order of the rows by their last update. *)
From stdpp Require Import base list strings option.
From Stdlib Require Import ZArith NArith Lia Ascii String.
From S2P Require Import Prelude RustStr Db Session Events Ledger Actor Json Schedule Cron Jobs.
Open Scope string_scope.
Open Scope db_scope.
Local Notation length := Datatypes.length.

(** The tables, what was handed to the dispatcher (in [dv_ledger]) and the
    acknowledgement commands run. *)
Record DeliveryStore : Type := mkDeliveryStore {
  dv_ledger : LedgerState;
  dv_messages : list MessageRow;
  dv_next_sequence : nat;
  dv_incidents : list CronIncident;
  acks : list string
}.

Notation "'D' T" := (M DeliveryStore T) (at level 10).

Definition put_ledger (l : LedgerState) (s : DeliveryStore) :=
  mkDeliveryStore l (dv_messages s) (dv_next_sequence s) (dv_incidents s) (acks s).
Definition put_messages (t : list MessageRow) (n : nat) (s : DeliveryStore) :=
  mkDeliveryStore (dv_ledger s) t n (dv_incidents s) (acks s).
Definition put_incidents f (s : DeliveryStore) :=
  mkDeliveryStore (dv_ledger s) (dv_messages s) (dv_next_sequence s) (f (dv_incidents s)) (acks s).
Definition put_acks f (s : DeliveryStore) :=
  mkDeliveryStore (dv_ledger s) (dv_messages s) (dv_next_sequence s) (dv_incidents s) (f (acks s)).

(** An operation of the delivery ledger, on the same connection. *)
Definition with_ledger {T} (m : M LedgerState T) : D T := zoom dv_ledger put_ledger m.

Section Delivery.
Context `{Sqlite} `{CronLibs}.
(** [ORDER BY updated_at DESC]. *)
Context (by_recency : list SessionRow -> list SessionRow).
(** The dispatcher, when there is one; the process and its start stamp. *)
Context (dispatcher : option (list OutboundAction -> OutboundAction -> result unit OmonError)) (pid : Z) (started : string).

(** ** Mirroring ([mirror.rs]) *)

Definition session_row (key : string) : D (option string) :=
  query (fun s => sr_key <$> head (select (fun r => String.eqb (sr_key r) key) (sessions (dv_ledger s)))).

Definition insert_mirror (id key role content metadata : string) (now : Z) (s : DeliveryStore) : result unit OmonError * DeliveryStore :=
  if negb (has_session key (dv_ledger s)) then (Err (Database (constraint_error "messages.session_key")), s)
  else if existsb (fun r => String.eqb (m_id r) id) (dv_messages s) then (Err (Database (constraint_error "messages.id")), s)
  else (Ok tt, put_messages (dv_messages s ++ [mkMessage (dv_next_sequence s) id key role content metadata now None])%list
                 (S (dv_next_sequence s)) s).

Definition mirror_metadata (source_label : option string) : value :=
  JObject [("mirror", JBool true); ("mirror_source", JString (default "out_of_band" source_label))].

Definition mirror_to_session (session_key role content : string) (source_label : option string) (uuid : string) (now : Z) : D bool :=
  let text := trim content in
  if String.eqb text "" then ret false
  else
    exists_ <- session_row session_key ;;
    match exists_ with
    | None => ret false
    | Some target =>
        exec (insert_mirror uuid target role text (print_json (mirror_metadata source_label)) now) ;;;
        attempt (stmt (fun s => (tt, s))) ;;;
        ret true
    end.

Definition extract_bot_id_from_session_key (key : string) : option string :=
  match from_storage_key key with
  | Ok k => bot_id k
  | Err _ => match split_char ":" key with _ :: bot :: _ :: _ :: _ => Some bot | _ => None end
  end.

Definition of_bot (bot : option string) (r : SessionRow) : bool :=
  match bot with
  | Some b => bool_decide (extract_bot_id_from_session_key (sr_key r) = Some b)
  | None => true
  end.

(** The row a query's answer is narrowed to: the user's own, else the most recent
    one unless, with no bot given, the rows belong to several bots. *)
Definition pick (user bot : option string) (rows : list SessionRow) : option string :=
  let matching := List.filter (of_bot bot) rows in
  match matching with
  | [] => None
  | first :: _ =>
      match user ≫= (fun u => List.find (fun r => String.eqb (user_id (sr_session r)) u) matching) with
      | Some r => Some (sr_key r)
      | None =>
          let bots := remove_dups (map (fun r => extract_bot_id_from_session_key (sr_key r)) matching) in
          if match bot with None => (1 <? length bots)%nat | Some _ => false end then None
          else Some (sr_key first)
      end
  end.

Definition on_channel (p chat : string) (r : SessionRow) : bool :=
  String.eqb (to_ascii_lowercase (platform (sr_session r))) p && String.eqb (channel_id (sr_session r)) chat.

Definition threadless (r : SessionRow) : bool :=
  match thread_id (sr_session r) with None => true | Some t => String.eqb t "" end.

Definition find_session_by_origin (p chat : string) (thread user bot : option string) : D (option string) :=
  let p := to_ascii_lowercase p in
  let rows q := query (fun s => by_recency (select q (sessions (dv_ledger s)))) in
  match thread with
  | Some tid =>
      l <- rows (fun r => on_channel p chat r && opt_eqb (thread_id (sr_session r)) (Some tid)) ;;
      ret (pick user bot l)
  | None =>
      l <- rows (fun r => on_channel p chat r && threadless r) ;;
      l <- match l with [] => rows (on_channel p chat) | _ => ret l end ;;
      ret (pick user bot l)
  end.

(** The test that a key belongs to a destination. *)
Definition key_fits (d : HermesOrigin) (k : SessionKey) : bool :=
  String.eqb (channel_id k) (og_chat_id d) && opt_eqb (thread_id k) (og_thread_id d)
  && match og_bot_id d with None => true | Some _ => opt_eqb (bot_id k) (og_bot_id d) end.

(** The session of a destination nobody has talked to. *)
Definition synthetic (platform_ : string) (d : HermesOrigin) (job : string) : SessionKey :=
  let k := new platform_ None (og_chat_id d) (og_thread_id d) (default ("cron:" ++ job) (og_user_id d)) in
  match og_bot_id d with Some b => with_bot_id k b | None => k end.

Definition mirror_cron_delivery_to_session (job : string) (job_session_key : option string) (d : HermesOrigin) (content uuid : string) (now : Z) : D bool :=
  own <- match job_session_key with
         | Some key =>
             match from_storage_key key with
             | Ok parsed => if key_fits d parsed then session_row key else ret None
             | Err _ => ret None
             end
         | None => ret None
         end ;;
  target <- match own with
            | Some k => ret k
            | None =>
                found <- find_session_by_origin (og_platform d) (og_chat_id d) (og_thread_id d)
                           (Some (default ("cron:" ++ job) (og_user_id d))) (og_bot_id d) ;;
                ret (match found with Some k => k | None => storage_key (synthetic (og_platform d) d job) end)
            end ;;
  mirror_to_session target "assistant" content (Some ("cron:" ++ job)) uuid now.

(** ** Delivery to one destination *)

Definition dispatch_out (a : OutboundAction) : D (result unit OmonError) :=
  match dispatcher with
  | Some answer => with_ledger (dispatch answer a)
  | None => ret (Ok tt)
  end.

(** The session the output is sent in. *)
Definition delivery_session (j : CronJob) (d : HermesOrigin) : SessionKey :=
  let session :=
    match job_session_key j ≫= (fun key => match from_storage_key key with Ok k => Some k | Err _ => None end) with
    | Some parsed => if key_fits d parsed then parsed else synthetic "discord" d (job_id j)
    | None => synthetic "discord" d (job_id j)
    end in
  match bot_id session with
  | None => if String.eqb (profile j) "" then session else with_bot_id session (profile j)
  | Some _ => session
  end.

Definition timestamp_millis (now : Z) : Z := (now / 1000000)%Z.
Definition obligation_id (j : CronJob) (now : Z) : string := "obl:cron:" ++ job_id j ++ ":" ++ show_Z (timestamp_millis now).

Definition attach_to_session_of (j : CronJob) : bool :=
  default true (match parse_json (payload_json j) with Ok p => get "attach_to_session" p ≫= as_bool | Err _ => None end).

(** The in-process notification, which has no reader with state, is left out. *)
Definition deliver (j : CronJob) (d : HermesOrigin) (content uuid : string) (now : Z) : D unit :=
  match parse_u64 (og_chat_id d) with
  | None => fail (Config ("invalid Discord channel ID: " ++ og_chat_id d))
  | Some _ =>
      let session := delivery_session j d in
      let obl_id := obligation_id j now in
      with_ledger (record_obligation pid started obl_id session content now) ;;;
      with_ledger (mark_obligation_attempting obl_id now) ;;;
      dispatch_result <- dispatch_out (SendMessage session content None) ;;
      match dispatch_result with
      | Ok _ => with_ledger (mark_obligation_delivered obl_id now)
      | Err e => with_ledger (mark_obligation_failed obl_id (error_text e) now)
      end ;;;
      lift dispatch_result ;;;
      if attach_to_session_of j then
        attempt (mirror_cron_delivery_to_session (job_id j) (job_session_key j) d content uuid now) ;;;
        ret tt
      else ret tt
  end.

(** ** Execution *)

(** The instants and the message ids of the deliveries of one execution. *)
Context (tick : nat -> Z) (uuid : nat -> string).
(** [to_uppercase] of a character that is not ASCII. *)
Context (unicode_upper : string -> string).

(** The errors of the deliveries, one attempt for each destination. *)
Fixpoint deliver_each (j : CronJob) (content : string) (i : nat) (l : list HermesOrigin) : D (list OmonError) :=
  match l with
  | [] => ret []
  | d :: rest =>
      r <- attempt (deliver j d content (uuid i) (tick i)) ;;
      errors <- deliver_each j content (S i) rest ;;
      ret (match r with Ok _ => errors | Err e => e :: errors end)
  end.

Definition job_payload (j : CronJob) : result value OmonError :=
  match parse_json (payload_json j) with Ok p => Ok p | Err e => Err (Config ("invalid cron payload: " ++ e)) end.

Definition ack_command_of (j : CronJob) : option string :=
  match parse_json (payload_json j) with
  | Ok p => match get "ack_command" p ≫= as_str with
            | Some c => if String.eqb (trim c) "" then None else Some c
            | None => None
            end
  | Err _ => None
  end.

(** What is delivered of a success: the result, or texts of the payload. *)
Definition output_content (payload : value) (result_content : option string) : option string :=
  match result_content with
  | Some c => Some c
  | None => match get "notification" payload ≫= as_str with
            | Some c => Some c
            | None => get "content" payload ≫= as_str
            end
  end.

Definition is_deliverable (content : string) : bool :=
  negb (String.eqb (trim content) "") && negb (is_cron_silence_response unicode_upper content).

Definition announce (j : CronJob) (destinations : list HermesOrigin) (content : string) : D unit :=
  match destinations with
  | [] => ret tt
  | _ =>
      if is_deliverable content then
        errors <- deliver_each j content 0 destinations ;;
        match errors with
        | first :: _ =>
            fail (Config ("delivery failed for " ++ show_N (N.of_nat (length errors)) ++ " of "
                          ++ show_N (N.of_nat (length destinations)) ++ " destinations: " ++ error_text first))
        | [] =>
            match ack_command_of j with
            | Some command => mem (fun s => (tt, put_acks (fun l => l ++ [command])%list s))
            | None => ret tt
            end
        end
      else ret tt
  end.

Definition of_incident (id signature : string) (r : CronIncident) : bool :=
  String.eqb (inc_job r) id && String.eqb (error_signature r) signature.

Definition upsert_incident (id signature now : string) (t : list CronIncident) : list CronIncident :=
  if existsb (of_incident id signature) t
  then update_where (of_incident id signature) (fun r => mkIncident (inc_job r) (error_signature r) (acknowledged r) now) t
  else (t ++ [mkIncident id signature false now])%list.

(** [unwrap_or_default] of an error is no destination; a panic goes on. *)
Definition failure_destinations_of (j : CronJob) (destinations : list HermesOrigin) : result (list HermesOrigin) OmonError :=
  match job_payload j with
  | Ok payload =>
      match decode_job payload with
      | Some h =>
          match failure_destinations h with
          | Ok l => Ok l
          | Err (Panicked m) => Err (Panicked m)
          | Err _ => Ok []
          end
      | None => Ok destinations
      end
  | Err _ => Ok destinations
  end.

Definition report_failure (j : CronJob) (destinations : list HermesOrigin) (error : OmonError) (now : string) : D unit :=
  let signature := error_text error in
  known <- attempt (query (fun s => acknowledged <$> head (select (of_incident (job_id j) signature) (dv_incidents s)))) ;;
  if match known with Ok (Some true) => true | _ => false end then ret tt
  else
    attempt (stmt (fun s => (tt, put_incidents (upsert_incident (job_id j) signature now) s))) ;;;
    targets <- lift (failure_destinations_of j destinations) ;;
    _ <- deliver_each j ("Cron job " ++ job_id j ++ " failed: " ++ signature) 0 targets ;;
    ret tt.

(** [execution] is what the executor returns for the job. *)
Definition execute_job (j : CronJob) (execution : result (option string) OmonError) (now : string) : D (option string) :=
  payload <- lift (job_payload j) ;;
  destinations <- lift (delivery_destinations payload) ;;
  explicit_ <- match dispatcher, decode_job payload with
               | None, Some h => lift (has_explicit_discord_destination h)
               | _, _ => ret false
               end ;;
  if explicit_ : bool then fail (Config ("unconfigured delivery transport: discord for job " ++ job_id j))
  else
    match execution with
    | Ok result_content =>
        let content := output_content payload result_content in
        match content with Some c => announce j destinations c | None => ret tt end ;;;
        attempt (stmt (fun s => (tt, put_incidents (delete_where (fun r => String.eqb (inc_job r) (job_id j))) s))) ;;;
        ret content
    | Err error => report_failure j destinations error now ;;; fail error
    end.
End Delivery.

(** ** What leaves the gateway *)

(** The actions dispatched so far and the acknowledgements run. *)
Definition log (o : list OutboundAction) (a : list string) (s : DeliveryStore) : Prop :=
  outbox (dv_ledger s) = o /\ acks s = a.

Lemma with_ledger_log {T} (m : M LedgerState T) o a :
  preserves (fun s => outbox s = o) m -> preserves (log o a) (with_ledger m).
Proof.
  intros Hm w [Ho Ha]. unfold with_ledger, zoom.
  specialize (Hm (mkWorld (dv_ledger (st w)) (faults w)) Ho). by destruct (m _).
Qed.

Lemma triple_pre {S A} (P P' : S -> Prop) (m : M S A) Q E :
  (forall s, P' s -> P s) -> triple P m Q E -> triple P' m Q E.
Proof. intros HP Hm w Hw. by apply Hm, HP. Qed.

Section DeliveryFacts.
Context `{Sqlite} `{CronLibs} (by_recency : list SessionRow -> list SessionRow).
Context (dispatcher : option (list OutboundAction -> OutboundAction -> result unit OmonError)) (pid : Z) (started : string).
Context (tick : nat -> Z) (uuid : nat -> string) (unicode_upper : string -> string).

Lemma record_obligation_quiet id k c now o : preserves (fun s => outbox s = o) (record_obligation pid started id k c now).
Proof.
  unfold record_obligation, Ledger.ensure_session. preserve_steps.
  - intros s Hs. by destruct (existsb _ _).
  - intros s Hs. unfold upsert_obligation. by repeat case_match.
Qed.

Lemma update_state_quiet id state e now o : preserves (fun s => outbox s = o) (update_obligation_state id state e now).
Proof. unfold update_obligation_state. preserve_steps; done. Qed.

Lemma mirror_quiet job key d c u now o a : preserves (log o a) (mirror_cron_delivery_to_session by_recency job key d c u now).
Proof.
  unfold mirror_cron_delivery_to_session, session_row, find_session_by_origin, mirror_to_session, session_row.
  preserve_steps; try done; intros ? ?; unfold insert_mirror; by repeat case_match.
Qed.

Definition send (j : CronJob) (c : string) (d : HermesOrigin) : OutboundAction := SendMessage (delivery_session j d) c None.

(** Each action is answered with success, in order. *)
Fixpoint accepted (answer : list OutboundAction -> OutboundAction -> result unit OmonError) (o l : list OutboundAction) : Prop :=
  match l with [] => True | x :: rest => answer o x = Ok tt /\ accepted answer (o ++ [x])%list rest end.

(** [sent] is all of [l], each accepted, when there is a dispatcher. *)
Definition all_accepted (o sent l : list OutboundAction) : Prop :=
  forall answer, dispatcher = Some answer -> sent = l /\ accepted answer o l.

Lemma dispatch_out_spec x o a :
  triple (log o a) (dispatch_out dispatcher x)
    (fun r s => exists sent, log (o ++ sent) a s /\ sent `sublist_of` [x] /\ (r = Ok tt -> all_accepted o sent [x])) (fun _ => False).
Proof.
  unfold dispatch_out. destruct dispatcher as [answer|] eqn:E.
  - intros w [<- <-]. unfold with_ledger, zoom, dispatch, mem. simpl. exists [x]. split; [done|]. split; [done|].
    intros Hr answer' Ha. rewrite E in Ha. injection Ha as <-. by split.
  - apply triple_ret. intros s Hs. exists []. rewrite app_nil_r. split; [done|]. split; [apply sublist_nil_l|]. intros _ answer' Ha. congruence.
Qed.

(** One delivery: at most its own message leaves; it succeeds only when that was
    accepted. *)
Lemma deliver_spec j d c u now o a :
  triple (log o a) (deliver by_recency dispatcher pid started j d c u now)
    (fun _ s => exists sent, log (o ++ sent) a s /\ sent `sublist_of` [send j c d] /\ all_accepted o sent [send j c d])
    (fun s => exists sent, log (o ++ sent) a s /\ sent `sublist_of` [send j c d]).
Proof.
  assert (Hnone : forall s, log o a s -> exists sent, log (o ++ sent) a s /\ sent `sublist_of` [send j c d]).
  { intros s Hs. exists []. rewrite app_nil_r. split; [done|apply sublist_nil_l]. }
  unfold deliver. destruct (parse_u64 (og_chat_id d)); [|by apply triple_fail].
  eapply triple_bind; [apply (triple_keep (log o a)); [apply with_ledger_log, record_obligation_quiet|exact Hnone]|].
  intros ?. eapply triple_bind; [apply (triple_keep (log o a)); [apply with_ledger_log, update_state_quiet|exact Hnone]|].
  intros ?. eapply triple_bind; [eapply triple_weaken; [apply dispatch_out_spec|done|intros ? ? Hx; exact Hx|done]|].
  intros r. simpl. apply triple_exists. intros sent.
  cbv beta.
  apply triple_pure. intros [Hsub Hacc].
  assert (Hsent : forall s, log (o ++ sent) a s -> exists sent, log (o ++ sent) a s /\ sent `sublist_of` [send j c d]) by eauto.
  eapply triple_bind.
  { apply (triple_keep (log (o ++ sent) a)); [destruct r; apply with_ledger_log, update_state_quiet|exact Hsent]. }
  intros ?. destruct r as [[]|e]; [|by apply triple_fail].
  eapply triple_bind; [by apply (triple_ret _ tt (fun _ => log (o ++ sent) a))|]. intros ?. destruct (attach_to_session_of j).
  - eapply triple_bind; [apply (triple_keep (log (o ++ sent) a)); [apply preserves_attempt, mirror_quiet|exact Hsent]|].
    intros ?. apply triple_ret. eauto.
  - apply triple_ret. eauto.
Qed.

Notation each := (deliver_each by_recency dispatcher pid started tick uuid).

Lemma accepted_app answer o l1 l2 : accepted answer o l1 -> accepted answer (o ++ l1)%list l2 -> accepted answer o (l1 ++ l2)%list.
Proof.
  revert o. induction l1 as [|x l1 IH]; intros o; simpl; [by rewrite app_nil_r|].
  intros [Hx H1] H2. split; [done|]. apply IH; [done|]. by rewrite <- app_assoc.
Qed.

Lemma all_accepted_app o s1 l1 s2 l2 :
  all_accepted o s1 l1 -> all_accepted (o ++ s1)%list s2 l2 -> all_accepted o (s1 ++ s2)%list (l1 ++ l2)%list.
Proof.
  intros H1 H2 answer Ha. destruct (H1 answer Ha) as [-> A1]. destruct (H2 answer Ha) as [-> A2].
  split; [done|]. by apply accepted_app.
Qed.

Lemma deliver_each_spec j c l : forall i o a,
  triple (log o a) (each j c i l)
    (fun errors s => exists sent, log (o ++ sent) a s /\ sent `sublist_of` map (send j c) l /\
       (errors = [] -> all_accepted o sent (map (send j c) l)))
    (fun _ => False).
Proof.
  induction l as [|d l IH]; intros i o a; simpl.
  - apply triple_ret. intros s Hs. exists []. rewrite app_nil_r. split; [done|]. split; [done|]. by intros _ answer _.
  - eapply triple_bind; [apply triple_attempt, deliver_spec|]. intros r. simpl.
    apply (triple_pre (fun s => exists sent, log (o ++ sent) a s /\
      (sent `sublist_of` [send j c d] /\ (is_ok r = true -> all_accepted o sent [send j c d])))).
    { intros s Hs. destruct r as [[]|e].
      - destruct Hs as (sent & Hl & Hsub & Hacc). by exists sent.
      - destruct Hs as (sent & Hl & Hsub). by exists sent. }
    apply triple_exists. intros sent1. apply triple_pure. intros [Hsub1 Hacc1].
    eapply triple_bind; [apply IH|]. intros errors. simpl. apply triple_ret.
    intros s (sent2 & Hlog & Hsub2 & Hacc2). exists (sent1 ++ sent2)%list. rewrite app_assoc. split; [done|].
    split; [by apply (sublist_app _ [send j c d] _ _)|]. intros Hr. destruct r; [|done].
    apply (all_accepted_app o sent1 [send j c d]); [by apply Hacc1|by apply Hacc2].
Qed.

(** What an execution sent, and the acknowledgements it ran. *)
Definition announced (j : CronJob) (destinations : list HermesOrigin) (c : string) (o sent : list OutboundAction) (ran : list string) : Prop :=
  sent `sublist_of` map (send j c) destinations /\
  (ran = [] \/ exists command, ack_command_of j = Some command /\ ran = [command] /\ is_deliverable unicode_upper c = true /\
     all_accepted o sent (map (send j c) destinations)).

Lemma announce_spec j destinations c o a :
  triple (log o a) (announce by_recency dispatcher pid started tick uuid unicode_upper j destinations c)
    (fun _ s => exists sent ran, log (o ++ sent) (a ++ ran) s /\ announced j destinations c o sent ran /\
       (is_deliverable unicode_upper c = true -> all_accepted o sent (map (send j c) destinations)))
    (fun s => exists sent, log (o ++ sent) a s /\ announced j destinations c o sent []).
Proof.
  assert (Hquiet : forall s, log o a s -> (is_deliverable unicode_upper c = true -> destinations = []) ->
    exists sent ran, log (o ++ sent) (a ++ ran) s /\ announced j destinations c o sent ran /\
       (is_deliverable unicode_upper c = true -> all_accepted o sent (map (send j c) destinations))).
  { intros s Hs Hd. exists [], []. rewrite !app_nil_r. split; [done|]. split; [split; [apply sublist_nil_l|by left]|].
    intros Hc. rewrite (Hd Hc). by intros answer _. }
  unfold announce. destruct destinations as [|d rest]; [by apply triple_ret; auto|].
  destruct (is_deliverable unicode_upper c) eqn:Ec; [|apply triple_ret; intros s Hs; by apply Hquiet].
  eapply triple_bind; [eapply triple_weaken; [apply deliver_each_spec|done|intros ? ? Hx; exact Hx|done]|].
  intros errors. cbv beta. apply triple_exists. intros sent. apply triple_pure. intros [Hsub Hacc].
  destruct errors as [|e errors].
  - specialize (Hacc eq_refl). destruct (ack_command_of j) as [command|] eqn:Ek.
    + apply triple_mem. intros s [Ho Ha]. exists sent, [command]. split; [by split; simpl; [|rewrite Ha]|].
      split; [|done]. split; [done|]. right. by exists command.
    + apply triple_ret. intros s Hs. exists sent, []. rewrite app_nil_r. split; [done|]. split; [|done]. split; [done|by left].
  - apply triple_fail. intros s Hs. exists sent. split; [done|]. split; [done|by left].
Qed.

Notation execute := (execute_job by_recency dispatcher pid started tick uuid unicode_upper).

(** Past its checks, an execution is what it does with the result. *)
Lemma execute_cases j execution payload destinations now w :
  job_payload j = Ok payload -> delivery_destinations payload = Ok destinations ->
  (exists e, execute j execution now w = (Err e, w)) \/
  execute j execution now w =
    match execution with
    | Ok result_content =>
        bind (match output_content payload result_content with Some c => announce by_recency dispatcher pid started tick uuid unicode_upper j destinations c | None => ret tt end)
          (fun _ => bind (attempt (stmt (fun s => (tt, put_incidents (delete_where (fun r => String.eqb (inc_job r) (job_id j))) s))))
             (fun _ => ret (output_content payload result_content)))
    | Err error => bind (report_failure by_recency dispatcher pid started tick uuid j destinations error now) (fun _ => fail error)
    end w.
Proof.
  intros Hp Hd.
  destruct (match dispatcher, decode_job payload with None, Some h => has_explicit_discord_destination h | _, _ => Ok false end)
    as [[]|e] eqn:E; [left|right|left]; unfold execute_job, bind, lift; rewrite Hp, Hd;
    (destruct dispatcher; [|destruct (decode_job payload) as [h|]]); simplify_eq/=; rewrite ?E; eauto; by destruct execution.
Qed.

(** C19: a run that is reported as delivered was delivered.  Whatever fails, a
    successful execution hands each destination at most its one message, in the
    order of the destinations and in its delivery session; when it returns
    success on output to deliver, every destination's message was handed over and
    accepted; and the acknowledgement command runs at most once and only after
    all of them were. *)
Theorem success_means_delivered j result_content payload destinations c now w :
  job_payload j = Ok payload -> delivery_destinations payload = Ok destinations ->
  output_content payload result_content = Some c ->
  let '(r, w') := execute j (Ok result_content) now w in
  let o := outbox (dv_ledger (st w)) in
  exists sent ran,
    outbox (dv_ledger (st w')) = (o ++ sent)%list /\ acks (st w') = (acks (st w) ++ ran)%list /\
    announced j destinations c o sent ran /\
    (is_ok r = true -> r = Ok (Some c) /\
       (is_deliverable unicode_upper c = true -> all_accepted o sent (map (send j c) destinations))).
Proof.
  intros Hp Hd Hc. set (o := outbox (dv_ledger (st w))).
  destruct (execute_cases j (Ok result_content) payload destinations now w Hp Hd) as [[e ->]| ->].
  { exists [], []. rewrite !app_nil_r. do 2 (split; [done|]). split; [|done]. split; [apply sublist_nil_l|by left]. }
  rewrite Hc. pose proof (announce_spec j destinations c o (acks (st w)) w (conj eq_refl eq_refl)) as Ha. unfold bind.
  destruct (announce _ _ _ _ _ _ _ _ _ _ w) as [[[]|e] w1].
  - destruct Ha as (sent & ran & [Ho Hk] & Hann & Hall). unfold attempt, ret.
    destruct (stmt _ w1) as [r2 w2] eqn:E2. exists sent, ran.
    assert (log (o ++ sent) (acks (st w) ++ ran) (st w2)) as [Ho2 Hk2].
    { assert (Hq : preserves (log (o ++ sent) (acks (st w) ++ ran)) (stmt (fun s => (tt, put_incidents (delete_where (fun r => String.eqb (inc_job r) (job_id j))) s)))).
      { by apply preserves_stmt. }
      specialize (Hq w1 (conj Ho Hk)). by rewrite E2 in Hq. }
    split; [done|]. split; [done|]. split; [done|]. by intros _.
  - destruct Ha as (sent & [Ho Hk] & Hann). exists sent, []. rewrite app_nil_r. by repeat split; try apply Hann.
Qed.

Definition failure_text (j : CronJob) (error : OmonError) : string :=
  "Cron job " ++ job_id j ++ " failed: " ++ error_text error.

Lemma report_failure_spec j destinations error now o a :
  let told s := exists sent, log (o ++ sent) a s /\
    (sent = [] \/ exists targets, failure_destinations_of j destinations = Ok targets /\ sent `sublist_of` map (send j (failure_text j error)) targets) in
  triple (log o a) (report_failure by_recency dispatcher pid started tick uuid j destinations error now) (fun _ => told) told.
Proof.
  intros told.
  assert (Hquiet : forall s, log o a s -> told s).
  { intros s Hs. exists []. rewrite app_nil_r. split; [done|by left]. }
  unfold report_failure. cbv zeta.
  eapply triple_bind; [apply (triple_keep (log o a)); [apply preserves_attempt, preserves_query|exact Hquiet]|].
  intros known. destruct (match known with Ok (Some true) => true | _ => false end); [by apply triple_ret|].
  eapply triple_bind.
  { apply (triple_keep (log o a)); [apply preserves_attempt, preserves_stmt; by intros s [? ?]|exact Hquiet]. }
  intros ?. destruct (failure_destinations_of j destinations) as [targets|e] eqn:Ef; [|intros w Hw; by apply Hquiet].
  eapply triple_bind; [by apply (triple_ret _ targets (fun t s => t = targets /\ log o a s))|]. intros t.
  intros w [-> Hw]. revert w Hw. change (triple (log o a)
    (_ <- each j ("Cron job " ++ job_id j ++ " failed: " ++ error_text error) 0 targets ;; ret tt) (fun _ => told) told).
  eapply triple_bind; [eapply triple_weaken; [apply deliver_each_spec|done|intros ? ? Hx; exact Hx|done]|].
  intros errors. apply triple_ret. intros s (sent & Hl & Hsub & _). exists sent. split; [done|]. right. by exists targets.
Qed.

Lemma acknowledged_is_quiet j destinations error now w :
  acknowledged <$> head (select (of_incident (job_id j) (error_text error)) (dv_incidents (st w))) = Some true ->
  (forall msg rest, faults w <> Some msg :: rest) ->
  exists w', report_failure by_recency dispatcher pid started tick uuid j destinations error now w = (Ok tt, w') /\ st w' = st w.
Proof.
  intros Hk Hf. unfold report_failure. cbv zeta. unfold bind at 1, attempt at 1, query, stmt at 1, exec.
  destruct w as [s [|[msg|] fs]]; simpl in *; [|by destruct (Hf msg fs)|]; rewrite Hk; by eexists.
Qed.


(** ** Where a delivery is mirrored *)

Hypothesis recency_permutes : forall l, by_recency l ≡ₚ l.

Lemma pick_sound user bot rows k : pick user bot rows = Some k ->
  exists r, r ∈ rows /\ sr_key r = k /\ of_bot bot r = true /\
  (bot = None -> user = Some (user_id (sr_session r)) \/
     forall r', r' ∈ rows -> extract_bot_id_from_session_key (sr_key r') = extract_bot_id_from_session_key k).
Proof.
  unfold pick. destruct (List.filter (of_bot bot) rows) as [|first l] eqn:Ef; [done|]. rewrite <- Ef in *.
  assert (Hin : forall r, r ∈ List.filter (of_bot bot) rows -> r ∈ rows /\ of_bot bot r = true).
  { intros r Hr. apply list_elem_of_In, filter_In in Hr as [Hr ?]. by rewrite <- list_elem_of_In in Hr. }
  destruct (user ≫= _) as [r|] eqn:Eu.
  - intros [= <-]. destruct user as [u|]; [|done]. simpl in Eu. apply find_some in Eu as [Hr Hu].
    apply list_elem_of_In, Hin in Hr as [Hr Hb]. exists r. do 3 (split; [done|]). intros _. left.
    apply String.eqb_eq in Hu. by subst.
  - destruct (match bot with None => _ | Some _ => _ end) eqn:Eb; [done|]. intros [= <-].
    destruct (Hin first) as [Hr Hb]; [rewrite Ef; left|]. exists first. do 3 (split; [done|]). intros ->. right. intros r' Hr'.
    apply Nat.ltb_ge in Eb. set (f := fun r => extract_bot_id_from_session_key (sr_key r)) in *.
    assert (Hall : forall r, r ∈ rows -> f r ∈ remove_dups (map f (List.filter (of_bot None) rows))).
    { intros r Hr2. apply elem_of_remove_dups, list_elem_of_fmap. exists r. split; [done|].
      apply list_elem_of_In, filter_In. by rewrite <- list_elem_of_In. }
    pose proof (Hall _ Hr) as H1. pose proof (Hall _ Hr') as H2.
    destruct (remove_dups _) as [|x [|y m]]; simpl in Eb; [by apply not_elem_of_nil in H1| |lia].
    apply list_elem_of_singleton in H1, H2. unfold f in *. congruence.
Qed.

(** A session found for an origin is one of its channel, of its thread when it has
    one, and of its bot when it names one; without a bot it is the user's own or
    the rows of the channel belong to one bot. *)
Definition at_origin (p chat : string) (thread user bot : option string) (s : DeliveryStore) (k : string) : Prop :=
  exists r, r ∈ sessions (dv_ledger s) /\ sr_key r = k /\ on_channel (to_ascii_lowercase p) chat r = true /\
    (thread <> None -> thread_id (sr_session r) = thread) /\ of_bot bot r = true.

Lemma opt_eqb_eq a b : opt_eqb a b = true -> a = b.
Proof. destruct a, b; simpl; try done. by intros ->%String.eqb_eq. Qed.

Lemma picked_at_origin p chat thread user bot s q k :
  (forall r, q r = true -> on_channel (to_ascii_lowercase p) chat r = true /\ (thread <> None -> thread_id (sr_session r) = thread)) ->
  pick user bot (by_recency (select q (sessions (dv_ledger s)))) = Some k -> at_origin p chat thread user bot s k.
Proof.
  intros Hq (r & Hr & Hk & Hb & _)%pick_sound. rewrite recency_permutes in Hr. apply in_select in Hr as [Hr Hqr].
  exists r. destruct (Hq r Hqr). by repeat split.
Qed.

Lemma find_session_spec p chat thread user bot s0 :
  triple (fun s => s = s0) (find_session_by_origin by_recency p chat thread user bot)
    (fun k s => s = s0 /\ forall key, k = Some key -> at_origin p chat thread user bot s0 key) (fun s => s = s0).
Proof.
  unfold find_session_by_origin. destruct thread as [tid|].
  - eapply triple_bind; [apply (triple_query (fun s => s = s0)); done|]. intros l. simpl. apply triple_ret. intros s [-> ->]. split; [done|].
    intros key. apply picked_at_origin. intros r [Ho Ht]%andb_true_iff. split; [done|]. intros _. by apply opt_eqb_eq.
  - eapply triple_bind; [apply (triple_query (fun s => s = s0)); done|]. intros l. simpl.
    destruct l as [|x l].
    + eapply triple_bind; [apply (triple_weaken (fun s => s = s0) _ _ _ _ _ _ (triple_query (fun s => s = s0) _ (fun s => s = s0) (fun s H => H)));
        [by intros s [_ ->]|intros ? ? Hx; exact Hx|done]|].
      intros l. simpl. apply triple_ret. intros s [-> ->]. split; [done|]. intros key. apply picked_at_origin. by intros r Ho.
    + eapply triple_bind; [apply (triple_ret _ (x :: l) (fun l s => l = by_recency (select (fun r => on_channel (to_ascii_lowercase p) chat r && threadless r) (sessions (dv_ledger s))) /\ s = s0)); done|].
      intros l2. simpl. apply triple_ret. intros s [-> ->]. split; [done|]. intros key. apply picked_at_origin.
      by intros r [Ho _]%andb_true_iff.
Qed.

Lemma session_row_spec key s0 :
  triple (fun s => s = s0) (session_row key) (fun o s => s = s0 /\ forall k, o = Some k -> k = key /\ has_session key (dv_ledger s0) = true)
    (fun s => s = s0).
Proof.
  unfold session_row. eapply triple_weaken; [by apply (triple_query (fun s => s = s0) _ (fun s => s = s0))|done|simpl|done].
  intros o s [-> ->]. split; [done|]. intros k. destruct (select _ _) as [|r l] eqn:E; [done|]. intros [= <-].
  assert (Hh : head (select (fun r => String.eqb (sr_key r) key) (sessions (dv_ledger s0))) = Some r) by by rewrite E.
  apply head_select in Hh as [Hr Hk]. apply String.eqb_eq in Hk. split; [done|]. unfold has_session. apply existsb_exists.
  exists r. rewrite <- list_elem_of_In. split; [done|]. by apply String.eqb_eq.
Qed.

(** The transcript with one more mirrored message. *)
Definition mirrored (uuid key text label : string) (now : Z) (s : DeliveryStore) : DeliveryStore :=
  put_messages (dv_messages s ++ [mkMessage (dv_next_sequence s) uuid key "assistant" text
      (print_json (mirror_metadata (Some label))) now None])%list (S (dv_next_sequence s)) s.

Lemma mirror_to_session_spec key content label u now s0 :
  triple (fun s => s = s0) (mirror_to_session key "assistant" content (Some label) u now)
    (fun b s => if b : bool then has_session key (dv_ledger s0) = true /\ trim content <> "" /\ s = mirrored u key (trim content) label now s0 else s = s0)
    (fun s => s = s0).
Proof.
  unfold mirror_to_session. destruct (String.eqb_spec (trim content) ""); [by apply triple_ret|].
  eapply triple_bind; [apply session_row_spec|]. intros [k|]; simpl; [|by apply triple_ret; intros s [-> _]].
  intros w [Hs Hk]. destruct (Hk k eq_refl) as [-> Hhas]. revert w Hs.
  match goal with |- forall w, _ -> match ?m w with _ => _ end => change (triple (fun s => s = s0) m
    (fun b s => if b : bool then has_session key (dv_ledger s0) = true /\ trim content <> "" /\ s = mirrored u key (trim content) label now s0 else s = s0)
    (fun s => s = s0)) end.
  eapply triple_bind.
  { apply (triple_exec _ _ (fun _ s => s = mirrored u key (trim content) label now s0)); [done|]. intros s ->.
    unfold insert_mirror. rewrite Hhas. simpl. by destruct (existsb _ _). }
  intros ?. eapply triple_bind.
  { apply triple_attempt, (triple_keep (fun s => s = mirrored u key (trim content) label now s0) (fun s => s = mirrored u key (trim content) label now s0)); [|done].
    by apply preserves_stmt. }
  intros r. simpl. apply triple_ret. intros s Hs. split; [done|]. split; [done|]. by destruct r.
Qed.

(** What is mirrored stays where it was delivered.  Whatever fails, mirroring
    either changes nothing or adds exactly one message, the trimmed text under
    the assistant's role, to an existing session: the job's own session when its
    key fits the destination, or a session of the destination's channel (of its
    thread when it names one, of its bot when it names one), or the session the
    destination itself denotes. *)
Theorem mirror_stays_at_its_origin job own d content u now w :
  let '(r, w') := mirror_cron_delivery_to_session by_recency job own d content u now w in
  (r <> Ok true -> st w' = st w) /\
  (r = Ok true -> exists k,
     st w' = mirrored u k (trim content) ("cron:" ++ job) now (st w) /\ has_session k (dv_ledger (st w)) = true /\
     ((own = Some k /\ exists parsed, from_storage_key k = Ok parsed /\ key_fits d parsed = true) \/
      at_origin (og_platform d) (og_chat_id d) (og_thread_id d) (Some (default ("cron:" ++ job) (og_user_id d))) (og_bot_id d) (st w) k \/
      k = storage_key (synthetic (og_platform d) d job))).
Proof.
  set (fits := fun k => (own = Some k /\ exists parsed, from_storage_key k = Ok parsed /\ key_fits d parsed = true) \/
      at_origin (og_platform d) (og_chat_id d) (og_thread_id d) (Some (default ("cron:" ++ job) (og_user_id d))) (og_bot_id d) (st w) k \/
      k = storage_key (synthetic (og_platform d) d job)).
  assert (Ht : triple (fun s => s = st w) (mirror_cron_delivery_to_session by_recency job own d content u now)
    (fun b s => if b : bool then exists k, s = mirrored u k (trim content) ("cron:" ++ job) now (st w) /\ has_session k (dv_ledger (st w)) = true /\ fits k
                else s = st w) (fun s => s = st w)).
  { unfold mirror_cron_delivery_to_session. eapply (triple_bind _ _ _ (fun o s => s = st w /\ forall k, o = Some k -> fits k)).
    { destruct own as [key|]; [|by apply triple_ret]. destruct (from_storage_key key) as [parsed|] eqn:Ep; [|by apply triple_ret].
      destruct (key_fits d parsed) eqn:Ef; [|by apply triple_ret].
      eapply triple_weaken; [apply (session_row_spec _ (st w))|done|simpl|done]. intros o s [-> Hk]. split; [done|]. intros k Ho.
      destruct (Hk k Ho) as [-> _]. left. eauto. }
    intros o. eapply (triple_bind _ _ _ (fun k s => s = st w /\ fits k)).
    { destruct o as [k|]; [apply triple_ret; intros s [-> Hk]; split; [done|by apply Hk]|].
      eapply triple_bind; [eapply triple_weaken; [apply (find_session_spec _ _ _ _ _ (st w))|by intros s [-> _]|intros ? ? Hx; exact Hx|done]|].
      intros found. simpl. apply triple_ret. intros s [-> Hk]. split; [done|]. unfold fits. destruct found as [k|]; [|by right; right].
      right. left. by apply Hk. }
    intros k. simpl. apply triple_pure. intros Hfits.
    eapply triple_weaken; [apply (mirror_to_session_spec _ _ _ _ _ (st w))|done|simpl|done]. intros [] s; [|done]. intros (Hh & _ & ->). by exists k. }
  specialize (Ht w eq_refl). destruct (mirror_cron_delivery_to_session _ _ _ _ _ _ _ w) as [[[]|e] w']; simpl in *.
  - split; [done|]. by intros _.
  - split; [done|]. by intros [=].
  - split; [done|]. by intros [=].
Qed.
End DeliveryFacts.

(** ** Witnesses and findings *)

(** The libraries of [Schedule]'s witnesses with one readable payload. *)
Definition demo_payload : value :=
  JObject [("ack_command", JString "ack"); ("channel_id", JString "100"); ("deliver", JString "200")].

Program Definition payload_libs : CronLibs := {|
  parse_rfc3339 := @parse_rfc3339 toy_libs; to_rfc3339 := @to_rfc3339 toy_libs; Tz := @Tz toy_libs; parse_tz := @parse_tz toy_libs;
  Sched := @Sched toy_libs; parse_schedule := @parse_schedule toy_libs; upcoming := @upcoming toy_libs;
  parse_json s := if String.eqb s "payload" then Ok demo_payload else Err "unsupported";
  print_json _ := "{}"
|}.
Next Obligation. intros s tz t u. apply (@upcoming_after toy_libs). Qed.

#[local] Existing Instance floor_sqlite.
#[local] Existing Instance payload_libs.

Definition demo_job : CronJob := mkJob "j1" None "0 * * * * *" "payload" true None 0 0 "omon_owned".
Definition empty_store : DeliveryStore := mkDeliveryStore empty_ledger [] 0 [] [].
Definition to_channel (c : string) : HermesOrigin := discord_to None c None.
Definition accepts (_ : list OutboundAction) (_ : OutboundAction) : result unit OmonError := Ok tt.
(** A dispatcher that cannot reach channel 200. *)
Definition rejects_200 (_ : list OutboundAction) (a : OutboundAction) : result unit OmonError :=
  match a with
  | SendMessage k _ _ => if String.eqb (channel_id k) "200" then Err (Discord "unknown channel") else Ok tt
  | _ => Ok tt
  end.
Definition by_key (l : list SessionRow) : list SessionRow := l.
Definition each_second (i : nat) : Z := seconds (Z.of_nat i).
Definition numbered (i : nat) : string := "m" ++ show_N (N.of_nat i).

Definition demo_run (answer : list OutboundAction -> OutboundAction -> result unit OmonError) (tick : nat -> Z)
    (execution : result (option string) OmonError) (s : DeliveryStore) : result (option string) OmonError * world DeliveryStore :=
  execute_job by_key (Some answer) 7 "t0" tick numbered id demo_job execution "now" (mkWorld s []).

Lemma success_means_delivered_witness :
  outbox (dv_ledger (st (demo_run accepts each_second (Ok (Some "done")) empty_store).2))
  = map (send demo_job "done") [to_channel "100"; to_channel "200"].
Proof.
  pose proof (success_means_delivered by_key (Some accepts) 7 "t0" each_second numbered id demo_job (Some "done") demo_payload
    [to_channel "100"; to_channel "200"] "done" "now" (mkWorld empty_store []) eq_refl eq_refl eq_refl) as Ht.
  unfold demo_run. destruct (execute_job _ _ _ _ _ _ _ _ _ _ _) as [r w'] eqn:E.
  destruct Ht as (sent & ran & Ho & _ & _ & Hall). simpl in *. rewrite Ho.
  assert (Hr : r = (demo_run accepts each_second (Ok (Some "done")) empty_store).1) by by unfold demo_run; rewrite E.
  assert (Hok : is_ok r = true) by by rewrite Hr; vm_compute. destruct (Hall Hok) as [_ Hacc].
  by destruct (Hacc eq_refl accepts eq_refl) as [-> _].
Defined.

Definition acknowledged_store : DeliveryStore :=
  mkDeliveryStore empty_ledger [] 0 [mkIncident "j1" "LLM error: down" true "then"] [].


Definition demo_store : DeliveryStore := mkDeliveryStore (mkLedger
  [mkSessionRow (storage_key demo_session) demo_session (state_value default_state) false] [] [] [] []) [] 0 [] [].
Definition to_demo : HermesOrigin := mkOrigin "discord" "c1" None (Some "u1") None (Some "bot") [].

Lemma mirror_stays_at_its_origin_witness :
  exists k, has_session k (dv_ledger demo_store) = true /\
  st (mirror_cron_delivery_to_session by_key "j1" None to_demo " done " "m0" 0 (mkWorld demo_store [])).2
  = mirrored "m0" k "done" "cron:j1" 0 demo_store.
Proof.
  pose proof (mirror_stays_at_its_origin by_key (fun l => reflexivity l) "j1" None to_demo " done " "m0" 0 (mkWorld demo_store [])) as Ht.
  destruct (mirror_cron_delivery_to_session _ _ _ _ _ _ _ _) as [r w'] eqn:E. destruct Ht as [_ Ht].
  assert (Hr : r = Ok true).
  { change r with (r, w').1. rewrite <- E. by vm_compute. }
  destruct (Ht Hr) as (k & Hw & Hk & _). exists k. split; [exact Hk|exact Hw].
Defined.

(** Two deliveries within one millisecond share one obligation, the first
    channel's: the second's failure marks the first's message as owed again, and
    nothing is owed to the second channel. *)
Theorem same_millisecond_shares_obligation :
  let '(r, w') := demo_run rejects_200 (fun _ => 0%Z) (Ok (Some "done")) empty_store in
  is_ok r = false /\
  map (fun o => (ob_channel_id o, ob_state o)) (obligations (dv_ledger (st w'))) = [("100", "failed")] /\
  map (fun a => match a with SendMessage k _ _ => channel_id k | _ => "" end) (outbox (dv_ledger (st w'))) = ["100"; "200"].
Proof. by vm_compute. Qed.
