(* ===== verification/Targets.v ===== *)
(** * Dead Discord targets ([DeadTargetRegistry] of src/discord/adapter.rs and
    the table [dead_targets] of src/storage/db.rs)

    The channels Discord refused for good, per bot: the map under its lock, the
    checks that let a probe through, and the rows that carry the map over a
    restart.  The writes of the table are tasks spawned by the operations on the
    map; they run later, in any order, and their errors are dropped. *)
From stdpp Require Import base list strings gmap.
From Stdlib Require Import ZArith NArith Lia Ascii String.
From S2P Require Import Prelude RustStr Db.
Open Scope string_scope.
Open Scope db_scope.
Local Notation length := Datatypes.length.

(** ** The registry *)

Record DeadTargetEntry : Type := mkDead {
  d_bot_id : string;
  d_channel_id : N;
  d_status_code : N;
  d_reason : string;
  d_marked_at : Z;
  d_probed_at : option Z
}.

(** [pool]: rows are kept in the database. *)
Record DeadTargetRegistry : Type := mkRegistry {
  inner : gmap (string * N) DeadTargetEntry;
  ttl : option Z;
  probe_interval : option Z;
  pool : bool
}.

Definition with_inner (m : gmap (string * N) DeadTargetEntry) (r : DeadTargetRegistry) :=
  mkRegistry m (ttl r) (probe_interval r) (pool r).

Definition empty_registry : DeadTargetRegistry := mkRegistry ∅ None None false.
Definition with_ttl (t : Z) : DeadTargetRegistry := mkRegistry ∅ (Some t) None false.
Definition with_probe_interval (p : Z) (r : DeadTargetRegistry) := mkRegistry (inner r) (ttl r) (Some p) (pool r).
Definition with_pool (r : DeadTargetRegistry) := mkRegistry (inner r) (ttl r) (probe_interval r) true.

(** [(now - at).to_std().unwrap_or(ZERO)]. *)
Definition elapsed (now at_ : Z) : Z := Z.max 0 (now - at_).

Definition probed (now : Z) (e : DeadTargetEntry) : DeadTargetEntry :=
  mkDead (d_bot_id e) (d_channel_id e) (d_status_code e) (d_reason e) (d_marked_at e) (Some now).

Definition expired (r : DeadTargetRegistry) (now : Z) (e : DeadTargetEntry) : bool :=
  match ttl r with Some t => (t <? elapsed now (d_marked_at e))%Z | None => false end.

Definition probe_due (r : DeadTargetRegistry) (now : Z) (e : DeadTargetEntry) : bool :=
  match probe_interval r with
  | None => false
  | Some p =>
      match d_probed_at e with
      | None => (p <=? elapsed now (d_marked_at e))%Z
      | Some last => (0 <? p)%Z && (p <=? elapsed now last)%Z
      end
  end.

Definition is_dead_for_bot (bot : string) (channel : N) (now : Z) (r : DeadTargetRegistry) : bool * DeadTargetRegistry :=
  let key := (bot, channel) in
  match inner r !! key with
  | None => (false, r)
  | Some e =>
      if expired r now e then (false, with_inner (delete key (inner r)) r)
      else if probe_due r now e then (false, with_inner (<[key := probed now e]> (inner r)) r)
      else (true, r)
  end.

Definition is_dead (channel : N) (now : Z) (r : DeadTargetRegistry) := is_dead_for_bot "default" channel now r.

Definition count_dead (r : DeadTargetRegistry) : nat := size (inner r).

(** [HashMap::iter] takes the entries in some order. *)
Definition get_dead (iter : gmap (string * N) DeadTargetEntry -> list ((string * N) * DeadTargetEntry)) (channel : N)
    (r : DeadTargetRegistry) : option DeadTargetEntry :=
  match inner r !! ("default", channel) with
  | Some e => Some e
  | None => snd <$> List.find (fun kv => (kv.1.2 =? channel)%N) (iter (inner r))
  end.

Definition get_for_bot (bot : string) (channel : N) (r : DeadTargetRegistry) : option DeadTargetEntry := inner r !! (bot, channel).

(** ** The table *)

(** [channel_id as i64] and back; [status_code as u16] of a stored code. *)
Definition as_i64 (n : N) : Z := if (n <? 2 ^ 63)%N then Z.of_N n else (Z.of_N n - 2 ^ 64)%Z.
Definition u64_of (z : Z) : N := Z.to_N (z mod 2 ^ 64).
Definition as_u16 (z : Z) : N := Z.to_N (z mod 2 ^ 16).

Record DeadTargetRow : Type := mkDeadRow {
  r_bot_id : string;
  r_channel_id : Z;
  r_status_code : Z;
  r_error_message : string;
  r_dead_since : string
}.

(** A spawned write. *)
Inductive PersistTask : Type :=
| TPersist (bot : string) (channel code : N) (message : string)
| TRemove (bot : string) (channel : N)
| TRemoveChannel (channel : N).

Record TargetStore : Type := mkTargets {
  registry : DeadTargetRegistry;
  dead_targets : list DeadTargetRow;
  tasks : list PersistTask
}.

Definition set_registry (r : DeadTargetRegistry) (s : TargetStore) := mkTargets r (dead_targets s) (tasks s).
Definition set_dead_targets f (s : TargetStore) := mkTargets (registry s) (f (dead_targets s)) (tasks s).
Definition set_tasks (l : list PersistTask) (s : TargetStore) := mkTargets (registry s) (dead_targets s) l.

Definition of_target (bot : string) (channel : N) (row : DeadTargetRow) : bool :=
  String.eqb (r_bot_id row) bot && (r_channel_id row =? as_i64 channel)%Z.

Definition upsert_dead_target (bot : string) (channel code : N) (message since : string) (t : list DeadTargetRow) : list DeadTargetRow :=
  if existsb (of_target bot channel) t
  then update_where (of_target bot channel)
         (fun row => mkDeadRow (r_bot_id row) (r_channel_id row) (Z.of_N code) message since) t
  else (t ++ [mkDeadRow bot (as_i64 channel) (Z.of_N code) message since])%list.

Section Targets.
(** [DateTime::to_rfc3339] and [parse_from_rfc3339]. *)
Context (to_rfc3339 : Z -> string) (parse_rfc3339 : string -> option Z).

Definition persist_dead_target (bot : string) (channel code : N) (message : string) (now : Z) : M TargetStore unit :=
  stmt (fun s => (tt, set_dead_targets (upsert_dead_target bot channel code message (to_rfc3339 now)) s)).
Definition remove_dead_target (bot : string) (channel : N) : M TargetStore unit :=
  stmt (fun s => (tt, set_dead_targets (delete_where (of_target bot channel)) s)).
Definition remove_dead_targets_for_channel (channel : N) : M TargetStore unit :=
  stmt (fun s => (tt, set_dead_targets (delete_where (fun row => (r_channel_id row =? as_i64 channel)%Z)) s)).

Definition load_dead_targets : M TargetStore (list (string * N * N * string * string)) :=
  query (fun s => map (fun row => (r_bot_id row, u64_of (r_channel_id row), as_u16 (r_status_code row),
                                   r_error_message row, r_dead_since row)) (dead_targets s)).

(** ** Operations that write both *)

Definition spawn (t : PersistTask) (s : TargetStore) : TargetStore :=
  if pool (registry s) then set_tasks (tasks s ++ [t])%list s else s.

Definition put_dead (bot : string) (channel code : N) (reason : string) (now : Z) (r : DeadTargetRegistry) : DeadTargetRegistry :=
  with_inner (<[(bot, channel) := mkDead bot channel code reason now None]> (inner r)) r.

Definition mark_dead_for_bot (bot : string) (channel code : N) (reason : string) (now : Z) (s : TargetStore) : bool * TargetStore :=
  let existed := bool_decide (is_Some (inner (registry s) !! (bot, channel))) in
  (negb existed, spawn (TPersist bot channel code reason) (set_registry (put_dead bot channel code reason now (registry s)) s)).

Definition mark_dead (channel : N) (reason : string) (now : Z) (s : TargetStore) := mark_dead_for_bot "default" channel 404 reason now s.

Definition drop_dead (bot : string) (channel : N) (r : DeadTargetRegistry) : DeadTargetRegistry :=
  with_inner (delete (bot, channel) (inner r)) r.

Definition clear_for_bot (bot : string) (channel : N) (s : TargetStore) : bool * TargetStore :=
  let removed := bool_decide (is_Some (inner (registry s) !! (bot, channel))) in
  (removed, spawn (TRemove bot channel) (set_registry (drop_dead bot channel (registry s)) s)).

Definition off_channel (channel : N) (m : gmap (string * N) DeadTargetEntry) : gmap (string * N) DeadTargetEntry :=
  filter (fun kv => kv.1.2 <> channel) m.

Definition clear_channel (channel : N) (s : TargetStore) : bool * TargetStore :=
  let kept := off_channel channel (inner (registry s)) in
  (negb (size kept =? size (inner (registry s)))%nat,
   spawn (TRemoveChannel channel) (set_registry (with_inner kept (registry s)) s)).

Definition clear_all (s : TargetStore) : TargetStore := set_registry (with_inner ∅ (registry s)) s.

Definition mark_dead_and_persist (bot : string) (channel code : N) (reason : string) (now now' : Z) : M TargetStore bool :=
  existed <- mem (fun s => (bool_decide (is_Some (inner (registry s) !! (bot, channel))),
                            set_registry (put_dead bot channel code reason now (registry s)) s)) ;;
  has_pool <- mem (fun s => (pool (registry s), s)) ;;
  (if has_pool : bool then persist_dead_target bot channel code reason now' else ret tt) ;;;
  ret (negb existed).

Definition clear_and_persist (bot : string) (channel : N) : M TargetStore bool :=
  removed <- mem (fun s => (bool_decide (is_Some (inner (registry s) !! (bot, channel))),
                            set_registry (drop_dead bot channel (registry s)) s)) ;;
  has_pool <- mem (fun s => (pool (registry s), s)) ;;
  (if has_pool : bool then remove_dead_target bot channel else ret tt) ;;;
  ret removed.

Definition load_row (now : Z) (m : gmap (string * N) DeadTargetEntry) (row : string * N * N * string * string) :=
  let '(bot, channel, code, message, since) := row in
  <[(bot, channel) := mkDead bot channel code message (default now (parse_rfc3339 since)) None]> m.

Definition load_from_db (now : Z) : M TargetStore unit :=
  rows <- load_dead_targets ;;
  mem (fun s => (tt, set_registry (with_inner (fold_left (load_row now) rows (inner (registry s))) (registry s)) s)).

(** A spawned task runs; its error is dropped. *)
Definition run_task (t : PersistTask) (now : Z) : M TargetStore unit :=
  attempt (match t with
           | TPersist bot channel code message => persist_dead_target bot channel code message now
           | TRemove bot channel => remove_dead_target bot channel
           | TRemoveChannel channel => remove_dead_targets_for_channel channel
           end) ;;;
  ret tt.

(** ** Histories *)

Inductive TargetOp : Type :=
| OCheck (bot : string) (channel : N) (now : Z)
| OMark (bot : string) (channel code : N) (reason : string) (now : Z)
| OClear (bot : string) (channel : N)
| OClearChannel (channel : N)
| OTask (i : nat) (now : Z).

(** Task [i] of those waiting runs, no statement failing. *)
Definition run_nth (i : nat) (now : Z) (s : TargetStore) : TargetStore :=
  match tasks s !! i with
  | Some t => snd (run (run_task t now) (set_tasks (delete i (tasks s)) s))
  | None => s
  end.

Definition target_op (o : TargetOp) (s : TargetStore) : TargetStore :=
  match o with
  | OCheck bot channel now => set_registry (snd (is_dead_for_bot bot channel now (registry s))) s
  | OMark bot channel code reason now => snd (mark_dead_for_bot bot channel code reason now s)
  | OClear bot channel => snd (clear_for_bot bot channel s)
  | OClearChannel channel => snd (clear_channel channel s)
  | OTask i now => run_nth i now s
  end.

Definition target_ops (l : list TargetOp) (s : TargetStore) : TargetStore := fold_left (fun s o => target_op o s) l s.
End Targets.

(** ** Probes *)

(** When the last check let through, or the mark. *)
Definition last_seen (e : DeadTargetEntry) : Z := default (d_marked_at e) (d_probed_at e).

Lemma dead_check r bot channel now e p :
  ttl r = None -> probe_interval r = Some p -> (0 < p)%Z -> inner r !! (bot, channel) = Some e ->
  is_dead_for_bot bot channel now r =
    if (p <=? now - last_seen e)%Z then (false, with_inner (<[(bot, channel) := probed now e]> (inner r)) r) else (true, r).
Proof.
  intros Ht Hp Hpos He. unfold is_dead_for_bot, expired, probe_due, last_seen, elapsed. rewrite He, Ht, Hp.
  replace (0 <? p)%Z with true by (symmetry; apply Z.ltb_lt; lia). simpl.
  destruct (d_probed_at e) as [t|]; simpl;
    repeat match goal with |- context [(?a <=? ?b)%Z] => destruct (Z.leb_spec a b) end; done || lia.
Qed.

(** The operations of another target, or that leave this one in the map, not
    before [t]. *)
Definition keeps_target (bot : string) (channel : N) (t : Z) (o : TargetOp) : Prop :=
  match o with
  | OCheck _ _ now => (t <= now)%Z
  | OMark _ _ _ _ now => (t <= now)%Z
  | OClear b c => (b, c) <> (bot, channel)
  | OClearChannel c => c <> channel
  | OTask _ _ => True
  end.

(** The target is in the map and was marked or probed no earlier than [t]. *)
Definition dead_since (bot : string) (channel : N) (t p : Z) (r : DeadTargetRegistry) : Prop :=
  ttl r = None /\ probe_interval r = Some p /\ exists e, inner r !! (bot, channel) = Some e /\ (t <= last_seen e)%Z.

Lemma run_task_registry rfc t now s : registry (snd (run (run_task rfc t now) s)) = registry s.
Proof. by destruct t. Qed.

Lemma spawn_registry t s : registry (spawn t s) = registry s.
Proof. unfold spawn. by destruct (pool (registry s)). Qed.

Lemma dead_since_op rfc bot channel t p o s :
  (0 < p)%Z -> keeps_target bot channel t o -> dead_since bot channel t p (registry s) ->
  dead_since bot channel t p (registry (target_op rfc o s)).
Proof.
  intros Hp Hk (Ht & Hi & e & He & Hle). destruct o as [b c now|b c code reason now|b c|c|i now]; simpl in *.
  - destruct (decide ((b, c) = (bot, channel))) as [E|Hne].
    + injection E as -> ->. rewrite (dead_check _ _ _ _ _ _ Ht Hi Hp He). destruct (p <=? _)%Z; [|by split; [|split; [|exists e]]].
      split; [done|]. split; [done|]. exists (probed now e). simpl. by rewrite lookup_insert_eq.
    + unfold is_dead_for_bot. destruct (inner (registry s) !! (b, c)); [|by split; [|split; [|exists e]]].
      destruct (expired _ _ _); [|destruct (probe_due _ _ _)]; simpl; (split; [done|]; split; [done|]; exists e; split; [|done]).
      * simpl. by rewrite lookup_delete_ne.
      * simpl. by rewrite lookup_insert_ne.
      * done.
  - rewrite spawn_registry. simpl. split; [done|]. split; [done|].
    destruct (decide ((b, c) = (bot, channel))) as [E|Hne].
    + injection E as -> ->. eexists. simpl. by rewrite lookup_insert_eq.
    + exists e. simpl. by rewrite lookup_insert_ne.
  - rewrite spawn_registry. simpl. split; [done|]. split; [done|]. exists e. simpl. by rewrite lookup_delete_ne.
  - rewrite spawn_registry. simpl. split; [done|]. split; [done|]. exists e. split; [|done].
    apply map_lookup_filter_Some. split; [done|]. simpl. congruence.
  - unfold run_nth. destruct (tasks s !! i) as [task|]; [|by split; [|split; [|exists e]]].
    rewrite run_task_registry. by split; [|split; [|exists e]].
Qed.

Lemma dead_since_ops rfc bot channel t p l s :
  (0 < p)%Z -> Forall (keeps_target bot channel t) l -> dead_since bot channel t p (registry s) ->
  dead_since bot channel t p (registry (target_ops rfc l s)).
Proof.
  intros Hp Hl. revert s. unfold target_ops. induction Hl as [|o l Ho _ IH]; intros s Hs; [done|].
  apply IH. by apply dead_since_op.
Qed.

(** Probes of a dead target are rationed: with a probe interval and no ttl,
    once a check has let a message through to a target that stays in the map,
    every check lets through exactly when an interval has passed since the last
    probe or mark, so never within an interval of that message. *)
Theorem probes_rationed (rfc : Z -> string) (bot : string) (channel : N) (t t' p : Z) (l : list TargetOp)
    (s : TargetStore) (e : DeadTargetEntry) :
  ttl (registry s) = None -> probe_interval (registry s) = Some p -> (0 < p)%Z ->
  inner (registry s) !! (bot, channel) = Some e ->
  fst (is_dead_for_bot bot channel t (registry s)) = false ->
  Forall (keeps_target bot channel t) l ->
  let s' := target_ops rfc l (target_op rfc (OCheck bot channel t) s) in
  exists e', inner (registry s') !! (bot, channel) = Some e' /\ (t <= last_seen e')%Z /\
    (fst (is_dead_for_bot bot channel t' (registry s')) = false <-> (last_seen e' + p <= t')%Z).
Proof.
  intros Ht Hi Hp He Hc Hl s'.
  assert (dead_since bot channel t p (registry s')) as (Ht' & Hi' & e' & He' & Hle).
  { apply dead_since_ops; [done|done|]. simpl. rewrite (dead_check _ _ _ _ _ _ Ht Hi Hp He) in *.
    destruct (p <=? _)%Z; [|done]. split; [done|]. split; [done|]. exists (probed t e). simpl. by rewrite lookup_insert_eq. }
  exists e'. split; [done|]. split; [done|]. rewrite (dead_check _ _ _ _ _ _ Ht' Hi' Hp He').
  destruct (Z.leb_spec p (t' - last_seen e')); simpl; split; done || lia.
Qed.

(** ** The table mirrors the map *)

Lemma u64_of_i64 n : (n < 2 ^ 64)%N -> u64_of (as_i64 n) = n.
Proof.
  intros Hn. unfold u64_of, as_i64. destruct (N.ltb_spec n (2 ^ 63)).
  - rewrite Z.mod_small by lia. by rewrite N2Z.id.
  - replace (Z.of_N n - 2 ^ 64)%Z with (Z.of_N n + (-1) * 2 ^ 64)%Z by lia.
    rewrite Z_mod_plus_full, Z.mod_small by lia. by rewrite N2Z.id.
Qed.

Lemma i64_of_u64 z : (- 2 ^ 63 <= z < 2 ^ 63)%Z -> as_i64 (u64_of z) = z.
Proof.
  intros Hz. unfold u64_of, as_i64. destruct (Z.ltb_spec z 0).
  - replace (z mod 2 ^ 64)%Z with (z + 2 ^ 64)%Z.
    + destruct (N.ltb_spec (Z.to_N (z + 2 ^ 64)) (2 ^ 63)); lia.
    + rewrite <- (Z_mod_plus_full z 1). symmetry. apply Z.mod_small. lia.
  - rewrite Z.mod_small by lia. destruct (N.ltb_spec (Z.to_N z) (2 ^ 63)); lia.
Qed.

Lemma as_i64_inj a b : (a < 2 ^ 64)%N -> (b < 2 ^ 64)%N -> as_i64 a = as_i64 b -> a = b.
Proof. intros Ha Hb E. by rewrite <- (u64_of_i64 a), <- (u64_of_i64 b), E. Qed.

Lemma as_u16_code n : (n < 2 ^ 16)%N -> as_u16 (Z.of_N n) = n.
Proof. intros Hn. unfold as_u16. rewrite Z.mod_small by lia. by rewrite N2Z.id. Qed.

(** What a row and an entry say of a target. *)
Definition row_verdict (row : DeadTargetRow) : N * string := (as_u16 (r_status_code row), r_error_message row).
Definition entry_verdict (e : DeadTargetEntry) : N * string := (d_status_code e, d_reason e).

Definition row_view (t : list DeadTargetRow) (k : string * N) : option (N * string) :=
  row_verdict <$> List.find (of_target k.1 k.2) t.

(** A write, as a change of view; the writes to come, in the order spawned. *)
Definition settle1 (v : string * N -> option (N * string)) (t : PersistTask) (k : string * N) : option (N * string) :=
  match t with
  | TPersist b c code m => if decide (k = (b, c)) then Some (code, m) else v k
  | TRemove b c => if decide (k = (b, c)) then None else v k
  | TRemoveChannel c => if decide (k.2 = c) then None else v k
  end.
Definition settle (l : list PersistTask) (v : string * N -> option (N * string)) := fold_left settle1 l v.

Definition in_u64 (k : string * N) : Prop := (k.2 < 2 ^ 64)%N.

Lemma of_target_spec b c row : of_target b c row = true <-> r_bot_id row = b /\ r_channel_id row = as_i64 c.
Proof. unfold of_target. by rewrite andb_true_iff, String.eqb_eq, Z.eqb_eq. Qed.

Lemma of_target_other b c k row : in_u64 k -> (c < 2 ^ 64)%N -> k <> (b, c) ->
  of_target b c row = true -> of_target k.1 k.2 row = false.
Proof.
  intros Hk Hc Hne [E1 E2]%of_target_spec. apply not_true_is_false. intros [F1 F2]%of_target_spec.
  apply Hne. destruct k as [b' c']. simpl in *. rewrite E2 in F2. apply as_i64_inj in F2; [|done|done]. congruence.
Qed.

Lemma find_update (p q : DeadTargetRow -> bool) f t :
  (forall r, q (f r) = q r) ->
  List.find q (update_where p f t) = (fun r => if p r then f r else r) <$> List.find q t.
Proof.
  intros Hq. induction t as [|r t IH]; simpl; [done|].
  assert (q (if p r then f r else r) = q r) as -> by (destruct (p r); auto). destruct (q r); [done|exact IH].
Qed.

Lemma find_delete (p q : DeadTargetRow -> bool) t :
  List.find q (delete_where p t) = List.find (fun r => negb (p r) && q r) t.
Proof.
  unfold delete_where. induction t as [|r t IH]; simpl; [done|].
  destruct (p r); simpl; [exact IH|]. destruct (q r); [done|exact IH].
Qed.

Lemma find_ext_true {A} (p q : A -> bool) l : (forall x, p x = q x) -> List.find p l = List.find q l.
Proof. intros Hpq. induction l as [|x l IH]; simpl; [done|]. by rewrite Hpq, IH. Qed.

Lemma find_never {A} (p : A -> bool) l : (forall x, p x = false) -> List.find p l = None.
Proof. intros Hp. induction l as [|x l IH]; simpl; [done|]. by rewrite Hp. Qed.

Lemma find_snoc {A} (p : A -> bool) l x :
  List.find p (l ++ [x])%list = match List.find p l with Some y => Some y | None => if p x then Some x else None end.
Proof. induction l as [|y l IH]; simpl; [done|]. by destruct (p y). Qed.

Lemma find_existsb {A} (p : A -> bool) l : existsb p l = false -> List.find p l = None.
Proof. induction l as [|x l IH]; simpl; [done|]. by destruct (p x). Qed.

Lemma row_view_upsert b c code m since t k :
  in_u64 k -> (c < 2 ^ 64)%N -> (code < 2 ^ 16)%N ->
  row_view (upsert_dead_target b c code m since t) k = if decide (k = (b, c)) then Some (code, m) else row_view t k.
Proof.
  intros Hk Hc Hcode. unfold row_view, upsert_dead_target.
  assert (forall t', List.find (of_target b c) t' = None -> existsb (of_target b c) t' = false) as Hnone.
  { induction t' as [|r t' IH]; simpl; [done|]. by destruct (of_target b c r). }
  destruct (decide (k = (b, c))) as [->|Hne]; simpl.
  - destruct (existsb (of_target b c) t) eqn:E.
    + rewrite find_update by done. destruct (List.find (of_target b c) t) as [r|] eqn:F; [|by rewrite (Hnone t F) in E].
      apply find_some in F as [_ F]. simpl. rewrite F. unfold row_verdict. simpl. by rewrite as_u16_code.
    + rewrite find_snoc, (find_existsb _ _ E). unfold of_target. simpl. rewrite String.eqb_refl, Z.eqb_refl. simpl.
      unfold row_verdict. simpl. by rewrite as_u16_code.
  - destruct (existsb (of_target b c) t) eqn:E.
    + rewrite find_update by done. destruct (List.find (of_target k.1 k.2) t) as [r|] eqn:F; [|done].
      apply find_some in F as [_ F]. simpl. destruct (of_target b c r) eqn:G; [|done].
      pose proof (of_target_other _ _ _ _ Hk Hc Hne G). congruence.
    + rewrite find_snoc. destruct (List.find _ t); [done|]. simpl.
      assert (of_target b c (mkDeadRow b (as_i64 c) (Z.of_N code) m since) = true) as G by by apply of_target_spec.
      by rewrite (of_target_other _ _ _ _ Hk Hc Hne G).
Qed.

Lemma row_view_remove b c t k :
  in_u64 k -> (c < 2 ^ 64)%N ->
  row_view (delete_where (of_target b c) t) k = if decide (k = (b, c)) then None else row_view t k.
Proof.
  intros Hk Hc. unfold row_view. rewrite find_delete. destruct (decide (k = (b, c))) as [->|Hne]; simpl.
  - rewrite find_never; [done|]. intros r. by destruct (of_target b c r).
  - f_equal. apply find_ext_true. intros r. destruct (of_target b c r) eqn:G; [|done].
    by rewrite (of_target_other _ _ _ _ Hk Hc Hne G).
Qed.

Lemma row_view_remove_channel c t k :
  in_u64 k -> (c < 2 ^ 64)%N ->
  row_view (delete_where (fun row => (r_channel_id row =? as_i64 c)%Z) t) k = if decide (k.2 = c) then None else row_view t k.
Proof.
  intros Hk Hc. unfold row_view. rewrite find_delete. destruct (decide (k.2 = c)) as [E|Hne]; simpl.
  - rewrite find_never; [done|]. intros r. unfold of_target. rewrite E. by destruct (r_channel_id r =? as_i64 c)%Z, (String.eqb _ _).
  - f_equal. apply find_ext_true. intros r. unfold of_target. destruct (Z.eqb_spec (r_channel_id r) (as_i64 c)) as [G|G]; [|done]. simpl.
    rewrite G. symmetry. apply andb_false_iff. right. apply Z.eqb_neq. intros F. apply Hne. symmetry. by apply as_i64_inj.
Qed.

Definition task_ok (t : PersistTask) : Prop :=
  match t with
  | TPersist _ c code _ => (c < 2 ^ 64)%N /\ (code < 2 ^ 16)%N
  | TRemove _ c | TRemoveChannel c => (c < 2 ^ 64)%N
  end.

Lemma row_view_task rfc t now s k :
  in_u64 k -> task_ok t ->
  row_view (dead_targets (snd (run (run_task rfc t now) s))) k = settle1 (row_view (dead_targets s)) t k.
Proof.
  intros Hk Ht. destruct t; simpl in *.
  - destruct Ht. by apply row_view_upsert.
  - by apply row_view_remove.
  - by apply row_view_remove_channel.
Qed.

Lemma settle1_ext v v' t k : v k = v' k -> settle1 v t k = settle1 v' t k.
Proof. intros E. destruct t; simpl; by rewrite E. Qed.

Lemma settle_ext l : forall v v' k, v k = v' k -> settle l v k = settle l v' k.
Proof. induction l as [|t l IH]; intros v v' k E; simpl; [done|]. apply IH. by apply settle1_ext. Qed.

(** Rows are unique per target and hold 64-bit channels; once the writes to
    come have run, the table says what the map says. *)
Record mirrored (s : TargetStore) : Prop := {
  mir_pool : pool (registry s) = true;
  mir_ttl : ttl (registry s) = None;
  mir_tasks : Forall task_ok (tasks s);
  mir_unique : NoDup (map (fun r => (r_bot_id r, r_channel_id r)) (dead_targets s));
  mir_range : Forall (fun r => - 2 ^ 63 <= r_channel_id r < 2 ^ 63)%Z (dead_targets s);
  mir_keys : forall k e, inner (registry s) !! k = Some e -> in_u64 k;
  mir_view : forall k, in_u64 k -> settle (tasks s) (row_view (dead_targets s)) k = entry_verdict <$> inner (registry s) !! k
}.

(** Machine integers, and spawned writes that run in the order spawned. *)
Definition ordinary (o : TargetOp) : Prop :=
  match o with
  | OCheck _ c _ | OClear _ c | OClearChannel c => (c < 2 ^ 64)%N
  | OMark _ c code _ _ => (c < 2 ^ 64)%N /\ (code < 2 ^ 16)%N
  | OTask i _ => i = 0
  end.

Lemma mirrored_spawn s t r' :
  mirrored s -> task_ok t -> pool r' = true -> ttl r' = None ->
  (forall k e, inner r' !! k = Some e -> in_u64 k) ->
  (forall k, in_u64 k -> settle1 (fun k => entry_verdict <$> inner (registry s) !! k) t k = entry_verdict <$> inner r' !! k) ->
  mirrored (spawn t (set_registry r' s)).
Proof.
  intros [H1 H2 H3 H4 H5 H6 H7] Ht Hp Htt Hk Hv. unfold spawn. simpl. rewrite Hp. split; simpl; auto.
  - apply Forall_app. by split; [|constructor].
  - intros k Hin. unfold settle. rewrite fold_left_app. simpl. rewrite <- Hv by done. apply settle1_ext. by apply H7.
Qed.

Lemma mirrored_same s r' :
  mirrored s -> pool r' = pool (registry s) -> ttl r' = ttl (registry s) ->
  (forall k, entry_verdict <$> inner r' !! k = entry_verdict <$> inner (registry s) !! k) -> mirrored (set_registry r' s).
Proof.
  intros [H1 H2 H3 H4 H5 H6 H7] Hp Ht Hv. split; simpl; try done; [congruence|congruence| |].
  - intros k e He. specialize (Hv k). rewrite He in Hv. simpl in Hv. symmetry in Hv.
    apply fmap_Some in Hv as (e' & He' & _). by apply (H6 k e').
  - intros k Hk. by rewrite Hv, H7.
Qed.

Lemma upsert_unique b c code m since t :
  NoDup (map (fun r => (r_bot_id r, r_channel_id r)) t) ->
  NoDup (map (fun r => (r_bot_id r, r_channel_id r)) (upsert_dead_target b c code m since t)).
Proof.
  intros Hn. unfold upsert_dead_target. destruct (existsb (of_target b c) t) eqn:E; [by rewrite map_update_where|].
  rewrite map_app. apply NoDup_app. split; [done|]. split; [|apply NoDup_singleton].
  intros k (r & -> & Hr)%list_elem_of_fmap Hin. simpl in Hin. apply list_elem_of_singleton in Hin.
  rewrite existsb_false in E. specialize (E r Hr). injection Hin as E1 E2.
  assert (of_target b c r = true) by (by apply of_target_spec). congruence.
Qed.

Lemma upsert_range b c code m since t :
  (c < 2 ^ 64)%N -> Forall (fun r => - 2 ^ 63 <= r_channel_id r < 2 ^ 63)%Z t ->
  Forall (fun r => - 2 ^ 63 <= r_channel_id r < 2 ^ 63)%Z (upsert_dead_target b c code m since t).
Proof.
  intros Hc Ht. rewrite Forall_forall in *. unfold upsert_dead_target. destruct (existsb _ t); intros r Hr.
  - apply in_update_where in Hr as (r0 & Hr0 & ->). specialize (Ht r0 Hr0). by destruct (of_target b c r0).
  - apply elem_of_app in Hr as [Hr|Hr]; [by apply Ht|]. apply list_elem_of_singleton in Hr as ->. simpl. unfold as_i64.
    destruct (N.ltb_spec c (2 ^ 63)); lia.
Qed.

Lemma delete_range (p : DeadTargetRow -> bool) (P : DeadTargetRow -> Prop) t : Forall P t -> Forall P (delete_where p t).
Proof. rewrite !Forall_forall. intros Ht r [Hr _]%in_delete_where. by apply Ht. Qed.

Lemma mirrored_task rfc now s : mirrored s -> mirrored (run_nth rfc 0 now s).
Proof.
  intros [H1 H2 H3 H4 H5 H6 H7]. unfold run_nth. destruct (tasks s) as [|t l] eqn:E; simpl; [by split; rewrite ?E|].
  apply Forall_cons in H3 as [Ht Hl].
  assert (tasks (snd (run (run_task rfc t now) (set_tasks l s))) = l) as Htl by by destruct t.
  split; rewrite ?run_task_registry, ?Htl; simpl; auto.
  - destruct t; simpl; [by apply upsert_unique|by apply NoDup_map_delete|by apply NoDup_map_delete].
  - destruct t as [b c code m|b c|c]; simpl; [apply upsert_range; [apply Ht|done]|by apply delete_range|by apply delete_range].
  - intros k Hk. rewrite <- H7 by done. simpl. apply settle_ext. by rewrite row_view_task.
Qed.

Lemma mirrored_op rfc o s : ordinary o -> mirrored s -> mirrored (target_op rfc o s).
Proof.
  intros Ho Hm. pose proof Hm as [H1 H2 H3 H4 H5 H6 H7].
  destruct o as [b c now|b c code reason now|b c|c|i now]; cbn [target_op ordinary] in *.
  - apply mirrored_same; [done|..].
    all: unfold is_dead_for_bot, expired; rewrite ?H2; destruct (inner (registry s) !! (b, c)) as [e|] eqn:He; try done.
    all: destruct (probe_due _ _ _); try done.
    intros k. simpl. destruct (decide (k = (b, c))) as [->|Hne]; [by rewrite lookup_insert_eq, He|by rewrite lookup_insert_ne].
  - apply mirrored_spawn; simpl; auto.
    + intros k e. destruct (decide (k = (b, c))) as [->|Hne]; [intros _; apply Ho|]. rewrite lookup_insert_ne by done. apply H6.
    + intros k Hk. destruct (decide (k = (b, c))) as [->|Hne]; [by rewrite lookup_insert_eq|by rewrite lookup_insert_ne].
  - apply mirrored_spawn; simpl; auto.
    + intros k e. destruct (decide (k = (b, c))) as [->|Hne]; [by rewrite lookup_delete_eq|]. rewrite lookup_delete_ne by done. apply H6.
    + intros k Hk. destruct (decide (k = (b, c))) as [->|Hne]; [by rewrite lookup_delete_eq|by rewrite lookup_delete_ne].
  - apply mirrored_spawn; simpl; auto.
    + intros k e [He _]%map_lookup_filter_Some. by apply (H6 k e).
    + intros k Hk. unfold off_channel. rewrite map_lookup_filter. destruct (inner (registry s) !! k) as [e|]; simpl; [|by case_decide].
      destruct (decide (k.2 = c)) as [E|E]; [rewrite option_guard_False; naive_solver|by rewrite option_guard_True].
  - subst i. by apply mirrored_task.
Qed.

Definition booted (p : Z) (rows : list DeadTargetRow) : TargetStore :=
  mkTargets (with_probe_interval p (with_pool empty_registry)) rows [].

Lemma mirrored_booted p : mirrored (booted p []).
Proof. split; simpl; try done; constructor. Qed.

Lemma mirrored_ops rfc l s : Forall ordinary l -> mirrored s -> mirrored (target_ops rfc l s).
Proof.
  intros Hl. revert s. unfold target_ops. induction Hl as [|o l Ho _ IH]; intros s Hs; [done|]. apply IH. by apply mirrored_op.
Qed.

(** Loading rows that are unique per target. *)
Lemma load_rows_view parse now t : forall m k,
  in_u64 k -> NoDup (map (fun r => (r_bot_id r, r_channel_id r)) t) ->
  Forall (fun r => - 2 ^ 63 <= r_channel_id r < 2 ^ 63)%Z t ->
  entry_verdict <$> fold_left (load_row parse now)
    (map (fun row => (r_bot_id row, u64_of (r_channel_id row), as_u16 (r_status_code row), r_error_message row, r_dead_since row)) t) m !! k
  = match row_view t k with Some v => Some v | None => entry_verdict <$> m !! k end.
Proof.
  induction t as [|r t IH]; intros m k Hk Hn Hr; [done|]. simpl in *.
  apply NoDup_cons in Hn as [Hnew Hn]. apply Forall_cons in Hr as [Hr0 Hr]. rewrite IH by done.
  unfold row_view. simpl. destruct (of_target k.1 k.2 r) eqn:E.
  - apply of_target_spec in E as [E1 E2]. simpl.
    destruct (List.find (of_target k.1 k.2) t) as [r'|] eqn:F; simpl.
    + apply find_some in F as [Hin F]. apply of_target_spec in F as [F1 F2]. exfalso. apply Hnew, list_elem_of_fmap.
      exists r'. split; [congruence|by apply list_elem_of_In].
    + rewrite E2, u64_of_i64 by done. destruct k as [b c]. simpl in *. subst b. by rewrite lookup_insert_eq.
  - rewrite lookup_insert_ne; [done|]. intros <-. simpl in E. apply not_true_iff_false in E. apply E, of_target_spec.
    by rewrite i64_of_u64.
Qed.

(** Dead targets survive a restart: after any marks, checks and clears of a
    registry with a database, once the spawned writes have run in the order
    spawned and without failing, a fresh registry that loads the table knows
    exactly the targets the old one knew, with their codes and reasons. *)
Theorem dead_targets_survive_restart (rfc : Z -> string) (parse : string -> option Z) (p now : Z) (l : list TargetOp) :
  Forall ordinary l ->
  let s := target_ops rfc l (booted p []) in
  tasks s = [] ->
  exists s', run (load_from_db parse now) (booted p (dead_targets s)) = (Ok tt, s') /\
    (forall k, in_u64 k -> entry_verdict <$> inner (registry s') !! k = entry_verdict <$> inner (registry s) !! k).
Proof.
  intros Hl s Hq. pose proof (mirrored_ops rfc l _ Hl (mirrored_booted p)) as [H1 H2 H3 H4 H5 H6 H7]. fold s in H1, H2, H3, H4, H5, H6, H7.
  eexists. split; [reflexivity|]. intros k Hk. simpl. rewrite load_rows_view by done. rewrite lookup_empty. simpl.
  rewrite <- H7, Hq by done. simpl. by destruct (row_view (dead_targets s) k).
Qed.

(** ** Concrete runs *)

Definition a_date (_ : Z) : string := "2026-01-01T00:00:00+00:00".
Definition no_date (_ : string) : option Z := None.

(** Two spawned writes in the other order: the target was cleared, its row stays
    and comes back at the next start. *)
Definition marked_then_cleared : list TargetOp :=
  [OMark "a" 7 404 "Unknown Channel" 0; OClear "a" 7; OTask 1 5; OTask 0 6]%N.

Theorem late_write_resurrects :
  let s := target_ops a_date marked_then_cleared (booted 60 []) in
  inner (registry s) = ∅ /\ tasks s = [] /\ length (dead_targets s) = 1 /\
  fst (is_dead_for_bot "a" 7 10 (registry (snd (run (load_from_db no_date 9) (booted 60 (dead_targets s)))))) = true.
Proof. vm_compute. done. Qed.

Definition one_dead : TargetStore := target_op a_date (OMark "a" 7 404 "Unknown Channel" 0) (booted 60 []).

Lemma probes_rationed_witness :
  fst (is_dead_for_bot "a" 7 60 (registry one_dead)) = false /\
  exists e', inner (registry (target_ops a_date [OCheck "a" 7 90; OTask 0 91; OClear "b" 7]
                               (target_op a_date (OCheck "a" 7 60) one_dead))) !! ("a", 7%N) = Some e' /\ (60 <= last_seen e')%Z.
Proof.
  split; [vm_compute; reflexivity|].
  edestruct (probes_rationed a_date "a" 7 60 100 60 [OCheck "a" 7 90; OTask 0 91; OClear "b" 7] one_dead) as (e' & H1 & H2 & _).
  - reflexivity.
  - reflexivity.
  - lia.
  - vm_compute. reflexivity.
  - vm_compute. reflexivity.
  - constructor; [simpl; lia|]. constructor; [exact I|]. constructor; [simpl; congruence|constructor].
  - exists e'. split; [exact H1|exact H2].
Defined.

Definition busy_day : list TargetOp :=
  [OMark "a" 7 404 "Unknown Channel" 0; OMark "b" 7 403 "Missing Access" 1; OTask 0 2; OClear "a" 7; OCheck "b" 7 80;
   OMark "b" 18446744073709551615 403 "Missing Access" 90; OTask 0 91; OTask 0 92; OTask 0 93]%N.

Lemma dead_targets_survive_restart_witness :
  exists s', run (load_from_db no_date 100) (booted 60 (dead_targets (target_ops a_date busy_day (booted 60 [])))) = (Ok tt, s') /\
    entry_verdict <$> inner (registry s') !! ("b", 7%N) = Some (403%N, "Missing Access").
Proof.
  edestruct (dead_targets_survive_restart a_date no_date 60 100 busy_day) as (s' & H1 & H2).
  - repeat constructor.
  - vm_compute. reflexivity.
  - exists s'. split; [exact H1|]. rewrite H2 by reflexivity. vm_compute. reflexivity.
Defined.
