(* ===== verification/Outgoing.v ===== *)
(** * The text of outgoing messages

    The functions that shape what is sent before it is sent: silence and
    reasoning ([src/models/events.rs]), media directives and the paths they may
    name, titles, footers, channel context, approval texts and voice files
    ([src/discord/adapter.rs]).  Text is UTF-8 bytes; the regular expressions
    are the source's, their engine is a library. *)
From stdpp Require Import base list strings gmap.
From Stdlib Require Import ZArith NArith Lia Ascii String.
From S2P Require Import Prelude RustStr Db Schedule Shell Detect Terminal Inbound.
Open Scope string_scope.
Local Notation length := Datatypes.length.
Local Notation trim := RustStr.trim.
Local Notation chars := RustStr.chars.
Local Notation is_prefix := Detect.is_prefix.

Definition lf : string := String LF "".
Definition is_empty (s : string) : bool := String.eqb s "".
Definition count_chars (s : string) : nat := length (chars s).
Definition take_str_chars (n : nat) (s : string) : string := of_chars (take n (chars s)).
Definition trim_chars_start (p : string -> bool) (s : string) : string := of_chars (drop_while p (chars s)).
Definition trim_chars_end (p : string -> bool) (s : string) : string := of_chars (rev (drop_while p (rev (chars s)))).

(** ** Silence, reasoning and the intent gate *)

Definition SILENCE_SENTINELS : list string := ["[SILENT]"; "SILENT"; "NO_REPLY"; "NO REPLY"].

Definition SILENCE_NARRATION_RE : Pattern :=
  plain "(?i)^[\s*_~`]*\(?\s*(silent|silence|no\s+response|no\s+reply)\s*\.?\)?[\\s*_~`]*$|^[\s*_~`]*[\x{1f507}\.\x{2026}]+[\s*_~`]*$".

Definition REASONING_TAGS_RE : Pattern :=
  plain "(?is)<\s*(?:think|thought|reasoning)\b[^>]*>.*?(?:<\s*/\s*(?:think|thought|reasoning)\s*>|$)".

Definition is_ascii_punctuation (c : string) : bool :=
  match c with
  | String a "" => in_range a 33 47 || in_range a 58 64 || in_range a 91 96 || in_range a 123 126
  | _ => false
  end.
Definition at_edge (c : string) : bool := is_ascii_punctuation c && negb (String.eqb c "[") && negb (String.eqb c "]").

Definition strip_edge_silence_punctuation (text : string) : string :=
  trim_chars_end at_edge (trim_chars_start at_edge (trim text)).

Section Silence.
Context `{Regex} (unicode_upper : string -> string).

Definition is_sentinel (s : string) : bool :=
  existsb (String.eqb (to_uppercase unicode_upper (join " " (split_whitespace s)))) SILENCE_SENTINELS.

Definition is_silence_response (text : string) : bool :=
  let stripped := trim text in
  if is_empty stripped then true
  else if (64 <? count_chars stripped)%nat then false
  else if is_sentinel stripped then true
  else
    let edge_stripped := strip_edge_silence_punctuation stripped in
    if negb (is_empty edge_stripped) && is_sentinel edge_stripped then true
    else is_match SILENCE_NARRATION_RE stripped.

Definition is_explicit_silence (text : string) : bool :=
  let stripped := trim text in
  if is_empty stripped then false else is_silence_response stripped.

Definition filter_reasoning (text : string) : string := trim (replace_all REASONING_TAGS_RE "" text).
End Silence.

Definition filter_intent_gate (text : string) : string :=
  if negb (starts_with "> I read this as" (trim_chars_start is_white text)) then text
  else trim (join lf (drop_while (fun line => let l := trim line in starts_with ">" l || is_empty l) (lines text))).

(** ** Media *)

(** [Regex::captures_iter]: for each match its groups, from the first. *)
Class Captures := captures_iter : Pattern -> string -> list (list (option string)).

Definition MEDIA_DIRECTIVE_RE : Pattern :=
  plain ("(?i)(?:[`" ++ dq ++ "'])?MEDIA:\s*(?:" ++ dq ++ "([^" ++ dq ++ "\r\n]+)" ++ dq ++ "|'([^'\r\n]+)'|`([^`\r\n]+)`|([^\s`"
         ++ dq ++ "'\r\n]+))(?:[`" ++ dq ++ "'])?").

(** The outside a path is checked against: what exists, the temporary directory
    and the current one. *)
Record MediaEnv : Type := mkMediaEnv {
  path_exists : string -> bool;
  temp_dir : string;
  current_dir : option string
}.

Section Media.
Context `{Regex} `{Captures} `{FileSystem} (unicode_upper : string -> string).

Definition canonical_or (path fallback : string) : string :=
  match canonicalize path with Ok p => p | Err _ => fallback end.

Definition validate_media_path (env : MediaEnv) (raw_path : string) : result string OmonError :=
  if negb (path_exists env raw_path) then Err (Config ("media file does not exist: " ++ raw_path))
  else match canonicalize raw_path with
  | Err e => Err (Config ("failed to canonicalize media path " ++ raw_path ++ ": " ++ e))
  | Ok canonical =>
      let temp := canonical_or (temp_dir env) (temp_dir env) in
      let cwd := match current_dir env with Some p => canonical_or p "." | None => "." end in
      let is_in_temp := path_starts_with canonical temp || starts_with "/tmp" canonical
                        || starts_with "/private/tmp" canonical || starts_with "/var/tmp" canonical in
      let is_in_cwd := path_starts_with canonical cwd in
      if starts_with "/etc" canonical || starts_with "/proc" canonical || starts_with "/sys" canonical
         || contains ".ssh" canonical || contains ".gnupg" canonical || (negb is_in_temp && negb is_in_cwd)
      then Err (Config ("media path outside authorized roots: " ++ raw_path))
      else Ok canonical
  end.

(** The path of one match: the first group that took part, trimmed. *)
Definition captured_path (groups : list (option string)) : option string :=
  match omap id (take 4 groups) with
  | p :: _ => let clean_path := trim p in if is_empty clean_path then None else Some clean_path
  | [] => None
  end.

(** A line: what is kept of it and the paths it names. *)
Definition media_line (line : string) : list string * list string :=
  if negb (contains "MEDIA:" (to_uppercase unicode_upper line)) then ([line], [])
  else
    match omap captured_path (captures_iter MEDIA_DIRECTIVE_RE line) with
    | [] => ([line], [])
    | line_paths =>
        let trimmed := trim (replace_all MEDIA_DIRECTIVE_RE "" line) in
        (if is_empty trimmed then [] else [trimmed], line_paths)
    end.

Definition extract_media_directives (text : string) : string * list string :=
  let preprocessed := replace_str "[[as_document]]" "" (replace_str "[[audio_as_voice]]" "" text 0) 0 in
  let parts := map media_line (lines preprocessed) in
  (trim (join lf (List.concat (map fst parts))), List.concat (map snd parts)).
End Media.

(** ** Context, titles and footers *)

Definition should_chunk_reference (chunk_index : nat) (reply_to : option N) : option N :=
  if (chunk_index =? 0)%nat then reply_to else None.

Definition MAX_CONTEXT_LINE_CHARS : nat := 200.
Definition MENTION_RE : Pattern := plain "<@!?[0-9]+>|<#[0-9]+>|<@&[0-9]+>".

Section Titles.
Context `{Regex}.

Definition context_line (message : string * string) : option string :=
  let author := neutralize_untrusted_inline_text message.1 64 in
  let truncated := neutralize_untrusted_inline_text message.2 MAX_CONTEXT_LINE_CHARS in
  if is_empty author || is_empty truncated then None else Some (author ++ ": " ++ truncated).

Definition format_channel_context (messages : list (string * string)) : string :=
  match omap context_line messages with
  | [] => ""
  | ls => "[Recent channel context]" ++ lf ++ join lf ls
  end.

Definition format_channel_topic_context (channel_topic parent_topic : option string) : string :=
  let block (title : string) (topic : option string) :=
    match topic with
    | Some t => if is_empty (trim t) then [] else [("[" ++ title ++ "]" ++ lf ++ trim t)%string]
    | None => []
    end in
  join (lf ++ lf) (block "Forum Description" parent_topic ++ block "Channel Topic" channel_topic)%list.

Definition collapse (s : string) : string := trim (join " " (split_whitespace s)).

Definition derive_auto_thread_name (content : string) (bot_user_id : N) : string :=
  let trimmed := collapse (strip_bot_mention content bot_user_id) in
  if is_empty trimmed then "Conversation"
  else if (80 <? count_chars trimmed)%nat then take_str_chars 77 trimmed ++ "..."
  else trimmed.

Definition title_start (c : string) : bool := existsb (String.eqb c) ["#"; ">"; "*"; "_"; "`"; "~"] || is_white c.
Definition title_end (c : string) : bool := existsb (String.eqb c) ["*"; "_"; "`"; "~"] || is_white c.

Definition derive_forum_post_title (content : string) : string :=
  let first_line := default "New Discussion" (List.find (fun l => negb (is_empty l)) (map trim (lines content))) in
  let no_mentions := replace_all MENTION_RE "" first_line in
  let stripped := trim_chars_end title_end (trim_chars_start title_start no_mentions) in
  let trimmed := collapse stripped in
  if is_empty trimmed then "New Discussion"
  else if (100 <? count_chars trimmed)%nat then take_str_chars 97 trimmed ++ "..."
  else if (count_chars trimmed <? 2)%nat then trimmed ++ " Discussion"
  else trimmed.
End Titles.

(** [Path::strip_prefix], on a path without repeated separators. *)
Definition path_strip_prefix (path base : string) : option string :=
  if is_prefix (components base) (components path)
  then Some (join "/" (drop (length (components base)) (components path))) else None.

Definition format_runtime_footer (home model : option string) (context_percent : option N) (cwd : option string) : string :=
  let part (s : string) := if is_empty s then [] else [s] in
  join " · "
    (match model with
     | Some m => if is_empty (trim m) then [] else [List.last (split_char "/" (trim m)) ""]
     | None => []
     end ++
     match context_percent with Some pct => [(show_N (N.min pct 100) ++ "%")%string] | None => [] end ++
     match cwd with
     | Some path =>
         part (trim (match home ≫= path_strip_prefix path with Some rel => ("~/" ++ rel)%string | None => path end))
     | None => []
     end)%list.

Definition append_runtime_footer (content : string) (home model : option string) (context_percent : option N) (cwd : option string) : string :=
  let footer := format_runtime_footer home model context_percent cwd in
  if is_empty footer then content
  else if is_empty (trim content) then footer
  else content ++ lf ++ lf ++ "_" ++ footer ++ "_".

(** ** Approval prompts *)

Definition APPROVAL_REASON_BUDGET : nat := 300.
Definition APPROVAL_COMMAND_EMBED_LIMIT : nat := 4000.
Definition APPROVAL_CONTENT_LIMIT : nat := 2000.

Definition truncate_approval_reason (reason : string) : string :=
  let trimmed := trim reason in
  if (APPROVAL_REASON_BUDGET <? count_chars trimmed)%nat
  then take_str_chars (APPROVAL_REASON_BUDGET - 18) trimmed ++ "... [truncated]"
  else if is_empty trimmed then "dangerous command" else trimmed.

Definition truncate_approval_command (command : string) (max_len : nat) : string :=
  let trimmed := trim command in
  if (max_len <? count_chars trimmed)%nat
  then take_str_chars (max_len - 18) trimmed ++ lf ++ "... [truncated]"
  else trimmed.

(** The description and the reason of the embed. *)
Definition build_approval_embed (command reason : string) : string * string :=
  ("```text" ++ lf ++ truncate_approval_command command APPROVAL_COMMAND_EMBED_LIMIT ++ lf ++ "```",
   truncate_approval_reason reason).

Definition approval_prefix : string :=
  "⚠️ **Approval Required**" ++ lf ++ lf ++ "Command requested:" ++ lf ++ "```text" ++ lf.
Definition approval_suffix (reason : string) : string :=
  lf ++ "```" ++ lf ++ "**Reason:** " ++ truncate_approval_reason reason.

Definition build_approval_content (command reason : string) : string :=
  let suffix := approval_suffix reason in
  let budget := APPROVAL_CONTENT_LIMIT - (len approval_prefix + len suffix) in
  approval_prefix ++ truncate_approval_command command budget ++ suffix.

Definition build_approval_mentions (allowed_users : list N) (enabled : bool) : option string :=
  if negb enabled || (length allowed_users =? 0)%nat then None
  else Some (join " " (map (fun uid => "<@" ++ show_N uid ++ ">") (order_by Z.of_N allowed_users))).

Definition build_approval_content_with_mentions (command reason : string) (allowed_users : list N) (mentions_enabled : bool) : string :=
  let plain_content := build_approval_content command reason in
  match build_approval_mentions allowed_users mentions_enabled with
  | Some mentions => mentions ++ lf ++ lf ++ plain_content
  | None => plain_content
  end.

(** ** Voice files *)

Definition is_voice_audio_file (filename : string) (content_type : option string) : bool :=
  match content_type with
  | Some ct =>
      let ct_lower := to_ascii_lowercase ct in
      contains "voice" ct_lower || starts_with "audio/ogg; codecs=opus" ct_lower || starts_with "audio/opus; voice=true" ct_lower
  | None => false
  end ||
  let lower := to_ascii_lowercase filename in
  contains "voice-message" lower || contains "voice_message" lower || contains "voice-note" lower || contains "voice_note" lower
  || Events.ends_with ".voice.ogg" lower || Events.ends_with ".voice.opus" lower.

(** [chunks(step)]: pieces of [step] bytes, [step] positive. *)
Fixpoint chunks_of (fuel step : nat) (l : list N) : list (list N) :=
  match fuel, l with
  | S f, _ :: _ => take step l :: chunks_of f step (drop step l)
  | _, _ => []
  end.

(** The samples of the waveform: the loudest byte of each piece. *)
Definition waveform_samples (audio_bytes : list N) : list N :=
  match audio_bytes with
  | [] => repeat 0%N 64
  | _ =>
      let sample_count := Nat.min 128 (length audio_bytes) in
      let step := Nat.max (length audio_bytes / sample_count) 1 in
      map (fun chunk => fold_right N.max 0%N chunk) (take sample_count (chunks_of (length audio_bytes) step audio_bytes))
  end.

(** ** Counting characters *)

Lemma length_chars_cons c s : length (chars (String c s)) <= S (length (chars s)).
Proof. rewrite chars_cons. destruct (starts_char s); simpl; [lia|]. destruct (chars s); simpl; lia. Qed.

Lemma count_chars_len s : count_chars s <= len s.
Proof.
  unfold count_chars. induction s as [|c s IH]; [done|].
  pose proof (length_chars_cons c s). change (len (String c s)) with (S (len s)). lia.
Qed.

Lemma count_chars_app a b : count_chars (a ++ b) <= count_chars a + count_chars b.
Proof.
  unfold count_chars. induction a as [|c a IH]; [done|]. change (String c a ++ b) with (String c (a ++ b)).
  rewrite !chars_cons. destruct a as [|d a].
  - cbn [String.append starts_char]. destruct (starts_char b); simpl; [lia|]. destruct (chars b); simpl; lia.
  - cbn [String.append starts_char] in *. destruct (chars_nonempty d (a ++ b)) as (t & r & E). destruct (chars_nonempty d a) as (t' & r' & E').
    rewrite E, E' in *. destruct (is_continuation d); simpl in *; lia.
Qed.

Lemma count_of_chars l : forallb char_shape l = true -> count_chars (of_chars l) = length l.
Proof. intros Hl. unfold count_chars. by rewrite chars_of_chars. Qed.

(** Cutting never adds characters: [of_chars] glues, at most. *)
Lemma count_of_chars_le l : Forall (fun c => exists b t, c = String b t /\ all_bytes is_continuation t = true) l ->
  count_chars (of_chars l) <= length l.
Proof.
  induction 1 as [|c l (b & t & -> & Ht) _ IH]; [done|]. rewrite of_chars_cons.
  etransitivity; [apply count_chars_app|]. simpl.
  assert (forall a, count_chars (String a t) = 1) as ->; [|lia].
  unfold count_chars. clear IH. induction t as [|d t IHt]; intros a; [done|]. simpl in Ht. apply andb_true_iff in Ht as [Hd Ht].
  rewrite chars_cons. cbn [starts_char]. rewrite Hd. simpl negb. cbn iota.
  specialize (IHt Ht d). destruct (chars (String d t)); done.
Qed.

Lemma chars_pieces s : Forall (fun c => exists b t, c = String b t /\ all_bytes is_continuation t = true) (chars s).
Proof.
  pose proof (chars_shape_from s) as [Hs _]. rewrite forallb_forall in Hs. apply Forall_forall. intros c Hc.
  specialize (Hs c). rewrite <- list_elem_of_In in Hs. specialize (Hs Hc). destruct c as [|b t]; [done|]. by exists b, t.
Qed.

Lemma count_take n s : count_chars (take_str_chars n s) <= n.
Proof.
  etransitivity; [apply count_of_chars_le, Forall_take, chars_pieces|]. rewrite length_take. lia.
Qed.

(** Text: characters of one to four bytes. *)
Definition char_ok (c : string) : bool := char_shape c && (len c <=? 4)%nat.
Definition text_ok (s : string) : bool := forallb char_ok (chars s).

Lemma forallb_sub {A} (p : A -> bool) (l k : list A) :
  (forall x, x ∈ k -> x ∈ l) -> forallb p l = true -> forallb p k = true.
Proof.
  intros Hs Hl. rewrite forallb_forall in *. intros x Hx. apply Hl, list_elem_of_In, Hs. by apply list_elem_of_In.
Qed.

Lemma char_ok_shape l : forallb char_ok l = true -> forallb char_shape l = true.
Proof.
  rewrite !forallb_forall. intros Hl x Hx. specialize (Hl x Hx). unfold char_ok in Hl. by apply andb_true_iff in Hl as [? _].
Qed.

Lemma drop_while_sub {A} (p : A -> bool) (l : list A) x : x ∈ drop_while p l -> x ∈ l.
Proof.
  induction l as [|y l IH]; simpl; [done|]. destruct (p y); [|done]. intros Hx. right. by apply IH.
Qed.

Lemma trimmed_sub (p q : string -> bool) (l : list string) x : x ∈ rev (drop_while p (rev (drop_while q l))) -> x ∈ l.
Proof.
  rewrite list_elem_of_In, <- in_rev, <- list_elem_of_In. intros Hx%drop_while_sub.
  rewrite list_elem_of_In, <- in_rev, <- list_elem_of_In in Hx. by apply drop_while_sub in Hx.
Qed.

Lemma trim_text (P : string -> bool) s : forallb P (chars s) = true -> exists l, trim s = of_chars l /\ forallb P l = true.
Proof.
  intros Hs. eexists. split; [reflexivity|]. apply (forallb_sub _ (chars s)); [|done]. intros x. apply trimmed_sub.
Qed.

Lemma len_of_chars_le l : forallb char_ok l = true -> len (of_chars l) <= 4 * length l.
Proof.
  induction l as [|c l IH]; [done|]. simpl. intros [Hc Hl]%andb_true_iff. rewrite of_chars_cons, len_app.
  unfold char_ok in Hc. apply andb_true_iff in Hc as [_ Hc]. apply Nat.leb_le in Hc. specialize (IH Hl). lia.
Qed.

(** ** Approval prompts fit a message *)

Lemma reason_bytes reason : text_ok reason = true -> len (truncate_approval_reason reason) <= 1200.
Proof.
  intros Hr. destruct (trim_text char_ok reason Hr) as (l & E & Hl). unfold truncate_approval_reason, take_str_chars.
  rewrite E. unfold count_chars. rewrite chars_of_chars by by apply char_ok_shape.
  destruct (Nat.ltb_spec APPROVAL_REASON_BUDGET (length l)) as [Hlt|Hge].
  - rewrite len_app. pose proof (len_of_chars_le (take (APPROVAL_REASON_BUDGET - 18) l)) as Hb.
    rewrite length_take in Hb. unfold APPROVAL_REASON_BUDGET in *.
    assert (len "... [truncated]" = 15) as -> by reflexivity.
    assert (forallb char_ok (take (300 - 18) l) = true) as Ht.
    { apply (forallb_sub _ l); [|done]. intros x. apply subseteq_take. }
    specialize (Hb Ht). lia.
  - pose proof (len_of_chars_le l Hl). unfold APPROVAL_REASON_BUDGET in *. destruct (is_empty (of_chars l)); [by apply Nat.leb_le|lia].
Qed.

Lemma command_fits command n : 18 <= n -> count_chars (truncate_approval_command command n) <= n.
Proof.
  intros Hn. unfold truncate_approval_command. destruct (Nat.ltb_spec n (count_chars (trim command))); [|done].
  etransitivity; [apply count_chars_app|]. pose proof (count_take (n - 18) (trim command)).
  assert (count_chars (lf ++ "... [truncated]") = 16) as -> by reflexivity. lia.
Qed.

(** C22: the plain approval prompt fits one Discord message, whatever the command
    and the reason: at most 2000 characters, though its budget is counted in
    bytes, with the command cut and never the reason's fence. *)
Theorem approval_content_fits (command reason : string) :
  text_ok reason = true ->
  count_chars (build_approval_content command reason) <= APPROVAL_CONTENT_LIMIT /\
  18 <= APPROVAL_CONTENT_LIMIT - (len approval_prefix + len (approval_suffix reason)).
Proof.
  intros Hr. pose proof (reason_bytes reason Hr) as Hb.
  assert (len (approval_suffix reason) <= 1300) as Hs.
  { unfold approval_suffix. rewrite !len_app. assert (len lf + (len "```" + (len lf + len "**Reason:** ")) = 17) as Hc by reflexivity. lia. }
  assert (len approval_prefix = 57) as Hp by (vm_compute; reflexivity). unfold build_approval_content.
  assert (18 <= APPROVAL_CONTENT_LIMIT - (len approval_prefix + len (approval_suffix reason))) as Hbud.
  { unfold APPROVAL_CONTENT_LIMIT. lia. }
  split; [|done]. etransitivity; [apply count_chars_app|].
  pose proof (count_chars_len approval_prefix).
  pose proof (count_chars_app (truncate_approval_command command (APPROVAL_CONTENT_LIMIT - (len approval_prefix + len (approval_suffix reason)))) (approval_suffix reason)).
  pose proof (command_fits command _ Hbud). pose proof (count_chars_len (approval_suffix reason)). lia.
Qed.

(** ** Titles fit *)

Lemma collapse_text s : forallb char_shape (chars s) = true ->
  exists l, collapse s = of_chars l /\ forallb char_shape l = true.
Proof.
  intros Hs. unfold collapse, split_whitespace.
  assert (Forall (fun c => char_shape c = true) (chars s)) as Hf.
  { apply Forall_forall. intros c Hc. rewrite forallb_forall in Hs. apply Hs. by apply list_elem_of_In. }
  destruct (join_pieces (fun c => char_shape c = true) " " (words is_white [] (chars s))) as (l & E & Hl);
    [done|by apply words_pieces|].
  rewrite E. apply trim_text.
  assert (forallb char_shape l = true) as Hl'.
  { apply forallb_forall. intros c Hc. rewrite Forall_forall in Hl. apply Hl. by apply list_elem_of_In. }
  by rewrite chars_of_chars.
Qed.

Lemma dots_shape l : forallb char_shape l = true -> forallb char_shape (l ++ ["."; "."; "."])%list = true.
Proof. intros Hl. by rewrite forallb_app, Hl. Qed.

Lemma ellipsis n l : forallb char_shape l = true -> n <= length l ->
  count_chars (take_str_chars n (of_chars l) ++ "...") = n + 3.
Proof.
  intros Hl Hn. unfold take_str_chars. rewrite chars_of_chars by done.
  change "..." with (of_chars ["."; "."; "."]). rewrite <- of_chars_app, count_of_chars.
  - rewrite length_app, length_take. simpl. lia.
  - apply dots_shape, (forallb_sub _ l); [|done]. intros x. apply subseteq_take.
Qed.

Lemma is_empty_chars l : forallb char_shape l = true -> is_empty (of_chars l) = (length l =? 0)%nat.
Proof.
  intros Hl. destruct l as [|c l]; [done|]. unfold is_empty. apply String.eqb_neq. rewrite of_chars_cons.
  simpl in Hl. by destruct c.
Qed.

Definition forum_first_line (content : string) : string :=
  default "New Discussion" (List.find (fun l => negb (is_empty l)) (map trim (lines content))).

(** A forum title and a thread name are names Discord accepts: 2 to 100 and 1
    to 80 characters, whatever the message; the expressions that remove mentions
    only need to return text. *)
Theorem titles_fit `{Regex} (content : string) (bot : N) :
  starts_char (replace_all MENTION_RE "" (forum_first_line content)) = true ->
  starts_char (strip_bot_mention content bot) = true ->
  2 <= count_chars (derive_forum_post_title content) <= 100 /\
  1 <= count_chars (derive_auto_thread_name content bot) <= 80.
Proof.
  intros Hm Hb. split.
  - unfold derive_forum_post_title. fold (forum_first_line content). set (text := replace_all _ _ _) in *.
    assert (forallb char_shape (chars (trim_chars_end title_end (trim_chars_start title_start text))) = true) as Hs.
    { unfold trim_chars_end, trim_chars_start. apply chars_shape in Hm.
      assert (forallb char_shape (drop_while title_start (chars text)) = true) as H1 by
        (apply (forallb_sub _ (chars text)); [intros x; apply drop_while_sub|done]).
      rewrite (chars_of_chars _ H1). set (l := drop_while title_start (chars text)) in *.
      assert (forallb char_shape (rev (drop_while title_end (rev l))) = true) as H2.
      { apply (forallb_sub _ l); [|done]. intros x. rewrite list_elem_of_In, <- in_rev, <- list_elem_of_In.
        intros Hx%drop_while_sub. by rewrite list_elem_of_In, <- in_rev, <- list_elem_of_In in Hx. }
      by rewrite chars_of_chars. }
    destruct (collapse_text _ Hs) as (l & -> & Hl). rewrite is_empty_chars, count_of_chars by done.
    destruct (Nat.eqb_spec (length l) 0); [vm_compute; lia|]. destruct (Nat.ltb_spec 100 (length l)); [rewrite ellipsis by (done || lia); lia|].
    destruct (Nat.ltb_spec (length l) 2); [|rewrite count_of_chars by done; lia].
    destruct l as [|c [|d l]]; simpl in *; [lia| |lia]. rewrite andb_true_r in Hl. rewrite of_chars_cons, app_nil_r_str.
    unfold count_chars. rewrite chars_char_app by done. simpl. lia.
  - unfold derive_auto_thread_name. destruct (collapse_text _ (chars_shape _ Hb)) as (l & -> & Hl).
    rewrite is_empty_chars, count_of_chars by done.
    destruct (Nat.eqb_spec (length l) 0); [vm_compute; lia|]. destruct (Nat.ltb_spec 80 (length l)); [rewrite ellipsis by (done || lia); lia|].
    rewrite count_of_chars by done. lia.
Qed.

(** ** Waveforms *)

Lemma length_chunks_of n step l fuel : 0 < step -> n * step <= length l -> length l <= fuel -> n <= length (chunks_of fuel step l).
Proof.
  intros Hs. revert l fuel. induction n as [|n IH]; intros l fuel Hn Hf; [lia|].
  destruct fuel as [|fuel]; [lia|]. destruct l as [|x l]; [simpl in Hn; lia|]. cbn [chunks_of length].
  apply le_n_S, IH; rewrite length_drop; simpl in *; lia.
Qed.

(** One sample per byte up to 128, and bytes stay bytes. *)
Theorem waveform_bounded (audio_bytes : list N) :
  Forall (fun b => b < 256)%N audio_bytes ->
  length (waveform_samples audio_bytes) = match audio_bytes with [] => 64 | _ => Nat.min 128 (length audio_bytes) end /\
  Forall (fun b => b < 256)%N (waveform_samples audio_bytes).
Proof.
  intros Hb. destruct audio_bytes as [|x l]; [split; [done|]; apply (Forall_replicate _ 64 0%N); lia|]. unfold waveform_samples.
  set (audio := x :: l) in *. assert (0 < length audio) as Hlen by (simpl; lia). split.
  - rewrite length_map, length_take. apply Nat.min_l. apply length_chunks_of; [lia| |lia].
    rewrite Nat.max_l; [rewrite Nat.mul_comm; etransitivity; [|apply (Nat.Div0.mul_div_le (length audio) (Nat.min 128 (length audio)))]; lia|].
    apply Nat.div_le_lower_bound; lia.
  - apply Forall_map, Forall_take. set (step := Nat.max _ _). clear Hlen. clearbody audio step.
    revert Hb. generalize (length audio) as fuel. intros fuel. revert audio. induction fuel as [|f IH]; intros a Ha; [constructor|].
    destruct a as [|y a]; [constructor|]. cbn [chunks_of]. constructor; [|by apply IH, Forall_drop].
    apply (Forall_take _ step) in Ha. induction Ha as [|z k Hz _ IHk]; simpl; lia.
Qed.

(** ** Concrete texts *)

(** With the users to mention in front, the prompt of a long command is longer
    than a message. *)
Theorem mentions_overflow :
  count_chars (build_approval_content_with_mentions (of_chars (repeat "a" 2000)) "rm" [123456789012345678%N] true) = 2017.
Proof. vm_compute. reflexivity. Qed.

#[local] Instance flat_files : FileSystem := {|
  canonicalize p := Ok p; is_dir _ := false; is_file _ := true |}.
Definition in_workspace : MediaEnv := mkMediaEnv (fun _ => true) "/var/folders/tmp" (Some "/home/omon/work").

(** The text of the path is compared, not its components: a directory whose name
    begins like a temporary one is authorized. *)
Theorem beside_tmp_authorized :
  validate_media_path in_workspace "/tmp-backups/keys.txt" = Ok "/tmp-backups/keys.txt" /\
  is_ok (validate_media_path in_workspace "/home/omon/keys.txt") = false /\
  is_ok (validate_media_path in_workspace "/home/omon/work/a.png") = true.
Proof. vm_compute. done. Qed.

Lemma approval_content_fits_witness :
  text_ok "⚠️ rm" = true /\ count_chars (build_approval_content (of_chars (repeat "a" 3000)) "⚠️ rm") <= 2000.
Proof. split; [reflexivity|]. apply (approval_content_fits (of_chars (repeat "a" 3000)) "⚠️ rm"). reflexivity. Defined.

#[local] Instance keep_engine : Regex := {| is_match _ _ := false; replace_all _ _ s := s |}.

Lemma titles_fit_witness :
  2 <= count_chars (derive_forum_post_title "# x") <= 100 /\ 1 <= count_chars (derive_auto_thread_name "<@7> hi" 7) <= 80.
Proof.
  split; [apply (titles_fit "# x" 7); reflexivity|apply (titles_fit "<@7> hi" 7); reflexivity].
Defined.

Lemma waveform_bounded_witness : length (waveform_samples (repeat 200%N 300)) = 128.
Proof. apply (waveform_bounded (repeat 200%N 300)). apply (Forall_replicate _ 300 200%N). lia. Defined.
