(* ===== verification/Tables.v ===== *)
(** * Markdown tables ([src/discord/table_render/mod.rs])

    Finding the tables of a message outside its code blocks, and replacing each
    by a placeholder that names its picture.  Drawing the picture (an SVG text
    laid out in floats, and the crates that rasterize it) is an argument. *)
From stdpp Require Import base list strings.
From Stdlib Require Import ZArith NArith Lia Ascii String.
From S2P Require Import Prelude RustStr Shell Outgoing.
Open Scope string_scope.
Local Notation length := Datatypes.length.
Local Notation trim := RustStr.trim.
Local Notation chars := RustStr.chars.

Definition BAR : ascii := "|".

Record MarkdownTable : Type := mkTable { headers : list string; rows : list (list string); raw : string }.

Record RenderedTable : Type := mkRendered { original_text : string; png_bytes : string; rendered_filename : string }.

(** [s.ends_with(c)] for an ASCII [c]. *)
Definition ends_with_char (c : ascii) (s : string) : bool :=
  match strip_suffix_char c s with Some _ => true | None => false end.

Definition parse_table_row (line : string) : list string :=
  let trimmed := trim line in
  let inner := default trimmed (strip_suffix_char BAR (default trimmed (strip_prefix "|" trimmed))) in
  map (fun col => replace_str "<br/>" lf (replace_str "<br>" lf (trim col) 0) 0) (split_char BAR inner).

Definition rule_char (c : string) : bool := existsb (String.eqb c) ["-"; ":"; " "].

Definition is_table_separator (line : string) : bool :=
  let trimmed := trim line in
  if negb (contains "|" trimmed) then false
  else
    let inner := default trimmed (strip_prefix "|" trimmed) in
    let inner := default inner (strip_suffix_char BAR inner) in
    forallb (fun col => let col := trim col in negb (is_empty col) && forallb rule_char (chars col)) (split_char BAR inner).

(** [split_inclusive('\n')]. *)
Fixpoint split_inclusive (s : string) : list string :=
  match s with
  | "" => []
  | String c r =>
      if Ascii.eqb c LF then String c "" :: split_inclusive r
      else match split_inclusive r with l :: ls => String c l :: ls | [] => [String c ""] end
  end.

(** [trim_end_matches(['\r', '\n'])]. *)
Definition trim_eol (s : string) : string :=
  string_of_list_ascii (rev (drop_while (fun c => Ascii.eqb c CR || Ascii.eqb c LF) (rev (list_ascii_of_string s)))).

(** Lines with the byte offset each starts at. *)
Fixpoint with_starts (offset : nat) (l : list string) : list (nat * string) :=
  match l with [] => [] | line :: rest => (offset, trim_eol line) :: with_starts (offset + len line) rest end.

Definition Line : Type := nat * string.
Definition line_text (l : Line) : string := trim l.2.
Definition line_end (l : Line) : nat := l.1 + len l.2.

Fixpoint take_while {A} (p : A -> bool) (l : list A) : list A :=
  match l with x :: r => if p x then x :: take_while p r else [] | [] => [] end.

(** A code block's opening: its marker and how long it is. *)
Definition Fence : Type := string * nat.

Definition marker_of (line : string) : string := List.hd " " (chars line).
Definition marker_len (line : string) : nat := length (take_while (String.eqb (marker_of line)) (chars line)).
Definition opens_fence (line : string) : bool :=
  (String.eqb (marker_of line) "`" || String.eqb (marker_of line) "~") && (3 <=? marker_len line)%nat.
Definition closes_fence (fence : Fence) (line : string) : bool :=
  String.eqb (marker_of line) fence.1 && (fence.2 <=? marker_len line)%nat && is_empty (trim (drop_str (marker_len line) line)).

Definition is_row (l : Line) : bool := starts_with "|" (line_text l) && ends_with_char BAR (line_text l).

(** A table at this line: the lines of its rows. *)
Definition table_at (l : Line) (rest : list Line) : option (list Line) :=
  if is_row l then
    match rest with
    | next_line :: more =>
        if is_table_separator (line_text next_line) then
          match take_while is_row more with [] => None | rows => Some rows end
        else None
    | [] => None
    end
  else None.

Definition slice (a b : nat) (s : string) : string := take_str (b - a) (drop_str a s).

Definition Span : Type := nat * nat.

Definition table_of (text : string) (l : Line) (row_lines : list Line) : Span * MarkdownTable :=
  let span := (l.1, line_end (List.last row_lines l)) in
  (span, mkTable (parse_table_row (line_text l)) (map (fun r => parse_table_row (line_text r)) row_lines)
           (slice span.1 span.2 text)).

Fixpoint table_loop (fuel : nat) (text : string) (ls : list Line) (fence : option Fence) : list (Span * MarkdownTable) :=
  match fuel, ls with
  | S f, l :: rest =>
      let line := line_text l in
      match fence with
      | Some open => table_loop f text rest (if closes_fence open line then None else fence)
      | None =>
          if opens_fence line then table_loop f text rest (Some (marker_of line, marker_len line))
          else match table_at l rest with
               | Some row_lines => table_of text l row_lines :: table_loop f text (drop (S (length row_lines)) rest) None
               | None => table_loop f text rest None
               end
      end
  | _, _ => []
  end.

Definition text_lines (text : string) : list Line := with_starts 0 (split_inclusive text).

Definition extract_markdown_table_spans (text : string) : list (Span * MarkdownTable) :=
  table_loop (length (text_lines text)) text (text_lines text) None.

Definition extract_markdown_tables (text : string) : list MarkdownTable := map snd (extract_markdown_table_spans text).

Section Transform.
(** [svg_to_png(&render_table_to_svg(&table), 2.0)]. *)
Context (render : MarkdownTable -> result string string).

Definition table_filename (idx : nat) : string := "table_" ++ show_N (N.of_nat (idx + 1)) ++ ".png".
Definition placeholder (filename : string) : string := lf ++ "*(📊 아래 첨부된 표 [" ++ filename ++ "] 참조)*" ++ lf.

Fixpoint transform_loop (content : string) (idx cursor : nat) (tables : list (Span * MarkdownTable)) : string * list RenderedTable :=
  match tables with
  | [] => (drop_str cursor content, [])
  | (span, table) :: rest =>
      match render table with
      | Ok png =>
          let filename := table_filename idx in
          let '(modified, rendered) := transform_loop content (S idx) span.2 rest in
          (slice cursor span.1 content ++ placeholder filename ++ modified, mkRendered (raw table) png filename :: rendered)
      | Err _ => transform_loop content (S idx) cursor rest
      end
  end.

Definition transform_markdown_tables_to_images (content : string) : string * list RenderedTable :=
  match extract_markdown_table_spans content with
  | [] => (content, [])
  | tables => transform_loop content 0 0 tables
  end.
End Transform.

(** ** Lines and offsets *)

Lemma slice_full a s : slice a (len s) s = drop_str a s.
Proof.
  unfold slice. rewrite <- (take_drop_str (len s - a) (drop_str a s)) at 2.
  replace (drop_str (len s - a) (drop_str a s)) with ""; [by rewrite app_nil_r_str|].
  symmetry. enough (len (drop_str (len s - a) (drop_str a s)) = 0) as H by (by destruct (drop_str _ _)).
  rewrite !len_drop_str. lia.
Qed.

Lemma slice_drop a b s : a <= b -> drop_str a s = slice a b s ++ drop_str b s.
Proof.
  intros Hab. unfold slice. rewrite <- (take_drop_str (b - a) (drop_str a s)) at 1. f_equal.
  rewrite drop_drop_str. f_equal. lia.
Qed.

Lemma len_trim_eol s : len (trim_eol s) <= len s.
Proof.
  unfold trim_eol. assert (forall l, len (string_of_list_ascii l) = length l) as Hl.
  { induction l as [|c l IH]; [done|]. simpl. unfold len in *. simpl. by rewrite IH. }
  rewrite Hl, length_rev.
  assert (forall p (l : list ascii), length (drop_while p l) <= length l) as Hd.
  { induction l as [|c l IH]; simpl; [done|]. destruct (p c); simpl; lia. }
  etransitivity; [apply Hd|]. rewrite length_rev, <- Hl, string_of_list_ascii_of_string. done.
Qed.

Fixpoint total (l : list string) : nat := match l with [] => 0 | x :: r => len x + total r end.

Lemma split_inclusive_total s : total (split_inclusive s) = len s.
Proof.
  induction s as [|c r IH]; [done|]. simpl. change (len (String c r)) with (S (len r)). destruct (Ascii.eqb c LF); simpl; [by rewrite IH|].
  destruct (split_inclusive r) as [|l ls]; simpl in *.
  - unfold len in *; simpl. lia.
  - change (len (String c l)) with (S (len l)). lia.
Qed.

(** Lines of [text] in order, between [from] and [upto]. *)
Inductive laid : nat -> nat -> list Line -> Prop :=
| laid_nil a b : a <= b -> laid a b []
| laid_cons a b l ls : a <= l.1 -> laid (line_end l) b ls -> laid a b (l :: ls).

Lemma laid_weaken a a' b ls : a' <= a -> laid a b ls -> laid a' b ls.
Proof. intros Ha Hl. destruct Hl; constructor; try done; lia. Qed.

Lemma laid_with_starts offset ls : laid offset (offset + total ls) (with_starts offset ls).
Proof.
  revert offset. induction ls as [|l ls IH]; intros offset; simpl; constructor; [lia|done|].
  specialize (IH (offset + len l)). rewrite <- Nat.add_assoc in IH. eapply laid_weaken; [|exact IH].
  unfold line_end. simpl. pose proof (len_trim_eol l). lia.
Qed.

Lemma laid_bound a b ls : laid a b ls -> a <= b.
Proof. induction 1 as [|a b l ls Ha _ IH]; [done|]. unfold line_end in IH. lia. Qed.

Lemma laid_drop a b ls n : laid a b ls -> laid a b (drop n ls).
Proof.
  intros Hl. revert n. induction Hl as [a b Hab|a b l ls Ha Hl IH]; intros n; [destruct n; by constructor|].
  destruct n as [|n]; [by constructor|]. simpl. eapply laid_weaken; [|apply IH]. unfold line_end. lia.
Qed.

(** The end of a prefix, and what comes after it. *)
Lemma laid_split a b ls k l : laid a b (ls ++ k) -> ls <> [] -> laid (line_end (List.last ls l)) b k.
Proof.
  revert a. induction ls as [|x ls IH]; intros a Hl Hne; [done|]. simpl in Hl. inversion Hl as [|? ? ? ? Ha Hr]; subst.
  destruct ls as [|y ls]; [exact Hr|]. by eapply IH.
Qed.

Lemma take_while_split {A} (p : A -> bool) l : l = (take_while p l ++ drop (length (take_while p l)) l)%list /\ Forall (fun x => p x = true) (take_while p l).
Proof.
  induction l as [|x l [IH1 IH2]]; simpl; [done|]. destruct (p x) eqn:E; simpl; [|done]. split; [by f_equal|by constructor].
Qed.

(** ** Tables and code blocks *)

Definition fence_step (fence : option Fence) (l : Line) : option Fence :=
  match fence with
  | Some open => if closes_fence open (line_text l) then None else fence
  | None => if opens_fence (line_text l) then Some (marker_of (line_text l), marker_len (line_text l)) else None
  end.

(** The code block a line is in, reading every line before it. *)
Definition fence_after (ls : list Line) (fence : option Fence) : option Fence := fold_left fence_step ls fence.

Lemma marker_first c s : exists t, marker_of (String c s) = String c t.
Proof. unfold marker_of. destruct (chars_nonempty c s) as (t & r & ->). by exists t. Qed.

Lemma opens_first c s : c <> "`"%char -> c <> "~"%char -> opens_fence (String c s) = false.
Proof.
  intros H1 H2. unfold opens_fence. destruct (marker_first c s) as (t & ->).
  destruct (String.eqb_spec (String c t) "`"); [congruence|]. destruct (String.eqb_spec (String c t) "~"); [congruence|done].
Qed.

Lemma row_closed l : is_row l = true -> opens_fence (line_text l) = false.
Proof.
  unfold is_row. intros [Hs _]%andb_true_iff. unfold starts_with in Hs. destruct (strip_prefix "|" (line_text l)) as [r|] eqn:E; [|done].
  apply strip_prefix_Some in E. rewrite E. by apply opens_first.
Qed.

Lemma trim_head c s : (forall t, is_white (String c t) = false) -> exists r, trim (String c s) = String c r.
Proof.
  intros Hw. unfold RustStr.trim. destruct (chars_nonempty c s) as (t & l & ->). cbn [drop_while]. rewrite Hw.
  change (rev (String c t :: l)) with (rev l ++ [String c t])%list.
  assert (exists k, drop_while is_white (rev l ++ [String c t])%list = (k ++ [String c t])%list) as [k ->].
  { generalize (rev l). intros k. induction k as [|x k [k' IH]]; simpl; [rewrite Hw; by exists []|].
    destruct (is_white x); [by exists k'|by exists (x :: k)]. }
  rewrite rev_unit, of_chars_cons. by eexists.
Qed.

Lemma strip_suffix_head c s d : d <> c -> exists r, default (String c s) (strip_suffix_char d (String c s)) = String c r.
Proof.
  intros Hd. unfold strip_suffix_char. simpl. destruct (rev (list_ascii_of_string s)) as [|e k] eqn:E; simpl.
  - destruct (Ascii.eqb_spec c d); [congruence|]. by exists s.
  - destruct (Ascii.eqb e d); [|by exists s]. rewrite rev_unit. simpl. by eexists.
Qed.

(** A rule of a table is no opening of a code block. *)
Lemma separator_closed line : is_table_separator line = true -> opens_fence line = false.
Proof.
  intros Hs. destruct line as [|c s0]; [done|]. apply not_true_is_false. intros Ho.
  assert (c = "`"%char \/ c = "~"%char) as Hc.
  { destruct (Ascii.eqb_spec c "`"%char); [by left|]. destruct (Ascii.eqb_spec c "~"%char); [by right|].
    by rewrite opens_first in Ho. }
  assert (c <> BAR) as Hbar by (destruct Hc; subst c; done).
  assert (forall t, is_white (String c t) = false) as Hw.
  { intros t. destruct Hc; subst c; destruct t; reflexivity. }
  destruct (trim_head c s0 Hw) as [s E]. unfold is_table_separator in Hs. rewrite E in Hs. destruct (contains "|" (String c s)); [|done]. cbn [negb] in Hs.
  assert (strip_prefix "|" (String c s) = None) as Hp.
  { cbn [strip_prefix]. destruct (Ascii.eqb_spec "|"%char c); [by subst c|done]. }
  rewrite Hp in Hs. change (default (String c s) None) with (String c s) in Hs. cbv zeta in Hs. destruct (strip_suffix_head c s BAR (fun H => Hbar (eq_sym H))) as [r Hr].
  rewrite Hr in Hs. cbn [split_char] in Hs.
  destruct (Ascii.eqb_spec c BAR); [done|].
  assert (exists x k, match split_char BAR r with x :: rest => String c x :: rest | [] => [String c ""] end = String c x :: k) as (x & k & Ek)
    by (destruct (split_char BAR r); by eexists _, _).
  rewrite Ek in Hs. simpl in Hs. apply andb_true_iff in Hs as [Hs _]. apply andb_true_iff in Hs as [_ Hs].
  destruct (trim_head c x Hw) as [y Hy]. rewrite Hy in Hs. destruct (chars_nonempty c y) as (t & z & Ez). rewrite Ez in Hs.
  simpl in Hs. apply andb_true_iff in Hs as [Hs _]. unfold rule_char in Hs. simpl in Hs.
  destruct Hc; subst c; simpl in Hs; by destruct t.
Qed.

Lemma block_closed h sep rs : is_row h = true -> is_table_separator (line_text sep) = true -> Forall (fun r => is_row r = true) rs ->
  opens_fence (line_text h) = false -> fence_after (h :: sep :: rs) None = None.
Proof.
  intros Hh Hsep Hrs Ho. unfold fence_after. cbn [fold_left fence_step]. rewrite Ho. cbn [fence_step].
  rewrite (separator_closed _ Hsep).
  induction Hrs as [|r rs Hr _ IH]; [done|]. cbn [fold_left fence_step]. by rewrite row_closed.
Qed.

(** A table as the message has it: where its lines are, what they are, and that
    no code block is open before them. *)
Inductive block (text : string) (ls : list Line) (fence : option Fence) : Span * MarkdownTable -> Prop :=
| block_at pre h sep rs post :
    ls = (pre ++ (h :: sep :: rs) ++ post)%list ->
    fence_after pre fence = None -> opens_fence (line_text h) = false ->
    is_row h = true -> is_table_separator (line_text sep) = true ->
    rs <> [] -> Forall (fun r => is_row r = true) rs ->
    match post with next :: _ => is_row next = false | [] => True end ->
    block text ls fence (table_of text h rs).

Lemma block_later text pre ls fence f x : fence_after pre fence = f -> block text ls f x -> block text (pre ++ ls) fence x.
Proof.
  intros Hf [pre' h sep rs post E1 E2 E3 E4 E5 E6 E7 E8]. subst ls. eapply (block_at _ _ _ (pre ++ pre')%list); eauto.
  - by rewrite <- app_assoc.
  - unfold fence_after in *. by rewrite fold_left_app, Hf.
Qed.

Lemma table_at_some l rest row_lines : table_at l rest = Some row_lines ->
  exists sep more, rest = sep :: more /\ is_row l = true /\ is_table_separator (line_text sep) = true /\
    row_lines = take_while is_row more /\ row_lines <> [].
Proof.
  unfold table_at. destruct (is_row l); [|done]. destruct rest as [|sep more]; [done|].
  destruct (is_table_separator _) eqn:E; [|done]. destruct (take_while is_row more) eqn:F; [done|].
  intros [= <-]. exists sep, more. by rewrite F.
Qed.

Lemma take_while_stop {A} (p : A -> bool) l :
  match drop (length (take_while p l)) l with x :: _ => p x = false | [] => True end.
Proof. induction l as [|x l IH]; simpl; [done|]. by destruct (p x) eqn:E. Qed.

Lemma table_loop_blocks fuel text : forall ls fence x,
  In x (table_loop fuel text ls fence) -> block text ls fence x.
Proof.
  induction fuel as [|f IH]; intros ls fence x Hx; [done|]. destruct ls as [|l rest]; [done|].
  cbn [table_loop] in Hx. cbv zeta in Hx. destruct fence as [open|].
  - apply IH in Hx. eapply (block_later _ [l]); [|exact Hx]. reflexivity.
  - destruct (opens_fence (line_text l)) eqn:Ho.
    + apply IH in Hx. eapply (block_later _ [l]); [|exact Hx]. unfold fence_after. simpl. by rewrite Ho.
    + destruct (table_at l rest) as [row_lines|] eqn:Ht.
      * apply table_at_some in Ht as (sep & more & -> & Hh & Hsep & Hr & Hne).
        pose proof (take_while_split is_row more) as [Hs Hall]. rewrite <- Hr in Hs, Hall.
        destruct Hx as [<-|Hx].
        -- eapply (block_at _ _ _ [] l sep row_lines (drop (length row_lines) more)); try done.
           ++ simpl. by rewrite <- Hs.
           ++ rewrite Hr. apply take_while_stop.
        -- simpl in Hx. apply IH in Hx. rewrite Hs. change (l :: sep :: ?a ++ ?b)%list with ((l :: sep :: a) ++ b)%list.
           eapply block_later; [|exact Hx]. by apply block_closed.
      * apply IH in Hx. eapply (block_later _ [l]); [|exact Hx]. unfold fence_after. simpl. by rewrite Ho.
Qed.

Fixpoint chained (c b : nat) (l : list Span) : Prop :=
  match l with [] => c <= b | (x, y) :: r => c <= x /\ x <= y /\ chained y b r end.

Lemma chained_weaken a a' b l : a' <= a -> chained a b l -> chained a' b l.
Proof. destruct l as [|[x y] l]; simpl; [lia|]. intros ? (? & ? & ?). split; [lia|done]. Qed.

Lemma table_loop_chained fuel text : forall ls fence a b,
  laid a b ls -> chained a b (map fst (table_loop fuel text ls fence)).
Proof.
  induction fuel as [|f IH]; intros ls fence a b Hl; [by apply laid_bound in Hl|].
  destruct ls as [|l rest]; [by apply laid_bound in Hl|]. pose proof Hl as Hl0. inversion Hl as [|? ? ? ? Ha Hr]; subst.
  assert (a <= line_end l) as Hle by (unfold line_end; lia).
  cbn [table_loop]. cbv zeta. destruct fence as [open|]; [eapply chained_weaken; [exact Hle|by apply IH]|].
  destruct (opens_fence (line_text l)); [eapply chained_weaken; [exact Hle|by apply IH]|].
  destruct (table_at l rest) as [row_lines|] eqn:Ht; [|eapply chained_weaken; [exact Hle|by apply IH]].
  apply table_at_some in Ht as (sep & more & -> & _ & _ & Hrow & Hne). simpl.
  inversion Hr as [|? ? ? ? Hs Hm]; subst. pose proof (take_while_split is_row more) as [Hsplit _].
  set (rs := take_while is_row more) in *. rewrite Hsplit in Hm.
  split; [done|]. split.
  - assert (laid (line_end sep) (line_end (List.last rs l)) rs) as Hrs.
    { clear - Hm Hne. revert Hm. generalize (line_end sep) as c. generalize (drop (length rs) more) as k. intros k.
      clearbody rs. induction rs as [|x rs IH]; intros c Hm; [done|]. inversion Hm as [|? ? ? ? Hc Hx]; subst.
      constructor; [done|]. destruct rs as [|y rs]; [by constructor|]. by apply IH. }
    apply laid_bound in Hrs. unfold line_end in *. lia.
  - apply IH. by eapply laid_split.
Qed.

Lemma text_lines_laid text : laid 0 (len text) (text_lines text).
Proof. unfold text_lines. rewrite <- (split_inclusive_total text) at 1. apply (laid_with_starts 0). Qed.

(** The tables found in a message are whole tables outside its code blocks:
    each is a header, a rule and all the rows that follow, no code block is open
    where it starts, and the spans are in order, disjoint and within the text. *)
Theorem tables_outside_code (text : string) :
  chained 0 (len text) (map fst (extract_markdown_table_spans text)) /\
  forall x, In x (extract_markdown_table_spans text) -> block text (text_lines text) None x.
Proof.
  split; [apply table_loop_chained, text_lines_laid|]. intros x. apply table_loop_blocks.
Qed.

(** ** Placeholders *)

(** The gaps of a text with something in between. *)
Fixpoint weave (gaps between : list string) : string :=
  match gaps, between with
  | g :: gs, m :: ms => g ++ m ++ weave gs ms
  | g :: _, [] => g
  | [], _ => ""
  end.

Definition pictured (text : string) (x : Span * MarkdownTable) : Prop := raw x.2 = slice x.1.1 x.1.2 text.

Lemma block_pictured text ls fence x : block text ls fence x -> pictured text x.
Proof. by intros []. Qed.

Lemma transform_loop_weaves render content tables : forall idx cursor,
  chained cursor (len content) (map fst tables) -> Forall (pictured content) tables ->
  let '(modified, rendered) := transform_loop render content idx cursor tables in
  exists gaps, length gaps = S (length rendered) /\
    drop_str cursor content = weave gaps (map original_text rendered) /\
    modified = weave gaps (map (fun r => placeholder (rendered_filename r)) rendered) /\
    map rendered_filename rendered `sublist_of` map table_filename (seq idx (length tables)) /\
    Forall (fun r => exists t, t ∈ map snd tables /\ raw t = original_text r /\ render t = Ok (png_bytes r)) rendered.
Proof.
  induction tables as [|[[a b] t] tables IH]; intros idx cursor Hc Hp.
  { exists [drop_str cursor content]. simpl. repeat split; constructor. }
  apply Forall_cons in Hp as [Hp Hps]. simpl in Hc. destruct Hc as (Ha & Hab & Hc). cbn [transform_loop].
  destruct (render t) as [png|e] eqn:Hr.
  - specialize (IH (S idx) b Hc Hps). cbn [fst snd]. destruct (transform_loop render content (S idx) b tables) as [m r].
    destruct IH as (gaps & H1 & H2 & H3 & H4 & H5). exists (slice cursor a content :: gaps). simpl.
    split; [by f_equal|]. split.
    { rewrite (slice_drop cursor a) by done. f_equal. rewrite (slice_drop a b) by done. unfold pictured in Hp. simpl in Hp.
      by rewrite Hp, H2. }
    split; [by rewrite H3|]. split; [by constructor|]. constructor.
    + exists t. simpl. split; [by left|done].
    + eapply Forall_impl; [exact H5|]. intros x (t' & Ht' & Hx). exists t'. split; [by right|done].
  - assert (chained cursor (len content) (map fst tables)) as Hc' by (eapply chained_weaken; [|exact Hc]; lia).
    specialize (IH (S idx) cursor Hc' Hps). destruct (transform_loop render content (S idx) cursor tables) as [m r].
    destruct IH as (gaps & H1 & H2 & H3 & H4 & H5). exists gaps. simpl. repeat split; try done; [by constructor|].
    eapply Forall_impl; [exact H5|]. intros x (t' & Ht' & Hx). exists t'. split; [by right|done].
Qed.

Lemma table_filename_inj i j : table_filename i = table_filename j -> i = j.
Proof.
  unfold table_filename. intros E. assert (show_N (N.of_nat (i + 1)) ++ ".png" = show_N (N.of_nat (j + 1)) ++ ".png") as E' by by injection E.
  apply app_inv_tail_str, show_N_inj in E'. lia.
Qed.

Lemma filenames_distinct i n : NoDup (map table_filename (seq i n)).
Proof.
  assert (Inj (=) (=) table_filename) by (intros x y; apply table_filename_inj). apply (NoDup_fmap_2 table_filename), NoDup_seq.
Qed.

(** Turning tables into pictures loses no text: the message is its gaps with
    the tables drawn in between, the result the same gaps with one placeholder
    per picture, in order; each picture was drawn from a table of the message
    outside its code blocks, and no two have the same name; a table that cannot
    be drawn stays where it was. *)
Theorem tables_become_pictures (render : MarkdownTable -> result string string) (content : string) :
  let '(modified, rendered) := transform_markdown_tables_to_images render content in
  exists gaps, length gaps = S (length rendered) /\
    content = weave gaps (map original_text rendered) /\
    modified = weave gaps (map (fun r => placeholder (rendered_filename r)) rendered) /\
    NoDup (map rendered_filename rendered) /\
    Forall (fun r => exists t, t ∈ extract_markdown_tables content /\ raw t = original_text r /\ render t = Ok (png_bytes r)) rendered.
Proof.
  unfold transform_markdown_tables_to_images. pose proof (table_loop_chained (length (text_lines content)) content _ None _ _ (text_lines_laid content)) as Hc.
  fold (extract_markdown_table_spans content) in Hc.
  assert (Forall (pictured content) (extract_markdown_table_spans content)) as Hp.
  { apply Forall_forall. intros x Hx%list_elem_of_In. eapply block_pictured, table_loop_blocks. exact Hx. }
  destruct (extract_markdown_table_spans content) as [|x tables] eqn:E.
  { exists [content]. simpl. split; [done|]. split; [done|]. split; [done|]. split; constructor. }
  pose proof (transform_loop_weaves render content (x :: tables) 0 0 Hc Hp) as H.
  destruct (transform_loop render content 0 0 (x :: tables)) as [m r]. destruct H as (gaps & H1 & H2 & H3 & H4 & H5).
  exists gaps. split; [done|]. split; [done|]. split; [done|]. split.
  - eapply sublist_NoDup; [|exact H4]. apply filenames_distinct.
  - unfold extract_markdown_tables. by rewrite E.
Qed.

(** ** A message *)

Definition a_message : string :=
  join lf ["intro"; "```"; "| not | a table |"; "|-|-|"; "| x | y |"; "```"; "| h | k |"; "|---|:-:|"; "| 1 | a<br>b |"; "| 2 | c |"; "outro"].

Theorem one_table_found :
  map (fun x => (fst x, headers (snd x), rows (snd x))) (extract_markdown_table_spans a_message) =
    [((48, 92), ["h"; "k"], [["1"; "a" ++ lf ++ "b"]; ["2"; "c"]])].
Proof. vm_compute. reflexivity. Qed.

Theorem picture_replaces_table :
  fst (transform_markdown_tables_to_images (fun t => Ok "png") a_message) =
    join lf ["intro"; "```"; "| not | a table |"; "|-|-|"; "| x | y |"; "```"; ""; "*(📊 아래 첨부된 표 [table_1.png] 참조)*"; ""; "outro"].
Proof. vm_compute. reflexivity. Qed.

Lemma tables_outside_code_witness :
  exists x, In x (extract_markdown_table_spans a_message) /\ block a_message (text_lines a_message) None x.
Proof.
  eexists. split; [vm_compute; left; reflexivity|]. apply (tables_outside_code a_message). vm_compute. left. reflexivity.
Defined.
