(* ===== verification/Egress.v ===== *)
(** * Sending to Discord ([DiscordEgress] of src/discord/adapter.rs)

    The dispatcher of outbound actions: which bot and channel an action is for,
    the calls it makes and what their answers change (dead targets, typing
    indicators, recorded approval prompts, open streams), the replay of failed
    obligations, and the receive watchdog.  A handler is a computation; a call
    is an entry of a log with Discord's answer, an argument that may depend on
    every call before.  The whole of a handler happens at one instant [now];
    the final update of a stream is [Throttler]'s, taken without interleaving. *)
From stdpp Require Import base list strings gmap.
From Stdlib Require Import ZArith NArith Lia Ascii String.
From S2P Require Import Throttler Prelude RustStr Db Session Events Ledger Shell Detect Terminal Inbound Outgoing Tables Targets.
Open Scope string_scope.
Open Scope db_scope.
Local Notation length := Datatypes.length.
Local Notation trim := RustStr.trim.
Local Notation chars := RustStr.chars.
Local Notation channel_id := Session.channel_id.

(** ** Unicode scalar values *)

(** A character's code point from its UTF-8 bytes, and back. *)
Definition scalar (c : string) : N :=
  match map N_of_ascii (list_ascii_of_string c) with
  | [a] => a
  | [a; b] => (a - 192) * 64 + (b - 128)
  | [a; b; c] => ((a - 224) * 64 + (b - 128)) * 64 + (c - 128)
  | [a; b; c; d] => (((a - 240) * 64 + (b - 128)) * 64 + (c - 128)) * 64 + (d - 128)
  | _ => 65533
  end%N.

Definition encode_char (n : N) : string :=
  string_of_list_ascii (map ascii_of_N
    (if n <? 128 then [n]
     else if n <? 2048 then [192 + n / 64; 128 + n mod 64]
     else if n <? 65536 then [224 + n / 64 / 64; 128 + n / 64 mod 64; 128 + n mod 64]
     else [240 + n / 64 / 64 / 64; 128 + n / 64 / 64 mod 64; 128 + n / 64 mod 64; 128 + n mod 64])%N).

Definition scalars (s : string) : list N := map scalar (chars s).
Definition utf8 (l : list N) : string := of_chars (map encode_char l).

(** ** Discord's answers *)

(** A serenity error: a refused request, or anything else. *)
Inductive ApiError : Type :=
| UnsuccessfulRequest (status_code : N) (discord_code : Z) (message : string)
| OtherApiError (text : string).

(** What a call fails with: a serenity error, or another error of an uploader or
    of a transport that was plugged in. *)
Inductive CallError : Type :=
| Api (e : ApiError)
| Other (e : OmonError).

Section Errors.
(** The lowercase of a character that is not ASCII; [serenity::Error]'s [Display]. *)
Context (unicode_lower : string -> string) (api_text : ApiError -> string).

Definition lower_char (c : string) : string :=
  match c with
  | String a "" => if (N_of_ascii a <? 128)%N then String (ascii_lower a) "" else unicode_lower c
  | _ => unicode_lower c
  end.
Definition to_lowercase (s : string) : string := of_chars (map lower_char (chars s)).

Definition is_discord_dead_target_error (error : ApiError) : option (N * string) :=
  match error with
  | UnsuccessfulRequest code discord_code msg =>
      if (discord_code =? 10008)%Z || contains "unknown message" (to_lowercase msg) then None
      else if (code =? 404)%N then
        if (discord_code =? 10003)%Z || contains "unknown channel" (to_lowercase msg) || (discord_code =? 0)%Z
        then Some (code, msg) else None
      else if (code =? 403)%N then Some (code, msg)
      else None
  | OtherApiError _ => None
  end.

Definition dead_error (e : CallError) : option (N * string) :=
  match e with Api e => is_discord_dead_target_error e | Other _ => None end.

Definition call_error (e : CallError) : OmonError :=
  match e with Api e => Discord (api_text e) | Other e => e end.
End Errors.

(** ** State *)

Inductive Request : Type :=
| RSend (bot : string) (channel : N) (content : list N) (reference : option N)
| RForumPost (bot : string) (channel : N) (title : string) (content : list N)
| REdit (bot : string) (channel message : N) (content : list N)
| RDisarm (bot : string) (channel message : N)
| RDelete (bot : string) (channel message : N)
| RApproval (bot : string) (channel : N) (request_id content description reason : string)
| RUpload (bot : string) (channel : N) (path : string)
| RAttach (bot : string) (channel : N) (filenames : list string)
| RBroadcastTyping (bot : string) (channel : N)
| RStartTyping (bot : string) (channel : N)
| RReact (bot : string) (channel message : N) (emoji : string)
| RUnreact (bot : string) (channel message : N) (emoji : string)
| RUpdate (bot : string) (channel : N) (chunks : list (list N)).

Definition Answer : Type := result N CallError.
Definition CallEntry : Type := Request * Answer.

(** [ActiveDiscordStream]: the live editor's state, with the messages it shows. *)
Record ActiveStream : Type := mkStream { throttler : Editor; last_sequence : option N }.

Record EgressState : Type := mkEgress {
  targets : TargetStore;
  typing : gset string;
  typing_refresh : gmap N Z;
  approval_messages : gmap string (SessionKey * N * N);
  streams : gmap (string * N) ActiveStream;
  requests : list CallEntry;
  obligations_db : LedgerState
}.

Definition set_targets f (s : EgressState) :=
  mkEgress (f (targets s)) (typing s) (typing_refresh s) (approval_messages s) (streams s) (requests s) (obligations_db s).
Definition set_typing f (s : EgressState) :=
  mkEgress (targets s) (f (typing s)) (typing_refresh s) (approval_messages s) (streams s) (requests s) (obligations_db s).
Definition set_typing_refresh f (s : EgressState) :=
  mkEgress (targets s) (typing s) (f (typing_refresh s)) (approval_messages s) (streams s) (requests s) (obligations_db s).
Definition set_approval_messages f (s : EgressState) :=
  mkEgress (targets s) (typing s) (typing_refresh s) (f (approval_messages s)) (streams s) (requests s) (obligations_db s).
Definition set_streams f (s : EgressState) :=
  mkEgress (targets s) (typing s) (typing_refresh s) (approval_messages s) (f (streams s)) (requests s) (obligations_db s).
Definition set_requests f (s : EgressState) :=
  mkEgress (targets s) (typing s) (typing_refresh s) (approval_messages s) (streams s) (f (requests s)) (obligations_db s).
Definition set_obligations_db l (s : EgressState) :=
  mkEgress (targets s) (typing s) (typing_refresh s) (approval_messages s) (streams s) (requests s) l.

(** The egress' configuration: the bots with a client, and what its builders set. *)
Record EgressConfig : Type := mkConfig {
  clients : gset string;
  default_bot_id : string;
  allowed_users : list N;
  approval_mentions : bool;
  custom_transport : bool;
  runtime_footer : bool;
  default_model : option string;
  workspace_root : option string;
  home_dir : option string;
  paginate : bool
}.

Definition egress_new : EgressConfig := mkConfig {["default"]} "default" [] false false false None None None true.

Definition with_bot_clients (default_bot : string) (c : gset string) : result EgressConfig OmonError :=
  if bool_decide (default_bot ∈ c) then Ok (mkConfig c default_bot [] false false false None None None true)
  else Err (Config ("default Discord bot identity " ++ default_bot ++ " has no HTTP client")).

Notation "'G' T" := (M EgressState T) (at level 10).

Definition PROCESSING_START_EMOJI : string := "👀".
Definition TYPING_REFRESH_INTERVAL : Z := (5 * 1000000000)%Z.
Definition DISCORD_ATTACHMENT_LIMIT : nat := 10.

Definition should_refresh_typing (channel : N) (now interval : Z) (last : gmap N Z) : bool * gmap N Z :=
  match last !! channel with
  | Some at_ => if (Z.max 0 (now - at_) <? interval)%Z then (false, last) else (true, <[channel := now]> last)
  | None => (true, <[channel := now]> last)
  end.

Definition completed_stream_content (content : string) (is_final : bool) : option string :=
  if is_final then Some content else None.

(** [slice::chunks]. *)
Fixpoint pieces {A} (fuel n : nat) (l : list A) : list (list A) :=
  match fuel, l with S f, _ :: _ => take n l :: pieces f n (drop n l) | _, _ => [] end.

Section Egress.
Context `{Regex} `{Captures} `{FileSystem} (media_env : MediaEnv).
Context (unicode_upper unicode_lower : string -> string) (api_text : ApiError -> string).
Context (render : MarkdownTable -> result string string).
(** Discord's answer to a call after those before it; the kinds of channels; how
    the calls of a live update fare, with the error that ends it. *)
Context (answer : list CallEntry -> Request -> Answer) (is_forum : list CallEntry -> N -> bool).
Context (live_oks : list CallEntry -> list bool) (live_error : list CallEntry -> CallError).
(** [ChannelId::new] and [MessageId::new]. *)
Context (new_id : N -> result N OmonError).
Context (config : EgressConfig).

Definition request (r : Request) : G Answer :=
  mem (fun s => let a := answer (requests s) r in (a, set_requests (fun l => l ++ [(r, a)])%list s)).

(** ** Targets *)

Definition target (session : SessionKey) : result N OmonError :=
  let value := default (channel_id session) (thread_id session) in
  match parse_u64 value with
  | Some n => new_id n
  | None => Err (Config ("invalid Discord channel ID: " ++ value))
  end.

Definition identity (session : SessionKey) : string := default (default_bot_id config) (bot_id session).

Definition http_for (session : SessionKey) : result unit OmonError :=
  if bool_decide (identity session ∈ clients config) then Ok tt
  else Err (Config ("no Discord HTTP client configured for bot identity " ++ identity session)).

Definition check_dead (bot : string) (channel : N) (now : Z) : G bool :=
  mem (fun s => let '(dead, r) := is_dead_for_bot bot channel now (registry (targets s)) in
                (dead, set_targets (set_registry r) s)).

Definition mark_if_dead (bot : string) (channel : N) (now : Z) (e : CallError) : G unit :=
  match dead_error unicode_lower e with
  | Some (code, reason) =>
      mem (fun s => (tt, set_targets (fun t =>
        snd (mark_dead_for_bot bot channel code ("HTTP " ++ show_N code ++ ": " ++ reason) now t)) s))
  | None => ret tt
  end.

Definition clear_target (bot : string) (channel : N) : G unit :=
  mem (fun s => (tt, set_targets (fun t => snd (clear_for_bot bot channel t)) s)).

Definition short_circuited (bot : string) (channel : N) : OmonError :=
  Multiplexer ("dead target short-circuited: bot=" ++ bot ++ ", channel=" ++ show_N channel).

(** A call whose success clears the target and whose failure may mark it. *)
Definition settle_call (bot : string) (channel : N) (now : Z) (a : Answer) : G N :=
  match a with
  | Ok id => clear_target bot channel ;;; ret id
  | Err e => mark_if_dead bot channel now e ;;; fail (call_error api_text e)
  end.

(** The bot and the channel of an action, or the error of a dead target. *)
Definition aim (session : SessionKey) (now : Z) (dead : string -> N -> OmonError) : G (string * N) :=
  lift (http_for session) ;;;
  channel <- lift (target session) ;;
  is_dead <- check_dead (identity session) channel now ;;
  if is_dead : bool then fail (dead (identity session) channel) else ret (identity session, channel).

Definition stop_typing (session : SessionKey) : G unit :=
  mem (fun s => (tt, set_typing (fun t => t ∖ {[storage_key session]}) s)).

Definition keep_typing (session : SessionKey) (now : Z) : G unit :=
  match target session with
  | Err (Panicked m) => fail (Panicked m)
  | Err _ => ret tt
  | Ok channel =>
      is_dead <- check_dead (identity session) channel now ;;
      if is_dead : bool then ret tt
      else
        should <- mem (fun s => let '(b, m) := should_refresh_typing channel now TYPING_REFRESH_INTERVAL (typing_refresh s) in
                                (b, set_typing_refresh (fun _ => m) s)) ;;
        if negb should then ret tt
        else match http_for session with
             | Err _ => ret tt
             | Ok _ => request (RBroadcastTyping (identity session) channel) ;;; ret tt
             end
  end.

(** ** Messages *)

Definition parse_id (text : string) : option N := parse_u64 text.

(** [reply_to.parse().ok().map(MessageId::new)]. *)
Definition reply_id (reply : option string) : result (option N) OmonError :=
  match reply ≫= parse_id with
  | Some n => match new_id n with Ok m => Ok (Some m) | Err e => Err e end
  | None => Ok None
  end.

Definition message_id (text : string) : result N OmonError :=
  match parse_id text with Some n => new_id n | None => Err (Config ("invalid Discord message ID: " ++ text)) end.

(** The files a text names, uploaded one after the other. *)
Definition upload_media (bot : string) (channel : N) (paths : list string) : G unit :=
  for_each (fun path =>
    valid_path <- lift (validate_media_path media_env path) ;;
    a <- request (RUpload bot channel valid_path) ;;
    match a with Ok _ => ret tt | Err e => fail (call_error api_text e) end) paths.

Definition dispatch_rendered_tables (bot : string) (channel : N) (rendered_tables : list RenderedTable) : G unit :=
  for_each (fun files =>
    a <- request (RAttach bot channel (map rendered_filename files)) ;;
    match a with Ok _ => ret tt | Err e => fail (call_error api_text e) end)
    (pieces (length rendered_tables) DISCORD_ATTACHMENT_LIMIT rendered_tables).

(** The text of a message with its footer, the media it names, and what is left
    of it as messages and pictures. *)
Definition decorated (content : string) : string :=
  if runtime_footer config
  then append_runtime_footer content (home_dir config) (default_model config) None (workspace_root config)
  else content.

Definition processed (text : string) : string * list RenderedTable :=
  transform_markdown_tables_to_images render (fst (extract_media_directives unicode_upper text)).

Definition media_of (text : string) : list string := snd (extract_media_directives unicode_upper text).

(** [chunk_markdown] always ends ([Throttler.final_messages_fit]). *)
Definition message_chunks (content : string) : list (list N) :=
  bound_split_messages (default [] (chunk_markdown_paginated (scalars content) DISCORD_MESSAGE_LIMIT (paginate config))) MAX_SPLIT_MESSAGES.

Fixpoint send_transport (bot : string) (channel : N) (chunks : list (list N)) : G unit :=
  match chunks with
  | [] => ret tt
  | chunk :: rest =>
      a <- request (RSend bot channel chunk None) ;;
      match a with Ok _ => send_transport bot channel rest | Err e => fail (call_error api_text e) end
  end.

(** A chunk, first as a reply; unless the target is dead, again without. *)
Definition send_chunk (bot : string) (channel : N) (now : Z) (reference : option N) (chunk : list N) : G N :=
  match reference with
  | Some target_msg_id =>
      a <- request (RSend bot channel chunk (Some target_msg_id)) ;;
      match a with
      | Ok _ => settle_call bot channel now a
      | Err e =>
          match dead_error unicode_lower e with
          | Some _ => settle_call bot channel now a
          | None => a' <- request (RSend bot channel chunk None) ;; settle_call bot channel now a'
          end
      end
  | None => a <- request (RSend bot channel chunk None) ;; settle_call bot channel now a
  end.

Fixpoint send_chunks (bot : string) (channel : N) (now : Z) (reply : option N) (i : nat) (chunks : list (list N)) : G unit :=
  match chunks with
  | [] => ret tt
  | chunk :: rest =>
      send_chunk bot channel now (should_chunk_reference i reply) chunk ;;;
      send_chunks bot channel now reply (S i) rest
  end.

(** The chunks after the first of a forum post: success clears nothing. *)
Fixpoint send_post (bot : string) (channel post : N) (now : Z) (chunks : list (list N)) : G unit :=
  match chunks with
  | [] => ret tt
  | chunk :: rest =>
      a <- request (RSend bot post chunk None) ;;
      match a with
      | Ok _ => send_post bot channel post now rest
      | Err e => mark_if_dead bot channel now e ;;; fail (call_error api_text e)
      end
  end.

Definition send_message_action (session : SessionKey) (content : string) (reply : option string) (now : Z) : G unit :=
  let filtered_content := filter_reasoning content in
  if is_explicit_silence unicode_upper filtered_content then stop_typing session
  else
    at_ <- aim session now short_circuited ;;
    let '(bot, channel) := at_ in
    reply_id <- lift (reply_id reply) ;;
    let text := decorated content in
    upload_media bot channel (media_of text) ;;;
    let '(processed_content, rendered_tables) := processed text in
    let chunks := message_chunks processed_content in
    if custom_transport config then
      clear_target bot channel ;;;
      send_transport bot channel chunks ;;;
      dispatch_rendered_tables bot channel rendered_tables
    else
      forum <- mem (fun s => (is_forum (requests s) channel, s)) ;;
      if forum : bool then
        a <- request (RForumPost bot channel (derive_forum_post_title content) (hd ZERO_WIDTH_SPACE chunks)) ;;
        post <- settle_call bot channel now a ;;
        send_post bot channel post now (tl chunks) ;;;
        dispatch_rendered_tables bot post rendered_tables
      else
        send_chunks bot channel now reply_id 0 chunks ;;;
        dispatch_rendered_tables bot channel rendered_tables.

Definition edit_message_action (session : SessionKey) (message content : string) (now : Z) : G unit :=
  let filtered_content := filter_reasoning content in
  if is_explicit_silence unicode_upper filtered_content then stop_typing session
  else
    at_ <- aim session now short_circuited ;;
    let '(bot, channel) := at_ in
    id <- lift (message_id message) ;;
    a <- request (REdit bot channel id (scalars content)) ;;
    settle_call bot channel now a ;;;
    ret tt.

Definition delete_message_action (session : SessionKey) (message : string) (now : Z) : G unit :=
  at_ <- aim session now short_circuited ;;
  let '(bot, channel) := at_ in
  id <- lift (message_id message) ;;
  a <- request (RDelete bot channel id) ;;
  settle_call bot channel now a ;;;
  ret tt.

Definition upload_file_action (session : SessionKey) (path : string) (now : Z) : G unit :=
  at_ <- aim session now short_circuited ;;
  let '(bot, channel) := at_ in
  a <- request (RUpload bot channel path) ;;
  settle_call bot channel now a ;;;
  ret tt.

(** ** Streams *)

Definition open_stream (bot : string) (channel : N) (key : string * N) (reply : option string) : G ActiveStream :=
  found <- mem (fun s => (streams s !! key, s)) ;;
  match found with
  | Some active => ret active
  | None =>
      reference_id <- lift (reply_id reply) ;;
      a <- match reference_id with
           | Some m =>
               a <- request (RSend bot channel ZERO_WIDTH_SPACE (Some m)) ;;
               match a with
               | Ok _ => ret a
               | Err e => if custom_transport config then ret a else request (RSend bot channel ZERO_WIDTH_SPACE None)
               end
           | None => request (RSend bot channel ZERO_WIDTH_SPACE None)
           end ;;
      match a with
      | Err e => fail (call_error api_text e)
      | Ok id =>
          let active := mkStream (mkEditor 0 None [id] None {[id := ZERO_WIDTH_SPACE]} (id + 1)) None in
          mem (fun s => (active, set_streams (<[key := active]>) s))
      end
  end.

(** [throttler.update(&content, true)]: the messages posted. *)
Definition final_update (bot : string) (channel : N) (key : string * N) (active : ActiveStream) (content : string) (now : Z) : G unit :=
  let posted := message_chunks content in
  a <- mem (fun s =>
    let '(ok, (_, e)) := write_update true [] posted now (live_oks (requests s), throttler active) in
    let a := if ok then Ok 0%N else Err (live_error (requests s)) in
    (a, set_streams (<[key := mkStream e (last_sequence active)]>)
          (set_requests (fun l => l ++ [(RUpdate bot channel posted, a)])%list s))) ;;
  match a with Ok _ => ret tt | Err e => fail (call_error api_text e) end.

Definition stream (session : SessionKey) (chunk : StreamChunk) (now : Z) : G unit :=
  match completed_stream_content (chunk_content chunk) (is_final chunk) with
  | None => keep_typing session now
  | Some content =>
      let filtered_content := filter_reasoning content in
      let bot := identity session in
      let key := (bot, stream_id chunk) in
      channel <- lift (target session) ;;
      lift (http_for session) ;;;
      is_dead <- check_dead bot channel now ;;
      if is_dead : bool then fail (short_circuited bot channel)
      else if is_explicit_silence unicode_upper filtered_content then
        mem (fun s => (tt, set_typing_refresh (delete channel) (set_streams (delete key) s))) ;;; stop_typing session
      else
        active <- open_stream bot channel key (reply_to chunk) ;;
        if match last_sequence active with Some sequence => (Events.sequence chunk <=? sequence)%N | None => false end then ret tt
        else
          upload_media bot channel (media_of filtered_content) ;;;
          let '(processed_content, rendered_tables) := processed filtered_content in
          final_update bot channel key active processed_content now ;;;
          mem (fun s => (tt, set_streams (alter (fun a => mkStream (throttler a) (Some (Events.sequence chunk))) key) s)) ;;;
          dispatch_rendered_tables bot channel rendered_tables ;;;
          mem (fun s => (tt, set_typing_refresh (delete channel) (set_streams (delete key) s)))
  end.

(** ** Indicators and reactions *)

Definition typing_action (session : SessionKey) (active : bool) (now : Z) : G unit :=
  channel <- lift (target session) ;;
  is_dead <- check_dead (identity session) channel now ;;
  if is_dead : bool then ret tt
  else if active then
    lift (http_for session) ;;;
    request (RStartTyping (identity session) channel) ;;;
    request (RBroadcastTyping (identity session) channel) ;;;
    mem (fun s => (tt, set_typing (fun t => {[storage_key session]} ∪ t) s))
  else stop_typing session.

(** The channel of a reaction is the session's, not its thread; when that is no
    number both the target and [ChannelId::new(0)] are evaluated. *)
Definition reaction_channel (session : SessionKey) : result N OmonError :=
  match parse_u64 (channel_id session) with
  | Some n => new_id n
  | None =>
      match target session with
      | Err (Panicked m) => Err (Panicked m)
      | t => match new_id 0 with Ok zero => Ok (match t with Ok c => c | Err _ => zero end) | Err e => Err e end
      end
  end.

Definition react_action (session : SessionKey) (message emoji : string) (remove_others : bool) (now : Z) : G unit :=
  let bot := identity session in
  channel <- lift (reaction_channel session) ;;
  is_dead <- check_dead bot channel now ;;
  if is_dead : bool then fail (short_circuited bot channel)
  else
    lift (http_for session) ;;;
    id <- lift (message_id message) ;;
    (if remove_others then request (RUnreact bot channel id PROCESSING_START_EMOJI) ;;; ret tt else ret tt) ;;;
    request (RReact bot channel id emoji) ;;;
    ret tt.

(** ** Approval prompts *)

Definition record_approval_message (request_id : string) (entry : SessionKey * N * N) : G unit :=
  mem (fun s => (tt, set_approval_messages (<[request_id := entry]>) s)).
Definition get_approval_message (request_id : string) (s : EgressState) : option (SessionKey * N * N) := approval_messages s !! request_id.
Definition remove_approval_message (request_id : string) : G (option (SessionKey * N * N)) :=
  mem (fun s => (approval_messages s !! request_id, set_approval_messages (delete request_id) s)).
Definition approval_message_count (s : EgressState) : nat := size (approval_messages s).
Definition active_typing_count (s : EgressState) : nat := size (typing s).

Definition unavailable (_ : string) (channel : N) : OmonError := Approval ("approval target " ++ show_N channel ++ " is unavailable").

Definition approval_request_action (session : SessionKey) (request_id command reason : string) (now : Z) : G unit :=
  at_ <- aim session now unavailable ;;
  let '(bot, channel) := at_ in
  let content := build_approval_content_with_mentions command reason (allowed_users config) (approval_mentions config) in
  let embed := build_approval_embed command reason in
  a <- request (RApproval bot channel request_id content embed.1 embed.2) ;;
  msg <- settle_call bot channel now a ;;
  record_approval_message request_id (session, channel, msg).

Definition expire_approval_action (request_id : string) (now : Z) : G unit :=
  found <- remove_approval_message request_id ;;
  match found with
  | None => ret tt
  | Some (session, channel, msg) =>
      is_dead <- check_dead (identity session) channel now ;;
      if is_dead : bool then ret tt
      else
        lift (http_for session) ;;;
        a <- request (RDisarm (identity session) channel msg) ;;
        match a with Ok _ => ret tt | Err e => fail (call_error api_text e) end
  end.

Definition dispatch_action (action : OutboundAction) (now : Z) : G unit :=
  match action with
  | SendMessage session content reply => send_message_action session content reply now
  | EditMessage session message content => edit_message_action session message content now
  | DeleteMessage session message => delete_message_action session message now
  | UploadFile session path => upload_file_action session path now
  | Stream session chunk => stream session chunk now
  | Typing session active => typing_action session active now
  | React session message emoji remove_others => react_action session message emoji remove_others now
  | ApprovalRequest session request_id command reason => approval_request_action session request_id command reason now
  | ExpireApproval request_id => expire_approval_action request_id now
  end.

(** ** Replay after a reconnection *)

Definition on_ledger {T} (m : M LedgerState T) : G T := zoom obligations_db set_obligations_db m.

Definition replay_one (now : Z) (o : DeliveryObligation) : G unit :=
  match from_storage_key (ob_session_key o) with
  | Err _ => attempt (on_ledger (mark_obligation_failed (ob_id o) "invalid session_key" now)) ;;; ret tt
  | Ok session =>
      send_result <- attempt (dispatch_action (SendMessage session (ob_content o) None) now) ;;
      match send_result with
      | Ok _ => attempt (on_ledger (mark_obligation_delivered (ob_id o) now)) ;;; ret tt
      | Err e => attempt (on_ledger (mark_obligation_failed (ob_id o) (error_text e) now)) ;;; ret tt
      end
  end.

Definition replay_failed_transport_obligations (pid : Z) (started bot : string) (now : Z) : G nat :=
  claimed <- on_ledger (sweep_failed_for_runtime pid started bot 3 86400 now) ;;
  for_each (replay_one now) claimed ;;;
  ret (length claimed).
End Egress.

(** ** The receive watchdog *)

Definition RECEIVE_WATCHDOG_DEFAULT_THRESHOLD_SECS : N := 1200.

Definition receive_watchdog_threshold_from (raw : option string) : N :=
  default RECEIVE_WATCHDOG_DEFAULT_THRESHOLD_SECS (raw ≫= fun r => parse_u64 (trim r)).

(** One tick at [now] milliseconds, with the runner's health: the new marker and
    whether the shard is restarted. *)
Definition watchdog_tick (threshold_secs now last_event : N) (is_runner_healthy : bool) : N * bool :=
  if (threshold_secs =? 0)%N then (last_event, false)
  else if (last_event =? 0)%N then (last_event, false)
  else if ((now - last_event) / 1000 <? threshold_secs)%N then (last_event, false)
  else if is_runner_healthy then (now, false)
  else (now, true).

(** Dispatch events store the time, ticks look at it. *)
Inductive WatchdogStep : Type := WEvent (now : N) | WTick (now : N) (healthy : bool).

(** ** Scalar values round trip *)

Definition is_scalar (n : N) : Prop := (n < 1114112)%N.

Lemma ascii_byte n : (n < 256)%N -> N_of_ascii (ascii_of_N n) = n.
Proof. apply N_ascii_embedding. Qed.

Lemma continuation_byte n : (n < 64)%N -> is_continuation (ascii_of_N (128 + n)) = true.
Proof.
  intros Hn. unfold is_continuation. rewrite ascii_byte by lia. apply andb_true_iff. split; [apply N.leb_le|apply N.ltb_lt]; lia.
Qed.

Lemma lead_byte n : (n < 128)%N \/ (192 <= n < 256)%N -> is_continuation (ascii_of_N n) = false.
Proof.
  intros Hn. unfold is_continuation. rewrite ascii_byte by lia. apply andb_false_iff.
  destruct Hn; [left; apply N.leb_gt|right; apply N.ltb_ge]; lia.
Qed.

Lemma split64 n : exists q r, (n / 64 = q /\ n mod 64 = r /\ n = 64 * q + r /\ r < 64)%N.
Proof. exists (n / 64)%N, (n mod 64)%N. split; [done|]. split; [done|]. split; [by apply N.div_mod|by apply N.mod_lt]. Qed.

Lemma encode_char_spec n : is_scalar n -> char_shape (encode_char n) = true /\ scalar (encode_char n) = n.
Proof.
  unfold is_scalar, encode_char, scalar. intros Hn.
  destruct (split64 n) as (q & r & -> & -> & E & Hr). destruct (split64 q) as (q' & r' & -> & -> & E' & Hr').
  destruct (split64 q') as (q'' & r'' & -> & -> & E'' & Hr'').
  destruct (N.ltb_spec n 128); [|destruct (N.ltb_spec n 2048); [|destruct (N.ltb_spec n 65536)]];
    cbn [map list_ascii_of_string string_of_list_ascii char_shape all_bytes];
    rewrite lead_byte, ?continuation_byte, ?ascii_byte by lia; (split; [done|lia]).
Qed.

(** Text and code points are inverse, so the limits that count scalars count
    the characters of the bytes. *)
Theorem scalars_utf8 (l : list N) : Forall is_scalar l -> scalars (utf8 l) = l.
Proof.
  intros Hl. unfold scalars, utf8. rewrite chars_of_chars.
  - rewrite map_map. rewrite <- (map_id l) at 2. apply map_ext_in. intros n Hn. rewrite Forall_forall in Hl.
    apply encode_char_spec, Hl. by apply list_elem_of_In.
  - rewrite forallb_forall. intros c (n & <- & Hn)%in_map_iff. rewrite Forall_forall in Hl.
    apply encode_char_spec, Hl. by apply list_elem_of_In.
Qed.

(** ** What readers see of a message *)

(** The messages Discord accepted. *)
Definition posted_of (e : CallEntry) : option (list N) :=
  match e with
  | (RSend _ _ c _, Ok _) | (RForumPost _ _ _ c, Ok _) => Some c
  | _ => None
  end.
Definition posted (s : EgressState) : list (list N) := omap posted_of (requests s).

Section Posting.
Context `{Regex} `{Captures} `{FileSystem} (media_env : MediaEnv).
Context (unicode_upper unicode_lower : string -> string) (api_text : ApiError -> string).
Context (render : MarkdownTable -> result string string).
Context (answer : list CallEntry -> Request -> Answer) (is_forum : list CallEntry -> N -> bool).
Context (live_oks : list CallEntry -> list bool) (live_error : list CallEntry -> CallError).
Context (new_id : N -> result N OmonError) (config : EgressConfig).

Local Notation shows_ P := (fun s => posted s = P).
Local Notation send := (send_message_action media_env unicode_upper unicode_lower api_text render answer is_forum new_id config).

Lemma triple_ask {T} P r (k : Answer -> M EgressState T) Q E :
  (forall a, triple (shows_ (P ++ option_list (posted_of (r, a)))%list) (k a) Q E) ->
  triple (shows_ P) (bind (request answer r) k) Q E.
Proof.
  intros Hk. apply (triple_bind _ _ _ (fun a s => posted s = (P ++ option_list (posted_of (r, a)))%list)); [|exact Hk].
  apply triple_mem. intros s <-. unfold posted. cbn [fst snd requests set_requests]. rewrite omap_app. f_equal.
Qed.

Lemma unposted_request P r : (forall a, posted_of (r, a) = None) -> preserves (shows_ P) (request answer r).
Proof.
  intros Hr. apply preserves_mem. intros s <-. unfold posted. cbn [fst snd requests set_requests].
  rewrite omap_app. cbn [omap list_omap]. by rewrite Hr, app_nil_r.
Qed.

Lemma unposted_mem {A} P (f : EgressState -> A * EgressState) :
  (forall s, requests (snd (f s)) = requests s) -> preserves (shows_ P) (mem f).
Proof. intros Hf. apply preserves_mem. intros s <-. unfold posted. by rewrite Hf. Qed.

Lemma unposted_settle P bot channel now a : preserves (shows_ P) (settle_call unicode_lower api_text bot channel now a).
Proof. unfold settle_call, clear_target, mark_if_dead. preserve_steps; by intros ?. Qed.

Lemma unposted_check P bot channel now : preserves (shows_ P) (check_dead bot channel now).
Proof. apply unposted_mem. intros s. by destruct (is_dead_for_bot _ _ _ _). Qed.

Lemma unposted_aim P session now dead : preserves (shows_ P) (aim new_id config session now dead).
Proof. unfold aim. preserve_steps; apply unposted_check. Qed.

Lemma unposted_upload P bot channel paths : preserves (shows_ P) (upload_media media_env api_text answer bot channel paths).
Proof. unfold upload_media. preserve_steps. by apply unposted_request. Qed.

Lemma unposted_tables P bot channel files : preserves (shows_ P) (dispatch_rendered_tables api_text answer bot channel files).
Proof. unfold dispatch_rendered_tables. preserve_steps. by apply unposted_request. Qed.

Lemma settle_ok R E bot channel now id :
  triple (shows_ R) (settle_call unicode_lower api_text bot channel now (Ok id)) (fun _ => shows_ R) E.
Proof. intros w Hw. exact Hw. Qed.

Lemma settle_err R (Q : N -> EgressState -> Prop) (E : EgressState -> Prop) bot channel now e :
  (forall s, posted s = R -> E s) -> triple (shows_ R) (settle_call unicode_lower api_text bot channel now (Err e)) Q E.
Proof.
  intros HE w Hw. pose proof (unposted_settle R bot channel now (Err e) w Hw) as Hp. simpl in *. unfold bind in *.
  destruct (mark_if_dead _ _ _ _ _ _) as [[?|?] ?]; simpl in *; auto.
Qed.

(** A call for a message and its settlement. *)
Lemma triple_post P bot channel now r chunk :
  (forall id, posted_of (r, Ok id) = Some chunk) -> (forall e, posted_of (r, Err e) = None) ->
  triple (shows_ P) (bind (request answer r) (settle_call unicode_lower api_text bot channel now))
    (fun _ s => posted s = (P ++ [chunk])%list) (shows_ P).
Proof.
  intros Hok Herr. apply triple_ask. intros [id|e].
  - rewrite Hok. apply settle_ok.
  - rewrite Herr. simpl. rewrite app_nil_r. by apply settle_err.
Qed.

Lemma triple_send_chunk P bot channel now reference chunk :
  triple (shows_ P) (send_chunk unicode_lower api_text answer bot channel now reference chunk)
    (fun _ s => posted s = (P ++ [chunk])%list) (shows_ P).
Proof.
  destruct reference as [m|]; [|by apply triple_post]. apply triple_ask. intros [id|e]; [apply settle_ok|].
  cbn [posted_of option_list]. rewrite app_nil_r. destruct (dead_error _ _); [by apply settle_err|by apply triple_post].
Qed.

(** Some of the messages, in order from the first. *)
Definition beginning_of (P plan : list (list N)) (s : EgressState) : Prop := exists pre, pre `prefix_of` plan /\ posted s = (P ++ pre)%list.

Lemma part_whole P plan s : posted s = (P ++ plan)%list -> beginning_of P plan s.
Proof. intros E. by exists plan. Qed.
Lemma part_none P plan s : posted s = P -> beginning_of P plan s.
Proof. intros E. exists []. split; [apply prefix_nil|by rewrite app_nil_r]. Qed.
Lemma part_later P c plan s : beginning_of (P ++ [c]) plan s -> beginning_of P (c :: plan) s.
Proof. intros (pre & Hp & E). exists (c :: pre). split; [by apply prefix_cons|]. by rewrite E, <- app_assoc. Qed.

Lemma triple_send_chunks bot channel now reply chunks : forall P i,
  triple (shows_ P) (send_chunks unicode_lower api_text answer bot channel now reply i chunks)
    (fun _ s => posted s = (P ++ chunks)%list) (beginning_of P chunks).
Proof.
  induction chunks as [|c rest IH]; intros P i; cbn [send_chunks].
  - apply triple_ret. intros s ->. by rewrite app_nil_r.
  - eapply triple_bind; [eapply triple_weaken; [apply (triple_send_chunk P)|done|intros ? ? Hx; exact Hx|apply part_none]|].
    intros ?. simpl. eapply triple_weaken; [apply (IH (P ++ [c])%list)|done| |apply part_later].
    intros ? s ->. by rewrite <- app_assoc.
Qed.

Lemma triple_send_post bot channel post now chunks : forall P,
  triple (shows_ P) (send_post unicode_lower api_text answer bot channel post now chunks)
    (fun _ s => posted s = (P ++ chunks)%list) (beginning_of P chunks).
Proof.
  induction chunks as [|c rest IH]; intros P; cbn [send_post].
  - apply triple_ret. intros s ->. by rewrite app_nil_r.
  - apply triple_ask. intros [id|e]; cbn [posted_of option_list].
    + eapply triple_weaken; [apply (IH (P ++ [c])%list)|done| |apply part_later]. intros ? s ->. by rewrite <- app_assoc.
    + rewrite app_nil_r. pose proof (settle_err P (fun _ _ => False) (beginning_of P (c :: rest)) bot channel now e (part_none P (c :: rest))) as Hs.
      unfold settle_call in Hs. intros w Hw. specialize (Hs w Hw). unfold bind in *. by destruct (mark_if_dead _ _ _ _ _ _) as [[?|?] ?].
Qed.

Lemma triple_send_transport bot channel chunks : forall P,
  triple (shows_ P) (send_transport api_text answer bot channel chunks)
    (fun _ s => posted s = (P ++ chunks)%list) (beginning_of P chunks).
Proof.
  induction chunks as [|c rest IH]; intros P; cbn [send_transport].
  - apply triple_ret. intros s ->. by rewrite app_nil_r.
  - apply triple_ask. intros [id|e]; cbn [posted_of option_list].
    + eapply triple_weaken; [apply (IH (P ++ [c])%list)|done| |apply part_later]. intros ? s ->. by rewrite <- app_assoc.
    + rewrite app_nil_r. apply triple_fail. apply part_none.
Qed.

(** The messages a text is to become. *)
Definition message_plan (content : string) : list (list N) :=
  message_chunks config (fst (processed unicode_upper render (decorated config content))).

Lemma plan_fits content : 1 <= length (message_plan content) <= 8 /\ Forall (fun c => 0 < length c <= 2000) (message_plan content).
Proof.
  unfold message_plan, message_chunks. destruct (final_messages_fit (scalars (fst (processed unicode_upper render (decorated config content)))) (paginate config)) as (cs & -> & Hl & Hf).
  by split.
Qed.

Lemma triple_then_tables P plan (m : M EgressState unit) bot channel files :
  triple (shows_ P) m (fun _ s => posted s = (P ++ plan)%list) (beginning_of P plan) ->
  triple (shows_ P) (bind m (fun _ => dispatch_rendered_tables api_text answer bot channel files))
    (fun _ s => posted s = (P ++ plan)%list) (beginning_of P plan).
Proof.
  intros Hm. eapply triple_bind; [exact Hm|]. intros ?. apply triple_keep; [apply unposted_tables|apply part_whole].
Qed.

(** Handlers that post nothing before [k]. *)
Lemma triple_first {A T} P (m : M EgressState A) (k : A -> M EgressState T) Q E :
  preserves (shows_ P) m -> (forall s, posted s = P -> E s) -> (forall a, triple (shows_ P) (k a) Q E) -> triple (shows_ P) (bind m k) Q E.
Proof. intros Hm HE Hk. eapply triple_bind; [apply triple_keep; [exact Hm|exact HE]|]. exact Hk. Qed.

Lemma triple_send P session content reply now :
  is_explicit_silence unicode_upper (filter_reasoning content) = false ->
  triple (shows_ P) (send session content reply now)
    (fun _ s => posted s = (P ++ message_plan content)%list) (beginning_of P (message_plan content)).
Proof.
  intros Hs. unfold send_message_action. rewrite Hs.
  assert (forall s, posted s = P -> beginning_of P (message_plan content) s) as HE by (intros s; apply part_none).
  apply triple_first; [apply unposted_aim|done|]. intros [bot channel].
  apply triple_first; [apply preserves_lift|done|]. intros reference.
  apply triple_first; [apply unposted_upload|done|]. intros ?.
  pose proof (plan_fits content) as [[Hne _] _]. unfold message_plan in *.
  destruct (processed unicode_upper render (decorated config content)) as [text tables]. cbn [fst] in *.
  set (plan := message_chunks config text) in *.
  destruct (custom_transport config).
  { apply triple_first; [by apply unposted_mem|done|]. intros ?. by apply triple_then_tables, triple_send_transport. }
  apply triple_first; [by apply unposted_mem|done|]. intros [|].
  - destruct plan as [|c plan]; [simpl in Hne; lia|]. cbn [hd tl].
    apply triple_ask. intros [id|e]; cbn [posted_of option_list].
    + eapply triple_bind; [apply settle_ok|]. intros post.
      eapply triple_weaken; [apply (triple_then_tables (P ++ [c]) plan), triple_send_post|done| |apply part_later].
      intros ? s ->. by rewrite <- app_assoc.
    + rewrite app_nil_r. eapply triple_bind; [apply (settle_err P (fun _ _ => False)); exact HE|]. by intros ? ? ?.
  - by apply triple_then_tables, triple_send_chunks.
Qed.

Local Notation dispatching := (dispatch_action media_env unicode_upper unicode_lower api_text render answer is_forum live_oks live_error new_id config).

(** C21: a message is posted whole or as a beginning: whatever Discord answers,
    what it accepts of a message is a prefix of its chunks in order, none twice,
    and all of them when the dispatch reports success; there are one to eight,
    each of at most 2,000 characters; a silent message makes no call. *)
Theorem message_posted_in_order (session : SessionKey) (content : string) (reply : option string) (now : Z) (w : world EgressState) :
  let '(r, w') := dispatching (SendMessage session content reply) now w in
  let plan := message_plan content in
  (1 <= length plan <= 8 /\ Forall (fun c => 0 < length c <= 2000) plan) /\
  if is_explicit_silence unicode_upper (filter_reasoning content)
  then r = Ok tt /\ requests (st w') = requests (st w)
  else beginning_of (posted (st w)) plan (st w') /\ (r = Ok tt -> posted (st w') = (posted (st w) ++ plan)%list).
Proof.
  pose proof (triple_send (posted (st w)) session content reply now) as Ht. unfold dispatch_action.
  destruct (is_explicit_silence unicode_upper (filter_reasoning content)) eqn:Hs.
  - unfold send_message_action. rewrite Hs. unfold stop_typing, mem. split; [apply plan_fits|done].
  - specialize (Ht eq_refl w eq_refl). destruct (send_message_action _ _ _ _ _ _ _ _ _ _ _ _ _ w) as [[[]|e] w'].
    + split; [apply plan_fits|]. split; [by apply part_whole|done].
    + split; [apply plan_fits|]. split; [exact Ht|done].
Qed.

(** ** Dead targets are left alone *)

(** The session an action is aimed at, and the actions that may report success
    without reaching it. *)
Definition aimed (a : OutboundAction) : option SessionKey :=
  match a with
  | SendMessage s _ _ | EditMessage s _ _ | DeleteMessage s _ | UploadFile s _ | Stream s _ | Typing s _ | ApprovalRequest s _ _ _ => Some s
  | React _ _ _ _ | ExpireApproval _ => None
  end.
Definition may_be_dropped (a : OutboundAction) : bool :=
  match a with
  | Typing _ _ => true
  | SendMessage _ c _ | EditMessage _ _ c => is_explicit_silence unicode_upper (filter_reasoning c)
  | Stream _ chunk => negb (is_final chunk)
  | _ => false
  end.

Lemma check_dead_true bot channel now w :
  fst (is_dead_for_bot bot channel now (registry (targets (st w)))) = true ->
  check_dead bot channel now w = (Ok true, w).
Proof.
  intros Hd. unfold check_dead, mem. assert (is_dead_for_bot bot channel now (registry (targets (st w))) = (true, registry (targets (st w)))) as ->.
  { revert Hd. unfold is_dead_for_bot. destruct (inner _ !! _); [|done]. destruct (expired _ _ _); [done|]. by destruct (probe_due _ _ _). }
  destruct w as [[[? ? ?] ? ? ? ? ? ?] ?]. done.
Qed.

Lemma aim_dead session now dead channel w :
  target new_id session = Ok channel ->
  fst (is_dead_for_bot (identity config session) channel now (registry (targets (st w)))) = true ->
  exists e, aim new_id config session now dead w = (Err e, w).
Proof.
  intros Ht Hd. unfold aim, bind, lift. destruct (http_for config session); [|by eexists]. rewrite Ht.
  rewrite check_dead_true by done. by eexists.
Qed.

(** No call is made to a dead target: while the registry holds the target
    dead, an action aimed at it makes no call at all, leaves the registry as it
    is, and reports an error unless it only concerns the typing indicator. *)
Theorem dead_target_not_called (a : OutboundAction) (session : SessionKey) (channel : N) (now : Z) (w : world EgressState) :
  aimed a = Some session -> target new_id session = Ok channel ->
  fst (is_dead_for_bot (identity config session) channel now (registry (targets (st w)))) = true ->
  let '(r, w') := dispatching a now w in
  requests (st w') = requests (st w) /\ targets (st w') = targets (st w) /\ (is_ok r = true -> may_be_dropped a = true).
Proof.
  intros Ha Ht Hd. destruct a; simpl in Ha; simplify_eq; cbn [dispatch_action may_be_dropped].
  - unfold send_message_action. destruct (is_explicit_silence _ _); [done|].
    destruct (aim_dead session now short_circuited channel w Ht Hd) as [e E]. by rewrite (bind_error _ _ _ _ _ E).
  - unfold edit_message_action. destruct (is_explicit_silence _ _); [done|].
    destruct (aim_dead session now short_circuited channel w Ht Hd) as [e E]. by rewrite (bind_error _ _ _ _ _ E).
  - unfold delete_message_action. destruct (aim_dead session now short_circuited channel w Ht Hd) as [e E]. by rewrite (bind_error _ _ _ _ _ E).
  - unfold upload_file_action. destruct (aim_dead session now short_circuited channel w Ht Hd) as [e E]. by rewrite (bind_error _ _ _ _ _ E).
  - unfold stream, completed_stream_content. destruct (is_final chunk); simpl.
    + rewrite Ht. unfold bind, lift. destruct (http_for config session); [|done]. by rewrite check_dead_true.
    + unfold keep_typing. rewrite Ht. unfold bind. by rewrite check_dead_true.
  - unfold typing_action. rewrite Ht. unfold bind, lift. by rewrite check_dead_true.
  - unfold approval_request_action. destruct (aim_dead session now unavailable channel w Ht Hd) as [e E]. by rewrite (bind_error _ _ _ _ _ E).
Qed.

(** ** What the egress remembers, Discord said *)

Definition request_bot (r : Request) : string :=
  match r with
  | RSend b _ _ _ | RForumPost b _ _ _ | REdit b _ _ _ | RDisarm b _ _ | RDelete b _ _ | RApproval b _ _ _ _ _ | RUpload b _ _
  | RAttach b _ _ | RBroadcastTyping b _ | RStartTyping b _ | RReact b _ _ _ | RUnreact b _ _ _ | RUpdate b _ _ => b
  end.

Definition request_channel (r : Request) : N :=
  match r with
  | RSend _ c _ _ | RForumPost _ c _ _ | REdit _ c _ _ | RDisarm _ c _ | RDelete _ c _ | RApproval _ c _ _ _ _ | RUpload _ c _
  | RAttach _ c _ | RBroadcastTyping _ c | RStartTyping _ c | RReact _ c _ _ | RUnreact _ c _ _ | RUpdate _ c _ => c
  end.

(** The call is to the channel, or to a post made in it. *)
Definition concerns (log : list CallEntry) (r : Request) (k : string * N) : Prop :=
  request_channel r = k.2 \/ exists title c, (RForumPost k.1 k.2 title c, Ok (request_channel r)) ∈ log.

(** Discord refused the bot the channel for good with this code. *)
Definition refused (log : list CallEntry) (k : string * N) (code : N) : Prop :=
  exists req e reason, (req, Err e) ∈ log /\ request_bot req = k.1 /\ concerns log req k /\
    dead_error unicode_lower e = Some (code, reason).

Lemma concerns_more log l r k : concerns log r k -> concerns (log ++ l) r k.
Proof. intros [?|(t & c & Hin)]; [by left|]. right. exists t, c. by apply elem_of_app; left. Qed.

(** Every dead target was dead at first or refused since; every approval prompt
    on record is one Discord accepted, under the id it gave. *)
Record told (known : gmap (string * N) DeadTargetEntry) (s : EgressState) : Prop := {
  told_dead : forall k e, inner (registry (targets s)) !! k = Some e ->
    (exists e0, known !! k = Some e0 /\ entry_verdict e = entry_verdict e0) \/ refused (requests s) k (d_status_code e);
  told_prompts : forall id session channel msg, approval_messages s !! id = Some (session, channel, msg) ->
    exists c d r, (RApproval (identity config session) channel id c d r, Ok msg) ∈ requests s
}.

Section Told.
Context (known : gmap (string * N) DeadTargetEntry).
Local Notation T := (told known).

Lemma told_request r : preserves T (request answer r).
Proof.
  apply preserves_mem. intros s [Hd Hp]. split; simpl.
  - intros k e He. destruct (Hd k e He) as [?|(req & err & reason & Hin & Hb & Hc & Hr)]; [by left|]. right. exists req, err, reason.
    split; [by apply elem_of_app; left|]. split; [done|]. split; [by apply concerns_more|done].
  - intros id se ch m Hm. destruct (Hp _ _ _ _ Hm) as (c & d & re & Hin). exists c, d, re. by apply elem_of_app; left.
Qed.

Lemma told_registry s f : T s ->
  (forall k e, inner (registry (f (targets s))) !! k = Some e ->
     (exists e', inner (registry (targets s)) !! k = Some e' /\ entry_verdict e = entry_verdict e') \/ refused (requests s) k (d_status_code e)) ->
  T (set_targets f s).
Proof.
  intros [Hd Hp] Hf. split; simpl; [|exact Hp]. intros k e He. destruct (Hf k e He) as [(e' & He' & Hv)|?]; [|by right].
  destruct (Hd k e' He') as [(e0 & Hk0 & Hv0)|Hr]; [left; exists e0; split; [done|congruence]|].
  right. unfold entry_verdict in Hv. injection Hv as -> _. done.
Qed.

Lemma told_check bot channel now : preserves T (check_dead bot channel now).
Proof.
  apply preserves_mem. intros s Hs. unfold is_dead_for_bot. destruct (inner (registry (targets s)) !! (bot, channel)) as [e0|] eqn:E0.
  - assert (forall k e, inner (registry (targets s)) !! k = Some e -> exists e', inner (registry (targets s)) !! k = Some e' /\ entry_verdict e = entry_verdict e') as Hid by eauto.
    destruct (expired _ _ _); [|destruct (probe_due _ _ _)]; apply told_registry; try done; simpl; intros k e He; left.
    + apply lookup_delete_Some in He as [_ He]. eauto.
    + destruct (decide (k = (bot, channel))) as [->|Hne]; [|rewrite lookup_insert_ne in He by done; eauto].
      rewrite lookup_insert_eq in He. injection He as <-. by exists e0.
    + eauto.
  - apply told_registry; [done|]. simpl. eauto.
Qed.

Lemma told_clear bot channel : preserves T (clear_target bot channel).
Proof.
  apply preserves_mem. intros s Hs. apply told_registry; [done|]. intros k e He. left. simpl in He. rewrite spawn_registry in He. simpl in He.
  apply lookup_delete_Some in He as [_ He]. eauto.
Qed.

Lemma told_other s s' : T s -> targets s' = targets s -> approval_messages s' = approval_messages s -> requests s' = requests s -> T s'.
Proof. intros [Hd Hp] E1 E2 E3. split; rewrite ?E1, ?E2, ?E3; done. Qed.

(** After a call, its answer is on the log. *)
Definition asked (r : Request) (a : Answer) (s : EgressState) : Prop := T s /\ (r, a) ∈ requests s.

Lemma told_ask {X} r (k : Answer -> M EgressState X) Q :
  (forall a, triple (asked r a) (k a) Q T) -> triple T (bind (request answer r) k) Q T.
Proof.
  intros Hk. eapply triple_bind; [|exact Hk]. apply triple_mem. intros s Hs. split; simpl.
  - exact (told_request r (mkWorld s []) Hs).
  - apply elem_of_app. right. by left.
Qed.

Lemma told_mark r bot channel now e :
  request_bot r = bot ->
  triple (fun s => asked r (Err e) s /\ concerns (requests s) r (bot, channel)) (mark_if_dead unicode_lower bot channel now e) (fun _ => T) T.
Proof.
  intros Hb. unfold mark_if_dead. destruct (dead_error unicode_lower e) as [[code reason]|] eqn:Hd; [|by apply triple_ret; intros ? [[] _]].
  apply triple_mem. intros s [[Hs Hin] Hc]. simpl. apply told_registry; [done|]. intros k x Hx. simpl in Hx. rewrite spawn_registry in Hx. simpl in Hx.
  destruct (decide (k = (bot, channel))) as [->|Hne]; [|rewrite lookup_insert_ne in Hx by done; left; eauto].
  rewrite lookup_insert_eq in Hx. injection Hx as <-. right. by exists r, e, reason.
Qed.

Lemma told_settle r bot channel now a : request_bot r = bot -> request_channel r = channel ->
  triple (asked r a) (settle_call unicode_lower api_text bot channel now a) (fun id s => asked r a s /\ a = Ok id) T.
Proof.
  intros Hb Hc. destruct a as [id|e]; simpl.
  - intros w [Hs Hin]. split; [|done]. split; [exact (told_clear bot channel w Hs)|done].
  - eapply (triple_bind _ _ _ (fun _ => T)); [|intros ?; by apply triple_fail].
    eapply triple_weaken; [by apply (told_mark r)|by intros s Hs; split; [|left]|done|done].
Qed.

Lemma told_settled {X} r bot channel now a (k : N -> M EgressState X) : request_bot r = bot -> request_channel r = channel -> (forall id, preserves T (k id)) ->
  triple (asked r a) (bind (settle_call unicode_lower api_text bot channel now a) k) (fun _ => T) T.
Proof.
  intros Hb Hc Hk. eapply triple_bind; [by apply told_settle|]. intros id. simpl.
  eapply triple_weaken; [apply triple_preserves, Hk|by intros s [[? _] _]|done|done].
Qed.

(** A call and its settlement. *)
Lemma told_call {X} r bot channel now (k : N -> M EgressState X) : request_bot r = bot -> request_channel r = channel -> (forall id, preserves T (k id)) ->
  preserves T (bind (request answer r) (fun a => bind (settle_call unicode_lower api_text bot channel now a) k)).
Proof. intros Hb Hc Hk. apply triple_preserves, told_ask. intros a. by apply told_settled. Qed.

Lemma told_send_one bot channel now r : request_bot r = bot -> request_channel r = channel ->
  preserves T (bind (request answer r) (settle_call unicode_lower api_text bot channel now)).
Proof.
  intros Hb Hc. apply triple_preserves, told_ask. intros a. eapply triple_weaken; [by apply told_settle|done|by intros ? s [[? _] _]|done].
Qed.

Lemma told_send_chunk bot channel now reference chunk :
  preserves T (send_chunk unicode_lower api_text answer bot channel now reference chunk).
Proof.
  destruct reference as [m|]; [|by apply told_send_one]. apply triple_preserves, told_ask. intros [id|e].
  - eapply triple_weaken; [by apply (told_settle (RSend bot channel chunk (Some m)))|done|by intros ? s [[? _] _]|done].
  - destruct (dead_error unicode_lower e).
    + eapply triple_weaken; [by apply (told_settle (RSend bot channel chunk (Some m)))|done|by intros ? s [[? _] _]|done].
    + eapply triple_weaken; [apply triple_preserves; by apply told_send_one|by intros s [? _]|done|done].
Qed.

Lemma told_send_chunks bot channel now reply chunks : forall i, preserves T (send_chunks unicode_lower api_text answer bot channel now reply i chunks).
Proof.
  induction chunks as [|c rest IH]; intros i; cbn [send_chunks]; [apply preserves_ret|].
  apply preserves_bind; [apply told_send_chunk|]. intros ?. apply IH.
Qed.

Lemma told_send_post bot channel post now title first chunks :
  let P := fun s => T s /\ (RForumPost bot channel title first, Ok post) ∈ requests s in
  triple P (send_post unicode_lower api_text answer bot channel post now chunks) (fun _ => T) T.
Proof.
  intros P. assert (forall s, P s -> T s) as HT by by intros s [? _].
  induction chunks as [|c rest IH]; cbn [send_post]; [by apply triple_ret|].
  eapply (triple_bind _ _ _ (fun a s => P s /\ (RSend bot post c None, a) ∈ requests s)).
  - apply triple_mem. intros s [Hs Hin]. split; [split|]; simpl.
    + exact (told_request (RSend bot post c None) (mkWorld s []) Hs).
    + by apply elem_of_app; left.
    + apply elem_of_app. right. by left.
  - intros [id|e]; simpl.
    + eapply triple_weaken; [exact IH|by intros s [? _]|done|done].
    + eapply (triple_bind _ _ _ (fun _ => T)); [|intros ?; by apply triple_fail].
      eapply triple_weaken; [by apply (told_mark (RSend bot post c None) bot channel)| |intros ? ? Hx; exact Hx|done].
      intros s [[Hs Hin] He]. split; [done|]. right. by exists title, first.
Qed.

Lemma told_send_transport bot channel chunks : preserves T (send_transport api_text answer bot channel chunks).
Proof.
  induction chunks as [|c rest IH]; cbn [send_transport]; [apply preserves_ret|]. apply preserves_bind; [apply told_request|].
  intros [?|?]; [exact IH|apply preserves_fail].
Qed.

Lemma told_aim session now dead : preserves T (aim new_id config session now dead).
Proof. unfold aim. preserve_steps; apply told_check. Qed.
Lemma told_upload bot channel paths : preserves T (upload_media media_env api_text answer bot channel paths).
Proof. unfold upload_media. preserve_steps. apply told_request. Qed.
Lemma told_tables bot channel files : preserves T (dispatch_rendered_tables api_text answer bot channel files).
Proof. unfold dispatch_rendered_tables. preserve_steps. apply told_request. Qed.
Lemma told_stop_typing session : preserves T (stop_typing session).
Proof. apply preserves_mem. intros s Hs. by apply (told_other s). Qed.
Lemma told_send session content reply now : preserves T (send session content reply now).
Proof.
  unfold send_message_action. destruct (is_explicit_silence _ _); [apply told_stop_typing|].
  apply preserves_bind; [apply told_aim|]. intros [bot channel]. apply preserves_bind; [apply preserves_lift|]. intros reference.
  apply preserves_bind; [apply told_upload|]. intros ?. destruct (processed _ _ _) as [text tables].
  destruct (custom_transport config).
  { preserve_steps; [apply told_clear|apply told_send_transport|apply told_tables]. }
  apply preserves_bind; [by apply preserves_mem|]. intros [|].
  - apply triple_preserves. apply told_ask. intros ans.
    set (r := RForumPost bot channel _ _). eapply triple_bind; [by apply (told_settle r)|]. intros post. simpl.
    eapply triple_bind; [|intros ?; apply triple_preserves, told_tables].
    eapply triple_weaken; [eapply told_send_post|by intros s [[Hs Hin] ->]; split|done|done].
  - preserve_steps; [apply told_send_chunks|apply told_tables].
Qed.

Lemma told_keep_typing session now : preserves T (keep_typing answer new_id config session now).
Proof.
  unfold keep_typing. preserve_steps; try apply told_check; try apply told_request.
  intros z Hs. destruct (should_refresh_typing _ _ _ _). by apply (told_other z).
Qed.

Lemma told_open_stream bot channel key reply : preserves T (open_stream api_text answer new_id config bot channel key reply).
Proof.
  unfold open_stream. preserve_steps; try apply told_request; try done; by intros z Hs; apply (told_other z).
Qed.

Lemma told_final_update bot channel key active content now :
  preserves T (final_update api_text live_oks live_error config bot channel key active content now).
Proof.
  unfold final_update. preserve_steps. intros z [Hd Hp]. destruct (write_update _ _ _ _ _) as [ok [oks e]]. simpl.
  split; simpl.
  - intros k x Hx. destruct (Hd k x Hx) as [?|(req & err & reason & Hin & Hb & Hc & Hr)]; [by left|]. right. exists req, err, reason.
    split; [by apply elem_of_app; left|]. split; [done|]. split; [by apply concerns_more|done].
  - intros id se ch m Hm. destruct (Hp _ _ _ _ Hm) as (c & d & re & Hin). exists c, d, re. by apply elem_of_app; left.
Qed.

Lemma told_stream session chunk now :
  preserves T (stream media_env unicode_upper api_text render answer live_oks live_error new_id config session chunk now).
Proof.
  unfold stream. destruct (completed_stream_content _ _); [|apply told_keep_typing]. cbv zeta.
  apply preserves_bind; [apply preserves_lift|]. intros channel. apply preserves_bind; [apply preserves_lift|]. intros ?.
  apply preserves_bind; [apply told_check|]. intros [|]; [apply preserves_fail|]. destruct (is_explicit_silence _ _).
  { apply preserves_bind; [|intros ?; apply told_stop_typing]. apply preserves_mem. intros z Hs. by apply (told_other z). }
  apply preserves_bind; [apply told_open_stream|]. intros active. destruct (match last_sequence active with Some _ => _ | None => _ end); [apply preserves_ret|].
  apply preserves_bind; [apply told_upload|]. intros ?. destruct (processed _ _ _) as [text tables].
  preserve_steps; try apply told_final_update; try apply told_tables; intros z Hs; by apply (told_other z).
Qed.

Lemma told_typing session active now : preserves T (typing_action answer new_id config session active now).
Proof.
  unfold typing_action. preserve_steps; try apply told_check; try apply told_request; try apply told_stop_typing.
  intros z Hs. by apply (told_other z).
Qed.

Lemma told_react session message emoji others now : preserves T (react_action answer new_id config session message emoji others now).
Proof. unfold react_action. preserve_steps; try apply told_check; apply told_request. Qed.

Lemma told_approval session id command reason now :
  preserves T (approval_request_action unicode_lower api_text answer new_id config session id command reason now).
Proof.
  unfold approval_request_action. apply triple_preserves.
  eapply (triple_bind _ _ _ (fun at_ s => T s /\ at_.1 = identity config session)).
  { unfold aim. intros w Hw. unfold bind, lift. destruct (http_for config session); [|done]. destruct (target new_id session) as [ch|]; [|done].
    pose proof (told_check (identity config session) ch now w Hw) as Hc. destruct (check_dead _ _ _ w) as [[[|]|] w']; done. }
  intros [bot channel]. simpl. apply (triple_pure T (bot = identity config session)). intros ->. apply told_ask. intros a.
  set (r := RApproval _ _ _ _ _ _). eapply triple_bind; [by apply (told_settle r)|]. intros msg. simpl.
  apply triple_mem. intros s [[Hs Hin] ->]. destruct Hs as [Hd Hp]. split; [exact Hd|]. simpl. intros id' se ch m Hm.
  destruct (decide (id' = id)) as [->|Hne]; [|rewrite lookup_insert_ne in Hm by done; by apply Hp].
  rewrite lookup_insert_eq in Hm. injection Hm as <- <- <-. by eexists _, _, _.
Qed.

Lemma told_expire id now : preserves T (expire_approval_action api_text answer config id now).
Proof.
  unfold expire_approval_action, remove_approval_message. preserve_steps; try apply told_check; try apply told_request.
  intros s [Hd Hp]. split; [exact Hd|]. simpl. intros id' se ch m [_ Hm]%lookup_delete_Some. by apply Hp.
Qed.

Lemma told_dispatch a now : preserves T (dispatching a now).
Proof.
  destruct a; cbn [dispatch_action].
  - apply told_send.
  - unfold edit_message_action. destruct (is_explicit_silence _ _); [apply told_stop_typing|].
    apply preserves_bind; [apply told_aim|]. intros [bot channel]. apply preserves_bind; [apply preserves_lift|]. intros m.
    by apply told_call; [done|done|intros; apply preserves_ret].
  - unfold delete_message_action. apply preserves_bind; [apply told_aim|]. intros [bot channel].
    apply preserves_bind; [apply preserves_lift|]. intros m. by apply told_call; [done|done|intros; apply preserves_ret].
  - unfold upload_file_action. apply preserves_bind; [apply told_aim|]. intros [bot channel].
    by apply told_call; [done|done|intros; apply preserves_ret].
  - apply told_stream.
  - apply told_typing.
  - apply told_react.
  - apply told_approval.
  - apply told_expire.
Qed.
End Told.

Definition dispatch_all (l : list (OutboundAction * Z)) : G unit :=
  for_each (fun x => attempt (dispatching x.1 x.2) ;;; ret tt) l.

(** The egress remembers only what Discord said: after any actions, whatever
    the answers, a target held dead was dead at first or Discord refused it to
    that bot with that code, in its channel or a post made in it; and every
    prompt on record was accepted, in that channel, under that id, for the
    request it stands for. *)
Theorem egress_remembers_what_discord_said (l : list (OutboundAction * Z)) (w : world EgressState) :
  approval_messages (st w) = ∅ ->
  told (inner (registry (targets (st w)))) (st (snd (dispatch_all l w))).
Proof.
  intros Hm. set (known := inner (registry (targets (st w)))).
  assert (preserves (told known) (dispatch_all l)) as Hp.
  { unfold dispatch_all. preserve_steps. apply told_dispatch. }
  apply Hp. split; [intros k e He; left; by exists e|]. intros id se ch m He. by rewrite Hm, lookup_empty in He.
Qed.

(** ** Replay *)

Definition at_rest (L : LedgerState) (s : EgressState) : Prop := obligations_db s = L.

Lemma rest_request L r : preserves (at_rest L) (request answer r).
Proof. by apply preserves_mem. Qed.
Lemma rest_check L bot channel now : preserves (at_rest L) (check_dead bot channel now).
Proof. apply preserves_mem. intros s Hs. by destruct (is_dead_for_bot _ _ _ _). Qed.

Lemma rest_send_chunks L bot channel now reply chunks : forall i,
  preserves (at_rest L) (send_chunks unicode_lower api_text answer bot channel now reply i chunks).
Proof.
  induction chunks as [|c rest IH]; intros i; cbn [send_chunks]; [apply preserves_ret|].
  apply preserves_bind; [|intros ?; apply IH]. unfold send_chunk, settle_call, mark_if_dead, clear_target.
  preserve_steps; try apply rest_request; done.
Qed.
Lemma rest_send_post L bot channel post now chunks :
  preserves (at_rest L) (send_post unicode_lower api_text answer bot channel post now chunks).
Proof.
  induction chunks as [|c rest IH]; cbn [send_post]; [apply preserves_ret|]. unfold mark_if_dead.
  preserve_steps; try apply rest_request; try exact IH; done.
Qed.
Lemma rest_send_transport L bot channel chunks : preserves (at_rest L) (send_transport api_text answer bot channel chunks).
Proof.
  induction chunks as [|c rest IH]; cbn [send_transport]; [apply preserves_ret|].
  preserve_steps; try apply rest_request; exact IH.
Qed.

Lemma rest_send L session content reply now : preserves (at_rest L) (send session content reply now).
Proof.
  unfold send_message_action, aim, upload_media, dispatch_rendered_tables, settle_call, mark_if_dead, clear_target, stop_typing.
  preserve_steps; try apply rest_request; try apply rest_check; try apply rest_send_chunks; try apply rest_send_post; try apply rest_send_transport; done.
Qed.

Lemma tidy_send_chunks bot channel now reply chunks : forall i,
  tidy (send_chunks unicode_lower api_text answer bot channel now reply i chunks).
Proof.
  induction chunks as [|c rest IH]; intros i; cbn [send_chunks]; [apply tidy_ret|].
  apply tidy_bind; [|intros ?; apply IH]. unfold send_chunk, settle_call, mark_if_dead, clear_target, request. steady_steps.
Qed.
Lemma tidy_send_post bot channel post now chunks : tidy (send_post unicode_lower api_text answer bot channel post now chunks).
Proof.
  induction chunks as [|c rest IH]; cbn [send_post]; [apply tidy_ret|]. unfold mark_if_dead, request. steady_steps. exact IH.
Qed.
Lemma tidy_send_transport bot channel chunks : tidy (send_transport api_text answer bot channel chunks).
Proof. induction chunks as [|c rest IH]; cbn [send_transport]; [apply tidy_ret|]. unfold request. steady_steps. exact IH. Qed.
Lemma tidy_lift {A} (r : result A OmonError) : tidy (S:=EgressState) (lift r).
Proof. by intros w. Qed.

Lemma tidy_send session content reply now : tidy (send session content reply now).
Proof.
  unfold send_message_action, aim, upload_media, dispatch_rendered_tables, settle_call, mark_if_dead, clear_target, stop_typing, check_dead, request.
  steady_steps; try apply tidy_lift; try apply tidy_send_chunks; try apply tidy_send_post; try apply tidy_send_transport.
Qed.

(** Every row of these ids is delivered or failed. *)
Definition closed (ids : list string) (L : LedgerState) : Prop :=
  forall r, r ∈ obligations L -> ob_id r ∈ ids -> ob_state r = "delivered" \/ ob_state r = "failed".

Lemma closed_mark ids id state error now L :
  state = "delivered" \/ state = "failed" -> closed ids L ->
  closed (id :: ids) (set_obligations (update_where (has_id id) (set_ob_state state now error)) L).
Proof.
  intros Hst Hc r Hr Hid. simpl in Hr. apply in_update_where in Hr as (r0 & Hr0 & ->). unfold has_id in *.
  destruct (String.eqb_spec (ob_id r0) id) as [E|E]; simpl; [done|]. apply elem_of_cons in Hid as [Hid|Hid]; [congruence|]. by apply Hc.
Qed.

Lemma mark_clean id state error now L :
  exists r, update_obligation_state id state error now (mkWorld L []) =
    (r, mkWorld (set_obligations (update_where (has_id id) (set_ob_state state now error)) L) []).
Proof. unfold update_obligation_state. rewrite bind_stmt. simpl. destruct (count _ _ =? 0)%nat; by eexists. Qed.

Local Notation replaying := (replay_one media_env unicode_upper unicode_lower api_text render answer is_forum live_oks live_error new_id config).

Lemma replay_one_closes now o ids s :
  closed ids (obligations_db s) ->
  exists s', replaying now o (mkWorld s []) = (Ok tt, mkWorld s' []) /\ closed (ob_id o :: ids) (obligations_db s').
Proof.
  intros Hc.
  assert (forall state error s0, state = "delivered" \/ state = "failed" -> obligations_db s0 = obligations_db s ->
    exists s', bind (attempt (on_ledger (update_obligation_state (ob_id o) state error now))) (fun _ => ret tt) (mkWorld s0 []) = (Ok tt, mkWorld s' []) /\
      closed (ob_id o :: ids) (obligations_db s')) as Hmark.
  { intros state error s0 Hst E. destruct (mark_clean (ob_id o) state error now (obligations_db s0)) as [r Hr].
    unfold bind, attempt, on_ledger, zoom. simpl. rewrite Hr. eexists. split; [reflexivity|]. simpl. rewrite E. by apply closed_mark. }
  unfold replay_one. destruct (from_storage_key (ob_session_key o)) as [session|]; [|apply Hmark; auto].
  pose proof (tidy_send session (ob_content o) None now (mkWorld s []) eq_refl) as Ht.
  pose proof (rest_send (obligations_db s) session (ob_content o) None now (mkWorld s []) eq_refl) as Hr.
  unfold dispatch_action, bind at 1, attempt at 1. destruct (send session (ob_content o) None now (mkWorld s [])) as [r [s0 fl]].
  simpl in Ht, Hr. subst fl. destruct r as [?|e]; apply Hmark; auto.
Qed.

Lemma replay_all_closes now l : forall ids s,
  closed ids (obligations_db s) ->
  exists s', for_each (replaying now) l (mkWorld s []) = (Ok tt, mkWorld s' []) /\
    closed (rev (map ob_id l) ++ ids) (obligations_db s').
Proof.
  induction l as [|o l IH]; intros ids s Hc; [by exists s|].
  destruct (replay_one_closes now o ids s Hc) as (s1 & E1 & H1'). destruct (IH _ s1 H1') as (s2 & E2 & H2').
  exists s2. cbn [for_each]. unfold bind. rewrite E1. split; [exact E2|]. simpl. by rewrite <- app_assoc.
Qed.

(** A replay leaves nothing it took in the air: when the database works, the
    replay after a reconnection ends, whatever Discord answers, and every
    obligation it claimed is recorded delivered or failed. *)
Theorem replay_settles_claims (pid : Z) (started bot : string) (now : Z) (s : EgressState)
    (claimed : list DeliveryObligation) (db : LedgerState) :
  run (sweep_failed_for_runtime pid started bot 3 86400 now) (obligations_db s) = (Ok claimed, db) ->
  exists s', run (replay_failed_transport_obligations media_env unicode_upper unicode_lower api_text render answer is_forum
                    live_oks live_error new_id config pid started bot now) s = (Ok (length claimed), s') /\
    closed (map ob_id claimed) (obligations_db s').
Proof.
  intros Hs. unfold run in Hs. destruct (sweep_failed_for_runtime _ _ _ _ _ _ _) as [r w] eqn:E. injection Hs as -> <-.
  assert (tidy (sweep_failed_for_runtime pid started bot 3 86400 now)) as Ht.
  { unfold sweep_failed_for_runtime. apply tidy_bind; [apply tidy_query|]. intros rows. induction rows as [|row rows IH]; simpl; [apply tidy_ret|].
    destruct (negb _); [exact IH|]. apply tidy_bind; [apply tidy_stmt|]. intros n. apply tidy_bind; [exact IH|]. intros ?. apply tidy_ret. }
  specialize (Ht (mkWorld (obligations_db s) []) eq_refl). rewrite E in Ht. simpl in Ht.
  destruct (replay_all_closes now claimed [] (set_obligations_db (st w) s)) as (s' & E' & Hc).
  { by intros r _ ?%not_elem_of_nil. }
  exists s'. split.
  - apply run_intro. unfold replay_failed_transport_obligations, bind, on_ledger, zoom. cbn [st faults]. rewrite E, Ht, E'. done.
  - rewrite app_nil_r in Hc. intros r Hr Hin. apply Hc; [done|]. by rewrite list_elem_of_In, <- in_rev, <- list_elem_of_In.
Qed.
End Posting.

(** ** The watchdog *)

Definition watchdog_step (threshold : N) (x : N * list N) (t : WatchdogStep) : N * list N :=
  match t with
  | WEvent now => (now, x.2)
  | WTick now healthy =>
      let '(last, restart) := watchdog_tick threshold now x.1 healthy in
      (last, if restart then (x.2 ++ [now])%list else x.2)
  end.

Definition step_time (t : WatchdogStep) : N := match t with WEvent now | WTick now _ => now end.

(** Restarts, in milliseconds, each a whole window after the one before. *)
Fixpoint spaced (threshold : N) (l : list N) : Prop :=
  match l with
  | a :: (b :: _) as r => (a + threshold * 1000 <= b)%N /\ spaced threshold r
  | _ => True
  end.

Lemma spaced_snoc threshold l x : spaced threshold l -> (forall y, List.last l y + threshold * 1000 <= x \/ l = [])%N -> spaced threshold (l ++ [x]).
Proof.
  induction l as [|a l IH]; intros Hs Hl; [done|]. destruct l as [|b l]; simpl in *.
  - split; [|done]. destruct (Hl 0%N); [done|discriminate].
  - destruct Hs as [Hab Hs]. split; [done|]. apply IH; [done|]. intros y. destruct (Hl y); [by left|discriminate].
Qed.

(** A clock that does not go back. *)
Fixpoint clocked (t : N) (l : list WatchdogStep) : Prop :=
  match l with [] => True | s :: r => (t <= step_time s)%N /\ clocked (step_time s) r end.

Lemma watchdog_spaced threshold l : forall t last restarts,
  clocked t l -> (last <= t)%N -> spaced threshold restarts -> (forall y, List.last restarts y <= last \/ restarts = [])%N ->
  spaced threshold (fold_left (watchdog_step threshold) l (last, restarts)).2.
Proof.
  induction l as [|[now|now healthy] l IH]; intros t last restarts Hc Ht Hs Hl; [done| |]; destruct Hc as [Hn Hc]; simpl in *.
  - apply (IH now); [done|lia|done|]. intros y. destruct (Hl y); [left; lia|by right].
  - unfold watchdog_tick. destruct (N.eqb_spec threshold 0); [apply (IH now); try done; lia|].
    destruct (N.eqb_spec last 0); [apply (IH now); try done; lia|].
    destruct (N.ltb_spec ((now - last) / 1000) threshold) as [Hlt|Hge]; [apply (IH now); try done; lia|].
    destruct healthy; simpl.
    + apply (IH now); [done|lia|done|]. intros y. destruct (Hl y); [left; lia|by right].
    + apply (IH now); [done|lia| |].
      * apply spaced_snoc; [done|]. intros y. destruct (Hl y) as [Hy|Hy]; [left|by right].
        assert (threshold * 1000 <= now - last)%N by (etransitivity; [apply N.mul_le_mono_r, Hge|rewrite N.mul_comm; apply N.Div0.mul_div_le]).
        lia.
      * intros y. left. rewrite last_last. lia.
Qed.

Lemma watchdog_disabled l : forall x, (fold_left (watchdog_step 0) l x).2 = x.2.
Proof. induction l as [|[now|now healthy] l IH]; intros x; simpl; [done|by rewrite IH|by rewrite IH]. Qed.

(** The watchdog restarts the shard at most once per window of silence: with a
    clock that does not go back two restarts are a threshold apart, and a
    threshold of zero disables it. *)
Theorem watchdog_restarts_spaced (threshold : N) (l : list WatchdogStep) :
  clocked 0 l ->
  let restarts := (fold_left (watchdog_step threshold) l (0%N, [])).2 in
  spaced threshold restarts /\ (threshold = 0%N -> restarts = []).
Proof.
  intros Hc restarts. split.
  - apply (watchdog_spaced threshold l 0); [done|lia|done|by right].
  - unfold restarts. intros ->. apply watchdog_disabled.
Qed.

(** ** Concrete runs *)

Module Samples.

(** An engine that knows one reasoning block; no media; every path canonical. *)
#[local] Instance sample_regex : Regex := {|
  is_match _ _ := false;
  replace_all p t s := if String.eqb (pattern_text p) (pattern_text REASONING_TAGS_RE) then replace_str "<think>plan</think>" t s 0 else s
|}.
#[local] Instance sample_captures : Captures := fun _ _ => [].
#[local] Instance sample_files : FileSystem := {| canonicalize p := Ok p; is_dir _ := false; is_file _ := true |}.

Definition media : MediaEnv := mkMediaEnv (fun _ => false) "/tmp" None.
Definition show_api (e : ApiError) : string := match e with UnsuccessfulRequest _ _ m => m | OtherApiError t => t end.
Definition no_picture (_ : MarkdownTable) : result string string := Err "no fonts".
(** [NonZeroU64]. *)
Definition nonzero_id (n : N) : result N OmonError := if (n =? 0)%N then Err (Panicked "invalid (0) value") else Ok n.
Definition one_bot : EgressConfig := mkConfig {["b"]} "b" [] false false false None None None false.
Definition accepts (_ : list CallEntry) (_ : Request) : Answer := Ok 100%N.
(** The second call is reset. *)
Definition resets (log : list CallEntry) (_ : Request) : Answer :=
  if (length log =? 1)%nat then Err (Api (OtherApiError "connection reset")) else Ok 100%N.

Definition act (answer : list CallEntry -> Request -> Answer) (a : OutboundAction) (now : Z) : M EgressState unit :=
  dispatch_action media id id show_api no_picture answer (fun _ _ => false) (fun _ => []) (fun _ => Api (OtherApiError "")) nonzero_id one_bot a now.

Definition key (channel : string) : SessionKey := mkSessionKey "discord" None channel None "u" (Some "b").
Definition fresh : EgressState := mkEgress (booted 60 []) ∅ ∅ ∅ ∅ [] (mkLedger [] [] [] [] []).

(** The reasoning is removed to look for silence; what is sent still has it. *)
Theorem reasoning_is_posted :
  posted (snd (run (act accepts (SendMessage (key "7") "<think>plan</think>hi" None) 0) fresh)) = [scalars "<think>plan</think>hi"].
Proof. vm_compute. reflexivity. Qed.

(** A session on a channel that is no number panics on a reaction, its thread's
    number notwithstanding: the fallback of the fallback is evaluated first. *)
Theorem reaction_panics :
  fst (run (act accepts (React (mkSessionKey "discord" None "general" (Some "7") "u" (Some "b")) "5" "✅" false) 0) fresh)
    = Err (Panicked "invalid (0) value").
Proof. vm_compute. reflexivity. Qed.

Definition long_reply : string := of_chars (repeat "a" 2100).

(** A connection reset after the first of two chunks: sent again from the start,
    the first chunk stands twice. *)
Theorem retry_repeats_chunks :
  let a := SendMessage (key "7") long_reply None in
  let s := snd (run (act resets a 0) fresh) in
  let s' := snd (run (act accepts a 1) s) in
  length (posted s) = 1 /\ length (posted s') = 3 /\ posted s' !! 0 = posted s' !! 1.
Proof. vm_compute. done. Qed.

Definition with_dead : EgressState :=
  set_targets (fun t => snd (mark_dead_for_bot "b" 7 404 "HTTP 404: Unknown Channel" 0 t)) fresh.

Lemma dead_target_not_called_witness :
  let '(r, w') := act accepts (SendMessage (key "7") "hi" None) 10 (mkWorld with_dead []) in
  requests (st w') = [] /\ (is_ok r = true -> is_explicit_silence id (filter_reasoning "hi") = true).
Proof.
  pose proof (dead_target_not_called media id id show_api no_picture accepts (fun _ _ => false) (fun _ => []) (fun _ => Api (OtherApiError ""))
    nonzero_id one_bot (SendMessage (key "7") "hi" None) (key "7") 7 10 (mkWorld with_dead []) eq_refl) as Ht.
  assert (target nonzero_id (key "7") = Ok 7%N) as H1 by (vm_compute; reflexivity).
  assert (fst (is_dead_for_bot (identity one_bot (key "7")) 7 10 (registry (targets with_dead))) = true) as H2 by (vm_compute; reflexivity).
  specialize (Ht H1 H2). unfold act. destruct (dispatch_action _ _ _ _ _ _ _ _ _ _ _ _ _) as [r w']. split; apply Ht.
Defined.

Definition a_day : list (OutboundAction * Z) :=
  [(ApprovalRequest (key "7") "r1" "ls" "", 1%Z); (SendMessage (key "8") "hi" None, 2%Z); (ExpireApproval "r0", 3%Z)].

Lemma egress_remembers_what_discord_said_witness :
  told id one_bot ∅ (st (snd (dispatch_all media id id show_api no_picture accepts (fun _ _ => false) (fun _ => [])
    (fun _ => Api (OtherApiError "")) nonzero_id one_bot a_day (mkWorld fresh [])))).
Proof.
  apply (egress_remembers_what_discord_said media id id show_api no_picture accepts (fun _ _ => false) (fun _ => [])
    (fun _ => Api (OtherApiError "")) nonzero_id one_bot a_day (mkWorld fresh [])). reflexivity.
Defined.

Definition owed : DeliveryObligation :=
  mkObligation "o1" (storage_key (key "7")) "7" None "hi" "failed" 1 0 0 (Some 7%Z) (Some "connection reset") (Some "t0").
Definition owing : EgressState := set_obligations_db (mkLedger [] [] [] [owed] []) fresh.

Lemma replay_settles_claims_witness :
  exists s', run (replay_failed_transport_obligations media id id show_api no_picture accepts (fun _ _ => false) (fun _ => [])
    (fun _ => Api (OtherApiError "")) nonzero_id one_bot 7 "t0" "b" (seconds 5)) owing = (Ok 1, s') /\ closed ["o1"] (obligations_db s').
Proof.
  edestruct (replay_settles_claims media id id show_api no_picture accepts (fun _ _ => false) (fun _ => [])
    (fun _ => Api (OtherApiError "")) nonzero_id one_bot 7 "t0" "b" (seconds 5) owing) as (s' & H1 & H2).
  - vm_compute. reflexivity.
  - exists s'. split; [exact H1|exact H2].
Defined.

Lemma watchdog_restarts_spaced_witness :
  (fold_left (watchdog_step 60) [WEvent 1000; WTick 30000 false; WTick 70000 false; WTick 90000 false; WTick 140000 false] (0%N, [])).2
    = [70000; 140000]%N /\ spaced 60 [70000; 140000]%N.
Proof.
  split; [vm_compute; reflexivity|].
  apply (watchdog_restarts_spaced 60 [WEvent 1000; WTick 30000 false; WTick 70000 false; WTick 90000 false; WTick 140000 false]).
  simpl. lia.
Defined.
End Samples.
