(* ===== verification/Search.v ===== *)
(** * Messenger policies and the message index (src/models/messenger_policy.rs,
    src/storage/messenger_policy.rs, src/storage/message_search.rs)

    What the tool of message context ([Context]) may read is bounded by a policy
    matrix, kept per platform as an override of the one of the environment; what
    it has read is indexed for full-text search.  A JSON column is the value its
    text denotes, [None] when it denotes none.  The matching and the ranking of
    FTS5 are the class [Fts]; the floating-point rank of a hit is not kept. *)
From stdpp Require Import base list strings.
From Stdlib Require Import ZArith NArith Lia Ascii String.
From S2P Require Import Prelude RustStr Json Db Session Events Shell Outgoing.
Open Scope string_scope.
Open Scope db_scope.
Local Notation length := Datatypes.length.

(** ** Policies *)

Record MessageContextOperationLimits : Type := mkLimits {
  recent_limit : N;
  search_results : N;
  search_scan : N;
  replies_limit : N
}.

Definition default_limits : MessageContextOperationLimits := mkLimits 50 50 500 50.

(** [Ord::clamp], which panics unless [lo <= hi]: [clamp_bounds_in_order]. *)
Definition clamp (lo hi x : N) : N := if (x <? lo)%N then lo else if (hi <? x)%N then hi else x.

Definition normalized_limits (l : MessageContextOperationLimits) : MessageContextOperationLimits :=
  let recent := clamp 1 100 (recent_limit l) in
  let results := clamp 1 100 (search_results l) in
  mkLimits recent results (clamp results 2000 (search_scan l)) (clamp 1 100 (replies_limit l)).

Record MessageContextPolicyMatrix : Type := mkMatrix {
  allow_current_conversation_reads : bool;
  allow_dm_reads : bool;
  allow_cross_channel_reads : bool;
  same_workspace_only : bool;
  inherit_session_authorization : bool;
  limits : MessageContextOperationLimits
}.

Definition default_matrix : MessageContextPolicyMatrix := mkMatrix true true true true true default_limits.

Definition normalized (m : MessageContextPolicyMatrix) : MessageContextPolicyMatrix :=
  mkMatrix (allow_current_conversation_reads m) (allow_dm_reads m) (allow_cross_channel_reads m)
    (same_workspace_only m) (inherit_session_authorization m) (normalized_limits (limits m)).

(** [std::env::var(name).ok()]. *)
Definition Env : Type := string -> option string.

Definition truthy (value : string) : bool :=
  existsb (String.eqb (to_ascii_lowercase (trim value))) ["1"; "true"; "yes"; "on"].

Definition env_bool (env : Env) (name : string) (d : bool) : bool :=
  match env name with Some value => truthy value | None => d end.

Definition env_usize (env : Env) (name : string) (d : N) : N :=
  default d (env name ≫= fun value => parse_u64 (trim value)).

Definition matrix_from_environment (env : Env) : MessageContextPolicyMatrix :=
  let d := default_matrix in
  normalized (mkMatrix
    (env_bool env "OMON_MESSAGE_CONTEXT_ALLOW_CURRENT" (allow_current_conversation_reads d))
    (env_bool env "OMON_MESSAGE_CONTEXT_ALLOW_DM" (allow_dm_reads d))
    (env_bool env "OMON_MESSAGE_CONTEXT_ALLOW_CROSS_CHANNEL" (allow_cross_channel_reads d))
    (env_bool env "OMON_MESSAGE_CONTEXT_SAME_WORKSPACE_ONLY" (same_workspace_only d))
    (env_bool env "OMON_MESSAGE_CONTEXT_INHERIT_SESSION_AUTHORIZATION" (inherit_session_authorization d))
    (mkLimits
      (env_usize env "OMON_MESSAGE_CONTEXT_MAX_RECENT" (recent_limit (limits d)))
      (env_usize env "OMON_MESSAGE_CONTEXT_MAX_SEARCH_RESULTS" (search_results (limits d)))
      (env_usize env "OMON_MESSAGE_CONTEXT_MAX_SEARCH_SCAN" (search_scan (limits d)))
      (env_usize env "OMON_MESSAGE_CONTEXT_MAX_REPLIES" (replies_limit (limits d))))).

(** *** Stored form

    [derive(Serialize, Deserialize)] with [serde(default)] on the structs: a
    missing member has its default, one of another type is an error; an array is
    read by position. *)
Definition limits_value (l : MessageContextOperationLimits) : value :=
  JObject [("recent", JPos (recent_limit l)); ("replies", JPos (replies_limit l));
           ("search_results", JPos (search_results l)); ("search_scan", JPos (search_scan l))].

Definition matrix_value (m : MessageContextPolicyMatrix) : value :=
  JObject [("allow_cross_channel_reads", JBool (allow_cross_channel_reads m));
           ("allow_current_conversation_reads", JBool (allow_current_conversation_reads m));
           ("allow_dm_reads", JBool (allow_dm_reads m));
           ("inherit_session_authorization", JBool (inherit_session_authorization m));
           ("limits", limits_value (limits m));
           ("same_workspace_only", JBool (same_workspace_only m))].

(** The [i]-th field of a struct of [n] fields. *)
Definition field {A} (read : value -> option A) (d : A) (i : nat) (key : string) (v : value) : option A :=
  match v with
  | JObject m => match assoc_get key m with Some x => read x | None => Some d end
  | JArray l => match nth_error l i with Some x => read x | None => Some d end
  | _ => None
  end.
Definition short_enough (n : nat) (v : value) : option unit :=
  match v with JArray l => if (length l <=? n)%nat then Some tt else None | JObject _ => Some tt | _ => None end.

Definition limits_of_value (v : value) : option MessageContextOperationLimits :=
  let d := default_limits in
  a ← field as_u64 (recent_limit d) 0 "recent" v;
  b ← field as_u64 (search_results d) 1 "search_results" v;
  c ← field as_u64 (search_scan d) 2 "search_scan" v;
  e ← field as_u64 (replies_limit d) 3 "replies" v;
  _ ← short_enough 4 v;
  Some (mkLimits a b c e).

Definition matrix_of_value (v : value) : option MessageContextPolicyMatrix :=
  let d := default_matrix in
  a ← field as_bool (allow_current_conversation_reads d) 0 "allow_current_conversation_reads" v;
  b ← field as_bool (allow_dm_reads d) 1 "allow_dm_reads" v;
  c ← field as_bool (allow_cross_channel_reads d) 2 "allow_cross_channel_reads" v;
  e ← field as_bool (same_workspace_only d) 3 "same_workspace_only" v;
  f ← field as_bool (inherit_session_authorization d) 4 "inherit_session_authorization" v;
  g ← field limits_of_value (limits d) 5 "limits" v;
  _ ← short_enough 6 v;
  Some (mkMatrix a b c e f g).

(** ** The tables *)

Record MessageSearchDocument : Type := mkDoc {
  doc_platform : string;
  doc_guild_id : option string;
  doc_channel_id : string;
  doc_thread_id : option string;
  doc_message_id : string;
  doc_author_id : string;
  doc_author_name : string;
  doc_content : string;
  doc_attachment_names : list string;
  doc_timestamp : Z;
  doc_metadata : value
}.

Record MessageSearchRow : Type := mkSearchRow {
  row_document : MessageSearchDocument;
  (** Whether the two JSON columns hold what they should. *)
  names_parse : bool;
  metadata_parses : bool
}.

Record SearchState : Type := mkSearch {
  policy_overrides : list (string * option value);
  search_documents : list MessageSearchRow
}.
Definition set_overrides f (s : SearchState) := mkSearch (f (policy_overrides s)) (search_documents s).
Definition set_documents f (s : SearchState) := mkSearch (policy_overrides s) (f (search_documents s)).

(** FTS5: which rows match a query; the order of the hits by [bm25], then by
    time; and [CAST(text AS INTEGER)] of SQLite. *)
Class Fts := {
  fts_matches : string -> MessageSearchRow -> bool;
  fts_ranked : list MessageSearchRow -> string -> list MessageSearchRow -> list MessageSearchRow;
  fts_ranked_perm : forall t q l, fts_ranked t q l ≡ₚ l;
  cast_integer : string -> Z
}.

Section Policies.
(** serde_json's error for a text. *)
Context (policy_error : option value -> string).
Notation Store := (M SearchState).

Definition on_platform {A} (platform : string) (r : string * A) : bool := String.eqb r.1 platform.

Definition get_override (platform : string) : Store (option MessageContextPolicyMatrix) :=
  raw <- query (fun s => snd <$> head (select (on_platform platform) (policy_overrides s))) ;;
  match raw with
  | None => ret None
  | Some column =>
      match column ≫= matrix_of_value with
      | Some m => ret (Some (normalized m))
      | None => fail (Database ("invalid messenger policy JSON: " ++ policy_error column))
      end
  end.

Definition effective (platform : string) (base : MessageContextPolicyMatrix) : Store MessageContextPolicyMatrix :=
  o <- get_override platform ;;
  ret (normalized (default base o)).

Definition upsert_override (platform : string) (column : option value) (t : list (string * option value)) :=
  if existsb (on_platform platform) t
  then update_where (on_platform platform) (fun r => (r.1, column)) t
  else (t ++ [(platform, column)])%list.

Definition set_override (platform : string) (policy : MessageContextPolicyMatrix) : Store MessageContextPolicyMatrix :=
  let normalized := normalized policy in
  stmt (fun s => (tt, set_overrides (upsert_override platform (Some (matrix_value normalized))) s)) ;;;
  ret normalized.

Definition clear_override (platform : string) : Store bool :=
  n <- stmt (fun s => (count (on_platform platform) (policy_overrides s),
                       set_overrides (delete_where (on_platform platform)) s)) ;;
  ret (0 <? n)%nat.
End Policies.

(** ** The index *)

Definition doc_key (d : MessageSearchDocument) : string * string * string :=
  (doc_platform d, doc_channel_id d, doc_message_id d).
Definition row_key (r : MessageSearchRow) := doc_key (row_document r).
Definition has_doc_key (k : string * string * string) (r : MessageSearchRow) : bool := bool_decide (row_key r = k).

(** [into_document]. *)
Definition into_document (r : MessageSearchRow) : MessageSearchDocument :=
  let d := row_document r in
  mkDoc (doc_platform d) (doc_guild_id d) (doc_channel_id d) (doc_thread_id d) (doc_message_id d) (doc_author_id d)
    (doc_author_name d) (doc_content d) (if names_parse r then doc_attachment_names d else []) (doc_timestamp d)
    (if metadata_parses r then doc_metadata d else JObject []).

(** [INSERT ... ON CONFLICT(platform, channel_id, message_id) DO UPDATE]. *)
Definition upsert_document (d : MessageSearchDocument) (t : list MessageSearchRow) : list MessageSearchRow :=
  if existsb (has_doc_key (doc_key d)) t
  then update_where (has_doc_key (doc_key d)) (fun _ => mkSearchRow d true true) t
  else (t ++ [mkSearchRow d true true])%list.

(** Trimming double quotes and then removing them removes them all. *)
Fixpoint bare_term (term : string) : string :=
  match term with
  | "" => ""
  | String c rest => if Ascii.eqb c DQ then bare_term rest else String c (bare_term rest)
  end.

Definition quoted_term (term : string) : string := dq ++ term ++ dq ++ "*".

Definition build_fts_query (query : string) : result string OmonError :=
  let terms := map quoted_term (List.filter (fun t => negb (is_empty t)) (map bare_term (split_whitespace query))) in
  match terms with
  | [] => Err (ToolExecution "message search query must contain at least one searchable term")
  | _ => Ok (join " AND " terms)
  end.

Section Index.
Context `{Fts}.
Notation Store := (M SearchState).

Definition upsert (d : MessageSearchDocument) : Store unit :=
  stmt (fun s => (tt, set_documents (upsert_document d) s)).

Definition upsert_many (documents : list MessageSearchDocument) : Store nat :=
  match documents with
  | [] => ret 0
  | _ => transaction (for_each upsert documents) ;;; ret (length documents)
  end.

Definition get_document (platform channel message : string) : Store (option MessageSearchDocument) :=
  query (fun s => into_document <$> head (select (has_doc_key (platform, channel, message)) (search_documents s))).

(** The [WHERE] clause of the search. *)
Definition hit (fts_query platform channel : string) (before : option string) (r : MessageSearchRow) : bool :=
  fts_matches fts_query r && String.eqb (doc_platform (row_document r)) platform &&
  String.eqb (doc_channel_id (row_document r)) channel &&
  match before with
  | None => true
  | Some b => (cast_integer (doc_message_id (row_document r)) <? cast_integer b)%Z
  end.

Definition search_index (platform channel query_text : string) (before : option string) (limit : nat) :
    Store (list MessageSearchDocument) :=
  fts_query <- lift (build_fts_query query_text) ;;
  rows <- query (fun s => take limit (fts_ranked (search_documents s) fts_query
                                        (select (hit fts_query platform channel before) (search_documents s)))) ;;
  ret (map into_document rows).

Definition count_documents (platform channel : string) : Store nat :=
  query (fun s => count (fun r => String.eqb (doc_platform (row_document r)) platform &&
                                  String.eqb (doc_channel_id (row_document r)) channel) (search_documents s)).

Definition index_inbound (session : SessionKey) (event : InboundEvent) : Store bool :=
  if is_empty (trim (ev_platform_message_id event)) then ret false
  else
    upsert (mkDoc (platform session) (guild_id session) (channel_id session) (thread_id session)
              (ev_platform_message_id event) (user_id session) (user_id session) (ev_content event)
              (map filename (ev_attachments event)) (ev_received_at event)
              (JObject [("delivery_id", opt_value (ev_delivery_id event)); ("source", JString "ingress")])) ;;;
    ret true.
End Index.

(** ** Policies stay within bounds *)

Definition limits_ok (l : MessageContextOperationLimits) : Prop :=
  (1 <= recent_limit l <= 100)%N /\ (1 <= search_results l <= 100)%N /\
  (search_results l <= search_scan l <= 2000)%N /\ (1 <= replies_limit l <= 100)%N.

Lemma clamp_between lo hi x : (lo <= hi)%N -> (lo <= clamp lo hi x <= hi)%N.
Proof. unfold clamp. intros. destruct (N.ltb_spec x lo), (N.ltb_spec hi x); lia. Qed.

Lemma clamp_inside lo hi x : (lo <= x <= hi)%N -> clamp lo hi x = x.
Proof. unfold clamp. intros. destruct (N.ltb_spec x lo), (N.ltb_spec hi x); lia. Qed.

Lemma clamp_bounds_in_order l : (clamp 1 100 (search_results l) <= 2000)%N.
Proof. pose proof (clamp_between 1 100 (search_results l)). lia. Qed.

Lemma normalized_limits_ok l : limits_ok (normalized_limits l).
Proof.
  unfold limits_ok. simpl. pose proof (clamp_bounds_in_order l).
  repeat split; apply clamp_between; lia.
Qed.

Lemma limits_ok_normal l : limits_ok l -> normalized_limits l = l.
Proof. intros (H1 & H2 & H3 & H4). unfold normalized_limits. destruct l; simpl in *. by rewrite !clamp_inside. Qed.

Lemma normalized_idem m : normalized (normalized m) = normalized m.
Proof. unfold normalized at 1. simpl. by rewrite limits_ok_normal by apply normalized_limits_ok. Qed.

(** C23: a policy in force is within bounds: whatever the environment, the column
    of the table and the policy it replaces, one to a hundred messages per read,
    at most two thousand scanned and never fewer than the results asked for; no
    bound of a clamp is ever out of order. *)
Theorem policies_within_bounds (policy_error : option value -> string) (env : Env) (platform : string)
    (base : MessageContextPolicyMatrix) (w : world SearchState) :
  limits_ok (limits (matrix_from_environment env)) /\
  (forall l, (clamp 1 100 (search_results l) <= 2000)%N) /\
  match effective policy_error platform base w with
  | (Ok m, w') => limits_ok (limits m) /\ normalized m = m /\ st w' = st w
  | (Err _, w') => st w' = st w
  end.
Proof.
  split; [apply normalized_limits_ok|]. split; [apply clamp_bounds_in_order|].
  unfold effective, get_override, bind, query, stmt, exec.
  destruct (faults w) as [|[msg|] fs]; simpl; [|done|];
    (destruct (snd <$> _) as [column|]; simpl; [destruct (column ≫= matrix_of_value); simpl|]); try done;
    (split; [apply normalized_limits_ok|]); split; try done; apply normalized_idem.
Qed.

Lemma limits_read_back l : limits_of_value (limits_value l) = Some l.
Proof. by destruct l. Qed.
Lemma matrix_read_back m : matrix_of_value (matrix_value m) = Some m.
Proof. destruct m as [? ? ? ? ? []]. done. Qed.

Lemma override_upserted p column t : head (select (on_platform p) (upsert_override p column t)) = Some (p, column).
Proof.
  unfold upsert_override, select. destruct (existsb (on_platform p) t) eqn:E.
  - unfold update_where. induction t as [|r t IH]; simpl in *; [done|].
    destruct (on_platform p r) eqn:Er; simpl; [|rewrite Er; by apply IH].
    unfold on_platform in *. simpl. rewrite Er. simpl. apply String.eqb_eq in Er. by rewrite Er.
  - rewrite List.filter_app, (existsb_false_filter _ _ E). simpl. unfold on_platform. simpl. by rewrite String.eqb_refl.
Qed.

Lemma override_other p q column t : p <> q ->
  select (on_platform q) (upsert_override p column t) = select (on_platform q) t.
Proof.
  intros Hpq. assert (forall x : option value, on_platform q (p, x) = false) as Hq by (intros x; by apply String.eqb_neq).
  unfold upsert_override, select. destruct (existsb _ t).
  - unfold update_where. induction t as [|r t IH]; simpl; [done|]. destruct (on_platform p r) eqn:Er; simpl.
    + unfold on_platform in Er. apply String.eqb_eq in Er. destruct r as [r c]. simpl in *. subst r. by rewrite !Hq.
    + destruct (on_platform q r); by rewrite IH.
  - rewrite List.filter_app. simpl. by rewrite Hq, app_nil_r.
Qed.

Definition override_of (policy_error : option value -> string) (q : string) (t : list (string * option value)) :
    result (option MessageContextPolicyMatrix) OmonError :=
  match snd <$> head (select (on_platform q) t) with
  | None => Ok None
  | Some column =>
      match column ≫= matrix_of_value with
      | Some m => Ok (Some (normalized m))
      | None => Err (Database ("invalid messenger policy JSON: " ++ policy_error column))
      end
  end.

Lemma override_read pe q s : run (get_override pe q) s = (override_of pe q (policy_overrides s), s).
Proof.
  unfold get_override, run, override_of, bind, query, stmt, exec. simpl. destruct (snd <$> _) as [c|]; [|done]. by destruct (c ≫= _).
Qed.

Lemma effective_read pe q base s :
  run (effective pe q base) s =
  (match override_of pe q (policy_overrides s) with Ok o => Ok (normalized (default base o)) | Err e => Err e end, s).
Proof.
  pose proof (override_read pe q s) as E. unfold run in *. unfold effective, bind at 1.
  destruct (get_override _ _ _) as [[o|e] w']; simpl in *; injection E as <- ->; done.
Qed.

(** An override is what was set: it is in force, normalized, for its platform
    until it is cleared, which gives the base back; no other platform notices
    either. *)
Theorem override_in_force_until_cleared (policy_error : option value -> string) (p : string)
    (policy base : MessageContextPolicyMatrix) (s : SearchState) :
  let '(r, s1) := run (set_override p policy) s in
  let '(c, s2) := run (clear_override p) s1 in
  r = Ok (normalized policy) /\ run (effective policy_error p base) s1 = (r, s1) /\ c = Ok true /\
  run (effective policy_error p base) s2 = (Ok (normalized base), s2) /\
  (forall q, p <> q -> run (get_override policy_error q) s1 = (fst (run (get_override policy_error q) s), s1) /\
                       run (get_override policy_error q) s2 = (fst (run (get_override policy_error q) s), s2)).
Proof.
  set (t := upsert_override p (Some (matrix_value (normalized policy))) (policy_overrides s)).
  assert (run (set_override p policy) s = (Ok (normalized policy), set_overrides (fun _ => t) s)) as -> by done.
  assert (run (clear_override p) (set_overrides (fun _ => t) s) =
    (Ok (0 <? count (on_platform p) t)%nat, set_overrides (fun _ => delete_where (on_platform p) t) s)) as -> by done.
  assert (override_of policy_error p t = Ok (Some (normalized policy))) as Hp.
  { unfold override_of, t. rewrite override_upserted.
    pose proof (matrix_read_back (normalized policy)) as E.
    change (matrix_of_value ?v) with (Some v ≫= matrix_of_value) in E.
    change (snd <$> Some (p, ?x)) with (Some x). cbv beta iota. rewrite E. by rewrite normalized_idem. }
  split; [done|]. rewrite !effective_read. simpl. rewrite Hp. simpl. rewrite normalized_idem. split; [done|].
  split.
  { assert (count (on_platform p) t <> 0)%nat as Hc.
    { unfold count, t. pose proof (override_upserted p (Some (matrix_value (normalized policy))) (policy_overrides s)). by destruct (select _ _). }
    destruct (Nat.ltb_spec 0 (count (on_platform p) t)); [done|lia]. }
  split.
  { unfold override_of. by assert (select (on_platform p) (delete_where (on_platform p) t) = []) as -> by
      (apply select_nil; by intros r [_ Hr]%in_delete_where). }
  intros q Hq. rewrite !override_read. unfold override_of. simpl. rewrite select_delete.
  - unfold t. by rewrite override_other.
  - intros r _ Hr. unfold on_platform in *. apply String.eqb_eq in Hr. apply String.eqb_neq. congruence.
Qed.

(** ** The index *)

Definition distinct_documents (s : SearchState) : Prop := NoDup (map row_key (search_documents s)).

Lemma upsert_keys d t : NoDup (map row_key t) -> NoDup (map row_key (upsert_document d t)).
Proof.
  intros Hn. unfold upsert_document. destruct (existsb _ t) eqn:E.
  - assert (map row_key (update_where (has_doc_key (doc_key d)) (fun _ => mkSearchRow d true true) t) = map row_key t) as ->; [|done].
    unfold update_where. rewrite map_map. apply map_ext. intros r. unfold has_doc_key. by case_bool_decide.
  - rewrite map_app. apply NoDup_snoc; [done|]. intros (r & Er & Hr)%list_elem_of_fmap.
    rewrite existsb_false in E. specialize (E r Hr). unfold has_doc_key in E. by apply bool_decide_eq_false in E.
Qed.

Lemma index_keeps_keys d : preserves distinct_documents (upsert d).
Proof. apply preserves_stmt. intros s Hs. by apply upsert_keys. Qed.

Section IndexTheorems.
Context `{Fts}.

(** What a search returns of the table. *)
Definition found (fts_query platform channel : string) (before : option string) (t : list MessageSearchRow)
    (d : MessageSearchDocument) : Prop :=
  exists r, r ∈ t /\ hit fts_query platform channel before r = true /\ d = into_document r.

Lemma hit_scope q p c b r : hit q p c b r = true -> doc_platform (row_document r) = p /\ doc_channel_id (row_document r) = c.
Proof. unfold hit. rewrite !andb_true_iff, !String.eqb_eq. tauto. Qed.

Lemma into_scope r : doc_platform (into_document r) = doc_platform (row_document r) /\ doc_channel_id (into_document r) = doc_channel_id (row_document r).
Proof. done. Qed.

Lemma search_rows platform channel text before limit w docs w' :
  search_index platform channel text before limit w = (Ok docs, w') ->
  exists q, build_fts_query text = Ok q /\
    docs = map into_document (take limit (fts_ranked (search_documents (st w)) q
             (select (hit q platform channel before) (search_documents (st w))))) /\
    st w' = st w.
Proof.
  unfold search_index, bind, lift, query, stmt, exec. intros E. destruct (build_fts_query text) as [q|]; [|done].
  exists q. split; [done|]. destruct (faults w) as [|[msg|] fs]; simpl in E; [|done|];
    apply pair_equal_spec in E as [E <-]; by injection E as <-.
Qed.

(** A search stays in its channel: every document it returns is a row of the
    asked platform and channel that matches the query and is older than the
    cursor; at most the limit come back, and all of them unless the limit cuts. *)
Theorem search_stays_in_channel (platform channel text : string) (before : option string) (limit : nat)
    (w w' : world SearchState) (docs : list MessageSearchDocument) :
  search_index platform channel text before limit w = (Ok docs, w') ->
  st w' = st w /\ length docs <= limit /\
  exists q, build_fts_query text = Ok q /\
    Forall (fun d => doc_platform d = platform /\ doc_channel_id d = channel /\ found q platform channel before (search_documents (st w)) d) docs /\
    (length docs < limit -> forall d, found q platform channel before (search_documents (st w)) d -> d ∈ docs).
Proof.
  intros E. destruct (search_rows _ _ _ _ _ _ _ _ E) as (q & Hq & -> & Hst). split; [done|].
  rewrite length_map, length_take. split; [lia|]. exists q. split; [done|].
  set (t := search_documents (st w)). set (hits := select _ t). set (out := fts_ranked t q hits).
  assert (forall r, r ∈ out <-> r ∈ t /\ hit q platform channel before r = true) as Hin by
    (intros r; unfold out; rewrite fts_ranked_perm; apply in_select).
  split.
  - apply Forall_fmap, Forall_take, Forall_forall. intros r Hr. apply Hin in Hr as [Hr Hh].
    destruct (hit_scope _ _ _ _ _ Hh). simpl. split; [done|]. split; [done|]. by exists r.
  - intros Hl d (r & Hr & Hh & ->). rewrite take_ge by lia. apply list_elem_of_fmap. exists r. split; [done|]. by apply Hin.
Qed.
End IndexTheorems.

Lemma bare_term_free t : free_of DQ (bare_term t) = true.
Proof. induction t as [|c t IH]; simpl; [done|]. destruct (Ascii.eqb_spec c DQ) as [|Hc]; [done|]. cbn [free_of]. by rewrite (proj2 (Ascii.eqb_neq DQ c)) by congruence. Qed.

(** A search text cannot reach the operators of FTS5: the query is a
    conjunction of one or more quoted prefixes, none empty, none with a quote in
    it, whatever was asked for. *)
Theorem fts_query_quoted (text q : string) :
  build_fts_query text = Ok q ->
  exists terms, terms <> [] /\ q = join " AND " (map quoted_term terms) /\
    Forall (fun t => t <> "" /\ free_of DQ t = true) terms /\
    terms = List.filter (fun t => negb (is_empty t)) (map bare_term (split_whitespace text)).
Proof.
  unfold build_fts_query. set (terms := List.filter _ _). intros Hq. exists terms.
  assert (Forall (fun t => t <> "" /\ free_of DQ t = true) terms) as Ht.
  { apply Forall_forall. intros t [Hin Hne]%list_elem_of_In%filter_In. apply in_map_iff in Hin as (w & <- & _).
    split; [|apply bare_term_free]. by apply negb_true_iff, String.eqb_neq in Hne. }
  destruct terms as [|t ts]; [done|]. split; [done|]. split; [|by split].
  cbn [map] in Hq. by injection Hq as <-.
Qed.

(** The indexed row is what [get] reads back. *)
Lemma document_indexed `{Fts} d s :
  exists s', run (upsert d) s = (Ok tt, s') /\
    run (get_document (doc_platform d) (doc_channel_id d) (doc_message_id d)) s' = (Ok (Some d), s') /\
    (forall k, k <> doc_key d -> select (has_doc_key k) (search_documents s') = select (has_doc_key k) (search_documents s)).
Proof.
  eexists. split; [reflexivity|]. unfold get_document, run. rewrite query_clean. simpl.
  assert (head (select (has_doc_key (doc_key d)) (upsert_document d (search_documents s))) = Some (mkSearchRow d true true)) as Hh.
  { unfold upsert_document, select. destruct (existsb _ _) eqn:E.
    - unfold update_where. induction (search_documents s) as [|r t IH]; simpl in *; [done|].
      destruct (has_doc_key (doc_key d) r) eqn:Er; simpl; [|rewrite Er; by apply IH].
      unfold has_doc_key at 1. rewrite bool_decide_true by done. done.
    - rewrite List.filter_app, (existsb_false_filter _ _ E). simpl. unfold has_doc_key. by rewrite bool_decide_true. }
  split; [by change (doc_platform d, doc_channel_id d, doc_message_id d) with (doc_key d); rewrite Hh; destruct d|]. clear Hh. intros k Hk. unfold upsert_document, select.
  assert (has_doc_key k (mkSearchRow d true true) = false) as Hne by (apply bool_decide_eq_false; intros E; by apply Hk; rewrite <- E).
  destruct (existsb _ _).
  - unfold update_where. induction (search_documents s) as [|r t IH]; simpl; [done|].
    destruct (has_doc_key (doc_key d) r) eqn:Er; simpl.
    + rewrite Hne. unfold has_doc_key in Er. apply bool_decide_eq_true in Er.
      assert (has_doc_key k r = false) as -> by (apply bool_decide_eq_false; congruence). exact IH.
    + destruct (has_doc_key k r); by rewrite IH.
  - rewrite List.filter_app. simpl. by rewrite Hne, app_nil_r.
Qed.

(** ** Concrete values *)

#[local] Instance plain_fts : Fts := {|
  fts_matches := fun q r => contains (doc_content (row_document r)) q;
  fts_ranked := fun _ _ l => l;
  fts_ranked_perm := fun _ _ l => reflexivity l;
  cast_integer := fun t => Z.of_N (default 0%N (parse_u64 t))
|}.

Definition a_document (channel message content : string) : MessageSearchDocument :=
  mkDoc "discord" (Some "1") channel None message "5" "ann" content [] 0 (JObject []).
Definition two_documents : SearchState :=
  mkSearch [] [mkSearchRow (a_document "7" "100" "tea") true true; mkSearchRow (a_document "8" "101" "tea") true true].

Lemma search_stays_in_channel_witness :
  exists w', search_index "discord" "7" "tea" None 5 (mkWorld two_documents []) = (Ok [a_document "7" "100" "tea"], w') /\
    st w' = two_documents.
Proof.
  eexists. split; [vm_compute; reflexivity|].
  exact (proj1 (search_stays_in_channel "discord" "7" "tea" None 5 (mkWorld two_documents []) _ _ eq_refl)).
Defined.

Lemma fts_query_quoted_witness :
  exists q terms, build_fts_query (dq ++ "a OR" ++ dq ++ " b") = Ok q /\ terms <> [] /\ q = join " AND " (map quoted_term terms).
Proof.
  eexists. destruct (fts_query_quoted (dq ++ "a OR" ++ dq ++ " b") _ eq_refl) as (terms & Hn & Hq & _).
  exists terms. split; [reflexivity|]. split; [exact Hn|exact Hq].
Defined.
