(* ===== verification/Context.v ===== *)
(** * Message context (src/tools/message_context.rs)

    The tool by which an agent reads the messages around its session: recent
    history, one message, the replies to one, or a search.  What may be read is
    decided from the session, the policy in force ([Search]) and the lists of
    channels of the environment; what is read is indexed.  A call of Discord's
    REST interface is an entry of a log with its answer; answers are an argument
    that may depend on the calls before.  Serialization of a result is not
    modelled. *)
From stdpp Require Import base list strings gmap.
From Stdlib Require Import ZArith NArith Lia Ascii String.
From S2P Require Import Prelude RustStr Json Db Session Events Shell Detect Outgoing Search.
Open Scope string_scope.
Open Scope db_scope.
Local Notation length := Datatypes.length.
Local Notation trim := RustStr.trim.
Local Notation channel_id := Session.channel_id.

Definition DEFAULT_RESULT_LIMIT : N := 20.
Definition HARD_MAX_RESULT_LIMIT : N := 100.
Definition DEFAULT_SEARCH_SCAN_LIMIT : N := 200.
Definition HARD_MAX_SEARCH_SCAN_LIMIT : N := 2000.
Definition MAX_MESSAGE_CONTENT_CHARS : nat := 2000.
Definition MAX_AUTHOR_NAME_CHARS : nat := 128.
Definition MAX_ATTACHMENT_NAME_CHARS : nat := 256.
Definition MAX_SEARCH_QUERY_CHARS : nat := 256.
Definition DISCORD_PAGE_LIMIT : nat := 100.

(** ** Requests *)

Inductive MessageContextOperation : Type := Recent | SearchFor | GetMessage | Replies.

Definition as_str (o : MessageContextOperation) : string :=
  match o with Recent => "recent" | SearchFor => "search" | GetMessage => "get_message" | Replies => "replies" end.

Definition parse_operation (v : option string) : result MessageContextOperation OmonError :=
  let text := to_ascii_lowercase (trim (default "recent" v)) in
  if String.eqb text "recent" then Ok Recent
  else if String.eqb text "search" then Ok SearchFor
  else if String.eqb text "get_message" || String.eqb text "get" then Ok GetMessage
  else if String.eqb text "replies" || String.eqb text "thread_replies" then Ok Replies
  else Err (ToolExecution ("unsupported message_context operation '" ++ text ++
                           "'; expected recent, search, get_message, or replies")).

Record MessageContextRequest : Type := mkRequest {
  rq_operation : MessageContextOperation;
  rq_channel_id : option string;
  rq_message_id : option string;
  rq_query : option string;
  rq_limit : nat;
  rq_scan_limit : nat;
  rq_before : option string
}.

Definition optional_non_empty_string (args : value) (key : string) : result (option string) OmonError :=
  match Json.get key args with
  | None => Ok None
  | Some v =>
      match Json.as_str v with
      | None => Err (ToolExecution ("message_context '" ++ key ++ "' must be a string"))
      | Some raw => let trimmed := trim raw in Ok (if is_empty trimmed then None else Some trimmed)
      end
  end.

Definition number_arg (args : value) (key : string) (d lo hi : N) : N :=
  clamp lo hi (default d (Json.get key args ≫= as_u64)).

Local Open Scope omon_scope.
Definition from_args (args : value) : result MessageContextRequest OmonError :=
  operation <-? parse_operation (Json.get "operation" args ≫= Json.as_str) ;;
  channel <-? optional_non_empty_string args "channel_id" ;;
  message <-? optional_non_empty_string args "message_id" ;;
  before <-? optional_non_empty_string args "before_message_id" ;;
  let limit := number_arg args "limit" DEFAULT_RESULT_LIMIT 1 HARD_MAX_RESULT_LIMIT in
  let scan_limit := number_arg args "scan_limit" DEFAULT_SEARCH_SCAN_LIMIT limit HARD_MAX_SEARCH_SCAN_LIMIT in
  query <-? optional_non_empty_string args "query" ;;
  _ <-? match operation, query with
        | SearchFor, None => Err (ToolExecution "message_context operation 'search' requires a non-empty 'query'")
        | SearchFor, Some q =>
            if (MAX_SEARCH_QUERY_CHARS <? length (RustStr.chars q))%nat
            then Err (ToolExecution "message_context search query exceeds 256 characters") else Ok tt
        | _, _ => Ok tt
        end ;;
  _ <-? match operation, message with
        | (GetMessage | Replies), None =>
            Err (ToolExecution ("message_context operation '" ++ as_str operation ++ "' requires 'message_id'"))
        | _, _ => Ok tt
        end ;;
  Ok (mkRequest operation channel message query (N.to_nat limit) (N.to_nat scan_limit) before).
Local Close Scope omon_scope.

Definition apply_policy_limits (policy : MessageContextPolicyMatrix) (r : MessageContextRequest) : MessageContextRequest :=
  let l := limits policy in
  let with_limits limit scan := mkRequest (rq_operation r) (rq_channel_id r) (rq_message_id r) (rq_query r) limit scan (rq_before r) in
  let scanning results :=
    let limit := Nat.min (rq_limit r) (N.to_nat results) in
    with_limits limit (Nat.max (Nat.min (rq_scan_limit r) (N.to_nat (search_scan l))) limit) in
  match rq_operation r with
  | Recent => with_limits (Nat.min (rq_limit r) (N.to_nat (recent_limit l))) (rq_scan_limit r)
  | SearchFor => scanning (search_results l)
  | GetMessage => with_limits 1 (rq_scan_limit r)
  | Replies => scanning (replies_limit l)
  end.

(** ** Messages and conversations *)

Record MessageContextAttachment : Type := mkCtxAttachment {
  ca_id : string;
  ca_filename : string;
  ca_url : string;
  ca_content_type : option string;
  ca_size_bytes : N
}.

Record MessageContextMessage : Type := mkCtxMessage {
  m_id : string;
  m_channel_id : string;
  m_author_id : string;
  m_author_name : string;
  m_author_is_bot : bool;
  m_content : string;
  m_timestamp : string;
  m_attachments : list MessageContextAttachment;
  m_referenced : option string
}.

Record MessageContextConversationMetadata : Type := mkConversation {
  cv_channel_id : string;
  cv_channel_name : option string;
  cv_channel_kind : string;
  cv_guild_id : option string;
  cv_topic : option string;
  cv_parent_channel_id : option string;
  cv_parent_channel_name : option string;
  cv_parent_channel_kind : option string;
  cv_parent_topic : option string;
  cv_is_thread : bool;
  cv_is_forum_post : bool
}.

Record MessageContextResult : Type := mkResult {
  rs_operation : MessageContextOperation;
  rs_channel_id : string;
  rs_query : option string;
  rs_scanned : nat;
  rs_indexed : nat;
  rs_truncated : bool;
  rs_next_before : option string;
  rs_search_source : option string;
  rs_conversation : option MessageContextConversationMetadata;
  rs_messages : list MessageContextMessage
}.

(** *** What Discord's REST interface returns *)

(** [ChannelType], the kinds the source does not name with their [Debug] text. *)
Inductive ChannelType : Type := NewsThread | PublicThread | PrivateThread | Forum | OtherType (debug : string).

Definition debug_kind (k : ChannelType) : string :=
  match k with
  | NewsThread => "NewsThread" | PublicThread => "PublicThread" | PrivateThread => "PrivateThread"
  | Forum => "Forum" | OtherType d => d
  end.

Definition is_thread_channel (k : ChannelType) : bool :=
  match k with NewsThread | PublicThread | PrivateThread => true | _ => false end.

Record GuildChannel : Type := mkGuildChannel {
  gc_id : N;
  gc_guild_id : N;
  gc_name : string;
  gc_kind : ChannelType;
  gc_topic : option string;
  gc_parent_id : option N
}.
Inductive Channel : Type := Guild (c : GuildChannel) | Private | OtherChannel.

Record RawMessage : Type := mkRaw {
  raw_id : N;
  raw_channel_id : N;
  raw_author_id : N;
  raw_author_name : string;
  raw_author_bot : bool;
  raw_content : string;
  raw_timestamp : string;
  raw_attachments : list (N * string * string * option string * N);
  raw_referenced : option N
}.

Inductive ApiEntry : Type :=
| EUser (token : string) (a : result N OmonError)
| EMessages (bot : string) (channel : N) (before : option N) (limit : nat) (a : result (list RawMessage) OmonError)
| EMessage (bot : string) (channel message : N) (a : result RawMessage OmonError)
| EChannel (bot : string) (channel : N) (a : result Channel OmonError).

(** Discord's answers, given the calls before. *)
Class Rest := {
  rest_user : list ApiEntry -> string -> result N OmonError;
  rest_messages : list ApiEntry -> string -> N -> option N -> nat -> result (list RawMessage) OmonError;
  rest_message : list ApiEntry -> string -> N -> N -> result RawMessage OmonError;
  rest_channel : list ApiEntry -> string -> N -> result Channel OmonError
}.

(** chrono's RFC 3339. *)
Class Rfc3339 := { parse_from_rfc3339 : string -> option Z; to_rfc3339 : Z -> string }.

(** ** Authorization *)

Record MessageContextPolicy : Type := mkPolicy {
  allowed_cross_channels : gset string;
  ignored_channels : gset string;
  base_matrix : MessageContextPolicyMatrix
}.

Definition policy_with_matrix (allowed ignored : list string) (base : MessageContextPolicyMatrix) : MessageContextPolicy :=
  mkPolicy (list_to_set allowed) (list_to_set ignored) (normalized base).

Definition validate_discord_id (v fld : string) : result N OmonError :=
  match parse_u64 v with
  | None => Err (ToolExecution ("message_context '" ++ fld ++ "' must be a numeric Discord snowflake"))
  | Some n =>
      if (n =? 0)%N then Err (ToolExecution ("message_context '" ++ fld ++ "' must be greater than zero")) else Ok n
  end.
Definition parse_channel_id (v : string) : result N OmonError := validate_discord_id v "channel_id".
Definition parse_message_id (v : string) : result N OmonError := validate_discord_id v "message_id".

Definition discord_channel_set_from_environment (env : Env) (name : string) : list string :=
  match env name with
  | None => []
  | Some raw => omap (fun v => match validate_discord_id (trim v) name with Ok id => Some (show_N id) | Err _ => None end)
                     (split_char "," raw)
  end.

Definition policy_from_environment (env : Env) : MessageContextPolicy :=
  policy_with_matrix (discord_channel_set_from_environment env "DISCORD_ALLOWED_CHANNELS")
    (discord_channel_set_from_environment env "DISCORD_IGNORED_CHANNELS") (matrix_from_environment env).

(** [str::trim_matches] for an ASCII character. *)
Definition trim_matches (c : ascii) (s : string) : string := trim_end_matches c (trim_start_matches c s).

Definition add_token (tokens : list string) (token : string) : list string :=
  let trimmed := trim_matches SQ (trim_matches DQ (trim token)) in
  if is_empty trimmed || existsb (String.eqb trimmed) tokens then tokens else (tokens ++ [trimmed])%list.

Definition discord_tokens_from_environment (env : Env) : list string :=
  fold_left (fun tokens name => match env name with
                                | Some raw => fold_left add_token (split_char "," raw) tokens
                                | None => tokens
                                end) ["DISCORD_BOT_TOKEN"; "DISCORD_BOT_TOKENS"] [].

Definition denied (why : string) : OmonError := ToolExecution ("message_context access denied: " ++ why).

Definition authorize_target (p : MessageContextPolicy) (session : SessionKey) (requested : option string)
    (matrix : MessageContextPolicyMatrix) : result string OmonError :=
  if negb (inherit_session_authorization matrix) then Err (denied "policy disables inherited session authorization")
  else
    let target := trim (default (channel_id session) requested) in
    match validate_discord_id target "channel_id" with
    | Err e => Err e
    | Ok _ =>
        if bool_decide (target ∈ ignored_channels p) then Err (denied ("channel " ++ target ++ " is ignored by policy"))
        else if String.eqb target (channel_id session) then
          if negb (allow_current_conversation_reads matrix) then Err (denied "current-conversation reads are disabled")
          else if bool_decide (guild_id session = None) && negb (allow_dm_reads matrix)
          then Err (denied "direct-message reads are disabled")
          else Ok target
        else if bool_decide (guild_id session = None)
        then Err (denied "cross-channel reads are not allowed from direct-message sessions")
        else if negb (allow_cross_channel_reads matrix) then Err (denied "cross-channel reads are disabled by policy")
        else if negb (bool_decide (target ∈ allowed_cross_channels p))
        then Err (denied ("cross-channel target " ++ target ++ " is not explicitly listed in DISCORD_ALLOWED_CHANNELS"))
        else Ok target
    end.

(** ** Reading from Discord ([SerenityDiscordMessageContextApi]) *)

Record ClientSet : Type := mkClients { default_bot : string; by_bot_id : list string }.

Record ContextState : Type := mkContext {
  index : SearchState;
  (** The [OnceCell] of clients. *)
  known_clients : option ClientSet;
  calls : list ApiEntry
}.
Definition set_index i (s : ContextState) := mkContext i (known_clients s) (calls s).
Definition set_clients c (s : ContextState) := mkContext (index s) c (calls s).
Definition set_calls f (s : ContextState) := mkContext (index s) (known_clients s) (f (calls s)).

Record Provider : Type := mkProvider { tokens : list string; policy : MessageContextPolicy }.

Section Context_.
Context `{Regex} `{Fts} `{Rest} `{Rfc3339}.
Context (policy_error : option value -> string).
Context (provider : Provider).
Notation Ctx := (M ContextState).

Definition on_index {A} (m : M SearchState A) : Ctx A := zoom index set_index m.

(** A call: its answer, recorded. *)
Definition call {A} (f : list ApiEntry -> result A OmonError) (entry : result A OmonError -> ApiEntry) : Ctx A :=
  r <- mem (fun s => let a := f (calls s) in (a, set_calls (fun l => l ++ [entry a])%list s)) ;;
  lift r.

Fixpoint connect (todo : list string) (first : option string) (known : list string) : Ctx ClientSet :=
  match todo with
  | [] =>
      match first with
      | Some d => ret (mkClients d known)
      | None => fail (Config "no Discord bot identity available for message_context")
      end
  | token :: rest =>
      id <- call (fun log => rest_user log token) (EUser token) ;;
      let bot_id := show_N id in
      if existsb (String.eqb bot_id) known
      then fail (Config ("multiple Discord tokens resolve to the same bot identity " ++ bot_id))
      else connect rest (Some (default bot_id first)) (known ++ [bot_id])%list
  end.

(** [OnceCell::get_or_try_init]. *)
Definition clients : Ctx ClientSet :=
  c <- mem (fun s => (known_clients s, s)) ;;
  match c with
  | Some c => ret c
  | None =>
      c <- connect (tokens provider) None [] ;;
      mem (fun s => (c, set_clients (Some c) s))
  end.

Definition http_for_session (session : SessionKey) : Ctx string :=
  clients <- clients ;;
  let bot_id := default (default_bot clients) (bot_id session) in
  if existsb (String.eqb bot_id) (by_bot_id clients) then ret bot_id
  else fail (ToolExecution ("message_context has no Discord HTTP client for session bot identity " ++ bot_id)).

Definition normalize_discord_message (m : RawMessage) : MessageContextMessage :=
  mkCtxMessage (show_N (raw_id m)) (show_N (raw_channel_id m)) (show_N (raw_author_id m))
    (neutralize_untrusted_inline_text (raw_author_name m) MAX_AUTHOR_NAME_CHARS) (raw_author_bot m)
    (neutralize_untrusted_inline_text (raw_content m) MAX_MESSAGE_CONTENT_CHARS) (raw_timestamp m)
    (map (fun a => let '(id, filename, url, content_type, size) := a in
                   mkCtxAttachment (show_N id) (neutralize_untrusted_inline_text filename MAX_ATTACHMENT_NAME_CHARS)
                     url content_type size) (raw_attachments m))
    (show_N <$> raw_referenced m).

Definition recent_messages (session : SessionKey) (channel : string) (before : option string) (limit : nat) :
    Ctx (list MessageContextMessage) :=
  bot <- http_for_session session ;;
  channel <- lift (parse_channel_id channel) ;;
  before <- match before with None => ret None | Some b => (n <- lift (parse_message_id b) ;; ret (Some n)) end ;;
  let limit := Nat.min limit DISCORD_PAGE_LIMIT in
  messages <- call (fun log => rest_messages log bot channel before limit) (EMessages bot channel before limit) ;;
  ret (map normalize_discord_message messages).

Definition get_message (session : SessionKey) (channel message : string) : Ctx MessageContextMessage :=
  bot <- http_for_session session ;;
  channel <- lift (parse_channel_id channel) ;;
  message <- lift (parse_message_id message) ;;
  m <- call (fun log => rest_message log bot channel message) (EMessage bot channel message) ;;
  ret (normalize_discord_message m).

Definition to_channel (bot : string) (channel : N) : Ctx Channel :=
  call (fun log => rest_channel log bot channel) (EChannel bot channel).

Definition inline_name (s : string) : string := neutralize_untrusted_inline_text s MAX_AUTHOR_NAME_CHARS.
Definition inline_text (s : string) : string := neutralize_untrusted_inline_text s MAX_MESSAGE_CONTENT_CHARS.

Definition guild_metadata (c : GuildChannel) (parent : option GuildChannel) : MessageContextConversationMetadata :=
  let is_thread := is_thread_channel (gc_kind c) in
  mkConversation (show_N (gc_id c)) (Some (inline_name (gc_name c))) (debug_kind (gc_kind c))
    (Some (show_N (gc_guild_id c))) (inline_text <$> gc_topic c) (show_N <$> gc_parent_id c)
    ((fun p => inline_name (gc_name p)) <$> parent) ((fun p => debug_kind (gc_kind p)) <$> parent)
    (parent ≫= fun p => inline_text <$> gc_topic p) is_thread
    (is_thread && match parent with Some p => match gc_kind p with Forum => true | _ => false end | None => false end).

Definition private_metadata (channel : N) : MessageContextConversationMetadata :=
  mkConversation (show_N channel) None "Private" None None None None None None false false.

Definition conversation_metadata (session : SessionKey) (channel : string) :
    Ctx (option MessageContextConversationMetadata) :=
  bot <- http_for_session session ;;
  channel_id <- lift (parse_channel_id channel) ;;
  answer <- attempt (to_channel bot channel_id) ;;
  match answer with
  | Err _ => ret None
  | Ok (Guild c) =>
      parent <- match gc_parent_id c with
                | None => ret None
                | Some p =>
                    a <- attempt (to_channel bot p) ;;
                    ret (match a with Ok (Guild parent) => Some parent | _ => None end)
                end ;;
      ret (Some (guild_metadata c parent))
  | Ok Private => ret (Some (private_metadata channel_id))
  | Ok OtherChannel => ret None
  end.

(** ** Documents *)

Definition opt_json (o : option string) : value := match o with Some s => JString s | None => JNull end.

Definition attachment_value (a : MessageContextAttachment) : value :=
  JObject [("content_type", opt_json (ca_content_type a)); ("filename", JString (ca_filename a));
           ("id", JString (ca_id a)); ("size_bytes", JPos (ca_size_bytes a)); ("url", JString (ca_url a))].

Definition conversation_value (c : option MessageContextConversationMetadata) : value :=
  match c with
  | None => JNull
  | Some c =>
      JObject [("channel_id", JString (cv_channel_id c)); ("channel_kind", JString (cv_channel_kind c));
               ("channel_name", opt_json (cv_channel_name c)); ("guild_id", opt_json (cv_guild_id c));
               ("is_forum_post", JBool (cv_is_forum_post c)); ("is_thread", JBool (cv_is_thread c));
               ("parent_channel_id", opt_json (cv_parent_channel_id c));
               ("parent_channel_kind", opt_json (cv_parent_channel_kind c));
               ("parent_channel_name", opt_json (cv_parent_channel_name c));
               ("parent_topic", opt_json (cv_parent_topic c)); ("topic", opt_json (cv_topic c))]
  end.

Definition search_document_from_message (session : SessionKey) (now : Z) (conversation : option MessageContextConversationMetadata)
    (m : MessageContextMessage) : MessageSearchDocument :=
  mkDoc "discord"
    (match conversation ≫= cv_guild_id with Some g => Some g | None => guild_id session end)
    (m_channel_id m)
    (conversation ≫= fun c => if cv_is_thread c then Some (cv_channel_id c) else None)
    (m_id m) (m_author_id m) (m_author_name m) (m_content m) (map ca_filename (m_attachments m))
    (default now (parse_from_rfc3339 (m_timestamp m)))
    (JObject [("attachments", JArray (map attachment_value (m_attachments m)));
              ("author_is_bot", JBool (m_author_is_bot m));
              ("conversation", conversation_value conversation);
              ("referenced_message_id", opt_json (m_referenced m));
              ("source", JString "discord_rest")]).

(** [derive(Deserialize)] of an attachment: members by name or by position. *)
Definition member {A} (read : value -> option A) (i : nat) (key : string) (v : value) : option A :=
  match v with JObject m => assoc_get key m ≫= read | JArray l => nth_error l i ≫= read | _ => None end.
Definition read_opt (v : value) : option (option string) :=
  match v with JNull => Some None | JString s => Some (Some s) | _ => None end.

Definition attachment_of_value (v : value) : option MessageContextAttachment :=
  id ← member Json.as_str 0 "id" v;
  filename ← member Json.as_str 1 "filename" v;
  url ← member Json.as_str 2 "url" v;
  content_type ← match v with
                 | JObject m => match assoc_get "content_type" m with Some x => read_opt x | None => Some None end
                 | _ => member read_opt 3 "content_type" v
                 end;
  size ← member as_u64 4 "size_bytes" v;
  _ ← short_enough 5 v;
  Some (mkCtxAttachment id filename url content_type size).

Definition indexed_attachment (i : nat) (filename : string) : MessageContextAttachment :=
  mkCtxAttachment ("indexed-" ++ show_N (N.of_nat i)) filename "" None 0.

Definition message_from_search_document (d : MessageSearchDocument) : MessageContextMessage :=
  let attachments := default (imap indexed_attachment (doc_attachment_names d))
    ((Json.get "attachments" (doc_metadata d) ≫= as_array) ≫= mapM attachment_of_value) in
  mkCtxMessage (doc_message_id d) (doc_channel_id d) (doc_author_id d) (doc_author_name d)
    (default false (Json.get "author_is_bot" (doc_metadata d) ≫= as_bool)) (doc_content d)
    (to_rfc3339 (doc_timestamp d)) attachments (Json.get "referenced_message_id" (doc_metadata d) ≫= Json.as_str).

Definition index_messages (session : SessionKey) (now : Z) (messages : list MessageContextMessage)
    (conversation : option MessageContextConversationMetadata) : Ctx nat :=
  on_index (upsert_many (map (search_document_from_message session now conversation) messages)).

(** ** The provider *)

Definition effective_policy : Ctx MessageContextPolicyMatrix :=
  on_index (effective policy_error "discord" (base_matrix (policy provider))).

Definition authorize_and_metadata (session : SessionKey) (requested : option string) (matrix : MessageContextPolicyMatrix) :
    Ctx (string * option MessageContextConversationMetadata) :=
  target <- lift (authorize_target (policy provider) session requested matrix) ;;
  metadata <- conversation_metadata session target ;;
  if negb (String.eqb target (channel_id session)) && same_workspace_only matrix then
    match guild_id session with
    | None => fail (denied "cross-channel direct-message read")
    | Some expected =>
        if bool_decide (metadata ≫= cv_guild_id = Some expected) then ret (target, metadata)
        else fail (denied ("target channel " ++ target ++ " is not in the current workspace/guild"))
    end
  else ret (target, metadata).

Definition last_id (l : list MessageContextMessage) : option string := m_id <$> last l.

Definition recent (session : SessionKey) (now : Z) (target : string) (conversation : option MessageContextConversationMetadata)
    (request : MessageContextRequest) : Ctx MessageContextResult :=
  messages <- recent_messages session target (rq_before request) (rq_limit request) ;;
  indexed <- index_messages session now messages conversation ;;
  ret (mkResult (rq_operation request) target None (length messages) indexed
         (length messages =? rq_limit request)%nat (last_id messages) None conversation messages).

Definition needs (what : string) (o : option string) : Ctx string :=
  match o with Some v => ret v | None => fail (ToolExecution ("message_context " ++ what)) end.

Definition get_message_result (session : SessionKey) (now : Z) (target : string)
    (conversation : option MessageContextConversationMetadata) (request : MessageContextRequest) : Ctx MessageContextResult :=
  message_id <- needs "get_message requires message_id" (rq_message_id request) ;;
  message <- get_message session target message_id ;;
  indexed <- index_messages session now [message] conversation ;;
  ret (mkResult (rq_operation request) target None 1 indexed false None None conversation [message]).

(** One page after the other, [keep] of each, until enough is scanned or kept;
    [None] when the fuel runs out. *)
Record Scan : Type := mkScan {
  sc_before : option string;
  sc_scanned : nat;
  sc_indexed : nat;
  sc_kept : list MessageContextMessage;
  sc_exhausted : bool
}.

Fixpoint scan_pages (fuel : nat) (session : SessionKey) (now : Z) (target : string)
    (conversation : option MessageContextConversationMetadata) (request : MessageContextRequest)
    (full : list MessageContextMessage -> bool) (keep : MessageContextMessage -> bool) (s : Scan) : Ctx (option Scan) :=
  if (sc_scanned s <? rq_scan_limit request)%nat && negb (full (sc_kept s)) then
    match fuel with
    | O => ret None
    | S fuel =>
        let page_limit := Nat.min (rq_scan_limit request - sc_scanned s) DISCORD_PAGE_LIMIT in
        page <- recent_messages session target (sc_before s) page_limit ;;
        match page with
        | [] => ret (Some (mkScan (sc_before s) (sc_scanned s) (sc_indexed s) (sc_kept s) true))
        | _ =>
            indexed <- index_messages session now page conversation ;;
            let s := mkScan (last_id page) (sc_scanned s + length page) (sc_indexed s + indexed)
                       (take (rq_limit request) (sc_kept s ++ List.filter keep page))
                       (length page <? page_limit)%nat in
            if sc_exhausted s then ret (Some s)
            else scan_pages fuel session now target conversation request full keep s
        end
    end
  else ret (Some s).

(** A page that does not end the scan is full, so [1 + scan_limit / 100] pages
    are enough. *)
Definition scan (session : SessionKey) (now : Z) (target : string) (conversation : option MessageContextConversationMetadata)
    (request : MessageContextRequest) (full : list MessageContextMessage -> bool) (keep : MessageContextMessage -> bool) : Ctx Scan :=
  s <- scan_pages (S (rq_scan_limit request / DISCORD_PAGE_LIMIT)) session now target conversation request full keep
         (mkScan (rq_before request) 0 0 [] false) ;;
  match s with Some s => ret s | None => fail (Panicked "out of fuel") end.

Definition replies_to (message_id : string) (m : MessageContextMessage) : bool :=
  bool_decide (m_referenced m = Some message_id).

Definition thread_replies (session : SessionKey) (now : Z) (message_id target : string)
    (thread : MessageContextConversationMetadata) (request : MessageContextRequest) : Ctx MessageContextResult :=
  let ignored := ignored_channels (policy provider) in
  if bool_decide (message_id ∈ ignored) then fail (denied ("thread " ++ message_id ++ " is ignored by policy"))
  else if bool_decide (target ∈ ignored) then fail (denied ("channel " ++ target ++ " is ignored by policy"))
  else
    all <- recent_messages session message_id (rq_before request) (Nat.min (S (rq_limit request)) DISCORD_PAGE_LIMIT) ;;
    let messages := take (rq_limit request) (List.filter (fun m => negb (String.eqb (m_id m) message_id)) all) in
    indexed <- index_messages session now messages (Some thread) ;;
    ret (mkResult (rq_operation request) message_id None (length messages) indexed
           (length messages =? rq_limit request)%nat (last_id messages) None (Some thread) messages).

Definition channel_replies (session : SessionKey) (now : Z) (message_id target : string)
    (conversation : option MessageContextConversationMetadata) (request : MessageContextRequest) : Ctx MessageContextResult :=
  s <- scan session now target conversation request (fun kept => (rq_limit request <=? length kept)%nat) (replies_to message_id) ;;
  ret (mkResult (rq_operation request) target None (sc_scanned s) (sc_indexed s)
         (negb (sc_exhausted s) && ((rq_scan_limit request <=? sc_scanned s)%nat || (rq_limit request <=? length (sc_kept s))%nat))
         (sc_before s) None conversation (sc_kept s)).

Definition replies (session : SessionKey) (now : Z) (target : string) (conversation : option MessageContextConversationMetadata)
    (request : MessageContextRequest) : Ctx MessageContextResult :=
  message_id <- needs "replies requires message_id" (rq_message_id request) ;;
  get_message session target message_id ;;;
  metadata <- conversation_metadata session message_id ;;
  match metadata with
  | Some thread =>
      if cv_is_thread thread && bool_decide (cv_parent_channel_id thread = Some target)
      then thread_replies session now message_id target thread request
      else channel_replies session now message_id target conversation request
  | None => channel_replies session now message_id target conversation request
  end.

Definition search (session : SessionKey) (now : Z) (target : string) (conversation : option MessageContextConversationMetadata)
    (request : MessageContextRequest) : Ctx MessageContextResult :=
  q <- needs "search requires a query" (rq_query request) ;;
  let lookup := on_index (search_index "discord" target q (rq_before request) (rq_limit request)) in
  lookup ;;;
  s <- scan session now target conversation request (fun _ => false) (fun _ => false) ;;
  hits <- lookup ;;
  ret (mkResult (rq_operation request) target (Some q) (sc_scanned s) (sc_indexed s)
         (negb (sc_exhausted s) && (rq_scan_limit request <=? sc_scanned s)%nat) (sc_before s)
         (Some "sqlite_fts5+discord_rest_backfill") conversation (map message_from_search_document hits)).

Definition query_provider (session : SessionKey) (request : MessageContextRequest) (now : Z) : Ctx MessageContextResult :=
  if negb (String.eqb (to_ascii_lowercase (platform session)) "discord")
  then fail (ToolExecution ("Discord message context provider cannot serve platform '" ++ platform session ++ "'"))
  else
    matrix <- effective_policy ;;
    let request := apply_policy_limits matrix request in
    at_ <- authorize_and_metadata session (rq_channel_id request) matrix ;;
    let '(target, conversation) := at_ in
    match rq_operation request with
    | Recent => recent session now target conversation request
    | SearchFor => search session now target conversation request
    | GetMessage => get_message_result session now target conversation request
    | Replies => replies session now target conversation request
    end.

(** The tool; its one provider is there when a token is configured. *)
Definition execute_with_context (args : value) (session : option SessionKey) (now : Z) : Ctx MessageContextResult :=
  match session with
  | None => fail (ToolExecution "message_context requires an active messenger session")
  | Some session =>
      request <- lift (from_args args) ;;
      if String.eqb (to_ascii_lowercase (platform session)) "discord" && negb (bool_decide (tokens provider = []))
      then query_provider session request now
      else fail (ToolExecution ("message_context has no provider for platform '" ++ platform session ++ "'"))
  end.
End Context_.

(** ** What is read was allowed *)

Section Reading.
Context `{Regex} `{Fts} `{Rest} `{Rfc3339}.
Context (policy_error : option value -> string) (provider : Provider).
Context (session : SessionKey).
Implicit Types (matrix : MessageContextPolicyMatrix) (log : list ApiEntry).

Local Notation rules := (policy provider).

(** A channel the session may read, by the text that names it: its own, or one
    of the allowed channels of a guild; never an ignored one. *)
Definition readable matrix log (target : string) : Prop :=
  inherit_session_authorization matrix = true /\ target ∉ ignored_channels rules /\
  ((target = channel_id session /\ allow_current_conversation_reads matrix = true /\
    (guild_id session = None -> allow_dm_reads matrix = true)) \/
   (exists g, guild_id session = Some g /\ allow_cross_channel_reads matrix = true /\
      target ∈ allowed_cross_channels rules /\
      (same_workspace_only matrix = true ->
       exists bot c ch, EChannel bot c (Ok (Guild ch)) ∈ log /\ parse_u64 target = Some c /\ show_N (gc_guild_id ch) = g))).

(** A thread of such a channel, by Discord's word, not ignored under this text. *)
Definition readable_thread matrix log (text : string) : Prop :=
  text ∉ ignored_channels rules /\
  exists bot c ch p, EChannel bot c (Ok (Guild ch)) ∈ log /\ parse_u64 text = Some c /\
    is_thread_channel (gc_kind ch) = true /\ gc_parent_id ch = Some p /\ readable matrix log (show_N p).

Definition may_read matrix log (e : ApiEntry) : Prop :=
  match e with
  | EUser _ _ | EChannel _ _ _ => True
  | EMessages bot c _ _ _ | EMessage bot c _ _ =>
      (forall b, bot_id session = Some b -> bot = b) /\
      exists text, parse_u64 text = Some c /\ (readable matrix log text \/ readable_thread matrix log text)
  end.

Lemma readable_app matrix log more t : readable matrix log t -> readable matrix (log ++ more) t.
Proof.
  intros (Hi & Hn & Hr). split; [done|]. split; [done|]. destruct Hr as [Hr|(g & Hg & Hc & Ht & Hw)]; [by left|right].
  exists g. split; [done|]. split; [done|]. split; [done|]. intros Hs. destruct (Hw Hs) as (b & c & ch & He & Hrest).
  exists b, c, ch. split; [apply elem_of_app; by left|done].
Qed.

Lemma readable_thread_app matrix log more t : readable_thread matrix log t -> readable_thread matrix (log ++ more) t.
Proof.
  intros (Hn & b & c & ch & p & He & Hp & Ht & Hg & Hr). split; [done|]. exists b, c, ch, p.
  split; [apply elem_of_app; by left|]. do 3 (split; [done|]). by apply readable_app.
Qed.

Lemma may_read_app matrix log more e : may_read matrix log e -> may_read matrix (log ++ more) e.
Proof.
  destruct e; simpl; try done; intros (Hb & t & Hp & [Hr|Hr]); (split; [done|]); exists t; (split; [done|]);
    [left|right|left|right]; by apply readable_app || apply readable_thread_app.
Qed.

(** Facts about the log that stay true as it grows. *)
Definition lasting (A : list ApiEntry -> Prop) : Prop := forall log more, A log -> A (log ++ more)%list.

(** Since [base], only what may be read was, and [A] holds of the log. *)
Definition within matrix (base : list ApiEntry) (A : list ApiEntry -> Prop) (s : ContextState) : Prop :=
  A (calls s) /\ exists new, calls s = (base ++ new)%list /\ Forall (may_read matrix (calls s)) new.

Definition anything (_ : list ApiEntry) : Prop := True.
Lemma lasting_anything : lasting anything. Proof. done. Qed.
Lemma lasting_and A B : lasting A -> lasting B -> lasting (fun log => A log /\ B log).
Proof. intros HA HB log more [? ?]. split; auto. Qed.

Lemma on_index_calls {A} (I : ContextState -> Prop) (m : M SearchState A) :
  (forall s i, I s -> I (set_index i s)) -> preserves I (on_index m).
Proof. intros HI w Hw. unfold on_index, zoom. destruct (m _) as [r w']. simpl. by apply HI. Qed.

Lemma within_index matrix base A s i : within matrix base A s -> within matrix base A (set_index i s).
Proof. done. Qed.
Lemma within_clients matrix base A s c : within matrix base A s -> within matrix base A (set_clients c s).
Proof. done. Qed.

Lemma within_entry matrix base A s e :
  lasting A -> within matrix base A s -> may_read matrix (calls s) e -> within matrix base A (set_calls (fun l => l ++ [e])%list s).
Proof.
  intros HA (Ha & new & E & Hn) He. split; [by apply HA|]. exists (new ++ [e])%list. simpl. rewrite E, app_assoc. split; [done|].
  apply Forall_app. rewrite <- E. split; [eapply Forall_impl; [exact Hn|]; intros x; apply may_read_app|].
  apply Forall_singleton. by apply may_read_app.
Qed.

(** A call that may be made, with what its answer is known for afterwards. *)
Lemma within_call {T} matrix base A (f : list ApiEntry -> result T OmonError) (entry : result T OmonError -> ApiEntry) :
  lasting A -> (forall s a, within matrix base A s -> may_read matrix (calls s) (entry a)) ->
  triple (within matrix base A) (call f entry)
    (fun a => within matrix base (fun log => A log /\ entry (Ok a) ∈ log)) (within matrix base A).
Proof.
  intros HA He w Hw. unfold call, bind, mem, lift. simpl.
  pose proof (within_entry matrix base A _ (entry (f (calls (st w)))) HA Hw (He _ _ Hw)) as Hs.
  destruct (f (calls (st w))) as [a|e]; simpl; [|exact Hs].
  destruct Hs as [Ha Hs]. split; [|exact Hs]. split; [exact Ha|]. apply elem_of_app. right. by apply list_elem_of_singleton.
Qed.

Lemma within_call_keeps {T} matrix base A (f : list ApiEntry -> result T OmonError) entry :
  lasting A -> (forall s a, within matrix base A s -> may_read matrix (calls s) (entry a)) ->
  preserves (within matrix base A) (call f entry).
Proof.
  intros HA He. apply triple_preserves. eapply triple_weaken; [by apply within_call|done| |done].
  intros a s [[Ha _] Hs]. by split.
Qed.

Lemma within_connect matrix base A todo : lasting A -> forall first known, preserves (within matrix base A) (connect todo first known).
Proof.
  intros HA. induction todo as [|t todo IH]; intros first known; cbn [connect]; [destruct first; by intros w|].
  apply preserves_bind; [by apply within_call_keeps|]. intros id. cbv zeta. case_match; [by intros w|apply IH].
Qed.

Lemma within_http matrix base A : lasting A ->
  triple (within matrix base A) (http_for_session provider session)
    (fun bot s => within matrix base A s /\ forall b, bot_id session = Some b -> bot = b) (within matrix base A).
Proof.
  intros HA. unfold http_for_session. eapply triple_bind.
  - apply (triple_preserves (within matrix base A)). unfold clients. preserve_steps; try done. by apply within_connect.
  - intros c. destruct (existsb _ _); [|by apply triple_fail]. apply triple_ret. intros s Hs. split; [done|]. by intros b ->.
Qed.

Lemma validate_ok v f n : validate_discord_id v f = Ok n -> parse_u64 v = Some n.
Proof. unfold validate_discord_id. destruct (parse_u64 v) as [m|]; [|done]. by destruct (m =? 0)%N; [|intros [= ->]]. Qed.

(** Reading messages of a channel the log allows. *)
Definition allowed matrix (text : string) (log : list ApiEntry) : Prop := readable matrix log text \/ readable_thread matrix log text.

Lemma allowed_lasting matrix text : lasting (allowed matrix text).
Proof. intros log more [?|?]; [left; by apply readable_app|right; by apply readable_thread_app]. Qed.

Lemma within_recent matrix base A text before limit :
  lasting A -> (forall log, A log -> allowed matrix text log) ->
  preserves (within matrix base A) (recent_messages provider session text before limit).
Proof.
  intros HA Ht. apply triple_preserves. unfold recent_messages. eapply triple_bind; [by apply within_http|]. intros bot. simpl.
  apply triple_pure. intros Hbot. apply triple_preserves.
  apply preserves_bind_lift. intros c Hc%validate_ok.
  assert (forall before, preserves (within matrix base A)
    (bind (call (fun log => rest_messages log bot c before (Nat.min limit DISCORD_PAGE_LIMIT))
       (EMessages bot c before (Nat.min limit DISCORD_PAGE_LIMIT))) (fun messages => ret (map normalize_discord_message messages)))) as Hcall.
  { intros b. apply preserves_bind; [|intros ? ?; done]. apply within_call_keeps; [done|]. intros s a [Ha _]. simpl.
    split; [done|]. exists text. split; [done|]. by apply Ht. }
  apply preserves_bind; [|intros b; apply Hcall]. destruct before; by preserve_steps.
Qed.

Lemma within_get matrix base A text message :
  lasting A -> (forall log, A log -> allowed matrix text log) ->
  preserves (within matrix base A) (get_message provider session text message).
Proof.
  intros HA Ht. apply triple_preserves. unfold get_message. eapply triple_bind; [by apply within_http|]. intros bot. simpl.
  apply triple_pure. intros Hbot. apply triple_preserves.
  apply preserves_bind_lift. intros c Hc%validate_ok. apply preserves_bind_lift. intros m _.
  apply preserves_bind; [|intros ? ?; done]. apply within_call_keeps; [done|]. intros s a [Ha _]. simpl. split; [done|]. exists text. split; [done|]. by apply Ht.
Qed.

(** What a conversation's metadata rests on. *)
Definition described (text : string) (md : option MessageContextConversationMetadata) (log : list ApiEntry) : Prop :=
  match md with
  | None => True
  | Some m => exists c, parse_u64 text = Some c /\
      (m = private_metadata c \/ exists bot ch parent, EChannel bot c (Ok (Guild ch)) ∈ log /\ m = guild_metadata ch parent)
  end.

Lemma described_lasting text md : lasting (described text md).
Proof.
  intros log more. unfold described. destruct md; [|done]. intros (c & Hc & [Hm|(b & ch & p & He & Hm)]); exists c; (split; [done|]).
  - by left.
  - right. exists b, ch, p. split; [apply elem_of_app; by left|done].
Qed.

Lemma within_metadata matrix base A text : lasting A ->
  triple (within matrix base A) (conversation_metadata provider session text)
    (fun md => within matrix base (fun log => A log /\ described text md log)) (within matrix base A).
Proof.
  intros HA. unfold conversation_metadata. eapply triple_bind; [by apply within_http|]. intros bot. simpl. apply triple_pure. intros _.
  apply triple_bind_lift; [done|]. intros c Hc%validate_ok. eapply triple_bind.
  - eapply (triple_attempt _ _ _ _ (within matrix base A)). apply within_call; done.
  - intros [[ch| |]|e]; simpl; try (apply triple_ret; intros s [[Ha He] Hs]; split; [split; [exact Ha|]|exact Hs]; done || (exists c; split; [done|by left])).
    + eapply (triple_bind _ _ _ (fun _ => within matrix base (fun log => A log /\ EChannel bot c (Ok (Guild ch)) ∈ log))).
      * assert (preserves (within matrix base (fun log => A log /\ EChannel bot c (Ok (Guild ch)) ∈ log))
          match gc_parent_id ch with
          | None => ret None
          | Some p => a <- attempt (to_channel bot p) ;; ret (match a with Ok (Guild parent) => Some parent | _ => None end)
          end) as Hp.
        { preserve_steps; try by intros ?. apply within_call_keeps; [|done]. apply lasting_and; [done|].
          intros log more ?. apply elem_of_app. by left. }
        eapply triple_weaken; [exact (proj2 (triple_preserves _ _) Hp)|done|done|]. intros s [[Ha _] Hs]. by split.
      * intros parent. apply triple_ret. intros s [[Ha He] Hs]. split; [|exact Hs]. split; [exact Ha|]. exists c. split; [done|].
        right. by exists bot, ch, parent.
    + apply triple_ret. intros s Hs. destruct Hs as [Ha Hs]. by split.
Qed.

Lemma authorize_ok matrix requested target :
  authorize_target rules session requested matrix = Ok target ->
  inherit_session_authorization matrix = true /\ target ∉ ignored_channels rules /\
  ((target = channel_id session /\ allow_current_conversation_reads matrix = true /\
    (guild_id session = None -> allow_dm_reads matrix = true)) \/
   (target <> channel_id session /\ guild_id session <> None /\ allow_cross_channel_reads matrix = true /\
    target ∈ allowed_cross_channels rules)).
Proof.
  unfold authorize_target. destruct (inherit_session_authorization matrix); [|done]. simpl.
  set (t := trim _). destruct (validate_discord_id t _); [|done]. destruct (decide (t ∈ ignored_channels rules)) as [Hi|Hi];
    [by rewrite bool_decide_true|rewrite (bool_decide_false _ Hi)].
  destruct (String.eqb_spec t (channel_id session)) as [E|E].
  - destruct (allow_current_conversation_reads matrix); [|done]. simpl. case_bool_decide as Hg; simpl.
    + destruct (allow_dm_reads matrix); [|done]. intros [= <-]. split; [done|]. split; [done|]. by left.
    + intros [= <-]. split; [done|]. split; [done|]. by left.
  - case_bool_decide as Hg; [done|]. destruct (allow_cross_channel_reads matrix); [|done]. simpl. case_bool_decide as Ha; [|done].
    simpl. intros [= <-]. split; [done|]. split; [done|]. by right.
Qed.

Lemma within_authorize matrix base requested :
  triple (within matrix base anything) (authorize_and_metadata provider session requested matrix)
    (fun r => within matrix base (fun log => readable matrix log r.1)) (within matrix base anything).
Proof.
  unfold authorize_and_metadata. apply triple_bind_lift; [done|]. intros target Ht. apply authorize_ok in Ht as (Hi & Hn & Hr).
  eapply triple_bind.
  { eapply triple_weaken; [apply (within_metadata matrix base anything target lasting_anything)|done|intros ? ? Hs; exact Hs|done]. }
  intros md. simpl.
  assert (forall s, within matrix base (fun log => anything log /\ described target md log) s -> within matrix base anything s) as Hw
    by (intros s [_ Hs]; by split).
  assert (forall s, within matrix base (fun log => anything log /\ described target md log) s -> readable matrix (calls s) target ->
    within matrix base (fun log => readable matrix log target) s) as Hok by (intros s [_ Hs] ?; by split).
  destruct Hr as [Hr|(Hne & Hg & Hc & Ha)].
  { rewrite (proj2 (String.eqb_eq _ _) (proj1 Hr)). simpl. apply triple_ret. intros s Hs. apply (Hok s Hs).
    split; [done|]. split; [done|]. by left. }
  rewrite (proj2 (String.eqb_neq _ _) Hne). simpl.
  destruct (guild_id session) as [g|] eqn:Eg; [|done].
  assert (forall log, (same_workspace_only matrix = true -> exists bot c ch, EChannel bot c (Ok (Guild ch)) ∈ log /\
    parse_u64 target = Some c /\ show_N (gc_guild_id ch) = g) -> readable matrix log target) as Hread.
  { intros log Hlog. split; [done|]. split; [done|]. right. by exists g. }
  destruct (same_workspace_only matrix) eqn:Es; [|by apply triple_ret; intros s Hs; apply Hok; [|apply Hread]].
  case_bool_decide as Hmd; [|by apply triple_fail]. apply triple_ret. intros s Hs. apply Hok; [done|]. apply Hread. intros _.
  destruct Hs as [[_ Hd] _]. destruct md as [m|]; [|done]. simpl in Hmd, Hd. destruct Hd as (c & Hp & [->|(bot & ch & parent & He & ->)]); [done|].
  exists bot, c, ch. split; [done|]. split; [done|]. by injection Hmd.
Qed.

Lemma within_index_messages matrix base A now messages conversation :
  preserves (within matrix base A) (index_messages session now messages conversation).
Proof. by apply on_index_calls. Qed.

Lemma within_scan_pages matrix base A now target conversation request full keep fuel :
  lasting A -> (forall log, A log -> allowed matrix target log) ->
  forall s, preserves (within matrix base A) (scan_pages provider fuel session now target conversation request full keep s).
Proof.
  intros HA Ht. induction fuel as [|fuel IH]; intros s; cbn [scan_pages]; destruct (_ && _); try by intros w.
  apply preserves_bind; [by apply within_recent|]. intros page. destruct page as [|m page]; [by intros w|].
  apply preserves_bind; [apply within_index_messages|]. intros n. cbv zeta. destruct (sc_exhausted _); [by intros w|apply IH].
Qed.

Lemma within_scan matrix base A now target conversation request full keep :
  lasting A -> (forall log, A log -> allowed matrix target log) ->
  preserves (within matrix base A) (scan provider session now target conversation request full keep).
Proof. intros HA Ht. unfold scan. apply preserves_bind; [by apply within_scan_pages|]. by intros [?|] w. Qed.

Lemma preserves_needs (I : ContextState -> Prop) what o : preserves I (needs what o).
Proof. destruct o; by intros w. Qed.

Lemma within_replies matrix base now target conversation request :
  preserves (within matrix base (fun log => readable matrix log target))
    (replies provider session now target conversation request).
Proof.
  set (A := fun log => readable matrix log target).
  assert (lasting A) as HA by (intros log more; apply readable_app).
  assert (forall log, A log -> allowed matrix target log) as Ht by by left.
  unfold replies. apply preserves_bind; [apply preserves_needs|]. intros message_id.
  apply preserves_bind; [by apply within_get|]. intros _.
  apply triple_preserves. eapply triple_bind; [by apply within_metadata|]. intros md. simpl.
  assert (forall B, (forall log, B log -> A log) -> lasting B ->
    triple (within matrix base B) (channel_replies provider session now message_id target conversation request)
      (fun _ => within matrix base A) (within matrix base A)) as Hchannel.
  { intros B HB HlB. eapply (triple_weaken (within matrix base B) _ _ (fun _ => within matrix base B) _ (within matrix base B));
      [|done|by intros ? s [Hs ?]; split; [apply HB|]|by intros s [Hs ?]; split; [apply HB|]].
    apply triple_preserves. unfold channel_replies. apply preserves_bind; [|by intros s w]. apply within_scan; [done|]. intros log Hl. by apply Ht, HB. }
  assert (lasting (fun log => A log /\ described message_id md log)) as HAd by (apply lasting_and; [done|apply described_lasting]).
  destruct md as [thread|]; [|apply Hchannel; [by intros log [? _]|done]].
  destruct (cv_is_thread thread && _) eqn:Eth; [|apply Hchannel; [by intros log [? _]|done]].
  apply andb_true_iff in Eth as [Eth Ep]. apply bool_decide_eq_true in Ep.
  unfold thread_replies. case_bool_decide as Hm; [by apply triple_fail; intros s [[Ha _] Hs]|].
  case_bool_decide; [by apply triple_fail; intros s [[Ha _] Hs]|].
  eapply (triple_weaken _ _ _ (fun _ => within matrix base (fun log => A log /\ described message_id (Some thread) log)) _
    (within matrix base (fun log => A log /\ described message_id (Some thread) log)));
    [|intros s Hs; exact Hs|by intros ? s [[Ha _] Hs]; split|by intros s [[Ha _] Hs]; split].
  apply triple_preserves. apply preserves_bind; [|intros all; apply preserves_bind; [apply within_index_messages|by intros n w]].
  apply within_recent; [done|]. intros log [Ha (c & Hc & [->|(bot & ch & parent & He & ->)])]; [done|].
  right. split; [done|]. simpl in Eth, Ep. destruct (gc_parent_id ch) as [p|] eqn:Egp; [|done]. simpl in Ep. injection Ep as Ep.
  exists bot, c, ch, p. rewrite Ep. done.
Qed.

Lemma on_index_override (w : world ContextState) :
  match on_index (effective policy_error "discord" (base_matrix rules)) w with
  | (Ok m, w') => calls (st w') = calls (st w) /\
      exists o, override_of policy_error "discord" (policy_overrides (index (st w))) = Ok o /\ m = normalized (default (base_matrix rules) o)
  | (Err _, w') => calls (st w') = calls (st w)
  end.
Proof.
  unfold on_index, zoom, effective, get_override, override_of, bind, query, stmt, exec. simpl.
  destruct (faults w) as [|[msg|] fs]; simpl; [|done|]; (destruct (snd <$> _) as [c|]; simpl; [destruct (c ≫= matrix_of_value); simpl|]); try done;
    (split; [done|]); by eexists.
Qed.

(** Nothing is read that was not allowed: whatever is asked, whatever Discord
    answers and whatever statements fail, every message read is from the session's
    own channel, from an allowed channel of the session's guild (by Discord's word
    when the policy asks for it) or from a thread of one of them, under the policy
    in force, by the session's own bot, and never from a channel ignored under
    the name it was asked by. *)
Theorem reads_were_allowed (request : MessageContextRequest) (now : Z) (w : world ContextState) :
  let '(_, w') := query_provider policy_error provider session request now w in
  exists new, calls (st w') = (calls (st w) ++ new)%list /\
    (new = [] \/
     exists o, override_of policy_error "discord" (policy_overrides (index (st w))) = Ok o /\
       Forall (may_read (normalized (default (base_matrix rules) o)) (calls (st w'))) new).
Proof.
  unfold query_provider. destruct (negb _); [exists []; rewrite app_nil_r; split; [done|by left]|].
  unfold bind at 1. pose proof (on_index_override w) as Ho. unfold effective_policy.
  destruct (on_index _ w) as [[matrix|e] w1]; [|exists []; rewrite app_nil_r; split; [done|by left]].
  destruct Ho as (Ec & o & Ho & Em). set (base := calls (st w)).
  assert (within matrix base anything (st w1)) as Hw.
  { split; [done|]. exists []. rewrite Ec, app_nil_r. split; [done|constructor]. }
  assert (triple (within matrix base anything)
    (at_ <- authorize_and_metadata provider session (rq_channel_id (apply_policy_limits matrix request)) matrix ;;
     let '(target, conversation) := at_ in
     let request := apply_policy_limits matrix request in
     match rq_operation request with
     | Recent => recent provider session now target conversation request
     | SearchFor => search provider session now target conversation request
     | GetMessage => get_message_result provider session now target conversation request
     | Replies => replies provider session now target conversation request
     end) (fun _ => within matrix base anything) (within matrix base anything)) as Ht.
  { eapply triple_bind; [apply within_authorize|]. intros [target conversation]. cbv zeta. simpl.
    set (A := fun log => readable matrix log target). set (rq := apply_policy_limits matrix request).
    assert (lasting A) as HA by (intros log more; apply readable_app).
    assert (forall log, A log -> allowed matrix target log) as Hal by by left.
    eapply (triple_weaken (within matrix base A) _ _ (fun _ => within matrix base A) _ (within matrix base A));
      [|done|by intros ? s [_ Hs]; split|by intros s [_ Hs]; split].
    apply triple_preserves. destruct (rq_operation rq).
    - apply preserves_bind; [by apply within_recent|]. intros messages. apply preserves_bind; [apply within_index_messages|by intros n v].
    - apply preserves_bind; [apply preserves_needs|]. intros q. cbv zeta.
      assert (forall m : M SearchState (list MessageSearchDocument), preserves (within matrix base A) (on_index m)) as Hl by (intros m; by apply on_index_calls).
      apply preserves_bind; [apply Hl|]. intros _. apply preserves_bind; [by apply within_scan|]. intros sc.
      apply preserves_bind; [apply Hl|]. by intros hits v.
    - apply preserves_bind; [apply preserves_needs|]. intros id. apply preserves_bind; [by apply within_get|]. intros m.
      apply preserves_bind; [apply within_index_messages|by intros n v].
    - apply within_replies. }
  specialize (Ht w1 Hw). cbv zeta in *.
  destruct (bind _ _ w1) as [[r|e] w']; destruct Ht as (_ & new & E & Hn); exists new; (split; [done|]); right; exists o; by rewrite <- Em.
Qed.
End Reading.

Lemma from_args_limits args rq : from_args args = Ok rq -> rq_scan_limit rq <= 2000 /\ rq_limit rq <= 100.
Proof.
  unfold from_args, rbind. repeat (case_match; simplify_eq/=; try done); intros [= <-]; simpl;
    unfold number_arg, HARD_MAX_RESULT_LIMIT, HARD_MAX_SEARCH_SCAN_LIMIT;
    set (l := clamp 1 100 _); assert (1 <= l <= 100)%N by (apply clamp_between; lia);
    pose proof (clamp_between l 2000 (default DEFAULT_SEARCH_SCAN_LIMIT (Json.get "scan_limit" args ≫= as_u64))); lia.
Qed.

(** ** How much is read *)

Section Bounds.
Context `{Regex} `{Fts} `{Rest} `{Rfc3339}.
Context (policy_error : option value -> string) (provider : Provider).

Definition is_page (e : ApiEntry) : bool := match e with EMessages _ _ _ _ _ => true | _ => false end.
Definition pages (s : ContextState) : nat := length (List.filter is_page (calls s)).
Definition at_most (n : nat) (s : ContextState) : Prop := pages s <= n.

Lemma pages_call {T} n (f : list ApiEntry -> result T OmonError) entry :
  (forall a, is_page (entry a) = false) -> preserves (at_most n) (call f entry).
Proof.
  intros He w Hw. unfold call, bind, mem, lift. simpl. unfold at_most, pages in *. simpl.
  set (a := f _). assert (length (List.filter is_page (calls (st w) ++ [entry a])) <= n) as Hn.
  { rewrite List.filter_app, length_app. simpl. rewrite He. simpl. lia. }
  by destruct a.
Qed.

Lemma pages_connect n todo : forall first known, preserves (at_most n) (connect todo first known).
Proof.
  induction todo as [|t todo IH]; intros first known; cbn [connect]; [destruct first; by intros w|].
  apply preserves_bind; [by apply pages_call|]. intros id. cbv zeta. case_match; [by intros w|apply IH].
Qed.

Lemma pages_http n session : preserves (at_most n) (http_for_session provider session).
Proof. unfold http_for_session, clients. preserve_steps; try done. apply pages_connect. Qed.

Lemma pages_metadata n session text : preserves (at_most n) (conversation_metadata provider session text).
Proof.
  unfold conversation_metadata, to_channel. preserve_steps; try apply pages_http; by apply pages_call.
Qed.

Lemma pages_get n session text message : preserves (at_most n) (get_message provider session text message).
Proof. unfold get_message. preserve_steps; try apply pages_http. by apply pages_call. Qed.

Lemma pages_index {A} n (m : M SearchState A) : preserves (at_most n) (on_index m).
Proof. by apply on_index_calls. Qed.

Lemma pages_weaken n m s : at_most n s -> n <= m -> at_most m s.
Proof. unfold at_most. lia. Qed.

Lemma pages_recent n session text before limit :
  triple (at_most n) (recent_messages provider session text before limit) (fun _ => at_most (S n)) (at_most (S n)).
Proof.
  assert (forall s, at_most n s -> at_most (S n) s) as Hle by (intros s ?; apply (pages_weaken n); [done|lia]).
  unfold recent_messages. eapply (triple_bind _ _ _ (fun _ => at_most n)).
  { eapply triple_weaken; [exact (proj2 (triple_preserves _ _) (pages_http n session))|done..]. }
  intros bot. apply triple_bind_lift; [done|]. intros c _. eapply (triple_bind _ _ _ (fun _ => at_most n)).
  { eapply triple_weaken; [apply (proj2 (triple_preserves (at_most n) _))|done|done|done]. destruct before; by preserve_steps. }
  intros b. apply (triple_bind _ _ _ (fun _ => at_most (S n))); [|intros l; by apply triple_ret].
  intros w Hw. unfold call, bind, mem, lift. simpl.
  assert (at_most (S n) (set_calls (fun l => l ++ [EMessages bot c b (Nat.min limit DISCORD_PAGE_LIMIT)
    (rest_messages (calls (st w)) bot c b (Nat.min limit DISCORD_PAGE_LIMIT))])%list (st w))) as Hs.
  { unfold at_most, pages in *. simpl. rewrite List.filter_app, length_app. simpl. lia. }
  by destruct (rest_messages _ _ _ _ _).
Qed.

(** Pages end the scan or are full: [k] of them cover what is left to scan. *)
Lemma scan_pages_bounded session now target conversation request full keep fuel : forall n k s,
  rq_scan_limit request - sc_scanned s <= 100 * k -> k <= fuel ->
  triple (at_most n) (scan_pages provider fuel session now target conversation request full keep s)
    (fun r s' => r <> None /\ at_most (n + k) s') (at_most (n + k)).
Proof.
  induction fuel as [|fuel IH]; intros n k s Hk Hf; cbn [scan_pages];
    (destruct (Nat.ltb_spec (sc_scanned s) (rq_scan_limit request)); cbn [andb];
     [|apply triple_ret; intros ? ?; split; [done|]; eapply pages_weaken; [done|lia]]);
    (destruct (full (sc_kept s)); cbn [negb]; [apply triple_ret; intros ? ?; split; [done|]; eapply pages_weaken; [done|lia]|]); [lia|].
  destruct k as [|k]; [lia|]. replace (n + S k) with (S n + k) by lia.
  assert (forall x, at_most (S n) x -> at_most (S n + k) x) as Hle by (intros x ?; eapply pages_weaken; [done|lia]).
  eapply triple_bind; [eapply triple_weaken; [apply (pages_recent n)|done|intros ? ? Hs; exact Hs|exact Hle]|].
  intros page. simpl. destruct page as [|m page]; [by apply triple_ret; intros ? ?; split; [|apply Hle]|].
  eapply triple_bind.
  { eapply triple_weaken; [exact (proj2 (triple_preserves _ _) (pages_index (S n) _))|done|intros ? ? Hs; exact Hs|exact Hle]. }
  intros i. cbv zeta. simpl sc_exhausted. destruct (Nat.ltb_spec (length (m :: page)) (Nat.min (rq_scan_limit request - sc_scanned s) DISCORD_PAGE_LIMIT)) as [Hlt|Hge].
  - apply triple_ret. intros ? ?. split; [done|by apply Hle].
  - apply (IH (S n) k); [|lia]. cbn [sc_scanned]. unfold DISCORD_PAGE_LIMIT in Hge. lia.
Qed.

Lemma scan_bounded session now target conversation request full keep n k :
  rq_scan_limit request <= 100 * k ->
  triple (at_most n) (scan provider session now target conversation request full keep) (fun _ => at_most (n + k)) (at_most (n + k)).
Proof.
  intros Hk. set (j := Nat.min k (S (rq_scan_limit request / DISCORD_PAGE_LIMIT))).
  assert (rq_scan_limit request <= 100 * j) as Hj.
  { unfold j, DISCORD_PAGE_LIMIT. pose proof (Nat.div_mod (rq_scan_limit request) 100). pose proof (Nat.mod_upper_bound (rq_scan_limit request) 100). lia. }
  eapply triple_weaken with (E := at_most (n + j)) (Q := fun _ => at_most (n + j));
    [|intros ? Hs; exact Hs|intros ? s Hs; eapply pages_weaken; [exact Hs|lia]|intros s Hs; eapply pages_weaken; [exact Hs|lia]].
  unfold scan. eapply triple_bind; [apply (scan_pages_bounded _ _ _ _ _ _ _ _ n j); [cbn [sc_scanned]; lia|unfold j; lia]|].
  intros [s|]; simpl; [by apply triple_ret; intros ? [_ ?]|by intros w [? _]].
Qed.

Lemma pages_keep {A} n k (m : M ContextState A) : preserves (at_most n) m -> triple (at_most n) m (fun _ => at_most n) (at_most (n + k)).
Proof.
  intros Hm. eapply triple_weaken; [exact (proj2 (triple_preserves _ _) Hm)|done|done|]. intros s ?. eapply pages_weaken; [done|lia].
Qed.

Lemma pages_end {A} n k (m : M ContextState A) : preserves (at_most (n + k)) m ->
  triple (at_most (n + k)) m (fun _ => at_most (n + k)) (at_most (n + k)).
Proof. intros Hm. exact (proj2 (triple_preserves _ _) Hm). Qed.

Lemma query_pages session request now n k :
  1 <= k -> rq_scan_limit request <= 100 * k -> rq_limit request <= 100 ->
  triple (at_most n) (query_provider policy_error provider session request now) (fun _ => at_most (n + k)) (at_most (n + k)).
Proof.
  intros Hk1 Hk Hl. assert (forall s, at_most n s -> at_most (n + k) s) as Hle by (intros s ?; eapply pages_weaken; [done|lia]).
  assert (forall s, at_most (S n) s -> at_most (n + k) s) as Hle1 by (intros s ?; eapply pages_weaken; [done|lia]).
  unfold query_provider. destruct (negb _); [by apply triple_fail|].
  eapply triple_bind; [apply pages_keep, pages_index|]. intros matrix. cbv zeta. set (rq := apply_policy_limits matrix request).
  assert (rq_scan_limit rq <= 100 * k) as Hrq by (unfold rq, apply_policy_limits; destruct (rq_operation request); simpl; lia).
  eapply triple_bind.
  { apply pages_keep. unfold authorize_and_metadata. preserve_steps. apply pages_metadata. }
  intros [target conversation]. cbv beta.
  assert (forall id, triple (at_most n) (channel_replies provider session now id target conversation rq) (fun _ => at_most (n + k)) (at_most (n + k))) as Hch.
  { intros id. unfold channel_replies. eapply triple_bind; [by apply scan_bounded|]. intros s. by apply triple_ret. }
  assert (forall text before limit (f : list MessageContextMessage -> M ContextState MessageContextResult),
    (forall l, preserves (at_most (n + k)) (f l)) ->
    triple (at_most n) (bind (recent_messages provider session text before limit) f) (fun _ => at_most (n + k)) (at_most (n + k))) as Hone.
  { intros text before limit f Hf. eapply triple_bind; [|intros l; apply pages_end, Hf].
    eapply triple_weaken; [apply (pages_recent n)|done|intros ? ?; apply Hle1|apply Hle1]. }
  destruct (rq_operation rq).
  - apply Hone. intros l. preserve_steps. apply pages_index.
  - eapply triple_bind; [apply pages_keep, preserves_needs|]. intros q. cbv zeta.
    eapply triple_bind; [apply pages_keep, pages_index|]. intros hits.
    eapply triple_bind; [by apply scan_bounded|]. intros s. apply pages_end. preserve_steps. apply pages_index.
  - eapply (triple_weaken (at_most n) _ _ (fun _ => at_most n) _ (at_most n)); [|done|done|done].
    apply triple_preserves. unfold get_message_result. apply preserves_bind; [apply preserves_needs|]. intros id.
    apply preserves_bind; [apply pages_get|]. intros m. apply preserves_bind; [apply pages_index|by intros i w].
  - unfold replies. eapply triple_bind; [apply pages_keep, preserves_needs|]. intros id.
    eapply triple_bind; [apply pages_keep, pages_get|]. intros m.
    eapply triple_bind; [apply pages_keep, pages_metadata|]. intros [thread|]; [|apply Hch]. destruct (_ && _); [|apply Hch].
    unfold thread_replies. case_bool_decide; [by apply triple_fail|]. case_bool_decide; [by apply triple_fail|].
    apply Hone. intros l. preserve_steps. apply pages_index.
Qed.

(** What a computation returns, when it does. *)
Definition gives {S A} (m : M S A) (Q : A -> Prop) : Prop := forall w, match fst (m w) with Ok a => Q a | Err _ => True end.

Lemma gives_bind {S A B} (m : M S A) (k : A -> M S B) R Q : gives m R -> (forall a, R a -> gives (k a) Q) -> gives (bind m k) Q.
Proof.
  intros Hm Hk w. unfold bind. specialize (Hm w). destruct (m w) as [[a|e] w']; simpl in *; [by apply Hk|done].
Qed.
Lemma gives_any {S A} (m : M S A) : gives m (fun _ => True).
Proof. intros w. by destruct (fst (m w)). Qed.
Lemma gives_ret {S A} (a : A) (Q : A -> Prop) : Q a -> gives (ret (S:=S) a) Q.
Proof. by intros ? w. Qed.
Lemma gives_fail {S A} e (Q : A -> Prop) : gives (fail (S:=S) e) Q.
Proof. by intros w. Qed.

(** Discord sends no more messages than asked for. *)
Definition honest : Prop := forall log bot c before limit l, rest_messages log bot c before limit = Ok l -> length l <= limit.

Definition operation_limit (matrix : MessageContextPolicyMatrix) (o : MessageContextOperation) : nat :=
  match o with
  | Recent => N.to_nat (recent_limit (limits matrix))
  | SearchFor => N.to_nat (search_results (limits matrix))
  | GetMessage => 1
  | Replies => N.to_nat (replies_limit (limits matrix))
  end.

Lemma gives_recent session text before limit : honest ->
  gives (recent_messages provider session text before limit) (fun l => length l <= limit).
Proof.
  intros Hh. unfold recent_messages. eapply gives_bind; [apply gives_any|]. intros bot _.
  eapply gives_bind; [apply gives_any|]. intros c _. eapply gives_bind; [apply gives_any|]. intros b _.
  eapply (gives_bind _ _ (fun l => length l <= limit)).
  - intros w. unfold call, bind, mem, lift. simpl. destruct (rest_messages _ _ _ _ _) as [l|] eqn:E; [|done]. apply Hh in E. simpl. lia.
  - intros l Hl. apply gives_ret. by rewrite length_map.
Qed.

Lemma gives_scan session now target conversation request full keep :
  gives (scan provider session now target conversation request full keep) (fun s => length (sc_kept s) <= rq_limit request).
Proof.
  unfold scan. apply (gives_bind _ _ (fun r => match r with Some s => length (sc_kept s) <= rq_limit request | None => True end)).
  - generalize (S (rq_scan_limit request / DISCORD_PAGE_LIMIT)) as fuel.
    assert (length (sc_kept (mkScan (rq_before request) 0 0 [] false)) <= rq_limit request) as Hs by (simpl; lia). revert Hs.
    generalize (mkScan (rq_before request) 0 0 [] false) as s. intros s Hs fuel. revert s Hs.
    induction fuel as [|fuel IH]; intros s Hs; cbn [scan_pages]; destruct (_ && _); try by apply gives_ret.
    eapply gives_bind; [apply gives_any|]. intros page _. destruct page as [|m page]; [by apply gives_ret|].
    eapply gives_bind; [apply gives_any|]. intros i _. cbv zeta.
    match goal with |- context [sc_exhausted ?s] => assert (length (sc_kept s) <= rq_limit request) as Hs' by (simpl; rewrite length_take; lia) end.
    destruct (sc_exhausted _); [by apply gives_ret|by apply IH].
  - intros [s|] Hs; [by apply gives_ret|apply gives_fail].
Qed.

Lemma gives_search platform channel q before limit : gives (search_index platform channel q before limit) (fun l => length l <= limit).
Proof.
  intros w. destruct (search_index _ _ _ _ _ w) as [[l|] w'] eqn:E; [|done]. simpl.
  destruct (search_rows _ _ _ _ _ _ _ _ E) as (? & _ & -> & _). rewrite length_map, length_take. lia.
Qed.

Lemma gives_on_index {A} (m : M SearchState A) Q : gives m Q -> gives (on_index m) Q.
Proof. intros Hm w. unfold on_index, zoom. specialize (Hm (mkWorld (index (st w)) (faults w))). by destruct (m _). Qed.

Lemma answer_fits session now target conversation matrix request : honest ->
  let rq := apply_policy_limits matrix request in
  gives (match rq_operation rq with
         | Recent => recent provider session now target conversation rq
         | SearchFor => search provider session now target conversation rq
         | GetMessage => get_message_result provider session now target conversation rq
         | Replies => replies provider session now target conversation rq
         end) (fun r => length (rs_messages r) <= operation_limit matrix (rq_operation request)).
Proof.
  intros Hh rq.
  assert (rq_operation rq = rq_operation request) as Eo by (unfold rq, apply_policy_limits; by destruct (rq_operation request)).
  assert (rq_operation request <> GetMessage -> rq_limit rq <= operation_limit matrix (rq_operation request)) as Hl.
  { unfold rq, apply_policy_limits, operation_limit. destruct (rq_operation request); simpl; intros; lia || done. }
  rewrite Eo. destruct (rq_operation request).
  - eapply gives_bind; [by apply gives_recent|]. intros l Hlen. eapply gives_bind; [apply gives_any|]. intros i _.
    apply gives_ret. simpl in *. specialize (Hl ltac:(done)). lia.
  - eapply gives_bind; [apply gives_any|]. intros q _. cbv zeta. eapply gives_bind; [apply gives_any|]. intros _ _.
    eapply gives_bind; [apply gives_any|]. intros s _. eapply gives_bind; [apply gives_on_index, gives_search|]. intros hits Hh'.
    apply gives_ret. simpl. rewrite length_map. specialize (Hl ltac:(done)). simpl in Hl, Hh'. lia.
  - eapply gives_bind; [apply gives_any|]. intros id _. eapply gives_bind; [apply gives_any|]. intros m _.
    eapply gives_bind; [apply gives_any|]. intros i _. by apply gives_ret.
  - eapply gives_bind; [apply gives_any|]. intros id _. eapply gives_bind; [apply gives_any|]. intros m _.
    specialize (Hl ltac:(done)). simpl in Hl.
    assert (gives (channel_replies provider session now id target conversation rq) (fun r => length (rs_messages r) <= rq_limit rq)) as Hch.
    { eapply gives_bind; [apply gives_scan|]. intros s Hs. by apply gives_ret. }
    assert (forall m : M ContextState MessageContextResult, gives m (fun r => length (rs_messages r) <= rq_limit rq) ->
      gives m (fun r => length (rs_messages r) <= operation_limit matrix Replies)) as Hw.
    { intros m' Hm w. specialize (Hm w). destruct (fst (m' w)); simpl in *; [lia|done]. }
    apply Hw. eapply gives_bind; [apply gives_any|]. intros [thread|] _; [|done]. destruct (_ && _); [|done].
    unfold thread_replies. case_bool_decide; [apply gives_fail|]. case_bool_decide; [apply gives_fail|].
    eapply gives_bind; [apply gives_any|]. intros all _. cbv zeta. eapply gives_bind; [apply gives_any|]. intros i _.
    apply gives_ret. simpl. rewrite length_take. lia.
Qed.

(** Reading ends soon: one request of the tool asks Discord for at most twenty
    pages, whatever the arguments and the answers, and never runs out of fuel;
    when Discord sends no more than asked, the result holds no more messages than
    the policy in force grants the operation. *)
Theorem reading_bounded (args : value) (session : option SessionKey) (now : Z) (w : world ContextState) :
  honest ->
  let '(r, w') := execute_with_context policy_error provider args session now w in
  pages (st w') <= pages (st w) + 20 /\
  (forall s t c rq full keep w1, fst (scan_pages provider (S (rq_scan_limit rq / DISCORD_PAGE_LIMIT)) s now t c rq full keep
     (mkScan (rq_before rq) 0 0 [] false) w1) <> Ok None) /\
  forall result, r = Ok result ->
    exists o rq, override_of policy_error "discord" (policy_overrides (index (st w))) = Ok o /\ from_args args = Ok rq /\
      length (rs_messages result) <= operation_limit (normalized (default (base_matrix (policy provider)) o)) (rq_operation rq).
Proof.
  intros Hh.
  assert (forall s t c rq full keep w1, fst (scan_pages provider (S (rq_scan_limit rq / DISCORD_PAGE_LIMIT)) s now t c rq full keep
     (mkScan (rq_before rq) 0 0 [] false) w1) <> Ok None) as Hfuel.
  { intros s t c rq full keep w1. set (k := S (rq_scan_limit rq / DISCORD_PAGE_LIMIT)).
    assert (rq_scan_limit rq <= 100 * k) as Hk.
    { unfold k, DISCORD_PAGE_LIMIT. pose proof (Nat.div_mod (rq_scan_limit rq) 100). pose proof (Nat.mod_upper_bound (rq_scan_limit rq) 100). lia. }
    pose proof (scan_pages_bounded s now t c rq full keep k (pages (st w1)) k (mkScan (rq_before rq) 0 0 [] false)) as Hs.
    cbn [sc_scanned] in Hs. specialize (Hs ltac:(lia) (le_n _) w1 (le_n _)). fold k.
    destruct (scan_pages _ _ _ _ _ _ _ _ _ _ w1) as [[[?|]|?] ?]; simpl; [done|by destruct Hs|done]. }
  unfold execute_with_context. destruct session as [session|]; [|simpl; split; [lia|done]].
  unfold bind at 1, lift. destruct (from_args args) as [rq|] eqn:Erq; [|simpl; split; [lia|done]].
  destruct (_ && _); [|simpl; split; [lia|done]].
  assert (rq_scan_limit rq <= 100 * 20 /\ rq_limit rq <= 100) as [Hs Hl].
  { by apply from_args_limits in Erq. }
  pose proof (query_pages session rq now (pages (st w)) 20 ltac:(lia) Hs Hl w (le_n _)) as Hp.
  assert (forall result, fst (query_provider policy_error provider session rq now w) = Ok result ->
    exists o, override_of policy_error "discord" (policy_overrides (index (st w))) = Ok o /\
      length (rs_messages result) <= operation_limit (normalized (default (base_matrix (policy provider)) o)) (rq_operation rq)) as Hr.
  { intros result. unfold query_provider. destruct (negb _); [done|]. unfold bind at 1. unfold effective_policy.
    pose proof (on_index_override policy_error provider w) as Ho. destruct (on_index _ w) as [[matrix|] w1]; [|done].
    destruct Ho as (_ & o & Ho & Em). intros E. exists o. split; [done|]. rewrite <- Em. cbv zeta in E.
    assert (forall target conversation, gives (match rq_operation (apply_policy_limits matrix rq) with
         | Recent => recent provider session now target conversation (apply_policy_limits matrix rq)
         | SearchFor => search provider session now target conversation (apply_policy_limits matrix rq)
         | GetMessage => get_message_result provider session now target conversation (apply_policy_limits matrix rq)
         | Replies => replies provider session now target conversation (apply_policy_limits matrix rq)
         end) (fun r => length (rs_messages r) <= operation_limit matrix (rq_operation rq))) as Hg.
    { intros target conversation. by apply (answer_fits session now target conversation matrix rq). }
    revert E. match goal with |- fst (bind ?m ?k w1) = _ -> _ => assert (gives (bind m k) (fun r => length (rs_messages r) <= operation_limit matrix (rq_operation rq))) as Hb end.
    { eapply gives_bind; [apply gives_any|]. intros [target conversation] _. apply Hg. }
    specialize (Hb w1). intros E. by rewrite E in Hb. }
  destruct (query_provider _ _ _ _ _ w) as [[result|e] w']; (split; [exact Hp|]); (split; [exact Hfuel|]); [|done].
  intros result' [= <-]. destruct (Hr result eq_refl) as (o & Ho & Hlen). by exists o, rq.
Qed.
End Bounds.

(** ** What is indexed is read back *)

Lemma mapM_read_back {A} (f : A -> value) (g : value -> option A) l : (forall a, g (f a) = Some a) -> mapM g (map f l) = Some l.
Proof. intros Hf. induction l as [|a l IH]; simpl; [done|]. by rewrite Hf, IH. Qed.

Lemma attachment_read_back a : attachment_of_value (attachment_value a) = Some a.
Proof. destruct a as [? ? ? [?|] ?]; reflexivity. Qed.

(** A message found in the index is the message that was indexed, when its time
    was printed by chrono. *)
Theorem indexed_message_read_back `{Rfc3339} session now conversation m z :
  parse_from_rfc3339 (m_timestamp m) = Some z -> to_rfc3339 z = m_timestamp m ->
  message_from_search_document (search_document_from_message session now conversation m) = m.
Proof.
  intros Hp Ht. unfold message_from_search_document, search_document_from_message. simpl. rewrite Hp. simpl. rewrite Ht.
  rewrite (mapM_read_back attachment_value attachment_of_value) by apply attachment_read_back. simpl. destruct m as [? ? ? ? ? ? ? ? [?|]]; done.
Qed.

(** ** Concrete runs *)

Module Samples.
#[local] Instance no_regex : Regex := {| is_match := fun _ _ => false; replace_all := fun _ _ text => text |}.
#[local] Instance plain_dates : Rfc3339 := {| parse_from_rfc3339 := fun _ => Some 0%Z; to_rfc3339 := fun _ => "t" |}.
#[local] Existing Instance plain_fts.

Definition a_raw (id : N) (referenced : option N) : RawMessage := mkRaw id 7 5 "ann" false "hello" "t" [] referenced.
Definition the_thread : GuildChannel := mkGuildChannel 42 1 "ops" PublicThread None (Some 7%N).
Definition the_channel : GuildChannel := mkGuildChannel 7 1 "general" (OtherType "Text") None None.

(** Channel 7 holds messages 42, 41, ..., the older ones replies to 42; 42 started a thread. *)
#[local] Instance a_guild : Rest := {|
  rest_user := fun _ _ => Ok 9%N;
  rest_messages := fun _ _ channel _ limit =>
    Ok (take limit (if (channel =? 42)%N then [a_raw 50 None] else [a_raw 45 (Some 40%N); a_raw 44 (Some 40%N); a_raw 43 (Some 40%N)]));
  rest_message := fun _ _ _ message => Ok (a_raw message None);
  rest_channel := fun _ _ channel => if (channel =? 42)%N then Ok (Guild the_thread) else if (channel =? 7)%N then Ok (Guild the_channel) else Err (Discord "404")
|}.

Lemma a_guild_honest : honest.
Proof. intros log bot c before limit l [= <-]. rewrite length_take. lia. Qed.

Definition in_general : SessionKey := mkSessionKey "discord" (Some "1") "7" None "" None.
Definition ignoring (channels : list string) : Provider := mkProvider ["token"] (policy_with_matrix [] channels default_matrix).
Definition idle : ContextState := mkContext (mkSearch [] []) None [].
Definition no_policy_error (_ : option value) : string := "error".

Definition ask (p : Provider) (members : list (string * value)) : result MessageContextResult OmonError * ContextState :=
  run (execute_with_context no_policy_error p (JObject members) (Some in_general) 0) idle.

(** Thread 42 is ignored: it is refused by that name and read by another. *)
Theorem ignored_thread_read :
  let read id := ask (ignoring ["42"]) [("message_id", JString id); ("operation", JString "replies")] in
  fst (read "42") = Err (denied "thread 42 is ignored by policy") /\
  exists r, fst (read "042") = Ok r /\ map m_id (rs_messages r) = ["50"] /\
    EMessages "9" 42 None 21 (Ok [a_raw 50 None]) ∈ calls (snd (read "042")).
Proof.
  split; [vm_compute; reflexivity|]. eexists. split; [vm_compute; reflexivity|]. split; [vm_compute; reflexivity|].
  vm_compute. repeat (first [apply list_elem_of_here|apply list_elem_of_further]).
Qed.

(** Three replies in one page, one asked for: the cursor is behind all three. *)
Theorem cursor_skips_replies :
  exists r, fst (ask (ignoring []) [("limit", JPos 1); ("message_id", JString "40"); ("operation", JString "replies")]) = Ok r /\
    map m_id (rs_messages r) = ["45"] /\ rs_next_before r = Some "43".
Proof. eexists. split; [vm_compute; reflexivity|]. split; reflexivity. Qed.

Lemma reading_bounded_witness :
  honest /\ exists r, fst (ask (ignoring []) [("operation", JString "recent")]) = Ok r /\ length (rs_messages r) <= 50.
Proof.
  split; [apply a_guild_honest|]. eexists. split; [vm_compute; reflexivity|].
  destruct (reading_bounded no_policy_error (ignoring []) (JObject [("operation", JString "recent")]) (Some in_general) 0 (mkWorld idle []) a_guild_honest)
    as (_ & _ & Hr).
  destruct (Hr _ eq_refl) as (o & rq & Ho & Hq & Hlen). vm_compute in Ho, Hq. injection Ho as <-. injection Hq as <-.
  exact Hlen.
Defined.

Lemma indexed_message_read_back_witness :
  message_from_search_document (search_document_from_message in_general 5 None (normalize_discord_message (a_raw 45 None))) =
  normalize_discord_message (a_raw 45 None).
Proof. apply (indexed_message_read_back in_general 5 None _ 0); reflexivity. Defined.
End Samples.
