(* ===== verification/Web.v ===== *)
(** * The web tools (src/tools/web.rs)

    Fetching a page and searching the web: which addresses are asked for and
    followed, the bounded reading of a body that arrives in pieces, and the
    fields taken out of a page of results.  The HTTP client and the parser of
    URLs are arguments.  Bytes are [ascii]; a body is the list of its chunks, a
    failed chunk with the error's text. *)
From stdpp Require Import base list strings.
From Stdlib Require Import ZArith NArith Lia Ascii String.
From S2P Require Import Prelude RustStr Json Db Shell Outgoing Search.
Open Scope string_scope.
Local Notation length := Datatypes.length.
Local Notation trim := RustStr.trim.

Definition MAX_REDIRECTS : nat := 5.
Definition MAX_SEARCH_CHARS : N := 500000.

(** ** [std::str::from_utf8]

    The first character of some bytes: a character of [n] bytes, an invalid
    sequence of [n] bytes, or the beginning of a character cut by the end. *)
Inductive Head : Type := Valid (n : nat) | Invalid (n : nat) | Incomplete.

(** How many bytes follow a first byte, and the range of the second. *)
Definition followers (b : ascii) : option (nat * N * N) :=
  if in_range b 194 223 then Some (1%nat, 128%N, 191%N)
  else if in_range b 224 224 then Some (2%nat, 160%N, 191%N)
  else if in_range b 237 237 then Some (2%nat, 128%N, 159%N)
  else if in_range b 225 239 then Some (2%nat, 128%N, 191%N)
  else if in_range b 240 240 then Some (3%nat, 144%N, 191%N)
  else if in_range b 241 243 then Some (3%nat, 128%N, 191%N)
  else if in_range b 244 244 then Some (3%nat, 128%N, 143%N)
  else None.

(** [n] more continuation bytes, [done] bytes of the character being read. *)
Fixpoint tail_bytes (n done : nat) (l : list ascii) : Head :=
  match n with
  | O => Valid done
  | S n =>
      match l with
      | [] => Incomplete
      | b :: rest => if in_range b 128 191 then tail_bytes n (S done) rest else Invalid done
      end
  end.

Definition head_char (l : list ascii) : Head :=
  match l with
  | [] => Incomplete
  | b :: rest =>
      if in_range b 0 127 then Valid 1
      else match followers b with
           | None => Invalid 1
           | Some (n, lo, hi) =>
               match rest with
               | [] => Incomplete
               | c :: rest => if in_range c lo hi then tail_bytes (pred n) 2 rest else Invalid 1
               end
           end
  end.

(** [Ok], or [valid_up_to] and [error_len]. *)
Inductive Utf8 : Type := Utf8Ok | Utf8Error (valid_up_to : nat) (error_len : option nat).

Fixpoint from_utf8_at (fuel i : nat) (l : list ascii) : Utf8 :=
  match fuel, l with
  | S fuel, _ :: _ =>
      match head_char l with
      | Valid n => from_utf8_at fuel (i + n) (drop n l)
      | Invalid n => Utf8Error i (Some n)
      | Incomplete => Utf8Error i None
      end
  | _, _ => Utf8Ok
  end.
(** Every character has a byte. *)
Definition from_utf8 (l : list ascii) : Utf8 := from_utf8_at (length l) 0 l.

(** ** Bounded reading *)

(** [char::REPLACEMENT_CHARACTER]. *)
Definition REPLACEMENT : list ascii := map ascii_of_N [239; 191; 189]%N.

(** The text so far, a list of characters, and how many more fit: a [usize],
    from which [-= 1] wraps in a release build (and panics in a debug build). *)
Record Reading : Type := mkReading { out : list (list ascii); remaining : N }.
Definition usize_pred (n : N) : N := if (n =? 0)%N then (U64_BOUND - 1)%N else N.pred n.
Definition push (c : list ascii) (r : Reading) : Reading := mkReading (out r ++ [c]) (usize_pred (remaining r)).
Definition is_full (r : Reading) : bool := (remaining r =? 0)%N.

(** [push_chars] over valid text: the bytes used. *)
Fixpoint push_chars (fuel : nat) (valid : list ascii) (r : Reading) : nat * Reading :=
  match fuel, valid with
  | S fuel, _ :: _ =>
      if is_full r then (0, r)
      else
        let n := match head_char valid with Valid n => n | _ => length valid end in
        let '(used, r) := push_chars fuel (drop n valid) (push (take n valid) r) in
        (n + used, r)
  | _, _ => (0, r)
  end.

(** The loop of [push_decoded]: the bytes left and the text. *)
Fixpoint push_decoded (fuel : nat) (pending : list ascii) (r : Reading) : list ascii * Reading :=
  match fuel, pending with
  | S fuel, _ :: _ =>
      if is_full r then (pending, r)
      else
        match from_utf8 pending with
        | Utf8Ok => let '(used, r) := push_chars (length pending) pending r in (drop used pending, r)
        | Utf8Error valid_up_to error_len =>
            let '(taken, r) := push_chars valid_up_to (take valid_up_to pending) r in
            let rest := drop taken pending in
            if (taken <? valid_up_to)%nat then (rest, r)
            else
              match error_len with
              | Some len => push_decoded fuel (drop len rest) (push REPLACEMENT r)
              | None => (rest, r)
              end
        end
  | _, _ => (pending, r)
  end.

Fixpoint read_stream (chunks : list (result (list ascii) string)) (pending : list ascii) (r : Reading) :
    result (list (list ascii)) OmonError :=
  match chunks with
  | chunk :: rest =>
      if is_full r then Ok (out r)
      else match chunk with
           | Err e => Err (ToolExecution ("failed to read response: " ++ e))
           | Ok bytes =>
               let pending := (pending ++ bytes)%list in
               let '(pending, r) := push_decoded (S (length pending)) pending r in
               read_stream rest pending r
           end
  | [] =>
      if is_full r then Ok (out r)
      else match pending with [] => Ok (out r) | _ => Ok (out r ++ [REPLACEMENT])%list end
  end.

Definition read_bounded_text (chunks : list (result (list ascii) string)) (max_chars : N) : result (list (list ascii)) OmonError :=
  read_stream chunks [] (mkReading [] max_chars).

(** ** Addresses *)

(** [reqwest::Url::parse]: the scheme and the text of a URL, or an error. *)
Record Url : Type := mkUrl { scheme : string; url_text : string }.

Definition is_http (scheme : string) : bool := existsb (String.eqb scheme) ["http"; "https"].

Definition fetch_target_url (parsed : Url) (reader_prefix : option string) : string :=
  match reader_prefix with
  | Some prefix => if is_empty (trim prefix) then url_text parsed else trim prefix ++ url_text parsed
  | None => url_text parsed
  end.

Definition redirect_is_allowed (next : Url) (hops : nat) : bool := (hops <=? MAX_REDIRECTS)%nat && is_http (scheme next).

(** [bounded_redirect_policy]: reqwest's client asks for the first address and
    follows redirections, [previous] the addresses before, while it is allowed. *)
Fixpoint follow (redirects : list Url) (previous : list Url) : result (list Url) string :=
  match redirects with
  | [] => Ok previous
  | next :: rest =>
      if redirect_is_allowed next (length previous) then follow rest (previous ++ [next])%list
      else Err ("blocked redirect to " ++ url_text next ++ " after " ++ show_N (N.of_nat (length previous)) ++ " hops")
  end.

(** ** Parsing a page of results *)

(** [s.split(p)] for a nonempty [p]. *)
Fixpoint split_str (fuel : nat) (p s : string) : list string :=
  match fuel with
  | O => [s]
  | S fuel =>
      match find_str p s with
      | Some i => take_str i s :: split_str fuel p (drop_str (i + len p) s)
      | None => [s]
      end
  end.

Definition extract_tag_content (html start_tag end_tag : string) : option string :=
  start ← find_str start_tag html;
  let rest := drop_str start html in
  close ← find_str ">" rest;
  let content := drop_str (close + 1) rest in
  end_ ← find_str end_tag content;
  Some (take_str end_ content).

Definition extract_attribute (html attr_prefix end_char : string) : option string :=
  start ← find_str attr_prefix html;
  let rest := drop_str (start + len attr_prefix) html in
  end_ ← find_str end_char rest;
  Some (take_str end_ rest).

(** The text outside angle brackets. *)
Fixpoint outside (inside : bool) (l : list string) : list string :=
  match l with
  | [] => []
  | c :: rest =>
      if String.eqb c "<" then outside true rest
      else if String.eqb c ">" then outside false rest
      else if inside then outside inside rest else c :: outside inside rest
  end.

Definition entities : list (string * string) :=
  [("&quot;", dq); ("&amp;", "&"); ("&lt;", "<"); ("&gt;", ">"); ("&#39;", "'"); ("&nbsp;", " ")].

Definition clean_html (input : string) : string :=
  trim (fold_left (fun s e => replace_str e.1 e.2 s 0) entities (of_chars (outside false (RustStr.chars input)))).

Record SearchResult : Type := mkSearchResult { sr_title : string; sr_snippet : string; sr_url : string }.

Definition attr (name v : string) : string := name ++ "=" ++ dq ++ v.
Definition BODY_TAG : string := "<div " ++ attr "class" "result__body" ++ dq ++ ">".
Definition URL_TAG : string := "<a " ++ attr "class" "result__url" ++ dq.
Definition SNIPPET_TAG : string := "<a " ++ attr "class" "result__snippet" ++ dq.

Definition parse_result (snippet : string) : option SearchResult :=
  let title := default "" (match extract_tag_content snippet URL_TAG "</a>" with
                           | Some t => Some t
                           | None => extract_tag_content snippet SNIPPET_TAG "</a>"
                           end) in
  let body := default "" (extract_tag_content snippet SNIPPET_TAG "</a>") in
  let href := default "" (extract_attribute snippet (attr "href" "") dq) in
  if negb (is_empty title) || negb (is_empty body) then Some (mkSearchResult (clean_html title) (clean_html body) href) else None.

Definition parse_results (html : string) (max_results : nat) : list SearchResult :=
  omap parse_result (take max_results (drop 1 (split_str (len html) BODY_TAG html))).

(** ** The tools *)

Record Response : Type := mkResponse { success : bool; status_text : string; body : list (result (list ascii) string) }.

Definition page_text (l : list (list ascii)) : string := of_chars (map string_of_list_ascii l).

Section Tools.
(** [Url::parse], percent-encoding, and the client: the answer to a request, its
    redirections as [follow] allows. *)
Context (parse_url : string -> result Url string) (url_encode : string -> string).
Context (get_url : string -> result Response string).

Definition fetched (what url : string) (max_chars : N) : result string OmonError :=
  match get_url url with
  | Err e => Err (ToolExecution (what ++ " request failed: " ++ e))
  | Ok resp =>
      if success resp then
        match read_bounded_text (body resp) max_chars with Ok l => Ok (page_text l) | Err e => Err e end
      else Err (ToolExecution ((if String.eqb what "search" then "search" else "fetch") ++ " provider returned " ++ status_text resp))
  end.

Definition web_search (args : value) : result (string * list SearchResult) OmonError :=
  match Json.get "query" args ≫= as_str with
  | None => Err (ToolExecution "missing 'query'")
  | Some query =>
      let max_results := clamp 1 100 (default 20%N (Json.get "max_results" args ≫= as_u64)) in
      match fetched "search" ("https://html.duckduckgo.com/html/?q=" ++ url_encode query) MAX_SEARCH_CHARS with
      | Err e => Err e
      | Ok html =>
          match parse_results html (N.to_nat max_results) with
          | [] => Err (ToolExecution "search provider response contained no parseable results")
          | results => Ok (query, results)
          end
      end
  end.

(** The content; its length is counted from it. *)
Definition web_fetch (reader_prefix : option string) (args : value) : result (string * string) OmonError :=
  match Json.get "url" args ≫= as_str with
  | None => Err (ToolExecution "missing 'url'")
  | Some url =>
      let max_chars := clamp 1 1000000 (default 100000%N (Json.get "max_chars" args ≫= as_u64)) in
      match parse_url url with
      | Err e => Err (ToolExecution ("invalid URL: " ++ e))
      | Ok parsed =>
          if is_http (scheme parsed) then
            match fetched "fetch" (fetch_target_url parsed reader_prefix) max_chars with
            | Ok content => Ok (url, content)
            | Err e => Err e
            end
          else Err (ToolExecution "web fetch only supports http and https URLs")
      end
  end.
End Tools.

(** ** Reading does not depend on the chunks *)

Section Decoding.
Implicit Types (l : list ascii).
Local Notation concat := List.concat.

Lemma in_range_both b lo hi lo' hi' : in_range b lo hi = true -> in_range b lo' hi' = true -> (lo' <= hi)%N /\ (lo <= hi')%N.
Proof. unfold in_range. rewrite !andb_true_iff, !N.leb_le. lia. Qed.

Lemma followers_le b n lo hi : followers b = Some (n, lo, hi) -> 1 <= n <= 3.
Proof. unfold followers. repeat case_match; intros; simplify_eq; lia. Qed.

Lemma tail_valid n : forall d l v, tail_bytes n d l = Valid v -> v = d + n /\ n <= length l /\ forall b, tail_bytes n d (take n l ++ b) = Valid v.
Proof.
  induction n as [|n IH]; intros d l v E; simpl in *.
  - injection E as <-. split; [lia|]. split; [lia|done].
  - destruct l as [|c l]; [done|]. destruct (in_range c 128 191) eqn:Ec; [|done]. apply IH in E as (-> & Hl & Hb).
    simpl. split; [lia|]. split; [lia|]. intros b. by rewrite Ec.
Qed.

Lemma tail_invalid n : forall d l v, tail_bytes n d l = Invalid v -> d <= v < d + n /\ v < d + length l /\ forall b, tail_bytes n d (l ++ b) = Invalid v.
Proof.
  induction n as [|n IH]; intros d l v E; simpl in *; [done|].
  destruct l as [|c l]; [done|]. simpl. destruct (in_range c 128 191) eqn:Ec.
  - apply IH in E as (? & ? & Hb). split; [lia|]. split; [lia|done].
  - injection E as <-. split; [lia|]. split; [lia|done].
Qed.

Lemma head_valid l n : head_char l = Valid n -> 1 <= n <= length l /\ forall b, head_char (take n l ++ b) = Valid n.
Proof.
  unfold head_char. destruct l as [|b l]; [done|]. destruct (in_range b 0 127) eqn:Eb.
  { intros [= <-]. simpl. split; [lia|]. intros ?. by rewrite Eb. }
  destruct (followers b) as [[[k lo] hi]|] eqn:Ef; [|done]. apply followers_le in Ef as Hk.
  destruct l as [|c l]; [done|]. destruct (in_range c lo hi) eqn:Ec; [|done].
  intros E. apply tail_valid in E as (-> & Hl & Hb). simpl. split; [lia|]. intros b'. rewrite Eb, Ef. simpl. rewrite Ec. apply Hb.
Qed.

Lemma head_invalid l n : head_char l = Invalid n -> 1 <= n <= length l /\ forall b, head_char (l ++ b) = Invalid n.
Proof.
  unfold head_char. destruct l as [|b l]; [done|]. destruct (in_range b 0 127) eqn:Eb; [done|]. simpl. rewrite Eb.
  destruct (followers b) as [[[k lo] hi]|] eqn:Ef; [|intros [= <-]; split; [lia|done]]. apply followers_le in Ef as Hk.
  destruct l as [|c l]; [done|]. simpl. destruct (in_range c lo hi); [|intros [= <-]; split; [lia|done]].
  intros E. apply tail_invalid in E as (? & ? & Hb). split; [lia|done].
Qed.

Lemma head_valid_app l n b : head_char l = Valid n -> head_char (l ++ b) = Valid n.
Proof. intros E. apply head_valid in E as [_ Hb]. rewrite <- (take_drop n l) at 1. rewrite <- app_assoc. apply Hb. Qed.

(** What a text decodes to: its characters, with whether each was valid, and the
    beginning of a character at its end. *)
Fixpoint items (fuel : nat) l : list (list ascii * bool) * list ascii :=
  match fuel, l with
  | S fuel, _ :: _ =>
      match head_char l with
      | Valid n => let '(its, rest) := items fuel (drop n l) in ((take n l, true) :: its, rest)
      | Invalid n => let '(its, rest) := items fuel (drop n l) in ((REPLACEMENT, false) :: its, rest)
      | Incomplete => ([], l)
      end
  | _, _ => ([], l)
  end.
Definition decode l := items (length l) l.

Lemma items_fuel f : forall f' l, length l <= f -> length l <= f' -> items f l = items f' l.
Proof.
  induction f as [|f IH]; intros f' l Hf Hf'; [destruct l; [|simpl in Hf; lia]; by destruct f'|].
  destruct l as [|b l]; [by destruct f'|]. destruct f' as [|f']; [simpl in Hf'; lia|]. cbn [items].
  destruct (head_char (b :: l)) as [n|n|] eqn:E; [apply head_valid in E as [? _]|apply head_invalid in E as [? _]|done];
    (rewrite (IH f'); [done|rewrite length_drop; simpl in *; lia..]).
Qed.

Lemma decode_step l :
  decode l = match l with
             | [] => ([], [])
             | _ => match head_char l with
                    | Valid n => let '(its, rest) := decode (drop n l) in ((take n l, true) :: its, rest)
                    | Invalid n => let '(its, rest) := decode (drop n l) in ((REPLACEMENT, false) :: its, rest)
                    | Incomplete => ([], l)
                    end
             end.
Proof.
  unfold decode. destruct l as [|b l]; [done|]. cbn [items length].
  destruct (head_char (b :: l)) as [n|n|] eqn:E; [apply head_valid in E as [? _]|apply head_invalid in E as [? _]|done];
    (rewrite (items_fuel (length l) (length (drop n (b :: l)))); [done|rewrite length_drop; simpl in *; lia..]).
Qed.

(** Induction along the decoding. *)
Lemma decode_ind (P : list ascii -> Prop) :
  P [] -> (forall l, l <> [] -> head_char l = Incomplete -> P l) ->
  (forall l n, head_char l = Valid n -> P (drop n l) -> P l) ->
  (forall l n, head_char l = Invalid n -> P (drop n l) -> P l) -> forall l, P l.
Proof.
  intros H0 Hi Hv Hn l. remember (length l) as k eqn:Ek. revert l Ek.
  induction k as [k IH] using lt_wf_ind. intros l ->. destruct l as [|b l]; [done|].
  destruct (head_char (b :: l)) as [n|n|] eqn:E; [|  |by apply Hi].
  - apply (Hv _ n); [done|]. apply head_valid in E as [? _]. eapply IH; [|reflexivity]. rewrite length_drop. simpl in *. lia.
  - apply (Hn _ n); [done|]. apply head_invalid in E as [? _]. eapply IH; [|reflexivity]. rewrite length_drop. simpl in *. lia.
Qed.

Lemma decode_app l b :
  decode (l ++ b) = ((decode l).1 ++ (decode ((decode l).2 ++ b)).1, (decode ((decode l).2 ++ b)).2)%list.
Proof.
  induction l as [|l Hl E|l n E IH|l n E IH] using decode_ind.
  - simpl. by destruct (decode b).
  - rewrite (decode_step l). destruct l; [done|]. rewrite E. simpl. by destruct (decode _).
  - rewrite (decode_step l), (decode_step (l ++ b)). apply (head_valid_app _ _ b) in E as E'. destruct l as [|c l]; [done|].
    rewrite E. change ((c :: l) ++ b)%list with (c :: (l ++ b))%list in *. rewrite E'.
    apply head_valid in E as [Hn _]. change (c :: (l ++ b))%list with ((c :: l) ++ b)%list.
    rewrite take_app_le, drop_app_le, IH by lia. destruct (decode (drop n (c :: l))) as [its rest]. simpl. by destruct (decode (rest ++ b)).
  - rewrite (decode_step l), (decode_step (l ++ b)). apply head_invalid in E as E'. destruct E' as [Hn E']. specialize (E' b).
    destruct l as [|c l]; [done|]. rewrite E. change ((c :: l) ++ b)%list with (c :: (l ++ b))%list in *. rewrite E'.
    change (c :: (l ++ b))%list with ((c :: l) ++ b)%list.
    rewrite drop_app_le, IH by lia. destruct (decode (drop n (c :: l))) as [its rest]. simpl. by destruct (decode (rest ++ b)).
Qed.

Lemma decode_rest l : decode (decode l).2 = ([], (decode l).2).
Proof.
  induction l as [|l Hl E|l n E IH|l n E IH] using decode_ind; [done|..].
  - rewrite (decode_step l). destruct l; [done|]. rewrite E. cbn [snd]. rewrite decode_step. by rewrite E.
  - rewrite (decode_step l). destruct l; [done|]. rewrite E. destruct (decode (drop n _)) as [its rest]. exact IH.
  - rewrite (decode_step l). destruct l; [done|]. rewrite E. destruct (decode (drop n _)) as [its rest]. exact IH.
Qed.

(** *** [from_utf8] and [push_chars] along the decoding *)

(** The valid characters a text begins with, then what follows. *)
Inductive run_of : list ascii -> list (list ascii) -> list ascii -> Prop :=
| run_stop l : (forall n, head_char l <> Valid n) -> run_of l [] l
| run_char l n cs rest : head_char l = Valid n -> run_of (drop n l) cs rest -> run_of l (take n l :: cs) rest.

Lemma run_exists l : exists cs rest, run_of l cs rest.
Proof.
  induction l as [|l Hl E|l n E IH|l n E IH] using decode_ind.
  - exists [], []. by constructor.
  - exists [], l. constructor. intros n. congruence.
  - destruct IH as (cs & rest & Hr). exists (take n l :: cs), rest. by apply run_char.
  - exists [], l. constructor. intros m. congruence.
Qed.

Lemma run_concat l cs rest : run_of l cs rest -> l = (concat cs ++ rest)%list.
Proof. induction 1 as [|l n cs rest E Hr IH]; [done|]. simpl. rewrite <- app_assoc, <- IH. by rewrite take_drop. Qed.

Lemma run_from_utf8 l cs rest : run_of l cs rest -> forall f i, length l <= f ->
  from_utf8_at f i l = match rest with
                       | [] => Utf8Ok
                       | _ => Utf8Error (i + length (concat cs)) (match head_char rest with Invalid n => Some n | _ => None end)
                       end.
Proof.
  induction 1 as [l Hn|l n cs rest E Hr IH]; intros f i Hf.
  - destruct l as [|b l]; [by destruct f|]. destruct f as [|f]; [simpl in Hf; lia|]. cbn [from_utf8_at concat length]. rewrite Nat.add_0_r.
    destruct (head_char (b :: l)) as [n|n|] eqn:E; [by destruct (Hn n)|done|done].
  - apply head_valid in E as Hl. destruct Hl as [Hl _]. destruct l as [|b l]; [simpl in Hl; lia|]. destruct f as [|f]; [simpl in Hf; lia|].
    cbn [from_utf8_at]. rewrite E, IH by (rewrite length_drop; simpl in *; lia).
    cbn [concat]. rewrite length_app, length_take. destruct rest; [done|]. f_equal. simpl in *. lia.
Qed.

Lemma run_push l cs rest : run_of l cs rest -> forall f r, length (concat cs) <= f ->
  push_chars f (concat cs) r =
    (length (concat (take (N.to_nat (remaining r)) cs)),
     mkReading (out r ++ take (N.to_nat (remaining r)) cs) (remaining r - N.of_nat (length cs))).
Proof.
  induction 1 as [l Hn|l n cs rest E Hr IH]; intros f r Hf.
  - rewrite take_nil, app_nil_r. simpl. destruct r as [o m]. simpl. rewrite N.sub_0_r. by destruct f.
  - apply head_valid in E as Hl. destruct Hl as [Hl Hh]. cbn [concat] in *.
    assert (length (take n l) = n) as Ht by (rewrite length_take; lia). rewrite length_app, Ht in Hf.
    destruct f as [|f]; [lia|].
    destruct (take n l ++ concat cs)%list as [|b t] eqn:Et; [apply (f_equal length) in Et; rewrite length_app, Ht in Et; simpl in Et; lia|].
    cbn [push_chars]. unfold is_full. destruct (N.eqb_spec (remaining r) 0) as [E0|E0].
    { rewrite E0. simpl. destruct r as [o m]. simpl in *. subst m. by rewrite app_nil_r. }
    rewrite <- Et, Hh, take_app_length', drop_app_length' by done. rewrite IH by lia. unfold push, usize_pred. cbn [remaining out].
    rewrite (proj2 (N.eqb_neq _ _) E0).
    assert (N.to_nat (remaining r) = S (N.to_nat (N.pred (remaining r)))) as -> by lia. cbn [take concat length].
    rewrite length_app, Ht, <- app_assoc. f_equal. f_equal. lia.
Qed.

Lemma run_decode l cs rest : run_of l cs rest -> decode l = (map (fun c => (c, true)) cs ++ (decode rest).1, (decode rest).2)%list.
Proof.
  induction 1 as [l Hn|l n cs rest E Hr IH]; [simpl; by destruct (decode l)|].
  rewrite decode_step. apply head_valid in E as Hl. destruct Hl as [Hl _]. destruct l as [|b l]; [simpl in Hl; lia|]. rewrite E, IH. done.
Qed.

Lemma run_end l cs rest : run_of l cs rest -> Forall (fun c => 1 <= length c) cs /\ forall n, head_char rest <> Valid n.
Proof.
  induction 1 as [l Hn|l n cs rest E Hr [IH1 IH2]]; [by split; [constructor|]|]. split; [|done]. constructor; [|done].
  apply head_valid in E as [Hn _]. rewrite length_take. lia.
Qed.

Lemma concat_take_lt {A} (cs : list (list A)) R : Forall (fun c => 1 <= length c) cs ->
  (length (concat (take R cs)) <? length (concat cs))%nat = (R <? length cs)%nat.
Proof.
  intros Hc. revert R. induction Hc as [|c cs Hc Hcs IH]; intros [|R]; cbn [take List.concat length]; [done..| |].
  - rewrite length_app. destruct (Nat.ltb_spec 0 (length c + length (concat cs))); [done|lia].
  - rewrite !length_app. specialize (IH R). destruct (Nat.ltb_spec (length (concat (take R cs))) (length (concat cs))),
      (Nat.ltb_spec R (length cs)); try done;
      destruct (Nat.ltb_spec (length c + length (concat (take R cs))) (length c + length (concat cs))), (Nat.ltb_spec (S R) (S (length cs))); done || lia.
Qed.

Lemma push_decoded_spec f : forall pending r, length pending < f ->
  (forall c, (decode pending).1 !! N.to_nat (remaining r) <> Some (c, false)) ->
  exists left, push_decoded f pending r =
    (left, mkReading (out r ++ take (N.to_nat (remaining r)) (map fst (decode pending).1))
             (remaining r - N.of_nat (length (decode pending).1))) /\
    (length (decode pending).1 < N.to_nat (remaining r) -> left = (decode pending).2).
Proof.
  induction f as [|f IH]; intros pending r Hf Hok; [lia|]. destruct r as [o m]. cbn [remaining out] in *.
  destruct pending as [|b t]; [simpl; exists []; split; [|done]; by rewrite take_nil, app_nil_r, N.sub_0_r|].
  cbn [push_decoded]. unfold is_full. cbn [remaining]. destruct (N.eqb_spec m 0) as [->|Hm].
  { eexists. split; [|simpl; lia]. simpl. by rewrite app_nil_r. }
  set (pending := b :: t) in *. destruct (run_exists pending) as (cs & rest & Hrun).
  apply run_decode in Hrun as Hd. apply run_concat in Hrun as Hcat. apply run_end in Hrun as He. destruct He as [Hne Hend].
  unfold from_utf8. rewrite (run_from_utf8 _ _ _ Hrun _ 0) by done.
  pose proof (fun g Hg => run_push _ _ _ Hrun g (mkReading o m) Hg) as Hpush. cbn [out remaining] in Hpush.
  set (R := N.to_nat m) in *. rewrite Hd in Hok |- *. cbn [fst snd] in *.
  destruct rest as [|c rest'] eqn:Er.
  - rewrite app_nil_r in Hcat. change (decode []) with (@nil (list ascii * bool), @nil ascii). cbn [fst snd].
    rewrite <- Hcat in Hpush. rewrite Hpush by done. rewrite app_nil_r, map_map, map_id, length_map.
    eexists. split; [reflexivity|]. intros Hl. rewrite take_ge by lia. by rewrite <- Hcat, drop_all.
  - rewrite <- Er in *.
    cbn [plus]. assert (take (length (concat cs)) pending = concat cs) as -> by (rewrite Hcat; apply take_app_length).
    rewrite Hpush by done. rewrite concat_take_lt by done. destruct (Nat.ltb_spec R (length cs)) as [Hlt|Hge].
    { eexists. split; [|rewrite length_app, length_map; lia]. f_equal. rewrite map_app, map_map, map_id, length_app, length_map.
      rewrite take_app_le by lia. f_equal. lia. }
    rewrite (take_ge cs) by done.
    assert (drop (length (concat cs)) pending = rest) as -> by (rewrite Hcat; apply drop_app_length).
    assert (forall k : list (list ascii * bool), (map (fun c => (c, true)) cs ++ k)%list !! R = k !! (R - length cs)) as Hlook.
    { intros k. rewrite lookup_app_r by (by rewrite length_map). by rewrite length_map. }
    destruct (head_char rest) as [n|n|] eqn:Eh; [by destruct (Hend n)| |].
    + assert (decode rest = ((REPLACEMENT, false) :: (decode (drop n rest)).1, (decode (drop n rest)).2)) as Hdr.
      { rewrite decode_step, Eh, Er, <- Er. by destruct (decode (drop n rest)). }
      rewrite Hdr in *. cbn [fst snd] in *. rewrite Hlook in Hok.
      destruct (R - length cs) as [|k] eqn:Ek; [by destruct (Hok REPLACEMENT)|].
      unfold push, usize_pred. cbn [remaining out]. destruct (N.eqb_spec (m - N.of_nat (length cs)) 0); [lia|].
      apply head_invalid in Eh as [Hn _]. apply (f_equal length) in Hcat as Hlen. rewrite length_app in Hlen.
      destruct (IH (drop n rest) (mkReading ((o ++ cs) ++ [REPLACEMENT]) (N.pred (m - N.of_nat (length cs))))) as (left & E & Hleft).
      { rewrite length_drop. lia. }
      { cbn [remaining]. intros x. replace (N.to_nat _) with k by lia. exact (Hok x). }
      cbn [out remaining] in *. exists left. rewrite E. split.
      * f_equal. f_equal.
        -- rewrite map_app, map_map, map_id, take_app_ge, Ek by done. cbn [map fst take]. rewrite <- !app_assoc. cbn [app].
           by replace (N.to_nat (N.pred (m - N.of_nat (length cs)))) with k by lia.
        -- rewrite length_app, length_map. cbn [length]. lia.
      * rewrite length_app, length_map. cbn [length]. intros Hl. apply Hleft. lia.
    + assert (decode rest = ([], rest)) as Hdr by (rewrite decode_step, Eh, Er; done).
      rewrite Hdr in *. cbn [fst snd]. rewrite app_nil_r, length_map, map_map, map_id. exists rest. by rewrite take_ge.
Qed.

(** All of a text, the cut character at its end replaced. *)
Definition lossy l : list (list ascii) :=
  (map fst (decode l).1 ++ match (decode l).2 with [] => [] | _ => [REPLACEMENT] end)%list.

Lemma lookup_prefix {A} (a b : list A) i x : a !! i = Some x -> (a ++ b)%list !! i = Some x.
Proof. intros E. by apply lookup_app_l_Some. Qed.

Lemma read_stream_spec max chunks : forall seen,
  (forall c, (decode (seen ++ concat chunks)).1 !! N.to_nat max <> Some (c, false)) ->
  length (decode seen).1 < N.to_nat max \/ True ->
  let its := (decode seen).1 in
  read_stream (map Ok chunks) (decode seen).2 (mkReading (take (N.to_nat max) (map fst its)) (max - N.of_nat (length its))) =
  Ok (take (N.to_nat max) (lossy (seen ++ concat chunks))).
Proof.
  induction chunks as [|c chunks IH]; intros seen Hok _ its; cbn [map read_stream List.concat] in *; unfold is_full; cbn [remaining out].
  - rewrite app_nil_r in *. destruct (N.eqb_spec (max - N.of_nat (length its)) 0) as [E|E].
    { unfold lossy. rewrite take_app_le by (rewrite length_map; fold its; lia). done. }
    unfold lossy. fold its. destruct (decode seen).2 as [|b t] eqn:Er; [by rewrite app_nil_r|].
    rewrite !(take_ge (map fst its ++ _)), take_ge by (rewrite ?length_app, length_map; simpl; lia). done.
  - destruct (N.eqb_spec (max - N.of_nat (length its)) 0) as [E|E].
    { unfold lossy. rewrite decode_app. cbn [fst snd]. fold its. rewrite map_app, <- app_assoc, take_app_le by (rewrite length_map; lia). done. }
    pose proof (decode_app seen c) as Hc. fold its in Hc.
    destruct (push_decoded_spec (S (length ((decode seen).2 ++ c))) ((decode seen).2 ++ c)
      (mkReading (take (N.to_nat max) (map fst its)) (max - N.of_nat (length its)))) as (left & Ep & Hleft); [lia| |].
    { cbn [remaining]. intros x Hx. apply (Hok x). rewrite app_assoc, decode_app, Hc. cbn [fst].
      apply lookup_prefix. rewrite lookup_app_r by lia. by replace (N.to_nat max - length its) with (N.to_nat (max - N.of_nat (length its))) by lia. }
    rewrite Ep. cbn [remaining out] in *. rewrite app_assoc in *. rewrite <- (IH (seen ++ c)%list); [|done|by right].
    rewrite Hc. cbn [fst snd]. rewrite length_app, map_app.
    set (its' := (decode ((decode seen).2 ++ c)).1) in *.
    assert (take (N.to_nat max) (map fst its) ++ take (N.to_nat (max - N.of_nat (length its))) (map fst its')
            = take (N.to_nat max) (map fst its ++ map fst its'))%list as ->.
    { rewrite (take_app_ge (map fst its)), (take_ge (map fst its)) by (rewrite length_map; lia). rewrite length_map. do 2 f_equal. lia. }
    replace (max - N.of_nat (length its) - N.of_nat (length its'))%N with (max - N.of_nat (length its + length its'))%N by lia.
    destruct (Nat.ltb_spec (length its') (N.to_nat (max - N.of_nat (length its)))) as [Hl|Hl]; [by rewrite Hleft|].
    destruct chunks as [|d chunks]; cbn [map read_stream]; unfold is_full; cbn [remaining];
      by destruct (N.eqb_spec (max - N.of_nat (length its + length its')) 0); [|lia].
Qed.

(** C24: a body is read the same however it is cut: unless the first character that
    does not fit is an invalid sequence, what is read of any chunks is the
    beginning of the whole body decoded at once, every invalid sequence and a
    character cut by the end replaced. *)
Theorem reading_independent_of_chunks (chunks : list (list ascii)) (max : N) :
  (forall c, (decode (concat chunks)).1 !! N.to_nat max <> Some (c, false)) ->
  read_bounded_text (map Ok chunks) max = Ok (take (N.to_nat max) (lossy (concat chunks))).
Proof.
  intros Hok. pose proof (read_stream_spec max chunks [] Hok (or_intror I)) as E. cbv zeta in E. simpl in E.
  unfold read_bounded_text. by rewrite take_nil, N.sub_0_r in E.
Qed.
End Decoding.

(** ** Concrete bodies *)

Definition bytes_of (l : list N) : list ascii := map ascii_of_N l.

(** "€" cut between two chunks, then a byte that is no character. *)
Lemma reading_independent_of_chunks_witness :
  (forall c, (decode (bytes_of [226; 130; 172; 255; 97]%N)).1 !! 3 <> Some (c, false)) /\
  read_bounded_text [Ok (bytes_of [226; 130]%N); Ok (bytes_of [172; 255; 97]%N)] 3 =
    Ok [bytes_of [226; 130; 172]%N; REPLACEMENT; bytes_of [97]%N].
Proof.
  split; [vm_compute; discriminate|].
  apply (reading_independent_of_chunks [bytes_of [226; 130]%N; bytes_of [172; 255; 97]%N] 3). vm_compute. discriminate.
Defined.

(** Room for one character, then an invalid byte: the counter wraps and the
    rest is read without a bound. *)
Theorem full_reading_wraps :
  read_bounded_text [Ok (bytes_of [97; 255; 98; 99; 100]%N)] 1 =
    Ok [bytes_of [97]%N; REPLACEMENT; bytes_of [98]%N; bytes_of [99]%N; bytes_of [100]%N].
Proof. vm_compute. reflexivity. Qed.

(** The double replacement of entities: "&amp;lt;" is the text "&lt;", read as "<". *)
Lemma entities_decoded_twice : clean_html "&amp;lt;b&amp;gt;" = "<b>".
Proof. vm_compute. reflexivity. Qed.
