(* ===== verification/Attachments.v ===== *)
(** * Attachments (src/discord/attachments.rs)

    Downloading the attachments of a message into a cache under the workspace:
    the name of the cached file, the checks of sizes and places, the download
    that appears under its name only when it is whole; and what is made of it
    (a transcript, the text itself).  The cache is a directory of [Files]: each
    call of [tokio::fs] may fail, and what is no regular file counts as a
    directory.  What the cache's own path resolves to, the HTTP answer and the
    transcriber are arguments. *)
From stdpp Require Import base list strings gmap.
From Stdlib Require Import ZArith NArith Lia Ascii String.
From S2P Require Import Prelude RustStr Db Events Files Shell Outgoing Web.
Open Scope string_scope.
Open Scope db_scope.
Local Notation length := Datatypes.length.
Local Notation trim := RustStr.trim.
Local Notation ends_with := Events.ends_with.

Definition DISCORD_ATTACHMENT_MAX_BYTES : N := (25 * 1024 * 1024)%N.
Definition MAX_INLINED_ATTACHMENT_BYTES : N := (100 * 1024)%N.
Definition ATTACHMENT_DIR : string := ".discord-attachments".

Definition attachment_error (message : string) : OmonError := Config ("Discord attachment error: " ++ message).

(** ** Kinds *)

(** Little-endian integers. *)
Definition u16_le (a b : ascii) : N := (N_of_ascii a + 256 * N_of_ascii b)%N.
Definition i16_le (a b : ascii) : Z :=
  let n := Z.of_N (u16_le a b) in if (n <? 32768)%Z then n else (n - 65536)%Z.
Definition u32_le (a b c d : ascii) : N := (u16_le a b + 65536 * u16_le c d)%N.

Definition tag (s : string) (l : list ascii) : bool := bool_decide (l = list_ascii_of_string s).

(** [as_chunks::<2>().0]. *)
Fixpoint samples_of (l : list ascii) : list Z :=
  match l with a :: b :: rest => i16_le a b :: samples_of rest | _ => [] end.

Record Wav : Type := mkWav { wav_channels : N; wav_rate : N; wav_pcm : list Z }.

Definition wav_chunk (id data : list ascii) (w : Wav) : Wav :=
  if tag "fmt " id && (16 <=? length data)%nat then
    match data with
    | _ :: _ :: c0 :: c1 :: r0 :: r1 :: r2 :: r3 :: _ => mkWav (u16_le c0 c1) (u32_le r0 r1 r2 r3) (wav_pcm w)
    | _ => w
    end
  else if tag "data" id then mkWav (wav_channels w) (wav_rate w) (wav_pcm w ++ samples_of data)
  else w.

(** The loop over the chunks, each of at least eight bytes. *)
Fixpoint wav_chunks (fuel : nat) (l : list ascii) (w : Wav) : Wav :=
  match fuel, l with
  | S fuel, i0 :: i1 :: i2 :: i3 :: s0 :: s1 :: s2 :: s3 :: rest =>
      let size := N.to_nat (u32_le s0 s1 s2 s3) in
      if (length rest <? size)%nat then w
      else wav_chunks fuel (drop size rest) (wav_chunk [i0; i1; i2; i3] (take size rest) w)
  | _, _ => w
  end.

Definition decode_wav_pcm (bytes : list ascii) : option (N * N * list Z) :=
  if (length bytes <? 44)%nat || negb (tag "RIFF" (take 4 bytes)) || negb (tag "WAVE" (take 4 (drop 8 bytes))) then None
  else
    let w := wav_chunks (length bytes) (drop 12 bytes) (mkWav 1 16000 []) in
    match wav_pcm w with [] => None | pcm => Some (wav_rate w, wav_channels w, pcm) end.

(** [ct.to_ascii_lowercase().split(';').next()], trimmed. *)
Definition mime_of (content_type : string) : string :=
  trim (default "" (head (split_char ";" (to_ascii_lowercase content_type)))).

Definition contains_any (words : list string) (s : string) : bool := existsb (fun w => contains w s) words.
Definition ends_any (suffixes : list string) (s : string) : bool := existsb (fun x => ends_with x s) suffixes.
Definition is_any (words : list string) (s : string) : bool := existsb (String.eqb s) words.

Definition is_voice_attachment (filename : string) (content_type : option string) (waveform_present is_voice_flag : bool) : bool :=
  let lower := to_ascii_lowercase filename in
  is_voice_flag || waveform_present ||
  match content_type with
  | Some ct =>
      starts_with "audio/" (mime_of ct) &&
      (contains_any ["voice-message"; "voice_message"] lower || ends_any [".ogg"; ".opus"; ".wav"] lower)
  | None => false
  end ||
  contains_any ["voice-message"; "voice_message"] lower || ends_any [".ogg"; ".opus"] lower.

Definition TEXT_MIMES : list string :=
  ["application/json"; "application/xml"; "application/javascript"; "application/x-javascript"; "application/typescript";
   "application/x-typescript"; "application/x-sh"; "application/x-bash"; "application/x-shellscript"; "application/x-yaml";
   "application/yaml"; "application/x-toml"; "application/toml"; "application/sql"; "application/graphql"; "application/x-httpd-php"].
Definition TEXT_EXTENSIONS : list string :=
  ["txt"; "md"; "markdown"; "csv"; "tsv"; "log"; "json"; "jsonl"; "ndjson"; "xml"; "yaml"; "yml"; "toml"; "ini"; "cfg"; "conf";
   "env"; "properties"; "html"; "htm"; "css"; "scss"; "sass"; "less"; "py"; "pyi"; "js"; "mjs"; "cjs"; "ts"; "tsx"; "jsx"; "sh";
   "bash"; "zsh"; "fish"; "ps1"; "bat"; "c"; "h"; "cpp"; "cc"; "hpp"; "cs"; "java"; "kt"; "go"; "rs"; "rb"; "php"; "pl"; "lua"; "r";
   "jl"; "swift"; "m"; "scala"; "clj"; "ex"; "exs"; "erl"; "sql"; "graphql"; "proto"; "tf"; "hcl"; "dockerfile"; "makefile"; "cmake";
   "gradle"; "rst"; "tex"; "srt"; "vtt"; "diff"; "patch"].
Definition TEXT_NAMES : list string :=
  ["dockerfile"; "makefile"; "gemfile"; "licence"; "license"; ".env"; ".gitignore"; "cargo.lock"].

(** The text after the last dot of a file name that does not begin with it. *)
Definition extension_of (name : string) : option string :=
  match rev (split_char "." name) with
  | last :: ((_ :: _) as before) => if bool_decide (before = [""]) then None else Some last
  | _ => None
  end.

Definition is_text_attachment (filename : string) (content_type : option string) : bool :=
  let name := file_name filename in
  match content_type with
  | Some ct =>
      let mime := mime_of ct in
      starts_with "text/" mime || is_any TEXT_MIMES mime || ends_any ["+json"; "+xml"; "+yaml"] mime
  | None => false
  end ||
  match name ≫= extension_of with Some e => is_any TEXT_EXTENSIONS (to_ascii_lowercase e) | None => false end ||
  match name with Some n => is_any TEXT_NAMES (to_ascii_lowercase n) | None => false end.

(** ** Names in the cache *)

Definition is_alphanumeric (c : ascii) : bool := in_range c 48 57 || in_range c 65 90 || in_range c 97 122.
Definition safe_byte (c : ascii) : bool := is_alphanumeric c || Ascii.eqb c "." || Ascii.eqb c "-" || Ascii.eqb c "_".
Definition safe_char (c : string) : bool := match c with String b "" => safe_byte b | _ => false end.

Definition sanitize_component (v fallback : string) : string :=
  let sanitized := of_chars (map (fun c => if safe_char c then c else "_") (RustStr.chars v)) in
  let trimmed := trim_end_matches "." (trim_start_matches "." sanitized) in
  if is_empty trimmed then fallback else trimmed.

(** The name under the cache's root; a name with a separator has another parent. *)
Definition target_path (a : MessageAttachment) : result string OmonError :=
  let name := sanitize_component (default "attachment" (file_name (filename a))) "attachment" in
  let target := sanitize_component (at_id a) "attachment" ++ "-" ++ name in
  if contains "/" target then Err (attachment_error "attachment path escapes workspace") else Ok target.

(** ** The download *)

Record HttpAnswer : Type := mkHttpAnswer {
  http_success : bool;
  http_status : string;
  content_length : option N;
  http_body : list (result string string)
}.

(** The cache: its directory and the workspace, resolved when it was opened. *)
Record Downloader : Type := mkDownloader { workspace_root : string; attachment_root : string }.

(** [Path::starts_with]: by components. *)
Definition path_within (root path : string) : bool :=
  bool_decide (take (length (components root)) (components path) = components root).

(** [with_client]: the workspace and the cache resolve to [workspace] and [cache]. *)
Definition with_client (workspace cache : result string string) : result Downloader OmonError :=
  match workspace, cache with
  | Ok w, Ok c =>
      if path_within w c then Ok (mkDownloader w c)
      else Err (attachment_error ("attachment cache escapes workspace: " ++ c))
  | Err e, _ => Err (attachment_error ("failed to resolve workspace: " ++ e))
  | _, Err e => Err (attachment_error ("failed to resolve attachment cache: " ++ e))
  end.

Section Download.
Context (d : Downloader).
(** What the cache's path resolves to now, the answer to a request, and fresh names. *)
Context (cache_now : result string string) (get_url : string -> result HttpAnswer string).
Notation Cache := (M Dir).

(** A call of [tokio::fs] whose error is reported. *)
Definition or_error {A} (what : string) (m : Cache (result A string)) : Cache A :=
  r <- m ;; match r with Ok a => ret a | Err e => fail (attachment_error (what ++ ": " ++ e)) end.

Definition verify_cache_root : Cache unit :=
  match cache_now with
  | Err e => fail (attachment_error ("failed to resolve attachment cache " ++ attachment_root d ++ ": " ++ e))
  | Ok root =>
      if negb (String.eqb root (attachment_root d)) || negb (path_within (workspace_root d) root)
      then fail (attachment_error ("attachment cache escapes workspace: " ++ root))
      else ret tt
  end.

(** A regular file directly in the cache resolves to itself. *)
Definition ensure_contained_file (name : string) : Cache unit :=
  or_error "failed to resolve cached attachment"
    (io (fun dir => (match dir !! name with Some _ => Ok tt | None => Err "No such file or directory" end, dir))).

Definition byte_len (s : string) : N := N.of_nat (len s).

Definition cached_path (name : string) (expected_size : option N) : Cache (option string) :=
  node <- or_error "failed to inspect cached attachment" (io (fun dir => (Ok (dir !! name), dir))) ;;
  match node with
  | None => ret None
  | Some Directory => fail (attachment_error "cached attachment is not a regular file")
  | Some (File content) =>
      if (DISCORD_ATTACHMENT_MAX_BYTES <? byte_len content)%N ||
         match expected_size with Some size => negb (byte_len content =? size)%N | None => false end
      then or_error "failed to replace stale attachment cache" (remove_file name) ;;; ret None
      else ensure_contained_file name ;;; ret (Some name)
  end.

(** [create_new]: only if there is nothing under the name. *)
Definition create_new (name : string) : Cache (result unit string) :=
  io (fun dir => match dir !! name with
                 | Some _ => (Err "File exists", dir)
                 | None => (Ok tt, <[name := File ""]> dir)
                 end).
(** [write_all] to the open file; one that fails may leave anything in it: the
    file as it was stands for that, its content is not read again. *)
Definition append (name content : string) : Cache (result unit string) :=
  io (fun dir => (Ok tt, match dir !! name with
                         | Some (File old) => <[name := File (old ++ content)]> dir
                         | _ => dir
                         end)).

Fixpoint stream_chunks (name : string) (total : N) (chunks : list (result string string)) : Cache unit :=
  match chunks with
  | [] => ret tt
  | Err e :: _ => fail (attachment_error ("download stream failed: " ++ e))
  | Ok chunk :: rest =>
      let total := (total + byte_len chunk)%N in
      if (DISCORD_ATTACHMENT_MAX_BYTES <? total)%N then fail (attachment_error "attachment exceeds the 25 MB limit")
      else
        or_error "failed writing attachment cache file" (append name chunk) ;;;
        stream_chunks name total rest
  end.

Definition stream_to_file (chunks : list (result string string)) (name : string) : Cache unit :=
  or_error "failed to create attachment cache file" (create_new name) ;;;
  stream_chunks name 0 chunks ;;;
  or_error "failed flushing attachment cache file" (io (fun dir => (Ok tt, dir))).

Definition too_large (size : option N) : bool :=
  match size with Some n => (DISCORD_ATTACHMENT_MAX_BYTES <? n)%N | None => false end.

(** [let _ = remove_file(&temp).await], then the error. *)
Definition clean_up {A} (temp : string) (e : OmonError) : Cache A := remove_file temp ;;; fail e.

Definition part_name (uuid : string) : string := "." ++ uuid ++ ".part".

Definition download (uuid : string) (a : MessageAttachment) : Cache string :=
  let too_big := attachment_error ("attachment " ++ filename a ++ " exceeds the 25 MB limit") in
  if too_large (size_bytes a) then fail too_big
  else
    verify_cache_root ;;;
    target <- lift (target_path a) ;;
    cached <- cached_path target (size_bytes a) ;;
    match cached with
    | Some cached => ret cached
    | None =>
        match get_url (url a) with
        | Err e => fail (attachment_error ("download failed: " ++ e))
        | Ok response =>
            if negb (http_success response) then fail (attachment_error ("download returned HTTP " ++ http_status response ++ " for " ++ filename a))
            else if too_large (content_length response) then fail too_big
            else
              let temp := part_name uuid in
              streamed <- attempt (stream_to_file (http_body response) temp) ;;
              match streamed with
              | Err e => clean_up temp e
              | Ok _ =>
                  moved <- rename temp target ;;
                  match moved with
                  | Err e => clean_up temp (attachment_error ("failed to cache attachment: " ++ e))
                  | Ok _ => ensure_contained_file target ;;; ret target
                  end
              end
        end
    end.

(** ** What is made of it *)

Inductive AudioPayload : Type := Pcm (samples : list Z) | Opus (bytes : string).
Record AudioFrame : Type := mkFrame { sample_rate : N; channels : N; payload : AudioPayload }.

Definition opus_frame (bytes : string) : AudioFrame := mkFrame 48000 2 (Opus bytes).

Definition is_wav (a : MessageAttachment) (bytes : string) : bool :=
  let l := list_ascii_of_string bytes in
  ends_with ".wav" (to_ascii_lowercase (filename a)) ||
  match content_type a with Some ct => contains "wav" (to_ascii_lowercase ct) | None => false end ||
  ((12 <=? length l)%nat && tag "RIFF" (take 4 l) && tag "WAVE" (take 4 (drop 8 l))).

Definition frame_of (a : MessageAttachment) (bytes : string) : AudioFrame :=
  if is_wav a bytes then
    match decode_wav_pcm (list_ascii_of_string bytes) with
    | Some (rate, ch, pcm) => mkFrame rate ch (Pcm pcm)
    | None => opus_frame bytes
    end
  else opus_frame bytes.

Definition transcript_text (r : result string string) : string :=
  match r with
  | Ok transcript =>
      if is_empty (trim transcript) then "[Voice message: audio received (empty transcript)]"
      else "[Voice message transcription]: " ++ trim transcript
  | Err _ => "[Voice message: audio received (transcription unavailable)]"
  end.

Definition set_local_path (p : string) (a : MessageAttachment) : MessageAttachment :=
  mkAttachment (at_id a) (filename a) (url a) (content_type a) (size_bytes a) (Some p) (text_content a).
Definition set_text_content (t : string) (a : MessageAttachment) : MessageAttachment :=
  mkAttachment (at_id a) (filename a) (url a) (content_type a) (size_bytes a) (local_path a) (Some t).

(** [stt]: the transcriber, if there is one. *)
Definition hydrate (stt : option (AudioFrame -> result string string)) (uuid : string) (a : MessageAttachment) :
    Cache MessageAttachment :=
  path <- download uuid a ;;
  let a := set_local_path (attachment_root d ++ "/" ++ path) a in
  if is_voice_attachment (filename a) (content_type a) false false then
    match stt with
    | None => ret (set_text_content "[Voice message (audio downloaded)]" a)
    | Some transcribe =>
        bytes <- read_to_string path ;;
        match bytes with
        | Err _ => ret a
        | Ok bytes => ret (set_text_content (transcript_text (transcribe (frame_of a bytes))) a)
        end
    end
  else if is_text_attachment (filename a) (content_type a) && (default 0%N (size_bytes a) <=? MAX_INLINED_ATTACHMENT_BYTES)%N then
    size <- io (fun dir => (match dir !! path with Some (File c) => Ok (byte_len c) | Some Directory => Ok 0%N | None => Err "No such file or directory" end, dir)) ;;
    match size with
    | Err _ => ret a
    | Ok size =>
        if (size <=? MAX_INLINED_ATTACHMENT_BYTES)%N then
          bytes <- read_to_string path ;;
          match bytes with
          | Err _ => ret a
          | Ok bytes => ret (set_text_content (page_text (lossy (list_ascii_of_string bytes))) a)
          end
        else ret a
    end
  else ret a.
End Download.

(** ** Names stay in the cache *)

Lemma of_chars_bytes (p : ascii -> bool) l : Forall (fun c => all_bytes p c = true) l -> all_bytes p (of_chars l) = true.
Proof.
  induction 1 as [|c l Hc Hl IH]; [done|]. by rewrite of_chars_cons, all_bytes_app, Hc.
Qed.

Lemma all_bytes_list (p : ascii -> bool) s : all_bytes p s = forallb p (list_ascii_of_string s).
Proof. induction s as [|c s IH]; simpl; [done|]. by rewrite IH. Qed.

Lemma trim_start_bytes (p : ascii -> bool) c s : all_bytes p s = true -> all_bytes p (trim_start_matches c s) = true.
Proof. induction s as [|d s IH]; simpl; [done|]. intros Hs. apply andb_true_iff in Hs as [? Hs]. destruct (Ascii.eqb d c); [by apply IH|]. simpl. by rewrite Hs, H. Qed.

Lemma trim_end_bytes (p : ascii -> bool) c s : all_bytes p s = true -> all_bytes p (trim_end_matches c s) = true.
Proof.
  rewrite !all_bytes_list, !forallb_forall. unfold trim_end_matches. rewrite list_ascii_of_string_of_list_ascii. intros Hs x.
  rewrite <- in_rev. intros Hx. apply list_elem_of_In, drop_while_sub, list_elem_of_In, in_rev in Hx. by apply Hs.
Qed.

(** A string whose first byte is not a dot. *)
Definition undotted (s : string) : Prop := match s with String "." _ => False | _ => True end.

Lemma trim_start_undotted s : undotted (trim_start_matches "." s).
Proof.
  induction s as [|d s IH]; simpl; [done|]. destruct (Ascii.eqb_spec d ".") as [->|Hd]; [done|]. simpl.
  destruct d as [[|] [|] [|] [|] [|] [|] [|] [|]]; try done.
Qed.

Lemma trim_end_undotted s : undotted s -> undotted (trim_end_matches "." s).
Proof.
  unfold trim_end_matches. intros Hs. rewrite <- (string_of_list_ascii_of_string s) in Hs. set (l := list_ascii_of_string s) in *. clearbody l. clear s.
  assert (forall r, exists k, rev (drop_while (Ascii.eqb ".") r) = take k (rev r)) as Hk.
  { intros r. induction r as [|c r [k IH]]; [by exists 0|]. cbn [drop_while]. destruct (Ascii.eqb "." c).
    - exists (Nat.min k (length (rev r))). rewrite IH. cbn [rev]. rewrite take_app_le by lia.
      destruct (Nat.le_gt_cases k (length (rev r))); [by rewrite Nat.min_l|]. by rewrite Nat.min_r, !take_ge by lia.
    - exists (length (rev (c :: r))). by rewrite firstn_all. }
  destruct (Hk (rev l)) as [k ->]. rewrite rev_involutive.
  destruct l as [|c l], k as [|k]; done.
Qed.

Lemma sanitized_ok v : let s := sanitize_component v "attachment" in all_bytes safe_byte s = true /\ undotted s /\ s <> "".
Proof.
  unfold sanitize_component. set (chars := of_chars _). set (trimmed := trim_end_matches _ _). cbv zeta.
  destruct (is_empty trimmed) eqn:E; [done|]. split; [|split].
  - apply trim_end_bytes, trim_start_bytes, of_chars_bytes, Forall_forall. intros c (d & -> & _)%list_elem_of_fmap.
    destruct (safe_char d) eqn:Ed; [|done]. unfold safe_char in Ed. destruct d as [|b [|? ?]]; try done. simpl. by rewrite Ed.
  - apply trim_end_undotted, trim_start_undotted.
  - unfold is_empty in E. by apply String.eqb_neq.
Qed.

Lemma safe_no_slash s : all_bytes safe_byte s = true -> contains "/" s = false.
Proof.
  induction s as [|c s IH]; [done|]. intros Hs. cbn [all_bytes] in Hs. apply andb_true_iff in Hs as [Hc Hs].
  cbn [contains]. rewrite (IH Hs), orb_false_r. unfold starts_with. cbn [strip_prefix]. by destruct (Ascii.eqb_spec "/" c) as [<-|].
Qed.

Lemma cached_name_in_cache (a : MessageAttachment) (uuid : string) :
  exists t, target_path a = Ok t /\ all_bytes safe_byte t = true /\ undotted t /\ t <> "" /\ t <> part_name uuid.
Proof.
  unfold target_path. set (name := sanitize_component (default _ _) _).
  destruct (sanitized_ok (at_id a)) as (Hi & Hu & Hn). destruct (sanitized_ok (default "attachment" (file_name (filename a)))) as (Hs & _ & _). fold name in Hs.
  set (id := sanitize_component (at_id a) "attachment") in *.
  assert (all_bytes safe_byte (id ++ "-" ++ name) = true) as Ht by (by rewrite !all_bytes_app, Hi, Hs).
  rewrite (safe_no_slash _ Ht). eexists. split; [done|]. split; [done|].
  destruct id as [|c id]; [done|]. split; [by destruct c as [[|] [|] [|] [|] [|] [|] [|] [|]]|]. split; [done|].
  unfold part_name. intros [= -> _]. done.
Qed.

(** An attachment stays in the cache, whatever it calls itself: its name is
    made of letters, digits, dots, dashes and underscores, begins with no dot, is
    never refused and is never the name of a download in progress. *)
Theorem cached_name_safe (a : MessageAttachment) (uuid : string) :
  exists t, target_path a = Ok t /\ all_bytes safe_byte t = true /\ undotted t /\ t <> "" /\ t <> part_name uuid.
Proof. apply cached_name_in_cache. Qed.

(** ** Downloads appear whole *)

Lemma triple_io {A} (P E : Dir -> Prop) (f : Dir -> result A string * Dir) (Q : result A string -> Dir -> Prop) :
  (forall s m, P s -> Q (Err m) s) -> (forall s, P s -> Q (f s).1 (f s).2) -> triple P (io f) Q E.
Proof.
  intros Hm Hf w Hw. unfold io. destruct (faults w) as [|[m|] fs]; simpl; [|by apply Hm|]; specialize (Hf _ Hw); by destruct (f (st w)).
Qed.

Lemma triple_or_error {A} what (P E : Dir -> Prop) (m : M Dir (result A string)) (Q : A -> Dir -> Prop) :
  triple P m (fun r s => match r with Ok a => Q a s | Err _ => E s end) E -> triple P (or_error what m) Q E.
Proof. intros Hm. eapply triple_bind; [exact Hm|]. intros [a|e]; [by apply triple_ret|by apply triple_fail]. Qed.

Section Whole.
Context (d : Downloader) (cache_now : result string string) (get_url : string -> result HttpAnswer string).
Context (t temp : string) (D0 : Dir).

(** Every name but two is as it was. *)
Definition others (s : Dir) : Prop := forall n, n <> t -> n <> temp -> s !! n = D0 !! n.
Definition whole (chunks : list (result string string)) (content : string) : Prop :=
  exists l, chunks = map Ok l /\ content = of_chars l.

Lemma stream_chunks_spec chunks : t <> temp -> forall total old v,
  byte_len old = total -> (total <= DISCORD_ATTACHMENT_MAX_BYTES)%N ->
  triple (fun s => (others s /\ s !! t = v) /\ s !! temp = Some (File old)) (stream_chunks temp total chunks)
    (fun _ s => (others s /\ s !! t = v) /\ exists rest, s !! temp = Some (File (old ++ rest)) /\ whole chunks rest /\ (byte_len (old ++ rest) <= DISCORD_ATTACHMENT_MAX_BYTES)%N)
    (fun s => others s /\ s !! t = v).
Proof.
  intros Hne. induction chunks as [|[chunk|e] chunks IH]; intros total old v Ho Ht; cbn [stream_chunks].
  - apply triple_ret. intros s [Hs Hf]. split; [done|]. exists "". rewrite app_nil_r_str, Ho. split; [done|]. split; [by exists []|done].
  - destruct (N.ltb_spec DISCORD_ATTACHMENT_MAX_BYTES (total + byte_len chunk)) as [Hl|Hl]; [apply triple_fail; by intros s [? _]|].
    apply (triple_bind _ _ _ (fun _ s => (others s /\ s !! t = v) /\ s !! temp = Some (File (old ++ chunk)))).
    + apply triple_or_error, triple_io; [by intros s m [? _]|]. intros s [[Hs Hv] Hf]. simpl. rewrite Hf. split; [split|].
      * intros n H1 H2. rewrite lookup_insert_ne by done. by apply Hs.
      * by rewrite lookup_insert_ne.
      * by rewrite lookup_insert_eq.
    + intros _. eapply triple_weaken; [apply (IH (total + byte_len chunk)%N (old ++ chunk) v)|done| |done].
      * rewrite <- Ho. unfold byte_len. rewrite len_app. lia.
      * done.
      * intros ? s [Hs (rest & Hf & (l & -> & ->) & Hb)]. split; [done|]. exists (chunk ++ of_chars l). rewrite <- app_assoc_str.
        split; [done|]. split; [|done]. exists (chunk :: l). by rewrite of_chars_cons.
  - apply triple_fail. by intros s [? _].
Qed.

Lemma stream_spec chunks v : t <> temp ->
  triple (fun s => others s /\ s !! t = v) (stream_to_file chunks temp)
    (fun _ s => (others s /\ s !! t = v) /\ exists content, s !! temp = Some (File content) /\ whole chunks content /\ (byte_len content <= DISCORD_ATTACHMENT_MAX_BYTES)%N)
    (fun s => others s /\ s !! t = v).
Proof.
  intros Hne. unfold stream_to_file. apply (triple_bind _ _ _ (fun _ s => (others s /\ s !! t = v) /\ s !! temp = Some (File ""))).
  - apply triple_or_error, triple_io; [by intros s m ?|]. intros s [Hs Hv]. simpl. destruct (s !! temp) eqn:E; simpl; [done|]. split; [split|].
    + intros n H1 H2. rewrite lookup_insert_ne by done. by apply Hs.
    + by rewrite lookup_insert_ne.
    + by rewrite lookup_insert_eq.
  - intros _. eapply triple_bind; [by apply (stream_chunks_spec chunks Hne 0 "" v)|]. intros u. simpl.
    apply triple_or_error, triple_io; [by intros s m [? _]|]. intros s Hs. exact Hs.
Qed.

(** What stands under the target's name: what stood there, nothing, or the whole
    body of the answer. *)
Definition settled (a : MessageAttachment) (s : Dir) : Prop :=
  others s /\
  (s !! t = D0 !! t \/ s !! t = None \/
   exists response content, get_url (url a) = Ok response /\ http_success response = true /\ whole (http_body response) content /\
     (byte_len content <= DISCORD_ATTACHMENT_MAX_BYTES)%N /\ s !! t = Some (File content)).

Lemma others_temp s : t <> temp -> others s -> others (base.delete temp s).
Proof. intros Hne Hs n H1 H2. rewrite lookup_delete_ne by done. by apply Hs. Qed.

Lemma clean_up_spec {A} a e : t <> temp -> triple (settled a) (clean_up (A:=A) temp e) (fun _ _ => False) (settled a).
Proof.
  intros Hne. unfold clean_up. apply (triple_bind _ _ _ (fun _ => settled a)); [|intros ?; by apply triple_fail].
  apply triple_io; [done|]. intros s [Ho Hs]. simpl. destruct (s !! temp) as [[c|]|] eqn:E; simpl; try by split.
  split; [by apply others_temp|]. by rewrite lookup_delete_ne.
Qed.

Lemma cached_spec a :
  triple (fun s => s = D0) (cached_path t (size_bytes a))
    (fun r s => settled a s /\ (s !! t = D0 !! t \/ s !! t = None) /\ forall n, r = Some n -> n = t /\ s = D0 /\ exists content, D0 !! t = Some (File content) /\
       (byte_len content <= DISCORD_ATTACHMENT_MAX_BYTES)%N /\ forall k, size_bytes a = Some k -> k = byte_len content)
    (settled a).
Proof.
  assert (settled a D0) as H0 by (split; [by intros n|by left]).
  unfold cached_path. apply (triple_bind _ _ _ (fun node s => s = D0 /\ node = D0 !! t)).
  - apply triple_or_error, triple_io; [by intros s m ->|]. by intros s ->.
  - intros [[content|]|]; simpl.
    + destruct (_ || _) eqn:E.
      * apply (triple_bind _ _ _ (fun _ s => settled a s /\ (s !! t = D0 !! t \/ s !! t = None))).
        -- apply triple_or_error, triple_io; [by intros s m [-> _]|]. intros s [-> Hn]. simpl. rewrite <- Hn. simpl. split; [split|].
           ++ intros n H1 H2. by rewrite lookup_delete_ne.
           ++ right. left. by rewrite lookup_delete_eq.
           ++ right. by rewrite lookup_delete_eq.
        -- intros _. apply triple_ret. by intros s [Hs Ht].
      * apply (triple_bind _ _ _ (fun _ s => s = D0 /\ Some (File content) = D0 !! t)).
        -- apply triple_or_error, triple_io; [by intros s m [-> _]|]. intros s [-> Hn]. simpl. rewrite <- Hn. done.
        -- intros _. apply triple_ret. intros s [-> Hn]. split; [done|]. split; [by left|]. intros n [= <-]. split; [done|]. split; [done|]. exists content.
           apply orb_false_iff in E as [E1 E2]. apply N.ltb_ge in E1. split; [done|]. split; [done|]. intros k Hk. rewrite Hk in E2.
           apply negb_false_iff, N.eqb_eq in E2. done.
    + apply triple_fail. by intros s [-> _].
    + apply triple_ret. intros s [-> Hn]. split; [done|]. split; [by left|done].
Qed.

Lemma download_spec uuid a : temp = part_name uuid -> target_path a = Ok t -> t <> temp ->
  triple (fun s => s = D0) (download d cache_now get_url uuid a)
    (fun n s => settled a s /\ n = t /\ exists content, s !! t = Some (File content) /\ (byte_len content <= DISCORD_ATTACHMENT_MAX_BYTES)%N)
    (settled a).
Proof.
  intros Etemp Et Hne. assert (settled a D0) as H0 by (split; [by intros n|by left]).
  unfold download. destruct (too_large (size_bytes a)); [by apply triple_fail; intros s ->|].
  apply (triple_bind _ _ _ (fun _ s => s = D0)).
  { unfold verify_cache_root. destruct cache_now; [|by apply triple_fail; intros s ->]. destruct (_ || _); [by apply triple_fail; intros s ->|by apply triple_ret]. }
  intros _. apply triple_bind_lift; [by intros s ->|]. intros t' Ht'. rewrite Et in Ht'. injection Ht' as <-.
  eapply triple_bind; [apply cached_spec|]. intros [n|]; simpl.
  { apply triple_ret. intros s (Hs & _ & Hn). destruct (Hn n eq_refl) as (-> & -> & content & Hc & Hb & _). split; [done|]. split; [done|]. by exists content. }
  destruct (get_url (url a)) as [response|] eqn:Eg; [|apply triple_fail; by intros s [? _]].
  destruct (http_success response) eqn:Esucc; [|apply triple_fail; by intros s [? _]]. cbn [negb].
  destruct (too_large (content_length response)); [apply triple_fail; by intros s [? _]|]. rewrite <- Etemp. clear Etemp uuid.
  apply (triple_weaken (fun s => exists v, (others s /\ s !! t = v) /\ (v = D0 !! t \/ v = None)) _ _
    (fun n s => settled a s /\ n = t /\ exists content, s !! t = Some (File content) /\ (byte_len content <= DISCORD_ATTACHMENT_MAX_BYTES)%N) _ (settled a));
    [|intros s ([Ho _] & Hv & _); by exists (s !! t)|done..].
  apply triple_exists. intros v. apply triple_pure. intros Hv.
  assert (forall s, others s /\ s !! t = v -> settled a s) as Hset by (intros s [Ho <-]; split; [done|]; tauto).
  eapply (triple_bind _ _ _ (fun r s => match r with
      | Ok _ => (others s /\ s !! t = v) /\ exists content, s !! temp = Some (File content) /\ whole (http_body response) content /\ (byte_len content <= DISCORD_ATTACHMENT_MAX_BYTES)%N
      | Err _ => others s /\ s !! t = v end)).
  { apply (triple_attempt _ _ (fun _ s => (others s /\ s !! t = v) /\ exists content, s !! temp = Some (File content) /\ whole (http_body response) content /\ (byte_len content <= DISCORD_ATTACHMENT_MAX_BYTES)%N)). by apply stream_spec. }
  intros [u|e]; [|eapply triple_weaken; [by apply (clean_up_spec a e)|exact Hset|done|done]].
  apply (triple_bind _ _ _ (fun r s => settled a s /\ match r with
      | Ok _ => exists content, s !! t = Some (File content) /\ (byte_len content <= DISCORD_ATTACHMENT_MAX_BYTES)%N | Err _ => True end)).
  { unfold rename. apply triple_io; [by intros s m [Hs _]; split; [by apply Hset|]|]. intros s [[Ho Hsv] (content & Hc & Hw & Hb)]. simpl. rewrite Hc.
    assert (settled a (<[t := File content]> (base.delete temp s)) /\ exists c, <[t := File content]> (base.delete temp s) !! t = Some (File c) /\ (byte_len c <= DISCORD_ATTACHMENT_MAX_BYTES)%N) as Hmoved.
    { split; [|exists content; by rewrite lookup_insert_eq]. split.
      - intros n H1 H2. rewrite lookup_insert_ne by done. rewrite lookup_delete_ne by done. by apply Ho.
      - right. right. exists response, content. by rewrite lookup_insert_eq. }
    destruct (s !! t) as [[|]|] eqn:Est; simpl; try exact Hmoved. split; [|done]. apply Hset. by rewrite Est. }
  intros [u'|e]; [|eapply triple_weaken; [by apply (clean_up_spec a)|by intros s [? _]|done|done]].
  apply (triple_bind _ _ _ (fun _ s => settled a s /\ exists content, s !! t = Some (File content) /\ (byte_len content <= DISCORD_ATTACHMENT_MAX_BYTES)%N)).
  { apply triple_or_error, triple_io; [by intros s m [? _]|]. intros s (Hs & content & Hc & Hb). simpl. rewrite Hc. simpl. split; [done|]. by exists content. }
  intros _. apply triple_ret. by intros s (Hs & Hc).
Qed.
End Whole.

(** A download appears whole or not at all: whatever the answer, whatever call
    fails and whenever, under the attachment's name there is what was there,
    nothing, or the whole body of a successful answer of at most 25 MB; no other
    name is touched but the temporary one; and the name is returned only with a
    file of at most 25 MB under it. *)
Theorem download_all_or_nothing (d : Downloader) (cache_now : result string string) (get_url : string -> result HttpAnswer string)
    (uuid : string) (a : MessageAttachment) (w : world Dir) :
  let '(r, w') := download d cache_now get_url uuid a w in
  exists t, target_path a = Ok t /\ settled get_url t (part_name uuid) (st w) a (st w') /\
    forall n, r = Ok n -> n = t /\ exists content, st w' !! t = Some (File content) /\ (byte_len content <= DISCORD_ATTACHMENT_MAX_BYTES)%N.
Proof.
  destruct (cached_name_in_cache a uuid) as (t & Et & _ & _ & _ & Hne).
  pose proof (download_spec d cache_now get_url t (part_name uuid) (st w) uuid a eq_refl Et Hne w eq_refl) as Hd.
  destruct (download _ _ _ _ _ w) as [[n|e] w']; exists t; (split; [done|]); [|by split].
  destruct Hd as (Hs & -> & Hc). split; [done|]. by intros n [= <-].
Qed.

(** ** A WAV file is read back *)

Definition le16 (n : N) : list ascii := [ascii_of_N (n mod 256); ascii_of_N (n / 256)].
Definition le32 (n : N) : list ascii := (le16 (n mod 65536) ++ le16 (n / 65536))%list.
Definition i16_bytes (z : Z) : list ascii := le16 (Z.to_N (if (z <? 0)%Z then z + 65536 else z)).
Definition bytes (s : string) : list ascii := list_ascii_of_string s.

(** The canonical file of 16-bit samples: a format chunk, then the data. *)
Definition wav_file (rate channels : N) (pcm : list Z) : list ascii :=
  let size := N.of_nat (2 * length pcm) in
  (bytes "RIFF" ++ le32 (36 + size) ++ bytes "WAVE" ++
   bytes "fmt " ++ le32 16 ++ (le16 1 ++ le16 channels ++ le32 rate ++ le32 (rate * channels * 2 mod 2 ^ 32) ++ le16 (channels * 2 mod 65536) ++ le16 16) ++
   bytes "data" ++ le32 size ++ List.concat (map i16_bytes pcm))%list.

Lemma u16_le16 n : (n < 65536)%N -> match le16 n with [a; b] => u16_le a b = n | _ => False end.
Proof.
  intros Hn. unfold le16, u16_le. rewrite !N_ascii_embedding; [|apply N.Div0.div_lt_upper_bound; lia|apply N.mod_lt; lia].
  rewrite N.add_comm. symmetry. apply N.div_mod. lia.
Qed.

Lemma i16_read_back z : (-32768 <= z < 32768)%Z -> match i16_bytes z with [a; b] => i16_le a b = z | _ => False end.
Proof.
  intros Hz. unfold i16_bytes. set (n := Z.to_N _). assert (n < 65536)%N as Hn by (unfold n; destruct (Z.ltb_spec z 0); lia).
  pose proof (u16_le16 n Hn) as E. unfold le16 in *. unfold i16_le. rewrite E.
  unfold n. destruct (Z.ltb_spec z 0); rewrite Z2N.id by lia; [destruct (Z.ltb_spec (z + 65536) 32768)|destruct (Z.ltb_spec z 32768)]; lia.
Qed.

Lemma samples_read_back pcm : Forall (fun z => -32768 <= z < 32768)%Z pcm -> samples_of (List.concat (map i16_bytes pcm)) = pcm.
Proof.
  induction 1 as [|z pcm Hz Hp IH]; [done|]. apply i16_read_back in Hz. cbn [map List.concat].
  unfold i16_bytes, le16 in *. cbn [app samples_of]. by rewrite Hz, IH.
Qed.

Lemma length_samples pcm : length (List.concat (map i16_bytes pcm)) = 2 * length pcm.
Proof. induction pcm as [|z pcm IH]; [done|]. cbn [map List.concat length]. rewrite length_app, IH. simpl. lia. Qed.

Lemma u32_le32 n : (n < 2 ^ 32)%N -> match le32 n with [a; b; c; d] => u32_le a b c d = n | _ => False end.
Proof.
  intros Hn. unfold le32. pose proof (u16_le16 (n mod 65536)) as H1. pose proof (u16_le16 (n / 65536)) as H2. unfold le16 in *. cbn [app].
  unfold u32_le. rewrite H1, H2; [|apply N.Div0.div_lt_upper_bound; lia|apply N.mod_lt; lia].
  rewrite N.add_comm. symmetry. apply N.div_mod. lia.
Qed.

Lemma wav_step f id data more w size : length id = 4 -> (size < 2 ^ 32)%N -> N.of_nat (length data) = size ->
  wav_chunks (S f) (id ++ le32 size ++ data ++ more) w = wav_chunks f more (wav_chunk id data w).
Proof.
  intros Hid Hs Hd. destruct id as [|i0 [|i1 [|i2 [|i3 [|]]]]]; try done. pose proof (u32_le32 size Hs) as E.
  unfold le32, le16 in *. cbn [app] in *. cbn [wav_chunks]. rewrite E, <- Hd, Nat2N.id.
  rewrite length_app. destruct (Nat.ltb_spec (length data + length more) (length data)); [lia|].
  by rewrite take_app_length, drop_app_length.
Qed.

(** A decoder of WAV files reads what was written: rate, channels and every
    sample, for any file of 16-bit samples a 32-bit size can describe. *)
Theorem wav_read_back (rate channels : N) (pcm : list Z) :
  pcm <> [] -> Forall (fun z => -32768 <= z < 32768)%Z pcm -> (rate < 2 ^ 32)%N -> (channels < 65536)%N ->
  (N.of_nat (2 * length pcm) < 2 ^ 32)%N ->
  decode_wav_pcm (wav_file rate channels pcm) = Some (rate, channels, pcm).
Proof.
  intros Hne Hp Hr Hc Hl. unfold decode_wav_pcm.
  set (fmt := (le16 1 ++ le16 channels ++ le32 rate ++ le32 (rate * channels * 2 mod 2 ^ 32) ++ le16 (channels * 2 mod 65536) ++ le16 16)%list).
  assert (wav_file rate channels pcm = bytes "RIFF" ++ le32 (36 + N.of_nat (2 * length pcm)) ++ bytes "WAVE" ++
    (bytes "fmt " ++ le32 16 ++ fmt ++ (bytes "data" ++ le32 (N.of_nat (2 * length pcm)) ++ List.concat (map i16_bytes pcm) ++ [])))%list as ->.
  { unfold wav_file. rewrite app_nil_r. by rewrite <- !app_assoc. }
  set (chunks := (bytes "fmt " ++ _)%list).
  assert (forall x, take 4 (bytes "RIFF" ++ le32 x ++ bytes "WAVE" ++ chunks)%list = bytes "RIFF" /\
    take 4 (drop 8 (bytes "RIFF" ++ le32 x ++ bytes "WAVE" ++ chunks)%list) = bytes "WAVE" /\ drop 12 (bytes "RIFF" ++ le32 x ++ bytes "WAVE" ++ chunks)%list = chunks) as Hh by done.
  destruct (Hh (36 + N.of_nat (2 * length pcm))%N) as (H1 & H2 & H3). rewrite H1, H2, H3. clear Hh H1 H2 H3.
  set (all := (bytes "RIFF" ++ _)%list).
  assert (length all = 44 + 2 * length pcm) as Hlen.
  { unfold all, chunks. rewrite !length_app, length_samples. simpl. lia. }
  rewrite Hlen. destruct (Nat.ltb_spec (44 + 2 * length pcm) 44); [lia|]. cbn [orb negb tag].
  unfold tag at 1 2. rewrite !bool_decide_true by done. cbn [negb orb].
  change (44 + 2 * length pcm) with (S (S (42 + 2 * length pcm))). unfold chunks.
  rewrite (wav_step _ (bytes "fmt ")), (wav_step _ (bytes "data")); [|done|done|by rewrite length_samples|done|done|done].
  assert (wav_chunk (bytes "fmt ") fmt (mkWav 1 16000 []) = mkWav channels rate []) as ->.
  { pose proof (u16_le16 channels Hc) as E1. pose proof (u32_le32 rate Hr) as E2. unfold fmt, le32, le16 in *. cbn [app] in *.
    unfold wav_chunk. cbn [tag bytes]. unfold tag. rewrite bool_decide_true by done. cbn [length Nat.leb andb]. by rewrite E1, E2. }
  unfold wav_chunk. cbn [tag bytes]. unfold tag. rewrite bool_decide_false by done. rewrite bool_decide_true by done. cbn [andb wav_channels wav_rate wav_pcm app].
  rewrite samples_read_back by done. by destruct pcm.
Qed.

(** ** Concrete files *)

Lemma wav_read_back_witness : decode_wav_pcm (wav_file 8000 1 [1; -2]%Z) = Some (8000%N, 1%N, [1; -2]%Z).
Proof. apply wav_read_back; [done|repeat (apply Forall_cons; split; [lia|]); by apply Forall_nil|done|done|done]. Defined.

(** A chunk of odd size is followed by a byte of padding, which the decoder takes
    for the next chunk's first byte. *)
Theorem odd_chunk_loses_samples :
  let with_note := (take 36 (wav_file 8000 1 [1; -2]%Z) ++ bytes "note" ++ le32 3 ++ bytes "abc" ++ [ascii_of_N 0] ++ drop 36 (wav_file 8000 1 [1; -2]%Z))%list in
  decode_wav_pcm with_note = None.
Proof. vm_compute. reflexivity. Qed.

Definition a_file : MessageAttachment := mkAttachment "5" "../../.profile" "https://cdn/x" None (Some 3%N) None None.
Definition a_downloader : Downloader := mkDownloader "/w" "/w/.discord-attachments".
Definition answering (l : list (result string string)) (_ : string) : result HttpAnswer string := Ok (mkHttpAnswer true "200 OK" None l).

Example download_saves :
  run (download a_downloader (Ok "/w/.discord-attachments") (answering [Ok "ab"; Ok "c"]) "u" a_file) ∅ = (Ok "5-profile", {["5-profile" := File "abc"]}).
Proof. vm_compute. reflexivity. Qed.

Example download_interrupted :
  run (download a_downloader (Ok "/w/.discord-attachments") (answering [Ok "ab"; Err "reset"]) "u" a_file) ∅ =
    (Err (attachment_error "download stream failed: reset"), ∅).
Proof. vm_compute. reflexivity. Qed.
