(* ===== verification/Buttons.v ===== *)
(** * Buttons that run commands (src/discord/buttons.rs)

    A click on a button of a message runs the command configured for the
    button's namespace.  The parsing of the button's id, the configuration, the
    command and what is told of its end are functions; clicks are tasks over the
    set of messages in flight, each step what a task does under the lock or
    between two await points.  What the process does and how Discord answers
    are choices of the steps. *)
From stdpp Require Import base list strings gmap.
From Stdlib Require Import ZArith NArith Lia Ascii String.
From S2P Require Import Prelude RustStr Json Db Outgoing Search Attachments.
Open Scope string_scope.
Local Notation length := Datatypes.length.
Local Notation trim := RustStr.trim.

Definition BUTTON_PREFIX : string := "omon:btn:".
Definition DEFAULT_TIMEOUT_SECS : N := 600.
Definition MAX_REPLY_CHARS : nat := 1900.
Definition PENDING_LABEL : string := "⏳ 처리 중…".
Definition DEFAULT_DONE_LABEL : string := "✓ 완료".
Definition INHERITED_ENV : list string := ["HOME"; "USER"; "LOGNAME"; "TMPDIR"; "LANG"; "LC_ALL"].

Record ButtonClick : Type := mkClick { namespace : string; action : string; arg : string }.

Record ButtonActionConfig : Type := mkAction {
  command : list string;
  cwd : option string;
  timeout_secs : option N;
  done_labels : list (string * string)
}.

Record ActionOutcome : Type := mkOutcome {
  o_success : bool;
  o_code : option Z;
  o_stdout : string;
  o_stderr : string;
  timed_out : bool
}.

(** ** Ids *)

Definition is_lower_or_digit (c : ascii) : bool := in_range c 97 122 || in_range c 48 57.
Definition name_byte (c : ascii) : bool := is_lower_or_digit c || Ascii.eqb c "-".
Definition arg_byte (c : ascii) : bool := is_alphanumeric c || Ascii.eqb c "-" || Ascii.eqb c "_".
Definition starts_byte (p : ascii -> bool) (s : string) : bool := match s with String c _ => p c | "" => false end.

Definition is_name (s : string) : bool :=
  ((1 <=? len s) && (len s <=? 32))%nat && starts_byte is_lower_or_digit s && all_bytes name_byte s.
Definition is_arg (s : string) : bool :=
  ((1 <=? len s) && (len s <=? 64))%nat && starts_byte is_alphanumeric s && all_bytes arg_byte s.

Definition parse_button_custom_id (custom_id : string) : option ButtonClick :=
  rest ← strip_prefix BUTTON_PREFIX custom_id;
  match split_char ":" rest with
  | [ns; a; x] => if is_name ns && is_name a && is_arg x then Some (mkClick ns a x) else None
  | _ => None
  end.

Definition is_button_clicker_allowed (user_id : N) (allowed_users : list N) : bool := existsb (N.eqb user_id) allowed_users.

(** ** Configuration *)

Definition button_actions_path (env : Env) : string :=
  match env "OMON_BUTTON_ACTIONS_FILE" with
  | Some path => path
  | None =>
      let home := default "" (env "HOME") in
      (if is_empty home then "" else home ++ "/") ++ ".omon/button-actions.json"
  end.

Definition strings_of (v : value) : option (list string) := as_array v ≫= mapM as_str.
Definition labels_of (v : value) : option (list (string * string)) :=
  match v with JObject m => mapM (fun kv => (fun s => (kv.1, s)) <$> as_str kv.2) m | _ => None end.
Definition opt_member {A} (read : value -> option A) (key : string) (m : list (string * value)) : option (option A) :=
  match assoc_get key m with None | Some JNull => Some None | Some v => Some <$> read v end.

(** [derive(Deserialize)]: [command] is required, an option may be missing or null. *)
Definition action_of_value (v : value) : option ButtonActionConfig :=
  match v with
  | JObject m =>
      cmd ← assoc_get "command" m ≫= strings_of;
      dir ← opt_member as_str "cwd" m;
      secs ← opt_member as_u64 "timeout_secs" m;
      labels ← match assoc_get "done_labels" m with None => Some [] | Some l => labels_of l end;
      Some (mkAction cmd dir secs labels)
  | _ => None
  end.

Definition actions_of_value (v : value) : option (list (string * ButtonActionConfig)) :=
  match v with JObject m => mapM (fun kv => (fun a => (kv.1, a)) <$> action_of_value kv.2) m | _ => None end.

Fixpoint assoc {A} (k : string) (l : list (string * A)) : option A :=
  match l with [] => None | (k', v) :: rest => if String.eqb k k' then Some v else assoc k rest end.

(** What reading the file gives: nothing there, another error, or its text. *)
Inductive FileText : Type := Missing | Unreadable (e : string) | Text (t : string).

Definition load_button_action (parse_json : string -> option value) (file : FileText) (ns : string) :
    result (option ButtonActionConfig) string :=
  match file with
  | Missing => Ok None
  | Unreadable e => Err ("cannot read: " ++ e)
  | Text t =>
      match parse_json t ≫= actions_of_value with
      | None => Err "invalid"
      | Some actions =>
          Ok (assoc ns actions ≫= fun c => match command c with [] => None | _ => Some c end)
      end
  end.

(** ** The command *)

Record Command : Type := mkCommand {
  program : string;
  args : list string;
  environment : list (string * string);
  working_dir : option string;
  timeout : N
}.

(** The environment is cleared, then set name by name. *)
Definition button_environment (env : Env) (augmented_path : string) (extra_env : list (string * string)) : list (string * string) :=
  (omap (fun key => (fun v => (key, v)) <$> env key) INHERITED_ENV ++
   (if is_empty augmented_path then [] else [("PATH", augmented_path)]) ++ extra_env)%list.

Definition button_command (env : Env) (augmented_path : string) (config : ButtonActionConfig) (click : ButtonClick)
    (extra_env : list (string * string)) : option Command :=
  match command config with
  | [] => None
  | program :: base_args =>
      Some (mkCommand program (base_args ++ [action click; arg click]) (button_environment env augmented_path extra_env)
              (cwd config) (default DEFAULT_TIMEOUT_SECS (timeout_secs config)))
  end.

(** How a process ends. *)
Inductive ProcessEnd : Type :=
| NotStarted (e : string)
| Exited (code : option Z) (stdout stderr : string)
| TimedOut.

Definition run_button_action (config : ButtonActionConfig) (e : ProcessEnd) : ActionOutcome :=
  let failed text late := mkOutcome false None "" text late in
  match command config, e with
  | [], _ => failed "failed to start command: button action command is empty" false
  | _, NotStarted e => failed ("failed to start command: " ++ e) false
  | _, Exited code out err => mkOutcome (bool_decide (code = Some 0%Z)) code out err false
  | _, TimedOut => failed ("timed out after " ++ show_N (default DEFAULT_TIMEOUT_SECS (timeout_secs config)) ++ "s") true
  end.

Definition tail_chars (text : string) (limit : nat) : string :=
  let cs := RustStr.chars text in
  if (length cs <=? limit)%nat then text else "…" ++ of_chars (drop (length cs - limit) cs).

Definition reply_text (o : ActionOutcome) : string :=
  let stdout := trim (o_stdout o) in
  if o_success o then if is_empty stdout then "완료했습니다." else tail_chars stdout MAX_REPLY_CHARS
  else
    let detail := if is_empty stdout then trim (o_stderr o) else stdout in
    let status := if timed_out o then "시간 초과"
                  else match o_code o with Some code => "exit " ++ show_Z code | None => "비정상 종료" end in
    "⚠️ 실패 (" ++ status ++ ") — 버튼을 다시 누르면 재시도합니다." ++ String LF "" ++ tail_chars detail (MAX_REPLY_CHARS - 80).

(** ** The message's buttons *)

Inductive ButtonKind : Type :=
| NonLink (custom_id : string) (style : N)
| Link (url : string)
| Premium (sku_id : N).

Record Button : Type := mkButton { data : ButtonKind; label : option string; emoji : option string; disabled : bool }.

Inductive Component : Type :=
| ButtonComponent (b : Button)
| OtherComponent.

Definition with_disabled (off : bool) (b : Button) : Button := mkButton (data b) (label b) (emoji b) off.

(** A new label makes a new button: the emoji of the old one is not kept. *)
Definition rebuild_button (clicked : string) (clicked_label : option string) (off : bool) (c : Component) : option Component :=
  match c with
  | ButtonComponent b =>
      Some (ButtonComponent
        match data b with
        | NonLink id style =>
            if String.eqb id clicked then
              match clicked_label with
              | Some text => mkButton (NonLink id style) (Some text) None off
              | None => with_disabled off b
              end
            else with_disabled off b
        | Link _ => b
        | Premium _ => with_disabled off b
        end)
  | OtherComponent => None
  end.

Definition rebuild_buttons (rows : list (list Component)) (clicked : string) (clicked_label : option string) (off : bool) :
    option (list (list Component)) :=
  mapM (mapM (rebuild_button clicked clicked_label off)) rows.

Definition finished_buttons (rows : list (list Component)) (clicked : string) (click : ButtonClick) (config : ButtonActionConfig)
    (o : ActionOutcome) : option (list (list Component)) :=
  if o_success o then rebuild_buttons rows clicked (Some (default DEFAULT_DONE_LABEL (assoc (action click) (done_labels config)))) true
  else rebuild_buttons rows clicked None false.

(** ** Clicks as tasks *)

Record Click : Type := mkComponentClick {
  user : N;
  channel : N;
  message : N;
  clicked_id : string;
  components_shown : list (list Component)
}.

(** What is seen outside of a click; [ActionsRead] is the reading of the
    configuration for it. *)
Inductive Event : Type :=
| ActionsRead (k : Click) (file : FileText)
| Told (message user : N) (text : string)
| ShownButtons (message : N) (rows : list (list Component))
| CommandStarted (message user : N) (cmd : Command)
| CommandEnded (message : N)
| Replied (message : N) (text : string).

Inductive Pc : Type :=
| Arrived
| Claimed (c : ButtonClick) (config : ButtonActionConfig)
| Acknowledged (c : ButtonClick) (config : ButtonActionConfig)
| Running (c : ButtonClick) (config : ButtonActionConfig)
| Ended (c : ButtonClick) (config : ButtonActionConfig) (o : ActionOutcome)
| Finished.

Record Task : Type := mkTask { t_click : Click; t_pc : Pc }.
Record System : Type := mkSystem { in_flight : gset N; tasks : list Task; events : list Event }.

Section Handling.
Context (env : Env) (augmented_path : string) (parse_json : string -> option value) (allowed_users : list N).

Definition extra_env (k : Click) : list (string * string) :=
  [("OMON_BUTTON_USER_ID", show_N (user k)); ("OMON_BUTTON_CHANNEL_ID", show_N (channel k)); ("OMON_BUTTON_MESSAGE_ID", show_N (message k))].

(** From the click to the claim, with what the file holds now: the task's next
    state, the messages in flight and what is told. *)
Definition arrive (file : FileText) (k : Click) (flying : gset N) : Pc * gset N * list Event :=
  match parse_button_custom_id (clicked_id k) with
  | None => (Finished, flying, [])
  | Some c =>
      let tell text := Told (message k) (user k) text in
      let refuse text := (Finished, flying, [ActionsRead k file; tell text]) in
      if negb (is_button_clicker_allowed (user k) allowed_users) then (Finished, flying, [tell "이 버튼을 누를 권한이 없습니다."])
      else
        match load_button_action parse_json file (namespace c) with
        | Err _ => refuse "버튼 설정 파일을 읽지 못했습니다."
        | Ok None => refuse ("`" ++ namespace c ++ "` 버튼 동작이 설정되어 있지 않습니다.")
        | Ok (Some config) =>
            if bool_decide (message k ∈ flying) then refuse "이미 처리 중입니다."
            else (Claimed c config, {[message k]} ∪ flying, [ActionsRead k file])
        end
  end.

Definition show_rows (k : Click) (rows : option (list (list Component))) : list Event :=
  match rows with Some rows => [ShownButtons (message k) rows] | None => [] end.

(** One step of a task; [file] is what the configuration holds, [answered]
    whether the interaction could be acknowledged, [e] how the process ends. *)
Definition task_step (file : FileText) (answered : bool) (e : ProcessEnd) (t : Task) (flying : gset N) : Pc * gset N * list Event :=
  let k := t_click t in
  match t_pc t with
  | Arrived => arrive file k flying
  | Claimed c config => if answered then (Acknowledged c config, flying, []) else (Finished, flying ∖ {[message k]}, [])
  | Acknowledged c config =>
      (Running c config, flying,
       (show_rows k (rebuild_buttons (components_shown k) (clicked_id k) (Some PENDING_LABEL) true) ++
        match button_command env augmented_path config c (extra_env k) with
        | Some cmd => [CommandStarted (message k) (user k) cmd]
        | None => []
        end)%list)
  | Running c config => (Ended c config (run_button_action config e), flying, [CommandEnded (message k)])
  | Ended c config o =>
      (Finished, flying ∖ {[message k]},
       (show_rows k (finished_buttons (components_shown k) (clicked_id k) c config o) ++ [Replied (message k) (reply_text o)])%list)
  | Finished => (Finished, flying, [])
  end.

(** What a step of a task leaves. *)
Definition after (s : System) (i : nat) (k : Click) (r : Pc * gset N * list Event) : System :=
  mkSystem r.1.2 (<[i := mkTask k r.1.1]> (tasks s)) (events s ++ r.2).

Inductive step : System -> System -> Prop :=
| step_click s k : step s (mkSystem (in_flight s) (tasks s ++ [mkTask k Arrived]) (events s))
| step_task s i t file answered e :
    tasks s !! i = Some t ->
    step s (after s i (t_click t) (task_step file answered e t (in_flight s))).
End Handling.

Definition idle_system : System := mkSystem ∅ [] [].

#[local] Arguments parse_button_custom_id : simpl never.
#[local] Arguments load_button_action : simpl never.
#[local] Arguments button_command : simpl never.
#[local] Arguments rebuild_buttons : simpl never.
#[local] Arguments is_button_clicker_allowed : simpl never.
#[local] Arguments arrive : simpl never.

(** ** What a task holds *)

Definition holding (m : N) (t : Task) : bool :=
  N.eqb (message (t_click t)) m &&
  match t_pc t with Arrived | Finished => false | _ => true end.

Definition running (m : N) (t : Task) : bool :=
  N.eqb (message (t_click t)) m && match t_pc t with Running _ _ => true | _ => false end.

Definition started (m : N) (e : Event) : bool := match e with CommandStarted m' _ _ => N.eqb m' m | _ => false end.
Definition ended (m : N) (e : Event) : bool := match e with CommandEnded m' => N.eqb m' m | _ => false end.

(** ** Ids *)

(** The id of a button: a namespace, an action and an argument. *)
Definition button_id (ns a x : string) : string := "omon:btn:" ++ ns ++ ":" ++ a ++ ":" ++ x.

Lemma split_char_nonempty c s : split_char c s <> [].
Proof. destruct s; simpl; [done|]. repeat case_match; done. Qed.

Lemma split_char_join c s : s = join (String c "") (split_char c s).
Proof.
  induction s as [|d s IH]; simpl; [done|]. pose proof (split_char_nonempty c s) as Hn.
  destruct (split_char c s) as [|x l]; [done|]. destruct (Ascii.eqb_spec d c) as [->|].
  - simpl in *. by rewrite IH.
  - rewrite IH at 1. by destruct l.
Qed.

Lemma parse_button_custom_id_spec id c : parse_button_custom_id id = Some c ->
  id = button_id (namespace c) (action c) (arg c) /\
  is_name (namespace c) = true /\ is_name (action c) = true /\ is_arg (arg c) = true.
Proof.
  unfold parse_button_custom_id. intros (rest & ->%strip_prefix_Some & E)%bind_Some.
  pose proof (split_char_join ":" rest) as Es. destruct (split_char ":" rest) as [|ns [|a [|x [|]]]]; try done.
  destruct (is_name ns && is_name a && is_arg x) eqn:V; [|done].
  simplify_eq. apply andb_true_iff in V as [[? ?]%andb_true_iff ?]. done.
Qed.

Lemma load_button_action_command parse_json file ns config :
  load_button_action parse_json file ns = Ok (Some config) -> command config <> [].
Proof.
  unfold load_button_action. destruct file as [| |t]; try done.
  destruct (parse_json t ≫= actions_of_value) as [actions|]; [|done].
  intros [= (c & _ & E)%bind_Some]. destruct (command c) eqn:C; [done|]. congruence.
Qed.

(** What a text of the configuration file says of a namespace: the first member
    of that name. *)
Definition configures (parse_json : string -> option value) (file : FileText) (ns : string) (config : ButtonActionConfig) : Prop :=
  exists text m v, file = Text text /\ parse_json text = Some (JObject m) /\ assoc_get ns m = Some v /\ action_of_value v = Some config.

Lemma assoc_mapM {A} (f : value -> option A) m l k a :
  mapM (fun kv => (fun a => (kv.1, a)) <$> f kv.2) m = Some l -> assoc k l = Some a ->
  exists v, assoc_get k m = Some v /\ f v = Some a.
Proof.
  revert l. induction m as [|[k' v] m IH]; simpl; intros l E H; [by injection E as <-|].
  apply bind_Some in E as (y & (a' & Ha & ->)%fmap_Some & E). apply bind_Some in E as (l' & Hl & E). injection E as <-.
  simpl in H. rewrite String.eqb_sym in H. destruct (String.eqb k' k); [|by eapply IH]. injection H as <-. eauto.
Qed.

Lemma load_button_action_configures parse_json file ns config :
  load_button_action parse_json file ns = Ok (Some config) -> configures parse_json file ns config.
Proof.
  unfold load_button_action. destruct file as [| |t]; try done.
  destruct (parse_json t) as [[| | | | | | |m]|] eqn:P; simpl; try done. destruct (mapM _ m) as [actions|] eqn:M; [|done].
  intros [= (c & Ha & E)%bind_Some]. destruct (command c) eqn:C; [done|]. injection E as ->.
  destruct (assoc_mapM _ _ _ _ _ M Ha) as (v & ? & ?). by exists t, m, v.
Qed.

Lemma button_command_some env path config c extra :
  command config <> [] -> exists cmd, button_command env path config c extra = Some cmd.
Proof. unfold button_command. destruct (command config); [done|eauto]. Qed.

Lemma button_environment_names env path (extra : list (string * string)) name :
  In name (button_environment env path extra).*1 -> In name (INHERITED_ENV ++ ["PATH"] ++ extra.*1)%list.
Proof.
  unfold button_environment. rewrite !fmap_app, !in_app_iff. intros [H|[H|H]].
  - left. apply list_elem_of_In, list_elem_of_fmap in H as ([n v] & -> & H). simpl.
    apply list_elem_of_omap in H as (k & Hk & E). destruct (env k); simplify_eq/=. exact (proj1 (list_elem_of_In _ _) Hk).
  - right. left. destruct (is_empty path); simpl in H; [done|]. destruct H as [<-|[]]. by left.
  - by right; right.
Qed.

(** ** One step, seen from the message *)

Section Handled.
Context (env : Env) (augmented_path : string) (parse_json : string -> option value) (allowed_users : list N).
Local Notation task_step := (task_step env augmented_path parse_json allowed_users).
Local Notation step := (step env augmented_path parse_json allowed_users).

(** What a task knows of its click, after these events. *)
Definition authorized (seen : list Event) (k : Click) (c : ButtonClick) (config : ButtonActionConfig) : Prop :=
  In (user k) allowed_users /\ parse_button_custom_id (clicked_id k) = Some c /\
  exists file, In (ActionsRead k file) seen /\ load_button_action parse_json file (namespace c) = Ok (Some config).

Definition task_ok (seen : list Event) (t : Task) : Prop :=
  match t_pc t with
  | Arrived | Finished => True
  | Claimed c config | Acknowledged c config | Running c config | Ended c config _ => authorized seen (t_click t) c config
  end.

(** A command that was started, and the click it stands for. *)
Definition event_ok (seen : list Event) (e : Event) : Prop :=
  match e with
  | CommandStarted m u cmd =>
      exists k c config, message k = m /\ user k = u /\ authorized seen k c config /\
        button_command env augmented_path config c (extra_env k) = Some cmd
  | _ => True
  end.

Lemma authorized_later seen new k c config : authorized seen k c config -> authorized (seen ++ new) k c config.
Proof. intros (? & ? & file & ? & ?). split_and!; [done..|]. exists file. rewrite in_app_iff. eauto. Qed.
Lemma task_ok_later seen new t : task_ok seen t -> task_ok (seen ++ new) t.
Proof. unfold task_ok. destruct (t_pc t); eauto using authorized_later. Qed.
Lemma event_ok_later seen new e : event_ok seen e -> event_ok (seen ++ new) e.
Proof. destruct e; try done. intros (k & c & cf & ? & ? & ? & ?). exists k, c, cf. eauto using authorized_later. Qed.

Lemma arrive_ok seen file k flying :
  let r := arrive parse_json allowed_users file k flying in
  task_ok (seen ++ r.2) (mkTask k r.1.1) /\ Forall (event_ok (seen ++ r.2)) r.2.
Proof.
  unfold arrive. destruct (parse_button_custom_id (clicked_id k)) as [c|] eqn:P; [|by simpl].
  destruct (is_button_clicker_allowed _ _) eqn:A; simpl; [|by repeat constructor].
  destruct (load_button_action _ _ _) as [[config|]|e] eqn:L; simpl; [|by repeat constructor..].
  destruct (bool_decide _); simpl; [by repeat constructor|]. split; [|by repeat constructor].
  unfold task_ok, authorized; simpl. split_and!; [|done|].
  - apply existsb_exists in A as (u & ? & ->%N.eqb_eq). done.
  - exists file. split; [|done]. apply in_app_iff. right. by left.
Qed.

Lemma show_rows_ok seen k rows : Forall (event_ok seen) (show_rows k rows).
Proof. by destruct rows; repeat constructor. Qed.

Lemma task_step_ok seen file answered e t flying :
  let r := task_step file answered e t flying in
  task_ok seen t -> task_ok (seen ++ r.2) (mkTask (t_click t) r.1.1) /\ Forall (event_ok (seen ++ r.2)) r.2.
Proof.
  destruct t as [k pc]; destruct pc as [|c cf|c cf|c cf|c cf o|]; simpl; intros H; try by split.
  - apply arrive_ok.
  - destruct answered; [|by split]. split; [by apply authorized_later|done].
  - split; [by apply authorized_later|]. apply Forall_app. split; [apply show_rows_ok|].
    destruct (button_command _ _ _ _ _) eqn:B; repeat constructor. exists k, c, cf. split_and!; [done..|by apply authorized_later|done].
  - split; [by apply authorized_later|]. by repeat constructor.
  - split; [done|]. apply Forall_app. split; [apply show_rows_ok|by repeat constructor].
Qed.

(** The set of messages, the task's hold and the commands move together. *)
Definition flies (m : N) (flying : gset N) : nat := Nat.b2n (bool_decide (m ∈ flying)).

Lemma count_show_rows p k rows :
  (forall m r, p (ShownButtons m r) = false) -> count p (show_rows k rows) = 0%nat.
Proof. intros Hp. destruct rows; [|done]. unfold count, select. simpl. by rewrite Hp. Qed.

(** A task's step keeps, for each message, what it holds in step with the set,
    and its run in step with what was started and ended. *)
Lemma task_step_counts m file answered e t flying :
  forall seen, task_ok seen t -> (Nat.b2n (holding m t) <= flies m flying)%nat ->
  let r := task_step file answered e t flying in
  let t' := mkTask (t_click t) r.1.1 in
  (flies m r.1.2 + Nat.b2n (holding m t) = flies m flying + Nat.b2n (holding m t'))%nat /\
  (count (started m) r.2 + Nat.b2n (running m t) = count (ended m) r.2 + Nat.b2n (running m t'))%nat.
Proof.
  destruct t as [k pc]. unfold holding, running, flies, Buttons.task_step.
  destruct pc as [|c cf|c cf|c cf|c cf o|]; simpl; intros seen Hok Hle.
  - unfold arrive. destruct (parse_button_custom_id _); [|simpl; by rewrite !andb_false_r].
    destruct (is_button_clicker_allowed _ _); simpl; [|by rewrite !andb_false_r].
    destruct (load_button_action _ _ _) as [[config|]|]; simpl; [|by rewrite !andb_false_r..].
    destruct (bool_decide_reflect (message k ∈ flying)) as [F|F]; simpl; rewrite ?andb_false_r, ?andb_true_r; [done|]. split; [|done].
    destruct (N.eqb_spec (message k) m) as [<-|Ne]; repeat case_bool_decide; simpl; try (exfalso; set_solver); lia.
  - destruct answered; simpl; rewrite ?andb_false_r, ?andb_true_r in *; [lia|]. split; [|done].
    destruct (N.eqb_spec (message k) m) as [<-|Ne]; repeat case_bool_decide; simpl in *; try (exfalso; set_solver); lia.
  - rewrite !andb_true_r, andb_false_r. split; [lia|].
    rewrite !count_app, !count_show_rows by done. destruct Hok as (_ & _ & conf & _ & Hc%load_button_action_command).
    destruct (button_command_some env augmented_path cf c (extra_env k) Hc) as (cmd & ->).
    unfold count, select; simpl. destruct (N.eqb_spec (message k) m); simpl; lia.
  - rewrite !andb_true_r, andb_false_r. split; [lia|]. unfold count, select; simpl.
    destruct (N.eqb_spec (message k) m); simpl; lia.
  - rewrite !count_app, !count_show_rows, ?andb_true_r, ?andb_false_r in * by done. unfold count, select; simpl. split; [|done].
    destruct (N.eqb_spec (message k) m) as [<-|Ne]; repeat case_bool_decide; simpl in *; try (exfalso; set_solver); lia.
  - rewrite !andb_false_r. done.
Qed.

(** ** Reachable systems *)

Record inv (s : System) : Prop := mkInv {
  inv_tasks : Forall (task_ok (events s)) (tasks s);
  inv_events : Forall (event_ok (events s)) (events s);
  inv_held : forall m, count (holding m) (tasks s) = flies m (in_flight s);
  inv_commands : forall m, count (started m) (events s) = (count (ended m) (events s) + count (running m) (tasks s))%nat
}.

Lemma idle_inv : inv idle_system.
Proof. by repeat constructor. Qed.

Lemma step_inv s s' : step s s' -> inv s -> inv s'.
Proof.
  intros [s0 k | s0 i t file answered e E] [It Ie Ih Ic].
  - constructor; simpl; [apply Forall_app; by repeat constructor|done|..]; intros m; rewrite count_app.
    + rewrite (Ih m). unfold count, select, holding; simpl. rewrite andb_false_r; simpl; lia.
    + rewrite (Ic m). unfold count, select, running; simpl. rewrite andb_false_r; simpl; lia.
  - assert (Ht : task_ok (events s0) t) by exact (Forall_lookup_1 _ _ _ _ It E).
    destruct (task_step_ok (events s0) file answered e t (in_flight s0) Ht) as [Ht' He'].
    set (r := task_step file answered e t (in_flight s0)) in *. set (t' := mkTask (t_click t) r.1.1) in *.
    assert (Hc : forall m, (Nat.b2n (holding m t) <= flies m (in_flight s0))%nat).
    { intros m. rewrite <- Ih. pose proof (count_insert (holding m) _ i t (mkTask (t_click t) Arrived) E) as K.
      unfold holding at 4 in K. simpl in K. rewrite andb_false_r in K. simpl in K. lia. }
    assert (Forall (task_ok (events s0 ++ r.2)) (tasks s0)) by (eapply Forall_impl; [exact It|]; intros; by apply task_ok_later).
    assert (Forall (event_ok (events s0 ++ r.2)) (events s0)) by (eapply Forall_impl; [exact Ie|]; intros; by apply event_ok_later).
    constructor; simpl; [by apply Forall_insert|by apply Forall_app|..]; intros m;
      destruct (task_step_counts m file answered e t (in_flight s0) _ Ht (Hc m)) as [H1 H2]; fold r in H1, H2; fold t' in H1, H2.
    + pose proof (count_insert (holding m) _ i t t' E). specialize (Ih m). fold t'. lia.
    + pose proof (count_insert (running m) _ i t t' E). specialize (Ic m). rewrite !count_app. fold t'. lia.
Qed.

Lemma reachable_inv s : rtc step idle_system s -> inv s.
Proof.
  intros R. assert (G : forall a b, rtc step a b -> inv a -> inv b) by (intros a b; induction 1; eauto using step_inv).
  exact (G _ _ R idle_inv).
Qed.

Lemma running_holding m t : running m t = true -> holding m t = true.
Proof. unfold running, holding. intros [-> H]%andb_true_iff. by destruct (t_pc t). Qed.

(** However clicks arrive and interleave, and whatever Discord and the
    processes answer, at most one command of a message is running: as many
    were started for it as ended, or one more, and then the message is in
    flight, so a further click on it is refused. *)
Theorem one_command_per_message s m :
  rtc step idle_system s ->
  (count (ended m) (events s) <= count (started m) (events s) <= S (count (ended m) (events s)))%nat /\
  (count (started m) (events s) <> count (ended m) (events s) -> m ∈ in_flight s).
Proof.
  intros R. destruct (reachable_inv s R) as [_ _ Ih Ic]. specialize (Ih m). specialize (Ic m).
  pose proof (count_le _ _ (tasks s) (running_holding m)) as L. unfold flies in Ih.
  case_bool_decide; simpl in Ih; split; try done; lia.
Qed.

(** C25: every command that is started stands for one click of the message by
    an allowed user: the click's id spells a namespace, an action and an
    argument, none of them empty or beginning with a dash; the program, its
    base arguments, directory and time limit are what the configuration read
    for this click says of that very namespace; the action and the argument
    are the last two arguments; and the environment holds only the inherited
    names, PATH and the three names of the click. *)
Theorem commands_were_authorized s m u cmd :
  rtc step idle_system s -> In (CommandStarted m u cmd) (events s) ->
  In u allowed_users /\
  exists k file ns a x config base,
    In (ActionsRead k file) (events s) /\ message k = m /\ user k = u /\
    clicked_id k = button_id ns a x /\ is_name ns = true /\ is_name a = true /\ is_arg x = true /\
    (forall rest, a <> String "-" rest /\ x <> String "-" rest) /\
    configures parse_json file ns config /\
    command config = program cmd :: base /\ args cmd = (base ++ [a; x])%list /\
    working_dir cmd = cwd config /\ timeout cmd = default DEFAULT_TIMEOUT_SECS (timeout_secs config) /\
    forall name, In name (environment cmd).*1 ->
      In name (INHERITED_ENV ++ ["PATH"; "OMON_BUTTON_USER_ID"; "OMON_BUTTON_CHANNEL_ID"; "OMON_BUTTON_MESSAGE_ID"])%list.
Proof.
  intros R I. destruct (reachable_inv s R) as [_ Ie _ _].
  rewrite List.Forall_forall in Ie. specialize (Ie _ I) as (k & c & cf & Ek & Eu & (Hu & Hp & file & Hf & Hl) & B).
  apply parse_button_custom_id_spec in Hp as (Hid & Hn & Ha & Hx). apply load_button_action_configures in Hl.
  rewrite Eu in Hu. split; [done|]. unfold button_command in B. destruct (command cf) as [|prog base] eqn:C; [done|].
  injection B as <-. exists k, file, (namespace c), (action c), (arg c), cf, base. simpl. split_and!; try done; [|apply button_environment_names].
  intros rest. split; intros E; [rewrite E in Ha|rewrite E in Hx].
  - unfold is_name in Ha. apply andb_true_iff in Ha as [[_ Ha]%andb_true_iff _]. done.
  - unfold is_arg in Hx. apply andb_true_iff in Hx as [[_ Hx]%andb_true_iff _]. done.
Qed.
End Handled.

Lemma mapM_In {A B} (f : A -> option B) l l' y : mapM f l = Some l' -> In y l' -> exists x, f x = Some y.
Proof.
  intros E%mapM_Some. induction E; simpl; [done|]. intros [<-|I]; eauto.
Qed.

(** A failed action leaves no button disabled but the links: the buttons
    that were disabled before the click are enabled with the others. *)
Theorem failed_click_enables_all rows clicked click config o rows' row b :
  o_success o = false -> finished_buttons rows clicked click config o = Some rows' ->
  In row rows' -> In (ButtonComponent b) row -> (forall url, data b <> Link url) -> disabled b = false.
Proof.
  intros F E Ir Ib Hl. unfold finished_buttons, rebuild_buttons in E. rewrite F in E.
  destruct (mapM_In _ _ _ _ E Ir) as (row0 & Hr). destruct (mapM_In _ _ _ _ Hr Ib) as ([b0|] & Hb); [|done].
  injection Hb as <-. destruct (data b0) as [id st| |] eqn:D; [|by destruct (Hl url)|done].
  by destruct (String.eqb id clicked).
Qed.

(** ** A run *)

Module Sample.
Definition env : Env := fun k => if String.eqb k "HOME" then Some "/root" else None.
Definition parse (_ : string) : option value :=
  Some (JObject [("content-intel", JObject [("command", JArray [JString "bun"; JString "x.ts"])])]).
Definition click : Click := mkComponentClick 7 1 2 "omon:btn:content-intel:publish:86" [].
Definition file : FileText := Text "{}".
Definition clicked : System := mkSystem ∅ [mkTask click Arrived] [].
Definition stepped (s : System) : System :=
  match tasks s !! 0%nat with
  | Some t => after s 0 (t_click t) (task_step env "/bin" parse [7%N] file true TimedOut t (in_flight s))
  | None => s
  end.
Definition running_system : System := stepped (stepped (stepped clicked)).

Lemma stepped_step s t : tasks s !! 0%nat = Some t -> step env "/bin" parse [7%N] s (stepped s).
Proof. intros E. unfold stepped. rewrite E. by apply step_task. Qed.

Lemma reached : rtc (step env "/bin" parse [7%N]) idle_system running_system.
Proof.
  eapply rtc_l; [exact (step_click _ _ _ _ idle_system click)|].
  eapply rtc_l; [by eapply (stepped_step clicked)|].
  eapply rtc_l; [eapply stepped_step; vm_compute; reflexivity|].
  eapply rtc_l; [eapply stepped_step; vm_compute; reflexivity|]. apply rtc_refl.
Qed.

Definition command : Command :=
  mkCommand "bun" ["x.ts"; "publish"; "86"]
    [("HOME", "/root"); ("PATH", "/bin"); ("OMON_BUTTON_USER_ID", "7"); ("OMON_BUTTON_CHANNEL_ID", "1"); ("OMON_BUTTON_MESSAGE_ID", "2")] None 600.
End Sample.

Lemma one_command_per_message_witness :
  rtc (step Sample.env "/bin" Sample.parse [7%N]) idle_system Sample.running_system /\
  2%N ∈ in_flight Sample.running_system.
Proof.
  split; [exact Sample.reached|].
  apply (one_command_per_message _ _ _ _ Sample.running_system 2 Sample.reached). vm_compute. discriminate.
Defined.

Lemma commands_were_authorized_witness :
  In (CommandStarted 2 7 Sample.command) (events Sample.running_system) /\ In 7%N [7%N] /\
  exists k ns a x, user k = 7%N /\ clicked_id k = button_id ns a x /\ ["x.ts"; "publish"; "86"] = ["x.ts"; a; x].
Proof.
  assert (I : In (CommandStarted 2 7 Sample.command) (events Sample.running_system)) by (vm_compute; tauto).
  split; [exact I|].
  destruct (commands_were_authorized _ _ _ _ Sample.running_system 2 7 Sample.command Sample.reached I)
    as (Hu & k & file & ns & a & x & cf & base & _ & _ & Hk & Hid & _ & _ & _ & _ & _ & _ & Ha & _).
  split; [exact Hu|]. exists k, ns, a, x. split; [exact Hk|]. split; [exact Hid|].
  destruct base as [|b0 [|b1 [|b2 base]]]; simpl in Ha; try discriminate; injection Ha as -> <- <-; try reflexivity.
  all: by destruct base.
Defined.

Lemma failed_click_enables_all_witness :
  let b := mkButton (NonLink "x" 1) None None true in
  finished_buttons [[ButtonComponent b]] "y" (mkClick "n" "a" "x") (mkAction ["c"] None None []) (mkOutcome false None "" "" true) =
    Some [[ButtonComponent (with_disabled false b)]] /\ disabled (with_disabled false b) = false.
Proof.
  split; [reflexivity|].
  eapply (failed_click_enables_all [[ButtonComponent (mkButton (NonLink "x" 1) None None true)]] "y" (mkClick "n" "a" "x")
    (mkAction ["c"] None None []) (mkOutcome false None "" "" true)); [reflexivity|reflexivity|by left|by left|discriminate].
Defined.
