(* ===== verification/Paths.v ===== *)
(** * Paths and a file system with links

    What the tools that touch files use of [std::path] and [std::fs]: paths as
    their steps, a tree of nodes in which several names may stand for one file
    and a symbolic link for another path, and the calls of the operating
    system.  Each call may fail: the outcomes to come are the [faults] of the
    world of [Db], as for statements. *)
From stdpp Require Import base list strings gmap.
From Stdlib Require Import ZArith NArith Lia Ascii String.
From S2P Require Import Prelude RustStr Db.
Open Scope string_scope.
Local Notation length := Datatypes.length.

(** ** Paths *)

(** The pieces of a path: ["."] and the empty piece, [".."], a name. *)
Inductive Step : Type := Here | Up | Name (n : string).

Record PathBuf : Type := mkPath { absolute : bool; steps : list Step }.

Definition step_of (piece : string) : Step :=
  if String.eqb piece "" || String.eqb piece "." then Here
  else if String.eqb piece ".." then Up else Name piece.

Definition path_of (s : string) : PathBuf :=
  if String.eqb s "" then mkPath false []
  else mkPath (starts_with "/" s) (map step_of (split_char "/" s)).

(** [Path::join]: joining the empty path adds a separator. *)
Definition join_path (a b : PathBuf) : PathBuf :=
  if absolute b then b
  else mkPath (absolute a) (steps a ++ match steps b with [] => [Here] | l => l end).

(** [Path::components], after the root. *)
Definition components (p : PathBuf) : list Step := List.filter (fun s => match s with Here => false | _ => true end) (steps p).

(** [Path::file_name] and [Path::parent]. *)
Definition file_name (p : PathBuf) : option string :=
  match rev (components p) with Name n :: _ => Some n | _ => None end.
Definition parent (p : PathBuf) : option PathBuf :=
  match rev (components p) with [] => None | _ :: above => Some (mkPath (absolute p) (rev above)) end.

(** A resolved path: names from the root. *)
Notation Canonical := (list string).
Definition of_canonical (q : Canonical) : PathBuf := mkPath true (map Name q).

(** [Path::starts_with], of resolved paths. *)
Definition within (root q : Canonical) : bool := bool_decide (root `prefix_of` q).

Definition show_canonical (q : Canonical) : string := "/" ++ String.concat "/" q.

(** ** Nodes *)

Inductive Node : Type := File (inode : N) | Directory | Symlink (target : string).

Record FS : Type := mkFS { nodes : gmap Canonical Node; inodes : gmap N string }.

Inductive IoError : Type := NotFound | OtherError (m : string).
Definition show_error (e : IoError) : string :=
  match e with NotFound => "No such file or directory (os error 2)" | OtherError m => m end.

Definition NOT_A_DIRECTORY : IoError := OtherError "Not a directory (os error 20)".
Definition IS_A_DIRECTORY : IoError := OtherError "Is a directory (os error 21)".
Definition FILE_EXISTS : IoError := OtherError "File exists (os error 17)".
Definition TOO_MANY_LINKS : IoError := OtherError "Too many levels of symbolic links (os error 40)".

(** [MAXSYMLINKS]. *)
Definition MAX_LINKS : nat := 40.

(** The resolution of a path, from the directory [cur]; with [create], the last
    name may be missing. *)
Fixpoint walk (links : nat) (create : bool) (ns : gmap Canonical Node) : Canonical -> list Step -> result Canonical IoError :=
  fix go (cur : Canonical) (todo : list Step) : result Canonical IoError :=
    match todo with
    | [] => Ok cur
    | s :: rest =>
        match ns !! cur with
        | Some Directory =>
            match s with
            | Here => go cur rest
            | Up => go (removelast cur) rest
            | Name n =>
                match ns !! (cur ++ [n])%list with
                | None => match create, rest with true, [] => Ok (cur ++ [n])%list | _, _ => Err NotFound end
                | Some (Symlink t) =>
                    match links with
                    | O => Err TOO_MANY_LINKS
                    | S links =>
                        walk links create ns (if absolute (path_of t) then [] else cur) (steps (path_of t) ++ rest)
                    end
                | Some _ => go (cur ++ [n])%list rest
                end
            end
        | _ => Err NOT_A_DIRECTORY
        end
    end.

Record Metadata : Type := mkMetadata { node : Node; nlink : nat; file_len : N }.

(** How many names a file has, and what is in it. *)
Definition names_of (i : N) (fs : FS) : list Canonical :=
  omap (fun kv => match kv.2 with File j => if N.eqb i j then Some kv.1 else None | _ => None end) (map_to_list (nodes fs)).
Definition content (i : N) (fs : FS) : string := default "" (inodes fs !! i).

Definition metadata_of (fs : FS) (x : Node) : Metadata :=
  match x with
  | File i => mkMetadata x (length (names_of i fs)) (N.of_nat (len (content i fs)))
  | Directory => mkMetadata x 1 0
  | Symlink t => mkMetadata x 1 (N.of_nat (len t))
  end.

Definition is_file (m : Metadata) : bool := match node m with File _ => true | _ => false end.
Definition is_dir (m : Metadata) : bool := match node m with Directory => true | _ => false end.
Definition is_symlink (m : Metadata) : bool := match node m with Symlink _ => true | _ => false end.

(** A file that no name stands for yet. *)
Definition used (fs : FS) : list N :=
  omap (fun kv => match kv.2 with File i => Some i | _ => None end) (map_to_list (nodes fs)).
Definition fresh_inode (fs : FS) : N := N.succ (foldr N.max 0%N (used fs)).

(** What a write leaves at a resolved path. *)
Definition put (q : Canonical) (text : string) (fs : FS) : FS :=
  match nodes fs !! q with
  | Some (File i) => mkFS (nodes fs) (<[i := text]> (inodes fs))
  | Some _ => fs
  | None => let i := fresh_inode fs in mkFS (<[q := File i]> (nodes fs)) (<[i := text]> (inodes fs))
  end.

Definition children (q : Canonical) (fs : FS) : list string :=
  omap (fun kv => match rev kv.1 with n :: above => if bool_decide (rev above = q) then Some n else None | [] => None end)
    (map_to_list (nodes fs)).

(** ** Calls *)

Section Calls.
(** The directory of the process. *)
Context (cwd : Canonical).

Definition start (p : PathBuf) : Canonical := if absolute p then [] else cwd.

Definition resolve (create : bool) (p : PathBuf) (fs : FS) : result Canonical IoError :=
  match absolute p, steps p with
  | false, [] => Err NotFound
  | _, _ => walk MAX_LINKS create (nodes fs) (start p) (steps p)
  end.

Definition node_at (q : Canonical) (fs : FS) : result Node IoError :=
  match nodes fs !! q with Some x => Ok x | None => Err NotFound end.

(** The node a path names, without following a link at its end. *)
Definition lstat (p : PathBuf) (fs : FS) : result Node IoError :=
  match rev (steps p) with
  | Name n :: above =>
      match walk MAX_LINKS false (nodes fs) (start p) (rev above) with
      | Ok d => match nodes fs !! d with Some Directory => node_at (d ++ [n])%list fs | _ => Err NOT_A_DIRECTORY end
      | Err e => Err e
      end
  | _ => match resolve false p fs with Ok q => node_at q fs | Err e => Err e end
  end.

Definition call {A} (f : FS -> result A IoError * FS) : M FS (result A IoError) := fun w =>
  match faults w with
  | Some msg :: rest => (Ok (Err (OtherError msg)), mkWorld (st w) rest)
  | rest => let '(r, fs) := f (st w) in (Ok r, mkWorld fs (tail rest))
  end.
Definition look {A} (f : FS -> result A IoError) : M FS (result A IoError) := call (fun fs => (f fs, fs)).

Definition canonicalize (p : PathBuf) : M FS (result Canonical IoError) := look (resolve false p).
Definition symlink_metadata (p : PathBuf) : M FS (result Metadata IoError) :=
  look (fun fs => match lstat p fs with Ok x => Ok (metadata_of fs x) | Err e => Err e end).
Definition metadata (p : PathBuf) : M FS (result Metadata IoError) :=
  look (fun fs =>
    match resolve false p fs with
    | Ok q => match node_at q fs with Ok x => Ok (metadata_of fs x) | Err e => Err e end
    | Err e => Err e
    end).
(** [Path::exists]: an error reads as absence. *)
Definition exists_ (p : PathBuf) : M FS bool := (r <- metadata p;; ret (is_ok r))%db.

Definition create_dir (p : PathBuf) : M FS (result unit IoError) :=
  call (fun fs =>
    match lstat p fs with
    | Ok _ => (Err FILE_EXISTS, fs)
    | Err NotFound =>
        match resolve true p fs with
        | Ok q => (Ok tt, mkFS (<[q := Directory]> (nodes fs)) (inodes fs))
        | Err e => (Err e, fs)
        end
    | Err e => (Err e, fs)
    end).

(** [std::fs::write]: a call that fails leaves [partial], if anything. *)
Definition write_file (p : PathBuf) (text : string) (partial : option string) : M FS (result unit IoError) := fun w =>
  let fs := st w in
  match faults w with
  | Some msg :: rest =>
      (Ok (Err (OtherError msg)),
       mkWorld (match partial, resolve true p fs with Some part, Ok q => put q part fs | _, _ => fs end) rest)
  | rest =>
      match resolve true p fs with
      | Ok q =>
          match nodes fs !! q with
          | Some Directory => (Ok (Err IS_A_DIRECTORY), mkWorld fs (tail rest))
          | _ => (Ok (Ok tt), mkWorld (put q text fs) (tail rest))
          end
      | Err e => (Ok (Err e), mkWorld fs (tail rest))
      end
  end.

(** The bytes of a file. *)
Definition read_file (p : PathBuf) : M FS (result string IoError) :=
  look (fun fs =>
    match resolve false p fs with
    | Ok q => match nodes fs !! q with Some (File i) => Ok (content i fs) | Some _ => Err IS_A_DIRECTORY | None => Err NotFound end
    | Err e => Err e
    end).

(** The names in a directory, in the order [arrange] gives. *)
Definition read_dir (arrange : list string -> list string) (p : PathBuf) : M FS (result (list string) IoError) :=
  look (fun fs =>
    match resolve false p fs with
    | Ok q => match nodes fs !! q with Some Directory => Ok (arrange (children q fs)) | Some _ => Err NOT_A_DIRECTORY | None => Err NotFound end
    | Err e => Err e
    end).
End Calls.

(** ** Resolved paths *)

(** [q] is there, through directories only, and is no link. *)
Definition plain (ns : gmap Canonical Node) (q : Canonical) : Prop :=
  (forall d, d `prefix_of` q -> d <> q -> ns !! d = Some Directory) /\
  match ns !! q with Some (File _) | Some Directory => True | _ => False end.

(** [q] may be created: its parent is a directory that resolves to itself. *)
Definition missing (ns : gmap Canonical Node) (q : Canonical) : Prop :=
  ns !! q = None /\ exists d n, q = (d ++ [n])%list /\ plain ns d /\ ns !! d = Some Directory.

Lemma prefix_antisym {A} (l k : list A) : l `prefix_of` k -> k `prefix_of` l -> l = k.
Proof.
  intros [a ->] [b E]. rewrite <- app_assoc in E. rewrite <- (app_nil_r l) in E at 1.
  apply app_inv_head in E. destruct a; [by rewrite app_nil_r|done].
Qed.

Lemma prefix_snoc_inv {A} (d q : list A) n : d `prefix_of` (q ++ [n])%list -> d `prefix_of` q \/ d = (q ++ [n])%list.
Proof.
  intros [k E]. destruct k as [|x k _] using rev_ind; [right; by rewrite app_nil_r in E|].
  left. rewrite app_assoc in E. apply app_inj_tail in E as [-> _]. by exists k.
Qed.

Lemma plain_prefix ns q d : plain ns q -> d `prefix_of` q -> plain ns d.
Proof.
  intros [Hd Hq] P. destruct (decide (d = q)) as [->|Ne]; [by split|].
  split; [|by rewrite (Hd d)]. intros e Pe Ne'. apply Hd; [by etrans|].
  intros ->. apply Ne. by apply prefix_antisym.
Qed.

Lemma plain_snoc ns q n :
  plain ns q -> ns !! q = Some Directory ->
  match ns !! (q ++ [n])%list with Some (File _) | Some Directory => True | _ => False end -> plain ns (q ++ [n])%list.
Proof.
  intros [Hd _] D N. split; [|done]. intros d [P| ->]%prefix_snoc_inv; [|done].
  intros _. destruct (decide (d = q)) as [->|Ne]; [done|by apply Hd].
Qed.

Lemma removelast_prefix {A} (q : list A) : removelast q `prefix_of` q.
Proof.
  destruct q as [|x q _] using rev_ind; [done|]. rewrite removelast_last. by exists [x].
Qed.

Lemma plain_root ns q : plain ns q -> plain ns [].
Proof. intros H. apply (plain_prefix _ q); [done|apply prefix_nil]. Qed.

(** What a resolution ends in. *)
Lemma walk_plain links create ns cur todo q :
  plain ns cur -> walk links create ns cur todo = Ok q -> plain ns q \/ (create = true /\ missing ns q).
Proof.
  revert cur todo. induction links as [|links IHl]; intros cur todo; revert cur;
    induction todo as [|s rest IH]; intros cur P W; simpl in W; try (injection W as <-; by left);
    destruct (ns !! cur) as [[| |]|] eqn:D; try done; destruct s as [| |n];
    try (by apply (IH cur)); try (by apply (IH (removelast cur)); [apply (plain_prefix _ cur); [done|apply removelast_prefix]|]);
    destruct (ns !! (cur ++ [n])%list) as [[i| |t]|] eqn:N; try done;
    try (apply (IH (cur ++ [n])%list); [by apply plain_snoc; rewrite ?N|done]);
    try (destruct create; [|done]; destruct rest; [|done]; injection W as <-; right; split; [done|]; split; [done|by exists cur, n]).
  apply (IHl _ _) in W; [done|]. destruct (absolute _); [by apply (plain_root _ cur)|done].
Qed.

Lemma walk_plain_false links ns cur todo q : plain ns cur -> walk links false ns cur todo = Ok q -> plain ns q.
Proof. intros P W. by destruct (walk_plain _ _ _ _ _ _ P W) as [?|[? _]]. Qed.

(** A step of a resolution, without the recursion on links. *)
Lemma walk_cons links create ns cur s rest :
  walk links create ns cur (s :: rest) =
  match ns !! cur with
  | Some Directory =>
      match s with
      | Here => walk links create ns cur rest
      | Up => walk links create ns (removelast cur) rest
      | Name n =>
          match ns !! (cur ++ [n])%list with
          | None => match create, rest with true, [] => Ok (cur ++ [n])%list | _, _ => Err NotFound end
          | Some (Symlink t) =>
              match links with
              | O => Err TOO_MANY_LINKS
              | S links => walk links create ns (if absolute (path_of t) then [] else cur) (steps (path_of t) ++ rest)
              end
          | Some _ => walk links create ns (cur ++ [n])%list rest
          end
      end
  | _ => Err NOT_A_DIRECTORY
  end.
Proof. by destruct links. Qed.

Lemma walk_nil links create ns cur : walk links create ns cur [] = Ok cur.
Proof. by destruct links. Qed.

(** What resolves to itself. *)
Lemma walk_names links create ns cur names :
  plain ns (cur ++ names)%list -> walk links create ns cur (map Name names) = Ok (cur ++ names)%list.
Proof.
  revert cur. induction names as [|n names IH]; intros cur P; simpl; [by rewrite walk_nil, app_nil_r|].
  assert (D : ns !! cur = Some Directory).
  { apply P; [by exists (n :: names)|]. intros E. apply (f_equal length) in E. rewrite length_app in E. simpl in E. lia. }
  assert (E : (cur ++ n :: names = (cur ++ [n]) ++ names)%list) by by rewrite <- app_assoc.
  rewrite E in P |- *. rewrite walk_cons, D.
  assert (N : plain ns (cur ++ [n])%list) by (apply (plain_prefix _ _ _ P); by exists names).
  destruct N as [_ N]. destruct (ns !! (cur ++ [n])%list) as [[| |]|]; try done; by apply IH.
Qed.

Lemma walk_names_missing links ns cur names n :
  plain ns (cur ++ names)%list -> ns !! (cur ++ names)%list = Some Directory -> ns !! (cur ++ names ++ [n])%list = None ->
  walk links true ns cur (map Name (names ++ [n])) = Ok (cur ++ names ++ [n])%list.
Proof.
  revert cur. induction names as [|m names IH]; intros cur P D N.
  - rewrite app_nil_r in *. cbn [map app] in *. by rewrite walk_cons, D, N.
  - assert (E : forall l : Canonical, (cur ++ m :: l = (cur ++ [m]) ++ l)%list) by (intros; by rewrite <- app_assoc).
    assert (Dc : ns !! cur = Some Directory).
    { apply P; [by exists (m :: names)|]. intros F. apply (f_equal length) in F. rewrite length_app in F. simpl in F. lia. }
    cbn [map app] in *. rewrite E in P, D, N |- *. rewrite walk_cons, Dc.
    assert (M : plain ns (cur ++ [m])%list) by (apply (plain_prefix _ _ _ P); by exists names).
    destruct M as [_ M]. destruct (ns !! (cur ++ [m])%list) as [[| |]|]; try done; by apply IH.
Qed.

(** More nodes do not change what was found. *)
Lemma walk_mono links ns ns' cur todo q :
  ns ⊆ ns' -> walk links false ns cur todo = Ok q -> walk links false ns' cur todo = Ok q.
Proof.
  intros Sub. revert cur todo. induction links as [|links IHl]; intros cur todo; revert cur;
    induction todo as [|s rest IH]; intros cur W; try (rewrite walk_nil in *; done);
    rewrite walk_cons in W |- *; destruct (ns !! cur) as [[| |]|] eqn:D; try done;
    rewrite (lookup_weaken _ _ _ _ D Sub); destruct s as [| |n]; eauto;
    destruct (ns !! (cur ++ [n])%list) as [[i| |t]|] eqn:N; try done; rewrite (lookup_weaken _ _ _ _ N Sub); eauto.
Qed.

(** The rest of a path, below what its beginning resolves to. *)
Lemma walk_app links ns cur todo d names :
  walk links false ns cur todo = Ok d -> plain ns (d ++ names)%list ->
  walk links false ns cur (todo ++ map Name names) = Ok (d ++ names)%list.
Proof.
  intros W P. revert cur todo W. induction links as [|links IHl]; intros cur todo; revert cur;
    induction todo as [|s rest IH]; intros cur W;
    try (rewrite walk_nil in W; injection W as ->; by apply walk_names);
    cbn [app]; rewrite walk_cons in W |- *; destruct (ns !! cur) as [[| |]|]; try done;
    destruct s as [| |n]; eauto;
    destruct (ns !! (cur ++ [n])%list) as [[i| |t]|]; try done; eauto.
  rewrite app_assoc. eauto.
Qed.

(** A path through what its beginning resolves to. *)
Lemma walk_names_app links create ns cur names rest :
  plain ns (cur ++ names)%list -> walk links create ns cur (map Name names ++ rest) = walk links create ns (cur ++ names)%list rest.
Proof.
  revert cur. induction names as [|n names IH]; intros cur P; simpl; [by rewrite app_nil_r|].
  assert (D : ns !! cur = Some Directory).
  { apply P; [by exists (n :: names)|]. intros E. apply (f_equal length) in E. rewrite length_app in E. simpl in E. lia. }
  assert (E : (cur ++ n :: names = (cur ++ [n]) ++ names)%list) by by rewrite <- app_assoc.
  rewrite E in P |- *. rewrite walk_cons, D.
  assert (N : plain ns (cur ++ [n])%list) by (apply (plain_prefix _ _ _ P); by exists names).
  destruct N as [_ N]. destruct (ns !! (cur ++ [n])%list) as [[| |]|]; try done; by apply IH.
Qed.

Lemma walk_more links links' ns cur todo q :
  (links <= links')%nat -> walk links false ns cur todo = Ok q -> walk links' false ns cur todo = Ok q.
Proof.
  revert links' cur todo. induction links as [|links IHl]; intros links' cur todo L; revert cur;
    induction todo as [|s rest IH]; intros cur W; try (rewrite walk_nil in *; done);
    rewrite walk_cons in W |- *; destruct (ns !! cur) as [[| |]|]; try done; destruct s as [| |n]; eauto;
    destruct (ns !! (cur ++ [n])%list) as [[i| |t]|]; try done; eauto.
  destruct links' as [|links']; [lia|]. apply IHl; [lia|done].
Qed.

Lemma walk_split links ns cur a b d q :
  walk links false ns cur (a ++ b) = Ok q -> walk links false ns cur a = Ok d ->
  exists links', (links' <= links)%nat /\ walk links' false ns d b = Ok q.
Proof.
  revert cur a. induction links as [|links IHl]; intros cur a; revert cur;
    induction a as [|s a IH]; intros cur W Wa;
    try (rewrite walk_nil in Wa; injection Wa as <-; by eexists _);
    cbn [app] in W; rewrite walk_cons in W, Wa; destruct (ns !! cur) as [[| |]|]; try done; destruct s as [| |n]; eauto;
    destruct (ns !! (cur ++ [n])%list) as [[i| |t]|]; try done; eauto.
  rewrite app_assoc in W. destruct (IHl _ _ W Wa) as (l & ? & ?). exists l. split; [lia|done].
Qed.

(** A name that is missing, below what the rest resolves to. *)
Lemma walk_app_missing links ns cur todo d n :
  walk links false ns cur todo = Ok d -> ns !! d = Some Directory -> ns !! (d ++ [n])%list = None ->
  walk links true ns cur (todo ++ [Name n]) = Ok (d ++ [n])%list.
Proof.
  intros W D N. revert cur todo W. induction links as [|links IHl]; intros cur todo; revert cur;
    induction todo as [|s rest IH]; intros cur W;
    try (rewrite walk_nil in W; injection W as ->; cbn [app]; by rewrite walk_cons, D, N);
    cbn [app]; rewrite walk_cons in W |- *; destruct (ns !! cur) as [[| |]|]; try done;
    destruct s as [| |m]; eauto;
    destruct (ns !! (cur ++ [m])%list) as [[i| |t]|]; try done; eauto.
  rewrite app_assoc. eauto.
Qed.

Lemma walk_missing links ns cur todo d n :
  walk links false ns cur todo = Ok d -> ns !! d = Some Directory -> ns !! (d ++ [n])%list = None ->
  walk links false ns cur (todo ++ [Name n]) = Err NotFound.
Proof.
  intros W D N. revert cur todo W. induction links as [|links IHl]; intros cur todo; revert cur;
    induction todo as [|s rest IH]; intros cur W;
    try (rewrite walk_nil in W; injection W as ->; cbn [app]; by rewrite walk_cons, D, N);
    cbn [app]; rewrite walk_cons in W |- *; destruct (ns !! cur) as [[| |]|]; try done;
    destruct s as [| |m]; eauto;
    destruct (ns !! (cur ++ [m])%list) as [[i| |t]|]; try done; eauto.
  rewrite app_assoc. eauto.
Qed.

Lemma walk_below_missing links create ns cur todo d n m :
  walk links false ns cur todo = Ok d -> ns !! d = Some Directory -> ns !! (d ++ [n])%list = None ->
  walk links create ns cur ((todo ++ [Name n]) ++ [Name m]) = Err NotFound.
Proof.
  intros W D N. revert cur todo W. induction links as [|links IHl]; intros cur todo; revert cur;
    induction todo as [|s rest IH]; intros cur W;
    try (rewrite walk_nil in W; injection W as ->; cbn [app]; rewrite walk_cons, D, N; by destruct create);
    cbn [app]; rewrite walk_cons in W |- *; destruct (ns !! cur) as [[| |]|]; try done;
    destruct s as [| |k]; eauto;
    destruct (ns !! (cur ++ [k])%list) as [[i| |t]|]; try done; eauto.
  rewrite !app_assoc. eauto.
Qed.

(** Steps that stay can be left out. *)
Definition not_here (s : Step) : bool := match s with Here => false | _ => true end.

Inductive dropped : list Step -> list Step -> Prop :=
| dropped_nil : dropped [] []
| dropped_keep s l l' : dropped l l' -> dropped (s :: l) (s :: l')
| dropped_here l l' : dropped l l' -> dropped (Here :: l) l'.

Lemma dropped_app a l l' : dropped l l' -> dropped (a ++ l) (a ++ l').
Proof. intros H. induction a; simpl; [done|by constructor]. Qed.

Lemma dropped_filter l : dropped l (List.filter not_here l).
Proof. induction l as [|[| |n] l IH]; simpl; by constructor. Qed.

Lemma walk_dropped links ns cur l l' q :
  dropped l l' -> walk links false ns cur l = Ok q -> walk links false ns cur l' = Ok q.
Proof.
  revert cur l l'. induction links as [|links IHl]; intros cur l l' H; revert cur;
    induction H as [|s l l' H IH|l l' H IH]; intros cur W; try done.
  2, 4: rewrite walk_cons in W; destruct (ns !! cur) as [[| |]|]; try done; by apply IH.
  all: rewrite walk_cons in W |- *; destruct (ns !! cur) as [[| |]|]; try done; destruct s as [| |n]; eauto;
    destruct (ns !! (cur ++ [n])%list) as [[i| |tgt]|]; try done; eauto.
  eapply IHl; [|exact W]. by apply dropped_app.
Qed.

(** ** Calls on resolved paths *)

Lemma plain_mono ns ns' q : ns ⊆ ns' -> plain ns q -> plain ns' q.
Proof.
  intros Sub [Hd Hq]. split.
  - intros d P Ne. exact (lookup_weaken _ _ _ _ (Hd d P Ne) Sub).
  - destruct (ns !! q) as [x|] eqn:E; [|done]. by rewrite (lookup_weaken _ _ _ _ E Sub).
Qed.

Section Calls.
Context (cwd : Canonical).
Implicit Types (fs : FS) (p : PathBuf) (q d : Canonical).

Lemma resolve_walk create q fs : resolve cwd create (of_canonical q) fs = walk MAX_LINKS create (nodes fs) [] (map Name q).
Proof. done. Qed.

Lemma resolve_plain create q fs : plain (nodes fs) q -> resolve cwd create (of_canonical q) fs = Ok q.
Proof. intros P. rewrite resolve_walk. by apply (walk_names _ _ _ []). Qed.

Lemma resolve_is_plain p fs q : plain (nodes fs) cwd -> resolve cwd false p fs = Ok q -> plain (nodes fs) q.
Proof.
  intros P W. assert (S : plain (nodes fs) (start cwd p)).
  { unfold start. destruct (absolute p); [by apply (plain_root _ cwd)|done]. }
  unfold resolve in W. destruct (absolute p), (steps p); try done; by eapply walk_plain_false in W.
Qed.

Lemma resolve_mono p fs fs' q : nodes fs ⊆ nodes fs' -> resolve cwd false p fs = Ok q -> resolve cwd false p fs' = Ok q.
Proof. intros Sub. unfold resolve. destruct (absolute p), (steps p); try done; by apply walk_mono. Qed.

Lemma resolve_missing d n fs :
  plain (nodes fs) d -> nodes fs !! d = Some Directory -> nodes fs !! (d ++ [n])%list = None ->
  resolve cwd true (of_canonical (d ++ [n])%list) fs = Ok (d ++ [n])%list.
Proof. intros P D N. rewrite resolve_walk. by apply (walk_names_missing _ _ []). Qed.

Lemma lstat_below d n fs :
  plain (nodes fs) d ->
  lstat cwd (of_canonical (d ++ [n])%list) fs =
  match nodes fs !! d with Some Directory => node_at (d ++ [n])%list fs | _ => Err NOT_A_DIRECTORY end.
Proof.
  intros P. unfold lstat, of_canonical. cbn [steps]. rewrite map_app, rev_app_distr. cbn [rev map app].
  rewrite rev_involutive. unfold start. cbn [absolute]. by rewrite (walk_names _ _ _ [] d) by done.
Qed.

Lemma lstat_plain q fs : plain (nodes fs) q -> lstat cwd (of_canonical q) fs = node_at q fs.
Proof.
  intros P. destruct q as [|n d _] using rev_ind; [done|]. rewrite lstat_below.
  - destruct P as [Hd _]. rewrite (Hd d); [done|by exists [n]|]. intros E. apply (f_equal length) in E. rewrite length_app in E. simpl in E. lia.
  - apply (plain_prefix _ _ _ P). by exists [n].
Qed.
End Calls.

Lemma elem_names_of i q fs : q ∈ names_of i fs <-> nodes fs !! q = Some (File i).
Proof.
  unfold names_of. rewrite list_elem_of_omap. split.
  - intros ([k x] & H & E). apply elem_of_map_to_list in H. simpl in E. destruct x as [j| |]; try done.
    destruct (N.eqb_spec i j); [|done]. by simplify_eq.
  - intros H. exists (q, File i). split; [by apply elem_of_map_to_list|]. simpl. by rewrite N.eqb_refl.
Qed.

(** A file with one name has no other. *)
Lemma only_name i q q' fs :
  (length (names_of i fs) <= 1)%nat -> nodes fs !! q = Some (File i) -> nodes fs !! q' = Some (File i) -> q = q'.
Proof.
  rewrite <- !elem_names_of. destruct (names_of i fs) as [|a [|b l]]; simpl; intros L Hq Hq'; try lia.
  - by apply not_elem_of_nil in Hq.
  - apply list_elem_of_singleton in Hq, Hq'. congruence.
Qed.

Lemma fresh_inode_unused q fs : nodes fs !! q <> Some (File (fresh_inode fs)).
Proof.
  intros H. assert (U : fresh_inode fs ∈ used fs).
  { apply list_elem_of_omap. exists (q, File (fresh_inode fs)). split; [by apply elem_of_map_to_list|done]. }
  assert (B : forall i l, i ∈ l -> (i <= foldr N.max 0 l)%N).
  { induction 1 as [x l|x y l _ IH]; simpl; lia. }
  apply B in U. unfold fresh_inode in U. lia.
Qed.

(** What is at a path: its node and, of a file, what is in it. *)
Definition seen (fs : FS) (q : Canonical) : option (Node * string) :=
  (fun x => (x, match x with File i => content i fs | _ => "" end)) <$> nodes fs !! q.

Lemma content_insert i j text ns ins :
  content i (mkFS ns (<[j := text]> ins)) = if decide (i = j) then text else content i (mkFS ns ins).
Proof. unfold content. simpl. destruct (decide (i = j)) as [->|]; by rewrite ?lookup_insert_eq, ?lookup_insert_ne. Qed.

(** No other name stands for the file at a path. *)
Definition alone (q : Canonical) (fs : FS) : Prop :=
  forall i q', nodes fs !! q = Some (File i) -> nodes fs !! q' = Some (File i) -> q = q'.

Lemma alone_names q fs : (forall i, nodes fs !! q = Some (File i) -> (length (names_of i fs) <= 1)%nat) -> alone q fs.
Proof. intros One i q' E E'. eapply only_name; eauto. Qed.

(** A write to a name that is the file's only one, or to none, is seen nowhere else. *)
Lemma put_seen q text fs q' : alone q fs -> q' <> q -> seen (put q text fs) q' = seen fs q'.
Proof.
  intros One Ne. unfold put, seen. destruct (nodes fs !! q) as [[i| |]|] eqn:E; [|done|done|].
  - simpl. destruct (nodes fs !! q') as [[j| |]|] eqn:E'; try done. simpl. rewrite content_insert.
    destruct (decide (j = i)) as [->|]; [|done]. destruct Ne. symmetry. eapply One; eauto.
  - simpl. rewrite lookup_insert_ne by done. destruct (nodes fs !! q') as [[j| |]|] eqn:E'; try done. simpl.
    rewrite content_insert. destruct (decide (j = fresh_inode fs)) as [->|]; [|done].
    by apply fresh_inode_unused in E'.
Qed.

Lemma put_nodes q text fs : nodes fs ⊆ nodes (put q text fs).
Proof.
  unfold put. destruct (nodes fs !! q) as [[| |]|] eqn:E; simpl; try done. by apply insert_subseteq.
Qed.

Lemma put_at q text fs :
  match nodes fs !! q with Some (File _) | None => True | _ => False end ->
  exists i, nodes (put q text fs) !! q = Some (File i) /\ content i (put q text fs) = text.
Proof.
  unfold put. destruct (nodes fs !! q) as [[i| |]|] eqn:E; intros H; try done; simpl;
    [exists i|exists (fresh_inode fs)]; rewrite ?lookup_insert_eq; (split; [done|]);
    rewrite content_insert; by rewrite decide_True.
Qed.

(** ** The size of a directory *)

(** How many nodes there are at a path and below. *)
Definition weight (ns : gmap Canonical Node) (q : Canonical) : nat := length (List.filter (within q) (map fst (map_to_list ns))).

Lemma NoDup_omap_inj {A B} (f : A -> option B) l :
  NoDup l -> (forall x y b, x ∈ l -> y ∈ l -> f x = Some b -> f y = Some b -> x = y) -> NoDup (omap f l).
Proof.
  induction 1 as [|x l Hx Hl IH]; intros Inj; simpl; [constructor|].
  assert (IH' : NoDup (omap f l)) by (apply IH; intros; eapply Inj; eauto; by right).
  destruct (f x) as [b|] eqn:E; [|done]. constructor; [|done].
  intros (y & Hy & Ey)%list_elem_of_omap. apply Hx. by rewrite (Inj x y b) by (done || by left || by right).
Qed.

Lemma child_key (kv : Canonical * Node) q n :
  (match rev kv.1 with m :: above => if bool_decide (rev above = q) then Some m else None | [] => None end) = Some n ->
  kv.1 = (q ++ [n])%list.
Proof.
  destruct kv as [k x]. simpl. intros H. rewrite <- (rev_involutive k).
  destruct (rev k) as [|m above]; [done|]. case_bool_decide as E; [|done]. injection H as <-. by rewrite <- E.
Qed.

Lemma NoDup_children q fs : NoDup (children q fs).
Proof.
  apply NoDup_omap_inj; [apply NoDup_map_to_list|].
  intros [k x] [k' x'] n Hx Hy E%child_key E'%child_key. simpl in *. subst.
  apply elem_of_map_to_list in Hx, Hy. by simplify_eq.
Qed.

(** A path is below one name at most. *)
Lemma below_one q names k :
  NoDup names ->
  (sum_list_with (fun n => Nat.b2n (within (q ++ [n])%list k)) names <= Nat.b2n (within q k && bool_decide (q <> k)))%nat.
Proof.
  induction 1 as [|n names Hn _ IH]; simpl; [lia|].
  destruct (within (q ++ [n])%list k) eqn:P; simpl; [|done]. apply bool_decide_eq_true in P.
  assert (Hq : within q k = true /\ q <> k).
  { destruct P as [r ->]. unfold within. rewrite <- app_assoc. split; [apply bool_decide_eq_true; by eexists|].
    intros E. rewrite <- (app_nil_r q) in E at 1. by apply app_inv_head in E. }
  destruct Hq as [-> Hne]. rewrite bool_decide_true by done. simpl.
  assert (Z : sum_list_with (fun n => Nat.b2n (within (q ++ [n])%list k)) names = 0%nat); [|lia].
  destruct P as [r ->]. clear -Hn. induction names as [|m names IH]; simpl; [done|].
  apply not_elem_of_cons in Hn as [Hm Hn]. rewrite IH by done. unfold within. rewrite bool_decide_false; [done|].
  intros [r' E]. rewrite <- !app_assoc in E. apply app_inv_head in E. simpl in E. by injection E.
Qed.

Lemma weight_below ns q names :
  NoDup names -> is_Some (ns !! q) -> (S (sum_list_with (fun n => weight ns (q ++ [n])%list) names) <= weight ns q)%nat.
Proof.
  intros Nd [x Hx]. unfold weight.
  assert (Hk : In q (map fst (map_to_list ns))) by (apply List.in_map_iff; exists (q, x); split; [done|]; by apply list_elem_of_In, elem_of_map_to_list).
  revert Hk. clear Hx. generalize (map fst (map_to_list ns)). intros keys Hk.
  assert (L : forall l, (sum_list_with (fun n => length (List.filter (within (q ++ [n])%list) l)) names <=
                    length (List.filter (fun k => within q k && bool_decide (q <> k)) l))%nat).
  { induction l as [|k l IH]; simpl; [induction names; simpl; [lia|]; apply IHnames; by inversion Nd|].
    pose proof (below_one q names k Nd) as B.
    assert (E : sum_list_with (fun n => length (if within (q ++ [n])%list k then k :: List.filter (within (q ++ [n])%list) l
                                        else List.filter (within (q ++ [n])%list) l)) names =
            (sum_list_with (fun n => Nat.b2n (within (q ++ [n])%list k)) names +
             sum_list_with (fun n => length (List.filter (within (q ++ [n])%list) l)) names)%nat).
    { clear. induction names as [|n names IH]; simpl; [done|]. rewrite IH. destruct (within _ k); simpl; lia. }
    rewrite E. destruct (within q k && _); simpl in *; lia. }
  specialize (L keys). enough (S (length (List.filter (fun k => within q k && bool_decide (q <> k)) keys)) <= length (List.filter (within q) keys))%nat by lia.
  clear -Hk. induction keys as [|k keys IH]; simpl in *; [done|].
  assert (Le : (length (List.filter (fun k => within q k && bool_decide (q <> k)) keys) <= length (List.filter (within q) keys))%nat).
  { clear. induction keys as [|k keys IH]; simpl; [done|]. destruct (within q k); simpl; [|done]. case_bool_decide; simpl; lia. }
  destruct Hk as [->|Hk].
  - assert (W : within q q = true) by by apply bool_decide_eq_true.
    rewrite W, (bool_decide_false (q <> q)) by (intros H; by apply H). simpl. lia.
  - specialize (IH Hk). destruct (within q k); simpl; [|done]. case_bool_decide; simpl; lia.
Qed.

Lemma weight_size ns q : (weight ns q <= size ns)%nat.
Proof.
  unfold weight. rewrite <- (length_map_to_list ns), <- (List.length_map fst). generalize (map fst (map_to_list ns)). intros l.
  induction l as [|k l IH]; simpl; [done|]. destruct (within q k); simpl; lia.
Qed.

(** ** Reasoning about calls *)

Section Triples.
Implicit Types (P E : FS -> Prop).

Lemma triple_call {A} P (f : FS -> result A IoError * FS) Q E :
  (forall s m, P s -> Q (Err (OtherError m)) s) -> (forall s, P s -> Q (f s).1 (f s).2) -> triple P (call f) Q E.
Proof.
  intros Hf Hr w Hw. unfold call. specialize (Hr _ Hw). destruct (faults w) as [|[m|] l]; simpl; [|by apply Hf|];
    by destruct (f (st w)).
Qed.

(** A look changes nothing; its answer is what is there. *)
Lemma triple_look {A} P (f : FS -> result A IoError) E :
  triple P (look f) (fun r s => P s /\ (f s = r \/ exists m, r = Err (OtherError m))) E.
Proof. apply triple_call; simpl; eauto. Qed.

Lemma preserves_look {A} I (f : FS -> result A IoError) : preserves I (look f).
Proof. intros w Hw. unfold look, call. by destruct (faults w) as [|[m|] l]. Qed.
End Triples.
