(* ===== verification/FileTool.v ===== *)
(** * The file tool (src/tools/file.rs)

    Reading, writing, listing and searching files below the authorized
    directories, over the file system of [Paths]: links are followed or refused
    where the source does, and every call may fail. *)
From stdpp Require Import base list strings gmap.
From Stdlib Require Import ZArith NArith Lia Ascii String.
From S2P Require Import Prelude RustStr Json Db Outgoing Web Paths.
Open Scope string_scope.
Local Notation length := Datatypes.length.

Record FileTool : Type := mkFileTool {
  root : PathBuf;
  extra_roots : list Canonical;
  max_read_bytes : N;
  max_search_results : nat;
  require_write_approval : bool
}.

Definition file_tool (root : PathBuf) : FileTool := mkFileTool root [] 200000 1000 false.
Definition with_write_approval (enabled : bool) (t : FileTool) : FileTool :=
  mkFileTool (root t) (extra_roots t) (max_read_bytes t) (max_search_results t) enabled.

Definition tool_error (e : IoError) : OmonError := ToolExecution (show_error e).
Definition escapes {A} : result A OmonError := Err (ToolExecution "path escapes tool root").

Definition required (args : value) (key : string) : result string OmonError :=
  match get key args ≫= as_str with Some s => Ok s | None => Err (ToolExecution ("missing string argument: " ++ key)) end.

Definition valid_utf8 (bytes : string) : bool := match from_utf8 (list_ascii_of_string bytes) with Utf8Ok => true | _ => false end.
(** [String::from_utf8_lossy]. *)
Definition lossy_text (bytes : string) : string := page_text (lossy (list_ascii_of_string bytes)).

Fixpoint strip_root (root q : Canonical) : option Canonical :=
  match root, q with
  | [], _ => Some q
  | a :: root, b :: q => if String.eqb a b then strip_root root q else None
  | _, _ => None
  end.

Definition backslash : ascii := "\".
Fixpoint slashes (s : string) : string :=
  match s with "" => "" | String c s => String (if Ascii.eqb c backslash then "/" else c)%char (slashes s) end.

Definition relative_string (root q : Canonical) : string :=
  match strip_root root q with
  | Some rest => slashes (lossy_text (String.concat "/" rest))
  | None => lossy_text (show_canonical q)
  end.

(** ** Search *)

Record Match : Type := mkMatch { m_path : string; m_line : N; m_content : string }.
Definition match_value (m : Match) : value :=
  JObject [("content", JString (m_content m)); ("line", JPos (m_line m)); ("path", JString (m_path m))].
Definition match_le (a b : Match) : bool :=
  match String.compare (m_path a) (m_path b) with Lt => true | Gt => false | Eq => (m_line a <=? m_line b)%N end.

(** The matching lines of a file, numbered from [line]. *)
Fixpoint matching_lines (shown query : string) (line : N) (ls : list string) : list Match :=
  match ls with
  | [] => []
  | l :: rest =>
      (if contains query l then [mkMatch shown line l] else []) ++ matching_lines shown query (N.succ line) rest
  end%list.

(** Matches are pushed one by one until there are [limit]: [inr] stops. *)
Fixpoint push_matches (limit : nat) (found acc : list Match) : list Match + list Match :=
  match found with
  | [] => inl acc
  | m :: rest =>
      let acc := (acc ++ [m])%list in
      if (limit <=? length acc)%nat then inr acc else push_matches limit rest acc
  end.

Definition SEARCHED_BYTES : N := 1024 * 1024.

Section Tool.
Context (cwd : Canonical) (arrange : list string -> list string).
Notation F := (M FS).
Local Notation canonicalize := (canonicalize cwd).
Local Notation symlink_metadata := (symlink_metadata cwd).

Open Scope db_scope.

(** A call whose error ends the operation. *)
Definition try_io {A} (m : F (result A IoError)) : F A :=
  r <- m ;; match r with Ok a => ret a | Err e => fail (tool_error e) end.

(** [None]: out of fuel. *)
Fixpoint search_loop (fuel : nat) (shown_root start : Canonical) (query : string) (limit : nat)
    (pending : list Canonical) (matches : list Match) : F (option (list Match)) :=
  match fuel, pending with
  | _, [] => ret (Some (sort_by match_le matches))
  | O, _ => ret None
  | S fuel, path :: pending =>
      m <- try_io (symlink_metadata (of_canonical path)) ;;
      if is_symlink m then search_loop fuel shown_root start query limit pending matches
      else if is_dir m then
        entries <- try_io (read_dir cwd arrange (of_canonical path)) ;;
        let below := List.filter (within start) (map (fun n => path ++ [n])%list entries) in
        search_loop fuel shown_root start query limit (rev below ++ pending)%list matches
      else if (SEARCHED_BYTES <? file_len m)%N then search_loop fuel shown_root start query limit pending matches
      else
        r <- read_file cwd (of_canonical path) ;;
        match r with
        | Ok bytes =>
            if valid_utf8 bytes then
              match push_matches limit (matching_lines (relative_string shown_root path) query 1 (lines bytes)) matches with
              | inr full => ret (Some full)
              | inl matches => search_loop fuel shown_root start query limit pending matches
              end
            else search_loop fuel shown_root start query limit pending matches
        | Err _ => search_loop fuel shown_root start query limit pending matches
        end
  end.

(** ** Authorization *)

Fixpoint with_authorized_roots_from (paths : list PathBuf) : F (list Canonical) :=
  match paths with
  | [] => ret []
  | p :: rest =>
      r <- canonicalize p ;;
      kept <- match r with
              | Ok q => d <- metadata cwd (of_canonical q) ;;
                        ret (match d with Ok m => if is_dir m then [q] else [] | Err _ => [] end)
              | Err _ => ret []
              end ;;
      more <- with_authorized_roots_from rest ;;
      ret (kept ++ more)%list
  end.
Definition with_authorized_roots (paths : list PathBuf) (t : FileTool) : F FileTool :=
  roots <- with_authorized_roots_from paths ;;
  ret (mkFileTool (root t) roots (max_read_bytes t) (max_search_results t) (require_write_approval t)).

Section WithTool.
Context (t : FileTool).

Definition canonical_root : F Canonical := try_io (canonicalize (root t)).

Definition is_authorized (q : Canonical) : F bool :=
  r <- attempt canonical_root ;;
  ret (match r with Ok root => within root q | Err _ => false end || existsb (fun root => within root q) (extra_roots t)).

(** [authorize]: the check that follows each resolution. *)
Definition authorize (q : Canonical) : F unit :=
  ok <- is_authorized q ;; if ok : bool then ret tt else lift escapes.

Definition ensure_inside_root (p : PathBuf) : F Canonical :=
  q <- try_io (canonicalize p) ;; authorize q ;;; ret q.

Definition checked_existing (v : string) : F Canonical :=
  target <- (if absolute (path_of v) then ret (path_of v)
             else base <- canonical_root ;; ret (join_path (of_canonical base) (path_of v))) ;;
  ensure_inside_root target.

(** ** Operations *)

(** The bytes of an open file, from an offset: [read_exact]. *)
Definition read_exact (path : Canonical) (off n : N) : F string :=
  try_io (look (fun fs =>
    match nodes fs !! path with
    | Some (File i) =>
        let bytes := content i fs in
        if (off + n <=? N.of_nat (len bytes))%N then Ok (take_str (N.to_nat n) (drop_str (N.to_nat off) bytes))
        else Err (OtherError "failed to fill whole buffer")
    | _ => Err IS_A_DIRECTORY
    end)).

Definition read (args : value) : F value :=
  v <- lift (required args "path") ;;
  path <- checked_existing v ;;
  m <- try_io (symlink_metadata (of_canonical path)) ;;
  if is_symlink m || negb (is_file m) then
    fail (ToolExecution "read path must resolve to a regular file inside tool root")
  else
    let total_len := file_len m in
    if (max_read_bytes t <? total_len)%N then
      let head_len := (max_read_bytes t * 2 / 5)%N in
      let tail_len := (max_read_bytes t - head_len)%N in
      try_io (read_file cwd (of_canonical path)) ;;;
      head <- read_exact path 0 head_len ;;
      try_io (look (fun _ => Ok tt)) ;;;
      tail <- read_exact path (total_len - tail_len) tail_len ;;
      let omitted := (total_len - (head_len + tail_len))%N in
      let lf2 := String LF (String LF "") in
      ret (JObject [("content", JString (lossy_text head ++ lf2 ++ "... [file truncated: " ++ show_N omitted ++
                                         " bytes omitted] ..." ++ lf2 ++ lossy_text tail));
                    ("truncated", JBool true)])
    else
      bytes <- try_io (read_file cwd (of_canonical path)) ;;
      if valid_utf8 bytes then ret (JObject [("content", JString bytes)])
      else fail (ToolExecution "file is not valid UTF-8").

(** The nearest directory above that is there, and the names below it; the
    steps of the path are in reverse. *)
Fixpoint existing_ancestor (above : list Step) (uncreated : list string) : F (list Step * list string) :=
  there <- exists_ cwd (mkPath true (rev above)) ;;
  if there : bool then ret (rev above, uncreated)
  else match above with
       | Name n :: above => existing_ancestor above (n :: uncreated)
       | _ => lift escapes
       end.

Fixpoint create_below (current : Canonical) (names : list string) : F Canonical :=
  match names with
  | [] => ret current
  | n :: rest =>
      let current := (current ++ [n])%list in
      r <- symlink_metadata (of_canonical current) ;;
      match r with
      | Ok m => if is_symlink m || negb (is_dir m)
                then fail (ToolExecution "write path contains a non-directory or symbolic link") else ret tt
      | Err NotFound =>
          try_io (create_dir cwd (of_canonical current)) ;;;
          m <- try_io (symlink_metadata (of_canonical current)) ;;
          if is_symlink m || negb (is_dir m)
          then fail (ToolExecution "created path is not a directory inside tool root") else ret tt
      | Err e => fail (tool_error e)
      end ;;;
      ensure_inside_root (of_canonical current) ;;;
      create_below current rest
  end.

Definition create_checked_directories (dir : PathBuf) : F Canonical :=
  r <- existing_ancestor (rev (components dir)) [] ;;
  let '(ancestor, uncreated) := r in
  canonical_ancestor <- try_io (canonicalize (mkPath true ancestor)) ;;
  authorize canonical_ancestor ;;;
  create_below canonical_ancestor uncreated.

(** What may be there already. *)
Definition check_target (target : Canonical) : F unit :=
  r <- symlink_metadata (of_canonical target) ;;
  match r with
  | Ok m =>
      if is_symlink m then fail (ToolExecution "refusing to write through a symbolic link")
      else if is_dir m then fail (ToolExecution "write path resolves to a directory")
      else
        ensure_inside_root (of_canonical target) ;;;
        if (1 <? nlink m)%nat then fail (ToolExecution "refusing to write a hard-linked file") else ret tt
  | Err NotFound => ret tt
  | Err e => fail (tool_error e)
  end.

(** [partial]: what a write that fails leaves. *)
Definition write (partial : option string) (args : value) : F value :=
  path_arg <- lift (required args "path") ;;
  content <- lift (required args "content") ;;
  base <- canonical_root ;;
  let path := if absolute (path_of path_arg) then path_of path_arg else join_path (of_canonical base) (path_of path_arg) in
  dir <- lift (ok_or (parent path) (ToolExecution "invalid write path")) ;;
  created_parent <- create_checked_directories dir ;;
  final_file_name <- lift (ok_or (file_name path) (ToolExecution "invalid write path")) ;;
  let target := (created_parent ++ [final_file_name])%list in
  check_target target ;;;
  try_io (write_file cwd (of_canonical target) content partial) ;;;
  written <- ensure_inside_root (of_canonical target) ;;
  m <- try_io (symlink_metadata (of_canonical written)) ;;
  if is_symlink m || negb (is_file m) then fail (ToolExecution "written path is not a regular file inside tool root")
  else ret (JObject [("bytes_written", JPos (N.of_nat (len content))); ("path", JString (relative_string base written))]).

Record Entry : Type := mkEntry { e_name : string; e_path : string; e_is_dir : bool; e_size : N }.
Definition entry_value (e : Entry) : value :=
  JObject [("is_dir", JBool (e_is_dir e)); ("name", JString (e_name e)); ("path", JString (e_path e)); ("size", JPos (e_size e))].
Definition entry_le (a b : Entry) : bool := match String.compare (e_path a) (e_path b) with Gt => false | _ => true end.

Fixpoint list_entries (shown_root path : Canonical) (names : list string) : F (list Entry) :=
  match names with
  | [] => ret []
  | n :: rest =>
      m <- try_io (symlink_metadata (of_canonical (path ++ [n])%list)) ;;
      more <- list_entries shown_root path rest ;;
      ret (mkEntry (lossy_text n) (relative_string shown_root (path ++ [n])%list) (is_dir m) (file_len m) :: more)
  end.

Definition path_or_dot (args : value) : string := default "." (get "path" args ≫= as_str).

Definition list_ (args : value) : F value :=
  path <- checked_existing (path_or_dot args) ;;
  names <- try_io (read_dir cwd arrange (of_canonical path)) ;;
  base <- canonical_root ;;
  entries <- list_entries base path names ;;
  ret (JObject [("entries", JArray (map entry_value (sort_by entry_le entries)))]).

(** [fuel] bounds the nodes visited; [None] when it is used up. *)
Definition search (fuel : nat) (args : value) : F (option value) :=
  query <- lift (required args "query") ;;
  start <- checked_existing (path_or_dot args) ;;
  base <- canonical_root ;;
  found <- search_loop fuel base start query (max_search_results t) [start] [] ;;
  ret ((fun matches => JObject [("matches", JArray (map match_value matches))]) <$> found).

Definition requires_approval (args : value) : option string :=
  if require_write_approval t then
    match get "operation" args ≫= as_str with
    | Some op =>
        if String.eqb (to_ascii_lowercase op) "write"
        then Some ("destructive file write to '" ++ default "file" (get "path" args ≫= as_str) ++ "'") else None
    | None => None
    end
  else None.

Definition execute (fuel : nat) (partial : option string) (args : value) : F (option value) :=
  let some (m : F value) := v <- m ;; ret (Some v) in
  operation <- lift (required args "operation") ;;
  if String.eqb operation "read" then some (read args)
  else if String.eqb operation "write" then some (write partial args)
  else if String.eqb operation "list" then some (list_ args)
  else if String.eqb operation "search" then search fuel args
  else fail (ToolExecution ("unsupported file operation: " ++ operation)).
End WithTool.
End Tool.

(** ** Confinement *)

(** Writing may change what is at [q] only below an authorized directory. *)
Definition inside (base : Canonical) (t : FileTool) (q : Canonical) : Prop :=
  base `prefix_of` q \/ exists e, In e (extra_roots t) /\ e `prefix_of` q.

Section Confined.
Context (cwd : Canonical) (t : FileTool).
(** The file system at the start, and what the tool's root resolves to then. *)
Context (fs0 : FS) (base : Canonical).
Context (cwd_there : plain (nodes fs0) cwd) (root_there : resolve cwd false (root t) fs0 = Ok base).

Record frame (s : FS) : Prop := mkFrame {
  frame_nodes : nodes fs0 ⊆ nodes s;
  frame_seen : forall q, ~ inside base t q -> seen s q = seen fs0 q
}.

Lemma frame_start : frame fs0.
Proof. by split. Qed.

Lemma inside_snoc q n : inside base t q -> inside base t (q ++ [n])%list.
Proof. intros [P|(e & I & P)]; [left|right; exists e; split; [done|]]; by apply prefix_app_r. Qed.

(** [put], or a new directory, at a path that is inside. *)
Lemma frame_put q text s :
  frame s -> inside base t q -> (forall i, nodes s !! q = Some (File i) -> (length (names_of i s) <= 1)%nat) -> frame (put q text s).
Proof.
  intros [Hn Hs] Hq One. split; [by etrans; [|apply put_nodes]|].
  intros q' Hq'. rewrite put_seen; [by apply Hs|by apply alone_names|]. by intros ->.
Qed.

Lemma frame_create q s :
  frame s -> inside base t q -> nodes s !! q = None -> frame (mkFS (<[q := Directory]> (nodes s)) (inodes s)).
Proof.
  intros [Hn Hs] Hq N. split; [etrans; [done|]; by apply insert_subseteq|].
  intros q' Hq'. rewrite <- Hs by done. unfold seen. simpl. by rewrite lookup_insert_ne by (intros ->; done).
Qed.

Lemma frame_plain_cwd s : frame s -> plain (nodes s) cwd.
Proof. intros [Hn _]. by apply (plain_mono (nodes fs0)). Qed.

Lemma triple_try {A} P (m : M FS (result A IoError)) Q E :
  triple P m (fun r s => match r with Ok a => Q a s | Err _ => E s end) E -> triple P (try_io m) Q E.
Proof.
  intros H. eapply triple_bind; [exact H|]. intros [a|e]; simpl; [by apply triple_ret|by apply triple_fail].
Qed.

(** A look under an invariant: the answer, or an error. *)
Lemma triple_try_look {A} P (f : FS -> result A IoError) :
  triple P (try_io (look f)) (fun a s => P s /\ f s = Ok a) P.
Proof.
  apply triple_try. eapply triple_weaken; [apply triple_look|done| |done].
  intros [a|e] s [Hs [H|(m & H)]]; by simplify_eq.
Qed.

Lemma triple_bind_try_look {A B} P (f : FS -> result A IoError) (k : A -> M FS B) Q :
  (forall a, triple (fun s => P s /\ f s = Ok a) (k a) Q frame) -> (forall s, P s -> frame s) ->
  triple P (bind (try_io (look f)) k) Q frame.
Proof.
  intros Hk HP. eapply triple_bind; [|exact Hk].
  intros w Hw. pose proof (triple_try_look P f w Hw) as H. destruct (try_io (look f) w) as [[a|e] w']; auto.
Qed.

Lemma is_authorized_spec P q :
  (forall s, P s -> frame s) ->
  triple P (is_authorized cwd t q) (fun b s => P s /\ (b = true -> inside base t q)) P.
Proof.
  intros HP. unfold is_authorized. eapply triple_bind.
  - apply triple_attempt. unfold canonical_root, canonicalize. apply triple_try_look.
  - intros r. apply triple_ret. intros s Hs. split; [by destruct r as [?|?]; [destruct Hs|]|].
    intros [H|H]%orb_true_iff.
    + destruct r as [b|]; [|done]. destruct Hs as [Hs R]. left.
      rewrite (resolve_mono _ _ _ _ _ (frame_nodes _ (HP _ Hs)) root_there) in R. injection R as <-.
      by apply bool_decide_eq_true in H.
    + right. apply existsb_exists in H as (e & I & H). exists e. split; [done|]. by apply bool_decide_eq_true in H.
Qed.

Lemma authorize_spec P q :
  (forall s, P s -> frame s) -> triple P (authorize cwd t q) (fun _ s => P s /\ inside base t q) P.
Proof.
  intros HP. unfold authorize. eapply triple_bind; [by apply is_authorized_spec|].
  intros [|]; [apply triple_ret; intros s [? H]; eauto|]. intros w [H _]. done.
Qed.

Lemma ensure_inside_spec P p :
  (forall s, P s -> frame s) ->
  triple P (ensure_inside_root cwd t p) (fun q s => P s /\ inside base t q /\ plain (nodes s) q /\ resolve cwd false p s = Ok q) P.
Proof.
  intros HP. unfold ensure_inside_root, canonicalize. eapply triple_bind; [apply triple_try_look|].
  intros q. apply (triple_bind _ _ _ (fun _ s => (P s /\ resolve cwd false p s = Ok q) /\ inside base t q)).
  - eapply triple_weaken; [apply (authorize_spec (fun s => P s /\ resolve cwd false p s = Ok q))|..]; simpl; try tauto.
    intros s [? _]; auto.
  - intros []. apply triple_ret. intros s [[Hs R] I]. split_and!; try done.
    eapply resolve_is_plain; [|exact R]. by apply frame_plain_cwd, HP.
Qed.

(** A path, inside, that resolves to itself. *)
Definition reached (d : Canonical) (s : FS) : Prop := frame s /\ inside base t d /\ plain (nodes s) d.

Lemma reached_frame d s : reached d s -> frame s.
Proof. by intros [? _]. Qed.

Lemma lstat_reached d n s x :
  reached d s -> lstat cwd (of_canonical (d ++ [n])%list) s = Ok x -> nodes s !! d = Some Directory /\ nodes s !! (d ++ [n])%list = Some x.
Proof.
  intros (_ & _ & P) H. rewrite lstat_below in H by done. destruct (nodes s !! d) as [[| |]|]; try done.
  unfold node_at in H. by destruct (nodes s !! (d ++ [n])%list); simplify_eq.
Qed.

Lemma lstat_missing d n s :
  reached d s -> lstat cwd (of_canonical (d ++ [n])%list) s = Err NotFound ->
  nodes s !! d = Some Directory /\ nodes s !! (d ++ [n])%list = None.
Proof.
  intros (_ & _ & P) H. rewrite lstat_below in H by done. destruct (nodes s !! d) as [[| |]|]; try done.
  unfold node_at in H. by destruct (nodes s !! (d ++ [n])%list).
Qed.

Lemma reached_snoc d n s :
  reached d s -> nodes s !! d = Some Directory ->
  match nodes s !! (d ++ [n])%list with Some (File _) | Some Directory => True | _ => False end -> reached (d ++ [n])%list s.
Proof. intros (F & I & P) D N. split_and!; [done|by apply inside_snoc|by apply plain_snoc]. Qed.

Lemma create_dir_spec d n : preserves (reached d) (create_dir cwd (of_canonical (d ++ [n])%list)).
Proof.
  apply triple_preserves. unfold create_dir. apply triple_call; [done|]. intros s R.
  destruct (lstat _ _ s) as [x|[|m]] eqn:L; [done| |done]. destruct (lstat_missing _ _ _ R L) as [D N].
  destruct R as (F & I & P). rewrite resolve_missing by done. simpl. split_and!; [|done|].
  - apply frame_create; [done|by apply inside_snoc|done].
  - apply (plain_mono (nodes s)); [by apply insert_subseteq|done].
Qed.

(** What [symlink_metadata] tells of a name below. *)
Lemma metadata_spec d n :
  triple (reached d) (symlink_metadata cwd (of_canonical (d ++ [n])%list))
    (fun r s => reached d s /\
       match r with
       | Ok m => nodes s !! d = Some Directory /\ exists x, nodes s !! (d ++ [n])%list = Some x /\ m = metadata_of s x
       | Err NotFound => nodes s !! d = Some Directory /\ nodes s !! (d ++ [n])%list = None
       | Err _ => True
       end) (reached d).
Proof.
  unfold symlink_metadata. intros w R. pose proof (triple_look (reached d) (fun fs =>
    match lstat cwd (of_canonical (d ++ [n])%list) fs with Ok x => Ok (metadata_of fs x) | Err e => Err e end) (reached d) w R) as H.
  destruct (look _ w) as [[r|e] w']; [|done]. destruct H as [R' H]. split; [done|].
  destruct H as [<-|(m & ->)]; [|done]. destruct (lstat cwd _ (st w')) as [x|[|]] eqn:L; [| |done].
  - destruct (lstat_reached _ _ _ _ R' L). eauto.
  - by apply lstat_missing.
Qed.

Lemma is_dir_metadata s x : is_dir (metadata_of s x) = true -> x = Directory.
Proof. by destruct x. Qed.

Lemma create_below_spec d names :
  triple (reached d) (create_below cwd t d names) (fun d' s => reached d' s) frame.
Proof.
  revert d. induction names as [|n names IH]; intros d; simpl; [by apply triple_ret|].
  apply (triple_bind _ _ _ (fun r s => reached d s /\
       match r with
       | Ok m => nodes s !! d = Some Directory /\ exists x, nodes s !! (d ++ [n])%list = Some x /\ m = metadata_of s x
       | Err NotFound => nodes s !! d = Some Directory /\ nodes s !! (d ++ [n])%list = None
       | Err _ => True
       end)).
  { eapply triple_weaken; [apply metadata_spec|done|done|apply reached_frame]. }
  intros r. apply (triple_bind _ _ _ (fun _ => reached (d ++ [n])%list)).
  - destruct r as [m|[|m]].
    + destruct (is_symlink m || negb (is_dir m)) eqn:B; [apply triple_fail; intros s [? _]; by eapply reached_frame|].
      apply triple_ret. intros s (R & D & x & N & ->). apply orb_false_iff in B as [_ B%negb_false_iff].
      apply reached_snoc; [done|done|]. apply is_dir_metadata in B as ->. by rewrite N.
    + apply (triple_bind _ _ _ (fun _ => reached d)).
      * apply triple_try. eapply triple_weaken; [apply triple_preserves, (create_dir_spec d n)|by intros s [? _]|..].
        -- intros [[]|e] s R; [done|by eapply reached_frame].
        -- apply reached_frame.
      * intros []. eapply triple_bind; [apply triple_try|].
        -- eapply triple_weaken; [apply metadata_spec|done|..|apply reached_frame].
           intros [m|e] s H; [exact H|]. by destruct H as [?%reached_frame _].
        -- intros m. simpl. destruct (is_symlink m || negb (is_dir m)) eqn:B;
             [apply triple_fail; intros s [? _]; by eapply reached_frame|].
           apply triple_ret. intros s (R & D & x & N & ->). apply orb_false_iff in B as [_ B%negb_false_iff].
           apply reached_snoc; [done|done|]. apply is_dir_metadata in B as ->. by rewrite N.
    + apply triple_fail. intros s [? _]. by eapply reached_frame.
  - intros _. apply (triple_bind _ _ _ (fun _ => reached (d ++ [n])%list)); [|intros _; apply IH].
    eapply triple_weaken; [apply (ensure_inside_spec (reached (d ++ [n])%list)), reached_frame|done|by intros ?? [? _]|apply reached_frame].
Qed.

Lemma existing_ancestor_spec above uncreated : preserves frame (existing_ancestor cwd above uncreated).
Proof.
  revert uncreated. induction above as [|s above IH]; intros uncreated; simpl;
    (apply preserves_bind; [unfold exists_; apply preserves_bind; [apply preserves_look|intros; apply preserves_ret]|]);
    intros [|]; try apply preserves_ret; try apply preserves_lift; destruct s; try apply preserves_lift; auto.
Qed.

Lemma create_checked_spec dir :
  triple frame (create_checked_directories cwd t dir) (fun d s => reached d s) frame.
Proof.
  unfold create_checked_directories. apply (triple_bind _ _ _ (fun _ => frame)).
  { apply triple_preserves, existing_ancestor_spec. }
  intros [ancestor uncreated]. unfold canonicalize. eapply triple_bind; [apply triple_try_look|].
  intros q. simpl. apply (triple_bind _ _ _ (fun _ => reached q)); [|intros []; apply create_below_spec].
  eapply triple_weaken; [apply (authorize_spec (fun s => frame s /\ resolve cwd false (mkPath true ancestor) s = Ok q))|..]; simpl; try tauto.
  intros _ s [[F R] I]. split_and!; [done..|]. eapply resolve_is_plain; [by apply frame_plain_cwd|exact R].
Qed.

(** What the target may be once it is checked: nothing, or a file of one name. *)
Lemma check_target_spec d n :
  triple (reached d) (check_target cwd t (d ++ [n])%list)
    (fun _ s => reached d s /\ nodes s !! d = Some Directory /\
       match nodes s !! (d ++ [n])%list with
       | None => True
       | Some (File i) => (length (names_of i s) <= 1)%nat
       | Some _ => False
       end) frame.
Proof.
  unfold check_target. eapply triple_bind; [eapply triple_weaken; [apply metadata_spec|done|intros r s H; exact H|apply reached_frame]|].
  intros [m|[|m]]; simpl; [|by apply triple_ret; intros s (R & D & N); rewrite N|by apply triple_fail; intros s [? _]; eapply reached_frame].
  destruct (is_symlink m) eqn:S; [by apply triple_fail; intros s [? _]; eapply reached_frame|].
  destruct (is_dir m) eqn:B; [by apply triple_fail; intros s [? _]; eapply reached_frame|].
  eapply triple_bind; [eapply triple_weaken; [apply (ensure_inside_spec (fun s => reached d s /\ nodes s !! d = Some Directory /\
      exists x, nodes s !! (d ++ [n])%list = Some x /\ m = metadata_of s x))|done|intros r s H; exact H|]|].
  1,2: by intros s [? _]; eapply reached_frame.
  intros q. simpl. destruct (1 <? nlink m)%nat eqn:L; [by apply triple_fail; intros s [[? _] _]; eapply reached_frame|].
  apply triple_ret. intros s ((R & D & x & N & ->) & _). split_and!; [done..|]. rewrite N.
  destruct x as [i| |]; try done. simpl in L. by apply Nat.ltb_ge in L.
Qed.

Lemma write_file_spec d n text partial :
  triple (fun s => reached d s /\ nodes s !! d = Some Directory /\
       match nodes s !! (d ++ [n])%list with
       | None => True
       | Some (File i) => (length (names_of i s) <= 1)%nat
       | Some _ => False
       end)
    (write_file cwd (of_canonical (d ++ [n])%list) text partial) (fun _ => reached d) frame.
Proof.
  intros w (R & D & N). pose proof R as (F & I & P).
  assert (T : resolve cwd true (of_canonical (d ++ [n])%list) (st w) = Ok (d ++ [n])%list).
  { destruct (nodes (st w) !! (d ++ [n])%list) as [[i| |]|] eqn:E; try done; [|by apply resolve_missing].
    apply resolve_plain, plain_snoc; [done|done|]. by rewrite E. }
  assert (K : forall c, reached d (put (d ++ [n])%list c (st w))).
  { intros c. split_and!; [|done|by apply (plain_mono (nodes (st w))); [apply put_nodes|]].
    apply frame_put; [done|by apply inside_snoc|]. intros i E. by rewrite E in N. }
  unfold write_file. rewrite T. destruct (faults w) as [|[m|] l]; simpl; [|by destruct partial|];
    destruct (nodes (st w) !! (d ++ [n])%list) as [[i| |]|]; done || apply K.
Qed.

(** However a write ends, and whatever calls fail, it changes only what is inside. *)
Lemma write_kept partial args : preserves frame (write cwd t partial args).
Proof.
  apply triple_preserves. unfold write.
  do 2 (apply triple_bind_lift; [done|]; intros ? _).
  unfold canonical_root, canonicalize. eapply triple_bind; [eapply triple_weaken; [apply triple_try_look|done|by intros ?? [H _]; exact H|done]|].
  intros b. simpl. apply triple_bind_lift; [done|]. intros dir _.
  eapply triple_bind; [apply create_checked_spec|]. intros d. simpl.
  apply triple_bind_lift; [by intros s [? _]|]. intros n _.
  eapply triple_bind; [apply check_target_spec|]. intros []. simpl.
  apply (triple_bind _ _ _ (fun _ => reached d)).
  { apply triple_try. eapply triple_weaken; [apply (write_file_spec d n)|done| |done].
    intros [?|?] s H; [done|by eapply reached_frame]. }
  intros []. apply (triple_bind _ _ _ (fun _ => frame)).
  { eapply triple_weaken; [apply (ensure_inside_spec (reached d)), reached_frame|done|by intros ?? [[? _] _]|apply reached_frame]. }
  intros q. apply triple_preserves. unfold symlink_metadata. apply preserves_bind.
  - unfold try_io. apply preserves_bind; [apply preserves_look|]. intros [?|?]; [apply preserves_ret|apply preserves_fail].
  - intros m. destruct (is_symlink m || negb (is_file m)); [apply preserves_fail|apply preserves_ret].
Qed.
End Confined.

(** ** Operations that only look *)

Ltac look_steps :=
  repeat (cbv beta zeta;
    lazymatch goal with
    | |- preserves _ (bind _ _) => apply preserves_bind; [|intros ?]
    | |- preserves _ (ret _) => apply preserves_ret
    | |- preserves _ (fail _) => apply preserves_fail
    | |- preserves _ (lift _) => apply preserves_lift
    | |- preserves _ (attempt _) => apply preserves_attempt
    | |- preserves _ (look _) => apply preserves_look
    | |- preserves _ (match ?x with _ => _ end) => destruct x
    | |- preserves _ (try_io _) => unfold try_io
    | |- preserves _ (canonicalize _ _) => unfold canonicalize
    | |- preserves _ (symlink_metadata _ _) => unfold symlink_metadata
    | |- preserves _ (metadata _ _) => unfold metadata
    | |- preserves _ (read_file _ _) => unfold read_file
    | |- preserves _ (read_dir _ _ _) => unfold read_dir
    | |- preserves _ (read_exact _ _ _) => unfold read_exact
    | |- preserves _ (canonical_root _ _) => unfold canonical_root
    | |- preserves _ (is_authorized _ _ _) => unfold is_authorized
    | |- preserves _ (authorize _ _ _) => unfold authorize
    | |- preserves _ (ensure_inside_root _ _ _) => unfold ensure_inside_root
    | |- preserves _ (checked_existing _ _ _) => unfold checked_existing
    end; eauto).

Section Looking.
Context (cwd : Canonical) (arrange : list string -> list string) (I : FS -> Prop).

Lemma search_loop_looks fuel root start query limit pending matches :
  preserves I (search_loop cwd arrange fuel root start query limit pending matches).
Proof.
  revert pending matches. induction fuel as [|fuel IH]; intros [|path pending] matches; simpl; look_steps.
Qed.

Lemma list_entries_looks root path names : preserves I (list_entries cwd root path names).
Proof. induction names as [|n names IH]; simpl; look_steps. Qed.

Lemma read_looks t args : preserves I (read cwd t args).
Proof. unfold read. look_steps. Qed.
Lemma list_looks t args : preserves I (list_ cwd arrange t args).
Proof. unfold list_. look_steps. apply list_entries_looks. Qed.
Lemma search_looks t fuel args : preserves I (search cwd arrange t fuel args).
Proof. unfold search. look_steps. apply search_loop_looks. Qed.

Lemma with_authorized_roots_looks paths t : preserves I (with_authorized_roots cwd paths t).
Proof.
  unfold with_authorized_roots. look_steps. induction paths as [|p paths IH]; simpl; look_steps.
Qed.
End Looking.

(** C26: Whatever the tool is asked to do, and whichever calls fail on the way,
    nothing outside the authorized directories changes: at a path that is
    neither below what the root resolved to at the start nor below another
    authorized directory there is the same node, and in a file the same bytes,
    although links lead out of the directories and files have other names. *)
Theorem tool_stays_inside cwd arrange t fuel partial args w base q :
  plain (nodes (st w)) cwd -> resolve cwd false (root t) (st w) = Ok base -> ~ inside base t q ->
  seen (st (execute cwd arrange t fuel partial args w).2) q = seen (st w) q.
Proof.
  intros C R O. apply (frame_seen t (st w) base); [|done].
  assert (G : preserves (frame t (st w) base) (execute cwd arrange t fuel partial args)).
  { unfold execute. apply preserves_bind_lift. intros op _.
    repeat case_match; try (apply preserves_bind; [|intros; apply preserves_ret]);
      [apply read_looks|by eapply write_kept|apply list_looks|apply search_looks|apply preserves_fail]. }
  apply G, frame_start.
Qed.

(** ** What is told *)

Section Told.
Context (cwd : Canonical) (t : FileTool) (fs : FS) (base : Canonical).
Context (cwd_there : plain (nodes fs) cwd) (root_there : resolve cwd false (root t) fs = Ok base).
Local Notation here := (eq fs).

Lemma here_frame s : here s -> frame t fs base s.
Proof. intros <-. apply frame_start. Qed.

Lemma told_authorized v (E : FS -> Prop) :
  (forall s, here s -> E s) ->
  triple here (checked_existing cwd t v) (fun q s => here s /\ inside base t q /\ plain (nodes fs) q) E.
Proof.
  intros HE. unfold checked_existing. apply (triple_bind _ _ _ (fun _ => here)).
  - apply triple_keep; [|exact HE]. look_steps.
  - intros p. eapply triple_weaken; [apply (ensure_inside_spec cwd t fs base cwd_there root_there here), here_frame|done| |exact HE].
    intros q s (<- & ? & ? & _). done.
Qed.

(** *** Search *)

Definition matched (shown_root start : Canonical) (query : string) (m : Match) : Prop :=
  exists q i k l, start `prefix_of` q /\ nodes fs !! q = Some (File i) /\ lines (content i fs) !! k = Some l /\
    contains query l = true /\ m = mkMatch (relative_string shown_root q) (N.of_nat k + 1) l.

Lemma matching_lines_spec shown query line ls m :
  In m (matching_lines shown query line ls) ->
  exists k l, ls !! k = Some l /\ contains query l = true /\ m = mkMatch shown (N.of_nat k + line) l.
Proof.
  revert line. induction ls as [|l ls IH]; intros line; simpl; [done|].
  rewrite List.in_app_iff. intros [H|H].
  - destruct (contains query l) eqn:C; [|done]. destruct H as [<-|[]]. by exists 0%nat, l.
  - destruct (IH _ H) as (k & l' & E & C & ->). exists (S k), l'. split_and!; [done..|]. f_equal. lia.
Qed.

Lemma push_matches_spec (P : Match -> Prop) limit found acc :
  Forall P found -> Forall P acc -> (length acc < Nat.max 1 limit)%nat ->
  match push_matches limit found acc with
  | inl l => Forall P l /\ (length l < Nat.max 1 limit)%nat
  | inr l => Forall P l /\ (length l <= Nat.max 1 limit)%nat
  end.
Proof.
  revert acc. induction found as [|m found IH]; intros acc HF HA L; simpl; [done|].
  apply Forall_cons in HF as [Hm HF].
  assert (H : Forall P (acc ++ [m])%list) by (apply Forall_app; by repeat constructor).
  destruct (limit <=? length (acc ++ [m])%list)%nat eqn:B.
  - split; [done|]. rewrite length_app. simpl. lia.
  - apply IH; [done..|]. apply Nat.leb_gt in B. lia.
Qed.

(** A path of the search: the look at it does not follow a link, and it
    resolves to itself if it is none. *)
Definition searched (start path : Canonical) : Prop :=
  start `prefix_of` path /\
  (forall x, lstat cwd (of_canonical path) fs = Ok x -> nodes fs !! path = Some x) /\
  (forall x, nodes fs !! path = Some x -> match x with Symlink _ => True | _ => plain (nodes fs) path end).

Lemma searched_plain start path : start `prefix_of` path -> plain (nodes fs) path -> searched start path.
Proof.
  intros Hs P. split_and!; [done| |intros [| |] _; done]. intros x. rewrite lstat_plain by done.
  unfold node_at. by destruct (nodes fs !! path); intros; simplify_eq.
Qed.

Lemma searched_below start path n :
  searched start path -> nodes fs !! path = Some Directory -> searched start (path ++ [n])%list.
Proof.
  intros (Hs & _ & Hp) D. specialize (Hp _ D). simpl in Hp. split_and!; [by apply prefix_app_r|..].
  - intros x. rewrite lstat_below, D by done. unfold node_at.
    destruct (nodes fs !! (path ++ [n])%list); [by intros [= ->]|done].
  - intros [| |] N; [|..|done]; apply plain_snoc; by rewrite ?N.
Qed.

Lemma symlink_metadata_here p E :
  (forall s, here s -> E s) ->
  triple here (try_io (symlink_metadata cwd p)) (fun m s => here s /\ exists x, lstat cwd p fs = Ok x /\ m = metadata_of fs x) E.
Proof.
  intros HE. unfold symlink_metadata. eapply triple_weaken; [apply (triple_try_look here)|done| |exact HE].
  intros m s [<- H]. split; [done|]. destruct (lstat cwd p fs) as [x|]; [|done]. injection H as <-. eauto.
Qed.

Context (arrange : list string -> list string).

Lemma search_loop_spec fuel shown_root start query limit pending matches :
  Forall (searched start) pending -> Forall (matched shown_root start query) matches -> (length matches < Nat.max 1 limit)%nat ->
  triple here (search_loop cwd arrange fuel shown_root start query limit pending matches)
    (fun r s => here s /\ forall l, r = Some l -> Forall (matched shown_root start query) l /\ (length l <= Nat.max 1 limit)%nat)
    (fun _ => True).
Proof.
  assert (Done : forall ms, Forall (matched shown_root start query) ms -> (length ms < Nat.max 1 limit)%nat ->
    Forall (matched shown_root start query) (sort_by match_le ms) /\ (length (sort_by match_le ms) <= Nat.max 1 limit)%nat).
  { intros ms HM HL. split; [by rewrite sort_by_perm|]. rewrite (Permutation_length (sort_by_perm match_le ms)). lia. }
  revert pending matches. induction fuel as [|fuel IH]; intros [|path pending] matches HP HM HL; simpl;
    try (apply triple_ret; intros s Hs; split; [done|]; intros l [= <-]; by apply Done).
  apply Forall_cons in HP as [Hpath HP].
  eapply triple_bind; [by apply symlink_metadata_here|]. intros m. simpl.
  apply (triple_weaken (fun s => here s /\ exists x, nodes fs !! path = Some x /\ m = metadata_of fs x)
    _ _ (fun r s => here s /\ forall l, r = Some l -> Forall (matched shown_root start query) l /\ (length l <= Nat.max 1 limit)%nat) _ (fun _ => True) _);
    [|intros s (<- & x & L & ->); split; [done|]; exists x; split; [by apply Hpath|done]|done..].
  apply triple_pure. intros (x & N & ->).
  destruct (is_symlink _) eqn:L; [by apply IH|]. destruct (is_dir _) eqn:B.
  - apply is_dir_metadata in B as ->. unfold read_dir. eapply triple_bind; [by apply triple_keep; [look_steps|done]|].
    intros names. apply IH; [|done..]. apply Forall_app. split; [|done]. apply Forall_rev, Forall_forall.
    intros q H. apply list_elem_of_In, List.filter_In in H as [H _]. apply List.in_map_iff in H as (n & <- & _).
    by apply searched_below.
  - destruct (SEARCHED_BYTES <? _)%N; [by apply IH|]. unfold read_file. eapply triple_bind; [apply triple_look|].
    intros [bytes|e]; simpl; [|eapply triple_weaken; [by apply IH|by intros s [? _]|done..]].
    destruct x as [i| |]; [|done|done]. assert (P : plain (nodes fs) path) by apply (proj2 (proj2 Hpath) _ N).
    eapply triple_weaken with (P := fun s => here s /\ bytes = content i fs);
      [apply triple_pure; intros ->| |intros r s H; exact H|done].
    2: { intros s [<- [H|(? & ?)]]; [|done]. split; [done|]. rewrite resolve_plain, N in H by done. by injection H. }
    destruct (valid_utf8 _); [|by apply IH].
    pose proof (push_matches_spec (matched shown_root start query) limit
      (matching_lines (relative_string shown_root path) query 1 (lines (content i fs))) matches) as K.
    destruct (push_matches limit _ matches) as [l|l]; (destruct K as [K1 K2]; [|done..|]).
    all: try (apply List.Forall_forall; intros m' Hm'; destruct (matching_lines_spec _ _ _ _ _ Hm') as (k & ln & Hk & Hc & ->);
      exists path, i, k, ln; split_and!; [apply Hpath|done..]).
    + by apply IH.
    + apply triple_ret. intros s Hs. split; [done|]. by intros ? [= <-].
Qed.

(** The search visits each node below its start at most once. *)
Lemma search_loop_enough fuel shown_root start query limit pending matches :
  (forall l, arrange l ≡ₚ l) -> Forall (searched start) pending ->
  (sum_list_with (weight (nodes fs)) pending < fuel)%nat ->
  triple here (search_loop cwd arrange fuel shown_root start query limit pending matches)
    (fun r s => here s /\ r <> None) (fun _ => True).
Proof.
  intros Harr. revert pending matches. induction fuel as [|fuel IH]; intros [|path pending] matches HP L; simpl in L |- *; try lia;
    [by apply triple_ret|].
  apply Forall_cons in HP as [Hpath HP].
  eapply triple_bind; [by apply symlink_metadata_here|]. intros m. simpl.
  eapply triple_weaken with (P := fun s => here s /\ exists x, nodes fs !! path = Some x /\ m = metadata_of fs x);
    [|intros s (<- & x & Lx & ->); split; [done|]; exists x; split; [by apply Hpath|done]|intros r s H; exact H|done].
  apply triple_pure. intros (x & N & ->).
  assert (W1 : (1 <= weight (nodes fs) path)%nat).
  { pose proof (weight_below (nodes fs) path [] (NoDup_nil_2) (ex_intro _ _ N)). simpl in *. lia. }
  assert (Next : forall ms, triple here (search_loop cwd arrange fuel shown_root start query limit pending ms)
    (fun r s => here s /\ r <> None) (fun _ => True)) by (intros; apply IH; [done|lia]).
  destruct (is_symlink _) eqn:Lk; [apply Next|]. destruct (is_dir _) eqn:B.
  - apply is_dir_metadata in B as ->. unfold read_dir.
    eapply triple_bind; [eapply (triple_weaken here here _ _ _ here (fun _ => True)); [apply (triple_try_look here)|done|intros r s H; exact H|done]|].
    intros names. simpl. assert (P : plain (nodes fs) path) by apply (proj2 (proj2 Hpath) _ N).
    eapply triple_weaken with (P := fun s => here s /\ names = arrange (children path fs));
      [apply triple_pure; intros ->| |intros r s H; exact H|done].
    2: { intros s [<- H]. split; [done|]. rewrite resolve_plain, N in H by done. by injection H. }
    apply IH.
    + apply Forall_app. split; [|done]. apply Forall_rev, Forall_forall.
      intros q H. apply list_elem_of_In, List.filter_In in H as [H _]. apply List.in_map_iff in H as (n & <- & _).
      by apply searched_below.
    + rewrite sum_list_with_app, <- Permutation_rev.
      pose proof (weight_below (nodes fs) path (children path fs) (NoDup_children _ _) (ex_intro _ _ N)) as Wb.
      enough (sum_list_with (weight (nodes fs)) (List.filter (within start) (map (fun n => path ++ [n])%list (arrange (children path fs)))) <=
              sum_list_with (fun n => weight (nodes fs) (path ++ [n])%list) (children path fs))%nat by lia.
      rewrite <- (sum_list_with_Permutation_proper (fun n => weight (nodes fs) (path ++ [n])%list) _ _ (Harr (children path fs))). generalize (arrange (children path fs)). intros l. clear.
      induction l as [|n l IH]; simpl; [done|]. destruct (within start _); simpl; lia.
  - destruct (SEARCHED_BYTES <? _)%N; [apply Next|].
    apply (triple_bind _ _ _ (fun _ => here)); [by apply triple_keep; [look_steps|done]|].
    intros [bytes|e]; [|apply Next]. destruct (valid_utf8 bytes); [|apply Next].
    destruct (push_matches _ _ _); [apply Next|by apply triple_ret].
Qed.
End Told.

(** A search tells only of what is authorized, as it is: each match is a
    line, with its number, of a file that resolves below the root or another
    authorized directory, and contains the text searched for; there are no more
    than the limit; and with a unit of fuel for each node of the file system
    and one more the search ends, whatever directories and links there are. *)
Theorem search_tells_what_is_there cwd arrange t fuel args w base :
  plain (nodes (st w)) cwd -> resolve cwd false (root t) (st w) = Ok base -> (forall l, arrange l ≡ₚ l) ->
  (size (nodes (st w)) < fuel)%nat ->
  match search cwd arrange t fuel args w with
  | (Ok r, w') =>
      exists query ms, get "query" args = Some (JString query) /\ r = Some (JObject [("matches", JArray (map match_value ms))]) /\
        (length ms <= Nat.max 1 (max_search_results t))%nat /\
        Forall (fun m => exists q i k l, inside base t q /\ nodes (st w) !! q = Some (File i) /\
          lines (content i (st w)) !! k = Some l /\ contains query l = true /\
          m = mkMatch (relative_string base q) (N.of_nat k + 1) l) ms
  | (Err _, w') => st w' = st w
  end.
Proof.
  intros C R Harr Hf.
  pose proof (search_looks cwd arrange (eq (st w)) t fuel args w eq_refl) as Same. revert Same.
  match goal with |- _ -> ?G => enough (triple (eq (st w)) (search cwd arrange t fuel args)
    (fun r _ => exists query ms, get "query" args = Some (JString query) /\ r = Some (JObject [("matches", JArray (map match_value ms))]) /\
        (length ms <= Nat.max 1 (max_search_results t))%nat /\
        Forall (fun m => exists q i k l, inside base t q /\ nodes (st w) !! q = Some (File i) /\
          lines (content i (st w)) !! k = Some l /\ contains query l = true /\
          m = mkMatch (relative_string base q) (N.of_nat k + 1) l) ms) (fun _ => True)) as T end.
  { specialize (T w eq_refl). by destruct (search _ _ _ _ _ _) as [[?|?] ?]. }
  unfold search. apply triple_bind_lift; [done|]. intros query Hq.
  eapply triple_bind; [by apply (told_authorized cwd t (st w) base C R)|]. intros start. simpl.
  eapply triple_weaken with (P := fun s => st w = s /\ inside base t start /\ plain (nodes (st w)) start) (E := fun _ => True); [|done|intros r s H; exact H|done].
  apply triple_pure. intros [I P]. unfold canonical_root, canonicalize.
  eapply triple_bind; [eapply triple_weaken; [apply (triple_try_look (eq (st w)))|done|intros r s H; exact H|done]|].
  intros b. simpl. eapply triple_weaken with (P := fun s => st w = s /\ b = base) (E := fun _ => True); [|intros s [<- E]; rewrite R in E; by simplify_eq|intros r s H; exact H|done].
  apply triple_pure. intros ->.
  assert (S : Forall (searched cwd (st w) start) [start]) by (constructor; [by apply searched_plain|done]).
  eapply triple_bind.
  - apply triple_both; [apply (search_loop_spec cwd (st w) arrange); [done|done|simpl; lia]|].
    apply (search_loop_enough cwd (st w) arrange); [done|done|]. simpl. pose proof (weight_size (nodes (st w)) start). lia.
  - intros found. apply triple_ret. intros s [[_ H] [_ Hne]]. destruct found as [ms|]; [|done]. simpl.
    destruct (H ms eq_refl) as [HM HL]. unfold required in Hq. destruct (get "query" args) as [[| | | | |x| |]|]; simpl in Hq; try done.
    injection Hq as ->. exists query, ms. split_and!; [done..|].
    eapply Forall_impl; [exact HM|]. intros m (q & i & k & l & Hs & N & Hk & Hc & ->). exists q, i, k, l. split_and!; [|done..].
    destruct I as [?|(e & Ie & ?)]; [left; by etrans|right; exists e; split; [done|by etrans]].
Qed.

(** ** Reading back *)

(** [l'] is [l] with [Here] steps added, none at the end. *)
Inductive thinned : list Step -> list Step -> Prop :=
| thinned_nil : thinned [] []
| thinned_step s l l' : thinned l l' -> thinned (s :: l) (s :: l')
| thinned_here l l' : l <> [] -> thinned l l' -> thinned l (Here :: l').

Lemma thinned_app a l l' : thinned l l' -> thinned (a ++ l) (a ++ l').
Proof. intros H. induction a; simpl; [done|by constructor]. Qed.

Lemma walk_thinned links ns cur l l' q :
  thinned l l' -> walk links false ns cur l = Ok q -> walk links false ns cur l' = Ok q.
Proof.
  revert cur l l'. induction links as [|links IHl]; intros cur l l' H; revert cur;
    induction H as [|s l l' H IH|l l' Hne H IH]; intros cur W; try done.
  2, 4: rewrite walk_cons; destruct l as [|s l]; [done|]; specialize (IH _ W); rewrite walk_cons in W;
    by destruct (ns !! cur) as [[| |]|].
  all: rewrite walk_cons in W |- *; destruct (ns !! cur) as [[| |]|]; try done; destruct s as [| |n]; eauto;
    destruct (ns !! (cur ++ [n])%list) as [[i| |tgt]|]; try done; eauto.
  eapply IHl; [|exact W]. by apply thinned_app.
Qed.

Definition ends_in_name (p : PathBuf) : Prop := exists n above, rev (steps p) = Name n :: above.

Lemma components_thinned l n : thinned (components (mkPath true (l ++ [Name n]))) (l ++ [Name n]).
Proof.
  unfold components. cbn [steps]. induction l as [|s l IH]; [by repeat constructor|].
  destruct s as [| |m]; simpl; [|by constructor..]. apply thinned_here; [|done].
  rewrite List.filter_app. simpl. by destruct (List.filter _ l).
Qed.

Lemma components_again p : components (mkPath true (components p)) = components p.
Proof.
  unfold components. cbn [steps]. induction (steps p) as [|s l IH]; simpl; [done|]. destruct s; simpl; by rewrite ?IH.
Qed.

Section Landing.
Context (cwd : Canonical) (t : FileTool) (fs0 : FS) (base : Canonical).
Context (cwd_there : plain (nodes fs0) cwd) (root_there : resolve cwd false (root t) fs0 = Ok base).

Lemma existing_ancestor_path above uncreated :
  triple (fun _ => True) (existing_ancestor cwd above uncreated)
    (fun r _ => (r.1 ++ map Name r.2 = rev above ++ map Name uncreated)%list) (fun _ => True).
Proof.
  revert uncreated. induction above as [|s above IH]; intros uncreated; simpl;
    (eapply triple_bind; [by apply triple_keep; [unfold exists_; look_steps|]|]); intros [|]; simpl;
    try (by apply triple_ret); try (by intros w _).
  destruct s as [| |n]; try (by intros w _). eapply triple_weaken; [apply IH|done|intros r s ->; by rewrite <- app_assoc|done].
Qed.

Lemma create_below_path d names :
  triple (fun _ => True) (create_below cwd t d names) (fun d' _ => d' = (d ++ names)%list) (fun _ => True).
Proof.
  revert d. induction names as [|n names IH]; intros d; simpl; [apply triple_ret; by rewrite app_nil_r|].
  eapply triple_bind with (R := fun _ _ => True); [by intros w _; destruct (symlink_metadata _ _ w) as [[?|?] ?]|]. intros r.
  eapply triple_bind with (R := fun _ _ => True); [by intros w _; match goal with |- match ?x with _ => _ end => by destruct x as [[?|?] ?] end|]. intros _.
  eapply triple_bind with (R := fun _ _ => True); [by intros w _; match goal with |- match ?x with _ => _ end => by destruct x as [[?|?] ?] end|]. intros _.
  eapply triple_weaken; [apply IH|done|intros d' s ->; by rewrite <- app_assoc|done].
Qed.

(** The directory in which a write lands: what the path's ancestor that was
    there resolves to, and the names below it. *)
Definition lands (dir : PathBuf) (d : Canonical) (s : FS) : Prop :=
  exists anc unc a, components dir = (anc ++ map Name unc)%list /\ d = (a ++ unc)%list /\ resolve cwd false (mkPath true anc) s = Ok a.

Lemma lands_mono dir d s s' : nodes s ⊆ nodes s' -> lands dir d s -> lands dir d s'.
Proof. intros Sub (anc & unc & a & E & -> & R). exists anc, unc, a. split_and!; [done..|]. by eapply resolve_mono. Qed.

Lemma frame_again s : frame t fs0 base s -> plain (nodes s) cwd /\ resolve cwd false (root t) s = Ok base.
Proof.
  intros F. split; [by apply (frame_plain_cwd cwd t fs0 base)|]. eapply resolve_mono; [apply F|done].
Qed.

Lemma create_checked_lands dir :
  triple (frame t fs0 base) (create_checked_directories cwd t dir)
    (fun d s => reached t fs0 base d s /\ lands dir d s) (fun _ => True).
Proof.
  unfold create_checked_directories.
  eapply triple_bind with (R := fun r s => frame t fs0 base s /\ (r.1 ++ map Name r.2 = components dir)%list).
  { eapply triple_weaken; [apply triple_both; [apply (triple_keep _ (fun _ => True)), (fun s H => I); apply existing_ancestor_spec|
      eapply triple_weaken; [apply existing_ancestor_path|done|intros r s H; exact H|done]]|done| |done].
    intros r s [? E]. split; [done|]. by rewrite E, rev_involutive, app_nil_r. }
  intros [anc unc]. simpl. apply triple_pure. intros Ec. unfold canonicalize.
  eapply triple_bind; [eapply triple_weaken; [apply (triple_try_look (frame t fs0 base))|done|intros r s H; exact H|done]|].
  intros a. simpl.
  eapply triple_bind with (R := fun _ s => (frame t fs0 base s /\ resolve cwd false (mkPath true anc) s = Ok a) /\ inside base t a).
  { eapply triple_weaken; [apply (authorize_spec cwd t fs0 base root_there (fun s => frame t fs0 base s /\ resolve cwd false (mkPath true anc) s = Ok a))|done|done|done].
    by intros s [? _]. }
  intros []. intros w ((F & R) & Ia). destruct (frame_again _ F) as [C' R'].
  assert (Ra : reached t (st w) base a (st w)) by (split_and!; [apply frame_start|done|by eapply resolve_is_plain]).
  assert (Rb : reached t fs0 base a (st w)) by (split_and!; [done..|apply Ra]).
  pose proof (create_below_spec cwd t (st w) base C' R' a unc w Ra) as H1.
  pose proof (create_below_spec cwd t fs0 base cwd_there root_there a unc w Rb) as H2.
  pose proof (create_below_path a unc w I) as H3.
  destruct (create_below cwd t a unc w) as [[d|e] w']; [|done]. split; [done|].
  exists anc, unc, a. split_and!; [done..|]. eapply resolve_mono; [|exact R]. apply H1.
Qed.

(** The target holds the text, and the path that was given resolves to it. *)
Definition written_at (dir : PathBuf) (d : Canonical) (n text : string) (s : FS) : Prop :=
  lands dir d s /\ inside base t (d ++ [n])%list /\ plain (nodes s) (d ++ [n])%list /\
  exists i, nodes s !! (d ++ [n])%list = Some (File i) /\ content i s = text.

Lemma write_file_lands dir d n text partial :
  triple (fun s => (reached t fs0 base d s /\ nodes s !! d = Some Directory /\
       match nodes s !! (d ++ [n])%list with
       | None => True
       | Some (File i) => (length (names_of i s) <= 1)%nat
       | Some _ => False
       end) /\ lands dir d s)
    (try_io (write_file cwd (of_canonical (d ++ [n])%list) text partial)) (fun _ => written_at dir d n text) (fun _ => True).
Proof.
  apply triple_try. intros w ((R & D & N) & L). pose proof R as (F & I & P).
  assert (T : resolve cwd true (of_canonical (d ++ [n])%list) (st w) = Ok (d ++ [n])%list).
  { destruct (nodes (st w) !! (d ++ [n])%list) as [[i| |]|] eqn:E; try done; [|by apply resolve_missing].
    apply resolve_plain, plain_snoc; [done|done|]. by rewrite E. }
  assert (W : written_at dir d n text (put (d ++ [n])%list text (st w))).
  { assert (Sub : nodes (st w) ⊆ nodes (put (d ++ [n])%list text (st w))) by apply put_nodes.
    destruct (put_at (d ++ [n])%list text (st w)) as (i & Hi & Ht); [by destruct (nodes (st w) !! (d ++ [n])%list) as [[| |]|]|].
    split_and!; [by eapply lands_mono|by apply inside_snoc| |by exists i].
    apply plain_snoc; [by apply (plain_mono (nodes (st w)))|exact (lookup_weaken _ _ _ _ D Sub)|by rewrite Hi]. }
  unfold write_file. rewrite T. destruct (faults w) as [|[m|] l]; simpl; [|done|];
    by destruct (nodes (st w) !! (d ++ [n])%list) as [[i| |]|].
Qed.

Definition write_path (v : string) : PathBuf :=
  if absolute (path_of v) then path_of v else join_path (of_canonical base) (path_of v).

Lemma write_lands partial args :
  triple (frame t fs0 base) (write cwd t partial args)
    (fun _ s => exists v text dir d n, get "path" args = Some (JString v) /\ get "content" args = Some (JString text) /\
       parent (write_path v) = Some dir /\ file_name (write_path v) = Some n /\ written_at dir d n text s) (fun _ => True).
Proof.
  unfold write. apply triple_bind_lift; [done|]. intros v Hv. apply triple_bind_lift; [done|]. intros text Ht.
  unfold canonical_root, canonicalize.
  eapply triple_bind; [eapply triple_weaken; [apply (triple_try_look (frame t fs0 base))|done|intros r s H; exact H|done]|].
  intros b. simpl.
  eapply triple_weaken with (P := fun s => frame t fs0 base s /\ b = base) (E := fun _ => True); [| |intros r s H; exact H|done].
  2: { intros s [F E]. split; [done|]. destruct (frame_again _ F) as [_ R]. rewrite R in E. by simplify_eq. }
  apply triple_pure. intros ->. fold (write_path v). apply triple_bind_lift; [done|]. intros dir Hdir%ok_or_ok.
  eapply triple_bind; [apply create_checked_lands|]. intros d. simpl. apply triple_bind_lift; [done|]. intros n Hn%ok_or_ok.
  eapply triple_bind with (R := fun _ s => (reached t fs0 base d s /\ nodes s !! d = Some Directory /\
       match nodes s !! (d ++ [n])%list with
       | None => True
       | Some (File i) => (length (names_of i s) <= 1)%nat
       | Some _ => False
       end) /\ lands dir d s).
  { intros w [R L].
    pose proof (check_target_spec cwd t fs0 base cwd_there root_there d n w R) as H1.
    assert (H2 : st (check_target cwd t (d ++ [n])%list w).2 = st w).
    { assert (K : preserves (eq (st w)) (check_target cwd t (d ++ [n])%list)) by (unfold check_target; look_steps). by rewrite <- (K w eq_refl). }
    destruct (check_target cwd t (d ++ [n])%list w) as [[[]|e] w']; [|done]. simpl in H2. by rewrite H2 in *. }
  intros []. eapply triple_bind; [apply write_file_lands|]. intros []. simpl.
  assert (Told : forall key x, required args key = Ok x -> get key args = Some (JString x)).
  { intros key x H. unfold required in H. by destruct (get key args) as [[]|]; simplify_eq/=. }
  eapply triple_weaken with (E := fun _ => True); [apply triple_keep; [|done]|done| |done]; [look_steps|].
  intros r s H. exists v, text, dir, d, n. by split_and!; auto.
Qed.

(** The path given, once it ends in a name. *)
Lemma written_resolves v dir d n text s :
  ends_in_name (path_of v) -> parent (write_path v) = Some dir -> file_name (write_path v) = Some n ->
  written_at dir d n text s -> resolve cwd false (write_path v) s = Ok (d ++ [n])%list.
Proof.
  intros (n' & above & En) Hd Hn ((anc & unc & a & Ec & -> & R) & _ & P & _).
  set (p := write_path v) in *.
  assert (Abs : absolute p = true) by (unfold p, write_path; destruct (absolute (path_of v)) eqn:Ea; [done|unfold join_path; by rewrite Ea]).
  assert (Es : exists l, steps p = (l ++ [Name n'])%list).
  { apply (f_equal (@rev Step)) in En. rewrite rev_involutive in En. simpl in En. unfold p, write_path.
    destruct (absolute (path_of v)); [by exists (rev above)|]. unfold join_path. destruct (absolute (path_of v)) eqn:Ea; [by exists (rev above)|].
    simpl. rewrite En. exists (map Name base ++ rev above)%list. rewrite <- app_assoc. by destruct (rev above). }
  destruct Es as [l Es].
  assert (Th : thinned (components p) (steps p)) by (unfold components; rewrite Es; apply components_thinned).
  assert (Ecomp : components p = (anc ++ map Name (unc ++ [n]))%list).
  { unfold parent in Hd. unfold file_name in Hn. destruct (rev (components p)) as [|x r] eqn:Er; [done|].
    injection Hd as <-. destruct x; try done. injection Hn as ->.
    apply (f_equal (@rev Step)) in Er. rewrite rev_involutive in Er. simpl in Er. rewrite Er, map_app, app_assoc. f_equal.
    rewrite <- Ec. pose proof (components_again p) as Ei. rewrite Er in Ei. unfold components in Ei |- *. cbn [steps] in *.
    rewrite List.filter_app in Ei. simpl in Ei. by apply app_inj_tail in Ei as [-> _]. }
  unfold resolve, start. rewrite Abs. eapply walk_thinned; [exact Th|]. rewrite Ecomp.
  rewrite <- app_assoc in P |- *. apply walk_app; [|done]. exact R.
Qed.
End Landing.

Lemma look_clean {A} (f : FS -> result A IoError) s : look f (mkWorld s []) = (Ok (f s), mkWorld s []).
Proof. done. Qed.
Lemma bind_try_look {A B} (f : FS -> result A IoError) (k : A -> M FS B) s a :
  f s = Ok a -> bind (try_io (look f)) k (mkWorld s []) = k a (mkWorld s []).
Proof. intros E. unfold try_io, bind. rewrite look_clean, E. done. Qed.

(** A file that was written is read back: after a write that succeeds,
    whatever happened on the way, reading the same path gives the text, of at
    most the limit, when nothing fails and the path ends in a name. *)
Theorem written_reads_back cwd t partial args w r w' base v text args' :
  plain (nodes (st w)) cwd -> resolve cwd false (root t) (st w) = Ok base ->
  get "path" args = Some (JString v) -> get "content" args = Some (JString text) -> get "path" args' = Some (JString v) ->
  ends_in_name (path_of v) -> (N.of_nat (len text) <= max_read_bytes t)%N -> valid_utf8 text = true ->
  write cwd t partial args w = (Ok r, w') ->
  read cwd t args' (mkWorld (st w') []) = (Ok (JObject [("content", JString text)]), mkWorld (st w') []).
Proof.
  intros C R Hv Ht Hv' He Hl Hu W.
  pose proof (write_lands cwd t (st w) base C R partial args w (frame_start t (st w) base)) as L. rewrite W in L.
  destruct L as (v0 & text0 & dir & d & n & Hv0 & Ht0 & Hd & Hn & L). rewrite Hv in Hv0. rewrite Ht in Ht0. simplify_eq.
  assert (F : frame t (st w) base (st w')).
  { pose proof (write_kept cwd t (st w) base C R partial args w (frame_start t (st w) base)) as F. by rewrite W in F. }
  destruct (frame_again cwd t (st w) base C R _ F) as [C' R'].
  pose proof (written_resolves cwd t base v0 dir d n text0 (st w') He Hd Hn L) as Q.
  destruct L as (_ & I & P & i & Hi & Hc). set (q := (d ++ [n])%list) in *. set (s := st w') in *.
  assert (A : is_authorized cwd t q (mkWorld s []) = (Ok true, mkWorld s [])).
  { unfold is_authorized, canonical_root, canonicalize, try_io, attempt, bind. rewrite look_clean, R'. simpl.
    enough (within base q || existsb (fun root => within root q) (extra_roots t) = true) as -> by done. apply orb_true_iff. destruct I as [?|(e & Ie & ?)]; [left; by apply bool_decide_eq_true|right].
    apply existsb_exists. exists e. split; [done|by apply bool_decide_eq_true]. }
  assert (CE : checked_existing cwd t v0 (mkWorld s []) = (Ok q, mkWorld s [])).
  { unfold checked_existing. erewrite bind_value.
    2: { instantiate (1 := mkWorld s []). instantiate (1 := write_path base v0). unfold write_path.
         destruct (absolute (path_of v0)); [done|]. unfold canonical_root, canonicalize. by rewrite (bind_try_look _ _ _ base). }
    unfold ensure_inside_root, canonicalize. rewrite (bind_try_look _ _ _ q) by done. unfold authorize, bind. by rewrite A. }
  unfold read, required. rewrite Hv'. simpl. unfold lift at 1, bind at 1. erewrite bind_value by exact CE.
  unfold symlink_metadata. rewrite (bind_try_look _ _ _ (metadata_of s (File i))).
  2: { rewrite lstat_plain by done. unfold node_at. by rewrite Hi. }
  simpl. rewrite Hc. destruct (N.ltb_spec (max_read_bytes t) (N.of_nat (len text0))); [lia|].
  unfold read_file. rewrite (bind_try_look _ _ _ text0); [by rewrite Hu|]. rewrite resolve_plain, Hi by done. by rewrite Hc.
Qed.

(** A path that ends in a separator is written without it, and cannot be
    read back: the tool reports the file it wrote and then fails to read it. *)
Theorem trailing_separator_not_read_back :
  let fs := mkFS {[ [] := Directory; ["w"] := Directory ]} ∅ in
  let t := file_tool (path_of "/w") in
  let args := JObject [("content", JString "x"); ("path", JString "notes/")] in
  let r := write [] t None args (mkWorld fs []) in
  r.1 = Ok (JObject [("bytes_written", JPos 1); ("path", JString "notes")]) /\
  (read [] t args (mkWorld (st r.2) [])).1 = Err (ToolExecution "Not a directory (os error 20)").
Proof. split; vm_compute; reflexivity. Qed.

(** ** A directory with ways out *)

Module Sample.
Definition tree : FS :=
  mkFS {[ [] := Directory; ["w"] := Directory; ["etc"] := Directory; ["etc"; "passwd"] := File 0;
          ["w"; "out"] := Symlink "../etc"; ["w"; "alias"] := File 0; ["w"; "a"] := File 1 ]}
       {[ 0%N := "root"; 1%N := "one two" ]}.
Definition tool : FileTool := file_tool (path_of "/w").
Definition writing (path : string) : value :=
  JObject [("content", JString "x two"); ("operation", JString "write"); ("path", JString path)].
Definition searching : value := JObject [("operation", JString "search"); ("query", JString "two")].
Definition run (args : value) : result (option value) OmonError := (execute [] id tool 100 None args (mkWorld tree [])).1.

Example through_a_link : run (writing "out/passwd") = Err (ToolExecution "path escapes tool root").
Proof. vm_compute. reflexivity. Qed.
Example up_and_out : run (writing "../etc/passwd") = Err (ToolExecution "path escapes tool root").
Proof. vm_compute. reflexivity. Qed.
Example another_name : run (writing "alias") = Err (ToolExecution "refusing to write a hard-linked file").
Proof. vm_compute. reflexivity. Qed.
Example below : run (writing "b/c/d") = Ok (Some (JObject [("bytes_written", JPos 5); ("path", JString "b/c/d")])).
Proof. vm_compute. reflexivity. Qed.

Lemma cwd_there : plain (nodes tree) [].
Proof. split; [|done]. by intros d ->%prefix_nil_inv. Qed.
End Sample.

Lemma tool_stays_inside_witness :
  resolve [] false (root Sample.tool) Sample.tree = Ok ["w"] /\
  seen (st (execute [] id Sample.tool 100 None (Sample.writing "b") (mkWorld Sample.tree [])).2) ["etc"; "passwd"] = Some (File 0, "root").
Proof.
  assert (R : resolve [] false (root Sample.tool) Sample.tree = Ok ["w"]) by (vm_compute; reflexivity). split; [exact R|].
  rewrite (tool_stays_inside [] id Sample.tool 100 None (Sample.writing "b") (mkWorld Sample.tree []) ["w"] ["etc"; "passwd"] Sample.cwd_there R).
  - vm_compute. reflexivity.
  - intros [[k E]|(e & [] & _)]. discriminate.
Defined.

Lemma search_tells_what_is_there_witness :
  search [] id Sample.tool 100 Sample.searching (mkWorld Sample.tree []) =
    (Ok (Some (JObject [("matches", JArray [JObject [("content", JString "one two"); ("line", JPos 1); ("path", JString "a")]])])), mkWorld Sample.tree []) /\
  exists query (ms : list Match), get "query" Sample.searching = Some (JString query) /\ (length ms <= Nat.max 1 (max_search_results Sample.tool))%nat.
Proof.
  split; [vm_compute; reflexivity|].
  assert (R : resolve [] false (root Sample.tool) Sample.tree = Ok ["w"]) by (vm_compute; reflexivity).
  pose proof (search_tells_what_is_there [] id Sample.tool 100 Sample.searching (mkWorld Sample.tree []) ["w"] Sample.cwd_there R (fun l => Permutation_refl l)) as H.
  assert (L : (size (nodes (st (mkWorld Sample.tree []))) < 100)%nat) by (vm_compute; lia). specialize (H L).
  assert (E : exists r, (search [] id Sample.tool 100 Sample.searching (mkWorld Sample.tree [])).1 = Ok r) by (eexists; vm_compute; reflexivity).
  destruct E as [r E]. destruct (search [] id Sample.tool 100 Sample.searching (mkWorld Sample.tree [])) as [[v|e] w']; [|discriminate E].
  destruct H as (query & ms & Hq & _ & Hl & _). exists query, ms. split; assumption.
Defined.

Lemma written_reads_back_witness :
  let args := JObject [("content", JString "x"); ("path", JString "b/c")] in
  let r := write [] Sample.tool None args (mkWorld Sample.tree []) in
  (read [] Sample.tool args (mkWorld (st r.2) [])).1 = Ok (JObject [("content", JString "x")]).
Proof.
  intros args r. assert (W : r = (Ok (JObject [("bytes_written", JPos 1); ("path", JString "b/c")]), r.2)).
  { assert (E : r.1 = Ok (JObject [("bytes_written", JPos 1); ("path", JString "b/c")])) by (vm_compute; reflexivity).
    rewrite <- E. destruct r; reflexivity. }
  assert (R : resolve [] false (root Sample.tool) Sample.tree = Ok ["w"]) by (vm_compute; reflexivity).
  assert (N : ends_in_name (path_of "b/c")) by (exists "c", [Name "b"]; reflexivity).
  assert (L : (N.of_nat (len "x") <= max_read_bytes Sample.tool)%N) by (vm_compute; discriminate).
  exact (f_equal fst (written_reads_back [] Sample.tool None args (mkWorld Sample.tree []) _ r.2 ["w"] "b/c" "x" args
    Sample.cwd_there R eq_refl eq_refl eq_refl N L eq_refl W)).
Defined.
