(* ===== verification/Skills.v ===== *)
(** * Skills on the disk (src/tools/skills.rs)

    Where a skill may be written, the writing, and how skills are found, over
    the file system of [Paths].  The tool itself, which may stage its writes, is
    in [Writes]. *)
From stdpp Require Import base list strings gmap.
From Stdlib Require Import ZArith NArith Lia Ascii String.
From S2P Require Import Prelude RustStr Db Paths FileTool.
Open Scope string_scope.
Local Notation length := Datatypes.length.
Open Scope db_scope.

(** ** Where a skill is written *)

Definition skill_name_byte (c : ascii) : bool :=
  in_range c 48 57 || in_range c 65 90 || in_range c 97 122 || Ascii.eqb c "-" || Ascii.eqb c "_" || Ascii.eqb c ".".
Definition valid_skill_name (name : string) : bool :=
  negb (String.eqb name "") && negb (String.eqb name "." || String.eqb name "..") && all_bytes skill_name_byte name.

Definition show_step (s : Step) : string := match s with Here => "." | Up => ".." | Name n => n end.
Definition show_path (p : PathBuf) : string :=
  (if absolute p then "/" else "") ++ String.concat "/" (map show_step (components p)).

(** [Path]'s equality: by components. *)
#[export] Instance Step_eq_dec : EqDecision Step.
Proof. solve_decision. Defined.
Definition same_path (p q : PathBuf) : bool := Bool.eqb (absolute p) (absolute q) && bool_decide (components p = components q).

Section Skills.
Context (cwd : Canonical) (arrange : list string -> list string).
Notation F := (M FS).

(** [std::path::absolute]: lexical. *)
Definition absolute_path (p : PathBuf) : F (result PathBuf IoError) :=
  look (fun _ =>
    match absolute p, steps p with
    | false, [] => Err (OtherError "cannot make an empty path absolute")
    | true, _ => Ok (mkPath true (components p))
    | false, _ => Ok (mkPath true (map Name cwd ++ components p))
    end).

Definition skill_error (e : IoError) : OmonError := ToolExecution ("invalid skill destination: " ++ show_error e).
Definition or_skill_error {A} (m : F (result A IoError)) : F A :=
  r <- m ;; match r with Ok a => ret a | Err e => fail (skill_error e) end.

(** [ancestors().find(exists)], and what is below. *)
Fixpoint find_ancestor (above below : list Step) : F (list Step * list Step) :=
  there <- exists_ cwd (mkPath true (rev above)) ;;
  if there : bool then ret (rev above, below)
  else match above with
       | s :: above => find_ancestor above (s :: below)
       | [] => fail (ToolExecution "skill root has no existing ancestor")
       end.

(** One more component: what is there already must resolve below the base. *)
Definition descend (base target : list Step) (component : string) : F (list Step) :=
  let target := (target ++ [Name component])%list in
  r <- symlink_metadata cwd (mkPath true target) ;;
  match r with
  | Ok _ =>
      q <- or_skill_error (canonicalize cwd (mkPath true target)) ;;
      if bool_decide (base `prefix_of` map Name q) then ret (map Name q)
      else fail (ToolExecution "skill destination escapes root")
  | Err NotFound => ret target
  | Err e => fail (skill_error e)
  end.

Definition validated_write_path (root : PathBuf) (name : string) : F PathBuf :=
  if negb (valid_skill_name name) then fail (ToolExecution "invalid skill name")
  else
    absolute <- or_skill_error (absolute_path root) ;;
    r <- find_ancestor (rev (components absolute)) [] ;;
    let '(ancestor, below) := r in
    resolved <- or_skill_error (canonicalize cwd (mkPath true ancestor)) ;;
    let base := (map Name resolved ++ below)%list in
    target <- descend base base name ;;
    target <- descend base target "SKILL.md" ;;
    ret (mkPath true target).

(** [std::fs::create_dir_all]; the steps of the path are in reverse. *)
Definition is_directory (p : PathBuf) : F bool :=
  r <- metadata cwd p ;; ret (match r with Ok m => is_dir m | Err _ => false end).

Definition make_or_is (p : PathBuf) (otherwise : IoError -> F (result unit IoError)) : F (result unit IoError) :=
  r <- create_dir cwd p ;;
  match r with
  | Ok _ => ret (Ok tt)
  | Err e => otherwise e
  end.
Definition unless_directory (p : PathBuf) (e : IoError) : F (result unit IoError) :=
  there <- is_directory p ;; ret (if there : bool then Ok tt else Err e).

Fixpoint create_dir_all (rev_steps : list Step) : F (result unit IoError) :=
  let p := mkPath true (rev rev_steps) in
  make_or_is p (fun e =>
    match e with
    | NotFound =>
        match rev_steps with
        | [] => ret (Err (OtherError "failed to create whole tree"))
        | _ :: above =>
            r <- create_dir_all above ;;
            match r with
            | Err e => ret (Err e)
            | Ok _ => make_or_is p (unless_directory p)
            end
        end
    | e => unless_directory p e
    end).

(** Creating the directory of [skill_file] and writing it. *)
Definition write_skill (what : string) (skill_file : PathBuf) (text : string) (partial : option string) : F unit :=
  let dir := match rev (components skill_file) with _ :: above => above | [] => [] end in
  r <- create_dir_all dir ;;
  match r with
  | Err e => fail (ToolExecution ("failed to create skill " ++ what ++ ": " ++ show_error e))
  | Ok _ =>
      r <- write_file cwd skill_file text partial ;;
      match r with
      | Err e => fail (ToolExecution ("failed to write SKILL.md: " ++ show_error e))
      | Ok _ => ret tt
      end
  end.

(** ** Finding skills *)

(** [None]: out of fuel. *)
Fixpoint scan_dir (fuel : nat) (dir : PathBuf) : F (option (list (string * PathBuf))) :=
  match fuel with
  | O => ret None
  | S fuel =>
      r <- read_dir cwd arrange dir ;;
      match r with
      | Err _ => ret (Some [])
      | Ok entries =>
          (fix scan (entries : list string) : F (option (list (string * PathBuf))) :=
             match entries with
             | [] => ret (Some [])
             | n :: rest =>
                 let path := join_path dir (mkPath false [Name n]) in
                 d <- is_directory path ;;
                 found <- (if d : bool then
                             let skill_file := join_path path (mkPath false [Name "SKILL.md"]) in
                             there <- exists_ cwd skill_file ;;
                             if there : bool then ret (Some [(lossy_text n, skill_file)]) else scan_dir fuel path
                           else ret (Some [])) ;;
                 more <- scan rest ;;
                 ret (match found, more with Some a, Some b => Some (a ++ b)%list | _, _ => None end)
             end) entries
      end
  end.

Fixpoint scan_dirs (fuel : nat) (dirs : list PathBuf) : F (option (list (string * PathBuf))) :=
  match dirs with
  | [] => ret (Some [])
  | base :: rest =>
      there <- exists_ cwd base ;;
      found <- (if there : bool then scan_dir fuel base else ret (Some [])) ;;
      more <- scan_dirs fuel rest ;;
      ret (match found, more with Some a, Some b => Some (a ++ b)%list | _, _ => None end)
  end.

(** [dedup_by]: of neighbours with one name the first stays. *)
Fixpoint dedup_names (last : option string) (l : list (string * PathBuf)) : list (string * PathBuf) :=
  match l with
  | [] => []
  | x :: rest => if bool_decide (last = Some x.1) then dedup_names last rest else x :: dedup_names (Some x.1) rest
  end.
Definition name_le (a b : string * PathBuf) : bool := match String.compare a.1 b.1 with Gt => false | _ => true end.

Definition find_all_skills (fuel : nat) (dirs : list PathBuf) : F (option (list (string * PathBuf))) :=
  found <- scan_dirs fuel dirs ;;
  ret ((fun l => dedup_names None (sort_by name_le l)) <$> found).
End Skills.

(** ** Where a skill lands *)

Section Landing.
Context (cwd : Canonical) (root : PathBuf) (fs : FS) (base : Canonical).
Context (cwd_there : plain (nodes fs) cwd) (root_there : resolve cwd false root fs = Ok base).
Local Notation here := (eq fs).
Local Notation walks l q := (walk MAX_LINKS false (nodes fs) [] l = Ok q).

Lemma components_map q : components (mkPath true (map Name q)) = map Name q.
Proof. unfold components. cbn [steps]. induction q as [|n q IH]; simpl; [done|by rewrite IH]. Qed.

Lemma absolute_walks p q : resolve cwd false p fs = Ok q ->
  walks ((if absolute p then [] else map Name cwd) ++ components p)%list q.
Proof.
  unfold resolve, start, components. intros W.
  assert (W' : walk MAX_LINKS false (nodes fs) (if absolute p then [] else cwd) (steps p) = Ok q).
  { by destruct (absolute p), (steps p). }
  eapply walk_dropped in W'; [|apply dropped_filter]. destruct (absolute p); [done|]. by rewrite walk_names_app.
Qed.

Lemma look_here {A} (f : FS -> result A IoError) E :
  triple here (look f) (fun r s => here s /\ (f fs = r \/ exists m, r = Err (OtherError m))) E.
Proof. eapply triple_weaken; [apply (triple_look here)|done|by intros r s [<- H]|intros s H; exact H]. Qed.

(** One component more: a file or directory below the base, or a missing name. *)
Definition descended (target : list Step) (d : Canonical) (c : string) (t : list Step) : Prop :=
  (exists q, t = map Name q /\ plain (nodes fs) q /\ base `prefix_of` q) \/
  (t = (target ++ [Name c])%list /\ nodes fs !! d = Some Directory /\ nodes fs !! (d ++ [c])%list = None).

Lemma descend_spec bs target d c :
  walks bs base -> walks target d -> plain (nodes fs) d ->
  triple here (descend cwd bs target c) (fun t s => here s /\ descended target d c t) (fun _ => True).
Proof.
  intros Wb Wt P. unfold descend, symlink_metadata.
  assert (L : lstat cwd (mkPath true (target ++ [Name c])) fs =
    match nodes fs !! d with Some Directory => node_at (d ++ [c])%list fs | _ => Err NOT_A_DIRECTORY end).
  { unfold lstat. cbn [steps]. rewrite rev_app_distr. cbn [rev app]. rewrite rev_involutive. unfold start. cbn [absolute]. by rewrite Wt. }
  eapply triple_bind; [apply look_here|]. intros r. simpl. rewrite L. apply triple_pure. intros H0.
  destruct r as [m|[|m]]; [| |by apply triple_fail].
  - unfold or_skill_error, canonicalize. eapply triple_bind with (R := fun q s => here s /\ resolve cwd false (mkPath true (target ++ [Name c])) fs = Ok q).
    { eapply triple_bind; [apply look_here|].
      intros [q|e]; simpl; [|by apply triple_fail]. apply triple_ret. intros s [<- [H|(? & ?)]]; done. }
    intros q. case_bool_decide as Pre; [|by apply triple_fail]. apply triple_ret. intros s [Hs R]. split; [done|]. left.
    pose proof (resolve_is_plain cwd _ fs q cwd_there R) as Pq. exists q. split_and!; [done..|].
    destruct Pre as [k E]. destruct (map_eq_app Name q bs k) as (b & q' & -> & <- & <-); [done|].
    rewrite (walk_names _ _ _ [] b) in Wb by (apply (plain_prefix _ _ _ Pq); by exists q'). injection Wb as <-. by exists q'.
  - apply triple_ret. intros s Hs. split; [done|]. right. split; [done|]. destruct H0 as [H|(? & ?)]; [|done].
    destruct (nodes fs !! d) as [[| |]|]; try done. unfold node_at in H. by destruct (nodes fs !! (d ++ [c])%list).
Qed.

(** The destination, and the directory in which it is or will be. *)
Definition good (t : list Step) : Prop :=
  (exists q, t = map Name q /\ plain (nodes fs) q /\ base `prefix_of` q) \/
  (exists d, t = (map Name d ++ [Name "SKILL.md"])%list /\ plain (nodes fs) d /\ base `prefix_of` d /\
     nodes fs !! d = Some Directory /\ nodes fs !! (d ++ ["SKILL.md"])%list = None) \/
  (exists bs name, t = ((bs ++ [Name name]) ++ [Name "SKILL.md"])%list /\ List.filter not_here bs = bs /\ walks bs base /\
     nodes fs !! base = Some Directory /\ nodes fs !! (base ++ [name])%list = None).

Lemma find_ancestor_path above below :
  triple here (find_ancestor cwd above below) (fun r s => here s /\ (r.1 ++ r.2 = rev above ++ below)%list) (fun _ => True).
Proof.
  revert below. induction above as [|s above IH]; intros below; simpl;
    (eapply triple_bind with (R := fun _ => here); [by apply triple_keep; [unfold exists_; look_steps|]|]); intros [|];
    try (by apply triple_ret); try (by apply triple_fail).
  eapply triple_weaken; [apply IH|done|intros r x [? ->]; split; [done|]; by rewrite <- app_assoc|done].
Qed.

Lemma or_skill_here {A} (f : FS -> result A IoError) P :
  triple (fun s => here s /\ P) (or_skill_error (look f)) (fun a s => (here s /\ P) /\ f fs = Ok a) (fun _ => True).
Proof.
  unfold or_skill_error. eapply triple_bind; [apply (triple_look (fun s => here s /\ P))|]. intros [a|e]; simpl; [|by apply triple_fail].
  apply triple_ret. intros s [[<- HP] [H|(m & H)]]; done.
Qed.

Lemma base_plain : plain (nodes fs) base.
Proof. exact (resolve_is_plain cwd _ fs base cwd_there root_there). Qed.

Lemma validated_good name :
  triple here (validated_write_path cwd root name) (fun p s => here s /\ exists t, p = mkPath true t /\ good t) (fun _ => True).
Proof.
  unfold validated_write_path. destruct (negb (valid_skill_name name)); [by apply triple_fail|]. unfold absolute_path, canonicalize.
  eapply triple_bind; [eapply triple_weaken; [apply (or_skill_here _ True)|done|intros a s H; exact H|done]|].
  intros a. simpl.
  eapply triple_weaken with (P := fun s => here s /\ a = mkPath true ((if absolute root then [] else map Name cwd) ++ components root)) (E := fun _ => True);
    [|intros s [[<- _] H]; split; [done|]; by destruct (absolute root), (steps root); simplify_eq|intros r s H; exact H|done].
  apply triple_pure. intros ->.
  set (abs := ((if absolute root then [] else map Name cwd) ++ components root)%list).
  assert (Wa : walks abs base) by by apply absolute_walks.
  assert (Ca : List.filter not_here abs = abs).
  { unfold abs. rewrite List.filter_app. f_equal; [destruct (absolute root); [done|]; apply components_map|]. apply (components_again root). }
  eapply triple_bind; [eapply triple_weaken; [apply (find_ancestor_path (rev (components (mkPath true abs))) [])|done|intros r s H; exact H|done]|].
  intros [anc below]. simpl. unfold components. cbn [steps]. fold not_here. rewrite rev_involutive, app_nil_r.
  apply triple_pure. intros E. change (List.filter _ abs) with (List.filter not_here abs) in E. rewrite Ca in E.
  eapply triple_bind; [eapply triple_weaken; [apply (or_skill_here (resolve cwd false (mkPath true anc)) True)|done|intros r s H; exact H|done]|].
  intros d. simpl.
  eapply triple_weaken with (P := fun s => here s /\ resolve cwd false (mkPath true anc) fs = Ok d) (E := fun _ => True); [|intros s [[<- _] H]; done|intros r s H; exact H|done].
  apply triple_pure. intros R. pose proof (resolve_is_plain cwd _ fs d cwd_there R) as Pd.
  set (bs := (map Name d ++ below)%list).
  assert (Wb : walks bs base).
  { rewrite <- E in Wa. destruct (walk_split _ _ _ _ _ _ _ Wa R) as (l & Hl & W). unfold bs. rewrite (walk_names_app _ _ _ [] d) by done.
    by eapply walk_more. }
  assert (Cb : List.filter not_here bs = bs).
  { unfold bs. rewrite List.filter_app. f_equal; [apply components_map|]. rewrite <- E, List.filter_app in Ca.
    assert (Le : forall l, (length (List.filter not_here l) <= length l)%nat) by apply List.filter_length_le.
    apply (f_equal length) in Ca as Cl. rewrite !length_app in Cl. pose proof (Le anc). pose proof (Le below).
    by apply app_inj_1 in Ca as [_ ?]; [|lia]. }
  eapply triple_bind; [apply (descend_spec bs bs base name Wb Wb base_plain)|]. intros t. simpl.
  apply triple_pure. intros D.
  assert (Done : forall t' s, here s -> good t' -> here s /\ exists t, mkPath true t' = mkPath true t /\ good t) by eauto.
  destruct D as [(q & -> & Pq & Hq)|(-> & Dd & N)].
  - eapply triple_bind; [apply (descend_spec bs (map Name q) q "SKILL.md" Wb); [by apply (walk_names _ _ _ [])|done]|].
    intros t. simpl. apply triple_ret. intros s [Hs D]. apply Done; [done|].
    destruct D as [(q' & -> & Pq' & Hq')|(-> & Dq & Nq)]; [left; eauto|right; left; eauto 10].
  - eapply triple_bind with (R := fun t s => here s /\ t = ((bs ++ [Name name]) ++ [Name "SKILL.md"])%list).
    + unfold descend, symlink_metadata. eapply triple_bind; [apply look_here|]. intros r. simpl.
      assert (L : lstat cwd (mkPath true ((bs ++ [Name name]) ++ [Name "SKILL.md"])) fs = Err NotFound).
      { unfold lstat. cbn [steps]. rewrite rev_app_distr. cbn [rev app]. rewrite rev_involutive. unfold start. cbn [absolute].
        by rewrite (walk_missing _ _ _ _ _ _ Wb Dd N). }
      rewrite L. apply triple_pure. intros [<-|(m & ->)]; [by apply triple_ret|by apply triple_fail].
    + intros t. apply triple_ret. intros s [Hs ->]. apply Done; [done|]. right. right. exists bs, name. by split_and!.
Qed.

(** ** Writing it *)

(** What writing a skill leaves of the file system: every node there was, every
    node outside, and the text of every file that has no name below the base;
    the files below that are new are nobody's else. *)
Record keeps (s : FS) : Prop := mkKeeps {
  keeps_nodes : nodes fs ⊆ nodes s;
  keeps_outside : forall q, ~ base `prefix_of` q -> nodes s !! q = nodes fs !! q;
  keeps_text : forall q i, nodes fs !! q = Some (File i) ->
    (forall q', base `prefix_of` q' -> nodes fs !! q' <> Some (File i)) -> content i s = content i fs;
  keeps_new : forall q i, nodes s !! q = Some (File i) ->
    nodes fs !! q = Some (File i) \/ forall q', nodes fs !! q' <> Some (File i)
}.
Local Notation kept := keeps.

Lemma keeps_start : keeps fs.
Proof. split; auto. Qed.

Lemma keeps_create q s : keeps s -> base `prefix_of` q -> nodes s !! q = None -> keeps (mkFS (<[q := Directory]> (nodes s)) (inodes s)).
Proof.
  intros [Kn Ko Kt Kf] P N. split; simpl.
  - etrans; [done|]. by apply insert_subseteq.
  - intros q' H. rewrite lookup_insert_ne by (intros ->; done). by apply Ko.
  - exact Kt.
  - intros q' i. destruct (decide (q' = q)) as [->|]; [by rewrite lookup_insert_eq|]. rewrite lookup_insert_ne by done. apply Kf.
Qed.

Lemma keeps_put q text s : keeps s -> base `prefix_of` q -> keeps (put q text s).
Proof.
  intros [Kn Ko Kt Kf] P. unfold put. destruct (nodes s !! q) as [[i| |]|] eqn:E; [|by split..|].
  - split; simpl; [done..| |done]. intros q' j Hj Hn. rewrite content_insert. destruct (decide (j = i)) as [->|]; [|by eapply Kt].
    exfalso. destruct (Kf q i E) as [H|H]; [by apply (Hn q)|by apply (H q')].
  - assert (Fresh : forall q', nodes fs !! q' <> Some (File (fresh_inode s))).
    { intros q' H. by eapply fresh_inode_unused, lookup_weaken. }
    split; simpl.
    + etrans; [done|]. by apply insert_subseteq.
    + intros q' H. rewrite lookup_insert_ne by (intros ->; done). by apply Ko.
    + intros q' j Hj Hn. rewrite content_insert. destruct (decide (j = fresh_inode s)) as [->|]; [by destruct (Fresh q')|by eapply Kt].
    + intros q' j. destruct (decide (q' = q)) as [->|]; [rewrite lookup_insert_eq; intros [= <-]; by right|].
      rewrite lookup_insert_ne by done. apply Kf.
Qed.

Lemma unless_directory_looks I p e : preserves I (unless_directory cwd p e).
Proof. unfold unless_directory, is_directory. look_steps. Qed.

Lemma create_dir_all_there l :
  lstat cwd (mkPath true (rev l)) fs <> Err NotFound -> triple here (create_dir_all cwd l) (fun _ => here) kept.
Proof.
  intros L. assert (T : forall k, (forall e, e <> NotFound -> triple here (k e) (fun _ => here) kept) ->
    triple here (make_or_is cwd (mkPath true (rev l)) k) (fun _ => here) kept).
  { intros k Hk. unfold make_or_is, create_dir.
    eapply triple_bind with (R := fun r s => here s /\ match r with Ok _ => False | Err e => e <> NotFound end).
    - apply triple_call; [done|]. intros s <-. destruct (lstat cwd _ fs) as [x|[|m]]; done.
    - intros [[]|e]; apply triple_pure; [done|apply Hk]. }
  destruct l as [|x l]; simpl; apply T; intros [|m] Hm; try done;
    (apply triple_keep; [apply unless_directory_looks|by intros s <-; apply keeps_start]).
Qed.

Lemma create_dir_all_new bs name :
  walks bs base -> nodes fs !! base = Some Directory -> nodes fs !! (base ++ [name])%list = None ->
  triple here (create_dir_all cwd (Name name :: rev bs))
    (fun _ s => s = fs \/ s = mkFS (<[(base ++ [name])%list := Directory]> (nodes fs)) (inodes fs)) kept.
Proof.
  intros W D N. cbn [create_dir_all]. unfold make_or_is at 1, create_dir. cbn [rev]. rewrite rev_involutive.
  eapply triple_bind with (R := fun r s => match r with
    | Ok _ => s = mkFS (<[(base ++ [name])%list := Directory]> (nodes fs)) (inodes fs)
    | Err NotFound => False
    | Err _ => here s
    end).
  - apply triple_call; [done|]. intros s <-. unfold lstat. cbn [steps]. rewrite rev_app_distr. cbn [rev app].
    rewrite rev_involutive. unfold start. cbn [absolute]. rewrite W, D. unfold node_at. rewrite N.
    unfold resolve, start. cbn [steps absolute]. by rewrite (walk_app_missing _ _ _ _ _ _ W D N).
  - intros [[]|[|m]]; [apply triple_ret; by right|by intros w []|].
    eapply triple_weaken; [apply (triple_keep here); [apply unless_directory_looks|by intros s <-; apply keeps_start]|done|by left|done].
Qed.

(** A write whose path can only resolve below the base. *)
Lemma write_file_kept t text partial w :
  kept (st w) -> (forall q, resolve cwd true (mkPath true t) (st w) = Ok q -> base `prefix_of` q) ->
  kept (st (write_file cwd (mkPath true t) text partial w).2).
Proof.
  intros F H.
  assert (K : forall q c, resolve cwd true (mkPath true t) (st w) = Ok q -> kept (put q c (st w))).
  { intros q c P%H. by apply keeps_put. }
  unfold write_file. destruct (faults w) as [|[m|] l]; simpl; destruct (resolve cwd true _ (st w)) as [q|] eqn:R; simpl; try done.
  - destruct (nodes (st w) !! q) as [[| |]|]; simpl; auto.
  - destruct partial; simpl; auto.
  - by destruct partial.
  - destruct (nodes (st w) !! q) as [[| |]|]; simpl; auto.
Qed.

(** The file system is a tree. *)
Context (grown : forall d n, is_Some (nodes fs !! (d ++ [n])%list) -> nodes fs !! d = Some Directory).

Lemma skill_directory t :
  good t ->
  triple here (create_dir_all cwd (match rev (components (mkPath true t)) with _ :: above => above | [] => [] end))
    (fun _ s => kept s /\ forall q, resolve cwd true (mkPath true t) s = Ok q -> base `prefix_of` q) kept.
Proof.
  assert (Stay : forall t q, resolve cwd true (mkPath true t) fs = Ok q -> base `prefix_of` q ->
    forall s, here s -> kept s /\ forall q, resolve cwd true (mkPath true t) s = Ok q -> base `prefix_of` q).
  { intros t' q R P s <-. split; [apply keeps_start|]. intros q'. rewrite R. intros [= <-]. auto. }
  intros [(q & -> & Pq & Hq)|[(d & -> & Pd & Hd & Dd & N)|(bs & name & -> & Cb & W & D & N)]].
  - rewrite components_map. eapply triple_weaken; [apply create_dir_all_there|done| |done].
    + destruct q as [|n q _] using rev_ind.
      { destruct Pq as [_ Pq]. unfold lstat, resolve, start, node_at. cbn [map rev steps absolute]. rewrite walk_nil. by destruct (nodes fs !! []) as [[| |]|]. }
      rewrite map_app, rev_app_distr. simpl. rewrite rev_involutive.
      assert (Pq' : plain (nodes fs) q) by (apply (plain_prefix _ _ _ Pq); by exists [n]).
      change (mkPath true (map Name q)) with (of_canonical q). rewrite lstat_plain by done.
      destruct Pq' as [_ Pq']. unfold node_at. by destruct (nodes fs !! q) as [[| |]|].
    + intros a s Hs. cbv beta in Hs. apply (Stay _ q); [by apply (resolve_plain cwd)|done..].
  - assert (E : (map Name d ++ [Name "SKILL.md"])%list = map Name (d ++ ["SKILL.md"])) by by rewrite map_app.
    rewrite E, components_map, map_app, rev_app_distr. simpl. eapply triple_weaken; [apply create_dir_all_there|done| |done].
    + rewrite rev_involutive. change (mkPath true (map Name d)) with (of_canonical d). rewrite lstat_plain by done.
      unfold node_at. by rewrite Dd.
    + intros a s Hs. cbv beta in Hs. rewrite ?E. apply (Stay _ (d ++ ["SKILL.md"])%list); [by apply (resolve_missing cwd)|by apply prefix_app_r|done].
  - assert (C : components (mkPath true ((bs ++ [Name name]) ++ [Name "SKILL.md"])) = ((bs ++ [Name name]) ++ [Name "SKILL.md"])%list).
    { unfold components. cbn [steps]. fold not_here. rewrite !List.filter_app. change (List.filter _ bs) with (List.filter not_here bs).
      by rewrite Cb. }
    rewrite C, !rev_app_distr. cbn [rev app]. eapply triple_weaken; [by apply create_dir_all_new|done| |done].
    set (q := (base ++ [name])%list) in *. intros a s [->| ->].
    + split; [apply keeps_start|]. intros q' R. exfalso. revert R. unfold resolve, start. cbn [steps absolute].
      by rewrite (walk_below_missing _ _ _ _ _ _ _ _ W D N).
    + set (fs1 := mkFS _ _). assert (F1 : kept fs1).
      { apply keeps_create; [apply keeps_start|by exists [name]|done]. }
      assert (Sub : nodes fs ⊆ nodes fs1) by by apply insert_subseteq.
      assert (D1 : nodes fs1 !! q = Some Directory) by apply lookup_insert_eq.
      assert (N1 : nodes fs1 !! (q ++ ["SKILL.md"])%list = None).
      { simpl. rewrite lookup_insert_ne.
        - destruct (nodes fs !! (q ++ ["SKILL.md"])%list) eqn:E; [|done]. by rewrite (grown q "SKILL.md" (ex_intro _ _ E)) in N.
        - intros E. apply (f_equal length) in E. rewrite length_app in E. simpl in E. lia. }
      assert (P1 : plain (nodes fs1) q).
      { apply plain_snoc; [apply (plain_mono (nodes fs)), base_plain; done|exact (lookup_weaken _ _ _ _ D Sub)|]. fold q. by rewrite D1. }
      assert (W1 : walk MAX_LINKS true (nodes fs1) [] ((bs ++ map Name [name]) ++ [Name "SKILL.md"]) = Ok (q ++ ["SKILL.md"])%list).
      { apply walk_app_missing; [|done..]. apply walk_app; [by apply (walk_mono _ (nodes fs))|done]. }
      split; [done|]. intros q' R. unfold resolve, start in R. cbn [steps absolute] in R. simpl in W1, R. rewrite W1 in R. injection R as <-.
      apply prefix_app_r. by exists [name].
Qed.

Lemma write_skill_kept what t text partial :
  good t -> triple here (write_skill cwd what (mkPath true t) text partial) (fun _ => kept) kept.
Proof.
  intros G. unfold write_skill. eapply triple_bind; [by apply skill_directory|]. intros [[]|e]; [|by apply triple_fail; intros s []].
  eapply triple_bind with (R := fun _ => kept).
  - intros w [F H]. pose proof (write_file_kept t text partial w F H) as K.
    unfold write_file in *. by destruct (faults w) as [|[m|] l]; simpl in *; repeat case_match; simpl in *.
  - intros [[]|e]; [by apply triple_ret|by apply triple_fail].
Qed.

Lemma skill_kept name what text partial :
  preserves here (validated_write_path cwd root name) /\
  triple here (p <- validated_write_path cwd root name ;; write_skill cwd what p text partial) (fun _ => kept) kept.
Proof.
  assert (L : preserves here (validated_write_path cwd root name)).
  { assert (FA : forall above below, preserves here (find_ancestor cwd above below)).
    { induction above as [|x above IH]; intros below; simpl; unfold exists_; look_steps. }
    unfold validated_write_path, descend, or_skill_error, absolute_path. look_steps. }
  split; [done|]. intros w Hw. specialize (L w Hw). pose proof (validated_good name w Hw) as V. unfold bind.
  destruct (validated_write_path cwd root name w) as [[p|e] w']; simpl in L.
  - destruct V as (_ & t & -> & G). by apply (write_skill_kept what t text partial G w').
  - rewrite <- L. apply keeps_start.
Qed.
End Landing.

(** ** The search for skills ends *)

(** The longest path of the tree. *)
Definition depth (ns : gmap Canonical Node) : nat := foldr Nat.max 0%nat (map length (map fst (map_to_list ns))).

Lemma depth_key ns q : is_Some (ns !! q) -> (length q <= depth ns)%nat.
Proof.
  intros [x Hx]. apply elem_of_map_to_list in Hx. unfold depth. revert Hx. generalize (map_to_list ns). intros l.
  induction l as [|[k y] l IH]; [by intros ?%not_elem_of_nil|]. intros [[= <- _]|H]%elem_of_cons; simpl; [|specialize (IH H)]; lia.
Qed.

(** With so many links left a resolution passes at most so many names. *)
Definition passes (ns : gmap Canonical Node) (links : nat) : Prop := forall cur a names q,
  walk links false ns cur (a ++ map Name names) = Ok q -> (length names <= S links * depth ns)%nat.

Lemma passes_names ns links names cur q :
  (forall fewer, links = S fewer -> passes ns fewer) -> walk links false ns cur (map Name names) = Ok q ->
  names = [] \/ (length names + length cur <= S links * depth ns)%nat.
Proof.
  intros Few. revert cur. induction names as [|n rest IH]; intros cur W; [by left|right]. simpl in W. rewrite walk_cons in W.
  destruct (ns !! cur) as [[| |]|]; try done. destruct (ns !! (cur ++ [n])%list) as [x|] eqn:N; [|done].
  pose proof (depth_key ns (cur ++ [n])%list (ex_intro _ _ N)) as L. rewrite length_app in L. simpl in L.
  destruct x as [i| |t].
  1, 2: destruct (IH _ W) as [->|H]; rewrite ?length_app in *; simpl in *; lia.
  destruct links as [|fewer]; [done|]. apply (Few fewer eq_refl) in W. simpl in *. lia.
Qed.

Lemma walk_length ns links : passes ns links.
Proof.
  induction links as [links Few] using (well_founded_induction lt_wf).
  assert (Few' : forall fewer, links = S fewer -> passes ns fewer) by (intros fewer ->; apply Few; lia). clear Few.
  intros cur a. revert cur. induction a as [|x a IHa]; intros cur names q W.
  - destruct (passes_names ns links names cur q Few' W) as [->|H]; simpl in *; lia.
  - cbn [app] in W. rewrite walk_cons in W. destruct (ns !! cur) as [[| |]|]; try done. destruct x as [| |n]; eauto.
    destruct (ns !! (cur ++ [n])%list) as [[i| |t]|]; try done; eauto.
    destruct links as [|fewer]; [done|]. rewrite app_assoc in W. apply (Few' fewer eq_refl) in W. simpl in *. lia.
Qed.

Section Found.
Context (cwd : Canonical) (arrange : list string -> list string) (fs : FS).
Local Notation here := (eq fs).
Local Notation bound := (S MAX_LINKS * depth (nodes fs))%nat.

Lemma is_directory_here p E :
  triple here (is_directory cwd p) (fun b s => here s /\ (b = true -> exists q, resolve cwd false p fs = Ok q)) E.
Proof.
  unfold is_directory, metadata. eapply triple_bind; [apply look_here|]. intros r. apply triple_pure. intros H.
  apply triple_ret. intros s Hs. split; [done|]. destruct H as [<-|(m & ->)]; [|done].
  destruct (resolve cwd false p fs) as [q|]; eauto; done.
Qed.

Lemma scan_dir_enough fuel b names :
  (bound < fuel + length names)%nat -> (length names <= bound)%nat ->
  triple here (scan_dir cwd arrange fuel (mkPath (absolute b) (steps b ++ map Name names))) (fun r s => here s /\ r <> None) (fun _ => False).
Proof.
  revert names. induction fuel as [|fuel IH]; intros names F L; [lia|]. cbn [scan_dir]. unfold read_dir.
  eapply triple_bind; [apply look_here|]. intros [entries|e]; apply triple_pure; intros _; [|by apply triple_ret].
  induction entries as [|n rest IHe]; [by apply triple_ret|].
  set (path := join_path _ _).
  assert (Ep : path = mkPath (absolute b) (steps b ++ map Name (names ++ [n]))%list).
  { unfold path, join_path. simpl. by rewrite map_app, app_assoc. }
  eapply triple_bind; [apply is_directory_here|]. intros d. apply triple_pure. intros Hd.
  eapply triple_bind with (R := fun r s => here s /\ r <> None).
  - destruct d; [|by apply triple_ret]. destruct (Hd eq_refl) as (q & Rq).
    eapply triple_bind with (R := fun _ => here); [unfold exists_, metadata|].
    + eapply triple_bind; [apply look_here|]. intros r. apply triple_ret. by intros s [? _].
    + intros [|]; [by apply triple_ret|]. rewrite Ep in Rq |- *.
      assert (Wl : (length (names ++ [n]) <= bound)%nat).
      { unfold resolve in Rq. cbn [absolute steps] in Rq.
        destruct (absolute b), (steps b ++ map Name (names ++ [n]))%list eqn:Es; try done; rewrite <- Es in Rq;
          by apply walk_length in Rq. }
      apply IH; [rewrite length_app; cbn [length]; lia|done].
  - intros found. apply triple_pure. intros Hf. eapply triple_bind; [apply IHe|].
    intros more. apply triple_pure. intros Hm. apply triple_ret. intros s Hs. split; [done|]. by destruct found, more.
Qed.

(** The search for skills ends, and changes nothing: with fuel for the links
    a path may pass times the depth of the tree, and one more, every directory
    is read, however links lead back to directories above. *)
Theorem skills_search_ends fuel dirs w :
  st w = fs -> (bound < fuel)%nat ->
  exists l w', find_all_skills cwd arrange fuel dirs w = (Ok (Some l), w') /\ st w' = fs.
Proof.
  intros Hw F.
  assert (T : triple here (scan_dirs cwd arrange fuel dirs) (fun r s => here s /\ r <> None) (fun _ => False)).
  { clear Hw w. induction dirs as [|b dirs IH]; simpl; [by apply triple_ret|].
    eapply triple_bind with (R := fun _ => here); [unfold exists_, metadata|].
    - eapply triple_bind; [apply look_here|]. intros r. apply triple_ret. by intros s [? _].
    - intros there. eapply triple_bind with (R := fun r s => here s /\ r <> None).
      + destruct there; [|by apply triple_ret]. pose proof (scan_dir_enough fuel b []) as S. cbn [map length] in S.
        rewrite app_nil_r, Nat.add_0_r in S. destruct b as [ab sb]. apply S; [done|apply Nat.le_0_l].
      + intros found. apply triple_pure. intros Hf. eapply triple_bind; [apply IH|].
        intros more. apply triple_pure. intros Hm. apply triple_ret. intros s Hs. split; [done|]. by destruct found, more. }
  specialize (T w (eq_sym Hw)). unfold find_all_skills, bind, ret.
  destruct (scan_dirs cwd arrange fuel dirs w) as [[[l|]|e] w']; [|by destruct T as [_ T]|done].
  destruct T as [T _]. by eexists _, _.
Qed.
End Found.

(** ** Links *)

Module Links.
Definition loops : FS :=
  mkFS {[ [] := Directory; ["s"] := Directory; ["s"; "me"] := Symlink "."; ["s"; "k"] := Directory; ["s"; "k"; "SKILL.md"] := File 0 ]}
       {[ 0%N := "text" ]}.
End Links.

(** A link to the directory it is in is followed as often as a path may
    pass links: the same skill is found 41 times before the names are made one. *)
Theorem linked_directory_scanned_again :
  let found := (scan_dirs [] id 200 [path_of "/s"] (mkWorld Links.loops [])).1 in
  match found with Ok (Some l) => length l = 41%nat | _ => False end.
Proof. vm_compute. reflexivity. Qed.


Lemma skills_search_ends_witness :
  (S MAX_LINKS * depth (nodes Links.loops) < 200)%nat /\
  exists l w', find_all_skills [] id 200 [path_of "/s"] (mkWorld Links.loops []) = (Ok (Some l), w') /\ st w' = Links.loops.
Proof.
  assert (D : (S MAX_LINKS * depth (nodes Links.loops) < 200)%nat) by (vm_compute; lia). split; [exact D|].
  exact (skills_search_ends [] id Links.loops 200 [path_of "/s"] (mkWorld Links.loops []) eq_refl D).
Defined.
