(* ===== verification/Writes.v ===== *)
(** * Pending writes, memories and the skills tool (src/storage/db.rs,
    src/memory/store.rs, src/tools/skills.rs)

    Writes that wait for approval, what approving one does in the database and
    on the disk, the store of memories, and the tool that writes skills.  The
    state is the tables and the file system of [Paths]; a transaction gives back
    the tables, not the disk. *)
From stdpp Require Import base list strings gmap.
From Stdlib Require Import ZArith NArith Lia Ascii String.
From S2P Require Import Prelude RustStr Json Db Session Outgoing Search Paths FileTool Skills.
Open Scope string_scope.
Local Notation length := Datatypes.length.
Local Notation trim := RustStr.trim.

Record PendingWrite : Type := mkPendingWrite { pw_id : string; pw_kind : string; pw_payload : string; pw_created_at : Z }.

Record MemoryRow : Type := mkMemoryRow {
  mr_id : string;
  mr_session_key : string;
  mr_content : string;
  mr_metadata_json : string;
  mr_created_at : Z;
  mr_updated_at : Z
}.

Record Store : Type := mkStore {
  pending_writes : list PendingWrite;
  memories : list MemoryRow;
  session_keys : list string;
  disk : FS
}.
Definition set_pending (f : list PendingWrite -> list PendingWrite) (s : Store) : Store :=
  mkStore (f (pending_writes s)) (memories s) (session_keys s) (disk s).
Definition set_memories (f : list MemoryRow -> list MemoryRow) (s : Store) : Store :=
  mkStore (pending_writes s) (f (memories s)) (session_keys s) (disk s).
Definition set_session_keys (f : list string -> list string) (s : Store) : Store :=
  mkStore (pending_writes s) (memories s) (f (session_keys s)) (disk s).
Definition set_disk (d : FS) (s : Store) : Store := mkStore (pending_writes s) (memories s) (session_keys s) d.

Definition W (A : Type) : Type := M Store A.
Definition on_disk {A} (m : M FS A) : W A := zoom disk set_disk m.

(** [pool.begin()] ... [commit()]: what is given back is the tables. *)
Definition db_transaction {A} (body : W A) : W A := fun w =>
  match exec (fun s => (Ok tt, s)) w with
  | (Err e, w') => (Err e, w')
  | (Ok _, w1) =>
      match body w1 with
      | (Err e, w2) => (Err e, mkWorld (set_disk (disk (st w2)) (st w1)) (faults w2))
      | (Ok a, w2) =>
          match exec (fun s => (Ok tt, s)) w2 with
          | (Err e, w3) => (Err e, mkWorld (set_disk (disk (st w2)) (st w1)) (faults w3))
          | (Ok _, w3) => (Ok a, w3)
          end
      end
  end.

Open Scope db_scope.

(** ** Pending writes *)

(** What the source uses of [serde_json] and of the clock's default. *)
Section Pending.
Context (cwd : Canonical) (env : Env) (constraint_error : string -> string).
Context (parse_json : string -> option value) (print_json : value -> string).
(** [std::fs::write] that fails: what it leaves. *)
Context (partial : option string).

Inductive PendingWriteScope : Type := Skills | MemoryOf (session : string).

Definition scope_kind (s : PendingWriteScope) : string := match s with Skills => "skill" | MemoryOf _ => "memory" end.

Definition permits (s : PendingWriteScope) (item : PendingWrite) : result bool OmonError :=
  if negb (String.eqb (pw_kind item) (scope_kind s)) then Ok false
  else match s with
       | Skills => Ok true
       | MemoryOf session =>
           match (v ← parse_json (pw_payload item); get "session_key" v ≫= as_str) with
           | Some key => Ok (String.eqb key session)
           | None => Err (Database "missing field `session_key`")
           end
       end.

Definition with_id (id : string) (p : PendingWrite) : bool := String.eqb (pw_id p) id.
Definition same_write (item p : PendingWrite) : bool :=
  String.eqb (pw_id p) (pw_id item) && String.eqb (pw_kind p) (pw_kind item) && String.eqb (pw_payload p) (pw_payload item).

Definition list_pending_writes (kind : option string) : W (list PendingWrite) :=
  query (fun s =>
    order_by pw_created_at
      (match kind with Some k => select (fun p => String.eqb (pw_kind p) k) (pending_writes s) | None => pending_writes s end)).

Definition get_pending_write (id : string) : W (option PendingWrite) := query (fun s => head (select (with_id id) (pending_writes s))).

Definition delete_pending_write (id : string) : W bool :=
  stmt (fun s => ((0 <? count (with_id id) (pending_writes s))%nat, set_pending (delete_where (with_id id)) s)).
Definition reject_pending_write (id : string) : W bool := delete_pending_write id.

(** [DELETE ... WHERE id = ? AND kind = ? AND payload = ?]: how many rows. *)
Definition delete_exactly (item : PendingWrite) : W nat :=
  stmt (fun s => (count (same_write item) (pending_writes s), set_pending (delete_where (same_write item)) s)).

Fixpoint filter_permitted (s : PendingWriteScope) (items : list PendingWrite) : result (list PendingWrite) OmonError :=
  match items with
  | [] => Ok []
  | i :: rest =>
      match permits s i with
      | Err e => Err e
      | Ok b => match filter_permitted s rest with Err e => Err e | Ok l => Ok (if b then i :: l else l) end
      end
  end.

Definition list_pending_writes_scoped (s : PendingWriteScope) : W (list PendingWrite) :=
  items <- list_pending_writes (Some (scope_kind s)) ;; lift (filter_permitted s items).

Definition get_pending_write_scoped (id : string) (s : PendingWriteScope) : W PendingWrite :=
  item <- get_pending_write id ;;
  let unavailable := fail (Approval "pending write unavailable in this scope") in
  match item with
  | Some item => ok <- lift (permits s item) ;; if ok : bool then ret item else unavailable
  | None => unavailable
  end.

Definition write_approval_enabled : bool :=
  match env "WRITE_APPROVAL" with
  | Some v => existsb (String.eqb (to_ascii_lowercase (trim v))) ["1"; "true"; "yes"; "on"]
  | None => false
  end.

(** [Uuid::new_v4]'s first eight digits; the instant is the argument's. *)
Definition short_id (uuid : string) : string := take_str 8 (of_chars (List.filter (fun c => negb (String.eqb c "-")) (chars uuid))).

Definition stage_pending_write (uuid : string) (now : Z) (kind payload : string) : W string :=
  let id := short_id uuid in
  exec (fun s =>
    if (0 <? count (with_id id) (pending_writes s))%nat then (Err (Database (constraint_error "pending_writes.id")), s)
    else (Ok id, set_pending (fun l => l ++ [mkPendingWrite id kind payload now])%list s)).

(** [INSERT INTO memories]. *)
Definition insert_memory (id session content metadata_json : string) (now : Z) : W unit :=
  exec (fun s =>
    if existsb (fun m => String.eqb (mr_id m) id) (memories s) then (Err (Database (constraint_error "memories.id")), s)
    else if negb (existsb (String.eqb session) (session_keys s)) then (Err (Database "FOREIGN KEY constraint failed"), s)
    else (Ok tt, set_memories (fun l => l ++ [mkMemoryRow id session content metadata_json now now])%list s)).

Definition str_field (key : string) (v : value) : string := default "" (get key v ≫= as_str).

Definition home_skills : PathBuf :=
  match env "HOME" with
  | Some home => join_path (join_path (path_of home) (path_of ".omon")) (path_of "skills")
  | None => join_path (path_of ".omon") (path_of "skills")
  end.

(** The directory a staged skill is for. *)
Definition base_dir (val : value) (target_skills_dir : option PathBuf) : PathBuf :=
  match get "skills_root" val ≫= as_str with
  | Some root => path_of root
  | None => default home_skills target_skills_dir
  end.

(** What the approval of an item does, inside the transaction; [uuid] and [now]
    are a new id and the clock. *)
Definition apply_memory (uuid : string) (now : Z) (item : PendingWrite) : W string :=
  match parse_json (pw_payload item) with
  | None => fail (Database "invalid memory payload")
  | Some val =>
      let content := str_field "content" val in
      insert_memory uuid (str_field "session_key" val) content (print_json (default (JObject []) (get "metadata" val))) now ;;;
      ret ("Approved memory write [" ++ pw_id item ++ "]: " ++ String "034" (content ++ String "034" ""))
  end.

Definition apply_skill (target_skills_dir : option PathBuf) (item : PendingWrite) : W string :=
  match parse_json (pw_payload item) with
  | None => fail (Database "invalid skill payload")
  | Some val =>
      let name := str_field "name" val in
      if String.eqb name "" then fail (ToolExecution "empty skill name in payload")
      else
        skill_file <- on_disk (validated_write_path cwd (base_dir val target_skills_dir) name) ;;
        (match get "destination" val ≫= as_str with
         | Some destination =>
             if same_path skill_file (path_of destination) then ret tt
             else fail (ToolExecution "staged skill destination changed before approval")
         | None => ret tt
         end) ;;;
        on_disk (write_skill cwd "dir" skill_file (str_field "content" val) partial) ;;;
        ret ("Approved skill write [" ++ pw_id item ++ "]: skill '" ++ name ++ "' written to " ++ show_path skill_file)
  end.

Definition apply_item (target_skills_dir : option PathBuf) (uuid : string) (now : Z) (item : PendingWrite) : W string :=
  if String.eqb (pw_kind item) "memory" then apply_memory uuid now item
  else if String.eqb (pw_kind item) "skill" then apply_skill target_skills_dir item
  else ret ("Discarded unknown pending write kind: " ++ pw_kind item).

Definition apply_pending_write (target_skills_dir : option PathBuf) (uuid : string) (now : Z) (item : PendingWrite) :
    W (option string) :=
  db_transaction (
    claimed <- delete_exactly item ;;
    if (claimed =? 0)%nat then ret None
    else receipt <- apply_item target_skills_dir uuid now item ;; ret (Some receipt)).

Definition approve_pending_write (id : string) (target_skills_dir : option PathBuf) (uuid : string) (now : Z) : W (option string) :=
  item <- get_pending_write id ;;
  match item with None => ret None | Some item => apply_pending_write target_skills_dir uuid now item end.

Definition approve_pending_write_scoped (id : string) (s : PendingWriteScope) (uuid : string) (now : Z) : W (option string) :=
  item <- get_pending_write_scoped id s ;; apply_pending_write None uuid now item.

Definition reject_item (item : PendingWrite) : W bool := n <- delete_exactly item ;; ret (n =? 1)%nat.
Definition reject_pending_write_scoped (id : string) (s : PendingWriteScope) : W bool :=
  item <- get_pending_write_scoped id s ;; reject_item item.

(** [pending_command] of src/discord/commands.rs: the answer's text and the
    records attached to it. *)
Inductive PendingAction : Type := ListAll | Review (id : string) | Approve (id : string) | Reject (id : string).

Definition pending_command (s : PendingWriteScope) (a : PendingAction) (uuid : string) (now : Z) : W (string * list PendingWrite) :=
  let records l := (if (length l =? 0)%nat then ("No pending writes in this scope.", [])
                    else (show_N (N.of_nat (length l)) ++
                          " pending write(s). Download the complete payloads before approving an ID.", l)) in
  match a with
  | ListAll => l <- list_pending_writes_scoped s ;; ret (records l)
  | Review id => i <- get_pending_write_scoped id s ;; ret (records [i])
  | Approve id =>
      r <- approve_pending_write_scoped id s uuid now ;;
      ret (match r with Some _ => "Pending write approved." | None => "Pending write was already consumed." end, [])
  | Reject id =>
      b <- reject_pending_write_scoped id s ;;
      ret (if b : bool then "Pending write rejected." else "Pending write was already consumed.", [])
  end.

(** ** Memories *)

Record Memory : Type := mkMemory {
  memory_id : string;
  memory_session : string;
  memory_content : string;
  memory_metadata : value;
  memory_created_at : Z;
  memory_updated_at : Z
}.

Definition into_memory (r : MemoryRow) : result Memory OmonError :=
  match parse_json (mr_metadata_json r) with
  | Some metadata => Ok (mkMemory (mr_id r) (mr_session_key r) (mr_content r) metadata (mr_created_at r) (mr_updated_at r))
  | None => Err (Database "invalid metadata")
  end.

Definition get_memory (id : string) : W (option Memory) :=
  row <- query (fun s => head (select (fun m => String.eqb (mr_id m) id) (memories s))) ;;
  match row with None => ret None | Some row => m <- lift (into_memory row) ;; ret (Some m) end.

Definition delete_memory (id : string) : W bool :=
  stmt (fun s => ((count (fun m => String.eqb (mr_id m) id) (memories s) =? 1)%nat,
                  set_memories (delete_where (fun m => String.eqb (mr_id m) id)) s)).

(** [ensure_session]: of the row only its key matters here. *)
Definition ensure_session (key : string) : W unit :=
  stmt (fun s => (tt, if existsb (String.eqb key) (session_keys s) then s else set_session_keys (fun l => l ++ [key])%list s)).

Definition remember (session : SessionKey) (content : string) (metadata : value) (uuid : string) (now : Z) : W Memory :=
  let key := storage_key session in
  ensure_session key ;;;
  if write_approval_enabled then
    let payload := JObject [("content", JString content); ("metadata", metadata); ("session_key", JString key)] in
    id <- stage_pending_write uuid now "memory" (print_json payload) ;;
    ret (mkMemory id key content metadata now now)
  else
    insert_memory uuid key content (print_json metadata) now ;;;
    m <- get_memory uuid ;;
    lift (ok_or m (Database "inserted memory could not be read")).

(** ** The skills tool *)

Context (arrange : list string -> list string) (to_lowercase : string -> string).

(** The tool: its directories, and whether it has a store of pending writes. *)
Record SkillsTool : Type := mkSkillsTool { skills_dirs : list PathBuf; has_pool : bool }.

Definition write_action (t : SkillsTool) (args : value) (uuid : string) (now : Z) : W value :=
  name <- lift (ok_or (get "name" args ≫= as_str) (ToolExecution "missing 'name'")) ;;
  content <- lift (ok_or (get "content" args ≫= as_str) (ToolExecution "missing 'content'")) ;;
  (if write_approval_enabled && negb (has_pool t)
   then fail (ToolExecution "write approval requires a pending-write store") else ret tt) ;;;
  let target_dir := default home_skills (head (skills_dirs t)) in
  skill_path <- on_disk (validated_write_path cwd target_dir name) ;;
  if write_approval_enabled then
    root <- on_disk (absolute_path cwd target_dir) ;;
    match root with
    | Err e => fail (ToolExecution ("invalid skill root: " ++ show_error e))
    | Ok root =>
        let payload := JObject [("content", JString content); ("destination", JString (show_path skill_path));
                                ("name", JString name); ("skills_root", JString (show_path root))] in
        id <- stage_pending_write uuid now "skill" (print_json payload) ;;
        ret (JObject [("id", JString id);
                      ("message", JString ("Skill '" ++ name ++ "' write staged for approval with id " ++ id ++
                                           ". Run /skills approve " ++ id ++ " to apply."));
                      ("name", JString name); ("status", JString "staged")])
    end
  else
    on_disk (write_skill cwd "directory" skill_path content partial) ;;;
    ret (JObject [("name", JString name); ("path", JString (show_path skill_path)); ("status", JString "saved")]).

(** [None]: out of fuel. *)
Definition execute (fuel : nat) (t : SkillsTool) (args : value) (uuid : string) (now : Z) : W (option value) :=
  action <- lift (ok_or (get "action" args ≫= as_str) (ToolExecution "missing 'action'")) ;;
  found <- on_disk (find_all_skills cwd arrange fuel (skills_dirs t)) ;;
  match found with
  | None => ret None
  | Some all_skills =>
      v <- (if String.eqb action "list" then
              ret (JObject [("skills", JArray (map (fun s => JString s.1) all_skills)); ("total_skills", JPos (N.of_nat (length all_skills)))])
            else if String.eqb action "search" then
              let query := to_lowercase (default "" (get "query" args ≫= as_str)) in
              let matches := List.filter (fun s => contains query (to_lowercase s.1)) all_skills in
              ret (JObject [("count", JPos (N.of_nat (length matches))); ("matches", JArray (map (fun s => JString s.1) matches));
                            ("query", JString query)])
            else if String.eqb action "read" then
              name <- lift (ok_or (get "name" args ≫= as_str) (ToolExecution "missing 'name'")) ;;
              match List.find (fun s => String.eqb s.1 name) all_skills with
              | Some (_, path) =>
                  r <- on_disk (read_file cwd path) ;;
                  match r with
                  | Ok text =>
                      if valid_utf8 text then
                        ret (JObject [("content", JString text); ("name", JString name); ("path", JString (show_path path))])
                      else fail (ToolExecution ("failed to read skill " ++ name ++ ": stream did not contain valid UTF-8"))
                  | Err e => fail (ToolExecution ("failed to read skill " ++ name ++ ": " ++ show_error e))
                  end
              | None => fail (ToolExecution ("skill '" ++ name ++ "' not found. Use action='list' to see all skills."))
              end
            else if String.eqb action "write" then write_action t args uuid now
            else fail (ToolExecution ("unknown skills action: " ++ action))) ;;
      ret (Some v)
  end.
End Pending.

(** ** What a transaction leaves *)

Definition tables (s : Store) : list PendingWrite * list MemoryRow * list string := (pending_writes s, memories s, session_keys s).

Lemma db_transaction_error {A} (m : W A) w e w' : db_transaction m w = (Err e, w') -> tables (st w') = tables (st w).
Proof.
  unfold db_transaction.
  destruct (exec _ w) as [[[]|e1] w1] eqn:E1; apply exec_noop_st in E1; [|intros [= _ <-]; by rewrite E1].
  destruct (m w1) as [[a|e2] w2]; [|intros [= _ <-]; simpl; by rewrite <- E1].
  destruct (exec _ w2) as [[[]|e3] w3] eqn:E3; apply exec_noop_st in E3; [done|intros [= _ <-]; simpl; by rewrite <- E1].
Qed.

(** What holds of the state a value was given in still holds after the commit. *)
Lemma db_transaction_value {A} P (m : W A) Q E w a w' :
  triple P m Q E -> P (st w) -> db_transaction m w = (Ok a, w') -> Q a (st w').
Proof.
  intros T Hw. unfold db_transaction.
  destruct (exec _ w) as [[[]|e1] w1] eqn:E1; apply exec_noop_st in E1; [|done].
  rewrite <- E1 in Hw. specialize (T w1 Hw). destruct (m w1) as [[b|e2] w2]; [|done].
  destruct (exec _ w2) as [[[]|e3] w3] eqn:E3; apply exec_noop_st in E3; [|done]. intros [= <- <-]. by rewrite E3.
Qed.

Lemma on_disk_tables {A} (m : M FS A) T : preserves (fun s => tables s = T) (on_disk m).
Proof. intros w Hw. unfold on_disk, zoom. destruct (m _) as [r w']. simpl. by rewrite <- Hw. Qed.

Section Properties.
Context (cwd : Canonical) (env : Env) (constraint_error : string -> string).
Context (parse_json : string -> option value) (print_json : value -> string) (partial : option string).
Local Notation apply_pending_write := (apply_pending_write cwd env constraint_error parse_json print_json partial).
Local Notation apply_item := (apply_item cwd env constraint_error parse_json print_json partial).
Local Notation apply_skill := (apply_skill cwd env parse_json partial).
Local Notation apply_memory := (apply_memory constraint_error parse_json print_json).

(** The row that an approved memory becomes. *)
Definition memory_row (uuid : string) (now : Z) (val : value) : MemoryRow :=
  mkMemoryRow uuid (str_field "session_key" val) (str_field "content" val)
    (print_json (default (JObject []) (get "metadata" val))) now now.

Lemma apply_memory_spec uuid now item s0 :
  triple (eq s0) (apply_memory uuid now item)
    (fun _ s => exists val, parse_json (pw_payload item) = Some val /\
       existsb (String.eqb (str_field "session_key" val)) (session_keys s0) = true /\
       s = set_memories (fun l => l ++ [memory_row uuid now val])%list s0) (fun _ => True).
Proof.
  unfold apply_memory. destruct (parse_json _) as [val|]; [|by apply triple_fail]. unfold insert_memory.
  eapply triple_bind with (R := fun _ s => existsb (String.eqb (str_field "session_key" val)) (session_keys s0) = true /\
       s = set_memories (fun l => l ++ [memory_row uuid now val])%list s0).
  - apply triple_exec; [done|]. intros s <-. destruct (existsb _ (memories s0)); [done|].
    by destruct (existsb _ (session_keys s0)).
  - intros []. apply triple_ret. intros s []. eauto.
Qed.

Lemma apply_skill_tables dir item T : preserves (fun s => tables s = T) (apply_skill dir item).
Proof.
  unfold apply_skill. preserve_steps; try apply on_disk_tables.
Qed.

(** What [apply_item] does to the tables. *)
Definition applied (uuid : string) (now : Z) (item : PendingWrite) (s s' : Store) : Prop :=
  pending_writes s' = pending_writes s /\ session_keys s' = session_keys s /\
  if String.eqb (pw_kind item) "memory" then
    disk s' = disk s /\ exists val, parse_json (pw_payload item) = Some val /\
      existsb (String.eqb (str_field "session_key" val)) (session_keys s) = true /\
      memories s' = (memories s ++ [memory_row uuid now val])%list
  else memories s' = memories s /\ (pw_kind item <> "skill" -> disk s' = disk s).

Lemma apply_item_spec dir uuid now item s0 :
  triple (eq s0) (apply_item dir uuid now item) (fun _ => applied uuid now item s0) (fun _ => True).
Proof.
  unfold apply_item, applied. destruct (String.eqb_spec (pw_kind item) "memory") as [|Nm].
  - eapply triple_weaken; [apply apply_memory_spec|done| |done]. intros _ s (val & P & F & ->). eauto 10.
  - destruct (String.eqb_spec (pw_kind item) "skill") as [|Ns]; [|by apply triple_ret; intros s <-].
    eapply triple_weaken; [apply triple_preserves, (apply_skill_tables dir item (tables s0))|by intros s <-| |done].
    intros a s E. cbv beta in E. injection E as -> -> ->. by split_and!.
Qed.

Lemma same_write_id item p : same_write item p = true -> pw_id p = pw_id item.
Proof. unfold same_write. by intros [[H%String.eqb_eq _]%andb_true_iff _]%andb_true_iff. Qed.

(** [approve], once the item was read: it is applied and gone, or nothing of
    the tables changed. *)
Lemma apply_pending_write_spec dir uuid now item w :
  match apply_pending_write dir uuid now item w with
  | (Ok (Some _), w') =>
      (0 < count (same_write item) (pending_writes (st w)))%nat /\
      applied uuid now item (set_pending (delete_where (same_write item)) (st w)) (st w')
  | (Ok None, w') => st w' = st w
  | (Err _, w') => tables (st w') = tables (st w)
  end.
Proof.
  destruct (apply_pending_write dir uuid now item w) as [[r|e] w'] eqn:A; [|by eapply db_transaction_error].
  assert (Q : match r with
    | Some _ => (0 < count (same_write item) (pending_writes (st w)))%nat /\
        applied uuid now item (set_pending (delete_where (same_write item)) (st w)) (st w')
    | None => st w' = st w
    end); [|by destruct r].
  eapply (db_transaction_value (eq (st w)) _ (fun r s => match r with
    | Some _ => (0 < count (same_write item) (pending_writes (st w)))%nat /\
        applied uuid now item (set_pending (delete_where (same_write item)) (st w)) s
    | None => s = st w
    end) (fun _ => True)); [|done|exact A].
  eapply triple_bind with (R := fun n s => n = count (same_write item) (pending_writes (st w)) /\
    set_pending (delete_where (same_write item)) (st w) = s).
  { apply triple_stmt; [done|]. by intros s <-. }
  intros n. destruct (n =? 0)%nat eqn:N.
  - apply triple_ret. intros s [-> <-]. apply Nat.eqb_eq in N. unfold set_pending. rewrite delete_where_none by (by apply count_zero). by destruct (st w).
  - intros w1 [-> E]. apply Nat.eqb_neq in N.
    pose proof (apply_item_spec dir uuid now item _ w1 E) as H. unfold bind, ret.
    destruct (apply_item dir uuid now item w1) as [[a|e] w2]; [|done]. split; [lia|done].
Qed.

(** ** Every staged write is settled once *)

(** What is done to the staged writes, by whoever does it: the item of an
    approval or of a rejection is what was read before, perhaps long before. *)
Inductive Op : Type :=
| StageOp (uuid : string) (now : Z) (kind payload : string)
| ApplyOp (dir : option PathBuf) (uuid : string) (now : Z) (item : PendingWrite)
| RejectOp (item : PendingWrite)
| DeleteOp (id : string)
| RememberOp (session : SessionKey) (content : string) (metadata : value) (uuid : string) (now : Z).

Inductive Settled : Type := StagedAs (id : string) | AppliedAs (id : string) | RejectedAs (id : string) | NothingDone.

Definition perform (o : Op) : W Settled :=
  match o with
  | StageOp uuid now kind payload =>
      r <- attempt (stage_pending_write constraint_error uuid now kind payload) ;;
      ret (match r with Ok id => StagedAs id | Err _ => NothingDone end)
  | ApplyOp dir uuid now item =>
      r <- attempt (apply_pending_write dir uuid now item) ;;
      ret (match r with Ok (Some _) => AppliedAs (pw_id item) | _ => NothingDone end)
  | RejectOp item => r <- attempt (reject_item item) ;; ret (match r with Ok true => RejectedAs (pw_id item) | _ => NothingDone end)
  | DeleteOp id => r <- attempt (delete_pending_write id) ;; ret (match r with Ok true => RejectedAs id | _ => NothingDone end)
  | RememberOp session content metadata uuid now =>
      r <- attempt (remember env constraint_error parse_json print_json session content metadata uuid now) ;;
      ret (match r with Ok m => if write_approval_enabled env then StagedAs (memory_id m) else NothingDone | Err _ => NothingDone end)
  end.

Fixpoint perform_all (ops : list Op) : W (list Settled) :=
  match ops with
  | [] => ret []
  | o :: rest => x <- perform o ;; more <- perform_all rest ;; ret (x :: more)
  end.

Definition staged_as (id : string) (x : Settled) : bool := match x with StagedAs i => String.eqb i id | _ => false end.
Definition settled_as (id : string) (x : Settled) : bool :=
  match x with AppliedAs i | RejectedAs i => String.eqb i id | _ => false end.

(** Ids are a primary key. *)
Definition keyed (s : Store) : Prop := forall id, (count (with_id id) (pending_writes s) <= 1)%nat.

Definition balanced (s : Store) (x : Settled) (s' : Store) : Prop :=
  keyed s' /\ forall id,
    (Nat.b2n (staged_as id x) + count (with_id id) (pending_writes s) = Nat.b2n (settled_as id x) + count (with_id id) (pending_writes s'))%nat.

Lemma balanced_nothing s s' : keyed s -> pending_writes s' = pending_writes s -> balanced s NothingDone s'.
Proof. intros K E. unfold balanced, keyed. rewrite E. by split. Qed.

Lemma balanced_delete s s' (p : PendingWrite -> bool) i :
  keyed s -> pending_writes s' = delete_where p (pending_writes s) -> (forall x, p x = true -> pw_id x = i) ->
  count p (pending_writes s) = 1%nat -> balanced s (RejectedAs i) s'.
Proof.
  intros K E Hp One. unfold balanced, keyed. rewrite E. split.
  - intros id. etrans; [apply count_delete_le|apply K].
  - intros id. simpl. pose proof (count_delete (with_id id) p (pending_writes s)) as D.
    assert (C : count (fun r => with_id id r && p r) (pending_writes s) = Nat.b2n (String.eqb i id)); [|rewrite D; pose proof (count_split (with_id id) p (pending_writes s)); lia].
    destruct (String.eqb_spec i id) as [<-|Ne]; simpl.
    + rewrite <- One. apply count_ext. intros x _. destruct (p x) eqn:P; [|by rewrite andb_false_r].
      unfold with_id. by rewrite (Hp _ P), String.eqb_refl.
    + apply count_zero. intros x _. destruct (p x) eqn:P; [|by rewrite andb_false_r].
      unfold with_id. rewrite (Hp _ P). by destruct (String.eqb_spec i id).
Qed.

Lemma stage_balanced s uuid now kind payload :
  keyed s -> triple (eq s) (stage_pending_write constraint_error uuid now kind payload)
    (fun id => balanced s (StagedAs id)) (fun s' => pending_writes s' = pending_writes s).
Proof.
  intros K. apply triple_exec; [by intros s' <-|]. intros s' <-.
  destruct (0 <? count (with_id (short_id uuid)) (pending_writes s))%nat eqn:C; [done|]. apply Nat.ltb_ge in C.
  assert (E : forall id, count (with_id id) (pending_writes s ++ [mkPendingWrite (short_id uuid) kind payload now]) =
    (count (with_id id) (pending_writes s) + Nat.b2n (String.eqb (short_id uuid) id))%nat) by (intros id; by rewrite count_snoc).
  unfold balanced, keyed. simpl. split; intros id; rewrite E; [|lia].
  destruct (String.eqb_spec (short_id uuid) id) as [<-|]; simpl; [lia|]. specialize (K id). lia.
Qed.

Lemma perform_attempt {A} s (m : W A) (k : result A OmonError -> Settled) :
  (forall e, k (Err e) = NothingDone) -> keyed s ->
  triple (eq s) m (fun a => balanced s (k (Ok a))) (fun s' => pending_writes s' = pending_writes s) ->
  triple (eq s) (r <- attempt m ;; ret (k r)) (balanced s) (fun _ => False).
Proof.
  intros He K T. eapply triple_bind; [apply triple_attempt, T|].
  intros [a|e]; apply triple_ret; [done|]. intros s' E. rewrite He. by apply balanced_nothing.
Qed.

Lemma keyed_count s item : keyed s -> (count (same_write item) (pending_writes s) <= 1)%nat.
Proof.
  intros K. etrans; [|apply (K (pw_id item))]. apply count_le. intros x H. unfold with_id. apply String.eqb_eq. by apply same_write_id.
Qed.

Lemma perform_balanced s o : keyed s -> triple (eq s) (perform o) (balanced s) (fun _ => False).
Proof.
  intros K. destruct o as [uuid now kind payload|dir uuid now item|item|id|session content metadata uuid now]; simpl.
  - apply perform_attempt; [done..|]. by apply stage_balanced.
  - apply perform_attempt; [done..|]. intros w Hw. pose proof (apply_pending_write_spec dir uuid now item w) as H.
    destruct (apply_pending_write dir uuid now item w) as [[[r|]|e] w']; rewrite <- Hw in H.
    + destruct H as [C [E _]]. pose proof (keyed_count s item K).
      eapply (balanced_delete s (st w') (same_write item)); [done|exact E|apply same_write_id|lia].
    + apply balanced_nothing; [done|by rewrite H].
    + unfold tables in H. by simplify_eq.
  - apply perform_attempt; [done..|]. unfold reject_item, delete_exactly.
    eapply triple_bind with (R := fun n s' => n = count (same_write item) (pending_writes s) /\
      s' = set_pending (delete_where (same_write item)) s); [by apply triple_stmt; intros s' <-|].
    intros n. apply triple_ret. intros s' [-> ->]. pose proof (keyed_count s item K).
    destruct (Nat.eqb_spec (count (same_write item) (pending_writes s)) 1) as [One|Z].
    + by eapply (balanced_delete s _ (same_write item)); [|simpl|apply same_write_id|].
    + apply balanced_nothing; [done|]. simpl. apply delete_where_none, count_zero. lia.
  - apply perform_attempt; [done..|]. apply triple_stmt; [by intros s' <-|]. intros s' <-. simpl.
    destruct (0 <? count (with_id id) (pending_writes s))%nat eqn:C.
    + apply Nat.ltb_lt in C. specialize (K id) as K1.
      eapply (balanced_delete s _ (with_id id)); [done|done|by intros x ?%String.eqb_eq|lia].
    + apply Nat.ltb_ge in C. apply balanced_nothing; [done|]. simpl. apply delete_where_none, count_zero. lia.
  - apply perform_attempt; [done..|]. unfold remember.
    eapply triple_bind with (R := fun _ s' => pending_writes s' = pending_writes s).
    { apply triple_stmt; [by intros s' <-|]. intros s' <-. simpl. by destruct (existsb _ _). }
    intros []. destruct (write_approval_enabled env).
    + intros w Hw. assert (Kw : keyed (st w)) by (unfold keyed; by rewrite Hw).
      pose proof (stage_balanced (st w) uuid now "memory"
        (print_json (JObject [("content", JString content); ("metadata", metadata); ("session_key", JString (storage_key session))])) Kw w eq_refl) as H.
      unfold bind, ret. destruct (stage_pending_write _ _ _ _ _ w) as [[id|e] w']; [|by rewrite H].
      unfold balanced in *. by rewrite Hw in H.
    + eapply triple_weaken; [apply (triple_preserves (fun s' => pending_writes s' = pending_writes s))|done|intros; by apply balanced_nothing|done].
      unfold insert_memory, get_memory. preserve_steps; intros s' Hs'; by repeat case_match.
Qed.

Lemma perform_all_balanced ops s :
  keyed s -> triple (eq s) (perform_all ops)
    (fun log s' => keyed s' /\ forall id, (count (staged_as id) log + count (with_id id) (pending_writes s) =
                                      count (settled_as id) log + count (with_id id) (pending_writes s'))%nat) (fun _ => False).
Proof.
  revert s. induction ops as [|o ops IH]; intros s K; simpl; [by apply triple_ret; intros s' <-|].
  eapply triple_bind; [by apply perform_balanced|]. intros x w [K' B].
  pose proof (IH (st w) K' w eq_refl) as H. unfold bind, ret. destruct (perform_all ops w) as [[log|e] w']; [|done].
  destruct H as [K2 H]. split; [done|]. intros id. specialize (H id). specialize (B id). rewrite !count_cons. lia.
Qed.

(** C27: Every staged write is settled once: however writes are staged, approved,
    rejected and deleted, with items read long before and whatever statements
    and commits fail, each staging is matched by one approval or rejection that
    took effect, or by the one entry that is still pending; no write is applied
    twice and none is lost. *)
Theorem each_write_settled_once ops w :
  keyed (st w) ->
  match perform_all ops w with
  | (Ok log, w') => forall id,
      (count (staged_as id) log + count (with_id id) (pending_writes (st w)) =
       count (settled_as id) log + count (with_id id) (pending_writes (st w')))%nat /\
      (count (with_id id) (pending_writes (st w')) <= 1)%nat
  | (Err _, _) => False
  end.
Proof.
  intros K. pose proof (perform_all_balanced ops (st w) K w eq_refl) as H.
  destruct (perform_all ops w) as [[log|e] w']; [|done]. destruct H as [K' H]. eauto.
Qed.

(** ** Scopes *)

Lemma db_transaction_disk {A} D (m : W A) : preserves (fun s => disk s = D) m -> preserves (fun s => disk s = D) (db_transaction m).
Proof.
  intros Hm w Hw. unfold db_transaction.
  destruct (exec _ w) as [[[]|e1] w1] eqn:E1; apply exec_noop_st in E1; simpl; [|by rewrite E1].
  assert (H1 : disk (st w1) = D) by by rewrite E1. specialize (Hm w1 H1).
  destruct (m w1) as [[a|e2] w2]; [|done].
  destruct (exec _ w2) as [[[]|e3] w3] eqn:E3; apply exec_noop_st in E3; simpl in *; [by rewrite E3|done].
Qed.

Lemma apply_memory_disk D uuid now item : preserves (fun s => disk s = D) (apply_memory uuid now item).
Proof. unfold apply_memory, insert_memory. preserve_steps. intros s Hs. by repeat case_match. Qed.

Lemma apply_pending_disk D dir uuid now item :
  pw_kind item <> "skill" -> preserves (fun s => disk s = D) (apply_pending_write dir uuid now item).
Proof.
  intros Ne. apply db_transaction_disk. unfold delete_exactly. preserve_steps; [by intros s Hs|].
  unfold apply_item. destruct (String.eqb _ "memory"); [apply apply_memory_disk|].
  destruct (String.eqb_spec (pw_kind item) "skill"); [done|apply preserves_ret].
Qed.

Lemma permits_true s item :
  permits parse_json s item = Ok true ->
  pw_kind item = scope_kind s /\
  match s with
  | Skills => True
  | MemoryOf session => exists val, parse_json (pw_payload item) = Some val /\ str_field "session_key" val = session
  end.
Proof.
  unfold permits. destruct (String.eqb_spec (pw_kind item) (scope_kind s)) as [E|]; simpl; [|done].
  destruct s as [|session]; [done|]. destruct (parse_json (pw_payload item)) as [val|]; simpl; [|done].
  destruct (get "session_key" val ≫= as_str) as [key|] eqn:G; [|done]. intros [= ->%String.eqb_eq].
  split; [done|]. exists val. split; [done|]. unfold str_field. by rewrite G.
Qed.

Lemma get_scoped_spec id s w :
  match get_pending_write_scoped parse_json id s w with
  | (Ok item, w') => st w' = st w /\ item ∈ pending_writes (st w) /\ pw_id item = id /\ permits parse_json s item = Ok true
  | (Err _, w') => st w' = st w
  end.
Proof.
  assert (T : triple (eq (st w)) (get_pending_write_scoped parse_json id s)
    (fun item s' => s' = st w /\ item ∈ pending_writes (st w) /\ pw_id item = id /\ permits parse_json s item = Ok true) (fun s' => s' = st w)).
  { unfold get_pending_write_scoped, get_pending_write. triple_step; [by intros ? <-|].
    destruct a as [item|]; [|by apply triple_fail; intros s' [_ <-]].
    apply triple_bind_lift; [by intros s' [_ <-]|]. intros [|] P; [|by apply triple_fail; intros s' [_ <-]].
    apply triple_ret. intros s' [E <-]. split_and!; [done|..|done].
    - symmetry in E. apply head_Some_elem_of in E. by apply in_select in E as [? _].
    - symmetry in E. apply head_Some_elem_of in E. apply in_select in E as [_ E]. by apply String.eqb_eq. }
  specialize (T w eq_refl). by destruct (get_pending_write_scoped parse_json id s w) as [[?|?] ?].
Qed.

(** A scoped approval stays in its scope.  In the scope of a session it adds
    one memory, of that session, with the content of the pending write with the
    id given, and touches no file; in the scope of skills it adds no memory.
    When it is refused, fails or comes too late, the tables are as before. *)
Theorem approvals_stay_in_scope id s uuid now w :
  match approve_pending_write_scoped cwd env constraint_error parse_json print_json partial id s uuid now w with
  | (Ok (Some _), w') =>
      exists item, item ∈ pending_writes (st w) /\ pw_id item = id /\ pw_kind item = scope_kind s /\
        pending_writes (st w') = delete_where (same_write item) (pending_writes (st w)) /\
        match s with
        | Skills => memories (st w') = memories (st w)
        | MemoryOf session =>
            disk (st w') = disk (st w) /\
            exists val, parse_json (pw_payload item) = Some val /\
              memories (st w') = (memories (st w) ++ [memory_row uuid now val])%list /\ mr_session_key (memory_row uuid now val) = session
        end
  | (_, w') => tables (st w') = tables (st w) /\ (s <> Skills -> disk (st w') = disk (st w))
  end.
Proof.
  unfold approve_pending_write_scoped, bind at 1. pose proof (get_scoped_spec id s w) as G.
  destruct (get_pending_write_scoped parse_json id s w) as [[item|e] w1]; [|by rewrite G].
  destruct G as (E1 & Hin & Hid & P). apply permits_true in P as [Hk P].
  pose proof (apply_pending_write_spec None uuid now item w1) as A.
  assert (D : s <> Skills -> disk (st (apply_pending_write None uuid now item w1).2) = disk (st w)).
  { intros Hs. rewrite <- E1. apply (apply_pending_disk (disk (st w1)) None uuid now item); [|done]. rewrite Hk. by destruct s. }
  destruct (apply_pending_write None uuid now item w1) as [[[r|]|e] w']; simpl in D; rewrite E1 in A.
  - destruct A as (_ & Hp & _ & A). exists item. split_and!; [done..|]. rewrite Hk in A. destruct s as [|session]; simpl in A; [by destruct A|].
    destruct A as [Hd (val & Pv & _ & Hm)]. split; [done|]. exists val. split_and!; [done..|].
    destruct P as (val' & Pv' & Hs). simpl. congruence.
  - by rewrite A.
  - done.
Qed.
End Properties.

(** ** A failed commit *)

Module Sample.
Definition val : value :=
  JObject [("content", JString "text"); ("name", JString "safe"); ("skills_root", JString "/s")].
Definition parse (_ : string) : option value := Some val.
Definition print (_ : value) : string := "".
Definition no_env : Env := fun _ => None.
Definition item : PendingWrite := mkPendingWrite "0a1b2c3d" "skill" "{}" 0.
Definition store : Store := mkStore [item] [] [] (mkFS {[ [] := Directory; ["s"] := Directory ]} ∅).
End Sample.

(** When the commit fails after a skill was written, the approval reports an
    error and the write is still pending, but the skill is on the disk; it can
    then be rejected, and is told to be, while the file stays. *)
Theorem rejected_skill_stays_written :
  let approve := approve_pending_write_scoped [] Sample.no_env id Sample.parse Sample.print None "0a1b2c3d" Skills "" 0 in
  let reject := reject_pending_write_scoped Sample.parse "0a1b2c3d" Skills in
  exists faults,
    let failed := approve (mkWorld Sample.store faults) in
    let rejected := reject (mkWorld (st failed.2) []) in
    failed.1 = Err (Database "disk I/O error") /\ rejected.1 = Ok true /\ pending_writes (st rejected.2) = [] /\
    (read_file [] (path_of "/s/safe/SKILL.md") (mkWorld (disk (st rejected.2)) [])).1 = Ok (Ok "text").
Proof.
  exists (repeat None 10 ++ [Some "disk I/O error"])%list. vm_compute. auto.
Qed.

(** ** The disk of the store *)

Lemma triple_on_disk {A} fs (m : M FS A) Q E :
  triple (eq fs) m Q E -> triple (fun s => fs = disk s) (on_disk m) (fun a s => Q a (disk s)) (fun s => E (disk s)).
Proof. intros T w Hw. specialize (T (mkWorld (disk (st w)) (faults w)) Hw). unfold on_disk, zoom. by destruct (m _) as [[a|e] w']. Qed.

Lemma db_transaction_keeps {A} (K : FS -> Prop) (m : W A) w :
  K (disk (st w)) -> (forall w1, st w1 = st w -> K (disk (st (m w1).2))) -> K (disk (st (db_transaction m w).2)).
Proof.
  intros K0 Km. unfold db_transaction.
  destruct (exec _ w) as [[[]|e1] w1] eqn:E1; apply exec_noop_st in E1; simpl; [|by rewrite E1].
  specialize (Km w1 E1). destruct (m w1) as [[a|e2] w2]; [|done].
  destruct (exec _ w2) as [[[]|e3] w3] eqn:E3; apply exec_noop_st in E3; simpl in *; [by rewrite E3|done].
Qed.

Lemma triple_ends {A S} P (m : M S A) (K : S -> Prop) w : triple P m (fun _ => K) K -> P (st w) -> K (st (m w).2).
Proof. intros T Hw. specialize (T w Hw). by destruct (m w) as [[?|?] ?]. Qed.

(** A directory for skills, as it is before a write: it resolves, in a tree, to
    [base]. *)
Record skill_root (cwd : Canonical) (root : PathBuf) (fs : FS) (base : Canonical) : Prop := mkSkillRoot {
  sr_cwd : plain (nodes fs) cwd;
  sr_base : resolve cwd false root fs = Ok base;
  sr_tree : forall d n, is_Some (nodes fs !! (d ++ [n])%list) -> nodes fs !! d = Some Directory
}.

(** Between two file systems, outside of [base]: at [q] there is the same node,
    and, unless the file at [q] has another name below [base], the same text. *)
Definition untouched (base : Canonical) (fs fs' : FS) (q : Canonical) : Prop :=
  nodes fs' !! q = nodes fs !! q /\
  forall i, nodes fs !! q = Some (File i) ->
    (forall q', base `prefix_of` q' -> nodes fs !! q' <> Some (File i)) -> seen fs' q = seen fs q.

Lemma keeps_untouched base fs fs' q : keeps fs base fs' -> ~ base `prefix_of` q -> untouched base fs fs' q.
Proof.
  intros K Hq. split; [by apply K|]. intros i E N. unfold seen. rewrite (keeps_outside _ _ _ K) by done. rewrite E. simpl.
  by rewrite (keeps_text _ _ _ K q i E N).
Qed.

Section Confined.
Context (cwd : Canonical) (env : Env) (constraint_error : string -> string).
Context (parse_json : string -> option value) (print_json : value -> string) (partial : option string).

Lemma skill_steps_kept {A} root fs base name (k : PathBuf -> W A) :
  skill_root cwd root fs base ->
  (forall t, good fs base t -> triple (fun s => fs = disk s) (k (mkPath true t)) (fun _ s => keeps fs base (disk s))
                                (fun s => keeps fs base (disk s))) ->
  triple (fun s => fs = disk s) (bind (on_disk (validated_write_path cwd root name)) k)
    (fun _ s => keeps fs base (disk s)) (fun s => keeps fs base (disk s)).
Proof.
  intros [C R T] Hk.
  destruct (skill_kept cwd root fs base C R T name "" "" None) as [L _].
  eapply triple_bind.
  - eapply triple_weaken with (E := fun s => fs = disk s); [apply (triple_on_disk fs _ (fun p s => fs = s /\ exists t, p = mkPath true t /\ good fs base t) (eq fs))|done|intros a s H; exact H|by intros s <-; apply keeps_start].
    intros w Hw. specialize (L w Hw). pose proof (validated_good cwd root fs base C R name w Hw) as V.
    by destruct (validated_write_path cwd root name w) as [[p|e] w'].
  - intros p. simpl. apply triple_pure. intros (t & -> & G). by apply Hk.
Qed.

Lemma write_skill_disk root fs base what t text :
  skill_root cwd root fs base -> good fs base t ->
  triple (fun s => fs = disk s) (on_disk (write_skill cwd what (mkPath true t) text partial))
    (fun _ s => keeps fs base (disk s)) (fun s => keeps fs base (disk s)).
Proof.
  intros [C R T] G. exact (triple_on_disk fs _ (fun _ => _) _ (write_skill_kept cwd root fs base C R T what t text partial G)).
Qed.

(** C28: writing a skill changes nothing outside the directory for skills, when
    the tool writes it as when a staged write is approved: where that directory
    exists, at a path that is not below what it resolves to there is the same
    node and, in a file, the same text, although links lead out of the
    directory and whatever calls fail.  The one exception is a file that also
    has a name below the directory: it is not looked for, and its text may
    change ([skill_written_through_hard_link]). *)
Theorem skills_stay_inside t args val dir item uuid now w q :
  (forall base, skill_root cwd (default (home_skills env) (head (skills_dirs t))) (disk (st w)) base -> ~ base `prefix_of` q ->
     untouched base (disk (st w)) (disk (st (write_action cwd env constraint_error print_json partial t args uuid now w).2)) q) /\
  (forall base, parse_json (pw_payload item) = Some val -> skill_root cwd (base_dir env val dir) (disk (st w)) base -> ~ base `prefix_of` q ->
     untouched base (disk (st w)) (disk (st (apply_pending_write cwd env constraint_error parse_json print_json partial dir uuid now item w).2)) q).
Proof.
  split; intros base.
  - intros SR Hq. apply keeps_untouched; [|done].
    apply (triple_ends (fun s => disk (st w) = disk s) _ (fun s => keeps (disk (st w)) base (disk s))); [|done].
    unfold write_action. do 2 (apply triple_bind_lift; [by intros s <-; apply keeps_start|]; intros ? _).
    apply triple_bind with (R := fun _ s => disk (st w) = disk s).
    { destruct (_ && _); [by apply triple_fail; intros s <-; apply keeps_start|by apply triple_ret]. }
    intros _. apply skill_steps_kept; [done|]. intros p G. destruct (write_approval_enabled env).
    + apply triple_bind with (R := fun _ s => disk (st w) = disk s).
      { eapply triple_weaken; [apply triple_on_disk, (triple_keep (eq (disk (st w))) (eq (disk (st w)))); [unfold absolute_path; look_steps|done]|done|done|by intros s <-; apply keeps_start]. }
      intros [root|e]; [|by apply triple_fail; intros s <-; apply keeps_start].
      apply triple_bind with (R := fun _ s => disk (st w) = disk s); [|intros id; by apply triple_ret; intros s <-; apply keeps_start].
      unfold stage_pending_write. apply triple_exec; [by intros s <-; apply keeps_start|]. intros s Hs.
      destruct (0 <? _)%nat; simpl; [rewrite <- Hs; apply keeps_start|done].
    + apply triple_bind with (R := fun _ s => keeps (disk (st w)) base (disk s));
        [by eapply write_skill_disk|intros []; by apply triple_ret].
  - intros Pv SR Hq. apply keeps_untouched; [|done]. unfold apply_pending_write. apply db_transaction_keeps; [apply keeps_start|].
    intros w1 E1. apply (triple_ends (fun s => disk (st w) = disk s) _ (fun s => keeps (disk (st w)) base (disk s))); [|by rewrite E1].
    assert (Same : forall {A} (m : W A), preserves (fun s => disk (st w) = disk s) m ->
      triple (fun s => disk (st w) = disk s) m (fun _ s => keeps (disk (st w)) base (disk s)) (fun s => keeps (disk (st w)) base (disk s))).
    { intros A m Hm w2 Hw2. specialize (Hm w2 Hw2). destruct (m w2) as [[a|e] w3]; simpl in Hm; rewrite <- Hm; apply keeps_start. }
    apply triple_bind with (R := fun _ s => disk (st w) = disk s); [by apply triple_stmt; [intros s <-; apply keeps_start|]|].
    intros n. destruct (n =? 0)%nat; [by apply Same, preserves_ret|].
    apply triple_bind with (R := fun _ s => keeps (disk (st w)) base (disk s)); [|intros r; by apply triple_ret].
    unfold apply_item. destruct (String.eqb (pw_kind item) "memory").
    { apply Same. unfold apply_memory, insert_memory. preserve_steps. intros s Hs. by repeat case_match. }
    destruct (String.eqb (pw_kind item) "skill"); [|by apply Same, preserves_ret].
    unfold apply_skill. rewrite Pv. destruct (String.eqb _ ""); [by apply Same, preserves_fail|].
    apply skill_steps_kept; [done|]. intros p G.
    apply triple_bind with (R := fun _ s => disk (st w) = disk s).
    { repeat match goal with |- triple _ (match ?x with _ => _ end) _ _ => destruct x end;
        first [by apply triple_ret | apply triple_fail; intros ? <-; apply keeps_start]. }
    intros []. apply triple_bind with (R := fun _ s => keeps (disk (st w)) base (disk s));
      [by eapply write_skill_disk|intros []; by apply triple_ret].
Qed.
End Confined.

(** ** Another name *)

Module Links.
Definition hard : FS :=
  mkFS {[ [] := Directory; ["s"] := Directory; ["s"; "k"] := Directory; ["s"; "k"; "SKILL.md"] := File 0; ["etc"] := File 0 ]}
       {[ 0%N := "old" ]}.
End Links.

(** A skill whose file has another name, outside, is written there too: the
    tool does not look at the number of names, as the file tool does. *)
Theorem skill_written_through_hard_link :
  let args := JObject [("action", JString "write"); ("content", JString "new"); ("name", JString "k")] in
  let r := write_action [] Sample.no_env id Sample.print None (mkSkillsTool [path_of "/s"] false) args "" 0 (mkWorld (mkStore [] [] [] Links.hard) []) in
  is_ok r.1 = true /\ seen Links.hard ["etc"] = Some (File 0, "old") /\ seen (disk (st r.2)) ["etc"] = Some (File 0, "new").
Proof. vm_compute. auto. Qed.

(** ** Examples *)

Lemma each_write_settled_once_witness :
  let ops := [StageOp "0a1b2c3d-e5" 0 "skill" "{}"; ApplyOp None "" 0 Sample.item; ApplyOp None "" 0 Sample.item] in
  let r := perform_all [] Sample.no_env id Sample.parse Sample.print None ops (mkWorld (set_pending (fun _ => []) Sample.store) []) in
  r.1 = Ok [StagedAs "0a1b2c3d"; AppliedAs "0a1b2c3d"; NothingDone] /\ (count (with_id "0a1b2c3d") (pending_writes (st r.2)) <= 1)%nat.
Proof.
  intros ops r. assert (E : r.1 = Ok [StagedAs "0a1b2c3d"; AppliedAs "0a1b2c3d"; NothingDone]) by (vm_compute; reflexivity).
  split; [exact E|].
  assert (K : keyed (st (mkWorld (set_pending (fun _ => []) Sample.store) []))) by (intros i; vm_compute; lia).
  pose proof (each_write_settled_once [] Sample.no_env id Sample.parse Sample.print None ops _ K) as H. fold r in H.
  destruct r as [[l|e] w']; [|discriminate E]. exact (proj2 (H "0a1b2c3d")).
Defined.

Lemma approvals_stay_in_scope_witness :
  let r := approve_pending_write_scoped [] Sample.no_env id Sample.parse Sample.print None "0a1b2c3d" (MemoryOf "k") "" 0 (mkWorld Sample.store []) in
  r.1 = Err (Approval "pending write unavailable in this scope") /\ tables (st r.2) = tables Sample.store.
Proof.
  intros r. assert (E : r.1 = Err (Approval "pending write unavailable in this scope")) by (vm_compute; reflexivity). split; [exact E|].
  pose proof (approvals_stay_in_scope [] Sample.no_env id Sample.parse Sample.print None "0a1b2c3d" (MemoryOf "k") "" 0 (mkWorld Sample.store [])) as H.
  fold r in H. destruct r as [[x|e] w']; [discriminate E|]. exact (proj1 H).
Defined.

(** A directory with a link out of it and a file beside it. *)
Definition sample_disk : FS :=
  mkFS {[ [] := Directory; ["s"] := Directory; ["s"; "out"] := Symlink "/etc"; ["etc"] := Directory; ["etc"; "passwd"] := File 0 ]}
       {[ 0%N := "root" ]}.

Lemma sample_tree d n : is_Some (nodes sample_disk !! (d ++ [n])%list) -> nodes sample_disk !! d = Some Directory.
Proof.
  intros [x H]. apply elem_of_map_to_list in H. vm_compute in H.
  repeat (apply elem_of_cons in H as [[= E _]|H];
    [destruct d as [|a [|b [|c d]]]; simpl in E; simplify_eq; vm_compute; reflexivity|]).
  by apply not_elem_of_nil in H.
Qed.

Lemma sample_root : skill_root [] (path_of "/s") sample_disk ["s"].
Proof.
  split; [split; [by intros d ->%prefix_nil_inv|vm_compute; exact I]|vm_compute; reflexivity|apply sample_tree].
Qed.

Lemma skills_stay_inside_witness :
  let args := JObject [("action", JString "write"); ("content", JString "new"); ("name", JString "out")] in
  let r := write_action [] Sample.no_env id Sample.print None (mkSkillsTool [path_of "/s"] false) args "" 0 (mkWorld (mkStore [] [] [] sample_disk) []) in
  r.1 = Err (ToolExecution "skill destination escapes root") /\ seen (disk (st r.2)) ["etc"; "passwd"] = Some (File 0, "root").
Proof.
  intros args r. split; [vm_compute; reflexivity|].
  pose proof (proj1 (skills_stay_inside [] Sample.no_env id Sample.parse Sample.print None (mkSkillsTool [path_of "/s"] false) args JNull None Sample.item
    "" 0 (mkWorld (mkStore [] [] [] sample_disk) []) ["etc"; "passwd"]) ["s"] sample_root) as H.
  assert (N : ~ ["s"] `prefix_of` ["etc"; "passwd"]) by (intros [k E]; discriminate E).
  apply (H N) with (i := 0%N); [vm_compute; reflexivity|]. intros q' [k ->] E. apply elem_of_map_to_list in E. vm_compute in E.
  repeat (apply elem_of_cons in E as [E|E]; [discriminate E|]). by apply not_elem_of_nil in E.
Defined.
