(* ===== verification/Store.v ===== *)
(** * The old gateway's cron stores and the notepads of jobs ([src/cron/store.rs])

    Reading a profile's [jobs.json] and [config.yaml], importing its jobs into
    the table [cron_jobs], the notepads a job keeps between runs, and the limits
    read from the environment.  The files answer the same during one import;
    YAML and SQLite's JSON functions are arguments. *)
From stdpp Require Import base list strings option sets relations.
From Stdlib Require Import ZArith NArith Lia Ascii String DecimalString.
From S2P Require Import Prelude RustStr Db Session Ledger Json Schedule Cron Jobs Paths FileTool.
Open Scope string_scope.
Open Scope omon_scope.
Local Notation length := Datatypes.length.

(** ** Limits *)

Definition DEFAULT_CRON_RUNS_RETENTION_DAYS : Z := 14.
Definition DEFAULT_CRON_SCRIPT_TIMEOUT_SECS : N := 1800.

Definition positive (n : N) : option N := if (0 <? n)%N then Some n else None.

Definition cron_script_timeout_secs_from (raw : option string) : N :=
  default DEFAULT_CRON_SCRIPT_TIMEOUT_SECS ((raw ≫= (fun r => parse_u64 (trim r))) ≫= positive).

Definition resolve_cron_script_timeout (job_override : option N) (global_default : N) : N :=
  default (if (0 <? global_default)%N then global_default else DEFAULT_CRON_SCRIPT_TIMEOUT_SECS) (job_override ≫= positive).

(** [str::parse::<i64>]. *)
Definition parse_i64 (s : string) : option Z :=
  match s with
  | String "-" digits =>
      match NilZero.uint_of_string digits with
      | Some u => let n := Z.of_N (N.of_uint u) in if (n <=? 2 ^ 63)%Z then Some (- n)%Z else None
      | None => None
      end
  | _ => match parse_u64 s with Some n => if (n <? 2 ^ 63)%N then Some (Z.of_N n) else None | None => None end
  end.

Definition cron_runs_retention_days (variable : option string) : result Z OmonError :=
  match variable with
  | None => Ok DEFAULT_CRON_RUNS_RETENTION_DAYS
  | Some v =>
      let v := lossy_text v in
      let bad := Err (Config ("CRON_RUNS_RETENTION_DAYS must be a non-negative integer, got `" ++ v ++ "`")) in
      match parse_i64 v with Some days => if (days <? 0)%Z then bad else Ok days | None => bad end
  end.

(** ** Notepads *)

Record Notepad : Type := mkNotepad {
  np_profile : string;
  np_job : string;
  np_key : string;
  np_value : string;
  np_created_at : string;
  np_updated_at : string
}.

Definition MAX_NOTEPAD_VALUE_BYTES : nat := 16 * 1024.
Definition MAX_NOTEPAD_TOTAL_BYTES : nat := 64 * 1024.

Definition note_of (profile job : string) (r : Notepad) : bool := String.eqb (np_profile r) profile && String.eqb (np_job r) job.
Definition note_at (profile job key : string) (r : Notepad) : bool := note_of profile job r && String.eqb (np_key r) key.
Definition key_le (a b : string * string) : bool := match String.compare a.1 b.1 with Gt => false | _ => true end.
Definition entries_of (profile job : string) (t : list Notepad) : list (string * string) :=
  sort_by key_le (map (fun r => (np_key r, np_value r)) (select (note_of profile job) t)).
Definition size_of (l : list (string * string)) : nat := sum_list (map (fun e => len e.2) l).

(** The [INSERT ... ON CONFLICT] of [set_cron_notepad]. *)
Definition put_note (row : Notepad) (t : list Notepad) : list Notepad :=
  let same := note_at (np_profile row) (np_job row) (np_key row) in
  if existsb same t
  then update_where same (fun r => mkNotepad (np_profile r) (np_job r) (np_key r) (np_value row) (np_created_at r) (np_updated_at row)) t
  else (t ++ [row])%list.

Section Notepads.
Context `{CronLibs}.
Open Scope db_scope.

Definition get_cron_notepads (profile job : string) : M (list Notepad) (list (string * string)) :=
  query (entries_of profile job).

(** What [set_cron_notepad] checks before it writes. *)
Definition check_note (profile job key value : string) : M (list Notepad) unit :=
  if (MAX_NOTEPAD_VALUE_BYTES <? len value)%nat
  then fail (Config ("notepad value size " ++ show_N (N.of_nat (len value)) ++ " bytes exceeds maximum allowed 16 KiB"))
  else
    entries <- get_cron_notepads profile job ;;
    let total_size := (size_of (List.filter (fun e => negb (String.eqb e.1 key)) entries) + len value)%nat in
    if (MAX_NOTEPAD_TOTAL_BYTES <? total_size)%nat
    then fail (Config ("total notepad size " ++ show_N (N.of_nat total_size) ++ " bytes exceeds maximum allowed 64 KiB for job " ++ job))
    else ret tt.

Definition write_note (profile job key value : string) (now : Z) : M (list Notepad) unit :=
  stmt (fun t => (tt, put_note (mkNotepad profile job key value (to_rfc3339 now) (to_rfc3339 now)) t)).

Definition set_cron_notepad (profile job key value : string) (now : Z) : M (list Notepad) unit :=
  check_note profile job key value ;;; write_note profile job key value now.

Definition delete_cron_notepad (profile job : string) (key : option string) : M (list Notepad) nat :=
  let p r := match key with Some k => note_at profile job k r | None => note_of profile job r end in
  stmt (fun t => (count p t, delete_where p t)).
End Notepads.

(** ** [serde_json::to_value] of a job *)

Definition object_of (l : list (string * value)) : value := JObject (insert_all l []).
Definition texts (l : list string) : value := JArray (map JString l).
Definition optional {A} (encode : A -> value) (o : option A) : value := match o with Some a => encode a | None => JNull end.

Definition encode_schedule (s : HermesSchedule) : value :=
  object_of ([("kind", JString (kind s)); ("expr", optional JString (expr s)); ("minutes", optional JPos (sch_minutes s));
              ("run_at", optional JString (run_at s)); ("display", optional JString (display s))]
             ++ match timezone s with Some z => [("timezone", JString z)] | None => [] end ++ sch_extra s)%list.
Definition encode_origin (o : HermesOrigin) : value :=
  object_of ([("platform", JString (og_platform o)); ("chat_id", JString (og_chat_id o));
              ("thread_id", optional JString (og_thread_id o)); ("user_id", optional JString (og_user_id o));
              ("chat_name", optional JString (og_chat_name o)); ("bot_id", optional JString (og_bot_id o))] ++ og_extra o)%list.
Definition encode_repeat (r : HermesRepeat) : value :=
  object_of [("times", optional JPos (times r)); ("completed", JPos (completed r))].

Definition job_members (j : HermesJob) : list (string * value) :=
  [("id", JString (hj_id j)); ("name", JString (hj_name j)); ("prompt", JString (prompt j)); ("skills", texts (skills j));
   ("skill", optional JString (skill j)); ("model", optional JString (hj_model j)); ("provider", optional JString (provider j));
   ("base_url", optional JString (base_url j)); ("script", optional JString (script j)); ("no_agent", JBool (no_agent j));
   ("ack_command", optional JString (ack_command j)); ("context_from", optional id (context_from j));
   ("schedule", encode_schedule (schedule j)); ("schedule_display", JString (schedule_display j));
   ("repeat", encode_repeat (repeat j)); ("enabled", JBool (hj_enabled j)); ("state", JString (hj_state j));
   ("created_at", optional JString (hj_created_at j)); ("next_run_at", optional JString (hj_next_run_at j));
   ("last_run_at", optional JString (last_run_at j)); ("last_status", optional JString (last_status j));
   ("last_error", optional JString (last_error j)); ("last_delivery_error", optional JString (last_delivery_error j));
   ("deliver", optional texts (deliver j)); ("failure_deliver", optional texts (failure_deliver j));
   ("origin", optional encode_origin (origin j)); ("enabled_toolsets", optional texts (hj_toolsets j));
   ("workdir", optional JString (workdir j)); ("attach_to_session", optional JBool (attach_to_session j));
   ("timeout_secs", optional JPos (timeout_secs j)); ("monitor_script", optional JString (monitor_script j));
   ("monitor_url", optional JString (monitor_url j)); ("monitor_state", optional JString (monitor_state j))].
Definition encode_job (j : HermesJob) : value := object_of (job_members j ++ hj_extra j)%list.

(** ** A profile's store *)

Record HermesStore : Type := mkHermesStore { store_profile : string; home : string }.

(** [PathBuf::push] on texts. *)
Definition push (a b : string) : string :=
  if starts_with "/" b then b
  else if String.eqb a "" || bool_decide (String.get (len a - 1) a = Some "/"%char) then a ++ b
  else a ++ "/" ++ b.

Definition jobs_path (s : HermesStore) : string := push (push (home s) "cron") "jobs.json".
Definition config_path (s : HermesStore) : string := push (home s) "config.yaml".

Section Files.
Context `{CronLibs}.
(** What a path reads as, a YAML document as data, and why a document is not one of jobs. *)
Context (read : string -> result string IoError) (parse_yaml : string -> option value) (decode_error : value -> string).

Definition config_members (s : HermesStore) : option (list (string * value)) :=
  match read (config_path s) with
  | Ok bytes => match parse_yaml bytes with Some (JObject m) => Some m | _ => None end
  | Err _ => None
  end.

Definition store_timezone (s : HermesStore) : option string :=
  m ← config_members s;
  z ← optional_text "timezone" m;
  z ← z;
  if String.eqb (trim z) "" then None else Some (trim z).

(** The keys of the [discord] section. *)
Definition RAW_DISCORD : list string := ["channel"; "home_channel"; "channel_id"; "thread_id"].

(** An [Option<Value>]: a null is an absence. *)
Definition present (name : string) (m : list (string * value)) : option value :=
  match assoc_get name m with Some JNull | None => None | Some v => Some v end.
Definition or_else {A} (a b : option A) : option A := match a with Some _ => a | None => b end.

Definition discord_home (s : HermesStore) : option (string * option string) :=
  m ← config_members s;
  d ← match present "discord" m with None => Some None | Some (JObject d) => Some (Some d) | Some _ => None end;
  let channel :=
    or_else (d ← d; or_else (present "channel" d) (or_else (present "home_channel" d) (present "channel_id" d)) ≫= text_of)
            (present "home_channel" m ≫= text_of) in
  let thread := or_else (d ← d; present "thread_id" d ≫= text_of) (present "thread_id" m ≫= text_of) in
  c ← channel; Some (c, thread).

(** [struct Document]: serde reads a struct from an array, too. *)
Definition decode_document (v : value) : option (list HermesJob) :=
  match v with
  | JObject m => defaulted "jobs" (list_of decode_job) [] m
  | JArray [] => Some []
  | JArray [l] => list_of decode_job l
  | _ => None
  end.

(** [entry(k).or_insert_with(..)]. *)
Definition or_insert (key : string) (v : value) (m : list (string * value)) : list (string * value) :=
  match assoc_get key m with Some _ => m | None => assoc_insert key v m end.

Definition with_extra (f : list (string * value) -> list (string * value)) (j : HermesJob) : HermesJob :=
  mkHermesJob (hj_id j) (hj_name j) (prompt j) (skills j) (skill j) (hj_model j) (provider j) (base_url j) (script j) (no_agent j)
    (ack_command j) (context_from j) (schedule j) (schedule_display j) (repeat j) (hj_enabled j) (hj_state j) (hj_created_at j)
    (hj_next_run_at j) (last_run_at j) (last_status j) (last_error j) (last_delivery_error j) (deliver j) (failure_deliver j)
    (origin j) (hj_toolsets j) (workdir j) (attach_to_session j) (timeout_secs j) (monitor_script j) (monitor_url j)
    (monitor_state j) (f (hj_extra j)).
Definition with_schedule (f : HermesSchedule -> HermesSchedule) (j : HermesJob) : HermesJob :=
  mkHermesJob (hj_id j) (hj_name j) (prompt j) (skills j) (skill j) (hj_model j) (provider j) (base_url j) (script j) (no_agent j)
    (ack_command j) (context_from j) (f (schedule j)) (schedule_display j) (repeat j) (hj_enabled j) (hj_state j) (hj_created_at j)
    (hj_next_run_at j) (last_run_at j) (last_status j) (last_error j) (last_delivery_error j) (deliver j) (failure_deliver j)
    (origin j) (hj_toolsets j) (workdir j) (attach_to_session j) (timeout_secs j) (monitor_script j) (monitor_url j)
    (monitor_state j) (hj_extra j).

Definition with_home (h : string * option string) (j : HermesJob) : HermesJob :=
  with_extra (fun m =>
    let m := or_insert "_omon_discord_home_channel" (JString h.1) m in
    match h.2 with Some thread => or_insert "_omon_discord_home_thread" (JString thread) m | None => m end) j.

Definition load (s : HermesStore) : result (list HermesJob) OmonError :=
  let invalid e := Err (Config ("invalid Hermes cron store " ++ lossy_text (jobs_path s) ++ ": " ++ e)) in
  match read (jobs_path s) with
  | Err NotFound => Ok []
  | Err error => Err (Config ("failed to read " ++ lossy_text (jobs_path s) ++ ": " ++ show_error error))
  | Ok bytes =>
      match parse_json bytes with
      | Err e => invalid e
      | Ok v =>
          match decode_document v with
          | None => invalid (decode_error v)
          | Some jobs => Ok (match discord_home s with Some h => map (with_home h) jobs | None => jobs end)
          end
      end
  end.
End Files.

(** ** Which stores *)

Definition selected_profiles (variable : option string) : option (list string) := option_map comma_items variable.

Definition is_profile_selected (profile : string) (selected : option (list string)) : bool :=
  match selected with Some l => existsb (String.eqb profile) l | None => true end.

(** The variables [HERMES_HOME], [HOME] and [OMON_HERMES_PROFILES], and the
    directories a directory holds, in the order they are read. *)
Definition stores_from_environment (hermes_home user_home profiles : option string) (directories : string -> option (list string)) :
    result (list HermesStore) OmonError :=
  root <-? ok_or (or_else hermes_home (option_map (fun h => push h ".hermes") user_home))
                 (Config "HOME or HERMES_HOME is required for Hermes cron synchronization") ;;
  let profiles :=
    match selected_profiles profiles with
    | Some l => l
    | None => "default" :: match directories (push root "profiles") with Some l => map lossy_text l | None => [] end
    end in
  Ok (map (fun p => mkHermesStore p (if String.eqb p "default" then root else push (push root "profiles") p)) profiles).

(** ** SQLite's JSON functions *)

Inductive SqlValue : Type := SNull | SInt (n : Z) | SReal (lexeme : string) | SText (s : string).
#[export] Instance SqlValue_eq_dec : EqDecision SqlValue.
Proof. solve_decision. Defined.

Class SqliteJson := {
  valid_json : string -> bool;
  json_extract : string -> string -> SqlValue;
  json_set : string -> list (string * SqlValue) -> string;
  json_remove : string -> list string -> string;
  cast_integer : SqlValue -> Z
}.

Definition is_null (v : SqlValue) : bool := bool_decide (v = SNull).
Definition coalesce (v d : SqlValue) : SqlValue := if is_null v then d else v.

Definition MALFORMED : OmonError := Database "malformed JSON".

Section Sync.
Context `{CronLibs} `{PayloadGuard} `{SqliteJson}.
Context (read : string -> result string IoError) (parse_yaml : string -> option value) (decode_error : value -> string).
Context (read_script : string -> string -> option string).
Open Scope db_scope.

(** ** The upsert of an imported job *)

Definition STATUS_PATHS : list string := ["$.last_status"; "$.last_run_at"; "$.last_error"; "$.last_delivery_error"].

Definition keep_count (old new : string) : string :=
  let seen := json_extract old "$.repeat.completed" in
  if negb (is_null seen) && (cast_integer (coalesce (json_extract new "$.repeat.completed") (SInt 0)) <? cast_integer seen)%Z
  then json_set new [("$.repeat.completed", SInt (cast_integer seen))] else new.

Definition merged_payload (old new : string) : string :=
  if negb (is_null (json_extract old "$.last_status"))
  then json_set (keep_count old new) (map (fun p => (p, json_extract old p)) STATUS_PATHS)
  else keep_count old new.

(** [LIKE] ignores the case of ASCII letters. *)
Definition like_once (e : string) : bool := starts_with "once:" (to_ascii_lowercase e).

(** A one-shot that ran, or was missed, and whose time is not another one. *)
Definition stays_retired (old new : CronJob) : bool :=
  like_once (expression old) && bool_decide (next_run_at old = None) && String.eqb (expression old) (expression new).

(** A repeat limit that was reached. *)
Definition stays_exhausted (old new : CronJob) : bool :=
  let times := json_extract (payload_json new) "$.repeat.times" in
  negb (is_null times) && (0 <? cast_integer times)%Z
  && (cast_integer times <=? cast_integer (coalesce (json_extract (payload_json old) "$.repeat.completed") (SInt 0)))%Z
  && bool_decide (next_run_at old = None).

Definition definition_changed (old new : CronJob) : bool :=
  let removed := "$.repeat.completed" :: STATUS_PATHS in
  negb (String.eqb (expression old) (expression new))
  || negb (String.eqb (json_remove (payload_json old) removed) (json_remove (payload_json new) removed))
  || negb (Bool.eqb (enabled old) (enabled new)).

Definition merge_job (new old : CronJob) : CronJob :=
  let done := stays_retired old new || stays_exhausted old new in
  mkJob (job_id old) (job_session_key old) (expression new) (merged_payload (payload_json old) (payload_json new))
    (if done then enabled old else enabled new)
    (if done then None else if definition_changed old new then next_run_at new else next_run_at old)
    (job_created_at old) (job_updated_at new) (authority old).

Definition is_mirror (r : CronJob) : bool := String.eqb (authority r) "hermes_mirror".

(** Rows affected; the row of another authority is left alone. *)
Definition upsert_mirror (row : CronJob) (s : CronState) : result nat OmonError * CronState :=
  match head (select (is_job (job_id row)) (jobs s)) with
  | None => (Ok 1, set_jobs (fun t => (t ++ [row])%list) s)
  | Some old =>
      if negb (is_mirror old) then (Ok 0, s)
      else if negb (valid_json (payload_json old)) then (Err MALFORMED, s)
      else (Ok 1, set_jobs (update_where (is_job (job_id row)) (merge_job row)) s)
  end.

(** ** One store *)

Definition import_id (profile id : string) : string := "hermes:" ++ profile ++ ":" ++ id.

Definition SOURCE_KEY : string := "_omon_hermes_source".

Definition import_payload (s : HermesStore) (j : HermesJob) : value :=
  obj_insert "_omon_hermes_home" (JString (lossy_text (home s)))
    (obj_insert "_omon_hermes_profile" (JString (store_profile s))
      (obj_insert SOURCE_KEY (JString (lossy_text (jobs_path s))) (encode_job j))).

(** A schedule without a time zone takes the store's. *)
Definition in_timezone (timezone_ : option string) (j : HermesJob) : HermesJob :=
  with_schedule (fun sch => match timezone sch with
                            | Some _ => sch
                            | None => mkSchedule (kind sch) (expr sch) (sch_minutes sch) (run_at sch) (display sch) timezone_ (sch_extra sch)
                            end) j.

(** The row an accepted job becomes; [None]: its next run is no timestamp. *)
Definition import_row (s : HermesStore) (timezone_ : option string) (now : Z) (j : HermesJob) (v : ValidatedHermesJob) : option CronJob :=
  let j := in_timezone timezone_ j in
  let created := match hj_created_at j ≫= (fun t => match parse_timestamp t with Ok t => Some t | Err _ => None end) with
                 | Some t => t | None => now end in
  let row next := mkJob (import_id (store_profile s) (hj_id j)) None (v_expression v) (print_json (import_payload s j)) (hj_enabled j)
                    next created now "hermes_mirror" in
  match hj_next_run_at j with
  | None => Some (row (computed_next v))
  | Some t => match parse_timestamp t with Ok t => Some (row (Some t)) | Err _ => None end
  end.

(** The loop over a store's jobs: the ids alive and the rows imported. *)
Fixpoint import_jobs (s : HermesStore) (tz : option string) (now : Z) (l : list HermesJob) (live : list string) (imported : nat) :
    M CronState (list string * nat) :=
  match l with
  | [] => ret (live, imported)
  | j :: rest =>
      match validate read_script j tz now with
      | Err _ => import_jobs s tz now rest live imported
      | Ok v =>
          let live := import_id (store_profile s) (hj_id j) :: live in
          match import_row s tz now j v with
          | None => import_jobs s tz now rest live imported
          | Some row =>
              affected <- exec (upsert_mirror row) ;;
              import_jobs s tz now rest live (if (0 <? affected)%nat then S imported else imported)
          end
      end
  end.

Definition of_source (source : string) (r : CronJob) : bool :=
  bool_decide (json_extract (payload_json r) ("$." ++ SOURCE_KEY) = SText source) && is_mirror r.

(** [SELECT id FROM cron_jobs WHERE json_extract(..) = ? AND ..]. *)
Definition source_ids (source : string) : M CronState (list string) :=
  exec (fun s => if forallb (fun r => valid_json (payload_json r)) (jobs s)
                 then (Ok (map job_id (select (of_source source) (jobs s))), s) else (Err MALFORMED, s)).

(** Deleting a job deletes its runs ([ON DELETE CASCADE]). *)
Definition delete_mirror (id : string) : M CronState unit :=
  stmt (fun s =>
    let p r := is_job id r && is_mirror r in
    (tt, if existsb p (jobs s) then set_runs (delete_where (of_job id)) (set_jobs (delete_where p) s) else s)).

Definition sync_store (s : HermesStore) (now : Z) (imported : nat) : M CronState nat :=
  match load read parse_yaml decode_error s with
  | Err _ => ret imported
  | Ok l =>
      alive <- import_jobs s (store_timezone read parse_yaml s) now l [] imported ;;
      rows <- source_ids (lossy_text (jobs_path s)) ;;
      for_each (fun id => if existsb (String.eqb id) alive.1 then ret tt else delete_mirror id) rows ;;;
      ret alive.2
  end.

Fixpoint sync_stores (l : list HermesStore) (now : Z) (imported : nat) : M CronState nat :=
  match l with
  | [] => ret imported
  | s :: rest => n <- sync_store s now imported ;; sync_stores rest now n
  end.

(** [sync_at]; [sync] reads the clock. *)
Definition sync_at (l : list HermesStore) (now : Z) : M CronState nat := sync_stores l now 0.
End Sync.

(** ** Notepads stay within their bounds *)

Definition note_key (r : Notepad) : string * string * string := (np_profile r, np_job r, np_key r).
Definition weight (profile job : string) (r : Notepad) : nat := if note_of profile job r then len (np_value r) else 0.
Definition note_size (profile job : string) (t : list Notepad) : nat := sum_list (map (weight profile job) t).
Definition others (profile job key : string) (t : list Notepad) : nat :=
  sum_list (map (fun r => if String.eqb (np_key r) key then 0 else weight profile job r) t).

Record notes_ok (t : list Notepad) : Prop := {
  note_keys_unique : NoDup (map note_key t);
  note_values_bounded : forall r, r ∈ t -> len (np_value r) <= MAX_NOTEPAD_VALUE_BYTES;
  note_totals_bounded : forall profile job, note_size profile job t <= MAX_NOTEPAD_TOTAL_BYTES
}.

#[export] Instance size_of_perm : Proper (Permutation ==> eq) size_of.
Proof. intros l k E. unfold size_of. by rewrite E. Qed.

Lemma select_perm {R} (p : R -> bool) (t1 t2 : list R) : t1 ≡ₚ t2 -> List.filter p t1 ≡ₚ List.filter p t2.
Proof.
  induction 1 as [|x t1 t2 _ IH|x y t|t1 t2 t3 _ IH1 _ IH2]; simpl; [done|destruct (p x); by rewrite IH| |by rewrite IH1].
  destruct (p x), (p y); by rewrite 1?Permutation_swap.
Qed.

Lemma size_others profile job key t :
  size_of (List.filter (fun e => negb (String.eqb e.1 key)) (entries_of profile job t)) = others profile job key t.
Proof.
  unfold entries_of. etrans; [apply size_of_perm, select_perm, sort_by_perm|].
  induction t as [|r t IH]; [done|]. unfold others, weight, size_of, select in *. simpl.
  destruct (note_of profile job r); simpl; [|rewrite IH; by destruct (String.eqb _ _)].
  destruct (String.eqb (np_key r) key); simpl; [done|]. by rewrite IH.
Qed.

Lemma note_at_spec r profile job key : note_at profile job key r = true <-> note_key r = (profile, job, key).
Proof.
  unfold note_at, note_of, note_key. rewrite !andb_true_iff, !String.eqb_eq. split; [by intros [[-> ->] ->]|by intros [= -> -> ->]].
Qed.

Lemma put_note_sizes row t profile job :
  NoDup (map note_key t) ->
  note_size profile job (put_note row t) =
  if note_of profile job row then (others profile job (np_key row) t + len (np_value row))%nat else note_size profile job t.
Proof.
  intros Hn. unfold put_note. set (same := note_at (np_profile row) (np_job row) (np_key row)).
  assert (Hsame : forall r, same r = true -> note_of profile job r = note_of profile job row /\ String.eqb (np_key r) (np_key row) = true).
  { intros r Hr. apply note_at_spec in Hr. injection Hr as H1 H2 H3. unfold note_of. rewrite H1, H2, H3. split; [done|apply String.eqb_refl]. }
  assert (Hother : forall r, note_of profile job row = true -> same r = false -> String.eqb (np_key r) (np_key row) = true -> note_of profile job r = false).
  { intros r Hrow Hr Hk. apply not_true_iff_false. intros E. apply not_true_iff_false in Hr. apply Hr.
    unfold note_of in *. apply andb_true_iff in E as [E1 E2]. apply andb_true_iff in Hrow as [R1 R2].
    apply String.eqb_eq in E1, E2, R1, R2. unfold same, note_at, note_of. by rewrite E1, E2, R1, R2, !String.eqb_refl, Hk. }
  destruct (existsb same t) eqn:Ex.
  - assert (Hsum : note_size profile job (update_where same (fun r => mkNotepad (np_profile r) (np_job r) (np_key r) (np_value row) (np_created_at r) (np_updated_at row)) t)
      = if note_of profile job row then (others profile job (np_key row) t + count same t * len (np_value row))%nat else note_size profile job t).
    { clear Ex Hn. induction t as [|r t IH]; [by destruct (note_of profile job row)|].
      unfold note_size, others, count, select in *. simpl. rewrite IH. destruct (same r) eqn:Er; simpl.
      - destruct (Hsame r Er) as [E1 ->]. unfold weight, note_of in *. simpl. rewrite E1. destruct (_ && _); lia.
      - destruct (note_of profile job row) eqn:Erow; [|done]. destruct (String.eqb (np_key r) (np_key row)) eqn:Ek; [|lia].
        unfold weight. rewrite (Hother r) by done. lia. }
    rewrite Hsum. assert (count same t = 1) as ->; [|by rewrite Nat.mul_1_l].
    apply existsb_exists in Ex as (r & Hr & Er). apply list_elem_of_In in Hr.
    apply (count_key note_key same t r); [done..|]. intros x _. apply note_at_spec in Er. rewrite Er.
    destruct (same x) eqn:E; symmetry; [apply bool_decide_eq_true; by apply note_at_spec|].
    apply bool_decide_eq_false. intros E'. apply note_at_spec in E'. unfold same in E. congruence.
  - unfold note_size, others. rewrite map_app, sum_list_with_app. simpl. rewrite existsb_false in Ex.
    unfold weight at 2. destruct (note_of profile job row) eqn:Erow; [|lia]. f_equal; [|lia].
    f_equal. apply list_fmap_ext. intros i r Hr. apply list_elem_of_lookup_2 in Hr.
    destruct (String.eqb (np_key r) (np_key row)) eqn:Ek; [|done]. unfold weight. by rewrite (Hother r eq_refl (Ex r Hr) Ek).
Qed.

Section NotepadFacts.
Context `{CronLibs}.

Lemma put_note_ok row t :
  len (np_value row) <= MAX_NOTEPAD_VALUE_BYTES ->
  others (np_profile row) (np_job row) (np_key row) t + len (np_value row) <= MAX_NOTEPAD_TOTAL_BYTES ->
  notes_ok t -> notes_ok (put_note row t).
Proof.
  intros Hv Ht [H1 H2 H3]. split.
  - unfold put_note. destruct (existsb _ t) eqn:Ex; [by rewrite map_update_where|].
    rewrite map_app. apply NoDup_snoc; [done|]. intros (r & E & Hr)%list_elem_of_fmap. rewrite existsb_false in Ex.
    specialize (Ex r Hr). apply not_true_iff_false in Ex. apply Ex. by apply note_at_spec.
  - unfold put_note. intros r. destruct (existsb _ t).
    + intros (r0 & Hr0 & ->)%in_update_where. case_match; [done|by apply H2].
    + intros [Hr| ->%list_elem_of_singleton]%elem_of_app; [by apply H2|done].
  - intros profile job. rewrite put_note_sizes by done. destruct (note_of profile job row) eqn:E; [|apply H3].
    unfold note_of in E. apply andb_true_iff in E as [E1%String.eqb_eq E2%String.eqb_eq]. by rewrite <- E1, <- E2.
Qed.

Lemma delete_notes_ok p t : notes_ok t -> notes_ok (delete_where p t).
Proof.
  intros [H1 H2 H3]. split; [by apply NoDup_map_delete|by intros r [Hr _]%in_delete_where; apply H2|].
  intros profile job. etrans; [|apply (H3 profile job)]. unfold note_size, delete_where. clear.
  induction t as [|r t IH]; simpl; [done|]. destruct (p r); simpl; unfold weight in *; lia.
Qed.

Lemma check_note_spec profile job key value :
  triple notes_ok (check_note profile job key value)
    (fun _ t => notes_ok t /\ len value <= MAX_NOTEPAD_VALUE_BYTES /\
                others profile job key t + len value <= MAX_NOTEPAD_TOTAL_BYTES) notes_ok.
Proof.
  unfold check_note, get_cron_notepads. destruct (Nat.ltb_spec MAX_NOTEPAD_VALUE_BYTES (len value)); [by apply triple_fail|].
  triple_step; [done|]. 
  destruct (Nat.ltb_spec MAX_NOTEPAD_TOTAL_BYTES (size_of (List.filter (fun e => negb (String.eqb e.1 key)) a) + len value));
    [by apply triple_fail; intros s [_ Hs]|].
  apply triple_ret. intros s [-> Hs]. by rewrite size_others in *.
Qed.

Lemma set_note_spec profile job key value now : preserves notes_ok (set_cron_notepad profile job key value now).
Proof.
  apply triple_preserves. eapply triple_bind; [apply check_note_spec|]. intros []. apply triple_stmt; [tauto|].
  intros t (Ht & Hv & Hs). by apply put_note_ok.
Qed.
End NotepadFacts.

(** ** What the bounds are worth *)

Inductive note_op : Type :=
| SetNote (profile job key value : string) (now : Z)
| DeleteNote (profile job : string) (key : option string).

Section NotepadOps.
Context `{CronLibs}.

Definition note_perform (o : note_op) : M (list Notepad) unit :=
  (match o with
   | SetNote p j k v now => set_cron_notepad p j k v now
   | DeleteNote p j k => delete_cron_notepad p j k ;;; ret tt
   end)%db.

Lemma note_perform_ok o : preserves notes_ok (note_perform o).
Proof.
  destruct o; simpl; [apply set_note_spec|]. unfold delete_cron_notepad. preserve_steps.
  intros t Ht. by apply delete_notes_ok.
Qed.

(** C29: however notes are set and deleted one after the other, and whatever
    statements fail, a job has one value per key, a value is at most 16 KiB and a
    job's notes are at most 64 KiB together. *)
Theorem notepads_stay_bounded (ops : list note_op) w :
  notes_ok (st w) -> notes_ok (st (for_each note_perform ops w).2).
Proof. apply preserves_for_each, note_perform_ok. Qed.

(** The check and the write are two statements: of two that were both checked
    before either wrote, the second leaves more than the limit. *)
Theorem concurrent_notes_pass_the_limit :
  let v := String.concat "" (List.repeat "0123456789abcdef" 1024) in
  let note k := mkNotepad "default" "j" k v "" "" in
  let s := mkWorld [note "a"; note "b"; note "c"] [] in
  (check_note "default" "j" "d" v s).1 = Ok tt /\ (check_note "default" "j" "e" v s).1 = Ok tt /\
  notes_ok (st s) /\
  note_size "default" "j" (st (write_note "default" "j" "e" v 0 (write_note "default" "j" "d" v 0 s).2).2) = 5 * MAX_NOTEPAD_VALUE_BYTES.
Proof.
  cbv zeta. set (v := String.concat "" (List.repeat "0123456789abcdef" 1024)).
  assert (Hl : len v = MAX_NOTEPAD_VALUE_BYTES) by by vm_compute. clearbody v.
  assert (Ho : forall k, k = "d" \/ k = "e" ->
    (check_note "default" "j" k v (mkWorld [mkNotepad "default" "j" "a" v "" ""; mkNotepad "default" "j" "b" v "" ""; mkNotepad "default" "j" "c" v "" ""] [])).1 = Ok tt).
  { intros k Hk. unfold check_note. rewrite Hl, Nat.ltb_irrefl. unfold get_cron_notepads. rewrite bind_query.
    destruct Hk as [-> | ->]; unfold size_of; simpl; by rewrite !Hl. }
  split; [apply Ho; by left|]. split; [apply Ho; by right|]. split.
  - split; simpl.
    + repeat (apply NoDup_cons; split; [set_solver|]). apply NoDup_nil_2.
    + intros r Hr. assert (np_value r = v) as ->; [set_solver|by rewrite Hl].
    + intros p j. unfold note_size, weight. simpl.
      assert (MAX_NOTEPAD_TOTAL_BYTES = 4 * MAX_NOTEPAD_VALUE_BYTES) as ->.
      { unfold MAX_NOTEPAD_TOTAL_BYTES, MAX_NOTEPAD_VALUE_BYTES. by rewrite Nat.mul_assoc. }
      clear Ho. revert Hl. generalize MAX_NOTEPAD_VALUE_BYTES. intros m Hl. repeat case_match; rewrite ?Hl; lia.
  - clear Ho. revert Hl. generalize MAX_NOTEPAD_VALUE_BYTES. intros m Hl.
    unfold write_note, note_size. rewrite !stmt_clean. simpl. unfold weight. simpl. rewrite !Hl. lia.
Qed.
End NotepadOps.

(** ** Encoding and decoding *)

Definition extra_ok (fields : list string) (extra : list (string * value)) : Prop :=
  in_order extra /\ forall k, k ∈ map fst extra -> k ∉ fields.

(** An item [deserialize_deliver] gives. *)
Definition deliver_ok (d : option (list string)) : Prop :=
  d <> Some [] /\ forall l, d = Some l -> List.concat (map comma_items l) = l.

Definition SCHEDULE_FIELDS : list string := ["kind"; "expr"; "minutes"; "run_at"; "display"; "timezone"].
Definition ORIGIN_FIELDS : list string := ["platform"; "chat_id"; "thread_id"; "user_id"; "chat_name"; "bot_id"].

(** The shape of a decoded job. *)
Record job_shaped (j : HermesJob) : Prop := {
  shaped_extra : extra_ok JOB_FIELDS (hj_extra j);
  shaped_schedule : extra_ok SCHEDULE_FIELDS (sch_extra (schedule j));
  shaped_origin : forall o, origin j = Some o -> extra_ok ORIGIN_FIELDS (og_extra o);
  shaped_deliver : deliver_ok (deliver j);
  shaped_failure : deliver_ok (failure_deliver j);
  shaped_context : context_from j <> Some JNull
}.

Lemma extra_none fields extra k : extra_ok fields extra -> k ∈ fields -> assoc_get k extra = None.
Proof. intros [_ He] Hk. apply assoc_get_None. intros Hin. by apply (He k). Qed.

(** Reading back the members and the rest of an encoded object. *)
Section Object.
Context (fields : list string) (members extra : list (string * value)).
Context (extra_fine : extra_ok fields extra) (members_fine : NoDup (map fst members)) (declared : forall k, k ∈ map fst members -> k ∈ fields).

Lemma object_NoDup : NoDup (map fst (members ++ extra)).
Proof.
  rewrite map_app. apply NoDup_app. split; [done|]. split; [|apply in_order_NoDup, extra_fine].
  intros k Hk He. by apply (proj2 extra_fine k He), declared.
Qed.

Lemma object_get k : assoc_get k (insert_all (members ++ extra) []) = assoc_get k (members ++ extra).
Proof. rewrite assoc_get_insert_all by apply object_NoDup. by destruct (assoc_get k _). Qed.

Lemma assoc_get_app k (l l' : list (string * value)) :
  assoc_get k (l ++ l') = match assoc_get k l with Some v => Some v | None => assoc_get k l' end.
Proof. induction l as [|[j v] l IH]; simpl; [done|]. by destruct (String.eqb j k). Qed.

Lemma object_rest : rest_of fields (insert_all (members ++ extra) []) = extra.
Proof.
  assert (Hd : forall k, existsb (String.eqb k) fields = true <-> k ∈ fields).
  { intros k. rewrite existsb_exists. split; [by intros (x & Hx & ->%String.eqb_eq); apply list_elem_of_In|].
    intros Hk. exists k. by rewrite <- list_elem_of_In, String.eqb_refl. }
  apply in_order_ext; [apply in_order_select, in_order_insert_all; constructor|apply extra_fine|].
  intros k. unfold rest_of. rewrite (assoc_get_select (fun k => negb (existsb (String.eqb k) fields))), object_get, assoc_get_app.
  destruct (existsb (String.eqb k) fields) eqn:E; simpl.
  - symmetry. apply (extra_none fields); [done|by apply Hd].
  - replace (assoc_get k members) with (@None value); [done|]. symmetry. apply assoc_get_None. intros Hk.
    apply declared, Hd in Hk. by rewrite Hk in E.
Qed.
End Object.

Lemma nullable_optional {A} (encode : A -> value) (decode : value -> option A) (o : option A) :
  (forall a, o = Some a -> decode (encode a) = Some a /\ encode a <> JNull) -> nullable decode (optional encode o) = Some o.
Proof. destruct o as [a|]; simpl; [|done]. intros H. destruct (H a eq_refl) as [E N]. unfold nullable. rewrite E. by destruct (encode a). Qed.

Lemma nullable_text o : nullable as_str (optional JString o) = Some o.
Proof. by destruct o. Qed.
Lemma nullable_number o : nullable as_u64 (optional JPos o) = Some o.
Proof. by destruct o. Qed.
Lemma nullable_bool o : nullable as_bool (optional JBool o) = Some o.
Proof. by destruct o. Qed.

Lemma list_of_texts l : list_of as_str (texts l) = Some l.
Proof. unfold list_of, texts. induction l as [|x l IH]; [done|]. simpl in *. by rewrite IH. Qed.

Lemma nullable_texts o : nullable (list_of as_str) (optional texts o) = Some o.
Proof. apply nullable_optional. intros l _. split; [apply list_of_texts|done]. Qed.

Lemma deliver_texts d : deliver_ok d -> deserialize_deliver (optional texts d) = Some d.
Proof.
  intros [Hn Hd]. destruct d as [l|]; [|done]. simpl. pose proof (list_of_texts l) as E. unfold list_of, texts in E. rewrite E. simpl.
  rewrite (Hd l eq_refl). by destruct l.
Qed.

#[local] Hint Rewrite nullable_text nullable_number nullable_bool nullable_texts : decode_rw.

#[local] Arguments nullable : simpl never.
#[local] Arguments optional : simpl never.

Ltac no_dup_keys := apply (bool_decide_unpack _); by vm_compute.
Ltac keys_declared := intros k Hk; simpl in *; set_solver.

Lemma schedule_back s : extra_ok SCHEDULE_FIELDS (sch_extra s) -> decode_schedule (encode_schedule s) = Some s.
Proof.
  intros He. unfold encode_schedule, object_of, decode_schedule. cbv iota beta. fold SCHEDULE_FIELDS. rewrite app_assoc.
  set (members := (_ ++ match timezone s with Some z => _ | None => _ end)%list).
  assert (Hn : NoDup (map fst members)) by (unfold members; destruct (timezone s); no_dup_keys).
  assert (Hd : forall k, k ∈ map fst members -> k ∈ SCHEDULE_FIELDS) by (unfold members; destruct (timezone s); keys_declared).
  rewrite (object_rest SCHEDULE_FIELDS members (sch_extra s) He Hn Hd).
  unfold Jobs.required, optional_text, defaulted. rewrite !(object_get SCHEDULE_FIELDS members (sch_extra s) He Hn Hd).
  rewrite !assoc_get_app. unfold members. destruct s as [k e m r d [z|] x]; simpl in *; autorewrite with decode_rw; simpl; [done|].
  by rewrite (extra_none SCHEDULE_FIELDS x "timezone") by (done || set_solver).
Qed.

Lemma origin_back o : extra_ok ORIGIN_FIELDS (og_extra o) -> decode_origin (encode_origin o) = Some o.
Proof.
  intros He. unfold encode_origin, object_of, decode_origin. cbv iota beta. fold ORIGIN_FIELDS.
  set (members := [_; _; _; _; _; _]). assert (Hn : NoDup (map fst members)) by no_dup_keys.
  assert (Hd : forall k, k ∈ map fst members -> k ∈ ORIGIN_FIELDS) by keys_declared.
  rewrite (object_rest ORIGIN_FIELDS members (og_extra o) He Hn Hd).
  unfold Jobs.required, optional_text, defaulted. rewrite !(object_get ORIGIN_FIELDS members (og_extra o) He Hn Hd).
  rewrite !assoc_get_app. unfold members. destruct o; simpl in *; by autorewrite with decode_rw.
Qed.

Lemma repeat_back r : decode_repeat (encode_repeat r) = Some r.
Proof. destruct r as [t c]. unfold encode_repeat. simpl. unfold defaulted. simpl. by autorewrite with decode_rw. Qed.

Lemma timeout_back j : extra_ok JOB_FIELDS (hj_extra j) ->
  aliased TIMEOUT_NAMES (nullable as_u64) None (insert_all (job_members j ++ hj_extra j) []) = Some (timeout_secs j).
Proof.
  intros He. assert (Hn : NoDup (map fst (job_members j))) by no_dup_keys.
  assert (Hd : forall k, k ∈ map fst (job_members j) -> k ∈ JOB_FIELDS) by keys_declared.
  unfold aliased. assert (List.filter (fun p => existsb (String.eqb p.1) TIMEOUT_NAMES) (insert_all (job_members j ++ hj_extra j) [])
    = [("timeout_secs", optional JPos (timeout_secs j))]) as ->; [|apply nullable_number].
  apply in_order_ext; [apply in_order_select, in_order_insert_all; constructor|by repeat constructor|].
  intros k. rewrite (assoc_get_select (fun k => existsb (String.eqb k) TIMEOUT_NAMES)), (object_get JOB_FIELDS), assoc_get_app by done.
  destruct (existsb (String.eqb k) TIMEOUT_NAMES) eqn:E.
  - apply existsb_exists in E as (x & Hx & ->%String.eqb_eq). apply list_elem_of_In in Hx.
    assert (He' : assoc_get x (hj_extra j) = None).
    { apply (extra_none JOB_FIELDS); [done|]. unfold JOB_FIELDS. apply elem_of_app. by right. }
    rewrite He'. repeat (apply elem_of_cons in Hx as [->|Hx]; [done|]). by apply not_elem_of_nil in Hx.
  - cbn [assoc_get]. destruct (String.eqb_spec "timeout_secs" k) as [<-|]; [|done]. by vm_compute in E.
Qed.

#[local] Arguments decode_schedule : simpl never.
#[local] Arguments decode_repeat : simpl never.
#[local] Arguments deserialize_deliver : simpl never.
#[local] Arguments list_of : simpl never.

(** C30: an imported job reads back: what [to_value] writes of a job of the shape
    that decoding gives, [from_value] reads as that job, all its fields and the
    members no field names included. *)
Theorem encoded_job_reads_back j : job_shaped j -> decode_job (encode_job j) = Some j.
Proof.
  intros [He Hs Ho Hdl Hf Hc]. pose proof (timeout_back j He) as Ht. unfold encode_job, object_of, decode_job. cbv iota beta.
  assert (Hn : NoDup (map fst (job_members j))) by no_dup_keys.
  assert (Hd : forall k, k ∈ map fst (job_members j) -> k ∈ JOB_FIELDS) by keys_declared.
  rewrite Ht, (object_rest JOB_FIELDS (job_members j) (hj_extra j) He Hn Hd). clear Ht.
  unfold Jobs.required, optional_text, defaulted. rewrite !(object_get JOB_FIELDS (job_members j) (hj_extra j) He Hn Hd).
  rewrite !assoc_get_app. simpl. autorewrite with decode_rw. rewrite schedule_back, repeat_back, !deliver_texts, !list_of_texts by done. simpl.
  rewrite (nullable_optional id Some) by (intros a E; split; [done|]; unfold id; intros ->; by rewrite E in Hc). simpl.
  rewrite (nullable_optional encode_origin decode_origin) by (intros o E; split; [by apply origin_back, Ho|done]). by destruct j.
Qed.

(** ** What an import may change *)

Section SyncFacts.
Context `{Sqlite} `{CronLibs} `{PayloadGuard} `{SqliteJson}.
Context (read : string -> result string IoError) (parse_yaml : string -> option value) (decode_error : value -> string).
Context (read_script : string -> string -> option string).

Lemma import_row_id s tz now j v row :
  import_row s tz now j v = Some row ->
  job_id row = import_id (store_profile s) (hj_id j) /\ expression row = v_expression v /\ is_mirror row = true.
Proof.
  unfold import_row. simpl. destruct (hj_next_run_at j) as [t|]; [|by intros [= <-]].
  destruct (parse_timestamp t); [by intros [= <-]|done].
Qed.

Lemma head_select_none {R} (p : R -> bool) t : head (select p t) = None -> existsb p t = false.
Proof.
  unfold select. intros E. apply existsb_false. intros r Hr. apply not_true_iff_false. intros Hp.
  assert (Hin : r ∈ List.filter p t) by (apply list_elem_of_In, filter_In; by rewrite <- list_elem_of_In).
  destruct (List.filter p t); [by apply not_elem_of_nil in Hin|done].
Qed.

(** What [upsert_mirror] does, by the row it finds. *)
Lemma upsert_mirror_cases row s r s' :
  upsert_mirror row s = (r, s') ->
  s' = s \/ (existsb (is_job (job_id row)) (jobs s) = false /\ s' = set_jobs (fun t => (t ++ [row])%list) s) \/
  (exists old, old ∈ jobs s /\ job_id old = job_id row /\ is_mirror old = true /\
               s' = set_jobs (update_where (is_job (job_id row)) (merge_job row)) s).
Proof.
  unfold upsert_mirror. destruct (head _) as [old|] eqn:E.
  - apply head_select in E as [Hin Hid]. apply String.eqb_eq in Hid. destruct (is_mirror old) eqn:Em; simpl; [|intros [= _ <-]; by left].
    destruct (valid_json _); simpl; intros [= _ <-]; [right; right; by exists old|by left].
  - intros [= _ <-]. right. left. split; [by apply head_select_none|done].
Qed.

Lemma rtc_cron_ok t t' : rtc cron_step t t' -> cron_ok t -> cron_ok t'.
Proof. induction 1 as [|x y z Hxy _ IH]; [done|]. intros Hx. apply IH. by eapply cron_step_ok. Qed.

(** The statements of an import are steps, when ids are unique. *)
Lemma upsert_mirror_step row s r s' : upsert_mirror row s = (r, s') -> rtc cron_step s s'.
Proof.
  intros [->|[[Hn ->]|(old & _ & _ & _ & ->)]]%upsert_mirror_cases; [done| |]; apply rtc_once.
  - by apply step_job_insert.
  - by apply step_job_update.
Qed.

Lemma unique_id s (x y : CronJob) : cron_ok s -> x ∈ jobs s -> y ∈ jobs s -> job_id x = job_id y -> x = y.
Proof.
  intros Hok Hx Hy E. pose proof (job_ids_unique s Hok) as Hn. apply list_elem_of_lookup in Hx as [i Hi], Hy as [k Hk].
  rewrite NoDup_alt in Hn. assert (i = k) as <-; [|congruence]. apply (Hn i k (job_id x)); rewrite list_lookup_fmap; [by rewrite Hi|by rewrite Hk, E].
Qed.

Lemma delete_mirror_jobs id s : cron_ok s -> existsb (fun r => is_job id r && is_mirror r) (jobs s) = true ->
  delete_where (fun r => is_job id r && is_mirror r) (jobs s) = delete_where (is_job id) (jobs s).
Proof.
  intros Hok (x & Hx & [Hi%String.eqb_eq Hm]%andb_true_iff)%existsb_exists. apply list_elem_of_In in Hx.
  assert (Hall : forall r, r ∈ jobs s -> is_job id r = true -> is_mirror r = true).
  { intros r Hr Hid%String.eqb_eq. by rewrite (unique_id s r x) by congruence. }
  unfold delete_where. clear Hx. revert Hall. generalize (jobs s). intros l Hall. induction l as [|r l IH]; simpl; [done|].
  rewrite IH by (intros; apply Hall; [by right|done]). destruct (is_job id r) eqn:E; simpl; [|done]. by rewrite (Hall r) by (done || by left).
Qed.

(** What an import of [s0] keeps: the jobs of other authorities, their runs and
    the other tables. *)
Definition kept_by_import (s0 s : CronState) : Prop :=
  cron_ok s /\ delete_where is_mirror (jobs s) = delete_where is_mirror (jobs s0) /\
  (forall r, existsb (is_job (run_job r)) (delete_where is_mirror (jobs s0)) = true -> r ∈ runs s <-> r ∈ runs s0) /\
  (outputs s, incidents s, receipts s, session_keys s, executions s) = (outputs s0, incidents s0, receipts s0, session_keys s0, executions s0).

Lemma delete_where_mirrors p f (t : list CronJob) :
  (forall r, r ∈ t -> p r = true -> is_mirror r = true /\ is_mirror (f r) = true) ->
  delete_where is_mirror (update_where p f t) = delete_where is_mirror t.
Proof.
  unfold delete_where, update_where. induction t as [|r t IH]; intros Hp; simpl; [done|].
  rewrite IH by (intros; apply Hp; [by right|done]). destruct (p r) eqn:E; [|done]. by destruct (Hp r) as [-> ->]; [left| |].
Qed.

Lemma delete_where_twice p q (t : list CronJob) : (forall r, r ∈ t -> q r = true -> p r = true) -> delete_where p (delete_where q t) = delete_where p t.
Proof.
  unfold delete_where. induction t as [|r t IH]; intros Hq; simpl; [done|].
  destruct (q r) eqn:E; simpl; rewrite IH by (intros; apply Hq; [by right|done]); [|done]. by rewrite (Hq r) by (done || by left).
Qed.

Lemma upsert_kept s0 row s r s' : is_mirror row = true -> upsert_mirror row s = (r, s') -> kept_by_import s0 s -> kept_by_import s0 s'.
Proof.
  intros Hrow Hu (Hok & Hj & Hr & Hrest). pose proof (upsert_mirror_step _ _ _ _ Hu) as Hst.
  split; [by eapply rtc_cron_ok|].
  destruct (upsert_mirror_cases _ _ _ _ Hu) as [->|[[Hn ->]|(old & Hin & Hid & Hm & ->)]]; [done| |].
  - split; [|done]. simpl. rewrite <- Hj. unfold delete_where. rewrite List.filter_app. simpl. by rewrite Hrow, app_nil_r.
  - split; [|done]. simpl. rewrite <- Hj. apply delete_where_mirrors. intros x Hx Hxid%String.eqb_eq.
    rewrite (unique_id s x old) by congruence. done.
Qed.

Lemma delete_mirror_kept s0 id : preserves (kept_by_import s0) (delete_mirror id).
Proof.
  apply preserves_stmt. intros s (Hok & Hj & Hr & Hrest). simpl. set (p := fun r => is_job id r && is_mirror r).
  destruct (existsb p (jobs s)) eqn:E; [|done]. unfold kept_by_import. simpl. split; [|split; [|split; [|done]]].
  - unfold set_runs, set_jobs. simpl. pose proof (delete_mirror_jobs id s Hok E) as Hd. fold p in Hd. rewrite Hd. by apply (delete_job_ok id s).
  - rewrite <- Hj. apply delete_where_twice. by intros r _ [_ ?]%andb_true_iff.
  - intros r Hown. rewrite <- Hr by done. rewrite in_delete_where. split; [by intros []|]. intros Hin. split; [done|].
    unfold of_job. apply String.eqb_neq. intros Eq. apply existsb_exists in E as (x & Hx & [Hxid%String.eqb_eq Hxm]%andb_true_iff).
    apply existsb_exists in Hown as (y & Hy & Hyid%String.eqb_eq). rewrite <- list_elem_of_In in Hx, Hy. rewrite <- Hj in Hy.
    apply in_delete_where in Hy as [Hy Hym]. rewrite (unique_id s y x) in Hym by congruence. congruence.
Qed.

Lemma import_jobs_kept s0 s tz now l live n : preserves (kept_by_import s0) (import_jobs read_script s tz now l live n).
Proof.
  revert live n. induction l as [|j l IH]; intros live n; simpl; [apply preserves_ret|].
  destruct (validate read_script j tz now) as [v|]; [|apply IH]. destruct (import_row s tz now j v) as [row|] eqn:E; [|apply IH].
  apply preserves_bind; [|intros a; apply IH]. apply preserves_exec. intros st Hst.
  destruct (upsert_mirror row st) as [r s'] eqn:Eu. by eapply upsert_kept; [apply (import_row_id _ _ _ _ _ _ E)| |].
Qed.

Lemma sync_store_kept s0 s now n : preserves (kept_by_import s0) (sync_store read parse_yaml decode_error read_script s now n).
Proof.
  unfold sync_store, source_ids. destruct (load _ _ _ s) as [l|]; [|apply preserves_ret]. preserve_steps; [apply import_jobs_kept| |apply delete_mirror_kept].
  intros st Hst. by destruct (forallb _ _).
Qed.

(** C31: an import touches mirrored jobs only: whatever the stores hold and
    whatever statements fail, the jobs that this gateway owns, or is taking over,
    are as they were, in order, with all their runs, the other tables are
    untouched, and a job still has at most one running run. *)
Theorem import_touches_mirrors_only stores now w :
  cron_ok (st w) -> kept_by_import (st w) (st (sync_at read parse_yaml decode_error read_script stores now w).2).
Proof.
  intros Hok. assert (Hp : preserves (kept_by_import (st w)) (sync_at read parse_yaml decode_error read_script stores now)); [|by apply Hp].
  unfold sync_at. generalize 0. induction stores as [|s l IH]; intros n; simpl; [apply preserves_ret|].
  apply preserves_bind; [apply sync_store_kept|intros; apply IH].
Qed.
End SyncFacts.

(** ** What an import leaves *)

Section SyncResults.
Context `{CronLibs} `{PayloadGuard} `{SqliteJson}.
Context (read : string -> result string IoError) (parse_yaml : string -> option value) (decode_error : value -> string).
Context (read_script : string -> string -> option string).
Context (s : HermesStore) (now : Z).

(** A job that ran for the last time: not to run again, under this id. *)
Definition retired (id expr : string) (on : bool) (r : CronJob) : Prop :=
  job_id r = id -> expression r = expr /\ next_run_at r = None /\ enabled r = on.
Definition all_retired id expr on (t : CronState) : Prop := forall r, r ∈ jobs t -> retired id expr on r.
Definition has_job (id : string) (t : CronState) : Prop := exists r, r ∈ jobs t /\ job_id r = id.

Lemma upsert_has_job id row t r t' : upsert_mirror row t = (r, t') -> has_job id t -> has_job id t'.
Proof.
  intros [->|[[_ ->]|(old & _ & _ & _ & ->)]]%upsert_mirror_cases (x & Hx & Hid); [by exists x| |].
  - exists x. split; [apply elem_of_app; by left|done].
  - exists (if is_job (job_id row) x then merge_job row x else x). split; [apply in_update_where; by exists x|by destruct (is_job _ x)].
Qed.

Lemma upsert_row_there row t n t' : upsert_mirror row t = (Ok n, t') -> has_job (job_id row) t'.
Proof.
  intros E. unfold upsert_mirror in E. destruct (head _) as [old|] eqn:Eh.
  - apply head_select in Eh as [Hin Hid%String.eqb_eq]. assert (Hh : has_job (job_id row) t) by by exists old.
    destruct (is_mirror old); simpl in E; [|by simplify_eq]. destruct (valid_json _); simpl in E; [|done].
    simplify_eq. destruct Hh as (x & Hx & Hxid). exists (merge_job row x). split; [|done].
    apply in_update_where. exists x. split; [done|]. unfold is_job. by rewrite Hxid, String.eqb_refl.
  - simplify_eq. exists row. split; [apply elem_of_app; right; by left|done].
Qed.

Lemma upsert_retired id expr on row t r t' :
  like_once expr = true -> (job_id row = id -> expression row = expr) ->
  upsert_mirror row t = (r, t') -> has_job id t /\ all_retired id expr on t -> has_job id t' /\ all_retired id expr on t'.
Proof.
  intros Ho He Hu [Hh Ha]. split; [by eapply upsert_has_job|].
  destruct (upsert_mirror_cases _ _ _ _ Hu) as [->|[[Hn ->]|(old & _ & _ & _ & ->)]]; [done| |].
  - intros x [Hx| ->%list_elem_of_singleton]%elem_of_app Hid; [by apply Ha|]. destruct Hh as (y & Hy & Hyid).
    rewrite existsb_false in Hn. specialize (Hn y Hy). unfold is_job in Hn. apply String.eqb_neq in Hn. congruence.
  - intros x (y & Hy & ->)%in_update_where Hid. destruct (String.eqb_spec (job_id y) (job_id row)) as [Eq|Hne].
    + unfold is_job in *. rewrite (proj2 (String.eqb_eq _ _) Eq) in *. simpl in Hid. destruct (Ha y Hy Hid) as (E1 & E2 & E3).
      unfold merge_job. simpl. assert (stays_retired y row = true) as Hs.
      { unfold stays_retired. rewrite E1, Ho, bool_decide_true, He by congruence. by rewrite String.eqb_refl. }
      rewrite Hs. simpl. rewrite He by congruence. done.
    + unfold is_job in *. rewrite (proj2 (String.eqb_neq _ _) Hne) in *. by apply Ha.
Qed.

Lemma import_jobs_retired id expr on tz l live n :
  like_once expr = true ->
  (forall j, j ∈ l -> import_id (store_profile s) (hj_id j) = id -> job_expression j = Ok expr) ->
  preserves (fun t => has_job id t /\ all_retired id expr on t) (import_jobs read_script s tz now l live n).
Proof.
  intros Ho. revert live n. induction l as [|j l IH]; intros live n He; simpl; [apply preserves_ret|].
  assert (IH' : forall live n, preserves (fun t => has_job id t /\ all_retired id expr on t) (import_jobs read_script s tz now l live n))
    by (intros; apply IH; intros; apply He; [by right|done]).
  destruct (validate read_script j tz now) as [v|] eqn:Ev; [|apply IH'].
  destruct (import_row s tz now j v) as [row|] eqn:E; [|apply IH'].
  apply import_row_id in E as (Eid & Eex & Em). apply preserves_bind; [|intros; apply IH'].
  apply preserves_exec. intros t Ht. destruct (upsert_mirror row t) as [r t'] eqn:Eu. simpl.
  eapply upsert_retired; [exact Ho| |exact Eu|exact Ht]. intros Hid.
  pose proof (validated_jobs_are_safe read_script j tz now v Ev) as (_ & _ & _ & _ & _ & _ & _ & _ & Ej & _).
  rewrite Eid in Hid. rewrite (He j) in Ej by (done || by left). injection Ej as ->. done.
Qed.

Lemma delete_mirror_retired id expr on x : preserves (all_retired id expr on) (delete_mirror x).
Proof.
  apply preserves_stmt. intros t Ht. simpl. destruct (existsb _ _); [|done].
  intros r [Hr _]%in_delete_where. by apply Ht.
Qed.

Lemma sync_store_retired id expr on n :
  like_once expr = true ->
  (forall l j, load read parse_yaml decode_error s = Ok l -> j ∈ l -> import_id (store_profile s) (hj_id j) = id -> job_expression j = Ok expr) ->
  triple (fun t => has_job id t /\ all_retired id expr on t) (sync_store read parse_yaml decode_error read_script s now n)
    (fun _ => all_retired id expr on) (all_retired id expr on).
Proof.
  intros Ho He. unfold sync_store. destruct (load _ _ _ s) as [l|] eqn:El; [|apply triple_ret; tauto].
  eapply triple_bind; [apply (triple_keep _ (all_retired id expr on)); [by apply import_jobs_retired; eauto|tauto]|].
  intros alive. eapply (triple_weaken (all_retired id expr on)); [|tauto|intros ? ? Hx; exact Hx|done].
  apply triple_preserves. unfold source_ids. preserve_steps; [intros t Ht; by destruct (forallb _ _)|apply delete_mirror_retired].
Qed.

(** A one-shot that has run does not run again because its store still lists
    it: after an import, whatever fails, the job under its id, if it is still
    there, has no next run and is on or off as before, unless the store gives it
    another time. *)
Theorem finished_oneshot_not_rearmed w n r0 :
  like_once (expression r0) = true -> next_run_at r0 = None -> r0 ∈ jobs (st w) -> NoDup (map job_id (jobs (st w))) ->
  (forall l j, load read parse_yaml decode_error s = Ok l -> j ∈ l ->
     import_id (store_profile s) (hj_id j) = job_id r0 -> job_expression j = Ok (expression r0)) ->
  forall r, r ∈ jobs (st (sync_store read parse_yaml decode_error read_script s now n w).2) -> job_id r = job_id r0 ->
  expression r = expression r0 /\ next_run_at r = None /\ enabled r = enabled r0.
Proof.
  intros Ho Hnext Hin Hn He.
  assert (Hstart : has_job (job_id r0) (st w) /\ all_retired (job_id r0) (expression r0) (enabled r0) (st w)).
  { split; [by exists r0|]. intros r Hr Hid. assert (r = r0) as ->; [|done].
    apply list_elem_of_lookup in Hr as [i Hi], Hin as [k Hk]. rewrite NoDup_alt in Hn.
    assert (i = k) as <-; [|congruence]. apply (Hn i k (job_id r0)); rewrite list_lookup_fmap; [by rewrite Hi, <- Hid|by rewrite Hk]. }
  pose proof (sync_store_retired (job_id r0) (expression r0) (enabled r0) n Ho He w Hstart) as Ht.
  intros r. destruct (sync_store _ _ _ _ _ _ _ w) as [[a|e] w']; apply Ht.
Qed.

(** The ids of the jobs an import accepts. *)
Definition accepted (tz : option string) (l : list HermesJob) : list string :=
  omap (fun j => match validate read_script j tz now with Ok _ => Some (import_id (store_profile s) (hj_id j)) | Err _ => None end) l.

Lemma import_jobs_alive tz l live n :
  triple (fun _ => True) (import_jobs read_script s tz now l live n) (fun a _ => a.1 = rev (accepted tz l) ++ live)%list (fun _ => True).
Proof.
  revert live n. induction l as [|j l IH]; intros live n; simpl; [by apply triple_ret|].
  destruct (validate read_script j tz now) as [v|]; [|apply IH]. simpl. rewrite <- app_assoc. simpl.
  destruct (import_row s tz now j v) as [row|]; [|apply IH].
  eapply triple_bind; [|intros a; apply IH]. apply triple_exec; [done|]. intros t _. by destruct (upsert_mirror row t) as [[?|?] ?].
Qed.

(** The row under an id, which is unique in the table. *)
Definition row_of (id : string) (t : CronState) : option CronJob := head (select (is_job id) (jobs t)).

(** What an imported row makes of the row under its id. *)
Definition carried (row : CronJob) (old : option CronJob) : CronJob :=
  match old with None => row | Some old => if is_mirror old then merge_job row old else old end.

Lemma head_map {A B} (f : A -> B) (l : list A) : head (map f l) = f <$> head l.
Proof. by destruct l. Qed.

Lemma row_of_update id p f t : (forall r, is_job id (f r) = is_job id r) ->
  row_of id (set_jobs (update_where p f) t) = (fun r => if p r then f r else r) <$> row_of id t.
Proof.
  intros Hf. unfold row_of. simpl. rewrite <- head_map. f_equal. unfold select, update_where.
  induction (jobs t) as [|r l IH]; simpl; [done|]. assert (is_job id (if p r then f r else r) = is_job id r) as -> by by destruct (p r).
  destruct (is_job id r); simpl; by rewrite IH.
Qed.

Lemma upsert_other id row t r t' : job_id row <> id -> upsert_mirror row t = (r, t') -> row_of id t' = row_of id t.
Proof.
  intros Hne [->|[[_ ->]|(old & _ & _ & _ & ->)]]%upsert_mirror_cases; [done| |].
  - unfold row_of, select. simpl. rewrite List.filter_app. simpl. unfold is_job at 2. apply String.eqb_neq in Hne. by rewrite Hne, app_nil_r.
  - rewrite row_of_update by done. destruct (row_of id t) as [x|] eqn:E; [|done]. simpl.
    apply head_select in E as [_ E%String.eqb_eq]. unfold is_job. by rewrite (proj2 (String.eqb_neq _ _)) by congruence.
Qed.

Lemma upsert_own row t n t' : upsert_mirror row t = (Ok n, t') -> row_of (job_id row) t' = Some (carried row (row_of (job_id row) t)).
Proof.
  unfold upsert_mirror. fold (row_of (job_id row) t). destruct (row_of (job_id row) t) as [old|] eqn:E; simpl.
  - destruct (is_mirror old); simpl; [|by intros [= _ <-]]. destruct (valid_json _); [|done]. intros [= _ <-].
    rewrite row_of_update by done. rewrite E. simpl. apply head_select in E as [_ E]. by rewrite E.
  - intros [= _ <-]. unfold row_of, select in *. simpl. rewrite List.filter_app. simpl. unfold is_job at 2. rewrite String.eqb_refl.
    by destruct (List.filter _ (jobs t)).
Qed.

Lemma import_id_inj profile id id' : import_id profile id = import_id profile id' -> id = id'.
Proof. unfold import_id. intros E. injection E as E. apply (inj (String.append profile)) in E. by injection E. Qed.

Lemma import_jobs_other id tz l o live n :
  (forall j, j ∈ l -> import_id (store_profile s) (hj_id j) <> id) ->
  preserves (fun t => row_of id t = o) (import_jobs read_script s tz now l live n).
Proof.
  revert live n. induction l as [|j l IH]; intros live n Hl; simpl; [apply preserves_ret|].
  assert (IH' : forall live n, preserves (fun t => row_of id t = o) (import_jobs read_script s tz now l live n)) by (intros; apply IH; intros; apply Hl; by right).
  destruct (validate read_script j tz now) as [v|]; [|apply IH']. destruct (import_row s tz now j v) as [row|] eqn:E; [|apply IH'].
  apply preserves_bind; [|intros; apply IH']. apply preserves_exec. intros t Ht. destruct (upsert_mirror row t) as [r t'] eqn:Eu. simpl.
  rewrite <- Ht. eapply upsert_other; [|exact Eu]. apply import_row_id in E as (-> & _). apply Hl. by left.
Qed.

Lemma import_jobs_carry tz l j v row o live n :
  NoDup (map hj_id l) -> j ∈ l -> validate read_script j tz now = Ok v -> import_row s tz now j v = Some row ->
  triple (fun t => row_of (job_id row) t = o) (import_jobs read_script s tz now l live n)
    (fun _ t => row_of (job_id row) t = Some (carried row o)) (fun _ => True).
Proof.
  intros Hn Hj Hv Hr. pose proof (import_row_id _ _ _ _ _ _ Hr) as (Eid & _).
  revert live n. induction l as [|k l IH]; intros live n; [by apply not_elem_of_nil in Hj|].
  apply NoDup_cons in Hn as [Hk Hn].
  assert (Hother : forall k', k' ∈ l -> hj_id k' <> hj_id k) by (intros k' Hk' E; apply Hk; rewrite <- E; apply list_elem_of_fmap; by exists k').
  apply elem_of_cons in Hj as [<-|Hj]; simpl.
  - rewrite Hv, Hr. eapply triple_bind with (R := fun _ t => row_of (job_id row) t = Some (carried row o)).
    + apply triple_exec; [done|]. intros t <-. destruct (upsert_mirror row t) as [[m|e] t'] eqn:E; [|done]. by eapply upsert_own.
    + intros a. apply triple_keep; [|done]. apply import_jobs_other. intros k' Hk' E. rewrite Eid in E. by apply import_id_inj, Hother in E.
  - destruct (validate read_script k tz now) as [x|]; [|by apply IH]. destruct (import_row s tz now k x) as [r|] eqn:Ek; [|by apply IH].
    eapply triple_bind with (R := fun _ t => row_of (job_id row) t = o); [|intros a; by apply IH].
    apply triple_exec; [done|]. intros t <-. destruct (upsert_mirror r t) as [[m|e] t'] eqn:E; [|done].
    eapply upsert_other; [|exact E]. apply import_row_id in Ek as (-> & _). rewrite Eid. intros Eq%import_id_inj. by apply (Hother j Hj).
Qed.

(** The rows of the file that are not in the list are gone at the end of the loop. *)
Lemma delete_gone_spec source alive rows :
  triple (fun t => forall r, r ∈ jobs t -> of_source source r = true -> job_id r ∈ alive \/ job_id r ∈ rows)
    (for_each (fun id => if existsb (String.eqb id) alive then ret tt else delete_mirror id) rows)
    (fun _ t => forall r, r ∈ jobs t -> of_source source r = true -> job_id r ∈ alive) (fun _ => True).
Proof.
  induction rows as [|id rows IH]; simpl.
  - apply triple_ret. intros t Ht r Hr Hs. by destruct (Ht r Hr Hs) as [?|?%not_elem_of_nil].
  - eapply triple_bind; [|intros a; apply IH]. destruct (existsb (String.eqb id) alive) eqn:E.
    + apply triple_ret. intros t Ht r Hr Hs. destruct (Ht r Hr Hs) as [?|[->|?]%elem_of_cons]; [by left| |by right].
      left. apply existsb_exists in E as (x & Hx & ->%String.eqb_eq). by apply list_elem_of_In.
    + apply triple_stmt; [done|]. intros t Ht. simpl. destruct (existsb _ (jobs t)) eqn:Ex.
      * intros r [Hr Hp]%in_delete_where Hs. destruct (Ht r Hr Hs) as [?|[Eid|?]%elem_of_cons]; [by left| |by right].
        unfold of_source in Hs. apply andb_true_iff in Hs as [_ Hm]. unfold is_job in Hp. by rewrite Eid, String.eqb_refl, Hm in Hp.
      * intros r Hr Hs. destruct (Ht r Hr Hs) as [?|[Eid|?]%elem_of_cons]; [by left| |by right].
        rewrite existsb_false in Ex. specialize (Ex r Hr). unfold of_source in Hs. apply andb_true_iff in Hs as [_ Hm].
        unfold is_job in Ex. by rewrite Eid, String.eqb_refl, Hm in Ex.
Qed.

Lemma delete_gone_keeps id o alive rows :
  id ∈ alive -> preserves (fun t => row_of id t = o) (for_each (fun x => if existsb (String.eqb x) alive then ret tt else delete_mirror x) rows).
Proof.
  intros Hid. apply preserves_for_each. intros x. destruct (existsb (String.eqb x) alive) eqn:E; [apply preserves_ret|].
  apply preserves_stmt. intros t Ht. simpl. destruct (existsb _ (jobs t)); [|done]. rewrite <- Ht. unfold row_of. simpl. f_equal.
  apply select_delete. intros r _ Hr. unfold is_job in *. apply String.eqb_eq in Hr as ->.
  destruct (String.eqb_spec id x) as [->|]; [|done]. apply not_true_iff_false in E. exfalso. apply E. apply existsb_exists.
  exists x. by rewrite <- list_elem_of_In, String.eqb_refl.
Qed.

(** ** What an imported row says *)

Definition HOME_KEY : string := "_omon_hermes_home".
Definition PROFILE_KEY : string := "_omon_hermes_profile".

(** The row of a job of this store: under the job's id, with its schedule, on or
    off as the job, mirrored; its payload is the job, stamped with the file, the
    home and the profile it came from. *)
Record imported (tz : option string) (j : HermesJob) (v : ValidatedHermesJob) (row : CronJob) : Prop := mkImported {
  im_id : job_id row = "hermes:" ++ store_profile s ++ ":" ++ hj_id j;
  im_expression : expression row = v_expression v;
  im_enabled : enabled row = hj_enabled j;
  im_authority : authority row = "hermes_mirror";
  im_session : job_session_key row = None;
  im_next : match hj_next_run_at j with
            | None => next_run_at row = computed_next v
            | Some text => exists at_, parse_timestamp text = Ok at_ /\ next_run_at row = Some at_
            end;
  im_payload : exists p, payload_json row = print_json p /\
    get SOURCE_KEY p = Some (JString (lossy_text (jobs_path s))) /\
    get HOME_KEY p = Some (JString (lossy_text (home s))) /\
    get PROFILE_KEY p = Some (JString (store_profile s)) /\
    forall k, k <> SOURCE_KEY -> k <> HOME_KEY -> k <> PROFILE_KEY -> get k p = get k (encode_job (in_timezone tz j))
}.

Lemma import_row_imported tz j v row : import_row s tz now j v = Some row -> imported tz j v row.
Proof.
  unfold import_row. cbv zeta. intros E.
  set (p := import_payload s (in_timezone tz j)) in E.
  assert (Hp : get SOURCE_KEY p = Some (JString (lossy_text (jobs_path s))) /\ get HOME_KEY p = Some (JString (lossy_text (home s))) /\
    get PROFILE_KEY p = Some (JString (store_profile s)) /\
    forall k, k <> SOURCE_KEY -> k <> HOME_KEY -> k <> PROFILE_KEY -> get k p = get k (encode_job (in_timezone tz j))).
  { unfold p, import_payload, HOME_KEY, PROFILE_KEY. split_and!.
    - rewrite !get_obj_insert_ne by done. by apply get_obj_insert.
    - apply get_obj_insert. by rewrite !is_object_insert.
    - rewrite get_obj_insert_ne by done. apply get_obj_insert. by rewrite is_object_insert.
    - intros k ? ? ?. by rewrite !get_obj_insert_ne. }
  clearbody p. change (hj_id (in_timezone tz j)) with (hj_id j) in E. change (hj_enabled (in_timezone tz j)) with (hj_enabled j) in E.
  change (hj_next_run_at (in_timezone tz j)) with (hj_next_run_at j) in E.
  destruct (hj_next_run_at j) as [text|] eqn:En; [destruct (parse_timestamp text) as [at_|] eqn:Et; [|done]|];
    injection E as <-; (split; simpl; [done..| |by exists p]); rewrite En; eauto.
Qed.

(** What [json_extract] and [json_set] document, of the stamp: it is read where
    it was printed, and setting other members leaves it. *)
Hypothesis stamp_read : forall v x, get SOURCE_KEY v = Some (JString x) -> json_extract (print_json v) ("$." ++ SOURCE_KEY) = SText x.
Hypothesis stamp_stays : forall d l, (forall p x, (p, x) ∈ l -> p ∈ "$.repeat.completed" :: STATUS_PATHS) ->
  json_extract (json_set d l) ("$." ++ SOURCE_KEY) = json_extract d ("$." ++ SOURCE_KEY).

Lemma imported_source tz j v row : imported tz j v row -> of_source (lossy_text (jobs_path s)) row = true.
Proof.
  intros [_ _ _ Ha _ _ (p & Ep & Hs & _)]. unfold of_source, is_mirror. rewrite Ep, (stamp_read _ _ Hs), Ha. by rewrite bool_decide_true.
Qed.

Lemma merge_source source row old : of_source source row = true -> is_mirror old = true -> of_source source (merge_job row old) = true.
Proof.
  unfold of_source. intros [Hs _]%andb_true_iff Hm. unfold merge_job, is_mirror in *.
  cbn [payload_json authority]. rewrite Hm, andb_true_r.
  assert (Hk : json_extract (keep_count (payload_json old) (payload_json row)) ("$." ++ SOURCE_KEY) = json_extract (payload_json row) ("$." ++ SOURCE_KEY)).
  { unfold keep_count. destruct (_ && _); [|done]. apply stamp_stays. intros p x [= -> _]%list_elem_of_singleton. by left. }
  unfold merged_payload. destruct (negb _); [|by rewrite Hk].
  rewrite stamp_stays; [by rewrite Hk|]. intros p x (y & [= -> _] & Hy)%list_elem_of_fmap. by right.
Qed.

End SyncResults.

(** ** Witnesses and findings *)

(** The import validates a job before its home is known, so the body of its
    script is not read: what the file holds makes no difference. *)
Theorem script_body_unread_at_import `{CronLibs} `{PayloadGuard} r1 r2 j tz now :
  assoc_get "_omon_hermes_home" (hj_extra j) = None -> validate r1 j tz now = validate r2 j tz now.
Proof. intros Hh. unfold validate, script_body. rewrite Hh. by destruct (script j). Qed.

Module SampleStore.
(** One document of one job; a payload prints as the file it came from. *)
Definition document : value :=
  JObject [("jobs", JArray [JObject [("id", JString "a"); ("schedule", JObject [("kind", JString "once"); ("run_at", JString "5")])]])].
Definition libs : CronLibs := {|
  parse_rfc3339 := @parse_rfc3339 toy_libs; to_rfc3339 := @to_rfc3339 toy_libs; Tz := @Tz toy_libs; parse_tz := @parse_tz toy_libs;
  Sched := @Sched toy_libs; parse_schedule := @parse_schedule toy_libs; upcoming := @upcoming toy_libs;
  upcoming_after := @upcoming_after toy_libs;
  parse_json s := if String.eqb s "jobs" then Ok document else Err "unsupported";
  print_json v := default "" (get SOURCE_KEY v ≫= as_str)
|}.
Definition json : SqliteJson := {|
  valid_json _ := true;
  json_extract d p := if String.eqb p ("$." ++ SOURCE_KEY) then SText d else SNull;
  json_set d _ := d; json_remove d _ := d; cast_integer v := match v with SInt n => n | _ => 0%Z end
|}.
#[local] Existing Instance libs.
#[local] Existing Instance json.
#[local] Existing Instance open_guard.

Definition read (path : string) : result string IoError := if String.eqb path "/h/cron/jobs.json" then Ok "jobs" else Err NotFound.
Definition store : HermesStore := mkHermesStore "default" "/h".
Definition no_yaml (_ : string) : option value := None.
Definition no_script (_ _ : string) : option string := None.
Definition told (_ : value) : string := "invalid".

Definition job (next : option Z) (on : bool) (auth : string) : CronJob :=
  mkJob "hermes:default:a" None "once:5" "/h/cron/jobs.json" on next 0 0 auth.
Definition with_jobs (l : list CronJob) : CronState := mkCron l [] [] [] None [] [].

Lemma with_jobs_ok l : NoDup (map job_id l) -> cron_ok (with_jobs l).
Proof.
  intros Hn. split; simpl; try (apply NoDup_nil_2); try (by intros r ?%not_elem_of_nil); [done|]. intros id. unfold count. simpl. lia.
Qed.

Definition listed : HermesJob := default (mkHermesJob "" "" "" [] None None None None None false None None (mkSchedule "" None None None None None []) "" (mkRepeat None 0)
                true "" None None None None None None None None None None None None None None None None [])
  (decode_job (JObject [("id", JString "a"); ("schedule", JObject [("kind", JString "once"); ("run_at", JString "5")])])).

Lemma stamp_read v x : get SOURCE_KEY v = Some (JString x) -> json_extract (print_json v) ("$." ++ SOURCE_KEY) = SText x.
Proof. intros E. unfold json_extract, print_json, json, libs. rewrite E. by rewrite String.eqb_refl. Qed.
Lemma stamp_stays d (l : list (string * SqlValue)) :
  (forall p x, (p, x) ∈ l -> p ∈ "$.repeat.completed" :: STATUS_PATHS) ->
  json_extract (json_set d l) ("$." ++ SOURCE_KEY) = json_extract d ("$." ++ SOURCE_KEY).
Proof. done. Qed.
End SampleStore.
#[local] Existing Instance SampleStore.libs.
#[local] Existing Instance SampleStore.json.
#[local] Existing Instance open_guard.
#[local] Existing Instance floor_sqlite.

Lemma notepads_stay_bounded_witness :
  notes_ok (st (for_each note_perform [SetNote "default" "j" "k" "v" 0; DeleteNote "default" "j" None; SetNote "default" "j" "k" "w" 1]
    (mkWorld [mkNotepad "default" "j" "k" "u" "" ""] [None; Some "disk I/O error"])).2).
Proof.
  apply notepads_stay_bounded. split; simpl; [apply NoDup_singleton|by intros r ->%list_elem_of_singleton; apply Nat.leb_le; vm_compute|].
  intros p j. unfold note_size, weight. simpl. apply Nat.leb_le. destruct (note_of p j _); vm_compute; reflexivity.
Defined.

Definition sample_job : HermesJob :=
  with_extra (fun _ => [("note", JNull)])
    (default (mkHermesJob "" "" "" [] None None None None None false None None (mkSchedule "" None None None None None []) "" (mkRepeat None 0)
                true "" None None None None None None None None None None None None None None None None [])
       (decode_job (JObject [("deliver", JString "discord:1, local"); ("id", JString "a");
                             ("schedule", JObject [("kind", JString "cron"); ("expr", JString "* * * * *")])]))).

Lemma encoded_job_reads_back_witness : decode_job (encode_job sample_job) = Some sample_job.
Proof.
  apply encoded_job_reads_back. split; try done.
  - split; [by repeat constructor|]. intros k ->%list_elem_of_singleton. apply (bool_decide_unpack _). by vm_compute.
  - split; [constructor|]. by intros k ?%not_elem_of_nil.
  - split; [done|]. intros l [= <-]. by vm_compute.
Defined.

Lemma import_touches_mirrors_only_witness :
  kept_by_import (SampleStore.with_jobs [SampleStore.job None true "omon_owned"])
    (st (sync_at SampleStore.read SampleStore.no_yaml SampleStore.told SampleStore.no_script [SampleStore.store] 0
           (mkWorld (SampleStore.with_jobs [SampleStore.job None true "omon_owned"]) [])).2).
Proof. apply (import_touches_mirrors_only _ _ _ _ _ _ (mkWorld _ [])). apply SampleStore.with_jobs_ok. apply NoDup_singleton. Defined.

Lemma finished_oneshot_not_rearmed_witness :
  let after := (sync_store SampleStore.read SampleStore.no_yaml SampleStore.told SampleStore.no_script SampleStore.store 0 0
    (mkWorld (SampleStore.with_jobs [SampleStore.job None false "hermes_mirror"]) [])).2 in
  map job_id (jobs (st after)) = ["hermes:default:a"] /\
  forall r, r ∈ jobs (st after) -> job_id r = "hermes:default:a" -> expression r = "once:5" /\ next_run_at r = None /\ enabled r = false.
Proof.
  split; [vm_compute; reflexivity|].
  apply (finished_oneshot_not_rearmed SampleStore.read SampleStore.no_yaml SampleStore.told SampleStore.no_script SampleStore.store 0
      (mkWorld (SampleStore.with_jobs [SampleStore.job None false "hermes_mirror"]) []) 0 (SampleStore.job None false "hermes_mirror")); try done.
  - by left.
  - apply NoDup_singleton.
  - intros l j Hl Hj _. vm_compute in Hl. injection Hl as <-. apply list_elem_of_singleton in Hj as ->. reflexivity.
Defined.

