(* ===== verification/CronTool.v ===== *)
(** * The cron tool ([src/tools/cron.rs])

    The tool an agent manages scheduled jobs with: every action over the tables
    of [Cron], through the scheduler when the tool is bound to one and by its own
    statements when it is not, and the notepads of [Store]. *)
From stdpp Require Import base list strings option sets relations.
From Stdlib Require Import ZArith NArith Lia Ascii String DecimalString.
From S2P Require Import Prelude RustStr Db Session Ledger Json Schedule Cron Jobs Delivery Store.
Open Scope string_scope.
Open Scope omon_scope.
Open Scope db_scope.
Local Notation length := Datatypes.length.

Record ToolStore : Type := mkToolStore { cron : CronState; notes : list Notepad }.

(** An operation on one part of the store, on the same connection. *)
Definition on_cron {A} (m : M CronState A) : M ToolStore A := zoom cron (fun c s => mkToolStore c (notes s)) m.
Definition on_notes {A} (m : M (list Notepad) A) : M ToolStore A := zoom notes (fun n s => mkToolStore (cron s) n) m.

(** [Value::as_i64]. *)
Definition value_i64 (v : value) : option Z :=
  match v with JPos n => if (n <? 2 ^ 63)%N then Some (Z.of_N n) else None | JNeg z => Some z | _ => None end.

(** [a.get(x).or_else(|| a.get(y))]. *)
Definition get_or (x y : string) (args : value) : option value :=
  match get x args with Some v => Some v | None => get y args end.

(** [payload[key] = v]: null becomes an object, anything else panics. *)
Definition index_set (key : string) (v : value) (p : value) : result value OmonError :=
  match p with
  | JObject _ => Ok (obj_insert key v p)
  | JNull => Ok (JObject [(key, v)])
  | _ => Err (Panicked ("cannot access key " ++ QUOTE ++ key ++ QUOTE))
  end.

Definition set_text (key : string) (o : option string) (p : value) : result value OmonError :=
  match o with Some s => index_set key (JString s) p | None => Ok p end.

(** [str::trim_start_matches] of a prefix, repeated. *)
Fixpoint trim_start_str (fuel : nat) (p s : string) : string :=
  match fuel with
  | O => s
  | S fuel => match strip_prefix p s with Some rest => trim_start_str fuel p rest | None => s end
  end.

Definition tool_fail {A} (m : string) : M ToolStore A := fail (ToolExecution m).
Definition not_found {A} (id : string) : M ToolStore A := tool_fail ("cron job not found: " ++ id).

Section CronTool.
Context `{Sqlite} `{CronLibs} `{PayloadGuard} (process_exists : Z -> bool).
(** Whether a scheduler is bound, what it says of itself, and this process. *)
Context (bound : bool) (running : bool) (active_executions : nat) (pid : Z).
(** The run id and the token of a claim, and the clock. *)
Context (rid token : string) (now : Z).

(** [json!] of a row: its members in key order. *)
Definition job_value (r : CronJob) : value :=
  JObject [("created_at", JString (to_rfc3339 (job_created_at r))); ("enabled", JBool (enabled r)); ("expression", JString (expression r));
           ("id", JString (job_id r)); ("next_run_at", optional (fun t => JString (to_rfc3339 t)) (next_run_at r));
           ("payload_json", JString (payload_json r)); ("session_key", optional JString (job_session_key r));
           ("updated_at", JString (to_rfc3339 (job_updated_at r)))].
Definition run_value (r : CronRun) : value :=
  JObject [("attempt", if (attempt_no r <? 0)%Z then JNeg (attempt_no r) else JPos (Z.to_N (attempt_no r)));
           ("claim_token", JString (claim_token r)); ("completed_at", optional (fun t => JString (to_rfc3339 t)) (run_completed_at r));
           ("error", optional JString (run_error r)); ("job_id", JString (run_job r));
           ("lease_expires_at", JString (to_rfc3339 (lease_expires_at r))); ("run_id", JString (run_id r));
           ("started_at", JString (to_rfc3339 (started_at r))); ("status", JString (run_status r))].
Definition count_value (n : nat) : value := JPos (N.of_nat n).

Definition id_le (a b : CronJob) : bool := String.leb (job_id a) (job_id b).
Definition newest_first (a b : CronRun) : bool := (started_at b <=? started_at a)%Z.

Definition job_row (id : string) : M ToolStore (option CronJob) := on_cron (get_job id).
Definition require_id (id : option string) : M ToolStore string := lift (ok_or id (ToolExecution "missing 'id'")).

Definition check_imported_read_only (id : string) : M ToolStore unit :=
  let read_only := ToolExecution ("cannot modify imported job '" ++ id ++ "' (read-only)") in
  if starts_with "hermes:" id then fail read_only
  else
    row <- on_cron (query (fun s => authority <$> head (select (is_job id) (jobs s)))) ;;
    match row with
    | Some auth => if String.eqb auth "hermes_mirror" || String.eqb auth "hermes_synced" then fail read_only else ret tt
    | None => ret tt
    end.

Definition list_jobs : M ToolStore value :=
  l <- on_cron (query (fun s => sort_by id_le (jobs s))) ;;
  ret (JObject [("count", count_value (length l)); ("cron_jobs", JArray (map job_value l))]).

Definition get_one (id : string) : M ToolStore value :=
  job <- job_row id ;;
  match job with Some j => ret (job_value j) | None => not_found id end.

Definition delete_one (id : string) : M ToolStore value :=
  check_imported_read_only id ;;;
  deleted <- on_cron (delete id) ;;
  ret (JObject [("deleted", JBool deleted); ("id", JString id)]).

(** The statements the unbound tool runs are those of the scheduler's [pause]. *)
Definition pause_one (id : string) : M ToolStore value :=
  check_imported_read_only id ;;;
  paused <- (if bound then on_cron (pause id now)
             else affected <- on_cron (stmt (fun s => (count (is_job id) (jobs s),
                    set_jobs (update_where (is_job id) (set_schedule false None now)) s))) ;;
                  ret (negb (affected =? 0)%nat)) ;;
  if paused : bool then ret (JObject [("enabled", JBool false); ("id", JString id); ("status", JString "paused")])
  else not_found id.

Definition resume_one (id : string) : M ToolStore value :=
  check_imported_read_only id ;;;
  next <- (if bound then
             resumed <- on_cron (resume id now) ;;
             if resumed : bool then
               job <- job_row id ;;
               match job with Some j => ret (next_run_at j) | None => not_found id end
             else not_found id
           else
             job <- job_row id ;;
             match job with
             | None => not_found id
             | Some j =>
                 next <- lift (next_run (expression j) now) ;;
                 on_cron (stmt (fun s => (tt, set_jobs (update_where (is_job id) (set_schedule true (Some next) now)) s))) ;;;
                 ret (Some next)
             end) ;;
  ret (JObject [("enabled", JBool true); ("id", JString id); ("next_run_at", optional (fun t => JString (to_rfc3339 t)) next);
                ("status", JString "resumed")]).

Definition trigger_one (id : string) : M ToolStore value :=
  job <- job_row id ;;
  match job with
  | None => not_found id
  | Some _ =>
      (if bound then
         triggered <- on_cron (trigger process_exists id rid token pid now) ;;
         if triggered : bool then ret tt else tool_fail ("failed to trigger cron job: " ++ id)
       else
         on_cron (stmt (fun s => (tt, set_jobs (update_where (is_job id) (fun r =>
           mkJob (job_id r) (job_session_key r) (expression r) (payload_json r) (enabled r) (Some now) (job_created_at r) now (authority r))) s)))) ;;;
      ret (JObject [("id", JString id); ("status", JString "triggered")])
  end.

(** The checks of a prompt and of a script that an agent gives. *)
Definition check_script (s : string) : result unit OmonError :=
  match check_gateway_lifecycle s with Ok _ => Ok tt | Err e => Err (ToolExecution e) end.
Definition check_prompt (p : string) : result unit OmonError :=
  _ <-? check_script p ;;
  match scan_cron_prompt p with
  | [] => Ok tt
  | threats => Err (ToolExecution ("cron prompt rejected due to security threats: " ++ join ", " threats))
  end.
Definition check_given (check : string -> result unit OmonError) (o : option string) : result unit OmonError :=
  match o with Some s => check s | None => Ok tt end.

(** The payload after an update, as the code changes it, member by member. *)
Definition updated_payload (args payload : value) : result value OmonError :=
  let text k := get k args ≫= as_str in
  _ <-? check_given check_prompt (text "prompt") ;;
  p <-? set_text "prompt" (text "prompt") payload ;;
  _ <-? check_given check_script (text "script") ;;
  p <-? set_text "script" (text "script") p ;;
  p <-? set_text "name" (get_or "description" "name" args ≫= as_str) p ;;
  p <-? set_text "deliver" (text "deliver") p ;;
  match get "enabled_toolsets" args with Some v => index_set "enabled_toolsets" v p | None => Ok p end.

Definition update_one (id : string) (args : value) : M ToolStore value :=
  job <- job_row id ;;
  match job with
  | None => not_found id
  | Some j =>
      payload <- lift (updated_payload args (payload_or_empty (payload_json j))) ;;
      let given := get_or "expression" "schedule" args ≫= as_str in
      let expr := default (expression j) given in
      let on := default (enabled j) (get "enabled" args ≫= as_bool) in
      let expression_changed := match given with Some e => negb (String.eqb e (expression j)) | None => false end in
      let enabled_changed := match get "enabled" args ≫= as_bool with Some b => negb (Bool.eqb b (enabled j)) | None => false end in
      next <- (if negb on then ret None
               else if expression_changed || (enabled_changed && bool_decide (next_run_at j = None))
               then next <- lift (next_run expr now) ;; ret (Some next)
               else ret (next_run_at j)) ;;
      on_cron (stmt (fun s => (tt, set_jobs (update_where (is_job id) (fun r =>
        mkJob (job_id r) (job_session_key r) expr (print_json payload) on next (job_created_at r) now (authority r))) s))) ;;;
      ret (JObject [("enabled", JBool on); ("expression", JString expr); ("id", JString id);
                    ("next_run_at", optional (fun t => JString (to_rfc3339 t)) next); ("status", JString "updated")])
  end.

(** *** Adding a job *)

(** The time of a one-shot is computed when it is added. *)
Definition added_expression (args : value) : result string OmonError :=
  let once next := ("once:" ++ to_rfc3339 next)%string in
  match get "once_at" args ≫= as_str with
  | Some once_at => next <-? next_run ("once:" ++ once_at) now ;; Ok (once next)
  | None =>
      match get "delay" args ≫= as_str with
      | Some delay => next <-? next_run ("interval:" ++ delay) now ;; Ok (once next)
      | None => ok_or (get_or "expression" "schedule" args ≫= as_str) (ToolExecution "missing 'expression' (or once_at/delay)")
      end
  end.

(** [if let Some(v) = args.get(from) { payload[to] = v.clone(); }]. *)
Definition copied (to : string) (v : option value) (p : value) : value :=
  match v with Some v => obj_insert to v p | None => p end.

Definition added_payload (args : value) (prompt script : option string) (on : bool) : value :=
  let base := JObject
    [("bot_id", optional JString (get "bot_id" args ≫= as_str));
     ("deliver", JString (default "local" (get "deliver" args ≫= as_str)));
     ("enabled_toolsets", default JNull (get "enabled_toolsets" args));
     ("name", JString (default "" (get_or "description" "name" args ≫= as_str)));
     ("prompt", JString (default "" prompt)); ("script", optional JString script)] in
  let p := copied "repeat" (get "repeat" args) base in
  let p := copied "context_from" (get "context_from" args) p in
  let p := copied "skills" (get "skills" args) p in
  let p := copied "skill" (get "skill" args) p in
  let p := copied "no_agent" (get "no_agent" args) p in
  let p := copied "ack_command" (get "ack_command" args) p in
  let p := copied "timeout_secs" (get_or "timeout" "timeout_secs" args) p in
  let p := copied "model" (get "model" args) p in
  obj_insert "enabled" (JBool on) p.

(** The insert of the unbound tool, with its [ON CONFLICT(id) DO UPDATE]. *)
Definition upsert_native (row : CronJob) (s : CronState) : result unit OmonError * CronState :=
  if negb (session_exists (job_session_key row) s)
  then (Err (Database (constraint_error "cron_jobs.session_key")), s)
  else if existsb (is_job (job_id row)) (jobs s)
  then (Ok tt, set_jobs (update_where (is_job (job_id row)) (fun r =>
         mkJob (job_id r) (job_session_key row) (expression row) (payload_json row) (enabled row)
           (next_run_at row) (job_created_at r) (job_updated_at row) (authority r))) s)
  else (Ok tt, set_jobs (fun t => (t ++ [row])%list) s).

(** chrono's serialization of an instant. *)
Context (serde_time : Z -> string).

Definition add_one (id : string) (args : value) : M ToolStore value :=
  expr <- lift (added_expression args) ;;
  let prompt := get "prompt" args ≫= as_str in
  let script := get "script" args ≫= as_str in
  if match prompt, script with None, None => true | _, _ => false end
  then tool_fail "add requires at least one of 'prompt' or 'script'"
  else
    lift (check_given check_prompt prompt) ;;;
    lift (check_given check_script script) ;;;
    let on := default true (get "enabled" args ≫= as_bool) in
    let payload := added_payload args prompt script on in
    let session_key := get "_session_key" args ≫= as_str in
    if bound then
      job <- on_cron (register_with_id id (mkSpec expr payload session_key) now) ;;
      (if on then ret tt else on_cron (pause id now) ;;; ret tt) ;;;
      ret (JObject [("enabled", JBool (if on then enabled job else false)); ("expression", JString expr); ("id", JString id);
                    ("next_run_at", optional (fun t => JString (serde_time t)) (next_run_at job)); ("status", JString "registered")])
    else
      next <- (if on then next <- lift (next_run expr now) ;; ret (Some next) else ret None) ;;
      on_cron (exec (upsert_native (mkJob id session_key expr (print_json payload) on next now now "omon_owned"))) ;;;
      ret (JObject [("expression", JString expr); ("id", JString id); ("one_shot", JBool (starts_with "once:" expr));
                    ("prompt", optional JString prompt); ("script", optional JString script); ("status", JString "registered")]).

(** *** Runs, incidents and notepads *)

Definition run_limit (args : value) : nat := Z.to_nat (Z.min 100 (Z.max 1 (default 20%Z (get "limit" args ≫= value_i64)))).

Definition list_runs (id : option string) (args : value) : M ToolStore value :=
  l <- on_cron (query (fun s =>
         take (run_limit args) (sort_by newest_first (match id with Some id => select (of_job id) (runs s) | None => runs s end)))) ;;
  ret (JObject [("runs", JArray (map run_value l))]).

Definition scheduler_status : M ToolStore value :=
  total <- on_cron (query (fun s => length (jobs s))) ;;
  on <- on_cron (query (fun s => count enabled (jobs s))) ;;
  let '(run, active, health) :=
    if bound then (running, active_executions, if running then "healthy" else "stopped") else (true, 0, "unbound") in
  ret (JObject [("active_executions", count_value active); ("enabled_jobs", count_value on);
                ("paused_jobs", count_value (total - on)); ("running", JBool run); ("status", JString "ok");
                ("ticker", JObject [("health", JString health); ("running", JBool run)]); ("total_jobs", count_value total)]).

(** The unbound tool's updates are those of [acknowledge_incident]. *)
Definition ack_one (id : string) (args : value) : M ToolStore value :=
  let signature := get "signature" args ≫= as_str in
  acknowledged <-
    (if bound then on_cron (acknowledge_incident id signature now)
     else
       let p r := String.eqb (inc_job r) id
                  && match signature with Some sg => String.eqb (error_signature r) sg | None => true end in
       rows <- on_cron (stmt (fun s => (count p (incidents s), set_incidents (update_where p (fun r =>
                 mkIncident (inc_job r) (error_signature r) true (to_rfc3339 now))) s))) ;;
       ret (0 <? rows)%nat) ;;
  ret (JObject [("acknowledged", JBool acknowledged); ("id", JString id); ("status", JString "acknowledged")]).

Definition notepad_op (action : string) (args : value) : string :=
  if String.eqb action "notepad" then default "list" (get "op" args ≫= as_str) else trim_start_str (len action) "notepad_" action.

Definition notepad_one (id action : string) (args : value) : M ToolStore value :=
  let profile := default "default" (get "profile" args ≫= as_str) in
  let op := notepad_op action args in
  let text k := lift (ok_or (get k args ≫= as_str) (ToolExecution ("missing '" ++ k ++ "'"))) in
  if String.eqb op "set" then
    key <- text "key" ;;
    v <- text "value" ;;
    on_notes (set_cron_notepad profile id key v now) ;;;
    ret (JObject [("id", JString id); ("key", JString key); ("profile", JString profile); ("status", JString "ok"); ("value", JString v)])
  else if String.eqb op "get" || String.eqb op "list" then
    entries <- on_notes (get_cron_notepads profile id) ;;
    ret (JObject [("id", JString id); ("notes", object_of (map (fun e => (e.1, JString e.2)) entries)); ("profile", JString profile);
                  ("status", JString "ok")])
  else if String.eqb op "delete" || String.eqb op "remove" then
    deleted <- on_notes (delete_cron_notepad profile id (get "key" args ≫= as_str)) ;;
    ret (JObject [("deleted", count_value deleted); ("id", JString id); ("profile", JString profile); ("status", JString "ok")])
  else tool_fail ("unknown notepad op: " ++ op).

(** ** The tool *)

Definition one_of (action : string) (names : list string) : bool := existsb (String.eqb action) names.

Definition execute (args : value) : M ToolStore value :=
  action <- lift (ok_or (get "action" args ≫= as_str) (ToolExecution "missing 'action'")) ;;
  let id_param := get_or "id" "job_id" args ≫= as_str in
  let with_id (k : string -> M ToolStore value) := id <- require_id id_param ;; k id in
  if one_of action ["list"] then list_jobs
  else if one_of action ["get"] then with_id get_one
  else if one_of action ["delete"; "remove"] then with_id delete_one
  else if one_of action ["pause"] then with_id pause_one
  else if one_of action ["resume"] then with_id resume_one
  else if one_of action ["trigger"; "run"; "run_now"] then with_id trigger_one
  else if one_of action ["update"] then with_id (fun id => update_one id args)
  else if one_of action ["add"; "create"] then with_id (fun id => add_one id args)
  else if one_of action ["runs"] then list_runs id_param args
  else if one_of action ["status"] then scheduler_status
  else if one_of action ["ack"; "acknowledge"; "ack_incident"] then with_id (fun id => ack_one id args)
  else if one_of action ["notepad"; "notepad_set"; "notepad_get"; "notepad_list"; "notepad_delete"]
  then with_id (fun id => notepad_one id action args)
  else tool_fail ("unknown action: " ++ action).

(** The target of a reminder created on Discord is where it was created. *)
Definition reminder_target (session : SessionKey) : string :=
  match thread_id session with
  | Some tid => "discord:" ++ channel_id session ++ ":" ++ tid
  | None => "discord:" ++ channel_id session
  end.

Definition with_session (args : value) (session : option SessionKey) : value :=
  let is_create := match get "action" args ≫= as_str with Some a => one_of a ["add"; "create"] | None => false end in
  match session with
  | Some session =>
      if is_create && eq_ignore_ascii_case (platform session) "discord" then
        let untargeted := match get "deliver" args with
                          | None => true
                          | Some v => bool_decide (as_str v = Some "local")
                          end in
        let args := if untargeted then obj_insert "deliver" (JString (reminder_target session)) args else args in
        let args := copied "bot_id" (JString <$> bot_id session) args in
        obj_insert "_session_key" (JString (storage_key session)) args
      else args
  | None => args
  end.

Definition execute_with_context (args : value) (session : option SessionKey) : M ToolStore value :=
  execute (with_session args session).
End CronTool.

(** ** The tables stay consistent *)

Definition tool_ok (s : ToolStore) : Prop := cron_ok (cron s) /\ notes_ok (notes s).

Lemma on_cron_keeps {A} (I : CronState -> Prop) (J : list Notepad -> Prop) (m : M CronState A) :
  preserves I m -> preserves (fun s => I (cron s) /\ J (notes s)) (on_cron m).
Proof.
  intros Hm w [Hi Hj]. unfold on_cron, zoom. specialize (Hm (mkWorld (cron (st w)) (faults w)) Hi). by destruct (m _).
Qed.

Lemma on_notes_keeps {A} (I : CronState -> Prop) (J : list Notepad -> Prop) (m : M (list Notepad) A) :
  preserves J m -> preserves (fun s => I (cron s) /\ J (notes s)) (on_notes m).
Proof.
  intros Hm w [Hi Hj]. unfold on_notes, zoom. specialize (Hm (mkWorld (notes (st w)) (faults w)) Hj). by destruct (m _).
Qed.

Lemma preserves_drop {S A} (I : S -> Prop) (m : M S A) : preserves I (m ;;; ret tt) -> preserves I m.
Proof. intros H w HI. specialize (H w HI). unfold bind in H. by destruct (m w) as [[?|?] ?]. Qed.

Section Kept.
Context `{Sqlite} `{CronLibs} `{PayloadGuard} (process_exists : Z -> bool).

Lemma steps_ok {A} (m : M CronState A) : (forall s0, preserves (rtc cron_step s0) m) -> preserves cron_ok m.
Proof. intros Hm w Hok. eapply rtc_cron_ok; [|exact Hok]. by apply (Hm (st w)). Qed.

Lemma op_ok o : preserves cron_ok (cron_perform process_exists (fun s => s) o).
Proof. apply steps_ok. intros s0. apply perform_steps. Qed.

Lemma update_jobs_ok p f : (forall r, job_id (f r) = job_id r) -> forall s, cron_ok s -> cron_ok (set_jobs (update_where p f) s).
Proof. intros Hf s Hok. eapply cron_step_ok; [by apply step_job_update|done]. Qed.

Lemma incidents_ok f s : cron_ok s -> cron_ok (set_incidents f s).
Proof. intros Hok. eapply cron_step_ok; [apply step_incidents|done]. Qed.

Lemma upsert_native_ok row s : cron_ok s -> cron_ok (upsert_native row s).2.
Proof.
  intros Hok. unfold upsert_native. destruct (negb _); [done|]. destruct (existsb _ _) eqn:E; simpl; [by apply update_jobs_ok|].
  eapply cron_step_ok; [by apply step_job_insert|done].
Qed.

(** One part of a tool's action. *)
Ltac tool_step :=
  first
    [ progress preserve_steps
    | apply on_notes_keeps
    | apply on_cron_keeps
    | apply set_note_spec
    | apply (preserves_drop notes_ok), (note_perform_ok (DeleteNote _ _ _))
    | apply (preserves_drop cron_ok), (op_ok (OpRegisterWithId _ _ _))
    | apply (preserves_drop cron_ok), (op_ok (OpPause _ _))
    | apply (preserves_drop cron_ok), (op_ok (OpResume _ _))
    | apply (preserves_drop cron_ok), (op_ok (OpDelete _))
    | apply (preserves_drop cron_ok), (op_ok (OpAcknowledge _ _ _))
    | apply (preserves_drop cron_ok), (op_ok (OpTrigger _ _ _ _ _))
    | apply upsert_native_ok
    | apply incidents_ok
    | apply update_jobs_ok ].

(** C33: every action of the tool, bound to a scheduler or not, whatever its
    arguments and whatever statements fail, leaves the cron tables consistent (one
    running run per job, unique ids, tokens and attempts, runs of jobs that exist)
    and the notepads within their bounds. *)
Theorem cron_tool_keeps_tables bound running active pid rid token now serde_time args session w :
  tool_ok (st w) ->
  tool_ok (st (execute_with_context process_exists bound running active pid rid token now serde_time args session w).2).
Proof.
  intros Hw. unfold execute_with_context. generalize (with_session args session). clear args. intros args. revert w Hw.
  change (preserves tool_ok (execute process_exists bound running active pid rid token now serde_time args)). unfold tool_ok, execute, require_id.
  preserve_steps; unfold list_jobs, get_one, delete_one, pause_one, resume_one, trigger_one, update_one, add_one, list_runs, scheduler_status,
    ack_one, notepad_one, job_row, get_job, check_imported_read_only, not_found, tool_fail, get_cron_notepads; repeat tool_step; done.
Qed.
End Kept.

(** ** Imported jobs are read-only where the tool checks *)

Section Imported.
Context `{Sqlite} `{CronLibs} `{PayloadGuard} (bound : bool) (now : Z).
Context (r : CronJob) (mirrored : is_mirror r = true).

Definition keeps_row (s : ToolStore) : Prop := r ∈ jobs (cron s).

Lemma on_cron_row {A} (m : M CronState A) : preserves (fun s => r ∈ jobs s) m -> preserves keeps_row (on_cron m).
Proof.
  intros Hm. pose proof (on_cron_keeps (fun s => r ∈ jobs s) (fun _ => True) m Hm) as Hp. intros w Hw. by apply Hp.
Qed.

Lemma update_row id f s : job_id r <> id -> r ∈ jobs s -> r ∈ jobs (set_jobs (update_where (is_job id) f) s).
Proof.
  intros Hne Hr. apply in_update_where. exists r. split; [done|]. unfold is_job. by rewrite (proj2 (String.eqb_neq _ _) Hne).
Qed.

Lemma delete_row id s : job_id r <> id -> r ∈ jobs s ->
  r ∈ jobs (if existsb (is_job id) (jobs s) then set_runs (delete_where (of_job id)) (set_jobs (delete_where (is_job id)) s) else s).
Proof.
  intros Hne Hr. destruct (existsb _ _); [|done]. apply in_delete_where. split; [done|]. by apply String.eqb_neq.
Qed.

Ltac row_step :=
  first [ progress preserve_steps | apply on_cron_row | by intros s; apply update_row | by intros s; apply delete_row ].

Lemma check_imported_spec id :
  triple (fun s => cron_ok (cron s) /\ keeps_row s) (check_imported_read_only id)
    (fun _ s => keeps_row s /\ job_id r <> id) keeps_row.
Proof.
  unfold check_imported_read_only. destruct (starts_with "hermes:" id); [apply triple_fail; tauto|].
  eapply triple_bind with (R := fun row s => keeps_row s /\ (job_id r = id -> row = Some "hermes_mirror")).
  - intros w [Hok Hr]. unfold on_cron, zoom, query, stmt, exec. simpl. destruct (faults w) as [|[msg|] fl]; simpl; [|done|];
      (split; [done|]; intros Hid; destruct (head (select (is_job id) (jobs (cron (st w))))) as [x|] eqn:E;
       [apply head_select in E as [Hx Hxid%String.eqb_eq]; rewrite (unique_id (cron (st w)) x r Hok Hx Hr) by congruence; simpl; f_equal; by apply String.eqb_eq
       |apply head_select_none in E; rewrite existsb_false in E; specialize (E r Hr); by rewrite <- Hid in E; unfold is_job in E; rewrite String.eqb_refl in E]).
  - intros [auth|]; simpl.
    + destruct (String.eqb_spec auth "hermes_mirror") as [->|Hne]; [apply triple_fail; tauto|].
      destruct (String.eqb auth "hermes_synced"); [apply triple_fail; tauto|]. apply triple_ret. intros s [Hs He]. split; [done|].
      intros Hid. apply He in Hid. congruence.
    + apply triple_ret. intros s [Hs He]. split; [done|]. intros Hid. by apply He in Hid.
Qed.

Lemma checked_keeps {A} id (k : M ToolStore A) :
  (job_id r <> id -> preserves keeps_row k) ->
  triple (fun s => cron_ok (cron s) /\ keeps_row s) (check_imported_read_only id ;;; k) (fun _ => keeps_row) keeps_row.
Proof.
  intros Hk. eapply triple_bind; [apply check_imported_spec|]. intros []. apply triple_pure. intros Hne. apply triple_preserves, Hk, Hne.
Qed.

Definition guarded (args : value) : Prop :=
  exists a, get "action" args = Some (JString a) /\ one_of a ["delete"; "remove"; "pause"; "resume"] = true.

Lemma guarded_kept process_exists running active pid rid token serde_time args :
  guarded args ->
  triple (fun s => cron_ok (cron s) /\ keeps_row s) (execute process_exists bound running active pid rid token now serde_time args)
    (fun _ => keeps_row) keeps_row.
Proof.
  intros (a & Ha & Hone). unfold execute. rewrite Ha. simpl. apply triple_bind_lift; [tauto|]. intros ? [= <-].
  assert (Hid : forall k : string -> M ToolStore value, (forall id, triple (fun s => cron_ok (cron s) /\ keeps_row s) (k id) (fun _ => keeps_row) keeps_row) ->
    triple (fun s => cron_ok (cron s) /\ keeps_row s) (id <- require_id (get_or "id" "job_id" args ≫= as_str) ;; k id) (fun _ => keeps_row) keeps_row).
  { intros k Hk. unfold require_id. apply triple_bind_lift; [tauto|]. intros id _. apply Hk. }
  apply existsb_exists in Hone as (x & Hx & ->%String.eqb_eq). rewrite <- list_elem_of_In in Hx.
  repeat (apply elem_of_cons in Hx as [->|Hx]; [simpl; apply Hid; intros id; apply checked_keeps; intros Hne;
    unfold pause, resume, delete, job_row, get_job, not_found, tool_fail; repeat row_step|]).
  by apply not_elem_of_nil in Hx.
Qed.
End Imported.

(** Deleting, pausing and resuming leave every job mirrored from the old
    gateway as it is, whatever id is given and whatever statements fail. *)
Theorem imported_jobs_survive_the_tool `{Sqlite} `{CronLibs} `{PayloadGuard} process_exists bound running active pid rid token now serde_time args w r :
  cron_ok (cron (st w)) -> guarded args -> r ∈ jobs (cron (st w)) -> is_mirror r = true ->
  r ∈ jobs (cron (st (execute process_exists bound running active pid rid token now serde_time args w).2)).
Proof.
  intros Hok Hg Hr Hm. pose proof (guarded_kept bound now r Hm process_exists running active pid rid token serde_time args Hg w (conj Hok Hr)) as Ht.
  by destruct (execute _ _ _ _ _ _ _ _ _ _ w) as [[?|?] ?].
Qed.

(** ** A reminder comes back to where it was asked for *)

Lemma get_copied_ne (k to : string) v p : to <> k -> get k (copied to v p) = get k p.
Proof. intros Hne. destruct v; simpl; [by apply get_obj_insert_ne|done]. Qed.

Lemma added_payload_get k args prompt script on :
  k ∉ ["repeat"; "context_from"; "skills"; "skill"; "no_agent"; "ack_command"; "timeout_secs"; "model"; "enabled"] ->
  get k (added_payload args prompt script on) =
  get k (JObject
    [("bot_id", optional JString (get "bot_id" args ≫= as_str));
     ("deliver", JString (default "local" (get "deliver" args ≫= as_str)));
     ("enabled_toolsets", default JNull (get "enabled_toolsets" args));
     ("name", JString (default "" (get_or "description" "name" args ≫= as_str)));
     ("prompt", JString (default "" prompt)); ("script", optional JString script)]).
Proof.
  intros Hk. unfold added_payload. rewrite get_obj_insert_ne by set_solver. by rewrite !get_copied_ne by set_solver.
Qed.

(** A text [deliver] takes for one channel. *)
Definition channel_like (x : string) : Prop := x <> "" /\ all_bytes graphic x = true /\ free_of "," x = true /\ starts_with "#" x = false.

Lemma channel_destination payload x : channel_like x -> part_of payload ("discord:" ++ x) = Some (discord_to None x None).
Proof.
  intros (Hne & Hg & _ & Hh). unfold part_of.
  rewrite (trim_graphic ("discord:" ++ x)) by (rewrite all_bytes_app, Hg; by vm_compute). rewrite strip_prefix_app.
  assert (trim_start_matches "#" x = x) as ->.
  { destruct x as [|c x]; [done|]. unfold starts_with in Hh. cbn [strip_prefix trim_start_matches] in *.
    rewrite Ascii.eqb_sym. destruct (Ascii.eqb "#" c); [by destruct x|done]. }
  rewrite trim_graphic by done. by destruct (String.eqb_spec x "").
Qed.

Lemma added_destination args prompt script on x : channel_like x -> get "deliver" args = Some (JString ("discord:" ++ x)) ->
  delivery_destinations (added_payload args prompt script on) = Ok [discord_to None x None].
Proof.
  intros Hx Hd. unfold delivery_destinations, channel_of, deliver_text. rewrite !added_payload_get by set_solver.
  cbn [get assoc_get String.eqb Ascii.eqb Bool.eqb]. rewrite Hd. cbn [mbind option_bind as_str default].
  rewrite split_char_free by apply Hx. cbn [fold_left]. unfold id. by rewrite channel_destination.
Qed.

Section Reminder.
Context `{Sqlite} `{CronLibs} `{PayloadGuard} (process_exists : Z -> bool).
Context (bound running : bool) (active : nat) (pid : Z) (rid token : string) (now : Z) (serde_time : Z -> string).

(** The job of [id] has this expression and payload, belongs to this session and
    runs next at [next]; it is switched on where it is a new one. *)
Definition added (id expr : string) (payload : value) (key : option string) (next : Z) (known : bool) (s : CronState) : Prop :=
  exists r, r ∈ jobs s /\ job_id r = id /\ expression r = expr /\ payload_json r = print_json payload /\
    job_session_key r = key /\ next_run_at r = Some next /\ (known = false -> enabled r = true).

Definition known (id : string) (s : CronState) : bool := existsb (is_job id) (jobs s).

Lemma triple_on_cron {A} P (m : M CronState A) Q E :
  triple P m Q E -> triple (fun s => P (cron s)) (on_cron m) (fun a s => Q a (cron s)) (fun s => E (cron s)).
Proof. intros Hm w Hw. unfold on_cron, zoom. specialize (Hm (mkWorld (cron (st w)) (faults w)) Hw). by destruct (m _) as [[?|?] ?]. Qed.

(** Both inserts of an added job leave it in the table. *)
Lemma upserted_there (row : CronJob) f s next payload :
  (forall r, job_id (f r) = job_id r /\ expression (f r) = expression row /\ payload_json (f r) = payload_json row /\
             job_session_key (f r) = job_session_key row /\ next_run_at (f r) = next_run_at row) ->
  next_run_at row = Some next -> payload_json row = print_json payload -> enabled row = true ->
  added (job_id row) (expression row) payload (job_session_key row) next (known (job_id row) s)
    (if existsb (is_job (job_id row)) (jobs s) then set_jobs (update_where (is_job (job_id row)) f) s else set_jobs (fun t => (t ++ [row])%list) s).
Proof.
  intros Hf Ht Hp Hon. unfold added, known.
  destruct (existsb _ _) eqn:Ex; [|exists row; split; [apply elem_of_app; right; by left|done]].
  apply existsb_exists in Ex as (x & Hx & Hid%String.eqb_eq). apply list_elem_of_In in Hx. exists (f x).
  destruct (Hf x) as (E1 & E2 & E3 & E4 & E5). split; [|by rewrite E1, E2, E3, E4, E5].
  apply in_update_where. exists x. split; [done|]. unfold is_job. by rewrite Hid, String.eqb_refl.
Qed.

Lemma register_adds id expr payload key next b :
  next_run expr now = Ok next ->
  triple (fun s => known id s = b) (register_with_id id (mkSpec expr payload key) now) (fun _ => added id expr payload key next b) (fun _ => True).
Proof.
  intros Hn. unfold register_with_id. apply triple_bind_lift; [done|]. intros [] _. apply triple_bind_lift; [done|]. intros u Hu.
  simpl in Hu. rewrite Hn in Hu. injection Hu as <-.
  eapply triple_bind with (R := fun _ => added id expr payload key next b).
  - apply triple_exec; [done|]. intros s <-. unfold upsert_job. destruct (negb _); [done|].
    pose proof (upserted_there (new_job id (mkSpec expr payload key) next now) (fun r =>
      mkJob (job_id r) key expr (print_json payload) (enabled r) (Some next) (job_created_at r) now (authority r)) s next payload) as Ha.
    specialize (Ha (fun r => conj eq_refl (conj eq_refl (conj eq_refl (conj eq_refl eq_refl)))) eq_refl eq_refl eq_refl). simpl in Ha |- *.
    by destruct (existsb _ _).
  - intros []. apply (triple_keep (added id expr payload key next b)); [|done]. unfold registered, get_job. by preserve_steps.
Qed.

Lemma native_adds id expr payload key next b :
  triple (fun s => known id s = b) (exec (upsert_native (mkJob id key expr (print_json payload) true (Some next) now now "omon_owned")))
    (fun _ => added id expr payload key next b) (fun _ => True).
Proof.
  apply triple_exec; [done|]. intros s <-. unfold upsert_native. destruct (negb _); [done|].
  set (row := mkJob _ _ _ _ _ _ _ _ _).
  pose proof (upserted_there row (fun r =>
      mkJob (job_id r) (job_session_key row) (expression row) (payload_json row) (enabled row) (next_run_at row) (job_created_at r) (job_updated_at row) (authority r)) s next payload) as Ha.
  specialize (Ha (fun r => conj eq_refl (conj eq_refl (conj eq_refl (conj eq_refl eq_refl)))) eq_refl eq_refl eq_refl).
  by destruct (existsb _ _).
Qed.

Definition as_cron (P : CronState -> Prop) : ToolStore -> Prop := fun s => P (cron s).

Lemma add_one_adds id args b :
  default true (get "enabled" args ≫= as_bool) = true ->
  triple (as_cron (fun s => known id s = b)) (add_one bound now serde_time id args)
    (fun _ s => exists expr next, (added_expression now args = Ok expr /\ next_run expr now = Ok next) /\
       as_cron (added id expr (added_payload args (get "prompt" args ≫= as_str) (get "script" args ≫= as_str) true)
                  (get "_session_key" args ≫= as_str) next b) s)
    (fun _ => True).
Proof.
  intros Hon. unfold add_one. apply triple_bind_lift; [done|]. intros expr He.
  rewrite Hon. destruct (match get "prompt" args ≫= as_str with Some _ => _ | None => _ end); [by apply triple_fail|].
  apply triple_bind_lift; [done|]. intros [] _. apply triple_bind_lift; [done|]. intros [] _. set (payload := added_payload _ _ _ _).
  set (key := get "_session_key" args ≫= as_str).
  destruct (next_run expr now) as [next|e] eqn:Hn.
  2: { destruct bound; [|by simpl; unfold bind, lift].
       intros w Hw. unfold register_with_id. simpl. rewrite Hn. unfold on_cron, zoom, bind, lift.
       by destruct (validate_cron_payload_lifecycle payload). }
  assert (Hend : forall s, added id expr payload key next b (cron s) -> exists expr0 next0, (added_expression now args = Ok expr0 /\ next_run expr0 now = Ok next0) /\
    as_cron (added id expr0 payload key next0 b) s) by (intros s Hs; by exists expr, next).
  destruct bound.
  - eapply triple_bind; [apply (triple_on_cron (fun s => known id s = b) _ (fun _ => added id expr payload key next b) (fun _ => True)); by apply register_adds|].
    intros job. eapply triple_bind with (R := fun _ => as_cron (added id expr payload key next b)); [by apply triple_ret|]. intros []. by apply triple_ret.
  - eapply triple_bind with (R := fun u s => as_cron (fun s => known id s = b) s /\ u = Some next).
    { apply triple_bind_lift; [done|]. intros u [= <-]. by apply triple_ret. }
    intros u. apply triple_pure. intros ->.
    eapply triple_bind; [apply (triple_on_cron (fun s => known id s = b) _ (fun _ => added id expr payload key next b) (fun _ => True)), native_adds|].
    intros []. by apply triple_ret.
Qed.
End Reminder.

Section Reminders.
Context `{Sqlite} `{CronLibs} `{PayloadGuard} (process_exists : Z -> bool).
Context (bound running : bool) (active : nat) (pid : Z) (rid token : string) (now : Z) (serde_time : Z -> string).

(** What the units of a delay stand for, in nanoseconds. *)
Definition unit_time : list (string * Z) :=
  [("ms", 1000000); ("s", seconds 1); ("sec", seconds 1); ("secs", seconds 1); ("m", seconds 60); ("min", seconds 60); ("mins", seconds 60);
   ("h", seconds 3600); ("hr", seconds 3600); ("hrs", seconds 3600); ("d", seconds 86400); ("day", seconds 86400); ("days", seconds 86400)]%Z.

(** A delay: a number of 64 bits and its unit, and how long that is. *)
Definition delay_is (delay : string) (d : Z) : Prop :=
  exists (n : N) unit time, (n < U64_BOUND)%N /\ delay = show_N n ++ unit /\ (unit, time) ∈ unit_time /\ d = (Z.of_N n * time)%Z.

Definition no_digit_first (s : string) : Prop := match s with String c _ => is_digit c = false | "" => False end.

Lemma digits_then n unit : no_digit_first unit -> find_not is_digit (show_N n ++ unit) = Some (len (show_N n)).
Proof.
  intros Hu. pose proof (show_N_digits n) as Hd. induction (show_N n) as [|c s IH]; simpl in *.
  - destruct unit as [|c s]; simpl in *; [done|by rewrite Hu].
  - apply andb_true_iff in Hd as [-> Hd]. by rewrite (IH Hd).
Qed.

(** The length of a delay is kept to the nanosecond, or refused. *)
Lemma delay_parsed delay d e : delay_is delay d -> parse_interval ("interval:" ++ delay) = Ok (Some e) -> (e <= MAX_DELTA)%Z -> e = d.
Proof.
  intros (n & unit & time & Hn & -> & Hu & ->). unfold parse_interval, interval_text. rewrite strip_prefix_app.
  assert (Hfacts : all_bytes graphic unit = true /\ no_digit_first unit /\
    forall a e, unit_duration unit a = Some e -> (e <= MAX_DELTA)%Z -> e = (Z.of_N a * time)%Z).
  { unfold unit_time in Hu. repeat (apply elem_of_cons in Hu as [[= -> ->]|Hu];
      [split_and!; [by vm_compute|by vm_compute|]; intros a e0; unfold unit_duration, ms, secs, saturating_mul; cbn [existsb String.eqb Ascii.eqb Bool.eqb orb];
       intros [= <-]; unfold MAX_DELTA, seconds, NS, U64_BOUND; lia|]).
    by apply not_elem_of_nil in Hu. }
  destruct Hfacts as (Hg & Hs & Hd).
  rewrite trim_graphic by (rewrite all_bytes_app, Hg, andb_true_r; eapply all_bytes_mono; [|apply show_N_digits]; apply digit_graphic).
  cbv zeta. rewrite digits_then by done. cbn [from_option]. unfold Datatypes.id. rewrite take_str_app, drop_str_app, trim_graphic by done.
  rewrite parse_show_N by done.
  destruct (n =? 0)%N; [done|]. destruct (unit_duration unit n) as [x|] eqn:Ex; [|done]. intros [= <-] Hm. by apply Hd.
Qed.

Lemma delay_next delay d next : delay_is delay d -> next_run ("interval:" ++ delay) now = Ok next -> next = (now + d)%Z.
Proof.
  intros Hd. unfold next_run. change (strip_prefix "once:" ("interval:" ++ delay)) with (@None string).
  destruct (parse_interval _) as [[e|]|] eqn:Ep; simpl; [|by unfold parse_interval, interval_text in Ep; rewrite strip_prefix_app in Ep; repeat case_match|done].
  unfold from_std, add_delta. destruct (Z.leb_spec e MAX_DELTA) as [Hm|]; [|done]. simpl. destruct (_ <=? MAX_UTC)%Z; [|done].
  intros [= <-]. by rewrite (delay_parsed _ _ _ Hd Ep Hm).
Qed.

Lemma show_N_channel c : channel_like (show_N c).
Proof.
  destruct (show_N_head c) as (a & s & E & Ha). split_and!.
  - by rewrite E.
  - eapply all_bytes_mono; [|apply show_N_digits]. apply digit_graphic.
  - apply show_N_free. left. by vm_compute.
  - rewrite E. unfold starts_with. cbn [strip_prefix]. destruct (Ascii.eqb_spec "#" a) as [<-|]; [by destruct Ha as [[] _]|done].
Qed.

(** A request of a Discord session, in the channel [c] and no thread, for a job
    after a delay, without a target. *)
Record reminder_request (args : value) (session : SessionKey) (id delay : string) (c : N) : Prop := {
  asks : get "action" args = Some (JString "add") \/ get "action" args = Some (JString "create");
  names : get_or "id" "job_id" args = Some (JString id);
  after_delay : get "delay" args = Some (JString delay) /\ get "once_at" args ≫= as_str = None;
  untargeted : get "deliver" args = None \/ get "deliver" args = Some (JString "local");
  switched_on : default true (get "enabled" args ≫= as_bool) = true;
  on_discord : eq_ignore_ascii_case (platform session) "discord" = true;
  in_channel : channel_id session = show_N c /\ thread_id session = None /\ (c < U64_BOUND)%N
}.

(** C34: a delay makes a one-shot: when an agent adds a job after a delay from a
    channel of Discord that is no thread, and gives no target, the job is in the
    table in the name of the session, to run once, at now plus the delay to the
    nanosecond; it is switched on unless a job of this id was there before; its
    only destination is that channel, by an id that delivery takes.  (A time
    that prints and reads back is read as itself; from a thread the output is
    lost, [thread_reminder_is_lost].) *)
Theorem reminder_is_scheduled args session id delay d c w v w' :
  reminder_request args session id delay c -> delay_is delay d ->
  (forall u, parse_rfc3339 (to_rfc3339 (now + d)) = Ok u -> u = (now + d)%Z) ->
  execute_with_context process_exists bound running active pid rid token now serde_time args (Some session) w = (Ok v, w') ->
  exists r payload, r ∈ jobs (cron (st w')) /\ job_id r = id /\ payload_json r = print_json payload /\
    expression r = "once:" ++ to_rfc3339 (now + d) /\ next_run_at r = Some (now + d)%Z /\
    job_session_key r = Some (storage_key session) /\
    ((forall r0, r0 ∈ jobs (cron (st w)) -> job_id r0 <> id) -> enabled r = true) /\
    delivery_destinations payload = Ok [discord_to None (show_N c) None] /\ parse_u64 (show_N c) = Some c.
Proof.
  intros [Ha Hn [Hdelay Hat] Hu Hs Hd (Hch & Hth & Hc)] Hdel Hback He.
  assert (Hobj : is_object args = true) by (destruct Ha as [Ha|Ha]; by destruct args).
  assert (Hx : reminder_target session = "discord:" ++ show_N c) by (unfold reminder_target; by rewrite Hth, Hch).
  set (args1 := obj_insert "deliver" (JString (reminder_target session)) args).
  set (args2 := copied "bot_id" (JString <$> bot_id session) args1).
  set (args3 := obj_insert "_session_key" (JString (storage_key session)) args2).
  assert (Hobj1 : is_object args1 = true) by (unfold args1; by rewrite is_object_insert).
  assert (Hobj2 : is_object args2 = true) by (unfold args2; destruct (bot_id session); simpl; by rewrite ?is_object_insert).
  assert (Hw : with_session args (Some session) = args3).
  { unfold with_session. rewrite Hd. destruct Ha as [-> | ->], Hu as [-> | ->]; simpl; by rewrite ?bool_decide_true. }
  assert (Hget : forall k, k <> "deliver" -> k <> "bot_id" -> k <> "_session_key" -> get k args3 = get k args).
  { intros k H1' H2' H3'. unfold args3, args2, args1. rewrite get_obj_insert_ne, get_copied_ne, get_obj_insert_ne by done. done. }
  assert (Hto : get "deliver" args3 = Some (JString ("discord:" ++ show_N c))).
  { unfold args3, args2, args1. rewrite get_obj_insert_ne, get_copied_ne, get_obj_insert by done. by rewrite Hx. }
  assert (Hkey : get "_session_key" args3 = Some (JString (storage_key session))) by (unfold args3; by rewrite get_obj_insert).
  unfold execute_with_context in He. rewrite Hw in He. unfold execute in He.
  assert (Hnames : get_or "id" "job_id" args3 = Some (JString id)) by (unfold get_or in *; by rewrite !Hget).
  rewrite Hget in He by done. rewrite Hnames in He.
  assert (He' : add_one bound now serde_time id args3 w = (Ok v, w')) by (destruct Ha as [E|E]; rewrite E in He; exact He).
  pose proof (add_one_adds bound now serde_time id args3 (known id (cron (st w)))) as Hadd. rewrite !Hget in Hadd by done.
  destruct (triple_at _ _ _ _ _ _ _ (Hadd Hs) eq_refl He') as (expr & next & [Hexpr Hnext] & r & Hr & Hid & Hex & Hp & Hk & Hnx & Hon).
  unfold added_expression in Hexpr. rewrite !Hget, Hat, Hdelay in Hexpr by done. cbn [mbind option_bind as_str] in Hexpr.
  destruct (next_run ("interval:" ++ delay) now) as [at_|] eqn:En; [|done]. injection Hexpr as <-.
  apply (delay_next _ d) in En as ->; [|done].
  assert (next = (now + d)%Z) as ->.
  { unfold next_run in Hnext.
    change (strip_prefix "once:" _) with (strip_prefix "once:" ("once:" ++ to_rfc3339 (now + d))) in Hnext. rewrite strip_prefix_app in Hnext. destruct (parse_rfc3339 _) as [u|] eqn:Eu; [|done].
    pose proof (Hback u eq_refl) as ->. by repeat case_match; simplify_eq. }
  eexists r, _. split_and!; [done..| | | |].
  - by rewrite Hk, Hkey.
  - intros Hnew. apply Hon, existsb_false. intros r0 Hr0. apply String.eqb_neq. by apply Hnew.
  - apply added_destination; [apply show_N_channel|done].
  - by apply parse_show_N.
Qed.
End Reminders.

(** ** Findings *)

Lemma no_number_with_colon (c t : string) : NilEmpty.uint_of_string (c ++ String ":" t) = None.
Proof. induction c as [|a c IH]; simpl; [by destruct (NilEmpty.uint_of_string t)|by rewrite IH]. Qed.

Lemma parse_u64_colon (c t : string) : parse_u64 (c ++ String ":" t) = None.
Proof.
  assert (H : forall s, NilZero.uint_of_string (s ++ String ":" t) = None).
  { intros s. unfold NilZero.uint_of_string. destruct s as [|a s]; [exact (no_number_with_colon "" t)|exact (no_number_with_colon (String a s) t)]. }
  unfold parse_u64. match goal with |- context [NilZero.uint_of_string ?d] => assert (exists s' : string, d = (s' ++ String ":" t)%string) as [s' ->] end.
  { destruct c as [|a c]; [by exists ""|]. destruct (decide (a = "+"%char)) as [->|Hne]; [by exists c|]. exists (String a c).
    simpl. by destruct a as [[] [] [] [] [] [] [] []]. }
  by rewrite H.
Qed.

(** A reminder asked for in a thread is never told: the tool writes the target
    [discord:channel:thread], which the destinations of a payload read as one
    channel, and delivery refuses that as a channel id. *)
Theorem thread_reminder_is_lost `{Sqlite} `{CronLibs} by_recency dispatcher pid started session thread args prompt script on j content uuid now w :
  thread_id session = Some thread -> get "deliver" args = Some (JString (reminder_target session)) ->
  channel_like (channel_id session ++ ":" ++ thread) ->
  let x := channel_id session ++ ":" ++ thread in
  delivery_destinations (added_payload args prompt script on) = Ok [discord_to None x None] /\
  Delivery.deliver by_recency dispatcher pid started j (discord_to None x None) content uuid now w = (Err (Config ("invalid Discord channel ID: " ++ x)), w).
Proof.
  intros Ht Hd Hc x. unfold reminder_target in Hd. rewrite Ht in Hd. split; [by apply added_destination|].
  unfold Delivery.deliver, discord_to. cbn [og_chat_id]. unfold x.
  change (":" ++ thread)%string with (String ":" thread). by rewrite parse_u64_colon.
Qed.

#[local] Existing Instance SampleStore.libs.
#[local] Existing Instance open_guard.
#[local] Existing Instance floor_sqlite.

Module SampleTool.
Definition store_with (l : list CronJob) : world ToolStore := mkWorld (mkToolStore (SampleStore.with_jobs l) []) [].
Definition call (bound : bool) (args : value) (session : option SessionKey) (w : world ToolStore) :=
  execute_with_context all_alive bound true 0 7 "r1" "t1" 0 show_Z args session w.
Definition asking (action : string) (l : list (string * value)) : value := JObject (("action", JString action) :: ("id", JString "hermes:default:a") :: l).
Definition mirrored : CronJob := SampleStore.job None false "hermes_mirror".
Definition after (args : value) : list (string * string * bool * option Z) :=
  map (fun r => (authority r, expression r, enabled r, next_run_at r)) (jobs (cron (st (call false args None (store_with [mirrored])).2))).
End SampleTool.

(** The description calls imported jobs read-only, but updating, adding and
    triggering do not ask: a job mirrored from the old gateway gets another
    schedule, is replaced, or, though it is off, gets a next run. *)
Theorem imported_job_changed_by_the_tool :
  SampleTool.after (SampleTool.asking "update" [("enabled", JBool true); ("expression", JString "every 10s")]) =
    [("hermes_mirror", "every 10s", true, Some (seconds 10))] /\
  SampleTool.after (SampleTool.asking "add" [("expression", JString "every 10s"); ("prompt", JString "p")]) =
    [("hermes_mirror", "every 10s", true, Some (seconds 10))] /\
  SampleTool.after (SampleTool.asking "trigger" []) = [("hermes_mirror", "once:5", false, Some 0%Z)].
Proof. by vm_compute. Qed.

(** ** Witnesses *)

Lemma cron_tool_keeps_tables_witness :
  tool_ok (st (SampleTool.call true (SampleTool.asking "delete" []) None (SampleTool.store_with [SampleTool.mirrored])).2).
Proof.
  apply cron_tool_keeps_tables. split; [apply SampleStore.with_jobs_ok, NoDup_singleton|].
  split; [apply NoDup_nil_2|by intros r ?%not_elem_of_nil|]. intros p j. unfold note_size. simpl. apply Nat.le_0_l.
Defined.

Lemma imported_jobs_survive_the_tool_witness :
  SampleTool.mirrored ∈ jobs (cron (st (execute all_alive false true 0 7 "r1" "t1" 0 show_Z (SampleTool.asking "delete" []) (SampleTool.store_with [SampleTool.mirrored])).2)).
Proof.
  apply imported_jobs_survive_the_tool; [apply SampleStore.with_jobs_ok, NoDup_singleton|by exists "delete"|by left|reflexivity].
Defined.

Lemma reminder_is_scheduled_witness :
  let key := mkSessionKey "discord" None "42" None "u" (Some "b") in
  let args := JObject [("action", JString "add"); ("delay", JString "5s"); ("id", JString "j"); ("prompt", JString "p")] in
  exists v w', SampleTool.call false args (Some key) (mkWorld (mkToolStore (mkCron [] [] [] [] None [storage_key key] []) []) []) = (Ok v, w') /\
  exists r payload, r ∈ jobs (cron (st w')) /\ job_id r = "j" /\ payload_json r = print_json payload /\ expression r = "once:5000000000" /\
    next_run_at r = Some (seconds 5) /\ enabled r = true /\ delivery_destinations payload = Ok [discord_to None "42" None].
Proof.
  eexists _, _. split; [vm_compute; reflexivity|].
  edestruct (reminder_is_scheduled all_alive false true 0 7 "r1" "t1" 0 show_Z
    (JObject [("action", JString "add"); ("delay", JString "5s"); ("id", JString "j"); ("prompt", JString "p")]) (mkSessionKey "discord" None "42" None "u" (Some "b")) "j" "5s" (seconds 5) 42
    (mkWorld (mkToolStore (mkCron [] [] [] [] None ["7:discord|-|2:42|-|1:u|1:b"] []) []) []))
    as (r & payload & Hr & Hid & Hp & Hex & Hn & _ & Hon & Hd & _); [|exists 5%N, "s", (seconds 1)| |vm_compute; reflexivity|].
  - split; [by left|reflexivity|by split|by left|reflexivity|reflexivity|by split].
  - split; [vm_compute; reflexivity|]. split; [reflexivity|]. split; [right; by left|reflexivity].
  - intros u Hu. vm_compute in Hu. injection Hu as <-. reflexivity.
  - exists r, payload. split; [exact Hr|]. split_and!; [exact Hid|exact Hp|exact Hex|exact Hn| |exact Hd].
    apply Hon. by intros r0 ?%not_elem_of_nil.
Defined.
