(* ===== verification/Executor.v ===== *)
(** * Executing cron jobs ([src/cron/executor.rs])

    [AgentCronExecutor]: the script, the wake gate, the monitor, the assembly of
    the prompt with its skills, the scan of what was assembled and the agent's
    turn, over the file system of [Paths].  How a process ends, what a URL
    answers and what a turn leaves are functions of what happened before.
    Processes leave the modelled files as they are: a script that rewrites
    another between its check and its start is outside the model. *)
From stdpp Require Import base list strings option sets gmap.
From Stdlib Require Import ZArith NArith Lia Ascii String.
From S2P Require Import Prelude RustStr Db Session Ledger Delivery Actor Shell Detect Paths FileTool Skills Json Schedule Cron Jobs Store.
Open Scope string_scope.
Open Scope omon_scope.
Open Scope db_scope.
Local Notation length := Datatypes.length.

(** ** Processes, requests and turns *)

Record Call : Type := mkCall { c_program : string; c_args : list string; c_dir : Canonical; c_timeout : N; c_path : option string }.

Inductive ProcessEnd : Type :=
| SpawnFailed (e : string)
| WaitFailed (e : string)
| TimedOut
| Exited (success : bool) (code : option Z) (stdout stderr : string).

Inductive HttpEnd : Type := BuildError (e : string) | SendError (e : string) | BadStatus (shown : string) | BodyError (e : string) | Body (text : string).

(** What [backend.run] is given. *)
Record Turn : Type := mkTurn { t_context : SessionContext; t_message_id : string; t_prompt : string }.

Inductive Event : Type := Ran (c : Call) | Fetched (url : string) | Turned (t : Turn).

Record MonitorState : Type := mkMonitor { mon_job : string; last_hash : string; last_snapshot : string; mon_updated_at : string }.

Record ExecState : Type := mkExec {
  disk : FS;
  monitors : list MonitorState;
  pads : list Notepad;
  saved : list CronOutput;
  transcript : list MessageRow;
  events : list Event
}.
Definition set_disk d (s : ExecState) := mkExec d (monitors s) (pads s) (saved s) (transcript s) (events s).
Definition set_monitors f (s : ExecState) := mkExec (disk s) (f (monitors s)) (pads s) (saved s) (transcript s) (events s).
Definition add_event e (s : ExecState) := mkExec (disk s) (monitors s) (pads s) (saved s) (transcript s) (events s ++ [e])%list.

Definition show_code (c : option Z) : string := match c with Some n => "Some(" ++ show_Z n ++ ")" | None => "None" end.

(** On Unix no exit code is a failed initialization. *)
Definition is_transient_process_init_error (code : option Z) : bool := false.

Section Files.
Context (cwd : Canonical) (arrange : list string -> list string).
Notation F := (M FS).

(** ** Directories a job may use *)

Definition canonical_directory (p : PathBuf) (what : string) : F Canonical :=
  r <- canonicalize cwd p ;;
  match r with
  | Err e => fail (Config ("failed to resolve " ++ what ++ ": " ++ show_error e))
  | Ok q =>
      there <- is_directory cwd (of_canonical q) ;;
      if there : bool then ret q else fail (Config (what ++ " is not a directory: " ++ lossy_text (show_canonical q)))
  end.

Definition hermes_home (j : HermesJob) : F Canonical :=
  match assoc_get "_omon_hermes_home" (hj_extra j) ≫= as_str with
  | Some home => canonical_directory (path_of home) "Hermes home"
  | None => fail (Config ("Hermes job " ++ hj_id j ++ " is missing its home"))
  end.

Definition authorized_cron_roots (j : HermesJob) (workspace_root : PathBuf) : F (list Canonical) :=
  workspace <- canonical_directory workspace_root "workspace root" ;;
  home <- hermes_home j ;;
  ret (if bool_decide (home = workspace) then [workspace] else [workspace; home]).

Definition canonical_authorized_directory (p : PathBuf) (roots : list Canonical) (what : string) : F Canonical :=
  q <- canonical_directory p what ;;
  if existsb (fun root => within root q) roots then ret q
  else fail (Config (what ++ " is outside authorized workspace/Hermes roots: " ++ lossy_text (show_canonical q))).

(** [std::fs::read_to_string]. *)
Definition read_to_string (p : PathBuf) : F (result string string) :=
  r <- read_file cwd p ;;
  ret (match r with
       | Ok bytes => if valid_utf8 bytes then Ok bytes else Err "stream did not contain valid UTF-8"
       | Err e => Err (show_error e)
       end).
Definition is_regular (p : PathBuf) : F bool :=
  r <- metadata cwd p ;; ret (match r with Ok m => is_file m | Err _ => false end).

Definition below (p : PathBuf) (name : string) : PathBuf := join_path p (path_of name).
Definition climbs (p : PathBuf) : bool := existsb (fun s => match s with Up => true | _ => false end) (components p).

(** ** Workspace instructions *)

Definition MAX_WORKSPACE_INSTRUCTION_CHARS : nat := 8000.

Fixpoint instructions_among (workdir : PathBuf) (names : list string) : F (option string) :=
  match names with
  | [] => ret None
  | n :: rest =>
      let candidate := below workdir n in
      there <- is_regular candidate ;;
      found <- (if there : bool then
                  r <- read_to_string candidate ;;
                  ret (match r with
                       | Ok content => if String.eqb (trim content) "" then None else Some (trim content)
                       | Err _ => None
                       end)
                else ret None) ;;
      match found with
      | Some text =>
          ret (Some ("[Workspace instructions]" ++ String LF
            (if (MAX_WORKSPACE_INSTRUCTION_CHARS <? length (chars text))%nat
             then of_chars (take MAX_WORKSPACE_INSTRUCTION_CHARS (chars text)) else text)))
      | None => instructions_among workdir rest
      end
  end.
Definition resolve_workspace_instructions (workdir : PathBuf) : F (option string) :=
  instructions_among workdir ["AGENTS.md"; "agents.md"; "CLAUDE.md"; "claude.md"].

(** ** Finding skills *)

(** A name below the skills directory, with its leading separators gone. *)
Definition normalized (name : string) : option string :=
  let n := trim_start_matches "/" name in
  if String.eqb n "" || climbs (path_of n) then None else Some n.

(** A [SKILL.md] that is inside the root once its links are resolved. *)
Definition skill_inside (root : Canonical) (p : PathBuf) : F (option Canonical) :=
  r <- canonicalize cwd p ;;
  match r with
  | Ok q =>
      if within root q then there <- is_regular (of_canonical q) ;; ret (if there : bool then Some q else None) else ret None
  | Err _ => ret None
  end.

(** The entries of one directory: [inl] is an answer, [inr] the directories to
    look into; an entry that cannot be examined ends the search. *)
Fixpoint look_among (root directory : Canonical) (name : string) (entries : list string) (pending : list Canonical) :
    F (option Canonical + list Canonical) :=
  match entries with
  | [] => ret (inr pending)
  | n :: rest =>
      let path := (directory ++ [n])%list in
      m <- symlink_metadata cwd (of_canonical path) ;;
      match m with
      | Err _ => ret (inl None)
      | Ok m =>
          if is_symlink m then look_among root directory name rest pending
          else if is_dir m then
            found <- (if String.eqb n name then skill_inside root (below (of_canonical path) "SKILL.md") else ret None) ;;
            match found with
            | Some q => ret (inl (Some q))
            | None => look_among root directory name rest (path :: pending)
            end
          else look_among root directory name rest pending
      end
  end.

(** [None]: out of fuel. *)
Fixpoint find_below (fuel : nat) (root : Canonical) (name : string) (pending : list Canonical) : F (option (option Canonical)) :=
  match fuel, pending with
  | _, [] => ret (Some None)
  | O, _ => ret None
  | S fuel, directory :: pending =>
      r <- read_dir cwd arrange (of_canonical directory) ;;
      match r with
      | Err _ => ret (Some None)
      | Ok entries =>
          r <- look_among root directory name entries pending ;;
          match r with inl answer => ret (Some answer) | inr pending => find_below fuel root name pending end
      end
  end.

Definition find_skill_file (fuel : nat) (root : Canonical) (name : string) : F (option (option Canonical)) :=
  match normalized name with
  | None => ret (Some None)
  | Some n =>
      direct <- skill_inside root (below (below (of_canonical root) n) "SKILL.md") ;;
      match direct with
      | Some q => ret (Some (Some q))
      | None => find_below fuel root n [root]
      end
  end.

(** ** Bundles of skills *)

Context `{CronLibs} (parse_yaml : string -> option value).

Definition manifest_of (v : value) : list string :=
  default [] (match v with
              | JObject m => defaulted "skills" (list_of as_str) [] m
              | JArray [l] => list_of as_str l
              | _ => None
              end).
Definition parse_bundle_manifest (content : string) : option (list string) :=
  let yaml := match parse_yaml content with Some v => manifest_of v | None => [] end in
  let json := match parse_json content with Ok v => manifest_of v | Err _ => [] end in
  match yaml, json with
  | [], [] => None
  | [], l => Some l
  | l, _ => Some l
  end.

Fixpoint first_manifest (paths : list PathBuf) : F (option (list string)) :=
  match paths with
  | [] => ret None
  | p :: rest =>
      there <- is_regular p ;;
      found <- (if there : bool then
                  r <- read_to_string p ;;
                  ret (match r with Ok content => parse_bundle_manifest content | Err _ => None end)
                else ret None) ;;
      match found with Some l => ret (Some l) | None => first_manifest rest end
  end.

(** The directories of a directory that hold a skill. *)
Fixpoint member_skills (dir : PathBuf) (n : string) (entries : list string) : F (list string) :=
  match entries with
  | [] => ret []
  | e :: rest =>
      let sub := join_path dir (mkPath false [Name e]) in
      d <- is_directory cwd sub ;;
      there <- (if d : bool then is_regular (below sub "SKILL.md") else ret false) ;;
      more <- member_skills dir n rest ;;
      ret (if there && valid_utf8 e then (n ++ "/" ++ e)%string :: more else more)
  end.

Definition EXTENSIONS : list string := ["yaml"; "yml"; "json"].
Definition MANIFESTS : list string := ["bundle.yaml"; "bundle.yml"; "bundle.json"; "manifest.yaml"; "manifest.yml"; "manifest.json"].

Definition resolve_skill_bundle (skills_root : Canonical) (home : option Canonical) (name : string) : F (option (list string)) :=
  match normalized name with
  | None => ret None
  | Some n =>
      let named dir := map (fun ext => below dir (n ++ "." ++ ext)) EXTENSIONS in
      of_home <- (match home with Some h => first_manifest (named (below (of_canonical h) "skill-bundles")) | None => ret None end) ;;
      match of_home with
      | Some l => ret (Some l)
      | None =>
          of_root <- first_manifest (named (of_canonical skills_root)) ;;
          match of_root with
          | Some l => ret (Some l)
          | None =>
              let dir := below (of_canonical skills_root) n in
              d <- is_directory cwd dir ;;
              if d : bool then
                inner <- first_manifest (map (below dir) MANIFESTS) ;;
                match inner with
                | Some l => ret (Some l)
                | None =>
                    there <- exists_ cwd (below dir "SKILL.md") ;;
                    if there : bool then ret None
                    else
                      r <- read_dir cwd arrange dir ;;
                      match r with
                      | Err _ => ret None
                      | Ok entries =>
                          members <- member_skills dir n entries ;;
                          ret (match members with [] => None | l => Some (sort_by String.leb l) end)
                      end
                end
              else ret None
          end
      end
  end.

(** *** The skills of a job *)

Definition push_new (x : string) (l : list string) : list string := if existsb (String.eqb x) l then l else (l ++ [x])%list.

Fixpoint expand_names (root home : Canonical) (names acc : list string) : F (list string) :=
  match names with
  | [] => ret acc
  | n :: rest =>
      members <- resolve_skill_bundle root (Some home) n ;;
      expand_names root home rest (match members with Some l => fold_left (fun acc m => push_new m acc) l acc | None => push_new n acc end)
  end.

(** The skills found, joined, and those that were not. *)
Fixpoint assemble_skills (fuel : nat) (root : Canonical) (names : list string) (assembled : string) (skipped : list string) :
    F (option (string * list string)) :=
  match names with
  | [] => ret (Some (assembled, skipped))
  | n :: rest =>
      found <- find_skill_file fuel root n ;;
      match found with
      | None => ret None
      | Some None => assemble_skills fuel root rest assembled (skipped ++ [n])%list
      | Some (Some q) =>
          r <- read_to_string (of_canonical q) ;;
          match r with
          | Err _ => assemble_skills fuel root rest assembled (skipped ++ [n])%list
          | Ok content =>
              assemble_skills fuel root rest
                ((if String.eqb assembled "" then "" else assembled ++ LF2) ++ "[Skill: " ++ n ++ "]" ++ String LF content) skipped
          end
      end
  end.

Definition skill_names (j : HermesJob) : list string :=
  match skill j with Some s => push_new s (skills j) | None => skills j end.

Definition WARNING : string := "⚠️ Skill(s) not found and skipped: ".

(** An error whose value is dropped: [let Ok(x) = .. else]. *)
Definition load_cron_skills (fuel : nat) (j : HermesJob) : F (option string) :=
  let names := skill_names j in
  let blank := String.eqb (trim (prompt j)) "" in
  let missing :=
    if blank then fail (Config ("Hermes job " ++ hj_id j ++ " has an empty prompt and all skills are missing: " ++ join ", " names))
    else ret (Some (WARNING ++ join ", " names)) in
  match names with
  | [] => ret (Some "")
  | _ =>
      home <- attempt (hermes_home j) ;;
      match home with
      | Err _ => missing
      | Ok home =>
          root <- attempt (canonical_directory (below (of_canonical home) "skills") "Hermes skills root") ;;
          match root with
          | Err _ => missing
          | Ok root =>
              expanded <- expand_names root home names [] ;;
              r <- assemble_skills fuel root expanded "" [] ;;
              match r with
              | None => ret None
              | Some (assembled, skipped) =>
                  let some_skipped := match skipped with [] => false | _ => true end in
                  if String.eqb assembled "" && some_skipped && blank
                  then fail (Config ("Hermes job " ++ hj_id j ++ " has an empty prompt and all skills were missing: " ++ join ", " skipped))
                  else if some_skipped
                  then ret (Some ((WARNING ++ join ", " skipped) ++ (if String.eqb assembled "" then "" else LF2 ++ assembled)))
                  else ret (Some assembled)
              end
          end
      end
  end.

(** ** Scripts *)

Context `{PayloadGuard}.

(** [Path::extension]. *)
Definition extension (q : Canonical) : option string :=
  match last q with
  | Some n =>
      match split_char "." n with
      | [_] | [] => None
      | [""; _] => None
      | l => last l
      end
  | None => None
  end.

Definition escapes_root (j : HermesJob) (script : string) : OmonError :=
  Config ("Hermes job " ++ hj_id j ++ " script path escapes its scripts root: " ++ script).

(** [run_cron_script] up to the process: the file, what runs it and where. *)
Definition prepare_script (j : HermesJob) (script : string) (workspace_root : PathBuf) (global_timeout : N) (augmented_path : string) : F Call :=
  home <- hermes_home j ;;
  scripts_root <- canonical_directory (below (of_canonical home) "scripts") "Hermes scripts root" ;;
  let candidate := path_of script in
  if absolute candidate || climbs candidate then fail (escapes_root j script)
  else
    r <- canonicalize cwd (join_path (of_canonical scripts_root) candidate) ;;
    match r with
    | Err e => fail (Config ("failed to resolve Hermes script for " ++ hj_id j ++ ": " ++ show_error e))
    | Ok path =>
        let shown := lossy_text (show_canonical path) in
        regular <- (if within scripts_root path then is_regular (of_canonical path) else ret false) ;;
        if negb regular then fail (Config ("Hermes job " ++ hj_id j ++ " script escapes its scripts root: " ++ shown))
        else
          r <- read_to_string (of_canonical path) ;;
          match r with
          | Err e => fail (ToolExecution ("failed to read script " ++ shown ++ ": " ++ e))
          | Ok content =>
              match check_gateway_lifecycle content with
              | Err e => fail (Config ("gateway lifecycle violation in " ++ shown ++ ": " ++ e))
              | Ok _ =>
                  roots <- authorized_cron_roots j workspace_root ;;
                  workdir <- (match workdir j with
                              | Some d => canonical_authorized_directory (path_of d) roots "Hermes workdir"
                              | None => ret home
                              end) ;;
                  let program := match extension path with
                                 | Some e => if String.eqb e "sh" || String.eqb e "bash" then "bash" else "python3"
                                 | None => "python3"
                                 end in
                  ret (mkCall program [show_canonical path] workdir (resolve_cron_script_timeout (timeout_secs j) global_timeout)
                         (if String.eqb augmented_path "" then None else Some augmented_path))
              end
          end
    end.
End Files.

(** ** [LIKE], as SQLite documents it: letters of either case, over characters *)

Fixpoint like (p t : list string) : bool :=
  match p with
  | [] => match t with [] => true | _ => false end
  | c :: p' =>
      if String.eqb c "%" then
        (fix any (t : list string) : bool := like p' t || match t with [] => false | _ :: t' => any t' end) t
      else match t with
           | [] => false
           | d :: t' => (String.eqb c "_" || String.eqb (to_ascii_lowercase c) (to_ascii_lowercase d)) && like p' t'
           end
  end.
Definition matches_like (pattern text : string) : bool := like (chars pattern) (chars text).

(** [TRIM(x)] removes spaces. *)
Definition all_spaces (s : string) : bool := all_bytes (Ascii.eqb " ") s.

Section Exec.
Context (cwd : Canonical) (arrange : list string -> list string).
Context `{CronLibs} `{PayloadGuard} `{Regex} (parse_yaml : string -> option value) (decode_error : value -> string).
(** The outside, given what happened so far; a hash; the clock and the fuel of
    the search for skills. *)
Context (process : list Event -> Call -> ProcessEnd) (http : list Event -> string -> HttpEnd).
Context (backend : list Event -> Turn -> result (option value) OmonError) (sha256 : string -> string) (now : Z) (fuel : nat).
(** The fields of the executor, and the PATH for its processes. *)
Context (workspace_root : PathBuf) (cron_script_timeout_secs : N) (augmented_path : string).
Notation X := (M ExecState).

Definition on_disk {A} (m : M FS A) : X A := zoom disk set_disk m.

(** ** The output of a predecessor ([scheduler.rs]) *)

Definition newest_output (a b : CronOutput) : bool := String.leb (out_created_at b) (out_created_at a).
Definition newest_message (a b : MessageRow) : bool := (m_created_at b <=? m_created_at a)%Z.

(** [fetch_optional(..).ok().flatten()], kept when it is not blank. *)
Definition nonblank_row (f : ExecState -> option string) : X (option string) :=
  r <- attempt (query f) ;;
  ret (match r with Ok (Some text) => if String.eqb (trim text) "" then None else Some text | _ => None end).

Definition saved_output (profile job : string) (s : ExecState) : option string :=
  out_text <$> head (sort_by newest_output (select (fun o => String.eqb (out_profile o) profile && String.eqb (out_job o) job) (saved s))).

Definition said_in_session (profile job : string) (s : ExecState) : option string :=
  let exact := if String.eqb profile "" then "cron:" ++ job else "discord:" ++ profile ++ ":cron:" ++ job in
  Actor.m_content <$> head (sort_by newest_message (select (fun m =>
    (String.eqb (Actor.m_session_key m) exact || matches_like ("%:" ++ job) (Actor.m_session_key m))
    && String.eqb (Actor.m_role m) "assistant" && negb (all_spaces (Actor.m_content m))) (transcript s))).

Definition resolve_predecessor_output (profile job : string) : X (option string) :=
  if negb (is_valid_context_job_id job) then ret None
  else
    a <- nonblank_row (saved_output profile job) ;;
    match a with
    | Some text => ret (Some text)
    | None => nonblank_row (said_in_session profile job)
    end.

(** ** Processes *)

Definition record (e : Event) : X (list Event) := mem (fun s => (events s, add_event e s)).

(** The loop over attempts; [retries] of them may still be retried. *)
Fixpoint run_attempts (retries : nat) (c : Call) : X ProcessEnd :=
  before <- record (Ran c) ;;
  let out := process before c in
  match retries, out with
  | S retries, Exited false code _ _ => if is_transient_process_init_error code then run_attempts retries c else ret out
  | _, _ => ret out
  end.

(** How a process's end reads as the output of a script, with the words each caller uses. *)
Definition script_output (out : ProcessEnd) (spawned waited timed_out failed : string) : result string OmonError :=
  match out with
  | SpawnFailed e => Err (ToolExecution (spawned ++ e))
  | WaitFailed e => Err (ToolExecution (waited ++ e))
  | TimedOut => Err (ToolExecution timed_out)
  | Exited success code stdout stderr =>
      if success then Ok (lossy_text stdout)
      else Err (ToolExecution (failed ++ show_code code ++ ": " ++ trim (lossy_text stderr)))
  end.

Definition run_cron_script (j : HermesJob) (script : string) : X string :=
  c <- on_disk (prepare_script cwd j script workspace_root cron_script_timeout_secs augmented_path) ;;
  let shown := lossy_text (join "" (c_args c)) in
  out <- run_attempts 2 c ;;
  lift (script_output out ("failed to spawn " ++ shown ++ ": ") ("failed to execute " ++ shown ++ ": ")
          ("Hermes cron script timed out: " ++ shown) ("Hermes cron script " ++ shown ++ " failed with ")).

(** ** A turn of the agent *)

Definition insert_metadata (k : string) (v : value) (c : SessionContext) : SessionContext :=
  let s := ctx_state c in
  mkSessionContext (ctx_key c)
    (mkSessionState (active_model s) (system_prompt s) (enabled_toolsets s) (yolo s) (suspended s) (<[k := v]> (Session.metadata s)))
    (created_at c) (updated_at c).
Definition set_model (m : option string) (c : SessionContext) : SessionContext :=
  let s := ctx_state c in
  mkSessionContext (ctx_key c) (mkSessionState m (system_prompt s) (enabled_toolsets s) (yolo s) (suspended s) (Session.metadata s))
    (created_at c) (updated_at c).

Definition nonblank (o : option string) : option string := match o with Some s => if String.eqb (trim s) "" then None else Some s | None => None end.

Definition with_ack (ack : option string) (c : SessionContext) : result SessionContext OmonError :=
  match nonblank ack with
  | None => Ok c
  | Some command =>
      match check_gateway_lifecycle command with
      | Err e => Err (Config ("gateway lifecycle violation in ack_command: " ++ e))
      | Ok _ => Ok (insert_metadata "cron_ack_command" (JString command) c)
      end
  end.

Definition for_scheduler (c : SessionContext) : SessionContext :=
  insert_metadata "cron_suppress_direct_emission" (JBool true) (insert_metadata "cron_scheduler_delivery" (JBool true) c).

Definition take_turn (job : CronJob) (c : SessionContext) (prompt : string) : X (option string) :=
  let t := mkTurn c ("cron:" ++ job_id job) prompt in
  before <- record (Turned t) ;;
  output <- lift (backend before t) ;;
  ret (output ≫= as_str).

Definition scanned (prompt : string) : result unit OmonError :=
  match scan_assembled_cron_prompt prompt with
  | [] => Ok tt
  | threats => Err (Config ("assembled cron prompt injection detected: " ++ join "; " threats))
  end.

Definition SCRIPT_OUTPUT : string := LF2 ++ "[Script output]" ++ String LF "".

(** ** Jobs of this gateway *)

Definition native_timeout (payload : value) : option N :=
  or_else (get "timeout_secs" payload) (or_else (get "timeout_seconds" payload) (or_else (get "timeout" payload)
    (or_else (get "script_timeout" payload) (get "script_timeout_seconds" payload)))) ≫= as_u64.

Definition native_script (job : CronJob) (payload : value) (script : string) : X string :=
  match check_gateway_lifecycle script with
  | Err e => fail (Config ("gateway lifecycle violation in script: " ++ e))
  | Ok _ =>
      workspace <- on_disk (canonical_directory cwd workspace_root "workspace root") ;;
      out <- run_attempts 2 (mkCall "sh" ["-c"; script] workspace (resolve_cron_script_timeout (native_timeout payload) cron_script_timeout_secs)
                               (if String.eqb augmented_path "" then None else Some augmented_path)) ;;
      lift (script_output out "failed to spawn cron script: " "failed to execute cron script: "
              ("cron script timed out for " ++ job_id job) "cron script failed with ")
  end.

Definition execute_native_cron (job : CronJob) (payload : value) : X (option string) :=
  output <- (match get "script" payload ≫= as_str with
             | Some script => o <- native_script job payload script ;; ret (Some o)
             | None => ret None
             end) ;;
  if match output with Some o => negb (parse_wake_gate o) | None => false end then ret None
  else
    let prompt := default "" (get "prompt" payload ≫= as_str) in
    if String.eqb prompt "" then ret (nonblank output)
    else
      let task := prompt ++ match nonblank output with Some o => SCRIPT_OUTPUT ++ o | None => "" end in
      lift (scanned task) ;;;
      let channel := (get "deliver" payload ≫= as_str) ≫= strip_prefix "discord:" in
      let key := Session.new (match channel with Some _ => "discord" | None => "local" end) None (default (job_id job) channel) None
                   ("cron:" ++ job_id job) in
      context <- lift (with_ack (get "ack_command" payload ≫= as_str) (for_scheduler (new_context key now))) ;;
      take_turn job context task.

(** ** Jobs of the old gateway *)

Definition conflicting_monitors (j : HermesJob) : OmonError :=
  Config ("Hermes job " ++ hj_id j ++ " has conflicting monitor modes: both monitor_script and monitor_url are set").

Definition monitored_script (j : HermesJob) : option string := or_else (monitor_script j) (assoc_get "monitor_script" (hj_extra j) ≫= as_str).
Definition monitored_url (j : HermesJob) : option string := or_else (monitor_url j) (assoc_get "monitor_url" (hj_extra j) ≫= as_str).

Definition fetch (url : string) : X string :=
  before <- record (Fetched url) ;;
  match http before url with
  | BuildError e | BodyError e => fail (ToolExecution e)
  | SendError e => fail (ToolExecution ("monitor_url fetch failed: " ++ e))
  | BadStatus s => fail (ToolExecution ("monitor_url returned status " ++ s))
  | Body text => ret text
  end.

Definition read_monitor (j : HermesJob) : X (option string) :=
  match monitored_script j, monitored_url j with
  | Some _, Some _ => fail (conflicting_monitors j)
  | Some script, None => o <- run_cron_script j script ;; ret (Some o)
  | None, Some url => o <- fetch url ;; ret (Some o)
  | None, None => ret None
  end.

Definition monitor_of (job : string) (t : list MonitorState) : option string :=
  last_hash <$> head (select (fun r => String.eqb (mon_job r) job) t).
Definition put_monitor (row : MonitorState) (t : list MonitorState) : list MonitorState :=
  let same r := String.eqb (mon_job r) (mon_job row) in
  if existsb same t then update_where same (fun _ => row) t else (t ++ [row])%list.

(** Whether the monitor saw a change; what it saw is saved at once. *)
Definition monitor_changed (j : HermesJob) (output : string) : X bool :=
  let current := sha256 output in
  prev <- query (fun s => monitor_of (hj_id j) (monitors s)) ;;
  if match prev with Some h => String.eqb h current | None => false end then ret false
  else
    stmt (fun s => (tt, set_monitors (put_monitor (mkMonitor (hj_id j) current output (to_rfc3339 now))) s)) ;;;
    ret true.

Definition CRON_HINT : string :=
  "[IMPORTANT: You are running as a scheduled cron job. DELIVERY: Your final response will be automatically delivered to the user — do NOT use send_message or try to deliver the output yourself. Just produce your report/output as your final response and the system handles the rest. SILENT: If there is genuinely nothing new to report, respond with exactly "
  ++ QUOTE ++ "[SILENT]" ++ QUOTE ++
  " (nothing else) to suppress delivery. Never combine [SILENT] with content — either report your findings normally, or say [SILENT] and nothing more.]" ++ LF2.

(** The directory whose instructions are read: any failure leaves the workspace. *)
Definition workdir_of (j : HermesJob) : X PathBuf :=
  match workdir j with
  | None => ret workspace_root
  | Some custom =>
      roots <- attempt (on_disk (authorized_cron_roots cwd j workspace_root)) ;;
      match roots with
      | Err _ => ret workspace_root
      | Ok roots =>
          q <- attempt (on_disk (canonical_authorized_directory cwd (path_of custom) roots "Hermes workdir")) ;;
          ret (match q with Ok q => of_canonical q | Err _ => workspace_root end)
      end
  end.

Fixpoint predecessors (profile : string) (ids : list string) : X string :=
  match ids with
  | [] => ret ""
  | id :: rest =>
      output <- resolve_predecessor_output profile id ;;
      more <- predecessors profile rest ;;
      ret (match nonblank output with
           | Some text => format_context_from_block id (truncate_context_output (trim text) MAX_CONTEXT_CHARS) ++ LF2
           | None => ""
           end ++ more)
  end.

Definition on_pads {A} (m : M (list Notepad) A) : X A :=
  zoom pads (fun p s => mkExec (disk s) (monitors s) p (saved s) (transcript s) (events s)) m.

Definition shown_notes (l : list (string * string)) : string :=
  match l with
  | [] => ""
  | _ => "[Notepad]" ++ String LF (join "" (map (fun e => e.1 ++ ": " ++ e.2 ++ String LF "") l)) ++ String LF ""
  end.

(** What precedes the skills and the task. *)
Definition preamble (j : HermesJob) : X string :=
  dir <- workdir_of j ;;
  instructions <- on_disk (resolve_workspace_instructions cwd dir) ;;
  context <- predecessors (match origin j with Some o => og_platform o | None => "" end) (parse_context_from_ids (context_from j)) ;;
  notes <- attempt (on_pads (get_cron_notepads (hermes_profile j) (hj_id j))) ;;
  ret (CRON_HINT ++ match instructions with Some i => i ++ LF2 | None => "" end ++ context
       ++ match notes with Ok l => shown_notes l | Err _ => "" end).

Definition has_skills (j : HermesJob) : bool :=
  match skills j, skill j with [], None => false | _, _ => true end.
Definition blank (s : string) : bool := String.eqb (trim s) "".

(** The prompt of the turn; [None]: out of fuel. *)
Definition assemble_prompt (j : HermesJob) (script : option string) : X (option string) :=
  let no_script := match script with None => true | Some _ => false end in
  if blank (prompt j) && no_script && negb (has_skills j)
  then fail (Config ("Hermes job " ++ hj_id j ++ " has neither prompt nor executable script"))
  else
    pre <- preamble j ;;
    skills <- on_disk (load_cron_skills cwd arrange parse_yaml fuel j) ;;
    match skills with
    | None => ret None
    | Some skills =>
        if blank (prompt j) && no_script && blank skills
        then fail (Config ("Hermes job " ++ hj_id j ++ " has neither prompt nor executable script or resolved skills"))
        else
          let assembled :=
            pre ++ (if String.eqb skills "" then "" else skills ++ (if blank (prompt j) then "" else LF2 ++ "[Task]" ++ String LF ""))
            ++ prompt j ++ match nonblank script with Some o => SCRIPT_OUTPUT ++ o | None => "" end in
          lift (scanned assembled) ;;;
          ret (Some assembled)
    end.

Definition turn_key (j : HermesJob) (destination : option HermesOrigin) : SessionKey :=
  match destination with
  | Some t => Session.new "discord" None (og_chat_id t) (og_thread_id t) (default ("cron:" ++ hj_id j) (og_user_id t))
  | None => Session.new "local" None (hj_id j) None ("cron:" ++ hj_id j)
  end.

Definition with_provider (j : HermesJob) (c : SessionContext) : result SessionContext OmonError :=
  match provider j with
  | None => Ok c
  | Some p =>
      if match base_url j with None => contains "unsupported" p || String.eqb p "invalid" | Some _ => false end
      then Err (Config ("unsupported cron job provider override: " ++ p))
      else Ok (insert_metadata "cron_job_provider" (JString p) c)
  end.

Definition turn_context (j : HermesJob) : result SessionContext OmonError :=
  destination <-? discord_destination j ;;
  c <-? with_provider j (set_model (hj_model j) (new_context (turn_key j destination) now)) ;;
  let c := match base_url j with Some u => insert_metadata "cron_job_base_url" (JString u) c | None => c end in
  with_ack (ack_command j) (for_scheduler (insert_metadata "hermes_cron_job_id" (JString (hj_id j)) c)).

(** The prompt, then the turn. *)
Definition ask_agent (job : CronJob) (j : HermesJob) (script : option string) : X (option (option string)) :=
  p <- assemble_prompt j script ;;
  match p with
  | None => ret None
  | Some p =>
      context <- lift (turn_context j) ;;
      answer <- take_turn job context p ;;
      ret (Some answer)
  end.

(** The agent's part: the monitor first. *)
Definition execute_agent (job : CronJob) (j : HermesJob) (script : option string) : X (option (option string)) :=
  seen <- read_monitor j ;;
  changed <- (match seen with Some output => monitor_changed j output | None => ret true end) ;;
  if changed : bool then ask_agent job j script else ret (Some None).

Definition execute_hermes (job : CronJob) (j : HermesJob) : X (option (option string)) :=
  output <- (match script j with Some s => o <- run_cron_script j s ;; ret (Some o) | None => ret None end) ;;
  if no_agent j && match script j with None => true | Some _ => false end
  then fail (Config ("Hermes job " ++ hj_id j ++ " specifies no_agent=true but has no script"))
  else if match output with Some o => negb (parse_wake_gate o) || (blank o && negb (blank (prompt j))) | None => false end
  then ret (Some None)
  else if no_agent j then ret (Some (nonblank output))
  else execute_agent job j output.

(** [AgentCronExecutor::execute]; the outer [None]: out of fuel. *)
Definition execute (job : CronJob) : X (option (option string)) :=
  payload <- lift (job_payload job) ;;
  match get "schedule" payload with
  | None => o <- execute_native_cron job payload ;; ret (Some o)
  | Some _ =>
      match decode_job payload with
      | None => fail (Config ("invalid Hermes job " ++ job_id job ++ ": " ++ decode_error payload))
      | Some j => execute_hermes job j
      end
  end.
End Exec.

(** ** What reading does *)

Section Reading.
Context (cwd : Canonical) (arrange : list string -> list string).
Implicit Types (I : FS -> Prop).

Lemma is_directory_looks I p : preserves I (is_directory cwd p).
Proof. unfold is_directory. look_steps. Qed.
Lemma is_regular_looks I p : preserves I (is_regular cwd p).
Proof. unfold is_regular. look_steps. Qed.
Lemma read_to_string_looks I p : preserves I (read_to_string cwd p).
Proof. unfold read_to_string. look_steps. Qed.
Lemma canonical_directory_looks I p what : preserves I (canonical_directory cwd p what).
Proof. unfold canonical_directory. look_steps; apply is_directory_looks. Qed.

Ltac reads :=
  repeat progress (look_steps; try done;
    try match goal with
    | |- preserves _ (is_directory _ _) => apply is_directory_looks
    | |- preserves _ (is_regular _ _) => apply is_regular_looks
    | |- preserves _ (read_to_string _ _) => apply read_to_string_looks
    | |- preserves _ (canonical_directory _ _ _) => apply canonical_directory_looks
    | |- preserves _ (read_dir _ _ _) => unfold read_dir
    | |- preserves _ (exists_ _ _) => unfold exists_
    | |- preserves _ (hermes_home _ _) => unfold hermes_home
    end).

Lemma hermes_home_looks I j : preserves I (hermes_home cwd j).
Proof. reads. Qed.
Lemma roots_looks I j root : preserves I (authorized_cron_roots cwd j root).
Proof. unfold authorized_cron_roots. reads. Qed.
Lemma authorized_directory_looks I p roots what : preserves I (canonical_authorized_directory cwd p roots what).
Proof. unfold canonical_authorized_directory. reads. Qed.
Lemma instructions_looks I dir : preserves I (resolve_workspace_instructions cwd dir).
Proof.
  unfold resolve_workspace_instructions. generalize ["AGENTS.md"; "agents.md"; "CLAUDE.md"; "claude.md"]. intros names.
  induction names as [|n names IH]; simpl; reads.
Qed.
Lemma skill_inside_looks I root p : preserves I (skill_inside cwd root p).
Proof. unfold skill_inside. reads. Qed.
Lemma look_among_looks I root dir name entries pending : preserves I (look_among cwd root dir name entries pending).
Proof. revert pending. induction entries as [|n entries IH]; intros pending; simpl; reads; apply skill_inside_looks. Qed.
Lemma find_below_looks I fuel root name pending : preserves I (find_below cwd arrange fuel root name pending).
Proof. revert pending. induction fuel as [|fuel IH]; intros [|d pending]; simpl; reads; apply look_among_looks. Qed.
Lemma find_skill_looks I fuel root name : preserves I (find_skill_file cwd arrange fuel root name).
Proof. unfold find_skill_file. reads; [apply skill_inside_looks|apply find_below_looks]. Qed.

Context `{CronLibs} (parse_yaml : string -> option value).

Lemma first_manifest_looks I ps : preserves I (first_manifest cwd parse_yaml ps).
Proof. induction ps as [|p ps IH]; simpl; reads. Qed.
Lemma members_looks I dir n l : preserves I (member_skills cwd dir n l).
Proof. induction l as [|e l IH]; simpl; reads. Qed.
Lemma bundle_looks I root home name : preserves I (resolve_skill_bundle cwd arrange parse_yaml root home name).
Proof. unfold resolve_skill_bundle. reads; apply first_manifest_looks || apply members_looks. Qed.
Lemma expand_looks I root home names acc : preserves I (expand_names cwd arrange parse_yaml root home names acc).
Proof. revert acc. induction names as [|n names IH]; intros acc; simpl; reads. apply bundle_looks. Qed.
Lemma assemble_looks I fuel root names a k : preserves I (assemble_skills cwd arrange fuel root names a k).
Proof. revert a k. induction names as [|n names IH]; intros a k; simpl; reads. apply find_skill_looks. Qed.
Lemma load_skills_looks I fuel j : preserves I (load_cron_skills cwd arrange parse_yaml fuel j).
Proof.
  unfold load_cron_skills. look_steps; try apply hermes_home_looks; try apply canonical_directory_looks;
    [apply expand_looks|apply assemble_looks].
Qed.
End Reading.

(** ** What a script's process is given *)

Section Scripts.
Context (cwd : Canonical) (fs : FS) (exec_cwd_there : plain (nodes fs) cwd).
Local Notation here := (eq fs).

Lemma reads_here {A} (m : M FS A) : (forall I, preserves I m) -> triple here m (fun _ => here) here.
Proof. intros Hm. apply triple_preserves, Hm. Qed.

Lemma is_regular_spec q :
  plain (nodes fs) q ->
  triple here (is_regular cwd (of_canonical q)) (fun b s => here s /\ (b = true -> exists i, nodes fs !! q = Some (File i))) here.
Proof.
  intros P. unfold is_regular, Paths.metadata. eapply triple_bind; [apply triple_look|]. intros r.
  apply triple_ret. intros s [<- [E|[m ->]]]; split; try done. rewrite resolve_plain in E by done. unfold node_at in E.
  destruct (nodes fs !! q) as [[i| |]|]; subst r; try done. eauto.
Qed.

Lemma canonical_directory_spec p what :
  triple here (canonical_directory cwd p what)
    (fun q s => here s /\ resolve cwd false p fs = Ok q /\ plain (nodes fs) q /\ nodes fs !! q = Some Directory) here.
Proof.
  unfold canonical_directory. eapply triple_bind; [apply triple_look|]. intros [q|e]; [|apply triple_fail; by intros s [<- _]].
  eapply triple_weaken with (P := fun s => here s /\ resolve cwd false p fs = Ok q); [|intros s [<- [E|[? ?]]]; done|intros a s H; exact H|done].
  apply triple_pure. intros R. assert (P : plain (nodes fs) q) by by eapply resolve_is_plain.
  unfold is_directory, Paths.metadata. eapply triple_bind.
  { eapply triple_bind; [apply triple_look|]. intros r. apply triple_ret with (Q := fun b s => here s /\ (b = true -> nodes fs !! q = Some Directory)).
    intros s [<- [E|[m ->]]]; split; try done. rewrite resolve_plain in E by done. unfold node_at in E.
    destruct (nodes fs !! q) as [[i| |]|]; subst r; try done. }
  intros [|]; [apply triple_ret|apply triple_fail]; intros s [<- H]; [|done]. by split_and!; [| | |apply H].
Qed.

(** The home a job names, where it leads. *)
Definition home_of (j : HermesJob) (home : Canonical) : Prop :=
  exists h, assoc_get "_omon_hermes_home" (hj_extra j) ≫= as_str = Some h /\ resolve cwd false (path_of h) fs = Ok home.

Lemma hermes_home_spec j : triple here (hermes_home cwd j) (fun q s => here s /\ home_of j q /\ plain (nodes fs) q) here.
Proof.
  unfold hermes_home. destruct (_ ≫= as_str) as [h|] eqn:E; [|by apply triple_fail].
  eapply triple_weaken; [apply canonical_directory_spec|done| |done]. intros q s (<- & R & P & _). split_and!; [done|by exists h|done].
Qed.

Lemma roots_spec j root :
  triple here (authorized_cron_roots cwd j root)
    (fun l s => here s /\ forall q, q ∈ l -> resolve cwd false root fs = Ok q \/ home_of j q) here.
Proof.
  unfold authorized_cron_roots. eapply triple_bind; [apply canonical_directory_spec|]. intros w.
  eapply triple_weaken with (P := fun s => here s /\ resolve cwd false root fs = Ok w); [|by intros s (<- & ? & _)|intros a s H; exact H|done].
  apply triple_pure. intros R. eapply triple_bind; [apply hermes_home_spec|]. intros h. apply triple_ret. intros s (<- & Hh & _). split; [done|].
  intros q Hq. case_bool_decide; set_solver.
Qed.

(** Below the workspace or the home of the job. *)
Definition authorized (j : HermesJob) (root : PathBuf) (dir : Canonical) : Prop :=
  exists base, (resolve cwd false root fs = Ok base \/ home_of j base) /\ base `prefix_of` dir.

Lemma authorized_directory_spec j root p roots what :
  (forall q, q ∈ roots -> resolve cwd false root fs = Ok q \/ home_of j q) ->
  triple here (canonical_authorized_directory cwd p roots what)
    (fun q s => here s /\ authorized j root q /\ nodes fs !! q = Some Directory) here.
Proof.
  intros HR. unfold canonical_authorized_directory. eapply triple_bind; [apply canonical_directory_spec|]. intros q.
  destruct (existsb _ roots) eqn:X; [apply triple_ret|apply triple_fail]; intros s (<- & R & _ & Nd); [|done].
  split_and!; [done| |done]. apply existsb_exists in X as (base & Hb & W). exists base.
  split; [apply HR; by apply list_elem_of_In|by apply bool_decide_eq_true in W].
Qed.

Context `{CronLibs} `{PayloadGuard}.

(** A process for a job's script: the one file is a regular file below the
    scripts directory, its links resolved, without a command against the
    gateway, and the process starts in an authorized directory. *)
Definition may_run (j : HermesJob) (root : PathBuf) (c : Call) : Prop :=
  exists home scripts path i,
    home_of j home /\ resolve cwd false (below (of_canonical home) "scripts") fs = Ok scripts /\
    scripts `prefix_of` path /\ nodes fs !! path = Some (File i) /\ check_gateway_lifecycle (content i fs) = Ok tt /\
    c_args c = [show_canonical path] /\ c_program c ∈ ["bash"; "python3"] /\ authorized j root (c_dir c).

Lemma read_to_string_spec q i :
  plain (nodes fs) q -> nodes fs !! q = Some (File i) ->
  triple here (read_to_string cwd (of_canonical q)) (fun r s => here s /\ forall t, r = Ok t -> t = content i fs) here.
Proof.
  intros P N. unfold read_to_string, read_file. eapply triple_bind; [apply triple_look|]. intros r. apply triple_ret.
  intros s [<- [E|[m ->]]]; (split; [done|]); [|done]. rewrite resolve_plain, N in E by done. subst r.
  intros t. by destruct (valid_utf8 _); intros [= <-].
Qed.

Lemma prepare_script_spec j script root timeout path :
  triple here (prepare_script cwd j script root timeout path) (fun c s => here s /\ may_run j root c) here.
Proof.
  unfold prepare_script. eapply triple_bind; [apply hermes_home_spec|]. intros home. apply triple_pure. intros [Hh Ph].
  eapply triple_bind; [apply canonical_directory_spec|]. intros scripts. apply triple_pure. intros (Rs & _ & _).
  destruct (_ || _); [by apply triple_fail|]. eapply triple_bind; [apply triple_look|]. intros [q|e]; [|by apply triple_fail; intros s [<- _]].
  eapply triple_weaken with (P := fun s => here s /\ plain (nodes fs) q);
    [|intros s [<- [E|[m E]]]; [split; [done|by eapply (resolve_is_plain cwd)]|done]|intros a s H1; exact H1|done].
  apply triple_pure. intros Pq. eapply triple_bind.
  { instantiate (1 := fun b s => here s /\ (b = true -> scripts `prefix_of` q /\ exists i, nodes fs !! q = Some (File i))).
    destruct (within scripts q) eqn:W; [|by apply triple_ret]. apply bool_decide_eq_true in W.
    eapply triple_weaken; [by apply is_regular_spec|done| |done]. intros b s [<- Hb]. split; [done|]. eauto. }
  intros [|]; [|by apply triple_fail; intros s [<- _]]. simpl. apply triple_pure. intros HT.
  destruct (HT eq_refl) as (W & i & Ni). clear HT. eapply triple_bind; [by apply read_to_string_spec|].
  intros [text|e]; [|by apply triple_fail; intros s [<- _]]. apply triple_pure. intros HC. rewrite (HC _ eq_refl). clear HC.
  destruct (check_gateway_lifecycle (content i fs)) as [[]|e] eqn:G; [|by apply triple_fail].
  eapply triple_bind; [apply roots_spec|]. intros roots. apply triple_pure. intros HR.
  eapply triple_bind.
  { instantiate (1 := fun d s => here s /\ authorized j root d). destruct (workdir j) as [d|].
    - eapply triple_weaken; [by apply authorized_directory_spec|done| |done]. by intros ? ? (<- & ? & _).
    - apply triple_ret. intros s <-. split; [done|]. exists home. split; [by right|done]. }
  intros d. apply triple_ret. intros s [<- Hd]. split; [done|]. exists home, scripts, q, i. split_and!; try done.
  simpl. destruct (extension q) as [e|]; [destruct (_ || _)|]; set_solver.
Qed.
End Scripts.

(** ** The search for a skill ends *)

Section Ends.
Context (cwd : Canonical) (arrange : list string -> list string) (fs : FS).
Context (exec_cwd_there : plain (nodes fs) cwd) (arranged : forall l, arrange l ≡ₚ l).
Local Notation here := (eq fs).

Definition a_directory (q : Canonical) : Prop := plain (nodes fs) q /\ nodes fs !! q = Some Directory.

Lemma look_among_ends root directory name entries pending :
  a_directory directory -> Forall a_directory pending ->
  triple here (look_among cwd root directory name entries pending)
    (fun r s => here s /\ match r with
       | inl _ => True
       | inr l => Forall a_directory l /\
           (sum_list_with (Paths.weight (nodes fs)) l <= sum_list_with (Paths.weight (nodes fs)) pending +
              sum_list_with (fun n => Paths.weight (nodes fs) (directory ++ [n])%list) entries)%nat
       end) here.
Proof.
  intros [Pd Nd]. revert pending. induction entries as [|n entries IH]; intros pending HP; simpl.
  { apply triple_ret. intros s <-. split_and!; [done..|lia]. }
  assert (Skip : triple here (look_among cwd root directory name entries pending)
    (fun r s => here s /\ match r with inl _ => True | inr l => Forall a_directory l /\
      (sum_list_with (Paths.weight (nodes fs)) l <= sum_list_with (Paths.weight (nodes fs)) pending + (Paths.weight (nodes fs) (directory ++ [n])%list +
              sum_list_with (fun n => Paths.weight (nodes fs) (directory ++ [n])%list) entries))%nat end) here).
  { eapply triple_weaken; [by apply IH|done| |done]. intros [?|l] s [<- H]; [done|]. destruct H as [? ?]. split_and!; [done..|lia]. }
  eapply triple_bind; [apply triple_look|]. intros [m|e]; [|by apply triple_ret; intros s [<- _]].
  destruct (is_symlink m) eqn:L; [eapply triple_weaken; [exact Skip|by intros s [<- _]|done..]|].
  destruct (is_dir m) eqn:B; [|eapply triple_weaken; [exact Skip|by intros s [<- _]|done..]].
  eapply triple_weaken with (P := fun s => here s /\ a_directory (directory ++ [n])%list); [apply triple_pure; intros Hd| |intros a s H; exact H|done].
  2: { intros s [<- [E|[? E]]]; [|done]. split; [done|]. rewrite lstat_below, Nd in E by done. unfold node_at in E.
       destruct (nodes fs !! (directory ++ [n])%list) as [x|] eqn:Nx; [|done]. injection E as <-.
       apply is_dir_metadata in B as ->. split; [|done]. apply plain_snoc; [done|done|by rewrite Nx]. }
  eapply triple_bind; [apply reads_here|]; [intros I; destruct (String.eqb n name); [apply skill_inside_looks|apply preserves_ret]|].
  intros [q|]; [by apply triple_ret|]. eapply triple_weaken; [by apply IH; constructor|done| |done].
  intros [?|l] s [<- H]; [done|]. destruct H as [? H]. simpl in H. split_and!; [done..|lia].
Qed.

Lemma find_below_ends fuel root name pending :
  Forall a_directory pending -> (sum_list_with (Paths.weight (nodes fs)) pending <= fuel)%nat ->
  triple here (find_below cwd arrange fuel root name pending) (fun r s => here s /\ r <> None) here.
Proof.
  revert pending. induction fuel as [|fuel IH]; intros [|d pending] HP Hf; simpl; try by apply triple_ret.
  - exfalso. apply Forall_cons in HP as [[_ Nd] _]. simpl in Hf.
    pose proof (weight_below (nodes fs) d [] (NoDup_nil_2) (ex_intro _ _ Nd)). simpl in *. lia.
  - apply Forall_cons in HP as [[Pd Nd] HP]. eapply triple_bind; [apply triple_look|].
    intros [entries|e]; [|by apply triple_ret; intros s [<- _]].
    eapply triple_weaken with (P := fun s => here s /\ entries = arrange (children d fs)); [apply triple_pure; intros ->| |intros a s H; exact H|done].
    2: { intros s [<- [E|[? ?]]]; [|done]. split; [done|]. rewrite resolve_plain, Nd in E by done. by injection E. }
    eapply triple_bind; [by apply look_among_ends|]. intros [answer|l]; [by apply triple_ret; intros s [<- _]|].
    apply triple_pure. intros [Hl Hw]. apply IH; [done|]. simpl in Hf.
    pose proof (weight_below (nodes fs) d (children d fs) (NoDup_children _ _) (ex_intro _ _ Nd)) as Wb.
    rewrite (sum_list_with_Permutation_proper (fun n => Paths.weight (nodes fs) (d ++ [n])%list) _ _ (arranged (children d fs))) in Hw. lia.
Qed.

Lemma find_skill_ends fuel root name :
  a_directory root -> (size (nodes fs) <= fuel)%nat ->
  triple here (find_skill_file cwd arrange fuel root name) (fun r s => here s /\ r <> None) here.
Proof.
  intros Hr Hf. unfold find_skill_file. destruct (normalized name) as [n|]; [|by apply triple_ret].
  eapply triple_bind; [apply reads_here; intros I; apply skill_inside_looks|]. intros [q|]; [by apply triple_ret|].
  apply find_below_ends; [by apply Forall_singleton|]. simpl. pose proof (weight_size (nodes fs) root). lia.
Qed.

Lemma assemble_ends fuel root names a k :
  a_directory root -> (size (nodes fs) <= fuel)%nat ->
  triple here (assemble_skills cwd arrange fuel root names a k) (fun r s => here s /\ r <> None) here.
Proof.
  intros Hr Hf. revert a k. induction names as [|n names IH]; intros a k; simpl; [by apply triple_ret|].
  eapply triple_bind; [by apply find_skill_ends|]. intros [[q|]|]; [|apply triple_pure; intros _; apply IH|by apply triple_ret; intros s [_ ?]].
  apply triple_pure. intros _. eapply triple_bind; [apply reads_here; intros I; apply read_to_string_looks|].
  intros [content|e]; apply IH.
Qed.

Context `{CronLibs} (parse_yaml : string -> option value).

Lemma load_skills_ends fuel j :
  (size (nodes fs) <= fuel)%nat ->
  triple here (load_cron_skills cwd arrange parse_yaml fuel j) (fun r s => here s /\ r <> None) here.
Proof.
  intros Hf. unfold load_cron_skills. cbv zeta. destruct (skill_names j) as [|n0 names]; [by apply triple_ret|].
  eapply triple_bind; [apply triple_attempt, reads_here; intros I; apply hermes_home_looks|].
  intros [home|e]; [|destruct (String.eqb _ _); [by apply triple_fail|by apply triple_ret]].
  eapply triple_bind; [apply triple_attempt, canonical_directory_spec, exec_cwd_there|].
  intros [root|e]; [|destruct (String.eqb _ _); [by apply triple_fail|by apply triple_ret]].
  eapply triple_weaken with (P := fun s => here s /\ a_directory root); [apply triple_pure; intros Hr|intros s (<- & _ & Pr & Nr); done|intros a s H1; exact H1|done].
  eapply triple_bind; [apply reads_here; intros I; apply expand_looks|]. intros expanded.
  eapply triple_bind; [by apply assemble_ends|]. intros [[a k]|]; [|by apply triple_ret; intros s [_ ?]].
  apply triple_pure. intros _. destruct (_ && _); [by apply triple_fail|]. by destruct k; apply triple_ret.
Qed.
End Ends.

(** ** What an execution leaves *)

#[local] Opaque CRON_HINT.

Section Steps.
Context (cwd : Canonical) (arrange : list string -> list string).
Context `{CronLibs} `{PayloadGuard} `{Regex} (parse_yaml : string -> option value) (decode_error : value -> string).
Context (process : list Event -> Call -> ProcessEnd) (http : list Event -> string -> HttpEnd).
Context (backend : list Event -> Turn -> result (option value) OmonError) (sha256 : string -> string) (now : Z) (fuel : nat).
Context (workspace_root : PathBuf) (cron_script_timeout_secs : N) (augmented_path : string).

(** An assertion that only the events of [P], and the monitors, may touch. *)
Context (fs : FS) (exec_cwd_there : plain (nodes fs) cwd).
Context (I : ExecState -> Prop) (P : Event -> Prop).
Context (I_disk : forall s, I s -> disk s = fs) (I_event : forall e s, P e -> I s -> I (add_event e s)).

Lemma keeps_reading {A} (m : M FS A) : (forall J, preserves J m) -> preserves I (on_disk m).
Proof.
  intros Hm. apply preserves_zoom. intros s Hs. exists (eq (disk s)). split_and!; [done| |apply Hm].
  intros t <-. by destruct s.
Qed.

Lemma keeps_pads {A} (m : M (list Notepad) A) : (forall J, preserves J m) -> preserves I (on_pads m).
Proof.
  intros Hm. apply preserves_zoom. intros s Hs. exists (eq (pads s)). split_and!; [done| |apply Hm].
  intros t <-. by destruct s.
Qed.

Lemma keeps_record e : P e -> preserves I (record e).
Proof. intros He. apply preserves_mem. intros s. by apply I_event. Qed.

Lemma keeps_attempts n c : P (Ran c) -> preserves I (run_attempts process n c).
Proof.
  intros Hc. induction n as [|n IH]; simpl; (apply preserves_bind; [by apply keeps_record|intros before]); [apply preserves_ret|].
  repeat case_match; auto using preserves_ret.
Qed.

(** A reading answers what is on the disk. *)
Lemma reading_spec {A} (m : M FS A) Q :
  triple (eq fs) m (fun a s => eq fs s /\ Q a) (eq fs) -> triple I (on_disk m) (fun a s => I s /\ Q a) I.
Proof.
  intros Hm. apply triple_zoom. intros s Hs. exists (eq fs). split; [symmetry; by apply I_disk|].
  assert (Same : forall t, fs = t -> I (set_disk t s)) by (intros t <-; rewrite <- (I_disk s Hs); by destruct s).
  eapply triple_weaken; [exact Hm|done|intros a t [Ht Ha]; split; [by apply Same|done]|exact Same].
Qed.

Lemma keeps_script j script :
  (forall c, may_run cwd fs j workspace_root c -> P (Ran c)) ->
  preserves I (run_cron_script cwd process workspace_root cron_script_timeout_secs augmented_path j script).
Proof.
  intros HP. apply triple_preserves. unfold run_cron_script. eapply triple_bind; [apply reading_spec, prepare_script_spec, exec_cwd_there|].
  intros c. apply triple_pure. intros Hc. apply triple_preserves. apply preserves_bind; [by apply keeps_attempts, HP|].
  intros out. apply preserves_lift.
Qed.

Lemma keeps_predecessors profile ids : preserves I (predecessors profile ids).
Proof.
  assert (Row : forall f, preserves I (nonblank_row f)).
  { intros f. unfold nonblank_row. apply preserves_bind; [apply preserves_attempt, preserves_query|]. intros r. apply preserves_ret. }
  induction ids as [|id ids IH]; simpl; [apply preserves_ret|]. apply preserves_bind.
  - unfold resolve_predecessor_output. destruct (negb _); [apply preserves_ret|]. apply preserves_bind; [apply Row|].
    intros [?|]; [apply preserves_ret|apply Row].
  - intros o. apply preserves_bind; [done|]. intros more. apply preserves_ret.
Qed.

Lemma keeps_preamble j : preserves I (preamble cwd workspace_root j).
Proof.
  unfold preamble, workdir_of. apply preserves_bind.
  - destruct (workdir j) as [custom|]; [|apply preserves_ret].
    apply preserves_bind; [apply preserves_attempt, keeps_reading; intros J; apply roots_looks|]. intros [roots|e]; [|apply preserves_ret].
    apply preserves_bind; [apply preserves_attempt, keeps_reading; intros J; apply authorized_directory_looks|]. intros q. apply preserves_ret.
  - intros dir. apply preserves_bind; [apply keeps_reading; intros J; apply instructions_looks|]. intros instructions.
    apply preserves_bind; [apply keeps_predecessors|]. intros context.
    apply preserves_bind; [apply preserves_attempt, keeps_pads; intros J; apply preserves_query|]. intros notes. apply preserves_ret.
Qed.

(** The prompt that comes out was scanned. *)
Lemma assemble_spec j script :
  triple I (assemble_prompt cwd arrange parse_yaml fuel workspace_root j script)
    (fun r s => I s /\ forall p, r = Some p -> scan_assembled_cron_prompt p = [] /\ exists rest, p = CRON_HINT ++ rest) I.
Proof.
  unfold assemble_prompt. cbv zeta. destruct (_ && _ && _); [by apply triple_fail|].
  eapply triple_bind with (R := fun pre s => I s /\ exists rest, pre = CRON_HINT ++ rest).
  { intros w Hw. pose proof (keeps_preamble j w Hw) as K. unfold preamble in *. unfold bind at 1 in K. unfold bind at 1.
    destruct (workdir_of _ _ _ w) as [[dir|e] w1]; [|done]. unfold bind at 1 in K. unfold bind at 1.
    destruct (on_disk _ w1) as [[ins|e] w2]; [|done]. unfold bind at 1 in K. unfold bind at 1.
    destruct (predecessors _ _ w2) as [[ctx|e] w3]; [|done]. unfold bind at 1 in K. unfold bind at 1.
    destruct (attempt _ w3) as [[n|e] w4]; [|done]. simpl in *. split; [done|]. by eexists. }
  intros pre. apply triple_pure. intros [rest ->].
  eapply triple_bind; [apply triple_preserves, keeps_reading; intros J; apply load_skills_looks|].
  intros [sk|]; [|by apply triple_ret]. destruct (_ && _ && _); [by apply triple_fail|].
  apply triple_bind_lift; [done|]. unfold scanned. intros u Hs. apply triple_ret. intros s Is. split; [done|]. intros p [= <-].
  destruct (scan_assembled_cron_prompt _) eqn:E; [|done]. split; [done|]. eexists. apply app_assoc_str.
Qed.

Lemma assemble_ends_too j script :
  (forall l, arrange l ≡ₚ l) -> (size (nodes fs) <= fuel)%nat ->
  triple I (assemble_prompt cwd arrange parse_yaml fuel workspace_root j script) (fun r s => I s /\ r <> None) I.
Proof.
  intros Harr Hf. unfold assemble_prompt. cbv zeta. destruct (_ && _ && _); [by apply triple_fail|].
  eapply triple_bind; [apply triple_preserves, keeps_preamble|]. intros pre.
  eapply triple_bind; [by apply reading_spec, load_skills_ends|].
  intros [sk|]; [|by apply triple_ret; intros s [_ ?]]. apply triple_pure. intros _. destruct (_ && _ && _); [by apply triple_fail|].
  apply triple_bind_lift; [done|]. intros u Hs. by apply triple_ret.
Qed.

(** *** The turn *)

(** What holds of every turn: its prompt passed the scan, the agent is told
    that the scheduler delivers, and a command that acknowledges is no command
    against the gateway. *)
Definition told_scheduler (c : SessionContext) : Prop :=
  Session.metadata (ctx_state c) !! "cron_scheduler_delivery" = Some (JBool true) /\
  Session.metadata (ctx_state c) !! "cron_suppress_direct_emission" = Some (JBool true) /\
  forall v, Session.metadata (ctx_state c) !! "cron_ack_command" = Some v ->
    exists command, v = JString command /\ check_gateway_lifecycle command = Ok tt.
Definition turn_ok (t : Turn) : Prop := scan_assembled_cron_prompt (t_prompt t) = [] /\ told_scheduler (t_context t).

Lemma with_ack_spec ack c c' :
  Session.metadata (ctx_state c) !! "cron_ack_command" = None -> with_ack ack (for_scheduler c) = Ok c' -> told_scheduler c'.
Proof.
  intros Hn. unfold with_ack, for_scheduler, told_scheduler, insert_metadata.
  destruct (nonblank ack) as [command|]; [destruct (check_gateway_lifecycle command) as [[]|e] eqn:G; [|done]|]; intros [= <-]; simpl.
  - rewrite lookup_insert_eq, !(lookup_insert_ne _ "cron_ack_command"), lookup_insert_eq by done.
    rewrite (lookup_insert_ne _ "cron_suppress_direct_emission"), lookup_insert_eq by done.
    split_and!; [done..|]. intros v [= <-]. by exists command.
  - rewrite lookup_insert_eq, (lookup_insert_ne _ "cron_suppress_direct_emission"), lookup_insert_eq by done.
    split_and!; [done..|]. intros v. rewrite !lookup_insert_ne, Hn by done. done.
Qed.

Lemma turn_context_spec j c : turn_context now j = Ok c -> told_scheduler c.
Proof.
  unfold turn_context, with_provider. destruct (discord_destination j) as [d|e]; simpl; [|done].
  destruct (provider j) as [p|]; [destruct (match base_url j with None => _ | Some _ => _ end); simpl; [done|]|simpl];
    intros E; eapply with_ack_spec; try exact E; destruct (base_url j); simpl; by rewrite ?lookup_insert_ne by done.
Qed.

Context (O : ExecState -> Prop).
Context (I_O : forall s, I s -> O s) (O_turn : forall t s, turn_ok t -> I s -> O (add_event (Turned t) s)).

Lemma take_turn_spec job c p : scan_assembled_cron_prompt p = [] -> told_scheduler c -> triple I (take_turn backend job c p) (fun _ => O) O.
Proof.
  intros Hp Hc. unfold take_turn, record. eapply triple_bind with (R := fun _ => O).
  - apply triple_mem. intros s Hs. simpl. by apply O_turn.
  - intros before. apply triple_bind_lift; [done|]. intros o _. by apply triple_ret.
Qed.

Lemma ask_agent_spec job j script :
  triple I (ask_agent cwd arrange parse_yaml backend now fuel workspace_root job j script) (fun _ => O) O.
Proof.
  unfold ask_agent. eapply triple_bind.
  { eapply triple_weaken; [apply assemble_spec|done|intros a s Ha; exact Ha|exact I_O]. }
  intros [p|]; [|apply triple_ret; intros s [Hs _]; by apply I_O].
  apply triple_pure. intros Hp. destruct (Hp p eq_refl) as [Hscan _].
  apply triple_bind_lift; [exact I_O|]. intros c Hc. eapply triple_bind; [apply take_turn_spec; [done|by eapply turn_context_spec]|].
  intros a. by apply triple_ret.
Qed.

Context (P_fetch : forall url, P (Fetched url)).
Context (I_monitors : forall f s, I s -> I (set_monitors f s)).

Lemma keeps_monitor j :
  (forall c, may_run cwd fs j workspace_root c -> P (Ran c)) ->
  preserves I (read_monitor cwd process http workspace_root cron_script_timeout_secs augmented_path j).
Proof.
  intros P_script. unfold read_monitor, fetch. destruct (monitored_script j), (monitored_url j); [apply preserves_fail|..|apply preserves_ret];
    (apply preserves_bind; [|intros; apply preserves_ret]).
  - apply keeps_script, P_script.
  - apply preserves_bind; [by apply keeps_record|]. intros before. destruct (http _ _); auto using preserves_fail, preserves_ret.
Qed.

Lemma keeps_changed j output : preserves I (monitor_changed sha256 now j output).
Proof.
  unfold monitor_changed. apply preserves_bind; [apply preserves_query|]. intros prev.
  destruct (match prev with Some _ => _ | None => _ end); [apply preserves_ret|].
  apply preserves_bind; [apply preserves_stmt; intros s; apply I_monitors|]. intros. apply preserves_ret.
Qed.

Lemma keeps_asking {A B} (m : M ExecState A) (k : A -> M ExecState B) :
  preserves I m -> (forall a, triple I (k a) (fun _ => O) O) -> triple I (bind m k) (fun _ => O) O.
Proof. intros Hm Hk. eapply triple_bind; [by apply (triple_keep I)|done]. Qed.

Lemma hermes_spec job j :
  (forall c, may_run cwd fs j workspace_root c -> P (Ran c)) ->
  triple I (execute_hermes cwd arrange parse_yaml process http backend sha256 now fuel workspace_root cron_script_timeout_secs augmented_path job j)
    (fun _ => O) O.
Proof.
  intros P_script. unfold execute_hermes. apply keeps_asking.
  - destruct (script j); [apply preserves_bind; [apply keeps_script, P_script|intros]|]; apply preserves_ret.
  - intros output. destruct (no_agent j && _); [by apply triple_fail|]. destruct (match output with Some _ => _ | None => _ end); [by apply triple_ret|].
    destruct (no_agent j); [by apply triple_ret|]. unfold execute_agent. apply keeps_asking; [by apply keeps_monitor|]. intros seen.
    apply keeps_asking; [destruct seen; [apply keeps_changed|apply preserves_ret]|]. intros [|]; [apply ask_agent_spec|by apply triple_ret].
Qed.

Context (P_native : forall c, c_program c = "sh" -> P (Ran c)).

Lemma native_spec job payload :
  triple I (execute_native_cron cwd process backend now workspace_root cron_script_timeout_secs augmented_path job payload) (fun _ => O) O.
Proof.
  unfold execute_native_cron. apply keeps_asking.
  - destruct (get "script" payload ≫= as_str) as [text|]; [|apply preserves_ret]. apply preserves_bind; [|intros; apply preserves_ret].
    unfold native_script. destruct (check_gateway_lifecycle text); [|apply preserves_fail].
    apply preserves_bind; [apply keeps_reading; intros J; apply canonical_directory_looks|]. intros dir.
    apply preserves_bind; [by apply keeps_attempts, P_native|]. intros out. apply preserves_lift.
  - intros output. destruct (match output with Some _ => _ | None => _ end); [by apply triple_ret|].
    cbv zeta. destruct (String.eqb _ ""); [by apply triple_ret|].
    apply triple_bind_lift; [exact I_O|]. intros u Hs.
    apply triple_bind_lift; [exact I_O|]. intros c Hc. apply take_turn_spec; [|eapply with_ack_spec; [|exact Hc]; apply lookup_empty].
    revert Hs. unfold scanned. by destruct (scan_assembled_cron_prompt _).
Qed.

Lemma execute_spec job :
  (forall j c, may_run cwd fs j workspace_root c -> P (Ran c)) ->
  triple I (execute cwd arrange parse_yaml decode_error process http backend sha256 now fuel workspace_root cron_script_timeout_secs augmented_path job)
    (fun _ => O) O.
Proof.
  intros P_script. unfold execute. apply triple_bind_lift; [exact I_O|]. intros payload _. destruct (get "schedule" payload).
  - destruct (decode_job payload); [by apply hermes_spec, P_script|by apply triple_fail].
  - eapply triple_bind; [apply native_spec|]. intros o. by apply triple_ret.
Qed.
End Steps.

(** ** What holds of every execution *)

Section Executions.
Context (cwd : Canonical) (arrange : list string -> list string).
Context `{CronLibs} `{PayloadGuard} `{Regex} (parse_yaml : string -> option value) (decode_error : value -> string).
Context (process : list Event -> Call -> ProcessEnd) (http : list Event -> string -> HttpEnd).
Context (backend : list Event -> Turn -> result (option value) OmonError) (sha256 : string -> string) (now : Z) (fuel : nat).
Context (workspace_root : PathBuf) (cron_script_timeout_secs : N) (augmented_path : string).
Local Notation hermes := (execute_hermes cwd arrange parse_yaml process http backend sha256 now fuel workspace_root cron_script_timeout_secs augmented_path).
Local Notation executed := (execute cwd arrange parse_yaml decode_error process http backend sha256 now fuel workspace_root cron_script_timeout_secs augmented_path).
Local Notation agent := (execute_agent cwd arrange parse_yaml process http backend sha256 now fuel workspace_root cron_script_timeout_secs augmented_path).
Local Notation asked := (ask_agent cwd arrange parse_yaml backend now fuel workspace_root).
Local Notation monitored := (read_monitor cwd process http workspace_root cron_script_timeout_secs augmented_path).

(** What was done since [before], each step with [P]. *)
Definition since (P : Event -> Prop) (before : list Event) (s : ExecState) : Prop :=
  exists l, events s = (before ++ l)%list /\ Forall P l.

Lemma since_start P s : since P (events s) s.
Proof. exists []. by rewrite app_nil_r. Qed.

Lemma since_event P before e s : P e -> since P before s -> since P before (add_event e s).
Proof.
  intros He (l & E & HF). exists (l ++ [e])%list. simpl. rewrite E, app_assoc. split; [done|]. apply Forall_app. split; [done|by apply Forall_singleton].
Qed.

Definition confined (fs : FS) (j : HermesJob) (e : Event) : Prop :=
  match e with Ran c => may_run cwd fs j workspace_root c | _ => True end.

(** C35: Whatever a job of the old gateway asks for, as its script or as its
    monitor, each process that is started runs one regular file that resolves
    below the scripts directory of the job's own home and holds no command
    against the gateway, with bash or python3, in a directory below the
    workspace or that home; and reading the job's files changes none. *)
Theorem scripts_are_confined job j w :
  plain (nodes (disk (st w))) cwd ->
  let s := st (hermes job j w).2 in
  disk s = disk (st w) /\ since (confined (disk (st w)) j) (events (st w)) s.
Proof.
  intros C s. unfold s. clear s. set (fs := disk (st w)) in *. set (I := fun s : ExecState => disk s = fs /\ since (confined fs j) (events (st w)) s).
  assert (K : triple I (hermes job j) (fun _ => I) I).
  { apply (hermes_spec cwd arrange parse_yaml process http backend sha256 now fuel workspace_root cron_script_timeout_secs
      augmented_path fs C I (confined fs j)); unfold I; try done.
    - by intros s [].
    - intros e s He [? ?]. split; [done|]. by apply since_event.
    - intros t s _ [? ?]. split; [done|]. by apply since_event. }
  specialize (K w (conj eq_refl (since_start _ _))). by destruct (hermes job j w) as [[?|?] ?].
Qed.

Definition quiet (e : Event) : Prop := match e with Turned _ => False | _ => True end.

(** C36: Executing a job, of either gateway, asks the agent at most once and last
    of all: the prompt of that turn passed the scan for injections, script
    output, skills and the outputs of other jobs included, the turn is told to
    leave the delivery to the scheduler, and the command it is to acknowledge
    with, if any, is no command against the gateway. *)
Theorem turns_are_scanned job w :
  plain (nodes (disk (st w))) cwd ->
  exists before asked, events (st (executed job w).2) = (events (st w) ++ before ++ map Turned asked)%list /\
    Forall quiet before /\ (length asked <= 1)%nat /\ Forall turn_ok asked.
Proof.
  intros C. set (I := fun s : ExecState => disk s = disk (st w) /\ since quiet (events (st w)) s).
  set (O := fun s => exists before asked, events s = (events (st w) ++ before ++ map Turned asked)%list /\
    Forall quiet before /\ (length asked <= 1)%nat /\ Forall turn_ok asked).
  assert (K : triple I (executed job) (fun _ => O) O).
  { apply (execute_spec cwd arrange parse_yaml decode_error process http backend sha256 now fuel workspace_root cron_script_timeout_secs
      augmented_path (disk (st w)) C I quiet); unfold I, O; try done.
    - by intros s [].
    - intros e s He [? ?]. split; [done|]. by apply since_event.
    - intros s (_ & l & E & Hl). exists l, []. simpl. rewrite app_nil_r. split_and!; [done..|lia|done].
    - intros t s Ht (_ & l & E & Hl). exists l, [t]. simpl. rewrite E, app_assoc. split_and!; [done..|lia|by apply Forall_singleton]. }
  specialize (K w (conj eq_refl (since_start _ _))). by destruct (executed job w) as [[?|?] ?].
Qed.

Lemma asked_keeps_monitors job j script w : monitors (st (asked job j script w).2) = monitors (st w).
Proof.
  set (I := fun s : ExecState => monitors s = monitors (st w)).
  assert (K : triple I (asked job j script) (fun _ => I) I).
  { by apply (ask_agent_spec cwd arrange parse_yaml backend now fuel workspace_root I). }
  specialize (K w eq_refl). by destruct (asked job j script w) as [[?|?] ?].
Qed.

Lemma monitor_of_put row t : monitor_of (mon_job row) (put_monitor row t) = Some (last_hash row).
Proof.
  unfold monitor_of, put_monitor. destruct (existsb _ t) eqn:X.
  - assert (H2 : exists r, r ∈ t /\ String.eqb (mon_job r) (mon_job row) = true).
    { apply existsb_exists in X as (r & Hr & E). exists r. split; [by apply list_elem_of_In|done]. }
    clear X. destruct H2 as (r & Hr & E). induction t as [|a t IH]; [by apply not_elem_of_nil in Hr|].
    unfold select, update_where in *. simpl. destruct (String.eqb (mon_job a) (mon_job row)) eqn:Ea; simpl.
    + by rewrite String.eqb_refl.
    + rewrite Ea. apply elem_of_cons in Hr as [->|Hr]; [congruence|by apply IH].
  - unfold select. rewrite List.filter_app, (existsb_false_filter _ _ X). simpl. by rewrite String.eqb_refl.
Qed.

Definition saved_hash (j : HermesJob) (s : ExecState) : option string := monitor_of (hj_id j) (monitors s).

(** What [monitor_changed] answers: the reading is the saved one, an error that
    changes nothing, or another reading, which is then the saved one. *)
Lemma monitor_changed_spec j output w :
  let '(r, w') := monitor_changed sha256 now j output w in
  (r = Ok false /\ saved_hash j (st w) = Some (sha256 output) /\ st w' = st w) \/
  (exists e, r = Err e /\ st w' = st w /\ faults w <> []) \/
  (r = Ok true /\ saved_hash j (st w) <> Some (sha256 output) /\ saved_hash j (st w') = Some (sha256 output) /\
     exists f, st w' = set_monitors f (st w)).
Proof.
  assert (S : saved_hash j (set_monitors (put_monitor (mkMonitor (hj_id j) (sha256 output) output (to_rfc3339 now))) (st w)) = Some (sha256 output))
    by exact (monitor_of_put (mkMonitor (hj_id j) _ _ _) _).
  unfold monitor_changed, bind, query, stmt, exec, ret, saved_hash in *.
  destruct (faults w) as [|[e|] [|[e'|] l]]; cbn [st faults tail];
    try (right; left; by eexists);
    (destruct (monitor_of (hj_id j) (monitors (st w))) as [h|] eqn:M;
      [destruct (String.eqb_spec h (sha256 output)) as [->|Hne]; [by left|]|]);
    cbn [st faults tail];
    try (right; left; by eexists); right; right; (split; [done|]); (split; [congruence|]); (split; [exact S|]); eauto.
Qed.

End Executions.

Section Ending.
Context (cwd : Canonical) (arrange : list string -> list string).
Context `{CronLibs} `{PayloadGuard} `{Regex} (parse_yaml : string -> option value) (decode_error : value -> string).
Context (process : list Event -> Call -> ProcessEnd) (http : list Event -> string -> HttpEnd).
Context (backend : list Event -> Turn -> result (option value) OmonError) (sha256 : string -> string) (now : Z) (fuel : nat).
Context (workspace_root : PathBuf) (cron_script_timeout_secs : N) (augmented_path : string).
Local Notation executed := (execute cwd arrange parse_yaml decode_error process http backend sha256 now fuel workspace_root cron_script_timeout_secs augmented_path).
Local Notation hermes := (execute_hermes cwd arrange parse_yaml process http backend sha256 now fuel workspace_root cron_script_timeout_secs augmented_path).
Context (fs : FS) (exec_cwd_there : plain (nodes fs) cwd).
Local Notation there := (fun s : ExecState => disk s = fs).
Local Notation anything := (fun _ : ExecState => True).

Lemma there_then {A} (m : M ExecState A) (k : A -> M ExecState (option (option string))) :
  preserves there m -> (forall a, triple there (k a) (fun r _ => r <> None) anything) ->
  triple there (bind m k) (fun r _ => r <> None) anything.
Proof. intros Hm Hk. eapply triple_bind; [by apply (triple_keep there)|done]. Qed.

Lemma hermes_ends job j :
  (forall l, arrange l ≡ₚ l) -> (size (nodes fs) <= fuel)%nat ->
  triple there (hermes job j) (fun r _ => r <> None) anything.
Proof.
  intros Harr Hf. unfold execute_hermes.
  assert (Scripts : forall j script, preserves there (run_cron_script cwd process workspace_root cron_script_timeout_secs augmented_path j script)).
  { intros j' script. by apply (keeps_script cwd process workspace_root cron_script_timeout_secs augmented_path fs exec_cwd_there there (fun _ => True)). }
  apply there_then; [destruct (script j); [apply preserves_bind; [done|intros]|]; apply preserves_ret|]. intros output.
  destruct (no_agent j && _); [by apply triple_fail|]. destruct (match output with Some _ => _ | None => _ end); [by apply triple_ret|].
  destruct (no_agent j); [by apply triple_ret|]. unfold execute_agent. apply there_then.
  { by apply (keeps_monitor cwd process http workspace_root cron_script_timeout_secs augmented_path fs exec_cwd_there there (fun _ => True)). }
  intros seen. apply there_then; [destruct seen; [by apply keeps_changed|apply preserves_ret]|].
  intros [|]; [|by apply triple_ret]. unfold ask_agent. eapply triple_bind.
  { eapply triple_weaken; [apply (assemble_ends_too cwd arrange parse_yaml fuel workspace_root fs exec_cwd_there there); done|done|intros a s Ha; exact Ha|done]. }
  intros [p|]; [|by apply triple_ret; intros s [_ ?]]. apply triple_bind_lift; [done|]. intros c _.
  eapply triple_bind with (R := fun _ => anything); [|intros; by apply triple_ret]. intros w' _. by destruct (take_turn _ _ _ _ w') as [[?|?] ?].
Qed.
End Ending.

(** C38: Executing a job ends, whatever directories and links the old gateway's
    home has: the search for its skills, which goes down every directory,
    visits each once, so that one unit of fuel for each node of the file system
    is enough. *)
Theorem cron_execution_ends cwd arrange `{CronLibs} `{PayloadGuard} `{Regex} parse_yaml decode_error process http backend sha256 now fuel
    root timeout path job w :
  plain (nodes (disk (st w))) cwd -> (forall l, arrange l ≡ₚ l) -> (size (nodes (disk (st w))) <= fuel)%nat ->
  (execute cwd arrange parse_yaml decode_error process http backend sha256 now fuel root timeout path job w).1 <> Ok None.
Proof.
  intros C Harr Hf. unfold execute, bind at 1, lift. destruct (job_payload job) as [payload|e]; [|done].
  destruct (get "schedule" payload).
  - destruct (decode_job payload) as [j|]; [|done].
    pose proof (hermes_ends cwd arrange parse_yaml process http backend sha256 now fuel root timeout path _ C job j Harr Hf w eq_refl) as K.
    destruct (execute_hermes _ _ _ _ _ _ _ _ _ _ _ _ job j w) as [[r|e] w']; simpl; congruence.
  - unfold bind. by destruct (execute_native_cron _ _ _ _ _ _ _ _ _ w) as [[?|?] ?].
Qed.

(** The output of an imported job is saved under the id of its mirror, and
    looked for under the id its own store gives it. *)
Theorem imported_output_not_found profile job s :
  (forall o, o ∈ saved s -> exists p, out_job o = import_id p job) -> saved_output profile job s = None.
Proof.
  intros Ho. unfold saved_output.
  assert (E : select (fun o => String.eqb (out_profile o) profile && String.eqb (out_job o) job) (saved s) = []).
  { unfold select. apply existsb_false_filter. apply not_true_is_false. intros X. apply existsb_exists in X as (o & Hin & Q).
    destruct (Ho o) as (p & Ep); [by apply list_elem_of_In|]. apply andb_true_iff in Q as [_ Q%String.eqb_eq]. rewrite Ep in Q.
    apply (f_equal len) in Q. unfold import_id in Q. rewrite !len_app in Q. simpl in Q. lia. }
  by rewrite E.
Qed.

Module SampleExec.
Definition tree : FS :=
  mkFS {[ [] := Directory; ["h"] := Directory; ["h"; "scripts"] := Directory; ["h"; "scripts"; "a.sh"] := File 0;
          ["h"; "skills"] := Directory; ["h"; "skills"; "x"] := Directory; ["h"; "skills"; "x"; "news"] := Directory;
          ["h"; "skills"; "x"; "news"; "SKILL.md"] := File 1; ["w"] := Directory; ["w"; "AGENTS.md"] := File 2 ]}
       {[ 0%N := "echo"; 1%N := "read the news"; 2%N := " be brief " ]}.
Definition document : value :=
  JObject [("_omon_hermes_home", JString "/h"); ("id", JString "a"); ("monitor_url", JString "http://m"); ("prompt", JString "tell");
           ("schedule", JObject [("kind", JString "once"); ("run_at", JString "5")]); ("script", JString "a.sh"); ("skills", JArray [JString "news"])].
Definition libs : CronLibs := {|
  parse_rfc3339 := @parse_rfc3339 toy_libs; to_rfc3339 := @to_rfc3339 toy_libs; Tz := @Tz toy_libs; parse_tz := @parse_tz toy_libs;
  Sched := @Sched toy_libs; parse_schedule := @parse_schedule toy_libs; upcoming := @upcoming toy_libs;
  upcoming_after := @upcoming_after toy_libs;
  parse_json s := if String.eqb s "p" then Ok document else Err "unsupported";
  print_json v := ""
|}.
#[local] Existing Instance libs.
#[local] Existing Instance open_guard.
#[local] Instance no_regex : Regex := {| Shell.is_match _ _ := false; replace_all _ _ s := s |}.

Definition job : CronJob := mkJob "hermes:default:a" None "once:5" "p" true None 0 0 "omon_mirror".
Definition prints (_ : list Event) (_ : Call) : ProcessEnd := Exited true (Some 0%Z) "out" "".
Definition serves (_ : list Event) (_ : string) : HttpEnd := Body "page".
Definition answers (_ : list Event) (_ : Turn) : result (option value) OmonError := Ok (Some (JString "done")).
Definition fails (_ : list Event) (_ : Turn) : result (option value) OmonError := Err (Llm "down").
Definition start : world ExecState := mkWorld (mkExec tree [] [mkNotepad "default" "a" "k" "v" "" ""] [] [] []) [].
Definition run (backend : list Event -> Turn -> result (option value) OmonError) (w : world ExecState) :=
  execute [] id (fun _ => None) (fun _ => "") prints serves backend id 0 20 (path_of "/w") 60 "" job w.
Definition the_job : HermesJob := default (mkHermesJob "" "" "" [] None None None None None false None None (mkSchedule "" None None None None None []) "" (mkRepeat None 0) true ""
  None None None None None None None None None None None None None None None None []) (decode_job document).

Lemma exec_cwd_there : plain (nodes tree) [].
Proof. split; [|done]. by intros d ->%prefix_nil_inv. Qed.

(** What the agent is told, and what was run before it. *)
Example a_turn :
  (run answers start).1 = Ok (Some (Some "done")) /\
  map (fun e => match e with Turned t => t_prompt t | Ran c => join " " (c_program c :: c_args c) | Fetched u => u end)
      (events (st (run answers start).2)) =
  ["bash /h/scripts/a.sh"; "http://m";
   CRON_HINT ++ "[Workspace instructions]" ++ String LF "be brief" ++ LF2 ++ "[Notepad]" ++ String LF "k: v" ++ LF2 ++
   "[Skill: news]" ++ String LF "read the news" ++ LF2 ++ "[Task]" ++ String LF "tell" ++ LF2 ++ "[Script output]" ++ String LF "out"].
Proof. vm_compute. split; reflexivity. Qed.

(** A turn that failed is not taken again for the same reading. *)
Example failed_turn_loses_the_change :
  (run fails start).1 = Err (Llm "down") /\ (run answers (run fails start).2).1 = Ok (Some None).
Proof. vm_compute. split; reflexivity. Qed.
End SampleExec.

#[local] Existing Instance SampleExec.libs.
#[local] Existing Instance open_guard.
#[local] Existing Instance SampleExec.no_regex.

Lemma scripts_are_confined_witness :
  plain (nodes SampleExec.tree) [] /\
  since (confined [] (path_of "/w") SampleExec.tree SampleExec.the_job) []
    (st (execute_hermes [] id (fun _ => None) SampleExec.prints SampleExec.serves SampleExec.answers id 0 20 (path_of "/w") 60 ""
           SampleExec.job SampleExec.the_job SampleExec.start).2).
Proof.
  split; [exact SampleExec.exec_cwd_there|].
  exact (proj2 (scripts_are_confined [] id (fun _ => None) SampleExec.prints SampleExec.serves SampleExec.answers id 0 20 (path_of "/w") 60 ""
    SampleExec.job SampleExec.the_job SampleExec.start SampleExec.exec_cwd_there)).
Defined.

Lemma turns_are_scanned_witness :
  length (events (st (SampleExec.run SampleExec.answers SampleExec.start).2)) = 3%nat /\
  exists before asked, events (st (SampleExec.run SampleExec.answers SampleExec.start).2) = (before ++ map Turned asked)%list /\ Forall turn_ok asked.
Proof.
  split; [vm_compute; reflexivity|].
  destruct (turns_are_scanned [] id (fun _ => None) (fun _ => "") SampleExec.prints SampleExec.serves SampleExec.answers id 0 20 (path_of "/w") 60 ""
    SampleExec.job SampleExec.start SampleExec.exec_cwd_there) as (before & asked & E & _ & _ & Ho).
  exists before, asked. split; [exact E|exact Ho].
Defined.

(** The first execution reads the page and asks the agent; the second reads the
    same page and is silent; a third reads another page, and asks. *)
Definition another_page (_ : list Event) (_ : string) : HttpEnd := Body "page 2".
Definition monitoring serving w :=
  execute_agent [] id (fun _ => None) SampleExec.prints serving SampleExec.answers id 0 20 (path_of "/w") 60 "" SampleExec.job SampleExec.the_job None w.
Definition turns_of (w : world ExecState) : nat := length (List.filter (fun e => match e with Turned _ => true | _ => false end) (events (st w))).
Definition read_once : world ExecState := (monitoring SampleExec.serves SampleExec.start).2.


Lemma cron_execution_ends_witness : (SampleExec.run SampleExec.answers SampleExec.start).1 <> Ok None.
Proof.
  apply (cron_execution_ends [] id (fun _ => None) (fun _ => "") SampleExec.prints SampleExec.serves SampleExec.answers id 0 20 (path_of "/w") 60 ""
    SampleExec.job SampleExec.start SampleExec.exec_cwd_there).
  - intros l. reflexivity.
  - vm_compute. lia.
Defined.
