(* ===== verification/Cutover.v ===== *)
(** * Handing the old gateway's cron stores over ([src/migrate/cron_cutover.rs])

    The cutover takes each [jobs.json] of the old gateway out of its hands: with
    the stores locked it checks that every job was imported, backs the files up,
    writes a receipt, empties the files and makes the jobs the gateway's own; a
    cutover that stopped halfway is taken up again from its receipt.  The files
    are those of [Paths], reached through the environment of
    [src/migrate/sys.rs]; every call and every statement may fail, which leaves
    what a stop at that point leaves. *)
From stdpp Require Import base list strings option sets gmap relations.
From Stdlib Require Import ZArith NArith Lia Ascii String.
From S2P Require Import Prelude RustStr Db Session Ledger Shell Web Paths FileTool Json Schedule Cron Jobs Store.
Open Scope string_scope.
Open Scope omon_scope.
Open Scope db_scope.
Local Notation length := Datatypes.length.

(** ** The environment ([OsEnv]) *)

#[local] Instance IoError_eq_dec : EqDecision IoError.
Proof. solve_decision. Defined.
#[local] Instance Node_eq_dec : EqDecision Node.
Proof. solve_decision. Defined.

(** The name a path stands for, its last step not followed. *)
Definition entry_at (cwd : Canonical) (p : PathBuf) (fs : FS) : result Canonical IoError :=
  match rev (steps p) with
  | Name n :: above =>
      match walk MAX_LINKS false (nodes fs) (start cwd p) (rev above) with
      | Ok d => match nodes fs !! d with Some Directory => Ok (d ++ [n])%list | _ => Err NOT_A_DIRECTORY end
      | Err e => Err e
      end
  | _ => Err IS_A_DIRECTORY
  end.

Definition fs_error (operation path error : string) : OmonError :=
  Config ("failed to " ++ operation ++ " " ++ lossy_text path ++ ": " ++ error).

(** No name was free within the fuel. *)
Definition OUT_OF_FUEL : OmonError := Panicked "out of fuel".

(** [Path::parent] as a text, for a path that does not end in a dot. *)
Definition parent_text (s : string) : option string :=
  let t := trim_end_matches "/" s in
  match rev (split_char "/" t) with
  | [] | [""] => None
  | [_] => Some ""
  | _ :: above =>
      let dir := trim_end_matches "/" (String.concat "/" (rev above)) in
      Some (if String.eqb dir "" then "/" else dir)
  end.

Section Env.
Context (cwd : Canonical) (arrange : list string -> list string).
(** The uuids drawn for a path, and what a write that fails leaves. *)
Context (uuid : string -> nat -> string) (partial : string).
Notation F := (M FS).

Definition created (q : Canonical) (fs : FS) : FS := Paths.put q "" fs.
Definition with_content (q : Canonical) (text : string) (fs : FS) : FS := Paths.put q text fs.

(** [File::options().write(true).create_new(true).open(path)]. *)
Definition open_new (p : PathBuf) : F (result Canonical IoError) :=
  call (fun fs =>
    match entry_at cwd p fs with
    | Err e => (Err e, fs)
    | Ok q => match nodes fs !! q with Some _ => (Err FILE_EXISTS, fs) | None => (Ok q, created q fs) end
    end).

(** [write_all] and [sync_all] on the file just opened. *)
Definition write_all (q : Canonical) (bytes : string) : F (result unit IoError) := fun w =>
  match faults w with
  | Some msg :: rest => (Ok (Err (OtherError msg)), mkWorld (with_content q partial (st w)) rest)
  | rest => (Ok (Ok tt), mkWorld (with_content q bytes (st w)) (tail rest))
  end.

Definition unlink (p : PathBuf) : F (result unit IoError) :=
  call (fun fs =>
    match entry_at cwd p fs with
    | Err e => (Err e, fs)
    | Ok q =>
        match nodes fs !! q with
        | None => (Err NotFound, fs)
        | Some Directory => (Err IS_A_DIRECTORY, fs)
        | Some _ => (Ok tt, mkFS (base.delete q (nodes fs)) (inodes fs))
        end
    end).

Definition remove_file (path : string) : F unit :=
  r <- unlink (path_of path) ;;
  match r with
  | Ok _ | Err NotFound => ret tt
  | Err e => fail (fs_error "remove" path (show_error e))
  end.

Fixpoint unique_among (fuel : nat) (path : string) (bytes candidate : string) (drawn : nat) : F string :=
  match fuel with
  | O => fail OUT_OF_FUEL
  | S fuel =>
      opened <- open_new (path_of candidate) ;;
      match opened with
      | Ok q =>
          written <- write_all q bytes ;;
          match written with
          | Ok _ => ret candidate
          | Err error =>
              removed <- attempt (remove_file candidate) ;;
              match removed with
              | Err cleanup => fail (Config (show_error error ++ "; partial file cleanup failed: " ++ error_text cleanup))
              | Ok _ => fail (fs_error "write" candidate (show_error error))
              end
          end
      | Err e =>
          if bool_decide (e = FILE_EXISTS) then unique_among fuel path bytes (path ++ "-" ++ uuid path drawn) (S drawn)
          else fail (fs_error "create" candidate (show_error e))
      end
  end.

(** The path the file got. *)
Definition write_unique (fuel : nat) (path bytes : string) : F string := unique_among fuel path bytes path 0.

(** [std::fs::rename] of a file or a link: what was at [b] goes. *)
Definition move (a b : PathBuf) : F (result unit IoError) :=
  call (fun fs =>
    match entry_at cwd a fs, entry_at cwd b fs with
    | Ok from, Ok to =>
        match nodes fs !! from, nodes fs !! to with
        | None, _ => (Err NotFound, fs)
        | Some Directory, _ | _, Some Directory => (Err IS_A_DIRECTORY, fs)
        | Some x, y =>
            if bool_decide (Some x = y) then (Ok tt, fs)
            else (Ok tt, mkFS (<[to := x]> (base.delete from (nodes fs))) (inodes fs))
        end
    | Err e, _ | _, Err e => (Err e, fs)
    end).

Definition rename (from to : string) : F unit :=
  r <- move (path_of from) (path_of to) ;;
  match r with
  | Ok _ => ret tt
  | Err e => fail (Config ("failed to rename " ++ lossy_text from ++ " to " ++ lossy_text to ++ ": " ++ show_error e))
  end.

(** [MigrationEnv::write_atomic]: the new bytes under a name of their own, then
    the name of the file. *)
Definition write_atomic (fuel : nat) (path bytes : string) : F unit :=
  match file_name (path_of path), parent_text path with
  | Some name, Some dir =>
      let temporary := push dir ("." ++ lossy_text name ++ ".tmp-omon-migration-" ++ uuid path 0) in
      temporary <- write_unique fuel temporary bytes ;;
      renamed <- attempt (rename temporary path) ;;
      match renamed with
      | Ok _ => ret tt
      | Err error =>
          removed <- attempt (remove_file temporary) ;;
          match removed with
          | Err cleanup => fail (Config (error_text error ++ "; temporary cleanup failed: " ++ error_text cleanup))
          | Ok _ => fail error
          end
      end
  | _, _ => fail (Config ("invalid migration target: " ++ lossy_text path))
  end.

Definition env_exists (p : PathBuf) : F bool := exists_ cwd p.
Definition env_is_file (p : PathBuf) : F bool := r <- Paths.metadata cwd p ;; ret (match r with Ok m => is_file m | Err _ => false end).
Definition env_is_dir (p : PathBuf) : F bool := r <- Paths.metadata cwd p ;; ret (match r with Ok m => is_dir m | Err _ => false end).

Definition env_read (path : string) : F string :=
  r <- read_file cwd (path_of path) ;;
  match r with Ok bytes => ret bytes | Err e => fail (fs_error "read" path (show_error e)) end.

(** The names in a directory; an entry that cannot be read fails the listing. *)
Definition env_read_dir (path : string) : F (list string) :=
  r <- read_dir cwd arrange (path_of path) ;;
  match r with Ok names => ret names | Err e => fail (fs_error "read directory" path (show_error e)) end.

Definition env_canonicalize (path : string) : F PathBuf :=
  there <- env_exists (path_of path) ;;
  if there : bool then
    r <- canonicalize cwd (path_of path) ;;
    match r with Ok q => ret (of_canonical q) | Err e => fail (fs_error "canonicalize" path (show_error e)) end
  else
    match parent_text path with
    | None => ret (path_of path)
    | Some dir =>
        there <- env_exists (path_of dir) ;;
        if there : bool then
          r <- canonicalize cwd (path_of dir) ;;
          match r with
          | Ok q => ret (match file_name (path_of path) with Some n => of_canonical (q ++ [n])%list | None => of_canonical q end)
          | Err e => fail (fs_error "canonicalize parent of" path (show_error e))
          end
        else ret (path_of path)
    end.

(** The lock is a file beside the store, made if it is missing; locking it waits. *)
Definition open_or_create (p : PathBuf) : F (result unit IoError) :=
  call (fun fs =>
    match resolve cwd true p fs with
    | Err e => (Err e, fs)
    | Ok q =>
        match nodes fs !! q with
        | Some (File _) => (Ok tt, fs)
        | Some _ => (Err IS_A_DIRECTORY, fs)
        | None => (Ok tt, created q fs)
        end
    end).
Definition acquire_jobs_lock (p : PathBuf) (shown : string) : F unit :=
  opened <- open_or_create p ;;
  match opened with
  | Err e => fail (fs_error "open lock file" shown (show_error e))
  | Ok _ =>
      locked <- call (fun fs => (Ok tt, fs)) ;;
      match locked with Ok _ => ret tt | Err e => fail (fs_error "lock" shown (show_error e)) end
  end.
End Env.

(** ** Whether a job was imported as it is *)

Definition value_eq_dec : forall v w : value, {v = w} + {v <> w}.
Proof.
  fix go 1. intros v w.
  decide equality;
    [apply Bool.bool_dec|apply N.eq_dec|apply Z.eq_dec|apply String.string_dec|apply String.string_dec|
     apply (List.list_eq_dec go)|apply List.list_eq_dec; intros [k x] [k' x'];
       destruct (String.string_dec k k') as [->|]; [destruct (go x x') as [->|]; [by left|right; congruence]|right; congruence]].
Defined.

Definition IGNORED_KEYS : list string :=
  ["_omon_hermes_source"; "_omon_hermes_profile"; "_omon_hermes_home"; "last_status"; "last_run_at"; "last_error";
   "last_delivery_error"; "created_at"; "updated_at"; "next_run_at"; "id"].
Definition ignored (key : string) : bool := existsb (String.eqb key) IGNORED_KEYS.
Definition without_completed (m : list (string * value)) : list (string * value) :=
  List.filter (fun e => negb (String.eqb e.1 "completed")) m.

(** The keys are ignored wherever an object has them. *)
Fixpoint normalize_job_payload (v : value) : value :=
  match v with
  | JObject m =>
      JObject ((fix members (m : list (string * value)) : list (string * value) :=
        match m with
        | [] => []
        | (key, x) :: rest =>
            if ignored key then members rest
            else
              (key, match String.eqb key "repeat", x with
                    | true, JObject r => JObject (without_completed r)
                    | _, _ => normalize_job_payload x
                    end) :: members rest
        end) m)
  | JArray l => JArray (map normalize_job_payload l)
  | other => other
  end.

(** What is compared: the job as it would be imported, when it is one. *)
Definition comparable (v : value) : value :=
  normalize_job_payload (match decode_job v with Some j => encode_job j | None => v end).
Definition canonical_job_payload_matches (source db_payload : value) : bool :=
  if value_eq_dec (comparable source) (comparable db_payload) then true else false.

(** ** Tables *)

Record Receipt : Type := mkReceipt {
  rc_op : string; rc_status : string; store_count : nat; policy_digest : option string; rc_created_at : Z; rc_updated_at : Z
}.
Record Leg : Type := mkLeg {
  lg_op : string; lg_profile : string; store_path : string; original_hash : string; replacement_hash : string;
  backup_path : string; job_digests : string; replacement_bytes : option string; phase : string; lg_updated_at : Z
}.

(** [clock]: how often the time was read. *)
Record CutState : Type := mkCut {
  disk : FS; crons : CronState; receipts : list Receipt; legs : list Leg; clock : nat
}.
Definition set_disk d (s : CutState) := mkCut d (crons s) (receipts s) (legs s) (clock s).
Definition set_crons f (s : CutState) := mkCut (disk s) (f (crons s)) (receipts s) (legs s) (clock s).
Definition set_receipts f (s : CutState) := mkCut (disk s) (crons s) (f (receipts s)) (legs s) (clock s).
Definition set_legs f (s : CutState) := mkCut (disk s) (crons s) (receipts s) (f (legs s)) (clock s).

Record CronStoreCutoverSummary : Type := mkStoreSummary {
  sm_profile : string; jobs_found : nat; all_imported : bool; would_empty : bool; sm_unverified : list string
}.

(** [PreparedCutoverStore]; its backup gets its path when it is written. *)
Record Prepared : Type := mkPrepared {
  pr_profile : string; pr_path : string; original_bytes : string; backup_candidate : string; pr_replacement : string;
  job_ids : list string; unverified_jobs : list string; pr_digests : list (string * string)
}.

(** [PreparedStore]. *)
Record PreparedStore : Type := mkPreparedStore { ps_path : string; original : string }.

(** [sha256_hex] of the digest's bytes. *)
Definition hex_digit (n : N) : ascii := ascii_of_N (if (n <? 10)%N then 48 + n else 87 + n).
Definition hex_of (bytes : string) : string :=
  string_of_list_ascii (List.concat (map (fun c => [hex_digit (N_of_ascii c / 16); hex_digit (N_of_ascii c mod 16)])
    (list_ascii_of_string bytes))).

Definition phase_set (p : string) (op : string) (path : option string) (now : Z) : list Leg -> list Leg :=
  update_where (fun r => String.eqb (lg_op r) op && match path with Some path => String.eqb (store_path r) path | None => true end)
    (fun r => mkLeg (lg_op r) (lg_profile r) (store_path r) (original_hash r) (replacement_hash r) (backup_path r) (job_digests r)
                (replacement_bytes r) p now).
Definition status_set (status op : string) (now : Z) : list Receipt -> list Receipt :=
  update_where (fun r => String.eqb (rc_op r) op)
    (fun r => mkReceipt (rc_op r) status (store_count r) (policy_digest r) (rc_created_at r) now).
Definition authority_set (auth : string) (now : Z) (r : CronJob) : CronJob :=
  mkJob (job_id r) (job_session_key r) (expression r) (payload_json r) (enabled r) (next_run_at r) (job_created_at r) now auth.

(** [ORDER BY created_at DESC LIMIT 1]. *)
Definition newest_pending (t : list Receipt) : option string :=
  rc_op <$> head (sort_by (fun a b => (rc_created_at b <=? rc_created_at a)%Z) (select (fun r => String.eqb (rc_status r) "pending") t)).
Definition path_le (a b : Leg) : bool := String.leb (store_path a) (store_path b).

(** [BTreeSet<PathBuf>], in the order of the components. *)
Fixpoint steps_compare (a b : list Step) : comparison :=
  let rank s := match s with Here => 0 | Up => 1 | Name _ => 2 end in
  match a, b with
  | [], [] => Eq
  | [], _ => Lt
  | _, [] => Gt
  | x :: a, y :: b =>
      match x, y with
      | Name n, Name m => match String.compare n m with Eq => steps_compare a b | c => c end
      | _, _ => match Nat.compare (rank x) (rank y) with Eq => steps_compare a b | c => c end
      end
  end.
(** An absolute path starts with the root, which comes before any step. *)
Definition path_compare (a b : PathBuf) : comparison :=
  match absolute a, absolute b with
  | true, false => match components b with [] => Gt | _ => Lt end
  | false, true => match components a with [] => Lt | _ => Gt end
  | _, _ => steps_compare (components a) (components b)
  end.
Fixpoint set_insert (p : PathBuf) (l : list PathBuf) : list PathBuf :=
  match l with
  | [] => [p]
  | q :: rest => match path_compare p q with Lt => p :: l | Eq => l | Gt => q :: set_insert p rest end
  end.

Section Cutover.
Context (cwd : Canonical) (arrange : list string -> list string) (uuid : string -> nat -> string) (partial : string) (fuel : nat).
Context `{Sqlite} `{CronLibs} (sha256 : string -> string) (decode_error : value -> string).
(** The times read, the text of a time in a backup's name, the id of this
    operation, and whether the receipts' tables exist. *)
Context (tick : nat -> Z) (stamp : Z -> string) (operation_id : string) (journal_exists : bool).
Notation X := (M CutState).

Definition sha256_hex (bytes : string) : string := hex_of (sha256 bytes).
Definition on_disk {A} (m : M FS A) : X A := zoom disk set_disk m.
Definition env_now : X Z := mem (fun s => (tick (clock s), mkCut (disk s) (crons s) (receipts s) (legs s) (S (clock s)))).
Definition env_write (path bytes : string) : X unit := on_disk (write_atomic cwd uuid partial fuel path bytes).

Definition set_phase (p op : string) (path : option string) (now : Z) : X unit :=
  stmt (fun s => (tt, set_legs (phase_set p op path now) s)).
Definition set_status (status op : string) (now : Z) : X unit :=
  stmt (fun s => (tt, set_receipts (status_set status op now) s)).
Definition set_authority (p : CronJob -> bool) (auth : string) (now : Z) : X unit :=
  stmt (fun s => (tt, set_crons (set_jobs (update_where p (authority_set auth now))) s)).

(** ** The locks *)

Definition show_path (p : PathBuf) : string :=
  (if absolute p then "/" else "") ++ String.concat "/" (map (fun s => match s with Here => "." | Up => ".." | Name n => n end) (steps p)).

Fixpoint lock_paths (stores : list string) (acc : list PathBuf) : X (list PathBuf) :=
  match stores with
  | [] => ret acc
  | path :: rest =>
      match parent_text path with
      | None => lock_paths rest acc
      | Some dir =>
          there <- on_disk (env_exists cwd (path_of dir)) ;;
          if there : bool then
            lock <- on_disk (env_canonicalize cwd (push dir ".jobs.lock")) ;;
            lock_paths rest (set_insert lock acc)
          else lock_paths rest acc
      end
  end.
Definition acquire (p : PathBuf) : X unit := on_disk (acquire_jobs_lock cwd p (show_path p)).

(** ** A cutover that stopped halfway *)

Fixpoint journaled_bytes (l : list Leg) : result (list (Leg * string)) OmonError :=
  match l with
  | [] => Ok []
  | r :: rest =>
      match replacement_bytes r with
      | None => Err (Config ("Hermes cron store " ++ store_path r ++ " has no journaled replacement bytes; automatic cutover recovery unavailable; original backup preserved at " ++ backup_path r))
      | Some bytes =>
          if negb (String.eqb (sha256_hex bytes) (replacement_hash r))
          then Err (Config ("Hermes cron store " ++ store_path r ++ " journaled replacement bytes do not match replacement hash; original backup preserved at " ++ backup_path r))
          else l <-? journaled_bytes rest ;; Ok ((r, bytes) :: l)
      end
  end.

Definition replace_leg (op : string) (now : Z) (e : Leg * string) : X unit :=
  let '(r, bytes) := e in
  there <- on_disk (env_exists cwd (path_of (store_path r))) ;;
  current <- (if there : bool then on_disk (env_read cwd (store_path r)) else ret "") ;;
  if String.eqb current bytes then set_phase "replaced" op (Some (store_path r)) now
  else if String.eqb (sha256_hex current) (original_hash r) then
    env_write (store_path r) bytes ;;;
    set_phase "replaced" op (Some (store_path r)) now
  else fail (Config ("Hermes cron store " ++ lossy_text (store_path r) ++ " has unknown content during cutover recovery (hash does not match original or replacement); backups preserved at " ++ backup_path r)).

Definition reconcile_pending_cutover : X (option string) :=
  there <- query (fun _ => journal_exists) ;;
  if negb there then ret None
  else
    pending <- query (fun s => newest_pending (receipts s)) ;;
    match pending with
    | None => ret None
    | Some op =>
        rows <- query (fun s => sort_by path_le (select (fun r => String.eqb (lg_op r) op) (legs s))) ;;
        rows <- lift (journaled_bytes rows) ;;
        locks <- lock_paths (map (fun e => store_path e.1) rows) [] ;;
        for_each acquire locks ;;;
        now <- env_now ;;
        for_each (replace_leg op now) rows ;;;
        transaction (
          now <- env_now ;;
          set_status "committed" op now ;;;
          set_phase "committed" op None now ;;;
          set_authority (fun r => String.eqb (authority r) "cutover_pending") "omon_owned" now) ;;;
        ret (Some op)
    end.

(** ** The stores *)

Fixpoint are_directories (root : string) (names : list string) : X (list string) :=
  match names with
  | [] => ret []
  | n :: rest =>
      d <- on_disk (env_is_dir cwd (path_of (push root n))) ;;
      more <- are_directories root rest ;;
      ret (if d : bool then n :: more else more)
  end.

Definition discover_stores (hermes_root : string) : X (list (string * string)) :=
  let jobs_of home := push (push home "cron") "jobs.json" in
  let profiles_root := push hermes_root "profiles" in
  let first := ("default", jobs_of hermes_root) in
  there <- on_disk (env_exists cwd (path_of profiles_root)) ;;
  if negb there then ret [first]
  else
    d <- on_disk (env_is_dir cwd (path_of profiles_root)) ;;
    if negb d then fail (Config ("Hermes profiles path is not a directory: " ++ lossy_text profiles_root))
    else
      names <- on_disk (env_read_dir cwd arrange profiles_root) ;;
      names <- are_directories profiles_root names ;;
      ret (first :: map (fun n => (lossy_text n, jobs_of (push profiles_root n))) (sort_by String.leb names)).

Definition decode_store (v : value) : option (list value) :=
  match v with
  | JObject m => defaulted "jobs" (list_of Some) [] m
  | JArray [] => Some []
  | JArray [l] => list_of Some l
  | _ => None
  end.
Definition id_of (job : value) : string := default "" (get "id" job ≫= as_str).

Definition parse_store_jobs (path bytes : string) : result (list value) OmonError :=
  let invalid e := Err (Config ("invalid Hermes cron store " ++ lossy_text path ++ ": " ++ e)) in
  match parse_json bytes with
  | Err e => invalid e
  | Ok v =>
      match decode_store v with
      | None => invalid (decode_error v)
      | Some l =>
          if existsb (fun job => String.eqb (trim (id_of job)) "") l
          then Err (Config ("Hermes cron store " ++ lossy_text path ++ " contains a job without an id"))
          else Ok l
      end
  end.

(** The ids of a store's jobs, those not imported as they are, the digests of the others. *)
Fixpoint check_jobs (profile : string) (l : list value) : X (list string * list string * list (string * string)) :=
  match l with
  | [] => ret ([], [], [])
  | job :: rest =>
      let id := id_of job in
      row <- query (fun s => payload_json <$> head (select (is_job (import_id profile id)) (jobs (crons s)))) ;;
      more <- check_jobs profile rest ;;
      let '(ids, unverified, digests) := more in
      let verified := match row with
                      | None => false
                      | Some text => canonical_job_payload_matches job (match parse_json text with Ok v => v | Err _ => JNull end)
                      end in
      ret (if verified then (id :: ids, unverified, (id, sha256_hex (print_json (normalize_job_payload job))) :: digests)
           else (id :: ids, id :: unverified, digests))
  end.

Definition prepare_store (e : string * string) : X Prepared :=
  let '(profile, path) := e in
  let invalid_path := Config ("invalid Hermes cron store path: " ++ lossy_text path) in
  there <- on_disk (env_exists cwd (path_of path)) ;;
  bytes <- (if there : bool then
              regular <- on_disk (env_is_file cwd (path_of path)) ;;
              if regular : bool then on_disk (env_read cwd path)
              else fail (Config ("Hermes cron store is not a file: " ++ lossy_text path))
            else ret "") ;;
  missing <- (if String.eqb bytes "" then there <- on_disk (env_exists cwd (path_of path)) ;; ret (negb there) else ret false) ;;
  l <- (if missing : bool then ret [] else lift (parse_store_jobs path bytes)) ;;
  checked <- check_jobs profile l ;;
  let '(ids, unverified, digests) := checked in
  dir <- lift (ok_or (parent_text path) invalid_path) ;;
  name <- lift (ok_or (file_name (path_of path)) invalid_path) ;;
  stamped <- env_now ;;
  updated <- env_now ;;
  ret (mkPrepared profile path bytes (push dir (lossy_text name ++ ".bak-omon-migration-" ++ stamp stamped))
         (print_json (JObject [("jobs", JArray []); ("updated_at", JString (to_rfc3339 updated))])) ids unverified digests).

Fixpoint prepare_all (l : list (string * string)) : X (list Prepared) :=
  match l with
  | [] => ret []
  | e :: rest => p <- prepare_store e ;; more <- prepare_all rest ;; ret (p :: more)
  end.

Definition summarize (p : Prepared) : CronStoreCutoverSummary :=
  let verified := match unverified_jobs p with [] => true | _ => false end in
  mkStoreSummary (pr_profile p) (length (job_ids p)) verified (negb (length (job_ids p) =? 0)%nat && verified) (unverified_jobs p).

(** ** The cutover *)

Fixpoint back_up (l : list Prepared) : X (list (Prepared * string)) :=
  match l with
  | [] => ret []
  | p :: rest =>
      path <- on_disk (write_unique cwd uuid partial fuel (backup_candidate p) (original_bytes p)) ;;
      more <- back_up rest ;;
      ret ((p, path) :: more)
  end.

Definition all_ids (l : list (Prepared * string)) : list string :=
  List.concat (map (fun e => map (import_id (pr_profile e.1)) (job_ids e.1)) l).

Definition insert_leg (r : Leg) : X unit :=
  exec (fun s =>
    if existsb (fun x => String.eqb (lg_op x) (lg_op r) && String.eqb (store_path x) (store_path r)) (legs s)
    then (Err (Database (constraint_error "cron_cutover_receipt_stores.operation_id, cron_cutover_receipt_stores.store_path")), s)
    else (Ok tt, set_legs (fun t => (t ++ [r])%list) s)).
Definition insert_receipt (r : Receipt) : X unit :=
  exec (fun s =>
    if existsb (fun x => String.eqb (rc_op x) (rc_op r)) (receipts s)
    then (Err (Database (constraint_error "cron_cutover_receipts.operation_id")), s)
    else (Ok tt, set_receipts (fun t => (t ++ [r])%list) s)).

Definition leg_of (now : Z) (e : Prepared * string) : Leg :=
  mkLeg operation_id (pr_profile e.1) (lossy_text (pr_path e.1)) (sha256_hex (original_bytes e.1)) (sha256_hex (pr_replacement e.1))
    (lossy_text e.2) (print_json (JArray (map (fun d => JArray [JString d.1; JString d.2]) (pr_digests e.1))))
    (Some (pr_replacement e.1)) "backed_up" now.

Definition record_receipt (l : list (Prepared * string)) (now : Z) : X unit :=
  transaction (
    insert_receipt (mkReceipt operation_id "pending" (length l) (Some "hermes_cutover") now now) ;;;
    for_each (fun e => insert_leg (leg_of now e)) l ;;;
    for_each (fun id => set_authority (is_job id) "cutover_pending" now) (all_ids l)).

Definition rewrite_store (e : Prepared * string) : X unit :=
  current <- on_disk (env_read cwd (pr_path e.1)) ;;
  if negb (String.eqb current (original_bytes e.1))
  then fail (Config ("Hermes cron store changed during migration: " ++ lossy_text (pr_path e.1) ++ "; refusing to empty stale state"))
  else
    env_write (pr_path e.1) (pr_replacement e.1) ;;;
    now <- env_now ;;
    set_phase "replaced" operation_id (Some (lossy_text (pr_path e.1))) now.

Definition commit_ownership (ids : list string) : X unit :=
  transaction (
    now <- env_now ;;
    set_status "committed" operation_id now ;;;
    set_phase "committed" operation_id None now ;;;
    for_each (fun id => set_authority (is_job id) "omon_owned" now) ids).

Definition is_empty {A} (l : list A) : bool := match l with [] => true | _ => false end.

Definition unverified_error (p : Prepared) : OmonError :=
  Config ("Hermes cron job hermes:" ++ pr_profile p ++ ":" ++ default "" (head (unverified_jobs p)) ++
    " payload does not match imported cron_jobs or has not been imported; refusing to empty " ++ lossy_text (pr_path p)).

(** From the prepared stores on. *)
Definition hand_over (prepared : list Prepared) : X unit :=
  match List.find (fun p => negb (is_empty (unverified_jobs p))) prepared with
  | Some p => fail (unverified_error p)
  | None =>
      match List.filter (fun p => negb (is_empty (job_ids p))) prepared with
      | [] => ret tt
      | l =>
          backed <- back_up l ;;
          now <- env_now ;;
          record_receipt backed now ;;;
          for_each rewrite_store backed ;;;
          commit_ownership (all_ids backed)
      end
  end.

Definition cutover_cron_stores (hermes_root : string) (dry_run : bool) : X (list CronStoreCutoverSummary) :=
  (if dry_run then ret tt else reconcile_pending_cutover ;;; ret tt) ;;;
  stores <- discover_stores hermes_root ;;
  locks <- lock_paths (map snd stores) [] ;;
  (if dry_run then ret tt else for_each acquire locks) ;;;
  prepared <- prepare_all stores ;;
  (if dry_run then ret tt else hand_over prepared) ;;;
  ret (map summarize prepared).

(** [cutover_store]: one store by itself, without a receipt. *)
Definition cutover_store (store : PreparedStore) : X unit :=
  let path := ps_path store in
  let invalid_path := Config ("invalid Hermes cron store path: " ++ lossy_text path) in
  dir <- lift (ok_or (parent_text path) invalid_path) ;;
  on_disk (acquire_jobs_lock cwd (path_of (push dir ".jobs.lock")) (push dir ".jobs.lock")) ;;;
  current <- on_disk (env_read cwd path) ;;
  if negb (String.eqb current (original store))
  then fail (Config ("Hermes cron store changed during migration: " ++ lossy_text path ++ "; refusing to back up or empty stale state"))
  else
    now <- env_now ;;
    name <- lift (ok_or (file_name (path_of path)) invalid_path) ;;
    on_disk (write_unique cwd uuid partial fuel (push dir (lossy_text name ++ ".bak-omon-migration-" ++ stamp now)) (original store)) ;;;
    env_write path (print_json (JObject [("jobs", JArray []); ("updated_at", JString (to_rfc3339 now))])).
End Cutover.

#[local] Opaque MAX_LINKS.

(** ** Files that stay *)

Definition file_at (fs : FS) (q : Canonical) (c : string) : Prop := exists i, nodes fs !! q = Some (File i) /\ content i fs = c.

(** Every file of [fs] is in [fs'], under the same name. *)
Definition stays (fs fs' : FS) : Prop := forall q c, file_at fs q c -> file_at fs' q c.

#[local] Instance stays_preorder : PreOrder stays.
Proof. split; [by intros fs q c|]. intros a b d Hab Hbd q c H. by apply Hbd, Hab. Qed.

Lemma walk_snoc links ns cur a d n :
  walk links false ns cur a = Ok d -> ns !! d = Some Directory -> (exists i, ns !! (d ++ [n])%list = Some (File i)) ->
  walk links false ns cur (a ++ [Name n]) = Ok (d ++ [n])%list.
Proof.
  intros W D [i N]. revert cur a W. induction links as [|links IHl]; intros cur a; revert cur;
    induction a as [|s a IH]; intros cur W;
    try (rewrite walk_nil in W; injection W as ->; cbn [app]; rewrite walk_cons, D, N; apply walk_nil);
    cbn [app]; rewrite walk_cons in W |- *; destruct (ns !! cur) as [[| |]|]; try done; destruct s as [| |m]; eauto;
    destruct (ns !! (cur ++ [m])%list) as [[j| |t]|]; try done; eauto.
  rewrite app_assoc. by apply IHl.
Qed.

Section Entries.
Context (cwd : Canonical).

Lemma entry_mono p fs fs' q : nodes fs ⊆ nodes fs' -> entry_at cwd p fs = Ok q -> entry_at cwd p fs' = Ok q.
Proof.
  intros Sub. unfold entry_at. generalize MAX_LINKS as k. intros k. destruct (rev (steps p)) as [|[| |n] above]; try done.
  destruct (walk k false (nodes fs) (start cwd p) (rev above)) as [d|e] eqn:W; [|discriminate]. rewrite (walk_mono _ _ _ _ _ _ Sub W).
  destruct (nodes fs !! d) as [[| |]|] eqn:D; try done. by rewrite (lookup_weaken _ _ _ _ D Sub).
Qed.

Lemma entry_resolves p fs q c : entry_at cwd p fs = Ok q -> file_at fs q c -> resolve cwd false p fs = Ok q.
Proof.
  unfold entry_at, resolve. generalize MAX_LINKS as k. intros k E (i & N & _). assert (Hs : steps p = (rev (tail (rev (steps p))) ++ match rev (steps p) with s :: _ => [s] | [] => [] end)%list).
  { rewrite <- (rev_involutive (steps p)) at 1. destruct (rev (steps p)); [done|]. done. }
  destruct (rev (steps p)) as [|[| |n] above]; try done. simpl in Hs.
  destruct (walk k false (nodes fs) (start cwd p) (rev above)) as [d|e] eqn:W; [|discriminate]. destruct (nodes fs !! d) as [[| |]|] eqn:D; try discriminate. injection E as <-.
  pose proof (walk_snoc _ _ _ _ _ _ W D (ex_intro _ _ N)) as K. rewrite <- Hs in K.
  destruct (absolute p), (steps p); try done. by destruct (rev above).
Qed.

Lemma entry_name p fs q n above : rev (steps p) = Name n :: above -> entry_at cwd p fs = Ok q -> last q = Some n.
Proof.
  unfold entry_at. generalize MAX_LINKS as k. intros k ->. destruct (walk k false (nodes fs) (start cwd p) (rev above)); [|discriminate]. destruct (nodes fs !! _) as [[| |]|]; try done.
  intros [= <-]. by rewrite last_snoc.
Qed.
End Entries.

Lemma put_new_stays q text fs : nodes fs !! q = None -> stays fs (Paths.put q text fs).
Proof.
  intros N q' c (i & Nq & C). exists i. unfold Paths.put. rewrite N. simpl. destruct (decide (q' = q)) as [->|Ne]; [congruence|].
  rewrite lookup_insert_ne by done. split; [done|]. etrans; [apply content_insert|].
  destruct (decide (i = fresh_inode fs)) as [->|]; [by apply fresh_inode_unused in Nq|done].
Qed.

(** Writing to the file just made is making it with that content. *)
Lemma put_twice q text fs : nodes fs !! q = None -> Paths.put q text (Paths.put q "" fs) = Paths.put q text fs.
Proof.
  intros N. assert (E : forall t, Paths.put q t fs = mkFS (<[q := File (fresh_inode fs)]> (nodes fs)) (<[fresh_inode fs := t]> (inodes fs)))
    by (intros t; unfold Paths.put; by rewrite N).
  rewrite !E. unfold Paths.put. simpl. rewrite lookup_insert_eq. by rewrite insert_insert_eq.
Qed.

Lemma put_twice_stays q text fs : nodes fs !! q = None -> stays fs (Paths.put q text (Paths.put q "" fs)).
Proof. intros N. rewrite put_twice by done. by apply put_new_stays. Qed.

Lemma put_twice_at q text fs : nodes fs !! q = None -> file_at (Paths.put q text (Paths.put q "" fs)) q text.
Proof. intros N. rewrite put_twice by done. apply put_at. by rewrite N. Qed.

Lemma delete_stays q fs fs' : nodes fs !! q = None -> stays fs fs' -> stays fs (mkFS (base.delete q (nodes fs')) (inodes fs')).
Proof.
  intros N S q' c H. destruct (S q' c H) as (i & Nq & C). exists i. simpl. split; [|done].
  rewrite lookup_delete_ne; [done|]. intros ->. destruct H as (j & Hj & _). congruence.
Qed.

Section Writes.
Context (cwd : Canonical) (uuid : string -> nat -> string) (partial : string).

Lemma open_new_spec fs p :
  triple (eq fs) (open_new cwd p)
    (fun r s => match r with Ok q => entry_at cwd p fs = Ok q /\ nodes fs !! q = None /\ s = Paths.put q "" fs | Err _ => s = fs end) (eq fs).
Proof.
  apply triple_call; [done|]. intros s <-. destruct (entry_at cwd p fs) as [q|e] eqn:E; [|done].
  destruct (nodes fs !! q) eqn:N; [done|]. simpl. done.
Qed.

Lemma write_all_spec fs q bytes :
  triple (eq (Paths.put q "" fs)) (write_all partial q bytes)
    (fun r s => match r with Ok _ => s = Paths.put q bytes (Paths.put q "" fs) | Err _ => exists t, s = Paths.put q t (Paths.put q "" fs) end) (eq fs).
Proof. intros w Hw. unfold write_all, with_content. rewrite <- Hw. destruct (faults w) as [|[m|] l]; simpl; eauto. Qed.

(** Removing what was just made leaves what was there before. *)
Lemma remove_new_stays fs path q :
  entry_at cwd (path_of path) fs = Ok q -> nodes fs !! q = None ->
  triple (fun s => stays fs s /\ nodes fs ⊆ nodes s) (remove_file cwd path) (fun _ => stays fs) (stays fs).
Proof.
  intros E N. unfold remove_file. apply (triple_bind _ _ _ (fun _ => stays fs)).
  - unfold unlink. apply triple_call; [by intros s m [? _]|]. intros s [St Sub]. rewrite (entry_mono _ _ _ _ _ Sub E).
    destruct (nodes s !! q) as [[| |]|]; simpl; try done; by apply delete_stays.
  - intros [u|[|m]]; [apply triple_ret|apply triple_ret|apply triple_fail]; done.
Qed.

(** A candidate for [path]: itself, or with a uuid behind. *)
Definition candidate_of (path candidate : string) : Prop := candidate = path \/ exists k, candidate = path ++ "-" ++ uuid path k.

(** The new file's name was free; everything else is as it was. *)
Lemma unique_spec fuel path bytes candidate drawn fs :
  candidate_of path candidate ->
  triple (eq fs) (unique_among cwd uuid partial fuel path bytes candidate drawn)
    (fun got s => stays fs s /\ candidate_of path got /\
       exists q, entry_at cwd (path_of got) fs = Ok q /\ nodes fs !! q = None /\ file_at s q bytes /\ nodes fs ⊆ nodes s) (stays fs).
Proof.
  revert candidate drawn. induction fuel as [|fuel IH]; intros candidate drawn Hc; simpl; [by apply triple_fail; intros s <-|].
  eapply triple_bind; [eapply triple_weaken; [apply open_new_spec|done|intros a s H; exact H|by intros s <-]|].
  intros [q|e].
  - intros w (E & N & Hw). revert w Hw. change (triple (fun s => s = Paths.put q "" fs)
      (written <- write_all partial q bytes ;; match written with Ok _ => ret candidate | Err error =>
         removed <- attempt (remove_file cwd candidate) ;;
         match removed with Err cleanup => fail (Config (show_error error ++ "; partial file cleanup failed: " ++ error_text cleanup))
         | Ok _ => fail (fs_error "write" candidate (show_error error)) end end)
      (fun got s => stays fs s /\ candidate_of path got /\
       exists q, entry_at cwd (path_of got) fs = Ok q /\ nodes fs !! q = None /\ file_at s q bytes /\ nodes fs ⊆ nodes s) (stays fs)).
    eapply triple_bind; [eapply triple_weaken; [apply write_all_spec|by intros s ->|intros a s H; exact H|by intros s <-]|].
    intros [u|e].
    + apply triple_ret. intros s ->. split; [by apply put_twice_stays|]. split; [done|]. exists q. split_and!; [done|done|by apply put_twice_at|].
      etrans; apply put_nodes.
    + apply triple_exists. intros t. eapply triple_bind with (R := fun _ => stays fs); [|by intros [v|c]; apply triple_fail].
      eapply triple_weaken; [by apply triple_attempt, (remove_new_stays fs candidate q)|intros s ->| |intros s H; exact H].
      * split; [by apply put_twice_stays|etrans; apply put_nodes].
      * by intros [?|?] s.
  - case_bool_decide; [|by apply triple_fail; intros s ->].
    eapply triple_weaken; [apply IH; right; by eexists|by intros s ->|done|done].
Qed.

(** A file that [write_atomic] may replace: the one its path resolves to. *)
Definition replaced (path : string) (fs : FS) (q : Canonical) : Prop :=
  (forall R, resolve cwd false (path_of path) fs = Ok R -> R = q) /\
  (forall n above, rev (steps (path_of path)) = Name n :: above -> last q = Some n).
Definition kept_but (path : string) (fs fs' : FS) : Prop := forall q c, file_at fs q c -> file_at fs' q c \/ replaced path fs q.

Lemma stays_kept path fs fs' : stays fs fs' -> kept_but path fs fs'.
Proof. intros S q c H. left. by apply S. Qed.

Lemma rename_spec fs from path q :
  entry_at cwd (path_of from) fs = Ok q -> nodes fs !! q = None ->
  triple (fun s => stays fs s /\ nodes fs ⊆ nodes s) (rename cwd from path) (fun _ => kept_but path fs) (fun s => stays fs s /\ nodes fs ⊆ nodes s).
Proof.
  intros E N. unfold rename. eapply triple_bind with
    (R := fun r s => match r with Ok _ => kept_but path fs s | Err _ => stays fs s /\ nodes fs ⊆ nodes s end);
    [|intros [u|e]; [by apply triple_ret|by apply triple_fail]].
  unfold move. apply triple_call; [done|]. intros s [St Sub]. rewrite (entry_mono _ _ _ _ _ Sub E).
  destruct (entry_at cwd (path_of path) s) as [to|e] eqn:D; [|done].
  destruct (nodes s !! q) as [x|] eqn:Nq; [|done].
  assert (K : kept_but path fs (mkFS (<[to := x]> (base.delete q (nodes s))) (inodes s))).
  { intros q' c Hq. destruct (decide (q' = to)) as [->|Ne].
    - right. split; [|intros n above H; by eapply entry_name]. intros R HR.
      pose proof (entry_resolves cwd _ _ _ _ D (St _ _ Hq)) as HR'. apply (resolve_mono cwd _ _ _ _ Sub) in HR. congruence.
    - left. destruct (St _ _ Hq) as (i & Ni & C). exists i. split; [|done]. simpl. rewrite lookup_insert_ne, lookup_delete_ne; [done| |done].
      intros ->. destruct Hq as (j & Hj & _). congruence. }
  destruct x as [i| |t]; [|done|]; destruct (nodes s !! to) as [[j| |t']|]; simpl; try done; case_bool_decide; simpl; try done; by apply stays_kept.
Qed.

Lemma write_atomic_spec fuel path bytes fs :
  triple (eq fs) (write_atomic cwd uuid partial fuel path bytes) (fun _ => kept_but path fs) (kept_but path fs).
Proof.
  unfold write_atomic. destruct (file_name (path_of path)) as [name|]; [|by apply triple_fail; intros s <-; apply stays_kept].
  destruct (parent_text path) as [dir|]; [|by apply triple_fail; intros s <-; apply stays_kept].
  eapply triple_bind; [eapply triple_weaken; [apply unique_spec; by left|done|intros a s H; exact H|apply stays_kept]|].
  intros got. eapply triple_weaken with (P := fun s => exists q, (stays fs s /\ nodes fs ⊆ nodes s) /\ entry_at cwd (path_of got) fs = Ok q /\ nodes fs !! q = None);
    [|intros s (St & _ & q & E & Nq & _ & Sub); by exists q|intros a s H; exact H|done].
  apply triple_exists. intros q. apply triple_pure. intros [E Nq].
  eapply triple_bind; [by apply triple_attempt, (rename_spec fs got path q)|]. intros [u|e]; [by apply triple_ret|].
  eapply triple_bind with (R := fun _ => stays fs); [|intros [u|c]; apply triple_fail; intros s; apply stays_kept].
  eapply triple_weaken; [by apply triple_attempt, (remove_new_stays fs got q)|done|by intros [u|c] s|intros s H; exact H].
Qed.
End Writes.

(** ** The names of stores and backups *)

(** [path] ends in the name [n]. *)
Definition named (n path : string) : Prop := exists above, rev (steps (path_of path)) = Name n :: above.

Definition plain_name (b : string) : Prop := free_of "/" b = true /\ step_of b = Name b.

Lemma split_char_cons c s : exists x l, split_char c s = x :: l.
Proof.
  induction s as [|d s (x & l & E)]; simpl; [by eexists _, _|]. destruct (Ascii.eqb d c); [by eexists _, _|]. rewrite E. by eexists _, _.
Qed.

Lemma split_char_at c a b : split_char c (a ++ String c b) = (split_char c a ++ split_char c b)%list.
Proof.
  induction a as [|d a IH]; simpl; [by rewrite Ascii.eqb_refl|]. destruct (Ascii.eqb d c); [by rewrite IH|].
  rewrite IH. by destruct (split_char_cons c a) as (x & l & ->).
Qed.

Lemma plain_name_nonempty b : plain_name b -> b <> "" /\ starts_with "/" b = false.
Proof.
  intros [F S]. destruct b as [|c b]; [done|]. split; [done|]. cbn [free_of starts_with] in *. apply andb_true_iff in F as [F _].
  apply negb_true_iff in F. unfold starts_with. cbn [strip_prefix]. by rewrite F.
Qed.

Lemma named_alone b : plain_name b -> named b b.
Proof.
  intros P. destruct (plain_name_nonempty b P) as [Hne _]. destruct P as [F S]. exists []. unfold path_of.
  rewrite (proj2 (String.eqb_neq _ _) Hne), split_char_free by done. cbn [map steps rev app]. by rewrite S.
Qed.

Lemma named_below a b : plain_name b -> named b (a ++ String "/" b).
Proof.
  intros [F S]. unfold named, path_of. destruct (String.eqb_spec (a ++ String "/" b) "") as [E|_]; [by destruct a|].
  cbn [steps]. rewrite split_char_at, map_app, rev_app_distr, (split_char_free _ b) by done. cbn [map rev app]. rewrite S. by eexists.
Qed.

Lemma push_shape a b : starts_with "/" b = false ->
  (push a b = a ++ String "/" b \/ (a = "" /\ push a b = b) \/ exists a', a = a' ++ "/" /\ push a b = a' ++ String "/" b).
Proof.
  intros Hb. unfold push. rewrite Hb. destruct (String.eqb_spec a "") as [->|Hne]; [right; by left|].
  case_bool_decide as G; [|by left]. right. right. simpl.
  assert (Hlast : forall a, a <> "" -> String.get (len a - 1) a = Some "/"%char -> exists a', a = a' ++ "/").
  { clear. induction a as [|c a IH]; [done|]. intros _ G. destruct a as [|d a]; [simpl in G; injection G as ->; by exists ""|].
    destruct IH as [a' E]; [done| |by exists (String c a'); simpl; rewrite E].
    replace (len (String c (String d a)) - 1)%nat with (S (len (String d a) - 1)) in G by (simpl; lia). exact G. }
  destruct (Hlast a Hne G) as [a' ->]. exists a'. split; [done|]. by rewrite app_assoc_str.
Qed.

Lemma push_named a b : plain_name b -> named b (push a b).
Proof.
  intros P. destruct (plain_name_nonempty b P) as [_ Hb].
  destruct (push_shape a b Hb) as [->|[[_ ->]|(a' & _ & ->)]]; [by apply named_below|by apply named_alone|by apply named_below].
Qed.

Lemma push_more a b c : starts_with "/" b = false -> b <> "" -> push a b ++ c = push a (b ++ c).
Proof.
  intros Hb Hne. assert (Hbc : starts_with "/" (b ++ c) = false).
  { destruct b as [|x b]; [done|]. revert Hb. unfold starts_with. cbn [strip_prefix String.append]. by destruct (Ascii.eqb "/" x). }
  unfold push. rewrite Hb, Hbc.
  destruct (_ || _); [by rewrite app_assoc_str|]. by rewrite !app_assoc_str.
Qed.

(** *** Text that is not UTF-8 *)

Definition ascii_byte (b : ascii) : bool := in_range b 0 127.

Lemma tail_bytes_app n k l b rest :
  ascii_byte b = true -> match tail_bytes n k (l ++ b :: rest) with Valid m | Invalid m => (m <= k + length l)%nat | Incomplete => False end.
Proof.
  intros Hb. revert k l. induction n as [|n IH]; intros k l; cbn [tail_bytes]; [lia|].
  assert (in_range b 128 191 = false) as Hc.
  { unfold ascii_byte, in_range in *. apply andb_true_iff in Hb as [_ Hb]. apply N.leb_le in Hb. apply andb_false_iff. left. apply N.leb_gt. lia. }
  destruct l as [|x l]; cbn [app]; [rewrite Hc; simpl; lia|]. destruct (in_range x 128 191); [|simpl; lia].
  specialize (IH (S k) l). destruct (tail_bytes n (S k) _); simpl in *; lia.
Qed.

Lemma followers_high x n lo hi b : followers x = Some (n, lo, hi) -> ascii_byte b = true -> in_range b lo hi = false.
Proof.
  unfold followers, ascii_byte. intros F Hb. unfold in_range in Hb. apply andb_true_iff in Hb as [_ Hb]. apply N.leb_le in Hb.
  assert (128 <= lo)%N by (repeat case_match; simplify_eq; lia). unfold in_range. apply andb_false_iff. left. apply N.leb_gt. lia.
Qed.

(** A byte of ASCII ends whatever character was begun before it. *)
Lemma head_before_ascii l b rest :
  l <> [] -> ascii_byte b = true -> match head_char (l ++ b :: rest) with Valid m | Invalid m => (1 <= m <= length l)%nat | Incomplete => False end.
Proof.
  intros Hl Hb.
  assert (Upper : match head_char (l ++ b :: rest) with Valid m | Invalid m => (m <= length l)%nat | Incomplete => False end).
  { destruct l as [|x l]; [done|]. cbn [app head_char]. destruct (in_range x 0 127); [simpl; lia|].
    destruct (followers x) as [[[n lo] hi]|] eqn:F; [|simpl; lia].
    destruct l as [|y l]; cbn [app]; [rewrite (followers_high _ _ _ _ _ F Hb); simpl; lia|]. destruct (in_range y lo hi); [|simpl; lia].
    pose proof (tail_bytes_app (pred n) 2 l b rest Hb) as K. destruct (tail_bytes _ _ _); simpl in *; lia. }
  destruct (head_char (l ++ b :: rest)) as [m|m|] eqn:E; [apply head_valid in E as [? _]|apply head_invalid in E as [? _]|]; lia || done.
Qed.

Lemma decode_ascii b : Forall (fun c => ascii_byte c = true) b -> decode b = (map (fun c => ([c], true)) b, []).
Proof.
  induction 1 as [|c b Hc _ IH]; [done|]. rewrite decode_step. unfold head_char, ascii_byte in *. rewrite Hc. change (drop 1 (c :: b)) with b. by rewrite IH.
Qed.

Lemma decode_before_ascii l b :
  b <> [] -> Forall (fun c => ascii_byte c = true) b -> exists its, decode (l ++ b) = ((its ++ map (fun c => ([c], true)) b)%list, []).
Proof.
  intros Hb Ha. remember (length l) as k eqn:Ek. revert l Ek. induction k as [k IH] using lt_wf_ind. intros l ->.
  destruct l as [|x l]; [exists []; by apply decode_ascii|]. destruct b as [|c b]; [done|].
  assert (Hc : ascii_byte c = true) by by inversion Ha. set (l' := x :: l) in *.
  assert (Hl : l' <> []) by done. pose proof (head_before_ascii l' c b Hl Hc) as K.
  rewrite decode_step. destruct (l' ++ c :: b)%list as [|y t] eqn:Ey; [done|]. rewrite <- Ey in *. clear Ey y t.
  destruct (head_char (l' ++ c :: b)) as [m|m|]; [..|done].
  all: assert (length (drop m l') < length l')%nat as Hd by (rewrite length_drop; lia).
  all: destruct (IH _ Hd (drop m l') eq_refl) as [its E]; rewrite drop_app_le, E by lia; by eexists (_ :: its).
Qed.

Lemma lossy_tail a b :
  b <> "" -> all_bytes ascii_byte b = true -> exists a', lossy_text (a ++ b) = a' ++ b.
Proof.
  intros Hb Ha. unfold lossy_text, lossy.
  assert (Hl : list_ascii_of_string (a ++ b) = (list_ascii_of_string a ++ list_ascii_of_string b)%list) by (induction a as [|c a IH]; simpl; [done|by rewrite IH]).
  rewrite Hl. destruct (decode_before_ascii (list_ascii_of_string a) (list_ascii_of_string b)) as [its E].
  - by destruct b.
  - clear -Ha. induction b as [|c b IH]; simpl in *; [constructor|]. apply andb_true_iff in Ha as [? ?]. constructor; auto.
  - rewrite E. cbn [fst snd]. rewrite app_nil_r, map_app, map_map. exists (page_text (map fst its)). unfold page_text.
    rewrite map_app, of_chars_app. f_equal. clear. induction b as [|c b IH]; [done|]. cbn [list_ascii_of_string map]. rewrite of_chars_cons. simpl. f_equal. exact IH.
Qed.

(** A store's path, however its directory is written. *)
Definition a_store (path : string) : Prop := exists a, path = a ++ "/jobs.json".

Lemma jobs_json_plain : plain_name "jobs.json". Proof. done. Qed.

Lemma a_store_named path : a_store path -> named "jobs.json" path.
Proof. intros [a ->]. by apply (named_below a). Qed.

Lemma lossy_store path : a_store path -> a_store (lossy_text path).
Proof. intros [a ->]. destruct (lossy_tail a "/jobs.json") as [a' E]; [done..|]. by exists a'. Qed.

Lemma jobs_path_is_store home : a_store (push (push home "cron") "jobs.json").
Proof.
  assert (H : exists y, push home "cron" = y ++ "cron").
  { destruct (push_shape home "cron" eq_refl) as [->|[[_ ->]|(h & _ & ->)]]; [exists (home ++ "/"); by rewrite app_assoc_str|by exists ""|exists (h ++ "/"); by rewrite app_assoc_str]. }
  destruct H as [y ->]. destruct (push_shape (y ++ "cron") "jobs.json" eq_refl) as [->|[[E _]|(h & E & ->)]]; [by eexists|by destruct y|by eexists].
Qed.

(** The file name and the directory of a store. *)
Lemma named_file_name n path : named n path -> file_name (path_of path) = Some n.
Proof.
  intros [above E]. unfold file_name, components. rewrite <- (rev_involutive (steps (path_of path))), E. cbn [rev].
  rewrite List.filter_app. cbn. by rewrite rev_app_distr.
Qed.

(** ** No store is lost *)

(** Some file that is no store holds [c]. *)
Definition backed (fs : FS) (c : string) : Prop := exists q, file_at fs q c /\ last q <> Some "jobs.json".

Lemma backed_stays fs fs' c : stays fs fs' -> backed fs c -> backed fs' c.
Proof. intros S (q & Hq & L). exists q. split; [by apply S|done]. Qed.

Lemma backed_kept cwd path fs fs' c : a_store path -> kept_but cwd path fs fs' -> backed fs c -> backed fs' c.
Proof.
  intros Hp K (q & Hq & L). exists q. split; [|done]. destruct (K q c Hq) as [?|[_ R]]; [done|].
  destruct (a_store_named _ Hp) as [above E]. by destruct L, (R _ _ E).
Qed.

(** What may stand in the journal: the file's bytes are kept elsewhere. *)
Definition leg_ok (sha256 : string -> string) (fs : FS) (r : Leg) : Prop :=
  a_store (store_path r) /\ exists c, c <> "" /\ sha256_hex sha256 c = original_hash r /\ backed fs c.

Definition good (sha256 : string -> string) (fs0 : FS) (s : CutState) : Prop :=
  (forall q c, file_at fs0 q c -> file_at (disk s) q c \/ backed (disk s) c) /\ (forall r, r ∈ legs s -> leg_ok sha256 (disk s) r).

Lemma disk_triple {A} (m : M FS A) P (Q : A -> CutState -> Prop) (E : CutState -> Prop) :
  (forall s, P s -> triple (eq (disk s)) m (fun a fs => Q a (set_disk fs s)) (fun fs => E (set_disk fs s))) -> triple P (on_disk m) Q E.
Proof. intros H. apply triple_zoom. intros s Hs. exists (eq (disk s)). split; [done|by apply H]. Qed.

Section Good.
Context (sha256 : string -> string) (fs0 : FS).
Notation good := (good sha256 fs0).
Notation leg_ok := (leg_ok sha256).

Lemma good_stays s fs' : good s -> stays (disk s) fs' -> good (set_disk fs' s).
Proof.
  intros [G L] S. split; simpl.
  - intros q c H. destruct (G q c H) as [?|?]; [left; by apply S|right; by eapply backed_stays].
  - intros r Hr. destruct (L r Hr) as (? & c & ? & ? & ?). split; [done|]. exists c. split_and!; [done|done|by eapply backed_stays].
Qed.

(** A store's file may go when its bytes are kept elsewhere. *)
Lemma good_replace cwd s path c fs' :
  good s -> a_store path -> kept_but cwd path (disk s) fs' -> backed (disk s) c ->
  (forall q c', file_at (disk s) q c' -> replaced cwd path (disk s) q -> c' = c) -> good (set_disk fs' s).
Proof.
  intros [G L] Hp K B U. split; simpl.
  - intros q c' H. destruct (G q c' H) as [H'|H']; [|right; by apply (backed_kept _ _ _ _ _ Hp K)].
    destruct (K q c' H') as [?|R]; [by left|]. right. rewrite (U q c' H' R). by apply (backed_kept _ _ _ _ _ Hp K).
  - intros r Hr. destruct (L r Hr) as (? & c' & ? & ? & ?). split; [done|]. exists c'. split_and!; [done|done|by apply (backed_kept _ _ _ _ _ Hp K)].
Qed.

(** An assertion that what is only added keeps. *)
Definition steady (I : CutState -> Prop) : Prop := forall s fs', I s -> stays (disk s) fs' -> I (set_disk fs' s).

Lemma steady_good : steady good. Proof. intros s fs' H S. by apply good_stays. Qed.

Lemma steady_and I (J : FS -> Prop) : steady I -> (forall fs fs', stays fs fs' -> J fs -> J fs') -> steady (fun s => I s /\ J (disk s)).
Proof. intros HI HJ s fs' [Hi Hj] S. split; [by apply HI|by apply (HJ (disk s))]. Qed.

Lemma steady_look I {A} (m : M FS A) : steady I -> (forall J, preserves J m) -> preserves I (on_disk m).
Proof.
  intros HI Hm. apply preserves_zoom. intros s Hs. exists (eq (disk s)). split_and!; [done| |apply Hm]. intros fs <-. by apply HI.
Qed.

(** An assertion that holds through whatever only reads the disk. *)
Definition only_looks (I : CutState -> Prop) : Prop := forall A (m : M FS A), (forall J, preserves J m) -> preserves I (on_disk m).

Lemma steady_looks I : steady I -> only_looks I.
Proof. intros HI A m Hm. by apply (steady_look I). Qed.

Lemma steady_grows I {A} (m : M FS A) : steady I -> (forall fs, triple (eq fs) m (fun _ => stays fs) (stays fs)) -> preserves I (on_disk m).
Proof.
  intros HI Hm. apply triple_preserves, disk_triple. intros s Hs. eapply triple_weaken; [apply Hm|done|intros a fs S; exact (HI s fs Hs S)|intros fs S; exact (HI s fs Hs S)].
Qed.

Section Env.
Context (cwd : Canonical) (arrange : list string -> list string).

Ltac env_looks :=
  unfold env_exists, env_is_file, env_is_dir, env_read, env_read_dir, env_canonicalize, exists_;
  repeat (look_steps; try done; unfold read_dir, Paths.metadata, env_exists, exists_; look_steps).

Lemma exists_looks J p : preserves J (env_exists cwd p). Proof. env_looks. Qed.
Lemma is_file_looks J p : preserves J (env_is_file cwd p). Proof. env_looks. Qed.
Lemma is_dir_looks J p : preserves J (env_is_dir cwd p). Proof. env_looks. Qed.
Lemma env_read_looks J path : preserves J (env_read cwd path). Proof. env_looks. Qed.
Lemma read_dir_looks J path : preserves J (env_read_dir cwd arrange path). Proof. env_looks. Qed.
Lemma canonicalize_looks J path : preserves J (env_canonicalize cwd path). Proof. env_looks. Qed.

Lemma directories_look I root l : only_looks I -> preserves I (are_directories cwd root l).
Proof.
  intros L. induction l as [|n l IH]; simpl; [apply preserves_ret|]. apply preserves_bind; [apply L; intros; apply is_dir_looks|].
  intros d. apply preserves_bind; [done|]. intros more. apply preserves_ret.
Qed.
Lemma locks_look I l acc : only_looks I -> preserves I (lock_paths cwd l acc).
Proof.
  intros L. revert acc. induction l as [|p l IH]; intros acc; simpl; [apply preserves_ret|]. destruct (parent_text p); [|apply IH].
  apply preserves_bind; [apply L; intros; apply exists_looks|]. intros [|]; [|apply IH].
  apply preserves_bind; [apply L; intros; apply canonicalize_looks|]. intros lock. apply IH.
Qed.
Lemma discover_looks I root : only_looks I -> preserves I (discover_stores cwd arrange root).
Proof.
  intros L. unfold discover_stores. cbv zeta. apply preserves_bind; [apply L; intros; apply exists_looks|]. intros [|]; simpl; [|apply preserves_ret].
  apply preserves_bind; [apply L; intros; apply is_dir_looks|]. intros [|]; simpl; [|apply preserves_fail].
  apply preserves_bind; [apply L; intros; apply read_dir_looks|]. intros names.
  apply preserves_bind; [by apply directories_look|intros; apply preserves_ret].
Qed.

Lemma acquire_stays p shown fs : triple (eq fs) (acquire_jobs_lock cwd p shown) (fun _ => stays fs) (stays fs).
Proof.
  unfold acquire_jobs_lock. apply (triple_bind _ _ _ (fun _ => stays fs)).
  - unfold open_or_create. apply triple_call; [by intros s m <-|]. intros s <-. destruct (resolve cwd true p fs) as [q|e]; [|done].
    destruct (nodes fs !! q) as [[i| |t]|] eqn:N; try done. by apply put_new_stays.
  - intros [u|e]; [|by apply triple_fail]. apply (triple_bind _ _ _ (fun _ => stays fs)); [by apply triple_call|].
    intros [v|e]; [by apply triple_ret|by apply triple_fail].
Qed.

Lemma read_spec path fs :
  triple (eq fs) (env_read cwd path)
    (fun c s => s = fs /\ forall q c', file_at fs q c' -> replaced cwd path fs q -> c' = c) (eq fs).
Proof.
  unfold env_read, read_file. eapply triple_bind; [apply triple_look|]. intros [c|e]; [|by apply triple_fail; intros s [<- _]].
  apply triple_ret. intros s [<- [E|[m E]]]; [|done]. split; [done|]. intros q c' (i & Nq & C) [R _].
  destruct (resolve cwd false (path_of path) fs) as [r|e]; [|done]. specialize (R r eq_refl). subst r. rewrite Nq in E. injection E as <-. done.
Qed.
End Env.

Section Operations.
Context (cwd : Canonical) (arrange : list string -> list string) (uuid : string -> nat -> string) (partial : string) (fuel : nat).
Context `{Sqlite} `{CronLibs} (decode_error : value -> string) (tick : nat -> Z) (stamp : Z -> string) (operation_id : string) (journal_exists : bool).
Context (injective : forall a b, sha256_hex sha256 a = sha256_hex sha256 b -> a = b) (no_json : forall v, parse_json "" <> Ok v).
Context (uuid_name : forall p k, free_of "/" (uuid p k) = true) (stamp_name : forall t, free_of "/" (stamp t) = true).

Section Kept.
(** What of the disk an operation relies on, beside [good]. *)
Context (J : FS -> Prop) (J_stays : forall fs fs', stays fs fs' -> J fs -> J fs').
Local Notation I := (fun s : CutState => good s /\ J (disk s)).

Lemma I_steady : steady I. Proof. apply steady_and; [apply steady_good|done]. Qed.

Lemma now_keeps : preserves I (env_now tick).
Proof. apply preserves_mem. intros s H1. exact H1. Qed.

Lemma tables_keep f : (forall s, disk (f s) = disk s /\ (forall r, r ∈ legs (f s) -> leg_ok (disk s) r \/ r ∈ legs s)) ->
  preserves I (stmt (fun s => (tt, f s))).
Proof.
  intros Hf. apply preserves_stmt. intros s [[G L] Hj]. destruct (Hf s) as [E Hl]. simpl. rewrite E. split; [|done]. split; [by rewrite E|].
  intros r Hr. rewrite E. destruct (Hl r Hr); auto.
Qed.

Lemma phase_keeps p op path now : preserves I (set_phase p op path now).
Proof.
  apply preserves_stmt. intros s [[G L] Hj]. simpl. split; [split; [done|]|done]. simpl. intros r Hr.
  apply in_update_where in Hr as (r0 & Hr0 & ->). destruct (L r0 Hr0) as (? & c & ? & ? & ?). destruct (_ && _); (split; [done|]; by exists c).
Qed.
Lemma status_keeps st op now : preserves I (set_status st op now).
Proof. apply preserves_stmt. intros s H1. exact H1. Qed.
Lemma authority_keeps p auth now : preserves I (set_authority p auth now).
Proof. apply preserves_stmt. intros s H1. exact H1. Qed.

Lemma lock_paths_keep l acc : preserves I (lock_paths cwd l acc).
Proof. apply (locks_look cwd I), steady_looks, I_steady. Qed.
Lemma acquire_keeps p : preserves I (acquire cwd p).
Proof. apply (steady_grows I); [apply I_steady|apply acquire_stays]. Qed.
Lemma are_directories_keep root l : preserves I (are_directories cwd root l).
Proof. apply (directories_look cwd I), steady_looks, I_steady. Qed.
Lemma check_jobs_spec profile l :
  triple I (check_jobs sha256 profile l) (fun r s => I s /\ r.1.1 = map id_of l) I.
Proof.
  induction l as [|job l IH]; cbn [check_jobs]; [by apply triple_ret|].
  eapply triple_bind; [apply triple_preserves, preserves_query|]. intros row. eapply triple_bind; [exact IH|].
  intros [[ids un] dg]. apply triple_pure. intros E. simpl in E. apply triple_ret. intros s Hs. split; [done|].
  destruct (match row with None => false | Some _ => _ end); simpl; by rewrite E.
Qed.

Lemma discover_spec root : triple I (discover_stores cwd arrange root) (fun l s => I s /\ Forall (fun e => a_store e.2) l) I.
Proof.
  unfold discover_stores. cbv zeta.
  eapply triple_bind; [apply triple_preserves, (steady_look I); [apply I_steady|intros; apply exists_looks]|]. intros [|]; simpl;
    [|apply triple_ret; intros s Hs; split; [done|]; apply Forall_singleton, jobs_path_is_store].
  eapply triple_bind; [apply triple_preserves, (steady_look I); [apply I_steady|intros; apply is_dir_looks]|]. intros [|]; simpl; [|by apply triple_fail].
  eapply triple_bind; [apply triple_preserves, (steady_look I); [apply I_steady|intros; apply read_dir_looks]|]. intros names.
  eapply triple_bind; [apply triple_preserves, are_directories_keep|]. intros dirs. apply triple_ret. intros s Hs. split; [done|].
  constructor; [apply jobs_path_is_store|]. apply Forall_map, List.Forall_forall. intros n _. apply jobs_path_is_store.
Qed.

(** *** A store, prepared *)

(** Whatever name a backup of it gets is no store's. *)
Definition backup_ok (candidate : string) : Prop := forall got, candidate_of uuid candidate got -> exists n, named n got /\ n <> "jobs.json".
Definition prep_ok (p : Prepared) : Prop :=
  a_store (pr_path p) /\ (job_ids p <> [] -> original_bytes p <> "") /\ backup_ok (backup_candidate p).

Lemma step_of_long b : (2 < len b)%nat -> step_of b = Name b.
Proof.
  intros Hb. unfold step_of. destruct (String.eqb_spec b ""), (String.eqb_spec b "."), (String.eqb_spec b ".."); subst; simpl in *; lia || done.
Qed.

Lemma backup_name_ok dir t : backup_ok (push dir (lossy_text "jobs.json" ++ ".bak-omon-migration-" ++ stamp t)).
Proof.
  assert (E : lossy_text "jobs.json" = "jobs.json") by (vm_compute; reflexivity). rewrite E. set (b := "jobs.json" ++ ".bak-omon-migration-" ++ stamp t).
  assert (Hb : free_of "/" b = true) by (unfold b; rewrite !free_of_app, stamp_name; done).
  assert (Hn : forall c, free_of "/" c = true -> named (b ++ c) (push dir (b ++ c)) /\ b ++ c <> "jobs.json").
  { intros c Hc. split.
    - apply push_named. split; [by rewrite free_of_app, Hb, Hc|]. apply step_of_long. unfold b. rewrite !len_app. simpl. lia.
    - intros X. apply (f_equal len) in X. unfold b in X. rewrite !len_app in X. simpl in X. lia. }
  intros got [->|[k ->]].
  - destruct (Hn "" eq_refl) as [H1 H2]. rewrite app_nil_r_str in H1, H2. by exists b.
  - rewrite push_more by done. eexists. apply Hn. rewrite free_of_app, uuid_name. done.
Qed.

Lemma prepare_spec e :
  a_store e.2 -> triple I (prepare_store cwd sha256 decode_error tick stamp e) (fun p s => I s /\ prep_ok p /\ pr_path p = e.2) I.
Proof.
  destruct e as [profile path]. simpl. intros Hp. unfold prepare_store.
  assert (Looked : forall A (m : M FS A), (forall J, preserves J m) -> triple I (on_disk m) (fun _ => I) I).
  { intros A m Hm. apply triple_preserves, (steady_look I); [apply I_steady|done]. }
  eapply triple_bind; [apply Looked; intros; apply exists_looks|]. intros there.
  eapply triple_bind with (R := fun _ => I).
  { destruct there; [|by apply triple_ret]. eapply triple_bind; [apply Looked; intros; apply is_file_looks|].
    intros [|]; [apply Looked; intros; apply env_read_looks|by apply triple_fail]. }
  intros bytes. eapply triple_bind with (R := fun missing s => I s /\ (missing = true -> bytes = "")).
  { destruct (String.eqb_spec bytes "") as [->|]; [|by apply triple_ret]. eapply triple_bind; [apply Looked; intros; apply exists_looks|].
    intros x. by apply triple_ret. }
  intros missing. apply triple_pure. intros Hm.
  eapply triple_bind with (R := fun l s => I s /\ (l <> [] -> bytes <> "")).
  { destruct missing; [by apply triple_ret|]. intros w Hw. unfold lift. destruct (parse_store_jobs decode_error path bytes) as [l|x] eqn:E; [|done].
    split; [done|]. intros _ ->. revert E. unfold parse_store_jobs. pose proof no_json as Nj. destruct (parse_json "") as [v|x]; [by destruct (Nj v)|done]. }
  intros l. apply triple_pure. intros Hl. eapply triple_bind; [apply check_jobs_spec|]. intros [[ids un] dg]. apply triple_pure. intros Ei. simpl in Ei.
  apply triple_bind_lift; [done|]. intros dir _. apply triple_bind_lift; [done|]. intros name Hname.
  eapply triple_bind; [apply triple_preserves, now_keeps|]. intros t. eapply triple_bind; [apply triple_preserves, now_keeps|]. intros u.
  apply triple_ret. intros s Hs. split; [done|]. split; [|done]. split; [done|]. split; simpl.
  - intros Hi. apply Hl. intros ->. by destruct Hi.
  - rewrite (named_file_name "jobs.json" path) in Hname by by apply a_store_named. injection Hname as <-. apply backup_name_ok.
Qed.

Lemma prepare_all_spec l :
  Forall (fun e => a_store e.2) l -> triple I (prepare_all cwd sha256 decode_error tick stamp l) (fun ps s => I s /\ Forall prep_ok ps) I.
Proof.
  induction 1 as [|e l He _ IH]; cbn [prepare_all]; [by apply triple_ret|]. eapply triple_bind; [by apply prepare_spec|]. intros p.
  apply triple_pure. intros [Hp _]. eapply triple_bind; [exact IH|]. intros ps. apply triple_pure. intros Hps. apply triple_ret. intros s Hs.
  split; [done|]. by constructor.
Qed.
End Kept.

(** *** Backups, the receipt and the rewriting *)

Definition saved (l : list (Prepared * string)) (fs : FS) : Prop := Forall (fun e => backed fs (original_bytes e.1)) l.

Lemma saved_stays l fs fs' : stays fs fs' -> saved l fs -> saved l fs'.
Proof. intros S. apply List.Forall_impl. intros e. by apply backed_stays. Qed.

Lemma back_up_spec l J :
  (forall fs fs', stays fs fs' -> J fs -> J fs') -> Forall prep_ok l ->
  triple (fun s => good s /\ J (disk s)) (back_up cwd uuid partial fuel l)
    (fun bl s => (good s /\ J (disk s)) /\ saved bl (disk s) /\ map fst bl = l) good.
Proof.
  intros HJ HP. revert J HJ. induction HP as [|p l (Hs & Hb & Hn) HP IH]; intros J HJ; cbn [back_up].
  { apply triple_ret. intros s Hs. split_and!; [apply Hs..|constructor|done]. }
  set (J' := fun fs => J fs /\ backed fs (original_bytes p)).
  assert (HJ' : forall fs fs', stays fs fs' -> J' fs -> J' fs') by (intros fs fs' S [H1 H2]; split; [by apply (HJ fs)|by apply (backed_stays fs)]).
  eapply triple_bind with (R := fun _ s => good s /\ J' (disk s)).
  - apply disk_triple. intros s [G Hj]. unfold write_unique.
    eapply triple_weaken; [apply unique_spec; by left|done|..].
    + intros got fs (S & Hc & q & E & _ & Hq & _). destruct (Hn got Hc) as (n & [above Ea] & Hne).
      split; [by apply good_stays|]. split; [by apply (HJ (disk s))|]. exists q. split; [done|]. rewrite (entry_name _ _ _ _ _ _ Ea E). congruence.
    + intros fs S. by apply good_stays.
  - intros path. eapply triple_bind; [by apply (IH J')|]. intros more. apply triple_ret. intros s ([G [Hj Hk]] & Hm & E).
    split; [done|]. split; [by constructor|]. simpl. by rewrite E.
Qed.

Section Backed.
Context (l : list (Prepared * string)) (ready : Forall (fun e => prep_ok e.1 /\ job_ids e.1 <> []) l).
Local Notation I := (fun s : CutState => good s /\ saved l (disk s)).

Lemma leg_of_ok now e s : I s -> e ∈ l -> leg_ok (disk s) (leg_of sha256 operation_id now e).
Proof.
  intros [_ B] He. pose proof (proj1 (List.Forall_forall _ _) ready e (proj1 (list_elem_of_In _ _) He)) as [(Hp & Hb & _) Hj].
  pose proof (proj1 (List.Forall_forall _ _) B e (proj1 (list_elem_of_In _ _) He)) as Hk.
  split; [by apply lossy_store|]. exists (original_bytes e.1). split_and!; [by apply Hb|done|done].
Qed.

Lemma record_keeps now : triple I (record_receipt sha256 operation_id l now) (fun _ => I) I.
Proof.
  unfold record_receipt. eapply triple_transaction with (E := I). apply triple_preserves. apply preserves_bind.
  - unfold insert_receipt. apply preserves_exec. intros s Hs. destruct (existsb _ _); [done|exact Hs].
  - intros _. apply preserves_bind.
    + apply triple_preserves, triple_for_each; [done|]. intros e He. apply triple_preserves. unfold insert_leg. apply preserves_exec.
      intros s Hs. destruct (existsb _ _); [done|]. simpl. destruct Hs as [[G L] B]. split; [split; [done|]|done]. simpl.
      intros r [Hr|Hr%list_elem_of_singleton]%elem_of_app; [by apply L|]. subst r. by apply leg_of_ok.
    + intros _. apply preserves_for_each. intros id. by apply authority_keeps.
Qed.

Lemma rewrite_keeps e :
  e ∈ l -> triple I (rewrite_store cwd uuid partial fuel tick operation_id e) (fun _ => I) good.
Proof.
  intros He. pose proof (proj1 (List.Forall_forall _ _) ready e (proj1 (list_elem_of_In _ _) He)) as [(Hp & _ & _) _].
  unfold rewrite_store, env_write.
  eapply triple_bind with (R := fun c s => I s /\ forall q c', file_at (disk s) q c' -> replaced cwd (pr_path e.1) (disk s) q -> c' = c).
  { apply disk_triple. intros s [G B]. eapply triple_weaken; [apply read_spec|done|..].
    - intros c fs [-> U]. split; [by destruct s|]. exact U.
    - intros fs <-. by destruct s. }
  intros c. destruct (String.eqb_spec c (original_bytes e.1)) as [->|]; [|by apply triple_fail; intros s [[? _] _]]. simpl.
  eapply triple_bind with (R := fun _ => I).
  { apply disk_triple. intros s [[G B] U].
    assert (K : forall fs', kept_but cwd (pr_path e.1) (disk s) fs' -> good (set_disk fs' s) /\ saved l fs').
    { intros fs' K. split.
      - apply (good_replace cwd s (pr_path e.1) (original_bytes e.1)); try done.
        exact (proj1 (List.Forall_forall _ _) B e (proj1 (list_elem_of_In _ _) He)).
      - revert B. apply List.Forall_impl. intros e'. by apply backed_kept with cwd (pr_path e.1). }
    eapply triple_weaken; [apply write_atomic_spec|done|..]; [intros u fs' H1; by apply K|intros fs' H1; by apply K]. }
  intros _. eapply triple_bind; [apply triple_keep; [apply (now_keeps (saved l))|by intros s []]|]. intros now.
  apply triple_keep; [apply (phase_keeps (saved l))|by intros s []].
Qed.

Lemma commit_keeps ids : preserves good (commit_ownership tick operation_id ids).
Proof.
  assert (Drop : forall A (m : M CutState A), preserves (fun s => good s /\ True) m -> preserves good m)
    by (intros A m Hm w Hw; by apply (Hm w)).
  unfold commit_ownership. apply preserves_transaction. apply preserves_bind; [apply Drop, (now_keeps (fun _ => True))|]. intros now.
  apply preserves_bind; [apply Drop, (status_keeps (fun _ => True))|]. intros _.
  apply preserves_bind; [apply Drop, (phase_keeps (fun _ => True))|]. intros _.
  apply preserves_for_each. intros id. apply Drop, (authority_keeps (fun _ => True)).
Qed.
End Backed.

Lemma hand_over_keeps prepared :
  Forall prep_ok prepared ->
  triple good (hand_over cwd uuid partial fuel sha256 tick operation_id prepared) (fun _ => good) good.
Proof.
  intros HP. unfold hand_over. destruct (List.find _ prepared); [by apply triple_fail|].
  destruct (List.filter _ prepared) as [|p l] eqn:E; [by apply triple_ret|]. rewrite <- E in *.
  set (l' := List.filter (fun p => negb (is_empty (job_ids p))) prepared) in *.
  assert (HL : Forall (fun p => prep_ok p /\ job_ids p <> []) l').
  { apply List.Forall_forall. intros x [Hx Hj]%List.filter_In. split; [by apply (proj1 (List.Forall_forall _ _) HP)|]. by destruct (job_ids x). }
  eapply triple_bind.
  { eapply triple_weaken; [apply (back_up_spec l' (fun _ => True)); [done|]|by intros s Hs|intros bl s H1; exact H1|done].
    revert HL. apply List.Forall_impl. by intros x []. }
  intros bl. eapply triple_weaken with (P := fun s => (good s /\ saved bl (disk s)) /\ map fst bl = l');
    [apply triple_pure; intros Em|intros s ([G1 J1] & B1 & E1); exact (conj (conj G1 B1) E1)|intros a s H1; exact H1|done].
  assert (HB : Forall (fun e => prep_ok e.1 /\ job_ids e.1 <> []) bl) by (rewrite <- Em in HL; by apply Forall_map in HL).
  eapply triple_bind; [apply triple_keep; [apply (now_keeps (saved bl)); apply saved_stays|by intros s []]|]. intros now.
  eapply triple_bind; [eapply triple_weaken; [by apply (record_keeps bl HB)|done|intros a s H1; exact H1|by intros s []]|]. intros [].
  eapply triple_bind; [apply (triple_for_each (fun s => good s /\ saved bl (disk s)) good); [by intros s []|intros e He; by apply rewrite_keeps]|].
  intros []. eapply triple_weaken; [apply triple_keep; [apply commit_keeps|done]|by intros s []|done|done].
Qed.

(** *** Recovery *)

Lemma journaled_rows rows l : journaled_bytes sha256 rows = Ok l -> map fst l = rows.
Proof.
  revert l. induction rows as [|r rows IH]; intros l; simpl; [by intros [= <-]|]. destruct (replacement_bytes r); [|done].
  destruct (negb _); [done|]. destruct (journaled_bytes sha256 rows) as [l'|e]; [|done]. intros [= <-]. simpl. by rewrite (IH l').
Qed.

Section Recovery.
Context (l : list (Leg * string)).
Definition known (fs : FS) : Prop := Forall (fun e => leg_ok fs e.1) l.
Local Notation I := (fun s : CutState => good s /\ known (disk s)).

Lemma known_stays fs fs' : stays fs fs' -> known fs -> known fs'.
Proof.
  intros S. apply List.Forall_impl. intros e (? & c & ? & ? & ?). split; [done|]. exists c. split_and!; [done|done|by apply (backed_stays fs)].
Qed.

Lemma replace_keeps op now e : e ∈ l -> triple I (replace_leg cwd uuid partial fuel sha256 op now e) (fun _ => I) good.
Proof.
  intros He. destruct e as [r bytes]. unfold replace_leg, env_write.
  assert (Looked : forall A (m : M FS A), (forall J, preserves J m) -> triple I (on_disk m) (fun _ => I) good).
  { intros A m Hm. apply triple_keep; [|by intros s []]. apply (steady_look I); [apply I_steady, known_stays|done]. }
  eapply triple_bind; [apply Looked; intros; apply exists_looks|]. intros there.
  eapply triple_bind with (R := fun c s => I s /\ (c <> "" -> forall q c', file_at (disk s) q c' -> replaced cwd (store_path r) (disk s) q -> c' = c)).
  { destruct there; [|by apply triple_ret]. apply disk_triple. intros s [G B]. eapply triple_weaken; [apply read_spec|done|..].
    - intros c fs [-> U]. split; [by destruct s|]. intros _. exact U.
    - intros fs <-. by destruct s. }
  intros c. destruct (String.eqb c bytes).
  { eapply triple_weaken; [apply triple_keep; [apply (phase_keeps known)|by intros s []]|by intros s []|done|done]. }
  destruct (String.eqb_spec (sha256_hex sha256 c) (original_hash r)) as [Eh|]; [|by apply triple_fail; intros s [[? _] _]].
  eapply triple_bind with (R := fun _ => I).
  { apply disk_triple. intros s [[G B] U].
    destruct (proj1 (List.Forall_forall _ _) B _ (proj1 (list_elem_of_In _ _) He)) as (Hp & c0 & Hc & Eo & Hk). simpl in *.
    assert (c = c0) as -> by (apply injective; congruence). specialize (U Hc).
    assert (K : forall fs', kept_but cwd (store_path r) (disk s) fs' -> good (set_disk fs' s) /\ known fs').
    { intros fs' K. split; [by apply (good_replace cwd s (store_path r) c0)|].
      revert B. apply List.Forall_impl. intros e' (? & c' & ? & ? & ?). split; [done|]. exists c'. split_and!; [done|done|].
      by apply backed_kept with cwd (store_path r) (disk s). }
    eapply triple_weaken; [apply write_atomic_spec|done|..]; [intros u fs' H1; by apply K|intros fs' H1; by apply K]. }
  intros []. apply triple_keep; [apply (phase_keeps known)|by intros s []].
Qed.
End Recovery.

Lemma drop_true {A} (m : M CutState A) : preserves (fun s => good s /\ True) m -> preserves good m.
Proof. intros Hm w Hw. by apply (Hm w). Qed.

Lemma reconcile_keeps :
  triple good (reconcile_pending_cutover cwd uuid partial fuel sha256 tick journal_exists) (fun _ => good) good.
Proof.
  unfold reconcile_pending_cutover. eapply triple_bind; [apply triple_preserves, preserves_query|]. intros [|]; simpl; [|by apply triple_ret].
  eapply triple_bind; [apply triple_preserves, preserves_query|]. intros [op|]; [|by apply triple_ret].
  eapply triple_bind with (R := fun rows s => good s /\ Forall (leg_ok (disk s)) rows).
  { eapply triple_weaken; [by apply (triple_query good)|done|..]; [|done]. intros rows s [-> [G L]]. split; [done|].
    apply List.Forall_forall. intros r Hr%list_elem_of_In. rewrite sort_by_perm in Hr. apply in_select in Hr as [Hr _]. by apply L. }
  intros rows. apply triple_bind_lift; [by intros s []|]. intros l Hl. apply journaled_rows in Hl. subst rows.
  eapply triple_weaken with (P := fun s => good s /\ known l (disk s)); [|intros s [G B]; split; [exact G|exact (proj1 (List.Forall_map fst _ l) B)]|intros a s H1; exact H1|intros s H1; exact H1].
  eapply triple_bind; [apply triple_keep; [apply (lock_paths_keep (known l)), known_stays|by intros s []]|]. intros locks.
  eapply triple_bind; [apply (triple_for_each (fun s => good s /\ known l (disk s)) good); [by intros s []|]; intros p _;
    apply triple_keep; [apply (acquire_keeps (known l)), known_stays|by intros s []]|]. intros [].
  eapply triple_bind; [apply triple_keep; [apply (now_keeps (known l))|by intros s []]|]. intros now.
  eapply triple_bind; [apply (triple_for_each (fun s => good s /\ known l (disk s)) good); [by intros s []|]; intros e He; by apply replace_keeps|].
  intros []. eapply triple_weaken with (P := good); [|by intros s []|intros a s H1; exact H1|intros s H1; exact H1].
  eapply triple_bind with (R := fun _ => good); [|intros u; by apply triple_ret].
  apply triple_preserves, preserves_transaction. apply preserves_bind; [apply drop_true, (now_keeps (fun _ => True))|]. intros t.
  apply preserves_bind; [apply drop_true, (status_keeps (fun _ => True))|]. intros _.
  apply preserves_bind; [apply drop_true, (phase_keeps (fun _ => True))|]. intros _. apply drop_true, (authority_keeps (fun _ => True)).
Qed.

Lemma cutover_keeps root dry_run :
  preserves good (cutover_cron_stores cwd arrange uuid partial fuel sha256 decode_error tick stamp operation_id journal_exists root dry_run).
Proof.
  apply triple_preserves. unfold cutover_cron_stores.
  eapply triple_bind with (R := fun _ => good).
  { destruct dry_run; [by apply triple_ret|]. eapply triple_bind; [apply reconcile_keeps|]. intros o. by apply triple_ret. }
  intros []. eapply triple_bind with (R := fun l s => good s /\ Forall (fun e => a_store e.2) l).
  { eapply triple_weaken; [apply (discover_spec (fun _ => True)); done|done|by intros l s [[? _] ?]|by intros s []]. }
  intros stores. apply triple_pure. intros Hs.
  eapply triple_bind with (R := fun _ => good); [apply triple_preserves, drop_true, (lock_paths_keep (fun _ => True)); done|]. intros locks.
  eapply triple_bind with (R := fun _ => good).
  { destruct dry_run; [by apply triple_ret|]. apply triple_preserves, preserves_for_each. intros p. apply drop_true, (acquire_keeps (fun _ => True)). done. }
  intros []. eapply triple_bind with (R := fun ps s => good s /\ Forall prep_ok ps).
  { eapply triple_weaken; [apply (prepare_all_spec (fun _ => True)); done|done|by intros ps s [[? _] ?]|by intros s []]. }
  intros prepared. apply triple_pure. intros Hp.
  eapply triple_bind with (R := fun _ => good); [|intros u; by apply triple_ret].
  destruct dry_run; [by apply triple_ret|by apply hand_over_keeps].
Qed.
End Operations.
End Good.

(** One attempt at the cutover: what it meets outside, and what it is asked. *)
Record Attempt : Type := mkAttempt {
  at_cwd : Canonical; at_arrange : list string -> list string; at_uuid : string -> nat -> string; at_partial : string; at_fuel : nat;
  at_tick : nat -> Z; at_stamp : Z -> string; at_operation : string; at_journal : bool; at_root : string; at_dry_run : bool;
  at_faults : list (option string)
}.
(** A uuid and a time have no slash in them. *)
Definition attempt_ok (a : Attempt) : Prop :=
  (forall p k, free_of "/" (at_uuid a p k) = true) /\ (forall t, free_of "/" (at_stamp a t) = true).

Section Attempts.
Context `{Sqlite} `{CronLibs} (sha256 : string -> string) (decode_error : value -> string).

Definition attempted (s : CutState) (a : Attempt) : CutState :=
  st (cutover_cron_stores (at_cwd a) (at_arrange a) (at_uuid a) (at_partial a) (at_fuel a) sha256 decode_error (at_tick a) (at_stamp a)
        (at_operation a) (at_journal a) (at_root a) (at_dry_run a) (mkWorld s (at_faults a))).2.

(** C39: However often the cutover is tried, and wherever each attempt stops,
    no file's bytes are lost: what any file held before the first attempt, some
    file holds after the last, the stores that were emptied included, although
    recoveries overwrite them from the journal.  Assumed: no two texts have one
    digest, the empty text is no JSON, uuids and times are one path component. *)
Theorem no_store_is_lost attempts s :
  (forall a b, sha256_hex sha256 a = sha256_hex sha256 b -> a = b) -> (forall v, parse_json "" <> Ok v) -> Forall attempt_ok attempts ->
  (forall r, r ∈ legs s -> leg_ok sha256 (disk s) r) ->
  forall q c, file_at (disk s) q c -> exists q', file_at (disk (fold_left attempted attempts s)) q' c.
Proof.
  intros Inj Nj HA HL q c Hq.
  assert (G : good sha256 (disk s) (fold_left attempted attempts s)).
  { assert (G0 : good sha256 (disk s) s) by (split; [by left|done]). revert G0. generalize s at 2 4. clear Hq HL.
    induction HA as [|a l [Hu Ht] _ IH]; intros s' G; simpl; [done|]. apply IH. unfold attempted.
    by apply (cutover_keeps sha256 (disk s) (at_cwd a) (at_arrange a) (at_uuid a) (at_partial a) (at_fuel a) decode_error (at_tick a) (at_stamp a)
      (at_operation a) (at_journal a) Inj Nj Hu Ht (at_root a) (at_dry_run a) (mkWorld s' (at_faults a))). }
  destruct (proj1 G q c Hq) as [?|(q' & ? & _)]; [by exists q|by exists q'].
Qed.
End Attempts.

(** ** No job is left without an owner *)

(** What the table says of a job of a store: imported under its id, as it is. *)
Definition imported_row `{CronLibs} (profile : string) (job : value) (r : CronJob) : Prop :=
  job_id r = import_id profile (id_of job) /\
  canonical_job_payload_matches job (match parse_json (payload_json r) with Ok v => v | Err _ => JNull end) = true.

Section Owned.
Context (cwd : Canonical) (arrange : list string -> list string) (uuid : string -> nat -> string) (partial : string) (fuel : nat).
Context `{Sqlite} `{CronLibs} (sha256 : string -> string) (decode_error : value -> string) (tick : nat -> Z) (stamp : Z -> string)
  (operation_id : string).
(** The table and the disk at the start. *)
Context (rows0 : list CronJob) (fs0 : FS).

(** The rows of the start are there, with their payloads; those of [ids] are in one of the hands [auths]. *)
Definition in_hands (auths ids : list string) (s : CutState) : Prop :=
  forall r0, r0 ∈ rows0 -> exists r, r ∈ jobs (crons s) /\ job_id r = job_id r0 /\ payload_json r = payload_json r0 /\
    (job_id r0 ∈ ids -> authority r ∈ auths).

Lemma in_hands_set auths ids (p : CronJob -> bool) auth now s :
  (auth ∈ auths \/ forall r, p r = true -> job_id r ∈ ids -> auth ∈ auths) ->
  in_hands auths ids s -> in_hands auths ids (set_crons (set_jobs (update_where p (authority_set auth now))) s).
Proof.
  intros Ha HI r0 Hr0. destruct (HI r0 Hr0) as (r & Hr & Ei & Ep & Hh). exists (if p r then authority_set auth now r else r). split.
  - apply in_update_where. by exists r.
  - destruct (p r) eqn:E; simpl; [|done]. split_and!; [done..|]. intros Hi. destruct Ha as [?|Ha]; [done|]. apply (Ha r E). by rewrite Ei.
Qed.

Lemma in_hands_more auths ids id auth now s :
  auth ∈ auths -> in_hands auths ids s ->
  in_hands auths (id :: ids) (set_crons (set_jobs (update_where (is_job id) (authority_set auth now))) s).
Proof.
  intros Ha HI r0 Hr0. destruct (HI r0 Hr0) as (r & Hr & Ei & Ep & Hh). exists (if is_job id r then authority_set auth now r else r). split.
  - apply in_update_where. by exists r.
  - destruct (is_job id r) eqn:E; simpl; [done|]. split_and!; [done..|]. intros [Hi|Hi]%elem_of_cons; [|by apply Hh].
    unfold is_job in E. rewrite Ei, Hi, String.eqb_refl in E. done.
Qed.

(** Assertions that the statements below do not touch. *)
Definition apart (J : CutState -> Prop) : Prop :=
  forall s s', disk s' = disk s -> J s -> J s'.

Lemma authority_each J auths auth now ids done :
  apart J -> auth ∈ auths ->
  triple (fun s => J s /\ in_hands auths done s) (for_each (fun id => set_authority (is_job id) auth now) ids)
    (fun _ s => J s /\ in_hands auths ids s /\ in_hands auths done s) (fun s => J s /\ in_hands auths done s).
Proof.
  intros HJ Ha.
  enough (G : forall d, triple (fun s => J s /\ in_hands auths done s /\ in_hands auths d s) (for_each (fun id => set_authority (is_job id) auth now) ids)
    (fun _ s => J s /\ in_hands auths done s /\ in_hands auths (rev ids ++ d) s) (fun s => J s /\ in_hands auths done s)).
  { eapply triple_weaken; [apply (G [])|..].
    - intros s [Hj Hd]. split_and!; [done..|]. intros r0 Hr0. destruct (Hd r0 Hr0) as (r & ? & ? & ? & _). exists r. by split_and!; [..|intros ?%not_elem_of_nil].
    - intros u s (Hj & Hd & Hi). split_and!; [done| |done]. intros r0 Hr0. destruct (Hi r0 Hr0) as (r & ? & ? & ? & Hh). exists r. split_and!; [done..|].
      intros ?. apply Hh. rewrite app_nil_r. apply list_elem_of_In, List.in_rev. rewrite rev_involutive. by apply list_elem_of_In.
    - done. }
  induction ids as [|id ids IH]; intros d; simpl; [by apply triple_ret|].
  eapply triple_bind with (R := fun _ s => J s /\ in_hands auths done s /\ in_hands auths (id :: d) s).
  - apply triple_stmt; [by intros s (? & ? & _)|]. intros s (Hj & Hd & Hi). simpl. split_and!; [by apply (HJ s)| |by apply in_hands_more].
    apply in_hands_set; [by left|done].
  - intros []. rewrite <- app_assoc. apply (IH (id :: d)).
Qed.

(** What a prepared store holds. *)
Definition describes (p : Prepared) : Prop :=
  job_ids p = [] \/ exists l, parse_store_jobs decode_error (pr_path p) (original_bytes p) = Ok l /\ map id_of l = job_ids p /\
    (unverified_jobs p = [] -> forall job, job ∈ l -> exists r, r ∈ rows0 /\ imported_row (pr_profile p) job r).

(** Before the receipt: the table as it was, the files all there. *)
Definition untouched (s : CutState) : Prop := jobs (crons s) = rows0 /\ stays fs0 (disk s).

Lemma untouched_steady : steady untouched.
Proof. intros s fs' [E S] S'. split; [done|]. by etrans. Qed.

Lemma check_jobs_describes profile l :
  triple untouched (check_jobs sha256 profile l)
    (fun r s => untouched s /\ r.1.1 = map id_of l /\
       (r.1.2 = [] -> forall job, job ∈ l -> exists row, row ∈ rows0 /\ imported_row profile job row)) untouched.
Proof.
  induction l as [|job l IH]; cbn [check_jobs].
  { apply triple_ret. intros s Hs. split_and!; [done..|]. by intros _ job ?%not_elem_of_nil. }
  eapply triple_bind; [by apply (triple_query untouched)|]. intros row.
  eapply triple_weaken with (P := fun s => untouched s /\ row = (payload_json <$> head (select (is_job (import_id profile (id_of job))) rows0)));
    [apply triple_pure; intros Erow|by intros s [-> [E S]]; rewrite E|intros a s H1; exact H1|done].
  eapply triple_bind; [exact IH|]. intros [[ids un] dg]. apply triple_pure. intros [E1 E2]. simpl in E1, E2. apply triple_ret. intros s Hs. split; [done|].
  destruct row as [text|] eqn:Ex; simpl; [|by rewrite E1]. destruct (canonical_job_payload_matches job _) eqn:Em; simpl; [|by rewrite E1]. rewrite E1. split; [done|].
  intros Hu j [->|Hj]%elem_of_cons; [|by apply E2]. symmetry in Erow. apply fmap_Some in Erow as (r & Hr & ->).
  apply head_select in Hr as [Hr Hi]. exists r. split; [done|]. split; [by apply String.eqb_eq|done].
Qed.

Lemma prepare_describes e :
  triple untouched (prepare_store cwd sha256 decode_error tick stamp e) (fun p s => untouched s /\ describes p) untouched.
Proof.
  destruct e as [profile path]. unfold prepare_store.
  assert (Looked : forall A (m : M FS A), (forall J, preserves J m) -> triple untouched (on_disk m) (fun _ => untouched) untouched).
  { intros A m Hm. apply triple_preserves, (steady_look untouched); [apply untouched_steady|done]. }
  eapply triple_bind; [apply Looked; intros; apply exists_looks|]. intros there.
  eapply triple_bind with (R := fun _ => untouched).
  { destruct there; [|by apply triple_ret]. eapply triple_bind; [apply Looked; intros; apply is_file_looks|].
    intros [|]; [apply Looked; intros; apply env_read_looks|by apply triple_fail]. }
  intros bytes. eapply triple_bind with (R := fun _ => untouched).
  { destruct (String.eqb bytes ""); [|by apply triple_ret]. eapply triple_bind; [apply Looked; intros; apply exists_looks|]. intros x. by apply triple_ret. }
  intros missing. eapply triple_bind with (R := fun l s => untouched s /\ (l = [] \/ parse_store_jobs decode_error path bytes = Ok l)).
  { destruct missing; [apply triple_ret; intros s Hs; split; [done|by left]|]. intros w Hw. unfold lift. destruct (parse_store_jobs decode_error path bytes) as [l|x]; [|done].
    split; [done|by right]. }
  intros l. apply triple_pure. intros Hl. eapply triple_bind; [apply check_jobs_describes|]. intros [[ids un] dg]. apply triple_pure. intros [Ei Hi]. simpl in Ei, Hi.
  apply triple_bind_lift; [done|]. intros dir _. apply triple_bind_lift; [done|]. intros name _.
  assert (Now : triple untouched (env_now tick) (fun _ => untouched) untouched) by (apply triple_preserves, preserves_mem; intros s Hs; exact Hs).
  eapply triple_bind; [exact Now|]. intros t. eapply triple_bind; [exact Now|]. intros u. apply triple_ret. intros s Hs. split; [done|].
  unfold describes. simpl. destruct Hl as [->|Hl]; [left; by rewrite Ei|]. right. by exists l.
Qed.

Lemma prepare_all_describes l :
  triple untouched (prepare_all cwd sha256 decode_error tick stamp l) (fun ps s => untouched s /\ Forall describes ps) untouched.
Proof.
  induction l as [|e l IH]; cbn [prepare_all]; [apply triple_ret; intros s Hs; by split|]. eapply triple_bind; [apply prepare_describes|]. intros p.
  apply triple_pure. intros Hp. eapply triple_bind; [exact IH|]. intros ps. apply triple_pure. intros Hps. apply triple_ret. intros s Hs.
  split; [done|]. by constructor.
Qed.

Lemma back_up_untouched l :
  triple untouched (back_up cwd uuid partial fuel l) (fun bl s => untouched s /\ map fst bl = l) untouched.
Proof.
  induction l as [|p l IH]; cbn [back_up]; [by apply triple_ret|]. eapply triple_bind with (R := fun _ => untouched).
  - apply triple_preserves, (steady_grows untouched); [apply untouched_steady|]. intros fs. unfold write_unique.
    eapply triple_weaken; [apply unique_spec; by left|done|by intros got s (? & _)|done].
  - intros path. eapply triple_bind; [exact IH|]. intros bl. apply triple_pure. intros E. apply triple_ret. intros s Hs. split; [done|]. simpl. by rewrite E.
Qed.

(** After the receipt: a file that is gone was a store of [bl], whose jobs are in hand. *)
Definition HANDS : list string := ["cutover_pending"; "omon_owned"].
Definition gone_were (bl : list (Prepared * string)) (fs : FS) : Prop :=
  forall q c, file_at fs0 q c -> file_at fs q c \/ exists e, e ∈ bl /\ c = original_bytes e.1.
Definition accounted (auths : list string) (bl : list (Prepared * string)) (s : CutState) : Prop :=
  in_hands auths (all_ids bl) s /\ gone_were bl (disk s).

Lemma record_accounts bl now :
  triple untouched (record_receipt sha256 operation_id bl now) (fun _ => accounted HANDS bl) untouched.
Proof.
  unfold record_receipt. eapply triple_transaction with (E := fun _ => True).
  eapply triple_bind with (R := fun _ => untouched).
  { apply triple_exec; [done|]. intros s Hs. destruct (existsb _ _); [done|exact Hs]. }
  intros []. eapply triple_bind with (R := fun _ => untouched).
  { apply triple_for_each; [done|]. intros e _. apply triple_exec; [done|]. intros s Hs. destruct (existsb _ _); [done|exact Hs]. }
  intros []. eapply triple_weaken; [apply (authority_each (fun s => stays fs0 (disk s)) HANDS "cutover_pending" now (all_ids bl) []); [|set_solver]|..].
  - intros s s' E S. by rewrite E.
  - intros s [E S]. split; [done|]. intros r0 Hr0. exists r0. rewrite E. split_and!; [done..|]. by intros ?%not_elem_of_nil.
  - intros u s (S & Hi & _). split; [done|]. intros q c Hq. left. by apply S.
  - done.
Qed.

Lemma rewrite_accounts bl e :
  e ∈ bl -> triple (accounted HANDS bl) (rewrite_store cwd uuid partial fuel tick operation_id e) (fun _ => accounted HANDS bl) (accounted HANDS bl).
Proof.
  intros He. unfold rewrite_store, env_write, env_now, set_phase.
  eapply triple_bind with (R := fun c s => accounted HANDS bl s /\ forall q c', file_at (disk s) q c' -> replaced cwd (pr_path e.1) (disk s) q -> c' = c).
  { apply disk_triple. intros s Hs. eapply triple_weaken; [apply read_spec|done|..].
    - intros c fs [-> U]. split; [by destruct s|]. exact U.
    - intros fs <-. by destruct s. }
  intros c. destruct (String.eqb_spec c (original_bytes e.1)) as [->|]; [|by apply triple_fail; intros s [? _]]. simpl.
  eapply triple_bind with (R := fun _ => accounted HANDS bl).
  { apply disk_triple. intros s [[Hh G] U].
    assert (K : forall fs', kept_but cwd (pr_path e.1) (disk s) fs' -> accounted HANDS bl (set_disk fs' s)).
    { intros fs' K. split; [exact Hh|]. intros q c Hq. destruct (G q c Hq) as [Hf|?]; [|by right].
      destruct (K q c Hf) as [?|R]; [by left|]. right. exists e. split; [done|]. by apply (U q). }
    eapply triple_weaken; [apply write_atomic_spec|done|..]; [intros u fs' H1; by apply K|intros fs' H1; by apply K]. }
  intros []. eapply triple_bind with (R := fun _ => accounted HANDS bl); [by apply triple_mem; intros s Hs|].
  intros t. by apply triple_stmt.
Qed.

Lemma commit_accounts bl :
  triple (accounted HANDS bl) (commit_ownership tick operation_id (all_ids bl)) (fun _ => accounted ["omon_owned"] bl) (accounted HANDS bl).
Proof.
  unfold commit_ownership, env_now, set_status, set_phase. eapply triple_transaction with (E := fun _ => True).
  eapply triple_bind with (R := fun _ => accounted HANDS bl); [by apply triple_mem; intros s Hs|]. intros t.
  eapply triple_bind with (R := fun _ => accounted HANDS bl); [by apply triple_stmt|]. intros [].
  eapply triple_bind with (R := fun _ => accounted HANDS bl); [by apply triple_stmt|]. intros [].
  eapply triple_weaken; [apply (authority_each (fun s => gone_were bl (disk s)) ["omon_owned"] "omon_owned" t (all_ids bl) []); [|set_solver]|..].
  - intros s s' E S. by rewrite E.
  - intros s [Hi G]. split; [done|]. intros r0 Hr0. destruct (Hi r0 Hr0) as (r & ? & ? & ? & _). exists r. split_and!; [done..|]. by intros ?%not_elem_of_nil.
  - intros u s (S & Hi & _). by split.
  - done.
Qed.

(** *** The whole of it *)

(** The jobs of a store with the bytes [c] are in the table, as they are, in one of the hands [auths]. *)
Definition owned (auths : list string) (s : CutState) (c : string) : Prop :=
  exists profile path l, parse_store_jobs decode_error path c = Ok l /\
    forall job, job ∈ l -> exists r, r ∈ jobs (crons s) /\ imported_row profile job r /\ authority r ∈ auths.
Definition settled (auths : list string) (s : CutState) : Prop :=
  forall q c, file_at fs0 q c -> file_at (disk s) q c \/ owned auths s c.

(** A store fit to be emptied. *)
Definition fit (p : Prepared) : Prop := describes p /\ unverified_jobs p = [] /\ job_ids p <> [].

Lemma all_ids_has bl e id : e ∈ bl -> id ∈ job_ids e.1 -> import_id (pr_profile e.1) id ∈ all_ids bl.
Proof.
  intros He Hi. unfold all_ids. apply list_elem_of_In, List.in_concat. exists (map (import_id (pr_profile e.1)) (job_ids e.1)).
  split; [apply List.in_map_iff; exists e; split; [done|by apply list_elem_of_In]|]. by apply List.in_map, list_elem_of_In.
Qed.

Lemma accounted_settled auths bl s : Forall (fun e => fit e.1) bl -> accounted auths bl s -> settled auths s.
Proof.
  intros HF [HI G] q c Hq. destruct (G q c Hq) as [?|(e & He & ->)]; [by left|]. right.
  destruct (proj1 (List.Forall_forall _ _) HF e (proj1 (list_elem_of_In _ _) He)) as (D & Hu & Hj). destruct D as [?|(l & Hl & El & V)]; [done|].
  exists (pr_profile e.1), (pr_path e.1), l. split; [done|]. intros job Hjob. destruct (V Hu job Hjob) as (r0 & Hr0 & [Ei Em]).
  destruct (HI r0 Hr0) as (r & Hr & Eid & Ep & Hh). exists r. split; [done|]. split; [split; [by rewrite Eid|by rewrite Ep]|]. apply Hh. rewrite Ei.
  apply all_ids_has; [done|]. rewrite <- El. apply list_elem_of_In, List.in_map, list_elem_of_In, Hjob.
Qed.

Lemma untouched_settled auths s : untouched s -> settled auths s.
Proof. intros [_ S] q c Hq. left. by apply S. Qed.

Lemma hand_over_settles prepared :
  Forall describes prepared ->
  triple untouched (hand_over cwd uuid partial fuel sha256 tick operation_id prepared) (fun _ => settled ["omon_owned"]) (settled HANDS).
Proof.
  intros HD. unfold hand_over. destruct (List.find _ prepared) eqn:EF; [by apply triple_fail; intros s Hs; apply untouched_settled|].
  destruct (List.filter _ prepared) as [|p l] eqn:E; [by apply triple_ret; intros s Hs; apply untouched_settled|]. rewrite <- E. clear E p l.
  set (l := List.filter _ _).
  assert (HL : Forall fit l).
  { apply List.Forall_forall. intros x [Hx Hj]%List.filter_In. split; [by apply (proj1 (List.Forall_forall _ _) HD)|].
    pose proof (List.find_none _ _ EF _ Hx) as Hu. simpl in Hu. split; [destruct (unverified_jobs x); [done|discriminate Hu]|intros Ej; by rewrite Ej in Hj]. }
  assert (U : forall auths s, untouched s -> settled auths s) by (intros; by apply untouched_settled).
  eapply triple_bind; [eapply triple_weaken; [apply (back_up_untouched l)|done|intros bl s H1; exact H1|by apply U]|]. intros bl. apply triple_pure. intros Em.
  assert (HB : Forall (fun e => fit e.1) bl) by (rewrite <- Em in HL; exact (proj1 (List.Forall_map fst fit bl) HL)).
  eapply triple_bind with (R := fun _ => untouched); [apply triple_mem; intros s Hs; exact Hs|]. intros now.
  eapply triple_bind; [eapply triple_weaken; [apply (record_accounts bl now)|done|intros u s H1; exact H1|by apply U]|]. intros [].
  assert (A : forall auths s, accounted auths bl s -> settled auths s) by (intros; by apply accounted_settled with bl).
  eapply triple_bind; [eapply triple_weaken; [apply (triple_for_each (accounted HANDS bl) (accounted HANDS bl)); [done|intros e He; by apply rewrite_accounts]|done|intros u s H1; exact H1|by apply A]|].
  intros []. eapply triple_weaken; [apply commit_accounts|done|intros u s; apply A|intros s; apply A].
Qed.

Lemma untouched_looks : only_looks untouched.
Proof. apply steady_looks, untouched_steady. Qed.

(** From a database with no receipt pending. *)
Lemma cutover_settles journal_exists root :
  triple (fun s => untouched s /\ newest_pending (receipts s) = None)
    (cutover_cron_stores cwd arrange uuid partial fuel sha256 decode_error tick stamp operation_id journal_exists root false)
    (fun _ => settled ["omon_owned"]) (settled HANDS).
Proof.
  unfold cutover_cron_stores.
  assert (U : forall auths s, untouched s -> settled auths s) by (intros; by apply untouched_settled).
  assert (K : forall A (m : M CutState A), preserves untouched m -> triple untouched m (fun _ => untouched) (settled HANDS))
    by (intros A m Hm; apply triple_keep; [done|apply U]).
  eapply triple_bind with (R := fun _ => untouched).
  { eapply triple_bind with (R := fun _ => untouched); [|by intros r; apply triple_ret]. unfold reconcile_pending_cutover.
    eapply triple_bind; [eapply triple_weaken; [apply (triple_query (fun s => untouched s /\ newest_pending (receipts s) = None)); intros s H1; exact H1|done|intros a s H1; exact H1|by intros s [? _]; apply U]|].
    intros [|]; simpl; [|by apply triple_ret; intros s (_ & ? & _)].
    eapply triple_bind with (R := fun p s => untouched s /\ p = None).
    { eapply triple_weaken; [apply triple_query; intros s H1; exact H1|intros s H1; exact H1|by intros p s (-> & _ & ? & ?)|by intros s (_ & ? & _); apply U]. }
    intros p. apply triple_pure. intros ->. by apply triple_ret. }
  intros _. eapply triple_bind; [apply K, discover_looks, untouched_looks|]. intros stores. eapply triple_bind; [apply K, locks_look, untouched_looks|]. intros locks.
  eapply triple_bind; [apply K, preserves_for_each; intros p; apply (steady_grows untouched); [apply untouched_steady|apply acquire_stays]|]. intros [].
  eapply triple_bind; [eapply triple_weaken; [apply prepare_all_describes|done|intros ps s H1; exact H1|by apply U]|]. intros ps. apply triple_pure. intros Hps.
  eapply triple_bind; [by apply hand_over_settles|]. intros []. by apply triple_ret.
Qed.
End Owned.

(** C40: When no receipt is pending, a cutover that stops anywhere leaves each
    file as it was or has emptied it knowing its jobs: every job of the store
    the file was is in the table under its imported id, with a payload that
    matches, marked as being handed over or as the gateway's own; and as the
    gateway's own when the cutover ends well. *)
Theorem emptied_stores_are_owned cwd arrange uuid partial fuel `{Sqlite} `{CronLibs} sha256 decode_error tick stamp operation_id journal_exists root w :
  newest_pending (receipts (st w)) = None ->
  let '(r, w') := cutover_cron_stores cwd arrange uuid partial fuel sha256 decode_error tick stamp operation_id journal_exists root false w in
  let hands := match r with Ok _ => ["omon_owned"] | Err _ => ["cutover_pending"; "omon_owned"] end in
  forall q c, file_at (disk (st w)) q c ->
    file_at (disk (st w')) q c \/
    exists profile path l, parse_store_jobs decode_error path c = Ok l /\
      forall job, job ∈ l -> exists row, row ∈ jobs (crons (st w')) /\ imported_row profile job row /\ authority row ∈ hands.
Proof.
  intros Hn.
  assert (Hw : untouched (jobs (crons (st w))) (disk (st w)) (st w) /\ newest_pending (receipts (st w)) = None) by by split.
  pose proof (cutover_settles cwd arrange uuid partial fuel sha256 decode_error tick stamp operation_id (jobs (crons (st w))) (disk (st w))
    journal_exists root w Hw) as T.
  destruct (cutover_cron_stores _ _ _ _ _ _ _ _ _ _ _ _ _ w) as [[r|e] w']; exact T.
Qed.

(** ** A dry run *)

(** A dry run reads: files, jobs and receipts stay as they are. *)
Theorem dry_run_changes_nothing cwd arrange uuid partial fuel `{Sqlite} `{CronLibs} sha256 decode_error tick stamp operation_id journal_exists root w :
  let s' := st (cutover_cron_stores cwd arrange uuid partial fuel sha256 decode_error tick stamp operation_id journal_exists root true w).2 in
  disk s' = disk (st w) /\ crons s' = crons (st w) /\ receipts s' = receipts (st w) /\ legs s' = legs (st w).
Proof.
  set (I := fun s => disk s = disk (st w) /\ crons s = crons (st w) /\ receipts s = receipts (st w) /\ legs s = legs (st w)).
  assert (Looked : only_looks I).
  { intros A m Hm. apply preserves_zoom. intros s Hs. exists (eq (disk s)). split_and!; [done| |apply Hm]. intros fs <-. by destruct s. }
  enough (K : preserves I (cutover_cron_stores cwd arrange uuid partial fuel sha256 decode_error tick stamp operation_id journal_exists root true)) by by apply K.
  assert (Prepare : forall e, preserves I (prepare_store cwd sha256 decode_error tick stamp e)).
  { intros [profile path]. unfold prepare_store.
    apply preserves_bind; [apply Looked; intros; apply exists_looks|]. intros there. apply preserves_bind.
    { destruct there; [|apply preserves_ret]. apply preserves_bind; [apply Looked; intros; apply is_file_looks|].
      intros [|]; [apply Looked; intros; apply env_read_looks|apply preserves_fail]. }
    intros bytes. apply preserves_bind.
    { destruct (String.eqb bytes ""); [|apply preserves_ret]. apply preserves_bind; [apply Looked; intros; apply exists_looks|]. intros x. apply preserves_ret. }
    intros missing. apply preserves_bind; [destruct missing; [apply preserves_ret|apply preserves_lift]|]. intros l. apply preserves_bind.
    { induction l as [|job l IH]; cbn [check_jobs]; [apply preserves_ret|]. apply preserves_bind; [apply preserves_query|]. intros row.
      apply preserves_bind; [exact IH|]. intros [[ids un] dg]. apply preserves_ret. }
    intros [[ids un] dg]. apply preserves_bind; [apply preserves_lift|]. intros dir. apply preserves_bind; [apply preserves_lift|]. intros name.
    apply preserves_bind; [by apply preserves_mem|]. intros t. apply preserves_bind; [by apply preserves_mem|]. intros u. apply preserves_ret. }
  unfold cutover_cron_stores. apply preserves_bind; [apply preserves_ret|]. intros [].
  apply preserves_bind; [by apply discover_looks|]. intros stores. apply preserves_bind; [by apply locks_look|]. intros locks.
  apply preserves_bind; [apply preserves_ret|]. intros [].
  apply preserves_bind; [|intros ps; apply preserves_bind; [apply preserves_ret|]; intros []; apply preserves_ret].
  induction stores as [|e l IH]; cbn [prepare_all]; [apply preserves_ret|]. apply preserves_bind; [apply Prepare|]. intros p.
  apply preserves_bind; [exact IH|]. intros ps. apply preserves_ret.
Qed.

(** ** Findings and witnesses *)

Module SampleCutover.
(** A store of one job reads ["S"], its imported payload ["P"]; a store emptied prints as ["R"] and the time. *)
Definition a_job : value := JObject [("id", JString "a"); ("schedule", JObject [("kind", JString "interval"); ("minutes", JPos 5)])].
Definition libs : CronLibs := {|
  parse_rfc3339 := @parse_rfc3339 toy_libs; to_rfc3339 := @to_rfc3339 toy_libs; Tz := @Tz toy_libs; parse_tz := @parse_tz toy_libs;
  Sched := @Sched toy_libs; parse_schedule := @parse_schedule toy_libs; upcoming := @upcoming toy_libs;
  upcoming_after := @upcoming_after toy_libs;
  parse_json s := if String.eqb s "S" then Ok (JObject [("jobs", JArray [a_job])])
                  else if String.eqb s "P" then Ok (obj_insert SOURCE_KEY (JString "/h/cron/jobs.json") (encode_job (default sample_job (decode_job a_job))))
                  else if starts_with "R" s then Ok (JObject [("jobs", JArray [])])
                  else Err "unsupported";
  print_json v := match get "updated_at" v ≫= as_str with Some t => "R" ++ t | None => "D" end
|}.
#[local] Existing Instance libs.
#[local] Existing Instance floor_sqlite.

Definition uuid (_ : string) (k : nat) : string := string_of_list_ascii (List.repeat "u"%char (S k)).
Definition stamp (_ : Z) : string := "t".
Definition told (_ : value) : string := "invalid".
Definition names (l : list string) : list string := l.
Definition digest (s : string) : string := s.

Definition files (more : list (Canonical * Node)) : FS :=
  mkFS (list_to_map more ∪ {[ [] := Directory; ["h"] := Directory; ["h"; "cron"] := Directory; ["h"; "cron"; "jobs.json"] := File 0 ]})
    {[ 0%N := "S" ]}.
Definition row (profile : string) : CronJob := mkJob ("hermes:" ++ profile ++ ":a") None "every 5m" "P" true None 0 0 "hermes_mirror".
Definition start (fs : FS) (rows : list CronJob) : CutState := mkCut fs (mkCron rows [] [] [] None [] []) [] [] 0.
Definition ticking (n : nat) : Z := seconds (Z.of_nat n).
Definition attempt (op : string) (faults : list (option string)) : Attempt :=
  mkAttempt [] names uuid "" 8 ticking stamp op true "/h" false faults.
Definition run (op : string) (s : CutState) (faults : list (option string)) :=
  cutover_cron_stores [] names uuid "" 8 digest told ticking stamp op true "/h" false (mkWorld s faults).
Definition outcome {A} (r : result A OmonError * world CutState) : string := match r.1 with Ok _ => "ok" | Err e => error_text e end.
Definition holds (q : Canonical) (s : CutState) : option string :=
  match nodes (disk s) !! q with Some (File i) => Some (content i (disk s)) | _ => None end.
Definition STORE : Canonical := ["h"; "cron"; "jobs.json"].

(** One attempt, no fault: the store is emptied, its bytes kept, the job owned. *)
Example handed_over :
  let r := run "o" (start (files []) [row "default"]) [] in
  outcome r = "ok" /\ holds STORE (st r.2) = Some "R1000000000" /\ holds ["h"; "cron"; "jobs.json.bak-omon-migration-t"] (st r.2) = Some "S" /\
  map authority (jobs (crons (st r.2))) = ["omon_owned"] /\ map rc_status (receipts (st r.2)) = ["committed"].
Proof. vm_compute. repeat split. Qed.

(** A profile whose directory is a link to another's: its store is found twice,
    the second time it is found changed, and no later attempt gets past the
    receipt left behind. *)
Example linked_profile_wedges :
  let fs := files [(["h"; "profiles"], Directory); (["h"; "profiles"; "x"], Symlink "/h")] in
  let first := run "o" (start fs [row "default"; row "x"]) [] in
  let second := run "p" (st first.2) [] in
  outcome first = "configuration error: Hermes cron store changed during migration: /h/profiles/x/cron/jobs.json; refusing to empty stale state" /\
  map rc_status (receipts (st first.2)) = ["pending"] /\
  map authority (jobs (crons (st first.2))) = ["cutover_pending"; "cutover_pending"] /\
  outcome second = "configuration error: Hermes cron store /h/profiles/x/cron/jobs.json has unknown content during cutover recovery (hash does not match original or replacement); backups preserved at /h/profiles/x/cron/jobs.json.bak-omon-migration-t-u".
Proof. vm_compute. repeat split. Qed.

(** The import writes a profile's Discord home, and the timezone of its store,
    into the payload; the comparison leaves neither out, so a job imported so
    is never found to be the job of the store, and the cutover refuses. *)
Example home_blocks_cutover :
  let imported j := canonical_job_payload_matches (encode_job sample_job) (import_payload (mkHermesStore "default" "/h") j) in
  imported sample_job = true /\
  imported (with_home ("5", None) sample_job) = false /\
  imported (with_schedule (fun t => mkSchedule (kind t) (expr t) (sch_minutes t) (run_at t) (display t) (Some "UTC") (sch_extra t)) sample_job) = false.
Proof. vm_compute. repeat split. Qed.

(** The keys left out of the comparison are left out at any depth: a job with
    another [id] in one of its objects passes for the same job. *)
Example nested_difference_passes :
  let v id := JObject (("meta", JObject [("id", JString id)]) :: match a_job with JObject m => m | _ => [] end) in
  canonical_job_payload_matches (v "1") (v "2") = true.
Proof. vm_compute. reflexivity. Qed.
End SampleCutover.

Lemma hex_digit_pair c d :
  hex_digit (N_of_ascii c / 16) = hex_digit (N_of_ascii d / 16) -> hex_digit (N_of_ascii c mod 16) = hex_digit (N_of_ascii d mod 16) -> c = d.
Proof.
  assert (D : forall n m, (n < 16)%N -> (m < 16)%N -> hex_digit n = hex_digit m -> n = m).
  { intros n m Hn Hm E. apply (f_equal N_of_ascii) in E. unfold hex_digit in E.
    destruct (N.ltb_spec n 10), (N.ltb_spec m 10); rewrite !N_ascii_embedding in E; lia. }
  intros H1 H2. assert (B : forall x, (N_of_ascii x / 16 < 16)%N) by (intros x; apply N.Div0.div_lt_upper_bound, N_ascii_bounded).
  apply D in H1; [|apply B..]. apply D in H2; [|apply N.mod_lt; lia..]. rewrite <- (ascii_N_embedding c), <- (ascii_N_embedding d). f_equal.
  rewrite (N.Div0.div_mod (N_of_ascii c) 16), (N.Div0.div_mod (N_of_ascii d) 16). lia.
Qed.

(** The hexadecimal text of a digest determines it. *)
Lemma hex_of_inj a b : hex_of a = hex_of b -> a = b.
Proof.
  unfold hex_of. intros E. apply (f_equal list_ascii_of_string) in E. rewrite !list_ascii_of_string_of_list_ascii in E.
  revert b E. induction a as [|c a IH]; intros [|d b]; try done. cbn [list_ascii_of_string map List.concat app]. intros [= H1 H2 E].
  rewrite (hex_digit_pair c d H1 H2). f_equal. by apply IH.
Qed.

#[local] Existing Instance SampleCutover.libs.
#[local] Existing Instance floor_sqlite.

(** Two attempts on one store: the first stops with the store emptied and its
    receipt not told so, the second takes it up. *)
Definition ATTEMPTS : list Attempt :=
  [SampleCutover.attempt "o" (List.repeat None 24 ++ [Some "disk I/O error"])%list; SampleCutover.attempt "p" []].
Definition SAMPLE_START : CutState := SampleCutover.start (SampleCutover.files []) [SampleCutover.row "default"].

Lemma sample_attempt_ok op faults : attempt_ok (SampleCutover.attempt op faults).
Proof.
  split; [|done]. intros p k. simpl. by induction k as [|k IH].
Qed.

Lemma no_store_is_lost_witness :
  let after := fold_left (attempted SampleCutover.digest SampleCutover.told) ATTEMPTS SAMPLE_START in
  (SampleCutover.holds SampleCutover.STORE after = Some "R1000000000" /\ map authority (jobs (crons after)) = ["omon_owned"]) /\
  exists q, file_at (disk after) q "S".
Proof.
  split; [vm_compute; by split|].
  apply (no_store_is_lost SampleCutover.digest SampleCutover.told ATTEMPTS SAMPLE_START) with SampleCutover.STORE.
  - intros a b. apply hex_of_inj.
  - by intros v [=].
  - constructor; [|constructor; [|constructor]]; apply sample_attempt_ok.
  - by intros r ?%not_elem_of_nil.
  - exists 0%N. by split.
Defined.

Lemma emptied_stores_are_owned_witness :
  let ran := SampleCutover.run "o" SAMPLE_START [] in
  ran.1 = Ok [mkStoreSummary "default" 1 true true []] /\
  SampleCutover.holds SampleCutover.STORE SAMPLE_START = Some "S" /\ SampleCutover.holds SampleCutover.STORE (st ran.2) = Some "R1000000000" /\
  (file_at (disk (st ran.2)) SampleCutover.STORE "S" \/
   exists profile path l, parse_store_jobs SampleCutover.told path "S" = Ok l /\
     forall job, job ∈ l -> exists row, row ∈ jobs (crons (st ran.2)) /\ imported_row profile job row /\ authority row ∈ ["omon_owned"]).
Proof.
  intros ran. assert (E : ran.1 = Ok [mkStoreSummary "default" 1 true true []]) by (vm_compute; reflexivity).
  split; [done|]. split; [vm_compute; reflexivity|]. split; [vm_compute; reflexivity|].
  pose proof (emptied_stores_are_owned [] SampleCutover.names SampleCutover.uuid "" 8 SampleCutover.digest SampleCutover.told SampleCutover.ticking
    SampleCutover.stamp "o" true "/h" (mkWorld SAMPLE_START []) eq_refl) as K.
  unfold ran, SampleCutover.run in *. destruct (cutover_cron_stores _ _ _ _ _ _ _ _ _ _ _ _ _ _) as [r w']. simpl in E. subst r.
  apply (K SampleCutover.STORE "S"). by exists 0%N.
Defined.
